(* ===== verification/_CoqProject ===== *)
-Q . S2P
Prelude.v
GoSort.v
GoStrings.v
Scc.v
CycleSearch.v
BinHeap.v
Provider.v
GraphSelect.v
GraphOrder.v
GraphCycles.v
GraphConnect.v
GraphBuild.v
GraphTheorems.v
Debounce.v
Engine.v
EngineInvariant.v
EngineSafety.v
EngineTheorems.v
Sha256.v
GenPlan.v
GoRoot.v
GoPath.v
GenFs.v
GenDiff.v
GenSafety.v
GenProtect.v
GenEffect.v
GenSpec.v
GenRefine.v
GenConverge.v
GenFixpoint.v
GenTheorems.v
GoStrconv.v
Annotation.v
Validate.v
Bootstrap.v
BootstrapTheorems.v
Modulith.v
ModulithOwner.v
ModulithAssign.v
ModulithEdges.v
ModulithCycles.v
ModulithFinal.v
ModulithRender.v
ModulithTheorems.v
Parser.v
ParserGrammar.v
ParserLex.v
ParserSound.v
ParserComplete.v
ImportParser.v
ImportGrammar.v
ParserTheorems.v
Filter.v
Polling.v
PollTheorems.v
GoUrl.v
Diag.v
LspText.v
LspTextTheorems.v
LspServer.v
LspPaths.v
LspInvariant.v
LspReach.v
LspRun.v
LspTheorems.v
ServiceRequest.v
ServiceOptions.v
ServiceSession.v
LspFraming.v
LspSemantic.v
StyleConfig.v
Starter.v
GoWalk.v
AnnotationImports.v
ServiceSelections.v
SelectionTheorems.v
ModuleEnv.v
GenNames.v
GenUnits.v
