(* ===== verification/Prelude.v ===== *)
(** * The Spice toolchain: a model of its core and what it guarantees

    The repository is a Go toolchain: a compiler that reads annotated Go
    packages, assembles an application (providers, modules, endpoints), and
    writes generated source; a development loop that rebuilds and restarts the
    application as files change; and a command line and language server around
    them. This library models the parts that hold the program's own logic, as
    executable functions and step functions that follow the source, and proves
    what makes them correct.

    ** The parts and how they interact

    - [compiler/parser] reads the annotations and the annotation imports that
      the comments of a package hold; [compiler/resolve] binds them to symbols,
      and the later passes work on its results. [compiler/validate] checks each
      use of an annotation against its definition, [compiler/bootstrap] compiles
      those that enable features of an application.
    - The provider catalog ([compiler/provider]) lists the constructors of an
      application. [compiler/graph] connects them: it selects a provider for
      each declared dependency and finds the order of construction.
    - [compiler/modulith] reads the loaded packages and their annotations,
      assigns packages to application modules and checks the imports between
      modules. It uses the same search for strongly connected components as
      the graph, over maps instead of arrays.
    - The renderer ([compiler/generate]) turns the assembled application into a
      plan of files. [internal/genfs] compares a plan with the disk ([Check],
      [Diff]) and applies it ([ApplyWithOptions]) without touching what it does
      not own.
    - [internal/devloop] watches files, waits for a quiet moment, has the
      pipeline prepare a new candidate of the application and replaces the
      running one. The poller compares two scans of the workspace, the filter
      says which paths a scan looks at, the debouncer collects the events and
      the engine acts on a burst of them.
    - [compiler/diagnostic] is what every pass reports in: codes, locations,
      normal forms and sorted sets. [internal/lsp] turns sets into what an editor
      shows: the server keeps the open documents, analyses a workspace some time
      after a change, and publishes the result if nothing changed since.

    - [compiler/service] runs the passes for a request, with the open documents
      as an overlay, caches results and drops those that a newer request of the
      workspace has overtaken. The server and the command line call it.

    ** Files

    Go's library, as far as the code uses it: [Prelude] (outcomes, tactics,
    lists), [GoSort] (sort), [GoStrings] (strings, path, unicode/utf8, fmt, errors),
    [GoUrl] (net/url, path/filepath), [GoStrconv] (strconv),
    [GoWalk] (filepath.WalkDir on a tree of entries), [BinHeap]
    (container/heap), [Sha256] (crypto/sha256), [GoRoot] and [GoPath] (os.Root
    on a tree of files with a schedule of faults and crashes).

    Shared algorithms: [Scc] is [componentSearch] of
    src/compiler/modulith/modulith.go with the correctness of Tarjan's
    algorithm; [CycleSearch] is the backtracking search for a representative
    cycle of both packages.

    Provider graph, src/compiler/graph: [Provider] (records of
    src/compiler/provider/provider.go), [GraphSelect] (type index, selection,
    edges, diagnostics), [GraphOrder] ([constructionOrderWithStats]),
    [GraphCycles] ([stronglyConnected] over arrays, shown to simulate [Scc]),
    [GraphConnect], [GraphBuild] ([Build]), [GraphTheorems]. Proved: the construction order is a permutation with
    dependencies first and is the reference order of the least ready identity;
    cycles are reported exactly when they exist, with a true simple path; every
    dependency is accounted for; [Build] always returns; the type index against
    a scan of all providers, and the aliases it misses.

    Development loop, src/internal/devloop: [Debounce] (debounce.go and
    types.go), [Engine] (engine.go as a step function: one action is one case
    of the loop's select or one return of a call in a goroutine),
    [EngineInvariant], [EngineSafety], [EngineTheorems].
    Proved over every reachable state: only the latest revision becomes the
    application, each candidate and process has one owner and is disposed of
    once, a failed build keeps the running application, the goroutines drain
    and a run leaves nothing behind; and the interleaving in which the newest
    candidate is lost.

    Path filter and poller, src/internal/devloop: [Filter] (path.Match and filter.go),
    [Polling] (polling.go: the scan on [GoRoot] and the events), [PollTheorems]. Proved: a scan of a fault-free tree succeeds
    exactly when the watched entries are regular files within the limit, and
    holds exactly the watched paths; the events are exactly the differences of
    two scans, in order; replayed from the baseline they lead to the last
    successful scan, whatever fails between; and two rules that never act as
    their patterns say (a class with a slash, a rule for direct children).

    Guarded generation, src/internal/genfs/genfs.go with the plan of
    src/compiler/generate/generate.go: [GenPlan] (validation, manifest,
    ownership), [GenFs] (inspection and application on [GoRoot]), [GenDiff],
    [GenSafety], [GenProtect], [GenEffect], [GenSpec] (the contract),
    [GenRefine], [GenConverge], [GenFixpoint], [GenTheorems]. Proved: under every
    schedule of faults and crashes only owned and unmodified files change, on
    any tree; on a tree without symbolic links, for a plan whose paths lie apart,
    [ApplyWithOptions] refines its contract, and after a success [Check] reports the
    output as current and a second application changes nothing (an example shows
    that the contract is false when a link leads to a stale file); a held lock protects the target; [Check] and
    [Diff] only read; the diff is a bounded patch; path validation is exact.

    Application modules, src/compiler/modulith: [Modulith] (modulith.go, every
    pass of [BuildWithUniverse], [Owner], [Focus]), [ModulithOwner] (texts of
    dependencies, the longest root), [ModulithAssign] (modules, ownership,
    interfaces), [ModulithEdges] (imports),
    [ModulithCycles], [ModulithFinal] (the sorted model in terms of the
    stages), [ModulithTheorems], [ModulithRender] (the focused view, and render.go). Proved: the owner of a package is the longest root in
    its Go module; the edges are exactly the imports between modules; a model
    has no import diagnostic exactly when every such import is permitted; the
    cycles are exactly the components of at least two modules and are reported
    exactly when they exist; [Focus] ends and orders the reachable modules;
    dependencies print and parse back; diagrams show exactly the edges.

    Annotation parser, src/compiler/parser: [Annotation] (the parsed values, and what
    src/compiler/resolve/resolve.go hands to the passes),
    [Parser] (parser.go, the recursive descent on bytes and runes),
    [ParserGrammar] (runs of runes, and the grammar of annotations as inductive
    predicates, without the parser), [ParserLex] (tokens),
    [ParserSound], [ParserComplete], [ImportParser] (import.go),
    [ImportGrammar], [ParserTheorems].
    Proved: the parsers accept exactly their grammars and return what the text
    spells, the grammar of annotations is not ambiguous, every comment has an outcome, and a
    comment that starts with the at sign is an error exactly when it is not in
    the grammar.

    Validation and features: [Validate] (src/compiler/validate/validate.go with the
    registry of the annotation package), [Bootstrap] and [BootstrapTheorems]
    (src/compiler/bootstrap/bootstrap.go). Proved: an annotation has no
    diagnostic exactly when its use fits its definition; the features of an
    application are exactly those its annotations declare, in order and free of
    duplicates, and nothing is reported exactly when all of them are allowed;
    loggers are only exposed with logging and on the loopback interface; the
    order of the definitions does not matter.

    Diagnostics, src/compiler/diagnostic/diagnostic.go: [Diag]. Proved: the comparator is a strict weak order, a set is
    sorted and stable, merging does not depend on the grouping; and the paths
    for which a normal form is not one.

    Language server, src/internal/lsp: [LspText] (the text positions of
    features.go and analysis.go), [LspTextTheorems], [LspServer]
    (server.go and analysis.go as a step function: one action is a message of the
    client, a section under the lock, a write, a timer, or a return of the
    compiler), [LspPaths], [LspInvariant] (the invariant of the scheduler and
    each change of its state), [LspReach] (every step keeps it),
    [LspRun] (the goroutine of Run, services), [LspTheorems].
    Proved: UTF-16 positions and byte offsets invert each other; what is
    published; a stopping server ends and closes each service once. For a polite
    client, one that does not open a document twice and adds a folder again only
    when the work of its predecessor is over, and while no sequence number wraps
    ([polite]): a result is accepted exactly when the server is not closing and the
    result is that of the present documents and settings; one analysis per
    workspace is live; and when nothing is under way and the server does not shut
    down, every workspace that was scheduled has the answer to its present state.
    [LspTheorems] also shows what happens when a folder comes back earlier, and two interleavings
    after which the editor shows diagnostics that are gone.

    Compiler service, src/compiler/service: [ServiceRequest] (requests, overlays,
    targets), [ServiceOptions] (build flags and environment),
    [ServiceSession] (the state under the lock, its cache, and [Analyze] as a
    step relation between concurrent requests). Proved: overlays stay inside
    the workspace; an analysis is offline and, where it must be, pinned to its
    toolchain, whatever the environment holds; build tags are neither lost nor
    invented; the cache is a bounded least-recently-used list; a result is what
    an analysis of the request or of one with the same key gave, and is given
    out exactly when no newer request was made; at most one request of a
    workspace is live when its numbers are distinct, and what goes wrong when a
    number is used twice.

    Message framing and semantic tokens, src/internal/lsp: [LspFraming]
    (protocol.go: the reader over the bytes to come, and the writer as steps of
    concurrent calls) and [LspSemantic] (semantic.go). Proved: which headers are
    accepted (fewer than 64 lines before the empty one), and that what is read is
    bounded; frames of 1 byte to 16 MiB can be read back, and
    concurrent calls write whole frames; the tokens of a document are ordered and
    apart, and their relative encoding can be decoded.

    Style configuration, src/compiler/style/configuration.go: [StyleConfig].
    Proved: a file is accepted exactly when its one value obeys
    the rules for roots, levels, build selections and exceptions, written without
    the loops of the code; every error has a code of the schema; which roots are
    accepted. It discharges the interface that [ServiceOptions] asks of style
    configurations.

    Starter catalog, src/compiler/starter: [Starter] (catalog.go, dependency.go).
    Proved: a catalog is composed exactly when no
    manifest, entry point, annotation or capability comes twice and reviews of
    dependencies agree; which entry points an application activates; and that
    nothing is reported exactly when the modules are those that were reviewed, or
    nothing of an active starter was reviewed, in which case the module graph is not
    looked at.

    Annotation imports, src/compiler/annotationimport: [AnnotationImports]
    (resolve.go, discover.go). Proved: a name stands for its
    first binding and every other one is reported; which sources discovery
    reads; and that what any of them binds is preloaded.

    Build selections, src/compiler/service: [ServiceSelections]
    (style_selections.go with the summaries of types.go, and of summary.go the
    fixes and versions of diagnostics) and [SelectionTheorems]. Proved: a
    configured analysis reports nothing exactly when there is no selection, or each
    is clean with its entry points and applications, the applications of each that
    has any reach all its contributions, and every handwritten source was loaded; merged diagnostics and
    results are those of definitions that look each item up on its own; which
    sources count as handwritten.

    Module environment, src/internal/moduleenv/moduleenv.go: [ModuleEnv].
    Proved: the modules of a directory are its own or those of the nearest
    workspace, which lists it; a catalog of vendored modules is that of a
    declarative reading of the manifest and lies below the vendor directory; the
    go command runs offline. It discharges the search for a vendor tree that
    [ServiceOptions] asks for.

    Code generation, src/compiler/generate and src/compiler/targetid: [GenNames]
    (identities, identifiers, default targets, import aliases, component fields) and
    [GenUnits] (source_units.go: the generated file of each handwritten one).
    Proved: identities are canonical; guarded generation accepts a default target
    exactly when its identity is not a reserved name and its directory may be
    written; aliases are distinct, and
    names are when no base ends in a digit; a unit mirrors its source, holds exactly
    the providers of it, and a reported position is one at which the name stands.
    Examples show names that collide and two applications that cannot be rendered.

    ** How the code is modelled

    State is passed explicitly. A call with an error result is an [outcome]; in
    the engine and in genfs effects run in state-and-error monads over the
    world. Maps are finite maps ([gmap]), and the order of an iteration over a
    map is only used where the code sorts afterwards. Integers of the code stay
    far from their bounds (indices, counts, file modes) and are [nat] or [Z];
    times are nanoseconds in [Z]. Recursive closures have fuel: the component
    search as much as there are nodes, the cycle search the size of the
    component, the queue loop the number of providers, the focus search two more
    than the modules, the walk of a directory the size of the tree, the parsers
    one more than the length of the text, path.Match the length of the pattern
    and of the name, the search for a module root two more than the length of
    the directory, a byte offset the length of the line, the semantic tokens of a line one more
    than its length, the search for a nested module two more than the length of
    the path, the climb to a parent directory the length of the path, the search for
    an unused alias one more than there are aliases. Each is
    shown to be enough, so theorems state results and not only what holds if
    there is one.

    What is not under src is a class or a parameter: [GoTypes] (go/types),
    [UnicodeTables] and [CaseFold] (code points from U+0080 on), [GenLibraries]
    (encoding/json for manifests and the Go parser), [GoUrl] (net/url and the
    working directory), [Process] (the environment of the process and the search
    for a vendor tree). Of the compiler service the analysis of a request, the
    digest of its JSON are parameters too ([Analyses]). [JsonCodec] (encoding/json
    for messages), [StyleLibraries] (encoding/json and regexp for style
    configurations), [ManifestValidation] (the vendored package of manifests) and
    [GoScanner] (the comments of a text) are classes of the later parts, as are one
    analysis, the discovery of entry points and the file system of the build
    selections ([ApplicationResults], [SourceFiles], [SelectionCalls]). The module environment
    adds [ModuleFiles], [ModFile] (golang.org/x/mod) and [GoCommand], code generation
    [LowerTable] and [GoPrinter] (types.TypeString and format.Source).

    ** What is not modelled

    The passes over go/types and go/ast (scanner, resolver, controllers,
    configuration, style), the renderer's templates other than source units, the
    annotation hosts and
    release tooling: they walk data structures of libraries that are not part of
    the repository, or are input and output. In the modelled
    packages: the source fingerprint of devloop (fingerprint.go reads Go files
    with go/parser), Windows paths, a workspace that changes in the middle of
    one scan, symbolic links in the trees of the contract of [ApplyWithOptions]
    (the safety theorem covers them), and of the language server the JSON of
    messages and the requests that only read the state (completion, hover,
    navigation, the annotation tool commands); of the compiler service the
    generation scopes, the summaries it takes from go/types objects and the brief
    cache of annotation catalogs. *)
From stdpp Require Export base tactics decidable option list numbers strings gmap fin_maps sorting pretty.
From Stdlib Require Export Ascii Lia ZArith.

#[global] Set Default Goal Selector "!".

(** ** Results of fallible Go calls *)

(** A Go call with results [(T, error)]: either the value or the error. *)
Inductive outcome (E A : Type) : Type :=
  | Ok (a : A)
  | Fail (e : E).
Arguments Ok {_ _} _.
Arguments Fail {_ _} _.

#[export] Instance outcome_ret E : MRet (outcome E) := λ _ a, Ok a.
#[export] Instance outcome_bind E : MBind (outcome E) := λ _ _ k m,
  match m with Ok a => k a | Fail e => Fail e end.

Definition is_ok {E A} (m : outcome E A) : bool :=
  match m with Ok _ => true | Fail _ => false end.

(** [if cond { return err }] *)
Definition guard_or {E} (ok : bool) (e : E) : outcome E () :=
  if ok then Ok () else Fail e.

Lemma outcome_bind_ok {E A B} (m : outcome E A) (k : A → outcome E B) b :
  m ≫= k = Ok b ↔ ∃ a, m = Ok a ∧ k a = Ok b.
Proof. destruct m; simpl; naive_solver. Qed.

Lemma outcome_bind_fail {E A B} (m : outcome E A) (k : A → outcome E B) e :
  m ≫= k = Fail e ↔ m = Fail e ∨ ∃ a, m = Ok a ∧ k a = Fail e.
Proof. destruct m; simpl; naive_solver. Qed.

(** [if err := m; err != nil { return err }; k] *)
Lemma outcome_then_ok {E B} (m : outcome E ()) (k : outcome E B) b : (_ ← m; k) = Ok b ↔ m = Ok () ∧ k = Ok b.
Proof. destruct m as [[]|]; simpl; naive_solver. Qed.

Lemma guard_or_ok {E} ok (e : E) u : guard_or ok e = Ok u ↔ ok = true.
Proof. destruct ok, u; simpl; naive_solver. Qed.

(** ** Automation *)

Create HintDb spice discriminated.

(** Turn boolean tests of the code into the propositions they decide. *)
Ltac bool_prop :=
  repeat match goal with
  | H : bool_decide _ = true |- _ => apply bool_decide_eq_true in H
  | H : negb _ = false |- _ => apply negb_false_iff in H
  | H : _ || _ = false |- _ => apply orb_false_iff in H as [??]
  | H : bool_decide _ = false |- _ => apply bool_decide_eq_false in H
  | H : _ && _ = true |- _ => apply andb_true_iff in H as [??]
  | H : negb _ = true |- _ => apply negb_true_iff in H
  | H : (_ <? _)%nat = true |- _ => apply Nat.ltb_lt in H
  | H : (_ <? _)%nat = false |- _ => apply Nat.ltb_ge in H
  | H : (_ <=? _)%nat = true |- _ => apply Nat.leb_le in H
  | H : (_ <=? _)%nat = false |- _ => apply Nat.leb_gt in H
  | H : (_ <? _)%Z = true |- _ => apply Z.ltb_lt in H
  | H : (_ <? _)%Z = false |- _ => apply Z.ltb_ge in H
  | H : (_ <=? _)%Z = true |- _ => apply Z.leb_le in H
  | H : (_ <=? _)%Z = false |- _ => apply Z.leb_gt in H
  end.

(** Split every [match]/[if] of the goal or the hypotheses, then simplify. *)
Ltac split_cases :=
  repeat (case_match; simplify_eq/=; try done).

(** Peel the binds of a successful outcome. *)
Ltac inv_ok :=
  repeat match goal with
  | H : mbind _ _ = Ok _ |- _ =>
      apply outcome_bind_ok in H as (? & ? & ?)
  | H : guard_or _ _ = Ok _ |- _ => apply guard_or_ok in H
  | H : Ok _ = Ok _ |- _ => injection H as H; try subst
  | H : mret _ = Ok _ |- _ => injection H as H; try subst
  | H : Fail _ = Ok _ |- _ => discriminate H
  end.

(** ** Lists *)

Lemma StronglySorted_impl_in {A} (R R' : A → A → Prop) l :
  (∀ x y, x ∈ l → y ∈ l → R x y → R' x y) → StronglySorted R l → StronglySorted R' l.
Proof.
  intros Himpl. induction 1 as [|x l Hs IH Hx]; constructor.
  - apply IH. intros y z ??. apply Himpl; by right.
  - apply Forall_forall. intros y Hy. rewrite Forall_forall in Hx.
    apply Himpl; [by left|by right|auto].
Qed.

Lemma StronglySorted_fmap_in {A B} (f : A → B) (R : A → A → Prop) (R' : B → B → Prop) l :
  (∀ x y, x ∈ l → y ∈ l → R x y → R' (f x) (f y)) →
  StronglySorted R l → StronglySorted R' (f <$> l).
Proof.
  intros Himpl. induction 1 as [|x l Hs IH Hx]; simpl; constructor.
  - apply IH. intros y z ??. apply Himpl; by right.
  - apply Forall_forall. intros y (z & -> & Hz)%list_elem_of_fmap.
    rewrite Forall_forall in Hx. apply Himpl; [by left|by right|auto].
Qed.

Lemma StronglySorted_app_rel {A} (R : A → A → Prop) l1 l2 :
  StronglySorted R (l1 ++ l2) ↔
  StronglySorted R l1 ∧ StronglySorted R l2 ∧ ∀ x y, x ∈ l1 → y ∈ l2 → R x y.
Proof.
  induction l1 as [|x l1 IH]; simpl.
  - split; [|naive_solver]. intros ?. split_and!; [constructor|done|].
    by intros ?? ?%elem_of_nil.
  - split.
    + inversion 1 as [|?? Hs Hx]; subst. rewrite Forall_forall in Hx.
      apply IH in Hs as (?&?&?). split_and!; [|done|].
      * constructor; [done|]. apply Forall_forall. intros y ?. apply Hx, elem_of_app. by left.
      * intros y z [->|?]%elem_of_cons ?; [|eauto]. apply Hx, elem_of_app. by right.
    + intros (Hs & ? & Hc). inversion Hs as [|?? Hs' Hx]; subst.
      constructor.
      * apply IH. split_and!; [done..|]. intros. apply Hc; [by right|done].
      * rewrite Forall_forall in *. intros y [?|?]%elem_of_app; [auto|].
        apply Hc; [by left|done].
Qed.

Lemma elem_of_concat {A} (x : A) (ls : list (list A)) :
  x ∈ concat ls ↔ ∃ l, l ∈ ls ∧ x ∈ l.
Proof.
  induction ls as [|l ls IH]; simpl.
  - split; [by intros ?%elem_of_nil|]. by intros (? & ?%elem_of_nil & _).
  - rewrite elem_of_app, IH. setoid_rewrite elem_of_cons. naive_solver.
Qed.

#[export] Instance concat_perm {A} : Proper ((≡ₚ) ==> (≡ₚ)) (@concat A).
Proof.
  induction 1 as [|l ls ks _ IH|l k ls|ls ks js _ IH1 _ IH2]; simpl; [done| | |by rewrite IH1].
  - by rewrite IH.
  - by rewrite !app_assoc, (Permutation_app_comm k l).
Qed.

Lemma NoDup_key {A B} (f : A → B) l x y : NoDup (f <$> l) → x ∈ l → y ∈ l → f x = f y → x = y.
Proof.
  intros Hnd [i Hi]%list_elem_of_lookup [j Hj]%list_elem_of_lookup Hf.
  assert (i = j) as ->; [|congruence]. apply (NoDup_lookup (f <$> l) i j (f x)); [done|..].
  - by rewrite list_lookup_fmap, Hi.
  - by rewrite list_lookup_fmap, Hj, Hf.
Qed.

(** An index by a key that differs from element to element. *)
Definition index_by {A} (key : A → string) (m : gmap string A) (l : list A) : gmap string A :=
  foldl (λ index x, <[key x := x]> index) m l.

Lemma index_by_lookup {A} (key : A → string) m l k x :
  NoDup (key <$> l) →
  index_by key m l !! k = Some x ↔ (x ∈ l ∧ key x = k) ∨ (k ∉ key <$> l ∧ m !! k = Some x).
Proof.
  unfold index_by. revert m. induction l as [|y l IH]; intros m Hnd; simpl.
  - split; [right; split; [apply not_elem_of_nil|done]|by intros [[[]%elem_of_nil _]|[_ ?]]].
  - apply NoDup_cons in Hnd as [Hy Hnd]. rewrite (IH _ Hnd), not_elem_of_cons, elem_of_cons.
    destruct (decide (key y = k)) as [<-|Hne].
    + rewrite lookup_insert_eq. split.
      * intros [[Hin Hn]|[_ [= ->]]]; left; auto.
      * intros [[[->|Hin] Hn]|[[[] ?] ?]]; [by right|by left|done].
    + rewrite lookup_insert_ne by done. split; [naive_solver|]. intros [[[->|Hin] Hn]|[[? ?] ?]]; naive_solver.
Qed.

Lemma index_by_empty {A} (key : A → string) l k x :
  NoDup (key <$> l) → index_by key ∅ l !! k = Some x ↔ x ∈ l ∧ key x = k.
Proof. intros Hnd. rewrite index_by_lookup by done. rewrite lookup_empty. naive_solver. Qed.

Lemma index_by_snoc {A} (key : A → string) m l x : index_by key m (l ++ [x]) = <[key x := x]> (index_by key m l).
Proof. unfold index_by. by rewrite foldl_app. Qed.

Lemma fmap_nil_iff {A B} (f : A → B) (l : list A) : f <$> l = [] ↔ l = [].
Proof. by destruct l. Qed.

Lemma concat_nil_iff {A} (ls : list (list A)) : concat ls = [] ↔ ∀ l, l ∈ ls → l = [].
Proof.
  induction ls as [|l ls IH]; simpl; [split; [by intros _ l ?%elem_of_nil|done]|].
  rewrite app_nil, IH. setoid_rewrite elem_of_cons. naive_solver.
Qed.

Lemma insert_Permutation_delete {A} (l : list A) i x y :
  l !! i = Some x → <[i:=y]> l ≡ₚ y :: delete i l.
Proof.
  revert i. induction l as [|z l IH]; intros [|i] Hi; simplify_eq/=; [done|].
  rewrite (IH i Hi). apply Permutation_swap.
Qed.

Lemma omap_cons_option {A B} (f : A → option B) x l : omap f (x :: l) = option_list (f x) ++ omap f l.
Proof. simpl. by destruct (f x). Qed.

Lemma cons_snoc_app {A} (x : A) (l k : list A) : l ++ x :: k = (l ++ [x]) ++ k.
Proof. by rewrite <-app_assoc. Qed.

Lemma filter_ext_in {A} (P Q : A → Prop) `{!∀ x, Decision (P x), !∀ x, Decision (Q x)} (l : list A) :
  (∀ x, x ∈ l → P x ↔ Q x) → filter P l = filter Q l.
Proof.
  induction l as [|x l IH]; intros HPQ; [done|]. rewrite !filter_cons.
  assert (P x ↔ Q x) by (apply HPQ; left).
  rewrite IH by (intros; apply HPQ; by right). repeat case_decide; naive_solver.
Qed.
