(* ===== verification/GoSort.v ===== *)
(** Go's [sort] package as the toolchain uses it: comparators written as
    [less(i, j)] functions, [sort.SliceStable], [sort.Slice], [sort.Strings]
    and the byte order on strings.

    [sort.Slice] leaves the order of elements that compare equal unspecified;
    the model sorts stably, and [sort_slice_unique] shows that any other
    sorting permutation is the same list as soon as the comparator is total on
    the elements. *)
From S2P Require Import Prelude.

(** ** The byte order [<] on Go strings *)

Fixpoint str_ltb (s t : string) : bool :=
  match s, t with
  | _, EmptyString => false
  | EmptyString, String _ _ => true
  | String a s', String b t' =>
      if (N_of_ascii a <? N_of_ascii b)%N then true
      else if (N_of_ascii b <? N_of_ascii a)%N then false
      else str_ltb s' t'
  end.

Section comparators.
Context {A : Type}.
Implicit Types less : A → A → bool.

(** A strict weak order: what [sort] requires of a comparator. *)
Class StrictWeak less : Prop := {
  sw_irrefl x : less x x = false;
  sw_trans x y z : less x y = true → less y z = true → less x z = true;
  sw_split x y z : less x y = true → less x z = true ∨ less z y = true;
}.

(** A strict total order: elements that compare equal are equal. *)
Class StrictTotal less : Prop := {
  st_weak :: StrictWeak less;
  st_total x y : less x y = false → less y x = false → x = y;
}.

Lemma sw_asym less `{!StrictWeak less} x y :
  less x y = true → less y x = false.
Proof.
  intros Hxy. destruct (less y x) eqn:Hyx; [|done].
  pose proof (sw_trans x y x Hxy Hyx) as Hxx. by rewrite (sw_irrefl x) in Hxx.
Qed.

Lemma sw_le_trans less `{!StrictWeak less} x y z :
  less y x = false → less z y = false → less z x = false.
Proof.
  intros Hyx Hzy. destruct (less z x) eqn:Hzx; [|done].
  destruct (sw_split z x y Hzx); congruence.
Qed.

(** [if left.f != right.f { return left.f < right.f }; rest] *)
Definition by_key {K} `{EqDecision K} (f : A → K) (lt : K → K → bool)
    (rest : A → A → bool) : A → A → bool := λ left right,
  if decide (f left = f right) then rest left right else lt (f left) (f right).

(** [return left.f < right.f] *)
Definition on_key {K} (f : A → K) (lt : K → K → bool) : A → A → bool :=
  λ left right, lt (f left) (f right).
End comparators.

Lemma str_ltb_cons a b s t :
  str_ltb (String a s) (String b t) = true ↔
  (N_of_ascii a < N_of_ascii b)%N ∨ a = b ∧ str_ltb s t = true.
Proof.
  simpl. destruct (N.ltb_spec (N_of_ascii a) (N_of_ascii b)); [naive_solver|].
  destruct (N.ltb_spec (N_of_ascii b) (N_of_ascii a)).
  - split; [done|]. intros [?|[-> ?]]; lia.
  - assert (a = b) as ->; [|naive_solver lia].
    rewrite <-(ascii_N_embedding a), <-(ascii_N_embedding b). f_equal. lia.
Qed.

#[export] Instance str_ltb_total : StrictTotal str_ltb.
Proof.
  split; [split|].
  - induction x; simpl; [done|]. by rewrite N.ltb_irrefl.
  - induction x as [|a x IH]; intros [|b y] [|c z]; try done.
    rewrite !str_ltb_cons. intros [?|[-> ?]] [?|[-> ?]]; [left; lia..|].
    right. eauto.
  - induction x as [|a x IH]; intros [|b y] [|c z]; try (by auto).
    rewrite !str_ltb_cons. intros [Hab|[-> Hxy]].
    + destruct (N.lt_trichotomy (N_of_ascii a) (N_of_ascii c)) as [?|[E|?]];
        [auto| |right; left; lia]. right. left. lia.
    + destruct (N.lt_trichotomy (N_of_ascii b) (N_of_ascii c)) as [?|[E|?]]; [auto| |auto].
      assert (b = c) as ->; [|naive_solver].
      by rewrite <-(ascii_N_embedding b), <-(ascii_N_embedding c), E.
  - induction x as [|a x IH]; intros [|b y]; try done.
    rewrite <-!not_true_iff_false, !str_ltb_cons.
    intros H1 H2. assert (a = b) as ->.
    { rewrite <-(ascii_N_embedding a), <-(ascii_N_embedding b). f_equal.
      destruct (N.lt_trichotomy (N_of_ascii a) (N_of_ascii b)) as [?|[E|?]]; naive_solver. }
    f_equal. apply IH; apply not_true_is_false; naive_solver.
Qed.

#[export] Instance nat_ltb_total : StrictTotal Nat.ltb.
Proof.
  split; [split|]; intros *; rewrite ?Nat.ltb_lt, ?Nat.ltb_ge; try lia.
Qed.

#[export] Instance Z_ltb_total : StrictTotal Z.ltb.
Proof.
  split; [split|]; intros *; rewrite ?Z.ltb_lt, ?Z.ltb_ge; try lia.
Qed.

#[export] Instance on_key_weak {A K} (f : A → K) lt :
  StrictWeak lt → StrictWeak (on_key f lt).
Proof. intros []. split; unfold on_key; eauto. Qed.

#[export] Instance by_key_weak {A K} `{EqDecision K} (f : A → K) lt rest :
  StrictTotal lt → StrictWeak rest → StrictWeak (by_key f lt rest).
Proof.
  intros [[Hi Ht Hs] Htot] [Hi' Ht' Hs']. split; unfold by_key.
  - intros x. by rewrite decide_True.
  - intros x y z. repeat case_decide; try congruence; eauto.
    + intros Hxy Hyz. assert (lt (f x) (f x) = true) as Hc by (apply (Ht _ (f y)); congruence).
      by rewrite Hi in Hc.
  - intros x y z. destruct (decide (f x = f y)) as [Exy|Nxy].
    + destruct (decide (f x = f z)) as [Exz|Nxz];
        [rewrite decide_True by congruence; eauto|].
      rewrite decide_False by congruence. intros _. rewrite <-Exy.
      destruct (lt (f x) (f z)) eqn:E1; [by left|right].
      destruct (lt (f z) (f x)) eqn:E2; [done|]. by destruct Nxz; apply Htot.
    + intros Hlt. destruct (decide (f x = f z)) as [Exz|Nxz].
      { right. rewrite decide_False; congruence. }
      destruct (decide (f z = f y)) as [Ezy|Nzy]; [left; congruence|eauto].
Qed.

(** ** Stable sorting *)

Section sorting.
Context {A : Type} (less : A → A → bool).

Fixpoint sort_insert (x : A) (l : list A) : list A :=
  match l with
  | [] => [x]
  | y :: l' => if less y x then y :: sort_insert x l' else x :: y :: l'
  end.

(** [sort.SliceStable(l, less)] *)
Fixpoint sort_stable (l : list A) : list A :=
  match l with
  | [] => []
  | x :: l' => sort_insert x (sort_stable l')
  end.

Definition not_after (x y : A) : Prop := less y x = false.

Lemma sort_insert_perm x l : sort_insert x l ≡ₚ x :: l.
Proof.
  induction l as [|y l IH]; simpl; [done|].
  case_match; [|done]. rewrite IH. constructor.
Qed.

Lemma sort_stable_perm l : sort_stable l ≡ₚ l.
Proof.
  induction l as [|x l IH]; simpl; [done|].
  by rewrite sort_insert_perm, IH.
Qed.

Lemma elem_of_sort_stable x l : x ∈ sort_stable l ↔ x ∈ l.
Proof. by rewrite sort_stable_perm. Qed.

Lemma length_sort_stable l : length (sort_stable l) = length l.
Proof. by rewrite sort_stable_perm. Qed.

Lemma NoDup_sort_stable l : NoDup (sort_stable l) ↔ NoDup l.
Proof. by rewrite sort_stable_perm. Qed.

Context `{!StrictWeak less}.

#[local] Instance not_after_trans : Transitive not_after.
Proof. intros x y z ??. by eapply sw_le_trans. Qed.

Lemma sort_insert_sorted x l :
  StronglySorted not_after l → StronglySorted not_after (sort_insert x l).
Proof.
  induction 1 as [|y l Hs IH Hall]; simpl; [by repeat constructor|].
  case_match.
  - constructor; [done|]. apply Forall_forall. intros z.
    rewrite sort_insert_perm, elem_of_cons. rewrite Forall_forall in Hall.
    intros [->|?]; [|by apply Hall]. by apply sw_asym.
  - constructor; [by constructor|]. constructor; [done|].
    eapply Forall_impl; [done|]. intros z ?. by eapply not_after_trans.
Qed.

Lemma sort_stable_sorted l : StronglySorted not_after (sort_stable l).
Proof.
  induction l as [|x l IH]; simpl; [constructor|]. by apply sort_insert_sorted.
Qed.

(** Sorting is the identity on a sorted list: the sort is idempotent. *)
Lemma sort_insert_le x l :
  Forall (not_after x) l → sort_insert x l = x :: l.
Proof. destruct l as [|y l]; [done|]. inversion 1; subst; simpl. case_match; congruence. Qed.

Lemma sort_stable_id l : StronglySorted not_after l → sort_stable l = l.
Proof.
  induction 1 as [|x l ? IH ?]; simpl; [done|]. rewrite IH. by apply sort_insert_le.
Qed.

Lemma sort_stable_idemp l : sort_stable (sort_stable l) = sort_stable l.
Proof. apply sort_stable_id, sort_stable_sorted. Qed.

(** Two sorted permutations agree when no two elements of the list compare
    equal: the algorithm behind [sort.Slice] does not matter then. *)
Lemma sorted_perm_unique l k :
  (∀ x y, x ∈ l → y ∈ l → less x y = false → less y x = false → x = y) →
  StronglySorted not_after l → StronglySorted not_after k → l ≡ₚ k → l = k.
Proof.
  intros Htot Hl. revert k. induction Hl as [|x l Hl IH Hx]; intros k Hk Hp.
  { symmetry in Hp. by apply Permutation_nil_r in Hp as ->. }
  destruct Hk as [|y k Hk Hy]; [by apply Permutation_nil_r in Hp|].
  assert (x = y) as ->.
  { rewrite Forall_forall in Hx, Hy.
    assert (x ∈ y :: k) as [->|Hxk]%elem_of_cons by (rewrite <-Hp; left); [done|].
    assert (y ∈ x :: l) as [->|Hyl]%elem_of_cons by (rewrite Hp; left); [done|].
    apply Htot; [by left|by right| |]; [apply (Hy _ Hxk)|apply (Hx _ Hyl)]. }
  f_equal. apply IH; [|done|by apply Permutation_cons_inv in Hp].
  intros u v Hu Hv. apply Htot; by right.
Qed.

Lemma sort_slice_unique l k :
  (∀ x y, x ∈ l → y ∈ l → less x y = false → less y x = false → x = y) →
  k ≡ₚ l → StronglySorted not_after k → k = sort_stable l.
Proof.
  intros Htot Hp Hk. symmetry. apply sorted_perm_unique; [|apply sort_stable_sorted|done|].
  - intros x y. rewrite !elem_of_sort_stable. apply Htot.
  - by rewrite sort_stable_perm, Hp.
Qed.

(** Sorting forgets the order of the input when the comparator separates
    its elements: iteration over a Go map followed by a sort is
    deterministic. *)
Lemma sort_stable_perm_eq l k :
  (∀ x y, x ∈ l → y ∈ l → less x y = false → less y x = false → x = y) →
  k ≡ₚ l → sort_stable k = sort_stable l.
Proof.
  intros Htot Hp. apply sort_slice_unique; [done| |apply sort_stable_sorted].
  by rewrite sort_stable_perm.
Qed.
End sorting.

(** [sort.Slice] and [sort.Strings]. *)
Definition sort_slice {A} (less : A → A → bool) (l : list A) : list A :=
  sort_stable less l.
Definition sort_strings (l : list string) : list string := sort_stable str_ltb l.

Lemma elem_of_sort_strings x l : x ∈ sort_strings l ↔ x ∈ l.
Proof. apply elem_of_sort_stable. Qed.

Lemma sort_strings_perm_eq l k : l ≡ₚ k → sort_strings l = sort_strings k.
Proof.
  intros Hp. apply sort_stable_perm_eq; [apply _| |done].
  intros x y _ _. apply st_total.
Qed.

(** Distinct strings come out strictly increasing. *)
Lemma sort_strings_strict l : NoDup l → StronglySorted (λ x y, str_ltb x y = true) (sort_strings l).
Proof.
  intros Hnd. assert (NoDup (sort_strings l)) as Hnd' by by apply NoDup_sort_stable.
  assert (StronglySorted (not_after str_ltb) (sort_strings l)) as Hs
    by (apply sort_stable_sorted; apply _).
  induction Hs as [|x k Hs IH Hx]; constructor; apply NoDup_cons in Hnd' as [Hnx Hnd']; [auto|].
  rewrite Forall_forall in *. intros y Hy. specialize (Hx y Hy). unfold not_after in Hx.
  destruct (str_ltb x y) eqn:E; [done|]. destruct Hnx.
  by rewrite (st_total (StrictTotal := str_ltb_total) x y E Hx).
Qed.

(** The head of a sorted list is a least element. *)
Lemma sort_stable_head {A} (less : A → A → bool) `{!StrictWeak less} l x l' :
  sort_stable less l = x :: l' → x ∈ l ∧ ∀ y, y ∈ l → less y x = false.
Proof.
  intros E. pose proof (sort_stable_sorted less l) as Hs. rewrite E in Hs.
  inversion Hs as [|?? ? Hx]; subst. rewrite Forall_forall in Hx. split.
  - rewrite <-(elem_of_sort_stable less), E. left.
  - intros y. rewrite <-(elem_of_sort_stable less), E.
    intros [->|Hy]%elem_of_cons; [apply sw_irrefl|by apply Hx].
Qed.

(** Distinct keys come out strictly increasing. *)
Lemma sort_stable_strict {A} (key : A → string) rest `{!StrictWeak rest} l :
  NoDup (key <$> l) →
  StronglySorted (λ x y, str_ltb (key x) (key y) = true) (sort_stable (by_key key str_ltb rest) l).
Proof.
  intros Hnd. set (less := by_key key str_ltb rest).
  assert (NoDup (key <$> sort_stable less l)) as Hnd' by by rewrite sort_stable_perm.
  assert (StronglySorted (not_after less) (sort_stable less l)) as Hs by (apply sort_stable_sorted; apply _).
  induction Hs as [|x k Hs IH Hx]; constructor; apply NoDup_cons in Hnd' as [Hnx Hnd']; [auto|].
  rewrite Forall_forall in *. intros y Hy. specialize (Hx y Hy). unfold not_after, less, by_key in Hx.
  assert (key y ≠ key x) as Hne by (intros Heq; apply Hnx; rewrite <- Heq; by apply list_elem_of_fmap_2).
  rewrite decide_False in Hx by done. destruct (str_ltb (key x) (key y)) eqn:E; [done|]. destruct Hne.
  by rewrite (st_total (StrictTotal := str_ltb_total) _ _ E Hx).
Qed.

(** [sort.Slice] by keys that are distinct. *)
Lemma sort_slice_strict {A} (key : A → string) l :
  NoDup (key <$> l) →
  StronglySorted (λ left right, str_ltb (key left) (key right) = true) (sort_slice (on_key key str_ltb) l).
Proof.
  intros Hnd. assert (NoDup (key <$> sort_slice (on_key key str_ltb) l)) as Hnd' by (unfold sort_slice; by rewrite sort_stable_perm).
  assert (StronglySorted (not_after (on_key key str_ltb)) (sort_slice (on_key key str_ltb) l)) as Hs by (apply sort_stable_sorted; apply _).
  induction Hs as [|x k Hs IH Hx]; constructor; apply NoDup_cons in Hnd' as [Hnx Hnd']; [auto|].
  rewrite Forall_forall in *. intros y Hy. specialize (Hx y Hy). unfold not_after, on_key in Hx.
  destruct (str_ltb (key x) (key y)) eqn:E; [done|]. destruct Hnx.
  rewrite (st_total (StrictTotal := str_ltb_total) _ _ E Hx). by apply list_elem_of_fmap_2.
Qed.

Lemma sort_stable_nil {A} (less : A → A → bool) l : sort_stable less l = [] ↔ l = [].
Proof. rewrite <- !length_zero_iff_nil. by rewrite length_sort_stable. Qed.

#[export] Hint Rewrite @elem_of_sort_stable @length_sort_stable elem_of_sort_strings : spice.
#[export] Hint Resolve sort_stable_perm sort_stable_sorted : spice.
