(* ===== verification/GoStrings.v ===== *)
(** Go strings: byte strings with the parts of [strings], [path],
    [path/filepath] (Unix), [unicode], [unicode/utf8], [strconv] and [fmt] the
    toolchain uses, and Go error values.

    The properties of code points from U+0080 on that come from Go's Unicode
    tables are a typeclass, [UnicodeTables]; everything below U+0080, the white
    space set and the UTF-8 coding are definitions. An error is a sentinel, a plain
    error, a value of an error type of the toolchain (its name and its Error text),
    an error wrapped with a message and the w verb, or a join ([errors.Join],
    [errors.Is]); a nil error is [None]. *)
From S2P Require Import Prelude GoSort.

(** ** Bytes and slices of strings *)

Definition byte_of (c : ascii) : N := N_of_ascii c.
Definition chr (n : N) : ascii := ascii_of_N n.
Definition str1 (c : ascii) : string := String c EmptyString.

(** [s[n:]] and [s[:n]], for [n] within the string. *)
Fixpoint str_drop (n : nat) (s : string) : string :=
  match n, s with
  | O, _ => s
  | S n', String _ s' => str_drop n' s'
  | S _, EmptyString => EmptyString
  end.

Fixpoint str_take (n : nat) (s : string) : string :=
  match n, s with
  | S n', String c s' => String c (str_take n' s')
  | _, _ => EmptyString
  end.

(** [s[i:j]] *)
Definition str_slice (i j : nat) (s : string) : string := str_take (j - i) (str_drop i s).

Fixpoint str_get (n : nat) (s : string) : option ascii :=
  match n, s with
  | O, String c _ => Some c
  | S n', String _ s' => str_get n' s'
  | _, EmptyString => None
  end.

Fixpoint str_rev_app (s acc : string) : string :=
  match s with EmptyString => acc | String c s' => str_rev_app s' (String c acc) end.
Definition str_rev (s : string) : string := str_rev_app s "".

(** ** Package strings *)

Fixpoint has_prefix (s prefix : string) : bool :=
  match prefix, s with
  | EmptyString, _ => true
  | String a p', String b s' => if ascii_dec a b then has_prefix s' p' else false
  | String _ _, EmptyString => false
  end.

Definition has_suffix (s suffix : string) : bool :=
  (String.length suffix <=? String.length s)%nat &&
  bool_decide (str_drop (String.length s - String.length suffix) s = suffix).

Definition trim_prefix (s prefix : string) : string :=
  if has_prefix s prefix then str_drop (String.length prefix) s else s.

Definition trim_suffix (s suffix : string) : string :=
  if has_suffix s suffix then str_take (String.length s - String.length suffix) s else s.

(** [strings.Cut(s, sep)], [sep] not empty: the text before and after the
    first separator. *)
Fixpoint cut (s sep : string) : string * string * bool :=
  if has_prefix s sep then ("", str_drop (String.length sep) s, true)
  else match s with
       | EmptyString => ("", "", false)
       | String c s' =>
           let '(before, after, found) := cut s' sep in (String c before, after, found)
       end.

Definition contains (s sub : string) : bool := (cut s sub).2.

(** [strings.Count(s, sep)] for a separator that is not empty. *)
Fixpoint count_aux (fuel : nat) (s sep : string) : nat :=
  match fuel with
  | O => O
  | S fuel' =>
      let '(_, after, found) := cut s sep in
      if found : bool then S (count_aux fuel' after sep) else O
  end.
Definition count (s sep : string) : nat := count_aux (S (String.length s)) s sep.

(** [strings.Split(s, sep)] for a one-byte separator. *)
Fixpoint split_byte (sep : ascii) (s : string) : list string :=
  match s with
  | EmptyString => [""]
  | String c s' =>
      if ascii_dec c sep then "" :: split_byte sep s'
      else match split_byte sep s' with
           | [] => [str1 c]
           | part :: rest => String c part :: rest
           end
  end.

(** [strings.Join(l, sep)] *)
Fixpoint join (l : list string) (sep : string) : string :=
  match l with
  | [] => ""
  | [s] => s
  | s :: l' => s +:+ sep +:+ join l' sep
  end.

(** [strings.ContainsAny(s, chars)] for ASCII [chars]. *)
Fixpoint contains_any (s : string) (chars : list ascii) : bool :=
  match s with
  | EmptyString => false
  | String c s' => bool_decide (c ∈ chars) || contains_any s' chars
  end.

Fixpoint contains_byte (s : string) (b : ascii) : bool :=
  match s with
  | EmptyString => false
  | String c s' => if ascii_dec c b then true else contains_byte s' b
  end.

(** ** UTF-8 *)

Definition rune_error : N := 65533.

Definition in_range (lo hi n : N) : bool := ((lo <=? n) && (n <=? hi))%N.

(** [utf8.DecodeRuneInString]: the rune and its width; an invalid encoding
    yields [RuneError] with width one. *)
Definition decode_rune (s : string) : N * nat :=
  match s with
  | EmptyString => (rune_error, 0%nat)
  | String c0 r0 =>
    let p0 := byte_of c0 in
    if (p0 <? 128)%N then (p0, 1%nat)
    else if (negb (in_range 194 244 p0)) then (rune_error, 1%nat)
    else match r0 with
    | EmptyString => (rune_error, 1%nat)
    | String c1 r1 =>
      let b1 := byte_of c1 in
      let lo := (if p0 =? 224 then 160 else if p0 =? 240 then 144 else 128)%N in
      let hi := (if p0 =? 237 then 159 else if p0 =? 244 then 143 else 191)%N in
      if negb (in_range lo hi b1) then (rune_error, 1%nat)
      else if (p0 <? 224)%N then (((p0 - 192) * 64 + (b1 - 128))%N, 2%nat)
      else match r1 with
      | EmptyString => (rune_error, 1%nat)
      | String c2 r2 =>
        let b2 := byte_of c2 in
        if negb (in_range 128 191 b2) then (rune_error, 1%nat)
        else if (p0 <? 240)%N
        then (((p0 - 224) * 4096 + (b1 - 128) * 64 + (b2 - 128))%N, 3%nat)
        else match r2 with
        | EmptyString => (rune_error, 1%nat)
        | String c3 _ =>
          let b3 := byte_of c3 in
          if negb (in_range 128 191 b3) then (rune_error, 1%nat)
          else (((p0 - 240) * 262144 + (b1 - 128) * 4096 + (b2 - 128) * 64 + (b3 - 128))%N,
                4%nat)
        end
      end
    end
  end.

(** [utf8.AppendRune]; a surrogate or an out-of-range value encodes
    [RuneError]. *)
Definition encode_rune (r : N) : string :=
  let r := (if (1114111 <? r) || in_range 55296 57343 r then rune_error else r)%N in
  if (r <? 128)%N then str1 (chr r)
  else if (r <? 2048)%N then String (chr (192 + r / 64)) (str1 (chr (128 + r mod 64)))
  else if (r <? 65536)%N
  then String (chr (224 + r / 4096))
         (String (chr (128 + (r / 64) mod 64)) (str1 (chr (128 + r mod 64))))
  else String (chr (240 + r / 262144))
         (String (chr (128 + (r / 4096) mod 64))
            (String (chr (128 + (r / 64) mod 64)) (str1 (chr (128 + r mod 64))))).

(** [for _, r := range s]: the runes of [s] with their widths. *)
Fixpoint runes_aux (fuel : nat) (s : string) : list (N * nat) :=
  match fuel, s with
  | S fuel', String _ _ =>
      let '(r, w) := decode_rune s in (r, w) :: runes_aux fuel' (str_drop w s)
  | _, _ => []
  end.
Definition runes (s : string) : list (N * nat) := runes_aux (String.length s) s.

(** ** Package unicode *)

(** Go's tables from U+0080 on. *)
Class UnicodeTables := {
  tbl_letter : N → bool;
  tbl_digit : N → bool;
  tbl_upper : N → bool;
  tbl_print : N → bool;
  tbl_to_lower : N → N;
  tbl_to_upper : N → N;
}.

(** Tables that know no code point from U+0080 on. *)
Definition ascii_tables : UnicodeTables := {|
  tbl_letter := λ _, false; tbl_digit := λ _, false; tbl_upper := λ _, false;
  tbl_print := λ _, false; tbl_to_lower := λ r, r; tbl_to_upper := λ r, r;
|}.

(** [unicode.IsSpace]: the whole White_Space set. *)
Definition is_space (r : N) : bool :=
  (in_range 9 13 r || (r =? 32) || (r =? 133) || (r =? 160) || (r =? 5760) ||
   in_range 8192 8202 r || (r =? 8232) || (r =? 8233) || (r =? 8239) ||
   (r =? 8287) || (r =? 12288))%N.

Section unicode.
Context `{UnicodeTables}.

Definition is_letter (r : N) : bool :=
  if (r <? 128)%N then in_range 65 90 r || in_range 97 122 r else tbl_letter r.
Definition is_digit (r : N) : bool :=
  if (r <? 128)%N then in_range 48 57 r else tbl_digit r.
Definition is_upper (r : N) : bool :=
  if (r <? 128)%N then in_range 65 90 r else tbl_upper r.
Definition is_print (r : N) : bool :=
  if (r <? 128)%N then in_range 32 126 r else tbl_print r.
Definition rune_to_lower (r : N) : N :=
  if (r <? 128)%N then (if in_range 65 90 r then r + 32 else r)%N else tbl_to_lower r.
Definition rune_to_upper (r : N) : N :=
  if (r <? 128)%N then (if in_range 97 122 r then r - 32 else r)%N else tbl_to_upper r.

(** [strings.ToLower] and [strings.ToUpper]: an invalid byte becomes
    [RuneError]. *)
Definition map_runes (f : N → N) (s : string) : string :=
  join ((λ rw, encode_rune (f rw.1)) <$> runes s) "".
Definition to_lower (s : string) : string := map_runes rune_to_lower s.
Definition to_upper (s : string) : string := map_runes rune_to_upper s.
End unicode.

(** [unicode.SimpleFold] from U+0080 on: the least code point of an orbit; an
    ASCII letter folds to its capital. *)
Class CaseFold := { tbl_fold : N → N }.
Definition ascii_fold : CaseFold := {| tbl_fold := λ r, r |}.

Section folding.
Context `{CaseFold}.

Definition fold_rune (r : N) : N :=
  if (r <? 128)%N then (if in_range 97 122 r then r - 32 else r)%N else tbl_fold r.
(** [strings.EqualFold] *)
Definition equal_fold (s t : string) : bool :=
  bool_decide (fold_rune ∘ fst <$> runes s = fold_rune ∘ fst <$> runes t).
End folding.

(** [strings.TrimLeftFunc(s, unicode.IsSpace)] *)
Fixpoint trim_left_aux (fuel : nat) (s : string) : string :=
  match fuel, s with
  | S fuel', String _ _ =>
      let '(r, w) := decode_rune s in
      if is_space r then trim_left_aux fuel' (str_drop w s) else s
  | _, _ => s
  end.
Definition trim_left_space (s : string) : string := trim_left_aux (String.length s) s.

(** The width of [s] without its trailing white space. *)
Definition trimmed_width (rs : list (N * nat)) : nat :=
  (foldl (λ '(pos, keep) '(r, w),
     let pos' := (pos + w)%nat in (pos', if is_space r then keep else pos'))
     (0%nat, 0%nat) rs).2.
Definition trim_right_space (s : string) : string := str_take (trimmed_width (runes s)) s.

(** [strings.TrimSpace] *)
Definition trim_space (s : string) : string := trim_right_space (trim_left_space s).

(** ** Package strconv and the verbs of fmt *)

Definition hex_digit (n : N) : ascii :=
  chr (if (n <? 10)%N then 48 + n else 87 + n)%N.

(** [width] lower-case hexadecimal digits. *)
Fixpoint hex_fixed (width : nat) (n : N) : string :=
  match width with
  | O => ""
  | S w => hex_fixed w (n / 16) +:+ str1 (hex_digit (n mod 16))
  end.

(** [%d] *)
Definition itoa (z : Z) : string := pretty z.

Definition dquote : ascii := chr 34.
Definition backslash : ascii := chr 92.
Definition backquote : ascii := chr 96.
Definition newline : ascii := chr 10.
Definition newline_str : string := str1 newline.
Definition nul_str : string := str1 (chr 0).

(** One rune of [strconv.Quote]; [raw] is its encoding in the source. *)
Definition quote_rune `{UnicodeTables} (r : N) (w : nat) (raw : string) : string :=
  if (r =? rune_error)%N && (w =? 1)%nat then
    match raw with
    | String c _ => String backslash ("x" +:+ hex_fixed 2 (byte_of c))
    | EmptyString => ""
    end
  else if (r =? 34)%N || (r =? 92)%N then String backslash raw
  else if is_print r then raw
  else if (r =? 7)%N then String backslash "a"
  else if (r =? 8)%N then String backslash "b"
  else if (r =? 12)%N then String backslash "f"
  else if (r =? 10)%N then String backslash "n"
  else if (r =? 13)%N then String backslash "r"
  else if (r =? 9)%N then String backslash "t"
  else if (r =? 11)%N then String backslash "v"
  else if (r <? 32)%N || (r =? 127)%N then String backslash ("x" +:+ hex_fixed 2 r)
  else if (r <? 65536)%N then String backslash ("u" +:+ hex_fixed 4 r)
  else String backslash ("U" +:+ hex_fixed 8 r).

Fixpoint quote_aux `{UnicodeTables} (fuel : nat) (s : string) : string :=
  match fuel, s with
  | S fuel', String _ _ =>
      let '(r, w) := decode_rune s in
      quote_rune r w (str_take w s) +:+ quote_aux fuel' (str_drop w s)
  | _, _ => ""
  end.

(** [strconv.Quote], the verb [%q]. *)
Definition go_quote `{UnicodeTables} (s : string) : string :=
  String dquote (quote_aux (String.length s) s +:+ str1 dquote).

(** ** Packages path and path/filepath (Unix: the separator is the slash) *)

Definition slash : ascii := "/"%char.

(** The element stack of [path.Clean], latest element first. *)
Definition clean_step (rooted : bool) (stack : list string) (elem : string) : list string :=
  if decide (elem = "" ∨ elem = ".") then stack
  else if decide (elem = "..") then
    match stack with
    | [] => if rooted then [] else [".."]
    | top :: rest => if decide (top = "..") then ".." :: stack else rest
    end
  else elem :: stack.

Definition path_is_abs (p : string) : bool := has_prefix p "/".

Definition path_clean (p : string) : string :=
  let rooted := path_is_abs p in
  let body := join (reverse (foldl (clean_step rooted) [] (split_byte slash p))) "/" in
  if rooted then "/" +:+ body else if decide (body = "") then "." else body.

Definition path_join (elems : list string) : string :=
  match filter (λ e, e ≠ "") elems with
  | [] => ""
  | l => path_clean (join l "/")
  end.

(** Everything up to and including the last slash, and the rest. *)
Definition path_split (p : string) : string * string :=
  let parts := split_byte slash p in
  let file := default "" (last parts) in
  (str_take (String.length p - String.length file) p, file).

Definition path_dir (p : string) : string := path_clean (path_split p).1.

Fixpoint drop_leading_slashes (s : string) : string :=
  match s with
  | String c s' => if ascii_dec c slash then drop_leading_slashes s' else s
  | EmptyString => ""
  end.

Definition path_base (p : string) : string :=
  if decide (p = "") then "."
  else
    let stripped := str_rev (drop_leading_slashes (str_rev p)) in
    let file := (path_split stripped).2 in
    if decide (file = "") then "/" else file.

(** [path.Ext]: from the last dot of the last element. *)
Definition path_ext (p : string) : string :=
  let file := (path_split p).2 in
  match split_byte "."%char file with
  | [] | [_] => ""
  | parts => "." +:+ default "" (last parts)
  end.

(** [filepath.IsLocal] *)
Definition is_local (p : string) : bool :=
  if path_is_abs p || bool_decide (p = "") then false
  else
    let has_dots := existsb (λ e, bool_decide (e = "." ∨ e = "..")) (split_byte slash p) in
    let p' := if has_dots then path_clean p else p in
    negb (bool_decide (p' = "..") || has_prefix p' "../").

(** ** Lemmas *)

Lemma str_drop_0 s : str_drop 0 s = s.
Proof. by destruct s. Qed.

Lemma str_drop_length s : str_drop (String.length s) s = "".
Proof. induction s; simpl; auto. Qed.

Lemma str_drop_drop n m s : str_drop n (str_drop m s) = str_drop (m + n) s.
Proof.
  revert s. induction m; intros [|c s]; simpl; auto. by destruct n.
Qed.

Lemma length_str_drop n s : String.length (str_drop n s) = (String.length s - n)%nat.
Proof. revert s. induction n; intros [|c s]; simpl; auto. Qed.

Lemma str_cons_app c s t : String c s +:+ t = String c (s +:+ t).
Proof. done. Qed.

Lemma str_nil_app t : "" +:+ t = t.
Proof. done. Qed.

Lemma str_take_drop n s : str_take n s +:+ str_drop n s = s.
Proof.
  revert s. induction n; intros [|c s]; simpl; auto. by rewrite str_cons_app, IHn.
Qed.

Lemma str_app_nil_r s : s +:+ "" = s.
Proof. induction s as [|c s IH]; [done|]. by rewrite !str_cons_app, IH. Qed.

Lemma str_app_assoc s t u : (s +:+ t) +:+ u = s +:+ (t +:+ u).
Proof. induction s as [|c s IH]; [done|]. by rewrite !str_cons_app, IH. Qed.

Lemma length_str_app s t : String.length (s +:+ t) = (String.length s + String.length t)%nat.
Proof. induction s as [|c s IH]; [done|]. rewrite str_cons_app. simpl. by rewrite IH. Qed.

Lemma str_take_app s t : str_take (String.length s) (s +:+ t) = s.
Proof. induction s as [|c s IH]; [by destruct t|]. rewrite str_cons_app. simpl. by rewrite IH. Qed.

Lemma str_drop_app s t : str_drop (String.length s) (s +:+ t) = t.
Proof. induction s as [|c s IH]; [apply str_drop_0|]. by rewrite str_cons_app. Qed.

Lemma str_drop_app_plus s n t : str_drop (String.length s + n) (s +:+ t) = str_drop n t.
Proof. induction s as [|c s IH]; [done|]. by rewrite str_cons_app. Qed.

Lemma has_prefix_spec s p : has_prefix s p = true ↔ ∃ t, s = p +:+ t.
Proof.
  revert s. induction p as [|a p IH]; intros s.
  { split; [intros _; by exists s|by destruct s]. }
  destruct s as [|b s]; [split; [discriminate|intros [? E]; discriminate E]|].
  simpl. destruct (ascii_dec a b) as [->|Hne].
  - rewrite IH. split; intros [t E]; exists t.
    + by rewrite str_cons_app, E.
    + rewrite str_cons_app in E. congruence.
  - split; [discriminate|]. intros [t E]. rewrite str_cons_app in E. congruence.
Qed.

Lemma has_prefix_app p t : has_prefix (p +:+ t) p = true.
Proof. apply has_prefix_spec. by exists t. Qed.

Lemma trim_prefix_app p t : trim_prefix (p +:+ t) p = t.
Proof. unfold trim_prefix. by rewrite has_prefix_app, str_drop_app. Qed.

Lemma join_cons_ne s l sep : l ≠ [] → join (s :: l) sep = s +:+ sep +:+ join l sep.
Proof. by destruct l. Qed.

Lemma split_byte_ne sep s : split_byte sep s ≠ [].
Proof. induction s; simpl; [done|]. repeat case_match; congruence. Qed.

(** Joining what [strings.Split] returns gives the string back. *)
Lemma join_split_byte sep s : join (split_byte sep s) (str1 sep) = s.
Proof.
  induction s as [|c s IH]; simpl; [done|]. destruct (ascii_dec c sep) as [->|Hne].
  - rewrite join_cons_ne by apply split_byte_ne. by rewrite IH.
  - destruct (split_byte sep s) as [|p [|q l]] eqn:E; simpl in *; by rewrite <-IH.
Qed.

(** The first separator is the one after a text without it. *)
Lemma cut_byte c s t : contains_byte s c = false → cut (s +:+ String c t) (str1 c) = (s, t, true).
Proof.
  induction s as [|a s IH].
  - intros _. rewrite str_nil_app. cbn [cut has_prefix str1]. destruct (ascii_dec c c); [|done]. by destruct t.
  - rewrite str_cons_app. cbn [contains_byte cut has_prefix str1]. intros Hn.
    destruct (ascii_dec a c); [done|]. rewrite IH by done. destruct (ascii_dec c a); [congruence|done].
Qed.

Lemma cut_byte_inv c s before after found :
  cut s (str1 c) = (before, after, found) →
  contains_byte before c = false ∧ s = if found then before +:+ String c after else before.
Proof.
  revert before after found. induction s as [|a s IH]; intros before after found; cbn [cut has_prefix str1].
  - by intros [= <- <- <-].
  - destruct (ascii_dec c a) as [->|Hne].
    + assert (has_prefix s "" = true) as -> by (by destruct s). intros [= <- <- <-]. done.
    + change (String c "") with (str1 c). destruct (cut s (str1 c)) as [[b r] f]. intros [= <- <- <-].
      destruct (IH b r f) as [Hb ->]; [done|]. cbn [contains_byte]. destruct (ascii_dec a c); [congruence|].
      split; [done|]. by destruct f.
Qed.

Lemma contains_byte_app s t b : contains_byte (s +:+ t) b = contains_byte s b || contains_byte t b.
Proof.
  induction s as [|c s IH]; [done|]. rewrite str_cons_app. simpl. by destruct (ascii_dec c b).
Qed.

(** ** Decoding *)

Lemma decode_width s : s ≠ "" → (1 ≤ (decode_rune s).2 ≤ String.length s)%nat.
Proof. destruct s as [|c s]; [done|]. intros _. unfold decode_rune. repeat case_match; simpl; lia. Qed.

(** A rune that is not an encoding error does not depend on what follows it. *)
Lemma decode_app s t : (decode_rune s).1 ≠ rune_error → decode_rune (s +:+ t) = decode_rune s.
Proof.
  destruct s as [|c0 s]; [done|]. unfold decode_rune. rewrite (str_cons_app c0 s).
  destruct (byte_of c0 <? 128)%N; [done|]. destruct (negb (in_range 194 244 (byte_of c0))); [done|].
  destruct s as [|c1 s]; [done|]. rewrite (str_cons_app c1 s).
  destruct (negb (in_range _ _ (byte_of c1))); [done|]. destruct (byte_of c0 <? 224)%N; [done|].
  destruct s as [|c2 s]; [done|]. rewrite (str_cons_app c2 s).
  destruct (negb (in_range _ _ (byte_of c2))); [done|]. destruct (byte_of c0 <? 240)%N; [done|].
  destruct s as [|c3 s]; [done|]. rewrite (str_cons_app c3 s). done.
Qed.

Lemma decode_take s n :
  (decode_rune s).1 ≠ rune_error → ((decode_rune s).2 ≤ n)%nat → decode_rune (str_take n s) = decode_rune s.
Proof.
  destruct s as [|c0 s]; [done|]. unfold decode_rune.
  destruct (byte_of c0 <? 128)%N eqn:E0; [destruct n; simpl; [lia|by rewrite E0]|].
  destruct (negb (in_range 194 244 (byte_of c0))) eqn:E1; [done|].
  destruct s as [|c1 s]; [done|].
  destruct (negb (in_range _ _ (byte_of c1))) eqn:E2; [done|].
  destruct (byte_of c0 <? 224)%N eqn:E3.
  { destruct n as [|[|n]]; cbn [fst snd]; intros _ Hn; [lia..|]. cbn [str_take]. by rewrite E0, E1, E2, E3. }
  destruct s as [|c2 s]; [done|].
  destruct (negb (in_range _ _ (byte_of c2))) eqn:E4; [done|].
  destruct (byte_of c0 <? 240)%N eqn:E5.
  { destruct n as [|[|[|n]]]; cbn [fst snd]; intros _ Hn; [lia..|]. cbn [str_take].
    by rewrite E0, E1, E2, E3, E4, E5. }
  destruct s as [|c3 s]; [done|].
  destruct (negb (in_range _ _ (byte_of c3))) eqn:E6; [done|].
  destruct n as [|[|[|[|n]]]]; cbn [fst snd]; intros _ Hn; [lia..|]. cbn [str_take].
  by rewrite E0, E1, E2, E3, E4, E5, E6.
Qed.

Lemma decode_ascii c s : (byte_of c < 128)%N → decode_rune (String c s) = (byte_of c, 1%nat).
Proof. intros Hc%N.ltb_lt. unfold decode_rune. by rewrite Hc. Qed.

(** ** Slices *)

Lemma str_take_all s n : (String.length s ≤ n)%nat → str_take n s = s.
Proof. revert n. induction s as [|c s IH]; intros [|n] Hn; simpl in *; try done; [lia|]. by rewrite IH by lia. Qed.

Lemma length_str_take n s : String.length (str_take n s) = Nat.min n (String.length s).
Proof. revert n. induction s as [|c s IH]; intros [|n]; simpl; auto. Qed.

Lemma str_take_plus n m s : str_take (n + m) s = str_take n s +:+ str_take m (str_drop n s).
Proof.
  revert n. induction s as [|c s IH]; intros [|n]; simpl; try done; [by destruct m|].
  by rewrite IH, str_cons_app.
Qed.

Lemma str_take_take n m s : str_take n (str_take m s) = str_take (Nat.min n m) s.
Proof. revert n m. induction s as [|c s IH]; intros [|n] [|m]; simpl; try done. by rewrite IH. Qed.

Lemma str_drop_take n m s : str_drop n (str_take (n + m) s) = str_take m (str_drop n s).
Proof. revert n. induction s as [|c s IH]; intros [|n]; simpl; rewrite ?str_drop_0; try done. by destruct m. Qed.

Lemma str_get_app_l s c t : str_get (String.length s) (s +:+ String c t) = Some c.
Proof. induction s as [|d s IH]; [done|]. by rewrite str_cons_app. Qed.

Lemma str_get_drop n s : str_get n s = str_get 0 (str_drop n s).
Proof. revert s. induction n as [|n IH]; intros [|c s]; simpl; done || apply IH. Qed.

(** ** Induction over the length of a text *)

Lemma str_length_ind (P : string → Prop) :
  (∀ s, (∀ t, (String.length t < String.length s)%nat → P t) → P s) → ∀ s, P s.
Proof.
  intros Hstep s. remember (String.length s) as n eqn:Hn. revert s Hn.
  induction (lt_wf n) as [n _ IH]. intros s ->. apply Hstep. intros t Ht. by eapply IH.
Qed.

#[export] Hint Rewrite str_drop_0 str_drop_length str_drop_drop length_str_drop
  str_app_nil_r str_app_assoc length_str_app str_take_app str_drop_app
  has_prefix_app trim_prefix_app : spice.

Inductive error : Type :=
  | ErrSentinel (name : string)
  | ErrNew (message : string)
  | ErrTyped (type message : string)
  | ErrWrap (message : string) (e : error)
  | ErrJoin (e1 e2 : error).

(** [errors.Is(err, target)] for a sentinel target. *)
Fixpoint error_is (e : error) (sentinel : string) : bool :=
  match e with
  | ErrSentinel name => bool_decide (name = sentinel)
  | ErrNew _ | ErrTyped _ _ => false
  | ErrWrap _ e' => error_is e' sentinel
  | ErrJoin e1 e2 => error_is e1 sentinel || error_is e2 sentinel
  end.

Definition errors_is (e : option error) (sentinel : string) : bool :=
  from_option (λ e, error_is e sentinel) false e.

(** [errors.Join] of two errors, either of which may be nil. *)
Definition errors_join (e1 e2 : option error) : option error :=
  match e1, e2 with
  | Some a, Some b => Some (ErrJoin a b)
  | Some a, None => Some a
  | None, _ => e2
  end.

Lemma errors_is_join e1 e2 s :
  errors_is (errors_join e1 e2) s = errors_is e1 s || errors_is e2 s.
Proof. destruct e1, e2; simpl; by rewrite ?orb_false_r. Qed.

(** context.Canceled *)
Definition Canceled : error := ErrSentinel "context canceled".
Definition is_canceled (e : option error) : bool := errors_is e "context canceled".
