(* ===== verification/Scc.v ===== *)
(** Tarjan's strongly connected components, as [componentSearch] in
    src/compiler/modulith/modulith.go runs it over adjacency maps, and its
    correctness: the components partition the nodes, and two nodes share a
    component exactly when each reaches the other.

    The Go closure/method recursion is fuelled; [tarjan_run_correct] shows that
    as much fuel as there are nodes is enough.  The provider graph runs the same
    search over arrays; [GraphCycles] proves that the two agree. *)
From S2P Require Import Prelude.

Section search.
Context `{Countable K}.
(** [adj] is the adjacency of the graph, [sort_members] the sort applied to
    the members of a finished component. *)
Context (adj : K → list K) (sort_members : list K → list K).

(** [componentSearch]: absent keys read as the zero value.  The stack slice
    is kept with its top first. *)
Record componentSearch := mkSearch {
  cs_index : nat;
  cs_indices : gmap K nat;
  cs_low : gmap K nat;
  cs_stack : list K;
  cs_onStack : gmap K bool;
  cs_result : list (list K);
}.

Definition search_init : componentSearch := mkSearch 0 ∅ ∅ [] ∅ [].

Definition index_of (s : componentSearch) (x : K) : nat := default 0%nat (cs_indices s !! x).
Definition low_of (s : componentSearch) (x : K) : nat := default 0%nat (cs_low s !! x).
Definition on_stack (s : componentSearch) (x : K) : bool := default false (cs_onStack s !! x).

Definition set_low (x : K) (v : nat) (s : componentSearch) : componentSearch :=
  mkSearch (cs_index s) (cs_indices s) (<[x := v]> (cs_low s)) (cs_stack s)
    (cs_onStack s) (cs_result s).

(** The first five statements of [connect]. *)
Definition enter (node : K) (s : componentSearch) : componentSearch :=
  mkSearch (S (cs_index s)) (<[node := cs_index s]> (cs_indices s))
    (<[node := cs_index s]> (cs_low s)) (node :: cs_stack s)
    (<[node := true]> (cs_onStack s)) (cs_result s).

(** The loop that pops the component off the stack, down to [node]. *)
Fixpoint pop_component (node : K) (stack : list K) (onStack : gmap K bool)
    : list K * list K * gmap K bool :=
  match stack with
  | [] => ([], [], onStack)
  | member :: stack' =>
      let onStack' := <[member := false]> onStack in
      if decide (member = node) then ([member], stack', onStack')
      else let '(component, rest, on) := pop_component node stack' onStack' in
           (member :: component, rest, on)
  end.

(** The end of [connect]: close a component when [node] is its root. *)
Definition leave (node : K) (s : componentSearch) : componentSearch :=
  if decide (low_of s node ≠ index_of s node) then s
  else
    let '(component, rest, on) := pop_component node (cs_stack s) (cs_onStack s) in
    mkSearch (cs_index s) (cs_indices s) (cs_low s) rest on
      (cs_result s ++ [sort_members component]).

(** The loop over [search.adjacency[node]]. *)
Fixpoint connect_loop (connect : K → componentSearch → option componentSearch)
    (node : K) (nexts : list K) (s : componentSearch) : option componentSearch :=
  match nexts with
  | [] => Some s
  | next :: nexts' =>
      s' ← match cs_indices s !! next with
           | None =>
               s' ← connect next s;
               Some (set_low node (low_of s' node `min` low_of s' next) s')
           | Some _ =>
               if on_stack s next
               then Some (set_low node (low_of s node `min` index_of s next) s)
               else Some s
           end;
      connect_loop connect node nexts' s'
  end.

Fixpoint connect (fuel : nat) (node : K) (s : componentSearch) : option componentSearch :=
  match fuel with
  | O => None
  | S fuel' =>
      s' ← connect_loop (connect fuel') node (adj node) (enter node s);
      Some (leave node s')
  end.

(** The driver loop over the sorted nodes. *)
Fixpoint tarjan_loop (fuel : nat) (nodes : list K) (s : componentSearch)
    : option componentSearch :=
  match nodes with
  | [] => Some s
  | node :: nodes' =>
      s' ← match cs_indices s !! node with
           | None => connect fuel node s
           | Some _ => Some s
           end;
      tarjan_loop fuel nodes' s'
  end.

Definition tarjan_run (nodes : list K) : option componentSearch :=
  tarjan_loop (length nodes) nodes search_init.
End search.

Arguments componentSearch _ {_ _}.
Arguments mkSearch {_ _ _} _ _ _ _ _ _.

(** ** Correctness *)

Section correctness.
Context `{Countable K}.
Context (adj : K → list K) (sort_members : list K → list K).
Context (sort_members_perm : ∀ l, sort_members l ≡ₚ l).

Definition edge (x y : K) : Prop := y ∈ adj x.

Context (nodes : list K) (Hclosed : ∀ x y, x ∈ nodes → edge x y → y ∈ nodes).

Notation reach := (rtc edge).
Notation state := (componentSearch K).
Implicit Types (s : state) (path : list K).

Definition visited s (x : K) : Prop := is_Some (cs_indices s !! x).
Definition finished s (x : K) : Prop := x ∈ concat (cs_result s).

(** The invariant: [path] is the chain of calls in progress, innermost
    first. *)
Record search_inv path s : Prop := {
  si_visited x : visited s x ↔ x ∈ cs_stack s ∨ finished s x;
  si_in x : visited s x → x ∈ nodes;
  si_on x : on_stack s x = true ↔ x ∈ cs_stack s;
  si_nodup : NoDup (cs_stack s ++ concat (cs_result s));
  si_lt x i : cs_indices s !! x = Some i → (i < cs_index s)%nat;
  si_sorted : StronglySorted (λ x y, index_of s y < index_of s x)%nat (cs_stack s);
  si_path g : g ∈ path → g ∈ cs_stack s;
  si_done x y : finished s x → edge x y → finished s y;
  si_black x y : x ∈ cs_stack s → x ∉ path → edge x y → visited s y;
  si_down g x : g ∈ path → x ∈ cs_stack s → (index_of s g ≤ index_of s x)%nat → reach g x;
  si_up x : x ∈ cs_stack s → ∃ g, g ∈ path ∧ (index_of s g ≤ index_of s x)%nat ∧ reach x g;
  si_scc C x y : C ∈ cs_result s → x ∈ C → (y ∈ C ↔ reach x y ∧ reach y x);
  si_ne C : C ∈ cs_result s → C ≠ [];
}.

(** What a call leaves of the state it started from. *)
Record search_ext (new : list K) s s' : Prop := {
  se_indices x i : cs_indices s !! x = Some i → cs_indices s' !! x = Some i;
  se_index : (cs_index s ≤ cs_index s')%nat;
  se_new x i : cs_indices s !! x = None → cs_indices s' !! x = Some i → (cs_index s ≤ i)%nat;
  se_stack : cs_stack s' = new ++ cs_stack s;
  se_low x : visited s x → cs_low s' !! x = cs_low s !! x;
}.

(** The promise of [low] for the node a call has processed. *)
Definition low_post (new : list K) s s' (x : K) : Prop :=
  (new = [] ∧ (cs_index s ≤ low_of s' x)%nat ∨
   ∃ y, y ∈ cs_stack s ∧ index_of s y = low_of s' x ∧ reach x y) ∧
  ∀ w z, w ∈ new → z ∈ cs_stack s → edge w z → (low_of s' x ≤ index_of s z)%nat.

Lemma index_of_eq s x i : cs_indices s !! x = Some i → index_of s x = i.
Proof. unfold index_of. by intros ->. Qed.

Lemma ext_index_of new s s' x :
  search_ext new s s' → visited s x → index_of s' x = index_of s x.
Proof.
  intros Hext [i Hi]. rewrite (index_of_eq s x i Hi).
  apply index_of_eq. by eapply se_indices.
Qed.

Lemma inv_stack_visited path s x : search_inv path s → x ∈ cs_stack s → visited s x.
Proof. intros Hinv ?. apply (si_visited _ _ Hinv). by left. Qed.

Lemma inv_stack_lt path s x :
  search_inv path s → x ∈ cs_stack s → (index_of s x < cs_index s)%nat.
Proof.
  intros Hinv Hx. destruct (inv_stack_visited _ _ _ Hinv Hx) as [i Hi].
  rewrite (index_of_eq _ _ _ Hi). by eapply si_lt.
Qed.

(** [low] is not part of the invariant. *)
Lemma set_low_inv path s x v : search_inv path s → search_inv path (set_low x v s).
Proof. intros []. by split. Qed.

Lemma enter_inv path s n :
  search_inv path s → n ∈ nodes → ¬ visited s n → (∀ g, g ∈ path → reach g n) →
  search_inv (n :: path) (enter n s).
Proof.
  intros Hinv Hin Hn Hreach.
  assert (Hne : ∀ x, x ∈ cs_stack s → x ≠ n).
  { intros x Hx ->. by eapply Hn, inv_stack_visited. }
  assert (Hidx : ∀ x, x ≠ n → index_of (enter n s) x = index_of s x).
  { intros x ?. unfold index_of. simpl. by rewrite lookup_insert_ne. }
  assert (Hidxn : index_of (enter n s) n = cs_index s).
  { unfold index_of. simpl. by rewrite lookup_insert_eq. }
  split; unfold finished in *; simpl.
  - intros x. unfold visited. simpl. destruct (decide (x = n)) as [->|Hx].
    + rewrite lookup_insert_eq, elem_of_cons. naive_solver.
    + rewrite lookup_insert_ne, elem_of_cons by done.
      pose proof (si_visited _ _ Hinv x). unfold visited, finished in *. naive_solver.
  - intros x. unfold visited. simpl. destruct (decide (x = n)) as [->|Hx]; [done|].
    rewrite lookup_insert_ne by done. apply (si_in _ _ Hinv).
  - intros x. unfold on_stack. simpl. rewrite elem_of_cons.
    destruct (decide (x = n)) as [->|Hx]; [rewrite lookup_insert_eq; naive_solver|].
    rewrite lookup_insert_ne by done. pose proof (si_on _ _ Hinv x).
    unfold on_stack in *. naive_solver.
  - apply NoDup_cons. split; [|apply Hinv]. rewrite elem_of_app.
    intros Hin0. apply Hn, (si_visited _ _ Hinv). done.
  - intros x i. destruct (decide (x = n)) as [->|?].
    + rewrite lookup_insert_eq. intros [= <-]. lia.
    + rewrite lookup_insert_ne by done. intros ?%(si_lt _ _ Hinv). lia.
  - constructor.
    + eapply StronglySorted_impl_in, (si_sorted _ _ Hinv).
      intros x y ??. by rewrite !Hidx by auto.
    + apply Forall_forall. intros x Hx. rewrite Hidxn, Hidx by auto.
      by eapply inv_stack_lt.
  - intros g. rewrite !elem_of_cons. pose proof (si_path _ _ Hinv g). naive_solver.
  - apply (si_done _ _ Hinv).
  - intros x y. rewrite !elem_of_cons. intros [->|Hx] Hp Hxy; [naive_solver|].
    pose proof (si_black _ _ Hinv x y Hx ltac:(naive_solver) Hxy) as [i Hi].
    unfold visited. simpl. destruct (decide (y = n)) as [->|?].
    + rewrite lookup_insert_eq. eauto.
    + rewrite lookup_insert_ne by done. eauto.
  - intros g x. rewrite !elem_of_cons. intros [->|Hg] [->|Hx].
    + done.
    + rewrite Hidxn, Hidx by auto. pose proof (inv_stack_lt _ _ _ Hinv Hx). lia.
    + intros _. by apply Hreach.
    + rewrite !Hidx by (apply Hne; [done || by apply (si_path _ _ Hinv)]).
      by apply (si_down _ _ Hinv).
  - intros x. rewrite elem_of_cons. intros [->|Hx].
    + exists n. split_and!; [left|lia|done].
    + destruct (si_up _ _ Hinv x Hx) as (g & Hg & Hle & Hr).
      exists g. split_and!; [by right| |done].
      rewrite !Hidx by (apply Hne; [done || by apply (si_path _ _ Hinv)]). done.
  - apply (si_scc _ _ Hinv).
  - apply (si_ne _ _ Hinv).
Qed.

Lemma enter_ext s n :
  ¬ visited s n → search_ext [n] s (enter n s).
Proof.
  intros Hn. unfold visited in Hn. split; simpl.
  - intros x i Hi. rewrite lookup_insert_ne; [done|]. intros ->. apply Hn. eauto.
  - lia.
  - intros x i Hx. destruct (decide (x = n)) as [->|?].
    + rewrite lookup_insert_eq. intros [= <-]. lia.
    + rewrite lookup_insert_ne by done. congruence.
  - done.
  - intros x ?. rewrite lookup_insert_ne; [done|]. by intros ->.
Qed.

Lemma search_ext_trans new1 new2 s1 s2 s3 :
  search_ext new1 s1 s2 → search_ext new2 s2 s3 → search_ext (new2 ++ new1) s1 s3.
Proof.
  intros H1 H2. split.
  - intros x i Hi. by apply (se_indices _ _ _ H2), (se_indices _ _ _ H1).
  - pose proof (se_index _ _ _ H1). pose proof (se_index _ _ _ H2). lia.
  - intros x i Hx Hi. destruct (cs_indices s2 !! x) as [j|] eqn:Hj.
    + pose proof (se_indices _ _ _ H2 _ _ Hj). simplify_eq.
      by apply (se_new _ _ _ H1 x).
    + pose proof (se_index _ _ _ H1). pose proof (se_new _ _ _ H2 x i Hj Hi). lia.
  - by rewrite (se_stack _ _ _ H2), (se_stack _ _ _ H1), app_assoc.
  - intros x [i Hi]. rewrite (se_low _ _ _ H2), (se_low _ _ _ H1); [done|by eexists|].
    eexists. by apply (se_indices _ _ _ H1).
Qed.

(** Where the loop over the successors of [n] stands: [s0] is the state the
    call started from, [processed] the successors seen so far. *)
Record loop_inv path n s0 (processed : list K) (new : list K) s : Prop := {
  li_inv : search_inv (n :: path) s;
  li_ext : search_ext (new ++ [n]) s0 s;
  li_root : ∃ y, (y = n ∨ y ∈ cs_stack s0) ∧ index_of s y = low_of s n ∧ reach n y;
  li_new w z : w ∈ new → z ∈ cs_stack s0 → edge w z → (low_of s n ≤ index_of s0 z)%nat;
  li_done z : z ∈ processed → visited s z;
  li_old z : z ∈ processed → z ∈ cs_stack s0 → (low_of s n ≤ index_of s0 z)%nat;
}.

Lemma loop_inv_enter path s n :
  search_inv path s → n ∈ nodes → ¬ visited s n → (∀ g, g ∈ path → reach g n) →
  loop_inv path n s [] [] (enter n s).
Proof.
  intros Hinv Hin Hn Hreach. split.
  - by apply enter_inv.
  - by apply enter_ext.
  - exists n. split_and!; [by left| |done].
    unfold index_of, low_of. simpl. by rewrite !lookup_insert_eq.
  - by intros ?? ?%elem_of_nil.
  - by intros ? ?%elem_of_nil.
  - by intros ? ?%elem_of_nil.
Qed.
Section loop.
Context path n s0 (Hn : ¬ visited s0 n).

Lemma loop_stack processed new s :
  loop_inv path n s0 processed new s → cs_stack s = new ++ n :: cs_stack s0.
Proof. intros Hl. by rewrite (se_stack _ _ _ (li_ext _ _ _ _ _ _ Hl)), <-app_assoc. Qed.

Lemma loop_elem_stack processed new s x :
  loop_inv path n s0 processed new s →
  x ∈ cs_stack s ↔ x ∈ new ∨ x = n ∨ x ∈ cs_stack s0.
Proof.
  intros Hl. rewrite (loop_stack _ _ _ Hl), elem_of_app, elem_of_cons. done.
Qed.

(** On the stack, the nodes above [n] are the ones with larger indices. *)
Lemma loop_index_above processed new s x :
  loop_inv path n s0 processed new s → x ∈ new → (index_of s n < index_of s x)%nat.
Proof.
  intros Hl Hx. pose proof (si_sorted _ _ (li_inv _ _ _ _ _ _ Hl)) as Hs.
  rewrite (loop_stack _ _ _ Hl) in Hs. apply StronglySorted_app_rel in Hs as (_&_&Hs).
  apply Hs; [done|left].
Qed.

Lemma loop_index_below processed new s x :
  loop_inv path n s0 processed new s → x ∈ cs_stack s0 →
  (index_of s x < index_of s n)%nat.
Proof.
  intros Hl Hx. pose proof (si_sorted _ _ (li_inv _ _ _ _ _ _ Hl)) as Hs.
  rewrite (loop_stack _ _ _ Hl) in Hs. apply StronglySorted_app_rel in Hs as (_&Hs&_).
  inversion Hs as [|?? _ Hall]; subst. rewrite Forall_forall in Hall. by apply Hall.
Qed.

Context (Hinv0 : search_inv path s0).

Lemma loop_index_old processed new s x :
  loop_inv path n s0 processed new s → x ∈ cs_stack s0 → index_of s x = index_of s0 x.
Proof.
  intros Hl Hx. eapply ext_index_of; [by apply (li_ext _ _ _ _ _ _ Hl)|].
  by eapply inv_stack_visited.
Qed.

Lemma loop_n_ne x : x ∈ cs_stack s0 → x ≠ n.
Proof. intros Hx ->. by eapply Hn, inv_stack_visited. Qed.

Lemma loop_low_le processed new s :
  loop_inv path n s0 processed new s → (low_of s n ≤ index_of s n)%nat.
Proof.
  intros Hl. destruct (li_root _ _ _ _ _ _ Hl) as (y & [->|Hy] & <- & _); [done|].
  by apply Nat.lt_le_incl, (loop_index_below _ _ _ _ Hl).
Qed.

Lemma low_of_set_low x v s : low_of (set_low x v s) x = v.
Proof. unfold low_of, set_low. simpl. by rewrite lookup_insert_eq. Qed.

(** Lowering [low[n]] to the index of a node it reaches. *)
Lemma loop_lower processed new s next v :
  loop_inv path n s0 processed new s → visited s next → (v ≤ low_of s n)%nat →
  (∃ y, (y = n ∨ y ∈ cs_stack s0) ∧ index_of s y = v ∧ reach n y) →
  (next ∈ cs_stack s0 → (v ≤ index_of s0 next)%nat) →
  loop_inv path n s0 (next :: processed) new (set_low n v s).
Proof.
  intros Hl Hv Hle Hroot Hnext. destruct Hl as [Hinv Hext _ Hnew Hdone Hold].
  split; rewrite ?low_of_set_low.
  - by apply set_low_inv.
  - destruct Hext as [E1 E2 E3 E4 E5]. split; simpl; try done.
    intros x Hx. rewrite lookup_insert_ne; [by apply E5|]. by intros ->.
  - done.
  - intros w z ???. etrans; [done|]. by apply (Hnew w).
  - intros z [->|?]%elem_of_cons; [done|]. by apply Hdone.
  - intros z [->|?]%elem_of_cons ?; [auto|]. etrans; [done|]. by apply Hold.
Qed.

Lemma loop_skip processed new s next :
  loop_inv path n s0 processed new s → visited s next → next ∉ cs_stack s0 →
  loop_inv path n s0 (next :: processed) new s.
Proof.
  intros [Hinv Hext Hroot Hnew Hdone Hold] Hv Hns. split; try done.
  - intros z [->|?]%elem_of_cons; [done|]. by apply Hdone.
  - intros z [->|?]%elem_of_cons ?; [done|]. by apply Hold.
Qed.

(** A successor that is already visited. *)
Lemma loop_visited processed new s next :
  loop_inv path n s0 processed new s → edge n next → visited s next →
  loop_inv path n s0 (next :: processed) new
    (if on_stack s next then set_low n (low_of s n `min` index_of s next) s else s).
Proof.
  intros Hl Hedge Hv. pose proof (li_inv _ _ _ _ _ _ Hl) as Hinv.
  pose proof (loop_low_le _ _ _ Hl) as Hle.
  destruct (on_stack s next) eqn:Hon.
  - apply (si_on _ _ Hinv), (loop_elem_stack _ _ _ _ Hl) in Hon.
    apply loop_lower; [done|done|lia| |].
    + destruct (decide (low_of s n ≤ index_of s next)%nat) as [Hmin|Hmin].
      { rewrite Nat.min_l by lia. apply (li_root _ _ _ _ _ _ Hl). }
      rewrite Nat.min_r by lia. exists next. split_and!; [|done|by apply rtc_once].
      destruct Hon as [Hin|[->|Hin]]; [|by left|by right].
      pose proof (loop_index_above _ _ _ _ Hl Hin). lia.
    + intros Hin. rewrite (loop_index_old _ _ _ _ Hl Hin). lia.
  - apply loop_skip; [done..|]. intros Hin. apply not_true_iff_false in Hon.
    apply Hon, (si_on _ _ Hinv), (loop_elem_stack _ _ _ _ Hl). auto.
Qed.

(** A successor that the recursive call has processed. *)
Lemma loop_call processed new s next new2 s' :
  loop_inv path n s0 processed new s → edge n next → ¬ visited s next →
  search_inv (n :: path) s' → search_ext new2 s s' → low_post new2 s s' next →
  visited s' next →
  loop_inv path n s0 (next :: processed) (new2 ++ new)
    (set_low n (low_of s' n `min` low_of s' next) s').
Proof.
  intros Hl Hedge Hnv Hinv' Hext [Hroot2 Hnew2] Hv'.
  pose proof (li_inv _ _ _ _ _ _ Hl) as Hinv.
  assert (n ∈ cs_stack s) as Hns by (apply (loop_elem_stack _ _ _ _ Hl); auto).
  assert (visited s n) as Hnvis by (by eapply inv_stack_visited).
  assert (low_of s' n = low_of s n) as Elow.
  { unfold low_of. by rewrite (se_low _ _ _ Hext). }
  assert (Hidx : ∀ x, x ∈ cs_stack s → index_of s' x = index_of s x).
  { intros x Hx. eapply ext_index_of; [done|]. by eapply inv_stack_visited. }
  assert (Hl' : loop_inv path n s0 processed (new2 ++ new)
                  (set_low n (low_of s' n `min` low_of s' next) s')); last first.
  { destruct Hl'. split; [done..| |].
    - intros z [->|?]%elem_of_cons; auto.
    - intros z [->|?]%elem_of_cons Hz; [|auto]. destruct Hnv.
      eapply inv_stack_visited; [done|]. apply (loop_elem_stack _ _ _ _ Hl). auto. }
  split; rewrite ?low_of_set_low.
  - by apply set_low_inv.
  - rewrite <-app_assoc.
    pose proof (search_ext_trans _ _ _ _ _ (li_ext _ _ _ _ _ _ Hl) Hext) as [E1 E2 E3 E4 E5].
    split; simpl; try done.
    intros x Hx. rewrite lookup_insert_ne; [by apply E5|]. by intros ->.
  - rewrite Elow. destruct (decide (low_of s n ≤ low_of s' next)%nat) as [Hmin|Hmin].
    + rewrite Nat.min_l by lia. destruct (li_root _ _ _ _ _ _ Hl) as (y & Hy & Ey & Hr).
      exists y. split_and!; [done| |done].
      change (index_of s' y = low_of s n). rewrite Hidx; [done|].
      apply (loop_elem_stack _ _ _ _ Hl). auto.
    + rewrite Nat.min_r by lia. destruct Hroot2 as [[_ Hge]|(y & Hy & Ey & Hr)].
      { pose proof (loop_low_le _ _ _ Hl). pose proof (inv_stack_lt _ _ _ Hinv Hns). lia. }
      exists y. split_and!; [|change (index_of s' y = low_of s' next); by rewrite Hidx|
        by eapply rtc_l].
      apply (loop_elem_stack _ _ _ _ Hl) in Hy as [Hy|[->|Hy]]; [|by left|by right].
      pose proof (loop_index_above _ _ _ _ Hl Hy). pose proof (loop_low_le _ _ _ Hl). lia.
  - intros w z Hw Hz Hwz. rewrite Elow. apply elem_of_app in Hw as [Hw|Hw].
    + etrans; [apply Nat.le_min_r|]. rewrite <-(loop_index_old _ _ _ _ Hl Hz).
      apply (Hnew2 w); [done| |done]. apply (loop_elem_stack _ _ _ _ Hl). auto.
    + etrans; [apply Nat.le_min_l|]. by apply (li_new _ _ _ _ _ _ Hl w).
  - intros z Hz. destruct (li_done _ _ _ _ _ _ Hl z Hz) as [i Hi]. exists i.
    by apply (se_indices _ _ _ Hext).
  - intros z Hz Hz0. rewrite Elow. etrans; [apply Nat.le_min_l|].
    by apply (li_old _ _ _ _ _ _ Hl).
Qed.

(** *** Leaving [n] when it is not the root of its component *)

Lemma leave_keep_inv processed new s :
  loop_inv path n s0 processed new s → (∀ y, edge n y → y ∈ processed) →
  low_of s n ≠ index_of s n → search_inv path s.
Proof.
  intros Hl Hall Hne. pose proof (li_inv _ _ _ _ _ _ Hl) as Hinv.
  pose proof (loop_low_le _ _ _ Hl) as Hle.
  split; try apply Hinv.
  - intros g Hg. apply (si_path _ _ Hinv). by right.
  - intros x y Hx Hxp Hxy. destruct (decide (x = n)) as [->|Hxn].
    + by apply (li_done _ _ _ _ _ _ Hl), Hall.
    + apply (si_black _ _ Hinv x); [done| |done]. set_solver.
  - intros g x Hg. apply (si_down _ _ Hinv). by right.
  - intros x Hx. destruct (si_up _ _ Hinv x Hx) as (g & Hg & Hgx & Hr).
    apply elem_of_cons in Hg as [->|Hg]; [|by exists g].
    destruct (li_root _ _ _ _ _ _ Hl) as (y & [->|Hy] & Ey & Hry); [congruence|].
    destruct (si_up _ _ Hinv0 y Hy) as (g & Hg & Hgy & Hrg).
    exists g. split_and!; [done| |by do 2 (etrans; [done|])].
    rewrite <-(loop_index_old _ _ _ _ Hl Hy) in Hgy.
    rewrite (loop_index_old _ _ _ _ Hl) by (by apply (si_path _ _ Hinv0)). lia.
Qed.

Lemma leave_keep_low processed new s :
  loop_inv path n s0 processed new s → (∀ y, edge n y → y ∈ processed) →
  low_of s n ≠ index_of s n → low_post (new ++ [n]) s0 s n.
Proof.
  intros Hl Hall Hne. split.
  - right. destruct (li_root _ _ _ _ _ _ Hl) as (y & [->|Hy] & Ey & Hr); [congruence|].
    exists y. split_and!; [done| |done]. by rewrite <-(loop_index_old _ _ _ _ Hl Hy).
  - intros w z [Hw| ->%list_elem_of_singleton]%elem_of_app Hz Hwz.
    + by apply (li_new _ _ _ _ _ _ Hl w).
    + apply (li_old _ _ _ _ _ _ Hl); auto.
Qed.

(** *** Leaving [n] when it is the root: the nodes above are a component *)

Definition member (new : list K) (x : K) : Prop := x ∈ new ∨ x = n.

Lemma root_closed processed new s x y :
  loop_inv path n s0 processed new s → (∀ y, edge n y → y ∈ processed) →
  low_of s n = index_of s n → member new x → edge x y → member new y ∨ finished s y.
Proof.
  intros Hl Hall Heq Hx Hxy. pose proof (li_inv _ _ _ _ _ _ Hl) as Hinv.
  assert (visited s y) as Hv.
  { destruct Hx as [Hx| ->]; [|by apply (li_done _ _ _ _ _ _ Hl), Hall].
    apply (si_black _ _ Hinv x); [| |done].
    - apply (loop_elem_stack _ _ _ _ Hl). auto.
    - pose proof (loop_index_above _ _ _ _ Hl Hx) as Hlt.
      intros [->|Hp]%elem_of_cons; [lia|].
      pose proof (loop_index_below _ _ _ x Hl (si_path _ _ Hinv0 x Hp)). lia. }
  apply (si_visited _ _ Hinv) in Hv as [Hv|]; [|by right].
  apply (loop_elem_stack _ _ _ _ Hl) in Hv as [?|[?|Hy]]; [by left; left|by left; right|].
  assert (low_of s n ≤ index_of s0 y)%nat as Hle.
  { destruct Hx as [Hx| ->]; [by apply (li_new _ _ _ _ _ _ Hl x)|].
    apply (li_old _ _ _ _ _ _ Hl); auto. }
  pose proof (loop_index_below _ _ _ _ Hl Hy).
  rewrite (loop_index_old _ _ _ _ Hl Hy) in *. lia.
Qed.

Lemma root_reach_closed processed new s x y :
  loop_inv path n s0 processed new s → (∀ y, edge n y → y ∈ processed) →
  low_of s n = index_of s n → reach x y →
  member new x ∨ finished s x → member new y ∨ finished s y.
Proof.
  intros Hl Hall Heq. pose proof (li_inv _ _ _ _ _ _ Hl) as Hinv.
  induction 1 as [|x v y Hxv _ IH]; [done|]. intros [Hx|Hx]; apply IH.
  - by eapply root_closed.
  - right. by eapply si_done.
Qed.

Lemma finished_reach_closed processed new s x y :
  loop_inv path n s0 processed new s → reach x y → finished s x → finished s y.
Proof.
  intros Hl. pose proof (li_inv _ _ _ _ _ _ Hl) as Hinv.
  induction 1 as [|x v y Hxv _ IH]; [done|]. intros Hx. apply IH. by eapply si_done.
Qed.

Lemma member_stack processed new s x :
  loop_inv path n s0 processed new s → member new x → x ∈ cs_stack s ∧ ¬ finished s x.
Proof.
  intros Hl Hx. assert (x ∈ cs_stack s) as Hs.
  { apply (loop_elem_stack _ _ _ _ Hl). unfold member in Hx. tauto. }
  split; [done|]. intros Hf.
  pose proof (si_nodup _ _ (li_inv _ _ _ _ _ _ Hl)) as (_&Hd&_)%NoDup_app.
  by apply (Hd x).
Qed.

Lemma member_to_root processed new s x :
  loop_inv path n s0 processed new s → (∀ y, edge n y → y ∈ processed) →
  low_of s n = index_of s n → member new x → reach n x ∧ reach x n.
Proof.
  intros Hl Hall Heq Hx. pose proof (li_inv _ _ _ _ _ _ Hl) as Hinv.
  pose proof (member_stack _ _ _ _ Hl Hx) as [Hs _]. split.
  - apply (si_down _ _ Hinv); [left|done|].
    destruct Hx as [Hx| ->]; [|done].
    by apply Nat.lt_le_incl, (loop_index_above _ _ _ _ Hl).
  - destruct (si_up _ _ Hinv x Hs) as (g & Hg & Hgx & Hr).
    apply elem_of_cons in Hg as [->|Hg]; [done|]. exfalso.
    pose proof (si_path _ _ Hinv0 g Hg) as Hg0.
    destruct (root_reach_closed _ _ _ _ _ Hl Hall Heq Hr (or_introl Hx)) as [[Hm|Hm]|Hf].
    + pose proof (loop_index_above _ _ _ _ Hl Hm).
      pose proof (loop_index_below _ _ _ _ Hl Hg0). lia.
    + subst g. by eapply loop_n_ne.
    + pose proof (si_nodup _ _ Hinv) as (_&Hd&_)%NoDup_app. apply (Hd g); [|done].
      apply (loop_elem_stack _ _ _ _ Hl). auto.
Qed.

Lemma root_scc processed new s x y :
  loop_inv path n s0 processed new s → (∀ y, edge n y → y ∈ processed) →
  low_of s n = index_of s n → member new x →
  (member new y ↔ reach x y ∧ reach y x).
Proof.
  intros Hl Hall Heq Hx. pose proof (member_to_root _ _ _ _ Hl Hall Heq Hx) as [Hnx Hxn].
  split.
  - intros Hy. pose proof (member_to_root _ _ _ _ Hl Hall Heq Hy) as [Hny Hyn].
    split; by etrans.
  - intros [Hxy Hyx].
    destruct (root_reach_closed _ _ _ _ _ Hl Hall Heq Hxy (or_introl Hx)) as [?|Hf]; [done|].
    destruct (member_stack _ _ _ _ Hl Hx) as [_ []]. by eapply finished_reach_closed.
Qed.

Lemma pop_component_spec new rest on :
  n ∉ new →
  ∃ on', pop_component n (new ++ n :: rest) on = (new ++ [n], rest, on') ∧
    ∀ x, on' !! x = if decide (x ∈ new ++ [n]) then Some false else on !! x.
Proof.
  intros Hnew. revert on. induction new as [|a new IH]; intros on; simpl.
  - rewrite decide_True by done. eexists. split; [done|]. intros x.
    destruct (decide (x = n)) as [->|?].
    + by rewrite lookup_insert_eq, decide_True by (by left).
    + rewrite lookup_insert_ne, decide_False by set_solver. done.
  - rewrite decide_False by set_solver.
    destruct (IH ltac:(set_solver) (<[a := false]> on)) as (on' & -> & Hon').
    eexists. split; [done|]. intros x. rewrite Hon'.
    destruct (decide (x = a)) as [->|?].
    + rewrite lookup_insert_eq, (decide_True (P := a ∈ a :: _)) by (by left).
      by case_decide.
    + rewrite lookup_insert_ne by done. repeat case_decide; set_solver.
Qed.

Lemma leave_root_inv processed new s :
  loop_inv path n s0 processed new s → (∀ y, edge n y → y ∈ processed) →
  low_of s n = index_of s n →
  search_inv path (leave sort_members n s) ∧ search_ext [] s0 (leave sort_members n s) ∧
  low_of (leave sort_members n s) n = index_of s n.
Proof.
  intros Hl Hall Heq. pose proof (li_inv _ _ _ _ _ _ Hl) as Hinv.
  pose proof (li_ext _ _ _ _ _ _ Hl) as Hext.
  unfold leave. rewrite decide_False by tauto.
  assert (n ∉ new) as Hnnew.
  { intros Hin. pose proof (loop_index_above _ _ _ _ Hl Hin). lia. }
  pose proof (loop_stack _ _ _ Hl) as Hst. rewrite Hst.
  destruct (pop_component_spec new (cs_stack s0) (cs_onStack s) Hnnew) as (on' & -> & Hon').
  assert (Hmem : ∀ x, x ∈ sort_members (new ++ [n]) ↔ member new x).
  { intros x. rewrite sort_members_perm. unfold member. set_solver. }
  assert (Hconcat : concat (cs_result s ++ [sort_members (new ++ [n])]) ≡ₚ
                    (new ++ [n]) ++ concat (cs_result s)).
  { rewrite concat_app. simpl. rewrite app_nil_r, sort_members_perm. apply Permutation_app_comm. }
  assert (Hfin : ∀ x, x ∈ concat (cs_result s ++ [sort_members (new ++ [n])]) ↔
                      member new x ∨ finished s x).
  { intros x. rewrite Hconcat, !elem_of_app, list_elem_of_singleton. done. }
  assert (Hsub : ∀ x, x ∈ cs_stack s0 → x ∈ cs_stack s).
  { intros x ?. apply (loop_elem_stack _ _ _ _ Hl). auto. }
  split_and!; [|destruct Hext as [E1 E2 E3 E4 E5]; by split|done].
  split; unfold finished; simpl.
  - intros x. rewrite Hfin. change (visited s x ↔ x ∈ cs_stack s0 ∨ (member new x ∨ finished s x)).
    rewrite (si_visited _ _ Hinv), (loop_elem_stack _ _ _ _ Hl). unfold member. tauto.
  - apply (si_in _ _ Hinv).
  - intros x. unfold on_stack. simpl. rewrite Hon'.
    pose proof (si_nodup _ _ Hinv) as [Hnd _]%NoDup_app. rewrite Hst in Hnd.
    rewrite (app_assoc new [n] (cs_stack s0) : new ++ n :: cs_stack s0 = _) in Hnd.
    apply NoDup_app in Hnd as (_&Hd&_).
    case_decide as Hx; [by split; [|intros ?; destruct (Hd x)]|].
    pose proof (si_on _ _ Hinv x) as Hon. unfold on_stack in Hon. rewrite Hon.
    rewrite (loop_elem_stack _ _ _ _ Hl). set_solver.
  - rewrite Hconcat, (Permutation_app_comm (cs_stack s0)), <-app_assoc.
    rewrite (Permutation_app_comm (concat _) (cs_stack s0)), app_assoc.
    rewrite <-(app_assoc new [n]). simpl. rewrite <-Hst. apply Hinv.
  - apply (si_lt _ _ Hinv).
  - change (StronglySorted (λ x y, index_of s y < index_of s x)%nat (cs_stack s0)).
    pose proof (si_sorted _ _ Hinv) as Hs. rewrite Hst in Hs.
    apply StronglySorted_app_rel in Hs as (_&Hs&_). by inversion Hs.
  - apply (si_path _ _ Hinv0).
  - intros x y. rewrite !Hfin. intros [Hx|Hx] Hxy.
    + by eapply root_closed.
    + right. by eapply si_done.
  - intros x y Hx Hp Hxy. apply (si_black _ _ Hinv x); [auto| |done].
    pose proof (loop_n_ne x Hx). set_solver.
  - intros g x Hg Hx. apply (si_down _ _ Hinv); [by right|auto].
  - intros x Hx. destruct (si_up _ _ Hinv x (Hsub x Hx)) as (g & Hg & Hgx & Hr).
    apply elem_of_cons in Hg as [->|Hg]; [|by exists g].
    pose proof (loop_index_below _ _ _ _ Hl Hx). lia.
  - intros C x y. rewrite elem_of_app, list_elem_of_singleton.
    intros [HC| ->]; [by apply (si_scc _ _ Hinv)|]. rewrite !Hmem. by apply (root_scc _ _ _ _ _ Hl).
  - intros C. rewrite elem_of_app, list_elem_of_singleton.
    intros [HC| ->]; [by apply (si_ne _ _ Hinv)|]. intros E.
    assert (n ∈ sort_members (new ++ [n])) as Hin by (apply Hmem; by right).
    rewrite E in Hin. by apply elem_of_nil in Hin.
Qed.

Lemma leave_spec processed new s :
  loop_inv path n s0 processed new s → (∀ y, edge n y → y ∈ processed) →
  ∃ new', search_inv path (leave sort_members n s) ∧
    search_ext new' s0 (leave sort_members n s) ∧
    low_post new' s0 (leave sort_members n s) n ∧ visited (leave sort_members n s) n.
Proof.
  intros Hl Hall.
  assert (visited s n) as Hv.
  { eapply inv_stack_visited; [apply Hl|]. apply (loop_elem_stack _ _ _ _ Hl). auto. }
  destruct (decide (low_of s n = index_of s n)) as [Heq|Hne].
  - exists []. destruct (leave_root_inv _ _ _ Hl Hall Heq) as (Hinv & Hext & Hlow).
    split_and!; [done..| |].
    + split; [left|by intros ?? ?%elem_of_nil]. split; [done|]. rewrite Hlow.
      destruct Hv as [i Hi]. rewrite (index_of_eq _ _ _ Hi).
      apply (se_new _ _ _ (li_ext _ _ _ _ _ _ Hl) n i); [|done].
      destruct (cs_indices s0 !! n) eqn:E; [|done]. destruct Hn. by eexists.
    + unfold visited, leave. case_decide; [done|]. by case_match; case_match.
  - exists (new ++ [n]). assert (leave sort_members n s = s) as ->.
    { unfold leave. by rewrite decide_True. }
    split_and!; [by eapply leave_keep_inv|apply Hl|by eapply leave_keep_low|done].
Qed.
End loop.

(** *** The recursion *)

(** The nodes still to visit, the measure of the recursion. *)
Definition unvisited s : list K := filter (λ x, cs_indices s !! x = None) nodes.

Lemma filter_length_le {A} (P Q : A → Prop) `{!∀ x, Decision (P x), !∀ x, Decision (Q x)} l :
  (∀ x, P x → Q x) → (length (filter P l) ≤ length (filter Q l))%nat.
Proof.
  intros HPQ. induction l as [|x l IH]; [done|]. rewrite !filter_cons.
  repeat case_decide; simpl; try lia. naive_solver.
Qed.

Lemma filter_length_lt {A} (P Q : A → Prop) `{!∀ x, Decision (P x), !∀ x, Decision (Q x)} l y :
  (∀ x, P x → Q x) → y ∈ l → Q y → ¬ P y →
  (S (length (filter P l)) ≤ length (filter Q l))%nat.
Proof.
  intros HPQ Hy HQ HP. induction l as [|x l IH]; [by apply elem_of_nil in Hy|].
  rewrite !filter_cons. apply elem_of_cons in Hy as [<-|Hy].
  - rewrite decide_False, decide_True by done. simpl.
    pose proof (filter_length_le P Q l HPQ). lia.
  - specialize (IH Hy). repeat case_decide; simpl; try lia. naive_solver.
Qed.

Lemma unvisited_mono new s s' :
  search_ext new s s' → (length (unvisited s') ≤ length (unvisited s))%nat.
Proof.
  intros Hext. apply filter_length_le. intros x Hx.
  destruct (cs_indices s !! x) as [i|] eqn:E; [|done].
  pose proof (se_indices _ _ _ Hext _ _ E). congruence.
Qed.

Lemma unvisited_enter n s :
  n ∈ nodes → ¬ visited s n → (S (length (unvisited (enter n s))) ≤ length (unvisited s))%nat.
Proof.
  intros Hin Hn. apply filter_length_lt with n; simpl; [|done| |].
  - intros x. destruct (decide (x = n)) as [->|?]; [by rewrite lookup_insert_eq|].
    by rewrite lookup_insert_ne.
  - destruct (cs_indices s !! n) eqn:E; [|done]. destruct Hn. by eexists.
  - by rewrite lookup_insert_eq.
Qed.

Notation connect := (connect adj sort_members).
Notation connect_loop := connect_loop.

Definition connect_ok (fuel : nat) : Prop := ∀ n s path,
  search_inv path s → n ∈ nodes → ¬ visited s n → (∀ g, g ∈ path → reach g n) →
  (length (unvisited s) ≤ fuel)%nat →
  ∃ s' new, connect fuel n s = Some s' ∧ search_inv path s' ∧ search_ext new s s' ∧
    low_post new s s' n ∧ visited s' n.

Lemma connect_loop_spec fuel path n s0 nexts :
  connect_ok fuel → n ∈ nodes → search_inv path s0 → ¬ visited s0 n →
  (∀ g, g ∈ path → reach g n) → (length (unvisited s0) ≤ S fuel)%nat →
  ∀ processed new s,
    loop_inv path n s0 processed new s → (∀ y, y ∈ nexts → edge n y) →
    ∃ s' new' processed', connect_loop (connect fuel) n nexts s = Some s' ∧
      loop_inv path n s0 processed' new' s' ∧
      ∀ y, y ∈ processed ∨ y ∈ nexts → y ∈ processed'.
Proof.
  intros Hrec Hn Hinv0 Hnv Hreach Hfuel.
  induction nexts as [|next nexts IH]; intros processed new s Hl Hedges; simpl.
  { exists s, new, processed. split_and!; [done..|]. intros y [?|?%elem_of_nil]; done. }
  assert (edge n next) as Hedge by (apply Hedges; left).
  assert (Hedges' : ∀ y, y ∈ nexts → edge n y) by (intros; apply Hedges; by right).
  destruct (cs_indices s !! next) as [i|] eqn:Ei; simpl.
  - pose proof (loop_visited path n s0 Hnv Hinv0 _ _ _ next Hl Hedge ltac:(by eexists)) as Hl'.
    destruct (on_stack s next); simpl;
      destruct (IH _ _ _ Hl' Hedges') as (s' & new' & processed' & E & Hl'' & Hp);
      exists s', new', processed'; (split_and!; [done|done|]); set_solver.
  - assert (¬ visited s next) as Hnext by (unfold visited; rewrite Ei; apply is_Some_None).
    destruct (Hrec next s (n :: path)) as (s' & new2 & E & Hinv' & Hext & Hlow & Hv');
      [apply Hl|by eapply Hclosed|done| | |].
    + intros g Hg. eapply rtc_r; [|done].
      assert (n ∈ cs_stack s) as Hns by (apply (loop_elem_stack _ _ _ _ _ _ _ Hl); auto).
      apply (si_down _ _ (li_inv _ _ _ _ _ _ Hl)); [done|done|].
      apply elem_of_cons in Hg as [->|Hg]; [done|].
      apply Nat.lt_le_incl, (loop_index_below _ _ _ _ _ _ _ Hl), (si_path _ _ Hinv0). done.
    + pose proof (unvisited_enter n s0 Hn Hnv).
      assert (length (unvisited s) ≤ length (unvisited (enter n s0)))%nat; [|lia].
      apply filter_length_le. intros x Hx. simpl.
      destruct (decide (x = n)) as [->|Hxn].
      * assert (visited s n) as [j Hj]; [|congruence].
        eapply inv_stack_visited; [apply Hl|]. apply (loop_elem_stack _ _ _ _ _ _ _ Hl). auto.
      * rewrite lookup_insert_ne by done.
        destruct (cs_indices s0 !! x) as [j|] eqn:Ej; [|done].
        pose proof (se_indices _ _ _ (li_ext _ _ _ _ _ _ Hl) _ _ Ej). congruence.
    + rewrite E. simpl.
      pose proof (loop_call path n s0 Hnv Hinv0 _ _ _ _ _ _ Hl Hedge Hnext Hinv' Hext Hlow Hv') as Hl'.
      destruct (IH _ _ _ Hl' Hedges') as (s'' & new' & processed' & E' & Hl'' & Hp).
      exists s'', new', processed'. split_and!; [done|done|]. set_solver.
Qed.

Lemma connect_spec fuel : connect_ok fuel.
Proof.
  induction fuel as [|fuel IH]; intros n s path Hinv Hn Hnv Hreach Hfuel.
  { pose proof (unvisited_enter n s Hn Hnv). lia. }
  destruct (connect_loop_spec fuel path n s (adj n) IH Hn Hinv Hnv Hreach Hfuel [] []
    (enter n s)) as (s' & new & processed & E & Hl & Hp); [by apply loop_inv_enter|done|].
  destruct (leave_spec path n s Hnv Hinv _ _ _ Hl) as (new' & Hinv' & Hext' & Hlow & Hv).
  { intros y Hy. apply Hp. by right. }
  exists (leave sort_members n s'), new'. simpl. by rewrite E.
Qed.

Lemma search_init_inv : search_inv [] search_init.
Proof.
  assert (∀ x : K, ¬ x ∈ []) by (intros; apply not_elem_of_nil).
  split; unfold finished, visited, on_stack; simpl;
    try (by constructor); try set_solver; intros x; rewrite lookup_empty; simpl.
  - split; [by intros [? ?]|set_solver].
  - by intros [? ?].
Qed.

Lemma tarjan_loop_spec fuel todo s :
  search_inv [] s → (∀ x, x ∈ todo → x ∈ nodes) → (length nodes ≤ fuel)%nat →
  ∃ s', tarjan_loop adj sort_members fuel todo s = Some s' ∧ search_inv [] s' ∧
    (∀ x, visited s x ∨ x ∈ todo → visited s' x).
Proof.
  intros Hinv Htodo Hfuel. revert s Hinv.
  induction todo as [|n todo IH]; intros s Hinv; simpl.
  { exists s. split_and!; [done..|]. set_solver. }
  assert (∀ x, x ∈ todo → x ∈ nodes) as Htodo' by set_solver.
  destruct (cs_indices s !! n) as [i|] eqn:Ei; simpl.
  - destruct (IH Htodo' s Hinv) as (s' & E & Hinv' & Hv). exists s'. split_and!; [done..|].
    intros x [?|[->|?]%elem_of_cons]; [|apply Hv; left; by eexists|]; auto.
  - destruct (connect_spec fuel n s [] Hinv) as (s1 & new & E & Hinv1 & Hext & _ & Hv1).
    + apply Htodo. left.
    + unfold visited. rewrite Ei. apply is_Some_None.
    + set_solver.
    + unfold unvisited. etrans; [apply length_filter|done].
    + rewrite E. simpl. destruct (IH Htodo' s1 Hinv1) as (s' & E' & Hinv' & Hv).
      exists s'. split_and!; [done..|].
      intros x [[j Hj]|[->|?]%elem_of_cons]; apply Hv; [|by left|by right].
      left. exists j. by apply (se_indices _ _ _ Hext).
Qed.

(** Tarjan's search terminates within [length nodes] nested calls, its
    components partition the nodes, and they are the equivalence classes of
    mutual reachability. *)
Theorem tarjan_run_correct :
  ∃ s, tarjan_run adj sort_members nodes = Some s ∧
    NoDup (concat (cs_result s)) ∧
    (∀ x, x ∈ concat (cs_result s) ↔ x ∈ nodes) ∧
    (∀ C, C ∈ cs_result s → C ≠ []) ∧
    (∀ C x y, C ∈ cs_result s → x ∈ C → (y ∈ C ↔ reach x y ∧ reach y x)).
Proof.
  destruct (tarjan_loop_spec (length nodes) nodes search_init) as (s & E & Hinv & Hv);
    [apply search_init_inv|done|done|].
  exists s. split_and!; [done| | | |].
  - pose proof (si_nodup _ _ Hinv) as Hd. by apply NoDup_app in Hd as (_&_&?).
  - intros x. split; [by intros Hx; apply (si_in _ _ Hinv), (si_visited _ _ Hinv); right|].
    intros Hx. assert (visited s x) as Hx' by (apply Hv; by right).
    apply (si_visited _ _ Hinv) in Hx' as [Hs|]; [|done].
    destruct (si_up _ _ Hinv x Hs) as (g & Hg & _). by apply elem_of_nil in Hg.
  - apply (si_ne _ _ Hinv).
  - apply (si_scc _ _ Hinv).
Qed.

End correctness.

Section cyclic.
Context `{EqDecision K} (adj : K → list K) (nodes : list K).
Notation edge := (edge adj).
Notation reach := (rtc edge).

(** A component is a cycle when it has two members or a self edge. *)
Definition cyclic_component (C : list K) : Prop :=
  (1 < length C)%nat ∨ ∃ x, x ∈ C ∧ edge x x.

Lemma tc_of_rtc_ne x y : reach x y → x ≠ y → tc edge x y.
Proof.
  intros Hr Hne. destruct Hr as [|x v y Hxv Hvy]; [done|].
  by eapply tc_rtc_r; [constructor|].
Qed.

(** The graph has a cycle exactly when one of its components is cyclic. *)
Lemma components_cyclic (result : list (list K)) :
  NoDup (concat result) → (∀ x, x ∈ concat result ↔ x ∈ nodes) →
  (∀ C x y, C ∈ result → x ∈ C → (y ∈ C ↔ reach x y ∧ reach y x)) →
  (∃ x, x ∈ nodes ∧ tc edge x x) ↔ ∃ C, C ∈ result ∧ cyclic_component C.
Proof.
  intros Hnd Hnodes Hscc. split.
  - intros (x & Hx & Hc). apply Hnodes, elem_of_concat in Hx as (C & HC & HxC).
    exists C. split; [done|].
    assert (edge x x ∨ ∃ y, edge x y ∧ tc edge y x) as [Hself|(y & Hxy & Hyx)].
    { inversion Hc; subst; eauto. }
    { right. by exists x. }
    destruct (decide (x = y)) as [->|Hne]; [right; by exists y|left].
    assert (y ∈ C) as HyC.
    { apply (Hscc C x); [done..|]. split; [by apply rtc_once|by apply tc_rtc]. }
    destruct C as [|a [|b C]]; simpl; [set_solver..|lia].
  - intros (C & HC & [Hlen|(x & HxC & Hself)]).
    + destruct C as [|a [|b C]]; simpl in Hlen; [lia..|].
      assert (a ≠ b) as Hab.
      { apply list_elem_of_split in HC as (r1 & r2 & ->).
        rewrite concat_app in Hnd. apply NoDup_app in Hnd as (_&_&Hnd). simpl in Hnd.
        apply NoDup_cons in Hnd as [Hnd _]. set_solver. }
      destruct (Hscc _ a b HC) as [Hr _]; [left|]. destruct Hr as [Hr1 Hr2]; [right; left|].
      exists a. split.
      * apply Hnodes, elem_of_concat. exists (a :: b :: C). split; [done|left].
      * eapply tc_rtc_r; [by apply tc_of_rtc_ne|done].
    + exists x. split; [|by constructor]. apply Hnodes, elem_of_concat. eauto.
Qed.
End cyclic.
