(* ===== verification/CycleSearch.v ===== *)
(** The backtracking search for a representative cycle of a component:
    [search] inside [representativeCycle] of src/compiler/graph/build.go and
    [findCyclePath] of src/compiler/modulith/modulith.go.

    The two differ in one test: modulith closes the cycle only when the path
    has more than its start ([may_close]).  The map of nodes on the path and the
    path itself are threaded through the calls, with the code's undo steps. *)
From S2P Require Import Prelude Scc.

(** ** Walks of the graph *)

Section walks.
Context `{EqDecision K} (adj : K → list K).

(** [walk x l y]: an edge path from [x] to [y] through [l]. *)
Fixpoint walk (x : K) (l : list K) (y : K) : Prop :=
  match l with
  | [] => y ∈ adj x
  | z :: l' => z ∈ adj x ∧ walk z l' y
  end.

Lemma walk_suffix u a x b y : walk u (a ++ x :: b) y → walk x b y.
Proof. revert u. induction a as [|z a IH]; intros u; simpl; [tauto|]. intros [_ ?]. eauto. Qed.

Lemma walk_simple x l y :
  walk x l y → ∃ l', walk x l' y ∧ NoDup l' ∧ x ∉ l' ∧ y ∉ l' ∧ l' ⊆ l.
Proof.
  revert x. induction l as [|z l IH]; intros x; simpl.
  { intros ?. exists []. split_and!; [done|constructor|apply not_elem_of_nil..|done]. }
  intros [Hxz Hw]. destruct (IH z Hw) as (l1 & Hw1 & Hnd & Hz & Hy & Hsub).
  destruct (decide (z = y)) as [->|Hzy].
  { exists []. split_and!; [done|constructor|apply not_elem_of_nil..|set_solver]. }
  destruct (decide (x ∈ z :: l1)) as [Hin|Hnin].
  - apply list_elem_of_split in Hin as (a & b & E).
    assert (NoDup (a ++ x :: b)) as Hnd' by (rewrite <-E; by constructor).
    assert (walk x b y) as Hwb.
    { destruct a as [|a0 a]; simpl in E; injection E as -> ->; [done|].
      by apply (walk_suffix a0 a). }
    apply NoDup_app in Hnd' as (_&_&Hnd'). apply NoDup_cons in Hnd' as [Hx Hb].
    exists b. split_and!; [done..| |].
    + intros Hyb. assert (y ∈ z :: l1) as Hy' by (rewrite E; set_solver). set_solver.
    + intros v Hv. assert (v ∈ z :: l1) as Hv' by (rewrite E; set_solver). set_solver.
  - exists (z :: l1). split_and!; [done|by constructor|done| |]; set_solver.
Qed.

Lemma walk_of_tc x y : tc (edge adj) x y → ∃ l, walk x l y.
Proof.
  induction 1 as [x y He|x y z He _ [l IH]]; [by exists []|]. by exists (y :: l).
Qed.

Lemma walk_consecutive x l y a u v b :
  walk x l y → x :: l ++ [y] = a ++ u :: v :: b → v ∈ adj u ∧ u ∈ x :: l.
Proof.
  revert x a. induction l as [|z l IH]; intros x a; simpl.
  - intros Hw E. destruct a as [|a0 [|a1 a]]; simpl in E; simplify_eq/=.
    + split; [done|left].
    + by destruct a.
  - intros [Hz Hw] E. destruct a as [|a0 a]; simpl in E; simplify_eq/=.
    + split; [done|left].
    + destruct (IH z a Hw) as [? ?]; [done|]. split; [done|by right].
Qed.

Lemma walk_tc x l y : walk x l y → tc (edge adj) x y.
Proof.
  revert x. induction l as [|z l IH]; intros x; simpl; [by constructor|].
  intros [? ?]. eapply tc_l; [done|auto].
Qed.

Lemma walk_reach x l y z : walk x l y → z ∈ l → rtc (edge adj) x z ∧ rtc (edge adj) z y.
Proof.
  revert x. induction l as [|v l IH]; intros x; simpl; [by intros _ ?%elem_of_nil|].
  intros [Hxv Hw] [->|Hz]%elem_of_cons.
  - split; [by apply rtc_once|]. by eapply tc_rtc, walk_tc.
  - destruct (IH v Hw Hz). split; [by eapply rtc_l|done].
Qed.
End walks.

(** ** The search *)

Section search.
Context `{Countable K}.
Context (adj : K → list K) (members : gset K) (start : K) (may_close : list K → bool).

Definition find_state : Type := bool * gset K * list K.

Fixpoint find_loop (find : K → gset K → list K → option find_state)
    (nexts : list K) (onPath : gset K) (path : list K) : option find_state :=
  match nexts with
  | [] => Some (false, onPath, path)
  | next :: nexts' =>
      if decide (next ∉ members) then find_loop find nexts' onPath path
      else if bool_decide (next = start) && may_close path
      then Some (true, onPath, path ++ [start])
      else if decide (next ∈ onPath) then find_loop find nexts' onPath path
      else
        match find next ({[next]} ∪ onPath) (path ++ [next]) with
        | None => None
        | Some (true, onPath', path') => Some (true, onPath', path')
        | Some (false, onPath', path') =>
            find_loop find nexts' (onPath' ∖ {[next]}) (take (length path' - 1) path')
        end
  end.

Fixpoint find_cycle (fuel : nat) (current : K) (onPath : gset K) (path : list K)
    : option find_state :=
  match fuel with
  | O => None
  | S fuel' => find_loop (find_cycle fuel') (adj current) onPath path
  end.

(** An unsuccessful search leaves the map and the path as it found them. *)
Lemma find_restores fuel current onPath path o p :
  find_cycle fuel current onPath path = Some (false, o, p) → o = onPath ∧ p = path.
Proof.
  revert current onPath path o p.
  induction fuel as [|fuel IH]; intros current onPath path o p; simpl; [done|].
  revert onPath path. induction (adj current) as [|next nexts IHn]; intros onPath path; simpl.
  { naive_solver. }
  case_decide; [auto|]. destruct (bool_decide _ && _); [done|]. case_decide; [auto|].
  destruct (find_cycle fuel next _ _) as [[[[] o'] p']|] eqn:E; [done| |done].
  apply IH in E as [-> ->]. intros Hl. apply IHn in Hl as [-> ->]. split.
  - set_solver.
  - rewrite length_app, Nat.add_sub. apply take_app_length.
Qed.

(** A successful search appends a simple path through the members that
    leads back to the start. *)
Lemma find_sound fuel current onPath path o p :
  find_cycle fuel current onPath path = Some (true, o, p) →
  ∃ q, p = path ++ q ++ [start] ∧ walk adj current q start ∧ NoDup q ∧
    (∀ x, x ∈ q → x ∈ members ∧ x ∉ onPath) ∧ start ∈ members ∧
    (q = [] → may_close path = true).
Proof.
  revert current onPath path o p.
  induction fuel as [|fuel IH]; intros current onPath path o p; simpl; [done|].
  enough (Hloop : ∀ nexts, nexts ⊆ adj current → ∀ onPath path,
    find_loop (find_cycle fuel) nexts onPath path = Some (true, o, p) →
    ∃ q, p = path ++ q ++ [start] ∧ walk adj current q start ∧ NoDup q ∧
      (∀ x, x ∈ q → x ∈ members ∧ x ∉ onPath) ∧ start ∈ members ∧
      (q = [] → may_close path = true)) by (by apply Hloop).
  clear onPath path. induction nexts as [|next nexts IHn]; intros Hsub onPath path; simpl; [done|].
  assert (nexts ⊆ adj current) as Hsub' by set_solver.
  assert (next ∈ adj current) as Hnext by set_solver.
  case_decide as Hm; [by apply IHn|].
  destruct (bool_decide _ && _) eqn:Hc.
  { bool_prop. subst. intros [= <- <-]. exists [].
    split_and!; [done|done|constructor| |done|done]. by intros ? ?%elem_of_nil. }
  destruct (decide (next ∈ onPath)) as [Hon|Hon]; [by apply IHn|].
  destruct (find_cycle fuel next _ _) as [[[[] o'] p']|] eqn:E; [| |done].
  - intros [= -> ->]. apply IH in E as (q & -> & Hw & Hnd & Hq & Hs & _).
    exists (next :: q). split_and!; [by rewrite <-app_assoc|done| | |done|done].
    + constructor; [|done]. intros Hin. apply Hq in Hin. set_solver.
    + intros x [->|Hx]%elem_of_cons; [done|]. apply Hq in Hx. set_solver.
  - apply find_restores in E as [-> ->]. intros Hl. apply IHn in Hl; [|done].
    rewrite length_app, Nat.add_sub, take_app_length in Hl.
    destruct Hl as (q & ? & ? & ? & Hq & ?). exists q. split_and!; try tauto.
    intros x Hx. destruct (Hq x Hx) as [? Hnot]. split; [done|]. intros Hxo.
    apply Hnot. destruct (decide (x = next)) as [->|]; [done|set_solver].
Qed.

(** With fuel for the members off the path, the search ends, and it fails
    only when no simple path through those members leads back. *)
Lemma find_complete fuel current onPath path :
  (∀ p, (2 ≤ length p)%nat → may_close p = true) → path ≠ [] →
  start ∈ members → start ∈ onPath → (size (members ∖ onPath) < fuel)%nat →
  ∃ b o p, find_cycle fuel current onPath path = Some (b, o, p) ∧
    (b = false → ∀ q, walk adj current q start → NoDup q →
      (∀ x, x ∈ q → x ∈ members ∧ x ∉ onPath) →
      (q = [] → may_close path = true) → False).
Proof.
  intros Hclose. revert current onPath path.
  induction fuel as [|fuel IH]; intros current onPath path Hpath Hs Hon Hfuel; [lia|]. simpl.
  enough (Hloop : ∀ nexts, ∃ b o p,
    find_loop (find_cycle fuel) nexts onPath path = Some (b, o, p) ∧
    (b = false → ∀ q x, x = default start (head q) → x ∈ nexts →
      (q = [] ∨ walk adj x (tail q) start) → NoDup q →
      (∀ x, x ∈ q → x ∈ members ∧ x ∉ onPath) →
      (q = [] → may_close path = true) → False)).
  { destruct (Hloop (adj current)) as (b & o & p & E & Hb). exists b, o, p.
    split; [done|]. intros -> q Hw Hnd Hq Hmc.
    apply (Hb eq_refl q (default start (head q)) eq_refl); [| |done..].
    - destruct q; simpl in *; tauto.
    - destruct q; simpl in *; tauto. }
  induction nexts as [|next nexts (b & o & p & E & Hb)]; simpl.
  { exists false, onPath, path. split; [done|]. by intros _ ??? ?%elem_of_nil. }
  case_decide as Hm.
  { exists b, o, p. split; [done|]. intros -> q x Hx [->|Hin]%elem_of_cons; [|by eauto].
    intros _ _ Hq _. destruct q as [|y q]; simpl in Hx; subst; [done|].
    destruct (Hq y); [left|done]. }
 
  destruct (bool_decide (next = start) && may_close path) eqn:Hc.
  { exists true, onPath, (path ++ [start]). done. }
  destruct (decide (next ∈ onPath)) as [Hno|Hno].
  { exists b, o, p. split; [done|]. intros -> q x Hx [->|Hin]%elem_of_cons; [|by eauto].
    intros _ _ Hq Hmc. destruct q as [|y q]; simpl in Hx; subst.
    - by rewrite Hmc, bool_decide_eq_true_2 in Hc.
    - destruct (Hq y); [left|done]. }
  assert (next ≠ start) as Hns by (intros ->; done).
  destruct (IH next ({[next]} ∪ onPath) (path ++ [next])) as (b' & o' & p' & E' & Hb').
  { by destruct path. } { done. } { set_solver. }
  { assert (size (members ∖ ({[next]} ∪ onPath)) < size (members ∖ onPath))%nat; [|lia].
    apply subset_size. set_solver. }
  rewrite E'. destruct b'; [by exists true, o', p'|].
  apply find_restores in E' as [-> ->].
  replace ((({[next]} ∪ onPath) ∖ {[next]} : gset K)) with onPath by set_solver.
  rewrite length_app, Nat.add_sub, take_app_length.
  exists b, o, p. split; [done|]. intros -> q x Hx [->|Hin]%elem_of_cons; [|by eauto].
  intros Hw Hnd Hq Hmc. destruct q as [|y q]; simpl in Hx; [done|]. subst y.
  destruct Hw as [?|Hw]; [done|]. simpl in Hw. apply NoDup_cons in Hnd as [Hnq Hnd].
  apply (Hb' eq_refl q Hw Hnd).
  - intros x Hx. destruct (Hq x) as [? ?]; [by right|]. split; [done|]. set_solver.
  - intros _. apply Hclose. rewrite length_app. simpl. destruct path; simpl; [done|lia].
Qed.
End search.

(** A component found by the search always has a representative cycle. *)
Lemma find_cycle_component `{Countable K} (adj : K → list K) (members : list K) start
    (may_close : list K → bool) :
  (∀ p, (2 ≤ length p)%nat → may_close p = true) →
  NoDup members → start ∈ members → (1 < length members)%nat →
  (∀ y, y ∈ members ↔ rtc (edge adj) start y ∧ rtc (edge adj) y start) →
  start ∉ adj start →
  ∃ o q, find_cycle adj (list_to_set members) start may_close (length members) start
             {[start]} [start] = Some (true, o, [start] ++ q ++ [start]) ∧
    walk adj start q start ∧ NoDup (start :: q) ∧ (∀ x, x ∈ q → x ∈ members).
Proof.
  intros Hclose Hnd Hs Hlen Hscc Hself.
  assert (Hsize : size (list_to_set members : gset K) = length members)
    by by apply size_list_to_set.
  destruct (find_complete adj (list_to_set members) start may_close (length members) start
    {[start]} [start]) as (b & o & p & E & Hb); [done|done|set_solver..| |].
  { rewrite <-Hsize. apply subset_size. set_solver. }
  destruct b.
  - destruct (find_sound _ _ _ _ _ _ _ _ _ _ E) as (q & -> & Hw & Hq & Hin & _).
    exists o, q. split_and!; [done|done| |].
    + constructor; [|done]. intros Hx%Hin. set_solver.
    + intros x Hx%Hin. set_solver.
  - exfalso. assert (∃ y, y ∈ members ∧ y ≠ start) as (y & Hy & Hys).
    { destruct members as [|a [|b l]]; simpl in Hlen; [lia..|].
      apply NoDup_cons in Hnd as [Hab _].
      destruct (decide (a = start)) as [->|]; [exists b|exists a]; set_solver. }
    apply Hscc in Hy as [Hr1 Hr2].
    assert (tc (edge adj) start start) as Hc.
    { eapply tc_rtc_r; [|exact Hr2]. by apply tc_of_rtc_ne. }
    apply walk_of_tc in Hc as [l Hw].
    apply walk_simple in Hw as (q & Hwq & Hndq & Hsq & _ & _).
    apply (Hb eq_refl q Hwq Hndq).
    + intros x Hx. split; [|set_solver]. apply elem_of_list_to_set, Hscc.
      by eapply walk_reach.
    + intros ->. by destruct Hself.
Qed.
