(* ===== verification/BinHeap.v ===== *)
(** Go's [container/heap] over a slice, with the count of [Less] calls that
    [readyPriorityQueue] of src/compiler/graph/build.go keeps, and the contract
    its client relies on: every operation permutes the values and keeps the heap
    order, and [heap.Pop] returns a least value. *)
From S2P Require Import Prelude GoSort.
From Stdlib Require Import ZifyNat.

Ltac Zify.zify_post_hook ::= Z.to_euclidean_division_equations.

Section heap.
Context {A : Type} `{Inhabited A} (less : A → A → bool).

(** The slice and the number of comparisons made so far. *)
Record pq := mkPQ { pq_values : list A; pq_comparisons : nat }.

(** [queue.Less(i, j)] and [queue.Swap(i, j)]. *)
Definition pq_less (i j : nat) (q : pq) : bool * pq :=
  (less (pq_values q !!! i) (pq_values q !!! j),
   mkPQ (pq_values q) (S (pq_comparisons q))).

Definition swap (i j : nat) (l : list A) : list A :=
  <[i := l !!! j]> (<[j := l !!! i]> l).

Definition pq_swap (i j : nat) (q : pq) : pq :=
  mkPQ (swap i j (pq_values q)) (pq_comparisons q).

(** [down(h, i, n)]; the fuel bounds the descent, [n] is enough. *)
Fixpoint heap_down (fuel i n : nat) (q : pq) : pq :=
  match fuel with
  | O => q
  | S fuel' =>
      let j1 := (2 * i + 1)%nat in
      if (n <=? j1)%nat then q
      else
        let j2 := S j1 in
        let '(right_less, q1) := if (j2 <? n)%nat then pq_less j2 j1 q else (false, q) in
        let j := if right_less : bool then j2 else j1 in
        let '(child_less, q2) := pq_less j i q1 in
        if child_less : bool then heap_down fuel' j n (pq_swap i j q2) else q2
  end.

(** [up(h, j)]; [j] is enough fuel. *)
Fixpoint heap_up (fuel j : nat) (q : pq) : pq :=
  match fuel with
  | O => q
  | S fuel' =>
      let i := ((j - 1) / 2)%nat in
      if (i =? j)%nat then q
      else
        let '(child_less, q1) := pq_less j i q in
        if child_less : bool then heap_up fuel' i (pq_swap i j q1) else q1
  end.

(** [for i := k - 1; i >= 0; i-- { down(h, i, n) }] *)
Fixpoint heap_init_loop (k n : nat) (q : pq) : pq :=
  match k with
  | O => q
  | S i => heap_init_loop i n (heap_down n i n q)
  end.

Definition heap_init (q : pq) : pq :=
  let n := length (pq_values q) in heap_init_loop (n / 2) n q.

Definition heap_push (x : A) (q : pq) : pq :=
  let q' := mkPQ (pq_values q ++ [x]) (pq_comparisons q) in
  let last := (length (pq_values q') - 1)%nat in
  heap_up (S last) last q'.

(** [heap.Pop] on a heap that is not empty. *)
Definition heap_pop (q : pq) : A * pq :=
  let n := (length (pq_values q) - 1)%nat in
  let q' := heap_down n 0 n (pq_swap 0 n q) in
  (pq_values q' !!! n, mkPQ (take n (pq_values q')) (pq_comparisons q')).

(** ** Permutations *)

Lemma swap_length i j l : length (swap i j l) = length l.
Proof. unfold swap. by rewrite !length_insert. Qed.

Lemma swap_lookup i j l k :
  (i < length l)%nat → (j < length l)%nat →
  swap i j l !!! k = if decide (k = i) then l !!! j else if decide (k = j) then l !!! i else l !!! k.
Proof.
  intros Hi Hj. unfold swap. destruct (decide (k = i)) as [->|Hk].
  - apply list_lookup_total_insert_eq. by rewrite length_insert.
  - rewrite list_lookup_total_insert_ne by done.
    destruct (decide (k = j)) as [->|Hkj]; [by apply list_lookup_total_insert_eq|].
    by apply list_lookup_total_insert_ne.
Qed.

Lemma swap_perm i j l : (i < length l)%nat → (j < length l)%nat → swap i j l ≡ₚ l.
Proof.
  intros Hi Hj. apply Permutation_inj. split; [apply swap_length|].
  exists (λ k, if decide (k = i) then j else if decide (k = j) then i else k). split.
  - intros a b. repeat case_decide; congruence.
  - intros k. destruct (decide (k < length l)%nat) as [Hk|Hk].
    + rewrite list_lookup_lookup_total_lt by (by rewrite swap_length).
      rewrite swap_lookup by done. repeat case_decide; subst;
        by rewrite list_lookup_lookup_total_lt.
    + rewrite !lookup_ge_None_2; [done| |rewrite swap_length; lia].
      repeat case_decide; lia.
Qed.

Definition same_values (q q' : pq) : Prop :=
  pq_values q' ≡ₚ pq_values q ∧ length (pq_values q') = length (pq_values q).

#[local] Instance same_values_refl : Reflexive same_values.
Proof. done. Qed.
#[local] Instance same_values_trans : Transitive same_values.
Proof. intros q1 q2 q3 [P1 L1] [P2 L2]. split; [by rewrite P2|congruence]. Qed.

Lemma pq_swap_same i j q :
  (i < length (pq_values q))%nat → (j < length (pq_values q))%nat →
  same_values q (pq_swap i j q).
Proof. intros. split; [by apply swap_perm|apply swap_length]. Qed.

(** One round of [down]: the child it compares with, up to the counter. *)
Lemma heap_down_step fuel i n q :
  ∃ c, heap_down (S fuel) i n q =
    if (n <=? 2 * i + 1)%nat then q
    else
      let l := pq_values q in
      let j := if (S (2 * i + 1) <? n)%nat && less (l !!! S (2 * i + 1)) (l !!! (2 * i + 1)%nat)
               then S (2 * i + 1) else (2 * i + 1)%nat in
      if less (l !!! j) (l !!! i)
      then heap_down fuel j n (mkPQ (swap i j l) c) else mkPQ l c.
Proof.
  simpl. destruct (n <=? _)%nat; [by exists 0%nat|].
  destruct (_ <? n)%nat; simpl; [|by exists (S (pq_comparisons q))].
  exists (S (S (pq_comparisons q))). by destruct (less (_ !!! S _) _).
Qed.

Lemma heap_down_same fuel i n q :
  (i < n)%nat → (n ≤ length (pq_values q))%nat → same_values q (heap_down fuel i n q).
Proof.
  revert i q. induction fuel as [|fuel IH]; intros i q Hi Hn; [done|].
  destruct (heap_down_step fuel i n q) as [c ->].
  destruct (Nat.leb_spec n (2 * i + 1)) as [|Hlt]; [reflexivity|]. cbv zeta.
  set (j := if _ && _ then _ else _).
  assert (j < n)%nat as Hj.
  { subst j. destruct (Nat.ltb_spec (S (2 * i + 1)) n); simpl; [case_match|]; lia. }
  clearbody j. destruct (less _ _); [|by split]. etrans; [|apply IH; [done|]].
  - split; [apply swap_perm|apply swap_length]; lia.
  - simpl. by rewrite swap_length.
Qed.

(** [down] leaves the slot [n] alone. *)
Lemma heap_down_beyond fuel i n q :
  (i < n)%nat → (n < length (pq_values q))%nat →
  pq_values (heap_down fuel i n q) !!! n = pq_values q !!! n.
Proof.
  revert i q. induction fuel as [|fuel IH]; intros i q Hi Hn; [done|].
  destruct (heap_down_step fuel i n q) as [c ->].
  destruct (Nat.leb_spec n (2 * i + 1)) as [|Hlt]; [done|]. cbv zeta.
  set (j := if _ && _ then _ else _).
  assert (j < n)%nat as Hj.
  { subst j. destruct (Nat.ltb_spec (S (2 * i + 1)) n); simpl; [case_match|]; lia. }
  clearbody j. destruct (less _ _); [|done].
  rewrite IH; simpl; [|done|by rewrite swap_length].
  rewrite swap_lookup by lia. by rewrite !decide_False by lia.
Qed.

(** ** Heap order *)

Context `{!StrictWeak less}.

Definition le (x y : A) : Prop := less y x = false.

#[local] Instance le_trans : Transitive le.
Proof. intros x y z ??. by eapply sw_le_trans. Qed.
#[local] Instance le_refl : Reflexive le.
Proof. intros x. apply sw_irrefl. Qed.

Definition parent (k : nat) : nat := ((k - 1) / 2)%nat.

Lemma parent_children k i :
  (0 < k)%nat → parent k = i ↔ k = (2 * i + 1)%nat ∨ k = S (2 * i + 1).
Proof. unfold parent. intros. split; intros; lia. Qed.

(** Every node below [n] whose parent is at least [lo] is in order. *)
Definition heap_from (lo n : nat) (l : list A) : Prop := ∀ k,
  (0 < k < n)%nat → (lo ≤ parent k)%nat → le (l !!! parent k) (l !!! k).

Definition heap_ok (q : pq) : Prop := heap_from 0 (length (pq_values q)) (pq_values q).

(** The invariant of [down]: only the children of [i] may be out of order,
    and they are in order with the parent of [i]. *)
Definition down_inv (lo i n : nat) (l : list A) : Prop :=
  (∀ k, (0 < k < n)%nat → (lo ≤ parent k)%nat → parent k ≠ i → le (l !!! parent k) (l !!! k)) ∧
  (∀ k, (0 < k < n)%nat → parent k = i → (0 < i)%nat → (lo ≤ parent i)%nat →
    le (l !!! parent i) (l !!! k)).

Lemma down_inv_swap lo i j n l :
  down_inv lo i n l → (lo ≤ i)%nat → (n ≤ length l)%nat → (0 < j < n)%nat → parent j = i →
  (∀ k, (0 < k < n)%nat → parent k = i → le (l !!! j) (l !!! k)) →
  le (l !!! j) (l !!! i) → down_inv lo j n (swap i j l).
Proof.
  intros [H1 H2] Hlo Hn Hj Hij Hmin Hle.
  assert (i < j)%nat by (unfold parent in Hij; lia).
  split.
  - intros k Hk Hlok Hpk. rewrite !swap_lookup by lia.
    destruct (decide (parent k = i)) as [Epk|Npk].
    + rewrite (decide_False (P := k = i)) by (unfold parent in *; lia).
      case_decide; [done|]. by apply Hmin.
    + rewrite (decide_False (P := parent k = j)) by done.
      destruct (decide (k = i)) as [->|Nki].
      * apply H2; [lia|done|lia|done].
      * rewrite decide_False by congruence. by apply H1.
  - intros k Hk Hpk Hj0 Hloj. rewrite !swap_lookup by lia. rewrite Hij.
    rewrite (decide_True (P := i = i)) by done.
    assert (k ≠ i ∧ k ≠ j) as [??] by (unfold parent in *; lia).
    rewrite !decide_False by done. rewrite <-Hpk. apply H1; [done| |lia].
    unfold parent in *; lia.
Qed.

Lemma heap_down_spec fuel lo i n q :
  (n ≤ fuel + i)%nat → (lo ≤ i)%nat → (n ≤ length (pq_values q))%nat →
  down_inv lo i n (pq_values q) → heap_from lo n (pq_values (heap_down fuel i n q)).
Proof.
  revert i q. induction fuel as [|fuel IH]; intros i q Hfuel Hlo Hn Hinv.
  { intros k Hk Hlok. apply Hinv; [done..|]. unfold parent; lia. }
  destruct (heap_down_step fuel i n q) as [c ->].
  destruct (Nat.leb_spec n (2 * i + 1)) as [|Hlt].
  { intros k Hk Hlok. apply Hinv; [done..|]. intros E.
    apply parent_children in E; lia. }
  cbv zeta. set (j := if _ && _ then _ else _).
  assert (0 < j < n ∧ parent j = i)%nat as [Hj Hpj].
  { subst j. destruct (Nat.ltb_spec (S (2 * i + 1)) n); simpl; [case_match|];
      (split; [lia|apply parent_children; lia]). }
  assert (Hmin : ∀ k, (0 < k < n)%nat → parent k = i →
    le (pq_values q !!! j) (pq_values q !!! k)).
  { intros k Hk Epk. apply parent_children in Epk; [|lia]. subst j.
    destruct (Nat.ltb_spec (S (2 * i + 1)) n) as [?|?]; simpl.
    - destruct (less (_ !!! S _) _) eqn:E; destruct Epk as [->| ->]; try done.
      by apply sw_asym.
    - destruct Epk as [->| ->]; [done|lia]. }
  destruct (less (pq_values q !!! j) (pq_values q !!! i)) eqn:Hless.
  - apply IH; simpl; [unfold parent in *; lia|unfold parent in *; lia| |].
    + by rewrite swap_length.
    + apply down_inv_swap; try done. by apply sw_asym.
  - simpl. intros k Hk Hlok. destruct (decide (parent k = i)) as [E|Ne]; [|by apply Hinv].
    rewrite E. etrans; [exact Hless|]. by apply Hmin.
Qed.

(** The invariant of [up]: only [j] may be out of order with its parent. *)
Definition up_inv (j : nat) (l : list A) : Prop :=
  (∀ k, (0 < k < length l)%nat → k ≠ j → le (l !!! parent k) (l !!! k)) ∧
  (∀ k, (0 < k < length l)%nat → parent k = j → (0 < j)%nat → le (l !!! parent j) (l !!! k)).

Lemma heap_up_step fuel j q :
  heap_up (S fuel) j q =
    if (parent j =? j)%nat then q
    else if less (pq_values q !!! j) (pq_values q !!! parent j)
         then heap_up fuel (parent j)
                (mkPQ (swap (parent j) j (pq_values q)) (S (pq_comparisons q)))
         else mkPQ (pq_values q) (S (pq_comparisons q)).
Proof. done. Qed.

Lemma heap_up_spec fuel j q :
  (j < fuel)%nat → (j < length (pq_values q))%nat → up_inv j (pq_values q) →
  heap_ok (heap_up fuel j q) ∧ same_values q (heap_up fuel j q).
Proof.
  revert j q. induction fuel as [|fuel IH]; intros j q Hfuel Hj [H1 H2]; [lia|].
  rewrite heap_up_step.
  destruct (Nat.eqb_spec (parent j) j) as [Ej|Nj].
  { split; [|reflexivity]. intros k Hk _. apply H1; [done|]. unfold parent in *. lia. }
  assert (parent j < j)%nat as Hpj by (unfold parent in *; lia).
  destruct (less (_ !!! j) _) eqn:Hless.
  - set (q' := mkPQ _ _).
    destruct (IH (parent j) q') as [Hok Hsame].
    + lia.
    + simpl. rewrite swap_length. lia.
    + subst q'. simpl. split; rewrite swap_length.
      * intros k Hk Hkp. rewrite !swap_lookup by lia.
        rewrite (decide_False (P := k = parent j)) by done.
        destruct (decide (k = j)) as [->|Nk].
        { rewrite decide_True by done. by apply sw_asym. }
        destruct (decide (parent k = parent j)) as [E|Npk].
        { etrans; [by eapply sw_asym|]. rewrite <-E. by apply H1. }
        destruct (decide (parent k = j)) as [E|Nkj]; [apply H2; [done..|lia]|by apply H1].
      * intros k Hk Epk Hp. rewrite !swap_lookup by lia.
        rewrite (decide_False (P := parent (parent j) = parent j)) by (unfold parent in *; lia).
        rewrite (decide_False (P := parent (parent j) = j)) by (unfold parent in *; lia).
        rewrite (decide_False (P := k = parent j)) by (unfold parent in *; lia).
        assert (le (pq_values q !!! parent (parent j)) (pq_values q !!! parent j)) as Hpp.
        { apply H1; lia. }
        case_decide; [done|]. etrans; [exact Hpp|]. rewrite <-Epk. by apply H1.
    + split; [done|]. etrans; [|done]. split; simpl; [apply swap_perm|apply swap_length]; lia.
  - split; [|by split]. intros k Hk _. simpl in *. destruct (decide (k = j)) as [->|Nk]; [done|].
    by apply H1.
Qed.

(** ** The contract *)

Lemma heap_init_loop_spec k n q :
  n = length (pq_values q) → (k ≤ n / 2)%nat → heap_from k n (pq_values q) →
  heap_ok (heap_init_loop k n q) ∧ same_values q (heap_init_loop k n q).
Proof.
  revert q. induction k as [|i IH]; intros q -> Hk Hheap; simpl; [done|].
  assert (i < length (pq_values q))%nat as Hi by lia.
  pose proof (heap_down_same (length (pq_values q)) i _ q Hi ltac:(done)) as [P L].
  destruct (IH (heap_down (length (pq_values q)) i (length (pq_values q)) q)) as [Hok Hsame].
  - done.
  - lia.
  - apply heap_down_spec; [lia..|]. split.
    + intros k Hk' Hlo Hne. apply Hheap; [done|lia].
    + intros k ?? Hi0 Hlo. unfold parent in Hlo. lia.
  - split; [done|]. etrans; [split; [exact P|exact L]|done].
Qed.

Lemma heap_init_spec q : heap_ok (heap_init q) ∧ same_values q (heap_init q).
Proof.
  apply heap_init_loop_spec; [done..|]. intros k Hk Hlo. unfold parent in *. lia.
Qed.

Lemma heap_push_spec x q :
  heap_ok q → heap_ok (heap_push x q) ∧ pq_values (heap_push x q) ≡ₚ x :: pq_values q.
Proof.
  intros Hok. unfold heap_push. set (q' := mkPQ _ _). cbv zeta.
  assert (length (pq_values q') = S (length (pq_values q))) as Hlen.
  { simpl. rewrite length_app. simpl. lia. }
  destruct (heap_up_spec (S (length (pq_values q') - 1)) (length (pq_values q') - 1) q')
    as [Hok' [P _]]; [lia..| |].
  - split; rewrite Hlen.
    + intros k Hk Hne. simpl. rewrite !lookup_total_app_l by (unfold parent; lia).
      apply Hok; lia.
    + intros k Hk Epk. unfold parent in Epk. lia.
  - split; [done|]. rewrite P. simpl. by rewrite Permutation_app_comm.
Qed.

Lemma heap_root_le q k :
  heap_ok q → (k < length (pq_values q))%nat → le (pq_values q !!! 0%nat) (pq_values q !!! k).
Proof.
  intros Hok. induction k as [k IH] using lt_wf_ind. intros Hk.
  destruct (decide (k = 0%nat)) as [->|Hk0]; [done|].
  etrans; [apply (IH (parent k)); unfold parent; lia|]. apply Hok; lia.
Qed.

Lemma heap_pop_spec q x q' :
  heap_ok q → pq_values q ≠ [] → heap_pop q = (x, q') →
  heap_ok q' ∧ pq_values q ≡ₚ x :: pq_values q' ∧ ∀ y, y ∈ pq_values q → le x y.
Proof.
  intros Hok Hne. unfold heap_pop. set (n := (length (pq_values q) - 1)%nat).
  assert (length (pq_values q) = S n) as Hlen by (destruct q as [[|??] ?]; subst n; simpl in *; [done|lia]).
  set (q1 := pq_swap 0 n q). intros [= <- <-].
  assert (same_values q q1) as [P1 L1] by (apply pq_swap_same; lia).
  set (q2 := heap_down n 0 n q1).
  assert (Hdown : heap_from 0 n (pq_values q2)).
  { apply heap_down_spec; [lia..|]. split; [|intros; lia].
    intros k Hk _ Hpk. subst q1. simpl. rewrite !swap_lookup by lia.
    rewrite !decide_False by (unfold parent in *; lia). apply Hok; lia. }
  assert (Hlast : pq_values q2 !!! n = pq_values q !!! 0%nat ∧ same_values q1 q2).
  { destruct (decide (n = 0%nat)) as [E|].
    - assert (q2 = q1) as -> by (subst q2; by rewrite E). split; [|done].
      subst q1. simpl. rewrite swap_lookup by lia. by rewrite E.
    - split; [|apply heap_down_same; lia].
      subst q2. transitivity (pq_values q1 !!! n).
      + apply heap_down_beyond; subst q1; simpl; rewrite ?swap_length; lia.
      + subst q1. simpl. rewrite swap_lookup by lia.
        by rewrite decide_False, decide_True by lia. }
  destruct Hlast as [Elast [P2 L2]].
  assert (pq_values q2 = take n (pq_values q2) ++ [pq_values q2 !!! n]) as Esplit.
  { rewrite <-(take_drop n (pq_values q2)) at 1. f_equal.
    rewrite (drop_S _ (pq_values q2 !!! n) n) by (apply list_lookup_lookup_total_lt; lia).
    by rewrite drop_ge by lia. }
  split_and!.
  - unfold heap_ok. simpl. rewrite length_take_le by lia. intros k Hk _.
    rewrite !lookup_total_take, !decide_True by (unfold parent; lia). apply Hdown; lia.
  - simpl. rewrite <-P1, <-P2. rewrite Esplit at 1. by rewrite Permutation_app_comm.
  - intros y Hy. rewrite Elast. apply list_elem_of_lookup_total in Hy as (k & Hk & <-).
    by apply heap_root_le.
Qed.
End heap.

Arguments mkPQ {_} _ _.
Arguments pq_values {_} _.
Arguments pq_comparisons {_} _.
