(* ===== verification/Provider.v ===== *)
(** The provider catalog records the graph works on
    (src/compiler/provider/provider.go) and the part of go/types it uses.

    A [types.Type] is modelled by its shape down to the types the graph does not
    look into (named, basic, signature, struct, interface, tuple and type
    parameter types): those are the carrier of the typeclass [GoTypes], with
    their identity and their printed name. *)
From S2P Require Import Prelude GoSort GoStrings.

(** ** token.Position *)

Record Position := mkPosition {
  Filename : string;
  Offset : Z;
  Line : Z;
  Column : Z;
}.

#[export] Instance Position_eq_dec : EqDecision Position.
Proof. solve_decision. Defined.
#[export] Instance Position_inhabited : Inhabited Position := populate (mkPosition "" 0 0 0).

Definition no_position : Position := mkPosition "" 0 0 0.

(** ** go/types *)

Class GoTypes := {
  other_type : Type;
  other_identical : other_type → other_type → bool;
  other_id : other_type → string;
}.

(** Go's type identity is an equivalence.  [other_identical_id] says that
    identical types print alike: true of types that mention no alias below a
    signature, a struct or a type argument, and what the type index relies on
    (see [lookup_type_misses_aliases] of GraphTheorems for types that do). *)
Class GoTypesLaws (G : GoTypes) : Prop := {
  other_identical_refl o : other_identical o o = true;
  other_identical_sym o p : other_identical o p = true → other_identical p o = true;
  other_identical_trans o p q :
    other_identical o p = true → other_identical p q = true → other_identical o q = true;
  other_identical_id o p : other_identical o p = true → other_id o = other_id p;
}.

Section types.
Context `{GoTypes}.

Inductive GoType : Type :=
  | TArray (len : Z) (elem : GoType)
  | TSlice (elem : GoType)
  | TPointer (elem : GoType)
  | TMap (key elem : GoType)
  | TChan (dir : Z) (elem : GoType)
  | TAlias (name : string) (rhs : GoType)
  | TOther (o : other_type).

(** [types.Unalias] *)
Fixpoint unalias (t : GoType) : GoType :=
  match t with TAlias _ rhs => unalias rhs | _ => t end.

(** The type with every alias resolved, at every depth. *)
Fixpoint resolve (t : GoType) : GoType :=
  match t with
  | TArray n e => TArray n (resolve e)
  | TSlice e => TSlice (resolve e)
  | TPointer e => TPointer (resolve e)
  | TMap k e => TMap (resolve k) (resolve e)
  | TChan d e => TChan d (resolve e)
  | TAlias _ rhs => resolve rhs
  | TOther o => TOther o
  end.

(** Identity of alias-free types; an unknown array length, negative, is
    identical to every length. *)
Fixpoint identical_resolved (x y : GoType) : bool :=
  match x, y with
  | TArray n e, TArray m f =>
      ((n <? 0) || (m <? 0) || (n =? m))%Z && identical_resolved e f
  | TSlice e, TSlice f => identical_resolved e f
  | TPointer e, TPointer f => identical_resolved e f
  | TMap k e, TMap l f => identical_resolved k l && identical_resolved e f
  | TChan d e, TChan g f => (d =? g)%Z && identical_resolved e f
  | TOther o, TOther p => other_identical o p
  | _, _ => false
  end.

(** [types.Identical]; [None] is the nil interface. *)
Definition identical (x y : option GoType) : bool :=
  match x, y with
  | Some t, Some u => identical_resolved (resolve t) (resolve u)
  | None, None => true
  | _, _ => false
  end.

(** Every array length in the type is known: types of a program that
    type-checks. *)
Fixpoint known_lengths (t : GoType) : Prop :=
  match t with
  | TArray n e => (0 ≤ n)%Z ∧ known_lengths e
  | TSlice e | TPointer e | TChan _ e | TAlias _ e => known_lengths e
  | TMap k e => known_lengths k ∧ known_lengths e
  | TOther _ => True
  end.

Definition known (t : option GoType) : Prop := from_option known_lengths True t.

(** ** The records *)

(** type DependencyKind *)
Definition DependencySingle : string := "single".
Definition DependencySlice : string := "slice".
Definition DependencyMap : string := "map".
Definition DependencyOptional : string := "optional".
Definition DependencyLazy : string := "lazy".
Definition DependencyProvider : string := "provider".

(** [BeanScopeSingleton] *)
Definition BeanScopeSingleton : string := "singleton".

(** type Source *)
Definition SourceBean : string := "bean".
Definition SourceStereotype : string := "stereotype".
Definition SourceConfiguration : string := "configuration".
Definition SourceEvent : string := "event".
Definition SourceStarter : string := "starter".
Definition SourceAutoConfiguration : string := "auto-configuration".
Definition SourceLogging : string := "logging".

(** type Dependency *)
Record Dependency := mkDependency {
  dep_Index : Z;
  dep_Name : string;
  dep_Type : option GoType;
  dep_TypeID : string;
  dep_Position : Position;
  dep_PhysicalPosition : Position;
  dep_Qualifiers : list string;
  dep_Kind : string;
  dep_Element : option GoType;
  dep_ElementTypeID : string;
}.

(** [func (dependency Dependency) MatchType() types.Type] *)
Definition MatchType (dependency : Dependency) : option GoType :=
  match dep_Element dependency with
  | Some element => Some element
  | None => dep_Type dependency
  end.

(** type InterfaceBinding *)
Record InterfaceBinding := mkInterfaceBinding {
  ib_Expression : string;
  ib_Type : option GoType;
  ib_TypeID : string;
  ib_Position : Position;
  ib_PhysicalPosition : Position;
}.

(** type Provider: the fields the graph reads. *)
Record Provider := mkProvider {
  Source : string;
  DisplayLabel : string;   (* Symbol.DisplayLabel *)
  SymbolID : string;
  Name : string;
  Aliases : list string;
  Qualifiers : list string;
  Primary : bool;
  Fallback : bool;
  Order : Z;
  Scope : string;
  prov_Position : Position;
  prov_PhysicalPosition : Position;
  Output : option GoType;
  Dependencies : list Dependency;
  Interfaces : list InterfaceBinding;
}.

(** provider.go, type Diagnostic: the graph only asks whether there is any. *)
Record CatalogDiagnostic := mkCatalogDiagnostic {
  cd_Position : Position;
  cd_PhysicalPosition : Position;
  cd_ProviderID : string;
  cd_Kind : string;
  cd_Message : string;
}.

(** type Catalog *)
Record Catalog := mkCatalog {
  Catalog_Providers : list Provider;
  Catalog_Diagnostics : list CatalogDiagnostic;
}.

#[global] Instance Provider_inhabited : Inhabited Provider :=
  populate (mkProvider "" "" "" "" [] [] false false 0 "" no_position no_position None [] []).

(** ** Identity of types is an equivalence *)

Context `{!GoTypesLaws _}.

Lemma identical_refl t : identical t t = true.
Proof.
  destruct t as [t|]; [|done]. simpl. induction t; simpl; auto.
  - by rewrite Z.eqb_refl, orb_true_r, IHt.
  - by rewrite IHt1, IHt2.
  - by rewrite Z.eqb_refl, IHt.
  - apply other_identical_refl.
Qed.

Lemma identical_resolved_sym t u :
  identical_resolved t u = true → identical_resolved u t = true.
Proof.
  revert u. induction t; intros []; simpl; try done; rewrite ?andb_true_iff; try naive_solver.
  - rewrite !orb_true_iff, !Z.eqb_eq. naive_solver.
  - rewrite !Z.eqb_eq. naive_solver.
  - apply other_identical_sym.
Qed.

Lemma identical_sym t u : identical t u = true → identical u t = true.
Proof. destruct t, u; simpl; try done. apply identical_resolved_sym. Qed.
End types.

(** Named types, told apart by their printed name. *)
Definition named_types : GoTypes := {|
  other_type := string;
  other_identical := String.eqb;
  other_id := λ name, name;
|}.

Lemma named_types_laws : GoTypesLaws named_types.
Proof.
  split; simpl; intros *; rewrite ?String.eqb_eq; congruence.
Qed.
