(* ===== verification/GraphSelect.v ===== *)
(** Dependency resolution of the provider graph: the data of
    src/compiler/graph/model.go and, from src/compiler/graph/build.go, the type
    index, the selection among candidates, the edges and the diagnostics of
    [connectDependencies].

    Providers are referred to by their index in the catalog, as the code does;
    the pointers an [Edge] and a [Node] keep are those indices. *)
From S2P Require Import Prelude GoSort GoStrings Provider.

(** ** model.go *)

(** type Node *)
Record Node := mkNode { node_ProviderID : string; node_provider : nat }.

(** type Edge *)
Record Edge := mkEdge {
  ConsumerID : string;
  DependencyID : string;
  RequiredTypeID : string;
  ParameterIndex : Z;
  ParameterName : string;
  edge_DependencyKind : string;
  CollectionIndex : Z;
  edge_Position : Position;
  edge_PhysicalPosition : Position;
  edge_consumer : nat;
  edge_dependency : nat;
}.

(** type Diagnostic *)
Record Diagnostic := mkDiagnostic {
  diag_Position : Position;
  diag_PhysicalPosition : Position;
  diag_ProviderID : string;
  diag_Kind : string;
  diag_Message : string;
}.

(** [func renderPosition(position token.Position) string] *)
Definition renderPosition (position : Position) : string :=
  let filename := if decide (Filename position = "") then "<unknown>" else Filename position in
  let line := if (Line position <=? 0)%Z then 1%Z else Line position in
  let column := if (Column position <=? 0)%Z then 1%Z else Column position in
  filename +:+ ":" +:+ itoa line +:+ ":" +:+ itoa column.

(** [func (d Diagnostic) Error() string] *)
Definition Diagnostic_Error (d : Diagnostic) : string :=
  renderPosition (diag_Position d) +:+ ": " +:+ diag_Message d.

(** [func preferredPosition(primary, fallback token.Position) token.Position] *)
Definition preferredPosition (primary fallback : Position) : Position :=
  if bool_decide (Filename primary ≠ "") || bool_decide (Offset primary ≠ 0%Z)
     || bool_decide (Line primary ≠ 0%Z)
  then primary else fallback.

Section graph.
Context `{GoTypes} `{UnicodeTables}.

(** The part of [Result] that [connectDependencies] grows, with the adjacency
    lists. *)
Record connect_state := mkConnect {
  cst_edges : list Edge;
  cst_diagnostics : list Diagnostic;
  cst_adjacency : list (list nat);
}.

Definition add_diagnostic (d : Diagnostic) (s : connect_state) : connect_state :=
  mkConnect (cst_edges s) (cst_diagnostics s ++ [d]) (cst_adjacency s).

(** ** Labels and messages *)

Definition dependencyTypeID (input : Dependency) : string :=
  if decide (dep_ElementTypeID input ≠ "") then dep_ElementTypeID input
  else dep_TypeID input.

Definition qualifierSuffix (input : Dependency) : string :=
  match dep_Qualifiers input with
  | [] => ""
  | qualifiers => " with qualifiers [" +:+ join qualifiers ", " +:+ "]"
  end.

Definition providerRole (item : Provider) : string :=
  if decide (Source item = SourceBean) then "@Bean provider"
  else if decide (Source item = SourceStarter) then "starter entrypoint"
  else if decide (Source item = SourceAutoConfiguration) then "auto-configuration factory"
  else if decide (Source item = SourceStereotype) then "stereotype bean"
  else if decide (Source item = SourceConfiguration) then "configuration provider"
  else if decide (Source item = SourceEvent) then "event topic provider"
  else if decide (Source item = SourceLogging) then "logging fallback provider"
  else "provider".

Definition parameterLabel (input : Dependency) : string :=
  if decide (dep_Name input = "") then "parameter " +:+ itoa (dep_Index input)
  else "parameter " +:+ itoa (dep_Index input) +:+ " " +:+ go_quote (dep_Name input).

Definition providerLabel (item : Provider) : string :=
  if decide (DisplayLabel item ≠ "") then DisplayLabel item
  else if decide (Name item ≠ "") then Name item
  else SymbolID item.

(** The subject of every message: role, label and symbol of the consumer. *)
Definition consumer_label (consumer : Provider) : string :=
  providerRole consumer +:+ " " +:+ providerLabel consumer +:+
  " (" +:+ SymbolID consumer +:+ ")".

Definition dependency_diagnostic (consumer : Provider) (input : Dependency)
    (kind message : string) : Diagnostic :=
  mkDiagnostic
    (preferredPosition (dep_Position input) (prov_Position consumer))
    (preferredPosition (dep_PhysicalPosition input) (prov_PhysicalPosition consumer))
    (SymbolID consumer) kind message.

Definition collectionNameDiagnostic (consumer : Provider) (input : Dependency)
    (name : string) : Diagnostic :=
  dependency_diagnostic consumer input "duplicate-collection-name"
    (consumer_label consumer +:+ " requests map injection for " +:+
     dependencyTypeID input +:+ ", but multiple matching beans use name " +:+
     go_quote name +:+ "; assign unique explicit bean names").

Definition scopeDiagnostic (consumer : Provider) (input : Dependency)
    (dependency : Provider) : Diagnostic :=
  dependency_diagnostic consumer input "scope-mismatch"
    (consumer_label consumer +:+ " requests " +:+ dependencyTypeID input +:+
     " directly for " +:+ parameterLabel input +:+ ", but matching bean " +:+
     go_quote (Name dependency) +:+ " has " +:+ Scope dependency +:+
     " scope; inject bean.Provider[" +:+ dependencyTypeID input +:+
     "] so acquisition and cleanup ownership remain explicit").

Definition missingDiagnostic (consumer : Provider) (input : Dependency) : Diagnostic :=
  dependency_diagnostic consumer input "missing-dependency"
    (consumer_label consumer +:+ " requires exact type " +:+ dependencyTypeID input +:+
     " for " +:+ parameterLabel input +:+ qualifierSuffix input +:+
     ", but no provider matches the type and requested qualifiers").

Definition ambiguousDiagnostic (consumer : Provider) (input : Dependency)
    (candidates : list nat) (providers : list Provider) : Diagnostic :=
  let labels := (λ candidate,
    let item := providers !!! candidate in
    providerLabel item +:+ " (" +:+ SymbolID item +:+ ") at " +:+
    renderPosition (prov_Position item)) <$> candidates in
  dependency_diagnostic consumer input "ambiguous-dependency"
    (consumer_label consumer +:+ " requires type " +:+ dependencyTypeID input +:+
     " for " +:+ parameterLabel input +:+ qualifierSuffix input +:+
     ", but multiple explicit providers match after qualifier, fallback, primary, " +:+
     "and parameter-name selection: " +:+ join labels ", ").

(** ** The type index *)

(** [semanticTypeKey] *)
Fixpoint type_key (t : GoType) : string :=
  match t with
  | TArray n e => "[" +:+ itoa n +:+ "]" +:+ type_key e
  | TSlice e => "[]" +:+ type_key e
  | TPointer e => "*" +:+ type_key e
  | TMap k e => "map[" +:+ type_key k +:+ "]" +:+ type_key e
  | TChan d e => "chan" +:+ itoa d +:+ ":" +:+ type_key e
  | TAlias _ rhs => type_key rhs
  | TOther o => other_id o
  end.

Definition semanticTypeKey (value : option GoType) : string :=
  match value with None => "<invalid>" | Some t => type_key t end.

(** The adjacent-duplicate removal at the end of [sortedUnique]. *)
Fixpoint drop_repeats (previous : option nat) (values : list nat) : list nat :=
  match values with
  | [] => []
  | value :: rest =>
      if decide (previous = Some value) then drop_repeats previous rest
      else value :: drop_repeats (Some value) rest
  end.

(** The comparator of every sort by provider identity. *)
Definition id_less (providers : list Provider) : nat → nat → bool :=
  on_key (λ i, SymbolID (providers !!! i)) str_ltb.

Definition sortedUnique (values : list nat) (providers : list Provider) : list nat :=
  drop_repeats None (sort_slice (id_less providers) values).

(** [index[key] = append(index[key], providerIndex)] *)
Definition index_add (key : string) (i : nat) (index : gmap string (list nat))
    : gmap string (list nat) :=
  <[key := default [] (index !! key) ++ [i]]> index.

Definition index_provider (index : gmap string (list nat)) (i : nat) (item : Provider)
    : gmap string (list nat) :=
  foldl (λ index binding, index_add (semanticTypeKey (ib_Type binding)) i index)
    (index_add (semanticTypeKey (Output item)) i index) (Interfaces item).

Definition buildTypeIndex (providers : list Provider) : gmap string (list nat) :=
  let index := foldl (λ index '(i, item), index_provider index i item) ∅
                 (imap pair providers) in
  (λ values, sortedUnique values providers) <$> index.

(** The provider's output or one of its interface bindings has the type. *)
Definition provides (required : option GoType) (item : Provider) : bool :=
  identical required (Output item) ||
  existsb (λ binding, identical required (ib_Type binding)) (Interfaces item).

(** [func (index typeIndex) lookup] *)
Definition lookup_type (index : gmap string (list nat)) (required : option GoType)
    (providers : list Provider) : list nat :=
  sortedUnique
    (filter (λ i, provides required (providers !!! i) = true)
       (default [] (index !! semanticTypeKey required)))
    providers.

(** ** Selection *)

(** [orderedCollectionCandidates] *)
Definition collection_less (providers : list Provider) : nat → nat → bool :=
  by_key (λ i, Order (providers !!! i)) Z.ltb
    (by_key (λ i, Name (providers !!! i)) str_ltb
       (on_key (λ i, SymbolID (providers !!! i)) str_ltb)).

Definition orderedCollectionCandidates (candidates : list nat) (providers : list Provider)
    : list nat :=
  sort_stable (collection_less providers) candidates.

Definition qualified (qualifiers : list string) (item : Provider) : bool :=
  forallb (λ qualifier, bool_decide (qualifier = Name item) ||
                        bool_decide (qualifier ∈ Aliases item) ||
                        bool_decide (qualifier ∈ Qualifiers item)) qualifiers.

Definition filterQualified (candidates : list nat) (qualifiers : list string)
    (providers : list Provider) : list nat :=
  match qualifiers with
  | [] => candidates
  | _ => filter (λ i, qualified qualifiers (providers !!! i) = true) candidates
  end.

(** The matching candidates, or all of them when none matches. *)
Definition prefer (test : Provider → bool) (candidates : list nat)
    (providers : list Provider) : list nat :=
  match filter (λ i, test (providers !!! i) = true) candidates with
  | [] => candidates
  | selected => selected
  end.

Definition preferNonFallback : list nat → list Provider → list nat :=
  prefer (λ item, negb (Fallback item)).

Definition selectPrimary : list nat → list Provider → list nat := prefer Primary.

Definition selectByParameterName (candidates : list nat) (name : string)
    (providers : list Provider) : list nat :=
  prefer (λ item, bool_decide (Name item = name) || bool_decide (name ∈ Aliases item))
    candidates providers.

Definition selectedCandidates (candidates : list nat) (input : Dependency)
    (providers : list Provider) : list nat :=
  let candidates := preferNonFallback candidates providers in
  let candidates := if (1 <? length candidates)%nat
                    then selectPrimary candidates providers else candidates in
  if (1 <? length candidates)%nat && bool_decide (dep_Name input ≠ "")
  then selectByParameterName candidates (dep_Name input) providers
  else candidates.

(** The first name that repeats, or the empty string. *)
Fixpoint duplicate_name (seen : gset string) (candidates : list nat)
    (providers : list Provider) : string :=
  match candidates with
  | [] => ""
  | candidate :: rest =>
      let name := Name (providers !!! candidate) in
      if decide (name ∈ seen) then name
      else duplicate_name ({[name]} ∪ seen) rest providers
  end.

Definition duplicateCandidateName (candidates : list nat) (providers : list Provider)
    : string := duplicate_name ∅ candidates providers.

(** The first candidate whose scope is not singleton, [-1] being [None]. *)
Definition firstScopedCandidate (candidates : list nat) (providers : list Provider)
    : option nat :=
  find (λ i, negb (bool_decide (Scope (providers !!! i) = BeanScopeSingleton))) candidates.

(** ** Edges *)

Definition make_edge (providers : list Provider) (consumerIndex dependencyIndex : nat)
    (input : Dependency) (kind : string) (collectionIndex : Z) : Edge :=
  let consumer := providers !!! consumerIndex in
  let dependency := providers !!! dependencyIndex in
  mkEdge (SymbolID consumer) (SymbolID dependency)
    (if bool_decide (kind ≠ DependencySingle) && bool_decide (dep_ElementTypeID input ≠ "")
     then dep_ElementTypeID input else dep_TypeID input)
    (dep_Index input) (dep_Name input) kind collectionIndex
    (preferredPosition (dep_Position input) (prov_Position consumer))
    (preferredPosition (dep_PhysicalPosition input) (prov_PhysicalPosition consumer))
    consumerIndex dependencyIndex.

Definition appendEdge (providers : list Provider) (consumerIndex dependencyIndex : nat)
    (input : Dependency) (kind : string) (collectionIndex : Z) (s : connect_state)
    : connect_state :=
  mkConnect
    (cst_edges s ++
       [make_edge providers consumerIndex dependencyIndex input kind collectionIndex])
    (cst_diagnostics s)
    (alter (λ dependencies, dependencies ++ [dependencyIndex]) consumerIndex (cst_adjacency s)).

Definition is_collection (kind : string) : bool :=
  bool_decide (kind = DependencySlice) || bool_decide (kind = DependencyMap).

Definition dependencyCandidates (index : gmap string (list nat)) (input : Dependency)
    (providers : list Provider) : string * list nat :=
  let direct := if is_collection (dep_Kind input)
                then lookup_type index (dep_Type input) providers else [] in
  let kind := if decide (direct ≠ []) then DependencySingle else dep_Kind input in
  let candidates := if decide (direct = [])
                    then lookup_type index (MatchType input) providers else direct in
  (kind, filterQualified candidates (dep_Qualifiers input) providers).

Definition connectCollection (providers : list Provider) (consumerIndex : nat)
    (input : Dependency) (kind : string) (candidates : list nat) (s : connect_state)
    : connect_state :=
  let consumer := providers !!! consumerIndex in
  let candidates := orderedCollectionCandidates candidates providers in
  let duplicate := if decide (kind = DependencyMap)
                   then duplicateCandidateName candidates providers else "" in
  if decide (duplicate ≠ "")
  then add_diagnostic (collectionNameDiagnostic consumer input duplicate) s
  else match firstScopedCandidate candidates providers with
       | Some scoped =>
           add_diagnostic (scopeDiagnostic consumer input (providers !!! scoped)) s
       | None =>
           foldl (λ s '(collectionIndex, dependencyIndex),
             appendEdge providers consumerIndex dependencyIndex input kind
               (Z.of_nat collectionIndex) s) s (imap pair candidates)
       end.

Definition connectSingle (providers : list Provider) (consumerIndex : nat)
    (input : Dependency) (kind : string) (candidates : list nat) (s : connect_state)
    : connect_state :=
  let consumer := providers !!! consumerIndex in
  match candidates with
  | [] =>
      if decide (dep_Kind input ≠ DependencyOptional)
      then add_diagnostic (missingDiagnostic consumer input) s
      else s
  | _ =>
      match selectedCandidates candidates input providers with
      | [dependencyIndex] =>
          let dependency := providers !!! dependencyIndex in
          if bool_decide (Scope dependency ≠ BeanScopeSingleton) &&
             bool_decide (dep_Kind input ≠ DependencyProvider)
          then add_diagnostic (scopeDiagnostic consumer input dependency) s
          else appendEdge providers consumerIndex dependencyIndex input kind 0 s
      | selected =>
          add_diagnostic (ambiguousDiagnostic consumer input selected providers) s
      end
  end.

Definition connectDependency (providers : list Provider) (index : gmap string (list nat))
    (consumerIndex : nat) (s : connect_state) (input : Dependency) : connect_state :=
  let '(kind, candidates) := dependencyCandidates index input providers in
  if is_collection kind
  then connectCollection providers consumerIndex input kind candidates s
  else connectSingle providers consumerIndex input kind candidates s.

Definition connectDependencies (providers : list Provider)
    (index : gmap string (list nat)) (s : connect_state) : connect_state :=
  foldl (λ s '(consumerIndex, consumer),
    foldl (connectDependency providers index consumerIndex) s (Dependencies consumer))
    s (imap pair providers).
End graph.
