(* ===== verification/GraphOrder.v ===== *)
(** The construction order of src/compiler/graph/build.go: Kahn's algorithm
    over a priority queue of provider indices ([constructionOrderWithStats]),
    the reference it implements, and its correctness. *)
From S2P Require Import Prelude GoSort GoStrings Provider BinHeap GraphSelect.

Section order.
Context `{GoTypes} (adjacency : list (list nat)) (providers : list Provider).

(** [remaining[consumer] = len(dependencies)] *)
Definition initial_remaining : list Z := (λ deps, Z.of_nat (length deps)) <$> adjacency.

(** [consumers[dependency] = append(consumers[dependency], consumer)], then
    sorted and without repetition. *)
Definition consumers_of : list (list nat) :=
  let raw := foldl (λ consumers '(consumer, dependencies),
               foldl (λ consumers dependency,
                 alter (λ l, l ++ [consumer]) dependency consumers) consumers dependencies)
               (replicate (length providers) []) (imap pair adjacency) in
  (λ l, sortedUnique l providers) <$> raw.

(** The loop state: [remaining], the queue and the order so far. *)
Record kahn := mkKahn {
  k_remaining : list Z;
  k_ready : @pq nat;
  k_order : list nat;
}.

Definition initial_ready : @pq nat :=
  heap_init (id_less providers)
    (mkPQ (imap pair initial_remaining ≫= λ '(i, count),
             if decide (count = 0%Z) then [i] else []) 0).

(** One consumer of the node just built. *)
Definition release (s : kahn) (consumer : nat) : kahn :=
  let count := ((k_remaining s !!! consumer) - 1)%Z in
  mkKahn (<[consumer := count]> (k_remaining s))
    (if decide (count = 0%Z) then heap_push (id_less providers) consumer (k_ready s)
     else k_ready s)
    (k_order s).

(** [for ready.Len() != 0]; [None] when the fuel runs out first. *)
Fixpoint kahn_loop (fuel : nat) (consumers : list (list nat)) (s : kahn) : option kahn :=
  match pq_values (k_ready s) with
  | [] => Some s
  | _ =>
      match fuel with
      | O => None
      | S fuel' =>
          let '(node, ready) := heap_pop (id_less providers) (k_ready s) in
          kahn_loop fuel' consumers
            (foldl release (mkKahn (k_remaining s) ready (k_order s ++ [node]))
               (consumers !!! node))
      end
  end.

(** [constructionOrderWithStats]: the order and the comparisons made. *)
Definition constructionOrderWithStats : option (list nat * nat) :=
  s ← kahn_loop (length providers) consumers_of (mkKahn initial_remaining initial_ready []);
  Some (k_order s, pq_comparisons (k_ready s)).

Definition constructionOrder : option (list nat) := fst <$> constructionOrderWithStats.

(** ** The reference *)

Definition deps (i : nat) : list nat := adjacency !!! i.
Definition depends_on (i j : nat) : Prop := j ∈ deps i.

(** The nodes outside [done] whose dependencies are all in it. *)
Definition ready_nodes (done : list nat) : list nat :=
  filter (λ i, i ∉ done ∧ Forall (λ d, d ∈ done) (deps i)) (seq 0 (length providers)).

(** Repeatedly take the ready node with the least identity. *)
Fixpoint reference_order (fuel : nat) (done : list nat) : list nat :=
  match fuel with
  | O => []
  | S fuel' =>
      match sort_stable (id_less providers) (ready_nodes done) with
      | [] => []
      | node :: _ => node :: reference_order fuel' (done ++ [node])
      end
  end.

(** ** Well-formed inputs *)

Record graph_wf : Prop := {
  wf_length : length adjacency = length providers;
  wf_ids : NoDup (SymbolID <$> providers);
  wf_deps i d : i < length providers → depends_on i d → d < length providers;
  wf_nodup i : i < length providers → NoDup (deps i);
}.
Context (Hwf : graph_wf).
Notation n := (length providers).

Lemma id_less_total_on i j :
  i < n → j < n → id_less providers i j = false → id_less providers j i = false → i = j.
Proof.
  unfold id_less, on_key. intros Hi Hj H1 H2.
  pose proof (st_total (StrictTotal := str_ltb_total) _ _ H1 H2) as E.
  apply (NoDup_lookup _ i j (SymbolID (providers !!! i)) (wf_ids Hwf)).
  - by rewrite list_lookup_fmap, list_lookup_lookup_total_lt.
  - by rewrite list_lookup_fmap, list_lookup_lookup_total_lt, E.
Qed.

#[local] Instance id_less_weak : StrictWeak (id_less providers).
Proof. unfold id_less. apply _. Qed.

Lemma drop_repeats_spec prev l :
  (∀ x y, x ∈ l → y ∈ l → id_less providers x y = false → id_less providers y x = false → x = y) →
  StronglySorted (not_after (id_less providers)) (option_list prev ++ l) →
  (∀ p x, prev = Some p → x ∈ l → id_less providers p x = false → p = x) →
  NoDup (drop_repeats prev l) ∧
  (∀ x, x ∈ drop_repeats prev l ↔ x ∈ l ∧ prev ≠ Some x).
Proof.
  revert prev. induction l as [|v l IH]; intros prev Htot Hs Hp; simpl.
  { split; [constructor|]. intros x. split; [by intros ?%elem_of_nil|by intros [?%elem_of_nil _]]. }
  assert (Hs' : StronglySorted (not_after (id_less providers)) (v :: l)).
  { destruct prev; simpl in Hs; [by inversion Hs|done]. }
  assert (Htot' : ∀ x y, x ∈ l → y ∈ l → id_less providers x y = false →
    id_less providers y x = false → x = y) by (intros; apply Htot; set_solver).
  assert (Hpv : ∀ x, x ∈ l → id_less providers v x = false → v = x).
  { intros x Hx E. apply Htot; [set_solver..|done|].
    inversion Hs' as [|?? _ Hall]; subst. rewrite Forall_forall in Hall. by apply Hall. }
  destruct (decide (prev = Some v)) as [->|Hne].
  - destruct (IH (Some v) Htot' Hs') as [Hnd Hin]; [naive_solver|].
    split; [done|]. intros x. rewrite Hin, elem_of_cons. naive_solver.
  - destruct (IH (Some v) Htot' Hs') as [Hnd Hin]; [naive_solver|]. split.
    + constructor; [rewrite Hin; naive_solver|done].
    + intros x. rewrite !elem_of_cons, Hin. split.
      * intros [->|[Hx Hv]]; [by auto|]. split; [by auto|]. intros ->.
        simpl in Hs. inversion Hs as [|?? Hs2 Hall]; subst.
        rewrite Forall_forall in Hall.
        assert (id_less providers v x = false) as E by (apply Hall; left).
        apply Hv. f_equal. inversion Hs2 as [|?? _ Hall2]; subst.
        rewrite Forall_forall in Hall2. symmetry.
        apply Hp; [done|by left|]. apply (Hall2 x Hx).
      * intros [[->|Hx] Hpx]; [by auto|]. destruct (decide (x = v)) as [->|]; [auto|].
        right. split; [done|congruence].
Qed.

(** [sortedUnique] keeps exactly the values, once each. *)
Lemma sortedUnique_spec values :
  (∀ x, x ∈ values → x < n) →
  NoDup (sortedUnique values providers) ∧
  (∀ x, x ∈ sortedUnique values providers ↔ x ∈ values).
Proof.
  intros Hv. unfold sortedUnique, sort_slice.
  destruct (drop_repeats_spec None (sort_stable (id_less providers) values)) as [Hnd Hin].
  - intros x y. rewrite !elem_of_sort_stable. intros ??. apply id_less_total_on; auto.
  - apply sort_stable_sorted, _.
  - done.
  - split; [done|]. intros x. rewrite Hin, elem_of_sort_stable. naive_solver.
Qed.

(** ** The consumers of a node *)

Lemma elem_of_push_all (c c0 d : nat) (ds : list nat) (cs : list (list nat)) :
  d < length cs →
  c ∈ foldl (λ cs d, alter (λ l, l ++ [c0]) d cs) cs ds !!! d ↔
  c ∈ cs !!! d ∨ c = c0 ∧ d ∈ ds.
Proof.
  revert cs. induction ds as [|d' ds IH]; intros cs Hd; simpl; [set_solver|].
  rewrite IH by (by rewrite length_alter). destruct (decide (d' = d)) as [->|Hne].
  - rewrite list_lookup_total_alter_eq by done. set_solver.
  - rewrite list_lookup_total_alter_ne by done. set_solver.
Qed.

Lemma length_push_all c0 (ds : list nat) (cs : list (list nat)) :
  length (foldl (λ cs d, alter (λ l, l ++ [c0]) d cs) cs ds) = length cs.
Proof.
  revert cs. induction ds as [|d ds IH]; intros cs; simpl; [done|].
  by rewrite IH, length_alter.
Qed.

Lemma elem_of_raw_consumers (l : list (nat * list nat)) (cs : list (list nat)) c d :
  d < length cs →
  c ∈ foldl (λ cs '(c, ds), foldl (λ cs d, alter (λ l, l ++ [c]) d cs) cs ds) cs l !!! d ↔
  c ∈ cs !!! d ∨ ∃ ds, (c, ds) ∈ l ∧ d ∈ ds.
Proof.
  revert cs. induction l as [|[c0 ds] l IH]; intros cs Hd; simpl; [set_solver|].
  rewrite IH by (by rewrite length_push_all). rewrite elem_of_push_all by done.
  setoid_rewrite elem_of_cons. split.
  - intros [[?|[-> ?]]|(ds' & ? & ?)]; eauto.
  - intros [?|(ds' & [[= -> ->]|?] & ?)]; eauto.
Qed.

Lemma elem_of_consumers d :
  d < n → NoDup (consumers_of !!! d) ∧
  ∀ c, c ∈ consumers_of !!! d ↔ c < n ∧ depends_on c d.
Proof.
  intros Hd. unfold consumers_of. set (raw := foldl _ _ _).
  assert (Hlen : length raw = n).
  { subst raw. rewrite <-(length_replicate n (@nil nat)) at 2.
    generalize (replicate n (@nil nat)) (imap pair adjacency).
    intros cs l. revert cs. induction l as [|[c ds] l IH]; intros cs; simpl; [done|].
    by rewrite IH, length_push_all. }
  assert (Hraw : ∀ c, c ∈ raw !!! d ↔ c < n ∧ depends_on c d).
  { intros c. subst raw. rewrite elem_of_raw_consumers by (by rewrite length_replicate).
    rewrite lookup_total_replicate_2 by done. split.
    - intros [?%elem_of_nil|(ds & Hin & Hds)]; [done|].
      apply elem_of_lookup_imap in Hin as (i & x & [= <- <-] & Hx).
      split; [rewrite <-(wf_length Hwf); by eapply lookup_lt_Some|].
      unfold depends_on, deps. by rewrite (list_lookup_total_correct _ _ _ Hx).
    - intros [Hc Hdep]. right. exists (deps c). split; [|done].
      apply elem_of_lookup_imap. exists c, (deps c). split; [done|].
      apply list_lookup_lookup_total_lt. by rewrite (wf_length Hwf). }
  rewrite list_lookup_total_alt, list_lookup_fmap, list_lookup_lookup_total_lt by lia. simpl.
  destruct (sortedUnique_spec (raw !!! d)) as [Hnd Hin]; [intros c Hc; by apply Hraw|].
  split; [done|]. intros c. by rewrite Hin, Hraw.
Qed.

(** ** The loop invariant *)

(** Dependencies of [c] not yet built. *)
Definition unmet (done : list nat) (c : nat) : list nat := filter (.∉ done) (deps c).

(** Between two releases: [todo] are the consumers of the last node that the
    inner loop has still to visit. *)
Record kahn_inv (todo : list nat) (s : kahn) : Prop := {
  ki_order : NoDup (k_order s);
  ki_order_lt x : x ∈ k_order s → x < n;
  ki_closed x d : x ∈ k_order s → depends_on x d → d ∈ k_order s;
  ki_length : length (k_remaining s) = n;
  ki_remaining c : c < n → k_remaining s !!! c =
    (Z.of_nat (length (unmet (k_order s) c)) + if decide (c ∈ todo) then 1 else 0)%Z;
  ki_heap : heap_ok (id_less providers) (k_ready s);
  ki_nodup : NoDup (pq_values (k_ready s));
  ki_ready i : i ∈ pq_values (k_ready s) ↔
    i < n ∧ i ∉ k_order s ∧ (∀ d, depends_on i d → d ∈ k_order s) ∧ i ∉ todo;
}.

Lemma unmet_nil done c : length (unmet done c) = 0%nat ↔ ∀ d, depends_on c d → d ∈ done.
Proof.
  unfold unmet. rewrite length_zero_iff_nil. split.
  - intros E d Hd. destruct (decide (d ∈ done)) as [|Hn]; [done|].
    assert (d ∈ filter (.∉ done) (deps c)) as Hin by (by apply list_elem_of_filter).
    rewrite E in Hin. by apply elem_of_nil in Hin.
  - intros Hall. apply elem_of_nil_inv. intros d [Hn Hd]%list_elem_of_filter. by apply Hn, Hall.
Qed.

Lemma release_inv c todo s :
  kahn_inv (c :: todo) s → c ∉ todo → c < n → c ∉ k_order s →
  kahn_inv todo (release s c) ∧ k_order (release s c) = k_order s.
Proof.
  intros Hinv Hc Hcn Hco. split; [|done].
  pose proof (ki_remaining _ _ Hinv c Hcn) as Hrem.
  rewrite decide_True in Hrem by (by left).
  unfold release. set (count := (_ - 1)%Z).
  assert (count = Z.of_nat (length (unmet (k_order s) c))) as Hcount by lia.
  destruct Hinv as [H1 H2 H3 H4 H5 H6 H7 H8].
  assert (Hrem' : ∀ c', c' < n → <[c := count]> (k_remaining s) !!! c' =
    (Z.of_nat (length (unmet (k_order s) c')) + if decide (c' ∈ todo) then 1 else 0)%Z).
  { intros c' Hc'. destruct (decide (c' = c)) as [->|Hne].
    - rewrite list_lookup_total_insert_eq by lia. rewrite decide_False by done. lia.
    - rewrite list_lookup_total_insert_ne by done. rewrite (H5 c' Hc').
      f_equal. repeat case_decide; set_solver. }
  destruct (decide (count = 0%Z)) as [E|E].
  - destruct (heap_push_spec (id_less providers) c (k_ready s) H6) as [Hok Hperm].
    assert (Hmet : ∀ d, depends_on c d → d ∈ k_order s) by (apply unmet_nil; lia).
    split; simpl; try done.
    + by rewrite length_insert.
    + rewrite Hperm. apply NoDup_cons. split; [|done]. rewrite H8. set_solver.
    + intros i. rewrite Hperm, elem_of_cons, H8. split.
      * intros [->|(?&?&?&?)]; [done|]. split_and!; [done..|]. set_solver.
      * intros (?&?&?&?). destruct (decide (i = c)) as [|?]; [by left|right].
        split_and!; [done..|]. set_solver.
  - split; simpl; try done.
    + by rewrite length_insert.
    + intros i. rewrite H8. split; [set_solver|].
      intros (?&?&Hmet&?). split_and!; [done..|]. intros [->|?]%elem_of_cons; [|done].
      apply unmet_nil in Hmet. lia.
Qed.

Lemma release_all_inv todo s :
  kahn_inv todo s → NoDup todo → (∀ c, c ∈ todo → c < n ∧ c ∉ k_order s) →
  kahn_inv [] (foldl release s todo) ∧ k_order (foldl release s todo) = k_order s.
Proof.
  revert s. induction todo as [|c todo IH]; intros s Hinv Hnd Hc; simpl; [done|].
  apply NoDup_cons in Hnd as [Hcn Hnd].
  destruct (release_inv c todo s Hinv Hcn) as [Hinv' E]; [apply Hc; left..|].
  destruct (IH _ Hinv' Hnd) as [? ->]; [|by rewrite E].
  intros c' Hc'. rewrite E. apply Hc. by right.
Qed.

Lemma pop_inv s node ready :
  kahn_inv [] s → pq_values (k_ready s) ≠ [] →
  heap_pop (id_less providers) (k_ready s) = (node, ready) →
  let s' := foldl release (mkKahn (k_remaining s) ready (k_order s ++ [node]))
              (consumers_of !!! node) in
  kahn_inv [] s' ∧ k_order s' = k_order s ++ [node] ∧ node < n ∧
  (∀ i, i ∈ ready_nodes (k_order s) → id_less providers i node = false) ∧
  node ∈ ready_nodes (k_order s).
Proof.
  intros Hinv Hne Hpop s'.
  destruct (heap_pop_spec _ _ _ _ (ki_heap _ _ Hinv) Hne Hpop) as (Hok & Hperm & Hleast).
  assert (Hready : ∀ i, i ∈ pq_values (k_ready s) ↔ i ∈ ready_nodes (k_order s)).
  { intros i. rewrite (ki_ready _ _ Hinv). unfold ready_nodes.
    rewrite list_elem_of_filter, elem_of_seq, Forall_forall. unfold depends_on.
    assert (i ∉ []) by apply not_elem_of_nil. naive_solver lia. }
  assert (node ∈ pq_values (k_ready s)) as Hnode by (rewrite Hperm; left).
  pose proof (proj1 (ki_ready _ _ Hinv node) Hnode) as (Hn & Hno & Hmet & _).
  pose proof (ki_nodup _ _ Hinv) as Hnd. rewrite Hperm in Hnd.
  apply NoDup_cons in Hnd as [Hnr Hnd].
  destruct (elem_of_consumers node Hn) as [Hcnd Hcin].
  assert (Hcons : ∀ c, depends_on c node → c ∉ k_order s ++ [node]).
  { intros c Hc [Hin| ->%list_elem_of_singleton]%elem_of_app.
    - by apply Hno, (ki_closed _ _ Hinv c).
    - by apply Hno, Hmet. }
  destruct (release_all_inv (consumers_of !!! node)
    (mkKahn (k_remaining s) ready (k_order s ++ [node]))) as [Hinv' E].
  - destruct Hinv as [H1 H2 H3 H4 H5 H6 H7 H8]. split; simpl.
    + apply NoDup_app. split_and!; [done| |by apply NoDup_singleton].
      intros x Hx ->%list_elem_of_singleton. done.
    + set_solver.
    + intros x d. rewrite !elem_of_app, !list_elem_of_singleton. naive_solver.
    + done.
    + intros c Hc. rewrite (H5 c Hc). rewrite (decide_False (P := c ∈ [])) by apply not_elem_of_nil.
      rewrite Z.add_0_r. destruct (decide (c ∈ consumers_of !!! node)) as [Hin|Hin];
        rewrite Hcin in Hin.
      * destruct Hin as [_ Hdep]. unfold unmet.
        pose proof (wf_nodup Hwf c Hc) as Hdnd. unfold depends_on in Hdep.
        apply list_elem_of_split in Hdep as (l1 & l2 & El).
        rewrite El in Hdnd |- *. apply NoDup_app in Hdnd as (_ & Hd1 & Hd2).
        apply NoDup_cons in Hd2 as [Hd2 _].
        rewrite !filter_app, !filter_cons, !length_app.
        rewrite decide_True by done. rewrite decide_False by set_solver. simpl.
        rewrite (filter_ext_in (.∉ k_order s ++ [node]) (.∉ k_order s) l1).
        -- rewrite (filter_ext_in (.∉ k_order s ++ [node]) (.∉ k_order s) l2); [lia|].
           intros x Hx. set_solver.
        -- intros x. set_solver.
      * unfold unmet. rewrite Z.add_0_r. do 2 f_equal. apply filter_ext_in.
        intros x. set_solver.
    + done.
    + done.
    + intros i. pose proof (H8 i) as Hi. rewrite Hperm, elem_of_cons in Hi.
      rewrite Hcin, not_elem_of_app, list_elem_of_singleton. split.
      * intros Hr. destruct (proj1 Hi (or_intror Hr)) as (Hin & Hio & Hid & _).
        split_and!; [done|done|by intros ->| |].
        -- intros d Hd. apply elem_of_app. left. by apply Hid.
        -- intros [_ Hd]. by apply Hno, Hid.
      * intros (Hin & [Hio Hine] & Hid & Hdep).
        destruct (proj2 Hi) as [->|Hr]; [|done|done].
        split_and!; [done..| |apply not_elem_of_nil]. intros d Hd.
        specialize (Hid d Hd). apply elem_of_app in Hid as [?| ->%list_elem_of_singleton]; [done|].
        by destruct Hdep.
  - done.
  - intros c Hc. apply Hcin in Hc as [? ?]. split; [done|]. by apply Hcons.
  - split_and!; [done|done|done| |by apply Hready].
    intros i Hi. by apply Hleast, Hready.
Qed.

Lemma NoDup_lt_length (l : list nat) :
  NoDup l → (∀ x, x ∈ l → x < n) → length l ≤ n.
Proof.
  intros Hnd Hlt. transitivity (length (seq 0 n)); [|by rewrite length_seq].
  apply submseteq_length, NoDup_submseteq; [done|].
  intros x Hx. apply elem_of_seq. specialize (Hlt x Hx). lia.
Qed.

(** The queue implements the reference: the same order, and the loop ends. *)
Lemma kahn_loop_reference fuel s :
  kahn_inv [] s → n - length (k_order s) ≤ fuel →
  ∃ s', kahn_loop fuel consumers_of s = Some s' ∧
    k_order s' = k_order s ++ reference_order fuel (k_order s).
Proof.
  revert s. induction fuel as [|fuel IH]; intros s Hinv Hfuel;
    cbn [kahn_loop reference_order].
  - destruct (pq_values (k_ready s)) as [|v l] eqn:E.
    { exists s. by rewrite app_nil_r. }
    exfalso. assert (v ∈ pq_values (k_ready s)) as Hv by (rewrite E; left).
    apply (ki_ready _ _ Hinv) in Hv as (Hv & Hvo & _).
    assert (length (k_order s ++ [v]) ≤ n) as Hle.
    { apply NoDup_lt_length.
      - apply NoDup_app. split_and!; [apply Hinv| |apply NoDup_singleton]. set_solver.
      - intros x [Hx| ->%list_elem_of_singleton]%elem_of_app; [by apply (ki_order_lt _ _ Hinv)|done]. }
    rewrite length_app in Hle. simpl in Hle. lia.
  - destruct (pq_values (k_ready s)) as [|v l] eqn:E.
    { exists s. split; [done|]. destruct (sort_stable _ _) as [|x l] eqn:Es; [by rewrite app_nil_r|].
      exfalso. assert (x ∈ ready_nodes (k_order s)) as Hx.
      { rewrite <-(elem_of_sort_stable (id_less providers)), Es. left. }
      unfold ready_nodes in Hx. apply list_elem_of_filter in Hx as [[Hxo Hxd] Hx].
      apply elem_of_seq in Hx. rewrite Forall_forall in Hxd.
      assert (x ∈ pq_values (k_ready s)) as Hin.
      { apply (ki_ready _ _ Hinv). split_and!; [lia|done|done|apply not_elem_of_nil]. }
      rewrite E in Hin. by apply elem_of_nil in Hin. }
    destruct (heap_pop (id_less providers) (k_ready s)) as [node ready] eqn:Hpop.
    assert (pq_values (k_ready s) ≠ []) as Hne by (by rewrite E).
    destruct (pop_inv s node ready Hinv Hne Hpop) as (Hinv' & Eo & Hn & Hleast & Hnode).
    destruct (sort_stable _ _) as [|x l'] eqn:Es.
    { exfalso. rewrite <-(elem_of_sort_stable (id_less providers)), Es in Hnode.
      by apply elem_of_nil in Hnode. }
    destruct (sort_stable_head _ _ _ _ Es) as [Hx Hxleast].
    assert (x = node) as ->.
    { apply id_less_total_on; [|done|by apply Hleast|by apply Hxleast].
      unfold ready_nodes in Hx. apply list_elem_of_filter in Hx as [_ Hx].
      apply elem_of_seq in Hx. lia. }
    destruct (IH _ Hinv') as (s' & E' & Eo').
    { rewrite Eo, length_app. simpl. lia. }
    exists s'. split; [exact E'|]. rewrite Eo', Eo, <-app_assoc. done.
Qed.

Lemma initial_inv : kahn_inv [] (mkKahn initial_remaining initial_ready []).
Proof.
  unfold initial_ready. set (q := mkPQ _ _).
  destruct (heap_init_spec (id_less providers) q) as [Hok [Hperm _]].
  assert (Hin : ∀ i, i ∈ pq_values q ↔ i < n ∧ deps i = []).
  { intros i. subst q. simpl. rewrite list_elem_of_bind. setoid_rewrite elem_of_lookup_imap.
    unfold initial_remaining. setoid_rewrite list_lookup_fmap. split.
    - intros ([j c] & Hi & j' & c' & [= <- <-] & Hc).
      case_decide; [|by apply elem_of_nil in Hi]. apply list_elem_of_singleton in Hi as ->.
      apply fmap_Some in Hc as (l & Hl & ->). rewrite <-(wf_length Hwf).
      split; [by eapply lookup_lt_Some|]. unfold deps.
      rewrite (list_lookup_total_correct _ _ _ Hl). destruct l; simpl in *; [done|lia].
    - intros [Hi Hd]. exists (i, 0%Z). split; [by left|]. exists i, 0%Z. split; [done|].
      rewrite list_lookup_lookup_total_lt by (by rewrite (wf_length Hwf)).
      unfold deps in Hd. by rewrite Hd. }
  split; simpl; try set_solver.
  - constructor.
  - unfold initial_remaining. by rewrite length_fmap, (wf_length Hwf).
  - intros c Hc. unfold initial_remaining.
    rewrite list_lookup_total_alt, list_lookup_fmap.
    rewrite list_lookup_lookup_total_lt by (by rewrite (wf_length Hwf)). simpl.
    rewrite Z.add_0_r. f_equal.
    unfold unmet, deps. generalize (adjacency !!! c). intros l.
    induction l as [|d l IHl]; [done|]. rewrite filter_cons_True by apply not_elem_of_nil.
    simpl. by rewrite IHl.
  - rewrite Hperm. subst q. simpl. generalize initial_remaining. intros l.
    assert (Hgen : ∀ k, NoDup (imap (λ i c, (k + i, c)) l ≫= λ '(i, count),
              if decide (count = 0%Z) then [i] else []) ∧
            ∀ i, i ∈ (imap (λ i c, (k + i, c)) l ≫= λ '(i, count),
              if decide (count = 0%Z) then [i] else []) → k ≤ i).
    { induction l as [|c l IHl]; intros k; simpl.
      - split; [constructor|]. by intros i ?%elem_of_nil.
      - destruct (IHl (S k)) as [Hnd Hge].
        assert (Eimap : imap ((λ i c, (k + i, c)) ∘ S) l = imap (λ i c, (S k + i, c)) l).
        { apply imap_ext. intros. simpl. f_equal. lia. }
        rewrite Eimap, Nat.add_0_r. case_decide; simpl.
        + split; [constructor; [|done]|].
          * intros Hk%Hge. lia.
          * intros i [->|Hi%Hge]%elem_of_cons; lia.
        + split; [done|]. intros i Hi%Hge. lia. }
    apply (Hgen 0).
  - intros i. rewrite Hperm, Hin. unfold depends_on. split.
    + intros [Hi Ed]. rewrite Ed. set_solver.
    + intros (Hi & _ & Hall & _). split; [done|]. apply elem_of_nil_inv.
      intros d Hd. by apply Hall in Hd as ?%elem_of_nil.
Qed.

(** ** The reference order is dependency-first and complete *)

Lemma reference_order_sound fuel done :
  NoDup done → (∀ x, x ∈ done → x < n) →
  (∀ x d, x ∈ done → depends_on x d → d ∈ done) →
  let order := done ++ reference_order fuel done in
  NoDup order ∧ (∀ x, x ∈ order → x < n) ∧
  (∀ a x b, order = a ++ x :: b → length done ≤ length a → ∀ d, depends_on x d → d ∈ a).
Proof.
  revert done. induction fuel as [|fuel IH]; intros done Hnd Hlt Hclosed; simpl.
  { rewrite app_nil_r. split_and!; [done..|]. intros a x b E Hle.
    assert (length done = length (a ++ x :: b)) as El by (by rewrite E).
    rewrite length_app in El. simpl in El. lia. }
  destruct (sort_stable _ _) as [|node l] eqn:Es.
  { rewrite app_nil_r. split_and!; [done..|]. intros a x b E Hle.
    assert (length done = length (a ++ x :: b)) as El by (by rewrite E).
    rewrite length_app in El. simpl in El. lia. }
  destruct (sort_stable_head _ _ _ _ Es) as [Hnode _].
  unfold ready_nodes in Hnode. apply list_elem_of_filter in Hnode as [[Hno Hmet] Hn].
  apply elem_of_seq in Hn. rewrite Forall_forall in Hmet.
  rewrite (cons_snoc_app node done).
  destruct (IH (done ++ [node])) as (Hnd' & Hlt' & Hdeps).
  - apply NoDup_app. split_and!; [done| |apply NoDup_singleton]. set_solver.
  - intros x [?| ->%list_elem_of_singleton]%elem_of_app; [auto|lia].
  - intros x d. rewrite !elem_of_app, !list_elem_of_singleton.
    intros [Hx| ->] Hd; left; [by eapply Hclosed|by apply Hmet].
  - split_and!; [done..|]. intros a x b E Hle d Hd.
    destruct (decide (length (done ++ [node]) ≤ length a)) as [Hle'|Hgt]; [by eapply Hdeps|].
    rewrite length_app in Hgt. simpl in Hgt. rewrite <-app_assoc in E.
    apply app_inj_1 in E as [<- E]; [|lia]. simplify_eq/=. by apply Hmet.
Qed.

Lemma acyclic_sn x : (∀ y, y < n → ¬ tc depends_on y y) → x < n → sn depends_on x.
Proof.
  intros Hacyc Hx.
  assert (Hreach : ∀ u v, tc (λ a b, a < n ∧ depends_on a b) u v → u < n ∧ v < n ∧ tc depends_on u v).
  { induction 1 as [u v [Hu Hd]|u v w [Hu Hd] _ (Hv & Hw & Ht)].
    - split_and!; [done|by eapply wf_deps|by constructor].
    - split_and!; [done..|by eapply tc_l]. }
  assert (Hsn : sn (λ a b, a < n ∧ depends_on a b) x).
  { apply tc_finite_sn.
    - intros y Hy. apply Hreach in Hy as (Hy & _ & Ht). by eapply Hacyc.
    - exists (seq 0 n). intros y Hy. apply Hreach in Hy as (_ & Hy & _). apply elem_of_seq. lia. }
  induction Hsn as [x _ IH]. constructor. intros y Hd. simpl in Hd.
  apply IH; [by split|by eapply wf_deps].
Qed.

Lemma reference_order_complete fuel done :
  (∀ y, y < n → ¬ tc depends_on y y) →
  NoDup done → (∀ x, x ∈ done → x < n) → n - length done ≤ fuel →
  ∀ x, x < n → x ∈ done ++ reference_order fuel done.
Proof.
  intros Hacyc. revert done. induction fuel as [|fuel IH]; intros done Hnd Hlt Hfuel x Hx; simpl.
  { rewrite app_nil_r. destruct (decide (x ∈ done)) as [|Hnx]; [done|]. exfalso.
    assert (length (done ++ [x]) ≤ n) as Hle.
    { apply NoDup_lt_length.
      - apply NoDup_app. split_and!; [done| |apply NoDup_singleton]. set_solver.
      - intros y [?| ->%list_elem_of_singleton]%elem_of_app; auto. }
    rewrite length_app in Hle. simpl in Hle. lia. }
  destruct (sort_stable _ _) as [|node l] eqn:Es.
  - rewrite app_nil_r. apply dec_stable. intros Hnx.
    pose proof (acyclic_sn x Hacyc Hx) as Hsn. induction Hsn as [x _ IHx].
    destruct (decide (Forall (λ d, d ∈ done) (deps x))) as [Hall|Hsome].
    + assert (x ∈ sort_stable (id_less providers) (ready_nodes done)) as Hin.
      { rewrite elem_of_sort_stable. apply list_elem_of_filter. split; [done|].
        apply elem_of_seq. lia. }
      rewrite Es in Hin. by apply elem_of_nil in Hin.
    + apply not_Forall_Exists in Hsome; [|apply _].
      apply Exists_exists in Hsome as (d & Hd & Hdn).
      apply (IHx d); [done|by eapply wf_deps|done].
  - destruct (sort_stable_head _ _ _ _ Es) as [Hnode _].
    unfold ready_nodes in Hnode. apply list_elem_of_filter in Hnode as [[Hno _] Hn].
    apply elem_of_seq in Hn.
    rewrite (cons_snoc_app node done). apply IH; [| | |done].
    + apply NoDup_app. split_and!; [done| |apply NoDup_singleton]. set_solver.
    + intros y [?| ->%list_elem_of_singleton]%elem_of_app; [auto|lia].
    + rewrite length_app. simpl. lia.
Qed.

(** *** Summary *)

Lemma constructionOrder_reference :
  constructionOrder = Some (reference_order n []).
Proof.
  unfold constructionOrder, constructionOrderWithStats.
  destruct (kahn_loop_reference n _ initial_inv) as (s & -> & E); [simpl; lia|].
  simpl in *. by rewrite E.
Qed.

Lemma constructionOrder_sound :
  ∃ order, constructionOrder = Some order ∧ NoDup order ∧ (∀ x, x ∈ order → x < n) ∧
    (∀ a x b, order = a ++ x :: b → ∀ d, depends_on x d → d ∈ a) ∧
    ((∀ y, y < n → ¬ tc depends_on y y) → order ≡ₚ seq 0 n).
Proof.
  exists (reference_order n []). split; [apply constructionOrder_reference|].
  destruct (reference_order_sound n []) as (Hnd & Hlt & Hdeps);
    [constructor|set_solver|set_solver|]. simpl in *.
  split_and!; [done..| |].
  - intros a x b E. apply (Hdeps a x b E). lia.
  - intros Hacyc. apply NoDup_Permutation; [done|apply NoDup_seq|].
    intros x. rewrite elem_of_seq. split; [intros Hx%Hlt; lia|].
    intros [_ Hx]. by apply (reference_order_complete n []); [|constructor|set_solver|simpl; lia|].
Qed.
End order.
