(* ===== verification/GraphCycles.v ===== *)
(** Cycle detection in the provider graph (src/compiler/graph/build.go):
    [stronglyConnected] with its index, low-link and stack arrays,
    [representativeCycle] and [cycleDiagnostic].

    The array search is proved to simulate the map-based search of [Scc]
    ([visit_simulates]), whose correctness it inherits. *)
From S2P Require Import Prelude GoSort GoStrings Provider GraphSelect Scc CycleSearch.

(** ** The array search *)

Section arrays.
Context (adjacency : list (list nat)) (sort_members : list nat → list nat).

(** The variables [visit] captures.  The stack is kept with its top first. *)
Record arraySearch := mkArrays {
  as_indices : list Z;
  as_lowlinks : list Z;
  as_onStack : list bool;
  as_stack : list nat;
  as_nextIndex : Z;
  as_components : list (list nat);
}.

Definition arrays_init : arraySearch :=
  let n := length adjacency in
  mkArrays (replicate n (-1)%Z) (replicate n 0%Z) (replicate n false) [] 0 [].

Definition array_set_low (node : nat) (v : Z) (a : arraySearch) : arraySearch :=
  mkArrays (as_indices a) (<[node := v]> (as_lowlinks a)) (as_onStack a) (as_stack a)
    (as_nextIndex a) (as_components a).

(** The first four statements of [visit]. *)
Definition array_enter (node : nat) (a : arraySearch) : arraySearch :=
  mkArrays (<[node := as_nextIndex a]> (as_indices a))
    (<[node := as_nextIndex a]> (as_lowlinks a)) (<[node := true]> (as_onStack a))
    (node :: as_stack a) (as_nextIndex a + 1)%Z (as_components a).

(** The [for] loop that pops the component. *)
Fixpoint array_pop (node : nat) (stack : list nat) (onStack : list bool)
    : list nat * list nat * list bool :=
  match stack with
  | [] => ([], [], onStack)
  | last :: stack' =>
      let onStack' := <[last := false]> onStack in
      if decide (last = node) then ([last], stack', onStack')
      else let '(component, rest, on) := array_pop node stack' onStack' in
           (last :: component, rest, on)
  end.

Definition array_leave (node : nat) (a : arraySearch) : arraySearch :=
  if decide (as_lowlinks a !!! node ≠ as_indices a !!! node) then a
  else
    let '(component, rest, on) := array_pop node (as_stack a) (as_onStack a) in
    mkArrays (as_indices a) (as_lowlinks a) on rest (as_nextIndex a)
      (as_components a ++ [sort_members component]).

(** One [dependency] of [adjacency[node]]. *)
Definition array_step (visit : nat → arraySearch → option arraySearch)
    (node dependency : nat) (a : arraySearch) : option arraySearch :=
  if decide (as_indices a !!! dependency = (-1)%Z) then
    a' ← visit dependency a;
    Some (if (as_lowlinks a' !!! dependency <? as_lowlinks a' !!! node)%Z
          then array_set_low node (as_lowlinks a' !!! dependency) a' else a')
  else if (as_onStack a !!! dependency) &&
          (as_indices a !!! dependency <? as_lowlinks a !!! node)%Z
  then Some (array_set_low node (as_indices a !!! dependency) a)
  else Some a.

Fixpoint array_loop (visit : nat → arraySearch → option arraySearch)
    (node : nat) (dependencies : list nat) (a : arraySearch) : option arraySearch :=
  match dependencies with
  | [] => Some a
  | dependency :: rest =>
      a' ← array_step visit node dependency a;
      array_loop visit node rest a'
  end.

(** [visit], with fuel for the nesting of its calls. *)
Fixpoint visit (fuel : nat) (node : nat) (a : arraySearch) : option arraySearch :=
  match fuel with
  | O => None
  | S fuel' =>
      a' ← array_loop (visit fuel') node (adjacency !!! node) (array_enter node a);
      Some (array_leave node a')
  end.

Fixpoint visit_all (fuel : nat) (order : list nat) (a : arraySearch) : option arraySearch :=
  match order with
  | [] => Some a
  | node :: rest =>
      a' ← (if decide (as_indices a !!! node = (-1)%Z) then visit fuel node a else Some a);
      visit_all fuel rest a'
  end.

(** ** The simulation *)

Notation n := (length adjacency).
Notation adj := (λ i, adjacency !!! i).
Context (Hclosed : ∀ i d, i < n → d ∈ adjacency !!! i → d < n).

(** The arrays hold what the maps hold, the sentinel [-1] standing for an
    absent index. *)
Record arrays_sim (a : arraySearch) (s : componentSearch nat) : Prop := {
  sim_indices i : i < n →
    as_indices a !! i = Some (from_option Z.of_nat (-1)%Z (cs_indices s !! i));
  sim_low i : i < n → as_lowlinks a !! i = Some (Z.of_nat (low_of s i));
  sim_on i : i < n → as_onStack a !! i = Some (on_stack s i);
  sim_stack : as_stack a = cs_stack s;
  sim_stack_lt i : i ∈ cs_stack s → i < n;
  sim_next : as_nextIndex a = Z.of_nat (cs_index s);
  sim_components : as_components a = cs_result s;
}.

Lemma sim_index_total a s i : arrays_sim a s → i < n →
  as_indices a !!! i = from_option Z.of_nat (-1)%Z (cs_indices s !! i).
Proof. intros Hs Hi. by apply list_lookup_total_correct, (sim_indices _ _ Hs). Qed.

Lemma sim_low_total a s i : arrays_sim a s → i < n → as_lowlinks a !!! i = Z.of_nat (low_of s i).
Proof. intros Hs Hi. by apply list_lookup_total_correct, (sim_low _ _ Hs). Qed.

Lemma sim_on_total a s i : arrays_sim a s → i < n → as_onStack a !!! i = on_stack s i.
Proof. intros Hs Hi. by apply list_lookup_total_correct, (sim_on _ _ Hs). Qed.

Lemma sim_absent a s i : arrays_sim a s → i < n →
  as_indices a !!! i = (-1)%Z ↔ cs_indices s !! i = None.
Proof.
  intros Hs Hi. rewrite (sim_index_total a s) by done.
  destruct (cs_indices s !! i); simpl; [|done]. split; [lia|done].
Qed.

(** Updating one entry of an array and of a map that agree. *)
Lemma sim_insert {A B} (l : list A) (m : gmap nat B) (f : option B → A) k v i :
  (∀ i, i < n → l !! i = Some (f (m !! i))) → i < n →
  <[k := f (Some v)]> l !! i = Some (f (<[k := v]> m !! i)).
Proof.
  intros Hl Hi. destruct (decide (k = i)) as [->|Hne].
  - rewrite lookup_insert_eq. apply list_lookup_insert_eq.
    specialize (Hl i Hi). by apply lookup_lt_Some in Hl.
  - rewrite lookup_insert_ne, list_lookup_insert_ne by done. by apply Hl.
Qed.

Lemma sim_enter a s node : arrays_sim a s → node < n →
  arrays_sim (array_enter node a) (enter node s).
Proof.
  intros [H1 H2 H3 H4 H5 H6 H7] Hn. split; simpl; try done.
  - rewrite H6. intros i. by apply (sim_insert _ _ (from_option Z.of_nat (-1)%Z)).
  - rewrite H6. intros i.
    apply (sim_insert _ _ (λ o, Z.of_nat (default 0%nat o)) node (cs_index s) i H2).
  - intros i. apply (sim_insert _ _ (default false) node true i H3).
  - by rewrite H4.
  - intros i [->|?]%elem_of_cons; auto.
  - lia.
Qed.

Lemma sim_set_low a s node v : arrays_sim a s →
  arrays_sim (array_set_low node (Z.of_nat v) a) (set_low node v s).
Proof.
  intros [H1 H2 H3 H4 H5 H6 H7]. split; simpl; try done. intros i.
  apply (sim_insert _ _ (λ o, Z.of_nat (default 0%nat o)) node v i H2).
Qed.

(** Lowering to a minimum and lowering when smaller are the same. *)
Lemma sim_lower a s node v : arrays_sim a s → node < n →
  arrays_sim (if (Z.of_nat v <? as_lowlinks a !!! node)%Z
              then array_set_low node (Z.of_nat v) a else a)
    (set_low node (low_of s node `min` v) s).
Proof.
  intros Hs Hn. rewrite (sim_low_total a s) by done. destruct (Z.ltb_spec (Z.of_nat v) (Z.of_nat (low_of s node))).
  - rewrite Nat.min_r by lia. by apply sim_set_low.
  - rewrite Nat.min_l by lia. destruct Hs as [H1 H2 H3 H4 H5 H6 H7]. split; simpl; try done.
    intros i Hi. rewrite H2 by done. do 2 f_equal.
    destruct (decide (i = node)) as [->|]; [by rewrite low_of_set_low|].
    unfold low_of, set_low; simpl. by rewrite lookup_insert_ne.
Qed.

Lemma sim_pop node stack (onA : list bool) (onM : gmap nat bool) :
  (∀ i, i < n → onA !! i = Some (default false (onM !! i))) →
  let '(c, r, on) := array_pop node stack onA in
  let '(c', r', on') := pop_component node stack onM in
  c = c' ∧ r = r' ∧ (∀ i, i ∈ r → i ∈ stack) ∧
  (∀ i, i < n → on !! i = Some (default false (on' !! i))).
Proof.
  revert onA onM. induction stack as [|x stack IH]; intros onA onM Hon; simpl; [done|].
  pose proof (λ i, sim_insert _ _ (default false) x false i Hon) as Hon'. case_decide.
  - split_and!; [done..| |done]. intros. by right.
  - specialize (IH _ _ Hon'). destruct (array_pop _ _ _) as [[c r] on].
    destruct (pop_component _ _ _) as [[c' r'] on']. destruct IH as (-> & -> & Hr & ?).
    split_and!; [done..| |done]. intros. right. auto.
Qed.

Lemma sim_leave a s node : arrays_sim a s → node < n → is_Some (cs_indices s !! node) →
  arrays_sim (array_leave node a) (leave sort_members node s).
Proof.
  intros Hs Hn [v Hv]. unfold array_leave, leave.
  rewrite (sim_index_total a s), (sim_low_total a s) by done.
  unfold index_of. rewrite Hv. simpl. case_decide as Hd; case_decide as Hd'; [done|lia..|].
  pose proof (sim_pop node (cs_stack s) _ _ (sim_on _ _ Hs)) as Hpop.
  rewrite (sim_stack _ _ Hs). destruct (array_pop _ _ _) as [[c r] on].
  destruct (pop_component _ _ _) as [[c' r'] on']. destruct Hpop as (-> & -> & Hr & Hon).
  destruct Hs as [H1 H2 H3 H4 H5 H6 H7]. split; simpl; try done.
  - intros i Hi. by apply H5, Hr.
  - by rewrite H7.
Qed.

(** Indices, once given, stay. *)
Definition visit_sim (fuel : nat) : Prop := ∀ node a s s',
  arrays_sim a s → node < n → connect adj sort_members fuel node s = Some s' →
  (∃ a', visit fuel node a = Some a' ∧ arrays_sim a' s') ∧
  (∀ x, is_Some (cs_indices s !! x) → is_Some (cs_indices s' !! x)).

Lemma array_loop_simulates fuel node dependencies a s s' :
  visit_sim fuel → arrays_sim a s → node < n → (∀ d, d ∈ dependencies → d < n) →
  connect_loop (connect adj sort_members fuel) node dependencies s = Some s' →
  (∃ a', array_loop (visit fuel) node dependencies a = Some a' ∧ arrays_sim a' s') ∧
  (∀ x, is_Some (cs_indices s !! x) → is_Some (cs_indices s' !! x)).
Proof.
  intros IHv. revert a s. induction dependencies as [|d ds IH]; intros a s Hs Hn Hds; simpl.
  { intros [= ->]. eauto. }
  assert (d < n) as Hd by (apply Hds; left).
  assert (∀ d, d ∈ ds → d < n) as Hds' by (intros; apply Hds; by right).
  unfold array_step. destruct (cs_indices s !! d) as [v|] eqn:Ed; simpl.
  - rewrite decide_False by (rewrite (sim_absent a s), Ed by done; done).
    rewrite (sim_on_total a s), (sim_index_total a s), Ed by done. simpl.
    destruct (on_stack s d); simpl; [|by apply IH].
    rewrite (index_of_eq s d v Ed). pose proof (sim_lower a s node v Hs Hn) as Hs'.
    intros E. destruct (IH _ _ Hs' Hn Hds' E) as [(a' & E' & Ha') Hi].
    split; [|done]. exists a'. split; [|done].
    by destruct (Z.of_nat v <? _)%Z.
  - rewrite decide_True by by apply (sim_absent a s).
    destruct (connect _ _ fuel d s) as [s1|] eqn:Ec; simpl; [|done].
    destruct (IHv _ _ _ _ Hs Hd Ec) as [(a1 & -> & Hs1) Hi1]. simpl.
    intros E. pose proof (sim_lower a1 s1 node (low_of s1 d) Hs1 Hn) as Hs'.
    destruct (IH _ _ Hs' Hn Hds' E) as [(a' & E' & Ha') Hi].
    split; [|by auto]. exists a'. split; [|done].
    rewrite (sim_low_total a1 s1 d) by done. done.
Qed.

Lemma visit_simulates fuel : visit_sim fuel.
Proof.
  induction fuel as [|fuel IH]; intros node a s s' Hs Hn; simpl; [done|].
  destruct (connect_loop _ _ _ _) as [s1|] eqn:E; simpl; [|done]. intros [= <-].
  destruct (array_loop_simulates fuel node _ _ _ s1 IH (sim_enter a s node Hs Hn) Hn
    (λ d, Hclosed node d Hn) E) as [(a1 & -> & Hs1) Hi].
  assert (Hnode : is_Some (cs_indices s1 !! node)).
  { apply Hi. simpl. rewrite lookup_insert_eq. eauto. }
  split; [exists (array_leave node a1); split; [done|by apply sim_leave]|].
  intros x Hx. assert (is_Some (cs_indices s1 !! x)) as Hx1.
  { apply Hi. simpl. destruct (decide (node = x)) as [->|].
    - rewrite lookup_insert_eq. eauto.
    - by rewrite lookup_insert_ne. }
  unfold leave. case_decide; [done|]. by destruct (pop_component _ _ _) as [[??]?].
Qed.

Lemma visit_all_simulates fuel order a s s' :
  arrays_sim a s → (∀ i, i ∈ order → i < n) →
  tarjan_loop adj sort_members fuel order s = Some s' →
  ∃ a', visit_all fuel order a = Some a' ∧ arrays_sim a' s'.
Proof.
  revert a s. induction order as [|node order IH]; intros a s Hs Ho; simpl.
  { intros [= ->]. eauto. }
  assert (node < n) as Hn by (apply Ho; left).
  assert (∀ i, i ∈ order → i < n) as Ho' by (intros; apply Ho; by right).
  destruct (cs_indices s !! node) as [v|] eqn:Ed; simpl.
  - rewrite decide_False by (rewrite (sim_absent a s), Ed by done; done). simpl. by apply IH.
  - rewrite decide_True by by apply (sim_absent a s).
    destruct (connect _ _ fuel node s) as [s1|] eqn:Ec; simpl; [|done].
    destruct (visit_simulates fuel _ _ _ _ Hs Hn Ec) as [(a1 & -> & Hs1) _]. simpl. by apply IH.
Qed.

(** Every finished component went through [sort_members]. *)
Definition members_sorted (a : arraySearch) : Prop :=
  ∀ C, C ∈ as_components a → ∃ C', C = sort_members C'.

Lemma leave_sorted node a : members_sorted a → members_sorted (array_leave node a).
Proof.
  intros Ha. unfold array_leave. case_decide; [done|].
  destruct (array_pop _ _ _) as [[c r] on]. intros C. simpl.
  rewrite elem_of_app, list_elem_of_singleton. intros [?| ->]; eauto.
Qed.

Lemma array_loop_sorted fuel node dependencies a a' :
  (∀ node a a', members_sorted a → visit fuel node a = Some a' → members_sorted a') →
  members_sorted a → array_loop (visit fuel) node dependencies a = Some a' → members_sorted a'.
Proof.
  intros IHv. revert a. induction dependencies as [|d ds IH]; intros a Ha; simpl.
  { by intros [= ->]. }
  unfold array_step. case_decide.
  - destruct (visit fuel d a) as [a1|] eqn:E; simpl; [|done].
    apply IH. apply IHv in E; [|done]. by case_match.
  - destruct (_ && _); simpl; apply IH; done.
Qed.

Lemma visit_sorted fuel node a a' :
  members_sorted a → visit fuel node a = Some a' → members_sorted a'.
Proof.
  revert node a a'. induction fuel as [|fuel IH]; intros node a a' Ha; simpl; [done|].
  destruct (array_loop _ _ _ _) as [a1|] eqn:E; simpl; [|done]. intros [= <-].
  apply leave_sorted. by eapply array_loop_sorted; [exact IH| |exact E].
Qed.

Lemma visit_all_sorted fuel order a a' :
  members_sorted a → visit_all fuel order a = Some a' → members_sorted a'.
Proof.
  revert a. induction order as [|node order IH]; intros a Ha; simpl; [by intros [= ->]|].
  case_decide; simpl; [|by apply IH].
  destruct (visit fuel node a) as [a1|] eqn:E; simpl; [|done].
  apply IH. by eapply visit_sorted.
Qed.

Lemma arrays_init_sim : arrays_sim arrays_init search_init.
Proof.
  split; simpl; try done.
  - intros i Hi. by rewrite lookup_replicate_2.
  - intros i Hi. by rewrite lookup_replicate_2.
  - intros i Hi. by rewrite lookup_replicate_2.
  - by intros i ?%elem_of_nil.
Qed.
End arrays.

(** ** Components and their diagnostics *)

Section components.
Context `{GoTypes} `{UnicodeTables} (adjacency : list (list nat)) (providers : list Provider).

Definition component_less : list nat → list nat → bool :=
  on_key (λ component, SymbolID (providers !!! (component !!! 0))) str_ltb.

Definition stronglyConnected : option (list (list nat)) :=
  let order := sort_slice (id_less providers) (seq 0 (length adjacency)) in
  a ← visit_all adjacency (sort_slice (id_less providers)) (length adjacency) order
        (arrays_init adjacency);
  Some (sort_slice component_less (as_components a)).

Definition representativeCycle (component : list nat) : list nat :=
  let start := component !!! 0 in
  if bool_decide (start ∈ adjacency !!! start) then [start; start]
  else
    match find_cycle (λ i, adjacency !!! i) (list_to_set component) start (λ _, true)
            (length component) start {[start]} [start] with
    | Some (true, _, path) => path
    | _ => component ++ [component !!! 0]
    end.

Definition cycleDiagnostic (component : list nat) : Diagnostic :=
  let pathIDs := (λ node, SymbolID (providers !!! node)) <$> representativeCycle component in
  let context := (λ node,
    providerLabel (providers !!! node) +:+ " at " +:+
    renderPosition (prov_Position (providers !!! node))) <$> component in
  let first := providers !!! (component !!! 0) in
  mkDiagnostic (prov_Position first) (prov_PhysicalPosition first) (SymbolID first) "cycle"
    ("provider dependency cycle: " +:+ join pathIDs " -> " +:+
     "; component providers: " +:+ join context ", ").

(** The cycle test of [Build]. *)
Definition component_has_cycle (component : list nat) : bool :=
  (1 <? length component)%nat || bool_decide (component !!! 0 ∈ adjacency !!! (component !!! 0)).

(** ** Correctness *)

Notation n := (length adjacency).
Notation adj := (λ i, adjacency !!! i).
Context (Hclosed : ∀ i d, i < n → d ∈ adjacency !!! i → d < n).

Lemma elem_of_order i : i ∈ sort_slice (id_less providers) (seq 0 n) ↔ i < n.
Proof. unfold sort_slice. rewrite elem_of_sort_stable, elem_of_seq. lia. Qed.

(** The components partition the nodes; two nodes share one exactly when each
    depends on the other. *)
Lemma stronglyConnected_spec :
  ∃ components, stronglyConnected = Some components ∧
    NoDup (concat components) ∧
    (∀ x, x ∈ concat components ↔ x < n) ∧
    (∀ C, C ∈ components → C ≠ [] ∧ StronglySorted (not_after (id_less providers)) C) ∧
    (∀ C x y, C ∈ components → x ∈ C →
      y ∈ C ↔ rtc (edge adj) x y ∧ rtc (edge adj) y x).
Proof.
  set (order := sort_slice (id_less providers) (seq 0 n)).
  assert (Hperm : ∀ l, sort_slice (id_less providers) l ≡ₚ l) by (intros; apply sort_stable_perm).
  destruct (tarjan_run_correct adj (sort_slice (id_less providers)) Hperm order)
    as (s & E & Hnd & Hin & Hne & Hscc).
  { intros x y. unfold order. rewrite !elem_of_order. apply Hclosed. }
  unfold tarjan_run in E.
  assert (length order = n) as Hlen.
  { unfold order. by rewrite Hperm, length_seq. }
  rewrite Hlen in E.
  destruct (visit_all_simulates adjacency (sort_slice (id_less providers)) Hclosed n order _ _ s (arrays_init_sim adjacency))
    as (a & Ea & Hsim); [intros i; apply elem_of_order|exact E|].
  assert (Hcomp : sort_slice component_less (as_components a) ≡ₚ cs_result s).
  { rewrite <-(sim_components _ _ _ Hsim). apply sort_stable_perm. }
  exists (sort_slice component_less (as_components a)).
  split; [unfold stronglyConnected; fold order; by rewrite Ea|].
  split_and!.
  - by rewrite Hcomp.
  - intros x. rewrite Hcomp, Hin. apply elem_of_order.
  - intros C. rewrite Hcomp. intros HC. split; [by apply Hne|].
    rewrite <-(sim_components _ _ _ Hsim) in HC.
    eapply visit_all_sorted in Ea; [|by intros ? ?%elem_of_nil].
    apply Ea in HC as [C' ->].
    apply sort_stable_sorted. unfold id_less. apply _.
  - intros C x y. rewrite Hcomp. apply Hscc.
Qed.

(** A self edge is its own cycle. *)
Lemma representativeCycle_self component :
  component !!! 0 ∈ adjacency !!! (component !!! 0) →
  representativeCycle component = [component !!! 0; component !!! 0].
Proof. intros Hself. unfold representativeCycle. by rewrite bool_decide_eq_true_2. Qed.

(** For a component of two or more nodes the search succeeds: the fallback of
    [representativeCycle] is dead code. *)
Lemma representativeCycle_search component :
  component !!! 0 ∉ adjacency !!! (component !!! 0) →
  NoDup component → 1 < length component →
  (∀ y, y ∈ component ↔
    rtc (edge adj) (component !!! 0) y ∧ rtc (edge adj) y (component !!! 0)) →
  ∃ q, representativeCycle component = (component !!! 0) :: q ++ [component !!! 0] ∧
    walk adj (component !!! 0) q (component !!! 0) ∧
    NoDup (component !!! 0 :: q) ∧ (∀ x, x ∈ q → x ∈ component).
Proof.
  intros Hself Hnd Hlen Hscc. unfold representativeCycle.
  rewrite bool_decide_eq_false_2 by done.
  destruct (find_cycle_component adj component (component !!! 0) (λ _, true))
    as (o & q & -> & Hw & Hndq & Hq); [done|done| |done..|].
  { destruct component; simpl in *; [lia|left]. }
  exists q. done.
Qed.
End components.
