(* ===== verification/GraphConnect.v ===== *)
(** The type index of the provider graph ([buildTypeIndex] and
    [typeIndex.lookup] of src/compiler/graph/build.go) against a scan of every
    provider, the selection functions, and what [connectDependencies] does to
    the edges, the adjacency lists and the diagnostics: every declared
    dependency either gets its edges, or a diagnostic, or is an absent optional
    or empty collection; and every edge leads to a provider of the requested
    type. *)
From S2P Require Import Prelude GoSort GoStrings Provider GraphSelect GraphOrder.

Section lookup.
Context `{GoTypes}.
Implicit Types providers : list Provider.

(** ** The index *)

Definition index_at (index : gmap string (list nat)) (key : string) : list nat :=
  default [] (index !! key).

Lemma elem_of_index_add key i index key' x :
  x ∈ index_at (index_add key i index) key' ↔ x ∈ index_at index key' ∨ key' = key ∧ x = i.
Proof.
  unfold index_at, index_add. destruct (decide (key = key')) as [->|Hne].
  - rewrite lookup_insert_eq. simpl. rewrite elem_of_app, list_elem_of_singleton. naive_solver.
  - rewrite lookup_insert_ne by done. naive_solver.
Qed.

Definition provider_keys (item : Provider) : list string :=
  semanticTypeKey (Output item) :: (semanticTypeKey ∘ ib_Type <$> Interfaces item).

Lemma elem_of_index_provider index i item key x :
  x ∈ index_at (index_provider index i item) key ↔
  x ∈ index_at index key ∨ key ∈ provider_keys item ∧ x = i.
Proof.
  unfold index_provider, provider_keys.
  assert (Hgen : ∀ bs index, x ∈ index_at (foldl (λ index binding,
      index_add (semanticTypeKey (ib_Type binding)) i index) index bs) key ↔
    x ∈ index_at index key ∨ key ∈ (semanticTypeKey ∘ ib_Type <$> bs) ∧ x = i).
  { induction bs as [|b bs IH]; intros idx; simpl; [set_solver|].
    rewrite IH, elem_of_index_add, elem_of_cons. naive_solver. }
  rewrite Hgen, elem_of_index_add, elem_of_cons. naive_solver.
Qed.

Lemma elem_of_index_fold (l : list (nat * Provider)) index key x :
  x ∈ index_at (foldl (λ index '(i, item), index_provider index i item) index l) key ↔
  x ∈ index_at index key ∨ ∃ item, (x, item) ∈ l ∧ key ∈ provider_keys item.
Proof.
  revert index. induction l as [|[i item] l IH]; intros index; simpl.
  { setoid_rewrite elem_of_nil. naive_solver. }
  rewrite IH, elem_of_index_provider. setoid_rewrite elem_of_cons. naive_solver.
Qed.

Lemma elem_of_imap_pair {A} `{!Inhabited A} (l : list A) i x :
  (i, x) ∈ imap pair l ↔ i < length l ∧ x = l !!! i.
Proof.
  rewrite elem_of_lookup_imap. split.
  - intros (j & y & [= <- <-] & Hj). split; [by eapply lookup_lt_Some|].
    by rewrite (list_lookup_total_correct _ _ _ Hj).
  - intros [Hi ->]. exists i, (l !!! i). split; [done|]. by apply list_lookup_lookup_total_lt.
Qed.

(** ** [lookup] *)

Context (providers : list Provider) (Hids : NoDup (SymbolID <$> providers)).
Notation n := (length providers).

Lemma elem_of_sortedUnique values x :
  (∀ y, y ∈ values → y < n) → x ∈ sortedUnique values providers ↔ x ∈ values.
Proof.
  intros Hv. (* the adjacency plays no role: any well-formed one will do *)
  assert (graph_wf (replicate n []) providers) as Hwf.
  { split; [by rewrite length_replicate|done| |].
    - intros i d Hi. unfold depends_on, deps. rewrite lookup_total_replicate_2 by done.
      by intros ?%elem_of_nil.
    - intros i Hi. unfold deps. rewrite lookup_total_replicate_2 by done. constructor. }
  by apply (sortedUnique_spec _ _ Hwf).
Qed.

Lemma sortedUnique_NoDup values :
  (∀ y, y ∈ values → y < n) → NoDup (sortedUnique values providers).
Proof.
  intros Hv. assert (graph_wf (replicate n []) providers) as Hwf.
  { split; [by rewrite length_replicate|done| |].
    - intros i d Hi. unfold depends_on, deps. rewrite lookup_total_replicate_2 by done.
      by intros ?%elem_of_nil.
    - intros i Hi. unfold deps. rewrite lookup_total_replicate_2 by done. constructor. }
  by apply (sortedUnique_spec _ _ Hwf).
Qed.

Lemma elem_of_typeIndex key x :
  x ∈ index_at (buildTypeIndex providers) key ↔
  x < n ∧ key ∈ provider_keys (providers !!! x).
Proof.
  unfold buildTypeIndex, index_at. rewrite lookup_fmap.
  pose proof (elem_of_index_fold (imap pair providers) ∅ key) as Hfold.
  unfold index_at in Hfold. destruct (foldl _ _ _ !! key) as [l|] eqn:El; simpl in *.
  - assert (Hl : ∀ y, y ∈ l ↔ y < n ∧ key ∈ provider_keys (providers !!! y)).
    { intros y. rewrite Hfold. setoid_rewrite elem_of_imap_pair.
      rewrite lookup_empty. simpl. split.
      - by intros [?%elem_of_nil|(item & [? ->] & ?)].
      - intros [??]. right. eauto. }
    rewrite elem_of_sortedUnique; [done|]. intros y Hy. by apply Hl.
  - rewrite elem_of_nil. split; [done|]. intros [Hx Hk].
    apply (elem_of_nil x), Hfold. right. exists (providers !!! x).
    by rewrite elem_of_imap_pair.
Qed.

Lemma provides_spec required item :
  provides required item = true ↔
  identical required (Output item) = true ∨
  ∃ b, b ∈ Interfaces item ∧ identical required (ib_Type b) = true.
Proof.
  unfold provides. rewrite orb_true_iff. apply or_iff_compat_l.
  rewrite existsb_exists. by setoid_rewrite list_elem_of_In.
Qed.

(** Everything [lookup] returns provides the type. *)
Lemma lookup_type_sound required x :
  x ∈ lookup_type (buildTypeIndex providers) required providers →
  x < n ∧ provides required (providers !!! x) = true.
Proof.
  unfold lookup_type. change (default [] (?m !! ?k)) with (index_at m k).
  rewrite elem_of_sortedUnique.
  - rewrite list_elem_of_filter, elem_of_typeIndex. naive_solver.
  - intros y. rewrite list_elem_of_filter, elem_of_typeIndex. naive_solver.
Qed.

Lemma resolve_key t : type_key (resolve t) = type_key t.
Proof. induction t; simpl; congruence. Qed.

Lemma resolve_known t : known_lengths t → known_lengths (resolve t).
Proof. induction t; simpl; naive_solver. Qed.

Lemma identical_resolved_key `{!GoTypesLaws _} t u :
  known_lengths t → known_lengths u →
  identical_resolved t u = true → type_key t = type_key u.
Proof.
  revert u. induction t; intros []; simpl; try done; rewrite ?andb_true_iff.
  - rewrite !orb_true_iff, !Z.ltb_lt, Z.eqb_eq. intros [? ?] [? ?] [Hlen ?].
    assert (len = len0) as -> by lia. by rewrite (IHt elem).
  - intros. by rewrite (IHt elem).
  - intros. by rewrite (IHt elem).
  - intros [? ?] [? ?] [? ?]. by rewrite (IHt1 key), (IHt2 elem).
  - rewrite Z.eqb_eq. intros ?? [-> ?]. by rewrite (IHt elem).
  - intros _ _. apply other_identical_id.
Qed.

Lemma type_key_identical `{!GoTypesLaws _} t u :
  known_lengths t → known_lengths u →
  identical_resolved (resolve t) (resolve u) = true → type_key t = type_key u.
Proof.
  intros Ht Hu Hi. rewrite <-(resolve_key t), <-(resolve_key u).
  apply identical_resolved_key; by auto using resolve_known.
Qed.

Lemma semanticTypeKey_identical `{!GoTypesLaws _} t u :
  known t → known u → identical t u = true → semanticTypeKey t = semanticTypeKey u.
Proof. destruct t, u; simpl; try done. apply type_key_identical. Qed.

(** Every type the provider offers has known array lengths. *)
Definition known_provider (item : Provider) : Prop :=
  known (Output item) ∧ ∀ b, b ∈ Interfaces item → known (ib_Type b).

(** The bucket of the index misses no provider of the type. *)
Lemma lookup_type_complete `{!GoTypesLaws _} required x :
  known required → Forall known_provider providers →
  x < n → provides required (providers !!! x) = true →
  x ∈ lookup_type (buildTypeIndex providers) required providers.
Proof.
  intros Hr Hps Hx Hp. unfold lookup_type. change (default [] (?m !! ?k)) with (index_at m k).
  assert (Hk : known_provider (providers !!! x)).
  { rewrite Forall_forall in Hps. apply Hps, list_elem_of_lookup_total. eauto. }
  rewrite elem_of_sortedUnique.
  - rewrite list_elem_of_filter, elem_of_typeIndex. split_and!; [done..|].
    unfold provider_keys. apply provides_spec in Hp as [Hp|(b & Hb & Hp)].
    + rewrite (semanticTypeKey_identical required (Output (providers !!! x)));
        [left|done|by apply Hk|done].
    + rewrite (semanticTypeKey_identical required (ib_Type b)); [|done|by apply Hk|done].
      right. by apply (list_elem_of_fmap_2 (semanticTypeKey ∘ ib_Type)).
  - intros y. rewrite list_elem_of_filter, elem_of_typeIndex. naive_solver.
Qed.
End lookup.

(** ** Selection *)

Section selection.
Context `{GoTypes} (providers : list Provider).

Lemma prefer_subset test candidates x :
  x ∈ prefer test candidates providers → x ∈ candidates.
Proof.
  unfold prefer. case_match eqn:E; [done|]. rewrite <-E, list_elem_of_filter. tauto.
Qed.

Lemma prefer_ne test candidates : candidates ≠ [] → prefer test candidates providers ≠ [].
Proof. unfold prefer. by case_match. Qed.

(** A candidate passing the test excludes the ones that fail it. *)
Lemma prefer_test test candidates x y :
  x ∈ candidates → test (providers !!! x) = true →
  y ∈ prefer test candidates providers → test (providers !!! y) = true.
Proof.
  intros Hx Ht. unfold prefer. case_match eqn:E.
  - exfalso. assert (x ∈ filter (λ i, test (providers !!! i) = true) candidates) as Hin
      by by apply list_elem_of_filter.
    rewrite E in Hin. by apply elem_of_nil in Hin.
  - rewrite <-E, list_elem_of_filter. tauto.
Qed.

Lemma selected_pool candidates input x :
  x ∈ selectedCandidates candidates input providers →
  x ∈ preferNonFallback candidates providers.
Proof.
  unfold selectedCandidates. generalize (preferNonFallback candidates providers). intros pool.
  unfold selectByParameterName, selectPrimary.
  repeat case_match; intros Hx; repeat (apply prefer_subset in Hx); done.
Qed.

Lemma selected_subset candidates input x :
  x ∈ selectedCandidates candidates input providers → x ∈ candidates.
Proof. intros Hx%selected_pool. by apply prefer_subset in Hx. Qed.

Lemma selected_ne candidates input :
  candidates ≠ [] → selectedCandidates candidates input providers ≠ [].
Proof.
  intros Hne. unfold selectedCandidates, selectByParameterName, selectPrimary, preferNonFallback.
  repeat case_match; repeat apply prefer_ne; done.
Qed.

Lemma firstScopedCandidate_none candidates x :
  firstScopedCandidate candidates providers = None → x ∈ candidates →
  Scope (providers !!! x) = BeanScopeSingleton.
Proof.
  unfold firstScopedCandidate. intros Hf Hx. apply list_elem_of_In in Hx.
  pose proof (find_none _ _ Hf _ Hx) as Hn. simpl in Hn. by bool_prop.
Qed.
End selection.

(** ** One dependency *)

Section connect.
Context `{GoTypes} `{UnicodeTables} (providers : list Provider).
Context (Hids : NoDup (SymbolID <$> providers)).
Notation n := (length providers).
Notation index := (buildTypeIndex providers).

(** A provider that may serve the dependency. *)
Definition candidate_ok (input : Dependency) (x : nat) : Prop :=
  x < n ∧
  (provides (dep_Type input) (providers !!! x) = true ∨
   provides (MatchType input) (providers !!! x) = true) ∧
  qualified (dep_Qualifiers input) (providers !!! x) = true.

Lemma dependencyCandidates_ok input x :
  x ∈ (dependencyCandidates index input providers).2 → candidate_ok input x.
Proof.
  unfold dependencyCandidates. simpl. set (cs := if decide _ then _ else _).
  assert (Hcs : ∀ x, x ∈ cs → x < n ∧ (provides (dep_Type input) (providers !!! x) = true ∨
    provides (MatchType input) (providers !!! x) = true)).
  { intros y. subst cs. case_decide as Hd.
    - intros Hy%lookup_type_sound; [|done]. tauto.
    - case_match; [|done]. intros Hy%lookup_type_sound; [|done]. tauto. }
  clearbody cs. unfold filterQualified. intros Hx. split_and!; try (apply Hcs).
  - destruct (dep_Qualifiers input); [done|]. apply list_elem_of_filter in Hx. tauto.
  - destruct (dep_Qualifiers input); [done|]. apply list_elem_of_filter in Hx. tauto.
  - destruct (dep_Qualifiers input); [done|]. apply list_elem_of_filter in Hx. tauto.
Qed.

Definition edge_for (c : nat) (input : Dependency) (e : Edge) : Prop :=
  ∃ d kind ci, e = make_edge providers c d input kind ci ∧ candidate_ok input d ∧
    (Scope (providers !!! d) = BeanScopeSingleton ∨ dep_Kind input = DependencyProvider).

(** Not a cycle report, and about the consumer. *)
Definition diagnostic_for (c : nat) (d : Diagnostic) : Prop :=
  diag_ProviderID d = SymbolID (providers !!! c) ∧
  diag_Kind d ∈ ["duplicate-collection-name"; "scope-mismatch"; "missing-dependency";
                 "ambiguous-dependency"].

(** The three ways a dependency is dealt with. *)
Definition dependency_outcome (c : nat) (input : Dependency)
    (es : list Edge) (ds : list Diagnostic) : Prop :=
  (∃ d, es = [] ∧ ds = [d] ∧ diagnostic_for c d) ∨
  (es ≠ [] ∧ ds = [] ∧ (∀ e, e ∈ es → edge_for c input e)) ∨
  (es = [] ∧ ds = [] ∧ (dependencyCandidates index input providers).2 = [] ∧
   (dep_Kind input = DependencyOptional ∨ is_collection (dep_Kind input) = true)).

Lemma outcome_problem c input d : diagnostic_for c d → dependency_outcome c input [] [d].
Proof. intros Hd. left. by exists d. Qed.

Definition add_adjacency (adjacency : list (list nat)) (e : Edge) : list (list nat) :=
  alter (λ dependencies, dependencies ++ [edge_dependency e]) (edge_consumer e) adjacency.

(** The state after adding edges and diagnostics. *)
Definition applied (s : connect_state) (es : list Edge) (ds : list Diagnostic) : connect_state :=
  mkConnect (cst_edges s ++ es) (cst_diagnostics s ++ ds)
    (foldl add_adjacency (cst_adjacency s) es).

Lemma applied_nil s : applied s [] [] = s.
Proof. destruct s. unfold applied. simpl. by rewrite !app_nil_r. Qed.

Lemma applied_applied s es ds es' ds' :
  applied (applied s es ds) es' ds' = applied s (es ++ es') (ds ++ ds').
Proof. unfold applied; simpl. by rewrite foldl_app, <-!app_assoc. Qed.

Lemma add_diagnostic_applied d s : add_diagnostic d s = applied s [] [d].
Proof. unfold add_diagnostic, applied. simpl. by rewrite app_nil_r. Qed.

Lemma appendEdge_applied c d input kind ci s :
  appendEdge providers c d input kind ci s =
  applied s [make_edge providers c d input kind ci] [].
Proof. unfold appendEdge, applied. simpl. by rewrite app_nil_r. Qed.

Lemma append_edges_applied c input kind (l : list (nat * nat)) s :
  foldl (λ s '(ci, d), appendEdge providers c d input kind (Z.of_nat ci) s) s l =
  applied s ((λ '(ci, d), make_edge providers c d input kind (Z.of_nat ci)) <$> l) [].
Proof.
  revert s. induction l as [|[ci d] l IH]; intros s; simpl; [by rewrite applied_nil|].
  by rewrite IH, appendEdge_applied, applied_applied.
Qed.

Lemma connectSingle_applied c input kind s :
  let candidates := (dependencyCandidates index input providers).2 in
  ∃ es ds, connectSingle providers c input kind candidates s = applied s es ds ∧
    dependency_outcome c input es ds.
Proof.
  intros candidates. unfold connectSingle.
  destruct candidates as [|x l] eqn:Ec.
  { case_decide as Hopt.
    - rewrite add_diagnostic_applied. eexists [], _. split; [done|].
    apply outcome_problem. split; [done|]. simpl. set_solver.
    - exists [], []. rewrite applied_nil. split; [done|]. right. right.
      split_and!; [done|done|exact Ec|]. by left. }
  rewrite <-Ec. pose proof (selected_subset providers candidates input) as Hsub.
  pose proof (selected_ne providers candidates input) as Hne.
  destruct (selectedCandidates candidates input providers) as [|d [|d' sel]] eqn:Es.
  - exfalso. apply Hne; [by rewrite Ec|done].
  - assert (candidate_ok input d) as Hd by (apply dependencyCandidates_ok, Hsub; left).
    case_match eqn:Escope.
    + rewrite add_diagnostic_applied. eexists [], _. split; [done|].
    apply outcome_problem. split; [done|]. simpl. set_solver.
    + rewrite appendEdge_applied. eexists _, []. split; [done|]. right. left.
      split_and!; [done..|]. intros e ->%list_elem_of_singleton. exists d, kind, 0%Z.
      split_and!; [done..|]. apply andb_false_iff in Escope as [E|E]; bool_prop; [left|right];
        by apply dec_stable.
  - rewrite add_diagnostic_applied. eexists [], _. split; [done|].
    apply outcome_problem. split; [done|]. simpl. set_solver.
Qed.

Lemma connectCollection_applied c input kind s :
  is_collection (dep_Kind input) = true →
  let candidates := (dependencyCandidates index input providers).2 in
  ∃ es ds, connectCollection providers c input kind candidates s = applied s es ds ∧
    dependency_outcome c input es ds.
Proof.
  intros Hkind candidates. unfold connectCollection.
  set (ordered := orderedCollectionCandidates _ _).
  assert (Hordered : ordered ≡ₚ candidates) by apply sort_stable_perm. clearbody ordered.
  case_decide.
  { rewrite add_diagnostic_applied. eexists [], _. split; [done|].
    apply outcome_problem. split; [done|]. simpl. set_solver. }
  destruct (firstScopedCandidate ordered providers) as [scoped|] eqn:Ef.
  { rewrite add_diagnostic_applied. eexists [], _. split; [done|].
    apply outcome_problem. split; [done|]. simpl. set_solver. }
  rewrite append_edges_applied. eexists _, []. split; [done|]. right.
  destruct ordered as [|x l] eqn:Eo.
  - right. split_and!; [done|done| |by right]. by apply Permutation_nil_l in Hordered.
  - left. rewrite <-Eo in *. split_and!; [by subst ordered|done|].
    intros e. rewrite list_elem_of_fmap. intros ([ci d] & -> & Hin).
    apply elem_of_imap_pair in Hin as [Hci ->].
    assert (ordered !!! ci ∈ ordered) as Hd by (apply list_elem_of_lookup_total; eauto).
    exists (ordered !!! ci), kind, (Z.of_nat ci). split_and!; [done| |].
    + apply dependencyCandidates_ok. fold candidates. by rewrite <-Hordered.
    + left. by apply (firstScopedCandidate_none providers ordered).
Qed.

Lemma connectDependency_applied c s input :
  ∃ es ds, connectDependency providers index c s input = applied s es ds ∧
    dependency_outcome c input es ds.
Proof.
  unfold connectDependency. rewrite (surjective_pairing (dependencyCandidates _ _ _)).
  case_match eqn:Ek; [|apply connectSingle_applied].
  apply connectCollection_applied. revert Ek. unfold dependencyCandidates. simpl.
  by case_decide.
Qed.

(** ** All dependencies *)

(** [es] and [ds] deal with every listed pair of consumer and input. *)
Definition all_outcomes (pairs : list (nat * Dependency)) (es : list Edge)
    (ds : list Diagnostic) : Prop :=
  (∀ c input, (c, input) ∈ pairs → ∃ es' ds', dependency_outcome c input es' ds' ∧
     (∀ e, e ∈ es' → e ∈ es) ∧ (∀ d, d ∈ ds' → d ∈ ds)) ∧
  (∀ e, e ∈ es → ∃ c input, (c, input) ∈ pairs ∧ edge_for c input e) ∧
  (∀ d, d ∈ ds → ∃ c input, (c, input) ∈ pairs ∧ diagnostic_for c d).

Lemma all_outcomes_nil : all_outcomes [] [] [].
Proof. split_and!; intros *; by rewrite elem_of_nil. Qed.

Lemma all_outcomes_one c input es ds :
  dependency_outcome c input es ds → all_outcomes [(c, input)] es ds.
Proof.
  intros Ho. split_and!.
  - intros c' i' [= -> ->]%list_elem_of_singleton. by exists es, ds.
  - intros e He. exists c, input. split; [left|].
    destruct Ho as [(? & -> & _)|[(_ & _ & Hes)|(-> & _)]]; [by apply elem_of_nil in He|auto|
      by apply elem_of_nil in He].
  - intros d Hd. exists c, input. split; [left|].
    destruct Ho as [(d' & _ & -> & ?)|[(_ & -> & _)|(_ & -> & _)]];
      [by apply list_elem_of_singleton in Hd as ->|by apply elem_of_nil in Hd..].
Qed.

Lemma all_outcomes_app p1 e1 d1 p2 e2 d2 :
  all_outcomes p1 e1 d1 → all_outcomes p2 e2 d2 → all_outcomes (p1 ++ p2) (e1 ++ e2) (d1 ++ d2).
Proof.
  intros (A1 & B1 & C1) (A2 & B2 & C2). split_and!.
  - intros c i [Hin|Hin]%elem_of_app.
    + destruct (A1 c i Hin) as (es & ds & ? & He & Hd). exists es, ds. split; [done|].
      split; intros ? ?; apply elem_of_app; left; auto.
    + destruct (A2 c i Hin) as (es & ds & ? & He & Hd). exists es, ds. split; [done|].
      split; intros ? ?; apply elem_of_app; right; auto.
  - intros e [He|He]%elem_of_app; [apply B1 in He|apply B2 in He];
      destruct He as (c & i & ? & ?); exists c, i; rewrite elem_of_app; auto.
  - intros e [He|He]%elem_of_app; [apply C1 in He|apply C2 in He];
      destruct He as (c & i & ? & ?); exists c, i; rewrite elem_of_app; auto.
Qed.

Definition dependency_pairs : list (nat * Dependency) :=
  imap pair providers ≫= λ '(c, consumer), (c,.) <$> Dependencies consumer.

Lemma elem_of_dependency_pairs c input :
  (c, input) ∈ dependency_pairs ↔ c < n ∧ input ∈ Dependencies (providers !!! c).
Proof.
  unfold dependency_pairs. rewrite list_elem_of_bind. split.
  - intros ([c' p] & Hin & [Hc ->]%elem_of_imap_pair).
    apply list_elem_of_fmap in Hin as (i & [= -> ->] & Hi). done.
  - intros [Hc Hi]. exists (c, providers !!! c). rewrite elem_of_imap_pair.
    split; [|done]. by apply (list_elem_of_fmap_2 (c,.)).
Qed.

Lemma connectDependencies_applied s :
  ∃ es ds, connectDependencies providers index s = applied s es ds ∧
    all_outcomes dependency_pairs es ds.
Proof.
  assert (Hinner : ∀ c inputs s, ∃ es ds,
    foldl (connectDependency providers index c) s inputs = applied s es ds ∧
    all_outcomes ((c,.) <$> inputs) es ds).
  { intros c. induction inputs as [|input inputs IH]; intros s'; simpl.
    { exists [], []. rewrite applied_nil. split; [done|apply all_outcomes_nil]. }
    destruct (connectDependency_applied c s' input) as (e1 & d1 & -> & Ho).
    destruct (IH (applied s' e1 d1)) as (e2 & d2 & -> & Ha).
    exists (e1 ++ e2), (d1 ++ d2). rewrite applied_applied. split; [done|].
    apply (all_outcomes_app [(c, input)]); [by apply all_outcomes_one|done]. }
  unfold connectDependencies, dependency_pairs. revert s.
  induction (imap pair providers) as [|[c p] l IH]; intros s; simpl.
  { exists [], []. rewrite applied_nil. split; [done|apply all_outcomes_nil]. }
  destruct (Hinner c (Dependencies p) s) as (e1 & d1 & -> & Ha1).
  destruct (IH (applied s e1 d1)) as (e2 & d2 & -> & Ha2).
  exists (e1 ++ e2), (d1 ++ d2). rewrite applied_applied. split; [done|].
  by apply all_outcomes_app.
Qed.

(** The adjacency lists hold the edges. *)
Lemma applied_adjacency (es : list Edge) adjacency c d :
  c < length adjacency →
  d ∈ foldl add_adjacency adjacency es !!! c ↔
  d ∈ adjacency !!! c ∨ ∃ e, e ∈ es ∧ edge_consumer e = c ∧ edge_dependency e = d.
Proof.
  revert adjacency. induction es as [|e es IH]; intros adjacency Hc; simpl.
  { setoid_rewrite elem_of_nil. naive_solver. }
  unfold add_adjacency at 2. rewrite IH by (by rewrite length_alter).
  setoid_rewrite elem_of_cons. destruct (decide (edge_consumer e = c)) as [<-|Hne].
  - rewrite list_lookup_total_alter_eq by done.
    rewrite elem_of_app, list_elem_of_singleton. naive_solver.
  - rewrite list_lookup_total_alter_ne by done. naive_solver.
Qed.

Lemma length_add_adjacency es adjacency :
  length (foldl add_adjacency adjacency es) = length adjacency.
Proof.
  revert adjacency. induction es as [|e es IH]; intros adjacency; simpl; [done|].
  by rewrite IH; unfold add_adjacency; rewrite length_alter.
Qed.
End connect.
