(* ===== verification/GraphBuild.v ===== *)
(** [Build] (src/compiler/graph/build.go) and its result
    (src/compiler/graph/model.go): the edges and nodes of the provider graph,
    its diagnostics and the construction order, with the correctness of the
    whole component. *)
From S2P Require Import Prelude GoSort GoStrings Provider GraphSelect GraphConnect GraphOrder GraphCycles Scc CycleSearch.

Section build.
Context `{GoTypes} `{UnicodeTables}.

(** type Result; the order lists the indices of the providers its pointers
    refer to. *)
Record Result := mkResult {
  r_providers : list Provider;
  r_nodes : list Node;
  r_edges : list Edge;
  r_order : list nat;
  r_diagnostics : list Diagnostic;
}.

(** [func (r Result) ConstructionOrder() []provider.Provider] *)
Definition ConstructionOrder (r : Result) : list Provider :=
  (λ i, r_providers r !!! i) <$> r_order r.

Definition edge_less : Edge → Edge → bool :=
  by_key ConsumerID str_ltb
    (by_key ParameterIndex Z.ltb
       (by_key CollectionIndex Z.ltb (on_key DependencyID str_ltb))).

Definition diagnostic_less : Diagnostic → Diagnostic → bool :=
  by_key diag_ProviderID str_ltb
    (by_key diag_Kind str_ltb
       (by_key diag_Message str_ltb
          (by_key (λ d, Filename (diag_PhysicalPosition d)) str_ltb
             (on_key (λ d, Offset (diag_PhysicalPosition d)) Z.ltb)))).

Definition sortDiagnostics (diagnostics : list Diagnostic) : list Diagnostic :=
  sort_stable diagnostic_less diagnostics.

(** The state [connectDependencies] starts from and the one it leaves. *)
Definition connected (providers : list Provider) : connect_state :=
  connectDependencies providers (buildTypeIndex providers)
    (mkConnect [] [] (replicate (length providers) [])).

Definition sorted_adjacency (providers : list Provider) : list (list nat) :=
  (λ l, sortedUnique l providers) <$> cst_adjacency (connected providers).

(** [func Build(catalog provider.Catalog) Result]; [None] stands for a search
    that runs out of fuel, which [Build_total] excludes. *)
Definition Build (catalog : Catalog) : option Result :=
  match Catalog_Diagnostics catalog with
  | _ :: _ => Some (mkResult [] [] [] [] [])
  | [] =>
      let providers := Catalog_Providers catalog in
      let nodes := imap (λ i item, mkNode (SymbolID item) i) providers in
      let edges := sort_stable edge_less (cst_edges (connected providers)) in
      let adjacency := sorted_adjacency providers in
      components ← stronglyConnected adjacency providers;
      let cycles := filter (λ component, component_has_cycle adjacency component = true)
                      components in
      let diagnostics := sortDiagnostics
        (cst_diagnostics (connected providers) ++
         (cycleDiagnostic adjacency providers <$> cycles)) in
      order ← match diagnostics with
              | [] => constructionOrder adjacency providers
              | _ => Some []
              end;
      Some (mkResult providers nodes edges order diagnostics)
  end.

(** One provider needs another: the relation the edges record. *)
Definition requires (r : Result) (c d : nat) : Prop :=
  ∃ e, e ∈ r_edges r ∧ edge_consumer e = c ∧ edge_dependency e = d.

(** ** What [Build] computes *)

Context (catalog : Catalog).
Notation providers := (Catalog_Providers catalog).
Notation n := (length providers).
Context (Hids : NoDup (SymbolID <$> providers)).
Context (Hclean : Catalog_Diagnostics catalog = []).

Lemma connected_spec :
  all_outcomes providers (dependency_pairs providers)
    (cst_edges (connected providers)) (cst_diagnostics (connected providers)) ∧
  length (cst_adjacency (connected providers)) = n ∧
  (∀ c d, c < n → d ∈ cst_adjacency (connected providers) !!! c ↔
    ∃ e, e ∈ cst_edges (connected providers) ∧ edge_consumer e = c ∧ edge_dependency e = d).
Proof.
  unfold connected.
  destruct (connectDependencies_applied providers Hids
    (mkConnect [] [] (replicate n []))) as (es & ds & -> & Ho).
  unfold applied. simpl. split_and!; [done| |].
  - by rewrite length_add_adjacency, length_replicate.
  - intros c d Hc. rewrite applied_adjacency by (by rewrite length_replicate).
    rewrite lookup_total_replicate_2 by done. rewrite elem_of_nil. naive_solver.
Qed.

Lemma edge_ends e : e ∈ cst_edges (connected providers) →
  edge_consumer e < n ∧ edge_dependency e < n.
Proof.
  destruct connected_spec as ((_ & He & _) & _).
  intros Hin. destruct (He e Hin) as (c & input & Hp & d & kind & ci & -> & Hd & _). simpl.
  apply elem_of_dependency_pairs in Hp as [Hc _]. split; [done|apply Hd].
Qed.

Lemma sorted_adjacency_spec c :
  c < n → NoDup (sorted_adjacency providers !!! c) ∧
  ∀ d, d ∈ sorted_adjacency providers !!! c ↔
    ∃ e, e ∈ cst_edges (connected providers) ∧ edge_consumer e = c ∧ edge_dependency e = d.
Proof.
  intros Hc. destruct connected_spec as (_ & Hlen & Hadj). unfold sorted_adjacency.
  rewrite list_lookup_total_alt, list_lookup_fmap, list_lookup_lookup_total_lt by lia. simpl.
  assert (Hlt : ∀ d, d ∈ cst_adjacency (connected providers) !!! c → d < n).
  { intros d. rewrite Hadj by done. intros (e & He & _ & <-). by apply edge_ends. }
  split; [by apply sortedUnique_NoDup|].
  intros d. by rewrite elem_of_sortedUnique, Hadj.
Qed.

Lemma sorted_adjacency_wf : graph_wf (sorted_adjacency providers) providers.
Proof.
  destruct connected_spec as (_ & Hlen & _). split.
  - unfold sorted_adjacency. by rewrite length_fmap.
  - done.
  - intros c d Hc Hd. apply (proj2 (sorted_adjacency_spec c Hc)) in Hd as (e & He & _ & <-).
    by apply edge_ends.
  - intros c Hc. by apply sorted_adjacency_spec.
Qed.

Lemma sorted_adjacency_closed i d :
  i < length (sorted_adjacency providers) → d ∈ sorted_adjacency providers !!! i →
  d < length (sorted_adjacency providers).
Proof. rewrite (wf_length _ _ sorted_adjacency_wf). apply (wf_deps _ _ sorted_adjacency_wf). Qed.

(** The result, field by field. *)
Lemma Build_fields :
  ∃ components order, stronglyConnected (sorted_adjacency providers) providers = Some components ∧
    let diagnostics := sortDiagnostics (cst_diagnostics (connected providers) ++
      (cycleDiagnostic (sorted_adjacency providers) providers <$>
        filter (λ C, component_has_cycle (sorted_adjacency providers) C = true) components)) in
    Build catalog = Some (mkResult providers (imap (λ i item, mkNode (SymbolID item) i) providers)
      (sort_stable edge_less (cst_edges (connected providers))) order diagnostics) ∧
    (diagnostics = [] → constructionOrder (sorted_adjacency providers) providers = Some order) ∧
    (diagnostics ≠ [] → order = []).
Proof.
  destruct (stronglyConnected_spec _ providers sorted_adjacency_closed) as (Cs & Es & _).
  destruct (constructionOrder_sound _ _ sorted_adjacency_wf) as (order & Eo & _).
  exists Cs. unfold Build. rewrite Hclean, Es. simpl.
  destruct (sortDiagnostics _) as [|d ds] eqn:Ed.
  - exists order. rewrite Eo. done.
  - exists []. done.
Qed.

Lemma requires_adjacency r : Build catalog = Some r →
  ∀ c d, requires r c d ↔ c < n ∧ depends_on (sorted_adjacency providers) c d.
Proof.
  destruct Build_fields as (Cs & order & _ & -> & _). intros [= <-] c d.
  unfold requires, depends_on, deps. simpl. split.
  - intros (e & He & Hc & Hd). rewrite elem_of_sort_stable in He.
    assert (c < n) as Hcn by (rewrite <-Hc; by apply edge_ends). split; [done|].
    apply (proj2 (sorted_adjacency_spec c Hcn)). by exists e.
  - intros [Hc Hd]. apply (proj2 (sorted_adjacency_spec c Hc)) in Hd as (e & ? & ? & ?).
    exists e. by rewrite elem_of_sort_stable.
Qed.

Lemma requires_tc r : Build catalog = Some r →
  ∀ c d, tc (requires r) c d ↔ c < n ∧ tc (depends_on (sorted_adjacency providers)) c d.
Proof.
  intros Hr c d. pose proof (requires_adjacency r Hr) as Hreq. split.
  - induction 1 as [c d Hcd|c m d Hcm _ [_ IH]]; apply Hreq in Hcd || apply Hreq in Hcm.
    + split; [tauto|]. apply tc_once; tauto.
    + split; [tauto|]. apply (tc_l _ c m d); tauto.
  - intros [Hc Ht]. revert Hc. induction Ht as [c d Hcd|c m d Hcm _ IH]; intros Hc.
    + apply tc_once. by apply Hreq.
    + apply (tc_l _ c m d); [by apply Hreq|]. apply IH.
      by eapply (wf_deps _ _ sorted_adjacency_wf).
Qed.
End build.
