(* ===== verification/GraphTheorems.v ===== *)
(** The correctness of the provider graph (src/compiler/graph): construction
    order, cycle reports, accounting of every dependency, the type index and
    the selection among candidates. *)
From S2P Require Import Prelude GoSort GoStrings Scc CycleSearch Provider GraphSelect GraphOrder GraphCycles GraphConnect GraphBuild.

Section graph.
Context `{GoTypes} `{UnicodeTables}.

(** ** Components *)

Lemma has_cycle_cyclic adjacency C : C ≠ [] →
  component_has_cycle adjacency C = true ↔ cyclic_component (λ i, adjacency !!! i) C.
Proof.
  intros Hne. unfold component_has_cycle, cyclic_component, edge.
  rewrite orb_true_iff, Nat.ltb_lt, bool_decide_eq_true. split.
  - intros [?|Hs]; [by left|right]. exists (C !!! 0). split; [|done].
    destruct C; [done|left].
  - intros [?|(x & Hx & Hs)]; [by left|]. destruct C as [|y [|z C]]; [done| |left; simpl; lia].
    right. apply list_elem_of_singleton in Hx as ->. done.
Qed.

(** The graph has a cycle exactly when some component passes the test of
    [Build]. *)
Lemma cyclic_components adjacency providers components :
  (∀ i d, i < length adjacency → d ∈ adjacency !!! i → d < length adjacency) →
  stronglyConnected adjacency providers = Some components →
  (∃ C, C ∈ components ∧ component_has_cycle adjacency C = true) ↔
  ∃ x, x < length adjacency ∧ tc (depends_on adjacency) x x.
Proof.
  intros Hclosed Es.
  destruct (stronglyConnected_spec adjacency providers Hclosed)
    as (Cs & E & Hnd & Hin & Hne & Hscc). rewrite Es in E. injection E as <-.
  pose proof (components_cyclic (λ i, adjacency !!! i) (seq 0 (length adjacency)) components)
    as Hc.
  transitivity (∃ C, C ∈ components ∧ cyclic_component (λ i, adjacency !!! i) C).
  { split; intros (C & HC & Hcyc); exists C; (split; [done|]);
      apply (has_cycle_cyclic adjacency C); try done; by apply Hne. }
  rewrite <-Hc; [| done | |done].
  - split; intros (x & Hx & Ht); exists x; (split; [|done]); revert Hx; rewrite elem_of_seq; lia.
  - intros x. rewrite Hin, elem_of_seq. lia.
Qed.

(** ** The theorems *)

Section catalog.
Context (catalog : Catalog).
Notation providers := (Catalog_Providers catalog).
Notation n := (length providers).

(** What the diagnostics of a result are made of. *)
Lemma diagnostics_split r : NoDup (SymbolID <$> providers) →
  Catalog_Diagnostics catalog = [] → Build catalog = Some r →
  ∃ components, stronglyConnected (sorted_adjacency providers) providers = Some components ∧
    ∀ d, d ∈ r_diagnostics r ↔
      d ∈ cst_diagnostics (connected providers) ∨
      ∃ C, C ∈ components ∧ component_has_cycle (sorted_adjacency providers) C = true ∧
        d = cycleDiagnostic (sorted_adjacency providers) providers C.
Proof.
  intros Hids Hclean Hr.
  destruct (Build_fields catalog Hids Hclean) as (Cs & order & Es & E & _).
  rewrite Hr in E. injection E as ->. exists Cs. split; [done|]. intros d. simpl.
  unfold sortDiagnostics. rewrite elem_of_sort_stable, elem_of_app, list_elem_of_fmap.
  setoid_rewrite list_elem_of_filter. naive_solver.
Qed.

Lemma connect_diagnostic_kind d : NoDup (SymbolID <$> providers) →
  d ∈ cst_diagnostics (connected providers) → diag_Kind d ≠ "cycle".
Proof.
  intros Hids Hd. destruct (connected_spec catalog Hids) as ((_ & _ & Hds) & _).
  destruct (Hds d Hd) as (c & input & _ & _ & Hk). intros E. rewrite E in Hk.
  by repeat (apply elem_of_cons in Hk as [Hk|Hk]; [done|]); apply elem_of_nil in Hk.
Qed.

Lemma Build_acyclic r : NoDup (SymbolID <$> providers) →
  Catalog_Diagnostics catalog = [] → Build catalog = Some r →
  (∃ d, d ∈ r_diagnostics r ∧ diag_Kind d = "cycle") ↔ ∃ x, tc (requires r) x x.
Proof.
  intros Hids Hclean Hr.
  destruct (diagnostics_split r Hids Hclean Hr) as (Cs & Es & Hd).
  pose proof (cyclic_components _ _ Cs (sorted_adjacency_closed catalog Hids) Es) as Hc.
  rewrite (wf_length _ _ (sorted_adjacency_wf catalog Hids)) in Hc.
  setoid_rewrite (requires_tc catalog Hids Hclean r Hr). rewrite <-Hc. split.
  - intros (d & Hin & Hk). apply Hd in Hin as [Hin|(C & HC & Hcyc & ->)]; [|eauto].
    by apply connect_diagnostic_kind in Hin.
  - intros (C & HC & Hcyc). eexists. split; [apply Hd; right; eauto|done].
Qed.

(** C1. When [Build] reports no problem, its construction order lists every
    provider exactly once, and every provider another one requires comes
    before it. *)
Theorem Build_order_dependency_first r :
  NoDup (SymbolID <$> providers) → Catalog_Diagnostics catalog = [] →
  Build catalog = Some r → r_diagnostics r = [] →
  r_order r ≡ₚ seq 0 n ∧
  ∀ before c after, r_order r = before ++ c :: after →
    ∀ d, requires r c d → d ∈ before.
Proof.
  intros Hids Hclean Hr Hnone.
  destruct (Build_fields catalog Hids Hclean) as (Cs & order & _ & E & Ho & _).
  rewrite Hr in E. injection E as Er. subst r. simpl in *. specialize (Ho Hnone).
  set (r := mkResult _ _ _ _ _) in Hr.
  destruct (constructionOrder_sound _ _ (sorted_adjacency_wf catalog Hids))
    as (order' & Eo & _ & _ & Hdeps & Hperm). rewrite Ho in Eo. injection Eo as <-. split.
  - apply Hperm. intros y Hy Ht.
    assert (∃ d, d ∈ r_diagnostics r ∧ diag_Kind d = "cycle") as (d & Hd & _).
    { apply (Build_acyclic r Hids Hclean Hr). exists y.
      by apply (requires_tc catalog Hids Hclean r Hr). }
    unfold r in Hd. simpl in Hd. rewrite Hnone in Hd. by apply elem_of_nil in Hd.
  - intros a c b Eab d Hreq. eapply Hdeps; [done|].
    by apply (requires_adjacency catalog Hids Hclean _ Hr).
Qed.

(** C8. A cycle diagnostic is reported exactly when some provider requires
    itself, directly or through others. *)
Theorem Build_cycle_reported r :
  NoDup (SymbolID <$> providers) → Catalog_Diagnostics catalog = [] →
  Build catalog = Some r →
  (∃ d, d ∈ r_diagnostics r ∧ diag_Kind d = "cycle") ↔ ∃ x, tc (requires r) x x.
Proof. apply Build_acyclic. Qed.

(** The rendering of a path in a cycle diagnostic. *)
Definition shows_path (d : Diagnostic) (path : list nat) : Prop :=
  has_prefix (diag_Message d)
    ("provider dependency cycle: " +:+
     join ((λ i, SymbolID (providers !!! i)) <$> path) " -> " +:+ "; component providers: ")
  = true.

(** The head of a reported component lies on the cycle that represents it and
    has the least identity of the component. *)
Lemma component_cycle C Cs : NoDup (SymbolID <$> providers) →
  stronglyConnected (sorted_adjacency providers) providers = Some Cs → C ∈ Cs →
  component_has_cycle (sorted_adjacency providers) C = true →
  ∃ path, representativeCycle (sorted_adjacency providers) C = C !!! 0 :: path ++ [C !!! 0] ∧
    NoDup (C !!! 0 :: path) ∧
    walk (λ i, sorted_adjacency providers !!! i) (C !!! 0) path (C !!! 0) ∧
    (∀ z, z ∈ C !!! 0 :: path → z < n) ∧
    (∀ y, rtc (depends_on (sorted_adjacency providers)) (C !!! 0) y →
      rtc (depends_on (sorted_adjacency providers)) y (C !!! 0) →
      str_ltb (SymbolID (providers !!! y)) (SymbolID (providers !!! (C !!! 0))) = false).
Proof.
  intros Hids Es HC Hcyc.
  destruct (stronglyConnected_spec _ providers (sorted_adjacency_closed catalog Hids))
    as (Cs' & E & Hnd & Hin & HCs & Hscc). rewrite Es in E. injection E as <-.
  rewrite (wf_length _ _ (sorted_adjacency_wf catalog Hids)) in Hin.
  destruct (HCs C HC) as [Hne Hsorted].
  assert (HC0 : C !!! 0 ∈ C) by (destruct C; [done|left]).
  assert (Hlt : ∀ z, z ∈ C → z < n) by (intros z Hz; apply Hin, elem_of_concat; eauto).
  assert (Hleast : ∀ y, y ∈ C →
    str_ltb (SymbolID (providers !!! y)) (SymbolID (providers !!! (C !!! 0))) = false).
  { intros y Hy. destruct C as [|x C]; [done|]. simpl in *.
    inversion Hsorted as [|?? _ Hall]; subst. rewrite Forall_forall in Hall.
    apply elem_of_cons in Hy as [->|Hy]; [|by apply (Hall y)].
    apply (sw_irrefl (StrictWeak := st_weak (StrictTotal := str_ltb_total))). }
  assert (Hnd' : NoDup C).
  { apply list_elem_of_split in HC as (r1 & r2 & ->). rewrite concat_app in Hnd.
    simpl in Hnd. apply NoDup_app in Hnd as (_ & _ & Hnd). by apply NoDup_app in Hnd as (? & _). }
  destruct (decide (C !!! 0 ∈ sorted_adjacency providers !!! (C !!! 0))) as [Hself|Hself].
  - exists []. rewrite representativeCycle_self by done.
    split_and!; [done|by apply NoDup_singleton|done| |].
    + intros z ->%list_elem_of_singleton. auto.
    + intros y ??. by apply Hleast, (Hscc C (C !!! 0)).
  - unfold component_has_cycle in Hcyc. rewrite (bool_decide_eq_false_2 _ Hself), orb_false_r in Hcyc.
    apply Nat.ltb_lt in Hcyc.
    destruct (representativeCycle_search (sorted_adjacency providers) C)
      as (q & -> & Hw & Hndq & Hq); [done|done|done|by intros y; apply Hscc|].
    exists q. split_and!; [done..| |].
    + intros z [->|Hz]%elem_of_cons; auto.
    + intros y ??. by apply Hleast, (Hscc C (C !!! 0)).
Qed.

(** Each cycle diagnostic shows an actual cycle: a simple path of requirements that
    leaves a provider and leads back to it, and the provider is the one of
    least identity among all that are on a cycle with it. *)
Theorem Build_cycle_path r d :
  NoDup (SymbolID <$> providers) → Catalog_Diagnostics catalog = [] →
  Build catalog = Some r → d ∈ r_diagnostics r → diag_Kind d = "cycle" →
  ∃ x path, shows_path d (x :: path ++ [x]) ∧ diag_ProviderID d = SymbolID (providers !!! x) ∧
    NoDup (x :: path) ∧
    (∀ a u v b, x :: path ++ [x] = a ++ u :: v :: b → requires r u v) ∧
    (∀ y, tc (requires r) x y → tc (requires r) y x →
      str_ltb (SymbolID (providers !!! y)) (SymbolID (providers !!! x)) = false).
Proof.
  intros Hids Hclean Hr Hd Hk.
  destruct (diagnostics_split r Hids Hclean Hr) as (Cs & Es & Hsplit).
  apply Hsplit in Hd as [Hd|(C & HC & Hcyc & ->)]; [by apply connect_diagnostic_kind in Hd|].
  destruct (component_cycle C Cs Hids Es HC Hcyc) as (path & Epath & Hnd & Hw & Hlt & Hleast).
  set (x := C !!! 0) in *. exists x, path. split_and!; [|done|done| |].
  - unfold shows_path, cycleDiagnostic. simpl. rewrite Epath. apply has_prefix_spec. eexists. by rewrite !str_app_assoc.
  - intros a u v b E. apply (requires_adjacency catalog Hids Hclean r Hr).
    eapply walk_consecutive in E as [? ?]; [|done]. auto.
  - intros y Hxy Hyx. apply Hleast; apply tc_rtc; by eapply (requires_tc catalog).
Qed.

(** [Build] answers every catalog whose provider identities are distinct:
    the searches and the queue it runs terminate. *)
Theorem Build_total : NoDup (SymbolID <$> providers) → ∃ r, Build catalog = Some r.
Proof.
  intros Hids. destruct (Catalog_Diagnostics catalog) as [|d ds] eqn:Hclean.
  - destruct (Build_fields catalog Hids Hclean) as (Cs & order & _ & -> & _). eauto.
  - unfold Build. rewrite Hclean. eauto.
Qed.

(** No declared dependency is dropped: each one has an edge to a matching
    provider, or a diagnostic about its consumer, or is an optional or
    collection dependency that nothing matches. *)
Theorem Build_dependencies_accounted r c input :
  NoDup (SymbolID <$> providers) → Catalog_Diagnostics catalog = [] →
  Build catalog = Some r → c < n → input ∈ Dependencies (providers !!! c) →
  (∃ e, e ∈ r_edges r ∧ edge_for providers c input e) ∨
  (∃ d, d ∈ r_diagnostics r ∧ diagnostic_for providers c d) ∨
  ((dependencyCandidates (buildTypeIndex providers) input providers).2 = [] ∧
   (dep_Kind input = DependencyOptional ∨ is_collection (dep_Kind input) = true)).
Proof.
  intros Hids Hclean Hr Hc Hin.
  destruct (diagnostics_split r Hids Hclean Hr) as (Cs' & _ & Hsplit).
  destruct (Build_fields catalog Hids Hclean) as (Cs & order & _ & E & _).
  rewrite Hr in E. injection E as ->. simpl in *.
  destruct (connected_spec catalog Hids) as ((Ho & _ & _) & _).
  destruct (Ho c input) as (es & ds & Hout & Hes & Hds);
    [by apply elem_of_dependency_pairs|].
  destruct Hout as [(d & -> & -> & Hd)|[(Hne & _ & Hed)|(_ & _ & Hnone)]]; [| |tauto].
  - right. left. exists d. split; [|done]. apply Hsplit. left. apply Hds. left.
  - left. destruct es as [|e es]; [done|]. exists e. split; [|apply Hed; left].
    rewrite elem_of_sort_stable. apply Hes. left.
Qed.

(** Every edge serves a declared dependency of its consumer and leads to a
    provider of the requested type that carries the requested qualifiers;
    it is a singleton unless the consumer asked for a [bean.Provider]. *)
Theorem Build_edges_justified r e :
  NoDup (SymbolID <$> providers) → Catalog_Diagnostics catalog = [] →
  Build catalog = Some r → e ∈ r_edges r →
  ∃ c input, c < n ∧ input ∈ Dependencies (providers !!! c) ∧ edge_for providers c input e.
Proof.
  intros Hids Hclean Hr.
  destruct (Build_fields catalog Hids Hclean) as (Cs & order & _ & E & _).
  rewrite Hr in E. injection E as ->. simpl. rewrite elem_of_sort_stable. intros He.
  destruct (connected_spec catalog Hids) as ((_ & Hes & _) & _).
  destruct (Hes e He) as (c & input & Hp & Hfor). apply elem_of_dependency_pairs in Hp as [??].
  by exists c, input.
Qed.

(** C18. The priority queue implements the reference order: at every step the
    provider of least identity among those whose dependencies are all built. *)
Theorem Build_order_canonical r :
  NoDup (SymbolID <$> providers) → Catalog_Diagnostics catalog = [] →
  Build catalog = Some r → r_diagnostics r = [] →
  r_order r = reference_order (sorted_adjacency providers) providers n [].
Proof.
  intros Hids Hclean Hr Hnone.
  destruct (Build_fields catalog Hids Hclean) as (Cs & order & _ & E & Ho & _).
  rewrite Hr in E. injection E as ->. simpl in *. specialize (Ho Hnone).
  rewrite (constructionOrder_reference _ _ (sorted_adjacency_wf catalog Hids)) in Ho.
  by injection Ho.
Qed.

(** A problem anywhere means no construction order: a catalog with
    diagnostics is not graphed, and a graph with diagnostics is not ordered. *)
Theorem Build_problems_block_order r :
  NoDup (SymbolID <$> providers) → Build catalog = Some r →
  Catalog_Diagnostics catalog ≠ [] ∨ r_diagnostics r ≠ [] →
  ConstructionOrder r = [].
Proof.
  intros Hids Hr Hproblem. unfold ConstructionOrder.
  destruct (Catalog_Diagnostics catalog) as [|d ds] eqn:Hclean.
  - destruct (Build_fields catalog Hids Hclean) as (Cs & order & _ & E & _ & Ho).
    rewrite Hr in E. injection E as ->. simpl in *.
    destruct Hproblem as [?|Hp]; [done|]. by rewrite (Ho Hp).
  - unfold Build in Hr. rewrite Hclean in Hr. by injection Hr as <-.
Qed.
End catalog.

(** ** The type index *)

Lemma drop_repeats_sublist prev l : drop_repeats prev l `sublist_of` l.
Proof.
  revert prev. induction l as [|x l IH]; intros prev; simpl; [done|].
  case_decide; [by apply sublist_cons|by apply sublist_skip].
Qed.

Lemma StronglySorted_sublist {A} (R : A → A → Prop) l k :
  l `sublist_of` k → StronglySorted R k → StronglySorted R l.
Proof.
  induction 1 as [|x l k Hsub IH|x l k Hsub IH]; intros Hs; [done| |].
  - inversion Hs as [|?? Hs' Hall]; subst. constructor; [auto|].
    rewrite Forall_forall in *. intros y Hy. apply Hall. by eapply elem_of_sublist.
  - inversion Hs; subst. auto.
Qed.

(** The type index finds exactly the providers a scan with [types.Identical]
    over every provider and interface binding finds, in identity order. *)
Theorem lookup_type_scan `{!GoTypesLaws _} providers required :
  NoDup (SymbolID <$> providers) → known required → Forall known_provider providers →
  lookup_type (buildTypeIndex providers) required providers =
  sort_slice (id_less providers)
    (filter (λ i, provides required (providers !!! i) = true) (seq 0 (length providers))).
Proof.
  intros Hids Hr Hps.
  assert (Hin : ∀ x, x ∈ lookup_type (buildTypeIndex providers) required providers ↔
    x < length providers ∧ provides required (providers !!! x) = true).
  { intros x. split; [by apply lookup_type_sound|].
    intros [? ?]. by apply lookup_type_complete. }
  assert (Hwf : graph_wf (replicate (length providers) []) providers).
  { split; [by rewrite length_replicate|done| |].
    - intros i d Hi. unfold depends_on, deps. rewrite lookup_total_replicate_2 by done.
      by intros ?%elem_of_nil.
    - intros i Hi. unfold deps. rewrite lookup_total_replicate_2 by done. constructor. }
  assert (Hweak : StrictWeak (id_less providers)) by (unfold id_less; apply _).
  apply (sorted_perm_unique (id_less providers)).
  - intros x y Hx Hy. apply Hin in Hx as [Hx _]. apply Hin in Hy as [Hy _].
    by apply (id_less_total_on _ _ Hwf).
  - eapply StronglySorted_sublist; [apply drop_repeats_sublist|]. apply sort_stable_sorted, _.
  - apply sort_stable_sorted, _.
  - unfold sort_slice. rewrite sort_stable_perm. apply NoDup_Permutation.
    + apply sortedUnique_NoDup; [done|]. intros y Hy.
      change (default [] (?m !! ?k)) with (index_at m k) in Hy.
      apply list_elem_of_filter in Hy as [_ Hy]. by apply elem_of_typeIndex in Hy as [? _].
    + apply NoDup_filter, NoDup_seq.
    + intros x. rewrite Hin, list_elem_of_filter, elem_of_seq. intuition lia.
Qed.

(** The index relies on identical types printing alike: when two identical
    types print differently, as [types.TypeString] prints an alias inside a
    signature or a type argument, a scan finds the provider and [lookup]
    does not. *)
Theorem lookup_type_misses_aliases (o p : other_type) (item : Provider) :
  other_identical o p = true → other_id o ≠ other_id p →
  Output item = Some (TOther p) → Interfaces item = [] →
  provides (Some (TOther o)) item = true ∧
  lookup_type (buildTypeIndex [item]) (Some (TOther o)) [item] = [].
Proof.
  intros Hid Hne Hout Hint. split.
  - unfold provides. by rewrite Hout; simpl; rewrite Hid.
  - apply elem_of_nil_inv. intros x Hx.
    unfold lookup_type in Hx. change (default [] (?m !! ?k)) with (index_at m k) in Hx.
    assert (Hids : NoDup (SymbolID <$> [item])) by apply NoDup_singleton.
    rewrite elem_of_sortedUnique in Hx; [|done|].
    + apply list_elem_of_filter in Hx as [_ Hx]. apply elem_of_typeIndex in Hx as [Hx Hk]; [|done].
      simpl in Hx. assert (x = 0) as -> by lia. unfold provider_keys in Hk. simpl in Hk.
      rewrite Hout, Hint in Hk. simpl in Hk. by apply list_elem_of_singleton in Hk.
    + intros y Hy. apply list_elem_of_filter in Hy as [_ Hy].
      by apply elem_of_typeIndex in Hy as [Hy _].
Qed.

(** ** Selection among candidates *)

(** Selection never empties the candidates and never invents one; a
    fallback bean loses to any other candidate, and a unique primary
    candidate that is no fallback is selected alone. *)
Theorem selectedCandidates_ladder providers candidates input :
  (candidates ≠ [] → selectedCandidates candidates input providers ≠ []) ∧
  (∀ x, x ∈ selectedCandidates candidates input providers → x ∈ candidates) ∧
  (∀ x y, x ∈ candidates → Fallback (providers !!! x) = false →
     y ∈ selectedCandidates candidates input providers → Fallback (providers !!! y) = false) ∧
  (∀ p, NoDup candidates → p ∈ candidates → Fallback (providers !!! p) = false →
     Primary (providers !!! p) = true →
     (∀ q, q ∈ candidates → Fallback (providers !!! q) = false →
        Primary (providers !!! q) = true → q = p) →
     selectedCandidates candidates input providers = [p]).
Proof.
  split_and!.
  - apply selected_ne.
  - apply selected_subset.
  - intros x y Hx Hf Hy.
    pose proof (selected_pool _ _ _ _ Hy) as Hy'.
    unfold preferNonFallback in Hy'.
    eapply (prefer_test providers (λ item, negb (Fallback item)) candidates x y) in Hy';
      [by bool_prop|done|]. by rewrite Hf.
  - intros p Hnd Hp Hf Hprim Huniq.
    assert (Hpool : NoDup (preferNonFallback candidates providers) ∧
      p ∈ preferNonFallback candidates providers ∧
      ∀ q, q ∈ preferNonFallback candidates providers →
        q ∈ candidates ∧ Fallback (providers !!! q) = false).
    { unfold preferNonFallback, prefer.
      assert (p ∈ filter (λ i, negb (Fallback (providers !!! i)) = true) candidates) as Hpf
        by (apply list_elem_of_filter; by rewrite Hf).
      case_match eqn:E; [by apply elem_of_nil in Hpf|]. rewrite <-E in *.
      split_and!; [by apply NoDup_filter|done|]. intros q. rewrite list_elem_of_filter.
      intros [? ?]. by bool_prop. }
    destruct Hpool as (Hnd' & Hp' & Hq). unfold selectedCandidates.
    set (pool := preferNonFallback candidates providers) in *.
    assert (Hone : (if 1 <? length pool then selectPrimary pool providers else pool) = [p]).
    { destruct (Nat.ltb_spec 1 (length pool)) as [Hlt|Hge].
      - unfold selectPrimary, prefer.
        assert (filter (λ i, Primary (providers !!! i) = true) pool = [p]) as ->; [|done].
        apply Permutation_singleton_r. symmetry. apply NoDup_Permutation.
        + apply NoDup_singleton.
        + by apply NoDup_filter.
        + intros q. rewrite list_elem_of_singleton, list_elem_of_filter.
          split; [by intros ->|]. intros [??]. destruct (Hq q); auto.
      - destruct pool as [|a [|b l]]; simpl in Hge; [by apply elem_of_nil in Hp'| |lia].
        by apply list_elem_of_singleton in Hp' as ->. }
    rewrite Hone. done.
Qed.
End graph.

#[local] Existing Instance named_types.
#[local] Existing Instance named_types_laws.
#[local] Existing Instance ascii_tables.

Definition named (name : string) : option GoType := Some (TOther (name : other_type)).

Definition bean (id type : string) (inputs : list Dependency) : Provider :=
  mkProvider SourceBean "" id id [] [] false false 0 BeanScopeSingleton
    (mkPosition "app.go" 10 3 1) (mkPosition "app.go" 10 3 1) (named type) inputs [].

Definition needs (i : Z) (kind type : string) : Dependency :=
  mkDependency i "p" (Some (TSlice (TOther (type : other_type)))) type no_position no_position []
    kind (named type) type.

(** [server] needs [Store] and every [Route]; [store] needs [Clock]; nothing
    provides the optional [Cache]. *)
Definition shop : Catalog := mkCatalog
  [bean "server" "Server" [needs 0 DependencySingle "Store"; needs 1 DependencySlice "Route";
                           needs 2 DependencyOptional "Cache"];
   bean "store" "Store" [needs 0 DependencySingle "Clock"];
   bean "routeB" "Route" []; bean "routeA" "Route" []; bean "clock" "Clock" []] [].

(** [a] and [b] need each other, [c] needs itself, [d] misses [Nothing]. *)
Definition tangle : Catalog := mkCatalog
  [bean "b" "B" [needs 0 DependencySingle "A"]; bean "a" "A" [needs 0 DependencySingle "B"];
   bean "c" "C" [needs 0 DependencyLazy "C"]; bean "d" "D" [needs 0 DependencySingle "Nothing"]] [].

Definition result_of (catalog : Catalog) : Result :=
  default (mkResult [] [] [] [] []) (Build catalog).

Ltac decided := apply (bool_decide_unpack _); vm_compute; exact I.

Lemma shop_ids : NoDup (SymbolID <$> Catalog_Providers shop).
Proof. decided. Defined.
Lemma tangle_ids : NoDup (SymbolID <$> Catalog_Providers tangle).
Proof. decided. Defined.
Lemma shop_builds : Build shop = Some (result_of shop).
Proof. vm_compute. reflexivity. Defined.
Lemma tangle_builds : Build tangle = Some (result_of tangle).
Proof. vm_compute. reflexivity. Defined.

Example shop_order : SymbolID <$> ConstructionOrder (result_of shop) =
  ["clock"; "routeA"; "routeB"; "store"; "server"].
Proof. vm_compute. reflexivity. Qed.

Example tangle_diagnostics : diag_Message <$> r_diagnostics (result_of tangle) =
  ["provider dependency cycle: a -> b -> a; component providers: a at app.go:3:1, b at app.go:3:1";
   "provider dependency cycle: c -> c; component providers: c at app.go:3:1";
   "@Bean provider d (d) requires exact type Nothing for parameter 0 " +:+ go_quote "p" +:+ ", but no provider matches the type and requested qualifiers"].
Proof. vm_compute. reflexivity. Qed.

Lemma Build_order_dependency_first_witness :
  r_order (result_of shop) ≡ₚ seq 0 5 ∧
  ∀ before c after, r_order (result_of shop) = before ++ c :: after →
    ∀ d, requires (result_of shop) c d → d ∈ before.
Proof.
  apply (Build_order_dependency_first shop _ shop_ids eq_refl shop_builds).
  vm_compute. reflexivity.
Defined.

Lemma Build_cycle_reported_witness :
  (∃ d, d ∈ r_diagnostics (result_of tangle) ∧ diag_Kind d = "cycle") ↔
  ∃ x, tc (requires (result_of tangle)) x x.
Proof. apply (Build_cycle_reported tangle _ tangle_ids eq_refl tangle_builds). Defined.

Lemma Build_cycle_path_witness : ∃ d x path,
  shows_path tangle d (x :: path ++ [x]) ∧
  diag_ProviderID d = SymbolID (Catalog_Providers tangle !!! x) ∧ NoDup (x :: path) ∧
  (∀ a u v b, x :: path ++ [x] = a ++ u :: v :: b → requires (result_of tangle) u v) ∧
  (∀ y, tc (requires (result_of tangle)) x y → tc (requires (result_of tangle)) y x →
    str_ltb (SymbolID (Catalog_Providers tangle !!! y))
      (SymbolID (Catalog_Providers tangle !!! x)) = false).
Proof.
  exists (default (mkDiagnostic no_position no_position "" "" "")
            (r_diagnostics (result_of tangle) !! 0)).
  apply (Build_cycle_path tangle _ _ tangle_ids eq_refl tangle_builds).
  - apply (list_elem_of_lookup_2 _ 0). vm_compute. reflexivity.
  - vm_compute. reflexivity.
Defined.

Lemma Build_total_witness : ∃ r, Build tangle = Some r.
Proof. apply (Build_total tangle tangle_ids). Defined.

(** [server] asks for an optional [Cache] that nothing provides. *)
Lemma Build_dependencies_accounted_witness :
  let input := needs 2 DependencyOptional "Cache" in
  (∃ e, e ∈ r_edges (result_of shop) ∧ edge_for (Catalog_Providers shop) 0 input e) ∨
  (∃ d, d ∈ r_diagnostics (result_of shop) ∧ diagnostic_for (Catalog_Providers shop) 0 d) ∨
  ((dependencyCandidates (buildTypeIndex (Catalog_Providers shop)) input
      (Catalog_Providers shop)).2 = [] ∧
   (dep_Kind input = DependencyOptional ∨ is_collection (dep_Kind input) = true)).
Proof.
  apply (Build_dependencies_accounted shop _ _ _ shop_ids eq_refl shop_builds).
  - simpl. lia.
  - simpl. do 2 right. left.
Defined.

Lemma Build_edges_justified_witness : ∃ e c input,
  e ∈ r_edges (result_of shop) ∧ c < 5 ∧
  input ∈ Dependencies (Catalog_Providers shop !!! c) ∧ edge_for (Catalog_Providers shop) c input e.
Proof.
  assert (∃ e, e ∈ r_edges (result_of shop)) as [e He].
  { eexists. apply (list_elem_of_lookup_2 _ 0). vm_compute. reflexivity. }
  destruct (Build_edges_justified shop _ e shop_ids eq_refl shop_builds He) as (c & input & ?).
  exists e, c, input. split; [exact He|assumption].
Defined.

Lemma Build_order_canonical_witness :
  r_order (result_of shop) =
  reference_order (sorted_adjacency (Catalog_Providers shop)) (Catalog_Providers shop) 5 [].
Proof.
  apply (Build_order_canonical shop _ shop_ids eq_refl shop_builds). vm_compute. reflexivity.
Defined.

Lemma Build_problems_block_order_witness : ConstructionOrder (result_of tangle) = [].
Proof.
  apply (Build_problems_block_order tangle _ tangle_ids tangle_builds). right.
  vm_compute. discriminate.
Defined.

Lemma lookup_type_scan_witness :
  lookup_type (buildTypeIndex (Catalog_Providers shop)) (named "Route") (Catalog_Providers shop) =
  sort_slice (id_less (Catalog_Providers shop))
    (filter (λ i, provides (named "Route") (Catalog_Providers shop !!! i) = true) (seq 0 5)).
Proof.
  apply (lookup_type_scan (Catalog_Providers shop) (named "Route") shop_ids I).
  repeat constructor; simpl; intros b Hb; inversion Hb.
Defined.

(** Types whose alias spelling stays in the printed name: [o] and [p] are
    identical when they agree up to a leading alias marker. *)
Definition spelled_types : GoTypes := {|
  other_type := string;
  other_identical := λ x y, String.eqb (trim_prefix x "alias:") (trim_prefix y "alias:");
  other_id := λ name, name;
|}.

Lemma lookup_type_misses_aliases_witness :
  let item := @mkProvider spelled_types SourceBean "" "make" "make" [] [] false false 0
    BeanScopeSingleton no_position no_position (Some (@TOther spelled_types "func(string)")) [] [] in
  provides (H := spelled_types) (Some (@TOther spelled_types "alias:func(string)")) item = true ∧
  lookup_type (H := spelled_types) (buildTypeIndex (H := spelled_types) [item])
    (Some (@TOther spelled_types "alias:func(string)")) [item] = [].
Proof.
  apply (lookup_type_misses_aliases (H := spelled_types) "alias:func(string)" "func(string)").
  - vm_compute. reflexivity.
  - discriminate.
  - reflexivity.
  - reflexivity.
Defined.
