(* ===== verification/Debounce.v ===== *)
(** The debouncer of the development loop (src/internal/devloop/debounce.go)
    with the file events and batches of src/internal/devloop/types.go.

    Times and durations are nanoseconds in [Z]; the zero [time.Time] is 0. *)
From S2P Require Import Prelude GoSort GoStrings.

(** ** types.go *)

(** type ChangeKind *)
Definition ChangeKind : Type := string.
Definition ChangeInitial : ChangeKind := "initial".
Definition ChangeCreate : ChangeKind := "create".
Definition ChangeWrite : ChangeKind := "write".
Definition ChangeRemove : ChangeKind := "remove".
Definition ChangeRename : ChangeKind := "rename".

(** [func (kind ChangeKind) Valid() bool] *)
Definition Valid (kind : ChangeKind) : bool :=
  bool_decide (kind ∈ [ChangeInitial; ChangeCreate; ChangeWrite; ChangeRemove; ChangeRename]).

Record FileEvent := mkFileEvent { fe_Path : string; fe_Kind : ChangeKind }.

#[export] Instance FileEvent_eq_dec : EqDecision FileEvent.
Proof. solve_decision. Defined.

Section debounce.
Context `{UnicodeTables}.

Definition NewFileEvent (path : string) (kind : ChangeKind) : outcome error FileEvent :=
  if decide (path = "") then Fail (ErrNew "development file event path must not be empty")
  else if negb (Valid kind) then
    Fail (ErrNew ("unsupported development file event kind " +:+ go_quote kind))
  else Ok (mkFileEvent path kind).

(** type Batch *)
Record Batch := mkBatch { batch_revision : Z; batch_changes : list FileEvent }.

Definition newBatch (revision : Z) (changes : list FileEvent) : Batch := mkBatch revision changes.

(** ** debounce.go *)

Record Debouncer := mkDebouncer {
  quietPeriod : Z;
  maxDelay : Z;
  first_time : Z;
  last_time : Z;
  pending : gmap string FileEvent;
}.

Definition NewDebouncer (quiet maximum : Z) : outcome error Debouncer :=
  if (quiet <=? 0)%Z then Fail (ErrNew "development quiet period must be positive")
  else if (maximum <? quiet)%Z then
    Fail (ErrNew "development maximum delay must not be shorter than the quiet period")
  else Ok (mkDebouncer quiet maximum 0 0 ∅).

Definition mergeChange (previous next : ChangeKind) : ChangeKind :=
  if bool_decide (previous = ChangeRemove) && bool_decide (next = ChangeCreate) then ChangeWrite
  else if bool_decide (previous = ChangeCreate) && bool_decide (next = ChangeWrite) then ChangeCreate
  else if bool_decide (next = ChangeRemove) then ChangeRemove
  else next.

(** [func (debouncer *Debouncer) Pending() bool] *)
Definition Pending (d : Debouncer) : bool := negb (bool_decide (pending d = ∅)).

Definition Add (now : Z) (event : FileEvent) (d : Debouncer) : outcome error Debouncer :=
  _ ← NewFileEvent (fe_Path event) (fe_Kind event);
  let first := if Pending d then first_time d else now in
  let kind := match pending d !! fe_Path event with
              | Some previous => mergeChange (fe_Kind previous) (fe_Kind event)
              | None => fe_Kind event
              end in
  Ok (mkDebouncer (quietPeriod d) (maxDelay d) first now
        (<[fe_Path event := mkFileEvent (fe_Path event) kind]> (pending d))).

Definition Deadline (d : Debouncer) : option Z :=
  if Pending d then
    let quietDeadline := (last_time d + quietPeriod d)%Z in
    let maximumDeadline := (first_time d + maxDelay d)%Z in
    Some (if (maximumDeadline <? quietDeadline)%Z then maximumDeadline else quietDeadline)
  else None.

(** The keys of the map, in whatever order the range loop yields them. *)
Definition pending_paths (d : Debouncer) : list string := (map_to_list (pending d)).*1.

Definition Take (now revision : Z) (d : Debouncer) : option Batch * Debouncer :=
  match Deadline d with
  | None => (None, d)
  | Some deadline =>
      if (now <? deadline)%Z then (None, d)
      else
        let changes := (λ path, default (mkFileEvent "" "") (pending d !! path)) <$>
                         sort_strings (pending_paths d) in
        (Some (newBatch revision changes),
         mkDebouncer (quietPeriod d) (maxDelay d) 0 0 ∅)
  end.

(** ** A burst *)

(** Events added one after the other. *)
Fixpoint add_burst (burst : list (Z * FileEvent)) (d : Debouncer) : outcome error Debouncer :=
  match burst with
  | [] => Ok d
  | (now, event) :: rest => d' ← Add now event d; add_burst rest d'
  end.

(** What a burst says about one path: the fold of [mergeChange] over its
    events, in order. *)
Definition merge_step (path : string) (acc : option ChangeKind) (event : FileEvent)
    : option ChangeKind :=
  if decide (fe_Path event = path)
  then Some (from_option (λ previous, mergeChange previous (fe_Kind event)) (fe_Kind event) acc)
  else acc.

Definition merged_kind (path : string) (events : list FileEvent) : option ChangeKind :=
  foldl (merge_step path) None events.

Definition event_ok (event : FileEvent) : Prop := fe_Path event ≠ "" ∧ Valid (fe_Kind event) = true.

Lemma NewFileEvent_ok path kind e : NewFileEvent path kind = Ok e →
  path ≠ "" ∧ Valid kind = true ∧ e = mkFileEvent path kind.
Proof. unfold NewFileEvent. repeat case_decide; [done|]. case_match; [done|]. bool_prop. naive_solver. Qed.

Lemma NewFileEvent_valid e : event_ok e → NewFileEvent (fe_Path e) (fe_Kind e) = Ok e.
Proof.
  intros [Hp Hk]. unfold NewFileEvent. rewrite decide_False by done. rewrite Hk. by destruct e.
Qed.

(** The pending map after a burst, path by path. *)
Lemma add_burst_pending burst d d' : add_burst burst d = Ok d' →
  (∀ path e, pending d !! path = Some e → fe_Path e = path) →
  (∀ path e, pending d' !! path = Some e → fe_Path e = path) ∧
  ∀ path, fe_Kind <$> pending d' !! path =
    foldl (merge_step path) (fe_Kind <$> pending d !! path) burst.*2.
Proof.
  revert d. induction burst as [|[now e] burst IH]; intros d; simpl.
  { intros [= ->] ?. done. }
  intros Hb Hd. apply outcome_bind_ok in Hb as (d1 & Ha & Hb). unfold Add in Ha.
  apply outcome_bind_ok in Ha as (e' & _ & [= <-]).
  destruct (IH _ Hb) as [Hpath Hfold].
  { simpl. intros path e0. destruct (decide (fe_Path e = path)) as [<-|Hne].
    - rewrite lookup_insert_eq. by intros [= <-].
    - rewrite lookup_insert_ne by done. apply Hd. }
  split; [done|]. intros path. rewrite Hfold. simpl. f_equal. unfold merge_step.
  destruct (decide (fe_Path e = path)) as [<-|Hne].
  - rewrite lookup_insert_eq. simpl. by destruct (pending d !! fe_Path e).
  - by rewrite lookup_insert_ne.
Qed.

Lemma add_burst_config burst d d' : add_burst burst d = Ok d' →
  quietPeriod d' = quietPeriod d ∧ maxDelay d' = maxDelay d.
Proof.
  revert d. induction burst as [|[now e] burst IH]; intros d; simpl; [by intros [= ->]|].
  intros Hb. apply outcome_bind_ok in Hb as (d1 & Ha & Hb). unfold Add in Ha.
  apply outcome_bind_ok in Ha as (e' & _ & [= <-]). by apply IH in Hb.
Qed.

Lemma Pending_true d : Pending d = true ↔ pending d ≠ ∅.
Proof. unfold Pending. rewrite negb_true_iff, bool_decide_eq_false. done. Qed.

Lemma Pending_empty q m f l : Pending (mkDebouncer q m f l ∅) = false.
Proof. unfold Pending. by rewrite bool_decide_eq_true_2. Qed.

Lemma add_burst_first burst d d' : add_burst burst d = Ok d' → Pending d = true →
  Pending d' = true ∧ first_time d' = first_time d.
Proof.
  revert d. induction burst as [|[now e] burst IH]; intros d; simpl; [by intros [= ->]|].
  intros Hb Hp. apply outcome_bind_ok in Hb as (d1 & Ha & Hb). unfold Add in Ha.
  apply outcome_bind_ok in Ha as (e' & _ & [= <-]). apply IH in Hb.
  - simpl in Hb. by rewrite Hp in Hb.
  - apply Pending_true. simpl. apply insert_non_empty.
Qed.

Lemma add_burst_total burst d : Forall event_ok burst.*2 → ∃ d', add_burst burst d = Ok d'.
Proof.
  revert d. induction burst as [|[now e] burst IH]; intros d Hok; simpl; [by eexists|].
  inversion Hok as [|?? He Hrest]; subst. simpl in He. unfold Add.
  rewrite NewFileEvent_valid by done. simpl. by apply IH.
Qed.

Lemma add_burst_last burst now e d d' :
  add_burst (burst ++ [(now, e)]) d = Ok d' → Pending d' = true ∧ last_time d' = now.
Proof.
  revert d. induction burst as [|[t x] burst IH]; intros d; simpl; intros Hb;
    apply outcome_bind_ok in Hb as (d1 & Ha & Hb).
  - injection Hb as ->. unfold Add in Ha. apply outcome_bind_ok in Ha as (e' & _ & [= <-]).
    split; [|done]. apply Pending_true. simpl. apply insert_non_empty.
  - by apply IH in Hb.
Qed.

Lemma add_burst_head now e rest d d' : Pending d = false →
  add_burst ((now, e) :: rest) d = Ok d' → Pending d' = true ∧ first_time d' = now.
Proof.
  intros Hp Hb. simpl in Hb. apply outcome_bind_ok in Hb as (d1 & Ha & Hb).
  unfold Add in Ha. apply outcome_bind_ok in Ha as (e' & _ & [= <-]). rewrite Hp in Hb.
  apply add_burst_first in Hb as [? E]; [done|]. apply Pending_true. simpl. apply insert_non_empty.
Qed.

Lemma NewDebouncer_ok q m d : NewDebouncer q m = Ok d →
  (0 < q)%Z ∧ (q ≤ m)%Z ∧ d = mkDebouncer q m 0 0 ∅.
Proof.
  unfold NewDebouncer. repeat case_match; try done. bool_prop. intros [= <-]. split_and!; lia || done.
Qed.

(** ** The theorems *)

(** The deadline of a burst is its quiet period after the last event, and
    never more than the maximum delay after the first: events that keep
    coming cannot postpone the rebuild for ever. *)
Theorem burst_deadline q m d0 burst d t0 e0 tn en :
  NewDebouncer q m = Ok d0 → add_burst burst d0 = Ok d →
  head burst = Some (t0, e0) → last burst = Some (tn, en) →
  Deadline d = Some (Z.min (tn + q) (t0 + m)) ∧
  ∀ now revision, is_Some (Take now revision d).1 ↔ (Z.min (tn + q) (t0 + m) ≤ now)%Z.
Proof.
  intros Hnew Hb (rest & Hhead)%head_Some (front & Hlast)%last_Some.
  apply NewDebouncer_ok in Hnew as (Hq & Hm & ->).
  destruct (add_burst_config _ _ _ Hb) as [Eq Em].
  pose proof Hb as Hb'. rewrite Hhead in Hb.
  destruct (add_burst_head _ _ _ _ _ (Pending_empty _ _ _ _) Hb) as [Hp Hfirst].
  rewrite Hlast in Hb'. apply add_burst_last in Hb' as [_ El].
  assert (Hd : Deadline d = Some (Z.min (tn + q) (t0 + m))).
  { unfold Deadline. rewrite Hp, Hfirst, El, Eq, Em. simpl. f_equal.
    destruct (Z.ltb_spec (t0 + m) (tn + q)); lia. }
  split; [done|]. intros now revision. unfold Take. rewrite Hd.
  destruct (Z.ltb_spec now (Z.min (tn + q) (t0 + m))); simpl.
  - split; [intros [? ?]; done|lia].
  - split; [done|by eexists].
Qed.

Lemma elem_of_pending_paths d path : path ∈ pending_paths d ↔ is_Some (pending d !! path).
Proof.
  unfold pending_paths. rewrite list_elem_of_fmap. split.
  - intros ([k e] & -> & Hin). apply elem_of_map_to_list in Hin. by eexists.
  - intros [e He]. exists (path, e). by rewrite elem_of_map_to_list.
Qed.

(** An accepted burst is a batch with one change per path, in increasing path
    order whatever the map iteration order, each carrying the merge of the
    path's events in arrival order; nothing stays pending. *)
Theorem burst_batch q m d0 burst d now revision :
  NewDebouncer q m = Ok d0 → add_burst burst d0 = Ok d →
  (∃ deadline, Deadline d = Some deadline ∧ (deadline ≤ now)%Z) →
  ∃ changes d', Take now revision d = (Some (mkBatch revision changes), d') ∧
    Pending d' = false ∧
    StronglySorted (λ a b, str_ltb (fe_Path a) (fe_Path b) = true) changes ∧
    ∀ path kind, mkFileEvent path kind ∈ changes ↔ merged_kind path burst.*2 = Some kind.
Proof.
  intros Hnew Hb (deadline & Hd & Hnow). apply NewDebouncer_ok in Hnew as (_ & _ & ->).
  destruct (add_burst_pending _ _ _ Hb) as [Hpath Hfold]; [by intros ???|].
  unfold Take. rewrite Hd. destruct (Z.ltb_spec now deadline); [lia|].
  eexists _, _. split; [done|]. split; [done|].
  assert (Hp : ∀ p, p ∈ sort_strings (pending_paths d) ↔ is_Some (pending d !! p)).
  { intros p. rewrite elem_of_sort_strings. apply elem_of_pending_paths. }
  set (f := λ path, default (mkFileEvent "" "") (pending d !! path)).
  assert (Hf : ∀ p, p ∈ sort_strings (pending_paths d) →
    pending d !! p = Some (f p) ∧ fe_Path (f p) = p).
  { intros p [e He]%Hp. unfold f. rewrite He. simpl. eauto. }
  split.
  - eapply StronglySorted_fmap_in; [|apply sort_strings_strict, NoDup_fst_map_to_list].
    simpl. intros x y Hx Hy. destruct (Hf x Hx) as [_ ->], (Hf y Hy) as [_ ->]. done.
  - intros path kind. unfold merged_kind. pose proof (Hfold path) as Hk.
    simpl in Hk. rewrite lookup_empty in Hk. simpl in Hk. rewrite <-Hk.
    rewrite list_elem_of_fmap, fmap_Some. split.
    + intros (p & E & Hin). destruct (Hf p Hin) as [Hpe Hpp]. rewrite <-E in *. simpl in *.
      subst p. eauto.
    + intros (e & He & ->). exists path. rewrite Hp. split; [|by eexists].
      destruct (Hf path) as [Hpe Hpp]; [by apply Hp; eexists|].
      rewrite He in Hpe. injection Hpe as ->. rewrite <-Hpp at 1. by destruct (f path).
Qed.

(** Whether the path exists after a history of creations, writes and removals,
    when each is possible. *)
Definition play (present : bool) (kind : ChangeKind) : option bool :=
  if decide (kind = ChangeCreate) then (if present then None else Some true)
  else if decide (kind = ChangeWrite) then (if present then Some true else None)
  else if decide (kind = ChangeRemove) then (if present then Some false else None)
  else None.

Fixpoint plays (present : bool) (kinds : list ChangeKind) : option bool :=
  match kinds with
  | [] => Some present
  | kind :: rest => present' ← play present kind; plays present' rest
  end.

(** What the merge says of a history. *)
Definition merge_sound (before after : bool) (kind : ChangeKind) : Prop :=
  if after then (if before then kind = ChangeWrite else kind = ChangeWrite ∨ kind = ChangeCreate)
  else kind = ChangeRemove.

Lemma play_merge before now next k kind :
  merge_sound before now k → play now kind = Some next →
  merge_sound before next (mergeChange k kind).
Proof.
  unfold merge_sound, play, mergeChange, ChangeWrite, ChangeCreate, ChangeRemove.
  intros Hk Hp. repeat case_decide; destruct now, before; simplify_eq/=;
    naive_solver.
Qed.

Lemma play_first before next kind :
  play before kind = Some next → merge_sound before next kind.
Proof.
  unfold merge_sound, play. intros Hp. repeat case_decide; destruct before; simplify_eq/=; auto.
Qed.

(** Over a possible history of one file the merged change tells the net
    effect: it is a removal exactly when the file is gone at the end, and a
    write whenever the file existed before and exists after. *)
Theorem merged_kind_history path events before after kind :
  Forall (λ e, fe_Path e = path) events →
  plays before (fe_Kind <$> events) = Some after → merged_kind path events = Some kind →
  (kind = ChangeRemove ↔ after = false) ∧
  (before = true → after = true → kind = ChangeWrite).
Proof.
  intros Hpath Hplay Hmerged.
  assert (Hs : merge_sound before after kind).
  { destruct events as [|e events]; [done|]. inversion Hpath as [|?? He Hes]; subst.
    simpl in Hplay, Hmerged. unfold merged_kind in Hmerged. simpl in Hmerged.
    unfold merge_step at 2 in Hmerged. rewrite decide_True in Hmerged by done. simpl in Hmerged.
    destruct (play before (fe_Kind e)) as [now|] eqn:Ep; simpl in Hplay; [|done].
    apply play_first in Ep. generalize dependent (fe_Kind e). intros k Hmerged Hk.
    generalize dependent now. generalize dependent k. clear Hpath.
    induction Hes as [|e' events He' Hes IH]; intros k Hmerged now Hplay Hk; simpl in *.
    { by simplify_eq. }
    destruct (play now (fe_Kind e')) as [next|] eqn:Ep; simpl in Hplay; [|done].
    unfold merge_step at 2 in Hmerged. rewrite decide_True in Hmerged by done. simpl in Hmerged.
    by eapply (IH _ Hmerged next), play_merge. }
  unfold merge_sound in Hs. destruct after, before; naive_solver.
Qed.
End debounce.
