(* ===== verification/Engine.v ===== *)
(** The development-loop engine (src/internal/devloop/engine.go): its event loop
    and the goroutines that prepare and replace application candidates, as a
    step function on explicit states.

    One [action] is one case of the loop's [select], or one return of a call a
    goroutine makes: [Pipeline.Prepare], [Process.Stop], [Launcher.Start].  The
    results of those calls, the clock and the scheduling are the arguments of
    the actions; [step] refuses an action that is not enabled.  A context is
    the set of tokens that are done; candidates and processes are numbers.
    [Process.Stop] returns only after the process has exited, as the interface
    documents; candidates and processes are new ones each time, [Prepare]
    returns no candidate with an error, and [Start] returns a process or an
    error. *)
From S2P Require Import Prelude GoSort GoStrings Debounce.

(** ** types.go *)

(** type EventKind *)
Definition EventChangeDetected : string := "change_detected".
Definition EventAnalysisStarted : string := "analysis_started".
Definition EventCandidateReady : string := "candidate_ready".
Definition EventPreparationFailed : string := "preparation_failed".
Definition EventLastKnownGood : string := "last_known_good".
Definition EventCandidateDiscarded : string := "candidate_discarded".
Definition EventRestartRequested : string := "restart_requested".
Definition EventApplicationStarted : string := "application_started".
Definition EventApplicationExited : string := "application_exited".
Definition EventWatchError : string := "watch_error".
Definition EventCleanupFailed : string := "cleanup_failed".
Definition EventShutdownTimedOut : string := "shutdown_timed_out".

(** type Event; the engine leaves Duration and Reused at their zero values. *)
Record Event := mkEvent {
  ev_Kind : string;
  ev_Revision : Z;
  ev_Paths : list string;
  ev_Err : option error;
  ev_Stale : bool;
}.

Definition ErrGracefulStopTimeout : string := "development graceful stop timed out".
Definition ErrWatcherClosed : error := ErrSentinel "development file watcher closed".

(** uint64 arithmetic *)
Definition wrap64 (z : Z) : Z := (z `mod` 2 ^ 64)%Z.

(** ** Configuration *)

Record Config := mkConfig { QuietPeriod : Z; MaxDelay : Z; StopTimeout : Z }.

Definition defaultQuietPeriod : Z := 150 * 1000000.
Definition defaultMaxDelay : Z := 2 * 1000000000.
Definition defaultStopTimeout : Z := 15 * 1000000000.

Definition withDefaults (config : Config) : Config :=
  mkConfig
    (if decide (QuietPeriod config = 0%Z) then defaultQuietPeriod else QuietPeriod config)
    (if decide (MaxDelay config = 0%Z) then defaultMaxDelay else MaxDelay config)
    (if decide (StopTimeout config = 0%Z) then defaultStopTimeout else StopTimeout config).

(** [NewEngine]; the flags say which collaborators are not nil. *)
Definition NewEngine (config : Config) (watcher pipeline launcher : bool) : outcome error Config :=
  let config := withDefaults config in
  _ ← guard_or (negb (QuietPeriod config <=? 0)%Z)
        (ErrNew "development quiet period must be positive");
  _ ← guard_or (negb (MaxDelay config <? QuietPeriod config)%Z)
        (ErrNew "development maximum delay must not be shorter than the quiet period");
  _ ← guard_or (negb (StopTimeout config <=? 0)%Z)
        (ErrNew "development stop timeout must be positive");
  _ ← guard_or watcher (ErrNew "development watcher must not be nil");
  _ ← guard_or pipeline (ErrNew "development pipeline must not be nil");
  _ ← guard_or launcher (ErrNew "development launcher must not be nil");
  Ok config.

(** ** State *)

(** type preparationResult *)
Record preparationResult := mkPreparation {
  pr_revision : Z;
  pr_candidate : option nat;
  pr_err : option error;
}.

(** type replacementResult *)
Record replacementResult := mkReplacement {
  rr_revision : Z;
  rr_previousRevision : Z;
  rr_candidate : option nat;
  rr_process : option nat;
  rr_previousStopped : bool;
  rr_err : option error;
  rr_warning : option error;
}.

(** A goroutine in [prepare]: waiting for the pipeline, or sending. *)
Record prepWorker := mkPrepWorker {
  pw_batch : Batch;
  pw_result : option preparationResult;
}.

(** Where a goroutine in [replace] is: before stopping the previous process,
    before [Start], before stopping a process started too late, sending. *)
Inductive replacePoint := AtStop | AtStart | AtUndo | AtSend.

Record replaceWorker := mkReplaceWorker {
  rw_token : nat;
  rw_previous : option nat;
  rw_point : replacePoint;
  rw_result : replacementResult;
}.

(** type engineState.  The channels are the worker lists of [world]. *)
Record engineState := mkEngineState {
  debouncer : Debouncer;
  cancels : gset Z;   (* the revisions with a live cancel function *)
  replaceStop : option nat;   (* the token of the replacement context *)
  revision : Z;
  debounceTimer : bool;   (* a timer was created *)
  debounceC : option Z;   (* armed, with its delay *)
  active : option nat;   (* the process *)
  activeCandidate : option nat;
  activeRevision : Z;
  activeWait : option nat;   (* the process whose exit is awaited *)
}.

Definition set_debouncer (v : Debouncer) (r : engineState) : engineState :=
  mkEngineState v (cancels r) (replaceStop r) (revision r) (debounceTimer r) (debounceC r) (active r) (activeCandidate r) (activeRevision r) (activeWait r).
Definition set_cancels (v : gset Z) (r : engineState) : engineState :=
  mkEngineState (debouncer r) v (replaceStop r) (revision r) (debounceTimer r) (debounceC r) (active r) (activeCandidate r) (activeRevision r) (activeWait r).
Definition set_replaceStop (v : option nat) (r : engineState) : engineState :=
  mkEngineState (debouncer r) (cancels r) v (revision r) (debounceTimer r) (debounceC r) (active r) (activeCandidate r) (activeRevision r) (activeWait r).
Definition set_revision (v : Z) (r : engineState) : engineState :=
  mkEngineState (debouncer r) (cancels r) (replaceStop r) v (debounceTimer r) (debounceC r) (active r) (activeCandidate r) (activeRevision r) (activeWait r).
Definition set_debounceTimer (v : bool) (r : engineState) : engineState :=
  mkEngineState (debouncer r) (cancels r) (replaceStop r) (revision r) v (debounceC r) (active r) (activeCandidate r) (activeRevision r) (activeWait r).
Definition set_debounceC (v : option Z) (r : engineState) : engineState :=
  mkEngineState (debouncer r) (cancels r) (replaceStop r) (revision r) (debounceTimer r) v (active r) (activeCandidate r) (activeRevision r) (activeWait r).
Definition set_active (v : option nat) (r : engineState) : engineState :=
  mkEngineState (debouncer r) (cancels r) (replaceStop r) (revision r) (debounceTimer r) (debounceC r) v (activeCandidate r) (activeRevision r) (activeWait r).
Definition set_activeCandidate (v : option nat) (r : engineState) : engineState :=
  mkEngineState (debouncer r) (cancels r) (replaceStop r) (revision r) (debounceTimer r) (debounceC r) (active r) v (activeRevision r) (activeWait r).
Definition set_activeRevision (v : Z) (r : engineState) : engineState :=
  mkEngineState (debouncer r) (cancels r) (replaceStop r) (revision r) (debounceTimer r) (debounceC r) (active r) (activeCandidate r) v (activeWait r).
Definition set_activeWait (v : option nat) (r : engineState) : engineState :=
  mkEngineState (debouncer r) (cancels r) (replaceStop r) (revision r) (debounceTimer r) (debounceC r) (active r) (activeCandidate r) (activeRevision r) v.

(** The engine with the goroutines it started and what they own. *)
Record world := mkWorld {
  engine : engineState;
  emitted : list Event;   (* what the sink received *)
  canceledPreps : gset Z;   (* preparations whose context is done *)
  canceledTokens : gset nat;   (* replacement contexts that are done *)
  nextToken : nat;
  preps : list prepWorker;   (* goroutines in prepare *)
  repls : list replaceWorker;   (* goroutines in replace *)
  produced : gset nat;   (* candidates Prepare returned *)
  disposed : gset nat;   (* candidates released *)
  started : gset nat;   (* processes Start returned *)
  exited : gset nat;   (* processes that exited *)
  runDone : bool;   (* runCtx is done *)
  returned : option (option error);   (* what Run returned *)
}.

Definition set_engine (v : engineState) (r : world) : world :=
  mkWorld v (emitted r) (canceledPreps r) (canceledTokens r) (nextToken r) (preps r) (repls r) (produced r) (disposed r) (started r) (exited r) (runDone r) (returned r).
Definition set_emitted (v : list Event) (r : world) : world :=
  mkWorld (engine r) v (canceledPreps r) (canceledTokens r) (nextToken r) (preps r) (repls r) (produced r) (disposed r) (started r) (exited r) (runDone r) (returned r).
Definition set_canceledPreps (v : gset Z) (r : world) : world :=
  mkWorld (engine r) (emitted r) v (canceledTokens r) (nextToken r) (preps r) (repls r) (produced r) (disposed r) (started r) (exited r) (runDone r) (returned r).
Definition set_canceledTokens (v : gset nat) (r : world) : world :=
  mkWorld (engine r) (emitted r) (canceledPreps r) v (nextToken r) (preps r) (repls r) (produced r) (disposed r) (started r) (exited r) (runDone r) (returned r).
Definition set_nextToken (v : nat) (r : world) : world :=
  mkWorld (engine r) (emitted r) (canceledPreps r) (canceledTokens r) v (preps r) (repls r) (produced r) (disposed r) (started r) (exited r) (runDone r) (returned r).
Definition set_preps (v : list prepWorker) (r : world) : world :=
  mkWorld (engine r) (emitted r) (canceledPreps r) (canceledTokens r) (nextToken r) v (repls r) (produced r) (disposed r) (started r) (exited r) (runDone r) (returned r).
Definition set_repls (v : list replaceWorker) (r : world) : world :=
  mkWorld (engine r) (emitted r) (canceledPreps r) (canceledTokens r) (nextToken r) (preps r) v (produced r) (disposed r) (started r) (exited r) (runDone r) (returned r).
Definition set_produced (v : gset nat) (r : world) : world :=
  mkWorld (engine r) (emitted r) (canceledPreps r) (canceledTokens r) (nextToken r) (preps r) (repls r) v (disposed r) (started r) (exited r) (runDone r) (returned r).
Definition set_disposed (v : gset nat) (r : world) : world :=
  mkWorld (engine r) (emitted r) (canceledPreps r) (canceledTokens r) (nextToken r) (preps r) (repls r) (produced r) v (started r) (exited r) (runDone r) (returned r).
Definition set_started (v : gset nat) (r : world) : world :=
  mkWorld (engine r) (emitted r) (canceledPreps r) (canceledTokens r) (nextToken r) (preps r) (repls r) (produced r) (disposed r) v (exited r) (runDone r) (returned r).
Definition set_exited (v : gset nat) (r : world) : world :=
  mkWorld (engine r) (emitted r) (canceledPreps r) (canceledTokens r) (nextToken r) (preps r) (repls r) (produced r) (disposed r) (started r) v (runDone r) (returned r).
Definition set_runDone (v : bool) (r : world) : world :=
  mkWorld (engine r) (emitted r) (canceledPreps r) (canceledTokens r) (nextToken r) (preps r) (repls r) (produced r) (disposed r) (started r) (exited r) v (returned r).
Definition set_returned (v : option (option error)) (r : world) : world :=
  mkWorld (engine r) (emitted r) (canceledPreps r) (canceledTokens r) (nextToken r) (preps r) (repls r) (produced r) (disposed r) (started r) (exited r) (runDone r) v.

Definition upd (f : engineState → engineState) (w : world) : world := set_engine (f (engine w)) w.

Section engine.
Context `{UnicodeTables}.

(** What the cleanup function of a candidate returns. *)
Context (dispose_error : nat → option error).

Definition emit (e : Event) (w : world) : world := set_emitted (emitted w ++ [e]) w.

Definition is_active (w : world) : bool := bool_decide (is_Some (active (engine w))).

(** [func (candidate Candidate) Dispose() error]: once, then the same answer;
    the zero candidate has nothing to release. *)
Definition Dispose (candidate : option nat) (w : world) : option error * world :=
  match candidate with
  | None => (None, w)
  | Some c => (dispose_error c, set_disposed ({[c]} ∪ disposed w) w)
  end.

Definition mark_exited (process : option nat) (w : world) : world :=
  match process with
  | None => w
  | Some p => set_exited ({[p]} ∪ exited w) w
  end.

(** ** Handlers of the loop *)

Definition resetDebounceTimer (now : Z) (w : world) : world :=
  match Deadline (debouncer (engine w)) with
  | None => upd (set_debounceC None) w
  | Some deadline =>
      upd (λ es, set_debounceC (Some (Z.max 0 (deadline - now))) (set_debounceTimer true es)) w
  end.

Definition cancelPreparations (w : world) : world :=
  upd (set_cancels ∅) (set_canceledPreps (cancels (engine w) ∪ canceledPreps w) w).

(** [if state.replaceStop != nil { state.replaceStop() }] *)
Definition stopReplacement (w : world) : world :=
  match replaceStop (engine w) with
  | None => w
  | Some token => set_canceledTokens ({[token]} ∪ canceledTokens w) w
  end.

(** The two readings of the clock are [now] and [now']. *)
Definition acceptFileEvent (now now' : Z) (event : FileEvent) (w : world) : world :=
  match Add now event (debouncer (engine w)) with
  | Fail err => emit (mkEvent EventWatchError 0 [] (Some err) false) w
  | Ok d =>
      let w := upd (set_debouncer d) w in
      let w := cancelPreparations w in
      let w := stopReplacement w in
      let w := resetDebounceTimer now' w in
      emit (mkEvent EventChangeDetected 0 [fe_Path event] None (is_active w)) w
  end.

Definition startPreparation (changes : list FileEvent) (w : world) : world :=
  let r := wrap64 (revision (engine w) + 1) in
  let w := upd (set_revision r) w in
  let batch := newBatch r changes in
  let paths := sort_strings (fe_Path <$> changes) in
  let w := emit (mkEvent EventAnalysisStarted r paths None (is_active w)) w in
  let w := upd (λ es, set_cancels ({[r]} ∪ cancels es) es) w in
  let w := set_canceledPreps (canceledPreps w ∖ {[r]}) w in
  set_preps (preps w ++ [mkPrepWorker batch None]) w.

Definition acceptPending (now now' : Z) (w : world) : world :=
  let '(batch, d) := Take now (wrap64 (revision (engine w) + 1)) (debouncer (engine w)) in
  match batch with
  | None => resetDebounceTimer now' w
  | Some batch =>
      let w := upd (set_debouncer d) w in
      let w := upd (set_debounceC None) w in
      startPreparation (batch_changes batch) w
  end.

Definition startReplacement (result : preparationResult) (w : world) : world :=
  let w := stopReplacement w in
  let token := nextToken w in
  let w := set_nextToken (S token) w in
  let w := upd (set_replaceStop (Some token)) w in
  let previous := active (engine w) in
  let previousRevision := activeRevision (engine w) in
  let w := match previous with
           | None => w
           | Some _ => emit (mkEvent EventRestartRequested (pr_revision result) [] None true) w
           end in
  set_repls (repls w ++
    [mkReplaceWorker token previous AtStop
       (mkReplacement (pr_revision result) previousRevision (pr_candidate result)
          None false None None)]) w.

Definition finishPreparation (result : preparationResult) (w : world) : world :=
  let w := if decide (pr_revision result ∈ cancels (engine w))
           then upd (λ es, set_cancels (cancels es ∖ {[pr_revision result]}) es)
                  (set_canceledPreps ({[pr_revision result]} ∪ canceledPreps w) w)
           else w in
  if bool_decide (pr_revision result ≠ revision (engine w)) || Pending (debouncer (engine w))
  then
    let '(disposeErr, w) := Dispose (pr_candidate result) w in
    emit (mkEvent EventCandidateDiscarded (pr_revision result) []
            (errors_join (pr_err result) disposeErr) (is_active w)) w
  else match pr_err result with
       | Some err =>
           if is_canceled (Some err) then w
           else
             let w := emit (mkEvent EventPreparationFailed (pr_revision result) [] (Some err)
                              (is_active w)) w in
             if is_active w
             then emit (mkEvent EventLastKnownGood (activeRevision (engine w)) [] (Some err) true) w
             else w
       | None =>
           let w := emit (mkEvent EventCandidateReady (pr_revision result) [] None
                            (is_active w)) w in
           startReplacement result w
       end.

Definition emitCleanupFailure (r : Z) (err : option error) (w : world) : world :=
  match err with
  | None => w
  | Some _ => emit (mkEvent EventCleanupFailed r [] err (is_active w)) w
  end.

(** The four assignments that forget the active process. *)
Definition clearActive (w : world) : world :=
  upd (λ es, set_activeWait None (set_activeRevision 0 (set_activeCandidate None
         (set_active None es)))) w.

(** [stopErr] is what stopping the result's process returns. *)
Definition discardReplacement (stopErr : option error) (result : replacementResult) (w : world)
    : world :=
  let '(err, w) := match rr_process result with
                   | None => (rr_err result, w)
                   | Some p => (errors_join (rr_err result) stopErr, mark_exited (Some p) w)
                   end in
  let '(disposeErr, w) := Dispose (rr_candidate result) w in
  emit (mkEvent EventCandidateDiscarded (rr_revision result) [] (errors_join err disposeErr)
          (is_active w)) w.

Definition finishReplacement (stopErr : option error) (result : replacementResult) (w : world)
    : world :=
  let w := upd (set_replaceStop None) (stopReplacement w) in
  let w := if rr_previousStopped result &&
              bool_decide (activeRevision (engine w) = rr_previousRevision result)
           then
             let '(disposeErr, w) := Dispose (activeCandidate (engine w)) w in
             clearActive (emitCleanupFailure (activeRevision (engine w)) disposeErr w)
           else w in
  let w := match rr_warning result with
           | None => w
           | Some _ => emit (mkEvent EventShutdownTimedOut (rr_previousRevision result) []
                               (rr_warning result) true) w
           end in
  if bool_decide (rr_revision result ≠ revision (engine w)) || Pending (debouncer (engine w))
  then discardReplacement stopErr result w
  else match rr_err result with
       | Some err =>
           let w := discardReplacement stopErr result w in
           if is_canceled (Some err) then w
           else emit (mkEvent EventPreparationFailed (rr_revision result) []
                        (Some (ErrWrap "replace application: " err)) (is_active w)) w
       | None =>
           let w := upd (λ es, set_activeWait (rr_process result)
                           (set_activeRevision (rr_revision result)
                              (set_activeCandidate (rr_candidate result)
                                 (set_active (rr_process result) es)))) w in
           emit (mkEvent EventApplicationStarted (rr_revision result) [] None false) w
       end.

Definition finishApplication (err : option error) (w : world) : world :=
  let r := activeRevision (engine w) in
  let '(disposeErr, w) := Dispose (activeCandidate (engine w)) w in
  let w := clearActive w in
  emit (mkEvent EventApplicationExited r [] (errors_join err disposeErr) false) w.

(** ** The end of [Run] *)

Definition cancelWork (w : world) : world :=
  let w := cancelPreparations w in
  upd (set_replaceStop None) (stopReplacement w).

Definition stopActive (stopErr : option error) (w : world) : option error * world :=
  match active (engine w) with
  | None => Dispose (activeCandidate (engine w)) w
  | Some p =>
      let w := mark_exited (Some p) w in
      let '(disposeErr, w) := Dispose (activeCandidate (engine w)) w in
      (errors_join stopErr disposeErr, clearActive w)
  end.

Definition stopDebounceTimer (w : world) : world :=
  if debounceTimer (engine w)
  then upd (λ es, set_debounceC None (set_debounceTimer false es)) w
  else w.

(** What follows [state.loop]: [runErr] is its result. *)
Definition finishRun (runErr stopErr closeErr : option error) (w : world) : world :=
  let w := set_runDone true w in
  let w := cancelWork w in
  let '(stopErr, w) := stopActive stopErr w in
  let w := stopDebounceTimer w in
  let runErr := if is_canceled runErr then None else runErr in
  set_returned (Some (errors_join (errors_join runErr stopErr) closeErr)) w.

(** ** The goroutine in [replace] *)

(** [ctx.Err()] of the replacement context. *)
Definition replaceErr (token : nat) (w : world) : option error :=
  if runDone w || bool_decide (token ∈ canceledTokens w) then Some Canceled else None.

(** Up to the call of [Start]: stop the previous process, if any. *)
Definition replaceStopPrevious (stopErr : option error) (rw : replaceWorker) (w : world)
    : replaceWorker * world :=
  let result := rw_result rw in
  let '(result, w) :=
    match rw_previous rw with
    | None => (result, w)
    | Some p =>
        let timedOut := errors_is stopErr ErrGracefulStopTimeout in
        (mkReplacement (rr_revision result) (rr_previousRevision result) (rr_candidate result)
           (rr_process result) true (if timedOut then None else stopErr)
           (if timedOut then stopErr else None),
         mark_exited (Some p) w)
    end in
  let err := match rr_err result with
             | Some err => Some err
             | None => replaceErr (rw_token rw) w
             end in
  (mkReplaceWorker (rw_token rw) (rw_previous rw)
     (match err with None => AtStart | Some _ => AtSend end)
     (mkReplacement (rr_revision result) (rr_previousRevision result) (rr_candidate result)
        (rr_process result) (rr_previousStopped result) err (rr_warning result)), w).

(** [Start] returned, and the check that follows it. *)
Definition replaceStarted (process : option nat) (err : option error) (rw : replaceWorker)
    (w : world) : replaceWorker :=
  let result := rw_result rw in
  let late := bool_decide (is_Some process) && bool_decide (is_Some (replaceErr (rw_token rw) w)) in
  mkReplaceWorker (rw_token rw) (rw_previous rw) (if late then AtUndo else AtSend)
    (mkReplacement (rr_revision result) (rr_previousRevision result) (rr_candidate result)
       process (rr_previousStopped result) err (rr_warning result)).

(** The process started after the cancellation is stopped.  A context that is
    done stays done, so the [ctx.Err()] joined here is the one just tested. *)
Definition replaceUndo (stopErr : option error) (rw : replaceWorker) (w : world)
    : replaceWorker * world :=
  let result := rw_result rw in
  (mkReplaceWorker (rw_token rw) (rw_previous rw) AtSend
     (mkReplacement (rr_revision result) (rr_previousRevision result) (rr_candidate result)
        None (rr_previousStopped result)
        (errors_join (Some Canceled) stopErr) (rr_warning result)),
   mark_exited (rr_process result) w).

(** [case <-ctx.Done()]: nobody receives the result. *)
Definition replaceAbandon (rw : replaceWorker) (w : world) : world :=
  (Dispose (rr_candidate (rw_result rw)) (mark_exited (rr_process (rw_result rw)) w)).2.

(** ** Actions *)

Inductive action :=
  | FileChanged (now now' : Z) (event : FileEvent)
  | WatchFailed (err : error)
  | TimerFired (now now' : Z)
  | PrepareReturned (i : nat) (candidate : option nat) (err : option error)
  | PreparationReceived (i : nat)
  | PreparationAbandoned (i : nat)
  | PreviousStopped (i : nat) (stopErr : option error)
  | StartReturned (i : nat) (process : option nat) (err : option error)
  | StartUndone (i : nat) (stopErr : option error)
  | ReplacementReceived (i : nat) (stopErr : option error)
  | ReplacementAbandoned (i : nat)
  | ProcessExited (p : nat)
  | ExitReceived (err : option error)
  | LoopEnded (runErr stopErr closeErr : option error).

Definition fresh_for (x : option nat) (known : gset nat) : bool :=
  match x with None => true | Some c => bool_decide (c ∉ known) end.

Definition add_opt (x : option nat) (known : gset nat) : gset nat :=
  match x with None => known | Some c => {[c]} ∪ known end.

(** The loop is in its [select]. *)
Definition looping (w : world) : bool := bool_decide (returned w = None).

Definition when (b : bool) (w : world) : option world := if b then Some w else None.

Definition at_point (point : replacePoint) (rw : replaceWorker) : bool :=
  match point, rw_point rw with
  | AtStop, AtStop | AtStart, AtStart | AtUndo, AtUndo | AtSend, AtSend => true
  | _, _ => false
  end.

Definition step (a : action) (w : world) : option world :=
  match a with
  | FileChanged now now' event => when (looping w) (acceptFileEvent now now' event w)
  | WatchFailed err =>
      when (looping w) (emit (mkEvent EventWatchError 0 [] (Some err) false) w)
  | TimerFired now now' =>
      when (looping w && bool_decide (is_Some (debounceC (engine w)))) (acceptPending now now' w)
  | PrepareReturned i candidate err =>
      pw ← preps w !! i;
      when (bool_decide (pw_result pw = None) && fresh_for candidate (produced w) &&
            (bool_decide (candidate = None) || bool_decide (err = None)))
        (set_produced (add_opt candidate (produced w))
           (set_preps (<[i := mkPrepWorker (pw_batch pw)
              (Some (mkPreparation (batch_revision (pw_batch pw)) candidate err))]> (preps w)) w))
  | PreparationReceived i =>
      pw ← preps w !! i;
      result ← pw_result pw;
      when (looping w) (finishPreparation result (set_preps (delete i (preps w)) w))
  | PreparationAbandoned i =>
      pw ← preps w !! i;
      result ← pw_result pw;
      when (runDone w) (Dispose (pr_candidate result) (set_preps (delete i (preps w)) w)).2
  | PreviousStopped i stopErr =>
      rw ← repls w !! i;
      let '(rw', w') := replaceStopPrevious stopErr rw w in
      when (at_point AtStop rw) (set_repls (<[i := rw']> (repls w')) w')
  | StartReturned i process err =>
      rw ← repls w !! i;
      when (at_point AtStart rw && fresh_for process (started w) &&
            (bool_decide (is_Some process) || bool_decide (is_Some err)))
        (set_started (add_opt process (started w))
           (set_repls (<[i := replaceStarted process err rw w]> (repls w)) w))
  | StartUndone i stopErr =>
      rw ← repls w !! i;
      let '(rw', w') := replaceUndo stopErr rw w in
      when (at_point AtUndo rw) (set_repls (<[i := rw']> (repls w')) w')
  | ReplacementReceived i stopErr =>
      rw ← repls w !! i;
      when (looping w && at_point AtSend rw)
        (finishReplacement stopErr (rw_result rw) (set_repls (delete i (repls w)) w))
  | ReplacementAbandoned i =>
      rw ← repls w !! i;
      when (at_point AtSend rw && bool_decide (is_Some (replaceErr (rw_token rw) w)))
        (replaceAbandon rw (set_repls (delete i (repls w)) w))
  | ProcessExited p => when (bool_decide (p ∈ started w)) (mark_exited (Some p) w)
  | ExitReceived err =>
      p ← activeWait (engine w);
      when (looping w && bool_decide (p ∈ exited w)) (finishApplication err w)
  | LoopEnded runErr stopErr closeErr =>
      when (looping w && bool_decide (is_Some runErr)) (finishRun runErr stopErr closeErr w)
  end.

Fixpoint run (trace : list action) (w : world) : option world :=
  match trace with
  | [] => Some w
  | a :: rest => w' ← step a w; run rest w'
  end.

(** [Run] up to its loop: the initial preparation is under way. *)
Definition initial (d : Debouncer) : world :=
  startPreparation [mkFileEvent "." ChangeInitial]
    (mkWorld (mkEngineState d ∅ None 0 false None None None 0 None) [] ∅ ∅ 0 [] [] ∅ ∅ ∅ ∅
       false None).

Definition reachable (d : Debouncer) (n : nat) (w : world) : Prop :=
  ∃ trace, length trace = n ∧ run trace (initial d) = Some w.
End engine.
