(* ===== verification/EngineInvariant.v ===== *)
(** Invariants of the development-loop engine: revisions, the active process and
    the ownership of candidates and processes, preserved by every action.

    They are stated over the [core] of a state, the part that the event log, the
    debouncer, the timer and the contexts do not belong to.  A result between
    its goroutine and the state it ends in is [in hand]: candidates [h] and
    processes [hp] that no worker lists. *)
From S2P Require Import Prelude GoSort GoStrings Debounce Engine.

Record core := mkCore {
  c_revision : Z;
  c_active : option nat;
  c_candidate : option nat;
  c_activeRevision : Z;
  c_wait : option nat;
  c_preps : list prepWorker;
  c_repls : list replaceWorker;
  c_produced : gset nat;
  c_disposed : gset nat;
  c_started : gset nat;
  c_exited : gset nat;
  c_returned : bool;
}.

Definition core_of (w : world) : core :=
  let es := engine w in
  mkCore (revision es) (active es) (activeCandidate es) (activeRevision es) (activeWait es)
    (preps w) (repls w) (produced w) (disposed w) (started w) (exited w)
    (bool_decide (is_Some (returned w))).

(** ** Operations on the core *)

Definition c_dispose (c : option nat) (k : core) : core :=
  mkCore (c_revision k) (c_active k) (c_candidate k) (c_activeRevision k) (c_wait k) (c_preps k)
    (c_repls k) (c_produced k) (add_opt c (c_disposed k)) (c_started k) (c_exited k) (c_returned k).

Definition c_exit (p : option nat) (k : core) : core :=
  mkCore (c_revision k) (c_active k) (c_candidate k) (c_activeRevision k) (c_wait k) (c_preps k)
    (c_repls k) (c_produced k) (c_disposed k) (c_started k) (add_opt p (c_exited k)) (c_returned k).

Definition c_set_active (p c : option nat) (r : Z) (k : core) : core :=
  mkCore (c_revision k) p c r p (c_preps k)
    (c_repls k) (c_produced k) (c_disposed k) (c_started k) (c_exited k) (c_returned k).

Definition c_set_preps (ps : list prepWorker) (k : core) : core :=
  mkCore (c_revision k) (c_active k) (c_candidate k) (c_activeRevision k) (c_wait k) ps
    (c_repls k) (c_produced k) (c_disposed k) (c_started k) (c_exited k) (c_returned k).

Definition c_set_repls (rs : list replaceWorker) (k : core) : core :=
  mkCore (c_revision k) (c_active k) (c_candidate k) (c_activeRevision k) (c_wait k) (c_preps k)
    rs (c_produced k) (c_disposed k) (c_started k) (c_exited k) (c_returned k).

Definition c_set_revision (r : Z) (k : core) : core :=
  mkCore r (c_active k) (c_candidate k) (c_activeRevision k) (c_wait k) (c_preps k)
    (c_repls k) (c_produced k) (c_disposed k) (c_started k) (c_exited k) (c_returned k).

Definition c_produce (c : option nat) (k : core) : core :=
  mkCore (c_revision k) (c_active k) (c_candidate k) (c_activeRevision k) (c_wait k) (c_preps k)
    (c_repls k) (add_opt c (c_produced k)) (c_disposed k) (c_started k) (c_exited k) (c_returned k).

Definition c_start (p : option nat) (k : core) : core :=
  mkCore (c_revision k) (c_active k) (c_candidate k) (c_activeRevision k) (c_wait k) (c_preps k)
    (c_repls k) (c_produced k) (c_disposed k) (add_opt p (c_started k)) (c_exited k) (c_returned k).

Definition c_return (k : core) : core :=
  mkCore (c_revision k) (c_active k) (c_candidate k) (c_activeRevision k) (c_wait k) (c_preps k)
    (c_repls k) (c_produced k) (c_disposed k) (c_started k) (c_exited k) true.

(** ** The invariants *)

Definition prep_rev (pw : prepWorker) : Z := batch_revision (pw_batch pw).
Definition rw_rev (rw : replaceWorker) : Z := rr_revision (rw_result rw).
Definition revs (k : core) : list Z := (prep_rev <$> c_preps k) ++ (rw_rev <$> c_repls k).

Definition pw_candidate (pw : prepWorker) : option nat := pw_result pw ≫= pr_candidate.
Definition rw_candidate (rw : replaceWorker) : option nat := rr_candidate (rw_result rw).
Definition rw_process (rw : replaceWorker) : option nat := rr_process (rw_result rw).

Definition owned (k : core) : list nat :=
  omap pw_candidate (c_preps k) ++ omap rw_candidate (c_repls k) ++ option_list (c_candidate k).

(** What a result of [replace] may be, relative to the state. *)
Record result_ok (k : core) (previous : option nat) (result : replacementResult) : Prop := {
  ro_bound : (1 ≤ rr_revision result ≤ c_revision k)%Z;
  ro_none : previous = None → rr_previousStopped result = false;
  ro_zero : previous = None → rr_previousRevision result = 0%Z;
  ro_some p : previous = Some p → (1 ≤ rr_previousRevision result < rr_revision result)%Z;
  ro_stopped p : rr_previousStopped result = true → previous = Some p → p ∈ c_exited k;
  ro_current : rr_revision result = c_revision k →
    c_active k = None ∨ c_active k = previous ∧ c_activeRevision k = rr_previousRevision result;
  ro_same : c_active k ≠ None → c_activeRevision k = rr_previousRevision result →
    c_active k = previous;
}.

(** What the point a goroutine has reached says about its result. *)
Definition point_ok (rw : replaceWorker) : Prop :=
  let result := rw_result rw in
  match rw_point rw with
  | AtStop => rr_previousStopped result = false ∧ rr_process result = None ∧ rr_err result = None
  | AtStart => (is_Some (rw_previous rw) → rr_previousStopped result = true) ∧
      rr_process result = None ∧ rr_err result = None
  | AtUndo => (is_Some (rw_previous rw) → rr_previousStopped result = true) ∧
      is_Some (rr_process result)
  | AtSend => (is_Some (rw_previous rw) → rr_previousStopped result = true) ∧
      (rr_err result = None → is_Some (rr_process result))
  end.

Definition prep_ok (pw : prepWorker) : Prop := ∀ result, pw_result pw = Some result →
  pr_revision result = prep_rev pw ∧ (is_Some (pr_err result) → pr_candidate result = None).

Record rev_inv (k : core) : Prop := {
  ri_nodup : NoDup (revs k);
  ri_bound r : r ∈ revs k → (1 ≤ r ≤ c_revision k)%Z;
  ri_revision : (0 ≤ c_revision k)%Z;
  ri_wait : c_wait k = c_active k;
  ri_inactive : c_active k = None → c_candidate k = None ∧ c_activeRevision k = 0%Z;
  ri_active : c_active k ≠ None →
    (1 ≤ c_activeRevision k ≤ c_revision k)%Z ∧ c_activeRevision k ∉ revs k;
  ri_repls rw : rw ∈ c_repls k → result_ok k (rw_previous rw) (rw_result rw) ∧ point_ok rw;
  ri_preps pw : pw ∈ c_preps k → prep_ok pw;
  ri_returned : c_returned k = true → c_active k = None;
}.

Record own_inv (h : list nat) (k : core) : Prop := {
  oi_nodup : NoDup (h ++ owned k);
  oi_live c : c ∈ h ++ owned k → c ∉ c_disposed k;
  oi_produced c : c ∈ c_produced k ↔ c ∈ h ++ owned k ∨ c ∈ c_disposed k;
}.

Definition held (hp : list nat) (k : core) (p : nat) : Prop :=
  p ∈ hp ∨ c_active k = Some p ∨ ∃ rw, rw ∈ c_repls k ∧ rw_process rw = Some p.

Record proc_inv (hp : list nat) (k : core) : Prop := {
  pi_running p : p ∈ c_started k → p ∈ c_exited k ∨ held hp k p;
  pi_held p : held hp k p → p ∈ c_started k;
}.

(** ** Handlers on the core *)

Section core_lemmas.
Context `{UnicodeTables} (dispose_error : nat → option error).

Lemma core_emit e w : core_of (emit e w) = core_of w.
Proof. done. Qed.
Lemma core_reset now w : core_of (resetDebounceTimer now w) = core_of w.
Proof. unfold resetDebounceTimer. by case_match. Qed.
Lemma core_cancelPreparations w : core_of (cancelPreparations w) = core_of w.
Proof. done. Qed.
Lemma core_stopReplacement w : core_of (stopReplacement w) = core_of w.
Proof. unfold stopReplacement. by case_match. Qed.
Lemma core_cleanupFailure r err w : core_of (emitCleanupFailure r err w) = core_of w.
Proof. unfold emitCleanupFailure. by case_match. Qed.
Lemma core_Dispose c w : core_of (Dispose dispose_error c w).2 = c_dispose c (core_of w).
Proof. destruct c; [done|]. by destruct w as [[]]. Qed.
Lemma core_mark_exited p w : core_of (mark_exited p w) = c_exit p (core_of w).
Proof. destruct p; [done|]. by destruct w as [[]]. Qed.
Lemma core_clearActive w : core_of (clearActive w) = c_set_active None None 0 (core_of w).
Proof. done. Qed.

Lemma core_acceptFileEvent now now' e w : core_of (acceptFileEvent now now' e w) = core_of w.
Proof.
  unfold acceptFileEvent. case_match; [|done].
  by rewrite core_emit, core_reset, core_stopReplacement.
Qed.

Lemma core_startPreparation changes w :
  core_of (startPreparation changes w) =
  let r := wrap64 (c_revision (core_of w) + 1) in
  c_set_preps (c_preps (core_of w) ++ [mkPrepWorker (newBatch r changes) None])
    (c_set_revision r (core_of w)).
Proof. done. Qed.

Lemma core_acceptPending now now' w : core_of (acceptPending now now' w) = core_of w ∨
  ∃ changes, core_of (acceptPending now now' w) = core_of (startPreparation changes w).
Proof.
  unfold acceptPending. destruct (Take _ _ _) as [[batch|] d].
  - right. by exists (batch_changes batch).
  - left. apply core_reset.
Qed.

Definition replacement_for (result : preparationResult) (k : core) (token : nat) : replaceWorker :=
  mkReplaceWorker token (c_active k) AtStop
    (mkReplacement (pr_revision result) (c_activeRevision k) (pr_candidate result)
       None false None None).

Lemma core_finishPreparation result w :
  let k := core_of w in
  let k' := core_of (finishPreparation dispose_error result w) in
  k' = c_dispose (pr_candidate result) k ∨
  (k' = k ∧ is_Some (pr_err result)) ∨
  (pr_revision result = c_revision k ∧
   ∃ token, k' = c_set_repls (c_repls k ++ [replacement_for result k token]) k).
Proof.
  intros k k'. unfold k', finishPreparation. set (w1 := if decide _ then _ else w).
  assert (Hk : core_of w1 = k) by (unfold w1; by case_decide). clearbody w1.
  destruct (bool_decide _ || _) eqn:Hstale.
  - left. pose proof (core_Dispose (pr_candidate result) w1) as Hd.
    destruct (Dispose _ _ w1) as [e w2]. simpl in Hd. by rewrite core_emit, Hd, Hk.
  - apply orb_false_iff in Hstale as [Hrev _]. apply bool_decide_eq_false in Hrev.
    apply dec_stable in Hrev.
    destruct (pr_err result) as [err|] eqn:Ee.
    + right. left. split; [|done]. repeat case_match; by rewrite ?core_emit.
    + right. right. split; [rewrite Hrev; by rewrite <-Hk|]. exists (nextToken w1).
      unfold startReplacement. rewrite <-Hk.
      set (w2 := emit _ w1). assert (Hk2 : core_of w2 = core_of w1) by done.
      assert (Ht : nextToken w2 = nextToken w1) by done. clearbody w2.
      rewrite <-Hk2, <-Ht. unfold stopReplacement.
      destruct w2 as [[? ? [] ? ? ? [] ? ? ?] ? ? ? ? ? ? ? ? ? ? ? ?]; done.
Qed.

Definition after_stop (result : replacementResult) (k : core) : core :=
  if rr_previousStopped result &&
     bool_decide (c_activeRevision k = rr_previousRevision result)
  then c_set_active None None 0 (c_dispose (c_candidate k) k) else k.

Lemma core_discardReplacement stopErr result w :
  core_of (discardReplacement dispose_error stopErr result w) =
  c_dispose (rr_candidate result) (c_exit (rr_process result) (core_of w)).
Proof.
  unfold discardReplacement. destruct (rr_process result) as [p|].
  - pose proof (core_Dispose (rr_candidate result) (mark_exited (Some p) w)) as Hd.
    destruct (Dispose _ _ _) as [e w2]. simpl in Hd. by rewrite core_emit, Hd.
  - pose proof (core_Dispose (rr_candidate result) w) as Hd.
    destruct (Dispose _ _ _) as [e w2]. simpl in Hd. rewrite core_emit, Hd. by destruct w as [[]].
Qed.

Lemma core_finishReplacement stopErr result w :
  let k := after_stop result (core_of w) in
  let k' := core_of (finishReplacement dispose_error stopErr result w) in
  k' = c_dispose (rr_candidate result) (c_exit (rr_process result) k) ∨
  (rr_revision result = c_revision k ∧ rr_err result = None ∧
   k' = c_set_active (rr_process result) (rr_candidate result) (rr_revision result) k) ∧
   Pending (debouncer (engine (finishReplacement dispose_error stopErr result w))) = false.
Proof.
  intros k k'. unfold k', finishReplacement.
  set (w1 := upd (set_replaceStop None) (stopReplacement w)).
  assert (H1 : core_of w1 = core_of w).
  { transitivity (core_of (stopReplacement w)); [done|apply core_stopReplacement]. }
  assert (Har : activeRevision (engine w1) = c_activeRevision (core_of w)) by by rewrite <-H1.
  assert (Hac : activeCandidate (engine w1) = c_candidate (core_of w)) by by rewrite <-H1.
  clearbody w1. rewrite Har, Hac.
  set (w2 := if rr_previousStopped result && _ then _ else w1).
  assert (H2 : core_of w2 = k).
  { unfold w2, k, after_stop. destruct (rr_previousStopped result && _) eqn:E; [|done].
    pose proof (core_Dispose (c_candidate (core_of w)) w1) as Hd.
    destruct (Dispose _ _ w1) as [e w']. simpl in Hd.
    by rewrite core_clearActive, core_cleanupFailure, Hd, H1. }
  clearbody w2. set (w3 := match rr_warning result with None => w2 | Some _ => _ end).
  assert (H3 : core_of w3 = k) by (unfold w3; by case_match). clearbody w3.
  destruct (bool_decide _ || _) eqn:Hstale.
  { left. by rewrite core_discardReplacement, H3. }
  apply orb_false_iff in Hstale as [Hrev Hpend]. apply bool_decide_eq_false, dec_stable in Hrev.
  destruct (rr_err result) as [err|] eqn:Ee.
  - left. case_match; by rewrite ?core_emit, core_discardReplacement, H3.
  - right. split; [|exact Hpend]. split; [|split; [done|]].
    + rewrite Hrev. by rewrite <-H3.
    + rewrite core_emit, <-H3. done.
Qed.

Lemma core_finishApplication err w :
  core_of (finishApplication dispose_error err w) =
  c_set_active None None 0 (c_dispose (c_candidate (core_of w)) (core_of w)).
Proof.
  unfold finishApplication. pose proof (core_Dispose (activeCandidate (engine w)) w) as Hd.
  destruct (Dispose _ _ w) as [e w']. simpl in Hd. by rewrite core_emit, core_clearActive, Hd.
Qed.

Lemma core_finishRun runErr stopErr closeErr w :
  let k := core_of w in
  core_of (finishRun dispose_error runErr stopErr closeErr w) =
  c_return (match c_active k with
            | None => c_dispose (c_candidate k) k
            | Some p => c_set_active None None 0 (c_dispose (c_candidate k) (c_exit (Some p) k))
            end).
Proof.
  intros k. unfold finishRun. set (w1 := cancelWork (set_runDone true w)).
  assert (H1 : core_of w1 = k).
  { unfold w1, cancelWork. transitivity (core_of (stopReplacement (cancelPreparations
      (set_runDone true w)))); [done|]. by rewrite core_stopReplacement. }
  clearbody w1. unfold stopActive.
  assert (Ha : active (engine w1) = c_active k) by by rewrite <-H1.
  assert (Hac : activeCandidate (engine w1) = c_candidate k) by by rewrite <-H1. rewrite Ha.
  assert (Hend : ∀ v w', core_of (set_returned (Some v) (stopDebounceTimer w')) =
    c_return (core_of w')).
  { intros v w'. unfold stopDebounceTimer. by case_match. }
  destruct (c_active k) as [p|].
  - change (activeCandidate (engine (mark_exited (Some p) w1)))
      with (activeCandidate (engine w1)). rewrite Hac.
    pose proof (core_Dispose (c_candidate k) (mark_exited (Some p) w1)) as Hd.
    destruct (Dispose _ _ _) as [e w']. cbn [snd] in Hd.
    rewrite Hend, core_clearActive, Hd. by rewrite core_mark_exited, H1.
  - rewrite Hac. pose proof (core_Dispose (c_candidate k) w1) as Hd.
    destruct (Dispose _ _ _) as [e w']. simpl in Hd. by rewrite Hend, Hd, H1.
Qed.
End core_lemmas.
