(* ===== verification/EngineSafety.v ===== *)
(** Every action of the development-loop engine preserves the invariants of
    EngineInvariant. *)
From S2P Require Import Prelude GoSort GoStrings Debounce Engine EngineInvariant.

Record Inv (h hp : list nat) (k : core) : Prop := {
  inv_rev : rev_inv k;
  inv_own : own_inv h k;
  inv_proc : proc_inv hp k;
}.

(** ** Generic steps *)

Lemma result_ok_eq k k' previous result :
  c_revision k' = c_revision k → c_active k' = c_active k →
  c_activeRevision k' = c_activeRevision k → c_exited k ⊆ c_exited k' →
  result_ok k previous result → result_ok k' previous result.
Proof.
  intros E1 E2 E3 Hsub [H1 H2 H3 H4 H5 H6 H7].
  split; rewrite ?E1, ?E2, ?E3; eauto.
Qed.

(** The order of the goroutines does not matter. *)
Lemma Inv_perm h hp k ps rs :
  c_preps k ≡ₚ ps → c_repls k ≡ₚ rs → Inv h hp k → Inv h hp (c_set_preps ps (c_set_repls rs k)).
Proof.
  intros Hp Hr [[R1 R2 R3 R4 R5 R6 R7 R8 R9] [O1 O2 O3] [P1 P2]].
  set (k' := c_set_preps ps (c_set_repls rs k)).
  assert (Hrevs : revs k ≡ₚ revs k') by (unfold revs; simpl; by rewrite Hp, Hr).
  assert (Hown : owned k ≡ₚ owned k') by (unfold owned; simpl; by rewrite Hp, Hr).
  assert (Hheld : ∀ p, held hp k p ↔ held hp k' p).
  { intros p. unfold held. simpl. by setoid_rewrite Hr. }
  split; split; simpl.
  - by rewrite <-Hrevs.
  - intros r. rewrite <-Hrevs. apply R2.
  - done.
  - done.
  - done.
  - rewrite <-Hrevs. done.
  - intros rw. rewrite <-Hr. intros Hin. destruct (R7 rw Hin) as [Hok ?]. split; [|done].
    by apply (result_ok_eq k).
  - intros pw. rewrite <-Hp. apply R8.
  - done.
  - by rewrite <-Hown.
  - intros c. rewrite <-Hown. apply O2.
  - intros c. rewrite <-Hown. apply O3.
  - intros p Hs. rewrite <-Hheld. by apply P1.
  - intros p. rewrite <-Hheld. apply P2.
Qed.

Lemma add_opt_subset x known : known ⊆ add_opt x known.
Proof. destruct x; simpl; set_solver. Qed.

Lemma rev_inv_eq k k' :
  c_preps k' = c_preps k → c_repls k' = c_repls k →
  c_revision k' = c_revision k → c_active k' = c_active k → c_candidate k' = c_candidate k →
  c_activeRevision k' = c_activeRevision k → c_wait k' = c_wait k →
  c_exited k ⊆ c_exited k' → c_returned k' = c_returned k → rev_inv k → rev_inv k'.
Proof.
  intros Ep Er E1 E2 E3 E4 E5 Hsub E6 [R1 R2 R3 R4 R5 R6 R7 R8 R9].
  assert (Hrevs : revs k' = revs k) by (unfold revs; by rewrite Ep, Er).
  split; rewrite ?Hrevs, ?Ep, ?Er, ?E1, ?E2, ?E3, ?E4, ?E5, ?E6; try done.
  intros rw Hin. destruct (R7 rw Hin) as [Hok ?]. split; [|done]. by apply (result_ok_eq k).
Qed.

Lemma own_inv_eq h h' k k' : h ++ owned k ≡ₚ h' ++ owned k' →
  c_produced k' = c_produced k → c_disposed k' = c_disposed k → own_inv h k → own_inv h' k'.
Proof.
  intros Hp E1 E2 [O1 O2 O3]. split.
  - by rewrite <-Hp.
  - intros c. rewrite <-Hp, E2. apply O2.
  - intros c. rewrite <-Hp, E1, E2. apply O3.
Qed.

(** A candidate in hand is released. *)
Lemma own_dispose c h k : own_inv (option_list c ++ h) k → own_inv h (c_dispose c k).
Proof.
  destruct c as [c|]; simpl.
  - intros [O1 O2 O3]. apply NoDup_cons in O1 as [Hc O1].
    split; simpl; change (owned (c_dispose (Some c) k)) with (owned k).
    + done.
    + intros x Hx. assert (x ∉ c_disposed k) by (apply O2; by right). set_solver.
    + intros x. rewrite O3. set_solver.
  - by apply own_inv_eq.
Qed.

Lemma Inv_dispose c h hp k : Inv (option_list c ++ h) hp k → Inv h hp (c_dispose c k).
Proof.
  intros [R O P]. split; [by eapply rev_inv_eq; [..|exact R]|by apply own_dispose|].
  destruct P as [P1 P2]. by split.
Qed.

(** A process exits: nothing has to hold it any longer. *)
Lemma Inv_exit p h hp k : Inv h (option_list p ++ hp) k → Inv h hp (c_exit p k).
Proof.
  intros [R O [P1 P2]]. split.
  - eapply rev_inv_eq; [..|exact R]; try done. apply add_opt_subset.
  - by eapply own_inv_eq; [..|exact O].
  - split; simpl.
    + intros x Hx. destruct (P1 x Hx) as [Hex|[Hin|Hin]].
      * left. by apply add_opt_subset.
      * apply elem_of_app in Hin as [Hin|Hin]; [left|by right; left].
        destruct p; simpl in *; [set_solver|by apply elem_of_nil in Hin].
      * right. by right.
    + intros x Hx. apply P2. destruct Hx as [Hin|Hin]; [left|by right].
      apply elem_of_app. by right.
Qed.

Lemma Inv_exit_any p h hp k : Inv h hp k → Inv h hp (c_exit p k).
Proof.
  intros [R O [P1 P2]]. split.
  - eapply rev_inv_eq; [..|exact R]; try done. apply add_opt_subset.
  - by eapply own_inv_eq; [..|exact O].
  - split; simpl; [|apply P2].
    intros x Hx. destruct (P1 x Hx) as [Hex|Hin]; [left; by apply add_opt_subset|by right].
Qed.

(** ** Preparation goroutines *)

Lemma take_prep k pw ps : Inv [] [] (c_set_preps (pw :: ps) k) →
  Inv (option_list (pw_candidate pw)) [] (c_set_preps ps k) ∧ prep_ok pw ∧
  (1 ≤ prep_rev pw ≤ c_revision k)%Z ∧ prep_rev pw ∉ revs (c_set_preps ps k) ∧
  (c_active k ≠ None → c_activeRevision k ≠ prep_rev pw).
Proof.
  intros [[R1 R2 R3 R4 R5 R6 R7 R8 R9] O P].
  unfold revs in *. simpl in *. apply NoDup_cons in R1 as [Rn R1].
  assert (Hb : (1 ≤ prep_rev pw ≤ c_revision k)%Z) by (apply R2; left).
  assert (Hok : prep_ok pw) by (apply R8; left).
  assert (Ha : c_active k ≠ None → c_activeRevision k ≠ prep_rev pw).
  { intros Ha E. destruct (R6 Ha) as [_ Hn]. apply Hn. rewrite E. left. }
  split; [|split; [done|split; [done|split; [done|done]]]]. split.
  - split; simpl; try done.
    + intros r Hr. apply R2. by right.
    + intros Hact. destruct (R6 Hact) as [? Hn]. split; [done|]. intros Hin. apply Hn. by right.
    + intros rw Hin. destruct (R7 rw Hin) as [Hok' ?]. split; [|done]. by eapply result_ok_eq, Hok'.
    + intros pw' Hin. apply R8. by right.
  - eapply own_inv_eq; [..|exact O]; try done.
    unfold owned. cbn [c_set_preps c_set_repls c_preps c_repls c_candidate].
    rewrite omap_cons_option. simpl. by rewrite <-app_assoc.
  - destruct P as [P1 P2]. by split.
Qed.

Lemma own_produce c h k : own_inv h k → fresh_for c (c_produced k) = true →
  own_inv (option_list c ++ h) (c_produce c k).
Proof.
  destruct c as [c|]; simpl; [|intros O _; by eapply own_inv_eq; [..|exact O]].
  intros [O1 O2 O3] Hf. bool_prop. split; simpl; change (owned (c_produce (Some c) k)) with (owned k).
  - constructor; [|done]. intros Hin. apply Hf, O3. by left.
  - intros x [->|Hx]%elem_of_cons; [|by apply O2]. intros Hd. apply Hf, O3. by right.
  - intros x. rewrite elem_of_union, elem_of_singleton, O3, elem_of_cons. tauto.
Qed.

Lemma prepare_returned k pw ps c err :
  Inv [] [] (c_set_preps (pw :: ps) k) → pw_result pw = None →
  fresh_for c (c_produced k) = true → (is_Some err → c = None) →
  Inv [] [] (c_set_preps (mkPrepWorker (pw_batch pw)
    (Some (mkPreparation (prep_rev pw) c err)) :: ps) (c_produce c k)).
Proof.
  intros [[R1 R2 R3 R4 R5 R6 R7 R8 R9] O [P1 P2]] Hres Hfresh Herr. split.
  - split; simpl; try done.
    + intros rw Hin. destruct (R7 rw Hin) as [Hok ?]. split; [|done]. by eapply result_ok_eq, Hok.
    + intros pw' [->|Hin]%elem_of_cons; [|apply R8; by right].
      intros r [= <-]. done.
  - eapply own_inv_eq; [..|apply (own_produce c); [exact O|exact Hfresh]]; try done.
    unfold owned, pw_candidate. simpl. rewrite Hres. by destruct c.
  - by split.
Qed.

Lemma start_preparation k changes :
  Inv [] [] k → (c_revision k + 1 < 2 ^ 64)%Z → c_returned k = false →
  let r := wrap64 (c_revision k + 1) in
  Inv [] [] (c_set_preps (mkPrepWorker (newBatch r changes) None :: c_preps k)
               (c_set_revision r k)).
Proof.
  intros [[R1 R2 R3 R4 R5 R6 R7 R8 R9] O P] Hlt Hret. simpl.
  assert (wrap64 (c_revision k + 1) = (c_revision k + 1)%Z) as ->.
  { unfold wrap64. apply Z.mod_small. lia. }
  assert (Hn : (c_revision k + 1)%Z ∉ revs k) by (intros Hin; apply R2 in Hin; lia).
  split.
  - split; unfold revs in *; simpl; try done.
    + by constructor.
    + intros r [->|Hr]%elem_of_cons; [unfold prep_rev; simpl; lia|]. apply R2 in Hr. lia.
    + lia.
    + intros Ha. destruct (R6 Ha) as [Hb Hnin]. split; [lia|].
      unfold prep_rev at 1. simpl. intros [E|Hin]%elem_of_cons; [lia|done].
    + intros rw Hin. destruct (R7 rw Hin) as [[B1 B2 B3 B4 B5 B6 B7] ?]. split; [|done].
      split; simpl; try done; lia.
    + intros pw [->|Hin]%elem_of_cons; [by intros r|by apply R8].
  - by eapply own_inv_eq; [..|exact O].
  - by destruct P.
Qed.

(** ** Replacement goroutines *)

Lemma take_repl k rw rs : Inv [] [] (c_set_repls (rw :: rs) k) →
  Inv (option_list (rw_candidate rw)) (option_list (rw_process rw)) (c_set_repls rs k) ∧
  result_ok k (rw_previous rw) (rw_result rw) ∧ point_ok rw ∧
  rw_rev rw ∉ revs (c_set_repls rs k).
Proof.
  intros [[R1 R2 R3 R4 R5 R6 R7 R8 R9] O [P1 P2]].
  unfold revs in *. simpl in *.
  assert (Hperm : (prep_rev <$> c_preps k) ++ rw_rev rw :: (rw_rev <$> rs) ≡ₚ
    rw_rev rw :: (prep_rev <$> c_preps k) ++ (rw_rev <$> rs)) by by rewrite Permutation_middle.
  rewrite Hperm in R1. apply NoDup_cons in R1 as [Rn R1]. setoid_rewrite Hperm in R2.
  setoid_rewrite Hperm in R6. destruct (R7 rw) as [Hok Hpt]; [left|].
  split_and!; [|by eapply result_ok_eq, Hok|done|done]. split.
  - split; simpl; try done.
    + intros r Hr. apply R2. by right.
    + intros Ha. destruct (R6 Ha) as [? Hn]. split; [done|]. intros Hin. apply Hn. by right.
    + intros rw' Hin. destruct (R7 rw') as [Hok' ?]; [by right|].
      split; [|done]. by eapply result_ok_eq, Hok'.
  - eapply own_inv_eq; [..|exact O]; try done.
    unfold owned. cbn [c_set_preps c_set_repls c_preps c_repls c_candidate].
    rewrite omap_cons_option, app_nil_l, <-!app_assoc. apply Permutation_app_swap_app.
  - unfold held in *. simpl in *. split; simpl.
    + intros p Hp. destruct (P1 p Hp) as [?|[Hin|[?|(rw' & Hin & Hrp)]]]; [by left| |by right; right; left|].
      { by apply elem_of_nil in Hin. }
      apply elem_of_cons in Hin as [->|Hin]; [|right; right; right; eauto].
      right. left. rewrite Hrp. left.
    + intros p [Hin|[?|(rw' & Hin & Hrp)]]; apply P2; [|by right; left|].
      * right. right. exists rw. split; [left|]. by destruct (rw_process rw); simpl in Hin;
          [apply list_elem_of_singleton in Hin as ->|apply elem_of_nil in Hin].
      * right. right. exists rw'. split; [by right|done].
Qed.

(** A goroutine moves on: same revision, same candidate. *)
Lemma update_repl k rw rw' rs hp :
  Inv (option_list (rw_candidate rw)) (option_list (rw_process rw) ++ hp) (c_set_repls rs k) →
  rw_rev rw ∉ revs (c_set_repls rs k) → (c_active k ≠ None → c_activeRevision k ≠ rw_rev rw) →
  rw_rev rw' = rw_rev rw → rw_candidate rw' = rw_candidate rw → rw_process rw' = rw_process rw →
  result_ok k (rw_previous rw') (rw_result rw') → point_ok rw' →
  Inv [] hp (c_set_repls (rw' :: rs) k).
Proof.
  intros [[R1 R2 R3 R4 R5 R6 R7 R8 R9] O [P1 P2]] Hn Ha E1 E2 E3 Hok Hpt.
  unfold revs in *. simpl in *. split.
  - assert (Hperm : (prep_rev <$> c_preps k) ++ rw_rev rw' :: (rw_rev <$> rs) ≡ₚ
      rw_rev rw :: (prep_rev <$> c_preps k) ++ (rw_rev <$> rs))
      by by rewrite E1, Permutation_middle.
    split; unfold revs; simpl; try setoid_rewrite Hperm; try done.
    + by constructor.
    + intros r [->|Hr]%elem_of_cons; [|by apply R2].
      rewrite <-E1. apply (ro_bound _ _ _ Hok).
    + intros Hact. destruct (R6 Hact) as [? Hnin]. split; [done|].
      intros [E|Hin]%elem_of_cons; [by apply Ha|done].
    + intros rw0 [->|Hin]%elem_of_cons; [split; [by eapply result_ok_eq, Hok|done]|].
      destruct (R7 rw0 Hin) as [Hok' ?]. split; [|done]. by eapply result_ok_eq, Hok'.
  - eapply own_inv_eq; [..|exact O]; try done.
    unfold owned. cbn [c_set_preps c_set_repls c_preps c_repls c_candidate].
    rewrite omap_cons_option, E2, app_nil_l, <-!app_assoc. apply Permutation_app_swap_app.
  - unfold held in *. simpl in *. split; simpl.
    + intros p Hp. destruct (P1 p Hp) as [?|[Hin|[?|(rw0 & Hin & Hrp)]]]; [by left| |by right; right; left|].
      * right. apply elem_of_app in Hin as [Hin|Hin]; [|by left]. right. right.
        exists rw'. split; [left|]. rewrite E3. by destruct (rw_process rw); simpl in Hin;
          [apply list_elem_of_singleton in Hin as ->|apply elem_of_nil in Hin].
      * right. right. right. exists rw0. split; [by right|done].
    + intros p [Hin|[?|(rw0 & Hin & Hrp)]]; apply P2.
      * left. apply elem_of_app. by right.
      * by right; left.
      * apply elem_of_cons in Hin as [->|Hin]; [|right; right; eauto].
        left. apply elem_of_app. left. rewrite <-E3, Hrp. left.
Qed.

Lemma start_replacement k result token :
  Inv (option_list (pr_candidate result)) [] k →
  pr_revision result = c_revision k → (1 ≤ pr_revision result)%Z →
  pr_revision result ∉ revs k → (c_active k ≠ None → c_activeRevision k ≠ pr_revision result) →
  Inv [] [] (c_set_repls (replacement_for result k token :: c_repls k) k).
Proof.
  intros HI Er H1 Hn Ha. set (rw := replacement_for result k token).
  assert (HI' : Inv (option_list (rw_candidate rw)) (option_list (rw_process rw) ++ [])
    (c_set_repls (c_repls k) k)) by by destruct k.
  apply (update_repl k rw rw (c_repls k) []); [done|by destruct k|done|done|done|done| |done].
  destruct (inv_rev _ _ _ HI) as [R1 R2 R3 R4 R5 R6 R7 R8 R9]. split; simpl; try done.
  - lia.
  - intros E. by apply R5.
  - intros p E. rewrite E in *. destruct R6 as [? _]; [done|].
    assert (c_activeRevision k ≠ pr_revision result) by by apply Ha. lia.
  - intros _. by right.
Qed.

(** ** The active process *)

Lemma clear_active h hp k : Inv h hp k →
  (∀ p, c_active k = Some p → p ∈ c_exited k) →
  Inv h hp (c_set_active None None 0 (c_dispose (c_candidate k) k)).
Proof.
  intros [R O [P1 P2]] Hex.
  change (c_set_active None None 0 (c_dispose (c_candidate k) k))
    with (c_dispose (c_candidate k) (c_set_active None None 0 k)).
  apply Inv_dispose. destruct R as [R1 R2 R3 R4 R5 R6 R7 R8 R9]. split.
  - split; try done. simpl. intros rw Hin. destruct (R7 rw Hin) as [[B1 B2 B3 B4 B5 B6 B7] ?].
    split; [|done]. split; simpl; try done. by left.
  - eapply own_inv_eq; [..|exact O]; try done. unfold owned. simpl. rewrite app_nil_r, !app_assoc.
    by rewrite Permutation_app_comm, !app_assoc.
  - split; simpl.
    + intros p Hp. destruct (P1 p Hp) as [?|[?|[E|?]]]; [by left|right; by left| |].
      * left. by apply Hex.
      * right. right. by right.
    + intros p [?|[?|?]]; [apply P2; by left|done|apply P2; by right; right].
Qed.

Lemma activate p c r k : Inv (option_list c) (option_list p) k →
  c_active k = None → is_Some p → r = c_revision k → (1 ≤ r)%Z → r ∉ revs k →
  c_returned k = false → Inv [] [] (c_set_active p c r k).
Proof.
  intros [R O [P1 P2]] Hnone Hsome -> Hr Hn Hret.
  destruct R as [R1 R2 R3 R4 R5 R6 R7 R8 R9]. destruct (R5 Hnone) as [Hc _]. split.
  - split; unfold revs in *; simpl; try done.
    + intros E. destruct Hsome as [? E']. congruence.
    + intros rw Hin. destruct (R7 rw Hin) as [[B1 B2 B3 B4 B5 B6 B7] ?].
      assert (Hne : rr_revision (rw_result rw) ≠ c_revision k).
      { intros E. apply Hn. rewrite <-E. apply elem_of_app. right.
        by apply (list_elem_of_fmap_2 rw_rev). }
      split; [|done]. split; simpl; try done.
      intros _ E. destruct (rw_previous rw) as [q|].
      * pose proof (B4 q eq_refl). lia.
      * rewrite (B3 eq_refl) in E. lia.
    + rewrite Hret. done.
  - eapply own_inv_eq; [..|exact O]; try done. unfold owned. simpl. rewrite Hc. simpl.
    rewrite app_nil_r. etransitivity; [apply Permutation_app_comm|]. by rewrite <-!app_assoc.
  - destruct Hsome as [q ->]. split; simpl in *.
    + intros x Hx. destruct (P1 x Hx) as [?|[Hin|[E|?]]]; [by left| | |].
      * right. apply list_elem_of_singleton in Hin as ->. right. by left.
      * congruence.
      * right. right. by right.
    + intros x [Hin|[[= ->]|?]]; apply P2; [by apply elem_of_nil in Hin|left; left|].
      right. by right.
Qed.

(** ** Receiving a result of [replace] *)

Lemma after_stop_inv h hp k previous result : Inv h hp k → result_ok k previous result →
  (is_Some previous → rr_previousStopped result = true) →
  Inv h hp (after_stop result k) ∧
  (rr_revision result = c_revision k → c_active (after_stop result k) = None) ∧
  revs (after_stop result k) = revs k ∧ c_revision (after_stop result k) = c_revision k ∧
  c_returned (after_stop result k) = c_returned k.
Proof.
  intros HI Hok Hst. unfold after_stop.
  destruct (inv_rev _ _ _ HI) as [R1 R2 R3 R4 R5 R6 R7 R8 R9].
  destruct (rr_previousStopped result) eqn:Es; simpl.
  - destruct (bool_decide _) eqn:Eb; bool_prop.
    + split_and!; [|done..]. apply clear_active; [done|]. intros p Ep.
      assert (c_active k = previous) as Eprev by (apply (ro_same _ _ _ Hok); congruence).
      by apply (ro_stopped _ _ _ Hok); [|congruence].
    + split_and!; [done| |done..]. intros E.
      destruct (ro_current _ _ _ Hok E) as [?|[? ?]]; done.
  - split_and!; [done| |done..]. intros E.
    destruct (ro_current _ _ _ Hok E) as [?|[-> _]]; [done|].
    destruct previous; [|done]. by discriminate Hst.
Qed.

Lemma receive_replacement k k' rw rs :
  Inv [] [] (c_set_repls (rw :: rs) k) → at_point AtSend rw = true → c_returned k = false →
  let result := rw_result rw in
  let k1 := after_stop result (c_set_repls rs k) in
  (k' = c_dispose (rr_candidate result) (c_exit (rr_process result) k1) ∨
   rr_revision result = c_revision k1 ∧ rr_err result = None ∧
   k' = c_set_active (rr_process result) (rr_candidate result) (rr_revision result) k1) →
  Inv [] [] k'.
Proof.
  intros HI Hpt Hret result k1 Hk'. apply take_repl in HI as (HI & Hok & Hpoint & Hn).
  unfold point_ok in Hpoint. destruct (rw_point rw) eqn:Ep; try done;
    [unfold at_point in Hpt; by rewrite Ep in Hpt..|].
  destruct Hpoint as [Hstopped Hproc].
  destruct (after_stop_inv _ _ (c_set_repls rs k) (rw_previous rw) result HI)
    as (HI1 & Hnone & Erevs & Erev & Eret); [by eapply result_ok_eq, Hok|done|].
  fold k1 in HI1, Hnone, Erevs, Erev, Eret.
  destruct Hk' as [->|(Er & Ee & ->)].
  - apply Inv_dispose. apply Inv_exit. by rewrite !app_nil_r.
  - apply activate; [done| | |done| | |].
    + apply Hnone. by rewrite Er.
    + by apply Hproc.
    + destruct (ro_bound _ _ _ Hok); done.
    + by rewrite Erevs.
    + by rewrite Eret.
Qed.

(** ** Every action *)

Lemma preps_perm h hp k ps : c_preps k ≡ₚ ps → Inv h hp k → Inv h hp (c_set_preps ps k).
Proof.
  intros Hp HI. replace (c_set_preps ps k) with (c_set_preps ps (c_set_repls (c_repls k) k))
    by by destruct k. by apply Inv_perm.
Qed.

Lemma repls_perm h hp k rs : c_repls k ≡ₚ rs → Inv h hp k → Inv h hp (c_set_repls rs k).
Proof.
  intros Hp HI. replace (c_set_repls rs k) with (c_set_preps (c_preps k) (c_set_repls rs k))
    by by destruct k. by apply Inv_perm.
Qed.

Lemma prep_at k i pw : Inv [] [] k → c_preps k !! i = Some pw →
  Inv [] [] (c_set_preps (pw :: delete i (c_preps k)) k).
Proof. intros HI Hi. apply preps_perm; [|done]. by apply delete_Permutation. Qed.

Lemma repl_at k i rw : Inv [] [] k → c_repls k !! i = Some rw →
  Inv [] [] (c_set_repls (rw :: delete i (c_repls k)) k).
Proof. intros HI Hi. apply repls_perm; [|done]. by apply delete_Permutation. Qed.

(** A goroutine that moves on is put back where it was. *)
Lemma repl_back h hp k l i rw rw' : l !! i = Some rw →
  Inv h hp (c_set_repls (rw' :: delete i l) k) → Inv h hp (c_set_repls (<[i := rw']> l) k).
Proof.
  intros Hi HI. change (c_set_repls (<[i:=rw']> l) k)
    with (c_set_repls (<[i:=rw']> l) (c_set_repls (rw' :: delete i l) k)).
  apply repls_perm; [|done]. symmetry. by eapply insert_Permutation_delete.
Qed.

Lemma prep_back h hp k l i pw pw' : l !! i = Some pw →
  Inv h hp (c_set_preps (pw' :: delete i l) k) → Inv h hp (c_set_preps (<[i := pw']> l) k).
Proof.
  intros Hi HI. change (c_set_preps (<[i:=pw']> l) k)
    with (c_set_preps (<[i:=pw']> l) (c_set_preps (pw' :: delete i l) k)).
  apply preps_perm; [|done]. symmetry. by eapply insert_Permutation_delete.
Qed.

(** What a goroutine in [replace] knows about the state around it. *)
Lemma repl_facts k i rw : Inv [] [] k → c_repls k !! i = Some rw →
  Inv (option_list (rw_candidate rw)) (option_list (rw_process rw))
    (c_set_repls (delete i (c_repls k)) k) ∧
  result_ok k (rw_previous rw) (rw_result rw) ∧ point_ok rw ∧
  rw_rev rw ∉ revs (c_set_repls (delete i (c_repls k)) k) ∧
  (c_active k ≠ None → c_activeRevision k ≠ rw_rev rw).
Proof.
  intros HI Hi. pose proof (repl_at k i rw HI Hi) as HI'.
  apply take_repl in HI' as (HI' & Hok & Hpt & Hn). split_and!; try done.
  intros Ha E. destruct (inv_rev _ _ _ HI) as [R1 R2 R3 R4 R5 R6 R7 R8 R9].
  destruct (R6 Ha) as [_ Hnin]. apply Hnin. rewrite E. unfold revs. apply elem_of_app. right.
  apply (list_elem_of_fmap_2 rw_rev). by eapply list_elem_of_lookup_2.
Qed.

Section steps.
Context `{UnicodeTables} (dispose_error : nat → option error).
Notation step := (step dispose_error).

Lemma looping_core w : looping w = true → c_returned (core_of w) = false.
Proof.
  unfold looping. simpl. rewrite bool_decide_eq_true. intros ->. by apply bool_decide_eq_false.
Qed.

Lemma when_some b w w' : when b w = Some w' → b = true ∧ w' = w.
Proof. unfold when. destruct b; naive_solver. Qed.

Lemma inv_prepare_returned i c err w w' : Inv [] [] (core_of w) →
  step (PrepareReturned i c err) w = Some w' → Inv [] [] (core_of w').
Proof.
  intros HI. simpl. destruct (preps w !! i) as [pw|] eqn:Hi; simpl; [|done].
  intros [Hb ->]%when_some. bool_prop.
  pose proof (prep_at (core_of w) i pw HI Hi) as HI'.
  eapply prepare_returned in HI'; [|done|done|].
  - apply (prep_back [] [] (c_produce c (core_of w)) (preps w) i pw _ Hi) in HI'. exact HI'.
  - intros [e ->]. rename select (_ || _ = true) into Ho.
    apply orb_true_iff in Ho as [Ho|Ho]; by apply bool_decide_eq_true in Ho.
Qed.

Lemma inv_preparation_received i w w' : Inv [] [] (core_of w) →
  step (PreparationReceived i) w = Some w' → Inv [] [] (core_of w').
Proof.
  intros HI. simpl. destruct (preps w !! i) as [pw|] eqn:Hi; simpl; [|done].
  destruct (pw_result pw) as [result|] eqn:Hres; simpl; [|done].
  intros [Hl ->]%when_some. set (w1 := set_preps (delete i (preps w)) w).
  pose proof (prep_at (core_of w) i pw HI Hi) as HI'.
  apply take_prep in HI' as (HI' & Hpok & Hb & Hn & Ha).
  destruct (Hpok result Hres) as [Erev Hcand]. rewrite <-Erev in *.
  unfold pw_candidate in HI'. rewrite Hres in HI'. simpl in HI'.
  change (c_set_preps _ (core_of w)) with (core_of w1) in HI', Hn.
  destruct (core_finishPreparation dispose_error result w1) as [->|[[-> He]|[Er [token ->]]]].
  - apply Inv_dispose. by rewrite app_nil_r.
  - by rewrite (Hcand He) in HI'.
  - apply (repls_perm _ _ (c_set_repls (replacement_for result (core_of w1) token ::
      c_repls (core_of w1)) (core_of w1))); [apply Permutation_cons_append|].
    apply start_replacement; try done. lia.
Qed.

Lemma inv_previous_stopped i stopErr w w' : Inv [] [] (core_of w) →
  step (PreviousStopped i stopErr) w = Some w' → Inv [] [] (core_of w').
Proof.
  intros HI. simpl. destruct (repls w !! i) as [rw|] eqn:Hi; simpl; [|done].
  destruct (replaceStopPrevious stopErr rw w) as [rw' w1] eqn:Erep.
  intros [Hpt ->]%when_some.
  destruct (repl_facts (core_of w) i rw HI Hi) as (HI' & Hok & Hpoint & Hn & Ha).
  unfold at_point in Hpt. destruct (rw_point rw) eqn:Ep; try done.
  unfold point_ok in Hpoint. rewrite Ep in Hpoint. destruct Hpoint as (Hst & Hproc & Herr).
  assert (Hcore : core_of w1 = c_exit (rw_previous rw) (core_of w) ∧
    rw_rev rw' = rw_rev rw ∧ rw_candidate rw' = rw_candidate rw ∧
    rw_process rw' = rw_process rw ∧ rw_previous rw' = rw_previous rw ∧
    rr_previousRevision (rw_result rw') = rr_previousRevision (rw_result rw) ∧
    rr_previousStopped (rw_result rw') = bool_decide (is_Some (rw_previous rw)) ∧
    rw_point rw' = (if rr_err (rw_result rw') then AtSend else AtStart)).
  { unfold replaceStopPrevious in Erep. destruct (rw_previous rw) as [p|] eqn:Eprev.
    - injection Erep as <- <-. split_and!; try done.
    - injection Erep as <- <-. split_and!; try done; by destruct w as [[]]. }
  destruct Hcore as (Hc & E1 & E2 & E3 & E4 & E5 & E6 & E7).
  change (core_of (set_repls (<[i:=rw']> (repls w1)) w1))
    with (c_set_repls (<[i:=rw']> (c_repls (core_of w1))) (core_of w1)).
  rewrite Hc. change (c_repls (c_exit (rw_previous rw) (core_of w))) with (repls w).
  apply (repl_back _ _ _ _ _ rw); [done|].
  apply (update_repl _ rw); try done.
  - rewrite app_nil_r. apply (Inv_exit_any (rw_previous rw)) in HI'. exact HI'.
  - destruct Hok as [B1 B2 B3 B4 B5 B6 B7]. rewrite E4. split; rewrite ?E5, ?E6; try done.
    + unfold rw_rev in E1. by rewrite E1.
    + intros ->. by apply bool_decide_eq_false.
    + unfold rw_rev in E1. rewrite E1. exact B4.
    + intros p _ ->. simpl. set_solver.
    + unfold rw_rev in E1. by rewrite E1.
  - unfold point_ok. rewrite E7. unfold rw_process in E3, Hproc.
    destruct (rr_err (rw_result rw')) eqn:Ee; rewrite E4, E6.
    + split; [|done]. intros Hs. by apply bool_decide_eq_true.
    + split; [|split; [by rewrite E3|done]]. intros Hs. by apply bool_decide_eq_true.
Qed.

Lemma proc_start p hp k : proc_inv hp k → fresh_for p (c_started k) = true →
  proc_inv (option_list p ++ hp) (c_start p k).
Proof.
  destruct p as [p|]; simpl; [|by intros [? ?]]. intros [P1 P2] Hf. split; simpl.
  - intros x [->%elem_of_singleton|Hx]%elem_of_union; [right; left; left|].
    destruct (P1 x Hx) as [?|[?|?]]; [by left|right; left; by right|right; by right].
  - intros x Hx. apply elem_of_union. destruct Hx as [[->|Hx]%elem_of_cons|Hx].
    + left. by apply elem_of_singleton.
    + right. apply P2. by left.
    + right. apply P2. by right.
Qed.

Lemma Inv_start p h hp k : Inv h hp k → fresh_for p (c_started k) = true →
  Inv h (option_list p ++ hp) (c_start p k).
Proof.
  intros [R O P] Hf. split; [by eapply rev_inv_eq; [..|exact R]| |by apply proc_start].
  by eapply own_inv_eq; [..|exact O].
Qed.

Lemma inv_start_returned i p err w w' : Inv [] [] (core_of w) →
  step (StartReturned i p err) w = Some w' → Inv [] [] (core_of w').
Proof.
  intros HI. simpl. destruct (repls w !! i) as [rw|] eqn:Hi; simpl; [|done].
  intros [Hb ->]%when_some.
  apply andb_true_iff in Hb as [Hb Hperr]. apply andb_true_iff in Hb as [Hpt Hf].
  destruct (repl_facts (core_of w) i rw HI Hi) as (HI' & Hok & Hpoint & Hn & Ha).
  unfold at_point in Hpt. destruct (rw_point rw) eqn:Ep; try done.
  unfold point_ok in Hpoint. rewrite Ep in Hpoint. destruct Hpoint as (Hst & Hproc & Herr).
  set (rw' := replaceStarted p err rw w).
  change (core_of _) with (c_set_repls (<[i:=rw']> (repls w)) (c_start p (core_of w))).
  apply (repl_back _ _ _ _ _ rw); [done|].
  apply (update_repl _ rw'); try done.
  - change (rw_candidate rw') with (rw_candidate rw).
    change (rw_process rw') with p.
    unfold rw_process in HI'. rewrite Hproc in HI'. by apply (Inv_start p) in HI'.
  - by destruct Hok as [B1 B2 B3 B4 B5 B6 B7].
  - unfold point_ok, rw', replaceStarted. simpl. destruct p as [p|]; simpl; [|split; [done|]].
    + destruct (bool_decide (is_Some (replaceErr (rw_token rw) w))); (split; [exact Hst|]).
      * by eexists.
      * intros _. by eexists.
    + intros ->. apply orb_true_iff in Hperr as [Hp|Hp];
        by apply bool_decide_eq_true in Hp as [? Hp].
Qed.

Lemma inv_start_undone i stopErr w w' : Inv [] [] (core_of w) →
  step (StartUndone i stopErr) w = Some w' → Inv [] [] (core_of w').
Proof.
  intros HI. simpl. destruct (repls w !! i) as [rw|] eqn:Hi; simpl; [|done].
  intros [Hpt ->]%when_some.
  destruct (repl_facts (core_of w) i rw HI Hi) as (HI' & Hok & Hpoint & Hn & Ha).
  unfold at_point in Hpt. destruct (rw_point rw) eqn:Ep; try done.
  unfold point_ok in Hpoint. rewrite Ep in Hpoint. destruct Hpoint as (Hst & Hproc).
  set (rw' := mkReplaceWorker _ _ AtSend _). set (w1 := mark_exited _ w).
  assert (Hc : core_of w1 = c_exit (rw_process rw) (core_of w)) by apply core_mark_exited.
  change (core_of _) with (c_set_repls (<[i:=rw']> (c_repls (core_of w1))) (core_of w1)).
  rewrite Hc. change (c_repls (c_exit (rw_process rw) (core_of w))) with (repls w).
  apply (repl_back _ _ _ _ _ rw); [done|].
  apply (update_repl _ rw'); try done.
  - change (rw_candidate rw') with (rw_candidate rw). change (rw_process rw') with (@None nat).
    apply (Inv_exit (rw_process rw) _ [] (c_set_repls (delete i (repls w)) (core_of w))). by rewrite app_nil_r.
  - destruct Hok as [B1 B2 B3 B4 B5 B6 B7]. split; simpl; try done.
    intros q E1 E2. apply add_opt_subset. by apply (B5 q).
  - unfold point_ok. simpl. split; [done|]. by destruct stopErr.
Qed.

Lemma inv_replacement_received i stopErr w w' : Inv [] [] (core_of w) →
  step (ReplacementReceived i stopErr) w = Some w' → Inv [] [] (core_of w').
Proof.
  intros HI. simpl. destruct (repls w !! i) as [rw|] eqn:Hi; simpl; [|done].
  intros [Hb ->]%when_some. apply andb_true_iff in Hb as [Hl Hpt].
  eapply (receive_replacement (core_of w) _ rw (delete i (repls w)));
    [by apply repl_at|done|by apply looping_core|].
  destruct (core_finishReplacement dispose_error stopErr (rw_result rw)
    (set_repls (delete i (repls w)) w)) as [?|[? _]]; [by left|by right].
Qed.

Lemma inv_replacement_abandoned i w w' : Inv [] [] (core_of w) →
  step (ReplacementAbandoned i) w = Some w' → Inv [] [] (core_of w').
Proof.
  intros HI. simpl. destruct (repls w !! i) as [rw|] eqn:Hi; simpl; [|done].
  intros [Hb ->]%when_some.
  destruct (repl_facts (core_of w) i rw HI Hi) as (HI' & _).
  unfold replaceAbandon. rewrite core_Dispose, core_mark_exited.
  apply Inv_dispose, Inv_exit. by rewrite !app_nil_r.
Qed.

Lemma inv_exit_received err w w' : Inv [] [] (core_of w) →
  step (ExitReceived err) w = Some w' → Inv [] [] (core_of w').
Proof.
  intros HI. simpl. destruct (activeWait (engine w)) as [p|] eqn:Ew; simpl; [|done].
  intros [Hb ->]%when_some. bool_prop. rewrite core_finishApplication.
  apply clear_active; [done|]. intros q Eq.
  pose proof (ri_wait _ (inv_rev _ _ _ HI)) as Hw. simpl in Hw, Eq. assert (q = p) as -> by congruence. done.
Qed.

Lemma inv_return k : Inv [] [] k → c_active k = None → Inv [] [] (c_return k).
Proof.
  intros [R O P] Ha. split.
  - destruct R as [R1 R2 R3 R4 R5 R6 R7 R8 R9]. split; try done.
    simpl. intros rw Hin. destruct (R7 rw Hin) as [[B1 B2 B3 B4 B5 B6 B7] ?]. by split.
  - by eapply own_inv_eq; [..|exact O].
  - by destruct P.
Qed.

Lemma inv_loop_ended e1 e2 e3 w w' : Inv [] [] (core_of w) →
  step (LoopEnded e1 e2 e3) w = Some w' → Inv [] [] (core_of w').
Proof.
  intros HI. simpl. intros [Hb ->]%when_some. rewrite core_finishRun.
  destruct (c_active (core_of w)) as [p|] eqn:Ea.
  - apply inv_return; [|done].
    apply (clear_active [] [] (c_exit (Some p) (core_of w))); [by apply Inv_exit_any|].
    intros q Eq. simpl in Eq. simpl in Ea. rewrite Ea in Eq. injection Eq as ->. simpl. set_solver.
  - destruct (ri_inactive _ (inv_rev _ _ _ HI) Ea) as [-> _].
    apply inv_return; [|done]. by apply (Inv_dispose None).
Qed.

Lemma inv_timer_fired now now' w w' : Inv [] [] (core_of w) →
  (c_revision (core_of w) + 1 < 2 ^ 64)%Z →
  step (TimerFired now now') w = Some w' → Inv [] [] (core_of w').
Proof.
  intros HI Hlt. simpl. intros [Hb ->]%when_some. apply andb_true_iff in Hb as [Hl _].
  destruct (core_acceptPending now now' w) as [->|[changes ->]]; [done|].
  rewrite core_startPreparation.
  set (r := wrap64 (c_revision (core_of w) + 1)).
  apply (preps_perm _ _ (c_set_preps (mkPrepWorker (newBatch r changes) None ::
    c_preps (core_of w)) (c_set_revision r (core_of w)))); [apply Permutation_cons_append|].
  apply (start_preparation (core_of w) changes); [done|done|by apply looping_core].
Qed.

(** The invariants hold after any action, short of 2^64 preparations. *)
Lemma step_inv a w w' : Inv [] [] (core_of w) →
  (c_revision (core_of w) + 1 < 2 ^ 64)%Z → step a w = Some w' → Inv [] [] (core_of w').
Proof.
  intros HI Hlt Hstep. destruct a.
  - apply when_some in Hstep as [_ ->]. by rewrite core_acceptFileEvent.
  - by apply when_some in Hstep as [_ ->].
  - by eapply inv_timer_fired.
  - by eapply inv_prepare_returned.
  - by eapply inv_preparation_received.
  - simpl in Hstep. destruct (preps w !! i) as [pw|] eqn:Hi; simpl in Hstep; [|done].
    destruct (pw_result pw) as [result|] eqn:Hres; simpl in Hstep; [|done].
    apply when_some in Hstep as [_ ->]. rewrite core_Dispose.
    pose proof (prep_at (core_of w) i pw HI Hi) as HI'.
    apply take_prep in HI' as (HI' & _). apply Inv_dispose.
    unfold pw_candidate in HI'. rewrite Hres in HI'. by rewrite app_nil_r.
  - by eapply inv_previous_stopped.
  - by eapply inv_start_returned.
  - by eapply inv_start_undone.
  - by eapply inv_replacement_received.
  - by eapply inv_replacement_abandoned.
  - apply when_some in Hstep as [_ ->]. rewrite core_mark_exited. by apply Inv_exit_any.
  - by eapply inv_exit_received.
  - by eapply inv_loop_ended.
Qed.
End steps.
