(* ===== verification/EngineTheorems.v ===== *)
(** The correctness of the development-loop engine
    (src/internal/devloop/engine.go), over every reachable state: ownership of
    candidates and processes, which candidate may become the application,
    what a failed preparation leaves running, the end of a run; and the
    interleaving in which the newest candidate is lost. *)
From S2P Require Import Prelude GoSort GoStrings Debounce Engine EngineInvariant EngineSafety.

Section engine.
Context `{UnicodeTables} (dispose_error : nat → option error).
Notation step := (step dispose_error).
Notation run := (run dispose_error).
Notation reachable := (reachable dispose_error).

(** ** Reachable states *)

Lemma wrap64_le z : (0 ≤ z)%Z → (wrap64 z ≤ z)%Z.
Proof. intros Hz. unfold wrap64. apply Z.mod_le; lia. Qed.

Lemma step_revision a w w' : (0 ≤ c_revision (core_of w))%Z → step a w = Some w' →
  (c_revision (core_of w') ≤ c_revision (core_of w) + 1)%Z.
Proof.
  intros H0 Hstep. destruct a; simpl in Hstep.
  - apply when_some in Hstep as [_ ->]. rewrite core_acceptFileEvent. lia.
  - apply when_some in Hstep as [_ ->]. rewrite core_emit. lia.
  - apply when_some in Hstep as [_ ->].
    destruct (core_acceptPending now now' w) as [->|[changes ->]]; [lia|].
    rewrite core_startPreparation. simpl. apply wrap64_le. simpl in H0. lia.
  - destruct (preps w !! i); simpl in Hstep; [|done]. apply when_some in Hstep as [_ ->]. simpl. lia.
  - destruct (preps w !! i) as [pw|]; simpl in Hstep; [|done].
    destruct (pw_result pw) as [r|]; simpl in Hstep; [|done]. apply when_some in Hstep as [_ ->].
    destruct (core_finishPreparation dispose_error r (set_preps (delete i (preps w)) w))
      as [->|[[-> _]|[_ [t ->]]]]; simpl; lia.
  - destruct (preps w !! i) as [pw|]; simpl in Hstep; [|done].
    destruct (pw_result pw) as [r|]; simpl in Hstep; [|done]. apply when_some in Hstep as [_ ->].
    rewrite core_Dispose. simpl. lia.
  - destruct (repls w !! i) as [rw|]; simpl in Hstep; [|done].
    destruct (replaceStopPrevious _ _ _) as [rw' w1] eqn:E. apply when_some in Hstep as [_ ->].
    assert (core_of w1 = c_exit (rw_previous rw) (core_of w)) as Hc.
    { unfold replaceStopPrevious in E. destruct (rw_previous rw); injection E as <- <-; [done|].
      by destruct w as [[]]. }
    change (core_of (set_repls (<[i:=rw']> (repls w1)) w1))
      with (c_set_repls (<[i:=rw']> (repls w1)) (core_of w1)).
    rewrite Hc. simpl. lia.
  - destruct (repls w !! i) as [rw|]; simpl in Hstep; [|done].
    apply when_some in Hstep as [_ ->]. simpl. lia.
  - destruct (repls w !! i) as [rw|]; simpl in Hstep; [|done].
    apply when_some in Hstep as [_ ->]. destruct (rr_process (rw_result rw)); simpl; lia.
  - destruct (repls w !! i) as [rw|]; simpl in Hstep; [|done]. apply when_some in Hstep as [_ ->].
    assert (Ha : ∀ k, c_revision (after_stop (rw_result rw) k) = c_revision k)
      by (intros k; unfold after_stop; by case_match).
    destruct (core_finishReplacement dispose_error stopErr (rw_result rw)
      (set_repls (delete i (repls w)) w)) as [->|[(_ & _ & ->) _]]; cbn; rewrite Ha; simpl; lia.
  - destruct (repls w !! i) as [rw|]; simpl in Hstep; [|done].
    apply when_some in Hstep as [_ ->].
    unfold replaceAbandon. rewrite core_Dispose, core_mark_exited. simpl. lia.
  - apply when_some in Hstep as [_ ->]. simpl. lia.
  - destruct (activeWait (engine w)); simpl in Hstep; [|done]. apply when_some in Hstep as [_ ->].
    rewrite core_finishApplication. simpl. lia.
  - apply when_some in Hstep as [_ ->]. rewrite core_finishRun. simpl. case_match; simpl; lia.
Qed.

Lemma initial_core d : Inv [] [] (core_of (initial d)) ∧ c_revision (core_of (initial d)) = 1%Z.
Proof.
  split; [|done].
  assert (H0 : Inv [] [] (mkCore 0 None None 0 None [] [] ∅ ∅ ∅ ∅ false)).
  { split; split; unfold revs, owned, held; simpl; try done;
      try (by constructor); try (by intros ? ?%elem_of_nil); try set_solver. }
  by apply (start_preparation _ [mkFileEvent "." ChangeInitial] H0).
Qed.

Lemma run_inv trace w w' : run trace w = Some w' → Inv [] [] (core_of w) →
  (c_revision (core_of w) + Z.of_nat (length trace) < 2 ^ 64)%Z →
  Inv [] [] (core_of w') ∧
  (c_revision (core_of w') ≤ c_revision (core_of w) + Z.of_nat (length trace))%Z.
Proof.
  revert w. induction trace as [|a trace IH]; intros w Hrun HI Hlt; simpl in Hrun.
  { injection Hrun as ->. split; [done|simpl; lia]. }
  destruct (step a w) as [w1|] eqn:Es; simpl in Hrun; [|done]. simpl in Hlt.
  assert (H1 : Inv [] [] (core_of w1)) by (eapply step_inv; [done| |done]; simpl in *; lia).
  pose proof (step_revision a w w1 (ri_revision _ (inv_rev _ _ _ HI)) Es) as Hr.
  destruct (IH w1 Hrun H1) as [? ?]; [simpl in *; lia|]. split; [done|]. simpl in *. lia.
Qed.

Lemma reachable_inv d n w : reachable d n w → (Z.of_nat n + 1 < 2 ^ 64)%Z →
  Inv [] [] (core_of w) ∧ (c_revision (core_of w) ≤ Z.of_nat n + 1)%Z.
Proof.
  intros (trace & <- & Hrun) Hn. destruct (initial_core d) as [HI Hr].
  apply run_inv in Hrun; [|done|rewrite Hr; lia]. rewrite Hr in Hrun. split; [apply Hrun|lia].
Qed.

(** ** The theorems *)

(** C7. A candidate [Prepare] returned is at any time either released or owned
    by exactly one of a preparation result, a replacement and the active
    application; the application never runs from a released artifact. *)
Theorem candidates_owned_once d n w :
  reachable d n w → (Z.of_nat n + 1 < 2 ^ 64)%Z →
  let owners := omap pw_candidate (preps w) ++ omap rw_candidate (repls w) ++
                option_list (activeCandidate (engine w)) in
  NoDup owners ∧ ∀ c, c ∈ produced w → (c ∈ owners ∧ c ∉ disposed w) ∨ (c ∉ owners ∧ c ∈ disposed w).
Proof.
  intros Hr Hn owners. destruct (reachable_inv d n w Hr Hn) as [[_ [O1 O2 O3] _] _].
  change ([] ++ owned (core_of w)) with owners in *. split; [done|].
  intros c Hc. destruct (decide (c ∈ owners)) as [Hin|Hin].
  - left. split; [done|]. by apply O2.
  - right. split; [done|]. apply O3 in Hc as [?|?]; done.
Qed.

(** C15. Once [Run] has returned and its goroutines are done, every candidate has
    been released and every process it started has exited. *)
Theorem run_leaves_nothing d n w :
  reachable d n w → (Z.of_nat n + 1 < 2 ^ 64)%Z →
  is_Some (returned w) → preps w = [] → repls w = [] →
  (∀ c, c ∈ produced w → c ∈ disposed w) ∧ (∀ p, p ∈ started w → p ∈ exited w).
Proof.
  intros Hr Hn Hret Hp Hrp. destruct (reachable_inv d n w Hr Hn) as [[R [O1 O2 O3] [P1 P2]] _].
  assert (Ha : c_active (core_of w) = None)
    by by apply (ri_returned _ R), bool_decide_eq_true.
  destruct (ri_inactive _ R Ha) as [Hc _]. split.
  - intros c Hin. apply O3 in Hin as [Hin|?]; [|done]. unfold owned in Hin. simpl in Hin, Hc.
    rewrite Hp, Hrp, Hc in Hin. by apply elem_of_nil in Hin.
  - intros p Hin. destruct (P1 p Hin) as [?|[?%elem_of_nil|[E|(rw & Hrw & _)]]]; [done..| |].
    + simpl in Ha, E. congruence.
    + simpl in Hrw. rewrite Hrp in Hrw. by apply elem_of_nil in Hrw.
Qed.

(** Only a received replacement changes the application, unless it ends. *)
Lemma active_stays a w w' : step a w = Some w' →
  active (engine w') = active (engine w) ∨ active (engine w') = None ∨
  ∃ i stopErr, a = ReplacementReceived i stopErr.
Proof.
  change (active (engine w')) with (c_active (core_of w')).
  change (active (engine w)) with (c_active (core_of w)).
  intros Hstep. destruct a; simpl in Hstep.
  - apply when_some in Hstep as [_ ->]. left. by rewrite core_acceptFileEvent.
  - apply when_some in Hstep as [_ ->]. by left.
  - apply when_some in Hstep as [_ ->]. left.
    destruct (core_acceptPending now now' w) as [->|[changes ->]]; done.
  - destruct (preps w !! i); simpl in Hstep; [|done]. apply when_some in Hstep as [_ ->]. by left.
  - destruct (preps w !! i) as [pw|]; simpl in Hstep; [|done].
    destruct (pw_result pw) as [r|]; simpl in Hstep; [|done]. apply when_some in Hstep as [_ ->].
    left. by destruct (core_finishPreparation dispose_error r (set_preps (delete i (preps w)) w))
      as [->|[[-> _]|[_ [t ->]]]].
  - destruct (preps w !! i) as [pw|]; simpl in Hstep; [|done].
    destruct (pw_result pw) as [r|]; simpl in Hstep; [|done]. apply when_some in Hstep as [_ ->].
    left. by rewrite core_Dispose.
  - destruct (repls w !! i) as [rw|]; simpl in Hstep; [|done].
    destruct (replaceStopPrevious _ _ _) as [rw' w1] eqn:E. apply when_some in Hstep as [_ ->].
    left. unfold replaceStopPrevious in E. by destruct (rw_previous rw); injection E as <- <-.
  - destruct (repls w !! i) as [rw|]; simpl in Hstep; [|done].
    apply when_some in Hstep as [_ ->]. by left.
  - destruct (repls w !! i) as [rw|]; simpl in Hstep; [|done].
    apply when_some in Hstep as [_ ->]. left. by destruct (rr_process (rw_result rw)).
  - right. right. eauto.
  - destruct (repls w !! i) as [rw|]; simpl in Hstep; [|done].
    apply when_some in Hstep as [_ ->]. left.
    unfold replaceAbandon. by rewrite core_Dispose, core_mark_exited.
  - apply when_some in Hstep as [_ ->]. by left.
  - destruct (activeWait (engine w)); simpl in Hstep; [|done]. apply when_some in Hstep as [_ ->].
    right. left. by rewrite core_finishApplication.
  - apply when_some in Hstep as [_ ->]. rewrite core_finishRun.
    destruct (c_active (core_of w)) eqn:E; [by right; left|by left].
Qed.

(** C6. A process becomes the application only for the newest revision, with
    no change pending, and after the process it replaces has exited: stale
    candidates never run as the application. *)
Theorem only_latest_becomes_active d n w a w' p :
  reachable d n w → (Z.of_nat n + 1 < 2 ^ 64)%Z → step a w = Some w' →
  active (engine w') = Some p → active (engine w) ≠ Some p →
  activeRevision (engine w') = revision (engine w') ∧
  Pending (debouncer (engine w')) = false ∧
  (∀ q, active (engine w) = Some q → q ∈ exited w').
Proof.
  intros Hr Hn Hstep Ha Hna. destruct (reachable_inv d n w Hr Hn) as [HI _].
  destruct (active_stays a w w' Hstep) as [?|[?|(i & stopErr & ->)]]; [congruence..|].
  simpl in Hstep. destruct (repls w !! i) as [rw|] eqn:Hi; simpl in Hstep; [|done].
  apply when_some in Hstep as [Hb ->]. apply andb_true_iff in Hb as [Hl Hpt].
  destruct (repl_facts (core_of w) i rw HI Hi) as (HI' & Hok & Hpoint & _ & _).
  set (w1 := set_repls (delete i (repls w)) w) in *.
  assert (Hst : is_Some (rw_previous rw) → rr_previousStopped (rw_result rw) = true).
  { unfold point_ok, at_point in *. destruct (rw_point rw); try done. apply Hpoint. }
  destruct (after_stop_inv _ _ (core_of w1) (rw_previous rw) (rw_result rw) HI')
    as (_ & Hnone & _ & Erev & _); [by eapply result_ok_eq, Hok|done|].
  set (k1 := after_stop (rw_result rw) (core_of w1)) in *.
  assert (Hk1 : c_active k1 = None ∨ c_active k1 = active (engine w)).
  { unfold k1, after_stop. destruct (_ && _); [by left|by right]. }
  destruct (core_finishReplacement dispose_error stopErr (rw_result rw) w1)
    as [E|[(Er & Ee & E) Hp]]; fold k1 in E; [|fold k1 in Er].
  - assert (active (engine (finishReplacement dispose_error stopErr (rw_result rw) w1)) =
      c_active k1) as Ea by (apply (f_equal c_active) in E; exact E). destruct Hk1; congruence.
  - split_and!; [|done|].
    + pose proof (f_equal c_activeRevision E) as E1. pose proof (f_equal c_revision E) as E2.
      simpl in E1, E2. congruence.
    + intros q Hq. pose proof (f_equal c_exited E) as E3. simpl in E3. rewrite E3.
      assert (c_exited (core_of w) ⊆ c_exited k1) as Hsub
        by (unfold k1, after_stop; by destruct (_ && _)).
      apply Hsub.
      assert (Hcur : rr_revision (rw_result rw) = c_revision (core_of w)) by by rewrite Er, Erev.
      destruct (ro_current _ _ _ Hok Hcur) as [E0|[E0 _]]; [simpl in E0; congruence|].
      simpl in E0. apply (ro_stopped _ _ _ Hok); [|congruence]. apply Hst. rewrite <-E0, Hq. by eexists.
Qed.

(** A failed preparation never touches the application: nothing is started or
    stopped, and when the failure is current and not a cancellation the sink is
    told that the last known good process, if any, stays. *)
Theorem failure_keeps_last_known_good w i pw result err w' :
  preps w !! i = Some pw → pw_result pw = Some result → pr_err result = Some err →
  step (PreparationReceived i) w = Some w' →
  active (engine w') = active (engine w) ∧ activeRevision (engine w') = activeRevision (engine w) ∧
  repls w' = repls w ∧ exited w' = exited w ∧
  (pr_revision result = revision (engine w) → Pending (debouncer (engine w)) = false →
   is_canceled (Some err) = false → is_active w = true →
   emitted w' = emitted w ++
     [mkEvent EventPreparationFailed (pr_revision result) [] (Some err) true;
      mkEvent EventLastKnownGood (activeRevision (engine w)) [] (Some err) true]).
Proof.
  intros Hi Hres Herr Hstep. simpl in Hstep. rewrite Hi in Hstep. simpl in Hstep.
  rewrite Hres in Hstep. simpl in Hstep. apply when_some in Hstep as [_ ->].
  set (w1 := set_preps (delete i (preps w)) w).
  assert (Hcore : core_of (finishPreparation dispose_error result w1) = core_of w1 ∨
    core_of (finishPreparation dispose_error result w1) = c_dispose (pr_candidate result) (core_of w1)).
  { unfold finishPreparation. set (w2 := if decide _ then _ else w1).
    assert (H2 : core_of w2 = core_of w1) by (unfold w2; by case_decide). clearbody w2.
    destruct (bool_decide _ || _).
    - right. pose proof (core_Dispose dispose_error (pr_candidate result) w2) as Hd.
      destruct (Dispose _ _ w2) as [e w3]. simpl in Hd. by rewrite core_emit, Hd, H2.
    - left. rewrite Herr. repeat case_match; by rewrite ?core_emit. }
  assert (Hc : ∀ A (f : core → A), (∀ c k, f (c_dispose c k) = f k) →
    f (core_of (finishPreparation dispose_error result w1)) = f (core_of w1)).
  { intros A f Hf. destruct Hcore as [->|E]; [done|]. rewrite E. apply Hf. }
  split_and!.
  - by apply (Hc _ c_active).
  - by apply (Hc _ c_activeRevision).
  - by apply (Hc _ c_repls).
  - by apply (Hc _ c_exited).
  - intros Hrev Hp Hcan Hact. unfold finishPreparation.
    set (w2 := if decide _ then _ else w1).
    assert (H2 : emitted w2 = emitted w ∧ is_active w2 = is_active w ∧
      revision (engine w2) = revision (engine w) ∧ debouncer (engine w2) = debouncer (engine w) ∧
      activeRevision (engine w2) = activeRevision (engine w)) by (unfold w2; by case_decide).
    clearbody w2. destruct H2 as (H1 & H3 & H4 & H5 & H6).
    rewrite H4, H5, Hp, (bool_decide_eq_false_2 (pr_revision result ≠ _)) by tauto. simpl.
    rewrite Herr. unfold is_canceled in Hcan |- *. simpl in Hcan |- *. rewrite Hcan.
    change (is_active (emit ?e w2)) with (is_active w2). rewrite H3, Hact. simpl.
    by rewrite H1, H6, <-app_assoc.
Qed.

(** Receiving the result of an overtaken replacement cancels the
    replacement of the newest candidate. *)
Theorem stale_result_cancels_current w i rw stopErr token w' :
  repls w !! i = Some rw → step (ReplacementReceived i stopErr) w = Some w' →
  rr_revision (rw_result rw) ≠ revision (engine w) → replaceStop (engine w) = Some token →
  replaceErr token w' = Some Canceled ∧ replaceStop (engine w') = None.
Proof.
  intros Hi Hstep Hrev Htok. simpl in Hstep. rewrite Hi in Hstep. simpl in Hstep.
  apply when_some in Hstep as [_ ->]. unfold finishReplacement, stopReplacement.
  change (replaceStop (engine (set_repls _ w))) with (replaceStop (engine w)). rewrite Htok.
  set (w1 := upd (set_replaceStop None) _).
  assert (Hw1 : token ∈ canceledTokens w1 ∧ replaceStop (engine w1) = None).
  { split; [|done]. unfold w1. simpl. set_solver. }
  assert (Hrev1 : rr_revision (rw_result rw) ≠ revision (engine w1)) by done. clearbody w1.
  set (good := λ w : world, token ∈ canceledTokens w ∧ replaceStop (engine w) = None ∧
                 rr_revision (rw_result rw) ≠ revision (engine w)).
  assert (Hg1 : good w1) by (unfold good; tauto).
  set (w2 := if rr_previousStopped (rw_result rw) && _ then _ else w1).
  assert (Hg2 : good w2).
  { unfold w2. destruct (rr_previousStopped (rw_result rw) && _); [|done].
    destruct (activeCandidate (engine w1)) as [c|]; simpl.
    - unfold emitCleanupFailure. by case_match.
    - done. }
  clearbody w2. set (w3 := match rr_warning (rw_result rw) with None => w2 | Some _ => _ end).
  assert (Hg3 : good w3) by (unfold w3; by case_match). clearbody w3.
  rewrite bool_decide_eq_true_2 by apply Hg3. simpl.
  assert (Hg4 : good (discardReplacement dispose_error stopErr (rw_result rw) w3)).
  { unfold discardReplacement.
    destruct (rr_process (rw_result rw)); destruct (rr_candidate (rw_result rw)); done. }
  destruct Hg4 as (Ht & Hs & _). split; [|done]. unfold replaceErr.
  by rewrite (bool_decide_eq_true_2 _ Ht), orb_true_r.
Qed.

(** ** After the run *)

#[local] Arguments at_point _ _ : simpl never.

Lemma run_app t1 t2 w w1 : run t1 w = Some w1 → run (t1 ++ t2) w = run t2 w1.
Proof.
  revert w. induction t1 as [|a t1 IH]; intros w; simpl; [by intros [= ->]|].
  destruct (step a w); simpl; [apply IH|done].
Qed.

Lemma done_replaceErr token w : runDone w = true → replaceErr token w = Some Canceled.
Proof. unfold replaceErr. by intros ->. Qed.

Lemma drain_prep w pw ps : preps w = pw :: ps → runDone w = true →
  ∃ trace w', run trace w = Some w' ∧ preps w' = ps ∧ repls w' = repls w ∧ runDone w' = true.
Proof.
  intros Hp Hd.
  assert (Hab : ∀ w result, preps w = mkPrepWorker (pw_batch pw) (Some result) :: ps →
    runDone w = true → ∃ w', step (PreparationAbandoned 0) w = Some w' ∧
      preps w' = ps ∧ repls w' = repls w ∧ runDone w' = true).
  { intros w0 result Hp0 Hd0. simpl. rewrite Hp0. simpl. rewrite Hd0. simpl. eexists.
    split; [done|]. by destruct (pr_candidate result). }
  destruct (pw_result pw) as [result|] eqn:Hres.
  - destruct (Hab w result) as (w' & E & ?); [rewrite Hp; destruct pw; simpl in *; congruence|done|].
    exists [PreparationAbandoned 0], w'. cbn [Engine.run]. by rewrite E.
  - set (w1 := set_preps (mkPrepWorker (pw_batch pw)
      (Some (mkPreparation (batch_revision (pw_batch pw)) None (Some Canceled))) :: ps)
      w).
    destruct (Hab w1 (mkPreparation (batch_revision (pw_batch pw)) None (Some Canceled)))
      as (w' & E & ?); [done|done|].
    exists [PrepareReturned 0 None (Some Canceled); PreparationAbandoned 0], w'.
    split; [|done]. cbn [Engine.run].
    assert (step (PrepareReturned 0 None (Some Canceled)) w = Some w1) as ->.
    { simpl. rewrite Hp. simpl. rewrite Hres. simpl. f_equal. }
    cbn. cbn in E. by rewrite E.
Qed.

Lemma drain_repl_send w rw rs : repls w = rw :: rs → at_point AtSend rw = true →
  runDone w = true → ∃ w', step (ReplacementAbandoned 0) w = Some w' ∧
    preps w' = preps w ∧ repls w' = rs ∧ runDone w' = true.
Proof.
  intros Hr Hpt Hd. simpl. rewrite Hr. simpl. rewrite Hpt, done_replaceErr by done. simpl.
  eexists. split; [done|]. unfold replaceAbandon.
  by destruct (rr_process (rw_result rw)), (rr_candidate (rw_result rw)).
Qed.

(** From every point the goroutine reaches its last select. *)
Lemma drain_repl_advance w rw rs : repls w = rw :: rs → runDone w = true →
  at_point AtSend rw = false →
  ∃ a w' rw', step a w = Some w' ∧ preps w' = preps w ∧ repls w' = rw' :: rs ∧
    at_point AtSend rw' = true ∧ runDone w' = true.
Proof.
  intros Hr Hd Hpt. unfold at_point in Hpt. destruct (rw_point rw) eqn:Ep; [| | |done].
  - exists (PreviousStopped 0 None). simpl. rewrite Hr. simpl.
    destruct (replaceStopPrevious None rw w) as [rw' w1] eqn:E.
    assert (H1 : preps w1 = preps w ∧ repls w1 = repls w ∧ runDone w1 = true ∧
      at_point AtSend rw' = true).
    { unfold replaceStopPrevious in E.
      destruct (rw_previous rw); injection E as <- <-; unfold at_point; simpl;
        rewrite !done_replaceErr by done; repeat split; try done; by destruct (rr_err (rw_result rw)). }
    destruct H1 as (E1 & E2 & E3 & E4). unfold at_point. rewrite Ep. simpl.
    eexists _, rw'. split; [done|]. simpl. rewrite E2, Hr. done.
  - exists (StartReturned 0 None (Some Canceled)). simpl. rewrite Hr. simpl.
    unfold at_point at 1. rewrite Ep. simpl. eexists _, _. split; [done|]. done.
  - exists (StartUndone 0 None). simpl. rewrite Hr. simpl. unfold at_point at 1. rewrite Ep. simpl.
    eexists _, _. split; [done|]. simpl.
    destruct (rr_process (rw_result rw)); simpl; rewrite Hr; done.
Qed.

Lemma drain_repl w rw rs : repls w = rw :: rs → runDone w = true →
  ∃ trace w', run trace w = Some w' ∧ preps w' = preps w ∧ repls w' = rs ∧ runDone w' = true.
Proof.
  intros Hr Hd. destruct (at_point AtSend rw) eqn:Hpt.
  - destruct (drain_repl_send w rw rs Hr Hpt Hd) as (w' & E & ?).
    exists [ReplacementAbandoned 0], w'. cbn [Engine.run]. by rewrite E.
  - destruct (drain_repl_advance w rw rs Hr Hd Hpt) as (a & w1 & rw1 & E1 & Ep & Er & Hpt1 & Hd1).
    destruct (drain_repl_send w1 rw1 rs Er Hpt1 Hd1) as (w' & E & Ep' & ?).
    exists [a; ReplacementAbandoned 0], w'. cbn [Engine.run]. rewrite E1.
    cbn [mbind option_bind]. rewrite E. split; [done|]. by rewrite Ep', Ep.
Qed.

(** No goroutine outlives the run: once the run context is done, every
    preparation and replacement still under way can finish, without the loop
    and whatever it was doing. *)
Theorem goroutines_drain w : runDone w = true →
  ∃ trace w', run trace w = Some w' ∧ preps w' = [] ∧ repls w' = [].
Proof.
  assert (Hrepls : ∀ rs w, repls w = rs → preps w = [] → runDone w = true →
    ∃ trace w', run trace w = Some w' ∧ preps w' = [] ∧ repls w' = []).
  { induction rs as [|rw rs IH]; intros w0 Hr Hp Hd; [by exists [], w0|].
    destruct (drain_repl w0 rw rs Hr Hd) as (t1 & w1 & E1 & Ep & Er & Hd1).
    destruct (IH w1 Er) as (t2 & w2 & E2 & ?); [congruence|done|].
    exists (t1 ++ t2), w2. by rewrite (run_app t1 t2 _ _ E1). }
  remember (preps w) as ps eqn:Hps. symmetry in Hps. revert w Hps.
  induction ps as [|pw ps IH]; intros w Hps Hd; [by eapply Hrepls|].
  destruct (drain_prep w pw ps Hps Hd) as (t1 & w1 & E1 & Ep & Er & Hd1).
  destruct (IH w1 Ep Hd1) as (t2 & w2 & E2 & ?).
  exists (t1 ++ t2), w2. by rewrite (run_app t1 t2 _ _ E1).
Qed.

(** An engine that could be built can run: with the configuration
    [NewEngine] accepted, defaults filled in, [Run] gets its debouncer. *)
Theorem NewEngine_debouncer config watcher pipeline launcher config' :
  NewEngine config watcher pipeline launcher = Ok config' →
  (0 < QuietPeriod config')%Z ∧ (QuietPeriod config' ≤ MaxDelay config')%Z ∧
  (0 < StopTimeout config')%Z ∧
  NewDebouncer (QuietPeriod config') (MaxDelay config') =
    Ok (mkDebouncer (QuietPeriod config') (MaxDelay config') 0 0 ∅).
Proof.
  unfold NewEngine. intros Hok. inv_ok. bool_prop. split_and!; [lia..|].
  unfold NewDebouncer. destruct (Z.leb_spec (QuietPeriod (withDefaults config)) 0); [lia|].
  destruct (Z.ltb_spec (MaxDelay (withDefaults config)) (QuietPeriod (withDefaults config))); [lia|].
  done.
Qed.
End engine.

#[local] Existing Instance ascii_tables.

Definition quiet_100 : Debouncer := mkDebouncer 100 1000 0 0 ∅.
Definition never_fails (c : nat) : option error := None.
Definition start_world : world := initial quiet_100.

Definition after (trace : list action) : world :=
  default start_world (run never_fails trace start_world).

Definition edit (path : string) : FileEvent := mkFileEvent path ChangeWrite.

(** The first application runs. *)
Definition first_start : list action :=
  [PrepareReturned 0 (Some 1) None; PreparationReceived 0; PreviousStopped 0 None;
   StartReturned 0 (Some 10) None].

(** A change while it runs, prepared without error, up to the received result. *)
Definition replaced : list action :=
  first_start ++
  [ReplacementReceived 0 None; FileChanged 0 0 (edit "a.go"); TimerFired 100 100;
   PrepareReturned 0 (Some 2) None; PreparationReceived 0; PreviousStopped 0 None;
   StartReturned 0 (Some 11) None].

(** A change whose preparation fails. *)
Definition broken : list action :=
  first_start ++
  [ReplacementReceived 0 None; FileChanged 0 0 (edit "a.go"); TimerFired 100 100;
   PrepareReturned 0 None (Some (ErrNew "build failed"))].

Definition stopped : list action :=
  replaced ++ [ReplacementReceived 0 None; LoopEnded (Some Canceled) None None].

(** The first candidate is still starting when a change arrives; the change is
    prepared, and its replacement under way, when the overtaken result is
    received. *)
Definition overtaken : list action :=
  [PrepareReturned 0 (Some 1) None; PreparationReceived 0; PreviousStopped 0 None;
   FileChanged 0 0 (edit "a.go"); TimerFired 100 100;
   StartReturned 0 (Some 10) None; StartUndone 0 None;
   PrepareReturned 0 (Some 2) None; PreparationReceived 0; PreviousStopped 1 None].

Definition lost : list action :=
  overtaken ++
  [ReplacementReceived 0 None; StartReturned 0 (Some 11) None; StartUndone 0 None;
   ReplacementReceived 0 None].

(** No call fails: neither a preparation nor a start. *)
Definition call_succeeds (a : action) : bool :=
  match a with
  | PrepareReturned _ _ err | StartReturned _ _ err => bool_decide (err = None)
  | PreviousStopped _ err | StartUndone _ err | ReplacementReceived _ err => bool_decide (err = None)
  | ProcessExited _ | ExitReceived _ | LoopEnded _ _ _ | WatchFailed _ => false
  | _ => true
  end.

(** The newest candidate can be lost for good: in a run in which every
    preparation, start and stop succeeds and nothing exits by itself, the
    result of the overtaken first replacement cancels the second one; the
    candidate of the newest revision, reported ready, is discarded, no failure
    is reported, nothing is left to do, and no application runs. *)
Theorem latest_candidate_lost :
  ∃ w, run never_fails lost start_world = Some w ∧ forallb call_succeeds lost = true ∧
    active (engine w) = None ∧ preps w = [] ∧ repls w = [] ∧ returned w = None ∧
    Pending (debouncer (engine w)) = false ∧ debounceC (engine w) = None ∧
    revision (engine w) = 2%Z ∧
    ev_Kind <$> filter (λ e, ev_Revision e = 2%Z) (emitted w) =
      [EventAnalysisStarted; EventCandidateReady; EventCandidateDiscarded] ∧
    existsb (λ e, bool_decide (ev_Kind e = EventPreparationFailed)) (emitted w) = false.
Proof. exists (after lost). vm_compute. repeat split. Qed.

Lemma runs_to (trace : list action) :
  bool_decide (is_Some (run never_fails trace start_world)) = true →
  reachable never_fails quiet_100 (length trace) (after trace).
Proof.
  intros Hs. apply bool_decide_eq_true in Hs as [w Hw]. exists trace. split; [reflexivity|].
  change (initial quiet_100) with start_world. unfold after. rewrite Hw. reflexivity.
Defined.

Lemma candidates_owned_once_witness :
  let w := after replaced in
  NoDup (omap pw_candidate (preps w) ++ omap rw_candidate (repls w) ++
         option_list (activeCandidate (engine w))) ∧
  ∀ c, c ∈ produced w →
    (c ∈ omap pw_candidate (preps w) ++ omap rw_candidate (repls w) ++
         option_list (activeCandidate (engine w)) ∧ c ∉ disposed w) ∨
    (c ∉ omap pw_candidate (preps w) ++ omap rw_candidate (repls w) ++
         option_list (activeCandidate (engine w)) ∧ c ∈ disposed w).
Proof.
  apply (candidates_owned_once never_fails quiet_100 (length replaced)).
  - apply runs_to. vm_compute. reflexivity.
  - vm_compute. reflexivity.
Defined.

Lemma run_leaves_nothing_witness :
  (∀ c, c ∈ produced (after stopped) → c ∈ disposed (after stopped)) ∧
  (∀ p, p ∈ started (after stopped) → p ∈ exited (after stopped)).
Proof.
  apply (run_leaves_nothing never_fails quiet_100 (length stopped)).
  - apply runs_to. vm_compute. reflexivity.
  - vm_compute. reflexivity.
  - vm_compute. eexists. reflexivity.
  - vm_compute. reflexivity.
  - vm_compute. reflexivity.
Defined.

Lemma only_latest_becomes_active_witness :
  let w := after replaced in
  let w' := after (replaced ++ [ReplacementReceived 0 None]) in
  activeRevision (engine w') = revision (engine w') ∧
  Pending (debouncer (engine w')) = false ∧
  (∀ q, active (engine w) = Some q → q ∈ exited w').
Proof.
  apply (only_latest_becomes_active never_fails quiet_100 (length replaced) _
    (ReplacementReceived 0 None) _ 11).
  - apply runs_to. vm_compute. reflexivity.
  - vm_compute. reflexivity.
  - vm_compute. reflexivity.
  - vm_compute. reflexivity.
  - vm_compute. discriminate.
Defined.

Lemma failure_keeps_last_known_good_witness :
  let w := after broken in
  let w' := after (broken ++ [PreparationReceived 0]) in
  active (engine w') = active (engine w) ∧ activeRevision (engine w') = activeRevision (engine w) ∧
  repls w' = repls w ∧ exited w' = exited w ∧
  (2%Z = revision (engine w) → Pending (debouncer (engine w)) = false →
   is_canceled (Some (ErrNew "build failed")) = false → is_active w = true →
   emitted w' = emitted w ++
     [mkEvent EventPreparationFailed 2 [] (Some (ErrNew "build failed")) true;
      mkEvent EventLastKnownGood (activeRevision (engine w)) [] (Some (ErrNew "build failed")) true]).
Proof.
  eapply (failure_keeps_last_known_good never_fails (after broken) 0 _
    (mkPreparation 2 None (Some (ErrNew "build failed")))).
  - vm_compute. reflexivity.
  - reflexivity.
  - reflexivity.
  - vm_compute. reflexivity.
Defined.

Lemma stale_result_cancels_current_witness :
  let w' := after (overtaken ++ [ReplacementReceived 0 None]) in
  replaceErr 1 w' = Some Canceled ∧ replaceStop (engine w') = None.
Proof.
  eapply (stale_result_cancels_current never_fails (after overtaken) 0 _ None 1).
  - vm_compute. reflexivity.
  - vm_compute. reflexivity.
  - vm_compute. discriminate.
  - vm_compute. reflexivity.
Defined.

Lemma goroutines_drain_witness : ∃ trace w',
  run never_fails trace
    (after (first_start ++ [LoopEnded (Some Canceled) None None])) = Some w' ∧
  preps w' = [] ∧ repls w' = [].
Proof. apply (goroutines_drain never_fails). vm_compute. reflexivity. Defined.

Lemma NewEngine_debouncer_witness :
  (0 < 150000000)%Z ∧ (150000000 ≤ 2000000000)%Z ∧ (0 < 15000000000)%Z ∧
  NewDebouncer 150000000 2000000000 = Ok (mkDebouncer 150000000 2000000000 0 0 ∅).
Proof.
  apply (NewEngine_debouncer (mkConfig 0 0 0) true true true
    (mkConfig 150000000 2000000000 15000000000)).
  vm_compute. reflexivity.
Defined.

(** ** The debouncer *)

Definition burst : list (Z * FileEvent) :=
  [(10%Z, mkFileEvent "b.go" ChangeRemove); (60%Z, mkFileEvent "a.go" ChangeWrite);
   (90%Z, mkFileEvent "b.go" ChangeCreate)].

Definition burst_end : Debouncer :=
  match add_burst burst quiet_100 with Ok d => d | Fail _ => quiet_100 end.

Lemma burst_deadline_witness :
  Deadline burst_end = Some (Z.min (90 + 100) (10 + 1000)) ∧
  ∀ now revision, is_Some (Take now revision burst_end).1 ↔ (Z.min (90 + 100) (10 + 1000) ≤ now)%Z.
Proof.
  eapply (burst_deadline 100 1000 quiet_100 burst burst_end 10 _ 90 _).
  - reflexivity.
  - vm_compute. reflexivity.
  - reflexivity.
  - reflexivity.
Defined.

Lemma burst_batch_witness :
  ∃ changes d', Take 190 7 burst_end = (Some (mkBatch 7 changes), d') ∧
    Pending d' = false ∧
    StronglySorted (λ a b, str_ltb (fe_Path a) (fe_Path b) = true) changes ∧
    ∀ path kind, mkFileEvent path kind ∈ changes ↔ merged_kind path burst.*2 = Some kind.
Proof.
  apply (burst_batch 100 1000 quiet_100 burst burst_end).
  - reflexivity.
  - vm_compute. reflexivity.
  - exists 190%Z. split; [vm_compute; reflexivity|lia].
Defined.

Lemma merged_kind_history_witness :
  (ChangeWrite = ChangeRemove ↔ true = false) ∧
  (true = true → true = true → ChangeWrite = ChangeWrite).
Proof.
  apply (merged_kind_history "b.go" [mkFileEvent "b.go" ChangeRemove; mkFileEvent "b.go" ChangeCreate]).
  - repeat constructor.
  - reflexivity.
  - reflexivity.
Defined.
