(* ===== verification/Sha256.v ===== *)
(** [crypto/sha256] and [encoding/hex] for the digests of generated files:
    SHA-256 on byte strings (FIPS 180-4), as 32-bit words in [Z]. *)
From S2P Require Import Prelude GoSort GoStrings.
Local Open Scope Z_scope.

Definition wrap32 (x : Z) : Z := x mod 4294967296.
Definition add32 (x y : Z) : Z := wrap32 (x + y).
Definition rotr (n x : Z) : Z :=
  Z.lor (Z.shiftr x n) (wrap32 (Z.shiftl x (32 - n))).

(** The constants of the standard: the first 32 bits of the fractional parts of
    the cube roots and of the square roots of the first primes. *)
Fixpoint primes_from (count fuel : nat) (found : list Z) (n : Z) : list Z :=
  match count, fuel with
  | S count', S fuel' =>
      if existsb (λ p, n mod p =? 0) found then primes_from count fuel' found (n + 1)
      else n :: primes_from count' fuel' (n :: found) (n + 1)
  | _, _ => []
  end.

(** The integer cube root, bit by bit from the top. *)
Fixpoint cube_root (bits : nat) (root n : Z) : Z :=
  match bits with
  | O => root
  | S bits' =>
      let next := root + 2 ^ Z.of_nat bits' in
      cube_root bits' (if next * next * next <=? n then next else root) n
  end.

Definition round_constants : list Z :=
  Eval vm_compute in
    (λ p, wrap32 (cube_root 36 0 (Z.shiftl p 96))) <$> primes_from 64 320 [] 2.
Definition initial_state : list Z :=
  Eval vm_compute in (λ p, wrap32 (Z.sqrt (Z.shiftl p 64))) <$> primes_from 8 320 [] 2.

Definition bytes_of (s : string) : list Z := (λ c, Z.of_N (byte_of c)) <$> String.list_ascii_of_string s.

(** The message, the bit 1, zeros and the length in bits, a multiple of 64
    bytes. *)
Definition padded (msg : list Z) : list Z :=
  let len := Z.of_nat (length msg) in
  let zeros := Z.to_nat ((55 - len) mod 64) in
  msg ++ [128] ++ replicate zeros 0 ++
  ((λ i, Z.shiftr (len * 8) (8 * (7 - Z.of_nat i)) mod 256) <$> seq 0 8).

Fixpoint words (bytes : list Z) : list Z :=
  match bytes with
  | a :: b :: c :: d :: rest => (((a * 256 + b) * 256 + c) * 256 + d) :: words rest
  | _ => []
  end.

(** The message schedule, latest word first. *)
Fixpoint schedule (n : nat) (w : list Z) : list Z :=
  match n with
  | O => w
  | S n' =>
      let at' i := nth i w 0 in
      let s0 := Z.lxor (rotr 7 (at' 14%nat)) (Z.lxor (rotr 18 (at' 14%nat)) (Z.shiftr (at' 14%nat) 3)) in
      let s1 := Z.lxor (rotr 17 (at' 1%nat)) (Z.lxor (rotr 19 (at' 1%nat)) (Z.shiftr (at' 1%nat) 10)) in
      schedule n' (wrap32 (at' 15%nat + s0 + at' 6%nat + s1) :: w)
  end.

Definition round (st : list Z) (kw : Z * Z) : list Z :=
  match st with
  | [a; b; c; d; e; f; g; h] =>
      let s1 := Z.lxor (rotr 6 e) (Z.lxor (rotr 11 e) (rotr 25 e)) in
      let ch := Z.lxor (Z.land e f) (Z.land (Z.lxor e 4294967295) g) in
      let t1 := wrap32 (h + s1 + ch + kw.1 + kw.2) in
      let s0 := Z.lxor (rotr 2 a) (Z.lxor (rotr 13 a) (rotr 22 a)) in
      let maj := Z.lxor (Z.land a b) (Z.lxor (Z.land a c) (Z.land b c)) in
      [add32 t1 (add32 s0 maj); a; b; c; add32 d t1; e; f; g]
  | _ => st
  end.

Definition compress (st block : list Z) : list Z :=
  let w := reverse (schedule 48 (reverse block)) in
  zip_with add32 st (foldl round st (zip round_constants w)).

Fixpoint blocks (fuel : nat) (ws : list Z) : list (list Z) :=
  match fuel, ws with
  | S fuel', _ :: _ => take 16 ws :: blocks fuel' (drop 16 ws)
  | _, _ => []
  end.

(** The digest, eight 32-bit words. *)
Definition sum256 (content : string) : list Z :=
  let ws := words (padded (bytes_of content)) in
  foldl compress initial_state (blocks (length ws) ws).

(** [hex.EncodeToString(digest[:])] *)
Definition digest_hex (digest : list Z) : string :=
  join ((λ w, hex_fixed 8 (Z.to_N w)) <$> digest) "".

Example sum256_abc :
  digest_hex (sum256 "abc") = "ba7816bf8f01cfea414140de5dae2223b00361a396177a9cb410ff61f20015ad".
Proof. vm_compute. reflexivity. Qed.

(** ** The shape of a digest *)

Lemma length_compress st block : length st = 8%nat → length (compress st block) = 8%nat.
Proof.
  intros Hst. unfold compress. rewrite length_zip_with.
  assert (∀ kws s, length s = 8%nat → length (foldl round s kws) = 8%nat) as Hr.
  { intros kws. induction kws as [|kw kws IH]; intros s Hs; [done|]. apply IH.
    do 9 (destruct s as [|? s]; simplify_eq/=); done. }
  rewrite Hr by done. lia.
Qed.

Lemma length_sum256 content : length (sum256 content) = 8%nat.
Proof.
  unfold sum256. assert (length initial_state = 8%nat) as H by done. revert H.
  generalize initial_state. generalize (blocks (length (words (padded (bytes_of content))))
    (words (padded (bytes_of content)))).
  intros bs. induction bs as [|b bs IH]; intros st Hst; [done|]. by apply IH, length_compress.
Qed.

(** The text of a lower-case hexadecimal digit. *)
Definition is_hex (c : ascii) : bool :=
  let n := byte_of c in in_range 48 57 n || in_range 97 102 n.

(** The bytes of a string all satisfy [f]. *)
Fixpoint str_forall (f : ascii → bool) (s : string) : bool :=
  match s with EmptyString => true | String c s' => f c && str_forall f s' end.

Lemma str_forall_app f s t : str_forall f (s +:+ t) = str_forall f s && str_forall f t.
Proof. induction s as [|c s IH]; [done|]. rewrite str_cons_app. simpl. by rewrite IH, andb_assoc. Qed.

Lemma hex_digit_is_hex n : (n < 16)%N → is_hex (hex_digit n) = true.
Proof.
  intros Hn. assert (n ∈ (N.of_nat <$> seq 0 16)) as Hin.
  { apply list_elem_of_fmap. exists (N.to_nat n). split; [lia|]. apply elem_of_seq. lia. }
  clear Hn. revert n Hin. apply Forall_forall. repeat constructor.
Qed.

Lemma hex_fixed_spec w n :
  String.length (hex_fixed w n) = w ∧ str_forall is_hex (hex_fixed w n) = true.
Proof.
  revert n. induction w as [|w IH]; intros n; [done|]. simpl. destruct (IH (n / 16)%N) as [Hl Hf].
  rewrite length_str_app, str_forall_app, Hl, Hf. cbn [str1 String.length str_forall].
  rewrite hex_digit_is_hex by (apply N.mod_lt; lia). split; [lia|done].
Qed.

Lemma digest_hex_spec d :
  String.length (digest_hex d) = (8 * length d)%nat ∧ str_forall is_hex (digest_hex d) = true.
Proof.
  unfold digest_hex. induction d as [|w d [IHl IHf]]; [done|].
  destruct (hex_fixed_spec 8 (Z.to_N w)) as [Hl Hf].
  destruct d as [|w' d]; [cbn in *; by rewrite Hl, Hf|].
  cbn [fmap list_fmap] in *. rewrite join_cons_ne by done.
  rewrite str_nil_app, length_str_app, str_forall_app, Hl, Hf, IHl, IHf. simpl length. split; [lia|done].
Qed.
