(* ===== verification/GenPlan.v ===== *)
(** Generation plans ([compiler/generate/generate.go], the data) and what
    [internal/genfs/genfs.go] demands of them before it touches a disk: safe
    relative paths, the target's output area, the agreement of files and
    manifest, the ownership of source units, and which older manifests a
    target may take over. *)
From S2P Require Import Prelude GoSort GoStrings Sha256.

(** ** Data of package generate *)

Definition SchemaVersion : Z := 6.
Definition GeneratorVersion : string := "v0.1.0-preview.8".

(** [Layout] and [FileRole] are string types. *)
Definition LayoutGeneratedPackage : string := "generated-package".
Definition LayoutApplicationPackage : string := "application-package".
Definition FileRoleSourceUnit : string := "source-unit".
Definition FileRoleSourceShard : string := FileRoleSourceUnit.

Record Target := {
  t_ID : string;
  t_Layout : string;
  t_ModulePath : string;
  t_ModuleRoot : string;
  t_PackagePath : string;
  t_EntrypointPackagePath : string;
  t_OutputDir : string;
  t_BridgeDir : string;
  t_ManifestPath : string;
}.

Record TargetSummary := {
  s_ID : string;
  s_Layout : string;
  s_ModulePath : string;
  s_PackagePath : string;
  s_EntrypointPackagePath : string;
  s_OutputDir : string;
  s_BridgeDir : string;
  s_ManifestPath : string;
}.
#[export] Instance TargetSummary_eq_dec : EqDecision TargetSummary.
Proof. solve_decision. Defined.

Record SourceOrigin := {
  o_Path : string;
  o_Line : Z;
  o_Column : Z;
  o_Symbol : string;
}.
#[export] Instance SourceOrigin_eq_dec : EqDecision SourceOrigin.
Proof. solve_decision. Defined.

Record GeneratedRange := {
  StartLine : Z;
  StartColumn : Z;
  EndLine : Z;
  EndColumn : Z;
}.
#[export] Instance GeneratedRange_eq_dec : EqDecision GeneratedRange.
Proof. solve_decision. Defined.

Record SourceMapping := {
  sm_Kind : string;
  sm_Contribution : string;
  sm_Source : SourceOrigin;
  sm_Generated : GeneratedRange;
  sm_RelatedSource : list SourceOrigin;
}.

Record ManifestFile := {
  mf_Path : string;
  mf_SHA256 : string;
  mf_Role : string;
  mf_PrimarySource : option SourceOrigin;
  mf_RelatedSources : list SourceOrigin;
  mf_Mappings : list SourceMapping;
}.

Record Manifest := {
  m_Schema : Z;
  m_Target : TargetSummary;
  m_GeneratorVersion : string;
  m_GoFormatLine : string;
  m_InputSHA256 : string;
  m_Files : list ManifestFile;
}.

Record File := {
  f_Path : string;
  f_Mode : Z;
  f_SHA256 : string;
  f_Role : string;
  f_PrimarySource : option SourceOrigin;
  f_RelatedSources : list SourceOrigin;
  f_Mappings : list SourceMapping;
  f_Sources : list SourceOrigin;
  f_content : string;
}.

(** The accessors of [Plan] return copies; values are immutable here. *)
Record Plan := {
  p_target : Target;
  p_files : list File;
  p_manifest : Manifest;
  p_manifestContent : string;
}.

(** The libraries the package calls on whole documents: [json.Valid],
    [json.Unmarshal] into a [Manifest], [json.Marshal] of a string and
    [parser.ParseFile]. *)
Class GenLibraries := {
  json_valid : string → bool;
  json_unmarshal : string → outcome error Manifest;
  json_string : string → string;
  parse_file : string → string → option error;
}.

(** ** Hashes, markers and extensions *)

Definition generatedMarker : string := "// Code generated by Spice. DO NOT EDIT.".

Definition hashContent (content : string) : string :=
  "sha256:" +:+ digest_hex (sum256 content).

(** [hex.DecodeString] accepts the upper-case digits too. *)
Definition is_hex_any (c : ascii) : bool := is_hex c || in_range 65 70 (byte_of c).
Definition validHash (value : string) : bool :=
  if (negb (String.length value =? 7 + 64)%nat) || negb (has_prefix value "sha256:") then false
  else str_forall is_hex_any (trim_prefix value "sha256:").

Definition hasGeneratedMarker (content : string) : bool :=
  if has_prefix content (generatedMarker +:+ newline_str) then true
  else if negb (has_prefix content "//go:build ") then false
  else let '(_, remainder, found) := cut content (newline_str +:+ newline_str) in
       found && has_prefix remainder (generatedMarker +:+ newline_str).

Definition requiresGeneratedMarker (filePath : string) : bool :=
  bool_decide (path_ext filePath = ".go").

Definition supportedGeneratedExtension (filePath : string) : bool :=
  let extension := path_ext filePath in
  bool_decide (extension = ".go") || bool_decide (extension = ".json").

(** [content[len(content)-1] == '\n'] of a content that is not empty. *)
Definition ends_in_newline (content : string) : bool :=
  bool_decide (str_get (String.length content - 1) content = Some newline).

Section plan.
Context `{UnicodeTables} `{GenLibraries}.

(** ** Paths *)

Definition reservedWindowsName (component : string) : bool :=
  let base := to_upper (trim_space (cut component ".").1.1) in
  if bool_decide (base ∈ ["CON"; "PRN"; "AUX"; "NUL"]) then true
  else if (String.length base =? 4)%nat && (has_prefix base "COM" || has_prefix base "LPT")
  then match str_get 3 base with Some c => in_range 49 57 (byte_of c) | None => false end
  else false.

Definition validateRelativePath (filePath : string) : outcome error () :=
  guard_or (negb (bool_decide (filePath = "" ∨ filePath = ".")))
    (ErrNew "path must name a module-relative file or directory") ;;
  guard_or (negb (contains_any filePath [backslash; chr 0]))
    (ErrNew "path must use slash separators and contain no NUL bytes") ;;
  guard_or (negb (negb (bool_decide (path_clean filePath = filePath)) ||
                  path_is_abs filePath || negb (is_local filePath)))
    (ErrNew "path must be clean, local, and contain no parent traversal") ;;
  match list_find (λ component, reservedWindowsName component = true) (split_byte slash filePath) with
  | Some (_, component) =>
      Fail (ErrNew ("path component " +:+ go_quote component +:+
                    " is a Windows reserved device name"))
  | None => Ok ()
  end.

(** The area of the module a target may write. *)
Definition withinTargetOutput (target : Target) (filePath role : string) : bool :=
  if bool_decide (t_OutputDir target = ".") && bool_decide (path_dir filePath = ".") then true
  else if negb (bool_decide (filePath = t_OutputDir target)) &&
          has_prefix filePath (t_OutputDir target +:+ "/") then true
  else if bool_decide (t_Layout target = LayoutApplicationPackage) &&
          negb (bool_decide (t_BridgeDir target = "")) &&
          bool_decide (path_dir filePath = t_BridgeDir target) then true
  else bool_decide (role = "source-shard") && bool_decide (path_ext filePath = ".go") &&
       has_suffix (path_base filePath) ("_" +:+ t_ID target +:+ "_spice_gen.go").

(** [fmt.Errorf] with [%w]. *)
Definition wrap_err (prefix : string) {A} (m : outcome error A) : outcome error A :=
  match m with Ok a => Ok a | Fail e => Fail (ErrWrap prefix e) end.

(** ** Files of a plan *)

Definition validateGeneratedContent (filePath content : string) : outcome error () :=
  let extension := path_ext filePath in
  if bool_decide (extension = ".go") then
    guard_or (hasGeneratedMarker content)
      (ErrNew ("generated Go file " +:+ go_quote filePath +:+
               " does not contain the canonical Spice generated header"))
  else if bool_decide (extension = ".json") then
    guard_or (negb (bool_decide (content = "") || negb (ends_in_newline content) ||
                    negb (json_valid content)))
      (ErrNew ("generated JSON file " +:+ go_quote filePath +:+
               " must be valid JSON ending in a newline"))
  else Fail (ErrNew ("generated file " +:+ go_quote filePath +:+
                     " must use a supported .go or .json extension")).

Definition sourceOriginPointersEqual (left right : option SourceOrigin) : bool :=
  match left, right with
  | None, None => true
  | None, Some _ => false
  | Some _, None => false
  | Some l, Some r => bool_decide (l = r)
  end.

Fixpoint equal_func {A} (eq : A → A → bool) (left right : list A) : bool :=
  match left, right with
  | [], [] => true
  | l :: left', r :: right' => eq l r && equal_func eq left' right'
  | _, _ => false
  end.

Definition sourceMappingsEqual (left right : list SourceMapping) : bool :=
  equal_func (λ leftMapping rightMapping,
    bool_decide (sm_Kind leftMapping = sm_Kind rightMapping) &&
    bool_decide (sm_Contribution leftMapping = sm_Contribution rightMapping) &&
    bool_decide (sm_Source leftMapping = sm_Source rightMapping) &&
    bool_decide (sm_Generated leftMapping = sm_Generated rightMapping) &&
    bool_decide (sm_RelatedSource leftMapping = sm_RelatedSource rightMapping)) left right.

Definition planFileMatchesManifest (file : File) (manifestFile : ManifestFile) : bool :=
  bool_decide (mf_Path manifestFile = f_Path file) &&
  bool_decide (mf_SHA256 manifestFile = f_SHA256 file) &&
  bool_decide (mf_Role manifestFile = f_Role file) &&
  sourceOriginPointersEqual (mf_PrimarySource manifestFile) (f_PrimarySource file) &&
  bool_decide (mf_RelatedSources manifestFile = f_RelatedSources file) &&
  sourceMappingsEqual (mf_Mappings manifestFile) (f_Mappings file).

(** One mapping of a source unit, in the loop of [validateFileOwnership]. *)
Definition validateMapping (primary : SourceOrigin) (mapping : SourceMapping) : outcome error () :=
  guard_or (bool_decide (o_Path (sm_Source mapping) = o_Path primary))
    (ErrNew ("source mapping " +:+ go_quote (sm_Contribution mapping) +:+ " names " +:+
             go_quote (o_Path (sm_Source mapping)) +:+ " instead of primary source " +:+
             go_quote (o_Path primary))) ;;
  guard_or (negb (bool_decide (sm_Kind mapping = "") || bool_decide (sm_Contribution mapping = "")))
    (ErrNew "source mapping requires kind and contribution identity") ;;
  let g := sm_Generated mapping in
  guard_or (negb ((StartLine g <=? 0) || (StartColumn g <=? 0) || (EndLine g <? StartLine g) ||
                  (EndLine g =? StartLine g) && (EndColumn g <=? StartColumn g))%Z)
    (ErrNew ("source mapping " +:+ go_quote (sm_Contribution mapping) +:+
             " has an invalid generated range")).

(** [for _, x := range l { if err := f(x); err != nil { return err } }] *)
Fixpoint each_ok {A} (f : A → outcome error ()) (l : list A) : outcome error () :=
  match l with [] => Ok () | x :: l' => f x ;; each_ok f l' end.

Definition validateFileOwnership (file : File) : outcome error () :=
  if negb (bool_decide (f_Role file = FileRoleSourceUnit)) then Ok ()
  else match f_PrimarySource file with
  | None => Fail (ErrNew "source unit requires one primary source")
  | Some primary =>
      guard_or (negb (length (f_Mappings file) =? 0)%nat)
        (ErrNew "source unit requires at least one source mapping") ;;
      each_ok (validateMapping primary) (f_Mappings file)
  end.

Definition validatePlanFile (file : File) (manifestFile : ManifestFile) (target : Target)
    : outcome error () :=
  wrap_err ("generated file " +:+ go_quote (f_Path file)) (validateRelativePath (f_Path file)) ;;
  guard_or (withinTargetOutput target (f_Path file) (f_Role file))
    (ErrNew ("generated file " +:+ go_quote (f_Path file) +:+ " is outside output directory " +:+
             go_quote (t_OutputDir target))) ;;
  validateGeneratedContent (f_Path file) (f_content file) ;;
  guard_or (bool_decide (hashContent (f_content file) = f_SHA256 file))
    (ErrNew ("generated file " +:+ go_quote (f_Path file) +:+
             " content does not match its SHA-256")) ;;
  guard_or (planFileMatchesManifest file manifestFile)
    (ErrNew "plan files and manifest entries are not identically ordered") ;;
  wrap_err ("generated file " +:+ go_quote (f_Path file)) (validateFileOwnership file).

(** The loop of [validatePlanFiles]; [seen] are the lower-cased paths so far. *)
Fixpoint validatePlanFilesLoop (files : list File) (manifestFiles : list ManifestFile)
    (target : Target) (seen : gset string) : outcome error (gset string) :=
  match files, manifestFiles with
  | file :: files', manifestFile :: manifestFiles' =>
      validatePlanFile file manifestFile target ;;
      let key := to_lower (f_Path file) in
      guard_or (bool_decide (key ∉ seen))
        (ErrNew ("generation plan contains case-colliding path " +:+ go_quote (f_Path file))) ;;
      validatePlanFilesLoop files' manifestFiles' target ({[key]} ∪ seen)
  | _, _ => Ok seen
  end.

Definition validatePlanFiles (plan : Plan) (target : Target) (manifest : Manifest)
    : outcome error () :=
  let files := p_files plan in
  guard_or (length files =? length (m_Files manifest))%nat
    (ErrNew "plan file set does not match manifest file set") ;;
  seen ← validatePlanFilesLoop files (m_Files manifest) target ∅;
  let manifestKey := to_lower (t_ManifestPath target) in
  guard_or (bool_decide (manifestKey ∉ seen))
    (ErrNew ("generation manifest path " +:+ go_quote (t_ManifestPath target) +:+
             " collides with a generated file")) ;;
  let encoded := p_manifestContent plan in
  guard_or (negb (bool_decide (encoded = "") || negb (ends_in_newline encoded)))
    (ErrNew "plan manifest content must be non-empty canonical JSON ending in a newline").

(** ** The target and the manifest of a plan *)

Definition validatePlanTargetLayout (target : Target) : outcome error () :=
  if bool_decide (t_Layout target = LayoutApplicationPackage) then
    (if negb (bool_decide (t_BridgeDir target = ".")) then
       wrap_err "generation entrypoint directory" (validateRelativePath (t_BridgeDir target))
     else Ok ()) ;;
    guard_or (negb (bool_decide (t_BridgeDir target = "")))
      (ErrNew "generation entrypoint directory is required") ;;
    guard_or (negb (bool_decide (t_EntrypointPackagePath target = "")))
      (ErrNew "generation entrypoint package import path is required")
  else if bool_decide (t_Layout target = LayoutGeneratedPackage) then
    guard_or (bool_decide (t_BridgeDir target = ""))
      (ErrNew "generated-package target must not declare an entrypoint directory") ;;
    guard_or (bool_decide (t_EntrypointPackagePath target = ""))
      (ErrNew "generated-package target must not declare an entrypoint package")
  else Fail (ErrNew ("generation target layout " +:+ go_quote (t_Layout target) +:+
                     " is unsupported")).

Definition validatePlanOutputDirectory (target : Target) : outcome error () :=
  if bool_decide (t_OutputDir target = ".") then
    guard_or (bool_decide (t_Layout target = LayoutApplicationPackage))
      (ErrNew "generation output directory may be the module root only for an application-package target")
  else wrap_err "generation output directory" (validateRelativePath (t_OutputDir target)).

Definition validatePlanTarget (target : Target) : outcome error () :=
  validatePlanTargetLayout target ;;
  validatePlanOutputDirectory target ;;
  wrap_err "generation manifest path" (validateRelativePath (t_ManifestPath target)) ;;
  guard_or (negb (withinTargetOutput target (t_ManifestPath target) ""))
    (ErrNew "generation manifest must be outside the generated package directory").

Definition validatePlanManifest (target : Target) (manifest : Manifest) : outcome error () :=
  guard_or (m_Schema manifest =? SchemaVersion)%Z
    (ErrNew ("plan manifest schema " +:+ itoa (m_Schema manifest) +:+ " is unsupported")) ;;
  let summary := m_Target manifest in
  guard_or (bool_decide (s_ID summary = t_ID target) &&
            bool_decide (s_ModulePath summary = t_ModulePath target) &&
            bool_decide (s_PackagePath summary = t_PackagePath target) &&
            bool_decide (s_EntrypointPackagePath summary = t_EntrypointPackagePath target) &&
            bool_decide (s_OutputDir summary = t_OutputDir target) &&
            bool_decide (s_BridgeDir summary = t_BridgeDir target) &&
            bool_decide (s_ManifestPath summary = t_ManifestPath target))
    (ErrNew "plan manifest target does not match plan target").

Definition validatePlan (plan : Plan) : outcome error () :=
  let target := p_target plan in
  guard_or (negb (bool_decide (t_ModuleRoot target = "") || negb (path_is_abs (t_ModuleRoot target))))
    (ErrNew ("generation module root " +:+ go_quote (t_ModuleRoot target) +:+
             " must be absolute")) ;;
  validatePlanTarget target ;;
  let manifest := p_manifest plan in
  validatePlanManifest target manifest ;;
  validatePlanFiles plan target manifest.

(** ** Taking over an older manifest *)

Record ApplyOptions := { RelocateModuleFrom : string }.

Definition validateApplyOptions (target : Target) (options : ApplyOptions) : outcome error () :=
  let previous := RelocateModuleFrom options in
  if bool_decide (previous = "") then Ok ()
  else
    guard_or (negb (negb (bool_decide (previous = trim_space previous)) ||
                    bool_decide (previous = ".") || bool_decide (previous = "..") ||
                    contains previous (str1 backslash) || has_prefix previous "/" ||
                    has_suffix previous "/" || negb (bool_decide (path_clean previous = previous))))
      (ErrNew ("previous generation module path " +:+ go_quote previous +:+ " is invalid")) ;;
    guard_or (negb (bool_decide (previous = t_ModulePath target)))
      (ErrNew "previous generation module path matches the current module path").

Definition relocateModuleImportPath (importPath currentModule previousModule : string)
    : string * bool :=
  if bool_decide (importPath = "") then ("", true)
  else if bool_decide (importPath = currentModule) then (previousModule, true)
  else
    let prefix := currentModule +:+ "/" in
    if negb (has_prefix importPath prefix) then ("", false)
    else (previousModule +:+ trim_prefix importPath currentModule, true).

Definition compatibleRelocatedTarget (prior selected : TargetSummary) (previousModule : string) : bool :=
  if bool_decide (previousModule = "") ||
     negb (bool_decide (s_ID prior = s_ID selected)) ||
     negb (bool_decide (s_Layout prior = s_Layout selected)) ||
     negb (bool_decide (s_ModulePath prior = previousModule)) ||
     negb (bool_decide (s_OutputDir prior = s_OutputDir selected)) ||
     negb (bool_decide (s_BridgeDir prior = s_BridgeDir selected)) ||
     negb (bool_decide (s_ManifestPath prior = s_ManifestPath selected))
  then false
  else
    let '(previousPackage, packageOK) :=
      relocateModuleImportPath (s_PackagePath selected) (s_ModulePath selected) previousModule in
    let '(previousEntrypoint, entrypointOK) :=
      relocateModuleImportPath (s_EntrypointPackagePath selected) (s_ModulePath selected)
        previousModule in
    packageOK && entrypointOK &&
    bool_decide (s_PackagePath prior = previousPackage) &&
    bool_decide (s_EntrypointPackagePath prior = previousEntrypoint).

Definition compatibleLegacyTarget (legacy : TargetSummary) (selected : Target) : bool :=
  if negb (bool_decide (s_Layout legacy = "")) ||
     negb (bool_decide (s_ID legacy = t_ID selected)) ||
     negb (bool_decide (s_ModulePath legacy = t_ModulePath selected)) ||
     negb (bool_decide (s_ManifestPath legacy = t_ManifestPath selected))
  then false
  else if bool_decide (t_Layout selected = LayoutGeneratedPackage) then
    bool_decide (s_PackagePath legacy = t_PackagePath selected) &&
    bool_decide (s_OutputDir legacy = t_OutputDir selected)
  else if bool_decide (t_Layout selected = LayoutApplicationPackage) then
    let output := path_join ["internal"; "spicegen"; t_ID selected] in
    bool_decide (s_OutputDir legacy = output) &&
    bool_decide (s_PackagePath legacy = path_join [t_ModulePath selected; output])
  else false.

Definition compatibleSchema2Target (legacy : TargetSummary) (selected : Target) : bool :=
  if negb (bool_decide (s_ID legacy = t_ID selected)) ||
     negb (bool_decide (s_Layout legacy = t_Layout selected)) ||
     negb (bool_decide (s_ModulePath legacy = t_ModulePath selected)) ||
     negb (bool_decide (s_ManifestPath legacy = t_ManifestPath selected))
  then false
  else if bool_decide (t_Layout selected = LayoutGeneratedPackage) then
    bool_decide (s_PackagePath legacy = t_PackagePath selected) &&
    bool_decide (s_OutputDir legacy = t_OutputDir selected)
  else if negb (bool_decide (t_Layout selected = LayoutApplicationPackage)) then false
  else
    let packagePath :=
      if negb (bool_decide (t_BridgeDir selected = "."))
      then path_join [t_ModulePath selected; t_BridgeDir selected]
      else t_ModulePath selected in
    bool_decide (s_PackagePath legacy = packagePath) &&
    bool_decide (s_OutputDir legacy = t_BridgeDir selected).

Definition set_s_EntrypointPackagePath (s : TargetSummary) (v : string) : TargetSummary :=
  {| s_ID := s_ID s; s_Layout := s_Layout s; s_ModulePath := s_ModulePath s;
     s_PackagePath := s_PackagePath s; s_EntrypointPackagePath := v;
     s_OutputDir := s_OutputDir s; s_BridgeDir := s_BridgeDir s;
     s_ManifestPath := s_ManifestPath s |}.

Definition set_s_Layout (s : TargetSummary) (v : string) : TargetSummary :=
  {| s_ID := s_ID s; s_Layout := v; s_ModulePath := s_ModulePath s;
     s_PackagePath := s_PackagePath s; s_EntrypointPackagePath := s_EntrypointPackagePath s;
     s_OutputDir := s_OutputDir s; s_BridgeDir := s_BridgeDir s;
     s_ManifestPath := s_ManifestPath s |}.

Definition set_m_Target (m : Manifest) (v : TargetSummary) : Manifest :=
  {| m_Schema := m_Schema m; m_Target := v; m_GeneratorVersion := m_GeneratorVersion m;
     m_GoFormatLine := m_GoFormatLine m; m_InputSHA256 := m_InputSHA256 m;
     m_Files := m_Files m |}.

(** The target of a manifest written before the entrypoint was recorded. *)
Definition compatiblePreEntrypoint (prior expected : TargetSummary) : TargetSummary :=
  if bool_decide (s_EntrypointPackagePath prior = "")
  then set_s_EntrypointPackagePath prior (s_EntrypointPackagePath expected) else prior.

(** The manifest is updated in place; the result is the manifest after it. *)
Definition normalizeManifestTarget (manifest : Manifest) (plan : Plan) (options : ApplyOptions)
    : outcome error Manifest :=
  let schema := m_Schema manifest in
  if ((schema =? SchemaVersion) || (schema =? 5))%Z then
    let expected := m_Target (p_manifest plan) in
    let prior := compatiblePreEntrypoint (m_Target manifest) expected in
    guard_or (negb (negb (bool_decide (prior = expected)) &&
                    negb (compatibleRelocatedTarget prior expected (RelocateModuleFrom options))))
      (ErrNew "ownership manifest target does not match the selected generation target") ;;
    Ok manifest
  else if ((schema =? 4) || (schema =? 3))%Z then
    let expected := m_Target (p_manifest plan) in
    let prior := compatiblePreEntrypoint (m_Target manifest) expected in
    guard_or (bool_decide (prior = expected))
      (ErrNew ("schema-" +:+ itoa schema +:+
               " ownership manifest target does not match the selected generation target")) ;;
    Ok manifest
  else if (schema =? 2)%Z then
    guard_or (compatibleSchema2Target (m_Target manifest) (p_target plan))
      (ErrNew "schema-2 ownership manifest target does not match the selected generation target") ;;
    Ok manifest
  else if (schema =? 1)%Z then
    guard_or (compatibleLegacyTarget (m_Target manifest) (p_target plan))
      (ErrNew "legacy ownership manifest target does not match the selected generation target") ;;
    Ok (set_m_Target manifest (set_s_Layout (m_Target manifest) LayoutGeneratedPackage))
  else Fail (ErrNew ("ownership manifest schema " +:+ itoa schema +:+
                     " is unsupported; expected " +:+ itoa SchemaVersion)).

(** The target whose output area the files of a manifest must lie in. *)
Definition manifestTarget (manifest : Manifest) (selected : Target) : Target :=
  let s := m_Target manifest in
  let old layout :=
    {| t_ID := s_ID s; t_Layout := layout; t_ModulePath := s_ModulePath s;
       t_ModuleRoot := t_ModuleRoot selected; t_PackagePath := s_PackagePath s;
       t_EntrypointPackagePath := ""; t_OutputDir := s_OutputDir s; t_BridgeDir := "";
       t_ManifestPath := s_ManifestPath s |} in
  if (m_Schema manifest =? 2)%Z then old (s_Layout s)
  else if negb (m_Schema manifest =? 1)%Z then selected
  else old LayoutGeneratedPackage.

(** The loop of [decodeManifest]. *)
Fixpoint decodeManifestLoop (ownedTarget : Target) (files : list ManifestFile) (seen : gset string)
    : outcome error () :=
  match files with
  | [] => Ok ()
  | file :: files' =>
      wrap_err ("ownership manifest path " +:+ go_quote (mf_Path file))
        (validateRelativePath (mf_Path file)) ;;
      guard_or (negb (negb (withinTargetOutput ownedTarget (mf_Path file) (mf_Role file)) ||
                      negb (supportedGeneratedExtension (mf_Path file))))
        (ErrNew ("ownership manifest path " +:+ go_quote (mf_Path file) +:+
                 " is outside target output " +:+ go_quote (t_OutputDir ownedTarget))) ;;
      guard_or (validHash (mf_SHA256 file))
        (ErrNew ("ownership manifest path " +:+ go_quote (mf_Path file) +:+
                 " has invalid SHA-256")) ;;
      let key := to_lower (mf_Path file) in
      guard_or (bool_decide (key ∉ seen))
        (ErrNew ("ownership manifest contains duplicate path " +:+ go_quote (mf_Path file))) ;;
      decodeManifestLoop ownedTarget files' ({[key]} ∪ seen)
  end.

Definition decodeManifest (content : string) (plan : Plan) (options : ApplyOptions)
    : outcome error Manifest :=
  manifest ← wrap_err "decode ownership manifest" (json_unmarshal content);
  manifest ← normalizeManifestTarget manifest plan options;
  let ownedTarget := manifestTarget manifest (p_target plan) in
  decodeManifestLoop ownedTarget (m_Files manifest) ∅ ;;
  Ok manifest.
End plan.
