(* ===== verification/GoRoot.v ===== *)
(** The operations of [os.Root], [os.File], [fs.ReadDir] and [fs.WalkDir] that
    the generator uses, on a tree of files below a root directory.

    An entry is stored under the list of its name components; the root is the
    empty list.  A symbolic link is followed in the middle of a path, as
    [os.Root] does, and never out of the root.

    Every call may fail: the world carries a schedule of faults, one for each
    call.  A fault is an error of the operating system that is neither
    [fs.ErrNotExist] nor [fs.ErrExist], and a failed write may leave a part of
    the content.  The fault [FCrash] is the end of the process: from it on no
    call has an effect.  What holds for every schedule thus holds wherever the
    process is stopped. *)
From S2P Require Import Prelude GoSort GoStrings.

Inductive entry : Type :=
  | EDir
  | EFile (content : string) (mode : Z)
  | ELink (target : string)
  | EOther (data : string). (* a device or pipe, and what a read of it gives *)

#[export] Instance entry_eq_dec : EqDecision entry.
Proof. solve_decision. Defined.

Notation key := (list string) (only parsing).
Notation tree := (gmap (list string) entry) (only parsing).

Inductive fault : Type :=
  | FNone
  | FFail (message : string) (written : nat)
  | FCrash.

Record world := {
  w_tree : tree;
  w_faults : list fault; (* the calls to come; none when it is used up *)
  w_random : list N; (* the eight-byte values crypto/rand is going to give *)
  w_links : nat; (* how many links one path may follow *)
}.

Definition set_tree (w : world) (t : tree) : world :=
  {| w_tree := t; w_faults := w_faults w; w_random := w_random w; w_links := w_links w |}.
Definition set_faults (w : world) (fs : list fault) : world :=
  {| w_tree := w_tree w; w_faults := fs; w_random := w_random w; w_links := w_links w |}.
Definition set_random (w : world) (rs : list N) : world :=
  {| w_tree := w_tree w; w_faults := w_faults w; w_random := rs; w_links := w_links w |}.

(** ** Calls with an error result and an effect on the world *)

Definition io (A : Type) : Type := world → outcome error A * world.

#[export] Instance io_ret : MRet io := λ _ a w, (Ok a, w).
#[export] Instance io_bind : MBind io := λ _ _ k m w,
  match m w with
  | (Ok a, w') => k a w'
  | (Fail e, w') => (Fail e, w')
  end.

Definition fail {A} (e : error) : io A := λ w, (Fail e, w).
Definition lift {A} (m : outcome error A) : io A := λ w, (m, w).

(** [x, err := call()] with [err] inspected by the caller. *)
Definition attempt {A} (m : io A) : io (outcome error A) := λ w,
  let '(r, w') := m w in (Ok r, w').

(** [fmt.Errorf("...: %w", err)] *)
Definition wrap_io {A} (prefix : string) (m : io A) : io A := λ w,
  match m w with
  | (Fail e, w') => (Fail (ErrWrap prefix e), w')
  | r => r
  end.

(** The error of a result, [None] for nil. *)
Definition err_of {A} (r : outcome error A) : option error :=
  match r with Ok _ => None | Fail e => Some e end.

(** [for _, x := range l { if err := f(x); err != nil { return err } }] *)
Fixpoint each_io {A} (f : A → io ()) (l : list A) : io () :=
  match l with [] => mret () | x :: l' => f x ;; each_io f l' end.

(** The same loop with a state it updates. *)
Fixpoint fold_io {A S} (f : S → A → io S) (s : S) (l : list A) : io S :=
  match l with [] => mret s | x :: l' => s' ← f s x; fold_io f s' l' end.

(** ** Paths in the tree *)

Definition ErrNotExist : error := ErrSentinel "file does not exist".
Definition ErrExist : error := ErrSentinel "file already exists".
Definition is_not_exist (e : error) : bool := error_is e "file does not exist".
Definition is_exist (e : error) : bool := error_is e "file already exists".

Definition comps (p : string) : list string :=
  filter (λ c, c ≠ "" ∧ c ≠ ".") (split_byte slash p).

Definition entry_at (t : tree) (k : key) : option entry :=
  match k with [] => Some EDir | _ => t !! k end.

(** Where the components [parts] lead from the directory [cur].  The last
    component is followed only with [follow]; it need not exist. *)
Fixpoint resolve (links : nat) (follow : bool) (t : tree) : key → list string → outcome error key :=
  fix go (cur : key) (parts : list string) : outcome error key :=
    match parts with
    | [] => Ok cur
    | part :: rest =>
        if decide (part = "..") then
          match cur with
          | [] => Fail (ErrNew "path escapes from parent")
          | _ => go (take (length cur - 1) cur) rest
          end
        else
          let q := cur ++ [part] in
          let last := match rest with [] => true | _ => false end in
          if last && negb follow then Ok q
          else match t !! q with
          | Some (ELink target) =>
              match links with
              | O => Fail (ErrNew "too many levels of symbolic links")
              | S links' =>
                  if path_is_abs target then Fail (ErrNew "path escapes from parent")
                  else resolve links' follow t cur (comps target ++ rest)
              end
          | Some EDir => go q rest
          | Some _ => if last then Ok q else Fail (ErrNew "not a directory")
          | None => if last then Ok q else Fail ErrNotExist
          end
    end.

Definition locate (w : world) (follow : bool) (p : string) : outcome error key :=
  resolve (w_links w) follow (w_tree w) [] (comps p).

(** The name [k] has in the directory [d]. *)
Fixpoint child_of (d k : key) : option string :=
  match d, k with
  | [], [name] => Some name
  | x :: d', y :: k' => if decide (x = y) then child_of d' k' else None
  | _, _ => None
  end.

Definition children (t : tree) (d : key) : list string :=
  sort_strings (omap (λ kv, child_of d kv.1) (map_to_list t)).

(** ** System calls *)

Definition tick : io fault := λ w,
  match w_faults w with
  | [] => (Ok FNone, w)
  | FCrash :: _ => (Ok FCrash, w)
  | f :: fs => (Ok f, set_faults w fs)
  end.

Definition crashed : error := ErrNew "the process has ended".

(** A call without partial effects. *)
Definition syscall {A} (m : io A) : io A :=
  f ← tick;
  match f with
  | FNone => m
  | FFail message _ => fail (ErrNew message)
  | FCrash => fail crashed
  end.

(** Closing a root or a file, [File.Sync], [os.OpenRoot] of the module root. *)
Definition sys_close : io () := syscall (mret ()).
Definition sys_sync : io () := syscall (mret ()).
Definition open_root : io () := syscall (mret ()).

(** [Root.Lstat] *)
Definition lstat (p : string) : io entry := syscall (λ w,
  (k ← locate w false p;
   match entry_at (w_tree w) k with Some e => Ok e | None => Fail ErrNotExist end, w)).

(** [Root.ReadFile] and [fs.ReadFile] *)
Definition read_file (p : string) : io string := syscall (λ w,
  (k ← locate w true p;
   match entry_at (w_tree w) k with
   | Some (EFile content _) => Ok content
   | Some (EOther data) => Ok data
   | Some EDir => Fail (ErrNew "is a directory")
   | Some (ELink _) => Fail (ErrNew "too many levels of symbolic links")
   | None => Fail ErrNotExist
   end, w)).

Definition update_tree (w : world) (k : key) (e : option entry) : world :=
  set_tree w (partial_alter (λ _, e) k (w_tree w)).

(** [Root.OpenFile] with [O_CREATE|O_EXCL]: an open file, which is known by
    its place in the tree. *)
Definition create_excl (p : string) (mode : Z) : io key := syscall (λ w,
  match locate w false p with
  | Fail e => (Fail e, w)
  | Ok k => match entry_at (w_tree w) k with
            | Some _ => (Fail ErrExist, w)
            | None => (Ok k, update_tree w k (Some (EFile "" mode)))
            end
  end).

(** [File.Write] of a file just created; a failed write leaves a part. *)
Definition write_file (k : key) (content : string) : io () :=
  let put (c : string) : io () := λ w,
    match w_tree w !! k with
    | Some (EFile _ mode) => (Ok (), update_tree w k (Some (EFile c mode)))
    | _ => (Ok (), w)
    end in
  f ← tick;
  match f with
  | FNone => put content
  | FFail message written => put (str_take written content) ;; fail (ErrNew message)
  | FCrash => fail crashed
  end.

(** [File.Chmod] *)
Definition chmod (k : key) (mode : Z) : io () := syscall (λ w,
  match w_tree w !! k with
  | Some (EFile c _) => (Ok (), update_tree w k (Some (EFile c mode)))
  | _ => (Ok (), w)
  end).

(** [Root.Mkdir] *)
Definition mkdir (p : string) : io () := syscall (λ w,
  match locate w false p with
  | Fail e => (Fail e, w)
  | Ok k => match entry_at (w_tree w) k with
            | Some _ => (Fail ErrExist, w)
            | None => (Ok (), update_tree w k (Some EDir))
            end
  end).

(** [Root.Remove] *)
Definition remove (p : string) : io () := syscall (λ w,
  match locate w false p with
  | Fail e => (Fail e, w)
  | Ok k => match entry_at (w_tree w) k with
            | None => (Fail ErrNotExist, w)
            | Some EDir =>
                if decide (k = [] ∨ children (w_tree w) k ≠ [])
                then (Fail (ErrNew "directory not empty"), w)
                else (Ok (), update_tree w k None)
            | Some _ => (Ok (), update_tree w k None)
            end
  end).

(** The tree with the directory [old] and everything below it at [new]. *)
Definition move_dir (t : tree) (old new : key) : tree :=
  filter (λ ke, take (length old) ke.1 ≠ old ∧ ke.1 ≠ new) t ∪
  list_to_map (omap (λ ke : key * entry,
    if decide (take (length old) ke.1 = old)
    then Some (new ++ drop (length old) ke.1, ke.2) else None) (map_to_list t)).

(** [Root.Rename]; a file takes the place of another file, a directory only of
    an empty directory. *)
Definition rename (old new : string) : io () := syscall (λ w,
  match (ko ← locate w false old; kn ← locate w false new; Ok (ko, kn)) with
  | Fail e => (Fail e, w)
  | Ok (ko, kn) =>
      match entry_at (w_tree w) ko, entry_at (w_tree w) kn with
      | None, _ => (Fail ErrNotExist, w)
      | Some EDir, en =>
          if decide (ko = [] ∨ kn = [] ∨ take (length ko) kn = ko ∧ ko ≠ kn)
          then (Fail (ErrNew "invalid argument"), w)
          else if decide (ko = kn) then (Ok (), w)
          else match en with
          | None => (Ok (), set_tree w (move_dir (w_tree w) ko kn))
          | Some EDir => if decide (children (w_tree w) kn = [])
                         then (Ok (), set_tree w (move_dir (w_tree w) ko kn))
                         else (Fail ErrExist, w)
          | Some _ => (Fail (ErrNew "not a directory"), w)
          end
      | Some _, Some EDir => (Fail (ErrNew "is a directory"), w)
      | Some e, _ =>
          if decide (ko = kn) then (Ok (), w)
          else (Ok (), update_tree (update_tree w ko None) kn (Some e))
      end
  end).

(** [fs.ReadDir]: the entries of a directory in the order of their names. *)
Definition read_dir (p : string) : io (list (string * entry)) := syscall (λ w,
  (k ← locate w true p;
   match entry_at (w_tree w) k with
   | Some EDir =>
       Ok (omap (λ name, pair name <$> w_tree w !! (k ++ [name])) (children (w_tree w) k))
   | Some _ => Fail (ErrNew "not a directory")
   | None => Fail ErrNotExist
   end, w)).

(** [fs.Stat] *)
Definition stat (p : string) : io entry := syscall (λ w,
  (k ← locate w true p;
   match entry_at (w_tree w) k with Some e => Ok e | None => Fail ErrNotExist end, w)).

(** [fs.WalkDir(fsys, root, fn)] for a function that passes the errors of the
    walk on and never skips.  [fuel] bounds the depth. *)
Fixpoint walk {S} (fuel : nat) (fn : S → string → entry → io S) (s : S) (p : string) (e : entry)
    : io S :=
  match fuel with
  | O => fail (ErrNew "walk: out of fuel")
  | Datatypes.S fuel' =>
      s' ← fn s p e;
      match e with
      | EDir =>
          entries ← read_dir p;
          fold_io (λ acc ne, walk fuel' fn acc (path_join [p; ne.1]) ne.2) s' entries
      | _ => mret s'
      end
  end.

(** The longest path of the tree. *)
Definition depth (t : tree) : nat := map_fold (λ k _ n, length k `max` n) 0%nat t.

Definition walk_dir {S} (fn : S → string → entry → io S) (s : S) (p : string) : io S :=
  λ w, (e ← stat p; walk (Datatypes.S (Datatypes.S (depth (w_tree w)))) fn s p e) w.

(** ** Rules for the monad *)

Lemma io_bind_ok {A B} (m : io A) (k : A → io B) w b w' :
  (m ≫= k) w = (Ok b, w') ↔ ∃ a w1, m w = (Ok a, w1) ∧ k a w1 = (Ok b, w').
Proof. unfold mbind, io_bind. destruct (m w) as [[a|e] w1]; naive_solver. Qed.

Lemma wrap_io_ok {A} p (m : io A) w a w' : wrap_io p m w = (Ok a, w') ↔ m w = (Ok a, w').
Proof. unfold wrap_io. destruct (m w) as [[?|?] ?]; naive_solver. Qed.

Lemma lift_ok {A} (m : outcome error A) w a w' : lift m w = (Ok a, w') ↔ m = Ok a ∧ w' = w.
Proof. unfold lift. naive_solver. Qed.

Lemma mret_ok {A} (a b : A) w w' : mret (M := io) a w = (Ok b, w') ↔ b = a ∧ w' = w.
Proof. unfold mret, io_ret. naive_solver. Qed.

(** Take a successful computation apart. *)
Ltac inv_io :=
  repeat match goal with
  | H : mbind _ _ _ = (Ok _, _) |- _ => apply io_bind_ok in H as (? & ? & ? & ?)
  | H : wrap_io _ _ _ = (Ok _, _) |- _ => apply wrap_io_ok in H
  | H : lift _ _ = (Ok _, _) |- _ => apply lift_ok in H as [? ->]
  | H : mret _ _ = (Ok _, _) |- _ => apply mret_ok in H as [-> ->]
  | H : fail _ _ = (Ok _, _) |- _ => discriminate H
  end.
