(* ===== verification/GoPath.v ===== *)
(** Clean relative paths: the strings that are their own [path.Clean], as lists
    of names, and what [path.Join], [path.Dir] and [path.Base] do to them. *)
From S2P Require Import Prelude GoSort GoStrings GoRoot.

(** A name that can be a component of a clean path. *)
Definition good_name (c : string) : Prop :=
  c ≠ "" ∧ c ≠ "." ∧ c ≠ ".." ∧ contains_byte c slash = false.
#[export] Instance good_name_dec c : Decision (good_name c) := ltac:(unfold good_name; apply _).

Lemma split_no_sep s : contains_byte s slash = false → split_byte slash s = [s].
Proof.
  induction s as [|c s IH]; [done|]. simpl. intros Hc. destruct (ascii_dec c slash); [done|].
  by rewrite IH.
Qed.

Lemma split_app_sep s t :
  contains_byte s slash = false → split_byte slash (s +:+ "/" +:+ t) = s :: split_byte slash t.
Proof.
  induction s as [|c s IH]; [done|]. rewrite str_cons_app. simpl. intros Hc.
  destruct (ascii_dec c slash); [done|]. by rewrite IH.
Qed.

Lemma split_join cs :
  cs ≠ [] → Forall (λ c, contains_byte c slash = false) cs → split_byte slash (join cs "/") = cs.
Proof.
  intros Hne Hf. induction Hf as [|c cs Hc Hf IH]; [done|].
  destruct cs as [|c' cs]; [by apply split_no_sep|].
  rewrite join_cons_ne by done. rewrite split_app_sep by done. by rewrite IH.
Qed.

Lemma split_elem_no_sep s c : c ∈ split_byte slash s → contains_byte c slash = false.
Proof.
  revert c. induction s as [|a s IH]; intros c; simpl; [by intros ->%list_elem_of_singleton|].
  destruct (ascii_dec a slash) as [Ha|Ha].
  - intros [->|?]%elem_of_cons; [done|auto].
  - destruct (split_byte slash s) as [|part rest] eqn:E; [by destruct (split_byte_ne slash s)|].
    intros [->|?]%elem_of_cons; [|apply IH; by right].
    simpl. destruct (ascii_dec a slash); [done|]. apply IH. by left.
Qed.

Lemma good_no_slash cs : Forall good_name cs → Forall (λ c, contains_byte c slash = false) cs.
Proof. intros Hf. eapply Forall_impl; [done|]. by intros c (_ & _ & _ & ?). Qed.

Lemma split_join_good cs : cs ≠ [] → Forall good_name cs → split_byte slash (join cs "/") = cs.
Proof. intros ? ?%good_no_slash. by apply split_join. Qed.

Lemma comps_join cs : Forall good_name cs → comps (join cs "/") = cs.
Proof.
  intros Hf. destruct (decide (cs = [])) as [->|Hne]; [done|].
  unfold comps. rewrite split_join_good by done. clear Hne.
  induction Hf as [|c cs Hc Hf IH]; [done|]. rewrite filter_cons_True, IH; [done|].
  destruct Hc as (? & ? & _). done.
Qed.

Lemma join_empty cs : Forall good_name cs → join cs "/" = "" → cs = [].
Proof.
  intros Hf Hj. apply (f_equal comps) in Hj. rewrite comps_join in Hj by done. exact Hj.
Qed.

Lemma path_is_abs_cons a s : path_is_abs (String a s) = bool_decide (a = slash).
Proof.
  unfold path_is_abs. cbn [has_prefix]. destruct (ascii_dec "/"%char a) as [<-|Ha]; [by destruct s|].
  symmetry. apply bool_decide_eq_false. intros ->. by destruct Ha.
Qed.

Lemma join_not_abs cs : Forall good_name cs → path_is_abs (join cs "/") = false.
Proof.
  intros Hf. destruct Hf as [|c cs Hc Hf]; [done|].
  assert (∃ t, join (c :: cs) "/" = c +:+ t) as [t ->].
  { destruct cs as [|c' cs]; [exists ""; by rewrite str_app_nil_r|].
    eexists. by apply join_cons_ne. }
  destruct Hc as (Hc & _ & _ & Hs). destruct c as [|a c]; [done|].
  rewrite str_cons_app, path_is_abs_cons. cbn [contains_byte] in Hs.
  apply bool_decide_eq_false. intros ->. by destruct (ascii_dec slash slash).
Qed.

Lemma foldl_clean_good r cs stack :
  Forall good_name cs → foldl (clean_step r) stack cs = reverse cs ++ stack.
Proof.
  intros Hf. revert stack. induction Hf as [|c cs (H1 & H2 & H3 & _) Hf IH]; intros stack; [done|].
  simpl. unfold clean_step at 2. rewrite decide_False by naive_solver. rewrite decide_False by done.
  by rewrite IH, reverse_cons, <-app_assoc.
Qed.

Lemma path_clean_join cs : cs ≠ [] → Forall good_name cs → path_clean (join cs "/") = join cs "/".
Proof.
  intros Hne Hf. unfold path_clean. rewrite join_not_abs, split_join_good by done.
  rewrite foldl_clean_good, app_nil_r, reverse_involutive by done.
  case_decide as Hj; [|done]. by apply join_empty in Hj.
Qed.

Lemma join_snoc cs c : cs ≠ [] → join (cs ++ [c]) "/" = join cs "/" +:+ "/" +:+ c.
Proof.
  induction cs as [|d cs IH]; [done|]. intros _. destruct cs as [|d' cs]; [done|].
  change ((d :: d' :: cs) ++ [c]) with (d :: ((d' :: cs) ++ [c])).
  rewrite join_cons_ne by done. rewrite IH by done. rewrite (join_cons_ne d (d' :: cs)) by done.
  by rewrite !str_app_assoc.
Qed.

(** [path.Join(current, part)] while a loop walks down a clean path; it starts
    from the empty string. *)
Lemma path_join_snoc cs c :
  Forall good_name (cs ++ [c]) → path_join [join cs "/"; c] = join (cs ++ [c]) "/".
Proof.
  intros Hf. pose proof Hf as [Hcs Hc]%Forall_app. unfold path_join.
  inversion_clear Hc as [|?? (Hc1 & _) _].
  destruct (decide (cs = [])) as [->|Hne].
  - simpl join. rewrite filter_cons_False, filter_cons_True by naive_solver. simpl.
    by apply (path_clean_join [c]).
  - rewrite !filter_cons_True; [|done|by intros ?%join_empty]. rewrite filter_nil.
    simpl join at 1. rewrite <-join_snoc by done. apply path_clean_join; [by destruct cs|done].
Qed.

Lemma path_join_dot c : good_name c → path_join ["."; c] = c.
Proof.
  intros Hc. unfold path_join. destruct Hc as (Hc & Hc').
  rewrite !filter_cons_True by done. rewrite filter_nil. unfold path_clean.
  change (join ["."; c] "/") with ("." +:+ "/" +:+ c).
  rewrite split_app_sep by done. rewrite split_no_sep by naive_solver.
  unfold path_is_abs. simpl has_prefix. cbv iota.
  change (foldl (clean_step false) [] ["."; c]) with (clean_step false [] c).
  destruct Hc' as (Hc1 & Hc2 & _).
  assert (clean_step false [] c = [c]) as ->.
  { unfold clean_step. destruct (decide (c = "" ∨ c = ".")) as [[?|?]|_]; [done..|].
    by destruct (decide (c = "..")). }
  change (join (reverse [c]) "/") with c. by rewrite decide_False.
Qed.

Lemma last_snoc_string (cs : list string) c : last (cs ++ [c]) = Some c.
Proof. apply last_snoc. Qed.

Lemma path_split_snoc cs c :
  Forall good_name (cs ++ [c]) →
  path_split (join (cs ++ [c]) "/") =
  (if decide (cs = []) then "" else join cs "/" +:+ "/", c).
Proof.
  intros Hf. unfold path_split. rewrite split_join_good by (try done; by destruct cs).
  rewrite last_snoc. cbn [default]. f_equal. destruct (decide (cs = [])) as [Hne|Hne].
  - subst. cbn [app join]. by rewrite Nat.sub_diag; destruct c.
  - rewrite join_snoc by done. rewrite <-str_app_assoc, length_str_app.
    rewrite Nat.add_sub. apply str_take_app.
Qed.

Lemma path_dir_snoc cs c :
  Forall good_name (cs ++ [c]) →
  path_dir (join (cs ++ [c]) "/") = if decide (cs = []) then "." else join cs "/".
Proof.
  intros Hf. unfold path_dir. rewrite path_split_snoc by done. cbn [fst].
  destruct (decide (cs = [])) as [Hne|Hne]; [done|]. apply Forall_app in Hf as [Hf _].
  unfold path_clean.
  assert (path_is_abs (join cs "/" +:+ "/") = false) as ->.
  { pose proof (join_not_abs cs Hf) as Ha.
    destruct (join cs "/") as [|a s] eqn:E; [by apply join_empty in E|].
    rewrite str_cons_app. by rewrite path_is_abs_cons in *. }
  assert (split_byte slash (join cs "/" +:+ "/") = cs ++ [""]) as ->.
  { rewrite <-(split_join (cs ++ [""])); [|by destruct cs|].
    - rewrite join_snoc by done. by rewrite str_app_nil_r.
    - apply Forall_app. split; [by apply good_no_slash|]. by constructor. }
  rewrite foldl_app, (foldl_clean_good false cs), app_nil_r by done.
  change (foldl (clean_step false) (reverse cs) [""]) with (reverse cs). rewrite reverse_involutive.
  case_decide as Hj; [|done]. by apply join_empty in Hj.
Qed.

Lemma str_rev_app_spec s acc : str_rev_app s acc = str_rev s +:+ acc.
Proof.
  unfold str_rev. revert acc. induction s as [|c s IH]; intros acc; [done|]. simpl.
  rewrite (IH (String c acc)), (IH (String c "")). by rewrite str_app_assoc.
Qed.

Lemma str_rev_cons c s : str_rev (String c s) = str_rev s +:+ str1 c.
Proof. unfold str_rev at 1. simpl. apply str_rev_app_spec. Qed.

Lemma str_rev_append s t : str_rev (s +:+ t) = str_rev t +:+ str_rev s.
Proof.
  induction s as [|c s IH].
  - by rewrite str_nil_app, str_app_nil_r.
  - rewrite str_cons_app, !str_rev_cons, IH. by rewrite str_app_assoc.
Qed.

Lemma str_rev_involutive s : str_rev (str_rev s) = s.
Proof. induction s as [|c s IH]; [done|]. by rewrite str_rev_cons, str_rev_append, IH. Qed.

Lemma contains_byte_rev s b : contains_byte (str_rev s) b = contains_byte s b.
Proof.
  induction s as [|c s IH]; [done|]. rewrite str_rev_cons, contains_byte_app, IH. simpl.
  destruct (ascii_dec c b); [apply orb_true_r|apply orb_false_r].
Qed.

Lemma drop_leading_slashes_rev s c :
  c ≠ "" → contains_byte c slash = false →
  drop_leading_slashes (str_rev (s +:+ c)) = str_rev (s +:+ c).
Proof.
  intros Hne Hc. rewrite str_rev_append. rewrite <-(contains_byte_rev c) in Hc.
  destruct (str_rev c) as [|a r] eqn:E.
  - destruct Hne. by rewrite <-(str_rev_involutive c), E.
  - rewrite str_cons_app. simpl in *. by destruct (ascii_dec a slash).
Qed.

Lemma path_base_snoc cs c :
  Forall good_name (cs ++ [c]) → path_base (join (cs ++ [c]) "/") = c.
Proof.
  intros Hf. pose proof Hf as [_ Hc]%Forall_app. inversion_clear Hc as [|?? (Hc1 & _ & _ & Hc2) _].
  unfold path_base. rewrite decide_False; cycle 1.
  { intros Hj%join_empty; [by destruct cs|done]. }
  assert (∃ s, join (cs ++ [c]) "/" = s +:+ c) as [s Hs].
  { destruct (decide (cs = [])) as [->|?]; [by exists ""|].
    exists (join cs "/" +:+ "/"). by rewrite join_snoc, str_app_assoc. }
  rewrite Hs, drop_leading_slashes_rev, str_rev_involutive, <-Hs by done.
  rewrite path_split_snoc by done. cbn [snd]. by rewrite decide_False.
Qed.

(** ** Which strings are clean relative paths *)

Lemma clean_stack r cs stack :
  Forall (λ c, contains_byte c slash = false) cs →
  Forall (λ c, c ≠ "" ∧ c ≠ "." ∧ contains_byte c slash = false) stack →
  Forall (λ c, c ≠ "" ∧ c ≠ "." ∧ contains_byte c slash = false) (foldl (clean_step r) stack cs).
Proof.
  intros Hcs. revert stack. induction Hcs as [|c cs Hc Hcs IH]; intros stack Hs; [done|]. simpl.
  apply IH. unfold clean_step. case_decide as H1; [done|]. case_decide as H2.
  - destruct Hs as [|top rest Ht Hr]; [by destruct r; repeat constructor|].
    case_decide; [|done]. repeat (constructor; try done).
  - constructor; [naive_solver|done].
Qed.

(** In a stack the parent components are at the bottom. *)
Definition dots_below (stack : list string) : Prop :=
  ∀ i, stack !! i = Some ".." → ∀ j c, i ≤ j → stack !! j = Some c → c = "..".

Lemma clean_stack_dots r cs stack :
  dots_below stack → dots_below (foldl (clean_step r) stack cs).
Proof.
  revert stack. induction cs as [|c cs IH]; intros stack Hs; [done|]. simpl. apply IH.
  unfold clean_step. case_decide; [done|]. case_decide as Hc.
  - destruct stack as [|top rest].
    + destruct r; [done|]. intros [|i] ? [|j] c' ?; simpl; naive_solver.
    + case_decide as Ht.
      * subst. intros [|i] Hi [|j] c' Hij Hj; simplify_eq/=; [done| |lia|].
        -- apply (Hs 0 eq_refl j); [lia|done].
        -- apply (Hs i Hi j); [lia|done].
      * intros i Hi j c' Hij Hj. apply (Hs (S i) Hi (S j)); [lia|done].
  - intros [|i] Hi [|j] c' Hij Hj; simplify_eq/=; [lia|].
    apply (Hs i Hi j); [lia|done].
Qed.

(** A clean relative path is a list of good names after parent components. *)
Lemma path_clean_fixpoint p :
  path_clean p = p → path_is_abs p = false → p ≠ "." →
  ∃ cs, cs ≠ [] ∧ p = join cs "/" ∧
    Forall (λ c, c ≠ "" ∧ c ≠ "." ∧ contains_byte c slash = false) cs ∧
    (Forall good_name cs ∨ head cs = Some "..").
Proof.
  intros Hp Habs Hdot. unfold path_clean in Hp. rewrite Habs in Hp.
  set (stack := foldl (clean_step false) [] (split_byte slash p)) in *.
  case_decide as Hbody; [by destruct Hdot|].
  assert (Forall (λ c, c ≠ "" ∧ c ≠ "." ∧ contains_byte c slash = false) stack) as Hst.
  { apply clean_stack; [|done]. apply Forall_forall. intros c. apply split_elem_no_sep. }
  assert (dots_below stack) as Hdots by (by apply clean_stack_dots).
  exists (reverse stack). split_and!; [|done|by apply Forall_reverse|].
  { intros Hr. by rewrite Hr in Hbody. }
  destruct (decide (".." ∈ stack)) as [Hin|Hni]; [right|left].
  - apply list_elem_of_lookup in Hin as [i Hi].
    destruct (last stack) as [l|] eqn:Hl.
    + rewrite head_reverse, Hl. f_equal. rewrite last_lookup in Hl.
      apply (Hdots i Hi (pred (length stack)) l); [|done]. apply lookup_lt_Some in Hi. lia.
    + apply last_None in Hl. by rewrite Hl in Hi.
  - apply Forall_reverse, Forall_forall. intros c Hc. rewrite Forall_forall in Hst.
    destruct (Hst c Hc) as (?&?&?). split_and!; try done. by intros ->.
Qed.

Lemma is_local_good p :
  path_clean p = p → path_is_abs p = false → is_local p = true → p ≠ "." →
  ∃ cs, cs ≠ [] ∧ p = join cs "/" ∧ Forall good_name cs.
Proof.
  intros Hp Habs Hloc Hdot. destruct (path_clean_fixpoint p Hp Habs Hdot) as (cs & Hne & Hj & Hf & [?|Hh]);
    [by exists cs|]. exfalso.
  destruct cs as [|c cs]; simplify_eq/=.
  unfold is_local in Hloc. rewrite Habs in Hloc. case_bool_decide; [done|].
  simpl in Hloc. rewrite Hp in Hloc.
  assert (∀ b : bool, (if b then join (".." :: cs) "/" else join (".." :: cs) "/") = join (".." :: cs) "/")
    as Hif by (by intros []).
  rewrite Hif in Hloc. destruct cs as [|c' cs]; [done|].
  rewrite join_cons_ne in Hloc by done.
  change (".." +:+ "/" +:+ join (c' :: cs) "/") with ("../" +:+ join (c' :: cs) "/") in Hloc.
  rewrite (has_prefix_app "../" (join (c' :: cs) "/")) in Hloc. by rewrite orb_true_r in Hloc.
Qed.

Lemma good_is_local cs :
  cs ≠ [] → Forall good_name cs → is_local (join cs "/") = true.
Proof.
  intros Hne Hf. unfold is_local. rewrite join_not_abs by done. rewrite split_join_good by done.
  rewrite bool_decide_eq_false_2 by (by intros ?%join_empty).
  simpl. assert (existsb (λ e, bool_decide (e = "." ∨ e = "..")) cs = false) as ->.
  { clear Hne. induction Hf as [|c cs (_ & H1 & H2 & _) Hf IH]; [done|]. simpl.
    rewrite IH, orb_false_r. apply bool_decide_eq_false. naive_solver. }
  destruct Hf as [|c cs (H0 & H1 & H2 & H3) Hf]; [done|].
  apply negb_true_iff, orb_false_iff. split.
  - apply bool_decide_eq_false. intros Hj. apply (f_equal (split_byte slash)) in Hj.
    rewrite split_join_good in Hj by (try done; by constructor). by simplify_eq/=.
  - apply not_true_is_false. intros (t & Ht)%has_prefix_spec.
    apply (f_equal (split_byte slash)) in Ht.
    rewrite split_join_good in Ht by (try done; by constructor).
    change ("../" +:+ t) with (".." +:+ "/" +:+ t) in Ht.
    rewrite split_app_sep in Ht by done. by simplify_eq/=.
Qed.
