(* ===== verification/GenFs.v ===== *)
(** Package [internal/genfs]: comparing a plan with the disk ([Check], [inspect])
    and applying it ([ApplyWithOptions]), on the file operations of [GoRoot]. *)
From S2P Require Import Prelude GoSort GoStrings Sha256 GenPlan GoRoot.

(** ** Differences *)

(** [DifferenceKind] is a string type; the constructors carry its values. *)
Inductive DifferenceKind : Type :=
  | DifferenceMissingManifest
  | DifferenceStaleManifest
  | DifferenceMissingFile
  | DifferenceStaleFile
  | DifferenceManualEdit
  | DifferenceUnownedCollision
  | DifferenceStaleOwnedFile
  | DifferenceMissingOwnedFile
  | DifferenceUnexpectedGenerated.
#[export] Instance DifferenceKind_eq_dec : EqDecision DifferenceKind.
Proof. solve_decision. Defined.

Definition kind_string (k : DifferenceKind) : string :=
  match k with
  | DifferenceMissingManifest => "missing-manifest"
  | DifferenceStaleManifest => "stale-manifest"
  | DifferenceMissingFile => "missing-file"
  | DifferenceStaleFile => "stale-file"
  | DifferenceManualEdit => "manual-edit"
  | DifferenceUnownedCollision => "unowned-collision"
  | DifferenceStaleOwnedFile => "stale-owned-file"
  | DifferenceMissingOwnedFile => "missing-owned-file"
  | DifferenceUnexpectedGenerated => "unexpected-generated-file"
  end.

Record Difference := {
  d_Kind : DifferenceKind;
  d_Path : string;
  d_CurrentSHA256 : string;
  d_ExpectedSHA256 : string;
  d_Message : string;
}.

Record Status := {
  Current : bool;
  Differences : list Difference;
}.

(** [cloneStatus] copies the slice of differences; values are immutable here. *)
Definition cloneStatus (status : Status) : Status :=
  {| Current := Current status; Differences := [] ++ Differences status |}.

Record Result := {
  Written : list string;
  Removed : list string;
  ManifestUpdated : bool;
}.
Definition no_result : Result := {| Written := []; Removed := []; ManifestUpdated := false |}.

Definition Changed (r : Result) : bool :=
  negb (length (Written r) =? 0)%nat || negb (length (Removed r) =? 0)%nat || ManifestUpdated r.

(** [ConflictError.Error], of a pointer that is not nil. *)
Definition ConflictError_Error (differences : list Difference) : string :=
  match differences with
  | [] => "generated output conflicts with unowned or manually edited files"
  | _ =>
      "generated output conflicts with protected files" +:+
      join ((λ d, newline_str +:+ "- " +:+ d_Path d +:+ ": " +:+ d_Message d) <$> differences) ""
  end.
Definition ConflictError (differences : list Difference) : error :=
  ErrTyped "*genfs.ConflictError" (ConflictError_Error differences).

(** The order of [sortDifferences]: path, kind, message. *)
Definition difference_less : Difference → Difference → bool :=
  by_key d_Path str_ltb (by_key (kind_string ∘ d_Kind) str_ltb (on_key d_Message str_ltb)).
Definition sortDifferences (differences : list Difference) : list Difference :=
  sort_stable difference_less differences.

Definition protected_kind (k : DifferenceKind) : bool :=
  match k with
  | DifferenceManualEdit | DifferenceUnownedCollision | DifferenceUnexpectedGenerated => true
  | DifferenceMissingManifest | DifferenceStaleManifest | DifferenceMissingFile
  | DifferenceStaleFile | DifferenceStaleOwnedFile | DifferenceMissingOwnedFile => false
  end.
Definition protectedDifferences (differences : list Difference) : list Difference :=
  filter (λ d, protected_kind (d_Kind d) = true) differences.

(** ** State of an inspection *)

Record inspection := {
  differences : list Difference;
  prior : option Manifest;
  current : gmap string string;
  expected : gmap string string;
  expectedHash : gmap string string;
  owned : gmap string string;
}.

Definition add_difference (d : Difference) (s : inspection) : inspection :=
  {| differences := differences s ++ [d]; prior := prior s; current := current s;
     expected := expected s; expectedHash := expectedHash s; owned := owned s |}.
Definition set_current (p c : string) (s : inspection) : inspection :=
  {| differences := differences s; prior := prior s; current := <[p:=c]> (current s);
     expected := expected s; expectedHash := expectedHash s; owned := owned s |}.
Definition set_expected (p c h : string) (s : inspection) : inspection :=
  {| differences := differences s; prior := prior s; current := current s;
     expected := <[p:=c]> (expected s); expectedHash := <[p:=h]> (expectedHash s);
     owned := owned s |}.
Definition set_prior (m : Manifest) (o : gmap string string) (s : inspection) : inspection :=
  {| differences := differences s; prior := Some m; current := current s;
     expected := expected s; expectedHash := expectedHash s; owned := o |}.

Definition empty_inspection : inspection :=
  {| differences := []; prior := None; current := ∅; expected := ∅; expectedHash := ∅;
     owned := ∅ |}.

Section genfs.
Context `{UnicodeTables} `{GenLibraries}.

(** The order in which a [range] over a map meets its entries. *)
Variable range : gmap string string → list (string * string).

(** ** Reading the disk *)

(** The loop of [rejectSymlinkComponents] over the components of a path. *)
Fixpoint rejectSymlinkLoop (current : string) (parts : list string) : io () :=
  match parts with
  | [] => mret ()
  | part :: parts' =>
      let current := path_join [current; part] in
      r ← attempt (lstat current);
      match r with
      | Fail e =>
          if is_not_exist e then mret ()
          else fail (ErrWrap ("inspect path component " +:+ go_quote current) e)
      | Ok (ELink _) =>
          fail (ErrNew ("path component " +:+ go_quote current +:+ " is a symbolic link"))
      | Ok _ => rejectSymlinkLoop current parts'
      end
  end.
Definition rejectSymlinkComponents (filePath : string) : io () :=
  rejectSymlinkLoop "" (split_byte slash filePath).

(** The content of a regular file, [None] when there is no file. *)
Definition readOptional (filePath : string) : io (option string) :=
  r ← attempt (lstat filePath);
  match r with
  | Fail e => if is_not_exist e then mret None
              else fail (ErrWrap ("inspect " +:+ go_quote filePath) e)
  | Ok (ELink _) => fail (ErrNew ("path " +:+ go_quote filePath +:+ " is a symbolic link"))
  | Ok (EFile _ _) =>
      content ← wrap_io ("read " +:+ go_quote filePath) (read_file filePath);
      mret (Some content)
  | Ok _ => fail (ErrNew ("path " +:+ go_quote filePath +:+ " is not a regular file"))
  end.

Definition inspectExpectedFile (state : inspection) (file : File) : io inspection :=
  c ← readOptional (f_Path file);
  match c with
  | None =>
      mret (add_difference {| d_Kind := DifferenceMissingFile; d_Path := f_Path file;
        d_CurrentSHA256 := ""; d_ExpectedSHA256 := f_SHA256 file;
        d_Message := "expected generated file is missing" |} state)
  | Some content =>
      let state := set_current (f_Path file) content state in
      let currentHash := hashContent content in
      match owned state !! f_Path file with
      | None =>
          mret (add_difference {| d_Kind := DifferenceUnownedCollision; d_Path := f_Path file;
            d_CurrentSHA256 := currentHash; d_ExpectedSHA256 := f_SHA256 file;
            d_Message := "expected output path contains an unowned file" |} state)
      | Some ownedHash =>
          if bool_decide (currentHash = f_SHA256 file) then mret state
          else if negb (bool_decide (currentHash = ownedHash)) then
            mret (add_difference {| d_Kind := DifferenceManualEdit; d_Path := f_Path file;
              d_CurrentSHA256 := currentHash; d_ExpectedSHA256 := f_SHA256 file;
              d_Message := "owned generated file was modified after its manifest was written" |} state)
          else
            mret (add_difference {| d_Kind := DifferenceStaleFile; d_Path := f_Path file;
              d_CurrentSHA256 := currentHash; d_ExpectedSHA256 := f_SHA256 file;
              d_Message := "owned generated file is stale" |} state)
      end
  end.

(** One entry of the loop of [inspectPriorFiles]. *)
Definition inspectPriorFile (state : inspection) (entry : string * string) : io inspection :=
  let '(filePath, ownedHash) := entry in
  match expected state !! filePath with
  | Some _ => mret state
  | None =>
      c ← readOptional filePath;
      match c with
      | None =>
          mret (add_difference {| d_Kind := DifferenceMissingOwnedFile; d_Path := filePath;
            d_CurrentSHA256 := ""; d_ExpectedSHA256 := "";
            d_Message := "previously owned generated file is already absent" |} state)
      | Some content =>
          let state := set_current filePath content state in
          let currentHash := hashContent content in
          if negb (bool_decide (currentHash = ownedHash)) ||
             (requiresGeneratedMarker filePath && negb (hasGeneratedMarker content)) then
            mret (add_difference {| d_Kind := DifferenceManualEdit; d_Path := filePath;
              d_CurrentSHA256 := currentHash; d_ExpectedSHA256 := "";
              d_Message := "stale owned file changed and will not be removed" |} state)
          else
            mret (add_difference {| d_Kind := DifferenceStaleOwnedFile; d_Path := filePath;
              d_CurrentSHA256 := currentHash; d_ExpectedSHA256 := "";
              d_Message := "previously owned generated file is no longer expected" |} state)
      end
  end.
Definition inspectPriorFiles (state : inspection) : io inspection :=
  fold_io inspectPriorFile state (range (owned state)).

Definition inspectUnexpectedGeneratedEntry (state : inspection) (filePath : string) (e : entry)
    : io inspection :=
  match e with
  | ELink _ => fail (ErrNew ("generated output path " +:+ go_quote filePath +:+ " is a symbolic link"))
  | EDir => mret state
  | _ =>
      if negb (bool_decide (path_ext filePath = ".go")) then mret state
      else match expected state !! filePath, owned state !! filePath with
      | Some _, _ | None, Some _ => mret state
      | None, None =>
          content ← read_file filePath;
          if negb (hasGeneratedMarker content) then mret state
          else
            mret (add_difference {| d_Kind := DifferenceUnexpectedGenerated; d_Path := filePath;
              d_CurrentSHA256 := hashContent content; d_ExpectedSHA256 := "";
              d_Message := "generated marker exists without manifest ownership" |}
              (set_current filePath content state))
      end
  end.

Definition inspectUnexpectedGeneratedOutput (state : inspection) (outputDir : string)
    : io inspection :=
  r ← attempt (lstat outputDir);
  match r with
  | Fail e => if is_not_exist e then mret state
              else fail (ErrWrap ("inspect generated output directory " +:+ go_quote outputDir) e)
  | Ok (ELink _) =>
      fail (ErrNew ("generated output directory " +:+ go_quote outputDir +:+ " is a symbolic link"))
  | Ok EDir => walk_dir inspectUnexpectedGeneratedEntry state outputDir
  | Ok _ =>
      fail (ErrNew ("generated output directory " +:+ go_quote outputDir +:+ " is not a directory"))
  end.

Definition sourceShardDirectories (plan : Plan) (bridgeDir outputDir : string) : list string :=
  let sourceDirs : gset string := list_to_set (omap (λ file,
    if negb (bool_decide (f_Role file = FileRoleSourceShard)) then None
    else
      let directory := path_dir (f_Path file) in
      if bool_decide (directory = bridgeDir) || bool_decide (directory = outputDir) ||
         has_prefix directory (outputDir +:+ "/") then None
      else Some directory) (p_files plan)) in
  sort_strings (elements sourceDirs).

Definition inspectUnexpectedGeneratedDirectory (state : inspection) (directory : string)
    : io inspection :=
  r ← attempt (read_dir directory);
  match r with
  | Fail e => if is_not_exist e then mret state else fail e
  | Ok entries =>
      fold_io (λ s ne, inspectUnexpectedGeneratedEntry s (path_join [directory; ne.1]) ne.2)
        state entries
  end.

Definition inspectUnexpectedGenerated (plan : Plan) (state : inspection) : io inspection :=
  let outputDir := t_OutputDir (p_target plan) in
  state ← inspectUnexpectedGeneratedOutput state outputDir;
  let bridgeDir := t_BridgeDir (p_target plan) in
  state ← (if negb (bool_decide (bridgeDir = "")) then
             wrap_io ("inspect generated entrypoint directory " +:+ go_quote bridgeDir)
               (inspectUnexpectedGeneratedDirectory state bridgeDir)
           else mret state);
  fold_io (λ s directory,
    wrap_io ("inspect generated source-shard directory " +:+ go_quote directory)
      (inspectUnexpectedGeneratedDirectory s directory))
    state (sourceShardDirectories plan bridgeDir outputDir).

(** The loop over the plan's files that fills [expected]. *)
Definition inspectTarget (state : inspection) (file : File) : io inspection :=
  rejectSymlinkComponents (f_Path file) ;;
  mret (set_expected (f_Path file) (f_content file) (f_SHA256 file) state).

(** [state.owned] after the loop over the files of the prior manifest: a later
    entry for a path replaces an earlier one. *)
Definition owned_files (files : list ManifestFile) : gmap string string :=
  foldl (λ m file, <[mf_Path file := mf_SHA256 file]> m) ∅ files.

(** The ownership manifest and what it owns. *)
Definition inspectManifest (plan : Plan) (options : ApplyOptions) (state : inspection)
    (manifestBytes : option string) : io inspection :=
  let manifestPath := t_ManifestPath (p_target plan) in
  match manifestBytes with
  | Some bytes =>
      let state := set_current manifestPath bytes state in
      manifest ← lift (decodeManifest bytes plan options);
      mret (set_prior manifest (owned_files (m_Files manifest)) state)
  | None =>
      mret (add_difference {| d_Kind := DifferenceMissingManifest; d_Path := manifestPath;
        d_CurrentSHA256 := ""; d_ExpectedSHA256 := "";
        d_Message := "ownership manifest is missing" |} state)
  end.

Definition inspectPrior (plan : Plan) (manifestBytes : option string) (state : inspection)
    : io inspection :=
  match prior state with
  | None => mret state
  | Some _ =>
      state ← inspectPriorFiles state;
      let bytes := default "" manifestBytes in
      if negb (bool_decide (bytes = p_manifestContent plan)) then
        mret (add_difference {| d_Kind := DifferenceStaleManifest;
          d_Path := t_ManifestPath (p_target plan);
          d_CurrentSHA256 := hashContent bytes;
          d_ExpectedSHA256 := hashContent (p_manifestContent plan);
          d_Message := "ownership manifest differs from the rendered plan" |} state)
      else mret state
  end.

(** The state of the inspection with its differences in order. *)
Definition sorted_inspection (state : inspection) : inspection :=
  {| differences := sortDifferences (differences state); prior := prior state;
     current := current state; expected := expected state;
     expectedHash := expectedHash state; owned := owned state |}.

Definition status (state : inspection) : Status :=
  {| Current := (length (differences state) =? 0)%nat; Differences := differences state |}.

Definition inspect (plan : Plan) (options : ApplyOptions) : io inspection :=
  state ← fold_io inspectTarget empty_inspection (p_files plan);
  let manifestPath := t_ManifestPath (p_target plan) in
  rejectSymlinkComponents manifestPath ;;
  let state := set_expected manifestPath (p_manifestContent plan)
                 (hashContent (p_manifestContent plan)) state in
  manifestBytes ← readOptional manifestPath;
  state ← inspectManifest plan options state manifestBytes;
  state ← fold_io inspectExpectedFile state (p_files plan);
  state ← inspectPrior plan manifestBytes state;
  state ← inspectUnexpectedGenerated plan state;
  mret (sorted_inspection state).

(** [errors.Join(err, closeErr)] after [inspect]. *)
Definition inspect_and_close (plan : Plan) (options : ApplyOptions) : io inspection :=
  inspected ← attempt (inspect plan options);
  closed ← attempt sys_close;
  match errors_join (err_of inspected) (err_of closed), inspected with
  | None, Ok state => mret state
  | Some e, _ => fail e
  | None, Fail e => fail e
  end.

Definition no_options : ApplyOptions := {| RelocateModuleFrom := "" |}.

Definition Check (plan : Plan) : io Status :=
  lift (validatePlan plan) ;;
  wrap_io "open generation module root" open_root ;;
  state ← inspect_and_close plan no_options;
  mret (cloneStatus (status state)).

(** ** Writing *)

(** The loop of [ensureDirectories]. *)
Fixpoint ensureDirectoriesLoop (current : string) (parts : list string) : io () :=
  match parts with
  | [] => mret ()
  | part :: parts' =>
      let current := path_join [current; part] in
      r ← attempt (lstat current);
      match r with
      | Fail e =>
          if is_not_exist e then
            m ← attempt (mkdir current);
            match m with
            | Fail mkdirErr =>
                if negb (is_exist mkdirErr)
                then fail (ErrWrap ("create directory " +:+ go_quote current) mkdirErr)
                else ensureDirectoriesLoop current parts'
            | Ok _ => ensureDirectoriesLoop current parts'
            end
          else fail (ErrWrap ("inspect directory " +:+ go_quote current) e)
      | Ok (ELink _) =>
          fail (ErrNew ("directory component " +:+ go_quote current +:+ " is a symbolic link"))
      | Ok EDir => ensureDirectoriesLoop current parts'
      | Ok _ =>
          fail (ErrNew ("directory component " +:+ go_quote current +:+ " is not a directory"))
      end
  end.
Definition ensureDirectories (directory : string) : io () :=
  if bool_decide (directory = "." ∨ directory = "") then mret ()
  else ensureDirectoriesLoop "" (split_byte slash directory).

(** [io.ReadFull(rand.Reader, random)] and [hex.EncodeToString(random)] *)
Definition random_name : io string := λ w,
  match w_random w with
  | [] => (Fail (ErrWrap "create temporary name" (ErrNew "unexpected EOF")), w)
  | n :: ns => (Ok (hex_fixed 16 n), set_random w ns)
  end.

(** The path of a temporary file and the open file. *)
Fixpoint createTemporaryLoop (attempts : nat) (directory base : string) : io (string * key) :=
  match attempts with
  | O => fail (ErrNew "create temporary file: exhausted unique names")
  | S attempts' =>
      random ← random_name;
      let name := "." +:+ base +:+ ".spice-" +:+ random in
      let filePath := path_join [directory; name] in
      r ← attempt (create_excl filePath 384);
      match r with
      | Ok file => mret (filePath, file)
      | Fail e => if negb (is_exist e) then fail e
                  else createTemporaryLoop attempts' directory base
      end
  end.
Definition createTemporary (directory base : string) : io (string * key) :=
  createTemporaryLoop 10 directory base.

Definition replacePath (temporaryPath destinationPath : string) : io () :=
  r ← attempt (lstat destinationPath);
  match r with
  | Fail e => if is_not_exist e then rename temporaryPath destinationPath else fail e
  | Ok _ =>
      backup ← createTemporary (path_dir destinationPath) (path_base destinationPath +:+ ".backup");
      sys_close ;;
      remove backup.1 ;;
      rename destinationPath backup.1 ;;
      promoted ← attempt (rename temporaryPath destinationPath);
      match promoted with
      | Fail e =>
          restored ← attempt (rename backup.1 destinationPath);
          fail (default e (errors_join (Some e) (err_of restored)))
      | Ok _ =>
          wrap_io ("remove replacement backup " +:+ go_quote backup.1) (remove backup.1)
      end
  end.

(** [return errors.Join(err, temporary.Close())] *)
Definition fail_closing {A} (e : error) : io A :=
  closed ← attempt sys_close;
  fail (default e (errors_join (Some e) (err_of closed))).

(** Filling the temporary file, up to [temporary.Close()]. *)
Definition fillTemporary (temporary : key) (content : string) (mode : Z) : io () :=
  r ← attempt (write_file temporary content);
  match r with Fail e => fail_closing e | Ok _ =>
  r ← attempt sys_sync;
  match r with Fail e => fail_closing e | Ok _ =>
  r ← attempt (chmod temporary mode);
  match r with Fail e => fail_closing e | Ok _ => sys_close end end end.

Definition replaceFile (filePath content : string) (mode : Z) (goSource : bool) : io () :=
  ensureDirectories (path_dir filePath) ;;
  (if goSource : bool then
     match parse_file filePath content with
     | Some e => fail (ErrWrap "validate generated Go" e)
     | None => mret ()
     end
   else mret ()) ;;
  temporary ← createTemporary (path_dir filePath) (path_base filePath);
  r ← attempt (
    fillTemporary temporary.2 content mode ;;
    written ← read_file temporary.1;
    lift (guard_or (bool_decide (written = content))
            (ErrNew "temporary file verification failed")) ;;
    replacePath temporary.1 filePath);
  match r with
  | Ok _ => mret ()
  | Fail e =>
      removed ← attempt (remove temporary.1);
      match removed with
      | Fail removeErr =>
          if negb (is_not_exist removeErr)
          then fail (default e (errors_join (Some e) (Some removeErr))) else fail e
      | Ok _ => fail e
      end
  end.

Definition removeOwnedFile (filePath expectedHash : string) : io () :=
  c ← readOptional filePath;
  match c with
  | None => mret ()
  | Some content =>
      if negb (bool_decide (hashContent content = expectedHash)) ||
         (requiresGeneratedMarker filePath && negb (hasGeneratedMarker content))
      then fail (ErrNew ("refuse to remove modified stale generated file " +:+ go_quote filePath))
      else wrap_io ("remove stale generated file " +:+ go_quote filePath) (remove filePath)
  end.

(** ** The lock of a target *)

Definition lock_path (plan : Plan) : string :=
  path_join [".spice"; t_ID (p_target plan) +:+ ".lock"].

(** The JSON object of the lock file, for the process [pid]. *)
Definition lock_content (plan : Plan) (pid : Z) : string :=
  let field (name value : string) : string := str1 dquote +:+ name +:+ str1 dquote +:+ ":" +:+ value in
  "{" +:+ field "target" (json_string (t_ID (p_target plan))) +:+ "," +:+
  field "pid" (itoa pid) +:+ "," +:+
  field "generator_version" (json_string GeneratorVersion) +:+ "}" +:+ newline_str.

(** The function [acquireLock] returns. *)
Definition release_lock (plan : Plan) : io () :=
  r ← attempt (remove (lock_path plan));
  match r with
  | Fail e =>
      if negb (is_not_exist e)
      then fail (ErrWrap ("release generation lock " +:+ go_quote (lock_path plan)) e) else mret ()
  | Ok _ => mret ()
  end.

Definition acquireLock (plan : Plan) (pid : Z) : io () :=
  ensureDirectories (path_dir (lock_path plan)) ;;
  r ← attempt (create_excl (lock_path plan) 384);
  match r with
  | Fail e =>
      if is_exist e then
        fail (ErrNew ("generation target " +:+ go_quote (t_ID (p_target plan)) +:+ " is locked at " +:+
          lock_path plan +:+
          "; inspect and remove the stale lock only when no generator is running"))
      else fail (ErrWrap ("acquire generation lock " +:+ go_quote (lock_path plan)) e)
  | Ok file =>
      wrote ← attempt (write_file file (lock_content plan pid));
      closed ← attempt sys_close;
      match errors_join (err_of wrote) (err_of closed) with
      | Some e =>
          removed ← attempt (remove (lock_path plan));
          fail (ErrWrap ("write generation lock " +:+ go_quote (lock_path plan))
                  (default e (errors_join (Some e) (err_of removed))))
      | None => mret ()
      end
  end.

(** ** Applying a plan *)

Definition is_go (filePath : string) : bool := bool_decide (path_ext filePath = ".go").

(** One file of the first loop of [ApplyWithOptions]; the result lists the
    paths written so far. *)
Definition applyFile (state : inspection) (written : list string) (file : File) : io (list string) :=
  if bool_decide (default "" (current state !! f_Path file) = f_content file) then mret written
  else
    wrap_io ("write generated file " +:+ go_quote (f_Path file))
      (replaceFile (f_Path file) (f_content file) (f_Mode file) (is_go (f_Path file))) ;;
    mret (written ++ [f_Path file]).

(** One difference of the second loop. *)
Definition applyRemoval (state : inspection) (removed : list string) (d : Difference)
    : io (list string) :=
  if negb (bool_decide (d_Kind d = DifferenceStaleOwnedFile)) then mret removed
  else
    removeOwnedFile (d_Path d) (default "" (owned state !! d_Path d)) ;;
    mret (removed ++ [d_Path d]).

Definition applyManifest (plan : Plan) (state : inspection) : io bool :=
  let manifestPath := t_ManifestPath (p_target plan) in
  if bool_decide (default "" (current state !! manifestPath) = p_manifestContent plan) then mret false
  else
    wrap_io ("write generation manifest " +:+ go_quote manifestPath)
      (replaceFile manifestPath (p_manifestContent plan) 420 false) ;;
    mret true.

(** What [ApplyWithOptions] does while it holds the lock. *)
Definition apply_locked (plan : Plan) (options : ApplyOptions) : io Result :=
  state ← inspect plan options;
  let conflicts := protectedDifferences (differences state) in
  if negb (length conflicts =? 0)%nat then fail (ConflictError conflicts)
  else
    written ← fold_io (applyFile state) [] (p_files plan);
    removed ← fold_io (applyRemoval state) [] (differences state);
    updated ← applyManifest plan state;
    mret {| Written := sort_strings written; Removed := sort_strings removed;
            ManifestUpdated := updated |}.

(** The result and the error, after the deferred calls. *)
Definition ApplyWithOptions (plan : Plan) (options : ApplyOptions) (pid : Z) (w : world)
    : (Result * option error) * world :=
  match (lift (validatePlan plan) ;; lift (validateApplyOptions (p_target plan) options) ;;
         wrap_io "open generation module root" open_root) w with
  | (Fail e, w) => ((no_result, Some e), w)
  | (Ok _, w) =>
      let '((result, resultErr), w) :=
        match acquireLock plan pid w with
        | (Fail e, w) => ((no_result, Some e), w)
        | (Ok _, w) =>
            let '(applied, w) := apply_locked plan options w in
            let '(released, w) := release_lock plan w in
            ((match applied with Ok r => r | Fail _ => no_result end,
              errors_join (err_of applied) (err_of released)), w)
        end in
      let '(closed, w) := sys_close w in
      ((result, errors_join resultErr (err_of closed)), w)
  end.

Definition Apply (plan : Plan) (pid : Z) (w : world) : (Result * option error) * world :=
  ApplyWithOptions plan no_options pid w.
End genfs.
