(* ===== verification/GenDiff.v ===== *)
(** The bounded diff of [internal/genfs/genfs.go]: [Diff], [appendDiff] and the
    line functions, with the proof that an untruncated hunk is a patch from the
    current lines to the expected ones. *)
From S2P Require Import Prelude GoSort GoStrings Sha256 GenPlan GoRoot GenFs.

Definition maxDiffLines : Z := 200.

(** ** Lines *)

(** [commonPrefix] *)
Fixpoint commonPrefix (left right : list string) : nat :=
  match left, right with
  | l :: left', r :: right' => if bool_decide (l = r) then S (commonPrefix left' right') else O
  | _, _ => O
  end.

(** The loop of [commonSuffixAfter], with [fuel] at its limit; an index in
    range always has an entry. *)
Fixpoint commonSuffixLoop (fuel : nat) (left right : list string) (count : nat) : nat :=
  match fuel with
  | O => count
  | S fuel' =>
      match left !! (length left - count - 1)%nat, right !! (length right - count - 1)%nat with
      | Some l, Some r => if bool_decide (l = r) then commonSuffixLoop fuel' left right (S count)
                          else count
      | _, _ => count
      end
  end.
Definition commonSuffixAfter (left right : list string) (prefix : nat) : nat :=
  commonSuffixLoop (Nat.min (length left - prefix) (length right - prefix)) left right 0.

Definition splitLines (content : string) : list string :=
  let trimmed := trim_suffix content newline_str in
  if bool_decide (trimmed = "") then [] else split_byte newline trimmed.

(** A nil slice and an empty one are the same list. *)
Definition nonNilLines (lines : list string) : list string := lines.

(** ** One file *)

(** The builder, the number of lines written and whether there was room. *)
Definition appendDiffLine (builder : string) (prefix : ascii) (line : string) (written limit : Z)
    : string * Z * bool :=
  if (limit <=? written)%Z then (builder, written, false)
  else (builder +:+ str1 prefix +:+ line +:+ newline_str, (written + 1)%Z, true).

(** A loop of [appendDiff] over some lines; it ends the function when there is
    no room. *)
Fixpoint appendDiffLines (builder : string) (prefix : ascii) (lines : list string)
    (written limit : Z) : string * Z * bool :=
  match lines with
  | [] => (builder, written, true)
  | line :: lines' =>
      match appendDiffLine builder prefix line written limit with
      | (builder, written, true) => appendDiffLines builder prefix lines' written limit
      | stopped => stopped
      end
  end.

Definition contextLines : nat := 3.

(** The numbers [appendDiff] computes before it writes. *)
Record hunk := {
  h_start : nat;
  h_prefix : nat;
  h_currentChangedEnd : nat;
  h_expectedChangedEnd : nat;
  h_currentEnd : nat;
  h_expectedEnd : nat;
}.
Definition hunk_of (currentLines expectedLines : list string) : hunk :=
  let prefix := commonPrefix currentLines expectedLines in
  let suffix := commonSuffixAfter currentLines expectedLines prefix in
  let currentChangedEnd := (length currentLines - suffix)%nat in
  let expectedChangedEnd := (length expectedLines - suffix)%nat in
  {| h_start := (prefix - contextLines)%nat;
     h_prefix := prefix;
     h_currentChangedEnd := currentChangedEnd;
     h_expectedChangedEnd := expectedChangedEnd;
     h_currentEnd := Nat.min (length currentLines) (currentChangedEnd + contextLines);
     h_expectedEnd := Nat.min (length expectedLines) (expectedChangedEnd + contextLines) |}.

(** [lines[i:j]] *)
Definition slice (i j : nat) (lines : list string) : list string := take (j - i) (drop i lines).

Definition hunk_header (h : hunk) : string :=
  let z (n : nat) : string := itoa (Z.of_nat n) in
  "@@ -" +:+ z (h_start h + 1)%nat +:+ "," +:+ z (h_currentEnd h - h_start h)%nat +:+
  " +" +:+ z (h_start h + 1)%nat +:+ "," +:+ z (h_expectedEnd h - h_start h)%nat +:+
  " @@" +:+ newline_str.

Definition appendDiff (builder filePath current expected : string) (limit : Z) : string * Z :=
  let currentLines := nonNilLines (splitLines current) in
  let expectedLines := nonNilLines (splitLines expected) in
  let h := hunk_of currentLines expectedLines in
  let builder := builder +:+ "--- a/" +:+ filePath +:+ newline_str +:+
                 "+++ b/" +:+ filePath +:+ newline_str +:+ hunk_header h in
  let '(builder, written, ok) :=
    appendDiffLines builder " "%char (slice (h_start h) (h_prefix h) currentLines) 3 limit in
  if negb ok then (builder, written) else
  let '(builder, written, ok) :=
    appendDiffLines builder "-"%char (slice (h_prefix h) (h_currentChangedEnd h) currentLines)
      written limit in
  if negb ok then (builder, written) else
  let '(builder, written, ok) :=
    appendDiffLines builder "+"%char (slice (h_prefix h) (h_expectedChangedEnd h) expectedLines)
      written limit in
  if negb ok then (builder, written) else
  let contextEnd := Nat.min (h_currentEnd h - h_currentChangedEnd h)
                            (h_expectedEnd h - h_expectedChangedEnd h) in
  let '(builder, written, _) :=
    appendDiffLines builder " "%char
      (slice (h_currentChangedEnd h) (h_currentChangedEnd h + contextEnd) currentLines)
      written limit in
  (builder, written).

(** ** All files *)

(** The loop of [Diff] over the ordered paths. *)
Fixpoint diffLoop (state : inspection) (paths : list string) (builder : string) (remaining : Z)
    : string :=
  match paths with
  | [] => builder
  | filePath :: paths' =>
      if (remaining <=? 0)%Z then builder +:+ "... diff truncated ..." +:+ newline_str
      else
        let '(builder, lines) :=
          appendDiff builder filePath (default "" (current state !! filePath))
            (default "" (expected state !! filePath)) remaining in
        diffLoop state paths' builder (remaining - lines)
  end.

(** The order of the files: the manifest last, the others by path. *)
Definition diff_less (manifestPath left right : string) : bool :=
  let leftManifest := bool_decide (left = manifestPath) in
  let rightManifest := bool_decide (right = manifestPath) in
  if negb (Bool.eqb leftManifest rightManifest) then negb leftManifest
  else str_ltb left right.

Definition diff_paths (plan : Plan) (differences : list Difference) : list string :=
  let paths : gset string := list_to_set (d_Path <$> differences) in
  sort_slice (diff_less (t_ManifestPath (p_target plan))) (elements paths).

Section diff.
Context `{UnicodeTables} `{GenLibraries}.
Variable range : gmap string string → list (string * string).

Definition Diff (plan : Plan) : io string :=
  lift (validatePlan plan) ;;
  wrap_io "open generation module root" open_root ;;
  state ← inspect_and_close range plan no_options;
  if Current (status state) then mret ""
  else mret (diffLoop state (diff_paths plan (differences state)) "" maxDiffLines).
End diff.

(** ** The hunk as a list of marked lines *)

Definition marked (prefix : ascii) (lines : list string) : list (ascii * string) := pair prefix <$> lines.
Definition render (body : list (ascii * string)) : string :=
  foldr (λ pl s, str1 pl.1 +:+ pl.2 +:+ newline_str +:+ s) "" body.

(** Every line of the hunk, had it no limit. *)
Definition hunk_body (currentLines expectedLines : list string) : list (ascii * string) :=
  let h := hunk_of currentLines expectedLines in
  let contextEnd := Nat.min (h_currentEnd h - h_currentChangedEnd h)
                            (h_expectedEnd h - h_expectedChangedEnd h) in
  marked " "%char (slice (h_start h) (h_prefix h) currentLines) ++
  marked "-"%char (slice (h_prefix h) (h_currentChangedEnd h) currentLines) ++
  marked "+"%char (slice (h_prefix h) (h_expectedChangedEnd h) expectedLines) ++
  marked " "%char (slice (h_currentChangedEnd h) (h_currentChangedEnd h + contextEnd) currentLines).

(** Reading a hunk: a context line or a removed line must be the next line of
    the input, an added line goes to the output; the rest is kept. *)
Fixpoint patch_body (body : list (ascii * string)) (input : list string) : option (list string) :=
  match body with
  | [] => Some input
  | (mark, line) :: body' =>
      if decide (mark = "+"%char) then cons line <$> patch_body body' input
      else match input with
      | next :: input' =>
          if decide (next = line) then
            if decide (mark = "-"%char) then patch_body body' input'
            else cons line <$> patch_body body' input'
          else None
      | [] => None
      end
  end.
Definition patch (start : nat) (body : list (ascii * string)) (input : list string)
    : option (list string) :=
  (app (take start input)) <$> patch_body body (drop start input).

Definition count_marks (marks : list ascii) (body : list (ascii * string)) : nat :=
  length (filter (λ pl, pl.1 ∈ marks) body).

(** ** Lemmas *)

Lemma render_app b1 b2 : render (b1 ++ b2) = render b1 +:+ render b2.
Proof.
  induction b1 as [|[m l] b1 IH]; [done|]. simpl. unfold render in *. rewrite IH.
  by rewrite !str_app_assoc.
Qed.

Lemma appendDiffLines_eq builder prefix lines written limit :
  let room := Z.to_nat (limit - written) in
  appendDiffLines builder prefix lines written limit =
  (builder +:+ render (take room (marked prefix lines)),
   (written + Z.of_nat (Nat.min room (length lines)))%Z,
   (length lines <=? room)%nat).
Proof.
  revert builder written. induction lines as [|line lines IH]; intros builder written; simpl.
  { rewrite take_nil, Nat.min_0_r, Z.add_0_r. simpl. rewrite str_app_nil_r. f_equal. }
  unfold appendDiffLine. destruct (limit <=? written)%Z eqn:Hlim; bool_prop.
  - replace (Z.to_nat (limit - written)) with O by lia. simpl.
    by rewrite str_app_nil_r, Z.add_0_r.
  - rewrite IH. replace (Z.to_nat (limit - written)) with (S (Z.to_nat (limit - (written + 1)))) by lia.
    simpl. unfold render. simpl. rewrite !str_app_assoc. f_equal. f_equal. lia.
Qed.

Lemma length_marked p lines : length (marked p lines) = length lines.
Proof. apply length_fmap. Qed.

Lemma take_app_stop {A} (l k : list A) n : (length l <=? n)%nat = false → take n (l ++ k) = take n l.
Proof. intros ?. bool_prop. apply take_app_le. lia. Qed.

(** The text and the number of lines [appendDiff] writes: the file header and
    as many lines of the hunk as fit. *)
Lemma appendDiff_eq builder filePath current expected limit :
  let c := splitLines current in
  let e := splitLines expected in
  let body := take (Z.to_nat (limit - 3)) (hunk_body c e) in
  appendDiff builder filePath current expected limit =
  (builder +:+ "--- a/" +:+ filePath +:+ newline_str +:+
     "+++ b/" +:+ filePath +:+ newline_str +:+ hunk_header (hunk_of c e) +:+ render body,
   (3 + Z.of_nat (length body))%Z).
Proof.
  unfold appendDiff, nonNilLines, hunk_body. set (c := splitLines current). set (e := splitLines expected).
  set (h := hunk_of c e). set (l1 := slice (h_start h) _ c). set (l2 := slice _ (h_currentChangedEnd h) c).
  set (l3 := slice _ _ e). set (l4 := slice _ (_ + _) c).
  set (room := Z.to_nat (limit - 3)).
  assert (∀ b : string, ∀ k, b +:+ "--- a/" +:+ filePath +:+ newline_str +:+ "+++ b/" +:+ filePath +:+
     newline_str +:+ hunk_header h +:+ k = (b +:+ "--- a/" +:+ filePath +:+ newline_str +:+ "+++ b/" +:+
     filePath +:+ newline_str +:+ hunk_header h) +:+ k) as Hhd by (intros; by rewrite !str_app_assoc).
  rewrite Hhd. generalize (builder +:+ "--- a/" +:+ filePath +:+ newline_str +:+ "+++ b/" +:+
     filePath +:+ newline_str +:+ hunk_header h). intros b. clear Hhd.
  rewrite appendDiffLines_eq. fold room.
  assert (Hr1 : room = Z.to_nat (limit - 3)) by done.
  destruct (length l1 <=? room)%nat eqn:E1; simpl; cycle 1.
  { rewrite take_app_stop by (by rewrite length_marked). f_equal.
    rewrite length_take, length_marked. lia. }
  bool_prop. rewrite take_app_ge by (rewrite length_marked; lia).
  rewrite appendDiffLines_eq, length_marked, (take_ge (marked _ l1)) by (rewrite length_marked; lia).
  replace (Z.to_nat (limit - _)) with (room - length l1)%nat by lia.
  destruct (length l2 <=? _)%nat eqn:E2; simpl; cycle 1.
  { rewrite take_app_stop by (by rewrite length_marked). rewrite render_app, str_app_assoc. f_equal.
    rewrite length_app, length_take, !length_marked. lia. }
  bool_prop. rewrite take_app_ge by (rewrite length_marked; lia).
  rewrite appendDiffLines_eq, length_marked, (take_ge (marked _ l2)) by (rewrite length_marked; lia).
  replace (Z.to_nat (limit - _)) with (room - length l1 - length l2)%nat by lia.
  destruct (length l3 <=? _)%nat eqn:E3; simpl; cycle 1.
  { rewrite take_app_stop by (by rewrite length_marked). rewrite !render_app, !str_app_assoc. f_equal.
    rewrite !length_app, length_take, !length_marked. lia. }
  bool_prop. rewrite take_app_ge by (rewrite length_marked; lia).
  rewrite appendDiffLines_eq, length_marked, (take_ge (marked _ l3)) by (rewrite length_marked; lia).
  replace (Z.to_nat (limit - _)) with (room - length l1 - length l2 - length l3)%nat by lia.
  rewrite !render_app, !str_app_assoc. f_equal.
  rewrite !length_app, length_take, !length_marked. lia.
Qed.

Lemma commonPrefix_spec left right :
  take (commonPrefix left right) left = take (commonPrefix left right) right ∧
  commonPrefix left right ≤ length left ∧ commonPrefix left right ≤ length right.
Proof.
  revert right. induction left as [|l left IH]; intros [|r right]; simpl; try (split_and!; [done|lia..]).
  case_bool_decide as Hlr; simpl; [|split_and!; [done|lia..]].
  destruct (IH right) as (Ht & ? & ?). split_and!; [by f_equal|lia..].
Qed.

Lemma commonSuffixLoop_spec fuel left right count :
  count + fuel ≤ length left → count + fuel ≤ length right →
  drop (length left - count) left = drop (length right - count) right →
  let s := commonSuffixLoop fuel left right count in
  drop (length left - s) left = drop (length right - s) right ∧ s ≤ count + fuel.
Proof.
  revert count. induction fuel as [|fuel IH]; intros count Hl Hr Heq; simpl; [split; [done|lia]|].
  destruct (left !! _) as [l|] eqn:El; [|split; [done|lia]].
  destruct (right !! _) as [r|] eqn:Er; [|split; [done|lia]].
  case_bool_decide as Hlr; [|split; [done|lia]]. subst r.
  destruct (IH (S count)) as [? ?]; [lia..| |split; [done|lia]].
  rewrite (drop_S left l (length left - S count)) by (rewrite <-El; f_equal; lia).
  rewrite (drop_S right l (length right - S count)) by (rewrite <-Er; f_equal; lia).
  f_equal. replace (S (length left - S count)) with (length left - count) by lia.
  by replace (S (length right - S count)) with (length right - count) by lia.
Qed.

Lemma commonSuffixAfter_spec left right prefix :
  let s := commonSuffixAfter left right prefix in
  drop (length left - s) left = drop (length right - s) right ∧
  s ≤ length left - prefix ∧ s ≤ length right - prefix.
Proof.
  unfold commonSuffixAfter.
  destruct (commonSuffixLoop_spec (Nat.min (length left - prefix) (length right - prefix)) left right 0)
    as [? ?]; [lia..| |split; [done|lia]].
  by rewrite !Nat.sub_0_r, !drop_all.
Qed.

Lemma slice_app_drop (i j : nat) (l : list string) : i ≤ j → slice i j l ++ drop j l = drop i l.
Proof.
  intros Hij. unfold slice. rewrite <-(take_drop (j - i) (drop i l)) at 2. f_equal.
  rewrite drop_drop. f_equal. lia.
Qed.

Lemma patch_body_context lines body input :
  patch_body (marked " "%char lines ++ body) (lines ++ input) = app lines <$> patch_body body input.
Proof.
  induction lines as [|l lines IH]; simpl; [by destruct (patch_body body input)|].
  repeat (case_decide; simplify_eq; try congruence). rewrite IH. by destruct (patch_body body input).
Qed.

Lemma patch_body_remove lines body input :
  patch_body (marked "-"%char lines ++ body) (lines ++ input) = patch_body body input.
Proof.
  induction lines as [|l lines IH]; simpl; [done|].
  repeat (case_decide; simplify_eq; try congruence).
Qed.

Lemma patch_body_add lines body input :
  patch_body (marked "+"%char lines ++ body) input = app lines <$> patch_body body input.
Proof.
  induction lines as [|l lines IH]; simpl; [by destruct (patch_body body input)|].
  rewrite IH. by destruct (patch_body body input).
Qed.

Lemma count_marks_app marks b1 b2 :
  count_marks marks (b1 ++ b2) = (count_marks marks b1 + count_marks marks b2)%nat.
Proof. unfold count_marks. by rewrite filter_app, length_app. Qed.

Lemma count_marks_marked marks p lines :
  count_marks marks (marked p lines) = if decide (p ∈ marks) then length lines else 0.
Proof.
  unfold count_marks, marked. induction lines as [|l lines IH]; [by case_decide|].
  rewrite fmap_cons, filter_cons. simpl fst. repeat case_decide; simpl; by rewrite ?IH.
Qed.

Lemma length_slice i j (l : list string) : length (slice i j l) = Nat.min (j - i) (length l - i).
Proof. unfold slice. by rewrite length_take, length_drop. Qed.

(** ** Properties *)

(** [Diff] shows a correct patch.  For every file [appendDiff] writes the
    file header and as many lines of one hunk as the limit leaves room for, and
    counts the lines it wrote; the whole hunk, read as a patch at its start
    line, turns the current lines into the expected lines, and the counts in
    its header are the numbers of its current and of its expected lines. *)
Theorem appendDiff_patches builder filePath current expected limit :
  let c := splitLines current in
  let e := splitLines expected in
  let h := hunk_of c e in
  let body := hunk_body c e in
  let shown := take (Z.to_nat (limit - 3)) body in
  appendDiff builder filePath current expected limit =
    (builder +:+ "--- a/" +:+ filePath +:+ newline_str +:+
       "+++ b/" +:+ filePath +:+ newline_str +:+ hunk_header h +:+ render shown,
     (3 + Z.of_nat (length shown))%Z) ∧
  patch (h_start h) body c = Some e ∧
  count_marks [" "%char; "-"%char] body = (h_currentEnd h - h_start h)%nat ∧
  count_marks [" "%char; "+"%char] body = (h_expectedEnd h - h_start h)%nat.
Proof.
  intros c e h body shown. split; [apply appendDiff_eq|].
  destruct (commonPrefix_spec c e) as (Hp & Hpc & Hpe).
  destruct (commonSuffixAfter_spec c e (commonPrefix c e)) as (Hs & Hsc & Hse).
  subst h body. unfold hunk_body, hunk_of, contextLines. simpl.
  set (p := commonPrefix c e) in *. set (s := commonSuffixAfter c e p) in *.
  replace (Nat.min (_ - _) (_ - _)) with (Nat.min 3 s) by lia.
  set (after := slice (length c - s) _ c).
  assert (length after = Nat.min 3 s) as Hafter by (subst after; rewrite length_slice; lia).
  split_and!.
  - unfold patch.
    rewrite <-(slice_app_drop (p - 3) p c) by lia. rewrite patch_body_context.
    rewrite <-(slice_app_drop p (length c - s) c) by lia.
    rewrite patch_body_remove, patch_body_add.
    rewrite <-(slice_app_drop (length c - s) (length c - s + Nat.min 3 s) c) at 1 by lia.
    fold after.
    rewrite <-(app_nil_r (marked " "%char after)), patch_body_context.
    cbn [patch_body fmap option_fmap option_map]. f_equal.
    unfold after. rewrite (slice_app_drop (length c - s)), Hs, slice_app_drop by lia.
    assert (∀ l : list string, take (p - 3) (take p l) = take (p - 3) l) as Htt by (intros; rewrite take_take; f_equal; lia).
    rewrite <-(Htt c), Hp, Htt.
    rewrite <-(take_drop (p - 3) e) at 3. f_equal.
    rewrite <-(slice_app_drop (p - 3) p e) by lia. f_equal.
    unfold slice. rewrite !take_drop_commute.
    by replace (p - 3 + (p - (p - 3))) with p by lia; rewrite Hp.
  - rewrite !count_marks_app, !count_marks_marked.
    repeat case_decide; try (exfalso; set_solver). rewrite Hafter, !length_slice. lia.
  - rewrite !count_marks_app, !count_marks_marked.
    repeat case_decide; try (exfalso; set_solver). rewrite Hafter, !length_slice. lia.
Qed.

(** The number of newline bytes of a text. *)
Fixpoint newlines (s : string) : nat :=
  match s with
  | EmptyString => 0
  | String c s' => if decide (c = newline) then S (newlines s') else newlines s'
  end.

Lemma newlines_app s t : newlines (s +:+ t) = newlines s + newlines t.
Proof.
  induction s as [|c s IH]; [done|]. rewrite str_cons_app. simpl. case_decide; simpl; by rewrite IH.
Qed.

Lemma split_byte_no_sep s l : l ∈ split_byte newline s → newlines l = 0.
Proof.
  revert l. induction s as [|c s IH]; intros l; simpl; [by intros ->%list_elem_of_singleton|].
  destruct (ascii_dec c newline) as [Hc|Hc].
  - intros [->|?]%elem_of_cons; [done|auto].
  - destruct (split_byte newline s) as [|part rest] eqn:E.
    + intros ->%list_elem_of_singleton. simpl. by rewrite decide_False.
    + intros [->|?]%elem_of_cons; [|apply IH; by right].
      simpl. rewrite decide_False by done. apply IH. by left.
Qed.

Lemma splitLines_no_newline content l : l ∈ splitLines content → newlines l = 0.
Proof. unfold splitLines. case_bool_decide; [set_solver|]. apply split_byte_no_sep. Qed.

Lemma newlines_render body : (∀ ml, ml ∈ body → ml.1 ≠ newline ∧ newlines ml.2 = 0) →
  newlines (render body) = length body.
Proof.
  induction body as [|[m l] body IH]; intros Hb; [done|]. unfold render in *. simpl.
  destruct (Hb (m, l)) as [Hm Hl]; [by left|]. simpl in *.
  rewrite decide_False by done. rewrite str_nil_app || idtac.
  rewrite !newlines_app, Hl, IH by (intros; apply Hb; by right). done.
Qed.

Lemma elem_of_slice i j (l : list string) x : x ∈ slice i j l → x ∈ l.
Proof.
  intros Hx. rewrite <-(take_drop i l). apply elem_of_app. right.
  rewrite <-(take_drop (j - i) (drop i l)). apply elem_of_app. by left.
Qed.

Lemma newlines_hunk_body c e limit :
  (∀ l, l ∈ c ∨ l ∈ e → newlines l = 0) →
  newlines (render (take limit (hunk_body c e))) = length (take limit (hunk_body c e)).
Proof.
  intros Hce. apply newlines_render. intros [m l] Hin.
  assert ((m, l) ∈ hunk_body c e) as Hb.
  { rewrite <-(take_drop limit (hunk_body c e)). apply elem_of_app. by left. }
  clear Hin. revert Hb. unfold hunk_body, marked.
  rewrite !elem_of_app, !list_elem_of_fmap.
  by intros [(?&[= -> ->]&?%elem_of_slice)|[(?&[= -> ->]&?%elem_of_slice)|
    [(?&[= -> ->]&?%elem_of_slice)|(?&[= -> ->]&?%elem_of_slice)]]]; (split; [done|apply Hce; auto]).
Qed.

Lemma newlines_pretty_N x s : newlines (pretty_N_go x s) = newlines s.
Proof.
  revert s. induction (N.lt_wf_0 x) as [x _ IH]; intros s.
  destruct (decide (x = 0)%N) as [->|Hx]; [done|].
  rewrite pretty_N_go_step by lia. rewrite IH by (apply N.div_lt; lia).
  simpl. rewrite decide_False; [done|].
  unfold pretty_N_char. by repeat case_match.
Qed.

Lemma newlines_itoa n : newlines (itoa (Z.of_nat n)) = 0.
Proof.
  unfold itoa, pretty, pretty_Z. destruct (Z.of_nat n) eqn:E; [done| |lia].
  change (newlines (pretty_N_go (N.pos p) EmptyString) = 0). by rewrite newlines_pretty_N.
Qed.

Lemma newlines_hunk_header h : newlines (hunk_header h) = 1.
Proof. unfold hunk_header. by rewrite !newlines_app, !newlines_itoa. Qed.

(** What [appendDiff] adds to the builder has as many lines as it reports. *)
Lemma newlines_appendDiff builder filePath current expected limit :
  newlines filePath = 0 →
  let r := appendDiff builder filePath current expected limit in
  Z.of_nat (newlines r.1) = (Z.of_nat (newlines builder) + r.2)%Z ∧ (3 <= r.2 <= Z.max 3 limit)%Z.
Proof.
  intros Hp. cbv zeta. rewrite appendDiff_eq. cbn [fst snd].
  rewrite !newlines_app, newlines_hunk_header, Hp, newlines_hunk_body
    by (intros l [Hl|Hl]; apply (splitLines_no_newline _ _ Hl)).
  assert (length (take (Z.to_nat (limit - 3)) (hunk_body (splitLines current) (splitLines expected)))
    ≤ Z.to_nat (limit - 3)) as Hk by (rewrite length_take; apply Nat.le_min_l).
  revert Hk. generalize (length (take (Z.to_nat (limit - 3))
    (hunk_body (splitLines current) (splitLines expected)))).
  intros k Hk. split; [|lia].
  change (newlines newline_str) with 1. change (newlines "--- a/") with 0.
  change (newlines "+++ b/") with 0. lia.
Qed.

Lemma newlines_diffLoop state paths builder remaining :
  (∀ p, p ∈ paths → newlines p = 0) → (0 <= remaining + 2)%Z →
  (Z.of_nat (newlines (diffLoop state paths builder remaining)) <=
   Z.of_nat (newlines builder) + remaining + 3)%Z.
Proof.
  revert builder remaining. induction paths as [|p paths IH]; intros builder remaining Hp Hr; simpl; [lia|].
  destruct (remaining <=? 0)%Z eqn:Hrem; bool_prop.
  { rewrite !newlines_app. change (newlines newline_str) with 1.
    change (newlines "... diff truncated ...") with 0. clear Hp IH. lia. }
  pose proof (newlines_appendDiff builder p (default "" (current state !! p))
    (default "" (expected state !! p)) remaining (Hp p ltac:(by left))) as [Hn Hl].
  destruct (appendDiff _ _ _ _ _) as [b n]. simpl in *.
  etrans; [apply IH; [intros; apply Hp; by right|lia]|]. lia.
Qed.

Section bounded.
Context `{UnicodeTables} `{GenLibraries}.
Variable range : gmap string string → list (string * string).

(** The output of [Diff] is bounded.  Whatever the tree, the plan and the
    failures of the system are, when none of the paths the inspection reports
    contains a newline, the text [Diff] returns has at most [maxDiffLines]
    lines, two more for the header of the last file and one for the truncation
    mark. *)
Theorem Diff_bounded plan w w' text :
  Diff range plan w = (Ok text, w') →
  (∀ state w1 w2, open_root w = (Ok (), w1) →
     inspect_and_close range plan no_options w1 = (Ok state, w2) →
     ∀ d, d ∈ differences state → newlines (d_Path d) = 0) →
  (Z.of_nat (newlines text) <= maxDiffLines + 3)%Z.
Proof.
  unfold Diff. intros Hd Hpaths. inv_io.
  destruct (Current _); inv_io; [done|].
  match goal with Hu : open_root _ = (Ok ?u, _), Hi : inspect_and_close _ _ _ _ = (Ok ?s, _) |- _ =>
    destruct u; pose proof (Hpaths _ _ _ Hu Hi) as Hps; rename s into st end.
  etrans; [apply newlines_diffLoop; [|done]|done].
  intros p. unfold diff_paths, sort_slice.
  rewrite elem_of_sort_stable, elem_of_elements, elem_of_list_to_set.
  intros (d & -> & Hin)%list_elem_of_fmap. eauto.
Qed.
End bounded.
