(* ===== verification/GenSafety.v ===== *)
(** What [internal/genfs] leaves alone: an invariant on the tree, kept by every
    call under every schedule of faults, and the proof that applying a plan
    touches only what the manifest owns unmodified. *)
From S2P Require Import Prelude GoSort GoStrings Sha256 GenPlan GoRoot GoPath GenFs.

(** ** Calls that only read *)

(** The tree and the limit on links, which is all a path depends on. *)
Definition view (w : world) : tree * nat := (w_tree w, w_links w).

(** The call leaves the tree as it is. *)
Definition reads {A} (m : io A) : Prop := ∀ w, view (m w).2 = view w.

Lemma reads_bind {A B} (m : io A) (k : A → io B) : reads m → (∀ a, reads (k a)) → reads (m ≫= k).
Proof.
  intros Hm Hk w. unfold mbind, io_bind. specialize (Hm w).
  destruct (m w) as [[a|e] w1]; simpl in *; [by rewrite Hk|done].
Qed.
Lemma reads_ret {A} (a : A) : reads (mret a).
Proof. done. Qed.
Lemma reads_fail {A} e : reads (fail (A := A) e).
Proof. done. Qed.
Lemma reads_lift {A} (m : outcome error A) : reads (lift m).
Proof. done. Qed.
Lemma reads_attempt {A} (m : io A) : reads m → reads (attempt m).
Proof. intros Hm w. unfold attempt. specialize (Hm w). by destruct (m w). Qed.
Lemma reads_wrap {A} p (m : io A) : reads m → reads (wrap_io p m).
Proof. intros Hm w. unfold wrap_io. specialize (Hm w). by destruct (m w) as [[]]. Qed.
Lemma reads_fold {A S} (f : S → A → io S) s l : (∀ s x, reads (f s x)) → reads (fold_io f s l).
Proof.
  intros Hf. revert s. induction l as [|x l IH]; intros s; [done|]. simpl. by apply reads_bind.
Qed.
Lemma reads_tick : reads tick.
Proof. intros w. unfold tick. by destruct (w_faults w) as [|[] ?]. Qed.
Lemma reads_syscall {A} (m : io A) : reads m → reads (syscall m).
Proof. intros Hm. apply reads_bind; [apply reads_tick|]. by intros []. Qed.
Lemma reads_walk {S} fuel (fn : S → string → entry → io S) s p e :
  (∀ s p e, reads (fn s p e)) → reads (walk fuel fn s p e).
Proof.
  intros Hfn. revert s p e. induction fuel as [|fuel IH]; intros s p e; [done|]. simpl.
  apply reads_bind; [done|]. intros s'. destruct e; try done.
  apply reads_bind; [by apply reads_syscall|]. intros es. apply reads_fold. intros. apply IH.
Qed.

Create HintDb reads discriminated.
#[export] Hint Resolve reads_ret reads_fail reads_lift reads_attempt reads_wrap reads_tick
  reads_syscall : reads.
#[export] Hint Extern 1 (reads (mbind _ _)) => apply reads_bind; [|intros] : reads.
#[export] Hint Extern 1 (reads (match ?x with _ => _ end)) => destruct x : reads.
#[export] Hint Extern 2 (reads (fold_io _ _ _)) => apply reads_fold; intros : reads.

Lemma reads_lstat p : reads (lstat p).
Proof. by apply reads_syscall. Qed.
Lemma reads_read_file p : reads (read_file p).
Proof. by apply reads_syscall. Qed.
Lemma reads_read_dir p : reads (read_dir p).
Proof. by apply reads_syscall. Qed.
Lemma reads_stat p : reads (stat p).
Proof. by apply reads_syscall. Qed.
Lemma reads_close : reads sys_close.
Proof. by apply reads_syscall. Qed.
#[export] Hint Resolve reads_lstat reads_read_file reads_read_dir reads_stat reads_close : reads.

Lemma reads_walk_dir {S} (fn : S → string → entry → io S) s p :
  (∀ s p e, reads (fn s p e)) → reads (walk_dir fn s p).
Proof.
  intros Hfn w. unfold walk_dir. apply reads_bind; [apply reads_stat|]. intros e. by apply reads_walk.
Qed.
#[export] Hint Extern 1 (reads (walk_dir _ _ _)) => apply reads_walk_dir; intros : reads.

Section reading.
Context `{UnicodeTables} `{GenLibraries}.
Variable range : gmap string string → list (string * string).

Lemma reads_rejectSymlink p : reads (rejectSymlinkComponents p).
Proof.
  unfold rejectSymlinkComponents. generalize "" (split_byte slash p). intros c parts.
  revert c. induction parts as [|x parts IH]; intros c; simpl; eauto 20 with reads.
Qed.
Lemma reads_readOptional p : reads (readOptional p).
Proof. unfold readOptional. eauto 20 with reads. Qed.
#[local] Hint Resolve reads_rejectSymlink reads_readOptional : reads.

Lemma reads_expected s f : reads (inspectExpectedFile s f).
Proof. unfold inspectExpectedFile. eauto 20 with reads. Qed.
Lemma reads_prior s e : reads (inspectPriorFile s e).
Proof. unfold inspectPriorFile. eauto 20 with reads. Qed.
Lemma reads_entry s p e : reads (inspectUnexpectedGeneratedEntry s p e).
Proof. unfold inspectUnexpectedGeneratedEntry. eauto 20 with reads. Qed.
#[local] Hint Resolve reads_expected reads_prior reads_entry : reads.
Lemma reads_directory s d : reads (inspectUnexpectedGeneratedDirectory s d).
Proof. unfold inspectUnexpectedGeneratedDirectory. eauto 20 with reads. Qed.
#[local] Hint Resolve reads_directory : reads.
Lemma reads_unexpected plan s : reads (inspectUnexpectedGenerated plan s).
Proof.
  unfold inspectUnexpectedGenerated, inspectUnexpectedGeneratedOutput. eauto 20 with reads.
Qed.
#[local] Hint Resolve reads_unexpected : reads.
Lemma reads_inspect plan options : reads (inspect range plan options).
Proof.
  unfold inspect, inspectTarget, inspectManifest, inspectPrior, inspectPriorFiles.
  eauto 20 with reads.
Qed.
End reading.
#[export] Hint Resolve reads_rejectSymlink reads_readOptional reads_inspect : reads.

(** ** What a successful or a failed call tells *)

Lemma view_locate w w' follow p : view w = view w' → locate w follow p = locate w' follow p.
Proof. intros [= Ht Hl]. unfold locate. by rewrite Ht, Hl. Qed.

Lemma syscall_ok {A} (m : io A) w a w' :
  syscall m w = (Ok a, w') → ∃ w1, view w1 = view w ∧ m w1 = (Ok a, w').
Proof.
  unfold syscall, mbind, io_bind. pose proof (reads_tick w) as Ht.
  destruct (tick w) as [[f|e] w1]; [|done]. destruct f; [|done..]. by exists w1.
Qed.

(** A call either does its work or fails and leaves everything as it is. *)
Lemma syscall_run' {A} (m : io A) w r w' :
  syscall m w = (r, w') →
  (is_ok r = false ∧ view w' = view w) ∨ ∃ w1, view w1 = view w ∧ m w1 = (r, w').
Proof.
  unfold syscall, mbind, io_bind. pose proof (reads_tick w) as Ht.
  destruct (tick w) as [[f|e] w1]; [|intros [= <- <-]; by left].
  destruct f; [right; by exists w1|intros [= <- <-]; by left..].
Qed.

Lemma syscall_run {A} (m : io A) w r w' :
  syscall m w = (r, w') → view w' = view w ∨ ∃ w1, view w1 = view w ∧ m w1 = (r, w').
Proof. intros [[_ ?]|?]%syscall_run'; auto. Qed.

(** A write changes the content of its file or nothing. *)
Lemma write_run k c w r w' :
  write_file k c w = (r, w') →
  w_tree w' = w_tree w ∨ ∃ c' m, w_tree w' = partial_alter (λ _, Some (EFile c' m)) k (w_tree w).
Proof.
  unfold write_file, mbind, io_bind. pose proof (reads_tick w) as Ht.
  destruct (tick w) as [[f|e] w1]; injection Ht as Ht _; [|intros [= <- <-]; by left].
  destruct f; [| |intros [= <- <-]; by left].
  - intros Hp. repeat case_match; simplify_eq/=; rewrite Ht; eauto.
  - intros Hp. repeat case_match; unfold fail in *; simplify_eq/=; rewrite Ht; eauto.
Qed.

(** A fault is neither [fs.ErrNotExist] nor [fs.ErrExist]. *)
Lemma syscall_sentinel {A} (m : io A) w e w' n :
  syscall m w = (Fail e, w') → error_is e n = true → ∃ w1, view w1 = view w ∧ m w1 = (Fail e, w').
Proof.
  unfold syscall, mbind, io_bind. pose proof (reads_tick w) as Ht.
  destruct (tick w) as [[f|e'] w1] eqn:E.
  - destruct f; [by exists w1|intros [= <- <-]; done..].
  - unfold tick in E. by destruct (w_faults w) as [|[] ?].
Qed.

Lemma lstat_ok p w e w' :
  lstat p w = (Ok e, w') →
  view w' = view w ∧ ∃ k, locate w false p = Ok k ∧ entry_at (w_tree w) k = Some e.
Proof.
  intros (w1 & Hv & H)%syscall_ok. injection H as H <-. split; [done|].
  apply outcome_bind_ok in H as (k & Hk & He). exists k.
  rewrite <-(view_locate w1 w) by done. split; [done|].
  injection Hv as <- _. destruct (entry_at _ k); by simplify_eq.
Qed.

(** No entry at [p], or none of its directories. *)
Definition absent (w : world) (p : string) : Prop :=
  match locate w false p with
  | Ok k => entry_at (w_tree w) k = None
  | Fail e => is_not_exist e = true
  end.

Lemma lstat_absent p w e w' :
  lstat p w = (Fail e, w') → is_not_exist e = true → view w' = view w ∧ absent w p.
Proof.
  intros H Hne. apply (syscall_sentinel _ _ _ _ "file does not exist") in H as (w1 & Hv & H); [|done].
  injection H as H <-. split; [done|]. unfold absent. rewrite <-(view_locate w1 w) by done.
  injection Hv as <- _.
  destruct (locate w1 false p) as [k|e']; simpl in H; [|by simplify_eq].
  by destruct (entry_at _ k).
Qed.

Lemma read_file_ok p w c w' k c0 m :
  read_file p w = (Ok c, w') → locate w true p = Ok k →
  entry_at (w_tree w) k = Some (EFile c0 m) → c = c0.
Proof.
  intros (w1 & Hv & H)%syscall_ok Hk He. injection H as H <-.
  rewrite (view_locate w1 w) in H by done. rewrite Hk in H. simpl in H.
  injection Hv as Ht _. rewrite Ht, He in H. by simplify_eq.
Qed.

(** At a path to a file it makes no difference whether the last component is
    followed. *)
Lemma resolve_follow links t cur parts k c m :
  resolve links false t cur parts = Ok k → entry_at t k = Some (EFile c m) →
  resolve links true t cur parts = Ok k.
Proof.
  revert cur parts. induction links as [|links IHl]; intros cur parts;
    revert cur; induction parts as [|part rest IHp]; intros cur Hr He; simpl in *; try done;
    (case_decide; [by destruct cur; [|apply IHp]|]).
  all: destruct rest as [|part' rest].
  - simpl in *. injection Hr as <-. destruct (cur ++ [part]) eqn:E; [by destruct cur|].
    rewrite <-E in *. simpl in He. rewrite E in *. simpl in He. by rewrite He.
  - simpl in *. destruct (t !! _) as [[]|]; try done. by apply IHp.
  - simpl in *. injection Hr as <-. destruct (cur ++ [part]) eqn:E; [by destruct cur|].
    simpl in He. by rewrite He.
  - simpl in *. destruct (t !! _) as [[]|]; try done; [by apply IHp|].
    destruct (path_is_abs _); [done|]. by apply IHl.
Qed.

Lemma attempt_ok {A} (m : io A) w r w' : attempt m w = (Ok r, w') ↔ m w = (r, w').
Proof. unfold attempt. destruct (m w). naive_solver. Qed.

(** [x ← attempt m; k x] *)
Lemma attempt_bind {A B} (m : io A) (k : outcome error A → io B) w r w' :
  (attempt m ≫= k) w = (r, w') ↔ ∃ x w1, m w = (x, w1) ∧ k x w1 = (r, w').
Proof. unfold mbind, io_bind, attempt. destruct (m w) as [x w1]. naive_solver. Qed.

Lemma readOptional_ok `{UnicodeTables} p w r w' :
  readOptional p w = (Ok r, w') →
  view w' = view w ∧
  match r with
  | Some c => ∃ k m, locate w false p = Ok k ∧ w_tree w !! k = Some (EFile c m)
  | None => absent w p
  end.
Proof.
  unfold readOptional. intros (x & w1 & Hl & Hr)%attempt_bind.
  destruct x as [e|e].
  - apply lstat_ok in Hl as [Hv (k & Hk & He)]. destruct e; try discriminate Hr.
    inv_io. match goal with Hc : read_file _ _ = _ |- _ =>
      pose proof (reads_read_file p w1) as Hv2; rewrite Hc in Hv2; simpl in Hv2;
      eapply read_file_ok in Hc; [|rewrite (view_locate w1 w) by done; unfold locate;
        apply (resolve_follow _ _ _ _ _ _ _ Hk He)|injection Hv as -> _; apply He] end.
    subst. split; [congruence|]. exists k. eexists. split; [done|].
    destruct k; [done|]. done.
  - destruct (is_not_exist e) eqn:En; [|done]. inv_io. by apply lstat_absent in Hl.
Qed.

(** ** Paths that meet no link *)

Section protect.
Context (t0 : tree) (A : key → entry → Prop).

(** Every entry lies below directories. *)
Definition well_formed (t : tree) : Prop :=
  ∀ k e, t !! k = Some e → k ≠ [] ∧ ∀ i, i < length k → entry_at t (take i k) = Some EDir.

(** What was there at the beginning is there still, but for the entries [A];
    and no symbolic link is new. *)
Definition Inv (t : tree) : Prop :=
  (∀ k e, t0 !! k = Some e → t !! k = Some e ∨ A k e) ∧
  (∀ k l, t !! k = Some (ELink l) → t0 !! k = Some (ELink l)).

(** The entries [A] are files and [t0] is well formed. *)
Context (A_file : ∀ k e, A k e → ∃ c m, e = EFile c m).
Context (wf0 : well_formed t0).

(** No proper prefix of the path is a link. *)
Definition nolink (ks : key) : Prop :=
  ∀ i l, i < length ks → t0 !! take i ks ≠ Some (ELink l).

Lemma nolink_prefix ks ks' : nolink (ks ++ ks') → nolink ks.
Proof.
  intros Hn i l Hi. specialize (Hn i l). rewrite length_app in Hn.
  rewrite take_app_le in Hn by lia. apply Hn. lia.
Qed.

Lemma nolink_snoc ks c : nolink (ks ++ [c]) ↔ nolink ks ∧ ∀ l, t0 !! ks ≠ Some (ELink l).
Proof.
  split.
  - intros Hn. split; [by eapply nolink_prefix|]. intros l. specialize (Hn (length ks) l).
    rewrite take_app_length in Hn. apply Hn. rewrite length_app. simpl. lia.
  - intros [Hn Hks] i l. rewrite length_app. simpl. intros Hi.
    destruct (decide (i = length ks)) as [->|]; [rewrite take_app_length; apply Hks|].
    rewrite take_app_le by lia. apply Hn. lia.
Qed.

Lemma resolve_nolink t links cur parts k :
  Inv t → Forall good_name parts → nolink (cur ++ parts) →
  resolve links false t cur parts = Ok k → k = cur ++ parts.
Proof.
  intros [_ Hl] Hg. revert cur.
  assert (∀ cur, nolink (cur ++ parts) → resolve links false t cur parts = Ok k → k = cur ++ parts)
    as H; [|by apply H].
  revert k. induction Hg as [|part rest (_ & _ & Hdd & _) Hg IH]; intros k cur Hn.
  - destruct links; simpl; intros [= <-]; by rewrite app_nil_r.
  - assert (nolink ((cur ++ [part]) ++ rest)) as Hn' by by rewrite <-app_assoc.
    assert (∀ l, rest ≠ [] → t !! (cur ++ [part]) ≠ Some (ELink l)) as Hnl.
    { intros l Hr Ht. apply Hl in Ht. specialize (Hn' (length (cur ++ [part])) l).
      rewrite take_app_length in Hn'. apply Hn'; [|done]. rewrite !length_app.
      destruct rest; [done|]. simpl. lia. }
    destruct links as [|links]; simpl; rewrite decide_False by done;
      (destruct rest as [|part' rest]; [by intros [= <-]|]; cbn [andb negb];
       destruct (t !! (cur ++ [part])) as [[| |tgt|]|] eqn:Et; try done;
         try (by destruct (Hnl tgt));
       intros Hr; rewrite (IH k (cur ++ [part]) Hn' Hr); by rewrite <-app_assoc).
Qed.

Lemma locate_nolink w p k :
  Inv (w_tree w) → Forall good_name (comps p) → nolink (comps p) →
  locate w false p = Ok k → k = comps p.
Proof. intros HI Hg Hn Hk. by apply (resolve_nolink _ _ [] _ _ HI Hg Hn) in Hk. Qed.

(** A directory of the beginning is still there. *)
Lemma Inv_dir t k : Inv t → entry_at t0 k = Some EDir → entry_at t k = Some EDir.
Proof.
  intros [Hi _]. destruct k; [done|]. simpl. intros [?|Ha]%Hi; [done|].
  by apply A_file in Ha as (?&?&?).
Qed.

Lemma resolve_through t links cur parts :
  Forall good_name parts →
  (∀ i, 0 < i < length parts → t !! (cur ++ take i parts) = Some EDir) →
  resolve links false t cur parts = Ok (cur ++ parts).
Proof.
  intros Hg. revert cur. induction Hg as [|part rest (_ & _ & Hdd & _) Hg IH]; intros cur Hd.
  - destruct links; simpl; by rewrite app_nil_r.
  - assert (rest ≠ [] → t !! (cur ++ [part]) = Some EDir) as H1.
    { intros Hr. apply (Hd 1). destruct rest; [done|]. simpl. lia. }
    assert (resolve links false t (cur ++ [part]) rest = Ok (cur ++ part :: rest)) as H2.
    { rewrite IH; [by rewrite <-app_assoc|]. intros i Hi. specialize (Hd (S i)).
      rewrite <-app_assoc. apply Hd. simpl. lia. }
    destruct links; simpl; rewrite decide_False by done;
      (destruct rest; [done|]); cbn [andb negb]; by rewrite (H1 ltac:(done)).
Qed.

(** Where there is nothing now there was no link, and nothing below. *)
Lemma absent_nolink w p ks :
  Inv (w_tree w) → Forall good_name (comps p) → nolink (comps p) → absent w p →
  nolink (comps p ++ ks) ∧ ∀ l, t0 !! (comps p ++ ks) ≠ Some (ELink l).
Proof.
  intros HI Hg Hn Hab.
  assert (∀ ks' e, t0 !! (comps p ++ ks') = Some e → (∃ l, e = ELink l) ∨ ks' ≠ [] → False) as Hno.
  { intros ks' e Ht Hor. destruct (wf0 _ _ Ht) as [_ Hpre].
    assert (locate w false p = Ok (comps p)) as Hloc.
    { unfold locate. rewrite resolve_through; [done|done|]. intros i Hi. simpl.
      specialize (Hpre i). rewrite take_app_le in Hpre by lia. rewrite length_app in Hpre.
      apply (Inv_dir (w_tree w)) in Hpre; [|done|lia].
      by destruct (take i (comps p)) eqn:E; [apply (f_equal length) in E;
        rewrite length_take in E; simpl in E; lia|]. }
    unfold absent in Hab. rewrite Hloc in Hab.
    destruct (decide (ks' = [])) as [->|Hks].
    - rewrite app_nil_r in Ht. destruct Hor as [[l ->]|?]; [|done].
      destruct (comps p) as [|a r] eqn:E; [done|]. simpl in Hab.
      destruct HI as [HI _]. destruct (HI _ _ Ht) as [?|Ha]; [congruence|].
      by apply A_file in Ha as (?&?&?).
    - specialize (Hpre (length (comps p))). rewrite take_app_length in Hpre.
      apply (Inv_dir (w_tree w)) in Hpre; [congruence|done|]. rewrite length_app.
      destruct ks'; [done|]. simpl. lia. }
  assert (∀ ks' l, t0 !! (comps p ++ ks') ≠ Some (ELink l)) as Hno' by naive_solver.
  split; [|intros l; apply Hno']. intros i l Hi Ht.
  destruct (decide (i < length (comps p))) as [Hlt|Hge].
  - rewrite take_app_le in Ht by lia. by destruct (Hn i l).
  - rewrite take_app_ge in Ht by lia. by destruct (Hno' _ _ Ht).
Qed.

(** ** Calls that keep the invariant *)

(** The entry at [k] may change. *)
Definition free (k : key) : Prop := ∀ e, t0 !! k = Some e → A k e.

(** The path leads, if anywhere, to its own components, which may change. *)
Definition free_path (p : string) : Prop :=
  Forall good_name (comps p) ∧ nolink (comps p) ∧ free (comps p).

Definition keeps {X} (m : io X) : Prop := ∀ w, Inv (w_tree w) → Inv (w_tree (m w).2).

Lemma reads_keeps {X} (m : io X) : reads m → keeps m.
Proof. intros Hm w Hw. specialize (Hm w). injection Hm as -> _. done. Qed.

(** A bind whose continuation may rely on a result and on the invariant. *)
Lemma keeps_bind_ok {X Y} (m : io X) (f : X → io Y) :
  keeps m → (∀ w a w1, Inv (w_tree w) → m w = (Ok a, w1) → Inv (w_tree w1) → Inv (w_tree (f a w1).2)) →
  keeps (m ≫= f).
Proof.
  intros Hm Hf w Hw. specialize (Hm w Hw). unfold mbind, io_bind.
  destruct (m w) as [[a|e] w1] eqn:E; simpl in *; [by eapply Hf|done].
Qed.
Lemma keeps_bind {X Y} (m : io X) (f : X → io Y) : keeps m → (∀ a, keeps (f a)) → keeps (m ≫= f).
Proof. intros Hm Hf. apply keeps_bind_ok; [done|]. intros w a w1 _ _ H1. by apply Hf. Qed.
Lemma keeps_attempt {X} (m : io X) : keeps m → keeps (attempt m).
Proof. intros Hm w Hw. unfold attempt. specialize (Hm w Hw). by destruct (m w). Qed.
Lemma keeps_wrap {X} p (m : io X) : keeps m → keeps (wrap_io p m).
Proof. intros Hm w Hw. unfold wrap_io. specialize (Hm w Hw). by destruct (m w) as [[]]. Qed.
Lemma keeps_syscall {X} (m : io X) : keeps m → keeps (syscall m).
Proof.
  intros Hm. apply keeps_bind; [apply reads_keeps, reads_tick|]. intros []; [done|by intros w..].
Qed.
Lemma keeps_fold {X S} (f : S → X → io S) s l :
  (∀ s x, x ∈ l → keeps (f s x)) → keeps (fold_io f s l).
Proof.
  revert s. induction l as [|x l IH]; intros s Hf; [by intros w|]. simpl.
  apply keeps_bind; [apply Hf; by left|]. intros s'. apply IH. intros. apply Hf. by right.
Qed.

Lemma Inv_update t k e :
  Inv t → free k → (∀ l, e ≠ Some (ELink l)) → Inv (partial_alter (λ _, e) k t).
Proof.
  intros [Hi Hl] Hf He. split.
  - intros k' e' Ht. destruct (decide (k' = k)) as [->|Hk]; [right; by apply Hf|].
    rewrite lookup_partial_alter_ne by done. by apply Hi.
  - intros k' l. destruct (decide (k' = k)) as [->|Hk].
    + rewrite lookup_partial_alter, decide_True by done. intros ->. by destruct (He l).
    + rewrite lookup_partial_alter_ne by done. apply Hl.
Qed.

Lemma entry_absent_free t k : Inv t → entry_at t k = None → free k.
Proof.
  intros [Hi _] He e Ht. destruct k; [done|]. simpl in He. destruct (Hi _ _ Ht); [congruence|done].
Qed.

Lemma free_locate w p k : free_path p → Inv (w_tree w) → locate w false p = Ok k → free k.
Proof. intros (Hg & Hn & Hf) HI Hk. by apply locate_nolink in Hk as ->. Qed.

Lemma keeps_create p mode : keeps (create_excl p mode).
Proof.
  apply keeps_syscall. intros w Hw. destruct (locate w false p) as [k|e]; [|done].
  destruct (entry_at _ k) eqn:E; [done|]. simpl. apply Inv_update; [done| |done].
  by eapply entry_absent_free.
Qed.

Lemma create_ok p mode w k w' :
  Inv (w_tree w) → create_excl p mode w = (Ok k, w') → free k ∧ (∃ w1, view w1 = view w ∧
    locate w false p = Ok k) ∧ k ≠ [].
Proof.
  intros Hw (w1 & Hv & H)%syscall_ok. rewrite (view_locate w1 w) in H by done.
  destruct (locate w false p) as [k'|e]; [|done]. injection Hv as Ht _. rewrite Ht in H.
  destruct (entry_at _ k') eqn:E; [done|]. injection H as -> <-. split_and!.
  - by eapply entry_absent_free.
  - by exists w.
  - by intros ->.
Qed.

Lemma keeps_put k (f : entry → option entry) (c : string) :
  free k → keeps ((λ w, match w_tree w !! k with
    | Some (EFile _ mode) => (Ok (), update_tree w k (Some (EFile c mode)))
    | _ => (Ok (), w) end) : io ()).
Proof. intros Hk w Hw. repeat case_match; try done. simpl. by apply Inv_update. Qed.

Lemma keeps_write k c : free k → keeps (write_file k c).
Proof.
  intros Hk. apply keeps_bind; [apply reads_keeps, reads_tick|]. intros [|m n|].
  - by apply (keeps_put k Some).
  - apply keeps_bind; [by apply (keeps_put k Some)|]. by intros _ w.
  - by intros w.
Qed.

Lemma keeps_chmod k mode : free k → keeps (chmod k mode).
Proof.
  intros Hk. apply keeps_syscall. intros w Hw. repeat case_match; try done. simpl. by apply Inv_update.
Qed.

Lemma keeps_mkdir p : keeps (mkdir p).
Proof.
  apply keeps_syscall. intros w Hw. destruct (locate w false p) as [k|e]; [|done].
  destruct (entry_at _ k) eqn:E; [done|]. simpl. apply Inv_update; [done| |done].
  by eapply entry_absent_free.
Qed.

Lemma keeps_remove_at p :
  (∀ w k, Inv (w_tree w) → locate w false p = Ok k → free k) → keeps (remove p).
Proof.
  intros Hp. apply keeps_syscall. intros w Hw. destruct (locate w false p) as [k|e] eqn:E; [|done].
  apply Hp in E; [|done].
  repeat case_match; try done; simpl; by apply Inv_update.
Qed.
Lemma keeps_remove p : free_path p → keeps (remove p).
Proof. intros Hp. apply keeps_remove_at. intros. by eapply free_locate. Qed.

(** Nothing of the beginning lies below a free entry. *)
Lemma free_below k k' e : free k → k ≠ [] → t0 !! k' = Some e → take (length k) k' = k → k' = k.
Proof.
  intros Hf Hne Ht Hp. destruct (decide (length k < length k')) as [Hlt|].
  - destruct (wf0 _ _ Ht) as [_ Hd]. specialize (Hd _ Hlt). rewrite Hp in Hd.
    destruct k; [done|]. apply Hf in Hd. by apply A_file in Hd as (?&?&?).
  - by rewrite take_ge in Hp by lia.
Qed.

Lemma Inv_move_dir t ko kn :
  Inv t → free ko → free kn → ko ≠ [] → kn ≠ [] → Inv (move_dir t ko kn).
Proof.
  intros [Hi Hl] Hfo Hfn Ho Hn. unfold move_dir. split.
  - intros k e Ht. destruct (decide (take (length ko) k = ko)) as [Hp|Hp].
    { apply (free_below ko k e) in Hp; [|done..]. subst. right. by apply Hfo. }
    destruct (decide (k = kn)) as [->|Hk]; [right; by apply Hfn|].
    destruct (Hi _ _ Ht) as [Hk'|?]; [left|by right].
    apply lookup_union_Some_l, map_lookup_filter_Some. by split.
  - intros k l [Hf|[_ Hm]]%lookup_union_Some_raw.
    { apply map_lookup_filter_Some in Hf as [? _]. by apply Hl. }
    apply elem_of_list_to_map_2, list_elem_of_omap in Hm as ([k'' e''] & Hin & Hsub).
    simpl in *. case_decide as Hp; [|done]. simplify_eq/=.
    apply elem_of_map_to_list, Hl in Hin. exfalso.
    eapply (free_below ko) in Hp as ->; [|done..].
    apply Hfo in Hin. by apply A_file in Hin as (?&?&?).
Qed.

Lemma Inv_replace t ko kn e :
  Inv t → free ko → free kn → entry_at t ko = Some e → e ≠ EDir →
  Inv (partial_alter (λ _, Some e) kn (partial_alter (λ _, None) ko t)).
Proof.
  intros Hi Ho Hn He Hd. apply Inv_update; [by apply Inv_update|done|]. intros l [= ->].
  destruct ko as [|c ko]; [done|]. simpl in He. destruct Hi as [_ Hl].
  apply Hl, Ho in He. by apply A_file in He as (?&?&?).
Qed.

Lemma keeps_rename_at p q :
  (∀ w k, Inv (w_tree w) → locate w false p = Ok k → free k) →
  (∀ w k, Inv (w_tree w) → locate w false q = Ok k → free k) → keeps (rename p q).
Proof.
  intros Hp Hq. apply keeps_syscall. intros w Hw.
  destruct (locate w false p) as [ko|] eqn:Eo; [|done].
  destruct (locate w false q) as [kn|] eqn:En; [|done].
  apply Hp in Eo; [|done]. apply Hq in En; [|done]. cbn [mbind outcome_bind].
  destruct (entry_at (w_tree w) ko) as [e|] eqn:Ho; [|done].
  destruct (decide (e = EDir)) as [->|Hd].
  - case_decide as Hk; [done|]. case_decide; [done|].
    assert (ko ≠ []) by naive_solver.
    assert (kn ≠ []) by naive_solver.
    destruct (entry_at (w_tree w) kn) as [[| | |]|]; try done; [case_decide; [|done]|];
      by apply Inv_move_dir.
  - destruct (entry_at (w_tree w) kn) as [[| | |]|]; destruct e; try done;
      (case_decide; [done|by apply Inv_replace]).
Qed.
Lemma keeps_rename p q : free_path p → free_path q → keeps (rename p q).
Proof. intros Hp Hq. apply keeps_rename_at; intros w k; [by apply free_locate|by apply free_locate]. Qed.

(** ** The writing functions of genfs *)

Create HintDb keeps discriminated.
#[local] Hint Resolve keeps_create keeps_mkdir keeps_remove keeps_rename keeps_write keeps_chmod
  keeps_attempt keeps_wrap : keeps.
#[local] Hint Extern 3 (keeps _) => apply reads_keeps; solve [eauto 6 with reads] : keeps.
#[local] Hint Extern 1 (keeps (mbind _ _)) => apply keeps_bind; [|intros] : keeps.
#[local] Hint Extern 1 (keeps (match ?x with _ => _ end)) => destruct x : keeps.

Lemma keeps_ensure `{UnicodeTables} d : keeps (ensureDirectories d).
Proof.
  unfold ensureDirectories. case_bool_decide; [by intros w|].
  generalize "" (split_byte slash d). intros c parts.
  revert c. induction parts as [|x parts IH]; intros c; simpl; eauto 20 with keeps.
Qed.
#[local] Hint Resolve keeps_ensure : keeps.

(** The directory [ds] below which a destination lies. *)
Definition dir_path (ds : key) : string := if decide (ds = []) then "." else join ds "/".

Lemma path_join_dir ds n : Forall good_name (ds ++ [n]) → path_join [dir_path ds; n] = join (ds ++ [n]) "/".
Proof.
  intros Hg. unfold dir_path. destruct (decide (ds = [])) as [->|].
  - apply path_join_dot. by inversion_clear Hg.
  - by apply path_join_snoc.
Qed.

Lemma hex_no_slash s : str_forall is_hex s = true → contains_byte s slash = false.
Proof.
  induction s as [|c s IH]; [done|]. simpl. intros [Hc Hs]%andb_true_iff.
  destruct (ascii_dec c slash) as [->|]; [done|auto].
Qed.

Lemma temporary_name base n :
  contains_byte base slash = false → good_name ("." +:+ base +:+ ".spice-" +:+ hex_fixed 16 n).
Proof.
  intros Hb. destruct (hex_fixed_spec 16 n) as [Hl Hh].
  assert (String.length ("." +:+ base +:+ ".spice-" +:+ hex_fixed 16 n) ≥ 8) as Hlen
    by (rewrite !length_str_app; simpl; lia).
  split_and!; try (intros Heq; rewrite Heq in Hlen; simpl in Hlen; lia).
  rewrite !contains_byte_app, Hb, (hex_no_slash (hex_fixed 16 n)) by done. done.
Qed.

(** The path in [ds] is free as soon as its name is new. *)
Definition temp_of (ds : key) (p : string) (k : key) : Prop :=
  ∃ n, good_name n ∧ p = join (ds ++ [n]) "/" ∧ k = ds ++ [n] ∧ free k.

Lemma temp_free ds p k :
  Forall good_name ds → nolink (ds ++ [""]) → temp_of ds p k → free_path p ∧ free k.
Proof.
  intros Hg Hn (n & Hgn & -> & -> & Hf).
  assert (Forall good_name (ds ++ [n])) as Hg' by (apply Forall_app; split; [done|by constructor]).
  split; [|done]. unfold free_path. rewrite comps_join by done.
  apply nolink_snoc in Hn. rewrite nolink_snoc. done.
Qed.

Lemma createTemporary_spec ds base :
  Forall good_name ds → nolink (ds ++ [""]) → contains_byte base slash = false →
  keeps (createTemporary (dir_path ds) base) ∧
  ∀ w p k w1, Inv (w_tree w) → createTemporary (dir_path ds) base w = (Ok (p, k), w1) → temp_of ds p k.
Proof.
  intros Hg Hn Hb. unfold createTemporary. generalize 10. intros attempts.
  assert (∀ w n w1, random_name w = (Ok n, w1) → view w1 = view w ∧ ∃ v, n = hex_fixed 16 v) as Hrn.
  { intros w n w1. unfold random_name. destruct (w_random w); intros [= <- <-]. split; [done|eauto]. }
  assert (reads random_name) as Hrr.
  { intros w. unfold random_name. by destruct (w_random w). }
  induction attempts as [|attempts [IHk IHs]]; [split; [by intros w|done]|]. split; simpl.
  - eauto 10 with keeps.
  - intros w p k w1 Hw H. apply io_bind_ok in H as (n & w2 & Hn2 & H).
    apply Hrn in Hn2 as [Hv [v ->]]. apply attempt_bind in H as (r & w3 & Hc & H).
    assert (Inv (w_tree w2)) as Hw2 by (injection Hv as -> _; done).
    set (name := "." +:+ base +:+ ".spice-" +:+ hex_fixed 16 v) in *.
    assert (good_name name) as Hname by by apply temporary_name.
    assert (Forall good_name (ds ++ [name])) as Hg' by (apply Forall_app; split; [done|by constructor]).
    destruct r as [f|e].
    + injection H as <- <- <-. apply create_ok in Hc as (Hf & (_ & _ & Hl) & _); [|done].
      rewrite path_join_dir in * by done. exists name. split_and!; try done.
      apply locate_nolink in Hl; rewrite ?comps_join in * by done; try done.
      apply nolink_snoc in Hn. by rewrite nolink_snoc.
    + destruct (negb (is_exist e)); [done|]. eapply IHs, H.
      pose proof (keeps_create (path_join [dir_path ds; name]) 384 w2 Hw2) as Hk. by rewrite Hc in Hk.
Qed.

Ltac keeps_goal :=
  match goal with |- ∀ w, Inv (w_tree w) → Inv (w_tree (?m w).2) => change (keeps m) end.

(** A destination: link free, with a name. *)
Definition destination (p : string) (ds : key) (b : string) : Prop :=
  p = join (ds ++ [b]) "/" ∧ Forall good_name (ds ++ [b]) ∧ nolink (ds ++ [b]) ∧ free (ds ++ [b]).

Lemma destination_free p ds b : destination p ds b → free_path p.
Proof. intros (-> & Hg & Hn & Hf). unfold free_path. by rewrite comps_join. Qed.

Lemma destination_temp p ds b :
  destination p ds b →
  path_dir p = dir_path ds ∧ path_base p = b ∧ Forall good_name ds ∧ nolink (ds ++ [""]) ∧
  contains_byte b slash = false.
Proof.
  intros (-> & Hg & Hn & Hf). rewrite path_dir_snoc, path_base_snoc by done.
  pose proof Hg as [Hd Hb]%Forall_app. apply nolink_snoc in Hn.
  split_and!; try done; [by apply nolink_snoc|]. by inversion_clear Hb as [|?? (_ & _ & _ & ?)].
Qed.

Lemma keeps_replacePath `{UnicodeTables} p ds b t k :
  destination p ds b → temp_of ds t k → keeps (replacePath t p).
Proof.
  intros Hp Ht. pose proof (destination_free _ _ _ Hp) as Hfp.
  destruct (destination_temp _ _ _ Hp) as (Hdir & Hbase & Hg & Hn & Hb).
  destruct (temp_free _ _ _ Hg Hn Ht) as [Hft _]. unfold replacePath. rewrite Hdir, Hbase.
  apply keeps_bind; [eauto with keeps|]. intros [e|e]; [|eauto with keeps].
  destruct (createTemporary_spec ds (b +:+ ".backup")) as [Hk Hs];
    [done..|by rewrite contains_byte_app, Hb|].
  apply keeps_bind_ok; [done|]. intros w [bp bk] w1 Hw Hc Hw1.
  assert (temp_of ds bp bk) as Hbt by exact (Hs w bp bk w1 Hw Hc).
  destruct (temp_free ds bp bk Hg Hn Hbt) as [Hfb _].
  cbn [fst snd]. clear Hc. revert w1 Hw1. keeps_goal. eauto 20 with keeps.
Qed.

Lemma keeps_fill t content mode : free t → keeps (fillTemporary t content mode).
Proof. intros Ht. unfold fillTemporary, fail_closing. eauto 20 with keeps. Qed.

Lemma keeps_replaceFile `{UnicodeTables} `{GenLibraries} p ds b content mode goSource :
  destination p ds b → keeps (replaceFile p content mode goSource).
Proof.
  intros Hp. destruct (destination_temp _ _ _ Hp) as (Hdir & Hbase & Hg & Hn & Hb).
  unfold replaceFile. rewrite Hdir, Hbase.
  apply keeps_bind; [eauto with keeps|]. intros _. apply keeps_bind; [eauto 8 with keeps|]. intros _.
  destruct (createTemporary_spec ds b Hg Hn Hb) as [Hk Hs].
  apply keeps_bind_ok; [done|]. intros w [tp tk] w1 Hw Hc Hw1.
  assert (temp_of ds tp tk) as Ht by exact (Hs w tp tk w1 Hw Hc).
  destruct (temp_free ds tp tk Hg Hn Ht) as [Hft Hfk]. cbn [fst snd].
  pose proof (keeps_fill tk content mode Hfk). pose proof (keeps_replacePath p ds b tp tk Hp Ht).
  clear Hc. revert w1 Hw1. keeps_goal. eauto 20 with keeps.
Qed.

(** ** Removing an owned file *)

(** Whether a proper prefix of the path is a symbolic link. *)
Definition links_through (t : tree) (ks : key) : bool :=
  existsb (λ i, match t !! take i ks with Some (ELink _) => true | _ => false end)
    (seq 0 (length ks)).

Lemma links_through_false ks : links_through t0 ks = false ↔ nolink ks.
Proof.
  unfold links_through, nolink. rewrite <-not_true_iff_false, existsb_exists. split.
  - intros Hn i l Hi Ht. apply Hn. exists i. rewrite in_seq, Ht. split; [lia|done].
  - intros Hn (i & Hi & Hl). apply in_seq in Hi.
    destruct (t0 !! take i ks) as [[]|] eqn:E; try done. eapply Hn, E. lia.
Qed.

(** The place a path leads to: its components, unless it meets a link. *)
Definition leads_to (t : tree) (p : string) (k : key) : Prop :=
  k = comps p ∨ links_through t (comps p) = true.

Lemma locate_leads w p k :
  Inv (w_tree w) → Forall good_name (comps p) → locate w false p = Ok k → leads_to t0 p k.
Proof.
  intros Hw Hg Hk. unfold leads_to. destruct (links_through t0 (comps p)) eqn:E; [by right|left].
  apply links_through_false in E. by eapply locate_nolink.
Qed.

(** Removing a path, in a world in which it leads to a free entry. *)
Lemma remove_free p w k :
  Inv (w_tree w) → locate w false p = Ok k → free k → Inv (w_tree (remove p w).2).
Proof.
  intros Hw Hk Hf. unfold remove, syscall, mbind, io_bind. pose proof (reads_tick w) as Ht.
  destruct (tick w) as [[f|e] w1]; simpl in Ht; [|simpl; by injection Ht as -> _].
  assert (Inv (w_tree w1)) by by injection Ht as -> _.
  destruct f; [|done..]. rewrite (view_locate w1 w), Hk by done.
  repeat case_match; try done; simpl; by apply Inv_update.
Qed.

Lemma keeps_removeOwnedFile `{UnicodeTables} p h :
  (∀ w k c m, Inv (w_tree w) → locate w false p = Ok k → hashContent c = h → A k (EFile c m)) →
  keeps (removeOwnedFile p h).
Proof.
  intros Hp. unfold removeOwnedFile. apply keeps_bind_ok; [eauto with keeps|].
  intros w c w1 Hw Hc Hw1. apply readOptional_ok in Hc as [Hv Hc].
  destruct c as [c|]; [|done]. destruct Hc as (k & m & Hk & He).
  destruct (negb _ || _) eqn:Hcond; [done|]. bool_prop.
  assert (free k) as Hfk.
  { intros e Ht. destruct (proj1 Hw _ _ Ht) as [He'|?]; [|done].
    rewrite He in He'. simplify_eq. by apply (Hp w). }
  unfold wrap_io. pose proof (remove_free p w1 k Hw1) as Hr.
  destruct (remove p w1) as [[[]|] w2]; apply Hr; by rewrite ?(view_locate w1 w).
Qed.
End protect.

(** The goal of a continuation as a property of the call. *)
Ltac keeps_goal :=
  match goal with
  | |- ∀ w, Inv ?t ?A (w_tree w) → Inv ?t ?A (w_tree (?m w).2) => change (keeps t A m)
  end.

(** ** What an inspection that succeeds has seen *)

Lemma Inv_refl t (A : key → entry → Prop) : Inv t A t.
Proof. split; [by left|done]. Qed.

Definition nothing : key → entry → Prop := λ _ _, False.

(** No component of the path is a link. *)
Definition clear (t : tree) (ks : key) : Prop := nolink t ks ∧ ∀ l, t !! ks ≠ Some (ELink l).

Lemma well_formed_root t : well_formed t → t !! [] = None.
Proof. intros Hwf. destruct (t !! []) eqn:E; [|done]. by apply Hwf in E as [? _]. Qed.

(** The tree has everything [t] has, and no other links. *)
Notation over t w := (Inv t nothing (w_tree w)).

Lemma over_refl w : over (w_tree w) w.
Proof. apply Inv_refl. Qed.
Lemma over_view t w w' : view w' = view w → over t w → over t w'.
Proof. intros Hv. by injection Hv as -> _. Qed.
Lemma over_lookup t w k e : over t w → t !! k = Some e → w_tree w !! k = Some e.
Proof. intros [Hi _] Ht. by destruct (Hi _ _ Ht). Qed.
Lemma nothing_file k e : nothing k e → ∃ c m, e = EFile c m.
Proof. done. Qed.

Lemma clear_located t w p k :
  over t w → Forall good_name (comps p) → nolink t (comps p) → locate w false p = Ok k → k = comps p.
Proof. intros Hi Hg Hn Hk. by apply (locate_nolink t nothing w p k Hi Hg Hn) in Hk. Qed.

Lemma lstat_clear t w p e w' :
  lstat p w = (Ok e, w') → over t w → Forall good_name (comps p) → nolink t (comps p) →
  comps p ≠ [] → w_tree w !! comps p = Some e.
Proof.
  intros [_ (k & Hk & He)]%lstat_ok Hi Hg Hn Hne.
  apply (clear_located t) in Hk as ->; [|done..]. by destruct (comps p).
Qed.

Lemma absent_clear t w p ks :
  absent w p → over t w → well_formed t → Forall good_name (comps p) → nolink t (comps p) →
  clear t (comps p ++ ks).
Proof.
  intros Ha Hi Hwf Hg Hn. by apply (absent_nolink t nothing nothing_file Hwf w p ks Hi Hg Hn Ha).
Qed.

Section facts.
Context `{UnicodeTables} `{GenLibraries}.

Lemma rejectSymlinkLoop_ok t past todo w w' :
  rejectSymlinkLoop (join past "/") todo w = (Ok (), w') → over t w → well_formed t →
  Forall good_name (past ++ todo) → clear t past → clear t (past ++ todo).
Proof.
  revert past w. induction todo as [|part todo IH]; intros past w Hr Ht Hwf Hg Hc.
  { by rewrite app_nil_r. }
  simpl in Hr. rewrite cons_snoc_app in *. pose proof Hg as [Hg1 _]%Forall_app.
  rewrite path_join_snoc in Hr by done.
  apply attempt_bind in Hr as (r & w1 & Hl & Hr).
  assert (nolink t (past ++ [part])) as Hn by by apply nolink_snoc.
  destruct r as [e|e].
  - pose proof (lstat_ok _ _ _ _ Hl) as [Hv _].
    apply (lstat_clear t) in Hl; rewrite ?comps_join in * by done; try done; [|by destruct past].
    destruct e; try discriminate Hr; apply (IH _ w1); try done; try (by eapply over_view);
      (split; [done|]; intros l Hlk; apply (over_lookup _ w) in Hlk; congruence).
  - destruct (is_not_exist e) eqn:En; [|done]. apply lstat_absent in Hl as [_ Ha]; [|done].
    rewrite <-(comps_join (past ++ [part])) by done.
    by apply (absent_clear _ w); rewrite ?comps_join.
Qed.

Lemma rejectSymlinkComponents_ok t ks w w' :
  rejectSymlinkComponents (join ks "/") w = (Ok (), w') → over t w → well_formed t →
  Forall good_name ks → ks ≠ [] → clear t ks.
Proof.
  unfold rejectSymlinkComponents. intros Hr Ht Hwf Hg Hne. rewrite split_join_good in Hr by done.
  apply (rejectSymlinkLoop_ok t [] ks w w' Hr Ht Hwf Hg). split.
  - intros i l Hi. simpl in Hi. lia.
  - by rewrite well_formed_root.
Qed.

(** A state of an inspection and a later one. *)
Definition grows (s s' : inspection) : Prop :=
  owned s' = owned s ∧ differences s ⊆ differences s'.
#[export] Instance grows_preorder : PreOrder grows.
Proof. split; [done|]. intros x y z [Hx ?] [Hy ?]. split; [congruence|]. by etrans. Qed.

Lemma grows_add d s : grows s (add_difference d s).
Proof. split; [done|]. simpl. set_solver. Qed.
Lemma grows_current p c s : grows s (set_current p c s).
Proof. done. Qed.
Lemma grows_both d p c s : grows s (add_difference d (set_current p c s)).
Proof. etrans; [by apply (grows_current p c)|apply grows_add]. Qed.
#[local] Hint Resolve grows_add grows_current grows_both : spice.

Lemma fold_io_visits {A S} (R : S → S → Prop) `{!PreOrder R} (f : S → A → io S) s l w s' w' :
  (∀ s x, reads (f s x)) → (∀ s x w s' w', f s x w = (Ok s', w') → R s s') →
  fold_io f s l w = (Ok s', w') →
  R s s' ∧ ∀ x, x ∈ l → ∃ sa wa sb wb,
    view wa = view w ∧ f sa x wa = (Ok sb, wb) ∧ R s sa ∧ R sb s'.
Proof.
  intros Hr Hf. revert s w. induction l as [|x l IH]; intros s w Hl; simpl in Hl.
  { inv_io. split; [done|]. by intros x ?%elem_of_nil. }
  apply io_bind_ok in Hl as (s1 & w1 & H1 & H2). destruct (IH _ _ H2) as [HR Hv].
  pose proof (Hf _ _ _ _ _ H1) as HR1. pose proof (Hr s x w) as Hvw. rewrite H1 in Hvw. simpl in Hvw.
  split; [by etrans|]. intros y [->|Hy]%elem_of_cons.
  - by exists s, w, s1, w1.
  - destruct (Hv _ Hy) as (sa & wa & sb & wb & ? & ? & ? & ?). exists sa, wa, sb, wb.
    split_and!; try done; [congruence|by etrans].
Qed.

Lemma expected_grows s f w s' w' : inspectExpectedFile s f w = (Ok s', w') → grows s s'.
Proof.
  unfold inspectExpectedFile. intros Hi. inv_io. repeat case_match; inv_io; auto with spice.
Qed.
Lemma prior_grows s e w s' w' : inspectPriorFile s e w = (Ok s', w') → grows s s'.
Proof.
  unfold inspectPriorFile. intros Hi. repeat case_match; inv_io; try done.
  repeat case_match; inv_io; auto with spice.
Qed.
Lemma entry_grows s p e w s' w' :
  inspectUnexpectedGeneratedEntry s p e w = (Ok s', w') → grows s s'.
Proof.
  unfold inspectUnexpectedGeneratedEntry. intros Hi.
  repeat case_match; inv_io; try done; repeat case_match; inv_io; try done; auto with spice.
Qed.
(** The state of a fold moves along a preorder each of its steps keeps. *)
Lemma fold_moves {A S} (R : S → S → Prop) `{!PreOrder R} (f : S → A → io S) s l w s' w' :
  (∀ s x w s' w', f s x w = (Ok s', w') → R s s') → fold_io f s l w = (Ok s', w') → R s s'.
Proof.
  intros Hf. revert s w. induction l as [|x l IH]; intros s w Hl; simpl in Hl; inv_io; [done|].
  etrans; [by eapply Hf|by eapply IH].
Qed.
Lemma walk_moves {S} (R : S → S → Prop) `{!PreOrder R} fuel (fn : S → string → entry → io S) s p e w s' w' :
  (∀ s p e w s' w', fn s p e w = (Ok s', w') → R s s') →
  walk fuel fn s p e w = (Ok s', w') → R s s'.
Proof.
  intros Hfn. revert s p e w s' w'. induction fuel as [|fuel IH]; intros s p e w s' w' Hw; [done|].
  simpl in Hw. apply io_bind_ok in Hw as (s1 & w1 & H1 & H2). etrans; [by eapply Hfn|].
  destruct e; inv_io; try done. eapply (fold_moves R); [|done]. intros ? [] ????. by eapply IH.
Qed.

Section moves.
Context (R : inspection → inspection → Prop) `{!PreOrder R}.
Context (R_entry : ∀ s p e w s' w',
  inspectUnexpectedGeneratedEntry s p e w = (Ok s', w') → R s s').

Lemma directory_moves s d w s' w' :
  inspectUnexpectedGeneratedDirectory s d w = (Ok s', w') → R s s'.
Proof.
  unfold inspectUnexpectedGeneratedDirectory. intros (r & w1 & _ & Hr)%attempt_bind.
  destruct r; [|case_match; inv_io; done]. eapply (fold_moves R); [|done].
  intros ? [] ????. by eapply R_entry.
Qed.
Lemma unexpected_moves plan s w s' w' :
  inspectUnexpectedGenerated plan s w = (Ok s', w') → R s s'.
Proof.
  unfold inspectUnexpectedGenerated, inspectUnexpectedGeneratedOutput. intros Hi.
  apply io_bind_ok in Hi as (s1 & w1 & H1 & H2). apply io_bind_ok in H2 as (s2 & w2 & H2 & H3).
  transitivity s1.
  { apply attempt_bind in H1 as (r & w0 & _ & Hr).
    destruct r as [[]|e]; try discriminate Hr; [|destruct (is_not_exist e); inv_io; reflexivity].
    unfold walk_dir in Hr. apply io_bind_ok in Hr as (e & w3 & _ & Hr).
    eapply (walk_moves R), Hr. intros. by eapply R_entry. }
  transitivity s2; [destruct (negb _); inv_io; [eapply directory_moves; exact H2|reflexivity]|].
  eapply (fold_moves R); [|done]. intros s3 d w3 s4 w4 Hd. apply wrap_io_ok in Hd. by eapply directory_moves.
Qed.
End moves.

Lemma fold_grows {A} (f : inspection → A → io inspection) s l w s' w' :
  (∀ s x w s' w', f s x w = (Ok s', w') → grows s s') → fold_io f s l w = (Ok s', w') → grows s s'.
Proof. by apply fold_moves, _. Qed.
Lemma unexpected_grows plan s w s' w' :
  inspectUnexpectedGenerated plan s w = (Ok s', w') → grows s s'.
Proof. apply unexpected_moves; [apply _|apply entry_grows]. Qed.
End facts.
