(* ===== verification/GenProtect.v ===== *)
(** Applying a plan protects what it does not own: what validation guarantees
    of the paths, what the inspection establishes before the first write, and
    the theorem that under every schedule of faults only owned, unmodified
    files are ever replaced or removed. *)
From S2P Require Import Prelude GoSort GoStrings Sha256 GenPlan GoRoot GoPath GenFs GenSafety.

(** ** Paths that validation accepts *)

(** A path of one or more names. *)
Definition rel_path (p : string) : Prop :=
  comps p ≠ [] ∧ p = join (comps p) "/" ∧ Forall good_name (comps p).

Section protect_plan.
Context `{UnicodeTables} `{GenLibraries}.

Lemma validateRelativePath_names p :
  validateRelativePath p = Ok () →
  ∃ ks, ks ≠ [] ∧ p = join ks "/" ∧ Forall good_name ks ∧
    contains_any p [backslash; chr 0] = false ∧ Forall (λ c, reservedWindowsName c = false) ks.
Proof.
  unfold validateRelativePath. intros Hv. inv_ok. bool_prop.
  match goal with Hc : path_clean p = p |- _ => rename Hc into Hclean end.
  destruct (is_local_good p) as (ks & Hne & -> & Hg); try done; [naive_solver|].
  exists ks. split_and!; try done.
  rewrite split_join_good in * by done.
  destruct (list_find _ ks) as [[]|] eqn:E; [done|]. apply list_find_None in E.
  eapply Forall_impl; [exact E|]. intros c. simpl. by destruct (reservedWindowsName c).
Qed.

Lemma validateRelativePath_rel p : validateRelativePath p = Ok () → rel_path p.
Proof.
  intros (ks & Hne & -> & Hg & _)%validateRelativePath_names. unfold rel_path. by rewrite comps_join.
Qed.

(** [validateRelativePath] accepts exactly the safe paths: one or more
    names joined by single slashes, no name empty, [.] or [..], no backslash
    and no NUL in the whole, and no name a reserved Windows device.  So an
    accepted path can neither be absolute nor leave the module root. *)
Theorem validateRelativePath_exact p :
  validateRelativePath p = Ok () ↔
  ∃ ks, ks ≠ [] ∧ p = join ks "/" ∧ Forall good_name ks ∧
    contains_any p [backslash; chr 0] = false ∧ Forall (λ c, reservedWindowsName c = false) ks.
Proof.
  split; [apply validateRelativePath_names|].
  intros (ks & Hne & -> & Hg & Hc & Hr). unfold validateRelativePath.
  rewrite Hc, path_clean_join, join_not_abs, good_is_local, split_join_good by done.
  assert (¬ (join ks "/" = "" ∨ join ks "/" = ".")) as Hn.
  { intros [Hj|Hj]; [by apply join_empty in Hj|].
    apply (f_equal comps) in Hj. by rewrite comps_join in Hj. }
  rewrite (bool_decide_eq_false_2 _ Hn), bool_decide_eq_true_2 by done.
  assert (list_find (λ c, reservedWindowsName c = true) ks = None) as ->; [|done].
  apply list_find_None. eapply Forall_impl; [exact Hr|]. intros c. simpl. by intros ->.
Qed.

Lemma wrap_err_ok {A} p (m : outcome error A) a : wrap_err p m = Ok a ↔ m = Ok a.
Proof. destruct m; naive_solver. Qed.

(** What validation says of one file of a plan. *)
Definition valid_file (target : Target) (f : File) : Prop :=
  rel_path (f_Path f) ∧ withinTargetOutput target (f_Path f) (f_Role f) = true ∧
  f_SHA256 f = hashContent (f_content f) ∧ validateGeneratedContent (f_Path f) (f_content f) = Ok ().

Lemma validatePlanFile_ok f mf target :
  validatePlanFile f mf target = Ok () → valid_file target f ∧ planFileMatchesManifest f mf = true.
Proof.
  unfold validatePlanFile. intros Hv. inv_ok. bool_prop.
  match goal with Hp : wrap_err _ (validateRelativePath _) = Ok ?u |- _ =>
    destruct u; apply wrap_err_ok, validateRelativePath_rel in Hp end.
  match goal with Hp : validateGeneratedContent _ _ = Ok ?u |- _ => destruct u end.
  unfold valid_file. by split_and!.
Qed.

Lemma validatePlanFilesLoop_ok files mfs target seen seen' :
  length files = length mfs → validatePlanFilesLoop files mfs target seen = Ok seen' →
  Forall2 (λ f mf, valid_file target f ∧ planFileMatchesManifest f mf = true) files mfs ∧
  NoDup ((to_lower ∘ f_Path) <$> files) ∧
  (∀ f, f ∈ files → to_lower (f_Path f) ∉ seen) ∧
  seen' = list_to_set ((to_lower ∘ f_Path) <$> files) ∪ seen.
Proof.
  revert mfs seen. induction files as [|f files IH]; intros [|mf mfs] seen Hl Hv; simplify_eq/=.
  { split_and!; [constructor|constructor|by intros f ?%elem_of_nil|set_solver]. }
  inv_ok. bool_prop.
  match goal with Hp : validatePlanFile _ _ _ = Ok ?u |- _ => destruct u; apply validatePlanFile_ok in Hp end.
  destruct (IH mfs ({[to_lower (f_Path f)]} ∪ seen)) as (IH1 & IH2 & IH3 & ->); [done|done|].
  split_and!; [by constructor| | |set_solver].
  - constructor; [|done]. intros (f' & Hf' & Hin)%list_elem_of_fmap. simpl in *.
    apply (IH3 f') in Hin. rewrite <-Hf' in Hin. set_solver.
  - intros f' [->|Hf']%elem_of_cons; [done|]. apply IH3 in Hf'. set_solver.
Qed.

Record valid_plan (plan : Plan) : Prop := {
  vp_files : ∀ f, f ∈ p_files plan → valid_file (p_target plan) f;
  vp_manifest_path : rel_path (t_ManifestPath (p_target plan));
  vp_matches : Forall2 (λ f mf, planFileMatchesManifest f mf = true)
                 (p_files plan) (m_Files (p_manifest plan));
  vp_lower : NoDup ((to_lower ∘ f_Path) <$> p_files plan);
  vp_manifest_lower : ∀ f, f ∈ p_files plan →
    to_lower (f_Path f) ≠ to_lower (t_ManifestPath (p_target plan));
  vp_schema : m_Schema (p_manifest plan) = SchemaVersion;
  vp_output : t_OutputDir (p_target plan) = "." ∨ rel_path (t_OutputDir (p_target plan));
  vp_manifest_outside :
    withinTargetOutput (p_target plan) (t_ManifestPath (p_target plan)) "" = false;
}.

Lemma validatePlan_valid plan : validatePlan plan = Ok () → valid_plan plan.
Proof.
  unfold validatePlan, validatePlanTarget, validatePlanManifest, validatePlanFiles.
  intros Hv. inv_ok. bool_prop.
  match goal with Hp : wrap_err _ (validateRelativePath _) = Ok ?u |- _ =>
    destruct u; apply wrap_err_ok, validateRelativePath_rel in Hp end.
  match goal with Hp : validatePlanFilesLoop _ _ _ _ = Ok _ |- _ =>
    apply validatePlanFilesLoop_ok in Hp as (Hf & Hnd & _ & ->); [|by apply Nat.eqb_eq] end.
  match goal with Hp : validatePlanOutputDirectory _ = Ok ?u |- _ =>
    destruct u; rename Hp into Hout end.
  split; try done.
  - intros f Hin. apply list_elem_of_lookup in Hin as [i Hi].
    by destruct (Forall2_lookup_l _ _ _ _ _ Hf Hi) as (mf & _ & ? & _).
  - eapply Forall2_impl; [exact Hf|]. by intros ?? [_ ?].
  - intros f Hin Heq. set_solver.
  - by apply Z.eqb_eq.
  - unfold validatePlanOutputDirectory in Hout. case_bool_decide; [by left|right].
    by apply wrap_err_ok, validateRelativePath_rel in Hout.
Qed.

(** ** What the inspection has seen *)

Lemma reads_inspectTarget s f : reads (inspectTarget s f).
Proof. unfold inspectTarget. eauto 10 with reads. Qed.

Variable range : gmap string string → list (string * string).

(** The differences that stop an application are not there. *)
Definition unprotected (s : inspection) : Prop := ∀ d, d ∈ differences s → protected_kind (d_Kind d) = false.

(** The state [s] before the file and [s'] after it; the content on the disk is
    what the manifest owns, or has the expected hash. *)
Lemma inspectExpectedFile_seen s f w s' w' :
  inspectExpectedFile s f w = (Ok s', w') → unprotected s' →
  absent w (f_Path f) ∨
  ∃ k c m h, locate w false (f_Path f) = Ok k ∧ w_tree w !! k = Some (EFile c m) ∧
    owned s !! f_Path f = Some h ∧ (hashContent c = f_SHA256 f ∨ hashContent c = h).
Proof.
  unfold inspectExpectedFile. intros (r & w1 & Hr & Hi)%io_bind_ok Hu.
  apply readOptional_ok in Hr as [Hv Hr]. destruct r as [c|]; [right|by left].
  destruct Hr as (k & m & Hk & He). exists k, c, m. simpl in Hi.
  assert (∀ d, s' = add_difference d (set_current (f_Path f) c s) → protected_kind (d_Kind d) = false)
    as Hd by (intros d ->; apply Hu; simpl; set_solver).
  destruct (owned s !! f_Path f) as [h|] eqn:Ho; [|inv_io; by specialize (Hd _ eq_refl)].
  exists h. split_and!; try done.
  repeat case_bool_decide; simpl in Hi; inv_io; auto. by specialize (Hd _ eq_refl).
Qed.

(** What [inspect] found out about a tree [t] over [t0]. *)
Record inspected (plan : Plan) (options : ApplyOptions) (t0 t : tree) (s : inspection) : Prop := {
  in_clear : ∀ f, f ∈ p_files plan → clear t0 (comps (f_Path f));
  in_manifest_clear : clear t0 (comps (t_ManifestPath (p_target plan)));
  in_owned : owned s = ∅ ∨
    ∃ bytes m manifest, t !! comps (t_ManifestPath (p_target plan)) = Some (EFile bytes m) ∧
      decodeManifest bytes plan options = Ok manifest ∧ owned s = owned_files (m_Files manifest);
  in_manifest_file : ∀ e, t0 !! comps (t_ManifestPath (p_target plan)) = Some e →
    ∃ bytes m, e = EFile bytes m;
  in_files : unprotected s → ∀ f e, f ∈ p_files plan → t0 !! comps (f_Path f) = Some e →
    ∃ c m h, e = EFile c m ∧ owned s !! f_Path f = Some h ∧
      (hashContent c = f_SHA256 f ∨ hashContent c = h);
}.

Lemma clear_absent t w p :
  over t w → well_formed t → rel_path p → clear t (comps p) → absent w p → t !! comps p = None.
Proof.
  intros Hi Hwf (Hne & _ & Hg) Hc Ha. destruct (t !! comps p) as [e|] eqn:He; [exfalso|done].
  destruct (Hwf _ _ He) as [_ Hd]. unfold absent, locate in Ha.
  rewrite resolve_through in Ha; [simpl in Ha|done|].
  - apply (over_lookup _ w) in He; [|done]. destruct (comps p); [done|]. simpl in Ha. congruence.
  - intros i Hi'. simpl. specialize (Hd i ltac:(lia)).
    apply (Inv_dir t nothing nothing_file (w_tree w)) in Hd; [|done].
    destruct (take i (comps p)) eqn:E; [|done].
    apply (f_equal length) in E. rewrite length_take in E. simpl in E. lia.
Qed.

Lemma inspect_inspected plan options t0 w s w' :
  valid_plan plan → well_formed t0 → over t0 w → inspect range plan options w = (Ok s, w') →
  inspected plan options t0 (w_tree w) s.
Proof.
  intros Hvp Hwf Hov Hi. unfold inspect in Hi.
  apply io_bind_ok in Hi as (s1 & w1 & H1 & Hi).
  apply io_bind_ok in Hi as ([] & w2 & H2 & Hi).
  apply io_bind_ok in Hi as (bytes & w3 & H3 & Hi).
  apply io_bind_ok in Hi as (s4 & w4 & H4 & Hi).
  apply io_bind_ok in Hi as (s5 & w5 & H5 & Hi).
  apply io_bind_ok in Hi as (s6 & w6 & H6 & Hi).
  apply io_bind_ok in Hi as (s7 & w7 & H7 & Hi). inv_io.
  set (R := λ a b : inspection, owned b = owned a).
  assert (PreOrder R) as HRpre by (split; [done|intros ???; unfold R; congruence]).
  destruct (fold_io_visits R inspectTarget empty_inspection (p_files plan) w s1 w1) as [HR1 Hv1];
    [apply reads_inspectTarget| |done|].
  { intros s x ? ? ? Ht. unfold inspectTarget in Ht. by inv_io. }
  assert (view w1 = view w) as V1.
  { pose proof (reads_fold inspectTarget empty_inspection (p_files plan) reads_inspectTarget w) as V.
    by rewrite H1 in V. }
  assert (view w2 = view w) as V2.
  { pose proof (reads_rejectSymlink (t_ManifestPath (p_target plan)) w1) as V. rewrite H2 in V.
    simpl in V. congruence. }
  pose proof (readOptional_ok _ _ _ _ H3) as [V3 Hbytes].
  assert (view w4 = view w) as V4.
  { unfold inspectManifest in H4. destruct bytes; inv_io; congruence. }
  destruct (vp_manifest_path _ Hvp) as (Hmne & Hmj & Hmg).
  assert (clear t0 (comps (t_ManifestPath (p_target plan)))) as Hmc.
  { rewrite Hmj in H2. eapply rejectSymlinkComponents_ok; try done. by apply (over_view _ w). }
  assert (owned s4 = ∅ ∨ ∃ b m manifest,
     w_tree w !! comps (t_ManifestPath (p_target plan)) = Some (EFile b m) ∧
     decodeManifest b plan options = Ok manifest ∧ owned s4 = owned_files (m_Files manifest)) as Ho.
  { unfold inspectManifest in H4. destruct bytes as [b|]; inv_io; [right|by left].
    destruct Hbytes as (k & m & Hk & He). exists b, m. eexists. split_and!; [|done|done].
    assert (w_tree w2 = w_tree w) as <- by by injection V2.
    apply (clear_located t0) in Hk as <-; try done; [by apply (over_view _ w)|apply Hmc]. }
  assert (grows s4 s5 ∧ ∀ f, f ∈ p_files plan → ∃ sa wa sb wb, view wa = view w4 ∧
    inspectExpectedFile sa f wa = (Ok sb, wb) ∧ grows s4 sa ∧ grows sb s5) as [HR5 Hv5].
  { eapply (fold_io_visits grows inspectExpectedFile); [apply reads_expected|apply expected_grows|done]. }
  assert (grows s5 s6) as HR6.
  { unfold inspectPrior, inspectPriorFiles in H6. destruct (prior s5); inv_io; [|done].
    etrans; [eapply fold_grows; [apply prior_grows|done]|].
    destruct (negb _); inv_io; [apply grows_add|reflexivity]. }
  assert (grows s4 s7) as HR7.
  { etrans; [exact HR5|]. etrans; [exact HR6|]. by eapply unexpected_grows. }
  assert (∀ f, f ∈ p_files plan → clear t0 (comps (f_Path f))) as Hcl.
  { intros f Hf. destruct (Hv1 f Hf) as (sa & wa & sb & wb & Hva & Ht & _).
    unfold inspectTarget in Ht. inv_io. destruct (vp_files _ Hvp f Hf) as [(Hne & Hj & Hg) _].
    match goal with Hr : rejectSymlinkComponents _ _ = (Ok ?u, _) |- _ =>
      destruct u; rewrite Hj in Hr; eapply rejectSymlinkComponents_ok in Hr; [done| |done..] end.
    by apply (over_view _ w). }
  split; simpl.
  - exact Hcl.
  - done.
  - destruct HR7 as [HR7 _]. by rewrite HR7.
  - intros e He. pose proof (over_lookup _ _ _ _ Hov He) as He'. destruct bytes as [b|].
    + destruct Hbytes as (k & m & Hk & Hb). assert (w_tree w2 = w_tree w) as T2 by by injection V2.
      apply (clear_located t0) in Hk as ->; [|by rewrite T2|done|apply Hmc].
      rewrite T2, He' in Hb. simplify_eq. eauto.
    + apply (clear_absent t0) in Hbytes; [congruence|by apply (over_view _ w)|done..].
  - intros Hu f e Hf He. destruct (Hv5 f Hf) as (sa & wa & sb & wb & Hva & Hx & [Hga _] & [_ Hgb]).
    assert (view wa = view w) as Vwa by congruence.
    assert (over t0 wa) as Hova by by apply (over_view _ w).
    destruct (vp_files _ Hvp f Hf) as [Hrel _].
    apply inspectExpectedFile_seen in Hx as [Ha|(k & c & m & h & Hk & He' & Hoh & Hh)].
    + apply (clear_absent t0) in Ha; [congruence|try done..]. by apply Hcl.
    + apply (clear_located t0) in Hk as ->; [|done|apply Hrel|by apply Hcl].
      apply (over_lookup _ _ _ _ Hova) in He. rewrite He in He'.
      simplify_eq. exists c, m, h. split_and!; try done. destruct HR7 as [HR7 _]. congruence.
    + intros d Hd. apply Hu. simpl. apply elem_of_sort_stable.
      apply unexpected_grows in H7 as [_ H7]. destruct HR6 as [_ HR6]. by apply H7, HR6, Hgb.
Qed.

(** ** Taking the lock *)

(** The identifier of a target is a name; the renderer demands
    [^[a-z][a-z0-9_]*$]. *)
Definition plain_id (plan : Plan) : Prop := contains_byte (t_ID (p_target plan)) slash = false.

Definition lock_key (plan : Plan) : key := [".spice"; t_ID (p_target plan) +:+ ".lock"].

Lemma lock_key_good plan : plain_id plan → Forall good_name (lock_key plan).
Proof.
  intros Hid. assert (String.length (t_ID (p_target plan) +:+ ".lock") ≥ 5) as Hl
    by (rewrite length_str_app; simpl; lia).
  repeat constructor; try done; try (intros He; rewrite He in Hl; simpl in Hl; lia).
  rewrite contains_byte_app. by rewrite Hid.
Qed.

Lemma lock_path_join plan : plain_id plan → lock_path plan = join (lock_key plan) "/".
Proof. intros Hid. apply (path_join_snoc [".spice"]). by apply lock_key_good. Qed.

Lemma comps_lock plan : plain_id plan → comps (lock_path plan) = lock_key plan.
Proof. intros Hid. rewrite lock_path_join by done. by apply comps_join, lock_key_good. Qed.

Lemma lock_dir plan : plain_id plan → path_dir (lock_path plan) = ".spice".
Proof.
  intros Hid. rewrite lock_path_join by done. by apply (path_dir_snoc [".spice"]), lock_key_good.
Qed.

Section lock.
Context (plan : Plan) (t0 : tree).
Context (Hid : plain_id plan) (Hwf : well_formed t0).

(** The only new file is the lock. *)
Definition new_files (t : tree) : Prop :=
  ∀ k c m, t !! k = Some (EFile c m) → t0 !! k = Some (EFile c m) ∨ k = lock_key plan.

Lemma new_files_update t k e :
  new_files t → (∀ c m, e = Some (EFile c m) → k = lock_key plan) →
  new_files (partial_alter (λ _, e) k t).
Proof.
  intros Hn He k' c m. destruct (decide (k' = k)) as [->|Hk].
  - rewrite lookup_partial_alter, decide_True by done. intros Hs. right. by eapply He.
  - rewrite lookup_partial_alter_ne by done. apply Hn.
Qed.

(** The directory of the lock is there and is no link. *)
Lemma ensure_spice w w' r :
  w_tree w = t0 → ensureDirectories ".spice" w = (r, w') →
  Inv t0 nothing (w_tree w') ∧ new_files (w_tree w') ∧ (r = Ok () → clear t0 [".spice"]).
Proof.
  intros Ht He. split.
  { pose proof (keeps_ensure t0 nothing ".spice" w) as Hk. rewrite He in Hk. apply Hk.
    rewrite Ht. apply Inv_refl. }
  change (ensureDirectories ".spice") with (ensureDirectoriesLoop "" [".spice"]) in He.
  assert (new_files t0) as Hn0 by (intros k c m ?; by left).
  cbn [ensureDirectoriesLoop] in He. change (path_join ["";".spice"]) with ".spice" in He.
  apply attempt_bind in He as (x & w1 & Hl & He).
  assert (w_tree w1 = t0) as Ht1.
  { pose proof (reads_lstat ".spice" w) as V. rewrite Hl in V. injection V as -> _. done. }
  assert (nolink t0 (comps ".spice")) as Hnl.
  { intros [|[]] l Hi; [|simpl in Hi; lia..]. simpl. by rewrite well_formed_root. }
  assert (Forall good_name (comps ".spice")) as Hg.
  { change (comps ".spice") with [".spice"]. by repeat constructor. }
  destruct x as [e|e].
  - apply (lstat_clear t0) in Hl; [|by rewrite <-Ht; apply over_refl|done..].
    destruct e; injection He as <- <-; rewrite Ht1; split; try done.
    intros _. split; [done|]. intros l. change [".spice"] with (comps ".spice"). by rewrite <-Ht, Hl.
  - destruct (is_not_exist e) eqn:En; [|injection He as <- <-; rewrite Ht1; by split].
    apply lstat_absent in Hl as [_ Ha]; [|done].
    assert (clear t0 [".spice"]) as Hc.
    { apply (absent_clear t0 w ".spice" [] Ha); try done. by rewrite <-Ht; apply over_refl. }
    apply attempt_bind in He as (y & w2 & Hm & He).
    assert (new_files (w_tree w2)) as Hn2.
    { apply syscall_run in Hm as [V|(w3 & V & Hm)]; [by injection V as -> _; rewrite Ht1|].
      injection V as V _. rewrite Ht1 in V.
      repeat case_match; simplify_eq/=; rewrite V; try done. by apply new_files_update. }
    repeat case_match; injection He as <- <-; by split_and!.
Qed.

Lemma acquire_spec pid w w' r :
  w_tree w = t0 → acquireLock plan pid w = (r, w') →
  Inv t0 nothing (w_tree w') ∧ new_files (w_tree w') ∧
  (r = Ok () → nolink t0 (lock_key plan) ∧ t0 !! lock_key plan = None).
Proof.
  intros Ht. unfold acquireLock. rewrite lock_dir by done.
  unfold mbind at 1, io_bind at 1.
  destruct (ensureDirectories ".spice" w) as [x w1] eqn:He. apply ensure_spice in He as (HI & Hn & Hc); [|done].
  destruct x as [[]|e]; [|intros [= <- <-]; by split_and!].
  specialize (Hc eq_refl). intros (y & w2 & Hcr & Ha)%attempt_bind.
  assert (Inv t0 nothing (w_tree w2)) as HI2.
  { pose proof (keeps_create t0 nothing (lock_path plan) 384 w1 HI) as Hk. by rewrite Hcr in Hk. }
  destruct y as [k|e]; cycle 1.
  { assert (w_tree w2 = w_tree w1) as Ht2.
    { apply syscall_run in Hcr as [V|(w3 & V & Hcr)]; injection V as V _; [done|].
      by repeat case_match; simplify_eq/=. }
    destruct (is_exist e); injection Ha as <- <-; rewrite Ht2; by split_and!. }
  assert (nolink t0 (lock_key plan)) as Hnl by by apply (nolink_snoc t0 [".spice"]).
  pose proof Hcr as Hcr'. apply (create_ok t0 nothing) in Hcr' as (Hf & (_ & _ & Hk) & _); [|done].
  apply (locate_nolink t0 nothing) in Hk as ->; [|done|rewrite comps_lock by done..]; cycle 1.
  { by apply lock_key_good. } { done. }
  rewrite comps_lock in * by done.
  assert (t0 !! lock_key plan = None) as Hnone.
  { destruct (t0 !! lock_key plan) eqn:E; [|done]. by apply Hf in E. }
  assert (new_files (w_tree w2)) as Hn2.
  { apply syscall_run in Hcr as [V|(w3 & V & Hcr)]; injection V as V _; [by rewrite V|].
    repeat case_match; simplify_eq/=. rewrite V. by apply new_files_update. }
  assert (free_path t0 nothing (lock_path plan)) as Hfp.
  { unfold free_path. rewrite comps_lock by done. split; [by apply lock_key_good|done]. }
  apply attempt_bind in Ha as (z & w3 & Hw & Ha). apply attempt_bind in Ha as (u & w4 & Hcl & Ha).
  assert (Inv t0 nothing (w_tree w3)) as HI3.
  { pose proof (keeps_write t0 nothing (lock_key plan) (lock_content plan pid) Hf w2 HI2) as Hkw.
    by rewrite Hw in Hkw. }
  assert (new_files (w_tree w3)) as Hn3.
  { apply write_run in Hw as [->|(c' & m & ->)]; [done|]. by apply new_files_update. }
  assert (w_tree w4 = w_tree w3) as Ht4.
  { pose proof (reads_close w3) as V. rewrite Hcl in V. by injection V. }
  destruct (errors_join _ _) as [e|].
  - apply attempt_bind in Ha as (v & w5 & Hr & Ha). injection Ha as <- <-.
    split_and!; [| |done].
    + pose proof (keeps_remove t0 nothing (lock_path plan) Hfp w4) as Hkr.
      rewrite Hr, Ht4 in Hkr. by apply Hkr.
    + apply syscall_run in Hr as [V|(w6 & V & Hr)]; injection V as V _; rewrite Ht4 in V;
        [by rewrite V|].
      repeat case_match; simplify_eq/=; rewrite ?V; try done; by apply new_files_update.
  - injection Ha as <- <-. rewrite Ht4. by split_and!.
Qed.
End lock.

(** ** Applying *)

(** The content of the manifest file and what it owns, when it can be decoded. *)
Definition prior_owned (plan : Plan) (options : ApplyOptions) (t : tree) : gmap string string :=
  match t !! comps (t_ManifestPath (p_target plan)) with
  | Some (EFile bytes _) =>
      match decodeManifest bytes plan options with
      | Ok manifest => owned_files (m_Files manifest)
      | Fail _ => ∅
      end
  | _ => ∅
  end.

(** The entries of a tree that applying the plan may replace or remove. *)
Definition may_change (plan : Plan) (options : ApplyOptions) (t : tree) (k : key) (e : entry) : Prop :=
  ∃ content mode, e = EFile content mode ∧
  (k = comps (t_ManifestPath (p_target plan)) ∨
   ∃ p h, prior_owned plan options t !! p = Some h ∧ leads_to t p k ∧
     (hashContent content = h ∨
      ∃ f, f ∈ p_files plan ∧ f_Path f = p ∧ hashContent content = hashContent (f_content f))).

Lemma may_change_file plan options t k e : may_change plan options t k e → ∃ c m, e = EFile c m.
Proof. intros (c & m & -> & _). eauto. Qed.

Lemma hashContent_ne content : hashContent content ≠ "".
Proof. done. Qed.

(** The order in which a range meets a map. *)
Lemma owned_relative files p h :
  (∀ f, f ∈ files → validateRelativePath (mf_Path f) = Ok ()) →
  owned_files files !! p = Some h → rel_path p ∧ ∃ f, f ∈ files ∧ mf_Path f = p ∧ mf_SHA256 f = h.
Proof.
  unfold owned_files. intros Hf.
  assert (∀ m : gmap string string, foldl (λ m file, <[mf_Path file := mf_SHA256 file]> m) m files !! p = Some h →
    m !! p = Some h ∨ ∃ f, f ∈ files ∧ mf_Path f = p ∧ mf_SHA256 f = h) as Hg.
  { clear Hf. induction files as [|f files IH]; intros m Hm; [by left|]. simpl in Hm.
    apply IH in Hm as [Hm|(f' & ? & ? & ?)]; [|right; exists f'; split_and!; [by right|done..]].
    destruct (decide (p = mf_Path f)) as [->|Hp].
    - rewrite lookup_insert in Hm. case_decide; [|done]. right. exists f. split_and!; [by left|done|].
      by simplify_eq.
    - rewrite lookup_insert_ne in Hm by done. by left. }
  intros [Hm|(f & Hin & <- & <-)]%Hg; [by rewrite lookup_empty in Hm|].
  split; [by apply validateRelativePath_rel, Hf|]. eauto.
Qed.

Lemma decodeManifestLoop_ok target files seen :
  decodeManifestLoop target files seen = Ok () →
  ∀ f, f ∈ files → validateRelativePath (mf_Path f) = Ok () ∧
    withinTargetOutput target (mf_Path f) (mf_Role f) = true ∧
    supportedGeneratedExtension (mf_Path f) = true.
Proof.
  revert seen. induction files as [|f files IH]; intros seen Hd f'; [by intros ?%elem_of_nil|].
  simpl in Hd. inv_ok. bool_prop.
  match goal with Hp : wrap_err _ _ = Ok ?u |- _ => destruct u; apply wrap_err_ok in Hp end.
  intros [->|Hin]%elem_of_cons; [by split_and!|]. by eapply IH.
Qed.

Lemma prior_owned_rel plan options t p h : prior_owned plan options t !! p = Some h → rel_path p.
Proof.
  unfold prior_owned. intros Hp. repeat case_match; try by rewrite lookup_empty in Hp.
  unfold decodeManifest in *. inv_ok.
  match goal with Hl : decodeManifestLoop _ _ _ = Ok ?u |- _ =>
    destruct u; pose proof (decodeManifestLoop_ok _ _ _ Hl) as Hf end.
  eapply owned_relative in Hp as [? _]; [done|]. intros f Hin. by apply Hf.
Qed.

Lemma inspected_owned plan options t0 t s p h :
  inspected plan options t0 t s → Inv t0 nothing t → new_files plan t0 t →
  comps (t_ManifestPath (p_target plan)) ≠ lock_key plan →
  owned s !! p = Some h → prior_owned plan options t0 !! p = Some h.
Proof.
  intros Hin HI Hn Hne Ho. destruct (in_owned _ _ _ _ _ Hin) as [He|(b & m & mf & Ht & Hd & Heq)].
  { by rewrite He, lookup_empty in Ho. }
  destruct (Hn _ _ _ Ht) as [Ht0|]; [|done]. unfold prior_owned. rewrite Ht0, Hd. congruence.
Qed.

Lemma rel_destination t A p :
  rel_path p → clear t (comps p) → free t A (comps p) → ∃ ds b, destination t A p ds b.
Proof.
  intros (Hne & Hj & Hg) [Hn _] Hf.
  destruct (comps p) as [|x l] eqn:E using rev_ind; [done|]. exists l, x. by split_and!.
Qed.

(** What applying does under the lock keeps the invariant. *)
Lemma keeps_apply_locked plan options t0 :
  valid_plan plan → well_formed t0 → comps (t_ManifestPath (p_target plan)) ≠ lock_key plan →
  ∀ w, Inv t0 nothing (w_tree w) → new_files plan t0 (w_tree w) →
    Inv t0 (may_change plan options t0) (w_tree (apply_locked range plan options w).2).
Proof.
  intros Hvp Hwf Hne w HI Hn. set (A := may_change plan options t0).
  assert (∀ t, Inv t0 nothing t → Inv t0 A t) as Hmono.
  { intros t [Hi Hl]. split; [|done]. intros k e Hk. by destruct (Hi _ _ Hk); [left|]. }
  unfold apply_locked. unfold mbind at 1, io_bind at 1.
  pose proof (reads_inspect range plan options w) as V.
  destruct (inspect range plan options w) as [[s|e] w1] eqn:Hins; injection V as V _;
    [|simpl; rewrite V; by apply Hmono].
  assert (Inv t0 A (w_tree w1)) as HI1 by (rewrite V; by apply Hmono).
  apply (inspect_inspected plan options t0) in Hins; [|done..].
  destruct (negb _) eqn:Hconf; [done|].
  assert (unprotected s) as Hu.
  { apply negb_false_iff, Nat.eqb_eq, length_zero_iff_nil in Hconf. intros d Hd.
    destruct (protected_kind (d_Kind d)) eqn:E; [|done].
    assert (d ∈ protectedDifferences (differences s)) as Hp by by apply list_elem_of_filter.
    rewrite Hconf in Hp. by apply elem_of_nil in Hp. }
  pose proof (may_change_file plan options t0) as HA.
  assert (∀ f, f ∈ p_files plan → ∃ ds b, destination t0 A (f_Path f) ds b) as Hdest.
  { intros f Hf. destruct (vp_files _ Hvp f Hf) as (Hrel & _ & Hsha & _).
    apply rel_destination; [done|by eapply in_clear|]. intros e He.
    destruct (in_files _ _ _ _ _ Hins Hu f e Hf He) as (c & m & h & -> & Ho & Hh).
    exists c, m. split; [done|]. right. exists (f_Path f), h. split_and!.
    - by eapply inspected_owned.
    - by left.
    - destruct Hh as [Hh|Hh]; [right; exists f; split_and!; try done; congruence|by left]. }
  assert (∃ ds b, destination t0 A (t_ManifestPath (p_target plan)) ds b) as (mds & mb & Hmdest).
  { apply rel_destination; [by apply vp_manifest_path|by eapply in_manifest_clear|].
    intros e He. destruct (in_manifest_file _ _ _ _ _ Hins e He) as (b & m & ->).
    exists b, m. split; [done|by left]. }
  revert HI1. generalize w1. keeps_goal.
  apply keeps_bind.
  { apply keeps_fold. intros written f Hf. unfold applyFile. destruct (bool_decide _); [by intros ?|].
    destruct (Hdest f Hf) as (ds & b & Hd). apply keeps_bind; [|by intros ? ?].
    apply keeps_wrap. by eapply keeps_replaceFile. }
  intros written. apply keeps_bind.
  { apply keeps_fold. intros removed d Hd. unfold applyRemoval.
    case_bool_decide; cbn [negb]; [|by intros ?]. apply keeps_bind; [|by intros ? ?].
    apply keeps_removeOwnedFile. intros w' k c m HI' Hk Hh.
    destruct (owned s !! d_Path d) as [h|] eqn:Ho; simpl in Hh; [|by apply hashContent_ne in Hh].
    apply (inspected_owned plan options t0 (w_tree w)) in Ho; [|done..].
    exists c, m. split; [done|]. right. exists (d_Path d), h. split_and!; [done| |by left].
    eapply locate_leads; [done|by apply prior_owned_rel in Ho as (_ & _ & ?)|done]. }
  intros removed. apply keeps_bind; [|by intros ? ?].
  unfold applyManifest. destruct (bool_decide _); [by intros ?|].
  apply keeps_bind; [|by intros ? ?]. apply keeps_wrap. by eapply keeps_replaceFile.
Qed.

(** C3. Applying a plan never touches work it does not own.  Start from any
    tree of files and run [ApplyWithOptions] with any plan, with any failures of
    the operating system, wherever it may stop.  Every entry that was there is
    still there unchanged, unless it is the manifest itself or a file the
    previous manifest owns at that place and whose content has the hash the
    manifest records (or the hash of the expected content).  So no handwritten
    file, no edited generated file, no directory and no symbolic link is ever
    overwritten, moved or removed. *)
Theorem ApplyWithOptions_protects plan options pid w :
  well_formed (w_tree w) → plain_id plan →
  comps (t_ManifestPath (p_target plan)) ≠ lock_key plan →
  ∀ k e, w_tree w !! k = Some e →
    w_tree (ApplyWithOptions range plan options pid w).2 !! k = Some e ∨
    may_change plan options (w_tree w) k e.
Proof.
  intros Hwf Hid Hne.
  cut (Inv (w_tree w) (may_change plan options (w_tree w))
         (w_tree (ApplyWithOptions range plan options pid w).2)); [by intros [Hi _]|].
  set (t0 := w_tree w). set (A := may_change plan options t0).
  assert (∀ t, Inv t0 nothing t → Inv t0 A t) as Hmono.
  { intros t [Hi Hl]. split; [|done]. intros k e Hk. by destruct (Hi _ _ Hk); [left|]. }
  unfold ApplyWithOptions.
  set (start := lift (validatePlan plan) ;; _).
  assert (reads start) as Hstart by (unfold start, open_root; eauto 10 with reads).
  specialize (Hstart w). destruct (start w) as [[u|e] w1] eqn:Hs; injection Hstart as Ht1 _;
    [|simpl; rewrite Ht1; apply Inv_refl].
  assert (valid_plan plan) as Hvp.
  { unfold start in Hs. inv_io. match goal with Hv : validatePlan _ = Ok ?u |- _ => destruct u end.
    by apply validatePlan_valid. }
  destruct (acquireLock plan pid w1) as [r w2] eqn:Hacq.
  apply (acquire_spec plan t0 Hid Hwf) in Hacq as (HI2 & Hn2 & Hlock); [|done].
  assert (∀ (x : Result * option error) w3, Inv t0 A (w_tree w3) →
    Inv t0 A (w_tree (let '(result, resultErr) := x in let '(closed, w) := sys_close w3 in
      ((result, errors_join resultErr (err_of closed)), w)).2)) as Hclose.
  { intros [x y] w3 HI3. pose proof (reads_close w3) as V. destruct (sys_close w3) as [c w4].
    simpl. by injection V as -> _. }
  destruct r as [[]|e]; [|apply (Hclose (no_result, Some e)); by apply Hmono].
  destruct (Hlock eq_refl) as [Hnl Hnone].
  pose proof (keeps_apply_locked plan options t0 Hvp Hwf Hne w2 HI2 Hn2) as HI3.
  destruct (apply_locked range plan options w2) as [applied w3]. simpl in HI3.
  assert (keeps t0 A (release_lock plan)) as Hrel.
  { unfold release_lock. apply keeps_bind.
    - apply keeps_attempt, keeps_remove. unfold free_path. rewrite comps_lock by done.
      split_and!; [by apply lock_key_good|done|]. intros e He. congruence.
    - intros []; repeat case_match; by intros ?. }
  specialize (Hrel w3 HI3). destruct (release_lock plan w3) as [released w4].
  by apply (Hclose (_, _)).
Qed.
End protect_plan.
