(* ===== verification/GenEffect.v ===== *)
(** What the writing calls of [internal/genfs] do to the tree when they
    succeed, in a tree without symbolic links: [ensureDirectories],
    [replaceFile], [removeOwnedFile] and the lock, whatever faults were on the
    way. *)
From S2P Require Import Prelude GoSort GoStrings Sha256 GenPlan GoRoot GoPath GenFs GenSafety GenProtect.

(** ** Trees without links *)

Definition linkless (t : tree) : Prop := ∀ k l, t !! k ≠ Some (ELink l).

(** The components of every path of the tree are names. *)
Definition named (t : tree) : Prop := ∀ k e, t !! k = Some e → Forall good_name k.

(** A tree of directories and files. *)
Record sane (t : tree) : Prop := {
  sane_wf : well_formed t;
  sane_linkless : linkless t;
  sane_named : named t;
}.

Lemma linkless_clear t ks : linkless t → clear t ks.
Proof. intros Hl. split; [intros ????|intros ??]; by eapply Hl. Qed.

Lemma linkless_nolink t ks : linkless t → nolink t ks.
Proof. intros Hl i l _. apply Hl. Qed.

Lemma located w p k :
  linkless (w_tree w) → Forall good_name (comps p) → locate w false p = Ok k → k = comps p.
Proof. intros Hl Hg. apply (clear_located (w_tree w)); [apply over_refl|done|by apply linkless_nolink]. Qed.

Lemma lstat_there w p e w' :
  lstat p w = (Ok e, w') → linkless (w_tree w) → rel_path p → w_tree w !! comps p = Some e.
Proof.
  intros H Hl (Hne & _ & Hg).
  eapply (lstat_clear (w_tree w)); [done|apply over_refl|done|by apply linkless_nolink|done].
Qed.

Lemma absent_there w p : absent w p → sane (w_tree w) → rel_path p → w_tree w !! comps p = None.
Proof.
  intros Ha [Hwf Hl _] Hr. eapply (clear_absent (w_tree w)); [apply over_refl|done|done|by apply linkless_clear|done].
Qed.

Lemma entry_at_ne (t : tree) (k : key) : k ≠ [] → entry_at t k = t !! k.
Proof. by destruct k. Qed.

(** ** Single calls *)

Lemma create_effect p mode w k w' :
  create_excl p mode w = (Ok k, w') → linkless (w_tree w) → rel_path p →
  k = comps p ∧ w_tree w !! k = None ∧ w_tree w' = <[k := EFile "" mode]> (w_tree w).
Proof.
  intros (w1 & V & H)%syscall_ok Hl (Hne & _ & Hg).
  assert (w_tree w1 = w_tree w) as T by by injection V.
  destruct (locate w1 false p) as [k'|] eqn:Hk; [|done].
  apply located in Hk as ->; [|by rewrite T|done]. rewrite entry_at_ne in H by done.
  destruct (w_tree w1 !! comps p) eqn:E; [done|]. injection H as <- <-.
  rewrite <-T. by split_and!.
Qed.

Lemma mkdir_effect p w w' :
  mkdir p w = (Ok (), w') → linkless (w_tree w) → rel_path p →
  w_tree w !! comps p = None ∧ w_tree w' = <[comps p := EDir]> (w_tree w).
Proof.
  intros (w1 & V & H)%syscall_ok Hl (Hne & _ & Hg).
  assert (w_tree w1 = w_tree w) as T by by injection V.
  destruct (locate w1 false p) as [k'|] eqn:Hk; [|done].
  apply located in Hk as ->; [|by rewrite T|done]. rewrite entry_at_ne in H by done.
  destruct (w_tree w1 !! comps p) eqn:E; [done|]. injection H as <-. rewrite <-T. by split_and!.
Qed.

Lemma remove_effect p w w' :
  remove p w = (Ok (), w') → linkless (w_tree w) → rel_path p →
  (∃ e, w_tree w !! comps p = Some e) ∧ w_tree w' = delete (comps p) (w_tree w).
Proof.
  intros (w1 & V & H)%syscall_ok Hl (Hne & _ & Hg).
  assert (w_tree w1 = w_tree w) as T by by injection V.
  destruct (locate w1 false p) as [k'|] eqn:Hk; [|done].
  apply located in Hk as ->; [|by rewrite T|done]. rewrite entry_at_ne in H by done.
  destruct (w_tree w1 !! comps p) as [[| | |]|] eqn:E; try (case_decide; [done|]); simplify_eq/=;
    rewrite <-T; split; eauto.
Qed.

Lemma rename_effect p q w w' e :
  rename p q w = (Ok (), w') → linkless (w_tree w) → rel_path p → rel_path q →
  comps p ≠ comps q → w_tree w !! comps p = Some e → e ≠ EDir →
  w_tree w' = <[comps q := e]> (delete (comps p) (w_tree w)).
Proof.
  intros (w1 & V & H)%syscall_ok Hl (Hne & _ & Hg) (Hne' & _ & Hg') Hpq He Hd.
  assert (w_tree w1 = w_tree w) as T by by injection V.
  destruct (locate w1 false p) as [k|] eqn:Hk; [|done].
  destruct (locate w1 false q) as [k'|] eqn:Hk'; [|done].
  apply located in Hk as ->; [|by rewrite T|done]. apply located in Hk' as ->; [|by rewrite T|done].
  cbn [mbind outcome_bind] in H. rewrite !entry_at_ne, T, He in H by done.
  destruct e; try done; (destruct (w_tree w !! comps q) as [[| | |]|]; try done;
    (rewrite decide_False in H by done); injection H as <-; simpl; by rewrite T).
Qed.

Lemma write_effect k c w w' c0 m :
  write_file k c w = (Ok (), w') → w_tree w !! k = Some (EFile c0 m) →
  w_tree w' = <[k := EFile c m]> (w_tree w).
Proof.
  unfold write_file. intros (f & w1 & Ht & H)%io_bind_ok He.
  pose proof (reads_tick w) as V. rewrite Ht in V. injection V as V _.
  destruct f; [| |done].
  - rewrite V, He in H. injection H as <-. simpl. by rewrite V.
  - exfalso. apply io_bind_ok in H as (? & ? & _ & H). done.
Qed.

Lemma chmod_effect k mode w w' c m :
  chmod k mode w = (Ok (), w') → w_tree w !! k = Some (EFile c m) →
  w_tree w' = <[k := EFile c mode]> (w_tree w).
Proof.
  intros (w1 & V & H)%syscall_ok He. injection V as V _. rewrite V, He in H. injection H as <-.
  simpl. by rewrite V.
Qed.

Lemma fill_effect k c mode w w' c0 m :
  fillTemporary k c mode w = (Ok (), w') → w_tree w !! k = Some (EFile c0 m) →
  w_tree w' = <[k := EFile c mode]> (w_tree w).
Proof.
  unfold fillTemporary. intros (r & w1 & H1 & H)%attempt_bind He.
  assert (∀ e w w', fail_closing (A := ()) e w = (Ok (), w') → False) as Hfc.
  { intros e ? ? Hf. unfold fail_closing in Hf. by apply attempt_bind in Hf as (? & ? & _ & Hf). }
  destruct r as [[]|]; [|by apply Hfc in H]. apply attempt_bind in H as (r & w2 & H2 & H).
  destruct r as [[]|]; [|by apply Hfc in H]. apply attempt_bind in H as (r & w3 & H3 & H).
  destruct r as [[]|]; [|by apply Hfc in H].
  pose proof (write_effect _ _ _ _ _ _ H1 He) as T1.
  assert (w_tree w2 = w_tree w1) as T2.
  { pose proof (reads_syscall (mret ()) (reads_ret ()) w1) as V. unfold sys_sync in H2. rewrite H2 in V.
    by injection V. }
  apply (chmod_effect _ _ _ _ c m) in H3; [|by rewrite T2, T1, lookup_insert, decide_True].
  pose proof (reads_close w3) as V. rewrite H in V. injection V as -> _.
  rewrite H3, T2, T1. by rewrite insert_insert, decide_True.
Qed.

(** ** Directories *)

(** [t'] is [t] with the missing directories of [ks]. *)
Definition with_dirs (ks : key) (t t' : tree) : Prop :=
  (∀ i, 0 < i ≤ length ks → t' !! take i ks = Some EDir) ∧
  ∀ k, t' !! k = t !! k ∨
    (t !! k = None ∧ t' !! k = Some EDir ∧ ∃ i, 0 < i ≤ length ks ∧ k = take i ks).

Lemma with_dirs_linkless ks t t' : with_dirs ks t t' → linkless t → linkless t'.
Proof. intros [_ Hk] Hl k l Ht. destruct (Hk k) as [Heq|(_ & Hd & _)]; [|congruence]. rewrite Heq in Ht. by eapply Hl. Qed.

Lemma rel_path_join ks : ks ≠ [] → Forall good_name ks → rel_path (join ks "/").
Proof. intros ??. unfold rel_path. by rewrite comps_join. Qed.

(** The invariant of the loop: the directories [past] are there. *)
Lemma resolve_fail links follow t cur parts e :
  resolve links follow t cur parts = Fail e → is_exist e = false.
Proof.
  revert cur parts. induction links as [|links IHl]; intros cur parts;
    revert cur; induction parts as [|part rest IHp]; intros cur Hr; simpl in *; try done.
  all: case_decide; [destruct cur; [by simplify_eq|by eapply IHp]|].
  all: destruct (_ && _); [done|].
  all: destruct (t !! _) as [[]|]; try (by eapply IHp); try (destruct rest; by simplify_eq).
  destruct (path_is_abs _); [by simplify_eq|]. by eapply IHl.
Qed.

Lemma mkdir_exist p w e w' :
  mkdir p w = (Fail e, w') → is_exist e = true → absent w p → False.
Proof.
  intros Hm He Ha. eapply syscall_sentinel in Hm as (w1 & V & Hm); [|exact He].
  rewrite (view_locate w1 w) in Hm by done. unfold absent in Ha.
  assert (w_tree w1 = w_tree w) as T by by injection V.
  destruct (locate w false p) as [k|e1] eqn:E; [rewrite T, Ha in Hm; done|]. injection Hm as -> _.
  apply resolve_fail in E. congruence.
Qed.

Lemma ensure_loop_effect `{UnicodeTables} past todo w w' t0 :
  ensureDirectoriesLoop (join past "/") todo w = (Ok (), w') →
  linkless (w_tree w) → Forall good_name (past ++ todo) →
  with_dirs past t0 (w_tree w) → with_dirs (past ++ todo) t0 (w_tree w').
Proof.
  revert past w. induction todo as [|part todo IH]; intros past w He Hl Hg Hd; simpl in He.
  { injection He as <-. by rewrite app_nil_r. }
  rewrite cons_snoc_app in *. pose proof Hg as [Hg1 _]%Forall_app.
  rewrite path_join_snoc in He by done. apply attempt_bind in He as (r & w1 & Hs & He).
  assert (rel_path (join (past ++ [part]) "/")) as Hrel by (apply rel_path_join; [by destruct past|done]).
  assert (w_tree w1 = w_tree w) as T1.
  { pose proof (reads_lstat (join (past ++ [part]) "/") w) as V. rewrite Hs in V. by injection V. }
  (* one more directory, at [past ++ [part]] *)
  assert (∀ w2, w_tree w2 !! (past ++ [part]) = Some EDir →
    (∀ k, w_tree w2 !! k = w_tree w !! k ∨
      (w_tree w !! k = None ∧ w_tree w2 !! k = Some EDir ∧ k = past ++ [part])) →
    with_dirs (past ++ [part]) t0 (w_tree w2)) as Hstep.
  { intros w2 Hlast Hk. destruct Hd as [Hd1 Hd2]. split.
    - intros i Hi. rewrite length_app in Hi. simpl in Hi.
      destruct (decide (i = length past + 1)) as [->|].
      + rewrite take_ge; [done|]. rewrite length_app. simpl. lia.
      + rewrite take_app_le by lia. specialize (Hd1 i ltac:(lia)).
        destruct (Hk (take i past)) as [->|(? & ? & _)]; congruence.
    - intros k. destruct (Hk k) as [Heq|(Hn & Hs2 & ->)].
      + rewrite Heq. destruct (Hd2 k) as [?|(? & ? & i & Hi & ->)]; [by left|right].
        split_and!; try done. exists i. rewrite length_app, take_app_le by lia. split; [lia|done].
      + destruct (Hd2 (past ++ [part])) as [Heq|(_ & Hc & _)]; [|congruence].
        right. split_and!; [congruence|done|]. exists (length (past ++ [part])).
        rewrite take_ge by done. rewrite length_app. simpl. split; [lia|done]. }
  destruct r as [e|e].
  - apply lstat_there in Hs; [|done..]. rewrite comps_join in Hs by done.
    destruct e; try done. apply (IH _ w1) in He; try done; [by rewrite T1|].
    apply Hstep; [by rewrite T1|]. intros k. left. by rewrite T1.
  - destruct (is_not_exist e) eqn:En; [|done]. apply attempt_bind in He as (m & w2 & Hm & He).
    apply lstat_absent in Hs as [V1 Ha]; [|done].
    destruct m as [[]|me].
    + apply mkdir_effect in Hm as [Hn T2]; [|by rewrite T1|done]. rewrite comps_join in * by done.
      rewrite T1 in *. apply (IH _ w2) in He; try done.
      * intros k l. rewrite T2. destruct (decide (k = past ++ [part])) as [->|];
          [by rewrite lookup_insert, decide_True|rewrite lookup_insert_ne by done; apply Hl].
      * apply Hstep; [by rewrite T2, lookup_insert, decide_True|]. intros k. rewrite T2.
        destruct (decide (k = past ++ [part])) as [->|]; [|left; by rewrite lookup_insert_ne].
        right. by rewrite lookup_insert, decide_True.
    + destruct (is_exist me) eqn:Ee; [exfalso|done].
      eapply mkdir_exist; [done..|]. unfold absent. by rewrite (view_locate w1 w), T1.
Qed.

Lemma ensure_effect `{UnicodeTables} ds w w' :
  ensureDirectories (dir_path ds) w = (Ok (), w') → linkless (w_tree w) → Forall good_name ds →
  with_dirs ds (w_tree w) (w_tree w').
Proof.
  intros He Hl Hg.
  assert (with_dirs [] (w_tree w) (w_tree w)) as H0
    by (split; [simpl; intros; lia|intros k; by left]).
  unfold ensureDirectories, dir_path in He. destruct (decide (ds = [])) as [->|Hne].
  { by injection He as <-. }
  rewrite bool_decide_eq_false_2 in He; cycle 1.
  { intros [Hj|Hj]; [|by apply join_empty in Hj].
    apply (f_equal comps) in Hj. by rewrite comps_join in Hj. }
  rewrite split_join_good in He by done. by apply (ensure_loop_effect [] ds w w' (w_tree w)) in He.
Qed.

(** ** Temporary files and replacement *)

Lemma create_fail p mode w e w' : create_excl p mode w = (Fail e, w') → w_tree w' = w_tree w.
Proof.
  intros [[_ V]|(w1 & V & H)]%syscall_run'; injection V as T _; [done|].
  by repeat case_match; simplify_eq/=.
Qed.

Lemma createTemporary_effect ds base w p k w' :
  createTemporary (dir_path ds) base w = (Ok (p, k), w') →
  linkless (w_tree w) → Forall good_name ds → contains_byte base slash = false →
  ∃ name, good_name name ∧ String.length base < String.length name ∧
    p = join (ds ++ [name]) "/" ∧ k = ds ++ [name] ∧
    w_tree w !! k = None ∧ w_tree w' = <[k := EFile "" 384]> (w_tree w).
Proof.
  unfold createTemporary. generalize 10. intros attempts. revert w.
  induction attempts as [|attempts IH]; intros w Hc Hl Hg Hb; [done|]. simpl in Hc.
  apply io_bind_ok in Hc as (n & w1 & Hn & Hc).
  assert (w_tree w1 = w_tree w ∧ ∃ v, n = hex_fixed 16 v) as [T1 [v ->]].
  { unfold random_name in Hn. destruct (w_random w); simplify_eq. eauto. }
  apply attempt_bind in Hc as (r & w2 & Hcr & Hc).
  set (name := "." +:+ base +:+ ".spice-" +:+ hex_fixed 16 v) in *.
  assert (good_name name) as Hname by by apply temporary_name.
  assert (Forall good_name (ds ++ [name])) as Hg' by (apply Forall_app; split; [done|by constructor]).
  rewrite path_join_dir in * by done. destruct r as [f|e].
  - injection Hc as <- <- <-. apply create_effect in Hcr as (-> & Hnone & T2);
      [|by rewrite T1|by apply rel_path_join; [destruct ds|]].
    rewrite comps_join in * by done. rewrite T1 in *. exists name. split_and!; try done.
    unfold name. rewrite !length_str_app. simpl. lia.
  - destruct (negb (is_exist e)); [done|]. apply create_fail in Hcr.
    assert (w_tree w2 = w_tree w) as T2 by congruence. rewrite <-T2 in *. by eapply IH.
Qed.

(** The files below [ds]: a destination, a temporary file and a backup. *)
Lemma snoc_ne (ds : key) a b : a ≠ b → ds ++ [a] ≠ ds ++ [b].
Proof. intros Hab Heq. apply app_inj_2 in Heq as [_ [= ?]]; done. Qed.

Lemma linkless_insert t k e : linkless t → (∀ l, e ≠ ELink l) → linkless (<[k := e]> t).
Proof.
  intros Hl He k' l. destruct (decide (k' = k)) as [->|].
  - rewrite lookup_insert, decide_True by done. intros [= ->]. by eapply He.
  - rewrite lookup_insert_ne by done. apply Hl.
Qed.
Lemma linkless_delete t k : linkless t → linkless (delete k t).
Proof. intros Hl k' l [_ ?]%lookup_delete_Some. by eapply Hl. Qed.

Section promote.
Context `{UnicodeTables} (ds : key) (b : string) (c : string) (m : Z) (name : string) (w : world).
Notation dest := (ds ++ [b]).
Notation temp := (ds ++ [name]).
Context (Hl : linkless (w_tree w)) (Hgb : Forall good_name dest) (Hgn : Forall good_name temp).
Context (Hne : temp ≠ dest) (Ht : w_tree w !! temp = Some (EFile c m)).

Lemma rel_sibling n : Forall good_name (ds ++ [n]) → rel_path (join (ds ++ [n]) "/").
Proof. intros. apply rel_path_join; [by destruct ds|done]. Qed.

(** The tree once the temporary file has become the destination. *)
Definition promoted (t t' : tree) : Prop :=
  ∀ k, t' !! k = if decide (k = dest) then Some (EFile c m)
                 else if decide (k = temp) then None else t !! k.

Lemma promote_new w0 w' :
  w_tree w0 = w_tree w → rename (join temp "/") (join dest "/") w0 = (Ok (), w') →
  promoted (w_tree w) (w_tree w').
Proof.
  intros T Hr k.
  apply (rename_effect _ _ _ _ (EFile c m)) in Hr; rewrite ?T, ?comps_join in * by done;
    try done; try by apply rel_sibling.
  rewrite Hr. destruct (decide (k = dest)) as [->|];
    [by rewrite lookup_insert, decide_True|rewrite lookup_insert_ne by done].
  destruct (decide (k = temp)) as [->|]; [by rewrite lookup_delete, decide_True|].
  by rewrite lookup_delete_ne.
Qed.

(** The destination steps aside to a backup, which is removed afterwards. *)
Lemma promote_over w0 w1 w2 w' bn e :
  w_tree w0 = w_tree w → Forall good_name (ds ++ [bn]) → w_tree w !! (ds ++ [bn]) = None →
  w_tree w !! dest = Some e → e ≠ EDir →
  rename (join dest "/") (join (ds ++ [bn]) "/") w0 = (Ok (), w1) →
  rename (join temp "/") (join dest "/") w1 = (Ok (), w2) →
  remove (join (ds ++ [bn]) "/") w2 = (Ok (), w') →
  promoted (w_tree w) (w_tree w').
Proof.
  intros T Hgbn Hbn He Hed H1 H2 H3 k.
  assert (ds ++ [bn] ≠ dest) as Hbd by congruence.
  assert (ds ++ [bn] ≠ temp) as Hbt by congruence.
  assert (∀ l, e ≠ ELink l) as Hel by (intros l ->; by eapply Hl).
  apply (rename_effect _ _ _ _ e) in H1; rewrite ?T, ?comps_join in * by done; try done;
    try by apply rel_sibling.
  apply (rename_effect _ _ _ _ (EFile c m)) in H2; rewrite ?H1, ?comps_join in * by done; try done;
    try by apply rel_sibling.
  2: { by apply linkless_insert, Hel; apply linkless_delete. }
  2: { by rewrite lookup_insert_ne, lookup_delete_ne by done. }
  apply remove_effect in H3 as [_ ->]; rewrite ?H2, ?comps_join by done; try by apply rel_sibling.
  2: { apply linkless_insert; [|done]. by apply linkless_delete, linkless_insert, Hel; apply linkless_delete. }
  destruct (decide (k = ds ++ [bn])) as [->|Hk].
  { rewrite lookup_delete, decide_True by done. rewrite !decide_False by done. by rewrite Hbn. }
  rewrite lookup_delete_ne by done.
  destruct (decide (k = dest)) as [->|]; [by rewrite lookup_insert, decide_True|].
  rewrite lookup_insert_ne by done.
  destruct (decide (k = temp)) as [->|]; [by rewrite lookup_delete, decide_True|].
  by rewrite lookup_delete_ne, lookup_insert_ne, lookup_delete_ne by done.
Qed.

Lemma replacePath_effect w' :
  replacePath (join temp "/") (join dest "/") w = (Ok (), w') → w_tree w !! dest ≠ Some EDir →
  promoted (w_tree w) (w_tree w').
Proof.
  intros Hr Hd. pose proof Hgb as [Hg Hb]%Forall_app. inversion_clear Hb as [|?? (_ & _ & _ & Hbs) _].
  unfold replacePath in Hr. apply attempt_bind in Hr as (r & w1 & Hls & Hr).
  assert (w_tree w1 = w_tree w) as T1.
  { pose proof (reads_lstat (join dest "/") w) as V. rewrite Hls in V. by injection V. }
  destruct r as [e|e]; [|destruct (is_not_exist e); [by apply promote_new in Hr|done]].
  apply lstat_there in Hls; [|done|by apply rel_sibling]. rewrite comps_join in Hls by done.
  rewrite path_dir_snoc, path_base_snoc in Hr by done. fold (dir_path ds) in Hr.
  apply io_bind_ok in Hr as ([bp bk] & w2 & Hc & Hr).
  apply createTemporary_effect in Hc as (bn & Hbn & _ & -> & -> & Hbnone & T2);
    [|by rewrite T1|done|by rewrite contains_byte_app, Hbs].
  assert (Forall good_name (ds ++ [bn])) as Hgbn by (apply Forall_app; split; [done|by constructor]).
  rewrite T1 in *. cbn [fst snd] in Hr.
  apply io_bind_ok in Hr as ([] & w3 & Hcl & Hr).
  assert (w_tree w3 = w_tree w2) as T3.
  { pose proof (reads_close w2) as V. rewrite Hcl in V. by injection V. }
  apply io_bind_ok in Hr as ([] & w4 & Hrm & Hr).
  apply remove_effect in Hrm as [_ T4]; [|rewrite T3, T2; by apply linkless_insert|by apply rel_sibling].
  rewrite comps_join, T3, T2, delete_insert_eq, delete_id in T4 by done.
  apply io_bind_ok in Hr as ([] & w5 & Hrn1 & Hr).
  apply attempt_bind in Hr as (r & w6 & Hrn2 & Hr).
  destruct r as [[]|e2]; [|by apply attempt_bind in Hr as (? & ? & _ & Hr)].
  apply wrap_io_ok in Hr. apply (promote_over w4 w5 w6 w' bn e); try done. by intros ->.
Qed.
End promote.

(** ** A whole replacement *)

(** [t'] is [t] with the file [c] at [ks], below directories. *)
Definition with_file (ks : key) (c : string) (m : Z) (t t' : tree) : Prop :=
  t' !! ks = Some (EFile c m) ∧
  (∀ i, 0 < i < length ks → t' !! take i ks = Some EDir) ∧
  ∀ k, k ≠ ks → t' !! k = t !! k ∨
    (t !! k = None ∧ t' !! k = Some EDir ∧ ∃ i, 0 < i < length ks ∧ k = take i ks).

Lemma replaceFile_effect `{UnicodeTables} `{GenLibraries} p c m goSource w w' :
  replaceFile p c m goSource w = (Ok (), w') → linkless (w_tree w) → rel_path p →
  w_tree w !! comps p ≠ Some EDir → with_file (comps p) c m (w_tree w) (w_tree w').
Proof.
  intros Hr Hl (Hne & Hj & Hg) Hd.
  destruct (comps p) as [|b ds _] eqn:Ep using rev_ind; [done|]. clear Hne Ep. subst p.
  unfold replaceFile in Hr. rewrite path_dir_snoc, path_base_snoc in Hr by done. fold (dir_path ds) in Hr.
  pose proof Hg as [Hgd Hgb]%Forall_app. inversion_clear Hgb as [|?? (_ & _ & _ & Hbs) _].
  apply io_bind_ok in Hr as ([] & w1 & He & Hr). apply ensure_effect in He; [|done..].
  pose proof (with_dirs_linkless _ _ _ He Hl) as Hl1. destruct He as [He1 He2].
  apply io_bind_ok in Hr as ([] & w2 & Hp & Hr).
  assert (w2 = w1) as ->.
  { destruct goSource; [destruct (parse_file _ _); [done|]|]; by injection Hp. }
  apply io_bind_ok in Hr as ([tp tk] & w3 & Hc & Hr).
  apply createTemporary_effect in Hc as (n & Hn & Hlen & -> & -> & Hnone & T3); [|done..].
  assert (Forall good_name (ds ++ [n])) as Hgn by (apply Forall_app; split; [done|by constructor]).
  cbn [fst snd] in Hr. apply attempt_bind in Hr as (r & w4 & Hr & Hr').
  destruct r as [[]|e]; cycle 1.
  { apply attempt_bind in Hr' as (x & ? & _ & Hr'). repeat case_match; done. }
  injection Hr' as <-. apply io_bind_ok in Hr as ([] & w5 & Hf & Hr).
  apply (fill_effect _ _ _ _ _ "" 384) in Hf; [|by rewrite T3, lookup_insert, decide_True].
  rewrite T3, insert_insert, decide_True in Hf by done.
  apply io_bind_ok in Hr as (written & w6 & Hrd & Hr). apply io_bind_ok in Hr as ([] & w7 & Hcmp & Hr).
  apply lift_ok in Hcmp as [_ ->].
  assert (w_tree w6 = w_tree w5) as T6.
  { pose proof (reads_read_file (join (ds ++ [n]) "/") w5) as V. rewrite Hrd in V. by injection V. }
  assert (ds ++ [n] ≠ ds ++ [b]) as Hnb by (apply snoc_ne; intros ->; lia).
  assert (∀ i, 0 < i < length (ds ++ [b]) → take i (ds ++ [b]) = take i ds ∧ 0 < i ≤ length ds) as Htk.
  { intros i Hi. rewrite length_app in Hi. simpl in Hi. split; [apply take_app_le; lia|lia]. }
  assert (w_tree w1 !! (ds ++ [b]) = w_tree w !! (ds ++ [b])) as Hdest.
  { destruct (He2 (ds ++ [b])) as [?|(_ & _ & i & Hi & Heq)]; [done|].
    apply (f_equal length) in Heq. rewrite length_app, length_take in Heq. simpl in Heq. lia. }
  apply (replacePath_effect ds b c m) in Hr; rewrite ?T6, ?Hf in *; try done.
  - assert (∀ k, k ≠ ds ++ [b] → w_tree w4 !! k = w_tree w1 !! k) as Hk.
    { intros k Hkb. rewrite Hr, decide_False by done.
      destruct (decide (k = ds ++ [n])) as [->|]; [done|]. by rewrite lookup_insert_ne. }
    split_and!.
    + by rewrite Hr, decide_True.
    + intros i Hi. destruct (Htk i Hi) as [Hti Hi']. rewrite Hti, Hk; [by apply He1|].
      intros Heq. apply (f_equal length) in Heq. rewrite length_app, length_take in Heq. simpl in Heq. lia.
    + intros k Hkb. rewrite Hk by done. destruct (He2 k) as [?|(? & ? & i & Hi & ->)]; [by left|].
      right. split_and!; try done. exists i. rewrite length_app, take_app_le by lia. simpl. split; [lia|done].
  - by apply linkless_insert.
  - by rewrite lookup_insert, decide_True.
  - rewrite lookup_insert_ne by done. congruence.
Qed.

(** ** Sane trees stay sane *)

Lemma with_file_sane ks c m t t' :
  sane t → ks ≠ [] → Forall good_name ks → t !! ks ≠ Some EDir → with_file ks c m t t' → sane t'.
Proof.
  intros [Hwf Hl Hn] Hne Hg Hd (H1 & H2 & H3).
  assert (∀ k, entry_at t k = Some EDir → entry_at t' k = Some EDir) as Hdir.
  { intros [|x k] Hk; [done|]. simpl in *.
    assert (x :: k ≠ ks) as Hxk by (intros Heq; by rewrite Heq in Hk).
    destruct (H3 _ Hxk) as [->|(? & ? & _)]; [done|congruence]. }
  assert (∀ i j, i < length ks → entry_at t' (take j (take i ks)) = Some EDir) as Hpre.
  { intros i j Hi. rewrite take_take. destruct (take (j `min` i) ks) eqn:E; [done|]. rewrite <-E.
    rewrite entry_at_ne by (by rewrite E). apply H2. split; [|lia].
    destruct (j `min` i); [done|lia]. }
  split.
  - intros k e He. destruct (decide (k = ks)) as [->|Hk].
    + split; [done|]. intros i Hi. specialize (Hpre i i Hi). by rewrite take_take, Nat.min_id in Hpre.
    + destruct (H3 k Hk) as [Heq|(Hn' & Hs & i & Hi & ->)].
      * rewrite Heq in He. destruct (Hwf _ _ He) as [? Hp]. split; [done|]. intros i Hi. by apply Hdir, Hp.
      * split; [|intros j Hj; apply Hpre; lia].
        intros Hnil. apply (f_equal length) in Hnil. rewrite length_take in Hnil. simpl in Hnil. lia.
  - intros k l He. destruct (decide (k = ks)) as [->|Hk]; [congruence|].
    destruct (H3 k Hk) as [Heq|(_ & ? & _)]; [|congruence]. rewrite Heq in He. by eapply Hl.
  - intros k e He. destruct (decide (k = ks)) as [->|Hk]; [done|].
    destruct (H3 k Hk) as [Heq|(_ & _ & i & _ & ->)]; [|by apply Forall_take].
    rewrite Heq in He. by eapply Hn.
Qed.

Lemma delete_sane t k : sane t → t !! k ≠ Some EDir → sane (delete k t).
Proof.
  intros [Hwf Hl Hn] Hd. split; [|by apply linkless_delete|].
  - intros k' e [Hk He]%lookup_delete_Some. destruct (Hwf _ _ He) as [? Hp]. split; [done|].
    intros i Hi. specialize (Hp i Hi). destruct (take i k') eqn:E; [done|]. rewrite <-E in *.
    rewrite entry_at_ne in * by (by rewrite E).
    apply lookup_delete_Some. split; [|done]. by intros ->.
  - intros k' e [_ He]%lookup_delete_Some. by eapply Hn.
Qed.

(** ** Removal and the lock *)

Section lock_effect.
Context `{UnicodeTables} `{GenLibraries}.

Lemma readOptional_there p r w w' :
  readOptional p w = (Ok r, w') → sane (w_tree w) → rel_path p →
  match r with
  | Some c => ∃ m, w_tree w !! comps p = Some (EFile c m)
  | None => w_tree w !! comps p = None
  end.
Proof.
  intros Hr Hs Hp. apply readOptional_ok in Hr as [_ Hr]. destruct r as [c|].
  - destruct Hr as (k & m & Hk & He). exists m. apply located in Hk as <-; [done|apply Hs|apply Hp].
  - by apply absent_there.
Qed.

Lemma removeOwnedFile_effect p h w w' :
  removeOwnedFile p h w = (Ok (), w') → sane (w_tree w) → rel_path p →
  w_tree w' = delete (comps p) (w_tree w) ∧ w_tree w !! comps p ≠ Some EDir.
Proof.
  unfold removeOwnedFile. intros (r & w1 & Hr & Hx)%io_bind_ok Hs Hp.
  pose proof (reads_readOptional p w) as V. rewrite Hr in V. injection V as V _.
  apply readOptional_there in Hr; [|done..]. destruct r as [c|].
  - destruct Hr as [m Hr]. destruct (_ || _); [done|]. apply wrap_io_ok, remove_effect in Hx as [_ ->];
      [|rewrite V; apply Hs|done]. rewrite V. split; [done|]. by rewrite Hr.
  - injection Hx as <-. rewrite V, delete_id by done. split; [done|]. by rewrite Hr.
Qed.

Lemma release_effect plan w w' :
  plain_id plan → release_lock plan w = (Ok (), w') → sane (w_tree w) →
  w_tree w' = delete (lock_key plan) (w_tree w).
Proof.
  intros Hid. unfold release_lock. intros (r & w1 & Hr & Hx)%attempt_bind Hs.
  assert (rel_path (lock_path plan)) as Hrel.
  { rewrite lock_path_join by done. apply rel_path_join; [done|by apply lock_key_good]. }
  destruct r as [[]|e].
  - injection Hx as <-. apply remove_effect in Hr as [_ ->]; [|apply Hs|done]. by rewrite comps_lock.
  - destruct (is_not_exist e) eqn:En; [|done]. injection Hx as <-.
    eapply syscall_sentinel in Hr as (w2 & V & Hr); [|exact En].
    rewrite (view_locate w2 w) in Hr by done. injection V as V _.
    assert (absent w (lock_path plan) ∧ w_tree w1 = w_tree w) as [Ha T].
    { unfold absent. destruct (locate w false (lock_path plan)) as [k|e'].
      - rewrite V in Hr. destruct (entry_at (w_tree w) k) as [[]|]; [|by simplify_eq..|].
        + case_decide; by simplify_eq.
        + injection Hr as <- <-. by rewrite V.
      - injection Hr as -> <-. by rewrite V. }
    apply absent_there in Ha; [|done..]. rewrite comps_lock in Ha by done. by rewrite T, delete_id.
Qed.

Lemma acquire_effect plan pid w w' :
  plain_id plan → acquireLock plan pid w = (Ok (), w') → linkless (w_tree w) →
  w_tree w !! lock_key plan = None ∧
  with_file (lock_key plan) (lock_content plan pid) 384 (w_tree w) (w_tree w').
Proof.
  intros Hid Ha Hl. unfold acquireLock in Ha. rewrite lock_dir in Ha by done.
  pose proof (lock_key_good plan Hid) as Hg.
  apply io_bind_ok in Ha as ([] & w1 & He & Ha).
  apply (ensure_effect [".spice"]) in He; [|done|by repeat constructor].
  pose proof (with_dirs_linkless _ _ _ He Hl) as Hl1. destruct He as [He1 He2].
  apply attempt_bind in Ha as (r & w2 & Hc & Ha). destruct r as [k|e]; [|by destruct (is_exist e)].
  apply create_effect in Hc as (-> & Hnone & T2); [|done|].
  2: { rewrite lock_path_join by done. by apply rel_path_join. }
  rewrite comps_lock in * by done.
  apply attempt_bind in Ha as (r & w3 & Hw & Ha). apply attempt_bind in Ha as (r' & w4 & Hcl & Ha).
  destruct (errors_join _ _) eqn:Ej; [by apply attempt_bind in Ha as (? & ? & _ & Ha)|].
  injection Ha as <-. destruct r as [[]|]; [|by destruct r'].
  apply (write_effect _ _ _ _ "" 384) in Hw; [|by rewrite T2, lookup_insert, decide_True].
  rewrite T2, insert_insert, decide_True in Hw by done.
  pose proof (reads_close w3) as V. rewrite Hcl in V. injection V as V _. rewrite V, Hw.
  assert (∀ i, 0 < i < length (lock_key plan) → take i (lock_key plan) = [".spice"]) as Htk.
  { intros i Hi. simpl in Hi. assert (i = 1) as -> by lia. done. }
  assert (∀ k, k ≠ lock_key plan → w_tree w1 !! k = w_tree w !! k ∨
    (w_tree w !! k = None ∧ w_tree w1 !! k = Some EDir ∧ k = [".spice"])) as Hk1.
  { intros k _. destruct (He2 k) as [?|(? & ? & i & Hi & ->)]; [by left|right].
    simpl in Hi. assert (i = 1) as -> by lia. done. }
  split.
  - destruct (He2 (lock_key plan)) as [<-|(? & _)]; done.
  - split_and!.
    + by rewrite lookup_insert, decide_True.
    + intros i Hi. rewrite Htk by done. rewrite lookup_insert_ne by done. apply (He1 1); simpl; lia.
    + intros k Hk. rewrite lookup_insert_ne by done. destruct (Hk1 k Hk) as [?|(? & ? & ->)]; [by left|right].
      split_and!; try done. exists 1. split; [simpl; lia|done].
Qed.
End lock_effect.
