(* ===== verification/GenSpec.v ===== *)
(** The contract of [ApplyWithOptions]: the tree and the report a successful
    application of a plan produces, as functions of the tree before it, and the
    algebra of the tree updates they are made of. *)
From S2P Require Import Prelude GoSort GoStrings Sha256 GenPlan GoRoot GoPath GenFs GenSafety GenProtect GenEffect.

(** ** Updates of a tree *)

(** The proper prefixes of a key, the root left out. *)
Definition parents (ks : key) : list key := (λ i, take i ks) <$> seq 1 (length ks - 1).

Definition add_dir (t : tree) (k : key) : tree :=
  match t !! k with Some _ => t | None => <[k := EDir]> t end.
Definition add_parents (ks : key) (t : tree) : tree := foldl add_dir t (parents ks).

(** The file [c] at [ks] and the directories it needs. *)
Definition put_file (ks : key) (c : string) (m : Z) (t : tree) : tree :=
  <[ks := EFile c m]> (add_parents ks t).

Definition delete_keys (ks : list key) (t : tree) : tree := foldl (λ t k, delete k t) t ks.

(** The content of the file at [k], nothing when there is none. *)
Definition file_at (t : tree) (k : key) : option string :=
  match t !! k with Some (EFile c _) => Some c | _ => None end.

Lemma elem_of_parents ks k : k ∈ parents ks ↔ ∃ i, 0 < i < length ks ∧ k = take i ks.
Proof.
  unfold parents. rewrite list_elem_of_fmap. split.
  - intros (i & -> & Hi%elem_of_seq). exists i. split; [lia|done].
  - intros (i & Hi & ->). exists i. split; [done|]. apply elem_of_seq. lia.
Qed.

Lemma parents_shorter ks k : k ∈ parents ks → length k < length ks.
Proof. intros (i & Hi & ->)%elem_of_parents. rewrite length_take. lia. Qed.

Lemma parents_irrefl ks : ks ∉ parents ks.
Proof. intros Hp%parents_shorter. lia. Qed.

Lemma foldl_add_dir t l k :
  foldl add_dir t l !! k =
  match t !! k with Some e => Some e | None => if decide (k ∈ l) then Some EDir else None end.
Proof.
  revert t. induction l as [|x l IH]; intros t; cbn [foldl].
  { destruct (t !! k); [done|]. by rewrite decide_False by apply not_elem_of_nil. }
  rewrite IH. unfold add_dir at 1. destruct (t !! x) eqn:Ex.
  - destruct (t !! k) eqn:Ek; [done|]. assert (k ≠ x) by congruence.
    apply decide_ext. set_solver.
  - destruct (decide (k = x)) as [->|Hk].
    + rewrite lookup_insert, decide_True, Ex by done. rewrite decide_True by set_solver. done.
    + rewrite lookup_insert_ne by done. destruct (t !! k); [done|]. apply decide_ext. set_solver.
Qed.

Lemma lookup_add_parents ks t k :
  add_parents ks t !! k =
  match t !! k with Some e => Some e | None => if decide (k ∈ parents ks) then Some EDir else None end.
Proof. apply foldl_add_dir. Qed.

Lemma lookup_put_file ks c m t k :
  put_file ks c m t !! k = if decide (k = ks) then Some (EFile c m) else add_parents ks t !! k.
Proof.
  unfold put_file. destruct (decide (k = ks)) as [->|]; [by rewrite lookup_insert, decide_True|].
  by rewrite lookup_insert_ne.
Qed.

Lemma lookup_put_file_other ks c m t k :
  k ≠ ks → k ∉ parents ks → put_file ks c m t !! k = t !! k.
Proof.
  intros Hk Hp. rewrite lookup_put_file, decide_False, lookup_add_parents by done.
  rewrite decide_False by done. by destruct (t !! k).
Qed.

Lemma lookup_delete_keys ks t k :
  delete_keys ks t !! k = if decide (k ∈ ks) then None else t !! k.
Proof.
  unfold delete_keys. revert t. induction ks as [|x ks IH]; intros t; cbn [foldl].
  { by rewrite decide_False by apply not_elem_of_nil. }
  rewrite IH. destruct (decide (k = x)) as [->|Hk].
  - rewrite lookup_delete. repeat case_decide; set_solver.
  - rewrite lookup_delete_ne by done. apply decide_ext. set_solver.
Qed.

(** [with_file] of [GenEffect] says exactly that. *)
Lemma with_file_put ks c m t t' : with_file ks c m t t' → t' = put_file ks c m t.
Proof.
  intros (H1 & H2 & H3). apply map_eq. intros k. rewrite lookup_put_file. case_decide as Hk; [by subst|].
  rewrite lookup_add_parents. destruct (decide (k ∈ parents ks)) as [Hp|Hp].
  - assert (t' !! k = Some EDir) as Hd by (apply elem_of_parents in Hp as (i & Hi & ->); by apply H2).
    destruct (H3 k Hk) as [Heq|(Hn & _)]; [|by rewrite Hn].
    rewrite <-Heq, Hd. done.
  - destruct (H3 k Hk) as [->|(_ & _ & Hi)]; [by destruct (t !! k)|].
    destruct Hp. by apply elem_of_parents.
Qed.

Lemma add_parents_insert ks t k e :
  k ∉ parents ks → add_parents ks (<[k:=e]> t) = <[k:=e]> (add_parents ks t).
Proof.
  intros Hp. apply map_eq. intros k'. rewrite lookup_add_parents. destruct (decide (k' = k)) as [->|].
  - by rewrite !lookup_insert_eq.
  - by rewrite !lookup_insert_ne, lookup_add_parents by done.
Qed.

Lemma put_file_insert ks c m t k e :
  k ≠ ks → k ∉ parents ks → put_file ks c m (<[k:=e]> t) = <[k:=e]> (put_file ks c m t).
Proof.
  intros Hk Hp. unfold put_file. rewrite add_parents_insert by done. by rewrite insert_insert_ne.
Qed.

Lemma delete_keys_insert ks t k e :
  k ∉ ks → delete_keys ks (<[k:=e]> t) = <[k:=e]> (delete_keys ks t).
Proof.
  intros Hk. apply map_eq. intros k'. rewrite lookup_delete_keys.
  destruct (decide (k' = k)) as [->|]; [by rewrite !lookup_insert_eq, decide_False|].
  by rewrite !lookup_insert_ne, lookup_delete_keys by done.
Qed.

#[export] Instance delete_keys_perm : Proper ((≡ₚ) ==> (=) ==> (=)) delete_keys.
Proof.
  intros l l' Hl t ? <-. apply map_eq. intros k. rewrite !lookup_delete_keys. apply decide_ext. by rewrite Hl.
Qed.

(** ** The contract *)

Section spec.
Context `{UnicodeTables} `{GenLibraries}.

Definition file_key (f : File) : key := comps (f_Path f).
Definition manifest_key (plan : Plan) : key := comps (t_ManifestPath (p_target plan)).
Definition expected_paths (plan : Plan) : list string :=
  t_ManifestPath (p_target plan) :: (f_Path <$> p_files plan).

(** A file is written unless the tree [t0] has that content. *)
Definition differs (t0 : tree) (k : key) (c : string) : bool :=
  negb (bool_decide (default "" (file_at t0 k) = c)).
Definition put_changed (t0 : tree) (k : key) (c : string) (m : Z) (t : tree) : tree :=
  if differs t0 k c then put_file k c m t else t.

Definition put_files (t0 : tree) (files : list File) (t : tree) : tree :=
  foldl (λ t f, put_changed t0 (file_key f) (f_content f) (f_Mode f) t) t files.

(** The files the previous manifest owns and the plan no longer has. *)
Definition stale_paths (plan : Plan) (options : ApplyOptions) (t0 : tree) : list string :=
  filter (λ p, p ∉ expected_paths plan ∧ t0 !! comps p ≠ None)
    (map_to_list (prior_owned plan options t0)).*1.

(** What applying does to [t], decided on the tree [t0] of the inspection. *)
Definition applied_to (plan : Plan) (options : ApplyOptions) (t0 t : tree) : tree :=
  put_changed t0 (manifest_key plan) (p_manifestContent plan) 420
    (delete_keys (comps <$> stale_paths plan options t0) (put_files t0 (p_files plan) t)).

(** The tree after a successful application: the directory of the locks, the
    files that differ, without the stale files, and the manifest at last. *)
Definition applied_tree (plan : Plan) (options : ApplyOptions) (t : tree) : tree :=
  applied_to plan options t (add_parents (lock_key plan) t).

Definition applied_result (plan : Plan) (options : ApplyOptions) (t : tree) : Result :=
  {| Written := sort_strings
       (f_Path <$> filter (λ f, differs t (file_key f) (f_content f) = true) (p_files plan));
     Removed := sort_strings (stale_paths plan options t);
     ManifestUpdated := differs t (manifest_key plan) (p_manifestContent plan) |}.

(** No path the plan writes lies below another, and the manifest is not the
    lock. *)
Definition written_keys (plan : Plan) : list key :=
  lock_key plan :: manifest_key plan :: (file_key <$> p_files plan).
Definition separate (plan : Plan) : Prop :=
  manifest_key plan ≠ lock_key plan ∧
  Forall (λ k, Forall (λ k', k ∉ parents k') (written_keys plan)) (written_keys plan).
#[export] Instance separate_dec plan : Decision (separate plan) := ltac:(unfold separate; apply _).

Lemma separate_parents plan k k' :
  separate plan → k ∈ written_keys plan → k' ∈ written_keys plan → k ∉ parents k'.
Proof. intros [_ Hs] Hk Hk'. rewrite !Forall_forall in Hs. specialize (Hs k Hk). rewrite Forall_forall in Hs. auto. Qed.

(** Keys the writes do not meet. *)
Lemma lookup_put_changed_other t0 k c m t k' :
  k' ≠ k → k' ∉ parents k → put_changed t0 k c m t !! k' = t !! k'.
Proof. intros ??. unfold put_changed. case_match; [by apply lookup_put_file_other|done]. Qed.

Lemma lookup_put_files_other t0 files t k :
  Forall (λ f, k ≠ file_key f ∧ k ∉ parents (file_key f)) files → put_files t0 files t !! k = t !! k.
Proof.
  unfold put_files. intros Hf. revert t. induction Hf as [|f files [??] _ IH]; intros t; simpl; [done|].
  rewrite IH. by apply lookup_put_changed_other.
Qed.

Lemma put_changed_insert t0 k c m t k' e :
  k' ≠ k → k' ∉ parents k → put_changed t0 k c m (<[k':=e]> t) = <[k':=e]> (put_changed t0 k c m t).
Proof. intros ??. unfold put_changed. case_match; [by apply put_file_insert|done]. Qed.

Lemma put_files_insert t0 files t k e :
  Forall (λ f, k ≠ file_key f ∧ k ∉ parents (file_key f)) files →
  put_files t0 files (<[k:=e]> t) = <[k:=e]> (put_files t0 files t).
Proof.
  unfold put_files. intros Hf. revert t. induction Hf as [|f files [??] _ IH]; intros t; simpl; [done|].
  rewrite <-IH. by rewrite put_changed_insert.
Qed.
End spec.
