(* ===== verification/GenRefine.v ===== *)
(** [ApplyWithOptions] implements its contract of [GenSpec]: what an inspection
    that allows the application has recorded, the two loops and the manifest
    on top of it, and the lock around them. *)
From S2P Require Import Prelude GoSort GoStrings Sha256 GenPlan GoRoot GoPath GenFs GenSafety GenProtect GenEffect GenSpec.

Section refine.
Context `{UnicodeTables} `{GenLibraries}.

(** ** What the inspection has recorded *)

(** There is a regular file at [k], or nothing. *)
Definition plain_at (t : tree) (k : key) : Prop := ∀ e, t !! k = Some e → ∃ c m, e = EFile c m.

Lemma plain_not_dir t k : plain_at t k → t !! k ≠ Some EDir.
Proof. intros Hp He. by apply Hp in He as (? & ? & ?). Qed.

Lemma readOptional_seen p r w w' :
  readOptional p w = (Ok r, w') → sane (w_tree w) → rel_path p →
  w_tree w' = w_tree w ∧ r = file_at (w_tree w) (comps p) ∧ plain_at (w_tree w) (comps p).
Proof.
  intros Hr Hs Hp. pose proof (reads_readOptional p w) as V. rewrite Hr in V. injection V as V _.
  apply readOptional_there in Hr; [|done..]. unfold file_at, plain_at.
  split; [done|]. destruct r as [c|].
  - destruct Hr as [m ->]. split; [done|]. intros e [= <-]. eauto.
  - by rewrite Hr.
Qed.

Definition stale_of (ds : list Difference) : list string :=
  d_Path <$> filter (λ d, d_Kind d = DifferenceStaleOwnedFile) ds.

Lemma stale_of_snoc ds d :
  stale_of (ds ++ [d]) =
  stale_of ds ++ if decide (d_Kind d = DifferenceStaleOwnedFile) then [d_Path d] else [].
Proof.
  unfold stale_of. rewrite filter_app, fmap_app, filter_cons, filter_nil. by case_decide.
Qed.

(** The recorded contents are those of the tree. *)
Definition faithful (t : tree) (s : inspection) : Prop :=
  ∀ p c, rel_path p → current s !! p = Some c → file_at t (comps p) = Some c.

(** The path [p] has been looked at. *)
Definition visited (t : tree) (s : inspection) (p : string) : Prop :=
  plain_at t (comps p) ∧ current s !! p = file_at t (comps p).

Lemma faithful_set t s p c :
  faithful t s → file_at t (comps p) = Some c → faithful t (set_current p c s).
Proof.
  intros Hf Hc q d Hq. simpl. destruct (decide (q = p)) as [->|];
    [rewrite lookup_insert_eq; congruence|rewrite lookup_insert_ne by done; by apply Hf].
Qed.

(** One expected file: its content is recorded, nothing is stale. *)
Lemma inspectExpectedFile_cases s f w s' w' :
  inspectExpectedFile s f w = (Ok s', w') →
  ∃ r w1, readOptional (f_Path f) w = (Ok r, w1) ∧
    expected s' = expected s ∧ owned s' = owned s ∧ prior s' = prior s ∧
    current s' = match r with Some c => <[f_Path f := c]> (current s) | None => current s end ∧
    stale_of (differences s') = stale_of (differences s).
Proof.
  unfold inspectExpectedFile. intros (r & w1 & Hr & Hi)%io_bind_ok. exists r, w1. split; [done|].
  destruct r as [c|]; simpl in Hi; [|inv_io; simpl; by rewrite stale_of_snoc, app_nil_r].
  destruct (owned s !! f_Path f); [|inv_io; simpl; by rewrite stale_of_snoc, app_nil_r].
  repeat case_bool_decide; simpl in Hi; inv_io; simpl; by rewrite ?stale_of_snoc, ?app_nil_r.
Qed.

Lemma expected_recorded t files s w s' w' :
  fold_io inspectExpectedFile s files w = (Ok s', w') →
  w_tree w = t → sane t → Forall (λ f, rel_path (f_Path f)) files → faithful t s →
  expected s' = expected s ∧ owned s' = owned s ∧ prior s' = prior s ∧
  stale_of (differences s') = stale_of (differences s) ∧ faithful t s' ∧
  current s ⊆ current s' ∧ Forall (λ f, visited t s' (f_Path f)) files ∧ w_tree w' = t.
Proof.
  intros Hi Ht Hs Hr. revert s w Hi Ht. induction Hr as [|f files Hf Hr IH]; intros s w Hi Ht Hfa; simpl in Hi.
  { inv_io. by split_and!. }
  apply io_bind_ok in Hi as (s1 & w1 & H1 & Hi).
  assert (w_tree w1 = t) as Ht1.
  { pose proof (reads_expected s f w) as V. rewrite H1 in V. injection V as V _. congruence. }
  apply inspectExpectedFile_cases in H1 as (r & w2 & Hrd & He & Ho & Hp & Hc & Hst).
  apply readOptional_seen in Hrd as (_ & Hr' & Hpl); [|by rewrite Ht|done]. rewrite Ht in Hr', Hpl.
  assert (faithful t s1) as Hf1.
  { intros q d Hq. rewrite Hc. destruct r as [c|]; [|by apply Hfa].
    intros Hl. by apply (faithful_set t s (f_Path f) c Hfa (eq_sym Hr') q d). }
  apply IH in Hi as (He' & Ho' & Hp' & Hst' & Hfa' & Hsub & Hv & Ht'); [|done..].
  assert (current s ⊆ current s1) as Hsub1.
  { rewrite Hc. destruct r as [c|]; [|done]. destruct (current s !! f_Path f) as [c'|] eqn:E;
      [|by apply insert_subseteq]. pose proof (Hfa _ _ Hf E). rewrite insert_id; [done|congruence]. }
  split_and!; try congruence; [done|by etrans| ]. constructor; [|done]. split; [done|].
  destruct (file_at t (comps (f_Path f))) as [c|] eqn:E.
  - eapply lookup_weaken; [|exact Hsub]. rewrite Hc, Hr'. apply lookup_insert_eq.
  - destruct (current s' !! f_Path f) eqn:E'; [|done]. apply Hfa' in E'; [|done]. congruence.
Qed.

(** The steps that neither look at the expected paths nor forget them. *)
Definition settled (s s' : inspection) : Prop :=
  expected s' = expected s ∧ owned s' = owned s ∧
  (∀ p, expected s !! p ≠ None → current s' !! p = current s !! p).
#[export] Instance settled_preorder : PreOrder settled.
Proof.
  split; [done|]. intros x y z (E1 & O1 & C1) (E2 & O2 & C2). split_and!; [congruence..|].
  intros p Hp. rewrite C2 by congruence. by apply C1.
Qed.

Lemma settled_set s p c d :
  expected s !! p = None → settled s (add_difference d (set_current p c s)).
Proof.
  intros He. split_and!; [done..|]. intros q Hq. simpl. rewrite lookup_insert_ne; [done|congruence].
Qed.

(** Steps that find nothing stale. *)
Definition settled_stale (s s' : inspection) : Prop :=
  settled s s' ∧ stale_of (differences s') = stale_of (differences s).
#[export] Instance settled_stale_preorder : PreOrder settled_stale.
Proof. split; [done|]. intros x y z [H1 E1] [H2 E2]. split; [by etrans|congruence]. Qed.

Lemma entry_settled s p e w s' w' :
  inspectUnexpectedGeneratedEntry s p e w = (Ok s', w') → settled_stale s s'.
Proof.
  unfold inspectUnexpectedGeneratedEntry. intros Hi.
  repeat case_match; inv_io; try reflexivity; repeat case_match; inv_io; try reflexivity.
  all: split; [by apply settled_set|simpl; by rewrite stale_of_snoc, app_nil_r].
Qed.

(** The files of the previous manifest that the plan no longer has and that are
    on the disk. *)
Definition is_stale (t : tree) (s : inspection) (p : string) : Prop :=
  expected s !! p = None ∧ t !! comps p ≠ None.
#[local] Instance is_stale_dec t s p : Decision (is_stale t s p) := ltac:(unfold is_stale; apply _).

Lemma inspectPriorFile_cases s entry w s' w' :
  inspectPriorFile s entry w = (Ok s', w') → sane (w_tree w) → rel_path entry.1 → unprotected s' →
  settled s s' ∧ w_tree w' = w_tree w ∧
  stale_of (differences s') =
    stale_of (differences s) ++ filter (is_stale (w_tree w) s) [entry.1].
Proof.
  destruct entry as [p h]. cbn [fst]. intros Hi Hs Hr Hu.
  pose proof (reads_prior s (p, h) w) as V. rewrite Hi in V. injection V as V _.
  split; [|split; [done|]].
  - unfold inspectPriorFile in Hi. destruct (expected s !! p) eqn:He; [by inv_io|].
    apply io_bind_ok in Hi as (r & w1 & _ & Hi). destruct r as [c|]; [|by inv_io].
    destruct (_ || _); inv_io; by apply settled_set.
  - unfold inspectPriorFile in Hi. rewrite filter_cons, filter_nil.
    destruct (expected s !! p) as [x|] eqn:He; [inv_io; rewrite decide_False by (unfold is_stale; naive_solver); by rewrite app_nil_r|].
    apply io_bind_ok in Hi as (r & w1 & Hrd & Hi). apply readOptional_there in Hrd; [|done..].
    destruct r as [c|].
    + destruct Hrd as [m Hrd]. rewrite decide_True by (split; [done|congruence]).
      simpl in Hi. destruct (_ || _); inv_io; [|simpl; by rewrite stale_of_snoc].
      exfalso. assert (protected_kind DifferenceManualEdit = false); [|done].
      eapply (Hu {| d_Kind := DifferenceManualEdit |}). simpl. apply elem_of_app. right. by left.
    + rewrite decide_False by (unfold is_stale; naive_solver). inv_io. simpl. by rewrite stale_of_snoc.
Qed.

Lemma filter_is_stale_ext t s s' (l : list string) :
  expected s' = expected s → filter (is_stale t s') l = filter (is_stale t s) l.
Proof. intros He. apply filter_ext_in. intros p _. unfold is_stale. by rewrite He. Qed.

Lemma prior_recorded t entries s w s' w' :
  fold_io inspectPriorFile s entries w = (Ok s', w') → w_tree w = t → sane t →
  Forall rel_path entries.*1 → unprotected s' →
  settled s s' ∧ w_tree w' = t ∧
  stale_of (differences s') = stale_of (differences s) ++ filter (is_stale t s) entries.*1.
Proof.
  revert s w. induction entries as [|e entries IH]; intros s w Hi Ht Hs Hr Hu; simpl in Hi.
  { inv_io. split_and!; [reflexivity|done|]. by rewrite app_nil_r. }
  apply io_bind_ok in Hi as (s1 & w1 & H1 & Hi). cbn [fmap list_fmap] in *.
  inversion_clear Hr as [|?? Hr1 Hr2].
  assert (unprotected s1) as Hu1.
  { intros d Hd. apply Hu. pose proof (fold_grows inspectPriorFile s1 entries w1 s' w' prior_grows Hi) as [_ Hg].
    by apply Hg. }
  apply inspectPriorFile_cases in H1 as (Hset & Ht1 & Hst); [|by rewrite Ht|done..].
  apply IH in Hi as (Hset' & Ht' & Hst'); [|congruence|done..].
  split_and!; [by etrans|done|]. rewrite Hst', Hst, Ht, <-app_assoc. f_equal.
  rewrite (filter_is_stale_ext t s s1) by apply Hset. by rewrite <-filter_app.
Qed.

Lemma targets_recorded files s w s' w' :
  fold_io inspectTarget s files w = (Ok s', w') →
  differences s' = differences s ∧ current s' = current s ∧ owned s' = owned s ∧ prior s' = prior s ∧
  w_tree w' = w_tree w ∧
  ∀ p, expected s' !! p = None ↔ expected s !! p = None ∧ p ∉ f_Path <$> files.
Proof.
  revert s w. induction files as [|f files IH]; intros s w Hi; simpl in Hi.
  { inv_io. split_and!; try done. intros p. set_solver. }
  apply io_bind_ok in Hi as (s1 & w1 & H1 & Hi).
  pose proof (reads_inspectTarget s f w) as V. rewrite H1 in V. injection V as V _.
  unfold inspectTarget in H1. inv_io. apply IH in Hi as (-> & -> & -> & -> & -> & He).
  split_and!; try done. intros p. rewrite He. simpl. rewrite lookup_insert_None. set_solver.
Qed.

Variable range : gmap string string → list (string * string).
Hypothesis range_perm : ∀ m, range m ≡ₚ map_to_list m.

(** What [inspect] has found out of the tree [t]. *)
Record recorded (plan : Plan) (options : ApplyOptions) (t : tree) (s : inspection) : Prop := {
  rec_files : Forall (λ f, visited t s (f_Path f)) (p_files plan);
  rec_manifest : visited t s (t_ManifestPath (p_target plan));
  rec_owned : owned s = prior_owned plan options t;
  rec_stale : stale_of (differences s) ≡ₚ stale_paths plan options t;
  rec_expected : ∀ p, expected s !! p = None ↔ p ∉ expected_paths plan;
}.

Lemma inspect_recorded plan options w s w' :
  inspect range plan options w = (Ok s, w') → valid_plan plan → sane (w_tree w) → unprotected s →
  recorded plan options (w_tree w) s ∧ w_tree w' = w_tree w.
Proof.
  intros Hi Hvp Hs Hu. pose proof (reads_inspect range plan options w) as V. rewrite Hi in V.
  injection V as V _. split; [|done]. clear V. unfold inspect in Hi.
  apply io_bind_ok in Hi as (s1 & w1 & H1 & Hi). apply targets_recorded in H1 as (D1 & C1 & O1 & P1 & T1 & E1).
  simpl in D1, C1, O1, P1.
  apply io_bind_ok in Hi as ([] & w2 & H2 & Hi).
  pose proof (reads_rejectSymlink (t_ManifestPath (p_target plan)) w1) as V. rewrite H2 in V. injection V as T2 _.
  apply io_bind_ok in Hi as (bytes & w3 & H3 & Hi).
  assert (w_tree w2 = w_tree w) as T2' by congruence.
  apply readOptional_seen in H3 as (T3 & Hb & Hpl); [|by rewrite T2'|by apply vp_manifest_path].
  rewrite T2' in *. clear T1 T2 T2' H2.
  apply io_bind_ok in Hi as (s4 & w4 & H4 & Hi).
  set (s2 := set_expected _ _ _ s1) in H4.
  assert (w_tree w4 = w_tree w ∧ expected s4 = expected s2 ∧ faithful (w_tree w) s4 ∧
    stale_of (differences s4) = [] ∧ owned s4 = prior_owned plan options (w_tree w) ∧
    (prior s4 = None → owned s4 = ∅) ∧
    current s4 !! t_ManifestPath (p_target plan) = file_at (w_tree w) (manifest_key plan))
    as (T4 & E4 & F4 & D4 & O4 & P4 & M4).
  { assert (faithful (w_tree w) s2) as Hf2 by (intros p c _; simpl; by rewrite C1, lookup_empty).
    unfold inspectManifest in H4. unfold prior_owned, file_at, manifest_key in *.
    destruct bytes as [b|].
    - inv_io. destruct (w_tree w !! comps _) as [[|c m| |]|] eqn:E; simplify_eq/=.
      match goal with Hd : decodeManifest _ _ _ = Ok _ |- _ => rewrite Hd end.
      split_and!; try done; [|by rewrite D1|apply lookup_insert_eq].
      by apply faithful_set; [|unfold file_at; rewrite E].
    - inv_io. split_and!; try done; simpl.
      + by rewrite stale_of_snoc, D1.
      + rewrite O1. by destruct (w_tree w !! comps _) as [[]|].
      + by rewrite C1, lookup_empty. }
  apply io_bind_ok in Hi as (s5 & w5 & H5 & Hi).
  apply (expected_recorded (w_tree w)) in H5 as (E5 & O5 & P5 & D5 & F5 & C5 & V5 & T5); [|done..| |done].
  2: { apply Forall_forall. intros f Hf. by apply (vp_files _ Hvp). }
  apply io_bind_ok in Hi as (s6 & w6 & H6 & Hi). apply io_bind_ok in Hi as (s7 & w7 & H7 & Hi). inv_io.
  apply (unexpected_moves settled_stale entry_settled) in H7 as H7'. destruct H7' as [S7 D7].
  assert (unprotected s6) as Hu6.
  { intros d Hd. apply Hu. simpl. apply elem_of_sort_stable. apply unexpected_grows in H7 as [_ Hg]. by apply Hg. }
  assert (∀ p, expected s5 !! p = None ↔ p ∉ expected_paths plan) as Hex.
  { intros p. rewrite E5, E4. simpl. rewrite lookup_insert_None, E1. simpl. unfold expected_paths.
    assert (expected empty_inspection !! p = None) by apply lookup_empty.
    rewrite not_elem_of_cons. naive_solver. }
  assert (stale_paths plan options (w_tree w) =
    filter (is_stale (w_tree w) s5) (map_to_list (owned s5)).*1) as Hsp.
  { unfold stale_paths. rewrite O5, O4. apply filter_ext_in. intros p _. unfold is_stale.
    by rewrite Hex. }
  assert (settled s5 s6 ∧ stale_of (differences s6) ≡ₚ stale_paths plan options (w_tree w)) as [S6 D6].
  { rewrite Hsp. unfold inspectPrior in H6. destruct (prior s5) as [m|] eqn:Ep.
    - apply io_bind_ok in H6 as (s6' & w6' & Hp & H6).
      assert (unprotected s6' ∧ settled s6' s6 ∧ stale_of (differences s6) = stale_of (differences s6'))
        as (Hu6' & S6' & D6').
      { destruct (negb _); inv_io; [|done]. split_and!; [|done|by simpl; rewrite stale_of_snoc, app_nil_r].
        intros d Hd. apply Hu6. simpl. apply elem_of_app. by left. }
      apply (prior_recorded (w_tree w)) in Hp as (S & _ & D); [|done|done| |done].
      + split; [by etrans|]. rewrite D6', D, D5, D4, (range_perm (owned s5)). done.
      + rewrite (range_perm (owned s5)), O5, O4. apply Forall_forall.
        intros p ([q h] & -> & Hq%elem_of_map_to_list)%list_elem_of_fmap. by eapply prior_owned_rel.
    - inv_io. split; [reflexivity|]. rewrite D5, D4, O5, P4 by congruence. done. }
  assert (settled s5 s7) as S57 by by etrans.
  assert (∀ p, p ∈ expected_paths plan → expected s5 !! p ≠ None) as Hexp.
  { intros p Hp Hn. by apply Hex in Hn. }
  split; simpl.
  - rewrite Forall_forall in *. intros f Hf. destruct (V5 f Hf) as [Hp Hc]. split; [done|].
    destruct S57 as (_ & _ & S). simpl. rewrite S, Hc; [done|]. apply Hexp. unfold expected_paths. set_solver.
  - split; [done|]. destruct S57 as (_ & _ & S). simpl. rewrite S by (apply Hexp; by left).
    change (comps _) with (manifest_key plan) in *.
    destruct (file_at (w_tree w) (manifest_key plan)) as [c|] eqn:E.
    + eapply lookup_weaken; [exact M4|exact C5].
    + destruct (current s5 !! _) eqn:Ec; [|done]. apply F5 in Ec; [|by apply vp_manifest_path].
      unfold manifest_key in *. congruence.
  - destruct S57 as (_ & S & _). congruence.
  - unfold sortDifferences. etrans; [|exact D6]. rewrite <-D7. unfold stale_of.
    by rewrite sort_stable_perm.
  - destruct S57 as (-> & _). done.
Qed.

(** ** The loops of the application *)

Lemma replaceFile_puts p c m goSource w w' :
  replaceFile p c m goSource w = (Ok (), w') → sane (w_tree w) → rel_path p →
  w_tree w !! comps p ≠ Some EDir →
  w_tree w' = put_file (comps p) c m (w_tree w) ∧ sane (w_tree w').
Proof.
  intros Hr Hs Hp Hd. apply replaceFile_effect in Hr; [|apply Hs|done..].
  split; [by apply with_file_put|]. destruct Hp as (Hne & _ & Hg). by eapply with_file_sane.
Qed.

Lemma visited_differs t s p c :
  visited t s p → bool_decide (default "" (current s !! p) = c) = negb (differs t (comps p) c).
Proof. intros [_ ->]. unfold differs. by rewrite negb_involutive. Qed.

Lemma applyFile_effect t0 s written f w r w' :
  applyFile s written f w = (Ok r, w') → visited t0 s (f_Path f) → rel_path (f_Path f) →
  sane (w_tree w) → w_tree w !! file_key f ≠ Some EDir →
  w_tree w' = put_changed t0 (file_key f) (f_content f) (f_Mode f) (w_tree w) ∧ sane (w_tree w') ∧
  r = written ++ if differs t0 (file_key f) (f_content f) then [f_Path f] else [].
Proof.
  unfold applyFile, put_changed. intros Ha Hv Hr Hs Hd. rewrite (visited_differs _ _ _ _ Hv) in Ha.
  unfold file_key in *. destruct (differs t0 (comps (f_Path f)) (f_content f)); simpl in Ha.
  - apply io_bind_ok in Ha as ([] & w1 & Ha%wrap_io_ok & Hr'). inv_io. by apply replaceFile_puts in Ha as [-> ?].
  - inv_io. by rewrite app_nil_r.
Qed.

Lemma not_dir_put_changed t0 k c m t k' :
  k' ∉ parents k → t !! k' ≠ Some EDir → put_changed t0 k c m t !! k' ≠ Some EDir.
Proof.
  intros Hp Hd. unfold put_changed. destruct (differs _ _ _); [|done]. rewrite lookup_put_file. case_decide; [done|].
  rewrite lookup_add_parents, decide_False by done. by destruct (t !! k').
Qed.

Lemma not_dir_put_files t0 files t k :
  Forall (λ f, k ∉ parents (file_key f)) files → t !! k ≠ Some EDir → put_files t0 files t !! k ≠ Some EDir.
Proof.
  unfold put_files. intros Hf. revert t. induction Hf as [|f files ? _ IH]; intros t Hd; simpl; [done|].
  by apply IH, not_dir_put_changed.
Qed.

Lemma applyFiles_effect t0 s files written w r w' :
  fold_io (applyFile s) written files w = (Ok r, w') →
  Forall (λ f, visited t0 s (f_Path f) ∧ rel_path (f_Path f)) files →
  (∀ f f', f ∈ files → f' ∈ files → file_key f ∉ parents (file_key f')) →
  sane (w_tree w) → Forall (λ f, w_tree w !! file_key f ≠ Some EDir) files →
  w_tree w' = put_files t0 files (w_tree w) ∧ sane (w_tree w') ∧
  r = written ++ (f_Path <$> filter (λ f, differs t0 (file_key f) (f_content f) = true) files).
Proof.
  intros Ha Hf Hsep. revert written w Ha.
  induction Hf as [|f files [Hv Hr] Hf IH]; intros written w Ha Hs Hd; simpl in Ha.
  { inv_io. by rewrite app_nil_r. }
  apply io_bind_ok in Ha as (written1 & w1 & H1 & Ha). inversion_clear Hd as [|?? Hd1 Hd2].
  apply (applyFile_effect t0) in H1 as (T1 & S1 & ->); [|done..].
  apply IH in Ha as (-> & S' & ->); [|by intros; apply Hsep; right|done|].
  2: { rewrite T1. rewrite Forall_forall in *. intros f' Hf'. apply not_dir_put_changed; [|by apply Hd2].
       apply Hsep; [by right|by left]. }
  split_and!; [|done|].
  - unfold put_files. cbn [foldl]. by rewrite T1.
  - rewrite filter_cons, <-app_assoc. by destruct (differs _ _ _).
Qed.

Lemma applyRemovals_effect s ds removed w r w' :
  fold_io (applyRemoval s) removed ds w = (Ok r, w') →
  Forall rel_path (stale_of ds) → sane (w_tree w) →
  w_tree w' = delete_keys (comps <$> stale_of ds) (w_tree w) ∧ sane (w_tree w') ∧ r = removed ++ stale_of ds.
Proof.
  revert removed w. induction ds as [|d ds IH]; intros removed w Ha Hr Hs; simpl in Ha.
  { inv_io. by rewrite app_nil_r. }
  apply io_bind_ok in Ha as (removed1 & w1 & H1 & Ha). unfold stale_of in *. rewrite filter_cons in *.
  unfold applyRemoval in H1. case_bool_decide as Hk; simpl in H1.
  - rewrite !decide_True in * by done. cbn [fmap list_fmap] in *. inversion_clear Hr as [|?? Hr1 Hr2].
    apply io_bind_ok in H1 as ([] & w2 & H1 & H2). inv_io.
    apply removeOwnedFile_effect in H1 as [T1 Hd]; [|done..].
    apply IH in Ha as (-> & S' & ->); [|done|rewrite T1; by apply delete_sane].
    split_and!; [by rewrite T1|done|]. by rewrite <-app_assoc.
  - rewrite !decide_False in * by done. inv_io. by apply IH.
Qed.

Lemma applyManifest_effect plan t0 s w r w' :
  applyManifest plan s w = (Ok r, w') → visited t0 s (t_ManifestPath (p_target plan)) →
  rel_path (t_ManifestPath (p_target plan)) → sane (w_tree w) →
  w_tree w !! manifest_key plan ≠ Some EDir →
  w_tree w' = put_changed t0 (manifest_key plan) (p_manifestContent plan) 420 (w_tree w) ∧ sane (w_tree w') ∧
  r = differs t0 (manifest_key plan) (p_manifestContent plan).
Proof.
  unfold applyManifest, put_changed. intros Ha Hv Hr Hs Hd. rewrite (visited_differs _ _ _ _ Hv) in Ha.
  unfold manifest_key in *. destruct (differs _ _ _); simpl in Ha; [|by inv_io].
  apply io_bind_ok in Ha as ([] & w1 & Ha%wrap_io_ok & Hr'). inv_io. by apply replaceFile_puts in Ha as [-> ?].
Qed.

(** ** Under the lock *)

Lemma stale_rel plan options t : Forall rel_path (stale_paths plan options t).
Proof.
  apply Forall_forall. intros p [_ ([q h] & -> & Hq%elem_of_map_to_list)%list_elem_of_fmap]%list_elem_of_filter.
  by eapply prior_owned_rel.
Qed.

Lemma no_conflicts s :
  negb (length (protectedDifferences (differences s)) =? 0)%nat = false → unprotected s.
Proof.
  intros Hconf. apply negb_false_iff, Nat.eqb_eq, length_zero_iff_nil in Hconf. intros d Hd.
  destruct (protected_kind (d_Kind d)) eqn:E; [|done].
  assert (d ∈ protectedDifferences (differences s)) as Hp by by apply list_elem_of_filter.
  rewrite Hconf in Hp. by apply elem_of_nil in Hp.
Qed.

Lemma apply_locked_effect plan options w r w' :
  apply_locked range plan options w = (Ok r, w') → valid_plan plan → separate plan → sane (w_tree w) →
  w_tree w' = applied_to plan options (w_tree w) (w_tree w) ∧ sane (w_tree w') ∧
  r = applied_result plan options (w_tree w).
Proof.
  intros Ha Hvp Hsep Hs. unfold apply_locked in Ha.
  apply io_bind_ok in Ha as (s & w1 & Hi & Ha). destruct (negb _) eqn:Hconf; [done|].
  apply no_conflicts in Hconf as Hu.
  apply inspect_recorded in Hi as [[Rf Rm Ro Rs _] T1]; [|done..].
  assert (Forall (λ f, visited (w_tree w) s (f_Path f) ∧ rel_path (f_Path f)) (p_files plan)) as Hf.
  { rewrite Forall_forall in *. intros f Hin. split; [auto|]. by apply (vp_files _ Hvp). }
  assert (∀ k f, k ∈ written_keys plan → f ∈ p_files plan → k ∉ parents (file_key f)) as Hsf.
  { intros k f Hk Hin. apply (separate_parents plan); [done..|].
    do 2 right. by apply list_elem_of_fmap_2. }
  apply io_bind_ok in Ha as (written & w2 & H2 & Ha).
  apply (applyFiles_effect (w_tree w)) in H2 as (T2 & S2 & W2); [|done| |by rewrite T1|].
  2: { intros f f' Hin Hin'. apply Hsf; [|done]. do 2 right. by apply list_elem_of_fmap_2. }
  2: { rewrite T1. eapply Forall_impl; [exact Rf|]. intros f [Hp _]. by apply plain_not_dir. }
  apply io_bind_ok in Ha as (removed & w3 & H3 & Ha).
  apply applyRemovals_effect in H3 as (T3 & S3 & W3); [|rewrite Rs; by apply stale_rel|done].
  apply io_bind_ok in Ha as (updated & w4 & H4 & Ha). inv_io.
  apply (applyManifest_effect plan (w_tree w)) in H4 as (T4 & S4 & W4); [|done|by apply vp_manifest_path|done|].
  2: { rewrite T3, lookup_delete_keys. case_decide; [done|]. rewrite T2, T1.
       apply not_dir_put_files; [|by apply plain_not_dir, Rm]. apply Forall_forall. intros f Hin.
       apply Hsf; [right; by left|done]. }
  split_and!; [|done|].
  - rewrite T4, T3, T2, T1, Rs. done.
  - unfold applied_result. f_equal; [by rewrite W2| |done].
    rewrite W3. apply sort_strings_perm_eq. by rewrite Rs.
Qed.

(** ** The lock is no path of a plan *)

Lemma split_suffix s t b :
  contains_byte t b = false → ∃ x l, split_byte b (s +:+ String b t) = x :: l ++ [t].
Proof.
  intros Ht. induction s as [|c s IH].
  - rewrite str_nil_app. simpl. destruct (ascii_dec b b); [|done].
    assert (split_byte b t = [t]) as ->; [|by exists "", []].
    clear -Ht. induction t as [|c t IH]; [done|]. simpl in *. destruct (ascii_dec c b); [done|]. by rewrite IH.
  - rewrite str_cons_app. simpl. destruct IH as (x & l & ->).
    destruct (ascii_dec c b); [by exists "", (x :: l)|by exists (String c x), l].
Qed.

Lemma path_ext_lock plan : plain_id plan → path_ext (lock_path plan) = ".lock".
Proof.
  intros Hid. rewrite lock_path_join by done. unfold path_ext.
  pose proof (path_split_snoc [".spice"] _ (lock_key_good plan Hid)) as Hp. cbn [app] in Hp.
  unfold lock_key. rewrite Hp. cbn [snd].
  destruct (split_suffix (t_ID (p_target plan)) "lock" "."%char) as (x & l & E); [done|].
  change (t_ID (p_target plan) +:+ ".lock") with (t_ID (p_target plan) +:+ String "."%char "lock").
  rewrite E. destruct (l ++ ["lock"]) eqn:El; [by destruct l|]. rewrite <-El.
  change (x :: l ++ ["lock"]) with ((x :: l) ++ ["lock"]). by rewrite last_snoc.
Qed.

Lemma supported_not_lock plan p :
  plain_id plan → rel_path p → supportedGeneratedExtension p = true →
  comps p ≠ lock_key plan ∧ comps p ∉ parents (lock_key plan).
Proof.
  intros Hid (_ & Hj & _) Hs. split.
  - intros Hk. rewrite Hj, Hk, <-lock_path_join in Hs by done.
    unfold supportedGeneratedExtension in Hs. by rewrite path_ext_lock in Hs.
  - intros Hp%list_elem_of_singleton. by rewrite Hj, Hp in Hs.
Qed.

Lemma valid_extension target f : valid_file target f → supportedGeneratedExtension (f_Path f) = true.
Proof.
  intros (_ & _ & _ & Hc). unfold validateGeneratedContent in Hc. unfold supportedGeneratedExtension.
  case_bool_decide; [done|]. case_bool_decide; done.
Qed.

Lemma prior_owned_extension plan options t p h :
  prior_owned plan options t !! p = Some h → supportedGeneratedExtension p = true.
Proof.
  unfold prior_owned. intros Hp. repeat case_match; try by rewrite lookup_empty in Hp.
  unfold decodeManifest in *. inv_ok.
  match goal with Hl : decodeManifestLoop _ _ _ = Ok ?u |- _ =>
    destruct u; pose proof (decodeManifestLoop_ok _ _ _ Hl) as Hf end.
  eapply owned_relative in Hp as [_ (f & Hin & <- & _)]; [by apply Hf|]. intros f Hin. by apply Hf.
Qed.

(** Two trees that agree but for the lock. *)
Section locked.
Context (plan : Plan) (options : ApplyOptions).
Context (Hid : plain_id plan) (Hvp : valid_plan plan) (Hsep : separate plan).
Notation L := (lock_key plan).

Definition but_lock (t t' : tree) : Prop := ∀ k, k ≠ L → k ∉ parents L → t' !! k = t !! k.

Lemma written_lock k : k ∈ written_keys plan → L ∉ parents k ∧ k ∉ parents L.
Proof. intros Hk. split; apply (separate_parents plan); try done; by left. Qed.

Lemma manifest_written : manifest_key plan ∈ written_keys plan.
Proof. right. by left. Qed.
Lemma file_written f : f ∈ p_files plan → file_key f ∈ written_keys plan.
Proof. intros Hf. do 2 right. by apply list_elem_of_fmap_2. Qed.

Lemma file_not_lock f : f ∈ p_files plan → file_key f ≠ L.
Proof. intros Hf. pose proof (vp_files _ Hvp f Hf) as Hv. apply supported_not_lock; [done|by apply Hv|by eapply valid_extension]. Qed.

Lemma but_lock_differs t t' k c :
  but_lock t t' → k ≠ L → k ∉ parents L → differs t' k c = differs t k c.
Proof. intros Ht ??. unfold differs, file_at. by rewrite Ht. Qed.

Lemma but_lock_owned t t' : but_lock t t' → prior_owned plan options t' = prior_owned plan options t.
Proof.
  intros Ht. unfold prior_owned. change (comps _) with (manifest_key plan).
  rewrite Ht; [done|apply Hsep|apply written_lock, manifest_written].
Qed.

Lemma but_lock_stale t t' : but_lock t t' → stale_paths plan options t' = stale_paths plan options t.
Proof.
  intros Ht. unfold stale_paths. rewrite (but_lock_owned t t') by done. apply filter_ext_in.
  intros p ([q h] & -> & Hq%elem_of_map_to_list)%list_elem_of_fmap. simpl.
  pose proof (prior_owned_rel _ _ _ _ _ Hq). apply prior_owned_extension in Hq.
  destruct (supported_not_lock plan q) as [??]; [done..|]. by rewrite Ht.
Qed.

Lemma but_lock_put_files t t' files u :
  but_lock t t' → Forall (λ f, f ∈ p_files plan) files → put_files t' files u = put_files t files u.
Proof.
  intros Ht Hf. unfold put_files. revert u. induction Hf as [|f files Hin _ IH]; intros u; simpl; [done|].
  rewrite IH. unfold put_changed at 2 4.
  rewrite (but_lock_differs t t') by (done || apply file_not_lock, Hin || apply written_lock, file_written, Hin).
  done.
Qed.

Lemma but_lock_result t t' :
  but_lock t t' → applied_result plan options t' = applied_result plan options t.
Proof.
  intros Ht. destruct (written_lock _ manifest_written) as [Hm Hm']. unfold applied_result.
  rewrite (but_lock_stale t t'), (but_lock_differs t t' (manifest_key plan)) by (done || apply Hsep).
  f_equal. f_equal. f_equal. apply filter_ext_in. intros f Hf.
  rewrite (but_lock_differs t t'); [done|done|by apply file_not_lock|by apply written_lock, file_written].
Qed.

(** What is applied does not depend on the lock, nor change it. *)
Lemma applied_to_lock t t' u e :
  but_lock t t' →
  applied_to plan options t' (<[L:=e]> u) = <[L:=e]> (applied_to plan options t u).
Proof.
  intros Ht. destruct (written_lock _ manifest_written) as [Hm Hm'].
  assert (manifest_key plan ≠ L) as HmL by apply Hsep.
  unfold applied_to. rewrite (but_lock_stale t t'), (but_lock_put_files t t') by (done || by apply Forall_forall).
  rewrite put_files_insert, delete_keys_insert.
  - unfold put_changed. rewrite (but_lock_differs t t') by done.
    destruct (differs _ _ _); [by apply put_file_insert|done].
  - intros (p & Hp & [_ ([q h] & -> & Hq%elem_of_map_to_list)%list_elem_of_fmap]%list_elem_of_filter)%list_elem_of_fmap.
    pose proof (prior_owned_rel _ _ _ _ _ Hq). apply prior_owned_extension in Hq.
    by destruct (supported_not_lock plan q).
  - apply Forall_forall. intros f Hf. split; [by apply not_eq_sym, file_not_lock|by apply written_lock, file_written].
Qed.

Lemma applied_to_no_lock t u : u !! L = None → applied_to plan options t u !! L = None.
Proof.
  intros Hu. destruct (written_lock _ manifest_written) as [Hm Hm']. unfold applied_to.
  rewrite lookup_put_changed_other by (done || apply not_eq_sym, Hsep).
  rewrite lookup_delete_keys. case_decide; [done|]. rewrite lookup_put_files_other; [done|].
  apply Forall_forall. intros f Hf. split; [by apply not_eq_sym, file_not_lock|by apply written_lock, file_written].
Qed.
End locked.

(** The phases of a successful application. *)
Lemma ApplyWithOptions_phases plan options pid w result w' :
  sane (w_tree w) → plain_id plan → separate plan →
  ApplyWithOptions range plan options pid w = ((result, None), w') →
  validatePlan plan = Ok () ∧ w_tree w !! lock_key plan = None ∧
  ∃ w2 w3, w_tree w2 = put_file (lock_key plan) (lock_content plan pid) 384 (w_tree w) ∧ sane (w_tree w2) ∧
    apply_locked range plan options w2 = (Ok result, w3) ∧
    sane (w_tree w3) ∧ w_tree w' = delete (lock_key plan) (w_tree w3).
Proof.
  intros Hs Hid Hsep. unfold ApplyWithOptions.
  set (start := lift (validatePlan plan) ;; _).
  assert (reads start) as Hstart by (unfold start, open_root; eauto 10 with reads).
  specialize (Hstart w). destruct (start w) as [[u|e] w1] eqn:Hst; injection Hstart as T1 _; [|done].
  assert (validatePlan plan = Ok ()) as Hvp.
  { unfold start in Hst. inv_io. by match goal with Hv : validatePlan _ = Ok ?u |- _ => destruct u end. }
  destruct (acquireLock plan pid w1) as [[[]|e] w2] eqn:Hacq; cycle 1.
  { by destruct (sys_close w2) as [[|]]. }
  apply acquire_effect in Hacq as [Hnone Hput]; [|done|rewrite T1; apply Hs]. rewrite T1 in Hnone, Hput.
  pose proof (lock_key_good plan Hid) as Hg.
  assert (sane (w_tree w2)) as S2
    by (by apply (with_file_sane _ _ _ _ _ Hs) in Hput; [|done..|rewrite Hnone]).
  apply with_file_put in Hput.
  destruct (apply_locked range plan options w2) as [[r|e] w3] eqn:Happ;
    destruct (release_lock plan w3) as [[[]|e'] w4] eqn:Hrel;
    destruct (sys_close w4) as [[[]|e''] w5] eqn:Hcl; try done.
  intros [= <- <-]. pose proof (reads_close w4) as V. rewrite Hcl in V. injection V as -> _.
  split_and!; [done..|]. exists w2, w3.
  pose proof Happ as Happ'. apply apply_locked_effect in Happ' as (_ & S3 & _); [|by apply validatePlan_valid|done..].
  split_and!; try done. by apply release_effect.
Qed.

Lemma put_lock_but plan c m t : but_lock plan t (put_file (lock_key plan) c m t).
Proof. intros k ??. by apply lookup_put_file_other. Qed.

Lemma ApplyWithOptions_effect plan options pid w result w' :
  sane (w_tree w) → plain_id plan → separate plan →
  ApplyWithOptions range plan options pid w = ((result, None), w') →
  w_tree w' = applied_tree plan options (w_tree w) ∧ result = applied_result plan options (w_tree w).
Proof.
  intros Hs Hid Hsep Ha. apply ApplyWithOptions_phases in Ha as (Hvp & Hnone & w2 & w3 & T2 & S2 & Ha & _ & ->); [|done..].
  apply validatePlan_valid in Hvp. apply apply_locked_effect in Ha as (T3 & _ & ->); [|done..].
  pose proof (put_lock_but plan (lock_content plan pid) 384 (w_tree w)) as Hbut. rewrite <-T2 in Hbut.
  split; [|by apply but_lock_result].
  rewrite T3. rewrite T2 at 2. unfold put_file. rewrite (applied_to_lock plan options Hid Hvp Hsep _ _ _ _ Hbut).
  apply delete_insert_id, applied_to_no_lock; [done..|].
  rewrite lookup_add_parents, Hnone, decide_False by apply parents_irrefl. done.
Qed.

(** C2. A successful [ApplyWithOptions] does what it promises, where links do not
    interfere.  On a tree of directories and files without any symbolic link, whose
    components are names ([sane]), for a plan whose target identity holds no slash
    ([plain_id]), whose manifest is not the lock and none of whose written paths
    lies below another ([separate]), and with whatever failures the run survived:
    when no error is reported, the tree is exactly the tree before with the changed
    files written (and the directories they need), the files the previous manifest
    owns and the plan no longer has removed, and the manifest of the plan in place;
    nothing else differs, no temporary file, backup or lock is left.  The report
    lists the written and the removed paths in order and whether the manifest was
    written.  Trees with symbolic links are excluded because the contract is
    false there ([GenTheorems.removal_follows_link]): the paths of the plan are
    refused when they pass a link, but a stale file of the previous manifest is
    removed through one.  What holds on any tree is the safety of
    [ApplyWithOptions_protects]. *)
Theorem ApplyWithOptions_refines plan options pid w result w' :
  sane (w_tree w) → plain_id plan → separate plan →
  ApplyWithOptions range plan options pid w = ((result, None), w') →
  w_tree w' = applied_tree plan options (w_tree w) ∧ result = applied_result plan options (w_tree w).
Proof. apply ApplyWithOptions_effect. Qed.
End refine.
