(* ===== verification/GenConverge.v ===== *)
(** After a successful application the generated output is current: the
    inspection of a tree that [GenSpec.applied_tree] describes finds nothing to
    report.  First what a successful search for unexpected generated files has
    looked at, then the same search run forward in a world without faults. *)
From S2P Require Import Prelude GoSort GoStrings Sha256 GenPlan GoRoot GoPath GenFs GenSafety GenProtect GenEffect GenSpec GenRefine.

(** ** Paths in a tree without links *)

Lemma comps_dir_path ds : Forall good_name ds → comps (dir_path ds) = ds.
Proof. unfold dir_path. intros Hg. case_decide as Hd; [by subst|by apply comps_join]. Qed.

Lemma resolve_linkless t links follow cur parts :
  linkless t → Forall good_name parts →
  (∀ i, 0 < i < length parts → t !! (cur ++ take i parts) = Some EDir) →
  resolve links follow t cur parts = Ok (cur ++ parts).
Proof.
  intros Hl Hg. revert cur. induction Hg as [|part rest (_ & _ & Hdd & _) Hg IH]; intros cur Hd.
  - destruct links; simpl; by rewrite app_nil_r.
  - assert (rest ≠ [] → t !! (cur ++ [part]) = Some EDir) as H1.
    { intros Hr. apply (Hd 1). destruct rest; [done|]. simpl. lia. }
    assert (resolve links follow t (cur ++ [part]) rest = Ok (cur ++ part :: rest)) as H2.
    { rewrite IH; [by rewrite <-app_assoc|]. intros i Hi. specialize (Hd (S i)).
      rewrite <-app_assoc. apply Hd. simpl. lia. }
    destruct links; simpl; rewrite decide_False by done;
      (destruct rest as [|part' rest];
        [destruct follow; [|done]; destruct (t !! (cur ++ [part])) as [[| |l|]|] eqn:E;
           cbn [andb negb]; rewrite ?app_nil_r; try done; by apply Hl in E
        |cbn [andb negb]; by rewrite (H1 ltac:(done))]).
Qed.

(** On the way to [ks], and there, are directories as far as there is anything. *)
Definition open_dir (t : tree) (ks : key) : Prop :=
  ∀ i, 0 < i ≤ length ks → t !! take i ks = Some EDir ∨ t !! take i ks = None.

Lemma locate_there w follow p ks e :
  sane (w_tree w) → comps p = ks → Forall good_name ks → entry_at (w_tree w) ks = Some e →
  locate w follow p = Ok ks.
Proof.
  intros [Hwf Hl _] <- Hg He. unfold locate. rewrite resolve_linkless; [done..|].
  intros i Hi. simpl. destruct (comps p) as [|c ks] eqn:E; [simpl in Hi; lia|]. rewrite <-E in *.
  rewrite entry_at_ne in He by (by rewrite E). destruct (Hwf _ _ He) as [_ Hd].
  specialize (Hd i ltac:(lia)). rewrite entry_at_ne in Hd; [done|]. rewrite E.
  destruct i; [lia|done].
Qed.

Lemma resolve_open t links follow cur parts :
  linkless t → Forall good_name parts →
  (∀ i, 0 < i ≤ length parts → t !! (cur ++ take i parts) = Some EDir ∨ t !! (cur ++ take i parts) = None) →
  resolve links follow t cur parts = Ok (cur ++ parts) ∨ resolve links follow t cur parts = Fail ErrNotExist.
Proof.
  intros Hl Hg. revert cur. induction Hg as [|part rest (_ & _ & Hdd & _) Hg IH]; intros cur Hd.
  - left. destruct links; simpl; by rewrite app_nil_r.
  - assert (t !! (cur ++ [part]) = Some EDir ∨ t !! (cur ++ [part]) = None) as H1
      by (apply (Hd 1); simpl; lia).
    assert (resolve links follow t (cur ++ [part]) rest = Ok (cur ++ part :: rest) ∨
      resolve links follow t (cur ++ [part]) rest = Fail ErrNotExist) as H2.
    { rewrite (cons_snoc_app part cur rest). apply IH. intros i Hi. specialize (Hd (S i)).
      rewrite <-app_assoc. apply Hd. simpl. lia. }
    destruct links; simpl; rewrite decide_False by done;
      destruct (_ && negb follow) eqn:Ef; try (left; by destruct rest);
      destruct H1 as [-> | ->]; try done; destruct rest; auto.
Qed.

(** The converse: what a path that leads to a directory or to nothing means. *)
Lemma resolve_open_inv t links follow cur parts :
  linkless t → well_formed t → Forall good_name parts →
  match resolve links follow t cur parts with
  | Ok k => entry_at t k = Some EDir ∨ entry_at t k = None
  | Fail e => is_not_exist e = true
  end →
  ∀ i, 0 < i ≤ length parts → t !! (cur ++ take i parts) = Some EDir ∨ t !! (cur ++ take i parts) = None.
Proof.
  intros Hl Hwf Hg. revert cur. induction Hg as [|part rest (_ & _ & Hdd & _) Hg IH]; intros cur Hr i Hi.
  { simpl in Hi. lia. }
  assert (cur ++ [part] ≠ []) as Hne by by destruct cur.
  assert (t !! (cur ++ [part]) = Some EDir ∨ t !! (cur ++ [part]) = None) as H1.
  { destruct links; simpl in Hr; rewrite decide_False in Hr by done;
      (destruct rest; destruct follow; cbn [andb negb] in Hr;
       rewrite ?entry_at_ne in Hr by done; try done;
       destruct (t !! (cur ++ [part])) as [[| |l|]|] eqn:E; auto; try (by apply Hl in E);
       rewrite ?entry_at_ne, ?E in Hr by done; naive_solver). }
  destruct i as [|[|i]]; [lia|exact H1|].
  change (take (S (S i)) (part :: rest)) with (part :: take (S i) rest).
  rewrite (cons_snoc_app part cur). destruct H1 as [H1|H1]; cycle 1.
  { right. destruct (t !! ((cur ++ [part]) ++ take (S i) rest)) as [e|] eqn:E; [|done].
    destruct (Hwf _ _ E) as [_ Hd]. specialize (Hd (length (cur ++ [part]))).
    rewrite take_app_length, entry_at_ne, H1 in Hd by done. discriminate Hd.
    rewrite (length_app (cur ++ [part])), length_take. simpl in Hi. lia. }
  apply IH; [|simpl in Hi; lia].
  destruct rest as [|part' rest]; [simpl in Hi; lia|].
  destruct links; simpl in Hr; rewrite decide_False, H1 in Hr by done; exact Hr.
Qed.

Lemma open_dir_located w follow p ks :
  sane (w_tree w) → comps p = ks → Forall good_name ks →
  match locate w follow p with
  | Ok k => entry_at (w_tree w) k = Some EDir ∨ entry_at (w_tree w) k = None
  | Fail e => is_not_exist e = true
  end → open_dir (w_tree w) ks.
Proof. intros [Hwf Hl _] <- Hg Hr i Hi. by eapply (resolve_open_inv _ _ _ [] (comps p)). Qed.

Lemma open_dir_cases w follow p ks :
  sane (w_tree w) → comps p = ks → Forall good_name ks → open_dir (w_tree w) ks →
  (locate w follow p = Ok ks ∧ entry_at (w_tree w) ks = Some EDir) ∨
  (entry_at (w_tree w) ks = None ∧ (locate w follow p = Ok ks ∨ locate w follow p = Fail ErrNotExist)).
Proof.
  intros Hs Hc Hg Ho. destruct (entry_at (w_tree w) ks) as [e|] eqn:He.
  - left. split; [by eapply locate_there|]. destruct ks as [|x ks]; [done|].
    destruct (Ho (length (x :: ks))) as [Hd|Hd]; [simpl; lia|rewrite take_ge in Hd by done; simpl in He; congruence..].
  - right. split; [done|]. unfold locate. rewrite Hc.
    destruct (resolve_open (w_tree w) (w_links w) follow [] ks) as [Hr|Hr]; [apply Hs|done|done| |]; auto.
Qed.

(** ** Directories *)

Definition dir_entries (t : tree) (ds : key) : list (string * entry) :=
  omap (λ name, pair name <$> t !! (ds ++ [name])) (children t ds).

Lemma child_of_spec d k n : child_of d k = Some n ↔ k = d ++ [n].
Proof.
  revert k. induction d as [|x d IH]; intros k; simpl.
  - destruct k as [|y [|z k]]; naive_solver.
  - destruct k as [|y k]; [naive_solver|]. case_decide; [rewrite IH|]; naive_solver.
Qed.

Lemma elem_of_dir_entries t ds n e : (n, e) ∈ dir_entries t ds ↔ t !! (ds ++ [n]) = Some e.
Proof.
  unfold dir_entries. rewrite list_elem_of_omap. split.
  - intros (n' & _ & Hn). destruct (t !! (ds ++ [n'])) eqn:E; simplify_eq/=. done.
  - intros He. exists n. rewrite He. split; [|done]. unfold children. apply elem_of_sort_strings.
    apply list_elem_of_omap. exists (ds ++ [n], e). split; [by apply elem_of_map_to_list|].
    by apply child_of_spec.
Qed.

Lemma read_dir_seen ds w es w' :
  read_dir (dir_path ds) w = (Ok es, w') → sane (w_tree w) → Forall good_name ds →
  w_tree w' = w_tree w ∧ entry_at (w_tree w) ds = Some EDir ∧ es = dir_entries (w_tree w) ds.
Proof.
  intros Hr Hs Hg. pose proof (reads_read_dir (dir_path ds) w) as V. rewrite Hr in V. injection V as V _.
  split; [done|]. apply syscall_ok in Hr as (w1 & V1 & Hr). injection Hr as Hr _.
  rewrite (view_locate w1 w) in Hr by done. injection V1 as T1 _. rewrite T1 in Hr. clear T1.
  assert (entry_at (w_tree w) ds = Some EDir) as Hd.
  { assert (open_dir (w_tree w) ds) as Ho.
    { apply (open_dir_located w true (dir_path ds)); [done|by apply comps_dir_path|done|].
      destruct (locate w true (dir_path ds)) as [k|e]; simpl in Hr; [|done].
      destruct (entry_at (w_tree w) k) as [[]|]; naive_solver. }
    apply (open_dir_cases w true (dir_path ds)) in Ho as [[_ ?]|[Hn [Hk|Hk]]];
      [done..| | |done|by apply comps_dir_path|done]; rewrite Hk in Hr; simpl in Hr; rewrite ?Hn in Hr; done. }
  split; [done|]. erewrite locate_there in Hr; [|done|by apply comps_dir_path|done|exact Hd].
  simpl in Hr. rewrite Hd in Hr. by injection Hr as <-.
Qed.

(** ** What a walk has visited *)

Section visits.
Context {S : Type} (R : S → S → Prop) `{!PreOrder R} (fn : S → string → entry → io S).
Context (fn_reads : ∀ s p e, reads (fn s p e)).
Context (fn_moves : ∀ s p e w s' w', fn s p e w = (Ok s', w') → R s s').

(** [fn] was called for the entry [e] at [p] between the states [s] and [s']. *)
Definition called (t : tree) (s s' : S) (p : string) (e : entry) : Prop :=
  ∃ sa wa sb wb, w_tree wa = t ∧ fn sa p e wa = (Ok sb, wb) ∧ R s sa ∧ R sb s'.

Lemma walk_visits fuel ds s e w s' w' ks e' :
  walk fuel fn s (dir_path ds) e w = (Ok s', w') → sane (w_tree w) → Forall good_name (ds ++ ks) →
  entry_at (w_tree w) (ds ++ ks) = Some e' → (ks = [] → e' = e) → (ks ≠ [] → e = EDir) →
  called (w_tree w) s s' (dir_path (ds ++ ks)) e'.
Proof.
  revert ds s e w s' w' ks. induction fuel as [|fuel IH]; intros ds s e w s' w' ks Hw Hs Hg He Hnil Hdir; [done|].
  simpl in Hw. apply io_bind_ok in Hw as (s1 & w1 & H1 & Hw).
  pose proof (fn_reads s (dir_path ds) e w) as V. rewrite H1 in V. injection V as T1 _.
  destruct ks as [|n ks].
  { rewrite Hnil, app_nil_r by done. exists s, w, s1, w1. split_and!; [done|done|done|].
    destruct e; inv_io; try reflexivity. eapply (fold_moves R); [|done].
    intros s2 [m y] w2 s3 w3. by apply (walk_moves R). }
  rewrite Hdir in Hw by done. clear Hnil Hdir. rewrite cons_snoc_app in *. pose proof Hg as [Hg1 Hg2]%Forall_app.
  pose proof Hg1 as [Hgd Hgn]%Forall_app.
  apply io_bind_ok in Hw as (es & w2 & Hrd & Hw).
  apply read_dir_seen in Hrd as (T2 & _ & ->); [|by rewrite T1|done].
  assert (∃ x, w_tree w !! (ds ++ [n]) = Some x ∧ (ks = [] → e' = x) ∧ (ks ≠ [] → x = EDir)) as (x & Hx & Hx1 & Hx2).
  { destruct ks as [|k ks].
    - rewrite app_nil_r, entry_at_ne in He by by destruct ds. by exists e'.
    - exists EDir. split_and!; [|done|done]. rewrite entry_at_ne in He by by destruct ds.
      destruct (sane_wf _ Hs _ _ He) as [_ Hd]. specialize (Hd (length (ds ++ [n]))).
      rewrite take_app_length, entry_at_ne in Hd by by destruct ds. apply Hd.
      rewrite (length_app (ds ++ [n])). simpl. lia. }
  assert ((n, x) ∈ dir_entries (w_tree w1) ds) as Hin by by rewrite elem_of_dir_entries, T1.
  eapply (fold_io_visits R) in Hw as [_ Hv]; [| |]; cycle 1.
  { intros s2 y. by apply reads_walk. }
  { intros s2 [m y] w3 s3 w4. by apply (walk_moves R). }
  destruct (Hv _ Hin) as (sa & wa & sb & wb & Va & Hc & Ha & Hb). injection Va as Ta _. simpl in Hc.
  rewrite path_join_dir in Hc by done.
  assert (join (ds ++ [n]) "/" = dir_path (ds ++ [n])) as Hj
    by (unfold dir_path; rewrite decide_False; [done|by destruct ds]).
  rewrite Hj in Hc. assert (w_tree wa = w_tree w) as Tw by congruence.
  eapply IH in Hc as (sa' & wa' & sb' & wb' & Ta' & Hc' & Ha' & Hb'); [|by rewrite Tw|done|by rewrite Tw|done..].
  exists sa', wa', sb', wb'. split_and!; [congruence|done| |by etrans].
  etrans; [by eapply fn_moves|]. by etrans.
Qed.
End visits.

(** ** The search for unexpected generated files *)

Section search.
Context `{UnicodeTables} `{GenLibraries}.

Definition data_of (e : entry) : option string :=
  match e with EFile c _ => Some c | EOther c => Some c | _ => None end.

(** An entry the search has no complaint about. *)
Definition harmless (s : inspection) (p : string) (e : entry) : Prop :=
  ∀ c, data_of e = Some c → path_ext p = ".go" → expected s !! p = None → owned s !! p = None →
    hasGeneratedMarker c = false.

Definition deep (t : tree) (ds : key) (P : string → entry → Prop) : Prop :=
  open_dir t ds ∧ ∀ ks e, t !! (ds ++ ks) = Some e → P (dir_path (ds ++ ks)) e.
Definition flat (t : tree) (ds : key) (P : string → entry → Prop) : Prop :=
  open_dir t ds ∧ ∀ n e, t !! (ds ++ [n]) = Some e → P (dir_path (ds ++ [n])) e.

Lemma read_file_data ks w c w' e :
  read_file (dir_path ks) w = (Ok c, w') → sane (w_tree w) → Forall good_name ks →
  entry_at (w_tree w) ks = Some e → data_of e = Some c.
Proof.
  intros (w1 & V & Hr)%syscall_ok Hs Hg He. injection Hr as Hr _.
  rewrite (view_locate w1 w) in Hr by done. injection V as T _.
  erewrite locate_there in Hr; [|done|by apply comps_dir_path|done|exact He].
  simpl in Hr. rewrite T, He in Hr. by destruct e; simplify_eq/=.
Qed.

(** A state of the search and a later one. *)
Definition later (s s' : inspection) : Prop := settled_stale s s' ∧ grows s s'.
#[export] Instance later_preorder : PreOrder later.
Proof. split; [by intros s; split|]. intros x y z [??] [??]. split; by etrans. Qed.

Lemma entry_later s p e w s' w' : inspectUnexpectedGeneratedEntry s p e w = (Ok s', w') → later s s'.
Proof. intros Hi. split; [by eapply entry_settled|by eapply entry_grows]. Qed.

Lemma entry_harmless ks e s w s' w' :
  inspectUnexpectedGeneratedEntry s (dir_path ks) e w = (Ok s', w') → sane (w_tree w) →
  Forall good_name ks → entry_at (w_tree w) ks = Some e → unprotected s' → harmless s (dir_path ks) e.
Proof.
  intros Hi Hs Hg He Hu c Hc Hext Hex Hown. unfold inspectUnexpectedGeneratedEntry in Hi.
  rewrite Hex, Hown, bool_decide_eq_true_2 in Hi by done.
  assert (∃ c', data_of e = Some c' ∧ (hasGeneratedMarker c' = true → False)) as (c' & Hc' & Hm).
  { destruct e; simplify_eq/=.
    all: apply io_bind_ok in Hi as (c' & w1 & Hr & Hi); eapply read_file_data in Hr; [|done..|exact He].
    all: eexists; split; [done|]; intros Hm; simpl in Hr; simplify_eq/=; rewrite Hm in Hi; simpl in Hi; inv_io.
    all: assert (protected_kind DifferenceUnexpectedGenerated = false); [|done].
    all: eapply (Hu {| d_Kind := DifferenceUnexpectedGenerated |}); simpl; apply elem_of_app; right; by left. }
  assert (c' = c) as -> by congruence. destruct (hasGeneratedMarker c); naive_solver.
Qed.

Lemma harmless_later s s' p e : settled s s' → harmless s' p e → harmless s p e.
Proof. intros (He & Ho & _) Hh. unfold harmless. by rewrite <-He, <-Ho. Qed.

Lemma unprotected_later s s' : grows s s' → unprotected s' → unprotected s.
Proof. intros [_ Hg] Hu d Hd. by apply Hu, Hg. Qed.

Lemma called_harmless t s s' ks e :
  called later inspectUnexpectedGeneratedEntry t s s' (dir_path ks) e → sane t → Forall good_name ks →
  entry_at t ks = Some e → unprotected s' → harmless s (dir_path ks) e.
Proof.
  intros (sa & wa & sb & wb & T & Hc & [[Ha _] _] & [_ Hb]) Hs Hg He Hu.
  eapply harmless_later; [exact Ha|]. eapply entry_harmless; [exact Hc|by rewrite T|done|by rewrite T|].
  by eapply unprotected_later.
Qed.

Lemma output_searched ds s w s' w' :
  inspectUnexpectedGeneratedOutput s (dir_path ds) w = (Ok s', w') → sane (w_tree w) →
  Forall good_name ds → unprotected s' → deep (w_tree w) ds (harmless s).
Proof.
  intros Hi Hs Hg Hu. unfold inspectUnexpectedGeneratedOutput in Hi.
  apply attempt_bind in Hi as (r & w1 & Hl & Hi).
  pose proof (reads_lstat (dir_path ds) w) as V. rewrite Hl in V. injection V as T1 _.
  assert (open_dir (w_tree w) ds) as Ho.
  { apply (open_dir_located w false (dir_path ds)); [done|by apply comps_dir_path|done|].
    destruct r as [e|e].
    - apply lstat_ok in Hl as [_ (k & -> & ->)]. destruct e; auto; done.
    - destruct (is_not_exist e) eqn:En; [|done]. apply lstat_absent in Hl as [_ Ha]; [|done].
      unfold absent in Ha. destruct (locate w false (dir_path ds)); auto. }
  split; [done|]. intros ks e He.
  assert (Forall good_name (ds ++ ks)) as Hgk by by eapply sane_named.
  assert (ds ++ ks ≠ []) as Hne by by apply (sane_wf _ Hs) in He as [? _].
  assert (entry_at (w_tree w) ds = Some EDir ∨ ks = []) as Hd.
  { destruct ks as [|k ks]; [by right|left]. destruct (sane_wf _ Hs _ _ He) as [_ Hd].
    specialize (Hd (length ds)). rewrite take_app_length in Hd. apply Hd. rewrite length_app. simpl. lia. }
  assert (∀ c, data_of e = Some c → ks ≠ []) as Hdat.
  { intros c Hc ->. rewrite app_nil_r in *.
    apply (open_dir_cases w false (dir_path ds)) in Ho as [[_ Hx]|[Hx _]];
      [..|done|by apply comps_dir_path|done]; rewrite entry_at_ne, He in Hx by done; by simplify_eq. }
  intros c Hc. assert (ks ≠ []) as Hks by by eapply Hdat. destruct Hd as [Hd|]; [|done].
  destruct r as [x|x]; cycle 1.
  { exfalso. destruct (is_not_exist x) eqn:En; [|done]. apply lstat_absent in Hl as [_ Ha]; [|done].
    unfold absent in Ha. erewrite locate_there in Ha; [|done|by apply comps_dir_path|done|exact Hd]. congruence. }
  apply lstat_ok in Hl as [_ (k & Hk & Hx)].
  erewrite locate_there in Hk; [|done|by apply comps_dir_path|done|exact Hd]. injection Hk as <-. rewrite Hd in Hx. injection Hx as <-.
  unfold walk_dir in Hi. apply io_bind_ok in Hi as (x & w2 & Hst & Hi).
  pose proof (reads_stat (dir_path ds) w1) as V. rewrite Hst in V. injection V as T2 _.
  assert (x = EDir) as ->.
  { apply syscall_ok in Hst as (w3 & V & Hst). injection Hst as Hst _. rewrite (view_locate w3 w1) in Hst by done.
    injection V as T3 _. erewrite locate_there in Hst; [|by rewrite T1|by apply comps_dir_path|done|by rewrite T1].
    simpl in Hst. rewrite T3, T1, Hd in Hst. by simplify_eq. }
  assert (w_tree w2 = w_tree w) as T by congruence.
  eapply (walk_visits later) in Hi; [..|by rewrite T|exact Hgk|rewrite entry_at_ne, T by done; exact He|done|done].
  - rewrite T in Hi. eapply (called_harmless _ _ _ _ _ Hi); [done|done|by rewrite entry_at_ne|done|done].
  - intros. apply reads_entry.
  - apply entry_later.
Qed.

Lemma directory_searched ds s w s' w' :
  inspectUnexpectedGeneratedDirectory s (dir_path ds) w = (Ok s', w') → sane (w_tree w) →
  Forall good_name ds → unprotected s' → flat (w_tree w) ds (harmless s).
Proof.
  intros Hi Hs Hg Hu. unfold inspectUnexpectedGeneratedDirectory in Hi.
  apply attempt_bind in Hi as (r & w1 & Hl & Hi). destruct r as [es|e].
  - apply read_dir_seen in Hl as (T1 & Hd & ->); [|done..]. split.
    + apply (open_dir_located w false (dir_path ds)); [done|by apply comps_dir_path|done|].
      erewrite locate_there; [|done|by apply comps_dir_path|done|exact Hd]. auto.
    + intros n e He. assert (Forall good_name (ds ++ [n])) as Hgk by by eapply sane_named.
      eapply (fold_io_visits later) in Hi as [_ Hv]; [|intros ? []; apply reads_entry|intros ? []; apply entry_later].
      apply elem_of_dir_entries in He as Hin.
      destruct (Hv _ Hin) as (sa & wa & sb & wb & Va & Hc & Ha & Hb). injection Va as Ta _. simpl in Hc.
      rewrite path_join_dir in Hc by done.
      assert (join (ds ++ [n]) "/" = dir_path (ds ++ [n])) as Hj
        by (unfold dir_path; rewrite decide_False; [done|by destruct ds]).
      rewrite Hj in Hc. apply (called_harmless (w_tree w) s s'); try done.
      * exists sa, wa, sb, wb. split_and!; [congruence|done..].
      * rewrite entry_at_ne; [done|by destruct ds].
  - destruct (is_not_exist e) eqn:En; [|done].
    assert (open_dir (w_tree w) ds ∧ entry_at (w_tree w) ds = None) as [Ho Hn].
    { apply (syscall_sentinel _ _ _ _ "file does not exist") in Hl as (w2 & V & Hl); [|done].
      injection Hl as Hl _. rewrite (view_locate w2 w) in Hl by done. injection V as T2 _. rewrite T2 in Hl.
      assert (open_dir (w_tree w) ds) as Ho.
      { apply (open_dir_located w true (dir_path ds)); [done|by apply comps_dir_path|done|].
        destruct (locate w true (dir_path ds)) as [k|]; simpl in Hl; [|congruence].
        destruct (entry_at (w_tree w) k) as [[]|]; simplify_eq/=; auto. }
      split; [done|]. apply (open_dir_cases w true (dir_path ds)) in Ho as [[Hk Hd]|[Hn _]];
        [|done|done|by apply comps_dir_path|done].
      rewrite Hk in Hl. simpl in Hl. rewrite Hd in Hl. done. }
    split; [done|]. intros n x Hx. exfalso. destruct (sane_wf _ Hs _ _ Hx) as [_ Hd].
    specialize (Hd (length ds)). rewrite take_app_length, Hn in Hd. rewrite length_app in Hd. simpl in Hd.
    discriminate Hd. lia.
Qed.
End search.

(** ** The search in a world without faults *)

Definition quiet (w : world) : Prop := w_faults w = [].

Lemma syscall_quiet {A} (m : io A) w : quiet w → syscall m w = m w.
Proof. unfold quiet, syscall, mbind, io_bind, tick. by intros ->. Qed.

(** [x ← m; k x] when the outcome of [m] is known. *)
Lemma bind_eq {A B} (m : io A) (k : A → io B) w a : m w = (Ok a, w) → (m ≫= k) w = k a w.
Proof. unfold mbind, io_bind. by intros ->. Qed.
Lemma attempt_eq {A B} (m : io A) (k : outcome error A → io B) w r :
  m w = (r, w) → (attempt m ≫= k) w = k r w.
Proof. unfold mbind, io_bind, attempt. by intros ->. Qed.

Lemma fold_io_still {A S} (f : S → A → io S) s l w :
  (∀ x, x ∈ l → f s x w = (Ok s, w)) → fold_io f s l w = (Ok s, w).
Proof.
  induction l as [|x l IH]; intros Hf; simpl; [done|]. rewrite (bind_eq _ _ _ s) by (apply Hf; by left).
  apply IH. intros y Hy. apply Hf. by right.
Qed.

Lemma depth_bound t k e : t !! k = Some e → length k ≤ depth t.
Proof.
  unfold depth. revert t. apply (map_fold_weak_ind (λ n t, t !! k = Some e → length k ≤ n)).
  - by rewrite lookup_empty.
  - intros k' x t n _ IH. destruct (decide (k = k')) as [->|Hk]; [lia|].
    rewrite lookup_insert_ne by done. intros Ht. specialize (IH Ht). lia.
Qed.

Section forward.
Context (w : world) (Hq : quiet w) (Hs : sane (w_tree w)).

Lemma lstat_there_eq p ks e :
  comps p = ks → Forall good_name ks → entry_at (w_tree w) ks = Some e → lstat p w = (Ok e, w).
Proof.
  intros Hc Hg He. unfold lstat. rewrite syscall_quiet by done.
  rewrite (locate_there w false p ks e) by done. simpl. by rewrite He.
Qed.

Lemma stat_there_eq p ks e :
  comps p = ks → Forall good_name ks → entry_at (w_tree w) ks = Some e → stat p w = (Ok e, w).
Proof.
  intros Hc Hg He. unfold stat. rewrite syscall_quiet by done.
  rewrite (locate_there w true p ks e) by done. simpl. by rewrite He.
Qed.

Lemma read_file_eq p ks e c :
  comps p = ks → Forall good_name ks → entry_at (w_tree w) ks = Some e → data_of e = Some c →
  read_file p w = (Ok c, w).
Proof.
  intros Hc Hg He Hd. unfold read_file. rewrite syscall_quiet by done.
  rewrite (locate_there w true p ks e) by done. simpl. rewrite He. destruct e; by simplify_eq/=.
Qed.

Lemma lstat_gone_eq p ks :
  comps p = ks → Forall good_name ks → open_dir (w_tree w) ks → entry_at (w_tree w) ks = None →
  lstat p w = (Fail ErrNotExist, w).
Proof.
  intros Hc Hg Ho Hn. unfold lstat. rewrite syscall_quiet by done.
  apply (open_dir_cases w false p) in Ho as [[_ ?]|[_ [-> | ->]]]; [congruence| |done..].
  simpl. by rewrite Hn.
Qed.

Lemma read_dir_eq ds :
  Forall good_name ds → entry_at (w_tree w) ds = Some EDir →
  read_dir (dir_path ds) w = (Ok (dir_entries (w_tree w) ds), w).
Proof.
  intros Hg He. unfold read_dir. rewrite syscall_quiet by done.
  rewrite (locate_there w true (dir_path ds) ds EDir) by (done || by apply comps_dir_path). simpl. by rewrite He.
Qed.

Lemma read_dir_gone_eq ds :
  Forall good_name ds → open_dir (w_tree w) ds → entry_at (w_tree w) ds = None →
  read_dir (dir_path ds) w = (Fail ErrNotExist, w).
Proof.
  intros Hg Ho Hn. unfold read_dir. rewrite syscall_quiet by done.
  apply (open_dir_cases w true (dir_path ds)) in Ho as [[_ ?]|[_ [-> | ->]]];
    [congruence| |done|done|by apply comps_dir_path|done]. simpl. by rewrite Hn.
Qed.

Lemma dir_path_snoc ds n : Forall good_name (ds ++ [n]) → path_join [dir_path ds; n] = dir_path (ds ++ [n]).
Proof. intros Hg. rewrite path_join_dir by done. unfold dir_path. rewrite decide_False; [done|by destruct ds]. Qed.

Lemma walk_still {S} (fn : S → string → entry → io S) s fuel ds e :
  (∀ ks e, w_tree w !! (ds ++ ks) = Some e → fn s (dir_path (ds ++ ks)) e w = (Ok s, w)) →
  fn s (dir_path ds) e w = (Ok s, w) →
  Forall good_name ds → entry_at (w_tree w) ds = Some e → depth (w_tree w) < fuel + length ds →
  walk (Datatypes.S fuel) fn s (dir_path ds) e w = (Ok s, w).
Proof.
  revert ds e. induction fuel as [|fuel IH]; intros ds e Hfn H0 Hg He Hf; cbn [walk].
  all: rewrite (bind_eq _ _ _ s) by done; destruct e; try done.
  all: rewrite (bind_eq _ _ _ (dir_entries (w_tree w) ds)) by by apply read_dir_eq.
  - apply fold_io_still. intros [n x] Hx%elem_of_dir_entries%depth_bound. rewrite length_app in Hx. simpl in *. lia.
  - apply fold_io_still. intros [n x] Hx%elem_of_dir_entries. cbn [fst snd].
    assert (Forall good_name (ds ++ [n])) as Hgn by by eapply sane_named.
    rewrite dir_path_snoc by done. apply IH; [|by apply Hfn|done| |].
    + intros ks y. rewrite <-app_assoc. apply Hfn.
    + rewrite entry_at_ne; [done|by destruct ds].
    + rewrite length_app. simpl. lia.
Qed.

Section still.
Context `{UnicodeTables} `{GenLibraries}.

Lemma entry_still s ks e :
  harmless s (dir_path ks) e → Forall good_name ks → entry_at (w_tree w) ks = Some e →
  inspectUnexpectedGeneratedEntry s (dir_path ks) e w = (Ok s, w).
Proof.
  intros Hh Hg He. unfold inspectUnexpectedGeneratedEntry.
  assert (∀ l, e ≠ ELink l) as Hl.
  { intros l ->. destruct ks; [done|]. by eapply (sane_linkless _ Hs). }
  assert (∀ c, data_of e = Some c → (if negb (bool_decide (path_ext (dir_path ks) = ".go")) then mret s
    else match expected s !! dir_path ks, owned s !! dir_path ks with
      | Some _, _ | None, Some _ => mret s
      | None, None =>
          content ← read_file (dir_path ks);
          if negb (hasGeneratedMarker content) then mret s
          else mret (add_difference {| d_Kind := DifferenceUnexpectedGenerated; d_Path := dir_path ks;
              d_CurrentSHA256 := hashContent content; d_ExpectedSHA256 := "";
              d_Message := "generated marker exists without manifest ownership" |}
              (set_current (dir_path ks) content s))
      end) w = (Ok s, w)) as Hdat.
  { intros c Hc. case_bool_decide as Hext; [|done]. cbn [negb].
    destruct (expected s !! dir_path ks) eqn:Hex; [done|]. destruct (owned s !! dir_path ks) eqn:Ho; [done|].
    rewrite (bind_eq _ _ _ c) by (eapply read_file_eq; [by apply comps_dir_path|done|exact He|done]).
    by rewrite (Hh c Hc Hext Hex Ho). }
  destruct e; [done|by eapply Hdat|by destruct (Hl target)|by eapply Hdat].
Qed.

Lemma output_still s ds :
  deep (w_tree w) ds (harmless s) → Forall good_name ds →
  inspectUnexpectedGeneratedOutput s (dir_path ds) w = (Ok s, w).
Proof.
  intros [Ho Hd] Hg. unfold inspectUnexpectedGeneratedOutput.
  destruct (open_dir_cases w false (dir_path ds) ds) as [[_ He]|[Hn _]]; [done|by apply comps_dir_path|done..| |].
  - rewrite (attempt_eq _ _ _ (Ok EDir)) by (by eapply lstat_there_eq; [apply comps_dir_path| |]).
    unfold walk_dir. rewrite (bind_eq _ _ _ EDir) by (by eapply stat_there_eq; [apply comps_dir_path| |]).
    apply walk_still; [|done|done|done|lia]. intros ks e Hx. apply entry_still.
    + by apply Hd.
    + by eapply sane_named.
    + rewrite entry_at_ne; [done|]. by apply (sane_wf _ Hs) in Hx as [? _].
  - rewrite (attempt_eq _ _ _ (Fail ErrNotExist)); [done|]. by eapply lstat_gone_eq; [apply comps_dir_path| | |].
Qed.

Lemma directory_still s ds :
  flat (w_tree w) ds (harmless s) → Forall good_name ds →
  inspectUnexpectedGeneratedDirectory s (dir_path ds) w = (Ok s, w).
Proof.
  intros [Ho Hd] Hg. unfold inspectUnexpectedGeneratedDirectory.
  destruct (open_dir_cases w true (dir_path ds) ds) as [[_ He]|[Hn _]]; [done|by apply comps_dir_path|done..| |].
  - rewrite (attempt_eq _ _ _ (Ok (dir_entries (w_tree w) ds))) by by apply read_dir_eq.
    apply fold_io_still. intros [n x] Hx%elem_of_dir_entries. cbn [fst snd].
    assert (Forall good_name (ds ++ [n])) as Hgn by by eapply sane_named.
    rewrite dir_path_snoc by done. apply entry_still; [by apply Hd|done|]. rewrite entry_at_ne; [done|by destruct ds].
  - rewrite (attempt_eq _ _ _ (Fail ErrNotExist)); [done|]. by apply read_dir_gone_eq.
Qed.
End still.
End forward.
