(* ===== verification/GenFixpoint.v ===== *)
(** [Check] after a successful [ApplyWithOptions]: the applied tree is what the
    plan expects, the manifest just written is accepted, the inspection run
    forward on that tree reports no difference, and applying again changes
    nothing. *)
From S2P Require Import Prelude GoSort GoStrings Sha256 GenPlan GoRoot GoPath GenFs GenSafety GenProtect GenEffect GenSpec GenRefine GenConverge.

Section current.
Context `{UnicodeTables} `{GenLibraries}.

(** ** The applied tree *)

Lemma put_changed_entries t0 k c m t k' e :
  put_changed t0 k c m t !! k' = Some e → k' = k ∨ e = EDir ∨ t !! k' = Some e.
Proof.
  unfold put_changed. destruct (differs _ _ _); [|auto]. rewrite lookup_put_file.
  case_decide; [by left|]. rewrite lookup_add_parents.
  destruct (t !! k'); [naive_solver|]. case_decide; naive_solver.
Qed.

Lemma put_files_entries t0 files t k e :
  put_files t0 files t !! k = Some e → k ∈ file_key <$> files ∨ e = EDir ∨ t !! k = Some e.
Proof.
  unfold put_files. revert t. induction files as [|f files IH]; intros t; simpl; [auto|].
  intros [Hk|[He|Hk]]%IH; [left; by right|auto|].
  apply put_changed_entries in Hk as [->|[?|?]]; [left; by left|auto..].
Qed.

(** Every entry of the applied tree is a path of the plan, a directory, or was
    there and is not stale. *)
Lemma applied_entries plan options t k e :
  applied_tree plan options t !! k = Some e →
  k ∈ comps <$> expected_paths plan ∨ e = EDir ∨
  (t !! k = Some e ∧ k ∉ comps <$> stale_paths plan options t).
Proof.
  unfold applied_tree, applied_to, expected_paths. rewrite fmap_cons.
  intros [->|[?|Hk]]%put_changed_entries; [left; by left|auto|].
  rewrite lookup_delete_keys in Hk. case_decide as Hst; [done|].
  apply put_files_entries in Hk as [Hk|[?|Hk]]; [|auto|].
  - left. right. by rewrite <-list_fmap_compose.
  - rewrite lookup_add_parents in Hk. destruct (t !! k) eqn:E; [naive_solver|].
    case_decide; [|done]. right. left. by simplify_eq.
Qed.

Lemma put_changed_at t0 k c m t :
  c ≠ "" → file_at t k = file_at t0 k → file_at (put_changed t0 k c m t) k = Some c.
Proof.
  intros Hc Ht. unfold put_changed, differs. case_bool_decide as Hd; cbn [negb].
  - rewrite Ht. destruct (file_at t0 k) as [c'|]; cbn in Hd; [by subst|by destruct Hc].
  - unfold file_at. by rewrite lookup_put_file, decide_True.
Qed.

Lemma put_files_at t0 files t f :
  f ∈ files → NoDup (file_key <$> files) →
  (∀ g g', g ∈ files → g' ∈ files → file_key g ∉ parents (file_key g')) →
  f_content f ≠ "" → t !! file_key f = t0 !! file_key f →
  file_at (put_files t0 files t) (file_key f) = Some (f_content f).
Proof.
  intros (l1 & l2 & ->)%list_elem_of_split Hnd Hsep Hc Ht.
  rewrite fmap_app, fmap_cons in Hnd. apply NoDup_app in Hnd as (_ & Hd1 & Hnd).
  apply NoDup_cons in Hnd as [Hd2 _].
  unfold put_files. rewrite foldl_app. cbn [foldl].
  change (file_at (put_files t0 l2 (put_changed t0 (file_key f) (f_content f) (f_Mode f)
    (put_files t0 l1 t))) (file_key f) = Some (f_content f)).
  assert (∀ l u, (∀ g, g ∈ l → g ∈ l1 ++ f :: l2) → (∀ g, g ∈ l → file_key f ≠ file_key g) →
    put_files t0 l u !! file_key f = u !! file_key f) as Hoth.
  { intros l u Hin Hne. apply lookup_put_files_other, Forall_forall. intros g Hg.
    split; [by apply Hne|]. apply Hsep; [set_solver|by apply Hin]. }
  unfold file_at at 1. rewrite Hoth; [| |].
  - apply put_changed_at; [done|]. unfold file_at. rewrite Hoth; [by rewrite Ht| |].
    + intros g Hg. apply elem_of_app. by left.
    + intros g Hg Heq. apply (Hd1 (file_key g)); [by apply list_elem_of_fmap_2|]. rewrite Heq. by left.
  - intros g Hg. apply elem_of_app. right. by right.
  - intros g Hg Heq. apply Hd2. rewrite Heq. by apply list_elem_of_fmap_2.
Qed.

Section plan.
Context (plan : Plan) (options : ApplyOptions) (t : tree).
Context (Hid : plain_id plan) (Hvp : valid_plan plan) (Hsep : separate plan).

Lemma comps_inj p q : rel_path p → rel_path q → comps p = comps q → p = q.
Proof. intros (_ & Hp & _) (_ & Hq & _). congruence. Qed.

Lemma expected_rel p : p ∈ expected_paths plan → rel_path p.
Proof.
  intros [->|(f & -> & Hf)%list_elem_of_fmap]%elem_of_cons; [by apply vp_manifest_path|].
  by apply (vp_files _ Hvp).
Qed.

Lemma expected_not_stale p :
  p ∈ expected_paths plan → comps p ∉ comps <$> stale_paths plan options t.
Proof.
  intros Hp (q & Heq & Hq)%list_elem_of_fmap.
  pose proof (stale_rel plan options t) as Hr. rewrite Forall_forall in Hr.
  apply comps_inj in Heq as ->; [|by apply expected_rel|by apply Hr].
  by apply list_elem_of_filter in Hq as [[? _] _].
Qed.

Lemma file_keys_nodup : NoDup (file_key <$> p_files plan).
Proof.
  pose proof (vp_lower _ Hvp) as Hnd. pose proof (vp_files _ Hvp) as Hf. revert Hnd Hf.
  generalize (p_files plan). induction l as [|f l IH]; intros Hnd Hf; [constructor|].
  cbn [fmap list_fmap] in *. apply NoDup_cons in Hnd as [Hn Hnd]. constructor.
  - intros (g & Heq & Hg)%list_elem_of_fmap. apply Hn. apply list_elem_of_fmap. exists g. split; [|done].
    simpl. f_equal. apply comps_inj; [apply Hf; by left|apply Hf; by right|done].
  - apply IH; [done|]. intros g Hg. apply Hf. by right.
Qed.

Lemma content_ne f : f ∈ p_files plan → f_content f ≠ "".
Proof.
  intros Hf Hc. destruct (vp_files _ Hvp f Hf) as (_ & _ & _ & Hv). unfold validateGeneratedContent in Hv.
  rewrite Hc in Hv. case_bool_decide; [done|]. case_bool_decide; done.
Qed.

Lemma lookup_expected_parents k : k ∈ written_keys plan → add_parents (lock_key plan) t !! k = t !! k.
Proof.
  intros Hk. rewrite lookup_add_parents, decide_False; [by destruct (t !! k)|].
  apply (separate_parents plan); [done|done|by left].
Qed.

Lemma applied_file f :
  f ∈ p_files plan → file_at (applied_tree plan options t) (file_key f) = Some (f_content f).
Proof.
  intros Hf. pose proof (file_written plan f Hf) as Hw.
  unfold applied_tree, applied_to. unfold file_at. rewrite lookup_put_changed_other.
  - rewrite lookup_delete_keys, decide_False.
    + apply (put_files_at t); [done|apply file_keys_nodup| |by apply content_ne|by apply lookup_expected_parents].
      intros g g' Hg Hg'. by apply (separate_parents plan); [done|apply file_written..].
    + apply (expected_not_stale (f_Path f)). right. by apply list_elem_of_fmap_2.
  - intros Heq. apply comps_inj in Heq; [|by apply (vp_files _ Hvp)|by apply vp_manifest_path].
    apply (vp_manifest_lower _ Hvp f Hf). by rewrite Heq.
  - apply (separate_parents plan); [done|done|apply manifest_written].
Qed.

Lemma applied_manifest :
  p_manifestContent plan ≠ "" →
  file_at (applied_tree plan options t) (manifest_key plan) = Some (p_manifestContent plan).
Proof.
  intros Hc. unfold applied_tree, applied_to. apply put_changed_at; [done|].
  unfold file_at. rewrite lookup_delete_keys, decide_False by (apply (expected_not_stale _); by left).
  rewrite lookup_put_files_other, lookup_expected_parents; [done|apply manifest_written|].
  apply Forall_forall. intros f Hf. split.
  - intros Heq. apply comps_inj in Heq; [|by apply vp_manifest_path|by apply (vp_files _ Hvp)].
    apply (vp_manifest_lower _ Hvp f Hf). by rewrite <-Heq.
  - apply (separate_parents plan); [done|apply manifest_written|by apply file_written].
Qed.
End plan.

(** ** What validation says beyond [valid_plan] *)

Lemma split_app_any s r : split_byte slash (s +:+ "/" +:+ r) = split_byte slash s ++ split_byte slash r.
Proof.
  induction s as [|c s IH]; [done|]. rewrite str_cons_app. simpl. rewrite IH.
  destruct (ascii_dec c slash); [done|]. destruct (split_byte slash s) eqn:E; [by apply split_byte_ne in E|done].
Qed.

(** The components of a path below a directory. *)
Lemma prefix_components ks o :
  ks ≠ [] → Forall good_name ks → has_prefix (join ks "/") (o +:+ "/") = true →
  ∃ rest, rest ≠ [] ∧ ks = split_byte slash o ++ rest.
Proof.
  intros Hne Hg (r & Hr)%has_prefix_spec. rewrite str_app_assoc in Hr.
  exists (split_byte slash r). split; [apply split_byte_ne|].
  by rewrite <-split_app_any, <-Hr, split_join_good.
Qed.

Lemma has_prefix_join os rest :
  os ≠ [] → rest ≠ [] → has_prefix (join (os ++ rest) "/") (join os "/" +:+ "/") = true.
Proof.
  intros Ho Hr. revert Ho. induction os as [|o os IH]; [done|]. intros _.
  assert (∀ t, join ((o :: os) ++ rest) "/" = join (o :: os) "/" +:+ "/" +:+ t →
    has_prefix (join ((o :: os) ++ rest) "/") (join (o :: os) "/" +:+ "/") = true) as Hpre.
  { intros t ->. rewrite <-str_app_assoc. apply has_prefix_app. }
  destruct os as [|o' os].
  - apply (Hpre (join rest "/")). cbn [app]. by apply join_cons_ne.
  - destruct (has_prefix_spec (join ((o' :: os) ++ rest) "/") (join (o' :: os) "/" +:+ "/")) as [Hs _].
    destruct (Hs (IH ltac:(done))) as [r Hr']. apply (Hpre r).
    change ((o :: o' :: os) ++ rest) with (o :: ((o' :: os) ++ rest)).
    rewrite !join_cons_ne by done. rewrite Hr'. by rewrite !str_app_assoc.
Qed.

(** No file of a valid plan lies in a further directory. *)
Lemma no_shard_directories plan :
  valid_plan plan →
  sourceShardDirectories plan (t_BridgeDir (p_target plan)) (t_OutputDir (p_target plan)) = [].
Proof.
  intros Hvp. unfold sourceShardDirectories. cbv zeta.
  match goal with |- sort_strings (elements (list_to_set ?l)) = [] => assert (l = []) as -> end; [|done].
  pose proof (vp_files _ Hvp) as Hf. revert Hf. generalize (p_files plan).
  induction l as [|f l IH]; intros Hf; [done|]. cbn [omap list_omap].
  rewrite IH by (intros g Hg; apply Hf; by right). clear IH.
  case_bool_decide as Hrole; cbn [negb]; [|done].
  destruct (Hf f) as ((Hne & Hj & Hg) & Hw & _); [by left|]. clear Hf.
  destruct (_ || _ || _) eqn:Hd; [done|exfalso].
  apply orb_false_iff in Hd as [[H1 H3]%orb_false_iff H2]. bool_prop.
  unfold withinTargetOutput in Hw.
  destruct (comps (f_Path f)) as [|b ds _] eqn:E using rev_ind; [done|]. rewrite Hj in *.
  rewrite path_dir_snoc in * by done.
  set (D := if decide (ds = []) then "." else join ds "/") in *.
  destruct (bool_decide _ && bool_decide (D = ".")) eqn:Ha; [bool_prop; congruence|]. clear Ha.
  destruct (negb (bool_decide _) && has_prefix _ _) eqn:Hb; cycle 1.
  { destruct (bool_decide _ && _ && bool_decide (D = _)) eqn:Hc; [by bool_prop|]. by rewrite Hrole in Hw. }
  clear Hw. apply andb_true_iff in Hb as [_ Hb]. apply prefix_components in Hb as (rest & Hr & Hks); [|done..].
  destruct (vp_output _ Hvp) as [Hdot|(Hon & Hoj & Hog)].
  - rewrite Hdot in Hks. destruct rest as [|x rest _] using rev_ind; [done|].
    rewrite Hks in Hg. apply Forall_app in Hg as [Hg _]. inversion_clear Hg as [|?? (_ & ? & _)]. done.
  - set (os := comps (t_OutputDir (p_target plan))) in *. rewrite Hoj, split_join_good in Hks by done.
    destruct rest as [|b' rest' _] using rev_ind; [done|]. rewrite app_assoc in Hks.
    apply app_inj_tail in Hks as [-> ->]. unfold D in *. rewrite decide_False in * by by destruct os.
    destruct rest' as [|x rest']; [rewrite app_nil_r in *; congruence|].
    by rewrite Hoj, has_prefix_join in H2.
Qed.

Lemma hash_valid c : validHash (hashContent c) = true.
Proof.
  unfold validHash, hashContent. destruct (digest_hex_spec (sum256 c)) as [Hl Hf].
  assert (length (sum256 c) = 8%nat) as H8 by apply length_sum256.
  rewrite length_str_app, Hl, H8. change (String.length "sha256:" + 8 * 8 =? 7 + 64)%nat with true.
  rewrite has_prefix_app, trim_prefix_app. cbn [negb orb].
  clear -Hf. induction (digest_hex _) as [|a s IH]; [done|]. simpl in *. unfold is_hex_any at 1.
  apply andb_true_iff in Hf as [-> Hf]. by rewrite IH.
Qed.

Lemma compatiblePreEntrypoint_self s : compatiblePreEntrypoint s s = s.
Proof. unfold compatiblePreEntrypoint, set_s_EntrypointPackagePath. case_bool_decide; [by destruct s|done]. Qed.

Lemma decode_plan_files files mfs target seen seen' :
  length files = length mfs → validatePlanFilesLoop files mfs target seen = Ok seen' →
  decodeManifestLoop target mfs seen = Ok ().
Proof.
  revert mfs seen. induction files as [|f files IH]; intros [|mf mfs] seen Hl Hv; simplify_eq/=; [done|].
  inv_ok. match goal with Hf : validatePlanFile _ _ _ = Ok _ |- _ => rename Hf into Hvf end.
  assert (valid_file target f) as Hvalid.
  { match type of Hvf with _ = Ok ?u => destruct u end. by apply validatePlanFile_ok in Hvf as [? _]. }
  unfold validatePlanFile in Hvf. inv_ok. bool_prop.
  match goal with Hm : planFileMatchesManifest _ _ = true |- _ =>
    unfold planFileMatchesManifest in Hm; bool_prop end.
  match goal with Hp : wrap_err _ (validateRelativePath _) = Ok ?u |- _ =>
    destruct u; apply wrap_err_ok in Hp as Hrel end.
  repeat match goal with Hm : mf_Path mf = _ |- _ => rewrite Hm in *; clear Hm
    | Hm : mf_SHA256 mf = _ |- _ => rewrite Hm; clear Hm | Hm : mf_Role mf = _ |- _ => rewrite Hm; clear Hm end.
  rewrite Hrel. cbn [wrap_err mbind outcome_bind].
  pose proof Hvalid as (_ & -> & Hsha & _). apply valid_extension in Hvalid as ->.
  rewrite Hsha, hash_valid, bool_decide_eq_true_2 by done. simpl. by eapply IH.
Qed.

Record valid_more (plan : Plan) : Prop := {
  vm_bridge : t_BridgeDir (p_target plan) = "" ∨ ∃ ds, t_BridgeDir (p_target plan) = dir_path ds ∧ Forall good_name ds;
  vm_output : ∃ ds, t_OutputDir (p_target plan) = dir_path ds ∧ Forall good_name ds;
  vm_content : p_manifestContent plan ≠ "";
  vm_decode : decodeManifestLoop (p_target plan) (m_Files (p_manifest plan)) ∅ = Ok ();
}.

Lemma rel_dir_path p : rel_path p → ∃ ds, p = dir_path ds ∧ Forall good_name ds.
Proof. intros (Hne & Hj & Hg). exists (comps p). unfold dir_path. by rewrite decide_False. Qed.
Lemma dot_dir_path : ∃ ds, "." = dir_path ds ∧ Forall good_name ds.
Proof. by exists []. Qed.

Lemma layout_bridge target :
  validatePlanTargetLayout target = Ok () →
  t_BridgeDir target = "" ∨ ∃ ds, t_BridgeDir target = dir_path ds ∧ Forall good_name ds.
Proof.
  unfold validatePlanTargetLayout. destruct (bool_decide (t_Layout _ = _)).
  - intros (u & Hb & _)%outcome_bind_ok. right. case_bool_decide as Hd; cbn [negb] in Hb.
    + rewrite Hd. apply dot_dir_path.
    + destruct u. apply wrap_err_ok, validateRelativePath_rel in Hb. by apply rel_dir_path.
  - destruct (bool_decide (t_Layout _ = _)); [|done]. intros Hv. inv_ok. bool_prop. by left.
Qed.

Lemma validatePlan_more plan : validatePlan plan = Ok () → valid_more plan.
Proof.
  intros Hv. pose proof (validatePlan_valid _ Hv) as Hvp.
  unfold validatePlan, validatePlanTarget, validatePlanFiles in Hv. inv_ok.
  match goal with Hl : validatePlanTargetLayout _ = Ok _ |- _ => rename Hl into Hlay end.
  match goal with Hl : validatePlanFilesLoop _ _ _ _ = Ok _ |- _ => apply decode_plan_files in Hl end;
    [|by apply Nat.eqb_eq].
  split; [| | |done].
  - match type of Hlay with _ = Ok ?u => destruct u end. by apply layout_bridge.
  - destruct (vp_output _ Hvp) as [->|?]; [apply dot_dir_path|by apply rel_dir_path].
  - match goal with Hx : negb (bool_decide (p_manifestContent plan = "") || _) = true |- _ =>
      apply negb_true_iff, orb_false_iff in Hx as [Hx _] end. by bool_prop.
Qed.

(** A plan reads its own manifest back. *)
Lemma decodeManifest_own plan options :
  json_unmarshal (p_manifestContent plan) = Ok (p_manifest plan) → valid_plan plan → valid_more plan →
  decodeManifest (p_manifestContent plan) plan options = Ok (p_manifest plan).
Proof.
  intros Hj Hvp Hvm. unfold decodeManifest. rewrite Hj. cbn [wrap_err mbind outcome_bind].
  unfold normalizeManifestTarget. rewrite (vp_schema _ Hvp), compatiblePreEntrypoint_self.
  rewrite bool_decide_eq_true_2 by done. cbn.
  unfold manifestTarget. rewrite (vp_schema _ Hvp). cbn. by rewrite (vm_decode _ Hvm).
Qed.

Lemma owned_files_lookup files p :
  owned_files files !! p ≠ None ↔ p ∈ mf_Path <$> files.
Proof.
  unfold owned_files.
  assert (∀ m : gmap string string, foldl (λ m file, <[mf_Path file := mf_SHA256 file]> m) m files !! p ≠ None ↔
    p ∈ mf_Path <$> files ∨ m !! p ≠ None) as Hg.
  { induction files as [|f files IH]; intros m; cbn [foldl fmap list_fmap]; [set_solver|].
    rewrite IH, elem_of_cons. destruct (decide (p = mf_Path f)) as [->|Hp].
    - rewrite lookup_insert_eq. naive_solver.
    - rewrite lookup_insert_ne by done. naive_solver. }
  rewrite Hg, lookup_empty. naive_solver.
Qed.

Lemma own_paths plan : valid_plan plan → mf_Path <$> m_Files (p_manifest plan) = f_Path <$> p_files plan.
Proof.
  intros Hvp. pose proof (vp_matches _ Hvp) as Hm. induction Hm as [|f mf fs mfs Hf _ IH]; [done|].
  cbn [fmap list_fmap]. unfold planFileMatchesManifest in Hf. bool_prop. f_equal; [done|exact IH].
Qed.
End current.

Section fixpoint.
Context `{UnicodeTables} `{GenLibraries}.
Variable range : gmap string string → list (string * string).
Hypothesis range_perm : ∀ m, range m ≡ₚ map_to_list m.

(** ** The inspection of a tree that is as expected *)

Section forward.
Context (w : world) (Hq : quiet w) (Hs : sane (w_tree w)).

Lemma rejectSymlinkLoop_eq past todo e :
  w_tree w !! (past ++ todo) = Some e → rejectSymlinkLoop (join past "/") todo w = (Ok (), w).
Proof.
  revert past. induction todo as [|part todo IH]; intros past He; [done|]. cbn [rejectSymlinkLoop].
  assert (Forall good_name (past ++ part :: todo)) as Hg by by eapply sane_named.
  rewrite cons_snoc_app in *. pose proof Hg as [Hg1 _]%Forall_app.
  rewrite path_join_snoc by done.
  assert (∃ x, w_tree w !! (past ++ [part]) = Some x) as [x Hx].
  { destruct todo as [|y todo]; [rewrite app_nil_r in He; eauto|].
    destruct (sane_wf _ Hs _ _ He) as [_ Hd]. specialize (Hd (length (past ++ [part]))).
    rewrite take_app_length, entry_at_ne in Hd by by destruct past. exists EDir. apply Hd.
    rewrite (length_app (past ++ [part])). simpl. lia. }
  rewrite (attempt_eq _ _ _ (Ok x)).
  - destruct x; try by apply IH. by apply (sane_linkless _ Hs) in Hx.
  - apply (lstat_there_eq w Hq Hs _ (past ++ [part])); [by apply comps_join|done|].
    rewrite entry_at_ne; [done|by destruct past].
Qed.

Lemma file_at_lookup t k c : file_at t k = Some c → ∃ m, t !! k = Some (EFile c m).
Proof. unfold file_at. intros Hf. repeat case_match; simplify_eq. eauto. Qed.

Lemma rejectSymlink_eq p c :
  rel_path p → file_at (w_tree w) (comps p) = Some c → rejectSymlinkComponents p w = (Ok (), w).
Proof.
  intros (Hne & Hj & Hg) [m Hf]%file_at_lookup. unfold rejectSymlinkComponents.
  rewrite Hj, split_join_good by done. by apply (rejectSymlinkLoop_eq []) in Hf.
Qed.

Lemma readOptional_eq p c :
  rel_path p → file_at (w_tree w) (comps p) = Some c → readOptional p w = (Ok (Some c), w).
Proof.
  intros (Hne & Hj & Hg) [m Hf]%file_at_lookup. unfold readOptional.
  assert (entry_at (w_tree w) (comps p) = Some (EFile c m)) as He by by rewrite entry_at_ne.
  rewrite (attempt_eq _ _ _ (Ok (EFile c m))) by by eapply lstat_there_eq.
  rewrite (bind_eq _ _ _ c); [done|]. unfold wrap_io. by erewrite read_file_eq.
Qed.

Lemma targets_eq files s :
  Forall (λ f, rel_path (f_Path f) ∧ file_at (w_tree w) (file_key f) = Some (f_content f)) files →
  ∃ s', fold_io inspectTarget s files w = (Ok s', w).
Proof.
  intros Hf. revert s. induction Hf as [|f files [Hr Hc] _ IH]; intros s; cbn [fold_io]; [eauto|].
  rewrite (bind_eq _ _ _ (set_expected (f_Path f) (f_content f) (f_SHA256 f) s)); [apply IH|].
  unfold inspectTarget. rewrite (bind_eq _ _ _ ()); [done|]. by eapply rejectSymlink_eq.
Qed.

Lemma expected_eq files s :
  Forall (λ f, rel_path (f_Path f) ∧ file_at (w_tree w) (file_key f) = Some (f_content f) ∧
    f_SHA256 f = hashContent (f_content f) ∧ owned s !! f_Path f ≠ None) files →
  ∃ s', fold_io inspectExpectedFile s files w = (Ok s', w) ∧ differences s' = differences s ∧
    expected s' = expected s ∧ owned s' = owned s ∧ prior s' = prior s.
Proof.
  intros Hf. remember (owned s) as o eqn:Ho. symmetry in Ho. revert s Ho.
  induction Hf as [|f files (Hr & Hc & Hh & Hown) _ IH]; intros s Ho; cbn [fold_io]; [eauto 10|].
  rewrite (bind_eq _ _ _ (set_current (f_Path f) (f_content f) s)).
  - destruct (IH (set_current (f_Path f) (f_content f) s)) as (s' & -> & ? & ? & ? & ?); [done|].
    exists s'. by split_and!.
  - unfold inspectExpectedFile. rewrite (bind_eq _ _ _ (Some (f_content f))) by by apply readOptional_eq.
    cbn [owned set_current]. rewrite Ho. destruct (o !! f_Path f); [|done].
    by rewrite bool_decide_eq_true_2.
Qed.

(** No content outside the plan carries the marker. *)
Definition unmarked (plan : Plan) (p : string) (e : entry) : Prop :=
  ∀ c, data_of e = Some c → path_ext p = ".go" → p ∉ expected_paths plan → hasGeneratedMarker c = false.

Lemma inspect_eq plan :
  valid_plan plan → valid_more plan →
  json_unmarshal (p_manifestContent plan) = Ok (p_manifest plan) →
  (∀ f, f ∈ p_files plan → file_at (w_tree w) (file_key f) = Some (f_content f)) →
  file_at (w_tree w) (manifest_key plan) = Some (p_manifestContent plan) →
  deep (w_tree w) (comps (t_OutputDir (p_target plan))) (unmarked plan) →
  (t_BridgeDir (p_target plan) ≠ "" →
    flat (w_tree w) (comps (t_BridgeDir (p_target plan))) (unmarked plan)) →
  ∃ s, inspect range plan no_options w = (Ok s, w) ∧ differences s = [].
Proof.
  intros Hvp Hvm Hj Hf Hm Hdeep Hflat. unfold inspect.
  pose proof (vp_manifest_path _ Hvp) as Hmp.
  destruct (targets_eq (p_files plan) empty_inspection) as [s1 E1].
  { apply Forall_forall. intros f Hin. split; [by apply (vp_files _ Hvp)|by apply Hf]. }
  rewrite (bind_eq _ _ _ s1) by done. apply targets_recorded in E1 as (D1 & C1 & O1 & P1 & _ & Ex1).
  rewrite (bind_eq _ _ _ ()) by by eapply rejectSymlink_eq.
  set (s2 := set_expected _ _ _ s1).
  rewrite (bind_eq _ _ _ (Some (p_manifestContent plan))) by by apply readOptional_eq.
  set (s4 := set_prior (p_manifest plan) (owned_files (m_Files (p_manifest plan)))
    (set_current (t_ManifestPath (p_target plan)) (p_manifestContent plan) s2)).
  rewrite (bind_eq _ _ _ s4); cycle 1.
  { unfold inspectManifest, lift. rewrite decodeManifest_own by done. done. }
  destruct (expected_eq (p_files plan) s4) as (s5 & E5 & D5 & Ex5 & O5 & P5).
  { apply Forall_forall. intros f Hin. destruct (vp_files _ Hvp f Hin) as (Hr & _ & Hh & _).
    split_and!; [done|by apply Hf|done|].
    change (owned_files (m_Files (p_manifest plan)) !! f_Path f ≠ None). apply owned_files_lookup. rewrite own_paths by done.
    by apply list_elem_of_fmap_2. }
  rewrite (bind_eq _ _ _ s5) by done.
  assert (∀ p, expected s5 !! p = None → p ∉ expected_paths plan) as Hex.
  { intros p. rewrite Ex5. simpl. rewrite lookup_insert_None, Ex1. unfold expected_paths.
    rewrite not_elem_of_cons. naive_solver. }
  rewrite (bind_eq _ _ _ s5); cycle 1.
  { unfold inspectPrior. rewrite P5. cbn [prior s4 set_prior].
    rewrite (bind_eq _ _ _ s5); cycle 1.
    { unfold inspectPriorFiles. apply fold_io_still. intros [p h] Hp. cbn.
      destruct (expected s5 !! p) eqn:E; [done|]. exfalso. apply (Hex p E). right.
      rewrite <-own_paths by done. apply owned_files_lookup.
      rewrite (range_perm (owned s5)) in Hp. apply elem_of_map_to_list in Hp. rewrite O5 in Hp.
      simpl in Hp. congruence. }
    cbn [default from_option]. by rewrite bool_decide_eq_true_2. }
  assert (∀ p e, unmarked plan p e → harmless s5 p e) as Hharm.
  { intros p e Hu c Hc Hext Hn _. apply (Hu c); auto. }
  rewrite (bind_eq _ _ _ s5); cycle 1.
  { unfold inspectUnexpectedGenerated. destruct (vm_output _ Hvm) as (ds & Hds & Hdg).
    rewrite Hds, comps_dir_path in * by done.
    rewrite (bind_eq _ _ _ s5) by (apply output_still; [done|done|destruct Hdeep; split; auto|done]).
    rewrite (bind_eq _ _ _ s5); [rewrite <-Hds, no_shard_directories by done; done|].
    case_bool_decide as Hb; cbn [negb]; [done|].
    destruct (vm_bridge _ Hvm) as [?|(bs & Hbs & Hbg)]; [done|]. specialize (Hflat Hb).
    rewrite Hbs, comps_dir_path in * by done. unfold wrap_io.
    rewrite directory_still; [done|done|done|destruct Hflat; split; auto|done]. }
  exists (sorted_inspection s5). split; [done|]. simpl. by rewrite D5; simpl; rewrite D1.
Qed.

Lemma Check_eq plan s :
  validatePlan plan = Ok () → inspect range plan no_options w = (Ok s, w) →
  Check range plan w = (Ok (status s), w).
Proof.
  intros Hv Hi. unfold Check. rewrite (bind_eq _ _ _ ()) by (unfold lift; by rewrite Hv).
  rewrite (bind_eq _ _ _ ()) by (unfold wrap_io, open_root; by rewrite syscall_quiet).
  rewrite (bind_eq _ _ _ s); [by destruct (status s)|].
  unfold inspect_and_close. rewrite (attempt_eq _ _ _ (Ok s)) by done.
  rewrite (attempt_eq _ _ _ (Ok ())); [done|]. unfold sys_close. by rewrite syscall_quiet.
Qed.
End forward.

(** ** What the first inspection has searched *)

Lemma inspect_search_last plan options w s w' :
  inspect range plan options w = (Ok s, w') →
  ∃ s6 w6 s7 w7, w_tree w6 = w_tree w ∧ inspectUnexpectedGenerated plan s6 w6 = (Ok s7, w7) ∧
    s = sorted_inspection s7.
Proof.
  assert (∀ {A B} (m : io A) (k : A → io B) w b w', reads m → (m ≫= k) w = (Ok b, w') →
    ∃ a w1, w_tree w1 = w_tree w ∧ k a w1 = (Ok b, w')) as Hpeel.
  { clear. intros A B m k w b w' Hm (a & w1 & Ha & Hk)%io_bind_ok. exists a, w1. split; [|done].
    specialize (Hm w). rewrite Ha in Hm. by injection Hm. }
  unfold inspect, inspectPrior, inspectPriorFiles, inspectManifest. intros Hi.
  apply Hpeel in Hi as (s1 & w1 & T1 & Hi); [|apply reads_fold; intros; apply reads_inspectTarget].
  apply Hpeel in Hi as (u & w2 & T2 & Hi); [|apply reads_rejectSymlink].
  apply Hpeel in Hi as (b & w3 & T3 & Hi); [|apply reads_readOptional].
  apply Hpeel in Hi as (s4 & w4 & T4 & Hi); [|by destruct b; eauto with reads].
  apply Hpeel in Hi as (s5 & w5 & T5 & Hi); [|apply reads_fold; intros; apply reads_expected].
  apply Hpeel in Hi as (s6 & w6 & T6 & Hi).
  2: { destruct (prior s5); [|done]. apply reads_bind; [apply reads_fold; intros; apply reads_prior|].
       intros ?. eauto with reads. }
  apply io_bind_ok in Hi as (s7 & w7 & H7 & Hi). inv_io.
  exists s6, w6, s7, w7. split; [congruence|done].
Qed.

Lemma harmless_iff s s' p e : settled s s' → harmless s p e → harmless s' p e.
Proof. intros (He & Ho & _) Hh. unfold harmless. by rewrite He, Ho. Qed.

Lemma unexpected_searched plan s w s' w' :
  inspectUnexpectedGenerated plan s w = (Ok s', w') → sane (w_tree w) → unprotected s' → valid_more plan →
  deep (w_tree w) (comps (t_OutputDir (p_target plan))) (harmless s') ∧
  (t_BridgeDir (p_target plan) ≠ "" →
    flat (w_tree w) (comps (t_BridgeDir (p_target plan))) (harmless s')).
Proof.
  intros Hi Hs Hu Hvm. unfold inspectUnexpectedGenerated in Hi.
  apply io_bind_ok in Hi as (s1 & w1 & H1 & Hi). apply io_bind_ok in Hi as (s2 & w2 & H2 & H3).
  assert (reads (inspectUnexpectedGeneratedOutput s (t_OutputDir (p_target plan)))) as R1.
  { pose proof reads_entry. unfold inspectUnexpectedGeneratedOutput. eauto 20 with reads. }
  specialize (R1 w). rewrite H1 in R1. injection R1 as T1 _.
  assert (later s s1) as L1.
  { unfold inspectUnexpectedGeneratedOutput in H1. apply attempt_bind in H1 as (r & w0 & _ & Hr).
    destruct r as [[]|e]; try discriminate Hr; [|destruct (is_not_exist e); inv_io; reflexivity].
    unfold walk_dir in Hr. apply io_bind_ok in Hr as (e & w3 & _ & Hr).
    eapply (walk_moves later), Hr. intros. by eapply entry_later. }
  assert (later s1 s2) as L2.
  { destruct (negb _); inv_io; [|reflexivity]. eapply (directory_moves later); [|exact H2]. apply entry_later. }
  assert (later s2 s') as L3.
  { eapply (fold_moves later); [|done]. intros s3 d w3 s4 w4 Hd. apply wrap_io_ok in Hd.
    eapply (directory_moves later); [|exact Hd]. apply entry_later. }
  assert (unprotected s2) as Hu2 by (eapply unprotected_later; [apply L3|done]).
  assert (unprotected s1) as Hu1 by (eapply unprotected_later; [apply L2|done]).
  assert (later s1 s') as L13 by by etrans. assert (later s s') as L03 by by etrans.
  split.
  - destruct (vm_output _ Hvm) as (ds & Hds & Hdg). rewrite Hds, comps_dir_path in * by done.
    apply output_searched in H1 as [Ho Hh]; [|done..]. split; [done|]. intros ks e He.
    eapply harmless_iff; [apply L03|]. by apply Hh.
  - intros Hb. destruct (vm_bridge _ Hvm) as [?|(bs & Hbs & Hbg)]; [done|].
    rewrite bool_decide_eq_false_2 in H2 by done. cbn [negb] in H2. apply wrap_io_ok in H2.
    rewrite Hbs, comps_dir_path in * by done.
    apply directory_searched in H2 as [Ho Hh]; [|by rewrite T1|done..]. rewrite T1 in *.
    split; [done|]. intros n e He. eapply harmless_iff; [apply L13|]. by apply Hh.
Qed.

(** No path the plan writes is one of its directories or lies above one. *)
Definition dirs_apart (plan : Plan) : Prop :=
  Forall (λ d, Forall (λ k, k ≠ d ∧ k ∉ parents d) (written_keys plan))
    [comps (t_OutputDir (p_target plan)); comps (t_BridgeDir (p_target plan))].
#[export] Instance dirs_apart_dec plan : Decision (dirs_apart plan) := ltac:(unfold dirs_apart; apply _).

Lemma put_file_keeps ks c m t k e : k ≠ ks → t !! k = Some e → put_file ks c m t !! k = Some e.
Proof. intros Hk He. by rewrite lookup_put_file, decide_False, lookup_add_parents, He. Qed.

Section transfer.
Context (plan : Plan) (options : ApplyOptions) (t : tree) (c : string) (s : inspection).
Context (Hid : plain_id plan) (Hvp : valid_plan plan) (Hsep : separate plan).
Notation locked := (put_file (lock_key plan) c 384 t).
Notation after := (applied_tree plan options t).
Context (Hrec : recorded plan options locked s).

Lemma expected_written k : k ∈ comps <$> expected_paths plan → k ∈ written_keys plan.
Proof.
  unfold expected_paths, written_keys. rewrite fmap_cons, <-list_fmap_compose. by right.
Qed.

Lemma open_after d :
  Forall (λ k, k ≠ d ∧ k ∉ parents d) (written_keys plan) → open_dir locked d → open_dir after d.
Proof.
  intros Hd Ho i Hi. rewrite Forall_forall in Hd.
  assert (take i d ∉ written_keys plan) as Hnw.
  { intros Hw. destruct (Hd _ Hw) as [Hne Hp]. destruct (decide (i = length d)) as [->|].
    - by rewrite take_ge in Hne.
    - apply Hp, elem_of_parents. exists i. split; [lia|done]. }
  destruct (after !! take i d) as [e|] eqn:E; [left|by right].
  apply applied_entries in E as [Hx|[->|[Ht _]]]; [by apply expected_written in Hx|done|].
  apply (put_file_keeps (lock_key plan) c 384) in Ht.
  - destruct (Ho i Hi); congruence.
  - intros Heq. apply Hnw. rewrite Heq. by left.
Qed.

Lemma unmarked_after k e :
  (locked !! k = Some e → harmless s (dir_path k) e) → after !! k = Some e → k ≠ [] → Forall good_name k →
  unmarked plan (dir_path k) e.
Proof.
  intros Hh He Hne Hg x Hx Hext Hnx.
  assert (∀ q, rel_path q → comps q = k → q = dir_path k) as Hpath.
  { intros q (_ & Hj & _) <-. unfold dir_path. by rewrite decide_False. }
  apply applied_entries in He as [(q & -> & Hq)%list_elem_of_fmap|[->|[Ht Hst]]]; [|done|].
  { destruct Hnx. rewrite <-(Hpath q) by (done || by apply (expected_rel plan)). done. }
  assert (k ≠ lock_key plan) as Hkl.
  { intros ->. unfold dir_path in Hext. rewrite decide_False, <-lock_path_join, path_ext_lock in Hext by done. done. }
  apply Hh; [by apply put_file_keeps|done|done|by apply (rec_expected _ _ _ _ Hrec)|].
  rewrite (rec_owned _ _ _ _ Hrec), (but_lock_owned plan options Hsep t) by apply put_lock_but.
  destruct (prior_owned plan options t !! dir_path k) as [h|] eqn:Ho; [exfalso|done].
  apply Hst, list_elem_of_fmap. exists (dir_path k). rewrite comps_dir_path by done. split; [done|].
  unfold stale_paths. apply list_elem_of_filter. rewrite comps_dir_path by done. split; [split; [done|congruence]|].
  apply list_elem_of_fmap. exists (dir_path k, h). split; [done|]. by apply elem_of_map_to_list.
Qed.
End transfer.

(** ** The fixed point *)

Lemma filter_none {A} (P : A → Prop) `{!∀ x, Decision (P x)} l : (∀ x, x ∈ l → ¬ P x) → filter P l = [].
Proof.
  induction l as [|x l IH]; intros Hl; [done|].
  rewrite filter_cons_False by (apply Hl; by left). apply IH. intros y Hy. apply Hl. by right.
Qed.

(** With nothing to write or remove only the directory of the lock is added. *)
Lemma nothing_tree plan options t :
  applied_result plan options t = no_result → applied_tree plan options t = add_parents (lock_key plan) t.
Proof.
  unfold applied_result, no_result. intros [= Hw Hr Hm].
  assert (∀ l : list string, sort_strings l = [] → l = []) as Hnil.
  { intros l Hl. apply Permutation_nil. rewrite <-Hl. apply sort_stable_perm. }
  apply Hnil in Hw. apply Hnil in Hr. unfold applied_tree, applied_to, put_changed. rewrite Hm, Hr. cbn.
  unfold put_files. revert Hw. generalize (add_parents (lock_key plan) t). generalize (p_files plan).
  induction l as [|f l IH]; intros u Hw; [done|]. cbn [foldl]. rewrite filter_cons in Hw.
  unfold put_changed at 2. destruct (differs t (file_key f) (f_content f)); [done|]. by apply IH.
Qed.

Lemma applied_keeps_lock_dir plan options t :
  plain_id plan → add_parents (lock_key plan) (applied_tree plan options t) = applied_tree plan options t.
Proof.
  intros Hid. apply map_eq. intros k. rewrite lookup_add_parents.
  destruct (applied_tree plan options t !! k) eqn:E; [done|]. rewrite decide_False; [done|]. intros Hk.
  assert (∀ t0 k' c m u, u !! k ≠ None → put_changed t0 k' c m u !! k ≠ None) as Hput.
  { intros t0 k' c m u Hu. unfold put_changed. destruct (differs _ _ _); [|done]. rewrite lookup_put_file.
    case_decide; [done|]. rewrite lookup_add_parents. by destruct (u !! k). }
  revert E. unfold applied_tree, applied_to. apply Hput. rewrite lookup_delete_keys, decide_False.
  - assert (add_parents (lock_key plan) t !! k ≠ None) as Hu.
    { rewrite lookup_add_parents. destruct (t !! k); [done|]. by rewrite decide_True. }
    revert Hu. unfold put_files. generalize (add_parents (lock_key plan) t). generalize (p_files plan).
    induction l as [|f l IH]; intros u Hu; [done|]. cbn [foldl]. apply IH. by apply Hput.
  - intros (p & -> & [_ ([q h] & -> & Hq%elem_of_map_to_list)%list_elem_of_fmap]%list_elem_of_filter)%list_elem_of_fmap.
    pose proof (prior_owned_rel _ _ _ _ _ Hq). apply prior_owned_extension in Hq.
    by destruct (supported_not_lock plan q).
Qed.

Section applied.
Context (plan : Plan) (options : ApplyOptions) (pid : Z) (w : world) (result : Result) (w' : world).
Context (Hs : sane (w_tree w)) (Hid : plain_id plan) (Hsep : separate plan) (Hap : dirs_apart plan).
Context (Hjson : json_unmarshal (p_manifestContent plan) = Ok (p_manifest plan)).
Context (Hrun : ApplyWithOptions range plan options pid w = ((result, None), w')).

Lemma applied_sane : sane (w_tree w').
Proof.
  apply ApplyWithOptions_phases in Hrun as (Hv & Hn & w2 & w3 & T2 & S2 & Ha & S3 & ->); [|done..].
  apply validatePlan_valid in Hv. apply apply_locked_effect in Ha as (T3 & _ & _); [|done..].
  apply delete_sane; [done|]. rewrite T3. rewrite T2 at 2. unfold put_file.
  pose proof (put_lock_but plan (lock_content plan pid) 384 (w_tree w)) as Hbut. rewrite <-T2 in Hbut.
  rewrite (applied_to_lock plan options Hid Hv Hsep _ _ _ _ Hbut). by rewrite lookup_insert_eq.
Qed.

Lemma applied_plan : validatePlan plan = Ok ().
Proof. by apply ApplyWithOptions_phases in Hrun as [Hv _]. Qed.

Lemma applied_contents :
  w_tree w' = applied_tree plan options (w_tree w) ∧
  (∀ f, f ∈ p_files plan → file_at (w_tree w') (file_key f) = Some (f_content f)) ∧
  file_at (w_tree w') (manifest_key plan) = Some (p_manifestContent plan).
Proof.
  pose proof applied_plan as Hv. pose proof (validatePlan_valid _ Hv) as Hvp.
  pose proof (vm_content _ (validatePlan_more _ Hv)) as Hc.
  apply ApplyWithOptions_effect in Hrun as [-> _]; [|done..].
  split_and!; [done|intros f Hf; by apply applied_file|by apply applied_manifest].
Qed.

Lemma applied_unmarked :
  deep (w_tree w') (comps (t_OutputDir (p_target plan))) (unmarked plan) ∧
  (t_BridgeDir (p_target plan) ≠ "" →
    flat (w_tree w') (comps (t_BridgeDir (p_target plan))) (unmarked plan)).
Proof.
  destruct applied_contents as (Ht & _ & _). pose proof applied_sane as Hs'. rewrite Ht in *.
  apply ApplyWithOptions_phases in Hrun as (Hv & Hn & w2 & w3 & T2 & S2 & Ha & _ & _); [|done..].
  pose proof (validatePlan_more _ Hv) as Hvm. apply validatePlan_valid in Hv as Hvp.
  unfold apply_locked in Ha. apply io_bind_ok in Ha as (s & w4 & Hi & Ha).
  destruct (negb _) eqn:Hconf; [done|]. apply no_conflicts in Hconf as Hu.
  pose proof Hi as Hrec. apply inspect_recorded in Hrec as [Hrec _]; [|done..].
  apply inspect_search_last in Hi as (s6 & w6 & s7 & w7 & T6 & H7 & ->).
  apply unexpected_searched in H7 as [[Ho Hh] Hfl]; [|by rewrite T6| |done].
  2: { intros d Hd. apply Hu. simpl. by apply elem_of_sort_stable. }
  rewrite T6, T2 in *. unfold dirs_apart in Hap.
  apply Forall_cons in Hap as [Hap1 [Hap2 _]%Forall_cons]. split; [|intros Hb; specialize (Hfl Hb); destruct Hfl as [Hfo Hfh]].
  - split; [by eapply open_after|]. intros ks e He.
    apply (unmarked_after plan options _ _ _ Hid Hvp Hsep Hrec _ _ (Hh ks e) He);
      [by apply (sane_wf _ Hs') in He as [? _]|by eapply sane_named].
  - split; [by eapply open_after|]. intros n e He.
    apply (unmarked_after plan options _ _ _ Hid Hvp Hsep Hrec _ _ (Hfh n e) He);
      [by apply (sane_wf _ Hs') in He as [? _]|by eapply sane_named].
Qed.

(** Nothing is left to do. *)
Lemma applied_result_nothing options' : applied_result plan options' (w_tree w') = no_result.
Proof.
  destruct applied_contents as (_ & Hf & Hm).
  pose proof applied_plan as Hv. pose proof (validatePlan_more _ Hv) as Hvm. apply validatePlan_valid in Hv as Hvp.
  unfold applied_result, no_result, differs. rewrite Hm, bool_decide_eq_true_2 by done. f_equal.
  - assert (filter (λ f, negb (bool_decide (default "" (file_at (w_tree w') (file_key f)) = f_content f)) = true)
      (p_files plan) = []) as ->; [|done].
    apply filter_none. intros f Hin. by rewrite Hf, bool_decide_eq_true_2.
  - assert (stale_paths plan options' (w_tree w') = []) as ->; [|done].
    unfold stale_paths. apply filter_none.
    intros p ([q h] & -> & Hq%elem_of_map_to_list)%list_elem_of_fmap [Hnx _]. apply Hnx. simpl.
    apply file_at_lookup in Hm as [m Hm]. unfold prior_owned in Hq. unfold manifest_key in Hm.
    rewrite Hm, decodeManifest_own in Hq by done. right. rewrite <-own_paths by done.
    apply owned_files_lookup. congruence.
Qed.
End applied.

(** C5. Applying reaches a fixed point, where links do not interfere.  On a tree
    without any symbolic link whose components are names ([sane]), for a plan whose
    target identity holds no slash ([plain_id]), whose manifest is not the lock,
    none of whose written paths lies below another ([separate]) or is, or lies
    above, its output or bridge directory ([dirs_apart]), and whose manifest text
    decodes to its manifest: after an [ApplyWithOptions] that reports no error,
    whatever failures it survived, a [Check] of the same plan that meets no failure
    finds the output on the tree so left current: no file is missing, stale or
    unowned, the manifest is accepted, and nothing carries the marker of generated
    code without being owned.  Nothing is claimed for a tree with links or for
    plans whose paths overlap. *)
Theorem applied_is_current plan options pid w result w' w'' :
  sane (w_tree w) → plain_id plan → separate plan → dirs_apart plan →
  json_unmarshal (p_manifestContent plan) = Ok (p_manifest plan) →
  ApplyWithOptions range plan options pid w = ((result, None), w') →
  w_tree w'' = w_tree w' → w_faults w'' = [] →
  Check range plan w'' = (Ok {| Current := true; Differences := [] |}, w'').
Proof.
  intros Hs Hid Hsep Hap Hj Hrun T Hq.
  pose proof (applied_plan _ _ _ _ _ _ Hs Hid Hsep Hrun) as Hv.
  pose proof (validatePlan_more _ Hv) as Hvm. apply validatePlan_valid in Hv as Hvp.
  destruct (applied_contents _ _ _ _ _ _ Hs Hid Hsep Hrun) as (_ & Hf & Hm).
  destruct (applied_unmarked _ _ _ _ _ _ Hs Hid Hsep Hap Hrun) as [Hd Hfl].
  pose proof (applied_sane _ _ _ _ _ _ Hs Hid Hsep Hrun) as Hs'. rewrite <-T in *.
  destruct (inspect_eq w'' Hq Hs' plan Hvp Hvm Hj Hf Hm Hd Hfl) as (s & Hi & Hdiff).
  rewrite (Check_eq w'' Hq plan s Hv Hi). unfold status. by rewrite Hdiff.
Qed.

(** Applying twice is applying once: when a second application of the plan
    succeeds on what a first one left, it reports that it has written and
    removed nothing, and the tree is the same. *)
Theorem apply_idempotent plan options pid w result w' w1 options' pid' result' w1' :
  sane (w_tree w) → plain_id plan → separate plan →
  json_unmarshal (p_manifestContent plan) = Ok (p_manifest plan) →
  ApplyWithOptions range plan options pid w = ((result, None), w') →
  w_tree w1 = w_tree w' →
  ApplyWithOptions range plan options' pid' w1 = ((result', None), w1') →
  result' = no_result ∧ Changed result' = false ∧ w_tree w1' = w_tree w'.
Proof.
  intros Hs Hid Hsep Hj Hrun T Hrun'.
  pose proof (applied_sane _ _ _ _ _ _ Hs Hid Hsep Hrun) as Hs'.
  pose proof (applied_result_nothing _ _ _ _ _ _ Hs Hid Hsep Hj Hrun options') as Hn.
  apply ApplyWithOptions_effect in Hrun' as [T' ->]; [|done|by rewrite T|done..]. rewrite T in T' |- *.
  split_and!; [done|by rewrite Hn|]. rewrite T', nothing_tree by done.
  destruct (applied_contents _ _ _ _ _ _ Hs Hid Hsep Hrun) as (-> & _ & _). by apply applied_keeps_lock_dir.
Qed.
End fixpoint.
