(* ===== verification/GenTheorems.v ===== *)
(** Further properties of [internal/genfs]: what reading calls change, the lock
    of a target, relocating import paths, and the agreement of the two
    halves of a plan. *)
From S2P Require Import Prelude GoSort GoStrings Sha256 GenPlan GoRoot GoPath GenFs GenDiff GenSafety GenProtect GenEffect GenSpec GenRefine GenConverge GenFixpoint.

(** ** Import paths *)

Lemma str_app_cancel s t : s +:+ t = s → t = "".
Proof.
  induction s as [|c s IH]; [done|]. rewrite str_cons_app. intros [= Hs]. auto.
Qed.

(** Relocating is invertible.  When [relocateModuleImportPath] moves an
    import path from the current module to a previous one it moves it back in
    the other direction, so the authorised relocation accepts exactly one
    previous package path for each selected one. *)
Theorem relocate_round_trip importPath currentModule previousModule previousPath :
  currentModule ≠ "" → previousModule ≠ "" →
  relocateModuleImportPath importPath currentModule previousModule = (previousPath, true) →
  relocateModuleImportPath previousPath previousModule currentModule = (importPath, true).
Proof.
  intros Hc Hp. unfold relocateModuleImportPath.
  case_bool_decide as He; [intros [= <-]; by subst|].
  case_bool_decide as Hcur.
  { intros [= <-]. subst. rewrite bool_decide_eq_false_2 by done. by rewrite bool_decide_eq_true_2. }
  destruct (has_prefix importPath _) eqn:Hpre; [|done]. cbn [negb]. intros [= <-].
  apply has_prefix_spec in Hpre as (rest & ->). rewrite str_app_assoc in *.
  rewrite trim_prefix_app.
  rewrite bool_decide_eq_false_2 by (intros Hn; by destruct previousModule).
  rewrite bool_decide_eq_false_2 by (by intros ?%str_app_cancel).
  assert (has_prefix (previousModule +:+ "/" +:+ rest) (previousModule +:+ "/") = true) as ->.
  { rewrite <-str_app_assoc. apply has_prefix_app. }
  cbn [negb]. by rewrite trim_prefix_app.
Qed.

(** ** Reading *)

Section theorems.
Context `{UnicodeTables} `{GenLibraries}.
Variable range : gmap string string → list (string * string).

Lemma reads_inspect_and_close plan options : reads (inspect_and_close range plan options).
Proof. unfold inspect_and_close. eauto 12 with reads. Qed.

Lemma reads_open_root : reads open_root.
Proof. by apply reads_syscall. Qed.

(** [Check] and [Diff] write and lock nothing: whatever the plan, the tree
    and the failures of the system are, the tree afterwards is the tree before. *)
Theorem Check_Diff_read_only plan w :
  w_tree (Check range plan w).2 = w_tree w ∧ w_tree (Diff range plan w).2 = w_tree w.
Proof.
  assert (reads (Check range plan) ∧ reads (Diff range plan)) as [Hc Hd].
  { pose proof reads_open_root. pose proof (reads_inspect_and_close plan no_options).
    unfold Check, Diff. split; eauto 12 with reads. }
  specialize (Hc w). specialize (Hd w). split; [by injection Hc|by injection Hd].
Qed.

(** The lock excludes other generators.  While the lock file of the target
    exists, [ApplyWithOptions] fails and changes nothing: not the target's
    files, not the manifest, and not the lock, which only its owner removes. *)
Theorem locked_target_untouched plan options pid w e :
  well_formed (w_tree w) → plain_id plan → w_tree w !! lock_key plan = Some e →
  let '((result, err), w') := ApplyWithOptions range plan options pid w in
  result = no_result ∧ err ≠ None ∧ w_tree w' = w_tree w.
Proof.
  intros Hwf Hid Hlock. unfold ApplyWithOptions.
  set (start := lift (validatePlan plan) ;; _).
  assert (reads start) as Hstart by (unfold start; pose proof reads_open_root; eauto 10 with reads).
  specialize (Hstart w). destruct (start w) as [[u|e1] w1]; [|by injection Hstart].
  assert (∃ e2 w2, acquireLock plan pid w1 = (Fail e2, w2) ∧ w_tree w2 = w_tree w1) as (e2 & w2 & -> & Ht2).
  { assert (w_tree w1 = w_tree w) as Ht1 by by injection Hstart.
    assert (w_tree w1 !! [".spice"] = Some EDir) as Hdir.
    { rewrite Ht1. destruct (Hwf _ _ Hlock) as [_ Hd]. apply (Hd 1). simpl. lia. }
    rewrite <-Ht1 in Hlock. unfold acquireLock. rewrite lock_dir by done.
    unfold mbind at 1, io_bind at 1.
    change (ensureDirectories ".spice") with (ensureDirectoriesLoop "" [".spice"]).
    cbn [ensureDirectoriesLoop]. change (path_join ["";".spice"]) with ".spice".
    unfold mbind at 1, io_bind at 1, attempt at 1.
    destruct (lstat ".spice" w1) as [[x|x] w3] eqn:Hl.
    - apply lstat_ok in Hl as [V3 (k & Hk & Hx)]. unfold locate in Hk.
      assert (resolve (w_links w1) false (w_tree w1) [] (comps ".spice") = Ok [".spice"]) as Hr
        by by destruct (w_links w1).
      rewrite Hr in Hk. injection Hk as <-.
      simpl in Hx. rewrite Hdir in Hx. injection Hx as <-. cbn [mret io_ret].
      unfold mbind at 1, io_bind at 1, attempt at 1.
      destruct (create_excl (lock_path plan) 384 w3) as [y w4] eqn:Hcr.
      assert (w_tree w3 = w_tree w1) as T3 by by injection V3.
      assert (locate w3 false (lock_path plan) = Ok (lock_key plan)) as Hloc.
      { unfold locate. rewrite comps_lock, T3 by done.
        rewrite resolve_through; [done|by apply lock_key_good|].
        intros i Hi. simpl in Hi. assert (i = 1) as -> by lia. done. }
      assert (is_ok y = false ∧ w_tree w4 = w_tree w3) as [Hy T4].
      { apply syscall_run' in Hcr as [[Hy V]|(w5 & V & Hcr)]; [by injection V|].
        rewrite (view_locate w5 w3), Hloc in Hcr by done.
        assert (w_tree w5 = w_tree w3) as T5 by by injection V.
        cbn [entry_at lock_key] in Hcr. fold (lock_key plan) in Hcr.
        rewrite T5, T3, Hlock in Hcr. injection Hcr as <- <-. by rewrite T5. }
      destruct y as [y|y]; [done|]. destruct (is_exist y); eexists _, _; (split; [done|congruence]).
    - assert (w_tree w3 = w_tree w1) as T3.
      { pose proof (reads_lstat ".spice" w1) as V. rewrite Hl in V. by injection V. }
      destruct (is_not_exist x) eqn:En; [exfalso|eexists _, _; by split].
      apply lstat_absent in Hl as [_ Ha]; [|done]. unfold absent, locate in Ha.
      destruct (w_links w1); simpl in Ha; congruence. }
  destruct (sys_close w2) as [closed w3] eqn:Hcl.
  pose proof (reads_close w2) as V. rewrite Hcl in V. injection V as V _.
  split_and!; [done|by destruct closed|]. rewrite V, Ht2. by injection Hstart.
Qed.
End theorems.

#[local] Existing Instance ascii_tables.

(** ** A plan of two files *)

Definition line (s : string) : string := s +:+ newline_str.

Definition app_go : string := line generatedMarker +:+ line "package app".
Definition routes_go : string := line generatedMarker +:+ line "package app // routes".
Definition old_go : string := line generatedMarker +:+ line "package app // old".

Definition demo_file (path content : string) : File := {|
  f_Path := path; f_Mode := 420; f_SHA256 := hashContent content; f_Role := "target-assembly";
  f_PrimarySource := None; f_RelatedSources := []; f_Mappings := []; f_Sources := [];
  f_content := content |}.
Definition demo_entry (f : File) : ManifestFile := {|
  mf_Path := f_Path f; mf_SHA256 := f_SHA256 f; mf_Role := f_Role f; mf_PrimarySource := None;
  mf_RelatedSources := []; mf_Mappings := [] |}.

Definition demo_target : Target := {|
  t_ID := "app"; t_Layout := LayoutGeneratedPackage; t_ModulePath := "example.com/m";
  t_ModuleRoot := "/src/m"; t_PackagePath := "example.com/m/internal/spicegen/app";
  t_EntrypointPackagePath := ""; t_OutputDir := "internal/spicegen/app"; t_BridgeDir := "";
  t_ManifestPath := "spice/app.json" |}.
Definition demo_summary : TargetSummary := {|
  s_ID := "app"; s_Layout := LayoutGeneratedPackage; s_ModulePath := "example.com/m";
  s_PackagePath := "example.com/m/internal/spicegen/app"; s_EntrypointPackagePath := "";
  s_OutputDir := "internal/spicegen/app"; s_BridgeDir := ""; s_ManifestPath := "spice/app.json" |}.

Definition demo_manifest (files : list File) : Manifest := {|
  m_Schema := SchemaVersion; m_Target := demo_summary; m_GeneratorVersion := GeneratorVersion;
  m_GoFormatLine := "1.26"; m_InputSHA256 := ""; m_Files := demo_entry <$> files |}.

Definition new_files_list : list File :=
  [demo_file "internal/spicegen/app/app.go" app_go;
   demo_file "internal/spicegen/app/routes.go" routes_go].
Definition old_files_list : list File :=
  [demo_file "internal/spicegen/app/app.go" old_go;
   demo_file "internal/spicegen/app/gone.go" old_go].

(** A source shard of a package below svc. *)
Definition shard_file : File := {|
  f_Path := "svc/orders_app_spice_gen.go"; f_Mode := 420; f_SHA256 := hashContent old_go; f_Role := "source-shard";
  f_PrimarySource := None; f_RelatedSources := []; f_Mappings := []; f_Sources := [];
  f_content := old_go |}.

(** The manifests have short encodings here. *)
Definition new_manifest_text : string := line "{new}".
Definition old_manifest_text : string := line "{old}".
Definition shard_manifest_text : string := line "{shard}".

Definition demo_libraries : GenLibraries := {|
  json_valid := λ _, true;
  json_unmarshal := λ content,
    if bool_decide (content = new_manifest_text) then Ok (demo_manifest new_files_list)
    else if bool_decide (content = old_manifest_text) then Ok (demo_manifest old_files_list)
    else if bool_decide (content = shard_manifest_text) then Ok (demo_manifest [shard_file])
    else Fail (ErrNew "unexpected JSON");
  json_string := λ s, str1 dquote +:+ s +:+ str1 dquote;
  parse_file := λ _ _, None |}.
#[local] Existing Instance demo_libraries.

Definition demo_plan : Plan := {|
  p_target := demo_target; p_files := new_files_list; p_manifest := demo_manifest new_files_list;
  p_manifestContent := new_manifest_text |}.

(** ** A module with an older generation and handwritten files *)

Definition out (name : string) : key := ["internal"; "spicegen"; "app"; name].

Definition demo_tree : tree := list_to_map [
  (["internal"], EDir); (["internal"; "spicegen"], EDir); (["internal"; "spicegen"; "app"], EDir);
  (["spice"], EDir);
  (["main.go"], EFile "package main" 420);
  (out "app.go", EFile old_go 420);
  (out "gone.go", EFile old_go 420);
  (out "hand.go", EFile "package app // by hand" 420);
  (["spice"; "app.json"], EFile old_manifest_text 420)].

Definition demo_world (t : tree) (faults : list fault) : world :=
  {| w_tree := t; w_faults := faults; w_random := [1; 2; 3; 4; 5; 6; 7; 8]%N; w_links := 8 |}.

Definition run_apply (t : tree) (faults : list fault) : (Result * option error) * world :=
  ApplyWithOptions map_to_list demo_plan no_options 7 (demo_world t faults).

Example demo_valid : validatePlan demo_plan = Ok ().
Proof. vm_compute. reflexivity. Qed.

(** The whole run: two files written, one removed, the manifest replaced. *)
Example demo_apply :
  let '((result, err), w) := run_apply demo_tree [] in
  err = None ∧
  result = {| Written := ["internal/spicegen/app/app.go"; "internal/spicegen/app/routes.go"];
              Removed := ["internal/spicegen/app/gone.go"]; ManifestUpdated := true |} ∧
  w_tree w !! out "app.go" = Some (EFile app_go 420) ∧ w_tree w !! out "gone.go" = None ∧
  w_tree w !! out "hand.go" = Some (EFile "package app // by hand" 420) ∧
  w_tree w !! [".spice"; "app.lock"] = None ∧
  (Check map_to_list demo_plan w).1 = Ok {| Current := true; Differences := [] |}.
Proof. vm_compute. repeat split. Qed.

(** The directory of a stale shard has become a link: the paths of the plan are
    tested for links, those of the previous manifest are not, and the removal
    follows the link to a file of another directory.  This is why the contract of
    [ApplyWithOptions_refines] asks for a tree without links; the file is one that
    [may_change] admits, since it has the recorded hash. *)
Definition linked_tree : tree := list_to_map [
  (["moved"], EDir); (["moved"; "orders_app_spice_gen.go"], EFile old_go 420);
  (["svc"], ELink "moved"); (["spice"], EDir);
  (["spice"; "app.json"], EFile shard_manifest_text 420)].

Example removal_follows_link :
  let '((result, err), w) := run_apply linked_tree [] in
  err = None ∧ Removed result = ["svc/orders_app_spice_gen.go"] ∧
  w_tree w !! ["moved"; "orders_app_spice_gen.go"] = None ∧
  applied_tree demo_plan no_options linked_tree !! ["moved"; "orders_app_spice_gen.go"] = Some (EFile old_go 420).
Proof. vm_compute. repeat split. Qed.

(** A check of well-formedness that computes. *)
Definition well_formed_check (t : tree) : bool :=
  forallb (λ ke, negb (bool_decide (ke.1 = [])) &&
    forallb (λ i, bool_decide (entry_at t (take i ke.1) = Some EDir)) (seq 0 (length ke.1)))
    (map_to_list t).

Lemma well_formed_checked t : well_formed_check t = true → well_formed t.
Proof.
  unfold well_formed_check. rewrite forallb_forall. intros Hall k e Hk.
  apply elem_of_map_to_list, list_elem_of_In in Hk. specialize (Hall _ Hk). simpl in Hall. bool_prop.
  split; [done|]. intros i Hi.
  match goal with Hf : forallb _ _ = true |- _ => rewrite forallb_forall in Hf;
    specialize (Hf i ltac:(apply in_seq; lia)) end.
  by bool_prop.
Qed.

(** ** Witnesses *)

(** The process dies at the thirtieth system call. *)
Definition dies : list fault := replicate 29 FNone ++ [FCrash].

Lemma ApplyWithOptions_protects_witness :
  well_formed demo_tree ∧
  ∀ k e, demo_tree !! k = Some e →
    w_tree (run_apply demo_tree dies).2 !! k = Some e ∨
    may_change demo_plan no_options demo_tree k e.
Proof.
  assert (well_formed demo_tree) as Hwf by (apply well_formed_checked; vm_compute; reflexivity).
  split; [exact Hwf|].
  exact (ApplyWithOptions_protects map_to_list demo_plan no_options 7 (demo_world demo_tree dies)
           Hwf eq_refl ltac:(by vm_compute)).
Defined.

Definition locked_tree : tree :=
  <[[".spice"] := EDir]> (<[[".spice"; "app.lock"] := EFile "{}" 384]> demo_tree).

Lemma locked_target_untouched_witness :
  let '((result, err), w') := run_apply locked_tree [] in
  result = no_result ∧ err ≠ None ∧ w_tree w' = locked_tree.
Proof.
  exact (locked_target_untouched map_to_list demo_plan no_options 7 (demo_world locked_tree []) (EFile "{}" 384)
    (well_formed_checked locked_tree ltac:(vm_compute; reflexivity)) eq_refl ltac:(vm_compute; reflexivity)).
Defined.

Lemma relocate_round_trip_witness :
  relocateModuleImportPath "example.com/old/app" "example.com/old" "example.com/new" =
    ("example.com/new/app", true) ∧
  relocateModuleImportPath "example.com/new/app" "example.com/new" "example.com/old" =
    ("example.com/old/app", true).
Proof.
  assert (relocateModuleImportPath "example.com/old/app" "example.com/old" "example.com/new" =
    ("example.com/new/app", true)) as Hr by (vm_compute; reflexivity).
  split; [exact Hr|].
  exact (relocate_round_trip "example.com/old/app" "example.com/old" "example.com/new"
           "example.com/new/app" ltac:(done) ltac:(done) Hr).
Defined.

(** The text of the diff of the demo tree. *)
Definition demo_diff : string :=
  match (Diff map_to_list demo_plan (demo_world demo_tree [])).1 with Ok s => s | Fail _ => "" end.

Lemma Diff_bounded_witness : newlines demo_diff = 21 ∧ (Z.of_nat (newlines demo_diff) <= maxDiffLines + 3)%Z.
Proof.
  split; [vm_compute; reflexivity|].
  refine (Diff_bounded map_to_list demo_plan (demo_world demo_tree [])
    (Diff map_to_list demo_plan (demo_world demo_tree [])).2 demo_diff _ _); [vm_compute; reflexivity|].
  intros state w1 w2 Ho Hi d Hd.
  assert (w1 = demo_world demo_tree []) as ->.
  { change (open_root (demo_world demo_tree [])) with (Ok (E := error) (), demo_world demo_tree []) in Ho.
    by injection Ho. }
  assert (forallb (λ d, newlines (d_Path d) =? 0)%nat
    (differences (match (inspect_and_close map_to_list demo_plan no_options
      (demo_world demo_tree [])).1 with Ok s => s | Fail _ => empty_inspection end)) = true) as Hall
    by (vm_compute; reflexivity).
  rewrite Hi in Hall. cbn [fst] in Hall. rewrite forallb_forall in Hall.
  apply Nat.eqb_eq, Hall. by apply list_elem_of_In.
Defined.

(** The same for the trees of [GenEffect]. *)
Definition sane_check (t : tree) : bool :=
  well_formed_check t &&
  forallb (λ ke, match ke.2 with ELink _ => false | _ => true end &&
    forallb (λ c, bool_decide (good_name c)) ke.1) (map_to_list t).

Lemma sane_checked t : sane_check t = true → sane t.
Proof.
  unfold sane_check. intros [Hwf Hall]%andb_true_iff. rewrite forallb_forall in Hall.
  split; [by apply well_formed_checked|intros k l Hk|intros k e Hk].
  1: apply elem_of_map_to_list, list_elem_of_In in Hk; by specialize (Hall _ Hk).
  all: apply elem_of_map_to_list, list_elem_of_In in Hk; specialize (Hall _ Hk); simpl in Hall.
  apply andb_true_iff in Hall as [_ Hall]. rewrite forallb_forall in Hall.
  apply Forall_forall. intros c Hc%list_elem_of_In. specialize (Hall _ Hc). by bool_prop.
Qed.

Lemma demo_sane : sane demo_tree.
Proof. apply sane_checked. vm_compute. reflexivity. Qed.
Lemma demo_separate : separate demo_plan.
Proof. apply (bool_decide_eq_true_1 (separate demo_plan)). vm_compute. reflexivity. Qed.
Lemma demo_apart : dirs_apart demo_plan.
Proof. apply (bool_decide_eq_true_1 (dirs_apart demo_plan)). vm_compute. reflexivity. Qed.

(** A run to the end. *)
Definition demo_run : (Result * option error) * world := run_apply demo_tree [].
Lemma demo_run_eq : ApplyWithOptions map_to_list demo_plan no_options 7 (demo_world demo_tree []) =
  ((applied_result demo_plan no_options demo_tree, None), demo_run.2).
Proof. vm_compute. reflexivity. Qed.

Lemma demo_json : json_unmarshal (p_manifestContent demo_plan) = Ok (p_manifest demo_plan).
Proof. vm_compute. reflexivity. Qed.
Lemma demo_world_tree t faults : w_tree (demo_world t faults) = t.
Proof. reflexivity. Qed.
Notation demo_after := (demo_world (w_tree demo_run.2) []).

Lemma ApplyWithOptions_refines_witness :
  w_tree demo_run.2 = applied_tree demo_plan no_options demo_tree ∧
  applied_tree demo_plan no_options demo_tree !! out "app.go" = Some (EFile app_go 420) ∧
  applied_tree demo_plan no_options demo_tree !! out "gone.go" = None.
Proof.
  split; [|split; vm_compute; reflexivity].
  exact (proj1 (ApplyWithOptions_refines map_to_list (λ _, reflexivity _) demo_plan no_options 7
    (demo_world demo_tree []) _ _ demo_sane eq_refl demo_separate demo_run_eq)).
Defined.

Lemma applied_is_current_witness :
  Check map_to_list demo_plan demo_after = (Ok {| Current := true; Differences := [] |}, demo_after).
Proof.
  exact (applied_is_current map_to_list (λ _, reflexivity _) demo_plan no_options 7
    (demo_world demo_tree []) _ demo_run.2 demo_after demo_sane eq_refl demo_separate
    demo_apart demo_json demo_run_eq (demo_world_tree _ _) eq_refl).
Defined.

Definition demo_again : (Result * option error) * world := 
  ApplyWithOptions map_to_list demo_plan no_options 7 demo_after.
Lemma demo_again_eq :
  ApplyWithOptions map_to_list demo_plan no_options 7 demo_after =
  ((no_result, None), demo_again.2).
Proof. vm_compute. reflexivity. Qed.

Lemma apply_idempotent_witness :
  no_result = no_result ∧ Changed no_result = false ∧ w_tree demo_again.2 = w_tree demo_run.2.
Proof.
  exact (apply_idempotent map_to_list (λ _, reflexivity _) demo_plan no_options 7
    (demo_world demo_tree []) _ demo_run.2 demo_after no_options 7 no_result demo_again.2
    demo_sane eq_refl demo_separate demo_json demo_run_eq (demo_world_tree _ _) demo_again_eq).
Defined.
