(* ===== verification/GoStrconv.v ===== *)
(** Package strconv: the value of a Go string or character literal, and decimal
    numbers. *)
From S2P Require Import Prelude GoSort GoStrings.

(** ** Decimal numbers *)

(** The number of digits at the start of a text. *)
Fixpoint digits (s : string) : nat :=
  match s with
  | String c s' => if in_range 48 57 (byte_of c) then S (digits s') else O
  | EmptyString => O
  end.

(** The value of a text of digits. *)
Fixpoint digits_value (v : Z) (s : string) : Z :=
  match s with
  | String c s' => digits_value (v * 10 + Z.of_N (byte_of c) - 48) s'
  | EmptyString => v
  end.

(** [strconv.Atoi]: decimal digits after an optional sign, within an int. *)
Definition atoi (s : string) : option Z :=
  let unsigned := match s with
    | String c s' => if bool_decide (c = "-"%char ∨ c = "+"%char) then s' else s
    | EmptyString => s
    end in
  if (0 <? String.length unsigned)%nat && (digits unsigned =? String.length unsigned)%nat then
    let v := if has_prefix s "-" then (- digits_value 0 unsigned)%Z else digits_value 0 unsigned in
    if (- 2 ^ 63 <=? v)%Z && (v <? 2 ^ 63)%Z then Some v else None
  else None.

(** ** Literals *)

(** The value of a hexadecimal digit. *)
Definition unhex (c : ascii) : option N :=
  let b := byte_of c in
  if in_range 48 57 b then Some (b - 48)%N
  else if in_range 97 102 b then Some (b - 97 + 10)%N
  else if in_range 65 70 b then Some (b - 65 + 10)%N
  else None.

Definition unoctal (c : ascii) : option N :=
  let b := byte_of c in if in_range 48 55 b then Some (b - 48)%N else None.

(** [n] digits in the base, after the value [v], and the rest of the text. *)
Fixpoint read_digits (digit : ascii → option N) (base : N) (n : nat) (v : N) (s : string)
    : option (N * string) :=
  match n, s with
  | O, _ => Some (v, s)
  | S n', String c s' =>
      match digit c with
      | Some x => read_digits digit base n' (v * base + x)%N s'
      | None => None
      end
  | S _, EmptyString => None
  end.

Definition valid_rune (r : N) : bool := (r <? 55296)%N || in_range 57344 1114111 r.

(** What follows a backslash: the value, whether it is a code point rather than
    a byte, and the rest of the text. *)
Definition unescape (quote c : ascii) (s : string) : option (N * bool * string) :=
  let byte (v : N) : option (N * bool * string) := Some (v, false, s) in
  let digits (n : nat) := read_digits unhex 16 n 0 s in
  let rune (n : nat) : option (N * bool * string) :=
    match digits n with
    | Some (v, rest) => if valid_rune v then Some (v, true, rest) else None
    | None => None
    end in
  if bool_decide (c = "a"%char) then byte 7%N
  else if bool_decide (c = "b"%char) then byte 8%N
  else if bool_decide (c = "f"%char) then byte 12%N
  else if bool_decide (c = "n"%char) then byte 10%N
  else if bool_decide (c = "r"%char) then byte 13%N
  else if bool_decide (c = "t"%char) then byte 9%N
  else if bool_decide (c = "v"%char) then byte 11%N
  else if bool_decide (c = "x"%char) then
    match digits 2%nat with Some (v, rest) => Some (v, false, rest) | None => None end
  else if bool_decide (c = "u"%char) then rune 4%nat
  else if bool_decide (c = "U"%char) then rune 8%nat
  else if bool_decide (c = backslash) then byte 92%N
  else if bool_decide (c = dquote ∨ c = chr 39) then
    if bool_decide (c = quote) then byte (byte_of c) else None
  else match unoctal c with
  | Some d =>
      match read_digits unoctal 8 2 d s with
      | Some (v, rest) => if (255 <? v)%N then None else Some (v, false, rest)
      | None => None
      end
  | None => None
  end.

(** [strconv.UnquoteChar] *)
Definition unquote_char (quote : ascii) (s : string) : option (N * bool * string) :=
  match s with
  | EmptyString => None
  | String c s' =>
      if bool_decide (c = quote) && bool_decide (quote = chr 39 ∨ quote = dquote) then None
      else if (128 <=? byte_of c)%N then
        let '(r, w) := decode_rune s in Some (r, true, str_drop w s)
      else if negb (bool_decide (c = backslash)) then Some (byte_of c, false, s')
      else match s' with
           | EmptyString => None
           | String e rest => unescape quote e rest
           end
  end.

(** The characters of an interpreted literal up to its closing quote; the
    result is the value and the text from that quote on.  A character literal
    has one character. *)
Fixpoint unquote_loop (fuel : nat) (quote : ascii) (s : string) : option (string * string) :=
  match fuel, s with
  | S fuel', String c _ =>
      if bool_decide (c = quote) then Some ("", s)
      else if bool_decide (c = newline) then None
      else match unquote_char quote s with
      | None => None
      | Some (r, multibyte, rest) =>
          let piece := if (r <? 128)%N || negb multibyte then str1 (chr r) else encode_rune r in
          if bool_decide (quote = chr 39) then Some (piece, rest)
          else match unquote_loop fuel' quote rest with
               | Some (value, rest') => Some (piece +:+ value, rest')
               | None => None
               end
      end
  | _, _ => Some ("", s)
  end.

(** The text without its carriage returns. *)
Fixpoint drop_returns (s : string) : string :=
  match s with
  | EmptyString => ""
  | String c s' => if bool_decide (c = chr 13) then drop_returns s' else String c (drop_returns s')
  end.

(** [strconv.Unquote].  The shortcut of the code for literals without escapes
    yields what its loop yields; only the loop is written down. *)
Definition unquote (s : string) : option string :=
  match s with
  | EmptyString => None
  | String quote body =>
      if bool_decide (quote = backquote) then
        let '(value, rest, found) := cut body (str1 backquote) in
        if found && bool_decide (rest = "") then Some (drop_returns value) else None
      else if bool_decide (quote = dquote ∨ quote = chr 39) then
        match unquote_loop (S (String.length body)) quote body with
        | Some (value, String c "") => if bool_decide (c = quote) then Some value else None
        | _ => None
        end
      else None
  end.

Example unquote_path : unquote (str1 dquote +:+ "example.com/a" +:+ str1 dquote) = Some "example.com/a".
Proof. reflexivity. Qed.
Example unquote_escapes :
  unquote (str1 dquote +:+ str1 backslash +:+ "x41" +:+ str1 backslash +:+ "102" +:+ str1 backslash +:+ "u0043" +:+
    str1 backslash +:+ str1 dquote +:+ str1 dquote) = Some ("ABC" +:+ str1 dquote).
Proof. reflexivity. Qed.
Example unquote_raw : unquote (str1 backquote +:+ "a" +:+ str1 (chr 13) +:+ "b" +:+ str1 backquote) = Some "ab".
Proof. reflexivity. Qed.
Example unquote_newline : unquote (str1 dquote +:+ newline_str +:+ str1 dquote) = None.
Proof. reflexivity. Qed.
