(* ===== verification/Annotation.v ===== *)
(** Parsed annotations: the values, arguments and annotations of the vendored
    module [spice/annotation] that the parser writes and the compiler reads, and
    the occurrences that src/compiler/resolve/resolve.go makes of them. *)
From S2P Require Import Prelude GoSort GoStrings Provider.

(** ** Values *)

Definition KindString : string := "string".
Definition KindInteger : string := "integer".
Definition KindBoolean : string := "boolean".
Definition KindIdentifier : string := "identifier".
Definition KindList : string := "list".

(** [annotation.Value] with its six fields. *)
Inductive Value : Type :=
  mkValue (Kind str : string) (integer : Z) (boolean : bool) (identifier : string) (list : list Value).
Definition v_Kind (v : Value) : string := let 'mkValue k _ _ _ _ _ := v in k.
Definition v_String (v : Value) : string := let 'mkValue _ s _ _ _ _ := v in s.
Definition v_Integer (v : Value) : Z := let 'mkValue _ _ i _ _ _ := v in i.
Definition v_Boolean (v : Value) : bool := let 'mkValue _ _ _ b _ _ := v in b.
Definition v_Identifier (v : Value) : string := let 'mkValue _ _ _ _ i _ := v in i.
Definition v_List (v : Value) : list Value := let 'mkValue _ _ _ _ _ l := v in l.

(** The composite literals the parser returns. *)
Definition VString (s : string) : Value := mkValue KindString s 0 false "" [].
Definition VInteger (i : Z) : Value := mkValue KindInteger "" i false "" [].
Definition VBoolean (b : bool) : Value := mkValue KindBoolean "" 0 b "" [].
Definition VIdentifier (i : string) : Value := mkValue KindIdentifier "" 0 false i [].
Definition VList (l : list Value) : Value := mkValue KindList "" 0 false "" l.

(** ** Arguments and annotations *)

Record Argument := mkArgument { arg_Name : string; arg_Value : Value }.

Record Annotation := mkAnnotation {
  an_Name : string;
  an_Arguments : list Argument;
  an_Position : Position;
  an_Raw : string;
}.

(** ** Imports *)

Definition ImportNamed : string := "named".
Definition ImportNamespace : string := "namespace".

Record ImportBinding := mkBinding { ib_Imported : string; ib_Local : string }.

Record ImportDirective := mkDirective {
  im_Kind : string;
  im_Package : string;
  im_Namespace : string;
  im_Bindings : list ImportBinding;
  im_Position : Position;
  im_Raw : string;
}.

(** [sdk.ContributionValue] *)
Inductive ContributionValue : Type :=
  mkContributionValue (Kind str : string) (integer : Z) (boolean : bool) (identifier : string)
    (list : list ContributionValue).

(** [sdk.Contribution], each kind with its payload. *)
Inductive Contribution : Type :=
  | ModuleContribution (AllowedDependencies : list string)
  | NamedInterfaceContribution (Name : string)
  | BootstrapContribution (Capability : string) (Options : list (string * ContributionValue))
  | OtherContribution (kind : string).

(** [resolve.Occurrence]; [oc_bound] tells whether [Definition] is set. *)
Record Occurrence := {
  oc_Annotation : Annotation;
  oc_bound : bool;
  oc_Target : string;
  oc_Name : string;
  oc_SymbolID : string;
  oc_PackagePath : string;
  oc_PhysicalFile : string;
  oc_PhysicalOffset : Z;
  oc_DisplayPosition : Position;
  oc_Contributions : list Contribution;
}.
Definition oc_Arguments (occurrence : Occurrence) : list Argument := an_Arguments (oc_Annotation occurrence).

Definition is_module (c : Contribution) : bool := match c with ModuleContribution _ => true | _ => false end.
Definition is_interface (c : Contribution) : bool :=
  match c with NamedInterfaceContribution _ => true | _ => false end.
Definition is_bootstrap (c : Contribution) : bool :=
  match c with BootstrapContribution _ _ => true | _ => false end.

(** [HasContribution], [Contribution] and [DescriptorContribution] of a kind. *)
Definition HasContribution (kind : Contribution → bool) (occurrence : Occurrence) : bool :=
  existsb kind (oc_Contributions occurrence).
Definition ContributionOf (kind : Contribution → bool) (occurrence : Occurrence) : option Contribution :=
  snd <$> list_find (λ c, kind c = true) (oc_Contributions occurrence).
Definition DescriptorContribution (kind : Contribution → bool) (occurrence : Occurrence) : option Contribution :=
  if negb (oc_bound occurrence) then None else ContributionOf kind occurrence.
