(* ===== verification/Validate.v ===== *)
(** Annotation validation: src/compiler/validate/validate.go, over the
    annotation definitions and the registry of the vendored module
    [spice/annotation]. *)
From S2P Require Import Prelude GoSort GoStrings Provider Annotation.

(** ** Definitions of annotations *)

Definition TargetPackage : string := "package".
Definition TargetType : string := "type".
Definition TargetFunction : string := "function".
Definition TargetMethod : string := "method".
Definition TargetParameter : string := "parameter".
Definition TargetVariable : string := "variable".
Definition TargetConstant : string := "constant".
Definition orderedTargets : list string :=
  [TargetPackage; TargetType; TargetFunction; TargetMethod; TargetParameter; TargetVariable; TargetConstant].

(** [TargetSet], a uint8. *)
Definition maskForTarget (target : string) : N :=
  if decide (target = TargetPackage) then 1
  else if decide (target = TargetType) then 2
  else if decide (target = TargetFunction) then 4
  else if decide (target = TargetMethod) then 8
  else if decide (target = TargetParameter) then 16
  else if decide (target = TargetVariable) then 32
  else if decide (target = TargetConstant) then 64
  else 0.
Definition Targets (values : list string) : N := foldl (λ set value, N.lor set (maskForTarget value)) 0%N values.
Definition Contains (set : N) (target : string) : bool :=
  let mask := maskForTarget target in
  negb (mask =? 0)%N && negb (N.land set mask =? 0)%N.
Definition Values (set : N) : list string := filter (λ target, Contains set target = true) orderedTargets.

Definition ValueDomainNone : string := "".
Definition ValueDomainGoInterface : string := "go-interface".

Record ArgumentDefinition := mkArgumentDefinition {
  ad_Name : string;
  ad_Kinds : list string;
  ad_ListElementKinds : list string;
  ad_ValueDomain : string;
  ad_Required : bool;
  ad_Positional : bool;
  ad_Variadic : bool;
}.

(** [annotation.Definition] *)
Record AnnotationDefinition := mkDefinition {
  df_Name : string;
  df_Targets : N;
  df_Repeatable : bool;
  df_Arguments : list ArgumentDefinition;
}.

Record Registry := mkRegistry { rg_definitions : gmap string AnnotationDefinition; rg_names : list string }.

Section registry.
Context `{UnicodeTables}.

(** One argument of [validateDefinition]; the state is [seenArguments]. *)
Definition validateArgumentDefinition (definitionName : string) (argument : ArgumentDefinition) (seen : gset string)
    : outcome string (gset string) :=
  let of_argument (rest : string) : string :=
    "annotation definition " +:+ go_quote definitionName +:+ " argument " +:+ go_quote (ad_Name argument) +:+ rest in
  _ ← guard_or (negb (bool_decide (trim_space (ad_Name argument) = "")))
        ("annotation definition " +:+ go_quote definitionName +:+ " contains an argument without a name");
  _ ← guard_or (bool_decide (trim_space (ad_Name argument) = ad_Name argument))
        (of_argument " must not contain surrounding whitespace");
  _ ← guard_or (bool_decide (ad_Name argument ∉ seen))
        ("annotation definition " +:+ go_quote definitionName +:+ " contains duplicate argument " +:+
         go_quote (ad_Name argument));
  _ ← guard_or (negb (bool_decide (ad_Kinds argument = []))) (of_argument " requires at least one value kind");
  _ ← guard_or (bool_decide (ad_ListElementKinds argument = [] ∨ KindList ∈ ad_Kinds argument))
        (of_argument " defines list element kinds without accepting list values");
  _ ← guard_or (bool_decide (ad_ValueDomain argument ∈ [ValueDomainNone; ValueDomainGoInterface]))
        (of_argument " contains unknown value domain " +:+ go_quote (ad_ValueDomain argument));
  _ ← guard_or (bool_decide (ad_ValueDomain argument ≠ ValueDomainGoInterface ∨ KindIdentifier ∈ ad_Kinds argument))
        (of_argument " uses value domain " +:+ go_quote (ad_ValueDomain argument) +:+
         " without accepting identifier values");
  _ ← guard_or (negb (ad_Variadic argument) || ad_Positional argument)
        (of_argument " must be positional when variadic");
  Ok ({[ad_Name argument]} ∪ seen).

Fixpoint validateArguments (definitionName : string) (arguments : list ArgumentDefinition) (seen : gset string)
    : outcome string () :=
  match arguments with
  | [] => Ok ()
  | argument :: rest =>
    seen ← validateArgumentDefinition definitionName argument seen;
    validateArguments definitionName rest seen
  end.

Definition validateDefinition (definition : AnnotationDefinition) : outcome string () :=
  let named (rest : string) : string := "annotation definition " +:+ go_quote (df_Name definition) +:+ rest in
  _ ← guard_or (negb (bool_decide (trim_space (df_Name definition) = ""))) "annotation definition name is required";
  _ ← guard_or (bool_decide (trim_space (df_Name definition) = df_Name definition))
        (named " must not contain surrounding whitespace");
  _ ← guard_or (negb (df_Targets definition =? 0)%N) (named " requires at least one target");
  _ ← guard_or (N.ldiff (df_Targets definition) (Targets orderedTargets) =? 0)%N (named " contains unknown target bits");
  _ ← validateArguments (df_Name definition) (df_Arguments definition) ∅;
  guard_or (length (filter (λ argument, ad_Positional argument = true) (df_Arguments definition)) <=? 1)%nat
    (named " contains multiple positional arguments; only one is supported").

Fixpoint registerDefinitions (definitions : list AnnotationDefinition) (registry : Registry)
    : outcome string Registry :=
  match definitions with
  | [] => Ok registry
  | definition :: rest =>
    _ ← validateDefinition definition;
    _ ← guard_or (bool_decide (rg_definitions registry !! df_Name definition = None))
          ("duplicate annotation definition " +:+ go_quote (df_Name definition));
    registerDefinitions rest (mkRegistry (<[df_Name definition := definition]> (rg_definitions registry))
      (rg_names registry ++ [df_Name definition]))
  end.
Definition NewRegistry (definitions : list AnnotationDefinition) : outcome string Registry :=
  registry ← registerDefinitions definitions (mkRegistry ∅ []);
  Ok (mkRegistry (rg_definitions registry) (sort_strings (rg_names registry))).
End registry.

Definition Lookup (registry : Registry) (name : string) : option AnnotationDefinition :=
  rg_definitions registry !! name.

(** ** Diagnostics *)

(** [scan.Occurrence]; its file is not read. *)
Record ScanOccurrence := mkScanOccurrence {
  so_Annotation : Annotation;
  so_Target : string;
  so_Name : string;
}.

Inductive diagnosticKind :=
  | diagnosticUnknownAnnotation
  | diagnosticInvalidTarget
  | diagnosticArgumentsNotAccepted
  | diagnosticUnknownArgument
  | diagnosticPositionalNotAccepted
  | diagnosticTooManyPositional
  | diagnosticDuplicateAssignment
  | diagnosticWrongKind
  | diagnosticWrongListElementKind
  | diagnosticMissingRequired.
#[export] Instance diagnosticKind_eq_dec : EqDecision diagnosticKind. Proof. solve_decision. Defined.

(** The value of the constant. *)
Definition kind_number (kind : diagnosticKind) : nat :=
  match kind with
  | diagnosticUnknownAnnotation => 0
  | diagnosticInvalidTarget => 1
  | diagnosticArgumentsNotAccepted => 2
  | diagnosticUnknownArgument => 3
  | diagnosticPositionalNotAccepted => 4
  | diagnosticTooManyPositional => 5
  | diagnosticDuplicateAssignment => 6
  | diagnosticWrongKind => 7
  | diagnosticWrongListElementKind => 8
  | diagnosticMissingRequired => 9
  end.

(** [Diagnostic]; [PhysicalPosition] is never set here. *)
Record ValidationDiagnostic := mkValidation {
  vd_Position : Position;
  vd_Annotation : string;
  vd_Target : string;
  vd_Name : string;
  vd_Allowed : list string;
  vd_Unknown : bool;
  vd_Argument : string;
  vd_Available : list string;
  vd_ExpectedKinds : list string;
  vd_ActualKind : string;
  vd_ListIndex : Z;
  vd_kind : diagnosticKind;
}.

Definition Code (diagnostic : ValidationDiagnostic) : string :=
  if vd_Unknown diagnostic then "unknown-annotation"
  else
    match vd_kind diagnostic with
    | diagnosticUnknownAnnotation => "unknown-annotation"
    | diagnosticInvalidTarget => "invalid-target"
    | diagnosticArgumentsNotAccepted => "arguments-not-accepted"
    | diagnosticUnknownArgument => "unknown-argument"
    | diagnosticPositionalNotAccepted => "positional-not-accepted"
    | diagnosticTooManyPositional => "too-many-positional"
    | diagnosticDuplicateAssignment => "duplicate-assignment"
    | diagnosticWrongKind => "wrong-kind"
    | diagnosticWrongListElementKind => "wrong-list-element-kind"
    | diagnosticMissingRequired => "missing-required"
    end.

Definition normalizedPosition (position : Position) : Position :=
  mkPosition (if decide (Filename position = "") then "<unknown>" else Filename position) (Offset position)
    (if (Line position <=? 0)%Z then 1 else Line position)
    (if (Column position <=? 0)%Z then 1 else Column position).

Definition availableArgumentsText (arguments : list string) : string :=
  match arguments with
  | [argument] => "available argument: " +:+ argument
  | _ => "available arguments: " +:+ join arguments ", "
  end.

Definition kindsText (kinds : list string) : string :=
  match kinds with
  | [kind] => kind
  | _ => "one of " +:+ join kinds ", "
  end.

Section messages.
Context `{UnicodeTables}.

(** The text after the position. *)
Definition message_text (diagnostic : ValidationDiagnostic) : string :=
  let name := "annotation @" +:+ vd_Annotation diagnostic in
  let argument := go_quote (vd_Argument diagnostic) in
  let unknown := "unknown " +:+ name +:+ "; add a registered annotation definition before using it" in
  if vd_Unknown diagnostic then unknown
  else
    match vd_kind diagnostic with
    | diagnosticUnknownAnnotation => unknown
    | diagnosticInvalidTarget =>
      let label := if bool_decide (length (vd_Allowed diagnostic) = 1%nat) then "target" else "targets" in
      name +:+ " cannot target " +:+ vd_Target diagnostic +:+ " " +:+ go_quote (vd_Name diagnostic) +:+
        "; allowed " +:+ label +:+ ": " +:+ join (vd_Allowed diagnostic) ", "
    | diagnosticArgumentsNotAccepted => name +:+ " does not accept arguments"
    | diagnosticUnknownArgument =>
      name +:+ " does not define argument " +:+ argument +:+ "; " +:+ availableArgumentsText (vd_Available diagnostic)
    | diagnosticPositionalNotAccepted =>
      match vd_Available diagnostic with
      | [available] => name +:+ " does not accept a positional argument; use named argument " +:+ go_quote available
      | available => name +:+ " does not accept positional arguments; " +:+ availableArgumentsText available
      end
    | diagnosticTooManyPositional => name +:+ " accepts at most one positional argument"
    | diagnosticDuplicateAssignment => name +:+ " assigns argument " +:+ argument +:+ " more than once"
    | diagnosticWrongKind =>
      name +:+ " argument " +:+ argument +:+ " requires " +:+ kindsText (vd_ExpectedKinds diagnostic) +:+ ", got " +:+
        vd_ActualKind diagnostic
    | diagnosticWrongListElementKind =>
      name +:+ " argument " +:+ argument +:+ " list item " +:+ itoa (vd_ListIndex diagnostic) +:+ " requires " +:+
        kindsText (vd_ExpectedKinds diagnostic) +:+ ", got " +:+ vd_ActualKind diagnostic
    | diagnosticMissingRequired => name +:+ " requires argument " +:+ argument
    end.

(** The prefix [Message] cuts off. *)
Definition position_prefix (position : Position) : string :=
  let position := normalizedPosition position in
  Filename position +:+ ":" +:+ itoa (Line position) +:+ ":" +:+ itoa (Column position) +:+ ": ".

Definition Error (diagnostic : ValidationDiagnostic) : string :=
  position_prefix (vd_Position diagnostic) +:+ message_text diagnostic.

Definition Message (diagnostic : ValidationDiagnostic) : string :=
  trim_prefix (Error diagnostic) (position_prefix (vd_Position diagnostic)).
End messages.

(** ** Validation *)

Definition argumentDiagnostic (occurrence : ScanOccurrence) (kind : diagnosticKind) (argument : string)
    : ValidationDiagnostic :=
  mkValidation (an_Position (so_Annotation occurrence)) (an_Name (so_Annotation occurrence)) (so_Target occurrence)
    (so_Name occurrence) [] false argument [] [] "" 0 kind.

Definition with_available (available : list string) (d : ValidationDiagnostic) : ValidationDiagnostic :=
  mkValidation (vd_Position d) (vd_Annotation d) (vd_Target d) (vd_Name d) (vd_Allowed d) (vd_Unknown d)
    (vd_Argument d) available (vd_ExpectedKinds d) (vd_ActualKind d) (vd_ListIndex d) (vd_kind d).
Definition with_kinds (expected : list string) (actual : string) (index : Z) (d : ValidationDiagnostic)
    : ValidationDiagnostic :=
  mkValidation (vd_Position d) (vd_Annotation d) (vd_Target d) (vd_Name d) (vd_Allowed d) (vd_Unknown d)
    (vd_Argument d) (vd_Available d) expected actual index (vd_kind d).

Definition kindAccepted (actual : string) (expected : list string) : bool := bool_decide (actual ∈ expected).

Definition missingRequired (occurrence : ScanOccurrence) (definition : AnnotationDefinition)
    (assigned : gmap string nat) : list ValidationDiagnostic :=
  (λ argument, argumentDiagnostic occurrence diagnosticMissingRequired (ad_Name argument)) <$>
    filter (λ argument, ad_Required argument = true ∧ default 0%nat (assigned !! ad_Name argument) = 0%nat)
      (df_Arguments definition).

Fixpoint listElements (occurrence : ScanOccurrence) (argumentName : string) (index : Z) (items : list Value)
    (kinds : list string) : list ValidationDiagnostic :=
  match items with
  | [] => []
  | item :: rest =>
    (if kindAccepted (v_Kind item) kinds then []
     else [with_kinds kinds (v_Kind item) index
       (argumentDiagnostic occurrence diagnosticWrongListElementKind argumentName)]) ++
    listElements occurrence argumentName (index + 1) rest kinds
  end.
Definition listElementDiagnostics (occurrence : ScanOccurrence) (argumentName : string) (value : Value)
    (definition : ArgumentDefinition) : list ValidationDiagnostic :=
  if negb (bool_decide (v_Kind value = KindList)) || bool_decide (ad_ListElementKinds definition = []) then []
  else listElements occurrence argumentName 0 (v_List value) (ad_ListElementKinds definition).

(** The index of the argument definitions by name; a later one wins. *)
Definition definitionsByName (arguments : list ArgumentDefinition) : gmap string ArgumentDefinition :=
  index_by ad_Name ∅ arguments.
(** The last positional argument. *)
Definition positionalDefinition (arguments : list ArgumentDefinition) : option ArgumentDefinition :=
  last (filter (λ argument, ad_Positional argument = true) arguments).

(** What the loop over the supplied arguments keeps. *)
Record argumentState := mkArgumentState {
  as_assigned : gmap string nat;
  as_positionalCount : nat;
  as_diagnostics : list ValidationDiagnostic;
}.

(** The checks of an argument whose definition is known. *)
Definition assignArgument (occurrence : ScanOccurrence) (argumentName : string) (value : Value)
    (definition : ArgumentDefinition) (state : argumentState) : argumentState :=
  let count := S (default 0%nat (as_assigned state !! argumentName)) in
  let duplicate :=
    if (1 <? count)%nat && negb (ad_Variadic definition)
    then [argumentDiagnostic occurrence diagnosticDuplicateAssignment argumentName] else [] in
  let problems :=
    if kindAccepted (v_Kind value) (ad_Kinds definition)
    then listElementDiagnostics occurrence argumentName value definition
    else [with_kinds (ad_Kinds definition) (v_Kind value) 0
      (argumentDiagnostic occurrence diagnosticWrongKind argumentName)] in
  mkArgumentState (<[argumentName := count]> (as_assigned state)) (as_positionalCount state)
    (as_diagnostics state ++ duplicate ++ problems).

Definition report (d : ValidationDiagnostic) (state : argumentState) : argumentState :=
  mkArgumentState (as_assigned state) (as_positionalCount state) (as_diagnostics state ++ [d]).

(** One supplied argument. *)
Definition checkArgument (occurrence : ScanOccurrence) (definitions : list ArgumentDefinition)
    (state : argumentState) (supplied : Argument) : argumentState :=
  let available := sort_strings (ad_Name <$> definitions) in
  let positional := positionalDefinition definitions in
  if decide (arg_Name supplied = "") then
    let count := S (as_positionalCount state) in
    let state := mkArgumentState (as_assigned state) count (as_diagnostics state) in
    if (1 <? count)%nat && negb (default false (ad_Variadic <$> positional)) then
      report (argumentDiagnostic occurrence diagnosticTooManyPositional "") state
    else
      match positional with
      | None => report (with_available available (argumentDiagnostic occurrence diagnosticPositionalNotAccepted "")) state
      | Some definition => assignArgument occurrence (ad_Name definition) (arg_Value supplied) definition state
      end
  else
    match definitionsByName definitions !! arg_Name supplied with
    | None =>
      report (with_available available
        (argumentDiagnostic occurrence diagnosticUnknownArgument (arg_Name supplied))) state
    | Some definition => assignArgument occurrence (arg_Name supplied) (arg_Value supplied) definition state
    end.

Definition annotationArguments (occurrence : ScanOccurrence) (definition : AnnotationDefinition)
    : list ValidationDiagnostic :=
  let supplied := an_Arguments (so_Annotation occurrence) in
  if bool_decide (supplied = []) then missingRequired occurrence definition ∅
  else if bool_decide (df_Arguments definition = []) then
    [argumentDiagnostic occurrence diagnosticArgumentsNotAccepted ""]
  else
    let state := foldl (checkArgument occurrence (df_Arguments definition)) (mkArgumentState ∅ 0 []) supplied in
    as_diagnostics state ++ missingRequired occurrence definition (as_assigned state).

(** The diagnostics of one occurrence. *)
Definition occurrenceDiagnostics (registry : Registry) (occurrence : ScanOccurrence) : list ValidationDiagnostic :=
  let name := an_Name (so_Annotation occurrence) in
  let position := an_Position (so_Annotation occurrence) in
  match Lookup registry name with
  | None =>
    [mkValidation position name (so_Target occurrence) (so_Name occurrence) [] true "" [] [] "" 0
       diagnosticUnknownAnnotation]
  | Some definition =>
    (if Contains (df_Targets definition) (so_Target occurrence) then []
     else [mkValidation position name (so_Target occurrence) (so_Name occurrence) (Values (df_Targets definition))
             false "" [] [] "" 0 diagnosticInvalidTarget]) ++
    annotationArguments occurrence definition
  end.

(** The comparator of [Occurrences]. *)
Definition validation_less : ValidationDiagnostic → ValidationDiagnostic → bool :=
  by_key (λ d, Filename (vd_Position d)) str_ltb
  (by_key (λ d, Line (vd_Position d)) Z.ltb
  (by_key (λ d, Column (vd_Position d)) Z.ltb
  (by_key vd_Annotation str_ltb
  (by_key vd_Argument str_ltb
  (by_key (λ d, kind_number (vd_kind d)) Nat.ltb
  (by_key vd_Target str_ltb
  (on_key vd_Name str_ltb))))))).

Definition Occurrences (occurrences : list ScanOccurrence) (registry : Registry) : list ValidationDiagnostic :=
  sort_stable validation_less (concat (occurrenceDiagnostics registry <$> occurrences)).

(** ** What a valid use of an annotation is *)

(** The argument assigns a value to the definition. *)
Definition binds (d : ArgumentDefinition) (argument : Argument) : Prop :=
  if decide (arg_Name argument = "") then ad_Positional d = true else ad_Name d = arg_Name argument.
#[export] Instance binds_dec d argument : Decision (binds d argument).
Proof. unfold binds. case_decide; apply _. Defined.

Definition kind_ok (d : ArgumentDefinition) (value : Value) : Prop :=
  v_Kind value ∈ ad_Kinds d ∧
  (v_Kind value = KindList → ad_ListElementKinds d ≠ [] →
     Forall (λ item, v_Kind item ∈ ad_ListElementKinds d) (v_List value)).

(** Every argument has a definition and a value of a kind it takes, and only a
    variadic definition takes more than one argument. *)
Definition assigns (definitions : list ArgumentDefinition) (supplied : list Argument) : Prop :=
  (∀ a, a ∈ supplied → ∃ d, d ∈ definitions ∧ binds d a ∧ kind_ok d (arg_Value a)) ∧
  (∀ d, d ∈ definitions → ad_Variadic d = false → length (filter (binds d) supplied) ≤ 1)%nat.

Definition valid_use (registry : Registry) (occurrence : ScanOccurrence) : Prop :=
  ∃ definition, Lookup registry (an_Name (so_Annotation occurrence)) = Some definition ∧
    Contains (df_Targets definition) (so_Target occurrence) = true ∧
    assigns (df_Arguments definition) (an_Arguments (so_Annotation occurrence)) ∧
    ∀ d, d ∈ df_Arguments definition → ad_Required d = true →
      ∃ a, a ∈ an_Arguments (so_Annotation occurrence) ∧ binds d a.

(** What [NewRegistry] makes sure of. *)
Record sound_arguments (definitions : list ArgumentDefinition) : Prop := {
  sound_names : NoDup (ad_Name <$> definitions);
  sound_nonempty d : d ∈ definitions → ad_Name d ≠ "";
  sound_positional d d' :
    d ∈ definitions → d' ∈ definitions → ad_Positional d = true → ad_Positional d' = true → d = d';
}.

Section sound.
Context (definitions : list ArgumentDefinition) (Hs : sound_arguments definitions).

Lemma same_name d d' : d ∈ definitions → d' ∈ definitions → ad_Name d = ad_Name d' → d = d'.
Proof. apply NoDup_key, sound_names, Hs. Qed.

Lemma definitionsByName_lookup name d :
  definitionsByName definitions !! name = Some d ↔ d ∈ definitions ∧ ad_Name d = name.
Proof. apply index_by_empty, sound_names, Hs. Qed.

Lemma positionalDefinition_some d :
  positionalDefinition definitions = Some d ↔ d ∈ definitions ∧ ad_Positional d = true.
Proof.
  unfold positionalDefinition. set (l := filter _ definitions).
  assert (∀ x, x ∈ l ↔ ad_Positional x = true ∧ x ∈ definitions) as Hl by (intros x; unfold l; by rewrite list_elem_of_filter).
  split.
  - intros Hlast. assert (d ∈ l) as Hd by by apply last_Some_elem_of. apply Hl in Hd. tauto.
  - intros [Hd Hp]. destruct (last l) as [x|] eqn:Hlast.
    + apply last_Some_elem_of, Hl in Hlast as [Hpx Hx]. f_equal. exact (sound_positional _ Hs x d Hx Hd Hpx Hp).
    + apply last_None in Hlast. assert (d ∈ l) as Hin by by apply Hl. rewrite Hlast in Hin. by apply elem_of_nil in Hin.
Qed.

(** The definition an argument is checked against. *)
Definition definition_of (a : Argument) : option ArgumentDefinition :=
  if decide (arg_Name a = "") then positionalDefinition definitions
  else definitionsByName definitions !! arg_Name a.

Lemma definition_of_some a d : definition_of a = Some d ↔ d ∈ definitions ∧ binds d a.
Proof.
  unfold definition_of, binds. case_decide; [apply positionalDefinition_some|apply definitionsByName_lookup].
Qed.

Lemma binds_unique d d' a : d ∈ definitions → d' ∈ definitions → binds d a → binds d' a → d = d'.
Proof.
  intros Hd Hd' Hb Hb'. assert (definition_of a = Some d) as H1 by by apply definition_of_some.
  assert (definition_of a = Some d') as H2 by by apply definition_of_some. congruence.
Qed.

(** ** The loop over the arguments *)

Context (occurrence : ScanOccurrence).

Lemma listElements_nil argumentName index items kinds :
  listElements occurrence argumentName index items kinds = [] ↔ Forall (λ item, v_Kind item ∈ kinds) items.
Proof.
  revert index. induction items as [|item items IH]; intros index; simpl; [done|].
  unfold kindAccepted. rewrite app_nil, IH, Forall_cons. case_bool_decide; naive_solver.
Qed.

Lemma value_problems_nil argumentName d value :
  (if kindAccepted (v_Kind value) (ad_Kinds d) then listElementDiagnostics occurrence argumentName value d
   else [with_kinds (ad_Kinds d) (v_Kind value) 0 (argumentDiagnostic occurrence diagnosticWrongKind argumentName)]) = []
  ↔ kind_ok d value.
Proof.
  unfold kindAccepted, kind_ok, listElementDiagnostics. case_bool_decide as Hk; [|naive_solver].
  repeat case_bool_decide; simpl; rewrite ?listElements_nil; naive_solver.
Qed.

Definition count (d : ArgumentDefinition) (supplied : list Argument) : nat := length (filter (binds d) supplied).

Lemma count_snoc d supplied a :
  count d (supplied ++ [a]) = (count d supplied + if decide (binds d a) then 1 else 0)%nat.
Proof. unfold count. rewrite filter_app, length_app, filter_cons. by case_decide. Qed.

Lemma filter_length_mono {A} (P Q : A → Prop) `{!∀ x, Decision (P x), !∀ x, Decision (Q x)} (l : list A) :
  (∀ x, P x → Q x) → (length (filter P l) ≤ length (filter Q l))%nat.
Proof. intros HPQ. induction l as [|x l IH]; [done|]. rewrite !filter_cons. repeat case_decide; simpl; naive_solver lia. Qed.

Record loop_inv (supplied : list Argument) (state : argumentState) : Prop := {
  loop_exact : as_diagnostics state = [] ↔ assigns definitions supplied;
  loop_positional : as_positionalCount state = length (filter (λ a, arg_Name a = "") supplied);
  loop_assigned d :
    as_diagnostics state = [] → d ∈ definitions →
    default 0%nat (as_assigned state !! ad_Name d) = count d supplied;
}.

Lemma assigns_snoc supplied a d :
  d ∈ definitions → binds d a →
  assigns definitions (supplied ++ [a]) ↔
  assigns definitions supplied ∧ kind_ok d (arg_Value a) ∧ (ad_Variadic d = false → count d supplied = 0%nat).
Proof.
  intros Hd Hb. unfold assigns. split.
  - intros [Ha Hc]. split_and!.
    + intros x Hx. apply Ha, elem_of_app. by left.
    + intros x Hx Hv. specialize (Hc x Hx Hv). fold (count x (supplied ++ [a])) in Hc. rewrite count_snoc in Hc. unfold count in *. lia.
    + destruct (Ha a) as (d' & Hd' & Hb' & Hk); [apply elem_of_app; right; by left|].
      by rewrite (binds_unique d d' a).
    + intros Hv. specialize (Hc d Hd Hv). fold (count d (supplied ++ [a])) in Hc.
      rewrite count_snoc, decide_True in Hc by done. lia.
  - intros ([Ha Hc] & Hk & Hv). split.
    + intros x [Hx| ->%list_elem_of_singleton]%elem_of_app; [by apply Ha|]. by exists d.
    + intros x Hx Hvx. fold (count x (supplied ++ [a])). rewrite count_snoc. case_decide as Hbx.
      * rewrite (binds_unique x d a) in Hvx by done. rewrite (binds_unique x d a) by done. rewrite Hv by done. lia.
      * specialize (Hc x Hx Hvx). unfold count. lia.
Qed.

Lemma assigns_unbound supplied a : (∀ d, d ∈ definitions → ¬ binds d a) → ¬ assigns definitions (supplied ++ [a]).
Proof.
  intros Hno [Ha _]. destruct (Ha a) as (d & Hd & Hb & _); [apply elem_of_app; right; by left|]. by destruct (Hno d Hd).
Qed.

(** An argument with a definition. *)
Lemma assign_inv supplied a d state state' :
  loop_inv supplied state → d ∈ definitions → binds d a →
  as_assigned state' = as_assigned state → as_diagnostics state' = as_diagnostics state →
  as_positionalCount state' = length (filter (λ a, arg_Name a = "") (supplied ++ [a])) →
  loop_inv (supplied ++ [a]) (assignArgument occurrence (ad_Name d) (arg_Value a) d state').
Proof.
  intros [Hex Hpos Hass] Hd Hb HA HD HP. unfold assignArgument. rewrite HA, HD. split; simpl; [| |].
  - rewrite (assigns_snoc supplied a d) by done. rewrite !app_nil, value_problems_nil, Hex.
    split; [intros (Hok & Hdup & Hk)|intros (Hok & Hk & Hv)]; split_and!; try done.
    + intros Hv. rewrite Hass in Hdup by tauto. rewrite Hv in Hdup. rewrite andb_true_r in Hdup.
      destruct (1 <? S (count d supplied))%nat eqn:E; [done|]. apply Nat.ltb_ge in E. lia.
    + rewrite Hass by tauto. destruct (ad_Variadic d) eqn:Ev; [by rewrite andb_false_r|]. by rewrite (Hv eq_refl).
  - exact HP.
  - intros x Hnil Hx. apply app_eq_nil in Hnil as [Hnil _]. rewrite count_snoc. case_decide as Hbx.
    + rewrite (binds_unique x d a) by done. rewrite lookup_insert_eq. simpl. rewrite Hass by done. lia.
    + rewrite lookup_insert_ne by (intros Hn; apply Hbx; by rewrite <- (same_name d x)). rewrite Hass by done. lia.
Qed.

Lemma report_inv supplied a d state :
  ¬ assigns definitions (supplied ++ [a]) →
  as_positionalCount state = length (filter (λ a, arg_Name a = "") (supplied ++ [a])) →
  loop_inv (supplied ++ [a]) (report d state).
Proof.
  intros Hno HP. split; simpl; [|done|].
  - split; [|done]. by intros [_ ?]%app_eq_nil.
  - by intros x [_ ?]%app_eq_nil.
Qed.

Lemma check_inv supplied a state :
  loop_inv supplied state → loop_inv (supplied ++ [a]) (checkArgument occurrence definitions state a).
Proof.
  intros Hinv. pose proof Hinv as [Hex Hpos Hass]. unfold checkArgument.
  assert (as_positionalCount state + (if decide (arg_Name a = "") then 1 else 0) =
    length (filter (λ a, arg_Name a = "") (supplied ++ [a])))%nat as HP.
  { rewrite filter_app, length_app, filter_cons, Hpos. by case_decide. }
  case_decide as Hn; rewrite ?Nat.add_1_r, ?Nat.add_0_r in HP.
  - destruct (positionalDefinition definitions) as [d|] eqn:Hd; simpl.
    + assert (d ∈ definitions ∧ binds d a) as [Hin Hb].
      { apply (definition_of_some a d). unfold definition_of. by rewrite decide_True. }
      destruct (_ && _) eqn:Hmany; [|by eapply assign_inv].
      apply report_inv; [|done]. apply andb_true_iff in Hmany as [Hc Hv]. apply Nat.ltb_lt in Hc. apply negb_true_iff in Hv.
      intros [_ Hone]. specialize (Hone d Hin Hv). fold (count d (supplied ++ [a])) in Hone.
      rewrite count_snoc, decide_True in Hone by done. assert (as_positionalCount state ≤ count d supplied)%nat; [|lia].
      rewrite Hpos. apply filter_length_mono. intros x Hx. unfold binds. rewrite decide_True by done.
      unfold binds in Hb. by rewrite decide_True in Hb.
    + rewrite andb_true_r. assert (∀ d, d ∈ definitions → ¬ binds d a) as Hno.
      { intros d Hin Hb. assert (definition_of a = Some d) as Hsome by by apply definition_of_some.
        unfold definition_of in Hsome. rewrite decide_True in Hsome by done. congruence. }
      destruct (1 <? _)%nat; apply report_inv; try done; by apply assigns_unbound.
  - destruct (definitionsByName definitions !! arg_Name a) as [d|] eqn:Hd.
    + assert (d ∈ definitions ∧ binds d a) as [Hin Hb].
      { apply (definition_of_some a d). unfold definition_of. by rewrite decide_False. }
      assert (arg_Name a = ad_Name d) as -> by (unfold binds in Hb; by rewrite decide_False in Hb).
      by eapply assign_inv.
    + apply report_inv; [|done]. apply assigns_unbound. intros d Hin Hb.
      assert (definition_of a = Some d) as Hsome by by apply definition_of_some.
      unfold definition_of in Hsome. rewrite decide_False in Hsome by done. congruence.
Qed.
End sound.

(** ** The registry and the theorem *)

Ltac unit_vars := repeat match goal with u : () |- _ => destruct u end.

Section theorem.
Context `{UnicodeTables}.

Lemma validateArguments_names name arguments seen :
  validateArguments name arguments seen = Ok () →
  NoDup (ad_Name <$> arguments) ∧ ∀ d, d ∈ arguments → ad_Name d ∉ seen ∧ ad_Name d ≠ "".
Proof.
  revert seen. induction arguments as [|x arguments IH]; intros seen; simpl.
  { intros _. split; [constructor|by intros d ?%elem_of_nil]. }
  intros (seen' & Hx & Hrest)%outcome_bind_ok. unfold validateArgumentDefinition in Hx.
  inv_ok. bool_prop. subst. apply IH in Hrest as [Hnd Hall].
  assert (ad_Name x ≠ "") as Hne by (intros Hx; rewrite Hx in *; done). split.
  - constructor; [|done]. intros (d & Hd & Hin)%list_elem_of_fmap. destruct (Hall d Hin) as [Hs _]. set_solver.
  - intros d [->|Hin]%elem_of_cons; [done|]. destruct (Hall d Hin) as [Hs Hn]. split; [set_solver|done].
Qed.

Lemma validateDefinition_sound d : validateDefinition d = Ok () → sound_arguments (df_Arguments d).
Proof.
  unfold validateDefinition. intros Hok. inv_ok. unit_vars. bool_prop.
  match goal with Hv : validateArguments _ _ _ = _ |- _ => apply validateArguments_names in Hv as [Hnd Hall] end.
  split; [done|by intros x Hx; apply Hall|]. intros x y Hx Hy Hpx Hpy.
  match goal with Hl : (length (filter ?P _) ≤ 1)%nat |- _ => set (l := filter P (df_Arguments d)) in Hl end.
  assert (x ∈ l) as Hix by by apply list_elem_of_filter. assert (y ∈ l) as Hiy by by apply list_elem_of_filter.
  destruct l as [|z [|z' l]]; simpl in *; [by apply elem_of_nil in Hix| |lia].
  apply list_elem_of_singleton in Hix, Hiy. congruence.
Qed.

Lemma registerDefinitions_sound definitions registry registry' :
  registerDefinitions definitions registry = Ok registry' →
  (∀ name d, Lookup registry name = Some d → sound_arguments (df_Arguments d)) →
  ∀ name d, Lookup registry' name = Some d → sound_arguments (df_Arguments d).
Proof.
  revert registry. induction definitions as [|x definitions IH]; intros registry; simpl; [by intros [= <-]|].
  intros Hok Hall. inv_ok. unit_vars. eapply IH; [done|]. intros name d. unfold Lookup. simpl.
  destruct (decide (df_Name x = name)) as [<-|Hne].
  - rewrite lookup_insert_eq. intros [= <-]. by apply validateDefinition_sound.
  - rewrite lookup_insert_ne by done. apply Hall.
Qed.

Lemma NewRegistry_sound definitions registry name d :
  NewRegistry definitions = Ok registry → Lookup registry name = Some d → sound_arguments (df_Arguments d).
Proof.
  unfold NewRegistry. intros Hok Hd. inv_ok. change (Lookup _ name) with (Lookup x name) in Hd.
  eapply registerDefinitions_sound; [done| |exact Hd]. intros ? ? Hnone. unfold Lookup in Hnone. simpl in Hnone. by apply lookup_empty_Some in Hnone.
Qed.

Lemma arguments_checked definitions occurrence supplied :
  sound_arguments definitions →
  loop_inv definitions supplied
    (foldl (checkArgument occurrence definitions) (mkArgumentState ∅ 0 []) supplied).
Proof.
  intros Hs. induction supplied as [|a supplied IH] using rev_ind.
  - split; simpl; [|done|intros; by rewrite lookup_empty]. split; [intros _|done].
    split; [by intros a ?%elem_of_nil|]. intros. simpl. lia.
  - rewrite foldl_app. simpl. by apply check_inv.
Qed.

Lemma missingRequired_nil occurrence definition assigned :
  missingRequired occurrence definition assigned = [] ↔
  ∀ d, d ∈ df_Arguments definition → ad_Required d = true → default 0%nat (assigned !! ad_Name d) ≠ 0%nat.
Proof.
  unfold missingRequired. rewrite <- length_zero_iff_nil, length_fmap, length_zero_iff_nil. split.
  - intros Hnil d Hd Hr Hz. assert (d ∈ filter (λ argument, ad_Required argument = true ∧
      default 0%nat (assigned !! ad_Name argument) = 0%nat) (df_Arguments definition)) as Hin.
    { by rewrite list_elem_of_filter. }
    rewrite Hnil in Hin. by apply elem_of_nil in Hin.
  - intros Hall. apply elem_of_nil_inv. intros d [[Hr Hz] Hd]%list_elem_of_filter. by apply (Hall d).
Qed.

Lemma count_some d supplied : count d supplied ≠ 0%nat ↔ ∃ a, a ∈ supplied ∧ binds d a.
Proof.
  unfold count. split.
  - destruct (filter (binds d) supplied) as [|a l] eqn:E; [done|]. intros _. exists a.
    assert (a ∈ filter (binds d) supplied) as Ha by (rewrite E; by left). apply list_elem_of_filter in Ha. tauto.
  - intros (a & Ha & Hb) Hz. apply length_zero_iff_nil in Hz.
    assert (a ∈ filter (binds d) supplied) as Hin by by rewrite list_elem_of_filter. rewrite Hz in Hin. by apply elem_of_nil in Hin.
Qed.

Lemma annotationArguments_nil occurrence definition :
  sound_arguments (df_Arguments definition) →
  annotationArguments occurrence definition = [] ↔
  assigns (df_Arguments definition) (an_Arguments (so_Annotation occurrence)) ∧
  ∀ d, d ∈ df_Arguments definition → ad_Required d = true →
    ∃ a, a ∈ an_Arguments (so_Annotation occurrence) ∧ binds d a.
Proof.
  intros Hs. unfold annotationArguments. set (supplied := an_Arguments (so_Annotation occurrence)).
  pose proof (arguments_checked _ occurrence supplied Hs) as [Hex _ Hass]. setoid_rewrite <- count_some.
  case_bool_decide as Hnone; [|case_bool_decide as Hdefs].
  - rewrite Hnone in *. rewrite missingRequired_nil. setoid_rewrite lookup_empty. simpl in *. rewrite <- Hex. naive_solver.
  - split; [done|]. intros [[Ha _] _]. destruct supplied as [|a supplied]; [done|].
    destruct (Ha a) as (d & Hd & _); [by left|]. rewrite Hdefs in Hd. by apply elem_of_nil in Hd.
  - rewrite app_nil, missingRequired_nil. split.
    + intros [Hok Hreq]. split; [by apply Hex|]. intros d Hd Hr. rewrite <- Hass by done. by apply Hreq.
    + intros [Hok Hreq]. apply Hex in Hok. split; [done|]. intros d Hd Hr. rewrite Hass by done. by apply Hreq.
Qed.

Lemma occurrenceDiagnostics_nil definitions registry o :
  NewRegistry definitions = Ok registry → occurrenceDiagnostics registry o = [] ↔ valid_use registry o.
Proof.
  intros Hreg. unfold occurrenceDiagnostics, valid_use. destruct (Lookup registry _) as [d|] eqn:Hd; [|naive_solver].
  rewrite app_nil, annotationArguments_nil by by eapply NewRegistry_sound. split.
  - intros [Ht Ha]. exists d. by destruct (Contains _ _).
  - intros (d' & [= <-] & Ht & Ha). by rewrite Ht.
Qed.

(** C30. The annotations of a program have no diagnostic exactly when each of them
    is defined, stands at a declaration it may describe, assigns every argument
    to one definition of its name or position with a value of a kind it takes,
    none twice unless it is variadic, and all that are required. *)
Theorem Occurrences_exact definitions registry occurrences :
  NewRegistry definitions = Ok registry →
  Occurrences occurrences registry = [] ↔ ∀ o, o ∈ occurrences → valid_use registry o.
Proof.
  intros Hreg. unfold Occurrences. rewrite sort_stable_nil, concat_nil_iff.
  setoid_rewrite list_elem_of_fmap. split.
  - intros Hnil o Ho. apply (occurrenceDiagnostics_nil definitions); [done|]. by apply Hnil; exists o.
  - intros Hall l (o & -> & Ho). apply (occurrenceDiagnostics_nil definitions); [done|]. by apply Hall.
Qed.

(** [Error] is the position, with defaults for what is missing, followed by
    [Message]. *)
Lemma Error_Message diagnostic :
  Error diagnostic = position_prefix (vd_Position diagnostic) +:+ Message diagnostic.
Proof. unfold Message, Error. by rewrite trim_prefix_app. Qed.
End theorem.

(** ** Applied *)

#[local] Existing Instance ascii_tables.

Definition order_definition : AnnotationDefinition :=
  mkDefinition "core.Order" (Targets [TargetType; TargetFunction]) false
    [mkArgumentDefinition "value" [KindInteger] [] ValueDomainNone true true false;
     mkArgumentDefinition "names" [KindList] [KindString] ValueDomainNone false false false].

Definition order_at (target : string) (arguments : list Argument) : ScanOccurrence :=
  mkScanOccurrence (mkAnnotation "core.Order" arguments (mkPosition "a.go" 0 3 1) "") target "main".

Lemma Occurrences_exact_witness :
  (∃ registry, NewRegistry [order_definition] = Ok registry ∧
     valid_use registry (order_at TargetType [mkArgument "" (VInteger 3)])) ∧
  (Code <$> Occurrences [order_at TargetVariable [mkArgument "names" (VList [VInteger 1])]]
    (default (mkRegistry ∅ []) (match NewRegistry [order_definition] with Ok r => Some r | Fail _ => None end))) =
    ["invalid-target"; "wrong-list-element-kind"; "missing-required"].
Proof.
  split; [|vm_compute; reflexivity].
  destruct (NewRegistry [order_definition]) as [registry|e] eqn:Hreg; [|vm_compute in Hreg; congruence].
  exists registry. split; [reflexivity|].
  apply (proj1 (Occurrences_exact [order_definition] registry [order_at TargetType [mkArgument "" (VInteger 3)]] Hreg)); [|by left].
  vm_compute in Hreg. injection Hreg as <-. vm_compute. reflexivity.
Defined.
