(* ===== verification/Bootstrap.v ===== *)
(** Package [compiler/bootstrap]: the application-platform features that
    annotations enable on an application marker (bootstrap.go). *)
From S2P Require Import Prelude GoSort GoStrings Provider Annotation.

(** ** Definitions *)

Definition ManagementAnnotation : string := "management.Enable".
Definition LoggingAnnotation : string := "observability.Logging".
Definition CapabilityManagement : string := "management".
Definition CapabilityLogging : string := "observability.logging".
Definition RuntimeHTTPServeMux : string := "http.serve-mux".

Definition EndpointHealth : string := "health".
Definition EndpointLiveness : string := "liveness".
Definition EndpointReadiness : string := "readiness".
Definition EndpointInfo : string := "info".
Definition EndpointMetrics : string := "metrics".
Definition EndpointConfigProps : string := "configprops".
Definition EndpointModules : string := "modules".
Definition EndpointLoggers : string := "loggers".
Definition endpointNames : list string :=
  [EndpointHealth; EndpointLiveness; EndpointReadiness; EndpointInfo; EndpointMetrics; EndpointConfigProps;
   EndpointModules; EndpointLoggers].

Record OptionDefinition := mkOptionDefinition {
  od_Name : string;
  od_Kind : string;
  od_ListItemKinds : list string;
  od_AllowedStrings : list string;
  od_Required : bool;
  od_UniqueItems : bool;
  od_MinimumItems : Z;
  od_SortItems : bool;
}.

Record EntryPoint := mkEntryPoint { ep_Package : string; ep_Symbol : string }.

(** [Definition] *)
Record FeatureDefinition := mkFeatureDefinition {
  fd_Annotation : string;
  fd_Capability : string;
  fd_Options : list OptionDefinition;
  fd_Requirements : list string;
  fd_SourceID : string;
  fd_SourceVersion : string;
  fd_EntryPoints : list EntryPoint;
}.

Definition Builtins : list FeatureDefinition :=
  [mkFeatureDefinition ManagementAnnotation CapabilityManagement
     [mkOptionDefinition "expose" KindList [KindString] endpointNames true true 1 true;
      mkOptionDefinition "access" KindString [] ["public"; "loopback"] false false 0 false]
     [RuntimeHTTPServeMux] "" "" [];
   mkFeatureDefinition LoggingAnnotation CapabilityLogging [] [] "" "" []].

(** ** Features *)

(** [Option] *)
Record FeatureOption := mkOption { op_Name : string; op_value : Value }.

Record Feature := mkFeature {
  ft_Annotation : string;
  ft_Capability : string;
  ft_SourceID : string;
  ft_SourceVersion : string;
  ft_Position : Position;
  ft_PhysicalPosition : Position;
  ft_options : list FeatureOption;
  ft_requirements : list string;
  ft_entryPoints : list EntryPoint;
}.

(** [Metadata] is its features. *)
Definition Metadata : Type := list Feature.

Fixpoint stringItems (items : list Value) : option (list string) :=
  match items with
  | [] => Some []
  | item :: rest => if decide (v_Kind item = KindString) then cons (v_String item) <$> stringItems rest else None
  end.

(** [StringList] and [String] of a feature. *)
Definition StringList (feature : Feature) (name : string) : option (list string) :=
  match list_find (λ option, op_Name option = name ∧ v_Kind (op_value option) = KindList) (ft_options feature) with
  | Some (_, option) => stringItems (v_List (op_value option))
  | None => None
  end.
Definition StringOption (feature : Feature) (name : string) : option string :=
  v_String ∘ op_value ∘ snd <$>
    list_find (λ option, op_Name option = name ∧ v_Kind (op_value option) = KindString) (ft_options feature).

Record Management := mkManagement { mg_endpoints : list string; mg_access : string }.
Definition Access (management : Management) : string :=
  if decide (mg_access management = "") then "loopback" else mg_access management.

(** [feature], [Enabled], [Management] and [MissingRequirements] of a [Metadata]. *)
Definition feature_of (metadata : Metadata) (capability : string) : option Feature :=
  snd <$> list_find (λ feature, ft_Capability feature = capability) metadata.
Definition Enabled (metadata : Metadata) (capability : string) : bool :=
  bool_decide (is_Some (feature_of metadata capability)).
Definition management_of (metadata : Metadata) : option Management :=
  feature ← feature_of metadata CapabilityManagement;
  values ← StringList feature "expose";
  Some (mkManagement values (default "" (StringOption feature "access"))).
Definition MissingRequirements (metadata : Metadata) (available : list string) : list Feature :=
  filter (λ feature, Exists (λ requirement, requirement ∉ available) (ft_requirements feature)) metadata.

(** [Application]; its name is not read. *)
Record Application := mkApplication { ap_SymbolID : string; ap_Name : string }.

Record BootstrapDiagnostic := mkBootstrapDiagnostic {
  bd_Position : Position;
  bd_PhysicalPosition : Position;
  bd_SymbolID : string;
  bd_Annotation : string;
  bd_Kind : string;
  bd_Message : string;
}.

Record BootstrapResult := mkResult {
  br_metadata : gmap string Metadata;
  br_diagnostics : list BootstrapDiagnostic;
}.

(** The result's [Metadata]; an absent symbol has none. *)
Definition MetadataOf (result : BootstrapResult) (symbolID : string) : Metadata :=
  default [] (br_metadata result !! symbolID).

(** [renderPosition], and [Error] of a diagnostic *)
Definition renderPosition (position : Position) : string :=
  (if decide (Filename position = "") then "<unknown>" else Filename position) +:+ ":" +:+
  itoa (if (Line position <=? 0)%Z then 1 else Line position) +:+ ":" +:+
  itoa (if (Column position <=? 0)%Z then 1 else Column position).
Definition Error (d : BootstrapDiagnostic) : string :=
  renderPosition (bd_Position d) +:+ ": " +:+ bd_Message d.

(** ** The catalogue of definitions *)

Section definitions.
Context `{UnicodeTables}.

Definition zero_position : Position := mkPosition "" 0 0 0.

Definition entryPoint_less : EntryPoint → EntryPoint → bool :=
  by_key ep_Package str_ltb (on_key ep_Symbol str_ltb).

(** The copy has its lists sorted. *)
Definition cloneOption (option : OptionDefinition) : OptionDefinition :=
  mkOptionDefinition (od_Name option) (od_Kind option) (sort_strings (od_ListItemKinds option))
    (sort_strings (od_AllowedStrings option)) (od_Required option) (od_UniqueItems option) (od_MinimumItems option)
    (od_SortItems option).
Definition cloneDefinition (definition : FeatureDefinition) : FeatureDefinition :=
  mkFeatureDefinition (fd_Annotation definition) (fd_Capability definition)
    (sort_stable (on_key od_Name str_ltb) (cloneOption <$> fd_Options definition))
    (sort_strings (fd_Requirements definition)) (fd_SourceID definition) (fd_SourceVersion definition)
    (sort_stable entryPoint_less (fd_EntryPoints definition)).

Definition entryPoint_key (entryPoint : EntryPoint) : string :=
  ep_Package entryPoint +:+ str1 (chr 0) +:+ ep_Symbol entryPoint.

Fixpoint entryPointsProblem (annotation : string) (entryPoints : list EntryPoint) (seen : gset string) : string :=
  match entryPoints with
  | [] => ""
  | entryPoint :: rest =>
    if bool_decide (trim_space (ep_Package entryPoint) = "") ||
       negb (bool_decide (trim_space (ep_Package entryPoint) = ep_Package entryPoint)) ||
       bool_decide (trim_space (ep_Symbol entryPoint) = "") ||
       negb (bool_decide (trim_space (ep_Symbol entryPoint) = ep_Symbol entryPoint)) then
      "bootstrap definition for @" +:+ annotation +:+ " contains an invalid entrypoint"
    else if bool_decide (entryPoint_key entryPoint ∈ seen) then
      "bootstrap definition for @" +:+ annotation +:+ " contains duplicate entrypoint " +:+
        ep_Package entryPoint +:+ "." +:+ ep_Symbol entryPoint
    else entryPointsProblem annotation rest ({[entryPoint_key entryPoint]} ∪ seen)
  end.

Definition sourceDefinitionProblem (definition : FeatureDefinition) : string :=
  let about (rest : string) : string := "bootstrap definition for @" +:+ fd_Annotation definition +:+ rest in
  if negb (Bool.eqb (bool_decide (fd_SourceID definition = "")) (bool_decide (fd_SourceVersion definition = ""))) then
    about " must declare both source ID and source version"
  else if negb (bool_decide (trim_space (fd_SourceID definition) = fd_SourceID definition)) ||
          negb (bool_decide (trim_space (fd_SourceVersion definition) = fd_SourceVersion definition)) then
    about " requires trimmed source metadata"
  else if negb (bool_decide (fd_EntryPoints definition = [])) && bool_decide (fd_SourceID definition = "") then
    about " cannot declare entrypoints without source metadata"
  else entryPointsProblem (fd_Annotation definition) (fd_EntryPoints definition) ∅.

Fixpoint optionsProblem (annotation : string) (options : list OptionDefinition) (seen : gset string) : string :=
  match options with
  | [] => ""
  | option :: rest =>
    if bool_decide (trim_space (od_Name option) = "") ||
       negb (bool_decide (trim_space (od_Name option) = od_Name option)) then
      "bootstrap definition for @" +:+ annotation +:+ " contains an invalid option name"
    else if bool_decide (od_Name option ∈ seen) then
      "bootstrap definition for @" +:+ annotation +:+ " contains duplicate option " +:+ go_quote (od_Name option)
    else if (od_MinimumItems option <? 0)%Z then
      "bootstrap definition for @" +:+ annotation +:+ " option " +:+ go_quote (od_Name option) +:+
        " has a negative minimum item count"
    else optionsProblem annotation rest ({[od_Name option]} ∪ seen)
  end.
Definition optionDefinitionProblem (definition : FeatureDefinition) : string :=
  optionsProblem (fd_Annotation definition) (fd_Options definition) ∅.

Definition definitionProblem (definition : FeatureDefinition) : string :=
  if bool_decide (trim_space (fd_Annotation definition) = "") ||
     negb (bool_decide (trim_space (fd_Annotation definition) = fd_Annotation definition)) then
    "bootstrap definition requires a trimmed annotation name"
  else if bool_decide (trim_space (fd_Capability definition) = "") then
    "bootstrap definition for @" +:+ fd_Annotation definition +:+ " requires a capability"
  else
    let problem := sourceDefinitionProblem definition in
    if negb (bool_decide (problem = "")) then problem else optionDefinitionProblem definition.

(** What the loop of [indexDefinitions] keeps: the definitions by annotation,
    the annotation of each capability, the diagnostics. *)
Record definitionState := mkDefinitionState {
  ds_result : gmap string FeatureDefinition;
  ds_capabilities : gmap string string;
  ds_diagnostics : list BootstrapDiagnostic;
}.

Definition rejectDefinition (definition : FeatureDefinition) (kind message : string) (state : definitionState)
    : definitionState :=
  mkDefinitionState (ds_result state) (ds_capabilities state)
    (ds_diagnostics state ++
     [mkBootstrapDiagnostic zero_position zero_position "" (fd_Annotation definition) kind message]).

Definition indexDefinition (state : definitionState) (definition : FeatureDefinition) : definitionState :=
  let problem := definitionProblem definition in
  if negb (bool_decide (problem = "")) then rejectDefinition definition "invalid-definition" problem state
  else if bool_decide (is_Some (ds_result state !! fd_Annotation definition)) then
    rejectDefinition definition "duplicate-definition"
      ("bootstrap definition for @" +:+ fd_Annotation definition +:+ " is declared more than once") state
  else
    match ds_capabilities state !! fd_Capability definition with
    | Some annotationName =>
      rejectDefinition definition "duplicate-capability"
        ("bootstrap capability " +:+ go_quote (fd_Capability definition) +:+ " is declared by both @" +:+
         annotationName +:+ " and @" +:+ fd_Annotation definition) state
    | None =>
      mkDefinitionState (<[fd_Annotation definition := cloneDefinition definition]> (ds_result state))
        (<[fd_Capability definition := fd_Annotation definition]> (ds_capabilities state)) (ds_diagnostics state)
    end.
Definition indexDefinitions (definitions : list FeatureDefinition)
    : gmap string FeatureDefinition * list BootstrapDiagnostic :=
  let state := foldl indexDefinition (mkDefinitionState ∅ ∅ []) definitions in
  (ds_result state, ds_diagnostics state).

(** The range over the map: capabilities are distinct, so its order does not
    matter. *)
Definition indexCapabilities (definitions : gmap string FeatureDefinition) : gmap string FeatureDefinition :=
  index_by fd_Capability ∅ (map_to_list definitions).*2.
End definitions.

(** ** The options of a feature *)

Section options.
Context `{UnicodeTables}.

Definition kindsText (kinds : list string) : string :=
  match kinds with
  | [kind] => kind
  | _ => "one of " +:+ join kinds ", "
  end.

Definition valueText (value : Value) : string :=
  if decide (v_Kind value = KindString) then v_String value
  else if decide (v_Kind value = KindIdentifier) then v_Identifier value
  else if decide (v_Kind value = KindInteger) then itoa (v_Integer value)
  else if decide (v_Kind value = KindBoolean) then (if v_Boolean value then "true" else "false")
  else "".

Fixpoint bootstrapOptionValue (value : ContributionValue) : Value :=
  let 'mkContributionValue kind str integer boolean identifier list := value in
  mkValue kind str integer boolean identifier (map bootstrapOptionValue list).

Definition physicalPosition (occurrence : Occurrence) : Position :=
  mkPosition (oc_PhysicalFile occurrence) (oc_PhysicalOffset occurrence) 0 0.

Definition occurrenceDiagnostic (occurrence : Occurrence) (kind message : string) : BootstrapDiagnostic :=
  mkBootstrapDiagnostic (oc_DisplayPosition occurrence) (physicalPosition occurrence) (oc_SymbolID occurrence)
    (an_Name (oc_Annotation occurrence)) kind message.

Definition optionDiagnostic (occurrence : Occurrence) (kind option message : string) : BootstrapDiagnostic :=
  mkBootstrapDiagnostic (oc_DisplayPosition occurrence) (physicalPosition occurrence)
    (oc_SymbolID occurrence +:+ "#" +:+ option) (an_Name (oc_Annotation occurrence)) kind message.

(** What the messages about an option start with. *)
Definition about_option (occurrence : Occurrence) (name rest : string) : string :=
  "bootstrap annotation @" +:+ an_Name (oc_Annotation occurrence) +:+ " option " +:+ go_quote name +:+ rest.

(** One item of [validateListOption]; the state is [seen]. *)
Definition validateItem (occurrence : Occurrence) (definition : OptionDefinition) (index : Z) (value : Value)
    (seen : gset string) : list BootstrapDiagnostic * gset string :=
  let name := od_Name definition in
  if negb (bool_decide (od_ListItemKinds definition = [])) &&
     negb (bool_decide (v_Kind value ∈ od_ListItemKinds definition)) then
    ([optionDiagnostic occurrence "invalid-list-item-kind" name
        (about_option occurrence name (" item " +:+ itoa index +:+ " requires " +:+
           kindsText (od_ListItemKinds definition) +:+ ", got " +:+ v_Kind value))], seen)
  else
    let text := valueText value in
    let unsupported :=
      if negb (bool_decide (od_AllowedStrings definition = [])) &&
         negb (bool_decide (text ∈ od_AllowedStrings definition)) then
        [optionDiagnostic occurrence "unsupported-item" name
           (about_option occurrence name (" contains unsupported value " +:+ go_quote text +:+ "; allowed values: " +:+
              join (od_AllowedStrings definition) ", "))]
      else [] in
    if negb (od_UniqueItems definition) then (unsupported, seen)
    else
      let duplicate :=
        if bool_decide (text ∈ seen) then
          [optionDiagnostic occurrence "duplicate-item" name
             (about_option occurrence name (" contains duplicate value " +:+ go_quote text))]
        else [] in
      (unsupported ++ duplicate, {[text]} ∪ seen).

Fixpoint validateItems (occurrence : Occurrence) (definition : OptionDefinition) (index : Z) (values : list Value)
    (seen : gset string) : list BootstrapDiagnostic :=
  match values with
  | [] => []
  | value :: rest =>
    let '(diagnostics, seen) := validateItem occurrence definition index value seen in
    diagnostics ++ validateItems occurrence definition (index + 1) rest seen
  end.

Definition validateListOption (occurrence : Occurrence) (definition : OptionDefinition) (values : list Value)
    : list BootstrapDiagnostic :=
  (if (Z.of_nat (length values) <? od_MinimumItems definition)%Z then
     [optionDiagnostic occurrence "too-few-items" (od_Name definition)
        (about_option occurrence (od_Name definition) (" requires at least " +:+ itoa (od_MinimumItems definition) +:+
           " item(s)"))]
   else []) ++ validateItems occurrence definition 0 values ∅.

Definition with_list (items : list Value) (value : Value) : Value :=
  let 'mkValue kind str integer boolean identifier _ := value in mkValue kind str integer boolean identifier items.

Definition compileOption (occurrence : Occurrence) (argument : Argument) (definition : OptionDefinition)
    : outcome (list BootstrapDiagnostic) FeatureOption :=
  let value := arg_Value argument in
  let name := od_Name definition in
  if negb (bool_decide (v_Kind value = od_Kind definition)) then
    Fail [optionDiagnostic occurrence "invalid-option-kind" name
      (about_option occurrence name (" requires " +:+ od_Kind definition +:+ ", got " +:+ v_Kind value))]
  else if negb (bool_decide (v_Kind value = KindList)) then
    let text := valueText value in
    if negb (bool_decide (od_AllowedStrings definition = [])) &&
       negb (bool_decide (text ∈ od_AllowedStrings definition)) then
      Fail [optionDiagnostic occurrence "unsupported-value" name
        (about_option occurrence name (" has unsupported value " +:+ go_quote text +:+ "; allowed values: " +:+
           join (od_AllowedStrings definition) ", "))]
    else Ok (mkOption name value)
  else
    match validateListOption occurrence definition (v_List value) with
    | [] =>
      Ok (mkOption name
        (if od_SortItems definition then with_list (sort_stable (on_key valueText str_ltb) (v_List value)) value
         else value))
    | diagnostics => Fail diagnostics
    end.

(** The arguments: those of a bootstrap contribution, or of the annotation. *)
Definition option_arguments (occurrence : Occurrence) : list Argument :=
  match ContributionOf is_bootstrap occurrence with
  | Some (BootstrapContribution _ options) =>
    (λ '(name, value), mkArgument name (bootstrapOptionValue value)) <$> options
  | _ => oc_Arguments occurrence
  end.

Definition option_index (definitions : list OptionDefinition) : gmap string OptionDefinition :=
  index_by od_Name ∅ definitions.

Record optionState := mkOptionState {
  os_assigned : gset string;
  os_options : list FeatureOption;
  os_diagnostics : list BootstrapDiagnostic;
}.

(** One argument of [compileOptions]. *)
Definition optionArgument (occurrence : Occurrence) (definitions : list OptionDefinition) (state : optionState)
    (argument : Argument) : optionState :=
  let name := arg_Name argument in
  let annotated := "bootstrap annotation @" +:+ an_Name (oc_Annotation occurrence) in
  match option_index definitions !! name with
  | None =>
    mkOptionState (os_assigned state) (os_options state) (os_diagnostics state ++
      [optionDiagnostic occurrence "unknown-option" name (annotated +:+ " does not define option " +:+ go_quote name)])
  | Some definition =>
    if bool_decide (name ∈ os_assigned state) then
      mkOptionState (os_assigned state) (os_options state) (os_diagnostics state ++
        [optionDiagnostic occurrence "duplicate-option" name
           (annotated +:+ " assigns option " +:+ go_quote name +:+ " more than once")])
    else
      match compileOption occurrence argument definition with
      | Ok option =>
        mkOptionState ({[name]} ∪ os_assigned state) (os_options state ++ [option]) (os_diagnostics state)
      | Fail diagnostics =>
        mkOptionState ({[name]} ∪ os_assigned state) (os_options state) (os_diagnostics state ++ diagnostics)
      end
  end.

Definition missingOptions (occurrence : Occurrence) (definitions : list OptionDefinition) (assigned : gset string)
    : list BootstrapDiagnostic :=
  (λ definition, optionDiagnostic occurrence "missing-option" (od_Name definition)
     ("bootstrap annotation @" +:+ an_Name (oc_Annotation occurrence) +:+ " requires option " +:+
      go_quote (od_Name definition))) <$>
    filter (λ definition, od_Required definition = true ∧ od_Name definition ∉ assigned) definitions.

Definition compileOptions (occurrence : Occurrence) (definitions : list OptionDefinition)
    : list FeatureOption * list BootstrapDiagnostic :=
  let state := foldl (optionArgument occurrence definitions) (mkOptionState ∅ [] []) (option_arguments occurrence) in
  (sort_stable (on_key op_Name str_ltb) (os_options state),
   os_diagnostics state ++ missingOptions occurrence definitions (os_assigned state)).

Definition compileFeature (occurrence : Occurrence) (definition : FeatureDefinition)
    : Feature * list BootstrapDiagnostic :=
  let '(options, diagnostics) := compileOptions occurrence (fd_Options definition) in
  (mkFeature (an_Name (oc_Annotation occurrence)) (fd_Capability definition) (fd_SourceID definition)
     (fd_SourceVersion definition) (oc_DisplayPosition occurrence) (physicalPosition occurrence) options
     (fd_Requirements definition) (fd_EntryPoints definition), diagnostics).
End options.

(** ** Compilation *)

Section compile.
Context `{UnicodeTables}.

Definition TargetFunction : string := "function".

Definition indexApplications (applications : list Application) : gmap string Application :=
  index_by ap_SymbolID ∅ applications.

(** [bootstrapDefinition]: the definition, and whether a tool contributed the
    capability. *)
Definition bootstrapDefinition (occurrence : Occurrence) (annotations capabilities : gmap string FeatureDefinition)
    : option FeatureDefinition * bool :=
  match ContributionOf is_bootstrap occurrence with
  | Some (BootstrapContribution capability _) => (capabilities !! capability, true)
  | _ => (annotations !! an_Name (oc_Annotation occurrence), false)
  end.

(** The key of [seen]. *)
Definition feature_key (occurrence : Occurrence) (definition : FeatureDefinition) : string :=
  oc_SymbolID occurrence +:+ str1 (chr 0) +:+ fd_Capability definition.

Record compileState := mkCompileState {
  cs_seen : gmap string Occurrence;
  cs_metadata : gmap string Metadata;
  cs_diagnostics : list BootstrapDiagnostic;
}.

Definition report (diagnostics : list BootstrapDiagnostic) (state : compileState) : compileState :=
  mkCompileState (cs_seen state) (cs_metadata state) (cs_diagnostics state ++ diagnostics).

(** One occurrence. *)
Definition compileOccurrence (applications : gmap string Application)
    (annotations capabilities : gmap string FeatureDefinition) (state : compileState) (occurrence : Occurrence)
    : compileState :=
  let annotated := "bootstrap annotation @" +:+ an_Name (oc_Annotation occurrence) in
  match bootstrapDefinition occurrence annotations capabilities with
  | (None, contributed) =>
    if contributed then
      report [occurrenceDiagnostic occurrence "unsupported-capability"
        "annotation tool contributed a bootstrap capability without a selected compiler definition"] state
    else state
  | (Some definition, _) =>
    if negb (bool_decide (oc_Target occurrence = TargetFunction)) then
      report [occurrenceDiagnostic occurrence "invalid-target"
        (annotated +:+ " must target an @Application function")] state
    else if bool_decide (applications !! oc_SymbolID occurrence = None) then
      report [occurrenceDiagnostic occurrence "missing-application"
        (annotated +:+ " requires @Application on the same function")] state
    else
      match cs_seen state !! feature_key occurrence definition with
      | Some previous =>
        report [occurrenceDiagnostic occurrence "duplicate-annotation"
          (annotated +:+ " is duplicated or conflicting on application " +:+ go_quote (oc_Name occurrence) +:+
           "; first declaration is at " +:+ renderPosition (oc_DisplayPosition previous))] state
      | None =>
        let '(feature, diagnostics) := compileFeature occurrence definition in
        let metadata :=
          if bool_decide (diagnostics = []) then
            <[oc_SymbolID occurrence := default [] (cs_metadata state !! oc_SymbolID occurrence) ++ [feature]]>
              (cs_metadata state)
          else cs_metadata state in
        mkCompileState (<[feature_key occurrence definition := occurrence]> (cs_seen state)) metadata
          (cs_diagnostics state ++ diagnostics)
      end
  end.

Definition feature_less : Feature → Feature → bool :=
  by_key ft_Capability str_ltb (on_key ft_Annotation str_ltb).
Definition sortFeatures (features : Metadata) : Metadata := sort_stable feature_less features.

Definition diagnostic_less : BootstrapDiagnostic → BootstrapDiagnostic → bool :=
  by_key (λ d, Filename (bd_PhysicalPosition d)) str_ltb
  (by_key (λ d, Offset (bd_PhysicalPosition d)) Z.ltb
  (by_key bd_Annotation str_ltb
  (by_key bd_Kind str_ltb
  (by_key bd_SymbolID str_ltb
  (on_key bd_Message str_ltb))))).
Definition sortDiagnostics (diagnostics : list BootstrapDiagnostic) : list BootstrapDiagnostic :=
  sort_stable diagnostic_less diagnostics.

Definition loggingManagementDiagnostics (symbolID : string) (metadata : Metadata) : list BootstrapDiagnostic :=
  match management_of metadata, feature_of metadata CapabilityManagement with
  | Some management, Some feature =>
    let diagnostic (kind message : string) :=
      mkBootstrapDiagnostic (ft_Position feature) (ft_PhysicalPosition feature) symbolID (ft_Annotation feature)
        kind message in
    if negb (bool_decide (EndpointLoggers ∈ mg_endpoints management)) then []
    else if negb (Enabled metadata CapabilityLogging) then
      [diagnostic "missing-logging-capability"
        ("management endpoint " +:+ str1 dquote +:+ "loggers" +:+ str1 dquote +:+
         " requires @observability.Logging on the same application")]
    else if negb (bool_decide (Access management = "loopback")) then
      [diagnostic "unsafe-logger-management-access"
        ("management endpoint " +:+ str1 dquote +:+ "loggers" +:+ str1 dquote +:+ " requires access=" +:+
         str1 dquote +:+ "loopback" +:+ str1 dquote)]
    else []
  | _, _ => []
  end.

(** The diagnostics of the last loop are one per application at most and are
    sorted afterwards, so its order does not matter. *)
Definition Compile (resolution : list Occurrence) (applications : list Application)
    (definitions : list FeatureDefinition) : BootstrapResult :=
  let '(annotations, definitionDiagnostics) := indexDefinitions definitions in
  if negb (bool_decide (definitionDiagnostics = [])) then mkResult ∅ (sortDiagnostics definitionDiagnostics)
  else
    let state := foldl (compileOccurrence (indexApplications applications) annotations (indexCapabilities annotations))
      (mkCompileState ∅ ∅ []) resolution in
    let metadata := sortFeatures <$> cs_metadata state in
    mkResult metadata (sortDiagnostics (cs_diagnostics state ++
      concat ((λ '(symbolID, m), loggingManagementDiagnostics symbolID m) <$> map_to_list metadata))).
End compile.
