(* ===== verification/BootstrapTheorems.v ===== *)
(** What the compilation of bootstrap annotations guarantees: the options and
    features it accepts, what it makes of them, and the rule for the loggers
    endpoint. *)
From S2P Require Import Prelude GoSort GoStrings Provider Annotation Validate Bootstrap.

(** ** Values that fit an option *)

Section values.
Context `{UnicodeTables}.

Definition allowed (definition : OptionDefinition) (text : string) : Prop :=
  od_AllowedStrings definition = [] ∨ text ∈ od_AllowedStrings definition.

Definition item_fits (definition : OptionDefinition) (item : Value) : Prop :=
  (od_ListItemKinds definition = [] ∨ v_Kind item ∈ od_ListItemKinds definition) ∧
  allowed definition (valueText item).

Definition value_fits (definition : OptionDefinition) (value : Value) : Prop :=
  v_Kind value = od_Kind definition ∧
  if decide (v_Kind value = KindList) then
    (od_MinimumItems definition ≤ Z.of_nat (length (v_List value)))%Z ∧
    Forall (item_fits definition) (v_List value) ∧
    (od_UniqueItems definition = true → NoDup (valueText <$> v_List value))
  else allowed definition (valueText value).

(** The value the feature gets. *)
Definition normal_value (definition : OptionDefinition) (value : Value) : Value :=
  if decide (v_Kind value = KindList ∧ od_SortItems definition = true)
  then with_list (sort_stable (on_key valueText str_ltb) (v_List value)) value else value.

Lemma neither_false (P Q : Prop) `{!Decision P, !Decision Q} :
  negb (bool_decide P) && negb (bool_decide Q) = false ↔ P ∨ Q.
Proof. repeat case_bool_decide; simpl; naive_solver. Qed.

Lemma neither_true (P Q : Prop) `{!Decision P, !Decision Q} :
  negb (bool_decide P) && negb (bool_decide Q) = true ↔ ¬ (P ∨ Q).
Proof. repeat case_bool_decide; simpl; naive_solver. Qed.

Lemma validateItem_nil occurrence definition index value seen ds seen' :
  validateItem occurrence definition index value seen = (ds, seen') →
  ds = [] ↔ item_fits definition value ∧ (od_UniqueItems definition = true → valueText value ∉ seen).
Proof.
  unfold validateItem, item_fits, allowed.
  destruct (negb (bool_decide (od_ListItemKinds definition = [])) && _) eqn:Hkind.
  { apply neither_true in Hkind. intros [= <- _]. split; [done|]. by intros [[? _] _]. }
  apply neither_false in Hkind.
  destruct (negb (bool_decide (od_AllowedStrings definition = [])) && _) eqn:Hallowed;
    [apply neither_true in Hallowed|apply neither_false in Hallowed];
    (destruct (od_UniqueItems definition); simpl; [|intros [= <- _]]).
  - intros [= <- _]. split; [done|by intros [[_ ?] _]].
  - split; [done|by intros [[_ ?] _]].
  - intros [= <- _]. case_bool_decide as Hseen; [|naive_solver]. split; [done|]. intros [_ Hno]. by destruct (Hno eq_refl).
  - split; [|done]. intros _. split; [done|]. intros ?. done.
Qed.

Lemma validateItem_seen occurrence definition index value seen seen' :
  validateItem occurrence definition index value seen = ([], seen') →
  seen' = if od_UniqueItems definition then {[valueText value]} ∪ seen else seen.
Proof. unfold validateItem. intros Hv. repeat case_match; simplify_eq/=; bool_prop; congruence. Qed.

Lemma validateItems_nil occurrence definition index values seen :
  validateItems occurrence definition index values seen = [] ↔
  Forall (item_fits definition) values ∧
  (od_UniqueItems definition = true →
     NoDup (valueText <$> values) ∧ ∀ value, value ∈ values → valueText value ∉ seen).
Proof.
  revert index seen. induction values as [|value values IH]; intros index seen; cbn [validateItems].
  { split; [|done]. intros _. split; [constructor|]. intros _. split; [constructor|by intros v ?%elem_of_nil]. }
  destruct (validateItem occurrence definition index value seen) as [ds seen'] eqn:Hv.
  pose proof (validateItem_nil _ _ _ _ _ _ _ Hv) as Hds. rewrite app_nil, IH, Hds, Forall_cons, fmap_cons, NoDup_cons.
  setoid_rewrite elem_of_cons. split.
  - intros ((Hfit & Hnew) & Hrest & Huniq). split; [done|]. intros Hu. destruct (Huniq Hu) as [Hnd Hall].
    assert (ds = []) as -> by by apply Hds. apply validateItem_seen in Hv. rewrite Hu in Hv. subst seen'. split_and!; [|done|].
    + intros (v & Heq & Hin)%list_elem_of_fmap. specialize (Hall v Hin). set_solver.
    + intros v [->|Hin]; [by apply Hnew|]. specialize (Hall v Hin). set_solver.
  - intros ((Hfit & Hrest) & Huniq).
    assert (item_fits definition value ∧ (od_UniqueItems definition = true → valueText value ∉ seen)) as Hok.
    { split; [done|]. intros Hu. destruct (Huniq Hu) as [_ Hall]. apply Hall. by left. }
    split; [done|]. split; [done|]. intros Hu. assert (ds = []) as -> by by apply Hds.
    apply validateItem_seen in Hv. rewrite Hu in Hv. subst seen'. destruct (Huniq Hu) as [[Hni Hnd] Hall].
    split; [done|]. intros v Hin. rewrite not_elem_of_union, not_elem_of_singleton. split; [|apply Hall; by right].
    intros Heq. apply Hni. rewrite <- Heq. by apply list_elem_of_fmap_2.
Qed.

Lemma validateListOption_nil occurrence definition values :
  validateListOption occurrence definition values = [] ↔
  (od_MinimumItems definition ≤ Z.of_nat (length values))%Z ∧ Forall (item_fits definition) values ∧
  (od_UniqueItems definition = true → NoDup (valueText <$> values)).
Proof.
  unfold validateListOption. rewrite app_nil, validateItems_nil.
  destruct (_ <? _)%Z eqn:E; bool_prop; split; try (intros (? & _); lia).
  - by intros [? _].
  - intros (_ & Hf & Hu). split_and!; [lia|done|]. intros Hq. by apply Hu.
  - intros (_ & Hf & Hu). split_and!; [done..|]. intros Hq. split; [by apply Hu|]. intros. apply not_elem_of_empty.
Qed.

(** An option is compiled exactly when its value fits. *)
Lemma compileOption_exact occurrence argument definition :
  match compileOption occurrence argument definition with
  | Ok option => value_fits definition (arg_Value argument) ∧
      option = mkOption (od_Name definition) (normal_value definition (arg_Value argument))
  | Fail diagnostics => diagnostics ≠ [] ∧ ¬ value_fits definition (arg_Value argument)
  end.
Proof.
  unfold compileOption, value_fits, normal_value, allowed.
  case_bool_decide as Hkind; simpl; [|split; [done|tauto]].
  case_bool_decide as Hlist; simpl.
  - rewrite decide_True by done. pose proof (validateListOption_nil occurrence definition (v_List (arg_Value argument))) as Hnil.
    destruct (validateListOption _ _ _) as [|d ds]; [|split; [done|]; intros [_ Hfit]; by apply Hnil in Hfit].
    split; [split; [done|]; by apply Hnil|]. destruct (od_SortItems definition).
    + by rewrite decide_True.
    + by rewrite decide_False by naive_solver.
  - rewrite decide_False by done. rewrite (decide_False (P := _ ∧ _)) by naive_solver.
    repeat case_bool_decide; simpl; naive_solver.
Qed.
End values.

(** ** The options of an annotation *)

Section options.
Context `{UnicodeTables} (occurrence : Occurrence) (definitions : list OptionDefinition).
Context (Hnames : NoDup (od_Name <$> definitions)).

Lemma option_index_lookup name definition :
  option_index definitions !! name = Some definition ↔ definition ∈ definitions ∧ od_Name definition = name.
Proof. by apply index_by_empty. Qed.

(** The option an argument becomes. *)
Definition normal_option (argument : Argument) : option FeatureOption :=
  (λ definition, mkOption (od_Name definition) (normal_value definition (arg_Value argument))) <$>
    option_index definitions !! arg_Name argument.

(** Every argument sets an option of its name to a value that fits, none twice. *)
Definition options_fit (arguments : list Argument) : Prop :=
  (∀ a, a ∈ arguments → ∃ d, d ∈ definitions ∧ od_Name d = arg_Name a ∧ value_fits d (arg_Value a)) ∧
  NoDup (arg_Name <$> arguments).

Record option_inv (arguments : list Argument) (state : optionState) : Prop := {
  option_exact : os_diagnostics state = [] ↔ options_fit arguments;
  option_assigned : os_diagnostics state = [] → os_assigned state = list_to_set (arg_Name <$> arguments);
  option_values : os_diagnostics state = [] → os_options state = omap normal_option arguments;
}.

Lemma options_fit_snoc arguments a d :
  option_index definitions !! arg_Name a = Some d →
  options_fit (arguments ++ [a]) ↔
  options_fit arguments ∧ value_fits d (arg_Value a) ∧ arg_Name a ∉ arg_Name <$> arguments.
Proof.
  intros Hd. unfold options_fit. rewrite fmap_app, NoDup_app. setoid_rewrite elem_of_app.
  setoid_rewrite list_elem_of_singleton. split.
  - intros (Ha & Hnd & Hno & _). split_and!; [by intros x Hx; apply Ha; left|done| |].
    + destruct (Ha a) as (d' & Hd' & Hn & Hf); [by right|].
      assert (option_index definitions !! arg_Name a = Some d') as Hd2 by by apply option_index_lookup. congruence.
    + intros Hin. apply (Hno _ Hin). simpl. set_solver.
  - intros ((Ha & Hnd) & Hf & Hno). split_and!; [|done| |apply NoDup_singleton].
    + intros x [Hx| ->]; [by apply Ha|]. apply option_index_lookup in Hd as [? ?]. by exists d.
    + intros n Hn Hin. simpl in Hin. set_solver.
Qed.

Lemma option_step arguments a state :
  option_inv arguments state → option_inv (arguments ++ [a]) (optionArgument occurrence definitions state a).
Proof.
  intros [Hex Has Hval]. unfold optionArgument.
  assert (∀ x ds, ¬ options_fit (arguments ++ [a]) → os_diagnostics x = os_diagnostics state ++ ds → ds ≠ [] →
    option_inv (arguments ++ [a]) x) as Hbad.
  { intros x ds Hno Hx Hds. split; rewrite Hx; [split; [by intros [_ ?]%app_nil|done]|by intros [_ ?]%app_nil..]. }
  destruct (option_index definitions !! arg_Name a) as [d|] eqn:Hd.
  2: { eapply Hbad; [|done|done]. intros [Ha _]. destruct (Ha a) as (d & Hin & Hn & _); [apply elem_of_app; right; by left|].
    assert (option_index definitions !! arg_Name a = Some d) by by apply option_index_lookup. congruence. }
  pose proof (options_fit_snoc arguments a d Hd) as Hsnoc.
  case_bool_decide as Hdup.
  { destruct (decide (os_diagnostics state = [])) as [Hnil|Hnil].
    - eapply Hbad; [|done|done]. rewrite Hsnoc. intros (_ & _ & Hno). rewrite Has in Hdup by done. set_solver.
    - eapply Hbad; [|done|done]. rewrite Hsnoc, <- Hex. tauto. }
  pose proof (compileOption_exact occurrence a d) as Hc.
  destruct (compileOption occurrence a d) as [option|ds].
  2: { eapply Hbad; [|done|tauto]. rewrite Hsnoc. tauto. }
  destruct Hc as [Hfit ->]. split; simpl.
  - rewrite Hex, Hsnoc. split; [|tauto]. intros Hok. split_and!; [done..|]. intros Hin. apply Hdup.
    rewrite Has by by apply Hex. set_solver.
  - intros Hnil. rewrite fmap_app, list_to_set_app_L, Has by done. set_solver.
  - intros Hnil. rewrite omap_app, Hval by done. simpl. unfold normal_option at 3. by rewrite Hd.
Qed.

Lemma options_checked arguments :
  option_inv arguments (foldl (optionArgument occurrence definitions) (mkOptionState ∅ [] []) arguments).
Proof.
  induction arguments as [|a arguments IH] using rev_ind; [|rewrite foldl_app; by apply option_step].
  split; simpl; [|done..]. split; [|done]. intros _. split; [by intros a ?%elem_of_nil|constructor].
Qed.

Definition options_valid : Prop :=
  options_fit (option_arguments occurrence) ∧
  ∀ d, d ∈ definitions → od_Required d = true → od_Name d ∈ arg_Name <$> option_arguments occurrence.

Lemma compileOptions_exact :
  ((compileOptions occurrence definitions).2 = [] ↔ options_valid) ∧
  ((compileOptions occurrence definitions).2 = [] → (compileOptions occurrence definitions).1 =
     sort_stable (on_key op_Name str_ltb) (omap normal_option (option_arguments occurrence))).
Proof.
  unfold compileOptions, options_valid. destruct (options_checked (option_arguments occurrence)) as [Hex Has Hval].
  simpl. unfold missingOptions. rewrite app_nil, <- (length_zero_iff_nil (_ <$> _)), length_fmap, length_zero_iff_nil. split.
  - rewrite Hex. split; intros [Hfit Hreq]; (split; [done|]).
    + intros d Hd Hr. apply dec_stable. intros Hno.
      assert (d ∈ filter (λ definition, od_Required definition = true ∧ od_Name definition ∉ os_assigned
        (foldl (optionArgument occurrence definitions) (mkOptionState ∅ [] []) (option_arguments occurrence))) definitions) as Hin.
      { apply list_elem_of_filter. rewrite Has by by apply Hex. set_solver. }
      rewrite Hreq in Hin. by apply elem_of_nil in Hin.
    + apply elem_of_nil_inv. intros d [[Hr Hno] Hd]%list_elem_of_filter. apply Hno. rewrite Has by by apply Hex.
      specialize (Hreq d Hd Hr). set_solver.
  - intros [Hnil _]. by rewrite Hval.
Qed.
End options.

(** ** The catalogue *)

Section catalogue.
Context `{UnicodeTables}.

Lemma optionsProblem_names annotation options seen :
  optionsProblem annotation options seen = "" →
  NoDup (od_Name <$> options) ∧ ∀ d, d ∈ options → od_Name d ∉ seen.
Proof.
  revert seen. induction options as [|x options IH]; intros seen; cbn [optionsProblem].
  { intros _. split; [constructor|by intros d ?%elem_of_nil]. }
  repeat case_match; try done. bool_prop. intros [Hnd Hall]%IH. split.
  - constructor; [|done]. intros (d & Hd & Hin)%list_elem_of_fmap. specialize (Hall d Hin). set_solver.
  - intros d [->|Hin]%elem_of_cons; [done|]. specialize (Hall d Hin). set_solver.
Qed.

Lemma definitionProblem_names definition :
  definitionProblem definition = "" → NoDup (od_Name <$> fd_Options (cloneDefinition definition)).
Proof.
  unfold definitionProblem. repeat case_match; try done.
  - intros Hp. bool_prop. congruence.
  - intros [Hnd _]%optionsProblem_names. simpl. rewrite sort_stable_perm, <- list_fmap_compose. done.
Qed.

(** A catalogue without contradictions. *)
Definition catalogue (definitions : list FeatureDefinition) : Prop :=
  (∀ d, d ∈ definitions → definitionProblem d = "") ∧
  NoDup (fd_Annotation <$> definitions) ∧ NoDup (fd_Capability <$> definitions).

Record catalogue_inv (definitions : list FeatureDefinition) (state : definitionState) : Prop := {
  catalogue_exact : ds_diagnostics state = [] ↔ catalogue definitions;
  catalogue_result : ds_diagnostics state = [] →
    ds_result state = index_by fd_Annotation ∅ (cloneDefinition <$> definitions);
  catalogue_capabilities c : ds_diagnostics state = [] →
    is_Some (ds_capabilities state !! c) ↔ c ∈ fd_Capability <$> definitions;
}.

Lemma catalogue_snoc definitions d :
  catalogue (definitions ++ [d]) ↔ catalogue definitions ∧ definitionProblem d = "" ∧
    fd_Annotation d ∉ fd_Annotation <$> definitions ∧ fd_Capability d ∉ fd_Capability <$> definitions.
Proof.
  unfold catalogue. rewrite !fmap_app, !NoDup_app. setoid_rewrite elem_of_app. simpl.
  setoid_rewrite list_elem_of_singleton. split.
  - intros (Hp & (Ha & Hna & _) & (Hc & Hnc & _)). split_and!; try naive_solver.
  - intros ((Hp & Ha & Hc) & Hd & Hna & Hnc). split_and!; try done; try apply NoDup_singleton; naive_solver.
Qed.

Lemma catalogue_step definitions d state :
  catalogue_inv definitions state → catalogue_inv (definitions ++ [d]) (indexDefinition state d).
Proof.
  intros [Hex Hres Hcap].
  assert (∀ kind message, ¬ catalogue (definitions ++ [d]) →
    catalogue_inv (definitions ++ [d]) (rejectDefinition d kind message state)) as Hbad.
  { intros kind message Hno. split; simpl; [split; [by intros [_ ?]%app_nil|done]|by intros [_ ?]%app_nil|by intros ? [_ ?]%app_nil]. }
  unfold indexDefinition. pose proof (catalogue_snoc definitions d) as Hsnoc.
  case_bool_decide as Hproblem; simpl; [|apply Hbad; tauto].
  assert (∀ n, ds_diagnostics state = [] → is_Some (ds_result state !! n) ↔ n ∈ fd_Annotation <$> definitions) as Hann.
  { intros n Hnil. rewrite Hres by done. pose proof (proj1 Hex Hnil) as (_ & Hnd & _).
    assert (NoDup (fd_Annotation <$> (cloneDefinition <$> definitions))) by by rewrite <- list_fmap_compose.
    split.
    - intros [x (Hx & Hn)%index_by_empty]; [|done]. apply list_elem_of_fmap in Hx as (y & -> & Hy).
      apply list_elem_of_fmap. by exists y.
    - intros (y & -> & Hy)%list_elem_of_fmap. exists (cloneDefinition y). apply index_by_empty; [done|].
      split; [by apply list_elem_of_fmap_2|done]. }
  case_bool_decide as Hdup.
  { apply Hbad. rewrite Hsnoc, <- Hex. intros (Hnil & _ & Hno & _). by apply Hno, Hann. }
  destruct (ds_capabilities state !! fd_Capability d) as [a|] eqn:Hc.
  { apply Hbad. rewrite Hsnoc, <- Hex. intros (Hnil & _ & _ & Hno). apply Hno, Hcap; [done|]. by rewrite Hc. }
  split; simpl.
  - rewrite Hex, Hsnoc. split; [|tauto]. intros Hok. split_and!; [done..| |].
    + intros Hin. by apply Hdup, Hann; [apply Hex|].
    + intros Hin%Hcap; [|by apply Hex]. rewrite Hc in Hin. by destruct Hin.
  - intros Hnil. rewrite Hres by done. by rewrite fmap_app, (index_by_snoc _ _ _ (cloneDefinition d)).
  - intros c Hnil. rewrite fmap_app, elem_of_app, <- Hcap by done. simpl. rewrite list_elem_of_singleton, lookup_insert_is_Some'.
    naive_solver.
Qed.

Lemma catalogue_checked definitions :
  catalogue_inv definitions (foldl indexDefinition (mkDefinitionState ∅ ∅ []) definitions).
Proof.
  induction definitions as [|d definitions IH] using rev_ind; [|rewrite foldl_app; by apply catalogue_step].
  split; simpl; [|done|].
  - split; [|done]. intros _. split_and!; [by intros d ?%elem_of_nil|constructor..].
  - intros c _. rewrite lookup_empty. split; [by intros []|by intros ?%elem_of_nil].
Qed.

(** The index of a catalogue. *)
Definition annotation_index (definitions : list FeatureDefinition) : gmap string FeatureDefinition :=
  index_by fd_Annotation ∅ (cloneDefinition <$> definitions).

Lemma indexDefinitions_exact definitions :
  ((indexDefinitions definitions).2 = [] ↔ catalogue definitions) ∧
  (catalogue definitions → (indexDefinitions definitions).1 = annotation_index definitions).
Proof.
  destruct (catalogue_checked definitions) as [Hex Hres _]. split; [done|]. intros Hok. apply Hres. by apply Hex.
Qed.

Lemma annotation_index_lookup definitions name d :
  catalogue definitions →
  annotation_index definitions !! name = Some d ↔
  ∃ d', d' ∈ definitions ∧ fd_Annotation d' = name ∧ d = cloneDefinition d'.
Proof.
  intros (_ & Hnd & _). unfold annotation_index. rewrite index_by_empty by by rewrite <- list_fmap_compose.
  rewrite list_elem_of_fmap. naive_solver.
Qed.

Lemma capability_index_lookup definitions c d :
  catalogue definitions →
  indexCapabilities (annotation_index definitions) !! c = Some d ↔
  ∃ d', d' ∈ definitions ∧ fd_Capability d' = c ∧ d = cloneDefinition d'.
Proof.
  intros Hok. pose proof Hok as (_ & Hann & Hcap). unfold indexCapabilities.
  assert (∀ x, x ∈ (map_to_list (annotation_index definitions)).*2 ↔ ∃ d', d' ∈ definitions ∧ x = cloneDefinition d') as Hin.
  { intros x. rewrite list_elem_of_fmap. split.
    - intros ([n y] & -> & Hy%elem_of_map_to_list). apply annotation_index_lookup in Hy as (d' & ? & ? & ?); [|done]. by exists d'.
    - intros (d' & Hd' & ->). exists (fd_Annotation d', cloneDefinition d'). split; [done|].
      apply elem_of_map_to_list, annotation_index_lookup; [done|]. by exists d'. }
  rewrite index_by_empty.
  - rewrite Hin. naive_solver.
  - rewrite <- list_fmap_compose. apply NoDup_fmap_2_strong; [|apply NoDup_map_to_list].
    intros [n x] [n' x'] Hx%elem_of_map_to_list Hx'%elem_of_map_to_list Heq. simpl in Heq.
    apply annotation_index_lookup in Hx as (d1 & Hd1 & <- & ->); [|done].
    apply annotation_index_lookup in Hx' as (d2 & Hd2 & <- & ->); [|done]. simpl in Heq.
    assert (d1 = d2) as ->; [|done]. by apply (NoDup_key fd_Capability definitions).
Qed.
End catalogue.

(** ** The loop over the occurrences *)

Section loop.
Context `{UnicodeTables} (applications : gmap string Application)
        (annotations capabilities : gmap string FeatureDefinition).
Context (Hann : ∀ n d, annotations !! n = Some d → NoDup (od_Name <$> fd_Options d))
        (Hcap : ∀ c d, capabilities !! c = Some d → NoDup (od_Name <$> fd_Options d)).

Definition recognized (o : Occurrence) : option FeatureDefinition :=
  (bootstrapDefinition o annotations capabilities).1.

(** A bootstrap annotation that may be compiled, or none. *)
Definition acceptable (o : Occurrence) : Prop :=
  match bootstrapDefinition o annotations capabilities with
  | (None, contributed) => contributed = false
  | (Some d, _) =>
    oc_Target o = TargetFunction ∧ is_Some (applications !! oc_SymbolID o) ∧ options_valid o (fd_Options d)
  end.

(** The features of an application and what makes them different. *)
Definition feature_keys (resolution : list Occurrence) : list string :=
  omap (λ o, feature_key o <$> recognized o) resolution.
Definition features (symbolID : string) (resolution : list Occurrence) : Metadata :=
  omap (λ o, if decide (oc_SymbolID o = symbolID) then (λ d, (compileFeature o d).1) <$> recognized o else None)
    resolution.

(** Where a feature comes from. *)
Definition feature_from (resolution : list Occurrence) (symbolID : string) (f : Feature) : Prop :=
  ∃ o d, o ∈ resolution ∧ recognized o = Some d ∧ oc_SymbolID o = symbolID ∧ acceptable o ∧
    f = (compileFeature o d).1.

Lemma recognized_names o d : recognized o = Some d → NoDup (od_Name <$> fd_Options d).
Proof.
  unfold recognized, bootstrapDefinition. destruct (ContributionOf _ _) as [[]|]; simpl; intros Hd;
    first [by eapply Hann|by eapply Hcap].
Qed.

Lemma compileFeature_exact o d :
  recognized o = Some d → (compileFeature o d).2 = [] ↔ options_valid o (fd_Options d).
Proof.
  intros Hd. unfold compileFeature. destruct (compileOptions_exact o (fd_Options d)) as [Hex _]; [by apply (recognized_names o)|].
  by destruct (compileOptions o (fd_Options d)).
Qed.

Lemma compileFeature_capability o d : ft_Capability (compileFeature o d).1 = fd_Capability d.
Proof. unfold compileFeature. by destruct (compileOptions o (fd_Options d)). Qed.

Record compile_inv (resolution : list Occurrence) (state : compileState) : Prop := {
  compile_exact : cs_diagnostics state = [] ↔
    (∀ o, o ∈ resolution → acceptable o) ∧ NoDup (feature_keys resolution);
  compile_seen k : cs_diagnostics state = [] → is_Some (cs_seen state !! k) ↔ k ∈ feature_keys resolution;
  compile_metadata s : cs_diagnostics state = [] → default [] (cs_metadata state !! s) = features s resolution;
  compile_distinct s m : cs_metadata state !! s = Some m →
    NoDup (ft_Capability <$> m) ∧
    ∀ f, f ∈ m → feature_from resolution s f ∧ is_Some (cs_seen state !! (s +:+ str1 (chr 0) +:+ ft_Capability f));
}.

Lemma feature_from_snoc resolution o s f : feature_from resolution s f → feature_from (resolution ++ [o]) s f.
Proof.
  intros (o' & d & Hin & Hrest). exists o', d. split; [|done]. apply elem_of_app. by left.
Qed.

Lemma accepted_snoc resolution o :
  (∀ x, x ∈ resolution ++ [o] → acceptable x) ↔ (∀ x, x ∈ resolution → acceptable x) ∧ acceptable o.
Proof. setoid_rewrite elem_of_app. setoid_rewrite list_elem_of_singleton. naive_solver. Qed.

Lemma keys_snoc resolution o :
  feature_keys (resolution ++ [o]) = feature_keys resolution ++ option_list (feature_key o <$> recognized o).
Proof. unfold feature_keys. rewrite omap_app. simpl. by destruct (recognized o). Qed.

Lemma features_snoc s resolution o :
  features s (resolution ++ [o]) = features s resolution ++
    if decide (oc_SymbolID o = s) then option_list ((λ d, (compileFeature o d).1) <$> recognized o) else [].
Proof. unfold features. rewrite omap_app. simpl. case_decide; [|done]. by destruct (recognized o). Qed.

(** What only adds diagnostics. *)
Lemma compile_report resolution o state ds :
  compile_inv resolution state → ds ≠ [] →
  ¬ ((∀ x, x ∈ resolution ++ [o] → acceptable x) ∧ NoDup (feature_keys (resolution ++ [o]))) →
  compile_inv (resolution ++ [o]) (report ds state).
Proof.
  intros Hinv Hds Hno. split; simpl; try by intros ? [_ ?]%app_nil.
  - split; [by intros [_ ?]%app_nil|done].
  - intros s m Hm. destruct (compile_distinct _ _ Hinv s m Hm) as [Hnd Hall]. split; [done|].
    intros f Hf. destruct (Hall f Hf) as [Hfrom Hs]. split; [by apply feature_from_snoc|done].
Qed.

Lemma compile_accept resolution o d state :
  compile_inv resolution state → recognized o = Some d → oc_Target o = TargetFunction →
  is_Some (applications !! oc_SymbolID o) → cs_seen state !! feature_key o d = None →
  (acceptable o ↔ options_valid o (fd_Options d)) →
  compile_inv (resolution ++ [o])
    (mkCompileState (<[feature_key o d := o]> (cs_seen state))
       (if bool_decide ((compileFeature o d).2 = [])
        then <[oc_SymbolID o := default [] (cs_metadata state !! oc_SymbolID o) ++ [(compileFeature o d).1]]> (cs_metadata state)
        else cs_metadata state)
       (cs_diagnostics state ++ (compileFeature o d).2)).
Proof.
  intros [Hex Hseen Hmeta Hdist] Hd Htarget Happ Hnew Hacc. pose proof (compileFeature_exact o d Hd) as Hvalid.
  assert (is_Some (cs_seen state !! feature_key o d) ↔ False) as Hnone by (rewrite Hnew; split; [by intros []|done]).
  split; cbn [cs_seen cs_metadata cs_diagnostics].
  - rewrite app_nil, accepted_snoc, Hex, keys_snoc, Hd, Hvalid, Hacc. simpl. rewrite NoDup_app.
    split; [|naive_solver]. intros [[Ha Hnd] Hv]. split_and!; [done..| |apply NoDup_singleton].
    intros k Hk ->%list_elem_of_singleton. apply Hseen in Hk; [by apply Hnone|by apply Hex].
  - intros k [Hnil _]%app_nil. rewrite keys_snoc, Hd, elem_of_app, <- Hseen, lookup_insert_is_Some' by done. simpl.
    rewrite list_elem_of_singleton. naive_solver.
  - intros s [Hnil Hds]%app_nil. rewrite bool_decide_eq_true_2 by done. rewrite features_snoc, <- Hmeta, Hd by done.
    case_decide as Hs; simpl.
    + subst s. by rewrite lookup_insert_eq.
    + rewrite lookup_insert_ne by done. by rewrite app_nil_r.
  - assert (∀ s m, cs_metadata state !! s = Some m → NoDup (ft_Capability <$> m) ∧ ∀ f, f ∈ m →
      feature_from (resolution ++ [o]) s f ∧
      is_Some (<[feature_key o d := o]> (cs_seen state) !! (s +:+ str1 (chr 0) +:+ ft_Capability f))) as Hold.
    { intros s m Hm. destruct (Hdist s m Hm) as [Hnd Hall]. split; [done|]. intros f Hf. destruct (Hall f Hf) as [Hfrom Hs].
      split; [by apply feature_from_snoc|]. rewrite lookup_insert_is_Some'. by right. }
    case_bool_decide as Hds; [|exact Hold]. intros s m. destruct (decide (oc_SymbolID o = s)) as [<-|Hne];
      [rewrite lookup_insert_eq|rewrite lookup_insert_ne by done; apply Hold].
    intros [= <-]. assert (feature_from (resolution ++ [o]) (oc_SymbolID o) (compileFeature o d).1) as Hfrom.
    { exists o, d. split_and!; [apply elem_of_app; right; by left|done|done|by apply Hacc, Hvalid|done]. }
    destruct (cs_metadata state !! oc_SymbolID o) as [m|] eqn:Hm; simpl.
    + destruct (Hold _ m Hm) as [Hnd Hall]. rewrite fmap_app, NoDup_app. simpl. split.
      * split_and!; [done| |apply NoDup_singleton]. intros c (f & -> & Hf)%list_elem_of_fmap Hc%list_elem_of_singleton.
        destruct (Hdist _ m Hm) as [_ Hall']. destruct (Hall' f Hf) as [_ Hs]. rewrite Hc in Hs.
        by apply Hnone.
      * intros f [Hf| ->%list_elem_of_singleton]%elem_of_app; [by apply Hall|]. split; [done|].
        unfold feature_key. by rewrite lookup_insert_eq.
    + split; [apply NoDup_singleton|]. intros f ->%list_elem_of_singleton. split; [done|].
      unfold feature_key. by rewrite lookup_insert_eq.
Qed.

Lemma compile_step resolution o state :
  compile_inv resolution state →
  compile_inv (resolution ++ [o]) (compileOccurrence applications annotations capabilities state o).
Proof.
  intros Hinv. unfold compileOccurrence.
  destruct (bootstrapDefinition o annotations capabilities) as [[d|] contributed] eqn:Hb.
  - assert (recognized o = Some d) as Hd by by unfold recognized; rewrite Hb.
    assert (acceptable o ↔ oc_Target o = TargetFunction ∧ is_Some (applications !! oc_SymbolID o) ∧
      options_valid o (fd_Options d)) as Hacc by by unfold acceptable; rewrite Hb.
    case_bool_decide as Htarget; simpl; [|apply compile_report; [done..|]; rewrite accepted_snoc; tauto].
    case_bool_decide as Happ.
    { apply compile_report; [done..|]. rewrite accepted_snoc, Hacc, Happ. intros [(_ & _ & [? ?] & _) _]. done. }
    apply not_eq_None_Some in Happ.
    destruct (cs_seen state !! feature_key o d) as [previous|] eqn:Hseen.
    + apply compile_report; [done..|]. rewrite accepted_snoc, keys_snoc, Hd. simpl. intros [[Ha _] Hnd].
      apply NoDup_app in Hnd as (Hnd & Hno & _). destruct (compile_exact _ _ Hinv) as [_ Hex].
      apply (Hno (feature_key o d)); [|by left]. apply (compile_seen _ _ Hinv); [by apply Hex|]. by rewrite Hseen.
    + pose proof (compile_accept resolution o d state Hinv Hd Htarget Happ Hseen ltac:(tauto)) as Hnew.
      exact Hnew.
  - assert (recognized o = None) as Hd by by unfold recognized; rewrite Hb.
    assert (acceptable o ↔ contributed = false) as Hacc by by unfold acceptable; rewrite Hb.
    destruct contributed; [apply compile_report; [done..|]; rewrite accepted_snoc; naive_solver|].
    destruct Hinv as [Hex Hseen Hmeta Hdist]. split.
    + rewrite accepted_snoc, keys_snoc, Hd, Hex. simpl. rewrite app_nil_r. naive_solver.
    + intros k Hnil. rewrite keys_snoc, Hd. simpl. rewrite app_nil_r. by apply Hseen.
    + intros s Hnil. rewrite features_snoc, Hd, Hmeta by done. case_decide; simpl; by rewrite app_nil_r.
    + intros s m Hm. destruct (Hdist s m Hm) as [Hnd Hall]. split; [done|]. intros f Hf. destruct (Hall f Hf) as [Hfrom Hs].
      split; [by apply feature_from_snoc|done].
Qed.

Lemma compiled resolution :
  compile_inv resolution
    (foldl (compileOccurrence applications annotations capabilities) (mkCompileState ∅ ∅ []) resolution).
Proof.
  induction resolution as [|o resolution IH] using rev_ind; [|rewrite foldl_app; by apply compile_step].
  split; simpl.
  - split; [|done]. intros _. split; [by intros o ?%elem_of_nil|constructor].
  - intros k _. rewrite lookup_empty. split; [by intros []|by intros ?%elem_of_nil].
  - intros s _. by rewrite lookup_empty.
  - intros s m Hm. by apply lookup_empty_Some in Hm.
Qed.
End loop.

(** ** The rule for the loggers endpoint *)

Section loggers.

(** An application that exposes its loggers has logging, and its management
    endpoints answer on the loopback interface only. *)
Definition loggers_safe (metadata : Metadata) : Prop :=
  ∀ f endpoints, f ∈ metadata → ft_Capability f = CapabilityManagement →
    StringList f "expose" = Some endpoints → EndpointLoggers ∈ endpoints →
    CapabilityLogging ∈ ft_Capability <$> metadata ∧ default "" (StringOption f "access") ∈ ["" ; "loopback"].

Lemma feature_of_exact metadata c f :
  NoDup (ft_Capability <$> metadata) → feature_of metadata c = Some f ↔ f ∈ metadata ∧ ft_Capability f = c.
Proof.
  intros Hnd. unfold feature_of. split.
  - intros ([i x] & (Hi & Hc & _)%list_find_Some & ->)%fmap_Some. split; [by eapply list_elem_of_lookup_2|done].
  - intros [Hin Hc]. destruct (list_find_elem_of (λ g, ft_Capability g = c) metadata f Hin Hc) as [[i x] Hi].
    rewrite Hi. simpl. f_equal. apply list_find_Some in Hi as (Hi & Hx & _).
    apply (NoDup_key ft_Capability metadata); [done|by eapply list_elem_of_lookup_2|done|congruence].
Qed.

Lemma feature_of_is_Some metadata c :
  is_Some (feature_of metadata c) ↔ c ∈ ft_Capability <$> metadata.
Proof.
  unfold feature_of. rewrite fmap_is_Some, list_elem_of_fmap. split.
  - intros [[i x] (Hi & Hc & _)%list_find_Some]. exists x. split; [done|by eapply list_elem_of_lookup_2].
  - intros (f & -> & Hin). by apply (list_find_elem_of _ metadata f).
Qed.

Lemma Access_loopback m : Access m = "loopback" ↔ mg_access m ∈ ["" ; "loopback"].
Proof.
  unfold Access. rewrite !elem_of_cons, elem_of_nil. case_decide; naive_solver.
Qed.

Lemma logging_nil s metadata :
  NoDup (ft_Capability <$> metadata) → loggingManagementDiagnostics s metadata = [] ↔ loggers_safe metadata.
Proof.
  intros Hnd. unfold loggingManagementDiagnostics, loggers_safe, management_of.
  destruct (feature_of metadata CapabilityManagement) as [f|] eqn:Hf; simpl.
  - apply feature_of_exact in Hf as [Hin Hc]; [|done].
    assert (∀ g, g ∈ metadata → ft_Capability g = CapabilityManagement → g = f) as Huniq.
    { intros g Hg Hgc. apply (NoDup_key ft_Capability metadata); [done..|congruence]. }
    destruct (StringList f "expose") as [endpoints|] eqn:Hexpose; simpl;
      [|split; [|done]; intros _ g es Hg Hgc; rewrite (Huniq g Hg Hgc); congruence].
    unfold Enabled. pose proof (feature_of_is_Some metadata CapabilityLogging) as Hlog.
    pose proof (Access_loopback (mkManagement endpoints (default "" (StringOption f "access")))) as Haccess. simpl in Haccess.
    repeat case_bool_decide; simpl; naive_solver.
  - split; [|done]. intros _ f es Hin Hc. assert (feature_of metadata CapabilityManagement = Some f) as Hs; [|congruence].
    by apply feature_of_exact.
Qed.
End loggers.

(** ** The whole compilation *)

Section theorems.
Context `{UnicodeTables}.

Lemma index_names definitions :
  catalogue definitions →
  (∀ n d, annotation_index definitions !! n = Some d → NoDup (od_Name <$> fd_Options d)) ∧
  (∀ c d, indexCapabilities (annotation_index definitions) !! c = Some d → NoDup (od_Name <$> fd_Options d)).
Proof.
  intros Hok. pose proof Hok as (Hp & _). split.
  - intros n d (d' & Hd' & _ & ->)%annotation_index_lookup; [|done]. by apply definitionProblem_names, Hp.
  - intros c d (d' & Hd' & _ & ->)%capability_index_lookup; [|done]. by apply definitionProblem_names, Hp.
Qed.

Lemma catalogue_perm definitions definitions' :
  definitions ≡ₚ definitions' → catalogue definitions → catalogue definitions'.
Proof.
  intros Hp (Hok & Ha & Hc). unfold catalogue. rewrite <- Hp. split; [|done].
  intros d Hd. apply Hok. by rewrite Hp.
Qed.

Lemma annotation_index_perm definitions definitions' :
  definitions ≡ₚ definitions' → catalogue definitions → annotation_index definitions = annotation_index definitions'.
Proof.
  intros Hp Hok. pose proof (catalogue_perm _ _ Hp Hok) as Hok'. apply map_eq. intros n. apply option_eq. intros d.
  rewrite !annotation_index_lookup by done. by setoid_rewrite Hp.
Qed.

Context (applications : list Application) (definitions : list FeatureDefinition).

(** What the compilation of a catalogue looks occurrences up in. *)
Definition catalogue_acceptable : Occurrence → Prop :=
  acceptable (indexApplications applications) (annotation_index definitions)
    (indexCapabilities (annotation_index definitions)).
Definition catalogue_keys : list Occurrence → list string :=
  feature_keys (annotation_index definitions) (indexCapabilities (annotation_index definitions)).
Definition catalogue_features (symbolID : string) : list Occurrence → Metadata :=
  features (annotation_index definitions) (indexCapabilities (annotation_index definitions)) symbolID.

Definition compile_state (resolution : list Occurrence) : compileState :=
  foldl (compileOccurrence (indexApplications applications) (annotation_index definitions)
    (indexCapabilities (annotation_index definitions))) (mkCompileState ∅ ∅ []) resolution.

Lemma compile_state_inv resolution :
  catalogue definitions →
  compile_inv (indexApplications applications) (annotation_index definitions)
    (indexCapabilities (annotation_index definitions)) resolution (compile_state resolution).
Proof. intros Hok. destruct (index_names definitions Hok). by apply compiled. Qed.

Lemma Compile_catalogue resolution :
  catalogue definitions →
  Compile resolution applications definitions =
    let state := compile_state resolution in
    let metadata := sortFeatures <$> cs_metadata state in
    mkResult metadata (sortDiagnostics (cs_diagnostics state ++
      concat ((λ '(symbolID, m), loggingManagementDiagnostics symbolID m) <$> map_to_list metadata))).
Proof.
  intros Hok. unfold Compile, compile_state. destruct (indexDefinitions_exact definitions) as [Hex Hres].
  rewrite <- Hres by done. destruct (indexDefinitions definitions) as [annotations ds]. simpl in *.
  by rewrite bool_decide_eq_true_2 by by apply Hex.
Qed.

Lemma MetadataOf_catalogue resolution s :
  catalogue definitions →
  MetadataOf (Compile resolution applications definitions) s =
    sortFeatures (default [] (cs_metadata (compile_state resolution) !! s)).
Proof.
  intros Hok. rewrite Compile_catalogue by done. unfold MetadataOf. cbv zeta. simpl. rewrite lookup_fmap.
  by destruct (_ !! s).
Qed.

Lemma loggers_nil (metadata : gmap string Metadata) :
  concat ((λ '(symbolID, m), loggingManagementDiagnostics symbolID m) <$> map_to_list metadata) = [] ↔
  ∀ s m, metadata !! s = Some m → loggingManagementDiagnostics s m = [].
Proof.
  rewrite concat_nil_iff. setoid_rewrite list_elem_of_fmap. split.
  - intros Hall s m Hm. apply Hall. exists (s, m). split; [done|by apply elem_of_map_to_list].
  - intros Hall l ([s m] & -> & Hm%elem_of_map_to_list). by apply Hall.
Qed.

Lemma loggers_safe_sorted metadata : loggers_safe (sortFeatures metadata) ↔ loggers_safe metadata.
Proof.
  unfold loggers_safe, sortFeatures. setoid_rewrite elem_of_sort_stable.
  assert (∀ c, c ∈ ft_Capability <$> sort_stable feature_less metadata ↔ c ∈ ft_Capability <$> metadata) as Hc
    by (intros c; by rewrite sort_stable_perm).
  by setoid_rewrite Hc.
Qed.

(** C29. For a catalogue without contradictions there are no diagnostics exactly
    when every bootstrap annotation stands on an application with options its
    definition allows, no application declares a capability twice, and no
    application exposes its loggers without logging or beyond the loopback
    interface; every application then has the features its annotations declare,
    in order. *)
Theorem Compile_exact resolution :
  catalogue definitions →
  let result := Compile resolution applications definitions in
  (br_diagnostics result = [] ↔
     (∀ o, o ∈ resolution → catalogue_acceptable o) ∧ NoDup (catalogue_keys resolution) ∧
     ∀ s, loggers_safe (catalogue_features s resolution)) ∧
  (br_diagnostics result = [] → ∀ s, MetadataOf result s = sortFeatures (catalogue_features s resolution)).
Proof.
  intros Hok result. pose proof (compile_state_inv resolution Hok) as [Hex _ Hmeta Hdist].
  assert (br_diagnostics result = [] ↔ cs_diagnostics (compile_state resolution) = [] ∧
    ∀ s m, cs_metadata (compile_state resolution) !! s = Some m → loggers_safe m) as Hds.
  { unfold result. rewrite Compile_catalogue by done. cbv zeta. simpl. unfold sortDiagnostics.
    rewrite sort_stable_nil, app_nil, loggers_nil. setoid_rewrite lookup_fmap_Some. apply and_iff_compat_l. split.
    - intros Hall s m Hm. apply loggers_safe_sorted, (logging_nil s); [|by eapply Hall; exists m].
      unfold sortFeatures. rewrite sort_stable_perm. by apply (Hdist s).
    - intros Hall s m (m' & <- & Hm). apply logging_nil; [|by apply loggers_safe_sorted, (Hall s)].
      unfold sortFeatures. rewrite sort_stable_perm. by apply (Hdist s). }
  rewrite Hds. unfold catalogue_acceptable, catalogue_keys, catalogue_features. split.
  - rewrite Hex. split.
    + intros [[Ha Hnd] Hl]. split_and!; [done..|]. intros s. rewrite <- Hmeta by by apply Hex.
      destruct (_ !! s) as [m|] eqn:Hm; [by apply (Hl s)|]. intros f es Hf. by apply elem_of_nil in Hf.
    + intros (Ha & Hnd & Hl). split; [done|]. intros s m Hm. specialize (Hl s). rewrite <- Hmeta in Hl by by apply Hex.
      unfold Metadata in *. by rewrite Hm in Hl.
  - intros [Hnil _] s. unfold result. rewrite MetadataOf_catalogue, Hmeta by done. done.
Qed.

(** C31. Whatever diagnostics there are, the features of an application are in
    strict order of their capabilities, and each is compiled from an annotation
    on that application which its definition allows. *)
Theorem Compile_conforms resolution s :
  catalogue definitions →
  let metadata := MetadataOf (Compile resolution applications definitions) s in
  StronglySorted (λ f g, str_ltb (ft_Capability f) (ft_Capability g) = true) metadata ∧
  ∀ f, f ∈ metadata →
    feature_from (indexApplications applications) (annotation_index definitions)
      (indexCapabilities (annotation_index definitions)) resolution s f.
Proof.
  intros Hok metadata. unfold metadata. rewrite MetadataOf_catalogue by done.
  pose proof (compile_distinct _ _ _ _ _ (compile_state_inv resolution Hok) s) as Hdist.
  destruct (cs_metadata (compile_state resolution) !! s) as [m|] eqn:Hm; simpl;
    [|split; [constructor|by intros f ?%elem_of_nil]].
  destruct (Hdist m eq_refl) as [Hnd Hall]. split.
  - unfold sortFeatures, feature_less. apply sort_stable_strict; [apply _|done].
  - intros f Hf%elem_of_sort_stable. by apply Hall.
Qed.

(** When nothing is reported, an application whose management endpoints
    include the loggers has logging enabled and serves them on the loopback
    interface only. *)
Theorem loggers_protected resolution s management :
  br_diagnostics (Compile resolution applications definitions) = [] →
  management_of (MetadataOf (Compile resolution applications definitions) s) = Some management →
  EndpointLoggers ∈ mg_endpoints management →
  Enabled (MetadataOf (Compile resolution applications definitions) s) CapabilityLogging = true ∧
  Access management = "loopback".
Proof.
  unfold Compile. destruct (indexDefinitions definitions) as [annotations ds].
  destruct (bool_decide (ds = [])); simpl; [|by intros _].
  set (state := foldl _ _ _). unfold MetadataOf. simpl.
  destruct ((sortFeatures <$> cs_metadata state) !! s) as [m|] eqn:Hm; simpl; [|done].
  intros [_ Hall]%sort_stable_nil%app_nil Hmanagement Hin. rewrite loggers_nil in Hall.
  specialize (Hall s m Hm). unfold loggingManagementDiagnostics in Hall. rewrite Hmanagement in Hall.
  destruct (feature_of m CapabilityManagement) as [f|] eqn:Hf; [|by unfold management_of in Hmanagement; rewrite Hf in Hmanagement].
  rewrite bool_decide_eq_true_2 in Hall by done. simpl in Hall.
  destruct (Enabled m CapabilityLogging); [|done]. by case_bool_decide.
Qed.

(** The order in which the definitions are given does not matter. *)
Lemma Compile_definition_order resolution definitions' :
  catalogue definitions → definitions ≡ₚ definitions' →
  Compile resolution applications definitions' = Compile resolution applications definitions.
Proof.
  intros Hok Hp. unfold Compile. destruct (indexDefinitions_exact definitions) as [Hex Hres].
  destruct (indexDefinitions_exact definitions') as [Hex' Hres']. pose proof (catalogue_perm _ _ Hp Hok) as Hok'.
  specialize (Hres Hok). specialize (Hres' Hok'). rewrite <- (annotation_index_perm _ _ Hp Hok), <- Hres in Hres'.
  destruct (indexDefinitions definitions) as [index ds], (indexDefinitions definitions') as [index' ds'].
  simpl in *. subst index'. by rewrite (proj2 Hex), (proj2 Hex').
Qed.
End theorems.

(** ** Applied *)

#[local] Existing Instance ascii_tables.

Definition management_at (symbolID : string) (arguments : list Argument) : Occurrence :=
  {| oc_Annotation := mkAnnotation ManagementAnnotation arguments (mkPosition "main.go" 10 2 1) "";
     oc_bound := true; oc_Target := TargetFunction; oc_Name := "main"; oc_SymbolID := symbolID;
     oc_PackagePath := "example/app"; oc_PhysicalFile := "main.go"; oc_PhysicalOffset := 10;
     oc_DisplayPosition := mkPosition "main.go" 10 2 1; oc_Contributions := [] |}.
Definition logging_at (symbolID : string) : Occurrence :=
  {| oc_Annotation := mkAnnotation LoggingAnnotation [] (mkPosition "main.go" 40 3 1) "";
     oc_bound := true; oc_Target := TargetFunction; oc_Name := "main"; oc_SymbolID := symbolID;
     oc_PackagePath := "example/app"; oc_PhysicalFile := "main.go"; oc_PhysicalOffset := 40;
     oc_DisplayPosition := mkPosition "main.go" 40 3 1; oc_Contributions := [] |}.
Definition expose (endpoints : list string) : Argument := mkArgument "expose" (VList (VString <$> endpoints)).
Definition main_application : list Application := [mkApplication "app.main" "main"].

Lemma builtins_catalogue : catalogue Builtins.
Proof. apply indexDefinitions_exact. vm_compute. reflexivity. Qed.

Lemma Compile_exact_witness :
  (∀ s, loggers_safe (catalogue_features Builtins s
     [management_at "app.main" [expose ["loggers"; "health"]]; logging_at "app.main"])) ∧
  (bd_Kind <$> br_diagnostics (Compile
     [management_at "app.main" [expose ["loggers"; "health"; "health"]]; logging_at "app.other"]
     main_application Builtins)) = ["duplicate-item"; "missing-application"].
Proof.
  split; [|vm_compute; reflexivity].
  destruct (Compile_exact main_application Builtins
    [management_at "app.main" [expose ["loggers"; "health"]]; logging_at "app.main"] builtins_catalogue) as [[Hex _] _].
  apply Hex. vm_compute. reflexivity.
Defined.

Lemma Compile_conforms_witness :
  (ft_Capability <$> MetadataOf (Compile
    [logging_at "app.main"; management_at "app.main" [expose ["loggers"; "health"]]; logging_at "app.main"]
    main_application Builtins) "app.main") = [CapabilityManagement; CapabilityLogging] ∧
  StronglySorted (λ f g, str_ltb (ft_Capability f) (ft_Capability g) = true) (MetadataOf (Compile
    [logging_at "app.main"; management_at "app.main" [expose ["loggers"; "health"]]; logging_at "app.main"]
    main_application Builtins) "app.main").
Proof.
  split; [vm_compute; reflexivity|]. apply (Compile_conforms main_application Builtins _ "app.main" builtins_catalogue).
Defined.

Lemma loggers_protected_witness :
  Enabled (MetadataOf (Compile
    [management_at "app.main" [expose ["loggers"; "health"]]; logging_at "app.main"]
    main_application Builtins) "app.main") CapabilityLogging = true ∧
  Access (mkManagement ["health"; "loggers"] "") = "loopback".
Proof. apply loggers_protected; [vm_compute; reflexivity..|]. right. left. Defined.

Lemma Compile_definition_order_witness :
  Compile [logging_at "app.main"] main_application (reverse Builtins) =
  Compile [logging_at "app.main"] main_application Builtins.
Proof.
  apply Compile_definition_order; [exact builtins_catalogue|]. symmetry. apply reverse_Permutation.
Defined.
