(* ===== verification/Modulith.v ===== *)
(** Package [compiler/modulith]: discovery of application modules, package
    ownership, named interfaces, allowed dependencies, import edges, cycles and
    focused views (modulith.go).

    The parts of the program it reads are records here: the packages of
    [compiler/load] with the imports of their files; the annotation occurrences
    are those of Annotation.v. *)
From S2P Require Import Prelude GoSort GoStrings GoStrconv Provider Annotation Scc CycleSearch.

(** ** What modulith reads *)

(** [ast.ImportSpec]: the literal, and where [Fset.PositionFor] places it with
    and without line directives. *)
Record ImportSpec := {
  is_Value : string;
  is_Position : Position;
  is_Physical : Position;
}.

(** [load.Package]; [lp_Fset] tells whether [Raw] and its [Fset] are set, and a
    file without syntax is [None]. *)
Record LoadPackage := {
  lp_Path : string;
  lp_Name : string;
  lp_ModulePath : string;
  lp_Auxiliary : bool;
  lp_Fset : bool;
  lp_Files : list (option (list ImportSpec));
}.

(** [load.Program], [None] for nil. *)
Definition Program : Type := list LoadPackage.
Definition PrimaryPackages (program : Program) : list LoadPackage :=
  filter (λ pkg, lp_Auxiliary pkg = false) program.

Definition TargetPackage : string := "package".

(** [resolve.Result]: only whether there are diagnostics matters. *)
Record Resolution := { r_Occurrences : list Occurrence; r_Diagnostics : list string }.

(** ** The model *)

Record Package := { p_Path : string; p_Name : string; p_GoModulePath : string; p_Root : bool }.

Record NamedInterface := {
  ni_Name : string;
  ni_PackagePath : string;
  ni_Position : Position;
  ni_PhysicalPosition : Position;
}.

Record Dependency := mkDependency {
  d_ModuleID : string;
  d_Interface : string;
  d_Position : Position;
  d_PhysicalPosition : Position;
}.

Record Edge := {
  e_FromModule : string;
  e_ToModule : string;
  e_FromPackage : string;
  e_ToPackage : string;
  e_API : string;
  e_Exported : bool;
  e_Allowed : bool;
  e_Position : Position;
  e_PhysicalPosition : Position;
}.

Record Cycle := { c_Members : list string; c_Path : list string }.

Definition dependencySeparator : string := "::".

Definition Dependency_String (d : Dependency) : string :=
  if bool_decide (d_Interface d = "") then d_ModuleID d
  else d_ModuleID d +:+ dependencySeparator +:+ d_Interface d.

Record Module := mkModule {
  m_ID : string;
  m_RootPackage : string;
  m_GoModulePath : string;
  m_Position : Position;
  m_PhysicalPosition : Position;
  m_packages : list Package;
  m_namedInterfaces : list NamedInterface;
  m_allowed : list Dependency;
}.

Record Diagnostic := {
  g_Position : Position;
  g_PhysicalPosition : Position;
  g_ModuleID : string;
  g_PackagePath : string;
  g_Kind : string;
  g_Message : string;
}.

(** [Diagnostic.Error] *)
Definition Diagnostic_Error (d : Diagnostic) : string :=
  let p := g_Position d in
  let file := if bool_decide (Filename p = "") then "<unknown>" else Filename p in
  let line := if (Line p <=? 0)%Z then 1%Z else Line p in
  let column := if (Column p <=? 0)%Z then 1%Z else Column p in
  file +:+ ":" +:+ itoa line +:+ ":" +:+ itoa column +:+ ": " +:+ g_Message d.

Record Model := mkModel {
  modules : list Module;
  edges : list Edge;
  cycles : list Cycle;
  unassigned : list Package;
  diagnostics : list Diagnostic;
  packageOwner : gmap string nat;
  focusID : string;
  dependencyOrder : list string;
}.

Definition empty_model : Model := mkModel [] [] [] [] [] ∅ "" [].

Definition set_modules (ms : list Module) (m : Model) : Model :=
  mkModel ms (edges m) (cycles m) (unassigned m) (diagnostics m) (packageOwner m) (focusID m)
    (dependencyOrder m).
Definition add_diagnostics (ds : list Diagnostic) (m : Model) : Model :=
  mkModel (modules m) (edges m) (cycles m) (unassigned m) (diagnostics m ++ ds) (packageOwner m)
    (focusID m) (dependencyOrder m).
Definition add_unassigned (p : Package) (m : Model) : Model :=
  mkModel (modules m) (edges m) (cycles m) (unassigned m ++ [p]) (diagnostics m) (packageOwner m)
    (focusID m) (dependencyOrder m).
Definition set_owner (path : string) (owner : nat) (m : Model) : Model :=
  mkModel (modules m) (edges m) (cycles m) (unassigned m) (diagnostics m)
    (<[path := owner]> (packageOwner m)) (focusID m) (dependencyOrder m).
Definition add_edge (e : Edge) (m : Model) : Model :=
  mkModel (modules m) (edges m ++ [e]) (cycles m) (unassigned m) (diagnostics m) (packageOwner m)
    (focusID m) (dependencyOrder m).
Definition add_cycle (c : Cycle) (m : Model) : Model :=
  mkModel (modules m) (edges m) (cycles m ++ [c]) (unassigned m) (diagnostics m) (packageOwner m)
    (focusID m) (dependencyOrder m).

Definition add_package (p : Package) (m : Module) : Module :=
  mkModule (m_ID m) (m_RootPackage m) (m_GoModulePath m) (m_Position m) (m_PhysicalPosition m)
    (m_packages m ++ [p]) (m_namedInterfaces m) (m_allowed m).
Definition add_interface (i : NamedInterface) (m : Module) : Module :=
  mkModule (m_ID m) (m_RootPackage m) (m_GoModulePath m) (m_Position m) (m_PhysicalPosition m)
    (m_packages m) (m_namedInterfaces m ++ [i]) (m_allowed m).

(** [Universe]: the interfaces of every known module. *)
Definition Universe : Type := gmap string (gset string).

(** ** Positions and diagnostics *)

Definition physicalPosition (occurrence : Occurrence) : Position :=
  mkPosition (oc_PhysicalFile occurrence) (oc_PhysicalOffset occurrence) 0 0.

Definition renderPosition (position : Position) : string :=
  if bool_decide (Filename position = "") then "<unknown>:1:1"
  else
    let line := if (Line position <=? 0)%Z then 1%Z else Line position in
    let column := if (Column position <=? 0)%Z then 1%Z else Column position in
    Filename position +:+ ":" +:+ itoa line +:+ ":" +:+ itoa column.

Definition occurrenceDiagnostic (occurrence : Occurrence) (kind message : string) : Diagnostic :=
  {| g_Position := oc_DisplayPosition occurrence; g_PhysicalPosition := physicalPosition occurrence;
     g_ModuleID := oc_PackagePath occurrence; g_PackagePath := oc_PackagePath occurrence;
     g_Kind := kind; g_Message := message |}.

Definition dependencyDiagnostic (module : Module) (dependency : Dependency) (kind message : string)
    : Diagnostic :=
  {| g_Position := d_Position dependency; g_PhysicalPosition := d_PhysicalPosition dependency;
     g_ModuleID := m_ID module; g_PackagePath := m_RootPackage module;
     g_Kind := kind; g_Message := message |}.

Definition importDiagnostic (edge : Edge) (kind message : string) : Diagnostic :=
  {| g_Position := e_Position edge; g_PhysicalPosition := e_PhysicalPosition edge;
     g_ModuleID := e_FromModule edge; g_PackagePath := e_FromPackage edge;
     g_Kind := kind; g_Message := message |}.

(** ** Dependencies *)

(** [^[a-z][a-z0-9-]*$] *)
Definition interface_char (c : ascii) : bool :=
  in_range 97 122 (byte_of c) || in_range 48 57 (byte_of c) || bool_decide (c = "-"%char).
Fixpoint str_all (p : ascii → bool) (s : string) : bool :=
  match s with EmptyString => true | String c s' => p c && str_all p s' end.
Definition interfaceNamePattern (s : string) : bool :=
  match s with
  | EmptyString => false
  | String c s' => in_range 97 122 (byte_of c) && str_all interface_char s'
  end.
Definition interfaceNameText : string := "^[a-z][a-z0-9-]*$".

Definition dependency_less : Dependency → Dependency → bool :=
  by_key d_ModuleID str_ltb (on_key d_Interface str_ltb).
Definition sortDependencies (dependencies : list Dependency) : list Dependency :=
  sort_stable dependency_less dependencies.

Section modulith.
Context `{UnicodeTables}.

Definition parseDependency (value : string) (occurrence : Occurrence) : outcome error Dependency :=
  guard_or (negb (bool_decide (value = "") || negb (bool_decide (trim_space value = value))))
    (ErrNew "identity must be non-empty and contain no surrounding whitespace") ;;
  guard_or (negb (1 <? count value dependencySeparator)%nat)
    (ErrNew ("identity may contain at most one " +:+ go_quote dependencySeparator +:+ " separator")) ;;
  let '(moduleID, interfaceName, hasInterface) := cut value dependencySeparator in
  guard_or (negb (bool_decide (moduleID = ""))) (ErrNew "module import path is required") ;;
  guard_or (negb (hasInterface && negb (interfaceNamePattern interfaceName)))
    (ErrNew ("named interface must match " +:+ interfaceNameText)) ;;
  Ok (mkDependency moduleID interfaceName (oc_DisplayPosition occurrence) (physicalPosition occurrence)).

(** [err.Error()] of the errors above. *)
Definition error_text (e : error) : string := match e with ErrNew m => m | _ => "" end.

Fixpoint parseDependencyLoop (occurrence : Occurrence) (values : list string) (seen : gset string)
    : list Dependency * list Diagnostic :=
  match values with
  | [] => ([], [])
  | value :: values' =>
      match parseDependency value occurrence with
      | Fail err =>
          let '(dependencies, diagnostics) := parseDependencyLoop occurrence values' seen in
          (dependencies, occurrenceDiagnostic occurrence "dependency-identity"
             ("@Module allowed dependency " +:+ go_quote value +:+ " is invalid: " +:+ error_text err)
           :: diagnostics)
      | Ok dependency =>
          if bool_decide (Dependency_String dependency ∈ seen) then
            let '(dependencies, diagnostics) := parseDependencyLoop occurrence values' seen in
            (dependencies, occurrenceDiagnostic occurrence "duplicate-dependency"
               ("@Module allowed dependency " +:+ go_quote (Dependency_String dependency) +:+
                " is declared more than once") :: diagnostics)
          else
            let '(dependencies, diagnostics) :=
              parseDependencyLoop occurrence values' ({[Dependency_String dependency]} ∪ seen) in
            (dependency :: dependencies, diagnostics)
      end
  end.

Definition parseDependencyValues (occurrence : Occurrence) (values : list string)
    : list Dependency * list Diagnostic :=
  let '(dependencies, diagnostics) := parseDependencyLoop occurrence values ∅ in
  (sortDependencies dependencies, diagnostics).

(** The loop over the arguments: the value of [allowedDependencies], an error
    when it is assigned twice. *)
Fixpoint allowedArgument (arguments : list Argument) (found : option Value) : outcome () (option Value) :=
  match arguments with
  | [] => Ok found
  | argument :: rest =>
      if negb (bool_decide (arg_Name argument = "allowedDependencies")) then allowedArgument rest found
      else match found with
           | Some _ => Fail ()
           | None => allowedArgument rest (Some (arg_Value argument))
           end
  end.

Definition parseDependencies (occurrence : Occurrence) : list Dependency * list Diagnostic :=
  match DescriptorContribution is_module occurrence with
  | Some (ModuleContribution values) => parseDependencyValues occurrence values
  | _ =>
      match allowedArgument (oc_Arguments occurrence) None with
      | Fail _ => ([], [occurrenceDiagnostic occurrence "duplicate-argument"
                          "@Module assigns allowedDependencies more than once"])
      | Ok None => ([], [])
      | Ok (Some value) =>
          if negb (bool_decide (v_Kind value = KindList)) then
            ([], [occurrenceDiagnostic occurrence "dependency-kind"
                    "@Module allowedDependencies must be a list of strings"])
          else
            let bad := omap (λ ix : nat * Value,
              if bool_decide (v_Kind ix.2 = KindString) then None
              else Some (occurrenceDiagnostic occurrence "dependency-kind"
                ("@Module allowedDependencies item " +:+ itoa (Z.of_nat ix.1) +:+ " must be a string")))
              (imap pair (v_List value)) in
            let values := v_String <$> filter (λ item, v_Kind item = KindString) (v_List value) in
            let '(dependencies, parsed) := parseDependencyValues occurrence values in
            (dependencies, bad ++ parsed)
      end
  end.

(** ** Modules and their packages *)

Definition packageIndex (packages : list LoadPackage) : gmap string LoadPackage :=
  foldl (λ m pkg, <[lp_Path pkg := pkg]> m) ∅ packages.

Definition module_less : Module → Module → bool := on_key m_ID str_ltb.

(** One occurrence of the loop of [discoverModules]. *)
Definition discoverModule (packages : gmap string LoadPackage)
    (state : gmap string Occurrence * list Module * list Diagnostic) (occurrence : Occurrence)
    : gmap string Occurrence * list Module * list Diagnostic :=
  let '(seen, modules, diagnostics) := state in
  let report (kind message : string) : list Diagnostic :=
    diagnostics ++ [occurrenceDiagnostic occurrence kind message] in
  if negb (HasContribution is_module occurrence) then state
  else if negb (bool_decide (oc_Target occurrence = TargetPackage)) then
    (seen, modules, report "invalid-target" "@Module must appear in package documentation")
  else match seen !! oc_PackagePath occurrence with
  | Some previous =>
      (seen, modules, report "duplicate-module"
        ("package " +:+ oc_PackagePath occurrence +:+
         " declares @Module more than once; first declaration is at " +:+
         renderPosition (oc_DisplayPosition previous)))
  | None =>
      let seen := <[oc_PackagePath occurrence := occurrence]> seen in
      match packages !! oc_PackagePath occurrence with
      | None =>
          (seen, modules, report "missing-package"
            ("@Module package " +:+ oc_PackagePath occurrence +:+ " is not in the loaded program"))
      | Some pkg =>
          let '(allowed, allowedDiagnostics) := parseDependencies occurrence in
          (seen,
           modules ++ [mkModule (lp_Path pkg) (lp_Path pkg) (lp_ModulePath pkg)
             (oc_DisplayPosition occurrence) (physicalPosition occurrence) [] [] allowed],
           diagnostics ++ allowedDiagnostics)
      end
  end.

Definition discoverModules (occurrences : list Occurrence) (packages : gmap string LoadPackage)
    : list Module * list Diagnostic :=
  let '(_, modules, diagnostics) := foldl (discoverModule packages) (∅, [], []) occurrences in
  (sort_stable module_less modules, diagnostics).

(** Whether a module root is the package or one of its ancestors. *)
Definition owns (module : Module) (pkg : LoadPackage) : bool :=
  negb (negb (bool_decide (m_GoModulePath module = lp_ModulePath pkg)) ||
        negb (bool_decide (lp_Path pkg = m_RootPackage module)) &&
        negb (has_prefix (lp_Path pkg) (m_RootPackage module +:+ "/"))).

(** The loop of [ownerIndex]; the owner so far is an index with its module. *)
Fixpoint ownerLoop (index : nat) (ms : list Module) (pkg : LoadPackage) (owner : option (nat * Module))
    : option (nat * Module) :=
  match ms with
  | [] => owner
  | module :: ms' =>
      let owner' :=
        if negb (owns module pkg) then owner
        else match owner with
             | None => Some (index, module)
             | Some (_, best) =>
                 if (String.length (m_RootPackage best) <? String.length (m_RootPackage module))%nat
                 then Some (index, module) else owner
             end in
      ownerLoop (S index) ms' pkg owner'
  end.
Definition ownerIndex (ms : list Module) (pkg : LoadPackage) : option nat :=
  fst <$> ownerLoop 0 ms pkg None.

(** One package of the loop of [assignPackages]. *)
Definition assignPackage (modulePaths : gset string) (packages : gmap string LoadPackage)
    (model : Model) (packagePath : string) : Model :=
  match packages !! packagePath with
  | None => model (* not reached: the paths are the keys of the map *)
  | Some pkg =>
      let owner := ownerIndex (modules model) pkg in
      let root := match owner with
                  | Some i => match modules model !! i with
                              | Some m => bool_decide (m_RootPackage m = lp_Path pkg)
                              | None => false
                              end
                  | None => false
                  end in
      let item := {| p_Path := lp_Path pkg; p_Name := lp_Name pkg; p_GoModulePath := lp_ModulePath pkg;
                     p_Root := root |} in
      match owner with
      | Some i => set_owner (lp_Path pkg) i (set_modules (alter (add_package item) i (modules model)) model)
      | None => if bool_decide (lp_ModulePath pkg ∈ modulePaths) then add_unassigned item model else model
      end
  end.

Definition map_keys {A} (m : gmap string A) : list string := (map_to_list m).*1.

Definition assignPackages (packages : gmap string LoadPackage) (model : Model) : Model :=
  let modulePaths : gset string := list_to_set (m_GoModulePath <$> modules model) in
  foldl (assignPackage modulePaths packages) model (sort_strings (map_keys packages)).

(** ** Named interfaces *)

Definition validateNamedInterfaceName (occurrence : Occurrence) (name : string) : outcome Diagnostic string :=
  if negb (interfaceNamePattern name) then
    Fail (occurrenceDiagnostic occurrence "interface-name"
      ("@NamedInterface name " +:+ go_quote name +:+ " must match " +:+ interfaceNameText))
  else Ok name.

(** The loop over the arguments of [namedInterfaceName]. *)
Fixpoint interfaceNames (occurrence : Occurrence) (arguments : list Argument) : outcome Diagnostic (list string) :=
  match arguments with
  | [] => Ok []
  | argument :: rest =>
      if negb (bool_decide (arg_Name argument = "")) && negb (bool_decide (arg_Name argument = "name"))
      then interfaceNames occurrence rest
      else if negb (bool_decide (v_Kind (arg_Value argument) = KindString)) then
        Fail (occurrenceDiagnostic occurrence "interface-kind" "@NamedInterface name must be a string")
      else names ← interfaceNames occurrence rest; Ok (v_String (arg_Value argument) :: names)
  end.

(** The name, or the diagnostic to append. *)
Definition namedInterfaceName (occurrence : Occurrence) : outcome Diagnostic string :=
  match DescriptorContribution is_interface occurrence with
  | Some (NamedInterfaceContribution name) => validateNamedInterfaceName occurrence name
  | _ =>
      names ← interfaceNames occurrence (oc_Arguments occurrence);
      match names with
      | [name] => validateNamedInterfaceName occurrence name
      | _ => Fail (occurrenceDiagnostic occurrence "interface-name"
                     "@NamedInterface requires exactly one name")
      end
  end.

(** One occurrence of the loop of [discoverNamedInterfaces]. *)
Definition discoverNamedInterface (packages : gmap string LoadPackage)
    (state : gmap string Occurrence * Model) (occurrence : Occurrence) : gmap string Occurrence * Model :=
  let '(seen, model) := state in
  let report (kind message : string) :=
    (seen, add_diagnostics [occurrenceDiagnostic occurrence kind message] model) in
  if negb (HasContribution is_interface occurrence) then state
  else match namedInterfaceName occurrence with
  | Fail diagnostic => (seen, add_diagnostics [diagnostic] model)
  | Ok name =>
      match packages !! oc_PackagePath occurrence, bool_decide (oc_Target occurrence = TargetPackage) with
      | Some pkg, true =>
          match ownerIndex (modules model) pkg with
          | None =>
              report "unassigned-interface"
                ("@NamedInterface " +:+ go_quote name +:+ " package " +:+ lp_Path pkg +:+
                 " is not inside an @Module root")
          | Some owner =>
              let id := from_option m_ID "" (modules model !! owner) in
              let key := id +:+ nul_str +:+ name in
              match seen !! key with
              | Some previous =>
                  report "duplicate-interface"
                    ("module " +:+ id +:+ " declares named interface " +:+ go_quote name +:+
                     " more than once; first declaration is at " +:+
                     renderPosition (oc_DisplayPosition previous))
              | None =>
                  (<[key := occurrence]> seen,
                   set_modules (alter (add_interface {| ni_Name := name; ni_PackagePath := lp_Path pkg;
                     ni_Position := oc_DisplayPosition occurrence;
                     ni_PhysicalPosition := physicalPosition occurrence |}) owner (modules model)) model)
              end
          end
      | _, _ =>
          report "invalid-target"
            "@NamedInterface must appear in package documentation for a loaded package"
      end
  end.

Definition discoverNamedInterfaces (occurrences : list Occurrence) (packages : gmap string LoadPackage)
    (model : Model) : Model :=
  (foldl (discoverNamedInterface packages) (∅, model) occurrences).2.

(** ** Declared dependencies *)

(** The sets are cloned before they grow; they are values here. *)
Definition add_known (known : Universe) (module : Module) : Universe :=
  <[m_ID module := default ∅ (known !! m_ID module) ∪ list_to_set (ni_Name <$> m_namedInterfaces module)]> known.

(** [NewUniverse] *)
Definition NewUniverse (models : list Model) : Universe :=
  foldl (λ result model, foldl add_known result (modules model)) ∅ models.

(** The switch of [validateDependencies]. *)
Definition validateDependency (known : Universe) (module : Module) (dependency : Dependency)
    : option Diagnostic :=
  let report kind message := Some (dependencyDiagnostic module dependency kind message) in
  if bool_decide (d_ModuleID dependency = m_ID module) then
    report "self-dependency" ("module " +:+ m_ID module +:+ " must not declare a dependency on itself")
  else match known !! d_ModuleID dependency with
  | None =>
      report "unknown-module"
        ("module " +:+ m_ID module +:+ " allows unknown module " +:+ d_ModuleID dependency +:+
         "; use an exact @Module root import path")
  | Some interfaces =>
      if negb (bool_decide (d_Interface dependency = "")) &&
         negb (bool_decide (d_Interface dependency ∈ interfaces)) then
        report "unknown-interface"
          ("module " +:+ m_ID module +:+ " allows unknown interface " +:+ d_Interface dependency +:+
           " on module " +:+ d_ModuleID dependency)
      else None
  end.

Definition validateDependencies (universe : Universe) (model : Model) : Model :=
  let known := foldl add_known universe (modules model) in
  add_diagnostics (modules model ≫= λ module, omap (validateDependency known module) (m_allowed module)) model.

(** ** Imports *)

Record packageImport := { pi_path : string; pi_position : Position; pi_physical : Position }.

Definition import_less : packageImport → packageImport → bool :=
  by_key (Filename ∘ pi_physical) str_ltb
    (by_key (Offset ∘ pi_physical) Z.ltb (on_key pi_path str_ltb)).

Definition packageImports (pkg : LoadPackage) : list packageImport :=
  if negb (lp_Fset pkg) then []
  else sort_stable import_less
    (lp_Files pkg ≫= λ source,
       match source with
       | None => []
       | Some imports => omap (λ specification,
           path ← unquote (is_Value specification);
           Some {| pi_path := path; pi_position := is_Position specification;
                   pi_physical := is_Physical specification |}) imports
       end).

Definition allowsDependency (module : Module) (targetModule targetInterface : string) : bool :=
  existsb (λ dependency, bool_decide (d_ModuleID dependency = targetModule) &&
                         bool_decide (d_Interface dependency = targetInterface)) (m_allowed module).

Definition dependencyIdentity (moduleID interfaceName : string) : string :=
  if bool_decide (interfaceName = "") then moduleID
  else moduleID +:+ dependencySeparator +:+ interfaceName.

(** The API a package belongs to, whether it is exported and allowed. *)
Definition importedAPI (from to : Module) (packagePath : string) : string * bool * bool :=
  if bool_decide (packagePath = m_RootPackage to) then ("", true, allowsDependency from (m_ID to) "")
  else
    let names := sort_strings (ni_Name <$> filter (λ item, ni_PackagePath item = packagePath)
                   (m_namedInterfaces to)) in
    match names with
    | [] => ("", false, false)
    | first :: _ =>
        match list_find (λ name, allowsDependency from (m_ID to) name = true) names with
        | Some (_, name) => (name, true, true)
        | None => (first, true, false)
        end
    end.

Definition importProblem (edge : Edge) : option Diagnostic :=
  if negb (e_Exported edge) then
    Some (importDiagnostic edge "internal-access"
      ("module " +:+ e_FromModule edge +:+ " package " +:+ e_FromPackage edge +:+
       " imports internal package " +:+ e_ToPackage edge +:+ " of module " +:+ e_ToModule edge +:+
       "; import the root API or a declared @NamedInterface package"))
  else if negb (e_Allowed edge) then
    Some (importDiagnostic edge "undeclared-dependency"
      ("module " +:+ e_FromModule edge +:+ " package " +:+ e_FromPackage edge +:+ " imports " +:+
       dependencyIdentity (e_ToModule edge) (e_API edge) +:+ " through package " +:+ e_ToPackage edge +:+
       " without declaring it in @Module allowedDependencies"))
  else None.

(** The edge of an import between two modules. *)
Definition importEdge (from to : Module) (pkg : LoadPackage) (imported : packageImport) : Edge :=
  let '(api, exported, allowed) := importedAPI from to (pi_path imported) in
  {| e_FromModule := m_ID from; e_ToModule := m_ID to; e_FromPackage := lp_Path pkg;
     e_ToPackage := pi_path imported; e_API := api; e_Exported := exported; e_Allowed := allowed;
     e_Position := pi_position imported; e_PhysicalPosition := pi_physical imported |}.

(** One import of a package of the module [fromIndex]. *)
Definition discoverImport (pkg : LoadPackage) (fromIndex : nat) (state : gset string * Model)
    (imported : packageImport) : gset string * Model :=
  let '(seen, model) := state in
  match packageOwner model !! pi_path imported with
  | None => state
  | Some toIndex =>
      if bool_decide (fromIndex = toIndex) then state
      else
        let key := lp_Path pkg +:+ nul_str +:+ pi_path imported in
        if bool_decide (key ∈ seen) then state
        else
          match modules model !! fromIndex, modules model !! toIndex with
          | Some from, Some to =>
              let edge := importEdge from to pkg imported in
              ({[key]} ∪ seen, add_diagnostics (option_list (importProblem edge)) (add_edge edge model))
          | _, _ => state (* not reached: the owners are indices of the modules *)
          end
  end.

Definition discoverPackageImports (state : gset string * Model) (pkg : LoadPackage) : gset string * Model :=
  match packageOwner (state.2) !! lp_Path pkg with
  | None => state
  | Some fromIndex => foldl (discoverImport pkg fromIndex) state (packageImports pkg)
  end.

Definition discoverImportEdges (packages : list LoadPackage) (model : Model) : Model :=
  (foldl discoverPackageImports (∅, model) packages).2.

(** ** Cycles *)

(** The edges that start or end at a module are those of the model; [append]
    also makes an entry for a module that has none. *)
Definition addAdjacent (state : gset string * gmap string (list string)) (edge : Edge)
    : gset string * gmap string (list string) :=
  let '(seen, result) := state in
  let key := e_FromModule edge +:+ nul_str +:+ e_ToModule edge in
  if bool_decide (key ∈ seen) then state
  else ({[key]} ∪ seen,
        <[e_FromModule edge := default [] (result !! e_FromModule edge) ++ [e_ToModule edge]]> result).

Definition moduleAdjacency (ms : list Module) (es : list Edge) : gmap string (list string) :=
  let result : gmap string (list string) := foldl (λ m module, <[m_ID module := []]> m) ∅ ms in
  sort_strings <$> (foldl addAdjacent (∅, result) es).2.

(** [adjacency[node]] *)
Definition adjacent (adjacency : gmap string (list string)) (node : string) : list string :=
  default [] (adjacency !! node).

(** Components are not empty, so the code may take the first member. *)
Definition component_less : list string → list string → bool := on_key (λ c, default "" (head c)) str_ltb.

(** [None] when the search has run out of fuel, which it does not. *)
Definition stronglyConnectedComponents (adjacency : gmap string (list string)) : option (list (list string)) :=
  search ← tarjan_run (adjacent adjacency) sort_strings (sort_strings (map_keys adjacency));
  Some (sort_stable component_less (cs_result search)).

(** [findCyclePath] closes a cycle only on a path of more than its start. *)
Definition longer_than_start (path : list string) : bool := (1 <? length path)%nat.

Definition representativeCycle (members : list string) (adjacency : gmap string (list string)) : list string :=
  let start := default "" (head members) in
  match find_cycle (adjacent adjacency) (list_to_set members) start longer_than_start (length members)
          start {[start]} [start] with
  | Some (true, _, path) => path
  | _ => members ++ [start]
  end.

Definition discoverCycle (adjacency : gmap string (list string)) (moduleByID : gmap string Module)
    (model : Model) (members : list string) : Model :=
  if (length members <? 2)%nat then model
  else
    let path := representativeCycle members adjacency in
    let first := default "" (head members) in
    match moduleByID !! first with
    | None => add_cycle {| c_Members := members; c_Path := path |} model (* not reached *)
    | Some module =>
        add_diagnostics [{| g_Position := m_Position module; g_PhysicalPosition := m_PhysicalPosition module;
            g_ModuleID := m_ID module; g_PackagePath := m_RootPackage module; g_Kind := "module-cycle";
            g_Message := "module dependency cycle: " +:+ join path " -> " |}]
          (add_cycle {| c_Members := members; c_Path := path |} model)
    end.

Definition discoverCycles (model : Model) : Model :=
  let adjacency := moduleAdjacency (modules model) (edges model) in
  let moduleByID : gmap string Module := foldl (λ m module, <[m_ID module := module]> m) ∅ (modules model) in
  foldl (discoverCycle adjacency moduleByID) model (default [] (stronglyConnectedComponents adjacency)).

(** ** The order of a model *)

Definition interface_less : NamedInterface → NamedInterface → bool :=
  by_key ni_Name str_ltb (on_key ni_PackagePath str_ltb).
Definition sortModule (module : Module) : Module :=
  mkModule (m_ID module) (m_RootPackage module) (m_GoModulePath module) (m_Position module)
    (m_PhysicalPosition module) (sort_stable (on_key p_Path str_ltb) (m_packages module))
    (sort_stable interface_less (m_namedInterfaces module)) (sortDependencies (m_allowed module)).

Definition edge_less : Edge → Edge → bool :=
  by_key e_FromModule str_ltb (by_key e_ToModule str_ltb
    (by_key e_FromPackage str_ltb (on_key e_ToPackage str_ltb))).
Definition cycle_less : Cycle → Cycle → bool := on_key (λ c, default "" (head (c_Members c))) str_ltb.
Definition diagnostic_less : Diagnostic → Diagnostic → bool :=
  by_key (Filename ∘ g_PhysicalPosition) str_ltb (by_key (Offset ∘ g_PhysicalPosition) Z.ltb
    (by_key g_Kind str_ltb (on_key g_Message str_ltb))).

Definition sortModel (model : Model) : Model :=
  mkModel (sort_stable module_less (sortModule <$> modules model)) (sort_stable edge_less (edges model))
    (sort_stable cycle_less (cycles model)) (sort_stable (on_key p_Path str_ltb) (unassigned model))
    (sort_stable diagnostic_less (diagnostics model)) (packageOwner model) (focusID model)
    (dependencyOrder model).

Definition rebuildOwners (ms : list Module) : gmap string nat :=
  foldl (λ owners im, foldl (λ owners pkg, <[p_Path pkg := im.1]> owners) owners (m_packages im.2))
    ∅ (imap pair ms).
Definition rebuildPackageOwners (model : Model) : Model :=
  mkModel (modules model) (edges model) (cycles model) (unassigned model) (diagnostics model)
    (rebuildOwners (modules model)) (focusID model) (dependencyOrder model).

(** ** Building a model *)

Definition internalDiagnostic (kind message : string) : Diagnostic :=
  {| g_Position := no_position; g_PhysicalPosition := no_position; g_ModuleID := ""; g_PackagePath := "";
     g_Kind := kind; g_Message := message |}.

Definition BuildWithUniverse (program : option Program) (resolution : Resolution) (universe : Universe)
    : Model :=
  match program with
  | None => add_diagnostics [internalDiagnostic "internal" "module discovery requires a loaded program"] empty_model
  | Some program =>
      if negb (length (r_Diagnostics resolution) =? 0)%nat then
        add_diagnostics [internalDiagnostic "resolution"
          "module discovery requires annotation resolution without diagnostics"] empty_model
      else
        let primaryPackages := PrimaryPackages program in
        let packages := packageIndex primaryPackages in
        let '(ms, ds) := discoverModules (r_Occurrences resolution) packages in
        let model := add_diagnostics ds (set_modules ms empty_model) in
        let model := assignPackages packages model in
        let model := discoverNamedInterfaces (r_Occurrences resolution) packages model in
        let model := validateDependencies universe model in
        let model := discoverImportEdges primaryPackages model in
        let model := discoverCycles model in
        rebuildPackageOwners (sortModel model)
  end.

Definition Build (program : option Program) (resolution : Resolution) : Model :=
  BuildWithUniverse program resolution ∅.

(** [Model.Owner]; a map to indices of the modules. *)
Definition Owner (model : Model) (packagePath : string) : option Module :=
  index ← packageOwner model !! packagePath; modules model !! index.

(** ** Focused views *)

(** [visit] of [focusedDependencyOrder] with the state of the modules (1: being
    visited, 2: done) and the order so far; [None] is the end of the fuel. *)
Definition focus_state : Type := gmap string N * list string.

Fixpoint visitAll (visit : string → focus_state → option (outcome error focus_state))
    (dependencies : list string) (st : focus_state) : option (outcome error focus_state) :=
  match dependencies with
  | [] => Some (Ok st)
  | dependency :: rest =>
      match visit dependency st with
      | Some (Ok st') => visitAll visit rest st'
      | r => r
      end
  end.

Fixpoint focusVisit (fuel : nat) (moduleID : string) (adjacency : gmap string (list string))
    (current : string) (st : focus_state) : option (outcome error focus_state) :=
  match fuel with
  | O => None
  | S fuel' =>
      match default 0%N (st.1 !! current) with
      | 1%N => Some (Fail (ErrNew ("focus module " +:+ moduleID +:+ " belongs to a module dependency cycle")))
      | 2%N => Some (Ok st)
      | _ =>
          match visitAll (focusVisit fuel' moduleID adjacency) (adjacent adjacency current)
                  (<[current := 1%N]> st.1, st.2) with
          | Some (Ok st') => Some (Ok (<[current := 2%N]> st'.1, st'.2 ++ [current]))
          | r => r
          end
      end
  end.

Definition focusedDependencyOrder (moduleID : string) (adjacency : gmap string (list string))
    : option (outcome error (list string)) :=
  match focusVisit (S (S (size adjacency))) moduleID adjacency moduleID (∅, []) with
  | None => None
  | Some (Fail e) => Some (Fail e)
  | Some (Ok st) => Some (Ok (st.2))
  end.

Definition cycleIncluded (cycle : Cycle) (included : gset string) : bool :=
  forallb (λ member, bool_decide (member ∈ included)) (c_Members cycle).

(** [Model.Focus] *)
Definition Focus (model : Model) (moduleID : string) : option (outcome error Model) :=
  if negb (existsb (λ module, bool_decide (m_ID module = moduleID)) (modules model)) then
    Some (Fail (ErrNew ("focus module " +:+ go_quote moduleID +:+ " was not found")))
  else
    match focusedDependencyOrder moduleID (moduleAdjacency (modules model) (edges model)) with
    | None => None
    | Some (Fail e) => Some (Fail e)
    | Some (Ok order) =>
        let included : gset string := list_to_set order in
        Some (Ok (rebuildPackageOwners (sortModel (mkModel
          (filter (λ module, m_ID module ∈ included) (modules model))
          (filter (λ edge, e_FromModule edge ∈ included ∧ e_ToModule edge ∈ included) (edges model))
          (filter (λ cycle, cycleIncluded cycle included = true) (cycles model))
          [] [] ∅ moduleID order))))
    end.
End modulith.
