(* ===== verification/ModulithOwner.v ===== *)
(** Allowed dependencies as text, and which module owns a package. *)
From S2P Require Import Prelude GoSort GoStrings GoStrconv Provider Annotation Scc CycleSearch Modulith.

(** ** [strings.Cut] *)

(** [sep] does not occur in [s]. *)
Lemma cut_spec s sep :
  sep ≠ "" →
  match cut s sep with
  | (before, after, true) => s = before +:+ sep +:+ after
  | (before, after, false) => before = s ∧ after = ""
  end.
Proof.
  intros Hsep. induction s as [|c s IH].
  - cbn [cut]. destruct (has_prefix "" sep) eqn:E; [|by split].
    apply has_prefix_spec in E as (t & Ht). destruct sep; [done|]. by rewrite str_cons_app in Ht.
  - cbn [cut]. destruct (has_prefix (String c s) sep) eqn:E.
    + apply has_prefix_spec in E as (t & ->). by rewrite str_drop_app, str_nil_app.
    + destruct (cut s sep) as [[b a] []]; [by rewrite str_cons_app, <-IH|]. destruct IH as [-> ->]. done.
Qed.

(** The text before the separator and its first byte decide where it is cut. *)
Lemma cut_colons id rest :
  contains (id +:+ ":") "::" = false → cut (id +:+ "::" +:+ rest) "::" = (id, rest, true).
Proof.
  unfold contains. induction id as [|c id IH]; intros Hc.
  - rewrite !str_nil_app. cbn [cut]. change (has_prefix ("::" +:+ rest) "::") with true.
    by destruct rest.
  - rewrite !(str_cons_app c id) in *. cbn [cut] in *.
    destruct (has_prefix (String c (id +:+ ":")) "::") eqn:E1; [done|].
    assert (has_prefix (String c (id +:+ "::" +:+ rest)) "::" = false) as ->.
    { apply not_true_iff_false. intros E2. apply not_true_iff_false in E1. apply E1.
      apply has_prefix_spec in E2 as (t & Ht). apply has_prefix_spec.
      change ("::" +:+ t) with (String ":" (String ":" t)) in Ht. injection Ht as -> Ht.
      destruct id as [|c' id]; [by exists ""|]. rewrite str_cons_app in Ht. injection Ht as -> _.
      eexists. rewrite str_cons_app. reflexivity. }
    destruct (cut (id +:+ ":") "::") as [[b a] f]. simpl in Hc. subst f. by rewrite IH.
Qed.

Lemma cut_colons_inv s id rest :
  cut s "::" = (id, rest, true) → contains (id +:+ ":") "::" = false.
Proof.
  unfold contains. revert id. induction s as [|c s IH]; intros id Hc; [done|]. cbn [cut] in Hc.
  destruct (has_prefix (String c s) "::") eqn:E; [by injection Hc as <- _|].
  destruct (cut s "::") as [[b a] f] eqn:Ec. injection Hc as <- -> ->.
  pose proof (cut_spec s "::" ltac:(done)) as Hs. rewrite Ec in Hs.
  specialize (IH b eq_refl). rewrite (str_cons_app c b). cbn [cut].
  destruct (has_prefix (String c (b +:+ ":")) "::") eqn:E2.
  - exfalso. apply has_prefix_spec in E2 as (t & Ht).
    change ("::" +:+ t) with (String ":" (String ":" t)) in Ht. injection Ht as -> Ht.
    assert (has_prefix (String ":" s) "::" = true); [|congruence]. apply has_prefix_spec. rewrite Hs.
    destruct b as [|c' b]; [by eexists|]. rewrite str_cons_app in Ht. injection Ht as -> _.
    eexists. rewrite str_cons_app. reflexivity.
  - by destruct (cut (b +:+ ":") "::") as [[? ?] ?].
Qed.

Lemma count_zero s sep : contains s sep = false → count s sep = 0.
Proof. unfold contains, count. simpl. destruct (cut s sep) as [[? ?] []]; [done|]. by intros _. Qed.

Lemma count_one s sep id rest :
  cut s sep = (id, rest, true) → contains rest sep = false → count s sep ≤ 1.
Proof.
  unfold contains, count. intros Hc Hr. cbn [count_aux]. rewrite Hc.
  destruct (String.length s); cbn [count_aux]; [lia|]. destruct (cut rest sep) as [[? ?] f].
  simpl in Hr. subst f. lia.
Qed.

(** ** The text of a dependency *)

Section dependency.
Context `{UnicodeTables}.

Lemma pattern_no_colon s : interfaceNamePattern s = true → contains s "::" = false.
Proof.
  assert (∀ t, str_all interface_char t = true → contains t "::" = false) as Hall.
  { unfold contains. induction t as [|c t IH]; [done|]. cbn [str_all cut]. intros [Hc Ht]%andb_true_iff.
    destruct (has_prefix (String c t) "::") eqn:E.
    - apply has_prefix_spec in E as (r & Hr). injection Hr as -> _. done.
    - specialize (IH Ht). by destruct (cut t "::") as [[? ?] ?]. }
  destruct s as [|c s]; [done|]. cbn [interfaceNamePattern]. intros [Hc Hs]%andb_true_iff. apply Hall.
  cbn [str_all]. unfold interface_char at 1. by rewrite Hc, Hs.
Qed.

(** The dependencies that have a text of their own. *)
Definition proper (d : Dependency) : Prop :=
  d_ModuleID d ≠ "" ∧ trim_space (Dependency_String d) = Dependency_String d ∧
  (d_Interface d = "" ∧ contains (d_ModuleID d) dependencySeparator = false ∨
   interfaceNamePattern (d_Interface d) = true ∧ contains (d_ModuleID d +:+ ":") dependencySeparator = false).

Lemma String_ne d : d_ModuleID d ≠ "" → Dependency_String d ≠ "".
Proof. unfold Dependency_String. intros Hd. case_bool_decide; [done|]. by destruct (d_ModuleID d). Qed.

Lemma parse_proper d occurrence :
  proper d → d_Position d = oc_DisplayPosition occurrence → d_PhysicalPosition d = physicalPosition occurrence →
  parseDependency (Dependency_String d) occurrence = Ok d.
Proof.
  intros (Hid & Ht & Hc) Hp Hq. unfold parseDependency.
  rewrite bool_decide_eq_false_2 by by apply String_ne. rewrite Ht, bool_decide_eq_true_2 by done. cbn [negb orb guard_or mbind outcome_bind].
  destruct d as [id i p q].
  unfold Dependency_String, dependencySeparator in *. cbn [d_ModuleID d_Interface d_Position d_PhysicalPosition] in *. subst p q. destruct Hc as [[-> Hc]|[Hi Hc]].
  - rewrite bool_decide_eq_true_2 in * by done. rewrite count_zero by done. change (1 <? 0)%nat with false. cbn [negb guard_or].
    unfold contains in Hc. pose proof (cut_spec id "::" ltac:(done)) as Hs.
    destruct (cut id "::") as [[b a] f]. simpl in Hc. subst f. destruct Hs as [-> ->].
    rewrite bool_decide_eq_false_2 by done. done.
  - assert (i ≠ "") as Hne by by intros ->. rewrite bool_decide_eq_false_2 in * by done.
    pose proof (cut_colons id i Hc) as Hcut.
    assert (1 <? count (id +:+ "::" +:+ i) "::" = false)%nat as ->.
    { apply Nat.ltb_ge. eapply count_one; [exact Hcut|by apply pattern_no_colon]. }
    cbn [negb guard_or]. rewrite Hcut, bool_decide_eq_false_2, Hi by done. done.
Qed.

Lemma parse_is_proper value occurrence d :
  parseDependency value occurrence = Ok d →
  proper d ∧ value = Dependency_String d ∧
  d_Position d = oc_DisplayPosition occurrence ∧ d_PhysicalPosition d = physicalPosition occurrence.
Proof.
  unfold parseDependency. intros Hv. apply outcome_bind_ok in Hv as ([] & H1 & Hv).
  apply outcome_bind_ok in Hv as ([] & H2 & Hv). apply guard_or_ok, negb_true_iff, orb_false_iff in H1 as [H1 H1'].
  pose proof (cut_spec value dependencySeparator ltac:(done)) as Hs.
  destruct (cut value dependencySeparator) as [[id i] f] eqn:Hc.
  apply outcome_bind_ok in Hv as ([] & H3 & Hv). apply outcome_bind_ok in Hv as ([] & H4 & Hv).
  apply guard_or_ok in H3, H4. apply negb_true_iff in H4. bool_prop. injection Hv as <-.
  assert (value = Dependency_String (mkDependency id i (oc_DisplayPosition occurrence) (physicalPosition occurrence)) ∧
    (i = "" ∧ contains id dependencySeparator = false ∨
     interfaceNamePattern i = true ∧ contains (id +:+ ":") dependencySeparator = false)) as [Hval Hcases].
  { destruct f.
    - apply andb_false_iff in H4 as [|H4]; [done|]. apply negb_false_iff in H4.
      assert (i ≠ "") by by intros ->. split.
      + unfold Dependency_String. simpl. by rewrite bool_decide_eq_false_2.
      + right. split; [done|]. by eapply cut_colons_inv.
    - destruct Hs as [-> ->]. split; [done|]. left. split; [done|]. unfold contains. by rewrite Hc. }
  split; [|done]. split_and!; [done| |done]. by rewrite <-Hval.
Qed.
End dependency.

(** ** The owner of a package *)

Notation root_length m := (String.length (m_RootPackage m)).

(** The latest candidate no other one is longer than. *)
Definition best_owner (ms : list Module) (pkg : LoadPackage) (i : nat) (m : Module) : Prop :=
  ms !! i = Some m ∧ owns m pkg = true ∧
  ∀ j m', ms !! j = Some m' → owns m' pkg = true →
    (root_length m' ≤ root_length m ∧ (j < i → root_length m' < root_length m))%nat.

Lemma ownerLoop_spec pre ms pkg owner :
  match owner with
  | Some (i, m) => best_owner pre pkg i m
  | None => ∀ m, m ∈ pre → owns m pkg = false
  end →
  match ownerLoop (length pre) ms pkg owner with
  | Some (i, m) => best_owner (pre ++ ms) pkg i m
  | None => ∀ m, m ∈ pre ++ ms → owns m pkg = false
  end.
Proof.
  revert pre owner. induction ms as [|module ms IH]; intros pre owner Ho; cbn [ownerLoop].
  { by rewrite app_nil_r. }
  rewrite cons_snoc_app. replace (S (length pre)) with (length (pre ++ [module]))
    by (rewrite length_app; simpl; lia).
  apply IH. clear IH.
  assert (∀ j m', (pre ++ [module]) !! j = Some m' → pre !! j = Some m' ∨ (j = length pre ∧ m' = module)) as Hj.
  { intros j m' Hl. apply lookup_app_Some in Hl as [?|[Hle Hl]]; [by left|right].
    apply list_lookup_singleton_Some in Hl as [? <-]. split; [lia|done]. }
  destruct (owns module pkg) eqn:Hown; cbn [negb].
  - destruct owner as [[i best]|].
    + destruct Ho as (Hi & Hb & Hmax). pose proof (lookup_lt_Some _ _ _ Hi) as Hlt.
      destruct (Nat.ltb_spec (root_length best) (root_length module)).
      * split_and!; [by rewrite lookup_app_r, Nat.sub_diag by lia|done|].
        intros j m' [Hm|[-> ->]]%Hj Hm'; [|lia]. destruct (Hmax j m' Hm Hm'). lia.
      * split_and!; [by rewrite lookup_app_l|done|]. intros j m' [Hm|[-> ->]]%Hj Hm'; [auto|lia].
    + split_and!; [by rewrite lookup_app_r, Nat.sub_diag by lia|done|].
      intros j m' [Hm|[-> ->]]%Hj Hm'; [|lia]. apply list_elem_of_lookup_2 in Hm. by rewrite Ho in Hm'.
  - destruct owner as [[i best]|].
    + destruct Ho as (Hi & Hb & Hmax). split_and!; [by rewrite lookup_app_l by (by eapply lookup_lt_Some)|done|].
      intros j m' [Hm|[-> ->]]%Hj Hm'; [auto|congruence].
    + intros m [Hm| ->%list_elem_of_singleton]%elem_of_app; auto.
Qed.

Lemma ownerIndex_spec ms pkg :
  match ownerIndex ms pkg with
  | Some i => ∃ m, best_owner ms pkg i m
  | None => ∀ m, m ∈ ms → owns m pkg = false
  end.
Proof.
  unfold ownerIndex. pose proof (ownerLoop_spec [] ms pkg None) as Hs. cbn [length app] in Hs.
  destruct (ownerLoop 0 ms pkg None) as [[i m]|]; simpl.
  - exists m. apply Hs. by intros ? ?%elem_of_nil.
  - apply Hs. by intros ? ?%elem_of_nil.
Qed.

Lemma owns_spec m pkg :
  owns m pkg = true ↔
  m_GoModulePath m = lp_ModulePath pkg ∧
  (lp_Path pkg = m_RootPackage m ∨ ∃ rest, lp_Path pkg = m_RootPackage m +:+ "/" +:+ rest).
Proof.
  unfold owns. rewrite negb_true_iff, orb_false_iff, negb_false_iff, bool_decide_eq_true, andb_false_iff,
    !negb_false_iff, bool_decide_eq_true, has_prefix_spec.
  setoid_rewrite str_app_assoc. done.
Qed.

Lemma str_app_length_inj s1 s2 t1 t2 :
  s1 +:+ t1 = s2 +:+ t2 → String.length s1 = String.length s2 → s1 = s2.
Proof.
  revert s2. induction s1 as [|a s1 IH]; intros [|b s2] He Hl; try done.
  rewrite !str_cons_app in He. injection He as -> He. f_equal. apply IH; [done|]. simpl in Hl. lia.
Qed.

(** Two owners with roots of the same length have the same root. *)
Lemma owns_same_length m m' pkg :
  owns m pkg = true → owns m' pkg = true → root_length m = root_length m' → m_RootPackage m = m_RootPackage m'.
Proof.
  intros [_ H1]%owns_spec [_ H2]%owns_spec Hl.
  assert (∃ r, lp_Path pkg = m_RootPackage m +:+ r) as [r1 E1]
    by (destruct H1 as [-> |[r ->]]; [exists ""; by rewrite str_app_nil_r|by eexists]).
  assert (∃ r, lp_Path pkg = m_RootPackage m' +:+ r) as [r2 E2]
    by (destruct H2 as [-> |[r ->]]; [exists ""; by rewrite str_app_nil_r|by eexists]).
  eapply str_app_length_inj; [by rewrite <-E1, E2|done].
Qed.

(** The longest root is the root of the best owner. *)
Lemma best_owner_root ms pkg i m m0 :
  best_owner ms pkg i m → m0 ∈ ms → owns m0 pkg = true → (root_length m ≤ root_length m0)%nat →
  m_RootPackage m = m_RootPackage m0.
Proof.
  intros (_ & Ho & Hmax) (j & Hj)%list_elem_of_lookup Ho0 Hle. apply (owns_same_length m m0 pkg); [done..|].
  destruct (Hmax j m0 Hj Ho0). lia.
Qed.

(** Ownership reads nothing but the roots. *)
Definition same_root (m m' : Module) : Prop :=
  m_ID m' = m_ID m ∧ m_RootPackage m' = m_RootPackage m ∧ m_GoModulePath m' = m_GoModulePath m ∧
  m_allowed m' = m_allowed m ∧ m_Position m' = m_Position m ∧ m_PhysicalPosition m' = m_PhysicalPosition m.
#[export] Instance same_root_equiv : Equivalence same_root.
Proof.
  split; [done| |].
  - intros m m' (?&?&?&?&?&?). by split_and!.
  - intros m1 m2 m3 (?&?&?&?&?&?) (?&?&?&?&?&?). split_and!; congruence.
Qed.

Lemma ownerIndex_same ms ms' pkg : Forall2 same_root ms ms' → ownerIndex ms' pkg = ownerIndex ms pkg.
Proof.
  intros Hs. unfold ownerIndex.
  assert (∀ n o o', (match o, o' with
    | Some (i, m), Some (j, m') => i = j ∧ same_root m m' | None, None => True | _, _ => False end) →
    fst <$> ownerLoop n ms' pkg o' = fst <$> ownerLoop n ms pkg o) as Hl; [|by apply Hl].
  induction Hs as [|m m' ms ms' Hm Hs IH]; intros n o o' Ho; cbn [ownerLoop].
  - destruct o as [[i b]|], o' as [[j b']|]; try done. by destruct Ho as [-> _].
  - pose proof Hm as (_ & Hr & Hg & _). apply IH.
    assert (owns m' pkg = owns m pkg) as -> by (unfold owns; by rewrite Hr, Hg).
    destruct (owns m pkg); cbn [negb]; [|done].
    destruct o as [[i b]|], o' as [[j b']|]; try done. destruct Ho as [-> Hb]. destruct Hb as (? & Hrb & ?).
    rewrite Hr, Hrb. by destruct (_ <? _)%nat.
Qed.
