(* ===== verification/ModulithAssign.v ===== *)
(** What the stages of [BuildWithUniverse] leave alone and establish up to the
    search for import edges: the modules, their packages and their
    interfaces. *)
From S2P Require Import Prelude GoSort GoStrings Scc CycleSearch Provider GoStrconv Annotation Modulith ModulithOwner.

(** ** Folds *)

(** An invariant that knows what has been processed. *)
Lemma foldl_prefix {A S} (P : list A → S → Prop) (f : S → A → S) l s :
  P [] s → (∀ pre x s, x ∈ l → P pre s → P (pre ++ [x]) (f s x)) → P l (foldl f s l).
Proof.
  intros H0 Hstep. induction l as [|x l IH] using rev_ind; [done|]. rewrite foldl_app. simpl. apply Hstep.
  - apply elem_of_app. right. left.
  - apply IH. intros pre y s' Hy. apply Hstep, elem_of_app. by left.
Qed.

Lemma foldl_ind {A S} (P : S → Prop) (f : S → A → S) l s :
  P s → (∀ s x, x ∈ l → P s → P (f s x)) → P (foldl f s l).
Proof. intros Hs Hf. apply (foldl_prefix (λ _, P)); eauto. Qed.

Lemma foldl_rel {A S} (R : S → S → Prop) `{!PreOrder R} (f : S → A → S) l s :
  (∀ s x, R s (f s x)) → R s (foldl f s l).
Proof. intros Hf. apply (foldl_ind (λ s', R s s')); [done|]. intros s' x _ Hx. etrans; [done|apply Hf]. Qed.

Lemma Forall2_alter_r {A} (R : A → A → Prop) `{!PreOrder R} (f : A → A) i (l l' : list A) :
  (∀ x, R x (f x)) → Forall2 R l l' → Forall2 R l (alter f i l').
Proof.
  intros Hf Hl. revert i. induction Hl as [|x y l l' Hxy Hl IH]; intros [|i]; simpl; constructor; try done.
  - by etrans.
  - apply IH.
Qed.

(** ** Keys of two parts *)

Definition nul_free (s : string) : Prop := str_all (λ c, negb (bool_decide (c = chr 0))) s = true.

Lemma nul_key_inj a b c d :
  nul_free a → nul_free c → a +:+ nul_str +:+ b = c +:+ nul_str +:+ d → a = c ∧ b = d.
Proof.
  unfold nul_free. change nul_str with (str1 (chr 0)). unfold str1.
  revert c. induction a as [|x a IH]; intros [|y c]; cbn [str_all].
  - rewrite !str_nil_app, !str_cons_app, !str_nil_app. intros _ _ [= ->]. done.
  - rewrite !str_nil_app, (str_cons_app y c), !str_cons_app. intros _ Hc [= <- _].
    rewrite bool_decide_eq_true_2 in Hc by done. done.
  - rewrite !str_nil_app, (str_cons_app x a), !str_cons_app. intros Hc _ [= -> _].
    rewrite bool_decide_eq_true_2 in Hc by done. done.
  - intros [_ Ha]%andb_true_iff [_ Hc]%andb_true_iff. rewrite (str_cons_app x a), (str_cons_app y c).
    intros [= -> He]. destruct (IH c Ha Hc He) as [-> ->]. done.
Qed.

(** ** Diagnostics before the import edges *)

Definition import_kinds : list string := ["internal-access"; "undeclared-dependency"].
Definition cycle_kind : string := "module-cycle".
Definition early (d : Diagnostic) : Prop := g_Kind d ∉ cycle_kind :: import_kinds.
#[export] Instance early_dec d : Decision (early d) := _.

Ltac early := unfold early; cbn [g_Kind occurrenceDiagnostic dependencyDiagnostic]; by apply (bool_decide_unpack _).

Section stages.
Context `{UnicodeTables}.

Lemma parseLoop_early occurrence values seen :
  Forall early (parseDependencyLoop occurrence values seen).2.
Proof.
  revert seen. induction values as [|v values IH]; intros seen; cbn [parseDependencyLoop]; [constructor|].
  destruct (parseDependency v occurrence) as [d|e].
  - case_bool_decide.
    + specialize (IH seen). destruct (parseDependencyLoop _ _ seen). constructor; [early|done].
    + specialize (IH ({[Dependency_String d]} ∪ seen)). by destruct (parseDependencyLoop _ _ _).
  - specialize (IH seen). destruct (parseDependencyLoop _ _ seen). constructor; [early|done].
Qed.

Lemma parseValues_early occurrence values : Forall early (parseDependencyValues occurrence values).2.
Proof.
  unfold parseDependencyValues. pose proof (parseLoop_early occurrence values ∅) as Hl.
  by destruct (parseDependencyLoop _ _ _).
Qed.

Lemma parseDependencies_early occurrence : Forall early (parseDependencies occurrence).2.
Proof.
  unfold parseDependencies.
  repeat (case_match; simplify_eq/=; try (by constructor); try apply parseValues_early);
    try (constructor; [early|constructor]).
  all: match goal with Hp : parseDependencyValues ?o ?v = _ |- _ =>
    pose proof (parseValues_early o v) as Hv; rewrite Hp in Hv end.
  all: apply Forall_app; split; [|done].
  all: apply Forall_forall; intros d (ix & _ & Hd)%list_elem_of_omap; case_bool_decide; simplify_eq/=; early.
Qed.

Lemma namedInterfaceName_early occurrence d : namedInterfaceName occurrence = Fail d → early d.
Proof.
  assert (∀ name, validateNamedInterfaceName occurrence name = Fail d → early d) as Hv.
  { unfold validateNamedInterfaceName. intros name. case_match; [|done]. intros [= <-]. early. }
  assert (∀ args, interfaceNames occurrence args = Fail d → early d) as Hn.
  { induction args as [|a args IH]; cbn [interfaceNames]; [done|]. case_match; [done|]. case_match.
    - intros [= <-]. early.
    - intros [He|(names & _ & He)]%outcome_bind_fail; [by apply IH|done]. }
  assert (interfaceNames occurrence (oc_Arguments occurrence) ≫= (λ names, match names with
      | [name] => validateNamedInterfaceName occurrence name
      | _ => Fail (occurrenceDiagnostic occurrence "interface-name" "@NamedInterface requires exactly one name")
      end) = Fail d → early d) as Hm.
  { intros [He|(names & _ & He)]%outcome_bind_fail; [by eapply Hn|].
    destruct names as [|n [|]]; [|by eapply Hv|]; injection He as <-; early. }
  unfold namedInterfaceName. destruct (DescriptorContribution _ _) as [[]|]; first [exact (Hv _)|exact Hm].
Qed.

(** ** The packages of the program *)

Lemma packageIndex_lookup packages p pkg :
  packageIndex packages !! p = Some pkg → lp_Path pkg = p ∧ pkg ∈ packages.
Proof.
  revert p pkg. unfold packageIndex. apply (foldl_ind (λ m : gmap string LoadPackage,
    ∀ p pkg, m !! p = Some pkg → lp_Path pkg = p ∧ pkg ∈ packages)).
  - intros p pkg. by rewrite lookup_empty.
  - intros m x Hx IH p pkg. destruct (decide (p = lp_Path x)) as [->|Hne].
    + rewrite lookup_insert_eq. by intros [= <-].
    + rewrite lookup_insert_ne by done. apply IH.
Qed.

Lemma packageIndex_some packages pkg :
  pkg ∈ packages → is_Some (packageIndex packages !! lp_Path pkg).
Proof.
  unfold packageIndex. revert pkg. apply (foldl_prefix (λ pre (m : gmap string LoadPackage),
    ∀ pkg, pkg ∈ pre → is_Some (m !! lp_Path pkg))).
  - by intros pkg Hin%elem_of_nil.
  - intros pre x m _ IH pkg [Hp| ->%list_elem_of_singleton]%elem_of_app.
    + destruct (decide (lp_Path pkg = lp_Path x)) as [->|]; [rewrite lookup_insert_eq; by eexists|].
      rewrite lookup_insert_ne by done. by apply IH.
    + rewrite lookup_insert_eq. by eexists.
Qed.

(** ** The modules *)

(** A module of [discoverModules]: the root package alone decides it. *)
Definition fresh_module (packages : gmap string LoadPackage) (m : Module) : Prop :=
  m_RootPackage m = m_ID m ∧ m_packages m = [] ∧ m_namedInterfaces m = [] ∧
  ∃ pkg, packages !! m_ID m = Some pkg ∧ m_GoModulePath m = lp_ModulePath pkg.

(** The invariant of the loop over the occurrences. *)
Definition modules_found (packages : gmap string LoadPackage)
    (st : gmap string Occurrence * list Module * list Diagnostic) : Prop :=
  Forall (fresh_module packages) st.1.2 ∧ Forall early st.2 ∧ NoDup (m_ID <$> st.1.2) ∧
  ∀ m, m ∈ st.1.2 → is_Some (st.1.1 !! m_ID m).

Lemma discoverModule_found packages st o :
  (∀ p pkg, packages !! p = Some pkg → lp_Path pkg = p) →
  modules_found packages st → modules_found packages (discoverModule packages st o).
Proof.
  intros Hpaths Hst. destruct st as [[seen mods] diags]. unfold discoverModule.
  destruct (negb (HasContribution _ _)); [done|]. destruct Hst as (Hfresh & Hearly & Hnd & Hseen). simpl in *.
  assert (∀ kind message, early (occurrenceDiagnostic o kind message) →
    Forall early (diags ++ [occurrenceDiagnostic o kind message])) as Hreport.
  { intros kind message Hk. apply Forall_app. split; [done|]. by constructor. }
  destruct (negb _); [split_and!; simpl; [done|apply Hreport; early|done..]|].
  destruct (seen !! oc_PackagePath o) eqn:Es; [split_and!; simpl; [done|apply Hreport; early|done..]|].
  assert (∀ m, m ∈ mods → is_Some (<[oc_PackagePath o := o]> seen !! m_ID m)) as Hseen'.
  { intros m Hm. destruct (decide (m_ID m = oc_PackagePath o)) as [->|].
    - rewrite lookup_insert_eq. by eexists.
    - rewrite lookup_insert_ne by done. by apply Hseen. }
  destruct (packages !! oc_PackagePath o) as [pkg|] eqn:Ep;
    [|split_and!; simpl; [done|apply Hreport; early|done..]].
  pose proof (parseDependencies_early o) as Hdeps. destruct (parseDependencies o) as [allowed more].
  apply Hpaths in Ep as Hp. split_and!; simpl.
  - apply Forall_app. split; [done|]. constructor; [|constructor]. unfold fresh_module. simpl.
    rewrite Hp. split_and!; [done..|]. by exists pkg.
  - apply Forall_app. by split.
  - rewrite fmap_app. apply NoDup_app. split_and!; [done| |apply NoDup_singleton].
    intros id (m & Hm & Hin)%list_elem_of_fmap Hid%list_elem_of_singleton. simpl in Hid.
    apply Hseen in Hin as [x Hx]. congruence.
  - intros m [Hm| ->%list_elem_of_singleton]%elem_of_app; [by apply Hseen'|]. simpl. rewrite Hp.
    rewrite lookup_insert_eq. by eexists.
Qed.

Definition id_sorted (ms : list Module) : Prop :=
  StronglySorted (λ m m', str_ltb (m_ID m) (m_ID m') = true) ms.

Lemma discoverModules_spec occurrences packages ms ds :
  (∀ p pkg, packages !! p = Some pkg → lp_Path pkg = p) →
  discoverModules occurrences packages = (ms, ds) →
  Forall (fresh_module packages) ms ∧ Forall early ds ∧ id_sorted ms.
Proof.
  intros Hpaths. unfold discoverModules.
  assert (modules_found packages (foldl (discoverModule packages) (∅, [], []) occurrences)) as Hfound.
  { apply (foldl_ind (modules_found packages)).
    - split_and!; simpl; [constructor..|]. by intros m Hm%elem_of_nil.
    - intros st o _. by apply discoverModule_found. }
  destruct (foldl _ _ occurrences) as [[seen mods] diags]. destruct Hfound as (Hfresh & Hearly & Hnd & _).
  simpl in *.
  intros [= <- <-]. split_and!; [by rewrite sort_stable_perm|done|].
  assert (StronglySorted (not_after module_less) (sort_stable module_less mods)) as Hs
    by (apply sort_stable_sorted; apply _).
  assert (NoDup (m_ID <$> sort_stable module_less mods)) as Hnd' by by rewrite sort_stable_perm.
  induction Hs as [|m l Hs IH Hm]; [constructor|]. apply NoDup_cons in Hnd' as [Hni Hnd'].
  constructor; [by apply IH|]. rewrite Forall_forall in *. intros m' Hm'. specialize (Hm m' Hm').
  unfold not_after, module_less, on_key in Hm. destruct (str_ltb (m_ID m) (m_ID m')) eqn:E; [done|].
  destruct Hni. rewrite (st_total (StrictTotal := str_ltb_total) _ _ E Hm). by apply list_elem_of_fmap_2.
Qed.
End stages.

(** ** Package ownership *)

Definition package_paths (m : Module) : list string := p_Path <$> m_packages m.

(** [packageOwner] and the packages of the modules agree. *)
Definition owners_match (model : Model) : Prop :=
  ∀ i m p, modules model !! i = Some m → (p ∈ package_paths m ↔ packageOwner model !! p = Some i).

Record assigned (packages : gmap string LoadPackage) (ms : list Module) (ds : list Diagnostic)
    (seen : list string) (model : Model) : Prop := {
  as_roots : Forall2 same_root ms (modules model);
  as_owner p : packageOwner model !! p = if decide (p ∈ seen) then packages !! p ≫= ownerIndex ms else None;
  as_match : owners_match model;
  as_bare : Forall (λ m, m_namedInterfaces m = []) (modules model);
  as_diagnostics : diagnostics model = ds;
  as_edges : edges model = [];
  as_cycles : cycles model = [];
}.

Lemma ownerIndex_lt ms pkg i : ownerIndex ms pkg = Some i → is_Some (ms !! i).
Proof.
  intros Ho. pose proof (ownerIndex_spec ms pkg) as Hs. rewrite Ho in Hs.
  destruct Hs as (m & Hm & _). by eexists.
Qed.

Lemma owner_snoc (packages : gmap string LoadPackage) ms seen path (owner : gmap string nat) :
  (∀ p, owner !! p = if decide (p ∈ seen) then packages !! p ≫= ownerIndex ms else None) →
  (∀ p, (match packages !! path ≫= ownerIndex ms with Some i => <[path := i]> owner | None => owner end) !! p =
        if decide (p ∈ seen ++ [path]) then packages !! p ≫= ownerIndex ms else None).
Proof.
  intros Ho p. destruct (decide (p = path)) as [->|Hne].
  - rewrite decide_True by (apply elem_of_app; right; left).
    destruct (packages !! path ≫= ownerIndex ms) as [i|] eqn:E; [by rewrite lookup_insert_eq|].
    rewrite Ho, E. by case_decide.
  - transitivity (owner !! p); [destruct (packages !! path ≫= ownerIndex ms); [by rewrite lookup_insert_ne|done]|].
    rewrite Ho. do 2 case_decide; set_solver.
Qed.

Lemma assignPackage_step modulePaths packages ms ds seen path model :
  (∀ p pkg, packages !! p = Some pkg → lp_Path pkg = p) →
  assigned packages ms ds seen model →
  assigned packages ms ds (seen ++ [path]) (assignPackage modulePaths packages model path).
Proof.
  intros Hpaths [Hr Ho Hm Hb Hd He Hc]. pose proof (owner_snoc packages ms seen path _ Ho) as Ho'.
  unfold assignPackage. destruct (packages !! path) as [pkg|] eqn:Ep; [|by split].
  apply Hpaths in Ep as Hp. simpl in Ho'. rewrite (ownerIndex_same ms) by done.
  destruct (ownerIndex ms pkg) as [o|] eqn:Eo; [|case_bool_decide; by split].
  set (item := Build_Package _ _ _ _). destruct (ownerIndex_lt _ _ _ Eo) as [mo Hmo].
  split; simpl; [| |intros i m p; simpl| |done..].
  - apply Forall2_alter_r; [apply _| |done]. intros m. by split_and!.
  - by rewrite Hp.
  - intros Hi. assert (∀ q, packageOwner model !! path = Some q → q = o) as Huniq.
    { intros q. rewrite Ho. case_decide; [|done]. rewrite Ep. simpl. rewrite Eo. by intros [= ->]. }
    destruct (decide (i = o)) as [->|Hne].
    + rewrite list_lookup_alter_eq in Hi. destruct (modules model !! o) as [m0|] eqn:Em0; [|done].
      injection Hi as <-. unfold package_paths. simpl. rewrite fmap_app, elem_of_app.
      fold (package_paths m0). rewrite (Hm o m0 p Em0). subst item. simpl. rewrite list_elem_of_singleton.
      destruct (decide (p = lp_Path pkg)) as [->|Hpp]; [rewrite lookup_insert_eq; naive_solver|].
      rewrite lookup_insert_ne by done. naive_solver.
    + rewrite list_lookup_alter_ne in Hi by done. rewrite (Hm i m p Hi).
      destruct (decide (p = lp_Path pkg)) as [->|Hpp]; [|by rewrite lookup_insert_ne].
      rewrite lookup_insert_eq, Hp. split; [by intros ?%Huniq|congruence].
  - apply Forall_alter; [done|]. by intros m _ Hm0.
Qed.

Lemma assignPackages_spec packages ms ds model :
  (∀ p pkg, packages !! p = Some pkg → lp_Path pkg = p) → Forall (fresh_module packages) ms →
  modules model = ms → diagnostics model = ds → packageOwner model = ∅ → edges model = [] → cycles model = [] →
  let model' := assignPackages packages model in
  assigned packages ms ds (sort_strings (map_keys packages)) model' ∧
  ∀ p, packageOwner model' !! p = packages !! p ≫= ownerIndex ms.
Proof.
  intros Hpaths Hfresh Hms Hds Ho He Hc model'.
  assert (assigned packages ms ds (sort_strings (map_keys packages)) model') as Ha.
  { unfold model', assignPackages. apply foldl_prefix.
    - rewrite Forall_forall in Hfresh. split; try done.
      + by rewrite Hms.
      + intros p. by rewrite Ho, lookup_empty.
      + intros i m p Hm. rewrite Ho, lookup_empty. rewrite Hms in Hm. apply list_elem_of_lookup_2, Hfresh in Hm.
        unfold package_paths. destruct Hm as (_ & -> & _). simpl. split; [by intros ?%elem_of_nil|done].
      + rewrite Hms. apply Forall_forall. intros m Hm. by apply Hfresh in Hm as (_ & _ & ? & _).
    - intros pre path st _. by apply assignPackage_step. }
  split; [done|]. intros p. rewrite (as_owner _ _ _ _ _ Ha). case_decide as Hp; [done|].
  destruct (packages !! p) eqn:E; [|done]. exfalso. apply Hp. rewrite elem_of_sort_strings.
  unfold map_keys. apply list_elem_of_fmap. eexists (p, _). split; [done|]. by apply elem_of_map_to_list.
Qed.

(** ** Stages that add interfaces and diagnostics *)

(** What the named interfaces and the declared dependencies may change. *)
Definition same_packages (m m' : Module) : Prop := same_root m m' ∧ m_packages m' = m_packages m.
#[export] Instance same_packages_preorder : PreOrder same_packages.
Proof.
  split; [done|]. intros m1 m2 m3 [H1 E1] [H2 E2]. split; [by etrans|congruence].
Qed.

Record grows (model model' : Model) : Prop := {
  gr_modules : Forall2 same_packages (modules model) (modules model');
  gr_owner : packageOwner model' = packageOwner model;
  gr_edges : edges model' = edges model;
  gr_cycles : cycles model' = cycles model;
  gr_early : Forall early (diagnostics model) → Forall early (diagnostics model');
}.
#[export] Instance grows_preorder : PreOrder grows.
Proof.
  split; [intros m; by split|]. intros m1 m2 m3 [? ? ? ? ?] [? ? ? ? ?]. split; try congruence; [by etrans|auto].
Qed.

Lemma add_diagnostics_grows ds model : Forall early ds → grows model (add_diagnostics ds model).
Proof. intros Hds. split; try done. intros Hm. by apply Forall_app. Qed.

Section stages.
Context `{UnicodeTables}.

Lemma discoverNamedInterface_grows packages st o :
  grows st.2 (discoverNamedInterface packages st o).2.
Proof.
  destruct st as [seen model]. unfold discoverNamedInterface.
  destruct (negb _); [done|]. destruct (namedInterfaceName o) as [name|d] eqn:Hname.
  2: { apply add_diagnostics_grows. constructor; [by eapply namedInterfaceName_early|constructor]. }
  assert (∀ kind message, early (occurrenceDiagnostic o kind message) →
    grows model (add_diagnostics [occurrenceDiagnostic o kind message] model)) as Hreport.
  { intros kind message He. apply add_diagnostics_grows. by constructor. }
  destruct (packages !! oc_PackagePath o) as [pkg|]; [|apply Hreport; early].
  destruct (bool_decide (oc_Target o = TargetPackage)); [|apply Hreport; early].
  destruct (ownerIndex (modules model) pkg) as [owner|]; [|apply Hreport; early]. cbv zeta.
  destruct (seen !! _); [apply Hreport; early|].
  split; simpl; try done. apply Forall2_alter_r; [apply _|by split|done].
Qed.

Lemma discoverNamedInterfaces_grows occurrences packages model :
  grows model (discoverNamedInterfaces occurrences packages model).
Proof.
  unfold discoverNamedInterfaces.
  apply (foldl_ind (λ st : gmap string Occurrence * Model, grows model st.2)); [done|].
  intros st o _ Hst. etrans; [done|apply discoverNamedInterface_grows].
Qed.

Lemma validateDependencies_grows universe model : grows model (validateDependencies universe model).
Proof.
  apply add_diagnostics_grows, Forall_forall. intros d (m & Hd & _)%list_elem_of_bind.
  apply list_elem_of_omap in Hd as (dep & _ & Hd). unfold validateDependency in Hd.
  repeat case_match; simplify_eq; early.
Qed.
End stages.

(** ** The model the import edges are added to *)

Definition resolved_model `{UnicodeTables} (program : Program) (resolution : Resolution) (universe : Universe) : Model :=
  let packages := packageIndex (PrimaryPackages program) in
  let '(ms, ds) := discoverModules (r_Occurrences resolution) packages in
  validateDependencies universe (discoverNamedInterfaces (r_Occurrences resolution) packages
    (assignPackages packages (add_diagnostics ds (set_modules ms empty_model)))).

Record resolved (program : Program) (model : Model) : Prop := {
  rs_sorted : id_sorted (modules model);
  rs_roots m : m ∈ modules model → m_RootPackage m = m_ID m;
  rs_root_package m : m ∈ modules model → m_ID m ∈ lp_Path <$> PrimaryPackages program;
  rs_owner p : packageOwner model !! p = packageIndex (PrimaryPackages program) !! p ≫= ownerIndex (modules model);
  rs_match : owners_match model;
  rs_early : Forall early (diagnostics model);
  rs_edges : edges model = [];
  rs_cycles : cycles model = [];
}.

Lemma Forall2_same_lookup (R : Module → Module → Prop) ms ms' m' :
  Forall2 R ms ms' → m' ∈ ms' → ∃ m, m ∈ ms ∧ R m m'.
Proof.
  intros HR (i & Hi)%list_elem_of_lookup. destruct (Forall2_lookup_r _ _ _ _ _ HR Hi) as (m & Hm & Hmm).
  exists m. split; [by eapply list_elem_of_lookup_2|done].
Qed.

Lemma id_sorted_same ms ms' : Forall2 same_root ms ms' → id_sorted ms → id_sorted ms'.
Proof.
  unfold id_sorted. induction 1 as [|m m' ms ms' [Hid _] Hs IH]; [done|]. inversion 1 as [|?? Hs' Hm]; subst.
  constructor; [by apply IH|]. rewrite Forall_forall in *. intros x' Hx'.
  destruct (Forall2_same_lookup _ _ _ _ Hs Hx') as (x & Hx & [Hxid _]). rewrite Hid, Hxid. auto.
Qed.

Lemma resolved_model_spec `{UnicodeTables} program resolution universe :
  resolved program (resolved_model program resolution universe).
Proof.
  unfold resolved_model. set (packages := packageIndex (PrimaryPackages program)).
  assert (∀ p pkg, packages !! p = Some pkg → lp_Path pkg = p) as Hpaths
    by by intros p pkg [? _]%packageIndex_lookup.
  destruct (discoverModules (r_Occurrences resolution) packages) as [ms ds] eqn:Hd.
  destruct (discoverModules_spec _ _ _ _ Hpaths Hd) as (Hfresh & Hearly & Hsorted).
  set (base := add_diagnostics ds (set_modules ms empty_model)).
  destruct (assignPackages_spec packages ms ds base Hpaths Hfresh) as [Ha Howner]; [done..|].
  set (M1 := assignPackages packages base) in *.
  set (M2 := validateDependencies _ _). assert (grows M1 M2) as [Hms Ho He Hc Hd2].
  { etrans; [apply discoverNamedInterfaces_grows|apply validateDependencies_grows]. }
  assert (Forall2 same_root ms (modules M2)) as Hroots.
  { etrans; [apply (as_roots _ _ _ _ _ Ha)|]. eapply Forall2_impl; [exact Hms|]. by intros ?? [? _]. }
  rewrite Forall_forall in Hfresh. split.
  - by eapply id_sorted_same.
  - intros m Hm. destruct (Forall2_same_lookup _ _ _ _ Hroots Hm) as (m0 & Hm0 & (Hid & Hroot & _)).
    rewrite Hid, Hroot. by apply Hfresh.
  - intros m Hm. destruct (Forall2_same_lookup _ _ _ _ Hroots Hm) as (m0 & Hm0 & (Hid & _)). rewrite Hid.
    destruct (Hfresh m0 Hm0) as (_ & _ & _ & pkg & Hp & _). apply packageIndex_lookup in Hp as [Hpid Hp]. rewrite <-Hpid.
    by apply list_elem_of_fmap_2.
  - intros p. fold packages. rewrite Ho, Howner. destruct (packages !! p); simpl; [|done]. symmetry. by apply ownerIndex_same.
  - intros i m p Hm. destruct (Forall2_lookup_r _ _ _ _ _ Hms Hm) as (m1 & Hm1 & _ & Hp).
    unfold package_paths. rewrite Hp, Ho. by apply (as_match _ _ _ _ _ Ha).
  - apply Hd2. by rewrite (as_diagnostics _ _ _ _ _ Ha).
  - by rewrite He, (as_edges _ _ _ _ _ Ha).
  - by rewrite Hc, (as_cycles _ _ _ _ _ Ha).
Qed.
