(* ===== verification/ModulithEdges.v ===== *)
(** The import edges: which imports become edges and which of them are
    reported. *)
From S2P Require Import Prelude GoSort GoStrings GoStrconv Provider Annotation Scc CycleSearch Modulith ModulithOwner ModulithAssign.

(** ** Identities *)

Lemma id_sorted_nodup ms : id_sorted ms → NoDup (m_ID <$> ms).
Proof.
  induction 1 as [|m ms Hs IH Hm]; [constructor|]. apply NoDup_cons. split; [|done].
  intros (m' & He & Hm')%list_elem_of_fmap. rewrite Forall_forall in Hm. specialize (Hm m' Hm').
  rewrite He in Hm. by rewrite (sw_irrefl (StrictWeak := st_weak)) in Hm.
Qed.

Lemma id_sorted_index ms i j m m' :
  id_sorted ms → ms !! i = Some m → ms !! j = Some m' → m_ID m = m_ID m' → i = j.
Proof.
  intros Hs%id_sorted_nodup Hi Hj He. eapply NoDup_lookup; [exact Hs| |].
  - by rewrite list_lookup_fmap, Hi.
  - by rewrite list_lookup_fmap, Hj, He.
Qed.

Lemma id_sorted_unique ms m m' : id_sorted ms → m ∈ ms → m' ∈ ms → m_ID m = m_ID m' → m = m'.
Proof.
  intros Hs (i & Hi)%list_elem_of_lookup (j & Hj)%list_elem_of_lookup He.
  assert (i = j) as -> by by eapply id_sorted_index. congruence.
Qed.

(** ** Imports that cross modules *)

Definition crosses (packages : list LoadPackage) (model : Model) (pkg : LoadPackage) (imported : packageImport)
    (from to : Module) : Prop :=
  pkg ∈ packages ∧ imported ∈ packageImports pkg ∧ Owner model (lp_Path pkg) = Some from ∧
  Owner model (pi_path imported) = Some to ∧ m_ID from ≠ m_ID to.

Definition import_key (from to : string) : string := from +:+ nul_str +:+ to.
Definition edge_key (e : Edge) : string := import_key (e_FromPackage e) (e_ToPackage e).

(** The state of the loop over the imports, [base] being the model it starts from. *)
Record linked (packages : list LoadPackage) (base : Model) (done : list (LoadPackage * packageImport))
    (st : gset string * Model) : Prop := {
  ln_modules : modules st.2 = modules base;
  ln_owner : packageOwner st.2 = packageOwner base;
  ln_cycles : cycles st.2 = cycles base;
  ln_diagnostics : diagnostics st.2 = diagnostics base ++ omap importProblem (edges st.2);
  ln_edges e : e ∈ edges st.2 → ∃ pkg imported from to,
    crosses packages base pkg imported from to ∧ e = importEdge from to pkg imported;
  ln_seen k : k ∈ st.1 ↔ k ∈ edge_key <$> edges st.2;
  ln_nodup : NoDup (edge_key <$> edges st.2);
  ln_covers pkg imported from to : (pkg, imported) ∈ done → crosses packages base pkg imported from to →
    import_key (lp_Path pkg) (pi_path imported) ∈ st.1;
}.

Lemma importEdge_key from to pkg imported :
  edge_key (importEdge from to pkg imported) = import_key (lp_Path pkg) (pi_path imported).
Proof. unfold importEdge. by destruct (importedAPI _ _ _) as [[? ?] ?]. Qed.

Definition import_step (st : gset string * Model) (x : LoadPackage * packageImport) : gset string * Model :=
  match packageOwner st.2 !! lp_Path x.1 with
  | None => st
  | Some from => discoverImport x.1 from st x.2
  end.

Lemma discoverImport_owner pkg i st imported :
  packageOwner (discoverImport pkg i st imported).2 = packageOwner st.2.
Proof. destruct st as [seen model]. unfold discoverImport. by repeat case_match. Qed.

Lemma discoverPackageImports_steps st pkg :
  discoverPackageImports st pkg = foldl import_step st (pair pkg <$> packageImports pkg).
Proof.
  unfold discoverPackageImports. destruct (packageOwner st.2 !! lp_Path pkg) as [i|] eqn:Ho.
  - revert st Ho. induction (packageImports pkg) as [|x l IH]; intros st Ho; [done|]. simpl.
    unfold import_step at 2. simpl. rewrite Ho. apply IH. by rewrite discoverImport_owner.
  - induction (packageImports pkg) as [|x l IH]; [done|]. simpl. unfold import_step at 2. simpl. by rewrite Ho.
Qed.

Definition all_imports (packages : list LoadPackage) : list (LoadPackage * packageImport) :=
  packages ≫= λ pkg, pair pkg <$> packageImports pkg.

Lemma discoverImportEdges_steps packages model :
  discoverImportEdges packages model = (foldl import_step (∅, model) (all_imports packages)).2.
Proof.
  unfold discoverImportEdges, all_imports. generalize (∅ : gset string, model). clear model. f_equal.
  induction packages as [|pkg packages IH]; intros st; [done|]. simpl.
  by rewrite foldl_app, <-discoverPackageImports_steps.
Qed.

Section linking.
Context (packages : list LoadPackage) (base : Model).
Hypothesis Hsorted : id_sorted (modules base).

Lemma Owner_index p m : Owner base p = Some m ↔ ∃ i, packageOwner base !! p = Some i ∧ modules base !! i = Some m.
Proof. apply bind_Some. Qed.

(** An import that adds nothing. *)
Lemma linked_skip done0 st pkg imported :
  linked packages base done0 st →
  (∀ from to, crosses packages base pkg imported from to → import_key (lp_Path pkg) (pi_path imported) ∈ st.1) →
  linked packages base (done0 ++ [(pkg, imported)]) st.
Proof.
  intros [? ? ? ? ? ? ? Hcov] Hnew. split; try done.
  intros pkg' imported' from to [Hin| [= -> ->]%list_elem_of_singleton]%elem_of_app; [by eapply Hcov|apply Hnew].
Qed.

Lemma import_step_linked done0 st pkg imported :
  pkg ∈ packages → imported ∈ packageImports pkg → (∀ p i, packageOwner base !! p = Some i → is_Some (modules base !! i)) →
  linked packages base done0 st → linked packages base (done0 ++ [(pkg, imported)]) (import_step st (pkg, imported)).
Proof.
  intros Hpkg Himp Hindex Hl. unfold import_step. simpl. rewrite (ln_owner _ _ _ _ Hl).
  destruct (packageOwner base !! lp_Path pkg) as [i|] eqn:Hi.
  2: { apply linked_skip; [done|]. intros from to (_ & _ & (i & Hi' & _)%Owner_index & _). congruence. }
  destruct st as [seen model]. unfold discoverImport.
  pose proof (ln_owner _ _ _ _ Hl) as Hown. simpl in Hown. rewrite Hown.
  destruct (packageOwner base !! pi_path imported) as [j|] eqn:Hj.
  2: { apply linked_skip; [done|]. intros from to (_ & _ & _ & (j & Hj' & _)%Owner_index & _). congruence. }
  case_bool_decide as Hij.
  { apply linked_skip; [done|]. intros from to (_ & _ & (i' & Hi' & Hf)%Owner_index & (j' & Hj' & Ht)%Owner_index & Hne).
    simplify_eq. }
  cbv zeta. fold (import_key (lp_Path pkg) (pi_path imported)). case_bool_decide as Hk; [by apply linked_skip|].
  destruct (Hindex _ _ Hi) as [from Hfrom], (Hindex _ _ Hj) as [to Hto].
  pose proof (ln_modules _ _ _ _ Hl) as Hm. simpl in Hm. rewrite Hm, Hfrom, Hto.
  assert (crosses packages base pkg imported from to) as Hc.
  { split_and!; [done|done|apply Owner_index; by exists i|apply Owner_index; by exists j|].
    intros He. apply Hij. by eapply id_sorted_index. }
  destruct Hl as [_ Ho Hcy Hd He Hs Hnd Hcov]. simpl in *. split; simpl; try done.
  - by rewrite Hd, omap_app, omap_cons_option, app_nil_r, app_assoc.
  - intros e [?| ->%list_elem_of_singleton]%elem_of_app; [by apply He|]. by exists pkg, imported, from, to.
  - intros k. rewrite fmap_app, elem_of_app, elem_of_union, elem_of_singleton, <-Hs. simpl.
    rewrite list_elem_of_singleton, importEdge_key. tauto.
  - rewrite fmap_app. apply NoDup_app. split_and!; [done| |apply NoDup_singleton].
    simpl. intros k Hk' ->%list_elem_of_singleton. rewrite importEdge_key in Hk'. by apply Hs in Hk'.
  - intros pkg' imported' from' to' [Hin| [= -> ->]%list_elem_of_singleton]%elem_of_app Hc';
      [|by apply elem_of_union_l, elem_of_singleton]. apply elem_of_union_r. by eapply Hcov.
Qed.

Lemma discoverImportEdges_linked :
  edges base = [] → (∀ p i, packageOwner base !! p = Some i → is_Some (modules base !! i)) →
  ∃ seen, linked packages base (all_imports packages) (seen, discoverImportEdges packages base).
Proof.
  intros He Hindex. rewrite discoverImportEdges_steps.
  assert (linked packages base (all_imports packages) (foldl import_step (∅, base) (all_imports packages))) as Hl.
  { apply foldl_prefix.
    - split; simpl; try done; rewrite ?He; simpl.
      + by rewrite app_nil_r.
      + by intros e Hin%elem_of_nil.
      + set_solver.
      + constructor.
      + by intros ???? Hin%elem_of_nil.
    - intros pre [pkg imported] st Hin Hl. unfold all_imports in Hin.
      apply list_elem_of_bind in Hin as (pkg' & (imported' & [= -> ->] & Him)%list_elem_of_fmap & Hpkg).
      by apply import_step_linked. }
  destruct (foldl _ _ _) as [seen model]. by exists seen.
Qed.
End linking.

(** ** Which imports are permitted *)

(** [from] declares the API [api] of the module [id]. *)
Definition declares (from : Module) (id api : string) : Prop :=
  ∃ d, d ∈ m_allowed from ∧ d_ModuleID d = id ∧ d_Interface d = api.

(** The package is the root of [to], or one of its named interfaces, under a
    name that [from] declares. *)
Definition permitted (from to : Module) (path : string) : Prop :=
  path = m_RootPackage to ∧ declares from (m_ID to) "" ∨
  path ≠ m_RootPackage to ∧
  ∃ i, i ∈ m_namedInterfaces to ∧ ni_PackagePath i = path ∧ declares from (m_ID to) (ni_Name i).

Lemma allowsDependency_spec from id api : allowsDependency from id api = true ↔ declares from id api.
Proof.
  unfold allowsDependency, declares. rewrite existsb_exists. setoid_rewrite list_elem_of_In.
  setoid_rewrite andb_true_iff. by setoid_rewrite bool_decide_eq_true.
Qed.

Lemma importProblem_none e : importProblem e = None ↔ e_Exported e = true ∧ e_Allowed e = true.
Proof. unfold importProblem. destruct (e_Exported e), (e_Allowed e); naive_solver. Qed.

Lemma importProblem_kind e d : importProblem e = Some d → g_Kind d ∈ import_kinds.
Proof.
  unfold importProblem, import_kinds. destruct (negb (e_Exported e)); [intros [= <-]; set_solver|].
  destruct (negb (e_Allowed e)); [intros [= <-]; set_solver|done].
Qed.

Lemma importEdge_permitted from to pkg imported :
  importProblem (importEdge from to pkg imported) = None ↔ permitted from to (pi_path imported).
Proof.
  rewrite importProblem_none. unfold importEdge, importedAPI, permitted. case_bool_decide as Hroot.
  { cbn. rewrite allowsDependency_spec. naive_solver. }
  set (names := sort_strings _).
  assert (∀ name, name ∈ names ↔ ∃ i, i ∈ m_namedInterfaces to ∧ ni_PackagePath i = pi_path imported ∧ name = ni_Name i) as Hnames.
  { intros name. unfold names. rewrite elem_of_sort_strings, list_elem_of_fmap.
    setoid_rewrite list_elem_of_filter. naive_solver. }
  destruct names as [|first rest].
  { cbn. split; [by intros [? _]|]. intros [[? _]|(_ & i & Hi & Hp & _)]; [done|].
    assert (ni_Name i ∈ @nil string) as []%elem_of_nil. apply Hnames. eauto. }
  destruct (list_find _ _) as [[n name]|] eqn:Hf; cbn.
  - apply list_find_Some in Hf as (Hn & Hallow & _). apply list_elem_of_lookup_2, Hnames in Hn as (i & Hi & Hp & ->).
    split; [|done]. intros _. right. split; [done|]. exists i. split_and!; [done..|]. by apply allowsDependency_spec.
  - apply list_find_None in Hf. rewrite Forall_forall in Hf. split; [by intros [_ ?]|].
    intros [[? _]|(_ & i & Hi & Hp & Hd)]; [done|]. exfalso. apply (Hf (ni_Name i)); [apply Hnames; eauto|].
    by apply allowsDependency_spec.
Qed.
