(* ===== verification/ModulithCycles.v ===== *)
(** The module graph of the edges, its strongly connected components and the
    cycles that are reported. *)
From S2P Require Import Prelude GoSort GoStrings GoStrconv Provider Annotation Scc CycleSearch Modulith ModulithOwner ModulithAssign ModulithEdges.

(** ** The module graph *)

(** An edge leads from one module to another. *)
Definition depends (es : list Edge) (x y : string) : Prop :=
  ∃ e, e ∈ es ∧ e_FromModule e = x ∧ e_ToModule e = y.

Definition module_key (e : Edge) : string := import_key (e_FromModule e) (e_ToModule e).

Record adjacency_of (done : list Edge) (st : gset string * gmap string (list string)) : Prop := {
  aj_seen k : k ∈ st.1 ↔ k ∈ module_key <$> done;
  aj_next x y : y ∈ adjacent st.2 x ↔ depends done x y;
  aj_nul e : e ∈ done → nul_free (e_FromModule e);
}.

Lemma addAdjacent_step done0 st e :
  nul_free (e_FromModule e) → adjacency_of done0 st → adjacency_of (done0 ++ [e]) (addAdjacent st e).
Proof.
  intros Hnul [Hs Hn Hf]. destruct st as [seen result]. simpl in *. unfold addAdjacent. fold (import_key (e_FromModule e) (e_ToModule e)).
  fold (module_key e).
  assert (∀ x y, depends (done0 ++ [e]) x y ↔ depends done0 x y ∨ (x = e_FromModule e ∧ y = e_ToModule e)) as Hdep.
  { intros x y. unfold depends. setoid_rewrite elem_of_app. setoid_rewrite list_elem_of_singleton. naive_solver. }
  assert (∀ e', e' ∈ done0 ++ [e] → nul_free (e_FromModule e')) as Hf'
    by by intros e' [?| ->%list_elem_of_singleton]%elem_of_app; [apply Hf|].
  assert (∀ k, k ∈ module_key <$> done0 ++ [e] ↔ k ∈ module_key <$> done0 ∨ k = module_key e) as Hkey.
  { intros k. rewrite fmap_app, elem_of_app. simpl. by rewrite list_elem_of_singleton. }
  case_bool_decide as Hk.
  - pose proof Hk as (e' & He' & Hin)%Hs%list_elem_of_fmap.
    apply nul_key_inj in He' as [Hfr Hto]; [|apply Hf'; set_solver..].
    split; simpl; [intros k|intros x y|done].
    + rewrite Hkey, Hs. split; [by left|]. intros [?| ->]; [done|by apply Hs].
    + rewrite Hdep, Hn. split; [by left|]. intros [?|[-> ->]]; [done|]. by exists e'.
  - split; simpl; [| |done].
    + intros k. rewrite Hkey, elem_of_union, elem_of_singleton, Hs. tauto.
    + intros x y. rewrite Hdep. unfold adjacent in *. destruct (decide (x = e_FromModule e)) as [->|Hne].
      * rewrite lookup_insert_eq. simpl. rewrite elem_of_app, Hn, list_elem_of_singleton. naive_solver.
      * rewrite lookup_insert_ne by done. rewrite Hn. naive_solver.
Qed.

Lemma addAdjacent_dom st e :
  dom (addAdjacent st e).2 ⊆ {[e_FromModule e]} ∪ dom st.2 ∧ dom st.2 ⊆ dom (addAdjacent st e).2.
Proof. destruct st as [seen result]. unfold addAdjacent. case_bool_decide; simpl; set_solver. Qed.

Definition module_ids (ms : list Module) : list string := m_ID <$> ms.

(** The first map of [moduleAdjacency]. *)
Lemma empty_adjacency ms :
  let m : gmap string (list string) := foldl (λ m module, <[m_ID module := []]> m) ∅ ms in
  (∀ x, adjacent m x = []) ∧ ∀ x, x ∈ dom m ↔ x ∈ module_ids ms.
Proof.
  cbv zeta. apply (foldl_prefix (λ pre (m : gmap string (list string)),
    (∀ x, adjacent m x = []) ∧ ∀ x, x ∈ dom m ↔ x ∈ module_ids pre)).
  - split; [intros x; unfold adjacent; by rewrite lookup_empty|]. intros x. rewrite dom_empty. set_solver.
  - intros pre module m _ [Hn Hd]. split; intros x.
    + unfold adjacent in *. destruct (decide (x = m_ID module)) as [->|].
      * by rewrite lookup_insert_eq.
      * by rewrite lookup_insert_ne.
    + unfold module_ids in *. rewrite dom_insert, elem_of_union, elem_of_singleton, Hd, fmap_app, elem_of_app.
      simpl. rewrite list_elem_of_singleton. tauto.
Qed.

Section graph.
Context (ms : list Module) (es : list Edge).
Hypothesis Hnul : ∀ e, e ∈ es → nul_free (e_FromModule e).

Notation adjacency := (moduleAdjacency ms es).

Lemma moduleAdjacency_next x y : y ∈ adjacent adjacency x ↔ depends es x y.
Proof.
  unfold moduleAdjacency. pose proof (empty_adjacency ms) as [He _]. cbv zeta in He.
  set (m0 := foldl _ ∅ ms) in *.
  assert (adjacency_of es (foldl addAdjacent (∅, m0) es)) as Ha.
  { apply foldl_prefix.
    - split; simpl; [set_solver| |set_solver]. intros u v. rewrite He. unfold depends. set_solver.
    - intros pre e st He' Hst. apply addAdjacent_step; [by apply Hnul|done]. }
  rewrite <-(aj_next _ _ Ha). unfold adjacent. rewrite lookup_fmap.
  destruct ((foldl _ _ es).2 !! x); simpl; [apply elem_of_sort_strings|done].
Qed.

Lemma moduleAdjacency_dom x :
  (∀ e, e ∈ es → e_FromModule e ∈ module_ids ms) → x ∈ dom adjacency ↔ x ∈ module_ids ms.
Proof.
  intros Hfrom. unfold moduleAdjacency. pose proof (empty_adjacency ms) as [_ Hd]. cbv zeta in Hd.
  set (m0 := foldl _ ∅ ms) in *. rewrite dom_fmap.
  apply (foldl_ind (λ st : gset string * gmap string (list string), x ∈ dom st.2 ↔ x ∈ module_ids ms)); [apply Hd|].
  intros st e He IH. destruct (addAdjacent_dom st e) as [H1 H2]. specialize (Hfrom e He). set_solver.
Qed.

Lemma moduleAdjacency_keys x :
  (∀ e, e ∈ es → e_FromModule e ∈ module_ids ms) → x ∈ sort_strings (map_keys adjacency) ↔ x ∈ module_ids ms.
Proof.
  intros Hfrom. rewrite elem_of_sort_strings, <-moduleAdjacency_dom by done. unfold map_keys.
  rewrite elem_of_dom, list_elem_of_fmap. split.
  - intros ([y v] & -> & Hin%elem_of_map_to_list). by exists v.
  - intros [v Hv]. exists (x, v). split; [done|]. by apply elem_of_map_to_list.
Qed.
End graph.

(** ** Components *)

(** Every finished component of the search went through [sort_strings]. *)
Definition components_sorted (s : componentSearch string) : Prop :=
  ∀ C, C ∈ cs_result s → ∃ C', C = sort_strings C'.

Section sorted.
Context (adj : string → list string).

Lemma leave_components_sorted node s : components_sorted s → components_sorted (leave sort_strings node s).
Proof.
  intros Hs. unfold leave. case_decide; [done|]. destruct (pop_component _ _ _) as [[c r] on]. intros C. simpl.
  rewrite elem_of_app, list_elem_of_singleton. intros [?| ->]; eauto.
Qed.

Lemma connect_components_sorted fuel node s s' :
  components_sorted s → connect adj sort_strings fuel node s = Some s' → components_sorted s'.
Proof.
  revert node s s'. induction fuel as [|fuel IH]; intros node s s' Hs; simpl; [done|].
  intros (s1 & Hl & [= <-])%bind_Some. apply leave_components_sorted.
  assert (components_sorted (enter node s)) as He by done. revert He Hl. generalize (enter node s).
  induction (adj node) as [|x l IHl]; intros s0 Hs0; simpl; [by intros [= <-]|].
  intros (s2 & Hx & Hl)%bind_Some. apply (IHl s2); [|done].
  destruct (cs_indices s0 !! x); [by destruct (on_stack s0 x); simplify_eq|].
  apply bind_Some in Hx as (s3 & Hx & [= <-]). by apply IH in Hx.
Qed.

Lemma tarjan_components_sorted nodes s : tarjan_run adj sort_strings nodes = Some s → components_sorted s.
Proof.
  unfold tarjan_run. generalize (length nodes). intros fuel.
  assert (components_sorted search_init) as Hi by by intros C HC%elem_of_nil. revert Hi. generalize (@search_init string _ _).
  induction nodes as [|x l IHl]; intros s0 Hs0; simpl; [by intros [= <-]|].
  intros (s2 & Hx & Hl)%bind_Some. apply (IHl s2); [|done].
  destruct (cs_indices s0 !! x); [by injection Hx as <-|by apply connect_components_sorted in Hx].
Qed.
End sorted.

Lemma sorted_nodup l : StronglySorted (λ x y, str_ltb x y = true) l → NoDup l.
Proof.
  induction 1 as [|x l Hs IH Hx]; constructor; [|done]. intros Hin.
  rewrite Forall_forall in Hx. specialize (Hx x Hin). by rewrite (sw_irrefl (StrictWeak := st_weak)) in Hx.
Qed.

(** A component of the module graph. *)
Definition is_component (es : list Edge) (C : list string) : Prop :=
  StronglySorted (λ x y, str_ltb x y = true) C ∧ C ≠ [] ∧
  ∀ x y, x ∈ C → (y ∈ C ↔ rtc (depends es) x y ∧ rtc (depends es) y x).

Lemma rtc_same {A} (R R' : relation A) x y : (∀ x y, R x y ↔ R' x y) → rtc R x y ↔ rtc R' x y.
Proof.
  intros HR. split.
  all: induction 1 as [|u v w Hu _ IH]; [done|]; eapply rtc_l; [|done]; by apply HR.
Qed.

Lemma tc_same {A} (R R' : relation A) x y : (∀ x y, R x y ↔ R' x y) → tc R x y ↔ tc R' x y.
Proof.
  intros HR. split; apply (tc_congruence id); intros u v; apply HR.
Qed.

Section components.
Context (ms : list Module) (es : list Edge).
Hypothesis Hnul : ∀ e, e ∈ es → nul_free (e_FromModule e).
Hypothesis Hends : ∀ e, e ∈ es → e_FromModule e ∈ module_ids ms ∧ e_ToModule e ∈ module_ids ms.

Notation adjacency := (moduleAdjacency ms es).

Lemma components_spec :
  ∃ Cs, stronglyConnectedComponents adjacency = Some Cs ∧ NoDup (concat Cs) ∧
    (∀ x, x ∈ concat Cs ↔ x ∈ module_ids ms) ∧ (∀ C, C ∈ Cs → is_component es C).
Proof.
  assert (∀ e, e ∈ es → e_FromModule e ∈ module_ids ms) as Hfrom by by intros e [? _]%Hends.
  pose proof (λ x, moduleAdjacency_keys ms es Hnul x Hfrom) as Hkeys.
  destruct (tarjan_run_correct (adjacent adjacency) sort_strings (sort_stable_perm str_ltb)
    (sort_strings (map_keys adjacency))) as (s & Hs & Hnd & Hin & Hne & Hscc).
  { intros x y _ (e & He & _ & <-)%moduleAdjacency_next; [|done]. apply Hkeys. by apply Hends. }
  pose proof (tarjan_components_sorted _ _ _ Hs) as Hsorted.
  assert (sort_stable component_less (cs_result s) ≡ₚ cs_result s) as Hperm by apply sort_stable_perm.
  exists (sort_stable component_less (cs_result s)). split_and!.
  - unfold stronglyConnectedComponents. by rewrite Hs.
  - by rewrite Hperm.
  - intros x. by rewrite Hperm, Hin, Hkeys.
  - intros C HC. rewrite Hperm in HC. split_and!; [| |].
    + destruct (Hsorted C HC) as [C' ->]. apply sort_strings_strict.
      apply list_elem_of_split in HC as (l1 & l2 & El). rewrite El, concat_app in Hnd. simpl in Hnd.
      apply NoDup_app in Hnd as (_ & _ & Hnd). apply NoDup_app in Hnd as (Hnd & _ & _).
      by apply NoDup_sort_stable in Hnd.
    + by apply Hne.
    + intros x y Hx. rewrite (Hscc C x y HC Hx).
      rewrite !(rtc_same (edge (adjacent adjacency)) (depends es)); [done|..];
        intros; by apply moduleAdjacency_next.
Qed.
End components.

(** ** The reported cycles *)

(** A component of at least two modules, with a closed simple path from its
    least member. *)
Definition is_cycle (es : list Edge) (c : Cycle) : Prop :=
  is_component es (c_Members c) ∧ 2 ≤ length (c_Members c) ∧
  ∃ first path, head (c_Members c) = Some first ∧ c_Path c = first :: path ++ [first] ∧ NoDup (first :: path) ∧
    ∀ a u v b, c_Path c = a ++ u :: v :: b → depends es u v.

Definition cycle_of (adjacency : gmap string (list string)) (members : list string) : Cycle :=
  {| c_Members := members; c_Path := representativeCycle members adjacency |}.

Section cycles.
Context (ms : list Module) (es : list Edge).
Hypothesis Hnul : ∀ e, e ∈ es → nul_free (e_FromModule e).
Hypothesis Hends : ∀ e, e ∈ es → e_FromModule e ∈ module_ids ms ∧ e_ToModule e ∈ module_ids ms.
Hypothesis Hloop : ∀ e, e ∈ es → e_FromModule e ≠ e_ToModule e.

Notation adjacency := (moduleAdjacency ms es).

Lemma cycle_of_spec C : is_component es C → 2 ≤ length C → is_cycle es (cycle_of adjacency C).
Proof.
  intros HC Hlen. pose proof HC as (Hsorted & _ & Hscc). split_and!; [done|done|]. simpl.
  destruct C as [|first rest]; [simpl in Hlen; lia|]. exists first. unfold representativeCycle.
  change (default "" (head (first :: rest))) with first. cbv zeta.
  pose proof (sorted_nodup _ Hsorted) as Hnd.
  destruct (find_cycle_component (adjacent adjacency) (first :: rest) first longer_than_start)
    as (o & q & -> & Hw & Hq & _).
  - intros p Hp. unfold longer_than_start. apply Nat.ltb_lt. lia.
  - done.
  - left.
  - lia.
  - intros y. rewrite (Hscc first y) by left.
    rewrite !(rtc_same (edge (adjacent adjacency)) (depends es)); [done|..]; intros; by apply moduleAdjacency_next.
  - intros (e & He & Hf & Ht)%moduleAdjacency_next; [|done]. apply (Hloop e He). congruence.
  - exists q. split_and!; [done|done|done|]. intros a u v b E. eapply walk_consecutive in E as [Hv _]; [|done].
    by apply moduleAdjacency_next in Hv.
Qed.

Definition by_id (l : list Module) : gmap string Module := foldl (λ m module, <[m_ID module := module]> m) ∅ l.

Lemma by_id_some id : id ∈ module_ids ms → is_Some (by_id ms !! id).
Proof.
  unfold by_id, module_ids. revert id. apply (foldl_prefix (λ pre (m : gmap string Module),
    ∀ id, id ∈ m_ID <$> pre → is_Some (m !! id))); [by intros id Hin%elem_of_nil|].
  intros pre module m _ IH id. rewrite fmap_app, elem_of_app. simpl. rewrite list_elem_of_singleton.
  destruct (decide (id = m_ID module)) as [->|]; [rewrite lookup_insert_eq; by eexists|].
  rewrite lookup_insert_ne by done. intros [?|?]; [by apply IH|done].
Qed.

(** What a fold over components adds to the model. *)
Record reported (base : Model) (done : list (list string)) (model : Model) : Prop := {
  rp_modules : modules model = modules base;
  rp_owner : packageOwner model = packageOwner base;
  rp_edges : edges model = edges base;
  rp_cycles : cycles model = cycles base ++ (cycle_of adjacency <$> filter (λ C, 2 ≤ length C) done);
  rp_diagnostics : ∃ ds, diagnostics model = diagnostics base ++ ds ∧ Forall (λ d, g_Kind d = cycle_kind) ds ∧
    length ds = length (filter (λ C : list string, 2 ≤ length C) done);
}.

Lemma discoverCycle_reported base done0 model C :
  default "" (head C) ∈ module_ids ms → reported base done0 model →
  reported base (done0 ++ [C]) (discoverCycle adjacency (by_id ms) model C).
Proof.
  intros Hid [Hm Ho He Hc (ds & Hd & Hk & Hl)]. unfold discoverCycle.
  assert (∀ C', filter (λ C, 2 ≤ length C) (done0 ++ [C']) =
    filter (λ C, 2 ≤ length C) done0 ++ if decide (2 ≤ length C') then [C'] else []) as Hf.
  { intros C'. by rewrite filter_app. }
  destruct (Nat.ltb_spec (length C) 2) as [Hlt|Hge].
  - split; rewrite ?Hf, ?decide_False, ?app_nil_r by lia; eauto.
  - destruct (by_id_some _ Hid) as [module ->].
    split; rewrite ?Hf, ?decide_True by lia; simpl; [done..| |].
    + by rewrite Hc, fmap_app, app_assoc.
    + eexists (ds ++ [_]). rewrite Hd, <-app_assoc. split_and!; [done| |rewrite !length_app, Hl; simpl; lia].
      apply Forall_app. split; [done|]. repeat constructor.
Qed.
End cycles.

Record cycles_found (base model : Model) : Prop := {
  cf_modules : modules model = modules base;
  cf_owner : packageOwner model = packageOwner base;
  cf_edges : edges model = edges base;
  cf_cycles c : c ∈ cycles model → is_cycle (edges base) c;
  cf_all x y : x ≠ y → rtc (depends (edges base)) x y → rtc (depends (edges base)) y x →
    ∃ c, c ∈ cycles model ∧ x ∈ c_Members c;
  cf_diagnostics : ∃ ds, diagnostics model = diagnostics base ++ ds ∧ Forall (λ d, g_Kind d = cycle_kind) ds ∧
    length ds = length (cycles model);
}.

Lemma depends_rtc_in ms es x y :
  (∀ e, e ∈ es → e_FromModule e ∈ module_ids ms ∧ e_ToModule e ∈ module_ids ms) →
  x ≠ y → rtc (depends es) x y → x ∈ module_ids ms.
Proof. intros Hends Hne Hr. destruct Hr as [|x v y (e & He & <- & _) _]; [done|]. by apply Hends. Qed.

Lemma discoverCycles_spec base :
  (∀ e, e ∈ edges base → nul_free (e_FromModule e)) →
  (∀ e, e ∈ edges base → e_FromModule e ∈ module_ids (modules base) ∧ e_ToModule e ∈ module_ids (modules base)) →
  (∀ e, e ∈ edges base → e_FromModule e ≠ e_ToModule e) →
  cycles base = [] → cycles_found base (discoverCycles base).
Proof.
  intros Hnul Hends Hloop Hc0.
  destruct (components_spec (modules base) (edges base) Hnul Hends) as (Cs & HCs & Hnd & Hin & Hcomp).
  unfold discoverCycles. rewrite HCs. change (default [] (Some Cs)) with Cs.
  cbv zeta. fold (by_id (modules base)). set (model := foldl (discoverCycle _ _) base Cs).
  assert (reported (modules base) (edges base) base Cs model) as [Hm Ho He Hc (ds & Hd & Hk & Hl)].
  { apply foldl_prefix.
    - split; try done; [by rewrite app_nil_r|]. exists []. by rewrite app_nil_r.
    - intros pre C st HC Hr. apply discoverCycle_reported; [|done]. apply Hin, elem_of_concat. exists C. split; [done|].
      destruct (Hcomp C HC) as (_ & Hne & _). destruct C; [done|]. left. }
  rewrite Hc0 in Hc. simpl in Hc. split; [done..| | |].
  - intros c. rewrite Hc. intros (C & -> & [Hlen HC]%list_elem_of_filter)%list_elem_of_fmap.
    apply cycle_of_spec; auto.
  - intros x y Hne Hxy Hyx. assert (x ∈ concat Cs) as (C & HC & Hx)%elem_of_concat
      by by eapply Hin, depends_rtc_in.
    exists (cycle_of (moduleAdjacency (modules base) (edges base)) C). split; [|done]. rewrite Hc.
    apply list_elem_of_fmap_2, list_elem_of_filter. split; [|done].
    destruct (Hcomp C HC) as (_ & _ & Hscc). assert (y ∈ C) as Hy by by apply (Hscc x y Hx).
    destruct C as [|a [|b C]]; simpl; [set_solver..|lia].
  - exists ds. by rewrite Hc, length_fmap.
Qed.

(** ** Edges in another order *)

#[export] Instance depends_perm : Proper ((≡ₚ) ==> (=) ==> (=) ==> iff) depends.
Proof.
  intros es es' Hp x ? <- y ? <-. unfold depends. split; intros (e & He & ?); exists e; split; try done.
  - by rewrite <-Hp.
  - by rewrite Hp.
Qed.

#[export] Instance is_cycle_perm : Proper ((≡ₚ) ==> (=) ==> iff) is_cycle.
Proof.
  intros es es' Hp c ? <-.
  assert (∀ x y, rtc (depends es) x y ↔ rtc (depends es') x y) as Hr
    by (intros x y; apply rtc_same; intros u v; by rewrite Hp).
  unfold is_cycle, is_component. setoid_rewrite Hr. setoid_rewrite Hp. done.
Qed.

(** Without self edges a module is on a cycle exactly when a cycle is found. *)
Lemma cycles_found_iff base model :
  (∀ e, e ∈ edges base → e_FromModule e ≠ e_ToModule e) → cycles_found base model →
  (∃ c, c ∈ cycles model) ↔ ∃ x, tc (depends (edges base)) x x.
Proof.
  intros Hloop Hf. split.
  - intros (c & ((Hs & _ & Hscc) & Hlen & _)%(cf_cycles _ _ Hf)).
    destruct (c_Members c) as [|a [|b l]]; simpl in Hlen; [lia..|]. apply sorted_nodup, NoDup_cons in Hs as [Hni _].
    destruct (proj1 (Hscc a b ltac:(left))) as [Hab Hba]; [right; left|]. exists a.
    eapply tc_rtc_r; [|exact Hba]. inversion Hab as [|? v ? Hav Hvb]; subst; [by destruct Hni; left|].
    eapply tc_rtc_r; [apply tc_once; exact Hav|exact Hvb].
  - intros (x & Hx). assert (∃ y, depends (edges base) x y ∧ rtc (depends (edges base)) y x) as (y & Hxy & Hyx).
    { inversion Hx as [? y Hxy|? y ? Hxy Hyz]; subst; [by exists x|]. exists y. split; [done|by apply tc_rtc]. }
    destruct (cf_all _ _ Hf x y) as (c & Hc & _); [|by apply rtc_once|done|by exists c].
    intros ->. destruct Hxy as (e & He & <- & Ht). by destruct (Hloop e He).
Qed.
