(* ===== verification/ModulithFinal.v ===== *)
(** The model [BuildWithUniverse] returns, in terms of its stages: sorting the
    modules keeps their positions, and the rebuilt owners are the owners the
    packages were assigned to. *)
From S2P Require Import Prelude GoSort GoStrings GoStrconv Provider Annotation Scc CycleSearch Modulith ModulithOwner ModulithAssign ModulithEdges ModulithCycles.

(** ** Rebuilding the owners *)

Lemma insert_paths_lookup i (pkgs : list Package) (owners : gmap string nat) p :
  foldl (λ owners pkg, <[p_Path pkg := i]> owners) owners pkgs !! p =
  if bool_decide (p ∈ p_Path <$> pkgs) then Some i else owners !! p.
Proof.
  revert owners. induction pkgs as [|pkg pkgs IH]; intros owners; [done|].
  cbn [foldl]. rewrite IH, fmap_cons. destruct (decide (p = p_Path pkg)) as [->|Hne].
  - rewrite lookup_insert_eq, (bool_decide_eq_true_2 (_ ∈ _ :: _)) by left. by case_bool_decide.
  - rewrite lookup_insert_ne by done. do 2 case_bool_decide; set_solver.
Qed.

Lemma rebuildOwners_match ms (owner : gmap string nat) :
  (∀ i m p, ms !! i = Some m → p ∈ package_paths m ↔ owner !! p = Some i) →
  (∀ p i, owner !! p = Some i → is_Some (ms !! i)) → rebuildOwners ms = owner.
Proof.
  intros Hmatch Hindex. set (result := rebuildOwners ms).
  assert ((∀ p i, result !! p = Some i → ∃ m, (i, m) ∈ imap pair ms ∧ p ∈ package_paths m) ∧
    ∀ p i m, (i, m) ∈ imap pair ms → p ∈ package_paths m → is_Some (result !! p)) as [Hsome Hall].
  { unfold result, rebuildOwners. apply (foldl_prefix (λ pre (owners : gmap string nat),
      (∀ p i, owners !! p = Some i → ∃ m, (i, m) ∈ pre ∧ p ∈ package_paths m) ∧
      ∀ p i m, (i, m) ∈ pre → p ∈ package_paths m → is_Some (owners !! p))).
    - split; [intros p i; by rewrite lookup_empty|by intros p i m ?%elem_of_nil].
    - intros pre [j mj] owners _ [Hsome Hall]. cbn [fst snd]. fold (package_paths mj). split.
      + intros p i. rewrite insert_paths_lookup. fold (package_paths mj). setoid_rewrite elem_of_app.
        case_bool_decide; [intros [= ->]; exists mj; by split; [right; left|]|].
        intros (m & ? & ?)%Hsome. exists m. by split; [left|].
      + intros p i m [Hin| [= -> ->]%list_elem_of_singleton]%elem_of_app Hp; rewrite insert_paths_lookup;
          fold (package_paths mj); case_bool_decide; [by eexists|by eapply Hall|by eexists|done]. }
  assert (∀ i m, (i, m) ∈ imap pair ms ↔ ms !! i = Some m) as Hin.
  { intros i m. rewrite elem_of_lookup_imap. naive_solver. }
  setoid_rewrite Hin in Hsome. setoid_rewrite Hin in Hall. apply map_eq. intros p.
  destruct (owner !! p) as [i|] eqn:Ho.
  - destruct (Hindex p i Ho) as [m Hm]. destruct (Hall p i m Hm) as [j Hj]; [by apply (Hmatch i m)|].
    rewrite Hj. destruct (Hsome p j Hj) as (m' & Hm' & Hp). apply (Hmatch j m' p Hm') in Hp. congruence.
  - destruct (result !! p) as [j|] eqn:Hj; [|done]. destruct (Hsome p j Hj) as (m' & Hm' & Hp).
    apply (Hmatch j m' p Hm') in Hp. congruence.
Qed.

(** ** Sorting the modules *)

Lemma sorted_modules_id ms : id_sorted ms → sort_stable module_less (sortModule <$> ms) = sortModule <$> ms.
Proof.
  intros Hs. apply sort_stable_id, (StronglySorted_fmap_in _ _ _ _) with (2 := Hs). intros x y _ _ Hxy.
  unfold not_after, module_less, on_key. simpl. by apply sw_asym; [apply st_weak|].
Qed.

Lemma sortModule_paths m p : p ∈ package_paths (sortModule m) ↔ p ∈ package_paths m.
Proof. unfold package_paths, sortModule. simpl. by rewrite sort_stable_perm. Qed.

Lemma sortModule_declares from id api : declares (sortModule from) id api ↔ declares from id api.
Proof. unfold declares, sortModule. simpl. setoid_rewrite elem_of_sort_stable. done. Qed.

Lemma sortModule_permitted from to path :
  permitted (sortModule from) (sortModule to) path ↔ permitted from to path.
Proof.
  unfold permitted. setoid_rewrite sortModule_declares. simpl. by setoid_rewrite elem_of_sort_stable.
Qed.

Lemma sortModule_allows from id api : allowsDependency (sortModule from) id api = allowsDependency from id api.
Proof. apply eq_true_iff_eq. by rewrite !allowsDependency_spec, sortModule_declares. Qed.

Lemma list_find_ext_in {A} (P Q : A → Prop) `{!∀ x, Decision (P x), !∀ x, Decision (Q x)} l :
  (∀ x, P x ↔ Q x) → list_find P l = list_find Q l.
Proof. intros HPQ. induction l as [|x l IH]; [done|]. simpl. rewrite IH. do 2 case_decide; naive_solver. Qed.

Lemma sortModule_edge from to pkg imported :
  importEdge (sortModule from) (sortModule to) pkg imported = importEdge from to pkg imported.
Proof.
  unfold importEdge, importedAPI. cbn [m_RootPackage sortModule m_ID m_namedInterfaces].
  rewrite sortModule_allows.
  rewrite (sort_strings_perm_eq _ (ni_Name <$> filter (λ item, ni_PackagePath item = pi_path imported) (m_namedInterfaces to)))
    by by rewrite sort_stable_perm.
  case_bool_decide; [done|]. destruct (sort_strings _) as [|x l]; [done|].
  rewrite (list_find_ext_in (λ name, allowsDependency (sortModule from) (m_ID to) name = true)
    (λ name, allowsDependency from (m_ID to) name = true)); [done|]. intros name. by rewrite sortModule_allows.
Qed.

(** ** The stages together *)

Lemma discoverCycles_keeps model :
  modules (discoverCycles model) = modules model ∧ packageOwner (discoverCycles model) = packageOwner model ∧
  edges (discoverCycles model) = edges model.
Proof.
  unfold discoverCycles. cbv zeta. apply (foldl_ind (λ m, modules m = modules model ∧
    packageOwner m = packageOwner model ∧ edges m = edges model)); [done|].
  intros m C _ Hm. unfold discoverCycle. by repeat case_match.
Qed.

Section built.
Context `{UnicodeTables} (program : Program) (resolution : Resolution) (universe : Universe).
Hypothesis Hdiag : r_Diagnostics resolution = [].

Notation primary := (PrimaryPackages program).
Notation base := (resolved_model program resolution universe).
Notation M := (BuildWithUniverse (Some program) resolution universe).

Lemma Build_stages :
  M = rebuildPackageOwners (sortModel (discoverCycles (discoverImportEdges primary base))).
Proof.
  unfold BuildWithUniverse, resolved_model. rewrite Hdiag. cbn [length Nat.eqb negb].
  by destruct (discoverModules _ _).
Qed.

Let Hbase : resolved program base := resolved_model_spec program resolution universe.

Lemma base_index p i : packageOwner base !! p = Some i → is_Some (modules base !! i).
Proof.
  rewrite (rs_owner _ _ Hbase). intros (pkg & _ & Hi)%bind_Some. by apply ownerIndex_lt in Hi.
Qed.

Lemma base_linked : ∃ seen, linked primary base (all_imports primary) (seen, discoverImportEdges primary base).
Proof. apply discoverImportEdges_linked; [apply Hbase|apply Hbase|apply base_index]. Qed.

Lemma final_modules : modules M = sortModule <$> modules base.
Proof.
  rewrite Build_stages. cbn [rebuildPackageOwners sortModel modules].
  destruct (discoverCycles_keeps (discoverImportEdges primary base)) as (-> & _ & _).
  destruct base_linked as [seen Hl]. pose proof (ln_modules _ _ _ _ Hl) as Hm. simpl in Hm. rewrite Hm.
  apply sorted_modules_id, Hbase.
Qed.

Lemma final_owner : packageOwner M = packageOwner base.
Proof.
  assert (packageOwner M = rebuildOwners (modules M)) as -> by by rewrite Build_stages.
  rewrite final_modules. apply rebuildOwners_match.
  - intros i m p Hm. rewrite list_lookup_fmap in Hm.
    destruct (modules base !! i) as [m0|] eqn:Hm0; [|done]. injection Hm as <-.
    rewrite sortModule_paths. by apply (rs_match _ _ Hbase).
  - intros p i Hp. apply base_index in Hp as [m Hm]. rewrite list_lookup_fmap, Hm. by eexists.
Qed.

Lemma final_sorted : id_sorted (modules M).
Proof.
  rewrite final_modules. eapply (StronglySorted_fmap_in sortModule); [|apply (rs_sorted _ _ Hbase)]. done.
Qed.

Lemma final_Owner p : Owner M p = sortModule <$> Owner base p.
Proof.
  unfold Owner. rewrite final_owner, final_modules. destruct (packageOwner base !! p); simpl; [|done].
  by rewrite list_lookup_fmap.
Qed.

Lemma final_module m : m ∈ modules M ↔ ∃ m0, m0 ∈ modules base ∧ m = sortModule m0.
Proof. rewrite final_modules, list_elem_of_fmap. naive_solver. Qed.

Lemma final_ids : module_ids (modules M) = module_ids (modules base).
Proof. unfold module_ids. by rewrite final_modules, <-list_fmap_compose. Qed.

Lemma final_edges : edges M ≡ₚ edges (discoverImportEdges primary base).
Proof.
  rewrite Build_stages. cbn [rebuildPackageOwners sortModel edges]. rewrite sort_stable_perm.
  by destruct (discoverCycles_keeps (discoverImportEdges primary base)) as (_ & _ & ->).
Qed.

Lemma final_crosses pkg imported from to :
  crosses primary M pkg imported from to ↔
  ∃ from0 to0, crosses primary base pkg imported from0 to0 ∧ from = sortModule from0 ∧ to = sortModule to0.
Proof.
  unfold crosses. rewrite !final_Owner. split.
  - intros (? & ? & Hf & Ht & Hne). apply fmap_Some in Hf as (f0 & ? & ->), Ht as (t0 & ? & ->). by exists f0, t0.
  - intros (f0 & t0 & (? & ? & -> & -> & ?) & -> & ->). done.
Qed.

Lemma crosses_in pkg imported from to :
  crosses primary base pkg imported from to → from ∈ modules base ∧ to ∈ modules base.
Proof.
  intros (_ & _ & (i & _ & Hi)%Owner_index & (j & _ & Hj)%Owner_index & _). by split; eapply list_elem_of_lookup_2.
Qed.

(** The ends of an edge are the identities of two different modules. *)
Lemma import_edge_ends e :
  e ∈ edges (discoverImportEdges primary base) →
  e_FromModule e ∈ module_ids (modules base) ∧ e_ToModule e ∈ module_ids (modules base) ∧
  e_FromModule e ≠ e_ToModule e.
Proof.
  destruct base_linked as [seen Hl]. intros (pkg & imported & from & to & Hc & ->)%(ln_edges _ _ _ _ Hl).
  destruct (crosses_in _ _ _ _ Hc) as [Hf Ht]. destruct Hc as (_ & _ & _ & _ & Hne).
  unfold importEdge, module_ids. destruct (importedAPI _ _ _) as [[? ?] ?]. simpl.
  split_and!; [by apply list_elem_of_fmap_2..|done].
Qed.

Section nul.
Hypothesis Hnul : ∀ pkg, pkg ∈ primary → nul_free (lp_Path pkg).

Lemma id_nul_free id : id ∈ module_ids (modules base) → nul_free id.
Proof.
  intros (m & -> & Hm)%list_elem_of_fmap. apply (rs_root_package _ _ Hbase) in Hm.
  apply list_elem_of_fmap in Hm as (pkg & -> & Hp). by apply Hnul.
Qed.

(** Every import that crosses modules has an edge. *)
Lemma covered_edge pkg imported from to :
  crosses primary base pkg imported from to → ∃ pkg' imported',
    importEdge from to pkg' imported' ∈ edges (discoverImportEdges primary base) ∧
    lp_Path pkg' = lp_Path pkg ∧ pi_path imported' = pi_path imported.
Proof.
  intros Hc. destruct base_linked as [seen Hl].
  assert (import_key (lp_Path pkg) (pi_path imported) ∈ seen) as Hk.
  { eapply (ln_covers _ _ _ _ Hl); [|exact Hc]. destruct Hc as (Hp & Hi & _).
    apply list_elem_of_bind. exists pkg. split; [|done]. by apply list_elem_of_fmap_2. }
  apply (ln_seen _ _ _ _ Hl) in Hk. apply list_elem_of_fmap in Hk as (e & Hk & He). simpl in He.
  pose proof (ln_edges _ _ _ _ Hl e He) as (pkg' & imported' & f' & t' & Hc' & ->). rewrite importEdge_key in Hk.
  apply nul_key_inj in Hk as [E1 E2]; [|apply Hnul; apply Hc|apply Hnul; apply Hc'].
  destruct Hc as (_ & _ & Hf & Ht & _), Hc' as (_ & _ & Hf' & Ht' & _).
  rewrite <-E1 in Hf'. rewrite <-E2 in Ht'. simplify_eq. by exists pkg', imported'.
Qed.

Lemma base_cycles :
  cycles_found (discoverImportEdges primary base) (discoverCycles (discoverImportEdges primary base)).
Proof.
  destruct base_linked as [seen Hl]. pose proof (ln_modules _ _ _ _ Hl) as Hm. simpl in Hm.
  apply discoverCycles_spec.
  - intros e (Hf & _)%import_edge_ends. by apply id_nul_free.
  - rewrite Hm. by intros e (? & ? & _)%import_edge_ends.
  - by intros e (_ & _ & ?)%import_edge_ends.
  - pose proof (ln_cycles _ _ _ _ Hl) as Hc. simpl in Hc. by rewrite Hc, (rs_cycles _ _ Hbase).
Qed.

Lemma final_cycles : cycles M ≡ₚ cycles (discoverCycles (discoverImportEdges primary base)).
Proof. rewrite Build_stages. apply sort_stable_perm. Qed.

(** The diagnostics of the model: early ones, one per edge that is not
    permitted, one per cycle. *)
Lemma final_diagnostics :
  ∃ ds cs, diagnostics M ≡ₚ ds ++ omap importProblem (edges (discoverImportEdges primary base)) ++ cs ∧
    Forall early ds ∧ Forall (λ d, g_Kind d = cycle_kind) cs ∧ length cs = length (cycles M).
Proof.
  destruct (cf_diagnostics _ _ base_cycles) as (cs & Hd & Hk & Hlen). destruct base_linked as [seen Hl].
  pose proof (ln_diagnostics _ _ _ _ Hl) as Hd'. simpl in Hd'. rewrite Hd' in Hd.
  exists (diagnostics base), cs. split_and!; [|apply Hbase|done|by rewrite Hlen, final_cycles].
  rewrite app_assoc, <-Hd, Build_stages. apply sort_stable_perm.
Qed.

Lemma final_import_diagnostics :
  (∃ d, d ∈ diagnostics M ∧ g_Kind d ∈ import_kinds) ↔
  ∃ e, e ∈ edges (discoverImportEdges primary base) ∧ importProblem e ≠ None.
Proof.
  destruct final_diagnostics as (ds & cs & Hperm & Hds & Hcs & _). rewrite Forall_forall in Hds, Hcs.
  setoid_rewrite Hperm. setoid_rewrite elem_of_app. setoid_rewrite elem_of_app. split.
  - intros (d & [Hd|[(e & He & Hp)%list_elem_of_omap|Hd]] & Hk).
    + destruct (Hds d Hd). by right.
    + exists e. by rewrite Hp.
    + rewrite (Hcs d Hd) in Hk. by apply (bool_decide_unpack (cycle_kind ∉ import_kinds)) in Hk.
  - intros (e & He & Hp). destruct (importProblem e) as [d|] eqn:E; [|done]. exists d.
    split; [|by eapply importProblem_kind]. right. left. apply list_elem_of_omap. by exists e.
Qed.

Lemma final_cycle_diagnostics :
  (∃ d, d ∈ diagnostics M ∧ g_Kind d = cycle_kind) ↔ ∃ c, c ∈ cycles M.
Proof.
  destruct final_diagnostics as (ds & cs & Hperm & Hds & Hcs & Hlen). rewrite Forall_forall in Hds, Hcs.
  setoid_rewrite Hperm. setoid_rewrite elem_of_app. setoid_rewrite elem_of_app. split.
  - intros (d & [Hd|[(e & He & Hp)%list_elem_of_omap|Hd]] & Hk).
    + destruct (Hds d Hd). rewrite Hk. left.
    + apply importProblem_kind in Hp. rewrite Hk in Hp.
      by apply (bool_decide_unpack (cycle_kind ∉ import_kinds)) in Hp.
    + destruct (cycles M) as [|c l]; [|exists c; left]. by destruct cs; [apply elem_of_nil in Hd|].
  - intros (c & Hc). destruct cs as [|d cs]; [destruct (cycles M); [by apply elem_of_nil in Hc|done]|].
    exists d. split; [right; right; left|]. apply Hcs. left.
Qed.
End nul.
End built.
