(* ===== verification/ModulithRender.v ===== *)
(** Documentation of a module model (render.go of compiler/modulith): the focused
    view of a module, that is the depth-first search that orders the modules it
    depends on, with the fuel that is enough for it; and the JSON canvas and the
    Mermaid and PlantUML diagrams, as the text that is written.
    [json.MarshalIndent] is modelled for the values the document is made of. *)
From S2P Require Import Prelude GoSort Scc CycleSearch Provider GoStrings GoStrconv Annotation Modulith ModulithOwner ModulithAssign ModulithEdges ModulithCycles.

Section focus.
Context (moduleID : string) (adjacency : gmap string (list string)).

Notation next := (edge (adjacent adjacency)).
Notation reach := (rtc next).

Definition colour (st : focus_state) (x : string) : N := default 0%N (st.1 !! x).

(** What the search knows: the modules on the path are being visited, those in
    the order are done, and each of them comes after what it depends on. *)
Record focus_inv (path : list string) (st : focus_state) : Prop := {
  fi_path x : colour st x = 1%N ↔ x ∈ path;
  fi_done x : colour st x = 2%N ↔ x ∈ st.2;
  fi_colours x : (colour st x < 3)%N;
  fi_nodup : NoDup st.2;
  fi_first pre x post y : st.2 = pre ++ x :: post → next x y → y ∈ pre;
}.

(** The modules that are not on the path yet. *)
Definition unvisited_size (path : list string) : nat := size ((dom adjacency : gset string) ∖ list_to_set path).

Definition visited_post (path : list string) (current : string) (st : focus_state)
    (r : outcome error focus_state) : Prop :=
  match r with
  | Ok st' => focus_inv path st' ∧ (∃ new, st'.2 = st.2 ++ new ∧ ∀ x, x ∈ new → reach current x) ∧ current ∈ st'.2
  | Fail _ => ∃ x, reach current x ∧ tc next x x
  end.

Definition visit_ok (fuel : nat) : Prop := ∀ path current st,
  focus_inv path st → (∀ g, g ∈ path → tc next g current) → (unvisited_size path < fuel)%nat →
  ∃ r, focusVisit fuel moduleID adjacency current st = Some r ∧ visited_post path current st r.

(** The loop over the dependencies of [current]. *)
Lemma visitAll_spec fuel path current dependencies st :
  visit_ok fuel → focus_inv path st → (∀ g, g ∈ path → tc next g current ∨ g = current) →
  (∀ y, y ∈ dependencies → next current y) → (unvisited_size path < fuel)%nat →
  ∃ r, visitAll (focusVisit fuel moduleID adjacency) dependencies st = Some r ∧
    match r with
    | Ok st' => focus_inv path st' ∧ (∃ new, st'.2 = st.2 ++ new ∧ ∀ x, x ∈ new → reach current x) ∧
        ∀ y, y ∈ dependencies → y ∈ st'.2
    | Fail _ => ∃ x, reach current x ∧ tc next x x
    end.
Proof.
  intros Hok Hinv Hpath. revert st Hinv. induction dependencies as [|d ds IH]; intros st Hinv Hdeps Hfuel; simpl.
  { eexists. split; [done|]. split_and!; [done| |by intros y Hy%elem_of_nil]. exists [].
    split; [by rewrite app_nil_r|]. by intros x Hx%elem_of_nil. }
  assert (next current d) as Hd by (apply Hdeps; left).
  destruct (Hok path d st Hinv) as (r & -> & Hr); [|done|].
  { intros g [Hg| ->]%Hpath; [by eapply tc_r|by apply tc_once]. }
  destruct r as [st1|e]; simpl in Hr.
  2: { eexists. split; [done|]. destruct Hr as (x & Hx & Hc). exists x. split; [by eapply rtc_l|done]. }
  destruct Hr as (Hinv1 & (new1 & E1 & Hnew1) & Hin).
  destruct (IH st1 Hinv1) as (r & -> & Hr); [intros y Hy; apply Hdeps; by right|done|]. exists r. split; [done|].
  destruct r as [st2|]; [|done]. destruct Hr as (Hinv2 & (new2 & E2 & Hnew2) & Hall). split_and!; [done| |].
  - exists (new1 ++ new2). rewrite E2, E1, app_assoc. split; [done|]. intros x [Hx|Hx]%elem_of_app; [|auto].
    eapply rtc_l; [exact Hd|auto].
  - intros y [->|Hy]%elem_of_cons; [|auto]. rewrite E2. apply elem_of_app. by left.
Qed.

Lemma colour_insert st x c o y :
  colour (<[x := c]> st.1, o) y = if decide (y = x) then c else colour st y.
Proof.
  unfold colour. simpl. case_decide as Hy; [by rewrite Hy, lookup_insert_eq|by rewrite lookup_insert_ne].
Qed.

Lemma enter_focus path current st :
  focus_inv path st → colour st current = 0%N → focus_inv (current :: path) (<[current := 1%N]> st.1, st.2).
Proof.
  intros [Hp Hd Hc Hn Hf] H0. split; simpl; [| | |done|done].
  - intros x. rewrite colour_insert, elem_of_cons, <-Hp. case_decide; naive_solver.
  - intros x. rewrite colour_insert, <-Hd. case_decide as Hx; [|done]. subst x. by rewrite H0.
  - intros x. rewrite colour_insert. by case_decide.
Qed.

Lemma leave_focus path current st :
  focus_inv (current :: path) st → current ∉ path → (∀ y, next current y → y ∈ st.2) →
  focus_inv path (<[current := 2%N]> st.1, st.2 ++ [current]).
Proof.
  intros [Hp Hd Hc Hn Hf] Hni Hnext.
  assert (current ∉ st.2) as Hno.
  { intros Hin%Hd. assert (colour st current = 1%N) as Hone by (apply Hp; left). congruence. }
  split; simpl.
  - intros x. rewrite colour_insert. case_decide as Hx; [by subst|]. rewrite Hp, elem_of_cons. naive_solver.
  - intros x. rewrite colour_insert, elem_of_app, list_elem_of_singleton. case_decide; [naive_solver|].
    rewrite Hd. naive_solver.
  - intros x. rewrite colour_insert. by case_decide.
  - apply NoDup_app. split_and!; [done| |apply NoDup_singleton]. by intros x Hx ->%list_elem_of_singleton.
  - intros pre x post y E Hy. destruct post as [|z post _] using rev_ind.
    + apply app_inj_tail in E as [<- <-]. by apply Hnext.
    + rewrite app_comm_cons, app_assoc in E. apply app_inj_tail in E as [E <-]. by eapply Hf.
Qed.

(** Every module of the order reaches only modules of the order. *)
Lemma order_closed path st x y : focus_inv path st → x ∈ st.2 → next x y → y ∈ st.2.
Proof.
  intros Hinv Hx Hy. apply list_elem_of_split in Hx as (pre & post & E). rewrite E.
  apply elem_of_app. left. by eapply (fi_first _ _ Hinv).
Qed.

Lemma focusVisit_spec fuel : visit_ok fuel.
Proof.
  induction fuel as [|fuel IH]; intros path current st Hinv Hpath Hfuel; [lia|].
  cbn [focusVisit]. fold (colour st current). pose proof (fi_colours _ _ Hinv current) as Hlt.
  destruct (decide (colour st current = 1%N)) as [H1|H1].
  { rewrite H1. eexists. split; [done|]. exists current. split; [done|]. by apply Hpath, (fi_path _ _ Hinv). }
  destruct (decide (colour st current = 2%N)) as [H2|H2].
  { rewrite H2. eexists. split; [done|]. split_and!; [done| |by apply (fi_done _ _ Hinv)]. exists [].
    split; [by rewrite app_nil_r|]. by intros x Hx%elem_of_nil. }
  assert (colour st current = 0%N) as H0 by lia. rewrite H0.
  assert (current ∉ path) as Hni by by rewrite <-(fi_path _ _ Hinv).
  pose proof (enter_focus _ _ _ Hinv H0) as Henter.
  assert (∃ r, visitAll (focusVisit fuel moduleID adjacency) (adjacent adjacency current)
      (<[current := 1%N]> st.1, st.2) = Some r ∧
    match r with
    | Ok st' => focus_inv (current :: path) st' ∧
        (∃ new, st'.2 = st.2 ++ new ∧ ∀ x, x ∈ new → reach current x) ∧
        ∀ y, y ∈ adjacent adjacency current → y ∈ st'.2
    | Fail _ => ∃ x, reach current x ∧ tc next x x
    end) as (r & -> & Hr).
  { destruct (adjacency !! current) as [l|] eqn:El.
    - apply (visitAll_spec fuel _ _ _ (<[current := 1%N]> st.1, st.2)); [exact IH|done| |done|].
      + intros g [->|Hg]%elem_of_cons; [by right|left; by apply Hpath].
      + assert (current ∈ (dom adjacency : gset string)) by by apply elem_of_dom.
        assert (unvisited_size (current :: path) < unvisited_size path)%nat; [|lia].
        unfold unvisited_size. apply (subset_size (C := gset string)). cbn [list_to_set]. set_solver.
    - unfold adjacent. rewrite El. simpl. eexists. split; [done|]. split_and!; [done| |by intros y Hy%elem_of_nil].
      exists []. split; [by rewrite app_nil_r|]. by intros x Hx%elem_of_nil. }
  destruct r as [st'|e]; [|by eexists]. eexists. split; [done|]. destruct Hr as (Hinv' & (new & E & Hnew) & Hall).
  unfold visited_post. cbn [fst snd]. split_and!.
  - by apply leave_focus.
  - exists (new ++ [current]). rewrite E, app_assoc. split; [done|].
    intros x [Hx| ->%list_elem_of_singleton]%elem_of_app; [by apply Hnew|done].
  - apply elem_of_app. right. left.
Qed.

Lemma order_reach_closed path st x y : focus_inv path st → x ∈ st.2 → reach x y → y ∈ st.2.
Proof. intros Hinv Hx Hr. induction Hr; [done|]. by eapply IHHr, order_closed. Qed.

(** The search ends within its fuel. It fails exactly when a module on a cycle
    can be reached; its order lists the reachable modules, each after the
    modules it depends on. *)
Lemma focusedDependencyOrder_spec :
  ∃ r, focusedDependencyOrder moduleID adjacency = Some r ∧
    match r with
    | Fail _ => ∃ x, reach moduleID x ∧ tc next x x
    | Ok order => NoDup order ∧ (∀ x, x ∈ order ↔ reach moduleID x) ∧
        ∀ pre x post y, order = pre ++ x :: post → next x y → y ∈ pre
    end.
Proof.
  unfold focusedDependencyOrder.
  assert (focus_inv [] (∅, [])) as Hinit.
  { split; simpl; unfold colour; simpl.
    - intros x. rewrite lookup_empty. split; [done|by intros Hx%elem_of_nil].
    - intros x. rewrite lookup_empty. split; [done|by intros Hx%elem_of_nil].
    - intros x. by rewrite lookup_empty.
    - constructor.
    - by intros [] ? ? ? ?. }
  destruct (focusVisit_spec (S (S (size adjacency))) [] moduleID (∅, []) Hinit) as (r & -> & Hr).
  { by intros g Hg%elem_of_nil. }
  { unfold unvisited_size. simpl. rewrite <-(size_dom (D := gset string)).
    assert (size ((dom adjacency : gset string) ∖ ∅) ≤ size (dom adjacency : gset string))%nat; [|lia].
    apply subseteq_size. set_solver. }
  destruct r as [st|e]; [|by eexists]. eexists. split; [done|]. destruct Hr as (Hinv & (new & E & Hnew) & Hin).
  simpl in E. split_and!; [apply Hinv| |by apply Hinv].
  intros x. split; [rewrite E; apply Hnew|]. intros Hx. by eapply order_reach_closed.
Qed.
End focus.

(** ** Package encoding/json *)

Inductive json : Type :=
  | JNull
  | JString (s : string)
  | JArray (l : list json)
  | JObject (fields : list (string * json)).

(** One rune of a JSON string with HTML escaping. *)
Definition json_rune (r : N) (w : nat) (raw : string) : string :=
  if (r =? rune_error)%N && (w =? 1)%nat then String backslash "ufffd"
  else if (r =? 34)%N || (r =? 92)%N then String backslash raw
  else if (r =? 8)%N then String backslash "b"
  else if (r =? 12)%N then String backslash "f"
  else if (r =? 10)%N then String backslash "n"
  else if (r =? 13)%N then String backslash "r"
  else if (r =? 9)%N then String backslash "t"
  else if (r <? 32)%N || (r =? 60)%N || (r =? 62)%N || (r =? 38)%N || (r =? 8232)%N || (r =? 8233)%N
  then String backslash ("u" +:+ hex_fixed 4 r)
  else raw.

Fixpoint json_runes (fuel : nat) (s : string) : string :=
  match fuel, s with
  | S fuel', String _ _ =>
      let '(r, w) := decode_rune s in
      json_rune r w (str_take w s) +:+ json_runes fuel' (str_drop w s)
  | _, _ => ""
  end.
Definition json_string (s : string) : string :=
  String dquote (json_runes (String.length s) s +:+ str1 dquote).

Fixpoint indentation (depth : nat) : string :=
  match depth with O => "" | S d => "  " +:+ indentation d end.

(** [MarshalIndent(v, "", "  ")]; an empty array or object stays on its line. *)
Fixpoint marshal_indent (depth : nat) (v : json) : string :=
  let line (d : nat) := newline_str +:+ indentation d in
  match v with
  | JNull => "null"
  | JString s => json_string s
  | JArray l =>
      if bool_decide (length l = 0)%nat then "[]"
      else "[" +:+ line (S depth) +:+ join (map (marshal_indent (S depth)) l) ("," +:+ line (S depth)) +:+
           line depth +:+ "]"
  | JObject fields =>
      if bool_decide (length fields = 0)%nat then "{}"
      else "{" +:+ line (S depth) +:+
           join (map (λ kv, json_string kv.1 +:+ ": " +:+ marshal_indent (S depth) kv.2) fields)
             ("," +:+ line (S depth)) +:+ line depth +:+ "}"
  end.

Definition JStrings (l : list string) : json := JArray (JString <$> l).
(** [append([]string(nil), l...)] is nil for an empty list. *)
Definition JCopied (l : list string) : json := if bool_decide (length l = 0)%nat then JNull else JStrings l.

(** ** The documents *)

Definition Format : Type := string.
Definition FormatJSON : Format := "json".
Definition FormatMermaid : Format := "mermaid".
Definition FormatPlantUML : Format := "plantuml".
Definition documentSchema : string := "spice.modules/v1".

Record namedInterfaceDocument := { nd_Name : string; nd_PackagePath : string }.
Record moduleDocument := {
  md_ID : string;
  md_RootPackage : string;
  md_Packages : list string;
  md_DefaultAPI : string;
  md_NamedInterfaces : list namedInterfaceDocument;
  md_AllowedDependencies : list string;
  md_ObservedDependencies : list string;
}.
Record edgeDocument := {
  ed_FromModule : string;
  ed_ToModule : string;
  ed_API : string;
  ed_FromPackage : string;
  ed_ToPackage : string;
}.
Record moduleGraphDocument := {
  gd_Focus : string;
  gd_DependencyOrder : list string;
  gd_Modules : list moduleDocument;
  gd_Edges : list edgeDocument;
  gd_Cycles : list Cycle;
  gd_UnassignedPackages : list string;
}.

(** The documents with the names and the order of their fields. *)
Definition json_named (d : namedInterfaceDocument) : json :=
  JObject [("name", JString (nd_Name d)); ("package", JString (nd_PackagePath d))].
Definition json_module (d : moduleDocument) : json := JObject [
  ("id", JString (md_ID d)); ("root_package", JString (md_RootPackage d)); ("packages", JStrings (md_Packages d));
  ("default_api", JString (md_DefaultAPI d)); ("named_interfaces", JArray (json_named <$> md_NamedInterfaces d));
  ("allowed_dependencies", JStrings (md_AllowedDependencies d));
  ("observed_dependencies", JStrings (md_ObservedDependencies d))].
Definition json_edge (d : edgeDocument) : json := JObject [
  ("from_module", JString (ed_FromModule d)); ("to_module", JString (ed_ToModule d)); ("api", JString (ed_API d));
  ("from_package", JString (ed_FromPackage d)); ("to_package", JString (ed_ToPackage d))].
Definition json_cycle (c : Cycle) : json :=
  JObject [("members", JCopied (c_Members c)); ("path", JCopied (c_Path c))].
Definition json_document (d : moduleGraphDocument) : json := JObject (
  ("schema", JString documentSchema) ::
  (if bool_decide (gd_Focus d = "") then [] else [("focus", JString (gd_Focus d))]) ++
  (if bool_decide (length (gd_DependencyOrder d) = 0)%nat then []
   else [("dependency_order", JStrings (gd_DependencyOrder d))]) ++
  [("modules", JArray (json_module <$> gd_Modules d)); ("edges", JArray (json_edge <$> gd_Edges d));
   ("cycles", JArray (json_cycle <$> gd_Cycles d)); ("unassigned_packages", JStrings (gd_UnassignedPackages d))]).

(** ** Dependencies for the documents *)

(** A map of sets that grows by one element. *)
Definition add_to_set (key value : string) (sets : gmap string (gset string)) : gmap string (gset string) :=
  <[key := {[value]} ∪ default ∅ (sets !! key)]> sets.

Definition observedDependencies (es : list Edge) : gmap string (list string) :=
  sort_strings ∘ elements <$>
    foldl (λ sets edge, add_to_set (e_FromModule edge) (dependencyIdentity (e_ToModule edge) (e_API edge)) sets)
      (∅ : gmap string (gset string)) es.

Record diagramEdge := mkDiagramEdge { de_from : string; de_to : string; de_apis : list string }.

Definition api_label (edge : Edge) : string := if bool_decide (e_API edge = "") then "default" else e_API edge.

Definition apisByPair (es : list Edge) : gmap string (gset string) :=
  foldl (λ sets edge, add_to_set (e_FromModule edge +:+ nul_str +:+ e_ToModule edge) (api_label edge) sets)
    (∅ : gmap string (gset string)) es.

Definition diagramEdges (es : list Edge) : list diagramEdge :=
  let pairs := apisByPair es in
  map (λ key, let '(from, to, _) := cut key nul_str in
              mkDiagramEdge from to (sort_strings (elements (default ∅ (pairs !! key)))))
    (sort_strings (map_keys pairs)).

Definition moduleAliases (ms : list Module) : gmap string string :=
  foldl (λ m im, <[m_ID im.2 := "M" +:+ itoa (Z.of_nat im.1)]> m) ∅ (imap pair ms).

(** ** The formats *)

Definition module_canvas (observed : gmap string (list string)) (module : Module) : moduleDocument := {|
  md_ID := m_ID module; md_RootPackage := m_RootPackage module; md_Packages := p_Path <$> m_packages module;
  md_DefaultAPI := m_RootPackage module;
  md_NamedInterfaces := (λ item, {| nd_Name := ni_Name item; nd_PackagePath := ni_PackagePath item |})
                          <$> m_namedInterfaces module;
  md_AllowedDependencies := Dependency_String <$> m_allowed module;
  md_ObservedDependencies := default [] (observed !! m_ID module) |}.

Definition graph_document (model : Model) : moduleGraphDocument := {|
  gd_Focus := focusID model; gd_DependencyOrder := dependencyOrder model;
  gd_Modules := module_canvas (observedDependencies (edges model)) <$> modules model;
  gd_Edges := (λ edge, {| ed_FromModule := e_FromModule edge; ed_ToModule := e_ToModule edge;
                 ed_API := api_label edge; ed_FromPackage := e_FromPackage edge;
                 ed_ToPackage := e_ToPackage edge |}) <$> edges model;
  gd_Cycles := cycles model; gd_UnassignedPackages := p_Path <$> unassigned model |}.

Definition renderJSON (model : Model) : string :=
  marshal_indent 0 (json_document (graph_document model)) +:+ newline_str.

Definition concat_lines (lines : list string) : string := join ((λ l, l +:+ newline_str) <$> lines) "".

Section render.
Context `{UnicodeTables}.

Definition renderMermaid (model : Model) : string :=
  let aliases := moduleAliases (modules model) in
  let alias id := default "" (aliases !! id) in
  concat_lines (
    ["%% Generated by Spice. DO NOT EDIT."; "flowchart LR"] ++
    map (λ module, "  " +:+ alias (m_ID module) +:+ "[" +:+ go_quote (m_ID module) +:+ "]") (modules model) ++
    imap (λ index pkg, "  u" +:+ itoa (Z.of_nat index) +:+ "[" +:+ go_quote ("unassigned: " +:+ p_Path pkg) +:+
                       "]:::unassigned") (unassigned model) ++
    map (λ edge, "  " +:+ alias (de_from edge) +:+ " -->|" +:+ join (de_apis edge) ", " +:+ "| " +:+
                 alias (de_to edge)) (diagramEdges (edges model)) ++
    (if bool_decide (length (unassigned model) = 0)%nat then []
     else ["  classDef unassigned fill:#f3f4f6,stroke:#6b7280,stroke-dasharray: 5 5"]) ++
    (if bool_decide (focusID model = "") then []
     else ["  class " +:+ alias (focusID model) +:+ " focus";
           "  classDef focus fill:#dbeafe,stroke:#2563eb,stroke-width:2px"])).

Definition renderPlantUML (model : Model) : string :=
  let aliases := moduleAliases (modules model) in
  let alias id := default "" (aliases !! id) in
  concat_lines (
    ["' Generated by Spice. DO NOT EDIT."; "@startuml"; "left to right direction"] ++
    map (λ module, "component " +:+ go_quote (m_ID module) +:+ " as " +:+ alias (m_ID module) +:+
                   (if bool_decide (m_ID module = focusID model) then " #LightBlue" else "")) (modules model) ++
    imap (λ index pkg, "component " +:+ go_quote ("unassigned: " +:+ p_Path pkg) +:+ " as U" +:+
                       itoa (Z.of_nat index) +:+ " #LightGray") (unassigned model) ++
    map (λ edge, alias (de_from edge) +:+ " --> " +:+ alias (de_to edge) +:+ " : " +:+
                 join (de_apis edge) ", ") (diagramEdges (edges model)) ++
    ["@enduml"]).

Definition Render (model : Model) (format : Format) : outcome error string :=
  if bool_decide (format = FormatJSON) then Ok (renderJSON model)
  else if bool_decide (format = FormatMermaid) then Ok (renderMermaid model)
  else if bool_decide (format = FormatPlantUML) then Ok (renderPlantUML model)
  else Fail (ErrNew ("unsupported module format " +:+ go_quote format +:+
                     "; expected json, mermaid, or plantuml")).
End render.

(** ** The edges of a diagram *)

(** Which labels a diagram shows between two modules. *)
Definition labelled (es : list Edge) (from to api : string) : Prop :=
  ∃ e, e ∈ es ∧ e_FromModule e = from ∧ e_ToModule e = to ∧ api_label e = api.

Lemma add_to_set_lookup key value sets k :
  add_to_set key value sets !! k =
  if decide (k = key) then Some ({[value]} ∪ default ∅ (sets !! key)) else sets !! k.
Proof.
  unfold add_to_set. case_decide as Hk; [by rewrite Hk, lookup_insert_eq|by rewrite lookup_insert_ne].
Qed.

Lemma apisByPair_spec es k :
  match apisByPair es !! k with
  | Some apis => (∃ e, e ∈ es ∧ module_key e = k) ∧ ∀ a, a ∈ apis ↔ ∃ e, e ∈ es ∧ module_key e = k ∧ api_label e = a
  | None => ∀ e, e ∈ es → module_key e ≠ k
  end.
Proof.
  unfold apisByPair. apply (foldl_prefix (λ pre (m : gmap string (gset string)), match m !! k with
    | Some apis => (∃ e, e ∈ pre ∧ module_key e = k) ∧ ∀ a, a ∈ apis ↔ ∃ e, e ∈ pre ∧ module_key e = k ∧ api_label e = a
    | None => ∀ e, e ∈ pre → module_key e ≠ k
    end)).
  - rewrite lookup_empty. by intros e He%elem_of_nil.
  - intros pre e m _ IH. fold (import_key (e_FromModule e) (e_ToModule e)). fold (module_key e).
    assert (∀ e', e' ∈ pre ++ [e] ↔ e' ∈ pre ∨ e' = e) as Hin
      by (intros e'; by rewrite elem_of_app, list_elem_of_singleton).
    rewrite add_to_set_lookup. case_decide as Hk.
    + subst k. setoid_rewrite Hin. split; [exists e; split; [by right|done]|]. intros a. rewrite elem_of_union, elem_of_singleton.
      destruct (m !! module_key e) as [apis|]; simpl.
      * destruct IH as [_ IH]. rewrite IH. naive_solver.
      * rewrite elem_of_empty. naive_solver.
    + destruct (m !! k) as [apis|]; setoid_rewrite Hin; [|naive_solver].
      destruct IH as [(e' & He' & Hk') IH]. split.
      * exists e'. naive_solver.
      * intros a. rewrite IH. naive_solver.
Qed.

Lemma cut_nul from to : nul_free from → cut (from +:+ nul_str +:+ to) nul_str = (from, to, true).
Proof.
  change nul_str with (String (chr 0) ""). unfold nul_free. induction from as [|c from IH]; cbn [str_all].
  - intros _. rewrite str_nil_app, str_cons_app, str_nil_app. cbn [cut].
    assert (has_prefix (String (chr 0) to) (String (chr 0) "") = true) as ->
      by (apply has_prefix_spec; exists to; by rewrite str_cons_app, str_nil_app). by destruct to.
  - intros [Hc Hf]%andb_true_iff. rewrite (str_cons_app c from). cbn [cut].
    assert (has_prefix (String c (from +:+ String (chr 0) "" +:+ to)) (String (chr 0) "") = false) as ->.
    { apply not_true_iff_false. intros (t & Ht)%has_prefix_spec. rewrite str_cons_app in Ht. injection Ht as -> _.
      by rewrite bool_decide_eq_true_2 in Hc. }
    by rewrite IH.
Qed.

(** A diagram shows exactly the dependencies of the model: one arrow per pair
    of modules with an edge between them, labelled with the sorted APIs of those
    edges and nothing else, in the order of the pairs' keys. *)
Theorem diagramEdges_exact es :
  (∀ e, e ∈ es → nul_free (e_FromModule e)) →
  (∀ d, d ∈ diagramEdges es → depends es (de_from d) (de_to d) ∧
    StronglySorted (λ x y, str_ltb x y = true) (de_apis d) ∧
    ∀ api, api ∈ de_apis d ↔ labelled es (de_from d) (de_to d) api) ∧
  (∀ from to, depends es from to → ∃ d, d ∈ diagramEdges es ∧ de_from d = from ∧ de_to d = to) ∧
  StronglySorted (λ d d', str_ltb (import_key (de_from d) (de_to d)) (import_key (de_from d') (de_to d')) = true)
    (diagramEdges es).
Proof.
  intros Hnul. set (pairs := apisByPair es).
  assert (∀ k, k ∈ sort_strings (map_keys pairs) → ∃ e, e ∈ es ∧ k = module_key e ∧
    cut k nul_str = (e_FromModule e, e_ToModule e, true) ∧
    ∀ a, a ∈ default ∅ (pairs !! k) ↔ labelled es (e_FromModule e) (e_ToModule e) a) as Hkeys.
  { intros k. rewrite elem_of_sort_strings. unfold map_keys. intros ([k' v] & -> & Hv%elem_of_map_to_list)%list_elem_of_fmap.
    simpl. pose proof (apisByPair_spec es k') as Hs. fold pairs in Hs. rewrite Hv in Hs |- *.
    destruct Hs as [(e & He & <-) Hs]. exists e. split_and!; [done|done|by apply cut_nul, Hnul|].
    intros a. simpl. rewrite Hs. unfold labelled. split; intros (e' & He' & Hk & Ha); exists e'.
    - apply nul_key_inj in Hk as [? ?]; [done|by apply Hnul..].
    - destruct Ha as [Ht ?]. split_and!; [done| |done]. unfold module_key. by rewrite Hk, Ht. }
  unfold diagramEdges. fold pairs. split_and!.
  - intros d (k & -> & Hk)%list_elem_of_fmap. destruct (Hkeys k Hk) as (e & He & _ & -> & Hs). simpl.
    split_and!; [by exists e|apply sort_strings_strict, NoDup_elements|].
    intros api. by rewrite elem_of_sort_strings, elem_of_elements.
  - intros from to (e & He & <- & <-). pose proof (apisByPair_spec es (module_key e)) as Hs. fold pairs in Hs.
    destruct (pairs !! module_key e) as [v|] eqn:Ev; [|by destruct (Hs e He)].
    eexists. split; [apply list_elem_of_fmap; exists (module_key e); split; [reflexivity|]|].
    + rewrite elem_of_sort_strings. apply list_elem_of_fmap. exists (module_key e, v). split; [done|].
      by apply elem_of_map_to_list.
    + unfold module_key, import_key. by rewrite cut_nul by by apply Hnul.
  - apply (StronglySorted_fmap_in _ (λ x y, str_ltb x y = true)); [|apply sort_strings_strict, NoDup_fst_map_to_list].
    intros x y Hx Hy Hlt. destruct (Hkeys x Hx) as (e & _ & -> & -> & _), (Hkeys y Hy) as (e' & _ & -> & -> & _). done.
Qed.
