(* ===== verification/ModulithTheorems.v ===== *)
(** What the module model promises: ownership by the longest root, one edge per
    import between modules, a diagnostic for every import that is not
    permitted, every dependency cycle reported, and focused views in dependency
    order. *)
From S2P Require Import Prelude GoSort GoStrings Scc CycleSearch Provider GoStrconv Annotation Modulith ModulithOwner ModulithAssign ModulithEdges ModulithCycles ModulithFinal ModulithRender.

(** The package is the root of the module or lies below it, in the same Go
    module. *)
Definition within (m : Module) (pkg : LoadPackage) : Prop :=
  m_GoModulePath m = lp_ModulePath pkg ∧
  (lp_Path pkg = m_RootPackage m ∨ ∃ rest, lp_Path pkg = m_RootPackage m +:+ "/" +:+ rest).

Section theorems.
Context `{UnicodeTables}.

(** The text of a dependency parses back to it, and nothing else parses: a
    value is accepted exactly when it is the text of a dependency with a
    module path, at most one separator and a well-formed interface name. *)
Theorem dependency_round_trip value occurrence d :
  parseDependency value occurrence = Ok d ↔
  proper d ∧ value = Dependency_String d ∧
  d_Position d = oc_DisplayPosition occurrence ∧ d_PhysicalPosition d = physicalPosition occurrence.
Proof.
  split; [apply parse_is_proper|]. intros (Hp & -> & Hpos & Hphys). by apply parse_proper.
Qed.

(** The owner of a package is the module of its Go module whose root is the
    longest one at or above the package; it lists the package, and no other
    module does. *)
Theorem Owner_longest_root program resolution universe path m :
  r_Diagnostics resolution = [] →
  let M := BuildWithUniverse (Some program) resolution universe in
  (Owner M path = Some m ↔ m ∈ modules M ∧ path ∈ package_paths m) ∧
  (Owner M path = Some m ↔ ∃ pkg,
    packageIndex (PrimaryPackages program) !! path = Some pkg ∧ m ∈ modules M ∧ within m pkg ∧
    ∀ m', m' ∈ modules M → within m' pkg → (root_length m' ≤ root_length m)%nat).
Proof.
  intros Hdiag M. set (base := resolved_model program resolution universe).
  pose proof (resolved_model_spec program resolution universe) as Hbase. fold base in Hbase.
  pose proof (final_sorted program resolution universe Hdiag) as Hsorted. fold M in Hsorted.
  assert (∀ i, modules M !! i = sortModule <$> modules base !! i) as Hlook.
  { intros i. unfold M. by rewrite final_modules, list_lookup_fmap. }
  assert (packageOwner M = packageOwner base) as Hown by by apply final_owner.
  split.
  - unfold Owner. rewrite Hown. split.
    + intros (i & Hi & Hm)%bind_Some. split; [by eapply list_elem_of_lookup_2|]. rewrite Hlook in Hm.
      apply fmap_Some in Hm as (m0 & Hm & ->). rewrite sortModule_paths. by apply (rs_match _ _ Hbase i m0).
    + intros [(i & Hi)%list_elem_of_lookup Hp]. rewrite bind_Some. exists i. split; [|done]. rewrite Hlook in Hi.
      apply fmap_Some in Hi as (m0 & Hm & ->). rewrite sortModule_paths in Hp. by apply (rs_match _ _ Hbase i m0).
  - unfold Owner. rewrite Hown, (rs_owner _ _ Hbase), !bind_Some.
    assert (∀ m pkg, within m pkg ↔ owns m pkg = true) as Hwithin by by intros; rewrite owns_spec.
    setoid_rewrite Hwithin. split.
    + intros (i & (pkg & Hpkg & Hi)%bind_Some & Hm). exists pkg. split; [done|].
      pose proof (ownerIndex_spec (modules base) pkg) as Hs. rewrite Hi in Hs. destruct Hs as (m0 & Hm0 & Ho & Hmax).
      rewrite Hlook, Hm0 in Hm. injection Hm as <-. split_and!; [|done|].
      * eapply list_elem_of_lookup_2. by rewrite Hlook, Hm0.
      * intros m' (m1 & (j & Hj)%list_elem_of_lookup & ->)%final_module Ho'; [|done]. by apply (Hmax j m1).
    + intros (pkg & Hpkg & Hm & Ho & Hmax). rewrite Hpkg. simpl.
      pose proof (ownerIndex_spec (modules base) pkg) as Hs.
      apply final_module in Hm as (m0 & Hm0 & ->); [|done].
      destruct (ownerIndex (modules base) pkg) as [i|]; [|by specialize (Hs m0 Hm0); change (owns m0 pkg = true) in Ho; rewrite Hs in Ho].
      destruct Hs as (mi & Hbest). pose proof Hbest as (Hmi & Hoi & _).
      exists i. split; [done|]. rewrite Hlook, Hmi. simpl. f_equal. f_equal.
      assert (mi ∈ modules base) as Hin by by eapply list_elem_of_lookup_2.
      apply (id_sorted_unique (modules base)); [apply Hbase|done..|]. rewrite <-!(rs_roots _ _ Hbase) by done.
      apply (best_owner_root _ _ _ _ _ Hbest Hm0 Ho), (Hmax (sortModule mi)); [|done].
      apply final_module; [done|]. by exists mi.
Qed.

(** A focused view always ends its search. It is refused only for a module
    that is not in the model or reaches a dependency cycle; otherwise its order
    lists exactly the modules reached from the focus, each after everything it
    depends on, and the view keeps exactly those modules and their edges. *)
Theorem Focus_exact model id :
  (∀ e, e ∈ edges model → nul_free (e_FromModule e)) →
  ∃ r, Focus model id = Some r ∧
    match r with
    | Fail _ => id ∉ module_ids (modules model) ∨
        ∃ x, rtc (depends (edges model)) id x ∧ tc (depends (edges model)) x x
    | Ok view => id ∈ module_ids (modules model) ∧ focusID view = id ∧ NoDup (dependencyOrder view) ∧
        (∀ x, x ∈ dependencyOrder view ↔ rtc (depends (edges model)) id x) ∧
        (∀ pre x post y, dependencyOrder view = pre ++ x :: post → depends (edges model) x y → y ∈ pre) ∧
        (∀ m, m ∈ modules view ↔ ∃ m0, m0 ∈ modules model ∧ rtc (depends (edges model)) id (m_ID m0) ∧ m = sortModule m0) ∧
        (∀ e, e ∈ edges view ↔ e ∈ edges model ∧ rtc (depends (edges model)) id (e_FromModule e))
    end.
Proof.
  intros Hnul. unfold Focus.
  assert (existsb (λ module, bool_decide (m_ID module = id)) (modules model) = true ↔ id ∈ module_ids (modules model)) as Hex.
  { rewrite existsb_exists. unfold module_ids. rewrite list_elem_of_fmap. setoid_rewrite list_elem_of_In.
    setoid_rewrite bool_decide_eq_true. naive_solver. }
  destruct (existsb _ _); cbn [negb]; [|eexists; split; [done|]; left; naive_solver].
  destruct (focusedDependencyOrder_spec id (moduleAdjacency (modules model) (edges model))) as (r & -> & Hr).
  assert (∀ x y, edge (adjacent (moduleAdjacency (modules model) (edges model))) x y ↔ depends (edges model) x y) as Hdep
    by (intros; by apply moduleAdjacency_next).
  pose proof (λ x, rtc_same _ _ id x Hdep) as Hrtc.
  destruct r as [order|e]; (eexists; split; [done|]).
  - destruct Hr as (Hnd & Hin & Hfirst). setoid_rewrite Hrtc in Hin. setoid_rewrite Hdep in Hfirst.
    cbn [rebuildPackageOwners sortModel modules edges focusID dependencyOrder].
    split; [by apply Hex|]. setoid_rewrite elem_of_sort_stable. setoid_rewrite list_elem_of_fmap. setoid_rewrite list_elem_of_filter.
    setoid_rewrite elem_of_list_to_set. setoid_rewrite Hin. split_and!; [done..|naive_solver|].
    intros e. split; [naive_solver|]. intros [He Hr]. split_and!; [done| |done].
    eapply rtc_r; [exact Hr|]. by exists e.
  - right. destruct Hr as (x & Hx & Hc). exists x. rewrite <-Hrtc. split; [done|]. by apply (tc_same _ _ x x Hdep).
Qed.

Section program.
Context (program : Program) (resolution : Resolution) (universe : Universe).
Hypothesis Hdiag : r_Diagnostics resolution = [].
Hypothesis Hnul : ∀ pkg, pkg ∈ PrimaryPackages program → nul_free (lp_Path pkg).

Notation primary := (PrimaryPackages program).
Notation M := (BuildWithUniverse (Some program) resolution universe).

(** The edges are the imports between packages of different modules: every
    edge describes one, every such import has an edge, and there is one edge
    per pair of packages. *)
Theorem Build_edges_exact :
  (∀ e, e ∈ edges M → ∃ pkg imported from to,
    crosses primary M pkg imported from to ∧ e = importEdge from to pkg imported) ∧
  (∀ pkg imported from to, crosses primary M pkg imported from to →
    ∃ e, e ∈ edges M ∧ e_FromPackage e = lp_Path pkg ∧ e_ToPackage e = pi_path imported ∧
      e_FromModule e = m_ID from ∧ e_ToModule e = m_ID to) ∧
  NoDup ((λ e, (e_FromPackage e, e_ToPackage e)) <$> edges M).
Proof.
  destruct (base_linked program resolution universe) as [seen Hl].
  pose proof (final_edges program resolution universe Hdiag) as Hedges. split_and!.
  - intros e. rewrite Hedges. intros (pkg & imported & from & to & Hc & ->)%(ln_edges _ _ _ _ Hl).
    exists pkg, imported, (sortModule from), (sortModule to). rewrite sortModule_edge. split; [|done].
    apply final_crosses; [done|]. by exists from, to.
  - intros pkg imported from to (f0 & t0 & Hc & -> & ->)%final_crosses; [|done].
    destruct (covered_edge program resolution universe Hnul _ _ _ _ Hc) as (pkg' & imported' & He & Ep & Ei).
    eexists. rewrite Hedges. split; [exact He|]. unfold importEdge. destruct (importedAPI _ _ _) as [[? ?] ?]. done.
  - apply (NoDup_fmap_1 (λ p : string * string, import_key p.1 p.2)). rewrite <-list_fmap_compose.
    rewrite Hedges. apply (ln_nodup _ _ _ _ Hl).
Qed.

(** C4. The boundaries are enforced: the model has no import diagnostic exactly
    when every import between two modules goes to the root package or to a
    named interface of the other module and is declared as an allowed
    dependency. *)
Theorem Build_imports_verified :
  (∀ d, d ∈ diagnostics M → g_Kind d ≠ "internal-access" ∧ g_Kind d ≠ "undeclared-dependency") ↔
  (∀ pkg imported from to, crosses primary M pkg imported from to → permitted from to (pi_path imported)).
Proof.
  pose proof (final_import_diagnostics program resolution universe Hdiag Hnul) as Hd.
  assert (∀ d : Diagnostic, g_Kind d ∈ import_kinds ↔ ¬ (g_Kind d ≠ "internal-access" ∧ g_Kind d ≠ "undeclared-dependency")) as Hk.
  { intros d. unfold import_kinds. rewrite !elem_of_cons, elem_of_nil.
    destruct (decide (g_Kind d = "internal-access")), (decide (g_Kind d = "undeclared-dependency")); naive_solver. }
  destruct (base_linked program resolution universe) as [seen Hl]. split.
  - intros Hclean pkg imported from to (f0 & t0 & Hc & -> & ->)%final_crosses; [|done].
    apply sortModule_permitted.
    destruct (covered_edge program resolution universe Hnul _ _ _ _ Hc) as (pkg' & imported' & He & _ & <-).
    apply (importEdge_permitted f0 t0 pkg'). destruct (importProblem _) eqn:E; [|done]. exfalso.
    destruct (proj2 Hd) as (d' & Hin & Hd'%Hk); [by eexists; split; [exact He|rewrite E]|]. by apply Hd', Hclean.
  - intros Hall d Hin. destruct (decide (g_Kind d ∈ import_kinds)) as [Hkind|Hkind].
    + exfalso. destruct (proj1 Hd) as (e & He & Hp); [by exists d|]. apply Hp.
      apply (ln_edges _ _ _ _ Hl) in He as (pkg & imported & from & to & Hc & ->).
      apply importEdge_permitted, sortModule_permitted. apply (Hall pkg), final_crosses; [done|]. by exists from, to.
    + split; intros He; apply Hkind; rewrite He; by apply (bool_decide_unpack _).
Qed.

(** C17. The cycles are the strongly connected components of at least two modules,
    each shown as a closed simple path of dependencies from its least member;
    any two modules that depend on each other are in one; and there is a cycle
    diagnostic exactly when some module depends on itself. *)
Theorem Build_cycles_exact :
  (∀ c, c ∈ cycles M → is_cycle (edges M) c) ∧
  (∀ x y, x ≠ y → rtc (depends (edges M)) x y → rtc (depends (edges M)) y x →
    ∃ c, c ∈ cycles M ∧ x ∈ c_Members c ∧ y ∈ c_Members c) ∧
  ((∃ d, d ∈ diagnostics M ∧ g_Kind d = "module-cycle") ↔ ∃ x, tc (depends (edges M)) x x).
Proof.
  pose proof (base_cycles program resolution universe Hnul) as Hf.
  pose proof (final_edges program resolution universe Hdiag) as Hedges.
  pose proof (final_cycles program resolution universe Hdiag) as Hcycles.
  assert (∀ x y, rtc (depends (edges M)) x y ↔ rtc (depends (edges (discoverImportEdges primary
    (resolved_model program resolution universe)))) x y) as Hr
    by (intros x y; apply rtc_same; intros u v; by rewrite Hedges).
  split_and!.
  - intros c. rewrite Hcycles, Hedges. apply (cf_cycles _ _ Hf).
  - intros x y Hne Hxy Hyx. pose proof Hxy as Hxy'. pose proof Hyx as Hyx'. rewrite Hr in Hxy', Hyx'.
    destruct (cf_all _ _ Hf x y Hne Hxy' Hyx') as (c & Hc & Hx). exists c. rewrite Hcycles. split_and!; [done..|].
    destruct (cf_cycles _ _ Hf c Hc) as ((_ & _ & Hscc) & _). by apply (Hscc x y Hx).
  - etrans; [apply (final_cycle_diagnostics program resolution universe Hdiag Hnul)|]. setoid_rewrite Hcycles.
    etrans; [apply (cycles_found_iff _ _ (λ e He, proj2 (proj2 (import_edge_ends program resolution universe e He))) Hf)|].
    setoid_rewrite (tc_same (depends (edges M)) _); [done|]. intros u v. by rewrite Hedges.
Qed.
End program.
End theorems.

#[local] Existing Instance ascii_tables.

Definition shop_import (file path : string) (offset : Z) : ImportSpec :=
  {| is_Value := str1 (chr 34) +:+ path +:+ str1 (chr 34);
     is_Position := mkPosition file offset 3 2; is_Physical := mkPosition file offset 3 2 |}.
Definition shop_package (path name : string) (imports : list string) : LoadPackage :=
  {| lp_Path := path; lp_Name := name; lp_ModulePath := "ex.com/shop"; lp_Auxiliary := false; lp_Fset := true;
     lp_Files := [Some (imap (λ i p, shop_import (path +:+ ".go") p (Z.of_nat i)) imports)] |}.
Definition shop_occurrence (path : string) (c : Contribution) : Occurrence :=
  {| oc_Annotation := mkAnnotation "core.Module" [] no_position ""; oc_bound := true; oc_Target := TargetPackage;
     oc_Name := path; oc_SymbolID := path; oc_PackagePath := path;
     oc_PhysicalFile := path +:+ ".go"; oc_PhysicalOffset := 0;
     oc_DisplayPosition := mkPosition (path +:+ ".go") 0 1 1; oc_Contributions := [c] |}.

(** The application imports the API of the orders, the orders import the
    billing; [billing] is what the billing imports. *)
Definition shop (billing : list string) : Program := [
  shop_package "ex.com/shop" "shop" [];
  shop_package "ex.com/shop/web" "web" ["ex.com/shop/orders/api"; "fmt"];
  shop_package "ex.com/shop/orders" "orders" ["ex.com/shop/billing"];
  shop_package "ex.com/shop/orders/api" "api" ["ex.com/shop/orders"];
  shop_package "ex.com/shop/billing" "billing" billing].
Definition shop_resolution : Resolution := {| r_Occurrences := [
    shop_occurrence "ex.com/shop" (ModuleContribution ["ex.com/shop/orders::api"]);
    shop_occurrence "ex.com/shop/orders" (ModuleContribution ["ex.com/shop/billing"]);
    shop_occurrence "ex.com/shop/orders/api" (NamedInterfaceContribution "api");
    shop_occurrence "ex.com/shop/billing" (ModuleContribution [])];
  r_Diagnostics := [] |}.

Definition clean_shop : Model := Eval vm_compute in Build (Some (shop [])) shop_resolution.
Definition cyclic_shop : Model := Eval vm_compute in Build (Some (shop ["ex.com/shop/orders/api"])) shop_resolution.

Lemma clean_shop_build : BuildWithUniverse (Some (shop [])) shop_resolution ∅ = clean_shop.
Proof. vm_compute. reflexivity. Qed.
Lemma cyclic_shop_build : BuildWithUniverse (Some (shop ["ex.com/shop/orders/api"])) shop_resolution ∅ = cyclic_shop.
Proof. vm_compute. reflexivity. Qed.

Lemma clean_shop_is_clean : diagnostics clean_shop = [].
Proof. vm_compute. reflexivity. Qed.
Lemma cyclic_shop_kinds : g_Kind <$> diagnostics cyclic_shop = ["module-cycle"; "undeclared-dependency"].
Proof. vm_compute. reflexivity. Qed.
Lemma clean_shop_edges : (λ e, (e_FromModule e, e_ToModule e, e_API e)) <$> edges clean_shop =
  [("ex.com/shop", "ex.com/shop/orders", "api"); ("ex.com/shop/orders", "ex.com/shop/billing", "")].
Proof. vm_compute. reflexivity. Qed.

Lemma shop_nul_free imports : Forall (λ pkg, nul_free (lp_Path pkg)) (PrimaryPackages (shop imports)).
Proof. by repeat constructor. Qed.

Lemma web_owner : m_ID <$> Owner clean_shop "ex.com/shop/web" = Some "ex.com/shop".
Proof. vm_compute. reflexivity. Qed.

Lemma Owner_longest_root_witness : ∃ m pkg,
  m_ID m = "ex.com/shop" ∧ packageIndex (PrimaryPackages (shop [])) !! "ex.com/shop/web" = Some pkg ∧ within m pkg.
Proof.
  pose proof web_owner as Ho. rewrite <-clean_shop_build in Ho. apply fmap_Some in Ho as (m & Ho & Hid).
  apply (proj2 (Owner_longest_root (shop []) shop_resolution ∅ "ex.com/shop/web" m eq_refl)) in Ho.
  destruct Ho as (pkg & Hp & _ & Hw & _). by exists m, pkg.
Defined.

Lemma web_crosses : ∃ pkg imported from to,
  crosses (PrimaryPackages (shop [])) clean_shop pkg imported from to ∧
  lp_Path pkg = "ex.com/shop/web" ∧ pi_path imported = "ex.com/shop/orders/api".
Proof.
  destruct (Owner clean_shop "ex.com/shop/web") as [from|] eqn:Hf; [|by vm_compute in Hf].
  destruct (Owner clean_shop "ex.com/shop/orders/api") as [to|] eqn:Ht; [|by vm_compute in Ht].
  exists (shop_package "ex.com/shop/web" "web" ["ex.com/shop/orders/api"; "fmt"]).
  exists {| pi_path := "ex.com/shop/orders/api"; pi_position := mkPosition "ex.com/shop/web.go" 0 3 2;
            pi_physical := mkPosition "ex.com/shop/web.go" 0 3 2 |}, from, to.
  split; [|by split]. split_and!; [by right; left|by vm_compute; left|done|done|].
  vm_compute in Hf, Ht. by injection Hf as <-; injection Ht as <-.
Qed.

Lemma Build_edges_exact_witness :
  ∃ e, e ∈ edges clean_shop ∧ e_FromPackage e = "ex.com/shop/web" ∧ e_ToPackage e = "ex.com/shop/orders/api".
Proof.
  destruct web_crosses as (pkg & imported & from & to & Hc & <- & <-).
  pose proof (proj1 (Forall_forall _ _) (shop_nul_free [])) as Hnul. rewrite <-clean_shop_build in Hc |- *.
  destruct (proj1 (proj2 (Build_edges_exact (shop []) shop_resolution ∅ eq_refl Hnul)) _ _ _ _ Hc) as (e & He & Ef & Et & _).
  exists e. split_and!; [exact He|exact Ef|exact Et].
Defined.

(** The billing imports the orders without declaring them. *)
Lemma Build_imports_verified_witness :
  (∀ pkg imported from to, crosses (PrimaryPackages (shop [])) clean_shop pkg imported from to →
    permitted from to (pi_path imported)) ∧
  ¬ (∀ pkg imported from to,
    crosses (PrimaryPackages (shop ["ex.com/shop/orders/api"])) cyclic_shop pkg imported from to →
    permitted from to (pi_path imported)).
Proof.
  pose proof (λ l, proj1 (Forall_forall _ _) (shop_nul_free l)) as Hnul. split.
  - rewrite <-clean_shop_build.
    apply (Build_imports_verified (shop []) shop_resolution ∅ eq_refl (Hnul _)).
    pose proof clean_shop_is_clean as Hc. rewrite <-clean_shop_build in Hc. rewrite Hc.
    clear Hc. intros d Hd. apply elem_of_nil in Hd. destruct Hd.
  - rewrite <-cyclic_shop_build. intros Hall.
    pose proof (proj2 (Build_imports_verified (shop ["ex.com/shop/orders/api"]) shop_resolution ∅ eq_refl (Hnul _)) Hall) as Hk.
    pose proof cyclic_shop_kinds as Hkinds. rewrite <-cyclic_shop_build in Hkinds.
    assert ("undeclared-dependency" ∈ g_Kind <$> diagnostics (BuildWithUniverse (Some (shop ["ex.com/shop/orders/api"])) shop_resolution ∅))
      as (d & Hd & Hin)%list_elem_of_fmap by (rewrite Hkinds; right; left).
    destruct (Hk d Hin) as [_ Hne]. exact (Hne (eq_sym Hd)).
Defined.

Lemma Build_cycles_exact_witness : ∃ x, tc (depends (edges cyclic_shop)) x x.
Proof.
  pose proof (proj1 (Forall_forall _ _) (shop_nul_free ["ex.com/shop/orders/api"])) as Hnul.
  pose proof cyclic_shop_kinds as Hkinds. rewrite <-cyclic_shop_build in Hkinds |- *.
  apply (proj2 (proj2 (Build_cycles_exact (shop ["ex.com/shop/orders/api"]) shop_resolution ∅ eq_refl Hnul))).
  assert ("module-cycle" ∈ g_Kind <$> diagnostics (BuildWithUniverse (Some (shop ["ex.com/shop/orders/api"])) shop_resolution ∅))
    as (d & Hd & Hin)%list_elem_of_fmap by (rewrite Hkinds; left).
  exists d. split; [exact Hin|exact (eq_sym Hd)].
Defined.

Lemma clean_focus : (λ r, match r with Ok view => dependencyOrder view | Fail _ => [] end) <$>
    Focus clean_shop "ex.com/shop/orders" = Some ["ex.com/shop/billing"; "ex.com/shop/orders"].
Proof. vm_compute. reflexivity. Qed.
Lemma clean_edges_nul_free : Forall (λ e, nul_free (e_FromModule e)) (edges clean_shop).
Proof. by repeat constructor. Qed.

Lemma Focus_exact_witness :
  rtc (depends (edges clean_shop)) "ex.com/shop/orders" "ex.com/shop/billing" ∧
  ¬ rtc (depends (edges clean_shop)) "ex.com/shop/orders" "ex.com/shop".
Proof.
  destruct (Focus_exact clean_shop "ex.com/shop/orders" (proj1 (Forall_forall _ _) clean_edges_nul_free)) as (r & Hr & Hspec).
  pose proof clean_focus as Hf. rewrite Hr in Hf. destruct r as [view|e]; [|done]. injection Hf as Hf.
  destruct Hspec as (_ & _ & _ & Hin & _). rewrite <-!Hin, Hf. split; [left|].
  by apply (bool_decide_unpack _).
Defined.

(** The arrows of the Mermaid and PlantUML diagrams of the shop. *)
Example clean_shop_diagrams :
  contains (renderMermaid clean_shop) "  M0 -->|api| M2" = true ∧
  contains (renderPlantUML clean_shop) "M2 --> M1 : default" = true ∧
  Render clean_shop "svg" = Fail (ErrNew ("unsupported module format " +:+ go_quote "svg" +:+
    "; expected json, mermaid, or plantuml")).
Proof. vm_compute. by split_and!. Qed.

Lemma diagramEdges_exact_witness :
  ∃ d, d ∈ diagramEdges (edges clean_shop) ∧ "api" ∈ de_apis d.
Proof.
  pose proof (diagramEdges_exact (edges clean_shop) (proj1 (Forall_forall _ _) clean_edges_nul_free)) as (Hd & Hall & _).
  assert (labelled (edges clean_shop) "ex.com/shop" "ex.com/shop/orders" "api") as (e & He & Hf & Ht & Ha).
  { eexists. split; [left|]. by split_and!. }
  destruct (Hall "ex.com/shop" "ex.com/shop/orders") as (d & Hin & Hdf & Hdt); [exists e; by split_and!|].
  exists d. split; [exact Hin|]. apply (Hd d Hin). rewrite Hdf, Hdt. exists e. by split_and!.
Defined.
