(* ===== verification/Parser.v ===== *)
(** Annotations in comments (src/compiler/parser/parser.go): [ParseComment] and
    the recursive-descent parser behind it.

    The parser keeps the text, an offset and a position. The text and the position
    never change, so they are parameters here, and the offset is threaded
    through the calls. A call that may fail returns [None] when the fuel has
    run out, and otherwise an outcome with the offset it has reached. *)
From S2P Require Import Prelude GoSort GoStrings GoStrconv Provider Annotation.

(** ** Runes *)

(** The width of the longest prefix of runes that satisfy [p]: the loops that
    decode a rune and stop at the first one that does not fit. *)
Fixpoint scan_fuel (p : N → bool) (fuel : nat) (s : string) : nat :=
  match fuel, s with
  | S fuel', String _ _ =>
      let '(r, size) := decode_rune s in
      if p r then (size + scan_fuel p fuel' (str_drop size s))%nat else O
  | _, _ => O
  end.
Definition scan (p : N → bool) (s : string) : nat := scan_fuel p (String.length s) s.

(** ** Literals *)

(** The offset after the quote that closes a literal, its body being [s]. *)
Fixpoint string_end (quote : ascii) (s : string) : option nat :=
  match s with
  | EmptyString => None
  | String current s' =>
      if bool_decide (current = quote) then Some 1%nat
      else if bool_decide (current = backslash) && bool_decide (quote = dquote) then
        match s' with
        | EmptyString => None
        | String _ s'' => (λ n, S (S n)) <$> string_end quote s''
        end
      else S <$> string_end quote s'
  end.

(** [strconv.ParseInt(s, 10, 64)] of an optional minus sign and digits. *)
Definition parse_int64 (s : string) : option Z :=
  let v := match s with
           | String c s' => if bool_decide (c = "-"%char) then (- digits_value 0 s')%Z else digits_value 0 s
           | EmptyString => 0%Z
           end in
  if (- 2 ^ 63 <=? v)%Z && (v <? 2 ^ 63)%Z then Some v else None.

(** ** The comment *)

Definition move_position (position : Position) (offset : nat) : Position :=
  mkPosition (Filename position)
    (if (0 <=? Offset position)%Z then Offset position + Z.of_nat offset else Offset position)%Z
    (Line position)
    (if (0 <? Column position)%Z then Column position + Z.of_nat offset else Column position)%Z.

Definition annotationCommentBody (input : string) (position : Position) : string * Position * bool :=
  let leftTrimmed := trim_left_space input in
  let leading := (String.length input - String.length leftTrimmed)%nat in
  if negb (has_prefix leftTrimmed "//") then ("", position, false)
  else
    let afterPrefix := str_drop 2 leftTrimmed in
    let body := trim_left_space afterPrefix in
    let annotationOffset := (leading + 2 + String.length afterPrefix - String.length body)%nat in
    (trim_space body, move_position position annotationOffset, true).

(** Where a bracket that opens a type argument is closed: a result, and the
    number of bytes read; [None] when the text ends or a parenthesis closes
    first. The depth does not become negative. *)
Fixpoint bracket_end (depth : nat) (s : string) : option nat :=
  match s with
  | EmptyString => None
  | String c s' =>
      if bool_decide (c = ")"%char) && (0 <? depth)%nat then None
      else
        let depth' := if bool_decide (c = "["%char) then S depth
                      else if bool_decide (c = "]"%char) then pred depth else depth in
        if bool_decide (depth' = O) then Some 1%nat else S <$> bracket_end depth' s'
  end.

Section parser.
Context `{UnicodeTables} (input : string) (position : Position).

(** [p.input[p.offset:]] *)
Definition rest (offset : nat) : string := str_drop offset input.

Definition eof (offset : nat) : bool := (String.length input <=? offset)%nat.

Definition peek (offset : nat) : ascii := if eof offset then chr 0 else default (chr 0) (str_get offset input).

(** The offset after the byte when it is the next one. *)
Definition consume (expected : ascii) (offset : nat) : option nat :=
  if eof offset || negb (bool_decide (peek offset = expected)) then None else Some (S offset).

Definition skipSpace (offset : nat) : nat := (offset + scan is_space (rest offset))%nat.

Definition errorf {A} (message : string) (offset : nat) : option (outcome error A) :=
  let column := if (Column position <=? 0)%Z then 1%Z else Column position in
  Some (Fail (ErrNew (Filename position +:+ ":" +:+ itoa (Line position) +:+ ":" +:+
    itoa (column + Z.of_nat offset) +:+ ": " +:+ message))).

Definition name_rune (r : N) : bool := is_letter r || is_digit r || (r =? 95)%N || (r =? 46)%N.
Definition identifier_start (r : N) : bool := is_letter r || (r =? 95)%N.
Definition identifier_rune (r : N) : bool :=
  is_letter r || is_digit r || (r =? 95)%N || (r =? 46)%N || (r =? 45)%N || (r =? 58)%N || (r =? 47)%N.

Definition parseName (offset : nat) : string * nat :=
  let width := scan name_rune (rest offset) in (str_take width (rest offset), (offset + width)%nat).

Definition parseIdentifier (offset : nat) : string * nat :=
  if eof offset then ("", offset)
  else
    let '(r, size) := decode_rune (rest offset) in
    if negb (identifier_start r) then ("", offset)
    else
      let width := (size + scan identifier_rune (rest (offset + size)))%nat in
      (str_take width (rest offset), (offset + width)%nat).

Definition parseInteger (offset : nat) : string * nat :=
  let sign := if bool_decide (peek offset = "-"%char) then 1%nat else O in
  let width := digits (rest (offset + sign)) in
  if bool_decide (width = O) then ("", offset)
  else (str_take (sign + width) (rest offset), (offset + sign + width)%nat).

Definition parseValueIdentifier (offset : nat) : string * nat :=
  let '(identifier, o) := parseIdentifier offset in
  if bool_decide (identifier = "") then ("", o)
  else if eof o || negb (bool_decide (peek o = "["%char)) then (identifier, o)
  else match bracket_end 0 (rest o) with
       | Some n => (trim_space (str_take (o + n - offset) (rest offset)), (o + n)%nat)
       | None => ("", offset)
       end.

Definition parseString (offset : nat) : option (outcome error (string * nat)) :=
  let quote := peek offset in
  match string_end quote (rest (S offset)) with
  | Some n =>
      match unquote (str_take (S n) (rest offset)) with
      | Some value => Some (Ok (value, (S offset + n)%nat))
      | None => errorf "invalid string literal: invalid syntax" (S offset + n)
      end
  | None => errorf "unterminated string literal" (String.length input)
  end.

(** ** Values *)

(** The loop of [parseList] after the items so far. *)
Fixpoint listLoop (parseValue : nat → option (outcome error (Value * nat))) (fuel : nat)
    (items : list Value) (offset : nat) : option (outcome error (Value * nat)) :=
  match fuel with
  | O => None
  | S fuel' =>
      match parseValue offset with
      | None => None
      | Some (Fail e) => Some (Fail e)
      | Some (Ok (value, o)) =>
          let items := items ++ [value] in
          let o := skipSpace o in
          match consume "]" o with
          | Some o => Some (Ok (VList items, o))
          | None =>
              match consume "," o with
              | None => errorf "expected ',' or ']' in list" o
              | Some o =>
                  let o := skipSpace o in
                  if bool_decide (peek o = "]"%char)
                  then errorf "trailing commas are not supported in lists" o
                  else listLoop parseValue fuel' items o
              end
          end
      end
  end.

Definition parseList (parseValue : nat → option (outcome error (Value * nat))) (fuel offset : nat)
    : option (outcome error (Value * nat)) :=
  match consume "[" offset with
  | None => errorf "list must start with '['" offset
  | Some o =>
      let o := skipSpace o in
      match consume "]" o with
      | Some o => Some (Ok (VList [], o))
      | None => listLoop parseValue fuel [] o
      end
  end.

(** The fuel bounds the nesting of lists and the items of each. *)
Fixpoint parseValue (fuel offset : nat) : option (outcome error (Value * nat)) :=
  match fuel with
  | O => None
  | S fuel' =>
      let o := skipSpace offset in
      if eof o then errorf "argument value is required" o
      else if bool_decide (peek o = dquote) || bool_decide (peek o = backquote) then
        match parseString o with
        | None => None
        | Some (Fail e) => Some (Fail e)
        | Some (Ok (value, o)) => Some (Ok (VString value, o))
        end
      else if bool_decide (peek o = "["%char) then parseList (parseValue fuel') fuel' o
      else
        let '(identifier, o1) := parseValueIdentifier o in
        if bool_decide (identifier = "true") || bool_decide (identifier = "false")
        then Some (Ok (VBoolean (bool_decide (identifier = "true")), o1))
        else if negb (bool_decide (identifier = "")) then Some (Ok (VIdentifier identifier, o1))
        else
          let '(integer, o2) := parseInteger o in
          if negb (bool_decide (integer = "")) then
            match parse_int64 integer with
            | Some value => Some (Ok (VInteger value, o2))
            | None => errorf ("invalid integer " +:+ go_quote integer) o2
            end
          else errorf "unsupported argument value" o2
  end.

(** ** Arguments *)

(** [parseArgument], with the grown set of names. *)
Definition parseArgument (fuel : nat) (seenNamed : bool) (seenNames : gset string) (offset : nat)
    : option (outcome error (Argument * bool * gset string * nat)) :=
  let start := skipSpace offset in
  let '(candidate, o) := parseIdentifier start in
  let o := skipSpace o in
  match (if bool_decide (candidate = "") then None else consume "=" o) with
  | Some o =>
      if bool_decide (candidate ∈ seenNames) then errorf ("duplicate argument " +:+ go_quote candidate) o
      else
        match parseValue fuel (skipSpace o) with
        | None => None
        | Some (Fail e) => Some (Fail e)
        | Some (Ok (value, o)) => Some (Ok (mkArgument candidate value, true, {[candidate]} ∪ seenNames, o))
        end
  | None =>
      if seenNamed then errorf "positional arguments cannot follow named arguments" start
      else
        match parseValue fuel start with
        | None => None
        | Some (Fail e) => Some (Fail e)
        | Some (Ok (value, o)) => Some (Ok (mkArgument "" value, false, seenNames, o))
        end
  end.

Fixpoint parseArgumentsLoop (fuel : nat) (arguments : list Argument) (seenNamed : bool)
    (seenNames : gset string) (offset : nat) : option (outcome error (list Argument * nat)) :=
  match fuel with
  | O => None
  | S fuel' =>
      match parseArgument (S (String.length input)) seenNamed seenNames offset with
      | None => None
      | Some (Fail e) => Some (Fail e)
      | Some (Ok (argument, named, seenNames, o)) =>
          let arguments := arguments ++ [argument] in
          let o := skipSpace o in
          match consume ")" o with
          | Some o => Some (Ok (arguments, o))
          | None =>
              match consume "," o with
              | None => errorf "expected ',' or ')' after argument" o
              | Some o =>
                  let o := skipSpace o in
                  if bool_decide (peek o = ")"%char) then errorf "trailing commas are not supported" o
                  else parseArgumentsLoop fuel' arguments (seenNamed || named) seenNames o
              end
          end
      end
  end.
Definition parseArguments (offset : nat) : option (outcome error (list Argument * nat)) :=
  parseArgumentsLoop (S (String.length input)) [] false ∅ offset.

(** [requireEnd] after the annotation. *)
Definition requireEnd (result : Annotation) (offset : nat) : option (outcome error Annotation) :=
  let o := skipSpace offset in
  if negb (eof o) then errorf "unexpected trailing content" o else Some (Ok result).

Definition parseAnnotation : option (outcome error Annotation) :=
  match consume "@" 0 with
  | None => errorf "annotation must start with @" 0
  | Some o =>
      let '(name, o) := parseName o in
      if bool_decide (name = "") then errorf "annotation name is required" o
      else
        let result := mkAnnotation name [] position "" in
        let o := skipSpace o in
        if eof o then Some (Ok result)
        else
          match consume "(" o with
          | None => errorf "expected '(' after annotation name" o
          | Some o =>
              let o := skipSpace o in
              match consume ")" o with
              | Some o => requireEnd result o
              | None =>
                  match parseArguments o with
                  | None => None
                  | Some (Fail e) => Some (Fail e)
                  | Some (Ok (arguments, o)) => requireEnd (mkAnnotation name arguments position "") o
                  end
              end
          end
  end.
End parser.

(** [ParseComment]: [Ok None] for a line without an annotation. *)
Definition ParseComment `{UnicodeTables} (input : string) (position : Position)
    : option (outcome error (option Annotation)) :=
  let '(body, position, comment) := annotationCommentBody input position in
  if negb comment then Some (Ok None)
  else if negb (has_prefix body "@") then Some (Ok None)
  else match parseAnnotation body position with
       | None => None
       | Some (Fail e) => Some (Fail e)
       | Some (Ok parsed) => Some (Ok (Some (mkAnnotation (an_Name parsed) (an_Arguments parsed)
                                              (an_Position parsed) input)))
       end.
