(* ===== verification/ParserGrammar.v ===== *)
(** Runs of runes in a text, the grammar of annotations stated without the
    parser, and what the primitive steps of the parser read. *)
From S2P Require Import Prelude GoSort GoStrings Provider GoStrconv Annotation Parser.

(** What Go's tables say of the classes the parser uses. *)
Class UnicodeLaws `{UnicodeTables} : Prop := {
  letter_not_space r : tbl_letter r = true → is_space r = false;
  digit_not_space r : tbl_digit r = true → is_space r = false;
  error_not_letter : tbl_letter rune_error = false;
  error_not_digit : tbl_digit rune_error = false;
}.

#[export] Instance ascii_laws : @UnicodeLaws ascii_tables.
Proof. by split. Qed.

(** ** Scanning *)

Lemma scan_fuel_enough p fuel s : (String.length s ≤ fuel)%nat → scan_fuel p fuel s = scan p s.
Proof.
  unfold scan. enough (∀ fuel1 fuel2 s, (String.length s ≤ fuel1)%nat → (String.length s ≤ fuel2)%nat →
    scan_fuel p fuel1 s = scan_fuel p fuel2 s) as Hf by by intros; apply Hf.
  clear. induction fuel1 as [|fuel1 IH]; intros fuel2 s H1 H2.
  - destruct s; simpl in *; [|lia]. by destruct fuel2.
  - destruct fuel2 as [|fuel2]; [destruct s; simpl in *; [done|lia]|].
    destruct s as [|c s]; [done|]. cbn [scan_fuel]. pose proof (decode_width (String c s) ltac:(done)) as Hw.
    destruct (decode_rune (String c s)) as [r w]. simpl in *. destruct (p r); [|done]. f_equal.
    apply IH; rewrite length_str_drop; simpl; lia.
Qed.

Lemma scan_eq p s :
  scan p s = if bool_decide (s = "") then O
             else let '(r, w) := decode_rune s in if p r then (w + scan p (str_drop w s))%nat else O.
Proof.
  destruct s as [|c s]; [done|]. rewrite bool_decide_eq_false_2 by done. unfold scan at 1. cbn [String.length scan_fuel].
  pose proof (decode_width (String c s) ltac:(done)) as Hw. destruct (decode_rune (String c s)) as [r w]. simpl in Hw.
  rewrite scan_fuel_enough; [done|]. rewrite length_str_drop. simpl. lia.
Qed.

(** Every rune of the text satisfies [p]. *)
Definition all_runes (p : N → bool) (s : string) : Prop := scan p s = String.length s.

Lemma scan_le p s : (scan p s ≤ String.length s)%nat.
Proof.
  induction s as [s IH] using str_length_ind. rewrite scan_eq. case_bool_decide as Hs; [lia|].
  pose proof (decode_width s Hs) as Hw. destruct (decode_rune s) as [r w]. simpl in Hw.
  destruct (p r); [|lia]. specialize (IH (str_drop w s)). rewrite length_str_drop in IH. lia.
Qed.

Section scan.
Context (p : N → bool) (Herr : p rune_error = false).

Lemma fits_valid r : p r = true → r ≠ rune_error.
Proof. intros Hp ->. congruence. Qed.

Lemma scan_app s t : all_runes p s → scan p (s +:+ t) = (String.length s + scan p t)%nat.
Proof.
  unfold all_runes. induction s as [s IH] using str_length_ind. rewrite (scan_eq p s).
  case_bool_decide as Hs; [by subst|]. pose proof (decode_width s Hs) as Hw.
  destruct (decode_rune s) as [r w] eqn:Ed. simpl in Hw. destruct (p r) eqn:Hp; [|intros Hall; destruct s; [done|discriminate Hall]].
  intros Hall. assert (s = str_take w s +:+ str_drop w s) as Es by by rewrite str_take_drop.
  rewrite scan_eq, bool_decide_eq_false_2 by by destruct s. rewrite decode_app, Ed, Hp
    by (rewrite Ed; by apply fits_valid).
  assert (str_drop w (s +:+ t) = str_drop w s +:+ t) as ->.
  { rewrite Es at 1. rewrite str_app_assoc. assert (String.length (str_take w s) = w) as Hl
      by (rewrite length_str_take; lia). rewrite <-Hl at 1. apply str_drop_app. }
  rewrite IH; rewrite ?length_str_drop; lia.
Qed.

Lemma scan_take s : all_runes p (str_take (scan p s) s).
Proof.
  unfold all_runes. induction s as [s IH] using str_length_ind. rewrite (scan_eq p s).
  case_bool_decide as Hs; [by subst|]. pose proof (decode_width s Hs) as Hw.
  destruct (decode_rune s) as [r w] eqn:Ed. simpl in Hw. destruct (p r) eqn:Hp; [|by destruct s].
  set (n := scan p (str_drop w s)). pose proof (scan_le p (str_drop w s)) as Hle. fold n in Hle.
  rewrite length_str_drop in Hle.
  assert (str_take (w + n) s ≠ "") as Hne by (destruct s, w; simpl in *; [done..|lia|done]).
  rewrite scan_eq, bool_decide_eq_false_2 by done.
  rewrite decode_take by (rewrite Ed; simpl; first [lia|by apply fits_valid]). rewrite Ed, Hp, str_drop_take.
  assert (scan p (str_take n (str_drop w s)) = String.length (str_take n (str_drop w s))) as ->
    by (apply IH; rewrite length_str_drop; lia).
  rewrite !length_str_take, length_str_drop. lia.
Qed.

(** A scan stops at the end of the text or at a rune that does not fit. *)
Lemma scan_stop s : scan p (str_drop (scan p s) s) = O.
Proof.
  induction s as [s IH] using str_length_ind. rewrite (scan_eq p s).
  case_bool_decide as Hs; [by subst|]. pose proof (decode_width s Hs) as Hw.
  destruct (decode_rune s) as [r w] eqn:Ed. simpl in Hw. destruct (p r) eqn:Hp.
  - rewrite <-str_drop_drop. apply IH. rewrite length_str_drop. lia.
  - rewrite str_drop_0, scan_eq, bool_decide_eq_false_2 by done. by rewrite Ed, Hp.
Qed.
End scan.

Lemma all_runes_nil p : all_runes p "".
Proof. done. Qed.

(** A text that starts with an ASCII byte that does not fit. *)
Lemma scan_ascii p c s : (byte_of c < 128)%N → p (byte_of c) = false → scan p (String c s) = O.
Proof. intros Hc Hp. rewrite scan_eq, bool_decide_eq_false_2 by done. by rewrite decode_ascii, Hp. Qed.

Lemma space_error : is_space rune_error = false.
Proof. done. Qed.

(** ** The grammar *)

Definition spaces (s : string) : Prop := all_runes is_space s.

(** A whole literal: the quote at its end is the first one that closes it. *)
Definition literal (s : string) : Prop :=
  ∃ q body, s = String q body ∧ (q = dquote ∨ q = backquote) ∧ string_end q body = Some (String.length body).

(** Brackets that are balanced at the end of the text and not before, without a
    closing parenthesis. *)
Definition bracketed (s : string) : Prop :=
  ∃ s', s = String "[" s' ∧ bracket_end 0 s = Some (String.length s).

Definition integer_text (s : string) : Prop :=
  ∃ sign ds, s = sign +:+ ds ∧ (sign = "" ∨ sign = "-") ∧ ds ≠ "" ∧ digits ds = String.length ds.

Section grammar.
Context `{UnicodeTables}.

(** A rune that starts an identifier and runes that satisfy [p]. *)
Definition word_text (p : N → bool) (s : string) : Prop :=
  s ≠ "" ∧ identifier_start (decode_rune s).1 = true ∧ all_runes p s.
Definition identifier_text (s : string) : Prop := word_text identifier_rune s.

Inductive spells : string → Value → Prop :=
  | spells_string s v : literal s → unquote s = Some v → spells s (VString v)
  | spells_true : spells "true" (VBoolean true)
  | spells_false : spells "false" (VBoolean false)
  | spells_identifier s :
      identifier_text s → s ≠ "true" → s ≠ "false" → spells s (VIdentifier s)
  | spells_instance i b : identifier_text i → bracketed b → spells (i +:+ b) (VIdentifier (i +:+ b))
  | spells_integer s v : integer_text s → parse_int64 s = Some v → spells s (VInteger v)
  | spells_empty sp : spaces sp → spells ("[" +:+ sp +:+ "]") (VList [])
  | spells_list body vs sp :
      spells_items body vs → spaces sp → spells ("[" +:+ body +:+ sp +:+ "]") (VList vs)
with spells_items : string → list Value → Prop :=
  | items_one sp t v : spaces sp → spells t v → spells_items (sp +:+ t) [v]
  | items_more sp t v sp' body vs :
      spaces sp → spells t v → spaces sp' → spells_items body vs →
      spells_items (sp +:+ t +:+ sp' +:+ "," +:+ body) (v :: vs).

Inductive argument_text : string → Argument → Prop :=
  | argument_positional t v : spells t v → argument_text t (mkArgument "" v)
  | argument_named i sp sp' t v :
      identifier_text i → spaces sp → spaces sp' → spells t v →
      argument_text (i +:+ sp +:+ "=" +:+ sp' +:+ t) (mkArgument i v).

Inductive arguments_text : string → list Argument → Prop :=
  | arguments_one sp t a : spaces sp → argument_text t a → arguments_text (sp +:+ t) [a]
  | arguments_more sp t a sp' body args :
      spaces sp → argument_text t a → spaces sp' → arguments_text body args →
      arguments_text (sp +:+ t +:+ sp' +:+ "," +:+ body) (a :: args).

(** Positional arguments come first, and the names are distinct. *)
Definition arguments_ordered (args : list Argument) : Prop :=
  ∃ positional named, args = positional ++ named ∧ Forall (λ a, arg_Name a = "") positional ∧
    Forall (λ a, arg_Name a ≠ "") named ∧ NoDup (arg_Name <$> named).

Definition name_text (s : string) : Prop := s ≠ "" ∧ all_runes name_rune s.

Inductive annotation_text : string → string → list Argument → Prop :=
  | annotation_bare name sp : name_text name → spaces sp → annotation_text ("@" +:+ name +:+ sp) name []
  | annotation_empty name sp1 sp2 sp3 :
      name_text name → spaces sp1 → spaces sp2 → spaces sp3 →
      annotation_text ("@" +:+ name +:+ sp1 +:+ "(" +:+ sp2 +:+ ")" +:+ sp3) name []
  | annotation_arguments name sp1 body args sp2 sp3 :
      name_text name → spaces sp1 → arguments_text body args → arguments_ordered args → spaces sp2 → spaces sp3 →
      annotation_text ("@" +:+ name +:+ sp1 +:+ "(" +:+ body +:+ sp2 +:+ ")" +:+ sp3) name args.
End grammar.

Scheme spells_mut := Induction for spells Sort Prop
  with spells_items_mut := Induction for spells_items Sort Prop.
Combined Scheme spells_both from spells_mut, spells_items_mut.

(** ** What the primitive steps read *)

Section reading.
Context `{UnicodeTables} (input : string).

Notation rest := (rest input).

(** From the first offset to the second lies the text. *)
Definition reads (o : nat) (text : string) (o' : nat) : Prop :=
  o' = (o + String.length text)%nat ∧ rest o = text +:+ rest o'.

Lemma reads_nil o : reads o "" o.
Proof. split; [simpl; lia|done]. Qed.

Lemma reads_app o1 a o2 b o3 : reads o1 a o2 → reads o2 b o3 → reads o1 (a +:+ b) o3.
Proof. intros [-> E1] [-> E2]. split; [rewrite length_str_app; lia|]. by rewrite E1, E2, str_app_assoc. Qed.

Lemma reads_split o a b o' : reads o (a +:+ b) o' → reads o a (o + String.length a) ∧ reads (o + String.length a) b o'.
Proof.
  intros [-> E]. rewrite str_app_assoc in E.
  assert (rest (o + String.length a) = b +:+ rest (o + String.length (a +:+ b))) as Er.
  { unfold rest at 1. rewrite <-str_drop_drop. fold (rest o). by rewrite E, str_drop_app. }
  split; split; [done|by rewrite Er|rewrite length_str_app; lia|done].
Qed.

Lemma reads_rest o text t : rest o = text +:+ t → reads o text (o + String.length text) ∧ rest (o + String.length text) = t.
Proof.
  intros E. assert (rest (o + String.length text) = t) as Er.
  { unfold rest. rewrite <-str_drop_drop. fold (rest o). by rewrite E, str_drop_app. }
  split; [|done]. split; [done|by rewrite Er].
Qed.

Lemma reads_inv o text o' : reads o text o' → o' = (o + String.length text)%nat.
Proof. by intros [? _]. Qed.

Lemma reads_le o text o' : reads o text o' → (o ≤ String.length input)%nat → (o' ≤ String.length input)%nat.
Proof.
  intros [-> E] Ho. apply (f_equal String.length) in E. rewrite length_str_app in E. unfold rest in E.
  rewrite !length_str_drop in E. lia.
Qed.

Lemma eof_spec o : eof input o = true ↔ rest o = "".
Proof.
  unfold eof, rest. rewrite Nat.leb_le. pose proof (length_str_drop o input) as Hl. split.
  - intros Ho. destruct (str_drop o input); [done|simpl in Hl; lia].
  - intros E. rewrite E in Hl. simpl in Hl. lia.
Qed.

Lemma eof_cons o c t : rest o = String c t → eof input o = false.
Proof. intros E. apply not_true_iff_false. rewrite eof_spec, E. done. Qed.

Lemma peek_rest o : peek input o = match rest o with "" => chr 0 | String c _ => c end.
Proof.
  unfold peek. destruct (eof input o) eqn:E; [apply eof_spec in E; by rewrite E|].
  unfold rest. rewrite str_get_drop. by destruct (str_drop o input).
Qed.

Lemma consume_spec c o o' : consume input c o = Some o' ↔ reads o (str1 c) o'.
Proof.
  unfold consume, reads. rewrite peek_rest. change (String.length (str1 c)) with 1%nat.
  destruct (rest o) as [|d t] eqn:E.
  - assert (eof input o = true) as -> by by apply eof_spec. simpl. split; [done|]. intros [_ He].
    unfold str1 in He. by rewrite str_cons_app in He.
  - rewrite (eof_cons _ _ _ E). simpl. unfold str1.
    assert (rest (S o) = t) as Et.
    { replace (S o) with (o + String.length (str1 d))%nat by (simpl; lia). by apply (reads_rest o (str1 d) t). }
    case_bool_decide as Hd; simpl.
    + subst. split; [intros [= <-]; split; [lia|done]|]. intros [-> _]. f_equal. lia.
    + split; [done|]. intros [-> He]. rewrite str_cons_app in He. congruence.
Qed.

Lemma consume_none c o t : rest o = t → (∀ t', t ≠ String c t') → consume input c o = None.
Proof.
  intros E Ht. destruct (consume input c o) as [o'|] eqn:Hc; [|done]. apply consume_spec in Hc as [_ Hc].
  rewrite E in Hc. by destruct (Ht _ Hc).
Qed.

(** The end of a maximal run of runes. *)
Lemma run_reads p o (Herr : p rune_error = false) :
  ∃ s, reads o s (o + scan p (rest o)) ∧ all_runes p s ∧ s = str_take (scan p (rest o)) (rest o) ∧
    scan p (rest (o + scan p (rest o))) = O.
Proof.
  exists (str_take (scan p (rest o)) (rest o)).
  assert (String.length (str_take (scan p (rest o)) (rest o)) = scan p (rest o)) as Hl.
  { rewrite length_str_take. pose proof (scan_le p (rest o)). lia. }
  destruct (reads_rest o (str_take (scan p (rest o)) (rest o)) (str_drop (scan p (rest o)) (rest o))) as [Hr Et];
    [by rewrite str_take_drop|]. rewrite Hl in Hr, Et.
  split_and!; [done|by apply scan_take|done|]. rewrite Et. by apply scan_stop.
Qed.

Lemma run_exact p o s o' (Herr : p rune_error = false) :
  reads o s o' → all_runes p s → scan p (rest o') = O → scan p (rest o) = String.length s.
Proof. intros [-> E] Hs Hstop. rewrite E, scan_app by done. rewrite Hstop. lia. Qed.

Lemma skipSpace_reads o :
  ∃ sp, reads o sp (skipSpace input o) ∧ spaces sp ∧ scan is_space (rest (skipSpace input o)) = O.
Proof. destruct (run_reads is_space o) as (s & ? & ? & _ & ?); [done|]. by exists s. Qed.

Lemma skipSpace_exact o sp o' :
  reads o sp o' → spaces sp → scan is_space (rest o') = O → skipSpace input o = o'.
Proof. intros Hr Hs Hstop. unfold skipSpace. rewrite (run_exact _ o sp o'); [|done..]. by destruct Hr as [-> _]. Qed.
End reading.
