(* ===== verification/ParserLex.v ===== *)
(** The lexical steps of the annotation parser read exactly the tokens of the
    grammar: identifiers, integers, literals and instantiated names. *)
From S2P Require Import Prelude GoSort GoStrings GoStrconv Provider Annotation Parser ParserGrammar.

(** ** Prefixes *)

Lemma string_end_prefix q s n :
  string_end q s = Some n → (n ≤ String.length s)%nat ∧ string_end q (str_take n s) = Some n.
Proof.
  revert n. induction s as [s IH] using str_length_ind. destruct s as [|c s]; intros n; cbn [string_end]; [done|].
  case_bool_decide as Hq; [intros [= <-]; simpl; split; [lia|]; by rewrite bool_decide_eq_true_2|].
  destruct (bool_decide (c = backslash) && bool_decide (q = dquote)) eqn:Eb.
  - destruct s as [|d s]; [done|]. intros (m & [= <-] & Hm)%fmap_Some_1 || intros (m & Hm & ->)%fmap_Some.
    apply IH in Hm as [Hle Hm]; [|simpl; lia]. split; [simpl; lia|]. cbn [str_take string_end].
    by rewrite bool_decide_eq_false_2, Eb, Hm.
  - intros (m & Hm & ->)%fmap_Some. apply IH in Hm as [Hle Hm]; [|simpl; lia]. split; [simpl; lia|].
    cbn [str_take string_end]. by rewrite bool_decide_eq_false_2, Eb, Hm.
Qed.

Lemma string_end_app q s t n : string_end q s = Some n → string_end q (s +:+ t) = Some n.
Proof.
  revert n. induction s as [s IH] using str_length_ind. destruct s as [|c s]; intros n; [done|].
  rewrite (str_cons_app c s). cbn [string_end]. case_bool_decide as Hq; [done|].
  destruct (bool_decide (c = backslash) && bool_decide (q = dquote)).
  - destruct s as [|d s]; [done|]. rewrite (str_cons_app d s). intros (m & Hm & ->)%fmap_Some.
    apply IH in Hm; [|simpl; lia]. by rewrite Hm.
  - intros (m & Hm & ->)%fmap_Some. apply IH in Hm; [|simpl; lia]. by rewrite Hm.
Qed.

Lemma bracket_end_prefix d s n :
  bracket_end d s = Some n → (n ≤ String.length s)%nat ∧ bracket_end d (str_take n s) = Some n.
Proof.
  revert d n. induction s as [|c s IH]; intros d n; cbn [bracket_end]; [done|].
  destruct (bool_decide (c = ")"%char) && (0 <? d)%nat) eqn:E1; [done|]. cbv zeta.
  destruct (bool_decide (_ = O)) eqn:E2.
  - intros [= <-]. simpl. split; [lia|]. by rewrite E1, E2.
  - intros (m & Hm & ->)%fmap_Some. apply IH in Hm as [Hle Hm]. split; [simpl; lia|].
    cbn [str_take bracket_end]. by rewrite E1, E2, Hm.
Qed.

Lemma bracket_end_app d s t n : bracket_end d s = Some n → bracket_end d (s +:+ t) = Some n.
Proof.
  revert d n. induction s as [|c s IH]; intros d n; [done|]. rewrite (str_cons_app c s). cbn [bracket_end].
  destruct (_ && _); [done|]. cbv zeta. destruct (bool_decide (_ = O)); [done|].
  intros (m & Hm & ->)%fmap_Some. by rewrite (IH _ _ Hm).
Qed.

Lemma bracket_end_last s d n :
  bracket_end (S d) s = Some n → n = String.length s → ∃ s', s = s' +:+ "]".
Proof.
  revert d n. induction s as [|c s IH]; intros d n; cbn [bracket_end]; [done|].
  destruct (_ && _); [done|]. cbv zeta. case_bool_decide as E2.
  - intros [= <-] Hl. destruct s; [|discriminate Hl]. exists "". rewrite str_nil_app. repeat case_bool_decide; congruence.
  - intros (m & Hm & ->)%fmap_Some [= Hl]. assert (∃ d', (if bool_decide (c = "["%char) then S (S d)
        else if bool_decide (c = "]"%char) then pred (S d) else S d) = S d') as [d' Hd].
    { destruct (if bool_decide (c = "["%char) then S (S d) else _); [done|by eexists]. }
    rewrite Hd in Hm. destruct (IH _ _ Hm Hl) as [s' ->]. exists (String c s'). by rewrite str_cons_app.
Qed.

Lemma digits_le s : (digits s ≤ String.length s)%nat.
Proof. induction s as [|c s IH]; simpl; [lia|]. case_match; simpl; lia. Qed.
Lemma digits_take s : digits (str_take (digits s) s) = digits s.
Proof. induction s as [|c s IH]; simpl; [done|]. destruct (in_range _ _ _) eqn:E; simpl; [by rewrite E, IH|done]. Qed.
Lemma digits_app s t : digits s = String.length s → digits (s +:+ t) = (String.length s + digits t)%nat.
Proof.
  induction s as [|c s IH]; [done|]. rewrite str_cons_app. simpl. destruct (in_range _ _ _); [|done].
  intros [= Hs]. by rewrite IH.
Qed.

(** ** Trimming *)

Lemma trim_left_scan s : trim_left_space s = str_drop (scan is_space s) s.
Proof.
  unfold trim_left_space, scan. generalize (String.length s). intros fuel. revert s.
  induction fuel as [|fuel IH]; intros s; cbn [trim_left_aux scan_fuel]; [by rewrite str_drop_0|].
  destruct s as [|c s]; [done|]. destruct (decode_rune (String c s)) as [r w].
  destruct (is_space r); [|done]. by rewrite IH, str_drop_drop.
Qed.

(** A rune before the last ASCII byte does not reach beyond it. *)
Lemma decode_before s c : s ≠ "" → (byte_of c < 128)%N → ((decode_rune (s +:+ str1 c)).2 ≤ String.length s)%nat.
Proof.
  intros Hs Hc. assert (∀ lo hi, (128 <= lo)%N → in_range lo hi (byte_of c) = false) as Hno.
  { intros lo hi Hlo. unfold in_range. apply andb_false_iff. left. apply N.leb_gt. lia. }
  destruct s as [|c0 s]; [done|]. unfold str1. rewrite (str_cons_app c0 s). unfold decode_rune.
  destruct (byte_of c0 <? 128)%N; [simpl; lia|]. destruct (negb (in_range 194 244 (byte_of c0))); [simpl; lia|].
  assert (128 <= (if (byte_of c0 =? 224)%N then 160 else if (byte_of c0 =? 240)%N then 144 else 128))%N as Hlo
    by (repeat case_match; lia).
  destruct s as [|c1 s]; [rewrite str_nil_app, Hno by done; simpl; lia|]. rewrite (str_cons_app c1 s).
  destruct (negb (in_range _ _ (byte_of c1))); [simpl; lia|]. destruct (byte_of c0 <? 224)%N; [simpl; lia|].
  destruct s as [|c2 s]; [rewrite str_nil_app, Hno by lia; simpl; lia|]. rewrite (str_cons_app c2 s).
  destruct (negb (in_range _ _ (byte_of c2))); [simpl; lia|]. destruct (byte_of c0 <? 240)%N; [simpl; lia|].
  destruct s as [|c3 s]; [rewrite str_nil_app, Hno by lia; simpl; lia|]. rewrite (str_cons_app c3 s).
  destruct (negb (in_range _ _ (byte_of c3))); simpl; lia.
Qed.

Lemma runes_aux_last s c fuel :
  (byte_of c < 128)%N → (String.length s < fuel)%nat →
  ∃ l, runes_aux fuel (s +:+ str1 c) = l ++ [(byte_of c, 1%nat)] ∧ sum_list (l.*2) = String.length s.
Proof.
  intros Hc. revert fuel. induction s as [s IH] using str_length_ind. intros [|fuel] Hfuel; [lia|].
  destruct (decide (s = "")) as [->|Hs].
  - rewrite str_nil_app. unfold str1. cbn [runes_aux]. rewrite decode_ascii by done. exists []. by destruct fuel.
  - pose proof (decode_before s c Hs Hc) as Hw.
    pose proof (decode_width (s +:+ str1 c)) as Hw1. destruct s as [|d s]; [done|]. rewrite (str_cons_app d s) in *.
    specialize (Hw1 ltac:(done)). cbn [runes_aux]. destruct (decode_rune _) as [r w] eqn:Ed. cbn [snd] in *.
    assert (str_drop w (String d (s +:+ str1 c)) = str_drop w (String d s) +:+ str1 c) as ->.
    { rewrite <-str_cons_app, <-(str_take_drop w (String d s)) at 1. rewrite str_app_assoc.
      assert (String.length (str_take w (String d s)) = w) as Hl by (rewrite length_str_take; lia).
      rewrite <-Hl at 1. apply str_drop_app. }
    destruct (IH (str_drop w (String d s))) with (fuel := fuel) as (l & -> & Hl).
    + rewrite length_str_drop. simpl in *. lia.
    + rewrite length_str_drop. simpl in *. lia.
    + exists ((r, w) :: l). split; [done|]. cbn [fmap list_fmap sum_list fst snd]. rewrite length_str_drop in Hl.
      simpl in *. lia.
Qed.

(** A text between a rune and an ASCII byte that are not spaces is trimmed. *)
Lemma trim_space_id s c :
  (byte_of c < 128)%N → is_space (byte_of c) = false → scan is_space (s +:+ str1 c) = O →
  trim_space (s +:+ str1 c) = s +:+ str1 c.
Proof.
  intros Hc Hs Hscan. unfold trim_space. rewrite trim_left_scan, Hscan, str_drop_0.
  unfold trim_right_space, trimmed_width, runes.
  destruct (runes_aux_last s c (String.length (s +:+ str1 c)) Hc) as (l & -> & Hl).
  { rewrite length_str_app. simpl. lia. }
  rewrite foldl_app. apply str_take_all. rewrite length_str_app. change (String.length (str1 c)) with 1%nat.
  enough (∀ pos keep, (foldl (λ '(pos, keep) '(r, w), let pos' := (pos + w)%nat in
      (pos', if is_space r then keep else pos')) (pos, keep) l).1 = (pos + sum_list l.*2)%nat) as Hpos.
  { specialize (Hpos 0%nat 0%nat). destruct (foldl _ _ l) as [pos keep]. cbn [fst] in Hpos. cbn [foldl]. rewrite Hs. cbn [snd]. rewrite Hpos, Nat.add_0_l, Hl. done. }
  clear. induction l as [|[r w] l IH]; intros pos keep; [simpl; lia|]. cbn [foldl]. rewrite IH, fmap_cons. unfold sum_list. simpl. unfold id. lia.
Qed.

(** ** Classes of runes *)

Lemma space_cases r : is_space r = true → (9 <= r <= 13 ∨ r = 32 ∨ 133 <= r)%N.
Proof.
  unfold is_space, in_range. rewrite !orb_true_iff, !andb_true_iff, !N.leb_le, !N.eqb_eq. lia.
Qed.

Section classes.
Context `{UnicodeTables} `{!UnicodeLaws}.

Lemma letter_cases r : is_letter r = true → (65 <= r <= 90 ∨ 97 <= r <= 122 ∨ 128 <= r ∧ tbl_letter r = true)%N.
Proof.
  unfold is_letter, in_range. destruct (N.ltb_spec r 128); rewrite ?orb_true_iff, ?andb_true_iff, ?N.leb_le; [lia|].
  intros ?. auto.
Qed.
Lemma digit_cases r : is_digit r = true → (48 <= r <= 57 ∨ 128 <= r ∧ tbl_digit r = true)%N.
Proof.
  unfold is_digit, in_range. destruct (N.ltb_spec r 128); rewrite ?andb_true_iff, ?N.leb_le; [lia|]. intros ?. auto.
Qed.

Lemma letter_no_space r : is_letter r = true → is_space r = false.
Proof.
  intros Hl%letter_cases. destruct (is_space r) eqn:E; [|done]. pose proof (space_cases r E) as Hs.
  destruct Hl as [?|[?|[_ Ht%letter_not_space]]]; [lia..|congruence].
Qed.
Lemma digit_no_space r : is_digit r = true → is_space r = false.
Proof.
  intros Hl%digit_cases. destruct (is_space r) eqn:E; [|done]. pose proof (space_cases r E) as Hs.
  destruct Hl as [?|[_ Ht%digit_not_space]]; [lia|congruence].
Qed.

Lemma ascii_no_space r : (r < 128)%N → ¬ (9 <= r <= 13)%N → r ≠ 32%N → is_space r = false.
Proof. intros Hr H1 H2. destruct (is_space r) eqn:E; [|done]. apply space_cases in E. lia. Qed.

Lemma identifier_start_rune r : identifier_start r = true → identifier_rune r = true.
Proof. unfold identifier_start, identifier_rune. rewrite orb_true_iff. by intros [-> | ->]; rewrite ?orb_true_r. Qed.

Lemma identifier_rune_no_space r : identifier_rune r = true → is_space r = false.
Proof.
  unfold identifier_rune. rewrite !orb_true_iff, !N.eqb_eq. intros [[[[[[Hl|Hd]|Hr]|Hr]|Hr]|Hr]|Hr];
    [by apply letter_no_space|by apply digit_no_space|subst r; done..].
Qed.

Lemma identifier_error : identifier_rune rune_error = false.
Proof.
  unfold identifier_rune, is_letter, is_digit. change (rune_error <? 128)%N with false. cbv iota.
  by rewrite error_not_letter, error_not_digit.
Qed.
Lemma name_error : name_rune rune_error = false.
Proof.
  unfold name_rune, is_letter, is_digit. change (rune_error <? 128)%N with false. cbv iota.
  by rewrite error_not_letter, error_not_digit.
Qed.
Lemma start_error : identifier_start rune_error = false.
Proof.
  unfold identifier_start, is_letter. change (rune_error <? 128)%N with false. cbv iota. by rewrite error_not_letter.
Qed.

(** A space does not continue a name or an identifier. *)
Lemma scan_space_stops p s :
  (∀ r, p r = true → is_space r = false) → s ≠ "" → is_space (decode_rune s).1 = true → scan p s = O.
Proof.
  intros Hp Hs Hsp. rewrite scan_eq, bool_decide_eq_false_2 by done. destruct (decode_rune s) as [r w]. simpl in Hsp.
  destruct (p r) eqn:E; [|done]. apply Hp in E. congruence.
Qed.

Lemma name_rune_no_space r : name_rune r = true → is_space r = false.
Proof.
  unfold name_rune. rewrite !orb_true_iff, !N.eqb_eq. intros [[[Hl|Hd]|Hr]|Hr];
    [by apply letter_no_space|by apply digit_no_space|subst r; done..].
Qed.
End classes.

(** ** Tokens *)

Section tokens.
Context `{UnicodeTables} `{!UnicodeLaws} (input : string).

Notation rest := (rest input).
Notation reads := (reads input).

Section words.
Context (p : N → bool) (Hstart : ∀ r, identifier_start r = true → p r = true) (Herr : p rune_error = false).

(** What both parsers do for an identifier, the runes after the first being given. *)
Definition word_at (offset : nat) : string * nat :=
  if eof input offset then ("", offset)
  else
    let '(r, size) := decode_rune (rest offset) in
    if negb (identifier_start r) then ("", offset)
    else
      let width := (size + scan p (rest (offset + size)))%nat in
      (str_take width (rest offset), (offset + width)%nat).

Lemma word_none o : identifier_start (decode_rune (rest o)).1 = false → word_at o = ("", o).
Proof.
  intros Hs. unfold word_at. destruct (eof input o); [done|].
  destruct (decode_rune (rest o)) as [r w]. simpl in Hs. by rewrite Hs.
Qed.

Lemma start_rest o : identifier_start (decode_rune (rest o)).1 = true → rest o ≠ "".
Proof. intros Hs E. rewrite E in Hs. change (decode_rune "").1 with rune_error in Hs. by rewrite start_error in Hs. Qed.

Lemma word_some o :
  identifier_start (decode_rune (rest o)).1 = true →
  word_at o = (str_take (scan p (rest o)) (rest o), (o + scan p (rest o))%nat).
Proof.
  intros Hs. pose proof (start_rest o Hs) as Hne. unfold word_at.
  assert (eof input o = false) as -> by by apply not_true_iff_false; rewrite eof_spec.
  assert (scan p (rest o) = ((decode_rune (rest o)).2 + scan p (rest (o + (decode_rune (rest o)).2)))%nat) as ->.
  { rewrite scan_eq, bool_decide_eq_false_2 by done. destruct (decode_rune (rest o)) as [r w] eqn:Ed. simpl in Hs |- *.
    rewrite Hstart by done. unfold Parser.rest. by rewrite str_drop_drop. }
  destruct (decode_rune (rest o)) as [r w]. simpl in Hs |- *. by rewrite Hs.
Qed.

Lemma word_spec o s o1 :
  word_at o = (s, o1) →
  (s = "" ∧ o1 = o ∧ identifier_start (decode_rune (rest o)).1 = false) ∨
  (word_text p s ∧ reads o s o1 ∧ scan p (rest o1) = O).
Proof.
  destruct (identifier_start (decode_rune (rest o)).1) eqn:Hs; [|rewrite word_none by done; intros [= <- <-]; by left].
  rewrite word_some by done. intros [= <- <-]. right. pose proof (start_rest o Hs) as He.
  destruct (run_reads input p o Herr) as (s & Hr & Hall & -> & Hstop).
  split_and!; [|done..|done]. set (s := str_take _ _) in *. pose proof (decode_width _ He) as Hw.
  assert (scan p (rest o) = ((decode_rune (rest o)).2 + scan p (str_drop (decode_rune (rest o)).2 (rest o)))%nat) as Es.
  { rewrite scan_eq, bool_decide_eq_false_2 by done. destruct (decode_rune (rest o)) as [r w]. simpl in Hs |- *.
    by rewrite Hstart. }
  split_and!; [| |done].
  - intros E. rewrite E in Hr. pose proof (reads_inv _ _ _ _ Hr) as Hn. simpl in Hn. lia.
  - unfold s. rewrite decode_take; [done| |lia]. intros E. rewrite E in Hs. by rewrite start_error in Hs.
Qed.

Lemma word_first s t : word_text p s → decode_rune (s +:+ t) = decode_rune s.
Proof.
  intros (_ & Hs & _). apply decode_app. intros E. rewrite E in Hs. by rewrite start_error in Hs.
Qed.

Lemma word_exact o s o1 :
  reads o s o1 → word_text p s → scan p (rest o1) = O → word_at o = (s, o1).
Proof.
  intros Hr Hs Hstop. pose proof Hr as [-> E]. pose proof Hs as (Hne & Hst & Hall).
  rewrite word_some by by rewrite E, word_first.
  rewrite (run_exact input _ o s _ Herr Hr Hall Hstop). f_equal. by rewrite E, str_take_app.
Qed.
End words.

Lemma identifier_first s t : identifier_text s → decode_rune (s +:+ t) = decode_rune s.
Proof. apply (word_first identifier_rune). Qed.

Lemma parseIdentifier_none o : identifier_start (decode_rune (rest o)).1 = false → parseIdentifier input o = ("", o).
Proof. apply (word_none identifier_rune). Qed.

Lemma parseIdentifier_spec o s o1 :
  parseIdentifier input o = (s, o1) →
  (s = "" ∧ o1 = o ∧ identifier_start (decode_rune (rest o)).1 = false) ∨
  (identifier_text s ∧ reads o s o1 ∧ scan identifier_rune (rest o1) = O).
Proof. apply (word_spec identifier_rune identifier_start_rune identifier_error). Qed.

Lemma parseIdentifier_exact o s o1 :
  reads o s o1 → identifier_text s → scan identifier_rune (rest o1) = O → parseIdentifier input o = (s, o1).
Proof. apply (word_exact identifier_rune identifier_start_rune identifier_error). Qed.

Lemma parseInteger_spec o s o1 :
  parseInteger input o = (s, o1) →
  (s = "" ∧ o1 = o) ∨ (integer_text s ∧ reads o s o1).
Proof.
  unfold parseInteger. cbv zeta. set (sign := if bool_decide (peek input o = "-"%char) then _ else _). case_bool_decide as Hd; intros [= <- <-]; [by left|right].
  assert (∃ sg, (sg = "" ∨ sg = "-") ∧ reads o sg (o + sign) ∧ String.length sg = sign) as (sg & Hsg & Hr & Hl).
  { unfold sign. rewrite peek_rest. case_bool_decide as Hp.
    2: { exists "". split; [by left|]. split; [|done]. rewrite Nat.add_0_r. apply reads_nil. }
    exists "-". split; [by right|]. split; [|done]. destruct (rest o) as [|c t] eqn:E; [by vm_compute in Hp|]. subst c.
    by apply (reads_rest input o "-" t). }
  set (ds := str_take (digits (rest (o + sign))) (rest (o + sign))).
  assert (String.length ds = digits (rest (o + sign))) as Hds.
  { unfold ds. rewrite length_str_take. pose proof (digits_le (rest (o + sign))). lia. }
  assert (reads (o + sign) ds (o + sign + digits (rest (o + sign)))) as Hr2.
  { rewrite <-Hds. eapply reads_rest. unfold ds. by rewrite str_take_drop. }
  assert (reads o (sg +:+ ds) (o + sign + digits (rest (o + sign)))) as Hall by by eapply reads_app.
  assert (str_take (sign + digits (rest (o + sign))) (rest o) = sg +:+ ds) as ->.
  { destruct Hall as [_ ->]. rewrite <-Hds, <-Hl, <-length_str_app. apply str_take_app. }
  split; [|done]. exists sg, ds. split_and!; [done|done| |].
  - intros E. rewrite E in Hds. by rewrite <-Hds in Hd.
  - rewrite Hds. unfold ds. apply digits_take.
Qed.

Lemma parseInteger_exact o s o1 :
  reads o s o1 → integer_text s → digits (rest o1) = O → parseInteger input o = (s, o1).
Proof.
  intros Hr (sg & ds & -> & Hsg & Hne & Hds) Hstop.
  assert (if bool_decide (peek input o = "-"%char) then sg = "-" else sg = "") as Hsign.
  { rewrite peek_rest. destruct Hr as [_ ->]. destruct Hsg as [-> | ->]; [|done]. rewrite str_nil_app.
    destruct ds as [|c ds]; [done|]. rewrite str_cons_app. case_bool_decide as Hc; [|done]. by subst c. }
  apply reads_split in Hr as [Hr1 Hr2]. unfold parseInteger.
  assert ((if bool_decide (peek input o = "-"%char) then 1%nat else O) = String.length sg) as ->
    by (destruct (bool_decide _); by rewrite Hsign).
  pose proof Hr2 as [-> E2]. rewrite E2, digits_app by done. rewrite Hstop, Nat.add_0_r.
  rewrite bool_decide_eq_false_2 by by destruct ds. f_equal.
  pose proof (reads_app _ _ _ _ _ _ Hr1 Hr2) as [_ E]. rewrite E, <-length_str_app. apply str_take_app.
Qed.

Lemma rest_S o c t : rest o = String c t → rest (S o) = t.
Proof.
  intros E. replace (S o) with (o + String.length (str1 c))%nat by (simpl; lia). by apply (reads_rest input o (str1 c) t).
Qed.

Lemma parseString_spec position o s o1 :
  peek input o = dquote ∨ peek input o = backquote → parseString input position o = Some (Ok (s, o1)) →
  ∃ t, literal t ∧ unquote t = Some s ∧ reads o t o1.
Proof.
  rewrite peek_rest. unfold parseString. rewrite peek_rest. destruct (rest o) as [|q body] eqn:E.
  { intros [Hq|Hq]; by vm_compute in Hq. }
  intros Hq. rewrite (rest_S o q body E). destruct (string_end q body) as [n|] eqn:Hn; [|done].
  apply string_end_prefix in Hn as [Hle Hn].
  destruct (unquote (str_take (S n) (String q body))) as [value|] eqn:Hu; [|done]. intros [= <- <-].
  exists (str_take (S n) (String q body)). split; [|split; [done|]].
  - exists q, (str_take n body). split; [done|]. split; [done|]. rewrite Hn, length_str_take. f_equal. lia.
  - assert (String.length (str_take (S n) (String q body)) = S n) as Hl by (rewrite length_str_take; simpl; lia).
    replace (S (o + n)) with (o + String.length (str_take (S n) (String q body)))%nat by lia.
    eapply reads_rest. rewrite E. by rewrite str_take_drop.
Qed.

Lemma parseString_exact position o t v o1 :
  reads o t o1 → literal t → unquote t = Some v → parseString input position o = Some (Ok (v, o1)).
Proof.
  intros [-> E] (q & body & -> & Hq & Hn) Hu. unfold parseString. rewrite peek_rest, E.
  rewrite str_cons_app in E |- *. rewrite (rest_S _ _ _ E), (string_end_app _ _ _ _ Hn).
  change (str_take (S (String.length body)) (String q (body +:+ rest (o + String.length (String q body)))))
    with (String q (str_take (String.length body) (body +:+ rest (o + String.length (String q body))))).
  rewrite str_take_app, Hu. do 3 f_equal. simpl. lia.
Qed.

(** ** Instantiated names *)

Lemma identifier_no_space i t : identifier_text i → scan is_space (i +:+ t) = O.
Proof.
  intros Hi. pose proof Hi as (Hne & Hs & _). rewrite scan_eq, bool_decide_eq_false_2 by by destruct i.
  rewrite identifier_first by done. destruct (decode_rune i) as [r w]. simpl in Hs.
  by rewrite (identifier_rune_no_space r) by by apply identifier_start_rune.
Qed.

Lemma bracketed_last b : bracketed b → ∃ b', b = b' +:+ "]".
Proof.
  intros (b0 & -> & Hb). cbn in Hb. apply fmap_Some in Hb as (n & Hn & Hl).
  injection Hl as Hl. destruct (bracket_end_last _ _ _ Hn (eq_sym Hl)) as [s' ->]. exists (String "[" s'). by rewrite str_cons_app.
Qed.

Lemma instance_trimmed i b : identifier_text i → bracketed b → trim_space (i +:+ b) = i +:+ b.
Proof.
  intros Hi (b' & ->)%bracketed_last. rewrite <-str_app_assoc. change "]" with (str1 "]"%char).
  apply trim_space_id; [done|done|]. rewrite str_app_assoc. by apply identifier_no_space.
Qed.

Lemma parseValueIdentifier_spec o s o1 :
  parseValueIdentifier input o = (s, o1) → s ≠ "" →
  (identifier_text s ∧ reads o s o1) ∨
  (∃ i b, s = i +:+ b ∧ identifier_text i ∧ bracketed b ∧ reads o s o1).
Proof.
  unfold parseValueIdentifier. destruct (parseIdentifier input o) as [i o'] eqn:Hp.
  apply parseIdentifier_spec in Hp as [(-> & -> & _)|(Hi & Hr & Hstop)]; [intros [= <- <-]; done|].
  pose proof Hi as (Hne & _). rewrite bool_decide_eq_false_2 by done.
  destruct (eof input o' || _) eqn:Hb; [intros [= <- <-] _; left; done|].
  apply orb_false_iff in Hb as [He Hb]. apply negb_false_iff, bool_decide_eq_true in Hb. rewrite peek_rest in Hb.
  destruct (rest o') as [|c t] eqn:E; [by vm_compute in Hb|]. subst c.
  destruct (bracket_end 0 (String "[" t)) as [n|] eqn:Hn; [|intros [= <- <-]; done].
  apply bracket_end_prefix in Hn as [Hle Hn]. set (b := str_take n (String "[" t)).
  assert (String.length b = n) as Hl by (unfold b; rewrite length_str_take; lia).
  assert (reads o' b (o' + n)) as Hrb.
  { rewrite <-Hl. eapply reads_rest. rewrite E. unfold b. by rewrite str_take_drop. }
  assert (bracketed b) as Hbr.
  { destruct n as [|n]; [by destruct t|]. exists (str_take n t). split; [done|]. rewrite Hl. exact Hn. }
  pose proof (reads_app _ _ _ _ _ _ Hr Hrb) as Hall.
  assert (str_take (o' + n - o) (rest o) = i +:+ b) as ->.
  { destruct Hall as [E1 ->]. rewrite E1. replace (o + String.length (i +:+ b) - o)%nat with (String.length (i +:+ b)) by lia.
    apply str_take_app. }
  rewrite instance_trimmed by done. intros [= <- <-] _. right. exists i, b. by split_and!.
Qed.

Lemma parseValueIdentifier_plain o s o1 :
  reads o s o1 → identifier_text s → scan identifier_rune (rest o1) = O → (∀ t, rest o1 ≠ String "[" t) →
  parseValueIdentifier input o = (s, o1).
Proof.
  intros Hr Hs Hstop Hno. unfold parseValueIdentifier. rewrite (parseIdentifier_exact _ _ _ Hr Hs Hstop).
  rewrite bool_decide_eq_false_2 by apply Hs.
  destruct (eof input o1) eqn:He; [done|]. cbn [orb]. rewrite peek_rest.
  destruct (rest o1) as [|c t] eqn:E; [done|]. rewrite bool_decide_eq_false_2; [done|]. intros ->. by destruct (Hno t).
Qed.

Lemma parseValueIdentifier_instance o i b o1 :
  reads o (i +:+ b) o1 → identifier_text i → bracketed b → parseValueIdentifier input o = (i +:+ b, o1).
Proof.
  intros Hr Hi Hb. pose proof (reads_split _ _ _ _ _ Hr) as [Hr1 Hr2]. pose proof Hb as (b0 & Eb & Hend).
  pose proof Hr2 as [_ E2]. rewrite Eb, str_cons_app in E2.
  unfold parseValueIdentifier. rewrite (parseIdentifier_exact _ _ _ Hr1 Hi).
  2: { rewrite E2. by apply scan_ascii. }
  rewrite bool_decide_eq_false_2 by apply Hi. rewrite (eof_cons _ _ _ _ E2), peek_rest, E2. cbn [orb negb].
  rewrite bool_decide_eq_true_2 by done. cbn [negb]. rewrite <-str_cons_app, <-Eb.
  rewrite (bracket_end_app _ _ _ _ Hend). f_equal.
  - replace (o + String.length i + String.length b - o)%nat with (String.length (i +:+ b)) by (rewrite length_str_app; lia).
    destruct Hr as [_ ->]. rewrite str_take_app. by apply instance_trimmed.
  - destruct Hr as [-> _]. rewrite length_str_app. lia.
Qed.
End tokens.
