(* ===== verification/ParserSound.v ===== *)
(** The parser accepts only the grammar, and it always ends: what a successful
    call has read, and that its fuel is enough. *)
From S2P Require Import Prelude GoSort GoStrings GoStrconv Provider Annotation Parser ParserGrammar ParserLex.

(** Texts that end in different bytes differ. *)
Lemma last_byte_differs s c d : c ≠ d → ¬ ∃ t, s +:+ str1 c = t +:+ str1 d.
Proof.
  intros Hcd [t E]. revert t E. induction s as [|x s IH]; intros [|y t] E.
  - rewrite !str_nil_app in E. by injection E.
  - rewrite str_nil_app, str_cons_app in E. injection E as _ E. by destruct t.
  - rewrite str_nil_app, str_cons_app in E. injection E as _ E. by destruct s.
  - rewrite !str_cons_app in E. injection E as _ E. by eapply IH.
Qed.

Section sound.
Context `{UnicodeTables} `{!UnicodeLaws} (input : string) (position : Position).

Notation rest := (rest input).
Notation reads := (reads input).
Notation parseValue := (parseValue input position).

(** [errorf] only fails. *)
Lemma errorf_not_ok {A} message o (a : A) : errorf position message o ≠ Some (Ok a).
Proof. done. Qed.

Lemma spells_ne t v : spells t v → t ≠ "".
Proof.
  destruct 1 as [s v (q & b & -> & _)| | |s (? & _)|i b (Hi & _)|s v (sg & ds & -> & _ & Hd & _)| |]; try done.
  - by destruct i.
  - by destruct sg.
Qed.

Lemma reads_lt o t o' : reads o t o' → t ≠ "" → (o < o')%nat ∧ (o < String.length input)%nat.
Proof.
  intros [-> E] Ht. destruct t as [|c t]; [done|]. simpl. split; [lia|].
  apply (f_equal String.length) in E. unfold Parser.rest in E at 1. rewrite length_str_drop, length_str_app in E.
  simpl in E. lia.
Qed.

Lemma spaces_app a b : spaces a → spaces b → spaces (a +:+ b).
Proof. unfold spaces, all_runes. intros Ha Hb. rewrite scan_app, Hb, length_str_app by done. done. Qed.

Lemma items_spaces sp body vs : spaces sp → spells_items body vs → spells_items (sp +:+ body) vs.
Proof.
  intros Hsp. destruct 1; rewrite <-str_app_assoc; constructor; try done; by apply spaces_app.
Qed.

Lemma arguments_spaces sp body args : spaces sp → arguments_text body args → arguments_text (sp +:+ body) args.
Proof.
  intros Hsp. destruct 1; rewrite <-str_app_assoc; constructor; try done; by apply spaces_app.
Qed.

(** Reading several texts after one another. *)
Lemma reads_eq o a b o' : reads o a o' → a = b → reads o b o'.
Proof. by intros ? <-. Qed.
Ltac read_all := eapply reads_eq; [repeat first [eassumption|eapply reads_app; [eassumption|]]|by rewrite ?str_app_assoc].

(** What a value parser promises when it succeeds. *)
Definition value_sound (f : nat → option (outcome error (Value * nat))) : Prop := ∀ o v o',
  f o = Some (Ok (v, o')) → ∃ sp t, spaces sp ∧ spells t v ∧ reads o (sp +:+ t) o'.

Lemma listLoop_sound f fuel items o v o' :
  value_sound f → listLoop input position f fuel items o = Some (Ok (v, o')) →
  ∃ body vs sp, v = VList (items ++ vs) ∧ spells_items body vs ∧ spaces sp ∧ reads o (body +:+ sp +:+ "]") o'.
Proof.
  intros Hf. revert items o. induction fuel as [|fuel IH]; intros items o; cbn [listLoop]; [done|].
  destruct (f o) as [[[value o1]|e]|] eqn:Hv; [|done..]. apply Hf in Hv as (sp & t & Hsp & Ht & Hr).
  destruct (skipSpace_reads input o1) as (sp1 & Hr1 & Hsp1 & _).
  destruct (consume input "]" (skipSpace input o1)) as [o2|] eqn:Hc.
  { intros [= <- <-]. apply consume_spec in Hc. exists (sp +:+ t), [value], sp1.
    split; [done|]. split; [by constructor|]. split; [done|]. eapply reads_app; [done|]. by eapply reads_app. }
  destruct (consume input "," (skipSpace input o1)) as [o2|] eqn:Hc2; [|intros Herr; by apply errorf_not_ok in Herr].
  apply consume_spec in Hc2. destruct (skipSpace_reads input o2) as (sp2 & Hr2 & Hsp2 & _).
  case_bool_decide; [intros Herr; by apply errorf_not_ok in Herr|].
  intros (body & vs & sp3 & -> & Hbody & Hsp3 & Hr3)%IH. exists (sp +:+ t +:+ sp1 +:+ "," +:+ sp2 +:+ body), (value :: vs), sp3.
  split; [by rewrite <-app_assoc|]. split; [|split; [done|read_all]].
  constructor; try done. by apply items_spaces.
Qed.

Lemma parseList_sound f fuel o v o' :
  value_sound f → parseList input position f fuel o = Some (Ok (v, o')) → ∃ t, spells t v ∧ reads o t o'.
Proof.
  intros Hf. unfold parseList. destruct (consume input "[" o) as [o1|] eqn:Hc; [|intros Herr; by apply errorf_not_ok in Herr].
  apply consume_spec in Hc. destruct (skipSpace_reads input o1) as (sp & Hr & Hsp & _).
  destruct (consume input "]" (skipSpace input o1)) as [o2|] eqn:Hc2.
  - intros [= <- <-]. apply consume_spec in Hc2. exists ("[" +:+ sp +:+ "]"). split; [by apply spells_empty|read_all].
  - intros (body & vs & sp1 & -> & Hb & Hsp1 & Hr1)%listLoop_sound; [|done].
    exists ("[" +:+ (sp +:+ body) +:+ sp1 +:+ "]"). split; [|read_all]. constructor; [by apply items_spaces|done].
Qed.

Lemma parseValue_sound fuel : value_sound (parseValue fuel).
Proof.
  induction fuel as [|fuel IH]; intros o v o'; cbn [Parser.parseValue]; [done|].
  destruct (skipSpace_reads input o) as (sp & Hr & Hsp & _).
  destruct (eof input (skipSpace input o)); [intros Herr; by apply errorf_not_ok in Herr|].
  destruct (bool_decide _ || _) eqn:Hq.
  { apply orb_true_iff in Hq. rewrite !bool_decide_eq_true in Hq.
    destruct (parseString input position (skipSpace input o)) as [[[s o1]|e]|] eqn:Hs; [|done..]. intros [= <- <-].
    apply parseString_spec in Hs as (t & Ht & Hu & Hr1); [|done]. exists sp, t. split; [done|]. split; [by constructor|read_all]. }
  destruct (bool_decide (peek input (skipSpace input o) = "["%char)).
  { intros (t & Ht & Hr1)%parseList_sound; [|done]. exists sp, t. split; [done|]. split; [done|read_all]. }
  destruct (parseValueIdentifier input (skipSpace input o)) as [i o1] eqn:Hi.
  destruct (bool_decide (i = "true") || bool_decide (i = "false")) eqn:Hb.
  { apply orb_true_iff in Hb. rewrite !bool_decide_eq_true in Hb. intros [= <- <-].
    assert (i ≠ "") as Hne by by destruct Hb as [-> | ->].
    apply parseValueIdentifier_spec in Hi as [[Hi Hr1]|(i0 & b & -> & Hi & (b' & Eb)%bracketed_last & Hr1)]; [| |done].
    - exists sp, i. split; [done|]. split; [|read_all]. destruct Hb as [-> | ->]; constructor.
    - exfalso. rewrite Eb, <-str_app_assoc in Hb. apply (last_byte_differs (i0 +:+ b') "]"%char "e"%char); [done|].
      destruct Hb as [E|E]; [exists "tru"|exists "fals"]; exact E. }
  apply orb_false_iff in Hb as [Hb1%bool_decide_eq_false Hb2%bool_decide_eq_false].
  destruct (decide (i = "")) as [Hne|Hne];
    [rewrite (bool_decide_eq_true_2 (i = "")) by done|rewrite (bool_decide_eq_false_2 (i = "")) by done]; cbn [negb].
  - destruct (parseInteger input (skipSpace input o)) as [n o2] eqn:Hn.
    destruct (bool_decide (n = "")) eqn:Hn0; cbn [negb]; [intros Herr; by apply errorf_not_ok in Herr|].
    apply parseInteger_spec in Hn as [[-> _]|[Hn Hr1]]; [done|].
    destruct (parse_int64 n) as [z|] eqn:Hz; [|intros Herr; by apply errorf_not_ok in Herr]. intros [= <- <-].
    exists sp, n. split; [done|]. split; [by constructor|read_all].
  - intros [= <- <-]. apply parseValueIdentifier_spec in Hi as [[Hi Hr1]|(i0 & b & -> & Hi & Hbr & Hr1)]; [| |done].
    + exists sp, i. split; [done|]. split; [by constructor|read_all].
    + exists sp, (i0 +:+ b). split; [done|]. split; [by constructor|read_all].
Qed.

(** ** The fuel of values *)

Lemma listLoop_total f fuel items o :
  value_sound f → (∀ o', (o ≤ o')%nat → f o' ≠ None) → (String.length input - o < fuel)%nat →
  listLoop input position f fuel items o ≠ None.
Proof.
  intros Hf. revert items o. induction fuel as [|fuel IH]; intros items o Htotal Hfuel; [lia|]. cbn [listLoop].
  destruct (f o) as [[[value o1]|e]|] eqn:Hv; [|done|by destruct (Htotal o)].
  apply Hf in Hv as (sp & t & _ & Ht & Hr). apply reads_lt in Hr as [Hlt Hin];
    [|apply spells_ne in Ht; by destruct sp].
  destruct (consume input "]" _); [done|]. destruct (consume input "," _) as [o2|] eqn:Hc; [|done].
  apply consume_spec in Hc as [-> _]. case_bool_decide; [done|].
  unfold skipSpace in *. simpl. apply IH; [intros o' Ho'; apply Htotal; lia|lia].
Qed.

Lemma parseValue_total fuel o : (String.length input - o < fuel)%nat → parseValue fuel o ≠ None.
Proof.
  revert o. induction fuel as [|fuel IH]; intros o Hfuel; [lia|]. cbn [Parser.parseValue].
  destruct (eof input (skipSpace input o)); [done|].
  destruct (bool_decide _ || _).
  { unfold parseString. destruct (string_end _ _); [|done]. by destruct (unquote _). }
  destruct (bool_decide (peek input (skipSpace input o) = "["%char)).
  { unfold parseList. destruct (consume input "[" (skipSpace input o)) as [o1|] eqn:Hc; [|done].
    apply consume_spec, reads_lt in Hc as [Hlt Hin]; [|done].
    destruct (consume input "]" _); [done|]. unfold skipSpace in *.
    apply listLoop_total; [apply parseValue_sound| |lia]. intros o' Ho'. apply IH. lia. }
  destruct (parseValueIdentifier _ _) as [i o1]. destruct (_ || _); [done|]. destruct (negb _); [done|].
  destruct (parseInteger _ _) as [n o2]. destruct (negb _); [|done]. by destruct (parse_int64 n).
Qed.

(** ** Arguments *)

(** The names and the order of the arguments read so far. *)
Definition ordered_state (args : list Argument) (seenNamed : bool) (seenNames : gset string) : Prop :=
  ∃ positional named, args = positional ++ named ∧ Forall (λ a, arg_Name a = "") positional ∧
    Forall (λ a, arg_Name a ≠ "") named ∧ NoDup (arg_Name <$> named) ∧
    (∀ x, x ∈ seenNames ↔ x ∈ arg_Name <$> named) ∧ (seenNamed = false → named = []).

Lemma parseArgument_sound fuel args seenNamed seenNames o a named names o' :
  ordered_state args seenNamed seenNames →
  parseArgument input position fuel seenNamed seenNames o = Some (Ok (a, named, names, o')) →
  ∃ sp t, spaces sp ∧ argument_text t a ∧ reads o (sp +:+ t) o' ∧
    ordered_state (args ++ [a]) (seenNamed || named) names.
Proof.
  intros (pos & nm & -> & Hpos & Hnm & Hnd & Hnames & Hseen). unfold parseArgument.
  destruct (skipSpace_reads input o) as (sp & Hr & Hsp & _).
  destruct (parseIdentifier input (skipSpace input o)) as [i o1] eqn:Hi.
  destruct (skipSpace_reads input o1) as (sp1 & Hr1 & Hsp1 & _).
  destruct (if bool_decide (i = "") then None else consume input "=" (skipSpace input o1)) as [o2|] eqn:Hc.
  - case_bool_decide as Hempty; [done|]. apply consume_spec in Hc.
    destruct (bool_decide (i ∈ seenNames)) eqn:Hin; [intros Herr; by apply errorf_not_ok in Herr|].
    apply bool_decide_eq_false in Hin. destruct (skipSpace_reads input o2) as (sp2 & Hr2 & Hsp2 & _).
    destruct (parseValue fuel (skipSpace input o2)) as [[[v o3]|e]|] eqn:Hv; [|done..]. intros [= <- <- <- <-].
    apply parseValue_sound in Hv as (sp3 & t & Hsp3 & Ht & Hr3).
    apply parseIdentifier_spec in Hi as [(-> & _)|(Hi & Hri & _)]; [done|].
    exists sp, (i +:+ sp1 +:+ "=" +:+ (sp2 +:+ sp3) +:+ t). split; [done|].
    split; [constructor; [done..|by apply spaces_app|done]|]. split; [read_all|].
    exists pos, (nm ++ [mkArgument i v]). rewrite app_assoc, fmap_app. split; [done|]. split; [done|].
    split; [apply Forall_app; split; [done|by repeat constructor]|]. split_and!.
    + apply NoDup_app. split_and!; [done| |apply NoDup_singleton]. simpl. intros x Hx ->%list_elem_of_singleton.
      by apply Hin, Hnames.
    + intros x. rewrite elem_of_union, elem_of_singleton, elem_of_app, Hnames. simpl. rewrite list_elem_of_singleton. tauto.
    + by rewrite orb_true_r.
  - destruct seenNamed; [intros Herr; by apply errorf_not_ok in Herr|]. rewrite Hseen, app_nil_r by done.
    destruct (parseValue fuel (skipSpace input o)) as [[[v o3]|e]|] eqn:Hv; [|done..]. intros [= <- <- <- <-].
    apply parseValue_sound in Hv as (sp3 & t & Hsp3 & Ht & Hr3).
    exists (sp +:+ sp3), t. split; [by apply spaces_app|]. split; [by constructor|]. split; [read_all|].
    rewrite (Hseen eq_refl) in Hnames. exists (pos ++ [mkArgument "" v]), []. rewrite app_nil_r. split; [done|].
    split; [apply Forall_app; split; [done|by repeat constructor]|]. split_and!; [constructor|constructor|done|done].
Qed.

Lemma parseArgumentsLoop_sound fuel args seenNamed seenNames o args' o' :
  ordered_state args seenNamed seenNames →
  parseArgumentsLoop input position fuel args seenNamed seenNames o = Some (Ok (args', o')) →
  ∃ body more sp, args' = args ++ more ∧ arguments_text body more ∧ arguments_ordered args' ∧ spaces sp ∧
    reads o (body +:+ sp +:+ ")") o'.
Proof.
  revert args seenNamed seenNames o. induction fuel as [|fuel IH]; intros args seenNamed seenNames o Hst;
    cbn [parseArgumentsLoop]; [done|].
  destruct (parseArgument _ _ _ _ _ _) as [[[[[a named] names] o1]|e]|] eqn:Ha; [|done..].
  destruct (parseArgument_sound _ _ _ _ _ _ _ _ _ Hst Ha) as (sp & t & Hsp & Ht & Hr & Hst').
  destruct (skipSpace_reads input o1) as (sp1 & Hr1 & Hsp1 & _).
  destruct (consume input ")" (skipSpace input o1)) as [o2|] eqn:Hc.
  { intros [= <- <-]. apply consume_spec in Hc. exists (sp +:+ t), [a], sp1. split; [done|]. split; [by constructor|].
    split; [|split; [done|read_all]]. destruct Hst' as (pos & nm & ? & ? & ? & ? & _). exists pos, nm. by split_and!. }
  destruct (consume input "," (skipSpace input o1)) as [o2|] eqn:Hc2; [|intros Herr; by apply errorf_not_ok in Herr].
  apply consume_spec in Hc2. destruct (skipSpace_reads input o2) as (sp2 & Hr2 & Hsp2 & _).
  case_bool_decide; [intros Herr; by apply errorf_not_ok in Herr|].
  intros (body & more & sp3 & -> & Hbody & Hord & Hsp3 & Hr3)%IH; [|done].
  exists (sp +:+ t +:+ sp1 +:+ "," +:+ sp2 +:+ body), (a :: more), sp3. split; [by rewrite <-app_assoc|].
  split; [|split; [done|split; [done|read_all]]]. constructor; try done. by apply arguments_spaces.
Qed.

Lemma parseArgument_total fuel seenNamed seenNames o :
  (String.length input < fuel)%nat → parseArgument input position fuel seenNamed seenNames o ≠ None.
Proof.
  intros Hfuel. unfold parseArgument. destruct (parseIdentifier _ _) as [i o1].
  destruct (if bool_decide (i = "") then None else _) as [o2|].
  - destruct (bool_decide _); [done|]. pose proof (parseValue_total fuel (skipSpace input o2) ltac:(lia)).
    by destruct (parseValue _ _) as [[[]|]|].
  - destruct seenNamed; [done|]. pose proof (parseValue_total fuel (skipSpace input o) ltac:(lia)).
    by destruct (parseValue _ _) as [[[]|]|].
Qed.

Lemma parseArgumentsLoop_total fuel args seenNamed seenNames o :
  ordered_state args seenNamed seenNames → (String.length input - o < fuel)%nat →
  parseArgumentsLoop input position fuel args seenNamed seenNames o ≠ None.
Proof.
  revert args seenNamed seenNames o. induction fuel as [|fuel IH]; intros args seenNamed seenNames o Hst Hfuel; [lia|].
  cbn [parseArgumentsLoop]. pose proof (parseArgument_total (S (String.length input)) seenNamed seenNames o ltac:(lia)) as Ht.
  destruct (parseArgument _ _ _ _ _ _) as [[[[[a named] names] o1]|e]|] eqn:Ha; [|done..].
  destruct (parseArgument_sound _ _ _ _ _ _ _ _ _ Hst Ha) as (sp & t & Hsp & Htext & Hr & Hst').
  apply reads_lt in Hr as [Hlt Hin].
  2: { destruct sp; [|done]. rewrite str_nil_app. destruct Htext as [t v Hv|i ? ? ? ? (Hne & _)]; [by eapply spells_ne|by destruct i]. }
  destruct (consume input ")" _); [done|]. destruct (consume input "," _) as [o2|] eqn:Hc; [|done].
  apply consume_spec in Hc as [-> _]. case_bool_decide; [done|]. unfold skipSpace in *. simpl. apply IH; [done|lia].
Qed.

(** ** Annotations *)

Lemma initial_ordered : ordered_state [] false ∅.
Proof.
  exists [], []. split_and!; [done|constructor|constructor|constructor| |done]. intros x. set_solver.
Qed.

Lemma parseAnnotation_total : parseAnnotation input position ≠ None.
Proof.
  unfold parseAnnotation. destruct (consume input "@" 0) as [o1|]; [|done].
  destruct (parseName input o1) as [name o2]. destruct (bool_decide _); [done|]. cbv zeta.
  destruct (eof _ _); [done|]. destruct (consume input "(" _) as [o3|]; [|done].
  assert (∀ r o, requireEnd input position r o ≠ None) as Hend by (intros r o; unfold requireEnd; by destruct (negb _)).
  destruct (consume input ")" _) as [o4|]; [apply Hend|].
  pose proof (parseArgumentsLoop_total (S (String.length input)) [] false ∅ (skipSpace input o3) initial_ordered ltac:(lia)) as Ht.
  unfold parseArguments. destruct (parseArgumentsLoop _ _ _ _ _ _ _) as [[[args o4]|e]|]; [apply Hend|done..].
Qed.

(** The whole text has been read. *)
Lemma reads_whole text o : reads 0 text o → rest o = "" → input = text.
Proof. intros [_ E] Ho. rewrite Ho, str_app_nil_r in E. unfold Parser.rest in E. by rewrite str_drop_0 in E. Qed.

Lemma parseAnnotation_sound a :
  parseAnnotation input position = Some (Ok a) →
  annotation_text input (an_Name a) (an_Arguments a) ∧ an_Position a = position ∧ an_Raw a = "".
Proof.
  unfold parseAnnotation. destruct (consume input "@" 0) as [o1|] eqn:Hat; [|done]. apply consume_spec in Hat.
  destruct (parseName input o1) as [name o2] eqn:Hn. unfold parseName in Hn.
  destruct (run_reads input name_rune o1 name_error) as (s & Hr & Hall & Es & _). rewrite <-Es in Hn. injection Hn as <- <-.
  case_bool_decide as Hne; [done|]. assert (name_text s) as Hname by done. cbv zeta.
  set (o2 := (o1 + scan name_rune (rest o1))%nat) in *.
  destruct (skipSpace_reads input o2) as (sp1 & Hr1 & Hsp1 & _).
  assert (∀ r o text, reads 0 text o → requireEnd input position r o = Some (Ok a) →
    a = r ∧ ∃ sp, spaces sp ∧ input = text +:+ sp) as Hend.
  { intros r o text Hrt. unfold requireEnd. destruct (skipSpace_reads input o) as (sp & Hsp & Hsps & _).
    destruct (eof input (skipSpace input o)) eqn:He; cbn [negb]; [|done]. intros [= <-]. split; [done|].
    exists sp. split; [done|]. apply eof_spec in He. apply (reads_whole _ (skipSpace input o)); [|exact He].
    by apply (reads_app input 0 text o sp). }
  destruct (eof input (skipSpace input o2)) eqn:He.
  { intros [= <-]. split; [|done]. simpl. apply eof_spec in He.
    assert (input = "@" +:+ s +:+ sp1) as E by (apply (reads_whole _ (skipSpace input o2)); [read_all|exact He]).
    rewrite E. by constructor. }
  destruct (consume input "(" (skipSpace input o2)) as [o3|] eqn:Hp; [|done]. apply consume_spec in Hp.
  destruct (skipSpace_reads input o3) as (sp2 & Hr2 & Hsp2 & _).
  destruct (consume input ")" (skipSpace input o3)) as [o4|] eqn:Hc.
  { apply consume_spec in Hc. intros Hq.
    apply (Hend _ _ ("@" +:+ s +:+ sp1 +:+ "(" +:+ sp2 +:+ ")")) in Hq as [-> (sp & Hsp & E)]; [|read_all].
    split; [|done]. simpl. rewrite !str_app_assoc in E. rewrite E. by constructor. }
  destruct (parseArguments input position (skipSpace input o3)) as [[[args o4]|e]|] eqn:Hargs; [|done..].
  apply parseArgumentsLoop_sound in Hargs as (body & more & sp3 & Hmore & Hbody & Hord & Hsp3 & Hr3); [|apply initial_ordered].
  simpl in Hmore. subst more. intros Hq.
  apply (Hend _ _ ("@" +:+ s +:+ sp1 +:+ "(" +:+ (sp2 +:+ body) +:+ sp3 +:+ ")")) in Hq as [-> (sp & Hsp & E)]; [|read_all].
  split; [|done]. simpl. rewrite !str_app_assoc, <-(str_app_assoc sp2 body) in E. rewrite E.
  constructor; try done. by apply arguments_spaces.
Qed.
End sound.
