(* ===== verification/ParserComplete.v ===== *)
(** The parser reads every text of the grammar, and gives the value, the
    arguments and the annotation that the text spells. *)
From S2P Require Import Prelude GoSort GoStrings GoStrconv Provider Annotation Parser ParserGrammar ParserLex ParserSound.

(** ** The order of the arguments *)

Lemma ordered_positional prev a args :
  arguments_ordered (prev ++ a :: args) → arg_Name a = "" → Forall (λ b, arg_Name b = "") prev.
Proof.
  intros (pos & nm & E & Hpos & Hnm & _) Ha.
  apply app_eq_inv in E as [(k & -> & E)|(k & -> & E)]; [|by apply Forall_app in Hpos as [? _]].
  subst nm. apply Forall_app in Hnm as [_ Hnm]. by inversion Hnm.
Qed.

Lemma ordered_fresh prev a args :
  arguments_ordered (prev ++ a :: args) → arg_Name a ≠ "" → arg_Name a ∉ arg_Name <$> prev.
Proof.
  intros (pos & nm & E & Hpos & Hnm & Hnd) Ha Hin.
  assert (∀ l, Forall (λ b, arg_Name b = "") l → arg_Name a ∉ arg_Name <$> l) as Hno.
  { intros l Hl (b & Eb & Hb)%list_elem_of_fmap. rewrite Forall_forall in Hl. apply Hl in Hb. congruence. }
  apply app_eq_inv in E as [(k & -> & ->)|(k & -> & E)].
  - rewrite fmap_app in Hin. apply elem_of_app in Hin as [Hin|Hin]; [by apply (Hno pos)|].
    rewrite fmap_app in Hnd. apply NoDup_app in Hnd as (_ & Hnd & _). apply (Hnd _ Hin). simpl. left.
  - apply Forall_app in Hpos as [Hprev _]. by apply (Hno prev).
Qed.

Section complete.
Context `{UnicodeTables} `{!UnicodeLaws} (input : string) (position : Position).

Notation rest := (rest input).
Notation reads := (reads input).
Notation parseValue := (parseValue input position).

(** ** What follows a token *)

(** The text does not continue an identifier, an integer or a name, and is
    not the bracket of an instance. *)
Definition stops (t : string) : Prop :=
  scan identifier_rune t = O ∧ scan name_rune t = O ∧ digits t = O ∧ ∀ t', t ≠ String "[" t'.

Lemma spaces_first sp t : spaces sp → sp ≠ "" → is_space (decode_rune (sp +:+ t)).1 = true.
Proof.
  unfold spaces, all_runes. rewrite scan_eq. intros Hsp Hne. rewrite bool_decide_eq_false_2 in Hsp by done.
  destruct (decode_rune sp) as [r w] eqn:Ed. destruct (is_space r) eqn:Hr; [|by destruct sp].
  rewrite decode_app; rewrite Ed; [done|]. simpl. intros ->. by vm_compute in Hr.
Qed.

Lemma stops_spaces sp c t :
  spaces sp → c ∈ [","%char; "]"%char; ")"%char; "="%char; "("%char] → stops (sp +:+ String c t).
Proof.
  intros Hsp Hc. rewrite !elem_of_cons in Hc. destruct (decide (sp = "")) as [->|Hne].
  { rewrite str_nil_app. destruct_or!; subst; [..|by apply elem_of_nil in Hc].
    all: split_and!; [by apply scan_ascii..|done|done]. }
  pose proof (spaces_first sp (String c t) Hsp Hne) as Hs.
  split_and!; [apply scan_space_stops; [apply identifier_rune_no_space|by destruct sp|done]
              |apply scan_space_stops; [apply name_rune_no_space|by destruct sp|done]| |].
  - destruct sp as [|d sp]; [done|]. rewrite str_cons_app in *. simpl. destruct (in_range 48 57 (byte_of d)) eqn:E; [|done].
    unfold in_range in E. apply andb_true_iff in E as [E1%N.leb_le E2%N.leb_le].
    rewrite decode_ascii in Hs by lia. apply space_cases in Hs. simpl in Hs. lia.
  - intros t' E. rewrite E, decode_ascii in Hs by done. by vm_compute in Hs.
Qed.

Lemma identifier_head i :
  identifier_text i → ∃ c i', i = String c i' ∧ ∀ d, (byte_of d < 128)%N → identifier_start (byte_of d) = false → c ≠ d.
Proof.
  intros (Hne & Hs & _). destruct i as [|c i]; [done|]. exists c, i. split; [done|]. intros d Hd Hno ->.
  rewrite decode_ascii in Hs by done. simpl in Hs. congruence.
Qed.

Lemma integer_head s :
  integer_text s → ∃ c s', s = String c s' ∧ (c = "-"%char ∨ in_range 48 57 (byte_of c) = true).
Proof.
  intros (sg & ds & -> & Hsg & Hne & Hds). destruct ds as [|c ds]; [done|]. destruct Hsg as [-> | ->].
  - exists c, ds. split; [done|]. right. simpl in Hds. by destruct (in_range _ _ _).
  - exists "-"%char, (String c ds). split; [done|]. by left.
Qed.

Lemma integer_start c t :
  c = "-"%char ∨ in_range 48 57 (byte_of c) = true →
  scan is_space (String c t) = O ∧ identifier_start (decode_rune (String c t)).1 = false ∧
  c ∉ [dquote; backquote; "["%char; "]"%char; ")"%char].
Proof.
  intros [-> |Hc]; [split_and!; [by apply scan_ascii|done|]; set_solver|].
  unfold in_range in Hc. apply andb_true_iff in Hc as [E1%N.leb_le E2%N.leb_le]. split_and!.
  - apply scan_ascii; [lia|]. apply ascii_no_space; lia.
  - rewrite decode_ascii by lia. simpl. unfold identifier_start, is_letter, in_range.
    destruct (N.ltb_spec (byte_of c) 128); [|lia]. apply not_true_iff_false.
    rewrite !orb_true_iff, !andb_true_iff, !N.leb_le, N.eqb_eq. lia.
  - rewrite !not_elem_of_cons. split_and!; [..|apply not_elem_of_nil]; intros ->; vm_compute in E1, E2; congruence || lia.
Qed.

(** ** Values *)

(** A value starts with a byte that is not a space and closes nothing. *)
Lemma value_head t v :
  spells t v → ∃ c t', t = String c t' ∧ c ≠ "]"%char ∧ c ≠ ")"%char ∧ ∀ u, scan is_space (t +:+ u) = O.
Proof.
  assert (∀ i t', identifier_text i → ∃ c u, i +:+ t' = String c u ∧ c ≠ "]"%char ∧ c ≠ ")"%char ∧
    ∀ u, scan is_space ((i +:+ t') +:+ u) = O) as Hident.
  { intros i t' Hi. destruct (identifier_head i Hi) as (c & i' & -> & Hc). rewrite str_cons_app. exists c, (i' +:+ t').
    split_and!; [done|by apply Hc..|]. intros u. rewrite <-(str_cons_app c i' t'), str_app_assoc. by apply identifier_no_space. }
  destruct 1 as [s v (q & body & -> & Hq & _) _| | |s Hi _ _|i b Hi _|s v Hi _| |].
  - exists q, body. destruct Hq as [-> | ->]; (split_and!; [done..|]; intros u; by apply scan_ascii).
  - exists "t"%char, "rue". split_and!; [done..|]. intros u. by apply scan_ascii.
  - exists "f"%char, "alse". split_and!; [done..|]. intros u. by apply scan_ascii.
  - destruct (Hident s "" Hi) as (c & u & E). rewrite str_app_nil_r in E. by exists c, u.
  - by apply Hident.
  - destruct (integer_head s Hi) as (c & s' & -> & Hc). exists c, s'.
    destruct (integer_start c s' Hc) as (_ & _ & Hno). rewrite !not_elem_of_cons in Hno.
    split_and!; [done|apply Hno..|]. intros u. rewrite str_cons_app. by apply integer_start.
  - eexists _, _. split_and!; [done..|]. intros u. by apply scan_ascii.
  - eexists _, _. split_and!; [done..|]. intros u. by apply scan_ascii.
Qed.

Lemma skipSpace_value o sp t v o' : reads o (sp +:+ t) o' → spaces sp → spells t v →
  skipSpace input o = (o + String.length sp)%nat ∧ reads (o + String.length sp) t o'.
Proof.
  intros [Hr1 Hr2]%reads_split Hsp Hv. split; [|done]. apply (skipSpace_exact input o sp); [done..|].
  destruct Hr2 as [_ ->]. by destruct (value_head t v Hv) as (_ & _ & _ & _ & _ & ->).
Qed.

(** After the items of a list or the arguments, the closing byte is next. *)
Lemma close_exact o sp c o' :
  reads o (sp +:+ str1 c) o' → spaces sp → (byte_of c < 128)%N → is_space (byte_of c) = false →
  skipSpace input o = (o + String.length sp)%nat ∧ consume input c (skipSpace input o) = Some o' ∧
  ∀ d, d ≠ c → consume input d (skipSpace input o) = None.
Proof.
  intros [Hr1 Hr2]%reads_split Hsp Hc Hns. pose proof Hr2 as [_ E]. unfold str1 in E. rewrite str_cons_app, str_nil_app in E.
  assert (skipSpace input o = (o + String.length sp)%nat) as Eo.
  { apply (skipSpace_exact input o sp); [done..|]. rewrite E. by apply scan_ascii. }
  rewrite Eo. split; [done|]. split; [by apply consume_spec|]. intros d Hd. apply (consume_none _ _ _ _ E).
  intros t' [= ? _]. congruence.
Qed.

Lemma peek_head o c t : rest o = String c t → peek input o = c.
Proof. intros E. by rewrite peek_rest, E. Qed.

(** ** Values are read *)

Definition value_read (f : nat → option (outcome error (Value * nat))) (t : string) (v : Value) : Prop :=
  ∀ o o', reads o t o' → stops (rest o') → f o = Some (Ok (v, o')).

Lemma read_string fuel t v : literal t → unquote t = Some v → value_read (parseValue (S fuel)) t (VString v).
Proof.
  intros Ht Hu o o' Hr _. cbn [Parser.parseValue].
  assert (skipSpace input o = o) as ->.
  { apply (skipSpace_exact input o ""); [apply reads_nil|done|]. destruct Hr as [_ ->].
    by destruct (value_head t (VString v)) as (_ & _ & _ & _ & _ & ->); [constructor|]. }
  pose proof Ht as (q & body & -> & Hq & _). pose proof Hr as [_ E]. rewrite str_cons_app in E.
  rewrite (eof_cons _ _ _ _ E), (peek_head _ _ _ E).
  assert (bool_decide (q = dquote) || bool_decide (q = backquote) = true) as ->.
  { apply orb_true_iff. rewrite !bool_decide_eq_true. done. }
  by rewrite (parseString_exact _ _ _ _ _ _ Hr Ht Hu).
Qed.

(** The branches before the integers, on a text that starts with an identifier. *)
Lemma read_word fuel i b o o' :
  identifier_text i → reads o (i +:+ b) o' → parseValueIdentifier input o = (i +:+ b, o') →
  parseValue (S fuel) o = Some (Ok (
    if bool_decide (i +:+ b = "true") || bool_decide (i +:+ b = "false") then VBoolean (bool_decide (i +:+ b = "true"))
    else VIdentifier (i +:+ b), o')).
Proof.
  intros Hi Hr Hp. cbn [Parser.parseValue].
  assert (skipSpace input o = o) as ->.
  { apply (skipSpace_exact input o ""); [apply reads_nil|done|]. destruct Hr as [_ ->]. rewrite str_app_assoc.
    by apply identifier_no_space. }
  destruct (identifier_head i Hi) as (c & i' & Ei & Hc). pose proof Hr as [_ E]. rewrite Ei, !str_cons_app in E.
  rewrite (eof_cons _ _ _ _ E), (peek_head _ _ _ E), !(bool_decide_eq_false_2 (c = _)) by by apply Hc. cbn [orb].
  rewrite Hp. assert (i +:+ b ≠ "") as Hne by by rewrite Ei.
  destruct (bool_decide (i +:+ b = "true") || _); [done|]. by rewrite bool_decide_eq_false_2.
Qed.

Lemma read_plain fuel i o o' :
  identifier_text i → reads o i o' → stops (rest o') →
  parseValue (S fuel) o = Some (Ok (
    if bool_decide (i = "true") || bool_decide (i = "false") then VBoolean (bool_decide (i = "true"))
    else VIdentifier i, o')).
Proof.
  intros Hi Hr (Hs & _ & _ & Hb). pose proof (read_word fuel i "" o o' Hi) as Hw. rewrite str_app_nil_r in Hw.
  apply Hw; [done|]. by apply parseValueIdentifier_plain.
Qed.

Lemma true_identifier : identifier_text "true".
Proof. split_and!; done. Qed.
Lemma false_identifier : identifier_text "false".
Proof. split_and!; done. Qed.

Lemma read_instance fuel i b :
  identifier_text i → bracketed b → value_read (parseValue (S fuel)) (i +:+ b) (VIdentifier (i +:+ b)).
Proof.
  intros Hi Hb o o' Hr _. rewrite (read_word fuel i b o o' Hi Hr) by by apply parseValueIdentifier_instance.
  destruct (bracketed_last b Hb) as (b' & ->). rewrite <-str_app_assoc.
  rewrite !bool_decide_eq_false_2; [done|intros E..];
    apply (last_byte_differs (i +:+ b') "]"%char "e"%char); [done|by exists "fals"|done|by exists "tru"].
Qed.

Lemma read_integer fuel t z :
  integer_text t → parse_int64 t = Some z → value_read (parseValue (S fuel)) t (VInteger z).
Proof.
  intros Ht Hz o o' Hr (_ & _ & Hd & _). cbn [Parser.parseValue].
  destruct (integer_head t Ht) as (c & t' & Et & Hc). pose proof Hr as [_ E]. rewrite Et, !str_cons_app in E.
  destruct (integer_start c (t' +:+ rest o') Hc) as (Hsp & Hst & Hno). rewrite !not_elem_of_cons in Hno.
  assert (skipSpace input o = o) as ->.
  { apply (skipSpace_exact input o ""); [apply reads_nil|done|]. by rewrite E. }
  rewrite (eof_cons _ _ _ _ E), (peek_head _ _ _ E), !(bool_decide_eq_false_2 (c = _)) by apply Hno. cbn [orb].
  assert (parseValueIdentifier input o = ("", o)) as ->.
  { unfold parseValueIdentifier. by rewrite (parseIdentifier_none input o) by by rewrite E. }
  rewrite !(bool_decide_eq_false_2 ("" = _)), (bool_decide_eq_true_2 ("" = "")) by done. cbn [orb negb].
  rewrite (parseInteger_exact input o t o' Hr Ht Hd), (bool_decide_eq_false_2 (t = "")) by by rewrite Et.
  cbn [negb]. by rewrite Hz.
Qed.

Definition value_complete (t : string) (v : Value) : Prop := ∀ fuel o o',
  (String.length input - o < fuel)%nat → reads o t o' → stops (rest o') → parseValue fuel o = Some (Ok (v, o')).

(** The items between the brackets, the loop being at the first value. *)
Definition items_complete (body : string) (vs : list Value) : Prop := ∀ fuel1 fuel2 items sp o o',
  spaces sp → reads o (body +:+ sp +:+ "]") o' →
  (String.length input - o < fuel1)%nat → (String.length input - o < fuel2)%nat →
  listLoop input position (parseValue fuel1) fuel2 items (skipSpace input o) = Some (Ok (VList (items ++ vs), o')).

Lemma items_head body vs u o o' :
  spells_items body vs → reads o (body +:+ u) o' →
  ∃ c t, rest (skipSpace input o) = String c t ∧ c ≠ "]"%char.
Proof.
  intros Hb Hr. assert (∃ sp t v b, body +:+ u = sp +:+ t +:+ b ∧ spaces sp ∧ spells t v) as (sp & t & v & b & E & Hsp & Ht).
  { destruct Hb as [sp t v Hsp Ht|sp t v sp' body vs Hsp Ht _ _]; [exists sp, t, v, u|exists sp, t, v, (sp' +:+ "," +:+ body +:+ u)];
      (split; [by rewrite ?str_app_assoc|done]). }
  rewrite E, <-str_app_assoc in Hr. apply reads_split in Hr as [Hr _].
  destruct (skipSpace_value o sp t v _ Hr Hsp Ht) as [-> [_ Er]]. rewrite Er.
  destruct (value_head t v Ht) as (c & t' & -> & Hc & _). rewrite str_cons_app. eauto.
Qed.

Lemma list_complete body vs sp :
  items_complete body vs → spells_items body vs → spaces sp → value_complete ("[" +:+ body +:+ sp +:+ "]") (VList vs).
Proof.
  intros IH Hb Hsp fuel o o' Hfuel Hr _. destruct fuel as [|fuel]; [lia|]. cbn [Parser.parseValue].
  pose proof Hr as [_ E]. change ("[" +:+ ?a) with (String "[" a) in E. rewrite str_cons_app in E.
  assert (skipSpace input o = o) as ->.
  { apply (skipSpace_exact input o ""); [apply reads_nil|done|]. rewrite E. by apply scan_ascii. }
  rewrite (eof_cons _ _ _ _ E), (peek_head _ _ _ E), !(bool_decide_eq_false_2 ("["%char = _)) by done. cbn [orb].
  rewrite bool_decide_eq_true_2 by done. unfold parseList.
  pose proof Hr as [Hr1 Hr2]%reads_split. change (String.length "[") with 1%nat in *.
  rewrite (proj2 (consume_spec input "[" o (o + 1))) by done.
  destruct (reads_lt _ _ _ _ Hr1 ltac:(done)) as [_ Hlt].
  destruct (items_head body vs _ _ _ Hb Hr2) as (c & t & Ec & Hc).
  rewrite (consume_none _ _ _ _ Ec) by (intros t' [= ? _]; done).
  by apply (IH fuel fuel [] sp); [| |lia..].
Qed.

Lemma empty_complete sp : spaces sp → value_complete ("[" +:+ sp +:+ "]") (VList []).
Proof.
  intros Hsp fuel o o' Hfuel Hr _. destruct fuel as [|fuel]; [lia|]. cbn [Parser.parseValue].
  pose proof Hr as [_ E]. change ("[" +:+ ?a) with (String "[" a) in E. rewrite str_cons_app in E.
  assert (skipSpace input o = o) as ->.
  { apply (skipSpace_exact input o ""); [apply reads_nil|done|]. rewrite E. by apply scan_ascii. }
  rewrite (eof_cons _ _ _ _ E), (peek_head _ _ _ E), !(bool_decide_eq_false_2 ("["%char = _)) by done. cbn [orb].
  rewrite bool_decide_eq_true_2 by done. unfold parseList.
  pose proof Hr as [Hr1 Hr2]%reads_split. change (String.length "[") with 1%nat in *.
  rewrite (proj2 (consume_spec input "[" o (o + 1))) by done.
  destruct (close_exact _ _ "]"%char _ Hr2 Hsp) as (_ & -> & _); done.
Qed.

Lemma items_one_complete sp t v : spaces sp → spells t v → value_complete t v → items_complete (sp +:+ t) [v].
Proof.
  intros Hsp Ht IH fuel1 fuel2 items sp' o o' Hsp' Hr Hf1 Hf2. destruct fuel2 as [|fuel2]; [lia|].
  apply reads_split in Hr as [Hr1 Hr2].
  destruct (skipSpace_value _ _ _ _ _ Hr1 Hsp Ht) as [-> Hrt]. cbn [listLoop].
  rewrite (IH fuel1 (o + String.length sp)%nat _ ltac:(lia) Hrt).
  2: { destruct Hr2 as [_ ->]. rewrite str_app_assoc. apply stops_spaces; [done|set_solver]. }
  destruct (close_exact _ _ "]"%char _ Hr2 Hsp') as (_ & -> & _); done.
Qed.

Lemma items_more_complete sp t v sp' body vs :
  spaces sp → spells t v → value_complete t v → spaces sp' → spells_items body vs → items_complete body vs →
  items_complete (sp +:+ t +:+ sp' +:+ "," +:+ body) (v :: vs).
Proof.
  intros Hsp Ht IH Hsp' Hb IHb fuel1 fuel2 items sp2 o o' Hsp2 Hr Hf1 Hf2. destruct fuel2 as [|fuel2]; [lia|].
  rewrite !str_app_assoc, <-(str_app_assoc sp t), <-(str_app_assoc sp' ",") in Hr.
  apply reads_split in Hr as [Hr1 Hr2]. destruct (skipSpace_value _ _ _ _ _ Hr1 Hsp Ht) as [-> Hrt].
  destruct (reads_lt _ _ _ _ Hrt ltac:(by eapply spells_ne)) as [Hlt Hin].
  cbn [listLoop]. rewrite (IH fuel1 (o + String.length sp)%nat _ ltac:(lia) Hrt).
  2: { destruct Hr2 as [_ ->]. rewrite !str_app_assoc. apply stops_spaces; [done|set_solver]. }
  apply reads_split in Hr2 as [Hr3 Hr4].
  destruct (close_exact _ _ ","%char _ Hr3 Hsp') as (_ & -> & Hno); [done..|]. rewrite Hno by done.
  destruct (items_head body vs _ _ _ Hb Hr4) as (c & u & Ec & Hc).
  rewrite (peek_head _ _ _ Ec), bool_decide_eq_false_2 by done.
  destruct Hr3 as [E3 _]. rewrite (IHb fuel1 fuel2 (items ++ [v]) sp2 _ o'); [by rewrite <-app_assoc|done..|lia|lia].
Qed.

Lemma parseValue_complete t v : spells t v → value_complete t v.
Proof.
  apply (spells_both _ (λ t v _, value_complete t v) (λ body vs _, items_complete body vs)); clear t v.
  - intros s v Ht Hu [|fuel] o o' Hf Hr Hs; [lia|]. by apply (read_string fuel s v Ht Hu o o' Hr).
  - intros [|fuel] o o' Hf Hr Hs; [lia|]. by apply (read_plain fuel "true"); [apply true_identifier|..].
  - intros [|fuel] o o' Hf Hr Hs; [lia|]. by apply (read_plain fuel "false"); [apply false_identifier|..].
  - intros i Hi Ht Hfa [|fuel] o o' Hf Hr Hs; [lia|]. rewrite (read_plain fuel i o o') by done.
    by rewrite !bool_decide_eq_false_2.
  - intros i b Hi Hb [|fuel] o o' Hf Hr Hs; [lia|]. by apply (read_instance fuel i b Hi Hb o o' Hr).
  - intros s v Ht Hz [|fuel] o o' Hf Hr Hs; [lia|]. by apply (read_integer fuel s v Ht Hz o o' Hr).
  - intros sp Hsp. by apply empty_complete.
  - intros body vs sp Hb IH Hsp. by apply list_complete.
  - intros sp t v Hsp Ht IH. by apply items_one_complete.
  - intros sp t v sp' body vs Hsp Ht IH Hsp' Hb IHb. by apply items_more_complete.
Qed.

(** ** Arguments are read *)

(** What the parser knows of the arguments before. *)
Definition seen (prev : list Argument) (seenNamed : bool) (seenNames : gset string) : Prop :=
  (∀ x, x ∈ seenNames → x ∈ arg_Name <$> prev) ∧ (seenNamed = true → ∃ b, b ∈ prev ∧ arg_Name b ≠ "").

(** A positional value is not followed by an equals sign. *)
Lemma no_name t v o o' sp c u :
  spells t v → reads o t o' → rest o' = sp +:+ String c u → spaces sp → c ∈ [","%char; "]"%char; ")"%char] →
  let '(candidate, o1) := parseIdentifier input o in
  (if bool_decide (candidate = "") then None else consume input "=" (skipSpace input o1)) = None.
Proof.
  intros Ht Hr E Hsp Hc.
  assert (identifier_start (decode_rune (rest o)).1 = false → let '(candidate, o1) := parseIdentifier input o in
    (if bool_decide (candidate = "") then None else consume input "=" (skipSpace input o1)) = None) as Hnone.
  { intros Hs. by rewrite parseIdentifier_none. }
  assert (∀ i, identifier_text i → reads o i o' → let '(candidate, o1) := parseIdentifier input o in
    (if bool_decide (candidate = "") then None else consume input "=" (skipSpace input o1)) = None) as Hident.
  { intros i Hi Hri. assert (stops (rest o')) as (Hstop & _) by (rewrite E; apply stops_spaces; [done|set_solver]).
    rewrite (parseIdentifier_exact _ _ _ _ Hri Hi Hstop). rewrite bool_decide_eq_false_2 by apply Hi.
    destruct (reads_rest input o' sp _ E) as [Hsp1 Er].
    assert (skipSpace input o' = (o' + String.length sp)%nat) as ->.
    { apply (skipSpace_exact input o' sp); [done..|]. rewrite Er. rewrite !elem_of_cons in Hc.
      destruct_or!; subst; [by apply scan_ascii..|by apply elem_of_nil in Hc]. }
    apply (consume_none _ _ _ _ Er). intros t' [= -> _]. set_solver. }
  pose proof Hr as [_ Er].
  destruct Ht as [s v (q & body & -> & Hq & _) _| | |s Hi _ _|i b Hi Hb|s v Hi _|sp' _|body vs sp' _ _].
  - apply Hnone. rewrite Er. by destruct Hq as [-> | ->].
  - apply (Hident "true"); [apply true_identifier|done].
  - apply (Hident "false"); [apply false_identifier|done].
  - by apply (Hident s).
  - apply reads_split in Hr as [Hr1 [_ Er2]]. destruct Hb as (b' & -> & _). rewrite str_cons_app in Er2.
    rewrite (parseIdentifier_exact _ _ _ _ Hr1 Hi) by (rewrite Er2; by apply scan_ascii).
    rewrite bool_decide_eq_false_2 by apply Hi.
    assert (skipSpace input (o + String.length i) = (o + String.length i)%nat) as ->.
    { apply (skipSpace_exact input _ ""); [apply reads_nil|done|]. rewrite Er2. by apply scan_ascii. }
    apply (consume_none _ _ _ _ Er2). by intros t' [=].
  - apply Hnone. rewrite Er. destruct (integer_head s Hi) as (d & s' & -> & Hd). rewrite str_cons_app. by apply integer_start.
  - apply Hnone. by rewrite Er.
  - apply Hnone. by rewrite Er.
Qed.

(** An argument starts as its value or its name does. *)
Lemma argument_head t a :
  argument_text t a → ∃ c t', t = String c t' ∧ c ≠ ")"%char ∧ ∀ u, scan is_space (t +:+ u) = O.
Proof.
  destruct 1 as [t v Ht|i sp sp' t v Hi _ _ _].
  - destruct (value_head t v Ht) as (c & t' & ? & _ & ? & ?). by exists c, t'.
  - destruct (identifier_head i Hi) as (c & i' & -> & Hc). rewrite str_cons_app. eexists c, _. split_and!; [done|by apply Hc|].
    intros u. rewrite <-str_cons_app, str_app_assoc. by apply identifier_no_space.
Qed.

Lemma parseArgument_complete fuel prev a args seenNamed seenNames sp t o o' sp' c u :
  arguments_ordered (prev ++ a :: args) → seen prev seenNamed seenNames →
  spaces sp → argument_text t a → reads o (sp +:+ t) o' → (String.length input < fuel)%nat →
  rest o' = sp' +:+ String c u → spaces sp' → c ∈ [","%char; ")"%char] →
  ∃ named names, parseArgument input position fuel seenNamed seenNames o = Some (Ok (a, named, names, o')) ∧
    seen (prev ++ [a]) (seenNamed || named) names.
Proof.
  intros Hord [Hnames Hseen] Hsp Ht Hr Hfuel E Hsp' Hc.
  assert (stops (rest o')) as Hstop by (rewrite E; apply stops_spaces; [done|set_solver]).
  apply reads_split in Hr as [Hr1 Hr2].
  assert (skipSpace input o = (o + String.length sp)%nat) as Eo.
  { apply (skipSpace_exact input o sp); [done..|]. destruct Hr2 as [_ ->].
    by destruct (argument_head t a Ht) as (_ & _ & _ & _ & ->). }
  unfold parseArgument. rewrite Eo. set (o1 := (o + String.length sp)%nat) in *.
  destruct Ht as [t v Ht|i spi spe t v Hi Hspi Hspe Ht].
  - pose proof (no_name t v o1 o' sp' c u Ht Hr2 E Hsp' ltac:(set_solver)) as Hno.
    destruct (parseIdentifier input o1) as [i oi]. rewrite Hno.
    pose proof (ordered_positional prev _ args Hord eq_refl) as Hprev. rewrite Forall_forall in Hprev.
    destruct seenNamed; [destruct (Hseen eq_refl) as (b & Hb & Hne); by destruct Hne, (Hprev b Hb)|].
    rewrite (parseValue_complete t v Ht fuel o1 o'); [|lia|done..].
    exists false, seenNames. split; [done|]. split; [|done]. intros x Hx. rewrite fmap_app. set_solver.
  - apply reads_split in Hr2 as [Hi1 Hr2]. rewrite <-(str_app_assoc spi "=") in Hr2.
    apply reads_split in Hr2 as [Heq Hr2]. apply reads_split in Hr2 as [Hse Hr2].
    rewrite (parseIdentifier_exact _ _ _ _ Hi1 Hi).
    2: { destruct Heq as [_ ->]. rewrite str_app_assoc. apply stops_spaces; [done|set_solver]. }
    rewrite bool_decide_eq_false_2 by apply Hi.
    destruct (close_exact _ _ "="%char _ Heq Hspi) as (_ & -> & _); [done..|].
    pose proof (ordered_fresh prev _ args Hord) as Hfresh. simpl in Hfresh. specialize (Hfresh (proj1 Hi)).
    rewrite bool_decide_eq_false_2 by (intros Hin; by apply Hfresh, Hnames).
    assert (skipSpace input (o1 + String.length i + String.length (spi +:+ "="))%nat =
      (o1 + String.length i + String.length (spi +:+ "=") + String.length spe)%nat) as ->.
    { apply (skipSpace_exact input _ spe); [done..|]. destruct Hr2 as [_ ->].
      by destruct (value_head t v Ht) as (_ & _ & _ & _ & _ & ->). }
    rewrite (parseValue_complete t v Ht fuel _ o'); [|lia|done..].
    exists true, ({[i]} ∪ seenNames). split; [done|]. split.
    + intros x Hx. rewrite fmap_app. simpl. set_solver.
    + intros _. exists (mkArgument i v). split; [set_solver|]. apply Hi.
Qed.

Lemma arguments_head body args u o o' :
  arguments_text body args → reads o (body +:+ u) o' →
  ∃ c t, rest (skipSpace input o) = String c t ∧ c ≠ ")"%char.
Proof.
  intros Hb Hr. assert (∃ sp t a b, body +:+ u = sp +:+ t +:+ b ∧ spaces sp ∧ argument_text t a) as (sp & t & a & b & E & Hsp & Ht).
  { destruct Hb as [sp t a Hsp Ht|sp t a sp' body args Hsp Ht _ _]; [exists sp, t, a, u|exists sp, t, a, (sp' +:+ "," +:+ body +:+ u)];
      (split; [by rewrite ?str_app_assoc|done]). }
  rewrite E in Hr. apply reads_split in Hr as [Hr1 [_ Er]].
  destruct (argument_head t a Ht) as (c & t' & -> & Hc & Hsc).
  rewrite (skipSpace_exact input o sp _ Hr1 Hsp); [|by rewrite Er, str_app_assoc, Hsc].
  rewrite Er, !str_cons_app. eauto.
Qed.

(** One turn of the loop, up to the byte after the argument. *)
Lemma turn_complete prev a args seenNamed seenNames sp t sp' c o o' :
  arguments_ordered (prev ++ a :: args) → seen prev seenNamed seenNames →
  spaces sp → argument_text t a → spaces sp' → c ∈ [","%char; ")"%char] →
  reads o ((sp +:+ t) +:+ sp' +:+ str1 c) o' →
  ∃ named names o1,
    parseArgument input position (S (String.length input)) seenNamed seenNames (skipSpace input o) =
      Some (Ok (a, named, names, o1)) ∧ seen (prev ++ [a]) (seenNamed || named) names ∧
    consume input c (skipSpace input o1) = Some o' ∧ (∀ d, d ≠ c → consume input d (skipSpace input o1) = None) ∧
    (o < o')%nat ∧ (o < String.length input)%nat.
Proof.
  intros Hord Hseen Hsp Ht Hsp' Hc Hr.
  pose proof (reads_lt _ _ _ _ Hr) as [Hlt Hin]; [rewrite <-str_app_assoc; unfold str1; by destruct ((sp +:+ t) +:+ sp')|].
  apply reads_split in Hr as [Hr1 Hr2]. apply reads_split in Hr1 as [Hr0 Hrt].
  assert (skipSpace input o = (o + String.length sp)%nat) as ->.
  { apply (skipSpace_exact input o sp); [done..|]. destruct Hrt as [_ ->].
    by destruct (argument_head t a Ht) as (_ & _ & _ & _ & ->). }
  set (o1 := (o + String.length (sp +:+ t))%nat) in *. pose proof Hr2 as [_ E2]. unfold str1 in E2. rewrite str_app_assoc, str_cons_app in E2.
  destruct (parseArgument_complete (S (String.length input)) prev a args seenNamed seenNames "" t
    (o + String.length sp) o1 sp' c ("" +:+ rest o') Hord Hseen) as (named & names & Ea & Hseen'); [done..|lia|exact E2|done|set_solver|].
  exists named, names, o1. split; [done|]. split; [done|].
  assert ((byte_of c < 128)%N ∧ is_space (byte_of c) = false) as [Hb Hns].
  { rewrite !elem_of_cons in Hc. destruct_or!; subst; [done..|by apply elem_of_nil in Hc]. }
  by destruct (close_exact _ _ c _ Hr2 Hsp' Hb Hns) as (_ & ? & ?).
Qed.

Lemma parseArgumentsLoop_complete body args :
  arguments_text body args → ∀ fuel prev seenNamed seenNames sp o o',
  arguments_ordered (prev ++ args) → seen prev seenNamed seenNames → spaces sp →
  reads o (body +:+ sp +:+ ")") o' → (String.length input - o < fuel)%nat →
  parseArgumentsLoop input position fuel prev seenNamed seenNames (skipSpace input o) = Some (Ok (prev ++ args, o')).
Proof.
  induction 1 as [sp t a Hsp Ht|sp t a sp' body args Hsp Ht Hsp' Hb IH];
    intros [|fuel] prev seenNamed seenNames sp2 o o' Hord Hseen Hsp2 Hr Hfuel; [lia| |lia|]; cbn [parseArgumentsLoop].
  - destruct (turn_complete prev a [] seenNamed seenNames sp t sp2 ")" o o') as (named & names & o1 & -> & _ & -> & _);
      [done..|set_solver|done|done].
  - rewrite !str_app_assoc, <-(str_app_assoc sp t), <-(str_app_assoc sp' ","), <-(str_app_assoc (sp +:+ t)) in Hr.
    apply reads_split in Hr as [Hr1 Hr2]. set (o2 := (o + _)%nat) in *.
    destruct (turn_complete prev a args seenNamed seenNames sp t sp' "," o o2)
      as (named & names & o1 & -> & Hseen' & -> & Hno & Hlt & Hin); [done..|set_solver|done|].
    rewrite Hno by done. destruct (arguments_head body args _ _ _ Hb Hr2) as (c & u & Ec & Hc).
    rewrite (peek_head _ _ _ Ec), bool_decide_eq_false_2 by done.
    rewrite (IH fuel (prev ++ [a]) _ _ sp2 o2 o'); [by rewrite <-app_assoc|by rewrite <-app_assoc|done..|lia].
Qed.

(** ** Annotations are read *)

Lemma parseName_exact o s o' :
  reads o s o' → name_text s → scan name_rune (rest o') = O → parseName input o = (s, o').
Proof.
  intros Hr [_ Hall] Hstop. unfold parseName. rewrite (run_exact input _ o s o' name_error Hr Hall Hstop).
  destruct Hr as [-> E]. f_equal. by rewrite E, str_take_app.
Qed.

(** After the opening parenthesis of an annotation. *)
Lemma annotation_opened name sp1 tail o :
  input = "@" +:+ name +:+ sp1 +:+ "(" +:+ tail → name_text name → spaces sp1 →
  reads o tail (String.length input) → o = String.length ("@" +:+ name +:+ sp1 +:+ "(") →
  parseAnnotation input position =
    match consume input ")" (skipSpace input o) with
    | Some o => requireEnd input position (mkAnnotation name [] position "") o
    | None => match parseArguments input position (skipSpace input o) with
              | None => None
              | Some (Fail e) => Some (Fail e)
              | Some (Ok (arguments, o)) => requireEnd input position (mkAnnotation name arguments position "") o
              end
    end.
Proof.
  intros Ei Hname Hsp Htail Eo.
  assert (reads 0 ("@" +:+ name +:+ (sp1 +:+ "(")) o) as Hr.
  { split; [done|]. unfold Parser.rest at 1. rewrite str_drop_0, Ei at 1. destruct Htail as [_ Et].
    destruct (reads_rest input 0 ("@" +:+ name +:+ sp1 +:+ "(") tail) as [_ Er];
      [unfold Parser.rest; by rewrite str_drop_0, !str_app_assoc|]. rewrite Nat.add_0_l, <-Eo in Er. by rewrite Er, !str_app_assoc. }
  apply reads_split in Hr as [Hat Hr]. apply reads_split in Hr as [Hn Hr].
  unfold parseAnnotation. rewrite (proj2 (consume_spec input "@" 0 1) Hat).
  change (0 + String.length "@")%nat with 1%nat in *.
  rewrite (parseName_exact 1 name _ Hn Hname).
  2: { destruct Hr as [_ ->]. rewrite str_app_assoc. apply stops_spaces; [done|set_solver]. }
  rewrite bool_decide_eq_false_2 by apply Hname. cbv zeta.
  destruct (close_exact _ _ "("%char _ Hr Hsp) as (_ & Hc & _); [done..|].
  destruct (eof input (skipSpace input (1 + String.length name))) eqn:He; [unfold consume in Hc; by rewrite He in Hc|].
  by rewrite Hc.
Qed.

Lemma requireEnd_exact r o sp : reads o sp (String.length input) → spaces sp → requireEnd input position r o = Some (Ok r).
Proof.
  intros Hr Hsp. assert (rest (String.length input) = "") as Eend by by apply eof_spec, Nat.leb_le.
  unfold requireEnd. rewrite (skipSpace_exact input o sp _ Hr Hsp) by by rewrite Eend.
  by rewrite (proj2 (eof_spec input _) Eend).
Qed.

Lemma reads_suffix a b : input = a +:+ b → reads (String.length a) b (String.length input).
Proof.
  intros E. destruct (reads_rest input 0 a b) as [_ Er]; [by unfold Parser.rest; rewrite str_drop_0|].
  split; [rewrite E at 1; apply length_str_app|]. rewrite Nat.add_0_l in Er. rewrite Er.
  assert (rest (String.length input) = "") as -> by by apply eof_spec, Nat.leb_le. by rewrite str_app_nil_r.
Qed.

Lemma bare_complete name sp :
  input = "@" +:+ name +:+ sp → name_text name → spaces sp →
  parseAnnotation input position = Some (Ok (mkAnnotation name [] position "")).
Proof.
  intros E Hname Hsp. assert (reads 0 ("@" +:+ name +:+ sp) (String.length input)) as Hr by by apply (reads_suffix "").
  assert (rest (String.length input) = "") as Eend by by apply eof_spec, Nat.leb_le.
  apply reads_split in Hr as [Hat Hr]. pose proof Hr as [Hn Hs]%reads_split.
  unfold parseAnnotation. rewrite (proj2 (consume_spec input "@" 0 1) Hat). change (0 + String.length "@")%nat with 1%nat in *.
  rewrite (parseName_exact 1 name _ Hn Hname).
  2: { destruct Hs as [_ ->]. rewrite Eend, str_app_nil_r. destruct (decide (sp = "")) as [-> |Hne]; [done|].
       apply scan_space_stops; [apply name_rune_no_space|done|]. rewrite <-(str_app_nil_r sp). by apply spaces_first. }
  rewrite bool_decide_eq_false_2 by apply Hname. cbv zeta.
  rewrite (skipSpace_exact input _ sp _ Hs Hsp) by by rewrite Eend. by rewrite (proj2 (eof_spec input _) Eend).
Qed.

Lemma parseAnnotation_complete name args :
  annotation_text input name args → parseAnnotation input position = Some (Ok (mkAnnotation name args position "")).
Proof.
  remember input as text eqn:Et. intros Htext.
  destruct Htext as [name sp Hname Hsp|name sp1 sp2 sp3 Hname Hsp1 Hsp2 Hsp3|name sp1 body args sp2 sp3 Hname Hsp1 Hb Hord Hsp2 Hsp3];
    rewrite Et; symmetry in Et.
  - by eapply bare_complete.
  - pose proof (reads_suffix ("@" +:+ name +:+ sp1 +:+ "(") (sp2 +:+ ")" +:+ sp3)) as Hr.
    rewrite !str_app_assoc in Hr. specialize (Hr Et).
    rewrite (annotation_opened name sp1 (sp2 +:+ ")" +:+ sp3) _ Et Hname Hsp1 Hr eq_refl).
    rewrite <-(str_app_assoc sp2) in Hr. apply reads_split in Hr as [Hc Hs].
    destruct (close_exact _ _ ")"%char _ Hc Hsp2) as (_ & -> & _); [done..|]. by apply (requireEnd_exact _ _ sp3).
  - pose proof (reads_suffix ("@" +:+ name +:+ sp1 +:+ "(") (body +:+ sp2 +:+ ")" +:+ sp3)) as Hr.
    rewrite !str_app_assoc in Hr. specialize (Hr Et).
    rewrite (annotation_opened name sp1 _ _ Et Hname Hsp1 Hr eq_refl).
    destruct (arguments_head body args _ _ _ Hb Hr) as (c & u & Ec & Hc).
    rewrite (consume_none _ _ _ _ Ec) by by intros t' [= ? _].
    rewrite <-(str_app_assoc sp2 ")"), <-(str_app_assoc body) in Hr. apply reads_split in Hr as [Ha Hs].
    unfold parseArguments.
    erewrite (parseArgumentsLoop_complete body args Hb (S (String.length input)) [] false ∅ sp2 _ _ Hord); [|split; set_solver|done|exact Ha|lia].
    by apply (requireEnd_exact _ _ sp3).
Qed.
End complete.

(** ** Every spelling has one meaning *)

Lemma annotation_text_unique `{UnicodeLaws} body name1 args1 name2 args2 :
  annotation_text body name1 args1 → annotation_text body name2 args2 → name1 = name2 ∧ args1 = args2.
Proof.
  intros H1 H2. pose proof (parseAnnotation_complete body (mkPosition "" 0 0 0) _ _ H1) as E1.
  pose proof (parseAnnotation_complete body (mkPosition "" 0 0 0) _ _ H2) as E2. rewrite E1 in E2. by simplify_eq.
Qed.

Lemma annotation_text_at `{UnicodeTables} body name args : annotation_text body name args → has_prefix body "@" = true.
Proof. destruct 1; apply (has_prefix_app "@"). Qed.
