(* ===== verification/ImportParser.v ===== *)
(** Annotation imports in comments (src/compiler/parser/import.go):
    [ParseImportComment] and its parser, over the primitive steps that
    Parser.v has. As there, the text and the position are parameters and the
    offset is threaded through the calls. *)
From S2P Require Import Prelude GoSort GoStrings GoStrconv Provider Annotation Parser.

Definition importDirectiveName : string := "@import".
Definition legacyImportDirectiveName : string := "@spice.import".

Definition legacy_import_text : string := "@spice.import is no longer supported; replace it with @import".
Definition errLegacyImportDirective : error := ErrSentinel legacy_import_text.
Definition IsLegacyImportError (e : error) : bool := error_is e legacy_import_text.

(** The byte after the name is taken as a rune of its own. *)
Definition directivePrefix (input name : string) : bool :=
  has_prefix input name &&
  (bool_decide (String.length input = String.length name) ||
   from_option (λ c, is_space (byte_of c)) false (str_get (String.length name) input)).

Definition exportedIdentifier `{UnicodeTables} (value : string) : bool := is_upper (decode_rune value).1.

(** The message of the first rule that the path breaks. *)
Definition validateAnnotationImportPath (value : string) : option string :=
  if bool_decide (value = "") then Some "annotation import package must not be empty"
  else if negb (bool_decide (trim_space value = value))
  then Some "annotation import package must not contain surrounding whitespace"
  else if contains value (str1 backslash) then Some "annotation import package must use '/' separators"
  else if has_prefix value "." || has_prefix value "/"
  then Some "annotation import package must be an absolute Go import path"
  else if contains value "//" then Some "annotation import package contains an empty path segment"
  else None.

Section import.
Context `{UnicodeTables} (input : string) (position : Position).

Definition import_errorf {A} (message : string) (offset : nat) : outcome error A :=
  let column := if (Column position <=? 0)%Z then 1%Z else Column position in
  Fail (ErrNew (Filename position +:+ ":" +:+ itoa (Line position `max` 1) +:+ ":" +:+
    itoa (column + Z.of_nat offset) +:+ ": " +:+ message)).

Definition import_rune (r : N) : bool := is_letter r || is_digit r || (r =? 95)%N.

(** [parseIdentifier] of the import parser. *)
Definition parseImportIdentifier (offset : nat) : string * nat :=
  if eof input offset then ("", offset)
  else
    let '(r, size) := decode_rune (rest input offset) in
    if negb (identifier_start r) then ("", offset)
    else
      let width := (size + scan import_rune (rest input (offset + size)))%nat in
      (str_take width (rest input offset), (offset + width)%nat).

(** The offset after the word, when it is next and ends there. *)
Definition consumeWord (word : string) (offset : nat) : option nat :=
  if negb (has_prefix (rest input offset) word) then None
  else
    let ending := (offset + String.length word)%nat in
    if (ending <? String.length input)%nat && import_rune (decode_rune (rest input ending)).1 then None
    else Some ending.

(** The offset after the spaces, when there are some. *)
Definition requireSpace (offset : nat) : option nat :=
  let o := skipSpace input offset in if (offset <? o)%nat then Some o else None.

Definition parseQuotedString (offset : nat) : outcome error (string * nat) :=
  if negb (bool_decide (peek input offset = dquote)) && negb (bool_decide (peek input offset = backquote))
  then import_errorf "annotation import package must be a Go string" offset
  else
    let quote := peek input offset in
    match string_end quote (rest input (S offset)) with
    | Some n =>
        match unquote (str_take (S n) (rest input offset)) with
        | Some value => Ok (value, (S offset + n)%nat)
        | None => import_errorf "invalid annotation import package: invalid syntax" (S offset + n)
        end
    | None => import_errorf "unterminated annotation import package" (String.length input)
    end.

Definition parseFromPackage (offset : nat) : outcome error string :=
  let message := "annotation import requires 'from " +:+ str1 dquote +:+ "package/path" +:+ str1 dquote +:+ "'" in
  match requireSpace offset with
  | None => import_errorf message offset
  | Some o =>
      match consumeWord "from" o with
      | None => import_errorf message o
      | Some o =>
          match requireSpace o with
          | None => import_errorf message o
          | Some o =>
              match parseQuotedString o with
              | Fail e => Fail e
              | Ok (packagePath, o) =>
                  let o := skipSpace input o in
                  if negb (eof input o) then import_errorf "unexpected trailing annotation import content" o
                  else match validateAnnotationImportPath packagePath with
                       | Some err => import_errorf err o
                       | None => Ok packagePath
                       end
              end
          end
      end
  end.

Definition parseNamespace (offset : nat) : outcome error ImportDirective :=
  let message := "namespace annotation import requires '* as alias'" in
  match requireSpace offset with
  | None => import_errorf message offset
  | Some o =>
      match consumeWord "as" o with
      | None => import_errorf message o
      | Some o =>
          match requireSpace o with
          | None => import_errorf message o
          | Some o =>
              let '(namespace, o) := parseImportIdentifier o in
              if bool_decide (namespace = "") || bool_decide (namespace = "_")
              then import_errorf "namespace annotation import requires a usable alias" o
              else match parseFromPackage o with
                   | Fail e => Fail e
                   | Ok packagePath => Ok (mkDirective ImportNamespace packagePath namespace [] position "")
                   end
          end
      end
  end.

(** One binding of the loop of [parseNamed]: the binding, and the offset
    where the next byte is looked at. *)
Definition parseBinding (seenImported : gset string) (offset : nat) : outcome error (ImportBinding * nat) :=
  let '(imported, o) := parseImportIdentifier offset in
  if bool_decide (imported = "") || bool_decide (imported = "_") || negb (exportedIdentifier imported)
  then import_errorf "named annotation imports require exported descriptor symbols" o
  else if bool_decide (imported ∈ seenImported)
  then import_errorf ("annotation import repeats symbol " +:+ go_quote imported) o
  else
    let o := skipSpace input o in
    match consumeWord "as" o with
    | None => Ok (mkBinding imported imported, skipSpace input o)
    | Some o =>
        match requireSpace o with
        | None => import_errorf "annotation import alias requires a local name" o
        | Some o =>
            let '(local, o) := parseImportIdentifier o in
            if bool_decide (local = "") || bool_decide (local = "_")
            then import_errorf "annotation import alias requires a usable local name" o
            else Ok (mkBinding imported local, skipSpace input o)
        end
    end.

(** The loop of [parseNamed]: the bindings, and the offset after the brace. *)
Fixpoint namedLoop (fuel : nat) (bindings : list ImportBinding) (seenImported : gset string) (offset : nat)
    : option (outcome error (list ImportBinding * nat)) :=
  match fuel with
  | O => None
  | S fuel' =>
      match parseBinding seenImported offset with
      | Fail e => Some (Fail e)
      | Ok (binding, o) =>
          let bindings := bindings ++ [binding] in
          match consume input "}" o with
          | Some o => Some (Ok (bindings, o))
          | None =>
              match consume input "," o with
              | None => Some (import_errorf "expected ',' or '}' in named annotation import" o)
              | Some o =>
                  let o := skipSpace input o in
                  if bool_decide (peek input o = "}"%char)
                  then Some (import_errorf "trailing commas are not supported in annotation imports" o)
                  else namedLoop fuel' bindings ({[ib_Imported binding]} ∪ seenImported) o
              end
          end
      end
  end.

Definition parseNamed (offset : nat) : option (outcome error ImportDirective) :=
  let o := skipSpace input offset in
  match consume input "}" o with
  | Some o => Some (import_errorf "named annotation import requires at least one symbol" o)
  | None =>
      match namedLoop (S (String.length input)) [] ∅ o with
      | None => None
      | Some (Fail e) => Some (Fail e)
      | Some (Ok (bindings, o)) =>
          match parseFromPackage o with
          | Fail e => Some (Fail e)
          | Ok packagePath => Some (Ok (mkDirective ImportNamed packagePath "" bindings position ""))
          end
      end
  end.

(** [importParser.parse], after the name of the directive. *)
Definition parseImport (offset : nat) : option (outcome error ImportDirective) :=
  match requireSpace offset with
  | None => Some (import_errorf "annotation import requires a binding clause" offset)
  | Some o =>
      match consume input "*" o with
      | Some o => Some (parseNamespace o)
      | None =>
          match consume input "{" o with
          | Some o => parseNamed o
          | None => Some (import_errorf "annotation import requires '{ ... }' or '* as alias'" o)
          end
      end
  end.
End import.

(** [ParseImportComment]: [Ok None] for a line without an import. *)
Definition ParseImportComment `{UnicodeTables} (input : string) (position : Position)
    : option (outcome error (option ImportDirective)) :=
  let '(body, position, comment) := annotationCommentBody input position in
  if negb comment then Some (Ok None)
  else if directivePrefix body legacyImportDirectiveName then Some (Fail errLegacyImportDirective)
  else if negb (directivePrefix body importDirectiveName) then Some (Ok None)
  else match parseImport body position (String.length importDirectiveName) with
       | None => None
       | Some (Fail e) => Some (Fail e)
       | Some (Ok d) => Some (Ok (Some (mkDirective (im_Kind d) (im_Package d) (im_Namespace d) (im_Bindings d)
                                          (im_Position d) input)))
       end.
