(* ===== verification/ImportGrammar.v ===== *)
(** The grammar of annotation imports, stated without the parser, and that the
    import parser accepts exactly what it spells. *)
From S2P Require Import Prelude GoSort GoStrings Provider GoStrconv Annotation Parser ParserGrammar ParserLex ParserSound ParserComplete ImportParser.

(** ** The grammar *)

Definition blanks (s : string) : Prop := spaces s ∧ s ≠ "".

Section grammar.
Context `{UnicodeTables}.

Definition usable (s : string) : Prop := word_text import_rune s ∧ s ≠ "_".

Inductive binding_text : string → ImportBinding → Prop :=
  | binding_same i : usable i → exportedIdentifier i = true → binding_text i (mkBinding i i)
  | binding_as i sp sp' l :
      usable i → exportedIdentifier i = true → blanks sp → blanks sp' → usable l →
      binding_text (i +:+ sp +:+ "as" +:+ sp' +:+ l) (mkBinding i l).

Inductive bindings_text : string → list ImportBinding → Prop :=
  | bindings_one sp t b : spaces sp → binding_text t b → bindings_text (sp +:+ t) [b]
  | bindings_more sp t b sp' body bs :
      spaces sp → binding_text t b → spaces sp' → bindings_text body bs →
      bindings_text (sp +:+ t +:+ sp' +:+ "," +:+ body) (b :: bs).

Inductive from_text : string → string → Prop :=
  | from_package sp sp' t path sp'' :
      blanks sp → blanks sp' → literal t → unquote t = Some path → spaces sp'' →
      validateAnnotationImportPath path = None →
      from_text (sp +:+ "from" +:+ sp' +:+ t +:+ sp'') path.

Inductive clause_text : string → string → string → string → list ImportBinding → Prop :=
  | clause_namespace sp sp' alias from package :
      blanks sp → blanks sp' → usable alias → from_text from package →
      clause_text ("*" +:+ sp +:+ "as" +:+ sp' +:+ alias +:+ from) ImportNamespace package alias []
  | clause_named body bs sp from package :
      bindings_text body bs → NoDup (ib_Imported <$> bs) → spaces sp → from_text from package →
      clause_text ("{" +:+ body +:+ sp +:+ "}" +:+ from) ImportNamed package "" bs.

(** The space that ends the name of the directive is an ASCII one. *)
Inductive import_text : string → ImportDirective → Prop :=
  | import_clause c sp clause d :
      is_space (byte_of c) = true → (byte_of c < 128)%N → spaces sp →
      clause_text clause (im_Kind d) (im_Package d) (im_Namespace d) (im_Bindings d) →
      import_text ("@import" +:+ String c sp +:+ clause) d.
End grammar.

Lemma scan_zero p t : scan p t = O ↔ t = "" ∨ p (decode_rune t).1 = false.
Proof.
  rewrite scan_eq. case_bool_decide as Ht; [naive_solver|]. pose proof (decode_width t Ht).
  destruct (decode_rune t) as [r w]. simpl in *. destruct (p r); [|naive_solver]. split; [lia|naive_solver].
Qed.

Section sound.
Context `{UnicodeTables} `{!UnicodeLaws} (input : string) (position : Position).

Notation rest := (rest input).
Notation reads := (reads input).

Lemma import_error : import_rune rune_error = false.
Proof.
  unfold import_rune, is_letter, is_digit. change (rune_error <? 128)%N with false. cbv iota.
  by rewrite error_not_letter, error_not_digit.
Qed.
Lemma start_import r : identifier_start r = true → import_rune r = true.
Proof. unfold identifier_start, import_rune. rewrite orb_true_iff. by intros [-> | ->]; rewrite ?orb_true_r. Qed.
Lemma import_rune_no_space r : import_rune r = true → is_space r = false.
Proof.
  unfold import_rune. rewrite !orb_true_iff, N.eqb_eq. intros [[Hl|Hd]|Hr];
    [by apply letter_no_space|by apply digit_no_space|by subst r].
Qed.

(** ** Single steps *)

Lemma requireSpace_spec o o' :
  requireSpace input o = Some o' ↔ (∃ sp, blanks sp ∧ reads o sp o') ∧ scan is_space (rest o') = O.
Proof.
  unfold requireSpace. cbv zeta. destruct (skipSpace_reads input o) as (sp & Hr & Hsp & Hstop). split.
  - destruct (Nat.ltb_spec o (skipSpace input o)); [|done]. intros [= <-]. split; [|done]. exists sp.
    split; [|done]. split; [done|]. intros ->. destruct Hr as [E _]. simpl in E. lia.
  - intros [(sp' & [Hsp' Hne] & Hr') Hs]. rewrite (skipSpace_exact input o sp' o' Hr' Hsp' Hs).
    destruct (reads_lt input _ _ _ Hr' Hne) as [Hlt _]. by apply Nat.ltb_lt in Hlt as ->.
Qed.

Lemma consumeWord_spec word o o' :
  consumeWord input word o = Some o' ↔ reads o word o' ∧ scan import_rune (rest o') = O.
Proof.
  unfold consumeWord. cbv zeta. destruct (has_prefix (rest o) word) eqn:Hp; cbn [negb].
  - apply has_prefix_spec in Hp as [t E]. destruct (reads_rest input o word t E) as [Hr Et].
    destruct (Nat.ltb_spec (o + String.length word) (String.length input)) as [Hlt|Hge]; cbn [andb].
    + assert (rest (o + String.length word) ≠ "") as Hne.
      { intros Ee%eof_spec. unfold eof in Ee. apply Nat.leb_le in Ee. lia. }
      destruct (import_rune _) eqn:Hi.
      * split; [done|]. intros [Hr' [He|Hs]%scan_zero]; rewrite (reads_inv _ _ _ _ Hr') in *; congruence.
      * split; [intros [= <-]; split; [done|apply scan_zero; by right]|]. intros [Hr' _]. f_equal. symmetry. by eapply reads_inv.
    + assert (rest (o + String.length word) = "") as Ee by by apply eof_spec, Nat.leb_le.
      split; [intros [= <-]; split; [done|by rewrite Ee]|]. intros [Hr' _]. f_equal. symmetry. by eapply reads_inv.
  - split; [done|]. intros [[_ E] _]. rewrite E in Hp. by rewrite has_prefix_app in Hp.
Qed.

Lemma importIdentifier_spec o s o1 :
  parseImportIdentifier input o = (s, o1) →
  (s = "" ∧ o1 = o ∧ identifier_start (decode_rune (rest o)).1 = false) ∨
  (word_text import_rune s ∧ reads o s o1 ∧ scan import_rune (rest o1) = O).
Proof. apply (word_spec input import_rune start_import import_error). Qed.

Lemma importIdentifier_exact o s o1 :
  reads o s o1 → word_text import_rune s → scan import_rune (rest o1) = O → parseImportIdentifier input o = (s, o1).
Proof. apply (word_exact input import_rune start_import import_error). Qed.

Lemma importIdentifier_usable o s o1 :
  parseImportIdentifier input o = (s, o1) → bool_decide (s = "") || bool_decide (s = "_") = false →
  usable s ∧ reads o s o1.
Proof.
  intros Hp [Hn%bool_decide_eq_false Hu%bool_decide_eq_false]%orb_false_iff.
  by apply importIdentifier_spec in Hp as [(-> & _)|(Hs & Hr & _)].
Qed.

Lemma quoted_string o v o1 :
  parseQuotedString input position o = Ok (v, o1) ↔
  (peek input o = dquote ∨ peek input o = backquote) ∧ parseString input position o = Some (Ok (v, o1)).
Proof.
  unfold parseQuotedString, parseString. cbv zeta.
  destruct (negb (bool_decide (peek input o = dquote)) && negb (bool_decide (peek input o = backquote))) eqn:Hq.
  - apply andb_true_iff in Hq. rewrite !negb_true_iff, !bool_decide_eq_false in Hq. split; [done|]. naive_solver.
  - apply andb_false_iff in Hq. rewrite !negb_false_iff, !bool_decide_eq_true in Hq.
    destruct (string_end _ _) as [n|]; [|naive_solver]. destruct (unquote _); naive_solver.
Qed.

Lemma parseFromPackage_sound o path :
  parseFromPackage input position o = Ok path → ∃ text o', from_text text path ∧ reads o text o' ∧ rest o' = "".
Proof.
  unfold parseFromPackage. cbv zeta. destruct (requireSpace input o) as [o1|] eqn:H1; [|done].
  apply requireSpace_spec in H1 as [(sp & Hsp & Hr1) _].
  destruct (consumeWord input "from" o1) as [o2|] eqn:H2; [|done]. apply consumeWord_spec in H2 as [Hr2 _].
  destruct (requireSpace input o2) as [o3|] eqn:H3; [|done]. apply requireSpace_spec in H3 as [(sp' & Hsp' & Hr3) _].
  destruct (parseQuotedString input position o3) as [[v o4]|e] eqn:H4; [|done].
  apply quoted_string in H4 as [Hq H4]. apply parseString_spec in H4 as (t & Ht & Hu & Hr4); [|done].
  destruct (skipSpace_reads input o4) as (sp'' & Hr5 & Hsp'' & _).
  destruct (eof input (skipSpace input o4)) eqn:He; cbn [negb]; [|done].
  destruct (validateAnnotationImportPath v) eqn:Hv; [done|]. intros [= ->].
  exists (sp +:+ "from" +:+ sp' +:+ t +:+ sp''), (skipSpace input o4). split; [by constructor|].
  split; [|by apply eof_spec]. by repeat (eapply reads_app; [eassumption|]).
Qed.

Lemma parseNamespace_sound o d :
  parseNamespace input position o = Ok d →
  ∃ text o', reads o text o' ∧ rest o' = "" ∧ im_Position d = position ∧ im_Raw d = "" ∧
    clause_text ("*" +:+ text) (im_Kind d) (im_Package d) (im_Namespace d) (im_Bindings d).
Proof.
  unfold parseNamespace. cbv zeta. destruct (requireSpace input o) as [o1|] eqn:H1; [|done].
  apply requireSpace_spec in H1 as [(sp & Hsp & Hr1) _].
  destruct (consumeWord input "as" o1) as [o2|] eqn:H2; [|done]. apply consumeWord_spec in H2 as [Hr2 _].
  destruct (requireSpace input o2) as [o3|] eqn:H3; [|done]. apply requireSpace_spec in H3 as [(sp' & Hsp' & Hr3) _].
  destruct (parseImportIdentifier input o3) as [alias o4] eqn:H4. destruct (_ || _) eqn:Hb; [done|].
  destruct (importIdentifier_usable _ _ _ H4 Hb) as [Ha Hr4].
  destruct (parseFromPackage input position o4) as [path|e] eqn:H5; [|done]. intros [= <-].
  apply parseFromPackage_sound in H5 as (text & o5 & Hf & Hr5 & He).
  exists (sp +:+ "as" +:+ sp' +:+ alias +:+ text), o5. split; [by repeat (eapply reads_app; [eassumption|])|].
  split_and!; [done..|]. by constructor.
Qed.

(** ** Named imports *)

Lemma parseBinding_sound seen o b o' :
  parseBinding input position seen o = Ok (b, o') →
  ib_Imported b ∉ seen ∧ ∃ t sp, binding_text t b ∧ spaces sp ∧ t ≠ "" ∧ reads o (t +:+ sp) o'.
Proof.
  unfold parseBinding. destruct (parseImportIdentifier input o) as [i o1] eqn:Hi.
  destruct (bool_decide (i = "") || bool_decide (i = "_")) eqn:Hb; [done|]. cbn [orb].
  destruct (importIdentifier_usable _ _ _ Hi Hb) as [Hu Hr1].
  destruct (exportedIdentifier i) eqn:Hexp; [|done]. cbn [negb].
  destruct (bool_decide (i ∈ seen)) eqn:Hseen; [done|]. apply bool_decide_eq_false in Hseen. cbv zeta.
  destruct (skipSpace_reads input o1) as (sp & Hr2 & Hsp & _).
  assert (i ≠ "") as Hne by apply Hu.
  destruct (consumeWord input "as" (skipSpace input o1)) as [o2|] eqn:Has.
  - apply consumeWord_spec in Has as [Hr3 _].
    destruct (requireSpace input o2) as [o3|] eqn:H3; [|done]. apply requireSpace_spec in H3 as [(sp' & Hsp' & Hr4) _].
    destruct (parseImportIdentifier input o3) as [l o4] eqn:Hl. destruct (bool_decide (l = "") || _) eqn:Hb2; [done|].
    destruct (importIdentifier_usable _ _ _ Hl Hb2) as [Hul Hr5]. intros [= <- <-]. split; [done|].
    destruct (skipSpace_reads input o4) as (sp2 & Hr6 & Hsp2 & _).
    assert (sp ≠ "") as Hspne.
    { intros ->. apply importIdentifier_spec in Hi as [(-> & _)|(_ & _ & Hstop)]; [done|].
      destruct Hr2 as [E2 _]. destruct Hr3 as [_ E3]. rewrite E2, Nat.add_0_r in E3. rewrite E3 in Hstop.
      apply scan_zero in Hstop as [?|Hstop]; [done|]. by rewrite !str_cons_app, decode_ascii in Hstop. }
    exists (i +:+ sp +:+ "as" +:+ sp' +:+ l), sp2. split; [by constructor|]. split; [done|].
    split; [by destruct i|]. rewrite !str_app_assoc. by repeat (eapply reads_app; [eassumption|]).
  - intros [= <- <-]. split; [done|]. destruct (skipSpace_reads input (skipSpace input o1)) as (sp2 & Hr3 & Hsp2 & _).
    exists i, (sp +:+ sp2). split; [by constructor|]. split; [by apply spaces_app|]. split; [done|].
    by repeat (eapply reads_app; [eassumption|]).
Qed.

Lemma bindings_spaces sp body bs : spaces sp → bindings_text body bs → bindings_text (sp +:+ body) bs.
Proof. intros Hsp. destruct 1; rewrite <-str_app_assoc; constructor; try done; by apply spaces_app. Qed.

Lemma namedLoop_sound fuel prev seen o bs o' :
  (∀ x, x ∈ seen ↔ x ∈ ib_Imported <$> prev) → NoDup (ib_Imported <$> prev) →
  namedLoop input position fuel prev seen o = Some (Ok (bs, o')) →
  ∃ body more sp, bs = prev ++ more ∧ bindings_text body more ∧ NoDup (ib_Imported <$> bs) ∧ spaces sp ∧
    reads o (body +:+ sp +:+ "}") o'.
Proof.
  revert prev seen o. induction fuel as [|fuel IH]; intros prev seen o Hseen Hnd; cbn [namedLoop]; [done|].
  destruct (parseBinding input position seen o) as [[b o1]|e] eqn:Hb; [|done].
  apply parseBinding_sound in Hb as (Hfresh & t & sp & Ht & Hsp & Hne & Hr). rewrite Hseen in Hfresh. cbv zeta.
  assert (NoDup (ib_Imported <$> prev ++ [b])) as Hnd'.
  { rewrite fmap_app. apply NoDup_app. split_and!; [done| |apply NoDup_singleton]. simpl. set_solver. }
  destruct (consume input "}" o1) as [o2|] eqn:Hc.
  { intros [= <- <-]. apply consume_spec in Hc. exists t, [b], sp. split; [done|]. split; [by apply (bindings_one "" t b)|].
    split; [done|]. split; [done|]. rewrite <-str_app_assoc. by eapply reads_app. }
  destruct (consume input "," o1) as [o2|] eqn:Hc2; [|done]. apply consume_spec in Hc2.
  destruct (skipSpace_reads input o2) as (sp2 & Hr2 & Hsp2 & _). case_bool_decide; [done|].
  intros (body & more & sp3 & -> & Hbody & Hnd2 & Hsp3 & Hr3)%IH; [| |done].
  - exists (t +:+ sp +:+ "," +:+ sp2 +:+ body), (b :: more), sp3. split; [by rewrite <-app_assoc|].
    split; [apply (bindings_more "" t b sp); [done..|by apply bindings_spaces]|]. split; [done|]. split; [done|].
    rewrite !str_app_assoc. apply reads_split in Hr as [? ?]. by repeat (eapply reads_app; [eassumption|]).
  - intros x. rewrite fmap_app. set_solver.
Qed.

Lemma namedLoop_total fuel prev seen o :
  (String.length input - o < fuel)%nat → namedLoop input position fuel prev seen o ≠ None.
Proof.
  revert prev seen o. induction fuel as [|fuel IH]; intros prev seen o Hfuel; [lia|]. cbn [namedLoop].
  destruct (parseBinding input position seen o) as [[b o1]|e] eqn:Hb; [|done]. cbv zeta.
  apply parseBinding_sound in Hb as (_ & t & sp & _ & _ & Hne & Hr).
  apply reads_lt in Hr as [Hlt Hin]; [|by destruct t].
  destruct (consume input "}" o1); [done|]. destruct (consume input "," o1) as [o2|] eqn:Hc; [|done].
  apply consume_spec in Hc as [-> _]. case_bool_decide; [done|]. apply IH. unfold skipSpace. simpl. lia.
Qed.

Lemma parseNamed_sound o d :
  parseNamed input position o = Some (Ok d) →
  ∃ text o', reads o text o' ∧ rest o' = "" ∧ im_Position d = position ∧ im_Raw d = "" ∧
    clause_text ("{" +:+ text) (im_Kind d) (im_Package d) (im_Namespace d) (im_Bindings d).
Proof.
  unfold parseNamed. cbv zeta. destruct (skipSpace_reads input o) as (sp & Hr & Hsp & _).
  destruct (consume input "}" _); [done|].
  destruct (namedLoop input position _ _ _ _) as [[[bs o1]|e]|] eqn:Hl; [|done..].
  apply namedLoop_sound in Hl as (body & more & sp2 & -> & Hb & Hnd & Hsp2 & Hr2); [|set_solver|constructor].
  destruct (parseFromPackage input position o1) as [path|e] eqn:Hf; [|done]. intros [= <-].
  apply parseFromPackage_sound in Hf as (text & o2 & Hf & Hr3 & He).
  exists ((sp +:+ body) +:+ sp2 +:+ "}" +:+ text), o2. split.
  - rewrite !str_app_assoc. apply reads_split in Hr2 as [? Hr2]. apply reads_split in Hr2 as [? ?].
    by repeat (eapply reads_app; [eassumption|]).
  - split_and!; [done..|]. constructor; try done. by apply bindings_spaces.
Qed.

Lemma parseImport_sound o d :
  parseImport input position o = Some (Ok d) →
  ∃ sp clause o', blanks sp ∧ reads o (sp +:+ clause) o' ∧ rest o' = "" ∧ im_Position d = position ∧ im_Raw d = "" ∧
    clause_text clause (im_Kind d) (im_Package d) (im_Namespace d) (im_Bindings d).
Proof.
  unfold parseImport. destruct (requireSpace input o) as [o1|] eqn:H1; [|done].
  apply requireSpace_spec in H1 as [(sp & Hsp & Hr) _].
  destruct (consume input "*" o1) as [o2|] eqn:Hc.
  - apply consume_spec in Hc. intros [= Hn]. apply parseNamespace_sound in Hn as (text & o3 & Hr2 & ? & ? & ? & ?).
    exists sp, ("*" +:+ text), o3. split_and!; try done. all: by repeat (eapply reads_app; [eassumption|]).
  - destruct (consume input "{" o1) as [o2|] eqn:Hc2; [|done]. apply consume_spec in Hc2.
    intros (text & o3 & Hr2 & ? & ? & ? & ?)%parseNamed_sound.
    exists sp, ("{" +:+ text), o3. split_and!; try done. all: by repeat (eapply reads_app; [eassumption|]).
Qed.

Lemma parseImport_total o : parseImport input position o ≠ None.
Proof.
  unfold parseImport. destruct (requireSpace input o) as [o1|]; [|done]. destruct (consume input "*" o1); [done|].
  destruct (consume input "{" o1) as [o2|]; [|done]. unfold parseNamed. cbv zeta. destruct (consume input "}" _); [done|].
  pose proof (namedLoop_total (S (String.length input)) [] ∅ (skipSpace input o2) ltac:(lia)).
  destruct (namedLoop _ _ _ _ _ _) as [[[bs o3]|e]|]; [|done..]. by destruct (parseFromPackage _ _ _).
Qed.
End sound.

Section complete.
Context `{UnicodeTables} `{!UnicodeLaws} (input : string) (position : Position).

Notation rest := (rest input).
Notation reads := (reads input).

(** ** What follows a token *)

Lemma blanks_stop sp t : blanks sp → scan import_rune (sp +:+ t) = O.
Proof.
  intros [Hsp Hne]. apply scan_space_stops; [apply import_rune_no_space|by destruct sp|by apply spaces_first].
Qed.

Lemma byte_stops sp c t :
  spaces sp → c ∈ [","%char; "}"%char] → scan import_rune (sp +:+ String c t) = O.
Proof.
  intros Hsp Hc. destruct (decide (sp = "")) as [->|Hne]; [|by apply blanks_stop].
  rewrite str_nil_app. rewrite !elem_of_cons in Hc. destruct_or!; subst; [by apply scan_ascii..|by apply elem_of_nil in Hc].
Qed.

Lemma closer_no_space c t : c ∈ [","%char; "}"%char] → scan is_space (String c t) = O.
Proof.
  rewrite !elem_of_cons. intros Hc. destruct_or!; subst; [by apply scan_ascii..|by apply elem_of_nil in Hc].
Qed.

Lemma word_no_space s t : word_text import_rune s → scan is_space (s +:+ t) = O.
Proof.
  intros Hs. pose proof Hs as (Hne & Hst & _). apply scan_zero. right.
  rewrite (word_first import_rune) by done. by apply import_rune_no_space, start_import.
Qed.

(** Spaces, the word and spaces, before a text that is not a space. *)
Lemma word_between sp word sp' o o' :
  reads o (sp +:+ word +:+ sp') o' → blanks sp → blanks sp' → (∀ t, scan is_space (word +:+ t) = O) →
  scan is_space (rest o') = O →
  ∃ o1 o2, requireSpace input o = Some o1 ∧ consumeWord input word o1 = Some o2 ∧ requireSpace input o2 = Some o'.
Proof.
  intros Hr Hsp Hsp' Hw Hstop. apply reads_split in Hr as [Hr1 Hr]. apply reads_split in Hr as [Hr2 Hr3].
  exists (o + String.length sp)%nat, (o + String.length sp + String.length word)%nat. split_and!.
  - apply requireSpace_spec. split; [by exists sp|]. destruct Hr2 as [_ ->]. apply Hw.
  - apply consumeWord_spec. split; [done|]. destruct Hr3 as [_ ->]. by apply blanks_stop.
  - apply requireSpace_spec. split; [by exists sp'|done].
Qed.

(** ** The package *)

Lemma literal_head t u : literal t → ∃ c v, t +:+ u = String c v ∧ (c = dquote ∨ c = backquote) ∧ scan is_space (t +:+ u) = O.
Proof.
  intros (q & body & -> & Hq & _). exists q, (body +:+ u). rewrite str_cons_app. split_and!; [done..|].
  by destruct Hq as [-> | ->]; apply scan_ascii.
Qed.

Lemma parseFromPackage_complete o text path o' :
  from_text text path → reads o text o' → rest o' = "" → parseFromPackage input position o = Ok path.
Proof.
  destruct 1 as [sp sp' t path sp'' Hsp Hsp' Ht Hu Hsp'' Hv]. intros Hr He.
  rewrite <-(str_app_assoc "from"), <-(str_app_assoc sp) in Hr. apply reads_split in Hr as [Hr1 Hr].
  apply reads_split in Hr as [Hr2 Hr3]. pose proof Hr2 as [_ E2].
  edestruct (literal_head t) as (c & v & Ec & Hc & Hns); [done|]. rewrite Ec in E2.
  destruct (word_between sp "from" sp' o _ Hr1 Hsp Hsp') as (o1 & o2 & H1 & H2 & H3); [intros u; by apply scan_ascii|by rewrite E2, <-Ec|].
  unfold parseFromPackage. rewrite H1, H2, H3.
  erewrite (proj2 (quoted_string input position _ path _)).
  2: { split; [rewrite (peek_head _ _ _ _ E2); exact Hc|]. by apply (parseString_exact _ _ _ t). }
  cbv zeta. rewrite (skipSpace_exact _ _ sp'' _ Hr3 Hsp'') by by rewrite He.
  rewrite (proj2 (eof_spec input _) He). cbn [negb]. by rewrite Hv.
Qed.

Lemma from_blank text path : from_text text path → ∃ sp u, blanks sp ∧ text = sp +:+ u.
Proof. destruct 1; eauto. Qed.

Lemma parseNamespace_complete o sp sp' alias from package o' :
  blanks sp → blanks sp' → usable alias → from_text from package →
  reads o (sp +:+ "as" +:+ sp' +:+ alias +:+ from) o' → rest o' = "" →
  parseNamespace input position o = Ok (mkDirective ImportNamespace package alias [] position "").
Proof.
  intros Hsp Hsp' [Ha Hne] Hf Hr He.
  rewrite <-(str_app_assoc "as"), <-(str_app_assoc sp) in Hr. apply reads_split in Hr as [Hr1 Hr].
  apply reads_split in Hr as [Hr2 Hr3].
  destruct (word_between sp "as" sp' o _ Hr1 Hsp Hsp') as (o1 & o2 & H1 & H2 & H3).
  { intros u. by apply scan_ascii. }
  { destruct Hr2 as [_ ->]. by apply word_no_space. }
  unfold parseNamespace. rewrite H1, H2, H3. cbv zeta.
  rewrite (importIdentifier_exact _ _ _ _ Hr2 Ha).
  2: { destruct Hr3 as [_ ->]. destruct (from_blank _ _ Hf) as (sp2 & u & Hsp2 & ->). rewrite str_app_assoc. by apply blanks_stop. }
  rewrite !bool_decide_eq_false_2 by (done || apply Ha). cbn [orb].
  by rewrite (parseFromPackage_complete _ from package o').
Qed.

(** ** Named imports *)

Lemma binding_head t b : binding_text t b → ∃ i u, t = i +:+ u ∧ word_text import_rune i.
Proof.
  destruct 1 as [i [Hi _] _|i sp sp' l [Hi _] _ _ _ _]; [|eauto].
  exists i, "". by rewrite str_app_nil_r.
Qed.

Lemma word_not_closer i t c u : word_text import_rune i → c ∈ [","%char; "}"%char] → i +:+ t ≠ String c u.
Proof.
  intros Hi Hc E. pose proof Hi as (_ & Hst & _). rewrite <-(word_first import_rune i t Hi), E in Hst.
  rewrite !elem_of_cons in Hc. destruct_or!; subst; [by rewrite decode_ascii in Hst..|by apply elem_of_nil in Hc].
Qed.

Lemma parseBinding_complete seen t b sp o o' c u :
  binding_text t b → ib_Imported b ∉ seen → spaces sp → reads o (t +:+ sp) o' →
  rest o' = String c u → c ∈ [","%char; "}"%char] → parseBinding input position seen o = Ok (b, o').
Proof.
  intros Hb Hfresh Hsp Hr Ec Hc. pose proof (closer_no_space c u Hc) as Hns. rewrite <-Ec in Hns.
  unfold parseBinding. destruct Hb as [i [Hi Hne] Hexp|i spa spl l [Hi Hne] Hexp Hspa Hspl [Hl Hlne]]; simpl in Hfresh.
  - apply reads_split in Hr as [Hr1 Hr2].
    rewrite (importIdentifier_exact _ _ _ _ Hr1 Hi) by (destruct Hr2 as [_ ->]; rewrite Ec; by apply byte_stops).
    rewrite !bool_decide_eq_false_2 by (done || apply Hi). rewrite Hexp. cbn [orb negb]. cbv zeta.
    rewrite (skipSpace_exact input _ sp o' Hr2 Hsp Hns).
    destruct (consumeWord input "as" o') as [o2|] eqn:Has.
    + apply consumeWord_spec in Has as [[_ E] _]. rewrite Ec, str_cons_app in E. injection E as -> _.
      rewrite !elem_of_cons in Hc. by destruct_or!; [..|apply elem_of_nil in Hc].
    + by rewrite (skipSpace_exact input o' "" o' (reads_nil _ _)).
  - rewrite !str_app_assoc in Hr. apply reads_split in Hr as [Hr1 Hr].
    rewrite <-(str_app_assoc "as"), <-(str_app_assoc spa) in Hr. pose proof Hr as [Hra Hrl]%reads_split.
    apply reads_split in Hrl as [Hr2 Hr3].
    rewrite (importIdentifier_exact _ _ _ _ Hr1 Hi).
    2: { destruct Hra as [_ ->]. rewrite str_app_assoc. by apply blanks_stop. }
    rewrite !bool_decide_eq_false_2 by (done || apply Hi). rewrite Hexp. cbn [orb negb]. cbv zeta.
    destruct (word_between _ "as" _ _ _ Hra Hspa Hspl) as (o1 & o2 & H1 & H2 & H3).
    { intros t. by apply scan_ascii. }
    { destruct Hr2 as [_ ->]. by apply word_no_space. }
    assert (skipSpace input (o + String.length i) = o1) as -> .
    { unfold requireSpace in H1. cbv zeta in H1. destruct (_ <? _)%nat; congruence. }
    rewrite H2, H3. rewrite (importIdentifier_exact _ _ _ _ Hr2 Hl) by (destruct Hr3 as [_ ->]; rewrite Ec; by apply byte_stops).
    rewrite !bool_decide_eq_false_2 by (done || apply Hl). cbn [orb]. by rewrite (skipSpace_exact input _ sp o' Hr3 Hsp Hns).
Qed.

(** The bindings start with an identifier, where the loop is. *)
Lemma bindings_head body bs u o o' :
  bindings_text body bs → reads o (body +:+ u) o' →
  ∃ sp i t, spaces sp ∧ word_text import_rune i ∧ rest (skipSpace input o) = i +:+ t ∧ skipSpace input o = (o + String.length sp)%nat.
Proof.
  intros Hb Hr. assert (∃ sp i t, body +:+ u = sp +:+ i +:+ t ∧ spaces sp ∧ word_text import_rune i) as (sp & i & t & E & Hsp & Hi).
  { destruct Hb as [sp t b Hsp Ht|sp t b sp' body bs Hsp Ht _ _]; destruct (binding_head t b Ht) as (i & v & -> & Hi).
    - exists sp, i, (v +:+ u). by rewrite !str_app_assoc.
    - exists sp, i, (v +:+ sp' +:+ "," +:+ body +:+ u). by rewrite !str_app_assoc. }
  rewrite E in Hr. apply reads_split in Hr as [Hr1 [_ Er]].
  assert (skipSpace input o = (o + String.length sp)%nat) as Es.
  { apply (skipSpace_exact input o sp _ Hr1 Hsp). rewrite Er, str_app_assoc. by apply word_no_space. }
  rewrite Es. exists sp, i, (t +:+ rest o'). by rewrite Er, str_app_assoc.
Qed.

(** One turn of the loop, up to the byte after the binding. *)
Lemma binding_turn seen sp t b sp' c o o' :
  spaces sp → binding_text t b → ib_Imported b ∉ seen → spaces sp' → c ∈ [","%char; "}"%char] →
  reads o ((sp +:+ t) +:+ sp' +:+ str1 c) o' →
  ∃ o1, parseBinding input position seen (skipSpace input o) = Ok (b, o1) ∧ consume input c o1 = Some o' ∧
    (∀ d, d ≠ c → consume input d o1 = None) ∧ (o < o')%nat ∧ (o < String.length input)%nat.
Proof.
  intros Hsp Ht Hfresh Hsp' Hc Hr.
  pose proof (reads_lt input _ _ _ Hr) as [Hlt Hin]; [rewrite <-str_app_assoc; unfold str1; by destruct ((sp +:+ t) +:+ sp')|].
  rewrite str_app_assoc, <-(str_app_assoc t) in Hr. apply reads_split in Hr as [Hr1 Hr]. apply reads_split in Hr as [Hr2 Hr3].
  assert (skipSpace input o = (o + String.length sp)%nat) as ->.
  { apply (skipSpace_exact input o sp _ Hr1 Hsp). destruct Hr2 as [_ ->]. destruct (binding_head t b Ht) as (i & v & -> & Hi).
    rewrite !str_app_assoc. by apply word_no_space. }
  set (o1 := (_ + String.length (t +:+ sp'))%nat) in *. pose proof Hr3 as [_ E]. unfold str1 in E. rewrite str_cons_app in E.
  exists o1. split; [by apply (parseBinding_complete seen t b sp' _ o1 c _ Ht Hfresh Hsp' Hr2 E)|].
  split; [by apply consume_spec|]. split; [|done]. intros d Hd. apply (consume_none _ _ _ _ E). intros t' [= ? _]. congruence.
Qed.

Lemma namedLoop_complete body bs :
  bindings_text body bs → ∀ fuel prev seen sp o o',
  NoDup (ib_Imported <$> prev ++ bs) → (∀ x, x ∈ seen → x ∈ ib_Imported <$> prev) → spaces sp →
  reads o (body +:+ sp +:+ "}") o' → (String.length input - o < fuel)%nat →
  namedLoop input position fuel prev seen (skipSpace input o) = Some (Ok (prev ++ bs, o')).
Proof.
  assert (∀ prev b bs seen, NoDup (ib_Imported <$> prev ++ b :: bs) → (∀ x, x ∈ seen → x ∈ ib_Imported <$> prev) →
    ib_Imported b ∉ (seen : gset string)) as Hfresh.
  { intros prev b bs' seen Hnd Hseen Hin. rewrite fmap_app in Hnd. apply NoDup_app in Hnd as (_ & Hnd & _).
    apply (Hnd _ (Hseen _ Hin)). simpl. left. }
  induction 1 as [sp t b Hsp Ht|sp t b sp' body bs Hsp Ht Hsp' Hb IH];
    intros [|fuel] prev seen sp2 o o' Hnd Hseen Hsp2 Hr Hfuel; [lia| |lia|]; cbn [namedLoop].
  - destruct (binding_turn seen sp t b sp2 "}" o o') as (o1 & -> & -> & _); [done|done|by eapply Hfresh|done|set_solver|done|done].
  - rewrite !str_app_assoc, <-(str_app_assoc sp t), <-(str_app_assoc sp' ","), <-(str_app_assoc (sp +:+ t)) in Hr.
    apply reads_split in Hr as [Hr1 Hr2]. set (o2 := (o + _)%nat) in *.
    destruct (binding_turn seen sp t b sp' "," o o2) as (o1 & -> & -> & Hno & Hlt & Hin);
      [done|done|by eapply Hfresh|done|set_solver|done|].
    rewrite Hno by done. cbv zeta. destruct (bindings_head body bs _ _ _ Hb Hr2) as (spb & i & u & _ & Hi & Ei & _).
    rewrite peek_rest, bool_decide_eq_false_2.
    2: { rewrite Ei. destruct (i +:+ u) as [|c v] eqn:E; [done|]. intros ->. eapply word_not_closer; [done| |exact E]. set_solver. }
    rewrite (IH fuel (prev ++ [b]) _ sp2 o2 o'); [by rewrite <-app_assoc|by rewrite <-app_assoc| |done..|lia].
    intros x. rewrite fmap_app. set_solver.
Qed.

Lemma parseNamed_complete o body bs sp from package o' :
  bindings_text body bs → NoDup (ib_Imported <$> bs) → spaces sp → from_text from package →
  reads o (body +:+ sp +:+ "}" +:+ from) o' → rest o' = "" →
  parseNamed input position o = Some (Ok (mkDirective ImportNamed package "" bs position "")).
Proof.
  intros Hb Hnd Hsp Hf Hr He. unfold parseNamed. cbv zeta.
  destruct (bindings_head body bs _ _ _ Hb Hr) as (spb & i & u & _ & Hi & Ei & _).
  rewrite (consume_none _ _ _ _ Ei) by by intros t'; apply word_not_closer; [|set_solver].
  rewrite <-(str_app_assoc sp), <-(str_app_assoc body) in Hr. apply reads_split in Hr as [Hr1 Hr2].
  erewrite (namedLoop_complete body bs Hb (S (String.length input)) [] ∅ sp o); [|done|set_solver|done|exact Hr1|lia].
  by rewrite (parseFromPackage_complete _ from package o').
Qed.

Lemma parseImport_complete d o o' sp clause :
  blanks sp → clause_text clause (im_Kind d) (im_Package d) (im_Namespace d) (im_Bindings d) →
  reads o (sp +:+ clause) o' → rest o' = "" → im_Position d = position → im_Raw d = "" →
  parseImport input position o = Some (Ok d).
Proof.
  intros Hsp Hcl Hr He Hpos Hraw. destruct d as [kind package namespace bs dpos raw]. simpl in *. subst.
  apply reads_split in Hr as [Hr1 Hr2]. set (o1 := (o + String.length sp)%nat) in *. unfold parseImport.
  assert (requireSpace input o = Some o1) as ->.
  { apply requireSpace_spec. split; [by exists sp|]. destruct Hr2 as [_ ->]. by destruct Hcl; apply scan_ascii. }
  destruct Hcl as [sp1 sp2 alias from package Hsp1 Hsp2 Ha Hf|body bs sp1 from package Hb Hnd Hsp1 Hf].
  - apply reads_split in Hr2 as [Hc Hr2]. rewrite (proj2 (consume_spec input "*" o1 _) Hc).
    f_equal. by eapply (parseNamespace_complete _ sp1 sp2).
  - apply reads_split in Hr2 as [Hc Hr2]. pose proof Hc as [_ Ec]. rewrite str_cons_app in Ec.
    rewrite (consume_none _ "*" _ _ Ec) by by intros t' [=]. rewrite (proj2 (consume_spec input "{" o1 _) Hc).
    by eapply (parseNamed_complete _ body bs sp1).
Qed.
End complete.
