(* ===== verification/ParserTheorems.v ===== *)
(** What the parsers of comments promise: they read exactly the annotations
    and the imports of the grammars, and every comment has an outcome. *)
From S2P Require Import Prelude GoSort GoStrings Provider GoStrconv Annotation Parser ParserGrammar ParserLex ParserSound ParserComplete ImportParser ImportGrammar.

(** ** The calls of the two parsers *)

Section calls.
Context `{UnicodeTables} `{!UnicodeLaws}.

(** What the parser of annotations gives for a text. *)
Lemma parseAnnotation_spec body position name args :
  annotation_text body name args ↔ parseAnnotation body position = Some (Ok (mkAnnotation name args position "")).
Proof.
  split; [by apply parseAnnotation_complete|]. intros Hp. by apply parseAnnotation_sound in Hp as [? _].
Qed.

Lemma import_prefix body d :
  import_text body d → directivePrefix body legacyImportDirectiveName = false ∧ directivePrefix body importDirectiveName = true.
Proof.
  destruct 1 as [c sp clause d Hc _ _ _]. split; [done|]. unfold directivePrefix, importDirectiveName.
  rewrite (has_prefix_app "@import"). cbn [andb]. apply orb_true_iff. right. rewrite str_cons_app.
  change (String.length "@import") with 7%nat. cbn [str_get String.append from_option]. exact Hc.
Qed.

(** A white-space rune whose first byte is white space by itself is that byte. *)
Lemma space_byte c sp : spaces (String c sp) → is_space (byte_of c) = true → (byte_of c < 128)%N ∧ spaces sp.
Proof.
  intros Hsp Hspace. destruct (N.lt_ge_cases (byte_of c) 128) as [Hlt|Hge].
  - split; [done|]. unfold spaces, all_runes in *.
    rewrite scan_eq, bool_decide_eq_false_2, decode_ascii, Hspace in Hsp by done. simpl in Hsp. by injection Hsp.
  - exfalso. pose proof (spaces_first (String c sp) "" Hsp ltac:(done)) as Hs. rewrite str_app_nil_r in Hs.
    unfold decode_rune in Hs. destruct (N.ltb_spec (byte_of c) 128); [lia|].
    destruct (in_range 194 244 (byte_of c)) eqn:Hin; [|by vm_compute in Hs].
    unfold in_range in Hin. apply andb_true_iff in Hin as [Hlo%N.leb_le Hhi%N.leb_le].
    unfold is_space, in_range in Hspace. rewrite !orb_true_iff, !andb_true_iff, !N.leb_le, !N.eqb_eq in Hspace. lia.
Qed.

Lemma import_clause_of body position d :
  directivePrefix body importDirectiveName = true →
  parseImport body position (String.length importDirectiveName) = Some (Ok d) →
  import_text body d ∧ im_Position d = position ∧ im_Raw d = "".
Proof.
  intros Hpre Hp. apply parseImport_sound in Hp as (sp & clause & o' & [Hsp Hne] & Hr & He & Hpos & Hraw & Hcl).
  split; [|done]. unfold directivePrefix in Hpre. apply andb_true_iff in Hpre as [(t & Et)%has_prefix_spec Hspace].
  assert (t = sp +:+ clause) as ->.
  { destruct Hr as [_ E]. rewrite He, str_app_nil_r in E. unfold rest in E. by rewrite Et, str_drop_app in E. }
  destruct sp as [|c sp]; [done|]. rewrite str_cons_app in Et. subst body.
  change ("@import" +:+ String c (sp +:+ clause)) with ("@import" +:+ String c sp +:+ clause).
  apply orb_true_iff in Hspace as [Hl|Hspace]; [by apply bool_decide_eq_true in Hl|]. cbn in Hspace.
  destruct (space_byte c sp Hsp Hspace) as [Hlt Hsp']. by constructor.
Qed.

Lemma import_text_parts body d position raw :
  import_text body d →
  import_text body (mkDirective (im_Kind d) (im_Package d) (im_Namespace d) (im_Bindings d) position raw).
Proof. destruct 1. by constructor. Qed.

Lemma import_read body d :
  import_text body d → parseImport body (im_Position d) (String.length importDirectiveName) =
    Some (Ok (mkDirective (im_Kind d) (im_Package d) (im_Namespace d) (im_Bindings d) (im_Position d) "")).
Proof.
  intros Hd. destruct Hd as [c sp clause d Hc Hlt Hsp Hcl].
  eapply (parseImport_complete _ _ _ _ (String.length ("@import" +:+ String c sp +:+ clause)) (String c sp) clause);
    [split; [|done]|exact Hcl| | |done..].
  - unfold spaces, all_runes in *. rewrite scan_eq, bool_decide_eq_false_2, decode_ascii, Hc by done. simpl. by rewrite Hsp.
  - by apply (reads_suffix _ "@import").
  - by apply eof_spec, Nat.leb_le.
Qed.

(** ** The errors of the import parser *)

Lemma package_error body position o e : parseFromPackage body position o = Fail e → ∃ m, e = ErrNew m.
Proof.
  unfold parseFromPackage, parseQuotedString, import_errorf. cbv zeta.
  intros Hp; repeat (case_match; simplify_eq; try by eauto).
Qed.

Lemma namespace_error body position o e : parseNamespace body position o = Fail e → ∃ m, e = ErrNew m.
Proof.
  unfold parseNamespace. cbv zeta. destruct (requireSpace _ _); [|intros [= <-]; eauto].
  destruct (consumeWord _ _ _); [|intros [= <-]; eauto]. destruct (requireSpace _ _); [|intros [= <-]; eauto].
  destruct (parseImportIdentifier _ _). destruct (_ || _); [intros [= <-]; eauto|].
  destruct (parseFromPackage _ _ _) eqn:Hp; [done|]. intros [= <-]. by eapply package_error.
Qed.

Lemma binding_error body position seen o e : parseBinding body position seen o = Fail e → ∃ m, e = ErrNew m.
Proof. unfold parseBinding, import_errorf. cbv zeta. intros Hp; repeat (case_match; simplify_eq; try by eauto). Qed.

Lemma loop_error body position fuel bs seen o e :
  namedLoop body position fuel bs seen o = Some (Fail e) → ∃ m, e = ErrNew m.
Proof.
  revert bs seen o. induction fuel as [|fuel IH]; intros bs seen o; cbn [namedLoop]; [done|].
  destruct (parseBinding _ _ _ _) as [[b o1]|e'] eqn:Hb; [|intros [= <-]; by eapply binding_error]. cbv zeta.
  destruct (consume _ _ _); [done|]. destruct (consume _ _ _); [|intros [= <-]; eauto].
  destruct (bool_decide _); [intros [= <-]; eauto|apply IH].
Qed.

Lemma parseImport_error body position o e : parseImport body position o = Some (Fail e) → ∃ m, e = ErrNew m.
Proof.
  unfold parseImport. destruct (requireSpace _ _); [|intros [= <-]; eauto].
  destruct (consume _ _ _); [intros [= Hn]; by eapply namespace_error|].
  destruct (consume _ _ _); [|intros [= <-]; eauto]. unfold parseNamed. cbv zeta.
  destruct (consume _ _ _); [intros [= <-]; eauto|].
  destruct (namedLoop _ _ _ _ _ _) as [[[bs o1]|e']|] eqn:Hl; [|intros [= <-]; by eapply loop_error|done].
  destruct (parseFromPackage _ _ _) eqn:Hp; [done|]. intros [= <-]. by eapply package_error.
Qed.
End calls.

(** ** Annotations *)

Section theorems.
Context `{UnicodeTables} `{!UnicodeLaws}.

(** C19. [ParseComment] returns an annotation exactly when the comment's body is
    a text of the annotation grammar, with the name and the arguments that the text
    spells, at the position of the body and with the whole line as its raw
    text: the hand-written recursive descent is equivalent to the grammar. *)
Theorem ParseComment_exact (input : string) (position : Position) (a : Annotation) :
  ParseComment input position = Some (Ok (Some a)) ↔
  ∃ body, annotationCommentBody input position = (body, an_Position a, true) ∧
    annotation_text body (an_Name a) (an_Arguments a) ∧ an_Raw a = input.
Proof.
  unfold ParseComment. destruct (annotationCommentBody input position) as [[body pos] comment].
  destruct comment; cbn [negb]; [|naive_solver]. destruct (has_prefix body "@") eqn:Hp; cbn [negb].
  2: { split; [done|]. intros (b & [= <- _] & Ht & _). apply annotation_text_at in Ht. congruence. }
  destruct (parseAnnotation body pos) as [[r|e]|] eqn:Hr.
  - pose proof (parseAnnotation_sound _ _ _ Hr) as (Hr' & Hpos & _). split.
    + intros [= <-]. exists body. simpl. by rewrite Hpos.
    + intros (b & [= <- Hpa] & Ht & Hraw). destruct (annotation_text_unique _ _ _ _ _ Hr' Ht) as [En Ea].
      destruct a. simpl in *. by subst.
  - split; [done|]. intros (b & [= <- Hpa] & Ht & _). by rewrite (proj1 (parseAnnotation_spec _ _ _ _) Ht) in Hr.
  - split; [done|]. intros _. by apply parseAnnotation_total in Hr.
Qed.

(** Every call of [ParseComment] returns, and its three outcomes are told
    apart by the comment alone: no annotation when the line is not a comment or
    its body does not start with [@], an annotation when the body belongs to
    the grammar, and an error when it starts with [@] and does not belong to it. *)
Theorem ParseComment_outcome (input : string) (position : Position) :
  let '(body, position', comment) := annotationCommentBody input position in
  ∃ r, ParseComment input position = Some r ∧
    match r with
    | Ok None => comment = false ∨ has_prefix body "@" = false
    | Ok (Some a) => comment = true ∧ annotation_text body (an_Name a) (an_Arguments a)
    | Fail _ => comment = true ∧ has_prefix body "@" = true ∧ ∀ name args, ¬ annotation_text body name args
    end.
Proof.
  unfold ParseComment. destruct (annotationCommentBody input position) as [[body pos] comment].
  destruct comment; cbn [negb]; [|eexists; split; [done|by left]].
  destruct (has_prefix body "@") eqn:Hp; cbn [negb]; [|eexists; split; [done|by right]].
  destruct (parseAnnotation body pos) as [[r|e]|] eqn:Hr; [..|by apply parseAnnotation_total in Hr].
  - eexists. split; [done|]. split; [done|]. by apply parseAnnotation_sound in Hr as [? _].
  - eexists. split; [done|]. split_and!; [done..|]. intros name args Ht.
    by rewrite (proj1 (parseAnnotation_spec _ pos _ _) Ht) in Hr.
Qed.

(** ** Imports *)

(** C38. [ParseImportComment] always returns, and it returns an import exactly
    when the comment's body is a text of the import grammar (exported and
    distinct symbols, usable local names, a valid import path), with what the text
    spells, the position of the body and the whole line as its raw text. Only the
    retired spelling gives the error that [IsLegacyImportError] reports. *)
Theorem ParseImportComment_exact (input : string) (position : Position) :
  ∃ r, ParseImportComment input position = Some r ∧
    (∀ d, r = Ok (Some d) ↔
      ∃ body, annotationCommentBody input position = (body, im_Position d, true) ∧
        import_text body d ∧ im_Raw d = input) ∧
    (∀ e, r = Fail e → IsLegacyImportError e =
      directivePrefix (annotationCommentBody input position).1.1 legacyImportDirectiveName).
Proof.
  unfold ParseImportComment. destruct (annotationCommentBody input position) as [[body pos] comment].
  destruct comment; cbn [negb]; [|exists (Ok None); naive_solver]. cbn [fst].
  destruct (directivePrefix body legacyImportDirectiveName) eqn:Hleg.
  { exists (Fail errLegacyImportDirective). split; [done|]. split; [|by intros e [= <-]]. intros d. split; [done|].
    intros (b & [= <- _] & [Hl _]%import_prefix & _). congruence. }
  destruct (directivePrefix body importDirectiveName) eqn:Hpre; cbn [negb].
  2: { exists (Ok None). split; [done|]. split; [|done]. intros d. split; [done|].
       intros (b & [= <- _] & [_ Hd]%import_prefix & _). congruence. }
  destruct (parseImport body pos _) as [[r|e]|] eqn:Hr; [..|by apply parseImport_total in Hr].
  - exists (Ok (Some (mkDirective (im_Kind r) (im_Package r) (im_Namespace r) (im_Bindings r) (im_Position r) input))).
    split; [done|]. split; [|done]. pose proof (import_clause_of _ _ _ Hpre Hr) as (Ht & Hpos & _). intros d. split.
    + intros [= <-]. exists body. simpl. rewrite Hpos. split; [done|]. split; [|done]. by apply (import_text_parts body r).
    + intros (b & [= <- Hpd] & Hd & Hraw). pose proof (import_read body _ Hd) as Hd2.
      rewrite <-Hpd, Hr in Hd2. injection Hd2 as ->. destruct d. simpl in *. by subst.
  - exists (Fail e). split; [done|]. split.
    + intros d. split; [done|]. intros (b & [= <- Hpd] & Hd & _). rewrite Hpd in Hr. by rewrite (import_read body _ Hd) in Hr.
    + intros e' [= <-]. apply parseImport_error in Hr as [m ->]. done.
Qed.
End theorems.

Definition at_line : Position := mkPosition "app.go" 100 7 1.

Definition route_line : string :=
  "	// @web.Route(`GET`, [1, -20, []], auth = true, handler = api.Box[Order, Page], tags=[`a\b`, x:y])".

Definition route : Annotation := mkAnnotation "web.Route"
  [mkArgument "" (VString "GET"); mkArgument "" (VList [VInteger 1; VInteger (-20); VList []]);
   mkArgument "auth" (VBoolean true); mkArgument "handler" (VIdentifier "api.Box[Order, Page]");
   mkArgument "tags" (VList [VString "a\b"; VIdentifier "x:y"])]
  (mkPosition "app.go" 104 7 5) route_line.

Lemma route_parsed : @ParseComment ascii_tables route_line at_line = Some (Ok (Some route)).
Proof. vm_compute. reflexivity. Qed.

Lemma ParseComment_exact_witness :
  ∃ body, annotationCommentBody route_line at_line = (body, an_Position route, true) ∧
    @annotation_text ascii_tables body (an_Name route) (an_Arguments route) ∧ an_Raw route = route_line.
Proof. exact (proj1 (@ParseComment_exact ascii_tables ascii_laws route_line at_line route) route_parsed). Defined.

(** A positional argument after a named one. *)
Definition unordered_line : string := "//@Route(a = 1, 2)".

Lemma unordered_failed : @ParseComment ascii_tables unordered_line at_line =
  Some (Fail (ErrNew "app.go:7:17: positional arguments cannot follow named arguments")).
Proof. vm_compute. reflexivity. Qed.

Lemma ParseComment_outcome_witness :
  has_prefix "@Route(a = 1, 2)" "@" = true ∧
  ¬ ∃ name args, @annotation_text ascii_tables "@Route(a = 1, 2)" name args.
Proof.
  destruct (@ParseComment_outcome ascii_tables ascii_laws unordered_line at_line) as (r & Hr & Hout).
  rewrite unordered_failed in Hr. injection Hr as <-.
  split; [exact (proj1 (proj2 Hout))|]. intros (name & args & Ht). exact (proj2 (proj2 Hout) name args Ht).
Defined.

Definition import_line : string := "// @import { Route as Path, Auth } from `github.com/acme/web`".

Definition imported : ImportDirective := mkDirective ImportNamed "github.com/acme/web" ""
  [mkBinding "Route" "Path"; mkBinding "Auth" "Auth"] (mkPosition "app.go" 103 7 4) import_line.

Lemma import_parsed : @ParseImportComment ascii_tables import_line at_line = Some (Ok (Some imported)).
Proof. vm_compute. reflexivity. Qed.

Lemma ParseImportComment_exact_witness :
  ∃ body, annotationCommentBody import_line at_line = (body, im_Position imported, true) ∧
    @import_text ascii_tables body imported ∧ im_Raw imported = import_line.
Proof.
  destruct (@ParseImportComment_exact ascii_tables ascii_laws import_line at_line) as (r & Hr & Hex & _).
  rewrite import_parsed in Hr. injection Hr as <-. exact (proj1 (Hex imported) eq_refl).
Defined.

(** The errors of the import parser and the retired spelling. *)
Lemma import_failures :
  @ParseImportComment ascii_tables "//@import { a } from `x`" at_line =
    Some (Fail (ErrNew "app.go:7:14: named annotation imports require exported descriptor symbols")) ∧
  @ParseImportComment ascii_tables "//@spice.import { A } from `x`" at_line = Some (Fail errLegacyImportDirective) ∧
  @ParseImportComment ascii_tables "//@import { A, A } from `x`" at_line =
    Some (Fail (ErrNew ("app.go:7:17: annotation import repeats symbol " +:+ str1 dquote +:+ "A" +:+ str1 dquote))).
Proof. split_and!; vm_compute; reflexivity. Qed.
