(* ===== verification/Filter.v ===== *)
(** [path.Match] (which is [filepath.Match] on Unix), as Go's library has it:
    a pattern is cut into chunks at its stars, a chunk is matched byte by byte
    with classes and escapes, and the rest of a pattern that does not match is still
    checked; a malformed pattern is [None]. On top of it, which files the
    development loop watches (src/internal/devloop/filter.go). *)
From S2P Require Import Prelude GoSort GoStrings.

(** [scanChunk]: the number of bytes before the next star outside a class. *)
Fixpoint chunk_width (inrange : bool) (pattern : string) : nat :=
  match pattern with
  | EmptyString => O
  | String c rest =>
      if bool_decide (c = backslash) then
        match rest with EmptyString => 1%nat | String _ rest' => S (S (chunk_width inrange rest')) end
      else if bool_decide (c = "["%char) then S (chunk_width true rest)
      else if bool_decide (c = "]"%char) then S (chunk_width false rest)
      else if bool_decide (c = "*"%char) && negb inrange then O
      else S (chunk_width inrange rest)
  end.

Fixpoint drop_stars (pattern : string) : string :=
  match pattern with
  | String c rest => if bool_decide (c = "*"%char) then drop_stars rest else pattern
  | EmptyString => ""
  end.

Definition scan_chunk (pattern : string) : bool * string * string :=
  let rest := drop_stars pattern in
  let star := negb (bool_decide (String.length rest = String.length pattern)) in
  let width := chunk_width false rest in
  (star, str_take width rest, str_drop width rest).

(** [getEsc]: one character of a class, and what follows it. *)
Definition get_esc (chunk : string) : option (N * string) :=
  match chunk with
  | EmptyString => None
  | String c rest =>
      if bool_decide (c = "-"%char) || bool_decide (c = "]"%char) then None
      else
        let chunk := if bool_decide (c = backslash) then rest else chunk in
        if bool_decide (chunk = "") then None
        else
          let '(r, n) := decode_rune chunk in
          if (r =? rune_error)%N && bool_decide (n = 1%nat) then None
          else
            let after := str_drop n chunk in
            if bool_decide (after = "") then None else Some (r, after)
  end.

(** The ranges of a class up to its bracket: whether [r] is in one of them,
    and what follows the class. *)
Fixpoint class_ranges (fuel : nat) (r : N) (nrange : nat) (matched : bool) (chunk : string) : option (bool * string) :=
  match fuel with
  | O => None
  | S fuel' =>
      match chunk with
      | String "]" rest => if (0 <? nrange)%nat then Some (matched, rest) else None
      | _ =>
          '(lo, chunk1) ← get_esc chunk;
          '(hi, chunk2) ← match chunk1 with String "-" rest => get_esc rest | _ => Some (lo, chunk1) end;
          class_ranges fuel' r (S nrange) (matched || ((lo <=? r) && (r <=? hi))%N) chunk2
      end
  end.

(** [matchChunk]: [None] when the chunk is malformed, [Some None] when the
    name does not start with it, and otherwise the rest of the name. *)
Fixpoint match_chunk (fuel : nat) (failed : bool) (chunk s : string) : option (option string) :=
  match fuel with
  | O => None
  | S fuel' =>
      match chunk with
      | EmptyString => Some (if failed then None else Some s)
      | String c rest =>
          let failed := failed || bool_decide (s = "") in
          if bool_decide (c = "["%char) then
            let '(r, n) := if failed then (0%N, O) else decode_rune s in
            let '(negated, chunk1) := match rest with String "^" rest' => (true, rest') | _ => (false, rest) end in
            '(matched, chunk2) ← class_ranges (S (String.length chunk1)) r 0 false chunk1;
            match_chunk fuel' (failed || Bool.eqb matched negated) chunk2 (str_drop n s)
          else if bool_decide (c = "?"%char) then
            let '(_, n) := decode_rune s in
            match_chunk fuel' (failed || bool_decide (str_get 0 s = Some slash)) rest (if failed then s else str_drop n s)
          else
            let literal := if bool_decide (c = backslash) then rest else chunk in
            match literal with
            | EmptyString => None
            | String c rest =>
                match_chunk fuel' (failed || negb (bool_decide (str_get 0 s = Some c))) rest
                  (if failed then s else str_drop 1 s)
            end
      end
  end.
Definition matchChunk (chunk s : string) : option (option string) :=
  match_chunk (S (String.length chunk)) false chunk s.

(** The remainder of the pattern after a mismatch. *)
Fixpoint well_formed (fuel : nat) (pattern : string) : bool :=
  match fuel, pattern with
  | S fuel', String _ _ =>
      let '(_, chunk, rest) := scan_chunk pattern in
      match matchChunk chunk "" with
      | None => false
      | Some _ => well_formed fuel' rest
      end
  | _, _ => true
  end.

(** After a star: the rest of the name behind the first place where the chunk
    fits ([Some (Some t)]), none ([Some None]), or a malformed chunk. *)
Fixpoint star_search (chunk : string) (last : bool) (name : string) : option (option string) :=
  match name with
  | EmptyString => Some None
  | String c name' =>
      if bool_decide (c = slash) then Some None
      else
        match matchChunk chunk name' with
        | None => None
        | Some (Some t) =>
            if last && negb (bool_decide (t = "")) then star_search chunk last name' else Some (Some t)
        | Some None => star_search chunk last name'
        end
  end.

Fixpoint match_loop (fuel : nat) (pattern name : string) : option bool :=
  match fuel with
  | O => None
  | S fuel' =>
      match pattern with
      | EmptyString => Some (bool_decide (name = ""))
      | String _ _ =>
          let '(star, chunk, rest) := scan_chunk pattern in
          if star && bool_decide (chunk = "") then Some (negb (contains_byte name slash))
          else
            let last := bool_decide (rest = "") in
            let mismatch := if well_formed (S (String.length rest)) rest then Some false else None in
            let search :=
              match star_search chunk last name with
              | None => None
              | Some (Some t) => match_loop fuel' rest t
              | Some None => mismatch
              end in
            match matchChunk chunk name with
            | Some (Some t) =>
                if bool_decide (t = "") || negb last then match_loop fuel' rest t
                else if star then search else mismatch
            | None => None
            | Some None => if star then search else mismatch
            end
      end
  end.

(** [path.Match(pattern, name)] *)
Definition path_match (pattern name : string) : option bool := match_loop (S (String.length pattern)) pattern name.

Example match_star : path_match "*_gen.go" "spice_gen.go" = Some true. Proof. reflexivity. Qed.
Example match_class : path_match "a[^b-d]?*" "aex" = Some true. Proof. reflexivity. Qed.
Example match_slash : path_match "a*" "ab/c" = Some false. Proof. reflexivity. Qed.
Example match_malformed : path_match "[a" "a" = None. Proof. reflexivity. Qed.
Example match_malformed_later : path_match "b[a" "a" = None. Proof. reflexivity. Qed.

Definition defaultExcludedDirectories : list string :=
  [".cache"; ".git"; ".idea"; ".tools"; ".vscode"; "bin"; "dist"; "node_modules"; "vendor"].

Definition defaultRelevantExtensions : list string :=
  [".go"; ".html"; ".json"; ".sql"; ".tmpl"; ".toml"; ".tpl"; ".yaml"; ".yml"].

Record PathRules := mkPathRules { Include : list string; Exclude : list string }.
Record PathFilter := mkPathFilter { includes : list string; excludes : list string }.

(** [strings.ReplaceAll(s, "**", "*")] *)
Fixpoint replace_double_stars (s : string) : string :=
  match s with
  | String "*" (String "*" rest) => String "*" (replace_double_stars rest)
  | String c rest => String c (replace_double_stars rest)
  | EmptyString => ""
  end.

(** [slices.Compact] *)
Fixpoint compact (l : list string) : list string :=
  match l with
  | x :: (y :: _) as rest => if bool_decide (x = y) then compact rest else x :: compact rest
  | _ => l
  end.

Section filter.
Context `{UnicodeTables}.

Definition validatePattern (pattern : string) : outcome error string :=
  let normalized := path_clean pattern in
  if bool_decide (pattern = "") || bool_decide (normalized = ".") || negb (is_local normalized)
  then Fail (ErrNew ("path pattern " +:+ go_quote pattern +:+ " must be workspace-relative"))
  else match path_match (replace_double_stars normalized) "probe" with
       | None => Fail (ErrWrap ("invalid path pattern " +:+ go_quote pattern) (ErrSentinel "syntax error in pattern"))
       | Some _ => Ok normalized
       end.

Fixpoint normalizedPatterns (patterns : list string) : outcome error (list string) :=
  match patterns with
  | [] => Ok []
  | pattern :: rest =>
      normalized ← validatePattern pattern;
      result ← normalizedPatterns rest;
      Ok (normalized :: result)
  end.

Definition validatePatterns (patterns : list string) : outcome error (list string) :=
  result ← normalizedPatterns patterns;
  Ok (compact (sort_strings result)).

Definition NewPathFilter (rules : PathRules) : outcome error PathFilter :=
  match validatePatterns (Include rules) with
  | Fail err => Fail (ErrWrap "validate development include rules" err)
  | Ok includes =>
      match validatePatterns (Exclude rules) with
      | Fail err => Fail (ErrWrap "validate development exclude rules" err)
      | Ok excludes => Ok (mkPathFilter includes excludes)
      end
  end.
End filter.

Definition normalizeRelativePath (filePath : string) : outcome error string :=
  let normalized := path_clean filePath in
  if bool_decide (normalized = ".") then Ok normalized
  else if negb (is_local normalized) then Fail (ErrNew "development path must remain inside the workspace")
  else Ok normalized.

Definition temporaryEditorPath (filePath : string) : bool :=
  let base := path_base filePath in
  has_prefix base ".#" || (has_prefix base "#" && has_suffix base "#") || has_suffix base "~" ||
  has_suffix base ".swp" || has_suffix base ".swo" || has_suffix base ".tmp" || has_suffix base ".temp".

Definition defaultGeneratedPath (filePath : string) : bool :=
  let base := path_base filePath in
  has_suffix base "_spice_gen.go" || (has_prefix base "spice_" && has_suffix base "_gen.go") ||
  bool_decide (base = "zz_spice_bridge_gen.go") || bool_decide (base = "openapi.json") ||
  (has_prefix filePath ".spice/" && has_suffix base ".manifest.json").

(** The inner loop is the second call for a double star. *)
Fixpoint matchPathSegments (pattern value : list string) : bool :=
  match pattern with
  | [] => bool_decide (value = [])
  | p :: pattern' =>
      if bool_decide (p = "**") then
        (fix stars (value : list string) : bool :=
           matchPathSegments pattern' value || match value with [] => false | _ :: value' => stars value' end) value
      else
        match value with
        | [] => false
        | v :: value' => bool_decide (path_match p v = Some true) && matchPathSegments pattern' value'
        end
  end.

Definition matchPath (pattern filePath : string) : bool :=
  matchPathSegments (split_byte slash pattern) (split_byte slash filePath).

Definition excluded (filter : PathFilter) (filePath : string) : bool :=
  existsb (λ pattern, matchPath pattern filePath) (excludes filter).

Definition Match (filter : PathFilter) (filePath : string) : bool :=
  match normalizeRelativePath filePath with
  | Fail _ => false
  | Ok normalized =>
      if excluded filter normalized || temporaryEditorPath normalized then false
      else if defaultGeneratedPath normalized then false
      else if existsb (λ pattern, matchPath pattern normalized) (includes filter) then true
      else
        let base := path_base normalized in
        if bool_decide (base ∈ ["go.mod"; "go.sum"; "go.work"; "go.work.sum"]) then true
        else bool_decide (path_ext base ∈ defaultRelevantExtensions)
  end.

Definition SkipDirectory (filter : PathFilter) (directoryPath : string) : bool :=
  match normalizeRelativePath directoryPath with
  | Fail _ => true
  | Ok normalized =>
      if bool_decide (normalized = ".") then false
      else if existsb (λ segment, bool_decide (segment ∈ defaultExcludedDirectories)) (split_byte slash normalized)
      then true
      else if bool_decide (normalized = ".spice/build") || bool_decide (normalized = ".spice/dev") ||
              has_prefix normalized ".spice/build/" || has_prefix normalized ".spice/dev/" ||
              bool_decide (normalized = "internal/spicegen") || has_prefix normalized "internal/spicegen/"
      then true
      else excluded filter normalized || excluded filter (normalized +:+ "/placeholder")
  end.

(** ** What patterns mean *)

(** A double star stands for any number of segments, and any other
    segment for one segment it matches. *)
Inductive covers : list string → list string → Prop :=
  | covers_nil : covers [] []
  | covers_stars skipped pattern value : covers pattern value → covers ("**" :: pattern) (skipped ++ value)
  | covers_segment p pattern v value :
      p ≠ "**" → path_match p v = Some true → covers pattern value → covers (p :: pattern) (v :: value).

Lemma match_stars pattern value :
  matchPathSegments ("**" :: pattern) value =
  matchPathSegments pattern value || match value with [] => false | _ :: value' => matchPathSegments ("**" :: pattern) value' end.
Proof. by destruct value. Qed.

Lemma matchPathSegments_covers pattern value : matchPathSegments pattern value = true ↔ covers pattern value.
Proof.
  split.
  - revert value. induction pattern as [|p pattern IH]; intros value.
    { intros ->%bool_decide_eq_true. constructor. }
    destruct (decide (p = "**")) as [->|Hp].
    + induction value as [|v value IHv]; rewrite match_stars, orb_true_iff; intros [Hm|Hm]; try done.
      * apply (covers_stars []). by apply IH.
      * by apply (covers_stars []), IH.
      * apply IHv in Hm. inversion Hm as [|skipped ? value' Hc|]; subst; [|done]. by apply (covers_stars (v :: skipped)).
    + cbn [matchPathSegments]. rewrite bool_decide_eq_false_2 by done. destruct value as [|v value]; [done|].
      rewrite andb_true_iff, bool_decide_eq_true. intros [Hv Hm]. constructor; [done..|]. by apply IH.
  - induction 1 as [|skipped pattern value Hc IH|p pattern v value Hp Hv Hc IH].
    + done.
    + induction skipped as [|v skipped IHs]; rewrite match_stars; cbn [app].
      * by rewrite IH.
      * by rewrite IHs, orb_true_r.
    + cbn [matchPathSegments]. rewrite bool_decide_eq_false_2 by done. by rewrite bool_decide_eq_true_2, IH.
Qed.
