(* ===== verification/Polling.v ===== *)
(** The polling watcher (src/internal/devloop/polling.go): a scan of the workspace
    on the tree of GoRoot.v, the events between two scans, and the loop
    that reports them. *)
From S2P Require Import Prelude GoSort GoStrings Sha256 GoRoot Debounce Filter.

(** ** fs.WalkDir for a function that may answer [fs.SkipDir] *)

(** The function answers whether it returned [fs.SkipDir], which it does for
    directories only, and passes the errors of the walk on. *)
Fixpoint walk_skip {S} (fuel : nat) (fn : S → string → entry → io (S * bool)) (s : S) (p : string) (e : entry)
    : io S :=
  match fuel with
  | O => fail (ErrNew "walk: out of fuel")
  | Datatypes.S fuel' =>
      '(s', skip) ← fn s p e;
      match e with
      | EDir =>
          if skip : bool then mret s'
          else
            entries ← read_dir p;
            fold_io (λ acc ne, walk_skip fuel' fn acc (path_join [p; ne.1]) ne.2) s' entries
      | _ => mret s'
      end
  end.

Definition walk_dir_skip {S} (fn : S → string → entry → io (S * bool)) (s : S) (p : string) : io S :=
  λ w, (e ← stat p; walk_skip (Datatypes.S (Datatypes.S (depth (w_tree w)))) fn s p e) w.

(** ** Stamps *)

Record fileStamp := mkStamp { st_mode : Z; st_size : Z; st_digest : list Z }.
#[export] Instance fileStamp_eq_dec : EqDecision fileStamp.
Proof. solve_decision. Defined.

Notation snapshot := (gmap string fileStamp) (only parsing).

(** [Root.Open], which follows links: what was opened. *)
Definition open_file (p : string) : io entry := syscall (λ w,
  (k ← locate w true p;
   match entry_at (w_tree w) k with Some e => Ok e | None => Fail ErrNotExist end, w)).

(** [return errors.Join(err, closeErr)] after an error. *)
Definition fail_joined {A} (err : error) (closeErr : option error) : io A :=
  fail (match closeErr with Some c => ErrJoin err c | None => err end).

Definition stampFile (filePath : string) : io fileStamp :=
  file ← open_file filePath;
  statted ← attempt (syscall (mret file));
  match statted with
  | Fail statErr => closed ← attempt sys_close; fail_joined statErr (err_of closed)
  | Ok (EFile content mode) =>
      copied ← attempt (syscall (mret content));
      closed ← attempt sys_close;
      match copied, closed with
      | Fail copyErr, _ => fail_joined copyErr (err_of closed)
      | Ok _, Fail closeErr => fail closeErr
      | Ok content, Ok _ => mret (mkStamp mode (Z.of_nat (String.length content)) (sum256 content))
      end
  | Ok _ =>
      closed ← attempt sys_close;
      fail_joined (ErrNew "watched path must be a regular file") (err_of closed)
  end.

(** ** A scan *)

(** [ctxErr n] is [ctx.Err()] at the [n]-th entry of the walk. *)
Section scan.
Context (ctxErr : nat → option error) (filter : PathFilter) (maximum : Z).

(** The function of [scanWorkspace] for one entry; the state is the number of
    entries before and the snapshot. *)
Definition scanEntry (state : nat * snapshot) (filePath : string) (entry : entry) : io ((nat * snapshot) * bool) :=
  let '(n, snapshot) := state in
  match ctxErr n with
  | Some contextErr => fail contextErr
  | None =>
      match entry with
      | EDir => mret ((S n, snapshot), negb (bool_decide (filePath = ".")) && SkipDirectory filter filePath)
      | _ =>
          if negb (Match filter filePath) then mret ((S n, snapshot), false)
          else if (maximum <=? Z.of_nat (size snapshot))%Z
          then fail (ErrNew ("polling watcher relevant file count exceeds " +:+ itoa maximum))
          else
            stamp ← wrap_io ("hash watched file " +:+ filePath) (stampFile filePath);
            mret ((S n, <[filePath := stamp]> snapshot), false)
      end
  end.

Definition scanWorkspace : io snapshot :=
  wrap_io "open polling watcher root" open_root;;
  result ← attempt (wrap_io "scan polling watcher root" (walk_dir_skip scanEntry (0%nat, ∅) "."));
  closed ← attempt sys_close;
  match result, closed with
  | Fail err, _ => fail_joined err (err_of closed)
  | Ok _, Fail closeErr => fail closeErr
  | Ok (_, snapshot), Ok _ => mret snapshot
  end.
End scan.

(** ** The events between two scans *)

Definition change_at (previous current : snapshot) (filePath : string) : option FileEvent :=
  match previous !! filePath, current !! filePath with
  | None, Some _ => Some (mkFileEvent filePath ChangeCreate)
  | Some _, None => Some (mkFileEvent filePath ChangeRemove)
  | Some before, Some after =>
      if bool_decide (before = after) then None else Some (mkFileEvent filePath ChangeWrite)
  | None, None => None
  end.

(** The paths of both snapshots, each once. *)
Definition changed_paths (previous current : snapshot) : list string :=
  sort_strings ((map_to_list previous).*1 ++
    base.filter (λ filePath, previous !! filePath = None) (map_to_list current).*1).

(** [accepts i]: the [i]-th send is received before the context ends. *)
Fixpoint emitLoop (accepts : nat → bool) (i : nat) (previous current : snapshot) (paths : list string)
    : list FileEvent * bool :=
  match paths with
  | [] => ([], true)
  | filePath :: paths' =>
      match change_at previous current filePath with
      | None => emitLoop accepts i previous current paths'
      | Some event =>
          if accepts i then
            let '(events, running) := emitLoop accepts (S i) previous current paths' in (event :: events, running)
          else ([], false)
      end
  end.

Definition emitChanges (accepts : nat → bool) (previous current : snapshot) : list FileEvent * bool :=
  emitLoop accepts 0 previous current (changed_paths previous current).

(** ** The loop *)

(** One turn of the loop after the timer: what the scan gave, which sends are
    received, and whether the error channel has room. *)
Record tick := mkTick { t_scan : outcome error snapshot; t_accepts : nat → bool; t_room : bool }.

Record poller := mkPoller { p_running : bool; p_previous : snapshot; p_events : list FileEvent; p_errors : list error }.

Definition reportError (room : bool) (err : error) (p : poller) : poller :=
  if room then mkPoller (p_running p) (p_previous p) (p_events p) (p_errors p ++ [err]) else p.

Definition pollTick (t : tick) (p : poller) : poller :=
  if negb (p_running p) then p
  else
    match t_scan t with
    | Fail err => if is_canceled (Some err) then p else reportError (t_room t) err p
    | Ok current =>
        let '(events, running) := emitChanges (t_accepts t) (p_previous p) current in
        if running then mkPoller true current (p_events p ++ events) (p_errors p)
        else mkPoller false (p_previous p) (p_events p ++ events) (p_errors p)
    end.

(** [poll] from the baseline of [NewPollingWatcher]. *)
Definition poll (baseline : snapshot) (ticks : list tick) : poller :=
  foldl (λ p t, pollTick t p) (mkPoller true baseline [] []) ticks.

(** ** Construction *)

Record PollingConfig := mkPollingConfig {
  pc_Root : string;
  pc_Interval : Z;
  pc_Maximum : Z;
  pc_PathRules : PathRules;
}.

Definition defaultPollInterval : Z := 500 * 1000000.
Definition defaultMaximumFiles : Z := 100000.

(** [abs] is [filepath.Abs], [statRoot] whether [os.Stat] of the root gives a
    directory; [ctx] is [None] for a nil context. The result is the interval of
    the timer and the state of the loop. *)
Definition NewPollingWatcher `{UnicodeTables} (abs : string → outcome error string) (statRoot : string → outcome error bool)
    (ctx : option (nat → option error)) (config : PollingConfig) : io (Z * poller) :=
  match ctx with
  | None => fail (ErrNew "polling watcher context must not be nil")
  | Some ctxErr =>
      if bool_decide (pc_Root config = "") then fail (ErrNew "polling watcher root must not be empty")
      else
        root ← wrap_io "resolve polling watcher root" (lift (abs (pc_Root config)));
        isDir ← wrap_io "inspect polling watcher root" (lift (statRoot root));
        if negb isDir then fail (ErrNew "polling watcher root must be a directory")
        else
          let interval := if (pc_Interval config =? 0)%Z then defaultPollInterval else pc_Interval config in
          if (interval <=? 0)%Z then fail (ErrNew "polling watcher interval must be positive")
          else
            let maximum := if (pc_Maximum config =? 0)%Z then defaultMaximumFiles else pc_Maximum config in
            if (maximum <=? 0)%Z then fail (ErrNew "polling watcher maximum file count must be positive")
            else
              filter ← lift (NewPathFilter (pc_PathRules config));
              baseline ← scanWorkspace ctxErr filter maximum;
              mret (interval, mkPoller true baseline [] [])
  end.
