(* ===== verification/PollTheorems.v ===== *)
(** What a scan of the polling watcher sees: in a world without faults and a
    tree of directories and files, it is a fold over the entries that no skipped
    directory hides; and the theorems of the filter and the watcher. *)
From S2P Require Import Prelude GoSort GoStrings Debounce Sha256 GenPlan GoRoot GoPath GenFs GenSafety GenProtect GenEffect GenSpec GenRefine GenConverge GenTheorems Filter Polling.

(** [for _, x := range l { s, err = f(s, x) }] without effects. *)
Fixpoint fold_res {A S} (f : S → A → outcome error S) (s : S) (l : list A) : outcome error S :=
  match l with [] => Ok s | x :: l' => match f s x with Ok s' => fold_res f s' l' | Fail e => Fail e end end.

Lemma fold_res_app {A S} (f : S → A → outcome error S) s l1 l2 :
  fold_res f s (l1 ++ l2) = match fold_res f s l1 with Ok s' => fold_res f s' l2 | Fail e => Fail e end.
Proof. revert s. induction l1 as [|x l1 IH]; intros s; [done|]. cbn [app fold_res]. by destruct (f s x). Qed.

(** ** The children of a directory *)

Lemma NoDup_children t ds : NoDup (children t ds).
Proof.
  unfold children, sort_strings. apply NoDup_sort_stable.
  assert (∀ l : list (key * entry), NoDup l.*1 → NoDup (omap (λ kv, child_of ds kv.1) l)) as Hnd; [|apply Hnd, NoDup_fst_map_to_list].
  induction l as [|[k e] l IH]; cbn [fmap list_fmap omap list_omap fst]; [constructor|].
  intros [Hk Hl]%NoDup_cons. destruct (child_of ds k) as [n|] eqn:E; [|by apply IH].
  constructor; [|by apply IH]. intros ([k' e'] & Hin & E')%list_elem_of_omap. simpl in E'.
  apply child_of_spec in E as ->. apply child_of_spec in E' as ->. apply Hk.
  apply list_elem_of_fmap. by exists (ds ++ [n], e').
Qed.

Lemma NoDup_dir_entries t ds : NoDup (dir_entries t ds).*1.
Proof.
  unfold dir_entries. pose proof (NoDup_children t ds) as Hnd. induction Hnd as [|n l Hn Hnd IH]; [constructor|].
  cbn [omap list_omap]. destruct (t !! (ds ++ [n])) eqn:E; cbn [fmap option_fmap option_map]; [|exact IH].
  cbn [fmap list_fmap fst]. constructor; [|exact IH]. intros ([n' e'] & -> & Hin)%list_elem_of_fmap.
  apply list_elem_of_omap in Hin as (n2 & Hin & E2). destruct (t !! (ds ++ [n2])); simplify_eq/=. done.
Qed.

Section walk.
Context (w : world) (Hq : quiet w) (Hs : sane (w_tree w)).
Context {S : Type} (step : S → string → entry → outcome error S) (skip : string → bool).

(** The entries that the walk comes to. *)
Fixpoint visited (fuel : nat) (ds : key) (e : entry) : list (key * entry) :=
  match fuel with
  | O => []
  | Datatypes.S fuel' =>
      (ds, e) :: match e with
                 | EDir => if skip (dir_path ds) then []
                           else mjoin ((λ ne : string * entry, visited fuel' (ds ++ [ne.1]) ne.2) <$> dir_entries (w_tree w) ds)
                 | _ => []
                 end
  end.

Definition stepped (s : S) (ke : key * entry) : outcome error S := step s (dir_path ke.1) ke.2.

Context (fn : S → string → entry → io (S * bool)).
Context (fn_step : ∀ s k e, entry_at (w_tree w) k = Some e → Forall good_name k →
  fn s (dir_path k) e w =
  (match step s (dir_path k) e with Ok s' => Ok (s', bool_decide (e = EDir) && skip (dir_path k)) | Fail err => Fail err end, w)).

Lemma fold_io_pure {A} (f : S → A → io S) (g : A → list (key * entry)) s l :
  (∀ s x, x ∈ l → f s x w = (fold_res stepped s (g x), w)) →
  fold_io f s l w = (fold_res stepped s (mjoin (g <$> l)), w).
Proof.
  revert s. induction l as [|x l IH]; intros s Hf; [done|]. cbn [fold_io fmap list_fmap mjoin list_join].
  change (mjoin (g x :: (g <$> l))) with (g x ++ mjoin (g <$> l)). rewrite fold_res_app.
  unfold mbind, io_bind. rewrite Hf by left. destruct (fold_res stepped s (g x)); [|done]. apply IH. intros. apply Hf. by right.
Qed.

Lemma walk_pure fuel s ds e :
  Forall good_name ds → entry_at (w_tree w) ds = Some e → depth (w_tree w) < fuel + length ds →
  walk_skip (Datatypes.S fuel) fn s (dir_path ds) e w = (fold_res stepped s (visited (Datatypes.S fuel) ds e), w).
Proof.
  revert s ds e. induction fuel as [|fuel IH]; intros s ds e Hg He Hf; cbn [walk_skip visited fold_res];
    unfold mbind at 1, io_bind at 1; rewrite fn_step by done; unfold stepped at 1; cbn [fst snd];
    (destruct (step s (dir_path ds) e) as [s'|err]; [|done]); destruct e; try done.
  - destruct ds as [|x ds]; [simpl in Hf; lia|]. rewrite entry_at_ne in He by done. apply depth_bound in He. simpl in *. lia.
  - rewrite bool_decide_eq_true_2 by done. cbn [andb]. destruct (skip (dir_path ds)); [done|].
    rewrite (bind_eq _ _ _ (dir_entries (w_tree w) ds)) by by apply read_dir_eq.
    apply fold_io_pure. intros s2 [n x] Hx%elem_of_dir_entries. cbn [fst snd].
    assert (Forall good_name (ds ++ [n])) as Hgn by by eapply sane_named.
    rewrite dir_path_snoc by done. apply IH; [done| |].
    + by rewrite entry_at_ne by by destruct ds.
    + rewrite length_app. simpl. lia.
Qed.

Lemma elem_of_visited fuel ds e k x :
  entry_at (w_tree w) ds = Some e → depth (w_tree w) < fuel + length ds →
  (k, x) ∈ visited (Datatypes.S fuel) ds e ↔
  ∃ ks, k = ds ++ ks ∧ entry_at (w_tree w) k = Some x ∧
    ∀ i, i < length ks → skip (dir_path (ds ++ take i ks)) = false.
Proof.
  revert ds e. induction fuel as [|fuel IH]; intros ds e He Hf.
  { destruct ds as [|n ds]; [simpl in Hf; lia|]. rewrite entry_at_ne in He by done. apply depth_bound in He. simpl in *. lia. }
  cbn [visited]. rewrite elem_of_cons. split.
  - intros [[= -> ->]|Hin]; [exists []; rewrite app_nil_r; split_and!; [done..|simpl; lia]|].
    destruct e; try by apply elem_of_nil in Hin. destruct (skip (dir_path ds)) eqn:Hskip; [by apply elem_of_nil in Hin|].
    apply list_elem_of_join in Hin as (l & Hin & Hl). apply list_elem_of_fmap in Hl as ([n y] & -> & Hy). cbn [fst snd] in Hin.
    apply elem_of_dir_entries in Hy. apply IH in Hin as (ks & -> & Hx & Hks);
      [|by rewrite entry_at_ne by by destruct ds|rewrite length_app; simpl; lia].
    exists (n :: ks). rewrite <-app_assoc in *. split_and!; [done..|]. intros [|i] Hi; [by rewrite app_nil_r|].
    specialize (Hks i). rewrite <-app_assoc in Hks. apply Hks. simpl in Hi. lia.
  - intros (ks & -> & Hx & Hks). destruct ks as [|n ks].
    { left. rewrite app_nil_r in *. congruence. }
    right. assert (∃ y, w_tree w !! (ds ++ [n]) = Some y) as [y Hy].
    { destruct ks as [|m ks]; [rewrite entry_at_ne in Hx by (by destruct ds); by exists x|].
      rewrite entry_at_ne, cons_snoc_app in Hx by by destruct ds. destruct (sane_wf _ Hs _ _ Hx) as [_ Hd].
      specialize (Hd (length (ds ++ [n]))). rewrite take_app_length, entry_at_ne in Hd by by destruct ds.
      exists EDir. apply Hd. rewrite !length_app. simpl. lia. }
    assert (e = EDir) as ->.
    { destruct (decide (ds = [])) as [->|Hne]; [by injection He as <-|]. destruct (sane_wf _ Hs _ _ Hy) as [_ Hd].
      specialize (Hd (length ds)). rewrite take_app_length, He in Hd. rewrite length_app in Hd. simpl in Hd.
      assert (Some e = Some EDir) as [= ->] by (apply Hd; lia). done. }
    pose proof (Hks 0 ltac:(simpl; lia)) as H0. rewrite take_0, app_nil_r in H0. rewrite H0.
    apply list_elem_of_join. eexists. split; [|apply list_elem_of_fmap; exists (n, y); split; [done|by apply elem_of_dir_entries]].
    cbn [fst snd]. apply IH; [by rewrite entry_at_ne by by destruct ds|rewrite length_app; simpl; lia|].
    exists ks. rewrite <-app_assoc. split_and!; [done..|]. intros i Hi. rewrite <-app_assoc. apply (Hks (Datatypes.S i)). simpl. lia.
Qed.

Lemma visited_below fuel ds e k x : (k, x) ∈ visited fuel ds e → ∃ ks, k = ds ++ ks.
Proof.
  revert ds e. induction fuel as [|fuel IH]; intros ds e; cbn [visited]; [by intros ?%elem_of_nil|].
  rewrite elem_of_cons. intros [[= -> _]|Hin]; [exists []; by rewrite app_nil_r|].
  destruct e; try by apply elem_of_nil in Hin. destruct (skip _); [by apply elem_of_nil in Hin|].
  apply list_elem_of_join in Hin as (l & Hin & Hl). apply list_elem_of_fmap in Hl as ([n y] & -> & _).
  apply IH in Hin as (ks & ->). exists (n :: ks). by rewrite <-app_assoc.
Qed.

Lemma NoDup_visited fuel ds e : NoDup (visited fuel ds e).*1.
Proof.
  revert ds e. induction fuel as [|fuel IH]; intros ds e; cbn [visited fmap list_fmap fst]; [constructor|].
  assert (∀ k x, (k, x) ∈ match e with
      | EDir => if skip (dir_path ds) then []
                else mjoin ((λ ne : string * entry, visited fuel (ds ++ [ne.1]) ne.2) <$> dir_entries (w_tree w) ds)
      | _ => [] end → ∃ n ks, k = ds ++ n :: ks) as Hbelow.
  { intros k x Hin. destruct e; try by apply elem_of_nil in Hin. destruct (skip _); [by apply elem_of_nil in Hin|].
    apply list_elem_of_join in Hin as (l & Hin & Hl). apply list_elem_of_fmap in Hl as ([n y] & -> & _).
    apply visited_below in Hin as (ks & ->). exists n, ks. by rewrite <-app_assoc. }
  constructor.
  { intros ([k x] & E & Hin)%list_elem_of_fmap. simpl in E. subst k. apply Hbelow in Hin as (n & ks & E).
    apply (f_equal length) in E. rewrite length_app in E. simpl in E. lia. }
  clear Hbelow. destruct e; try constructor. destruct (skip _); [constructor|].
  pose proof (NoDup_dir_entries (w_tree w) ds) as Hnd. induction (dir_entries (w_tree w) ds) as [|[n y] l IHl]; [constructor|].
  cbn [fmap list_fmap fst] in Hnd. apply NoDup_cons in Hnd as [Hn Hl].
  change (mjoin _) with (visited fuel (ds ++ [n]) y ++ mjoin ((λ ne : string * entry, visited fuel (ds ++ [ne.1]) ne.2) <$> l)).
  rewrite fmap_app. apply NoDup_app. split_and!; [apply IH| |by apply IHl].
  intros k ([k1 x1] & -> & H1)%list_elem_of_fmap ([k2 x2] & E & H2)%list_elem_of_fmap. simpl in E. subst k2.
  apply visited_below in H1 as (ks & ->). apply list_elem_of_join in H2 as (l2 & H2 & Hl2).
  apply list_elem_of_fmap in Hl2 as ([m z] & -> & Hm). apply visited_below in H2 as (ks2 & E). simpl in E.
  rewrite <-!app_assoc in E. simplify_list_eq. apply Hn. apply list_elem_of_fmap. by exists (m, z).
Qed.
End walk.

(** ** One entry *)

Definition stamp_of (e : entry) : option fileStamp :=
  match e with
  | EFile content mode => Some (mkStamp mode (Z.of_nat (String.length content)) (sum256 content))
  | _ => None
  end.

Lemma close_quiet w : quiet w → sys_close w = (Ok (), w).
Proof. intros Hq. unfold sys_close. by rewrite syscall_quiet. Qed.

Lemma stampFile_eq w k e :
  quiet w → sane (w_tree w) → Forall good_name k → entry_at (w_tree w) k = Some e →
  stampFile (dir_path k) w =
    (match stamp_of e with Some st => Ok st | None => Fail (ErrNew "watched path must be a regular file") end, w).
Proof.
  intros Hq Hs Hg He. unfold stampFile.
  rewrite (bind_eq _ _ _ e).
  2: { unfold open_file. rewrite syscall_quiet by done.
       rewrite (locate_there w true (dir_path k) k e) by (done || by apply comps_dir_path). simpl. by rewrite He. }
  rewrite (attempt_eq _ _ _ (Ok e)) by by rewrite syscall_quiet.
  destruct e as [|content mode|target|data]; rewrite ?(attempt_eq _ _ _ (Ok content)) by (by rewrite syscall_quiet);
    by rewrite (attempt_eq _ _ _ (Ok ())) by by apply close_quiet.
Qed.

Section scan.
Context (f : PathFilter) (maximum : Z).

Definition scanStep (state : nat * gmap string fileStamp) (filePath : string) (e : entry)
    : outcome error (nat * gmap string fileStamp) :=
  let '(n, snapshot) := state in
  if bool_decide (e = EDir) || negb (Match f filePath) then Ok (S n, snapshot)
  else if (maximum <=? Z.of_nat (size snapshot))%Z
  then Fail (ErrNew ("polling watcher relevant file count exceeds " +:+ itoa maximum))
  else match stamp_of e with
       | Some stamp => Ok (S n, <[filePath := stamp]> snapshot)
       | None => Fail (ErrWrap ("hash watched file " +:+ filePath) (ErrNew "watched path must be a regular file"))
       end.

Definition skipped (filePath : string) : bool := negb (bool_decide (filePath = ".")) && SkipDirectory f filePath.

Lemma scanEntry_step w s k e :
  quiet w → sane (w_tree w) → entry_at (w_tree w) k = Some e → Forall good_name k →
  scanEntry (λ _, None) f maximum s (dir_path k) e w =
  (match scanStep s (dir_path k) e with
   | Ok s' => Ok (s', bool_decide (e = EDir) && skipped (dir_path k)) | Fail err => Fail err end, w).
Proof.
  intros Hq Hs He Hg. destruct s as [n snapshot]. unfold scanEntry, scanStep.
  destruct (decide (e = EDir)) as [->|Hne]; [done|]. rewrite (bool_decide_eq_false_2 (e = EDir)) by done. cbn [orb andb].
  pose proof (stampFile_eq w k e Hq Hs Hg He) as Hst.
  assert ((if negb (Match f (dir_path k)) then mret (S n, snapshot, false)
           else if (maximum <=? Z.of_nat (size snapshot))%Z
           then fail (ErrNew ("polling watcher relevant file count exceeds " +:+ itoa maximum))
           else stamp ← wrap_io ("hash watched file " +:+ dir_path k) (stampFile (dir_path k));
                mret (S n, <[dir_path k:=stamp]> snapshot, false)) w =
          (match (if negb (Match f (dir_path k)) then Ok (S n, snapshot)
     else if (maximum <=? Z.of_nat (size snapshot))%Z
      then Fail (ErrNew ("polling watcher relevant file count exceeds " +:+ itoa maximum))
      else match stamp_of e with
       | Some stamp => Ok (S n, <[dir_path k:=stamp]> snapshot)
       | None => Fail (ErrWrap ("hash watched file " +:+ dir_path k) (ErrNew "watched path must be a regular file"))
       end) with Ok s' => Ok (s', false) | Fail err => Fail err end, w)) as Hrest.
  { destruct (negb _); [done|]. destruct (_ <=? _)%Z; [done|]. unfold mbind, io_bind, wrap_io. rewrite Hst.
    by destruct (stamp_of e). }
  destruct e; try done; exact Hrest.
Qed.

(** ** All entries *)

(** The file of the filter at [p] among the entries [l]. *)
Definition stamped (l : list (key * entry)) (p : string) (st : fileStamp) : Prop :=
  ∃ k e, (k, e) ∈ l ∧ e ≠ EDir ∧ Match f (dir_path k) = true ∧ p = dir_path k ∧ stamp_of e = Some st.

Lemma stamped_nil p st : ¬ stamped [] p st.
Proof. by intros (k & e & ?%elem_of_nil & _). Qed.

Lemma stamped_skip k e l p st :
  ¬ (e ≠ EDir ∧ Match f (dir_path k) = true) → stamped ((k, e) :: l) p st ↔ stamped l p st.
Proof.
  intros Hno. split; intros (k' & e' & Hin & Hd & Hm & Hrest).
  - apply elem_of_cons in Hin as [[= -> ->]|Hin]; [by destruct Hno|by exists k', e'].
  - exists k', e'. split; [by right|done].
Qed.

Lemma stamped_cons k e l st0 p st :
  e ≠ EDir → Match f (dir_path k) = true → stamp_of e = Some st0 →
  stamped ((k, e) :: l) p st ↔ (p = dir_path k ∧ st = st0) ∨ stamped l p st.
Proof.
  intros Hd Hm Hst. split.
  - intros (k' & e' & Hin & Hd' & Hm' & -> & Hst'). apply elem_of_cons in Hin as [[= -> ->]|Hin].
    + left. split; [done|congruence].
    + right. by exists k', e'.
  - intros [[-> ->]|(k' & e' & Hin & Hrest)]; [exists k, e; split; [by left|done]|exists k', e'; split; [by right|done]].
Qed.

(** What the fold promises for the rest of the entries. *)
Definition scanned (n : nat) (snap : gmap string fileStamp) (l : list (key * entry)) (n' : nat)
    (snap' : gmap string fileStamp) : Prop :=
  n' = (n + length l)%nat ∧ (∀ k e, (k, e) ∈ l → e ≠ EDir → Match f (dir_path k) = true → is_Some (stamp_of e)) ∧
  (∀ p st, snap' !! p = Some st ↔ snap !! p = Some st ∨ stamped l p st) ∧
  (snap' = snap ∨ (Z.of_nat (size snap') <= maximum)%Z).

Lemma scanned_nil n snap n' snap' : scanned n snap [] n' snap' ↔ n' = n ∧ snap' = snap.
Proof.
  unfold scanned. rewrite Nat.add_0_r. split.
  - intros (-> & _ & Hsnap & _). split; [done|]. apply map_eq. intros p. apply option_eq. intros st. rewrite Hsnap.
    split; [|by left]. intros [?|?%stamped_nil]; done.
  - intros [-> ->]. split_and!; [done|by intros k e ?%elem_of_nil| |by left].
    intros p st. split; [by left|]. intros [?|?%stamped_nil]; done.
Qed.

Lemma scanned_skip n snap k e l n' snap' :
  ¬ (e ≠ EDir ∧ Match f (dir_path k) = true) → scanned n snap ((k, e) :: l) n' snap' ↔ scanned (S n) snap l n' snap'.
Proof.
  intros Hno. unfold scanned. setoid_rewrite (stamped_skip k e l _ _ Hno). cbn [length].
  assert (n + S (length l) = S n + length l)%nat as -> by lia.
  split; intros (Hn & Hall & Hrest); (split; [done|]); (split; [|exact Hrest]); intros k' e' Hin.
  - apply Hall. by right.
  - apply elem_of_cons in Hin as [[= -> ->]|Hin]; [|by apply Hall]. intros Hd Hm. by destruct Hno.
Qed.

Lemma scanned_add n snap k e st l n' snap' :
  e ≠ EDir → Match f (dir_path k) = true → stamp_of e = Some st → snap !! dir_path k = None →
  scanned n snap ((k, e) :: l) n' snap' ↔
  (Z.of_nat (size snap) < maximum)%Z ∧ scanned (S n) (<[dir_path k := st]> snap) l n' snap'.
Proof.
  intros Hd Hm Hst Hnone. unfold scanned. setoid_rewrite (stamped_cons k e l st _ _ Hd Hm Hst). cbn [length].
  assert (n + S (length l) = S n + length l)%nat as -> by lia.
  assert (∀ p st', <[dir_path k := st]> snap !! p = Some st' ↔ snap !! p = Some st' ∨ p = dir_path k ∧ st' = st) as Hins.
  { intros p st'. destruct (decide (p = dir_path k)) as [->|Hp].
    - rewrite lookup_insert_eq, Hnone. split; [intros [= ->]; by right|intros [?|[_ ->]]; done].
    - rewrite lookup_insert_ne by done. split; [by left|intros [?|[? _]]; done]. }
  assert (∀ p st', (snap !! p = Some st' ∨ p = dir_path k ∧ st' = st) ∨ stamped l p st' ↔
    snap !! p = Some st' ∨ p = dir_path k ∧ st' = st ∨ stamped l p st') as Hassoc by (intros; tauto).
  setoid_rewrite Hins. setoid_rewrite Hassoc.
  assert (size (<[dir_path k := st]> snap) = S (size snap)) as Hsize by by apply map_size_insert_None.
  split.
  - intros (Hn & Hall & Hsnap & Hsz). assert (Z.of_nat (size snap') <= maximum)%Z as Hmax.
    { destruct Hsz as [->|?]; [|done]. exfalso. assert (snap !! dir_path k = Some st) by (apply Hsnap; tauto). congruence. }
    split_and!; [|done|intros k' e' Hin; apply Hall; by right|done|by right].
    assert (<[dir_path k := st]> snap ⊆ snap') as Hsub by (apply map_subseteq_spec; intros p st' Hp%Hins; apply Hsnap; tauto).
    apply map_subseteq_size in Hsub. lia.
  - intros (Hroom & Hn & Hall & Hsnap & Hsz). split_and!; [done| |done|right; destruct Hsz as [->|?]; [lia|done]].
    intros k' e' [[= -> ->]|Hin]%elem_of_cons ? ?; [by rewrite Hst|by eapply Hall].
Qed.

Lemma scan_fold n snap l n' snap' :
  NoDup l.*1 → Forall (λ ke, Forall good_name ke.1) l → (∀ k e, (k, e) ∈ l → snap !! dir_path k = None) →
  fold_res (stepped scanStep) (n, snap) l = Ok (n', snap') ↔ scanned n snap l n' snap'.
Proof.
  revert n snap. induction l as [|[k e] l IH]; intros n snap; cbn [fold_res fmap list_fmap fst length].
  { intros _ _ _. rewrite scanned_nil. split; [by intros [= <- <-]|by intros [-> ->]]. }
  intros [Hk Hnd]%NoDup_cons [Hgk Hg]%Forall_cons Hfresh. simpl in Hgk.
  unfold stepped at 1. cbn [fst snd]. unfold scanStep at 1.
  destruct (bool_decide (e = EDir) || negb (Match f (dir_path k))) eqn:Hw.
  - rewrite IH; [|done..|intros; eapply Hfresh; by right]. rewrite scanned_skip; [done|]. intros [Hd Hm].
    apply orb_true_iff in Hw as [Hw%bool_decide_eq_true|Hw%negb_true_iff]; congruence.
  - apply orb_false_iff in Hw as [Hd%bool_decide_eq_false Hm%negb_false_iff].
    assert (snap !! dir_path k = None) as Hnone by (eapply Hfresh; left).
    destruct (stamp_of e) as [st|] eqn:Hst.
    2: { destruct (_ <=? _)%Z; (split; [done|]); intros (_ & Hall & _); destruct (Hall k e ltac:(left) Hd Hm); congruence. }
    rewrite (scanned_add n snap k e st l n' snap' Hd Hm Hst Hnone).
    destruct (Z.leb_spec maximum (Z.of_nat (size snap))) as [Hfull|Hroom]; [split; [done|]; intros [? _]; lia|].
    rewrite IH; [split; [done|by intros [_ ?]]|done..|].
    intros k' e' Hin. rewrite lookup_insert_ne; [eapply Hfresh; by right|]. intros E.
    rewrite Forall_forall in Hg. pose proof (Hg _ Hin) as Hgk'. simpl in Hgk'.
    apply (f_equal comps) in E. rewrite !comps_dir_path in E by done. subst k'. apply Hk.
    apply list_elem_of_fmap. by exists (k, e').
Qed.
End scan.

(** ** The scan *)

(** An entry of the tree that the filter accepts and that no skipped directory hides. *)
Definition watched (f : PathFilter) (t : tree) (k : key) (e : entry) : Prop :=
  t !! k = Some e ∧ e ≠ EDir ∧ Match f (dir_path k) = true ∧
  ∀ i, 0 < i < length k → SkipDirectory f (dir_path (take i k)) = false.

Definition stamp_file (content : string) (mode : Z) : fileStamp :=
  mkStamp mode (Z.of_nat (String.length content)) (sum256 content).

Section scan.
Context (f : PathFilter) (maximum : Z) (w : world) (Hq : quiet w) (Hs : sane (w_tree w)).

Lemma skipped_prefix k e i :
  w_tree w !! k = Some e → 0 < i < length k → skipped f (dir_path (take i k)) = SkipDirectory f (dir_path (take i k)).
Proof.
  intros Hk Hi. unfold skipped. rewrite bool_decide_eq_false_2; [done|]. intros E.
  assert (Forall good_name (take i k)) as Hg by (apply Forall_take; by eapply sane_named).
  apply (f_equal comps) in E. rewrite comps_dir_path in E by done. apply (f_equal length) in E.
  rewrite length_take in E. change (length (comps ".")) with 0 in E. lia.
Qed.

(** The watched entries are those of the walk. *)
Lemma watched_visited k e fuel :
  depth (w_tree w) < fuel →
  (k, e) ∈ visited w (skipped f) (Datatypes.S fuel) [] EDir ∧ e ≠ EDir ∧ Match f (dir_path k) = true ↔
  watched f (w_tree w) k e.
Proof.
  intros Hf. rewrite (elem_of_visited w Hs (skipped f) fuel [] EDir) by (simpl; done || lia). split.
  - intros ((ks & -> & Hk & Hks) & Hd & Hm). cbn [app] in *. destruct ks as [|n ks]; [by injection Hk as <-|].
    rewrite entry_at_ne in Hk by done. split_and!; [done..|]. intros i Hi. rewrite <-(skipped_prefix _ e) by done.
    apply Hks. lia.
  - intros (Hk & Hd & Hm & Hks). split_and!; [|done..]. exists k. split; [done|].
    split; [by destruct k; [destruct (sane_wf _ Hs _ _ Hk)|]|]. intros [|i] Hi; [done|].
    cbn [app]. rewrite (skipped_prefix _ e) by (done || lia). apply Hks. lia.
Qed.

Definition scan_entries : list (key * entry) :=
  visited w (skipped f) (Datatypes.S (Datatypes.S (depth (w_tree w)))) [] EDir.

Lemma scan_world :
  scanWorkspace (λ _, None) f maximum w =
  (match fold_res (stepped (scanStep f maximum)) (0, ∅) scan_entries with
   | Ok s => Ok s.2
   | Fail e => Fail (ErrWrap "scan polling watcher root" e)
   end, w).
Proof.
  unfold scanWorkspace. rewrite (bind_eq _ _ _ ()) by (unfold wrap_io, open_root; by rewrite syscall_quiet).
  assert (walk_dir_skip (scanEntry (λ _, None) f maximum) (0, ∅) "." w =
    (fold_res (stepped (scanStep f maximum)) (0, ∅) scan_entries, w)) as Hw.
  { unfold walk_dir_skip. rewrite (bind_eq _ _ _ EDir) by by eapply stat_there_eq.
    change "." with (dir_path []). apply (walk_pure w Hq Hs (scanStep f maximum) (skipped f)); [|constructor|done|simpl; lia].
    intros s k e He Hg. by apply scanEntry_step. }
  destruct (fold_res _ _ _) as [[n s]|e].
  - rewrite (attempt_eq _ _ _ (Ok (n, s))) by (unfold wrap_io; by rewrite Hw).
    by rewrite (attempt_eq _ _ _ (Ok ())) by by apply close_quiet.
  - rewrite (attempt_eq _ _ _ (Fail (ErrWrap "scan polling watcher root" e))) by (unfold wrap_io; by rewrite Hw).
    by rewrite (attempt_eq _ _ _ (Ok ())) by by apply close_quiet.
Qed.

Lemma stamp_of_spec e st : stamp_of e = Some st ↔ ∃ content mode, e = EFile content mode ∧ st = stamp_file content mode.
Proof.
  split; [|by intros (content & mode & -> & ->)].
  destruct e as [|content mode| |]; try done. intros [= <-]. by exists content, mode.
Qed.

Lemma entries_watched k e : (k, e) ∈ scan_entries ∧ e ≠ EDir ∧ Match f (dir_path k) = true ↔ watched f (w_tree w) k e.
Proof. apply watched_visited. lia. Qed.

Lemma entries_named : Forall (λ ke, Forall good_name ke.1) scan_entries.
Proof.
  apply Forall_forall. intros [k e] (ks & -> & Hk & _)%elem_of_visited; [|done|done|simpl; lia].
  destruct ks; [constructor|]. rewrite entry_at_ne in Hk by done. by eapply sane_named.
Qed.

Lemma stamped_watched p st :
  stamped f scan_entries p st ↔
  ∃ k content mode, watched f (w_tree w) k (EFile content mode) ∧ p = dir_path k ∧ st = stamp_file content mode.
Proof.
  split.
  - intros (k & e & Hin & Hd & Hm & -> & (content & mode & -> & ->)%stamp_of_spec). exists k, content, mode.
    split; [by apply entries_watched|done].
  - intros (k & content & mode & Hwk & -> & ->). apply entries_watched in Hwk as (? & ? & ?). by exists k, (EFile content mode).
Qed.

Lemma scanned_watched n snap :
  (0 < maximum)%Z →
  scanned f maximum 0 ∅ scan_entries n snap ↔ n = length scan_entries ∧
    (∀ k e, watched f (w_tree w) k e → ∃ content mode, e = EFile content mode) ∧
    (Z.of_nat (size snap) <= maximum)%Z ∧ ∀ p st, snap !! p = Some st ↔ stamped f scan_entries p st.
Proof.
  intros Hmax. unfold scanned. setoid_rewrite lookup_empty. split.
  - intros (Hn & Hall & Hsnap & Hsz). split; [done|]. split; [|split].
    + intros k e Hwk. apply entries_watched in Hwk as (Hin & Hd & Hm).
      destruct (Hall k e Hin Hd Hm) as [st (c & m & -> & _)%stamp_of_spec]. eauto.
    + destruct Hsz as [->|?]; [rewrite map_size_empty; lia|done].
    + intros p st. rewrite Hsnap. split; [by intros [?|?]|by right].
  - intros (Hn & Hall & Hsz & Hsnap). split; [done|]. split; [|split; [|by right]].
    + intros k e Hin Hd Hm. destruct (Hall k e) as (c & m & ->); [by apply entries_watched|]. by eexists.
    + intros p st. rewrite Hsnap. split; [by right|by intros [?|?]].
Qed.

(** A scan is exact: in a tree of directories and files, without faults and
    cancellation, it succeeds exactly when every watched entry is a regular file
    and there are at most [maximum] of them, it changes nothing, and the snapshot
    maps exactly the paths of the watched files to their mode, size and digest. *)
Theorem scanWorkspace_exact (snap : gmap string fileStamp) (w' : world) :
  (0 < maximum)%Z →
  scanWorkspace (λ _, None) f maximum w = (Ok snap, w') ↔
  w' = w ∧ (∀ k e, watched f (w_tree w) k e → ∃ content mode, e = EFile content mode) ∧
  (Z.of_nat (size snap) <= maximum)%Z ∧
  ∀ p st, snap !! p = Some st ↔
    ∃ k content mode, watched f (w_tree w) k (EFile content mode) ∧ p = dir_path k ∧ st = stamp_file content mode.
Proof.
  intros Hmax. rewrite scan_world. setoid_rewrite <-stamped_watched.
  pose proof (λ n, scanned_watched n snap Hmax) as Hsc.
  pose proof (λ n, scan_fold f maximum 0 ∅ scan_entries n snap (NoDup_visited _ _ _ _ _) entries_named (λ _ _ _, lookup_empty _)) as Hfold.
  split.
  - destruct (fold_res _ _ _) as [[n s]|e] eqn:Hf; [|done]. intros [= <- <-]. split; [done|].
    destruct (proj1 (Hsc n) (proj1 (Hfold n) eq_refl)) as [_ Hrest]. exact Hrest.
  - intros (-> & Hrest). destruct (Hsc (length scan_entries)) as [_ Hsc2]. specialize (Hsc2 (conj eq_refl Hrest)).
    apply Hfold in Hsc2. by rewrite Hsc2.
Qed.
End scan.

(** ** The events *)

(** What a consumer knows of the paths after an event; [None] when the event
    does not fit: a creation of a known path, or a change of an unknown one. *)
Definition replay_event (known : gset string) (event : FileEvent) : option (gset string) :=
  let path := fe_Path event in
  if bool_decide (fe_Kind event = ChangeCreate) then
    if bool_decide (path ∈ known) then None else Some ({[path]} ∪ known)
  else if bool_decide (path ∈ known) then
    if bool_decide (fe_Kind event = ChangeRemove) then Some (known ∖ {[path]})
    else if bool_decide (fe_Kind event = ChangeWrite) then Some known else None
  else None.

Fixpoint replay (known : gset string) (events : list FileEvent) : option (gset string) :=
  match events with
  | [] => Some known
  | event :: events' => known' ← replay_event known event; replay known' events'
  end.

Lemma replay_app known l1 l2 : replay known (l1 ++ l2) = (known' ← replay known l1; replay known' l2).
Proof.
  revert known. induction l1 as [|e l1 IH]; intros known; [done|]. cbn [app replay].
  destruct (replay_event known e) as [k|]; [apply IH|done].
Qed.

Section events.
Context (previous current : gmap string fileStamp).

(** The paths after the changes at the paths [l]. *)
Definition after (l : list string) (known : gset string) : gset string :=
  base.filter (λ p, p ∉ l) known ∪ base.filter (λ p, p ∈ l) (dom current).

Lemma change_at_replay p known :
  (p ∈ known ↔ p ∈ dom previous) →
  match change_at previous current p with
  | Some event => replay_event known event = Some (after [p] known)
  | None => after [p] known = known
  end.
Proof.
  intros Hk. unfold change_at, after. rewrite elem_of_dom in Hk.
  destruct (previous !! p) as [a|] eqn:Ha, (current !! p) as [b|] eqn:Hb.
  - assert (p ∈ known) as Hin by by apply Hk; eexists. assert (p ∈ dom current) by by apply elem_of_dom; eexists.
    case_bool_decide; [|unfold replay_event; simpl; rewrite bool_decide_eq_true_2 by done; f_equal]; apply set_eq; intros x;
      rewrite ?elem_of_union, ?elem_of_filter, !list_elem_of_singleton; destruct (decide (x = p)) as [->|]; naive_solver.
  - assert (p ∈ known) as Hin by by apply Hk; eexists. assert (p ∉ dom current) by by apply not_elem_of_dom.
    unfold replay_event; simpl; rewrite bool_decide_eq_true_2 by done; f_equal. apply set_eq; intros x.
    rewrite elem_of_difference, elem_of_union, !elem_of_filter, !list_elem_of_singleton, elem_of_singleton.
    destruct (decide (x = p)) as [->|]; naive_solver.
  - assert (p ∉ known) as Hin by (rewrite Hk; intros [? ?]; congruence). assert (p ∈ dom current) by by apply elem_of_dom; eexists.
    unfold replay_event; simpl; rewrite bool_decide_eq_false_2 by done; f_equal. apply set_eq; intros x.
    rewrite !elem_of_union, !elem_of_filter, !list_elem_of_singleton, elem_of_singleton.
    destruct (decide (x = p)) as [->|]; naive_solver.
  - assert (p ∉ known) as Hin by (rewrite Hk; intros [? ?]; congruence). assert (p ∉ dom current) by by apply not_elem_of_dom.
    apply set_eq; intros x. rewrite elem_of_union, !elem_of_filter, !list_elem_of_singleton.
    destruct (decide (x = p)) as [->|]; naive_solver.
Qed.

Lemma after_cons p l known : after l (after [p] known) = after (p :: l) known.
Proof.
  unfold after. apply set_eq. intros x. rewrite !elem_of_union, !elem_of_filter, !elem_of_union, !elem_of_filter, !elem_of_cons, elem_of_nil.
  destruct (decide (x = p)), (decide (x ∈ l)); tauto.
Qed.

Lemma emitLoop_replay accepts i l known :
  NoDup l → (∀ p, p ∈ l → p ∈ known ↔ p ∈ dom previous) →
  let '(events, running) := emitLoop accepts i previous current l in
  ∃ known', replay known events = Some known' ∧ (running = true → known' = after l known).
Proof.
  intros Hnd. revert i known. induction Hnd as [|p l Hp Hnd IH]; intros i known Hk; cbn [emitLoop].
  { exists known. split; [done|]. intros _. unfold after. apply set_eq. intros x.
    rewrite elem_of_union, !elem_of_filter, elem_of_nil. naive_solver. }
  pose proof (change_at_replay p known (Hk p ltac:(left))) as Hc.
  assert (∀ q, q ∈ l → q ∈ after [p] known ↔ q ∈ dom previous) as Hk'.
  { intros q Hq. rewrite <-Hk by by right. unfold after. rewrite elem_of_union, !elem_of_filter, list_elem_of_singleton.
    assert (q ≠ p) by congruence. naive_solver. }
  destruct (change_at previous current p) as [event|].
  - destruct (accepts i); [|by exists known]. specialize (IH (S i) (after [p] known) Hk').
    destruct (emitLoop _ _ _ _ l) as [events running]. destruct IH as (known' & Hr & Hrun). exists known'.
    cbn [replay]. rewrite Hc. split; [done|]. intros. by rewrite <-after_cons, Hrun.
  - rewrite Hc in Hk'. specialize (IH i known Hk').
    destruct (emitLoop _ _ _ _ l) as [events running]. destruct IH as (known' & Hr & Hrun). exists known'. split; [done|].
    intros. by rewrite Hrun, <-after_cons, Hc.
Qed.
End events.

Lemma elem_of_changed_paths previous current p :
  p ∈ changed_paths previous current ↔ is_Some (previous !! p) ∨ is_Some (current !! p).
Proof.
  unfold changed_paths. rewrite elem_of_sort_strings, elem_of_app, list_elem_of_filter.
  assert (∀ m : gmap string fileStamp, p ∈ (map_to_list m).*1 ↔ is_Some (m !! p)) as Hm.
  { intros m. rewrite list_elem_of_fmap. split.
    - intros ([q st] & -> & Hin%elem_of_map_to_list). by exists st.
    - intros [st Hst]. exists (p, st). by rewrite elem_of_map_to_list. }
  rewrite !Hm. destruct (previous !! p) as [st|] eqn:E; [|naive_solver].
  split; [intros [?|[? _]]; [by left|done]|intros _; left; by exists st].
Qed.

Lemma changed_paths_distinct (previous current : gmap string fileStamp) :
  NoDup ((map_to_list previous).*1 ++ base.filter (λ filePath, previous !! filePath = None) (map_to_list current).*1).
Proof.
  apply NoDup_app. split_and!.
  - apply NoDup_fst_map_to_list.
  - intros p Hp. rewrite list_elem_of_filter. intros [Hn _]. apply list_elem_of_fmap in Hp as ([q st] & -> & Hin%elem_of_map_to_list).
    simpl in Hn. congruence.
  - apply NoDup_filter, NoDup_fst_map_to_list.
Qed.

Lemma NoDup_changed_paths previous current : NoDup (changed_paths previous current).
Proof. apply NoDup_sort_stable, changed_paths_distinct. Qed.

Lemma change_at_path previous current p event : change_at previous current p = Some event → fe_Path event = p.
Proof. unfold change_at. repeat (case_match || case_bool_decide); by intros [= <-]. Qed.

Lemma sorted_changes previous current l :
  StronglySorted (λ p q, str_ltb p q = true) l →
  StronglySorted (λ p q, str_ltb p q = true) (fe_Path <$> omap (change_at previous current) l).
Proof.
  induction 1 as [|p l Hl IH Hp]; [constructor|]. cbn [omap list_omap].
  destruct (change_at previous current p) as [event|] eqn:Hc; [|exact IH]. cbn [fmap list_fmap]. constructor; [exact IH|].
  rewrite (change_at_path _ _ _ _ Hc). apply Forall_forall. intros q (e & -> & He)%list_elem_of_fmap.
  apply list_elem_of_omap in He as (q & Hq & Hcq). rewrite (change_at_path _ _ _ _ Hcq).
  rewrite Forall_forall in Hp. by apply Hp.
Qed.

(** All changes, in the order of their paths. *)
Lemma emitChanges_all previous current :
  emitChanges (λ _, true) previous current = (omap (change_at previous current) (changed_paths previous current), true).
Proof.
  unfold emitChanges. generalize 0. induction (changed_paths previous current) as [|p l IH]; intros i; [done|].
  cbn [emitLoop omap list_omap]. destruct (change_at previous current p); rewrite IH; done.
Qed.

(** The events of a turn whose sends are all received are exactly the
    differences of the two snapshots: one event for each path that is new, gone or
    has another stamp, of that kind, in strictly increasing order of the paths. *)
Theorem emitChanges_exact (previous current : gmap string fileStamp) :
  let '(events, running) := emitChanges (λ _, true) previous current in
  running = true ∧ StronglySorted (λ p q, str_ltb p q = true) (fe_Path <$> events) ∧
  ∀ p kind, mkFileEvent p kind ∈ events ↔
    (kind = ChangeCreate ∧ previous !! p = None ∧ is_Some (current !! p)) ∨
    (kind = ChangeRemove ∧ is_Some (previous !! p) ∧ current !! p = None) ∨
    (kind = ChangeWrite ∧ ∃ before after, previous !! p = Some before ∧ current !! p = Some after ∧ before ≠ after).
Proof.
  rewrite emitChanges_all. split; [done|]. split.
  - apply sorted_changes, sort_strings_strict, changed_paths_distinct.
  - intros p kind. rewrite list_elem_of_omap. split.
    + intros (q & Hq & Hc). unfold change_at in Hc.
      destruct (previous !! q) as [a|] eqn:Ha, (current !! q) as [b|] eqn:Hb; try case_bool_decide; simplify_eq/=; rewrite Ha, Hb; naive_solver.
    + intros Hcase. exists p. rewrite elem_of_changed_paths. unfold change_at.
      destruct Hcase as [(-> & -> & [b ->])|[(-> & [a ->] & ->)|(-> & a & b & -> & -> & Hab)]]; [by eauto..|].
      rewrite bool_decide_eq_false_2 by done. eauto.
Qed.

(** ** The loop *)

(** The last snapshot of a scan that succeeded. *)
Definition latest (baseline : gmap string fileStamp) (ticks : list tick) : gmap string fileStamp :=
  foldl (λ snap t, match t_scan t with Ok current => current | Fail _ => snap end) baseline ticks.

Lemma after_changed_paths previous current : after current (changed_paths previous current) (dom previous) = dom current.
Proof.
  unfold after. apply set_eq. intros p. rewrite elem_of_union, !elem_of_filter, elem_of_changed_paths, !elem_of_dom. tauto.
Qed.

Lemma pollTick_snoc baseline ticks t : poll baseline (ticks ++ [t]) = pollTick t (poll baseline ticks).
Proof. unfold poll. by rewrite foldl_app. Qed.

Lemma stopped_stays t p : p_running p = false → pollTick t p = p.
Proof. unfold pollTick. by intros ->. Qed.

(** A consumer that applies the events in order never meets one that does
    not fit (a creation of a known path, a change or removal of an unknown
    one), whatever the scans give, whichever sends are received and wherever
    the context ends; while the watcher runs, the paths the consumer knows are
    those of the last successful scan. A failed scan loses nothing. *)
Theorem poll_replay (baseline : gmap string fileStamp) (ticks : list tick) :
  ∃ known, replay (dom baseline) (p_events (poll baseline ticks)) = Some known ∧
    (p_running (poll baseline ticks) = true →
      p_previous (poll baseline ticks) = latest baseline ticks ∧ known = dom (latest baseline ticks)).
Proof.
  induction ticks as [|t ticks IH] using rev_ind; [by exists (dom baseline)|].
  rewrite pollTick_snoc. set (p := poll baseline ticks) in *. destruct IH as (known & Hr & Hrun).
  assert (latest baseline (ticks ++ [t]) = match t_scan t with Ok c => c | Fail _ => latest baseline ticks end) as ->
    by (unfold latest; by rewrite foldl_app).
  destruct (p_running p) eqn:Hp; [|rewrite stopped_stays by done; exists known; split; [done|by rewrite Hp]].
  destruct (Hrun eq_refl) as [Hprev ->]. unfold pollTick. rewrite Hp. cbn [negb].
  destruct (t_scan t) as [current|err].
  - pose proof (emitLoop_replay (p_previous p) current (t_accepts t) 0 (changed_paths (p_previous p) current)
      (dom (p_previous p)) (NoDup_changed_paths _ _) (λ _ _, iff_refl _)) as Hemit. unfold emitChanges.
    destruct (emitLoop _ _ _ _ _) as [events running]. destruct Hemit as (known' & Hr' & Hk').
    exists known'. rewrite <-Hprev in Hr. destruct running; cbn [p_events p_running p_previous].
    + rewrite replay_app, Hr. split; [exact Hr'|]. intros _. by rewrite Hk', after_changed_paths.
    + rewrite replay_app, Hr. split; [exact Hr'|done].
  - exists (dom (latest baseline ticks)). destruct (is_canceled (Some err)); [done|].
    unfold reportError. destruct (t_room t); cbn [p_events p_running p_previous]; done.
Qed.

(** ** Rules that do not do what they say *)

(** The class of [[a/b].go] is cut at its slash: the rule is accepted and matches
    nothing. *)
Lemma class_across_segments `{UnicodeTables} :
  NewPathFilter (mkPathRules ["[a/b].go"] []) = Ok (mkPathFilter ["[a/b].go"] []) ∧ ∀ p, matchPath "[a/b].go" p = false.
Proof.
  split; [vm_compute; reflexivity|]. intros p. unfold matchPath. change (split_byte slash "[a/b].go") with ["[a"; "b].go"].
  destruct (split_byte slash p) as [|v l]; [done|].
  assert (path_match "[a" v = None) as Hm.
  { unfold path_match. cbn [String.length match_loop]. change (scan_chunk "[a") with (false, "[a", "").
    unfold matchChunk. cbn. destruct (bool_decide (v = "")); [done|]. by destruct (decode_rune v). }
  change (bool_decide (path_match "[a" v = Some true) && matchPathSegments ["b].go"] l = false). by rewrite Hm.
Qed.

(** Excluding the entries of a directory hides everything below it from the scan. *)
Lemma exclusion_hides_below :
  let f := mkPathFilter [] ["gen/*"] in
  Match f "gen/deep/a.go" = true ∧ Match f "gen/a.go" = false ∧ SkipDirectory f "gen" = true.
Proof. vm_compute. done. Qed.

(** Sources, a generated file, a skipped directory and an editor's file. *)
Definition workspace : gmap (list string) entry := list_to_map [
  (["go.mod"], EFile "module shop" 420);
  (["order"], EDir); (["order"; "order.go"], EFile "package order" 420); (["order"; "order.go~"], EFile "package" 420);
  (["order"; "order_spice_gen.go"], EFile "package order" 420);
  (["vendor"], EDir); (["vendor"; "lib.go"], EFile "package lib" 420)].

Definition workspace_world : world := {| w_tree := workspace; w_faults := []; w_random := []; w_links := 8 |}.

Definition workspace_filter : PathFilter := mkPathFilter [] [].

Lemma workspace_sane : sane (w_tree workspace_world).
Proof. apply sane_checked. vm_compute. reflexivity. Qed.

Definition workspace_scan : gmap string fileStamp :=
  match (scanWorkspace (λ _, None) workspace_filter 100 workspace_world).1 with Ok snap => snap | Fail _ => ∅ end.

Lemma workspace_scanned : scanWorkspace (λ _, None) workspace_filter 100 workspace_world = (Ok workspace_scan, workspace_world).
Proof. vm_compute. reflexivity. Qed.

Lemma workspace_paths : sort_strings (map_to_list workspace_scan).*1 = ["go.mod"; "order/order.go"].
Proof. vm_compute. reflexivity. Qed.

Lemma scanWorkspace_exact_witness :
  watched workspace_filter workspace ["order"; "order.go"] (EFile "package order" 420) ∧
  workspace_scan !! "order/order.go" = Some (stamp_file "package order" 420).
Proof.
  assert (watched workspace_filter workspace ["order"; "order.go"] (EFile "package order" 420)) as Hw.
  { split; [vm_compute; reflexivity|]. split; [discriminate|]. split; [vm_compute; reflexivity|].
    intros [|[|i]] Hi; [|vm_compute; reflexivity|]; exfalso; cbn [length] in Hi; lia. }
  split; [exact Hw|].
  destruct (proj1 (scanWorkspace_exact workspace_filter 100 workspace_world eq_refl workspace_sane
    workspace_scan workspace_world eq_refl) workspace_scanned) as (_ & _ & _ & Hsnap).
  apply (proj2 (Hsnap "order/order.go" (stamp_file "package order" 420))).
  exists ["order"; "order.go"], "package order", 420%Z. split; [exact Hw|]. split; [vm_compute; reflexivity|reflexivity].
Defined.

(** A file that is created, then written, then removed. *)
Lemma poll_run :
  p_events (poll ∅ [mkTick (Ok {["a.go" := stamp_file "x" 420]}) (λ _, true) true;
                    mkTick (Fail (ErrNew "scan")) (λ _, true) true;
                    mkTick (Ok {["a.go" := stamp_file "y" 420]}) (λ _, true) true;
                    mkTick (Ok ∅) (λ _, true) true]) =
  [mkFileEvent "a.go" ChangeCreate; mkFileEvent "a.go" ChangeWrite; mkFileEvent "a.go" ChangeRemove].
Proof. vm_compute. reflexivity. Qed.
