(* ===== verification/GoUrl.v ===== *)
(** Package net/url as far as file URIs need it, and the absolute paths of
    path/filepath. *)
From S2P Require Import Prelude GoStrings.

(** The fields of [url.URL] the code reads. *)
Record url_parts := mkUrl { url_Scheme : string; url_Host : string; url_Path : string }.

(** [url.Parse], [(&url.URL{Scheme: scheme, Path: path}).String()] and the
    working directory of the process. *)
Class GoUrl := {
  url_parse : string → outcome string url_parts;
  url_string : string → string → string;
  working_directory : string;
}.

(** A rooted path survives printing and parsing. *)
Class GoUrlLaws `{GoUrl} : Prop := {
  url_parse_file p : path_is_abs p = true → url_parse (url_string "file" p) = Ok (mkUrl "file" "" p);
  working_directory_abs : path_is_abs working_directory = true;
}.

(** [filepath.Abs] on Unix. *)
Definition filepath_abs `{GoUrl} (p : string) : string :=
  if path_is_abs p then path_clean p else path_join [working_directory; p].

(** The elements of a path. *)
Definition path_elements (p : string) : list string := filter (λ e, e ≠ "") (split_byte slash p).

Fixpoint drop_common (l k : list string) : list string * list string :=
  match l, k with
  | x :: l', y :: k' => if decide (x = y) then drop_common l' k' else (l, k)
  | _, _ => (l, k)
  end.

(** [filepath.Rel] on Unix. *)
Definition filepath_rel (base targ : string) : option string :=
  let base := path_clean base in
  let targ := path_clean targ in
  if decide (targ = base) then Some "."
  else
    let base := if decide (base = ".") then "" else base in
    if negb (Bool.eqb (path_is_abs base) (path_is_abs targ)) then None
    else
      let '(up, down) := drop_common (path_elements base) (path_elements targ) in
      if bool_decide (head up = Some "..") then None
      else Some (join (replicate (length up) ".." ++ down) "/").

(** URIs of paths without characters that need an escape. *)
Definition plain_urls : GoUrl := {|
  url_parse := λ s,
    if has_prefix s "file://" then Ok (mkUrl "file" "" (str_drop 7 s))
    else if contains s ":" then Fail "unsupported URI" else Ok (mkUrl "" "" s);
  url_string := λ scheme p, scheme +:+ "://" +:+ p;
  working_directory := "/work";
|}.

Lemma plain_urls_laws : @GoUrlLaws plain_urls.
Proof.
  split; [|done]. intros p _. unfold url_parse, url_string, plain_urls.
  by rewrite <- (str_app_assoc "file" "://" p), has_prefix_app, (str_drop_app "file://").
Qed.
