(* ===== verification/Diag.v ===== *)
(** Diagnostics: src/compiler/diagnostic/diagnostic.go. Codes, locations, normal
    forms, sorting and sets, and that a set is sorted and does not depend on
    how it was merged. *)
From S2P Require Import Prelude GoSort GoStrings GoPath GoUrl.

(** ** Data *)

(** [Severity] is a string type; these are its constants. *)
Definition SeverityError := "error".
Definition SeverityWarning := "warning".
Definition SeverityInformation := "information".
Definition SeverityHint := "hint".

Record Position := mkPosition { ps_Line : Z; ps_Column : Z; ps_Offset : Z }.
Record Range := mkRange { rg_Start : Position; rg_End : Position }.
Record DisplayLocation := mkDisplay { dl_Path : string; dl_Range : Range }.
Record Location := mkLocation {
  lc_URI : string;
  lc_Path : string;
  lc_Range : Range;
  lc_Display : option DisplayLocation;
}.
Record RelatedInformation := mkRelated { ri_Message : string; ri_Location : Location }.
Record TextEdit := mkTextEdit {
  te_Location : Location;
  te_DocumentVersion : option Z;
  te_NewText : string;
}.
Record SuggestedFix := mkFix {
  sf_Title : string;
  sf_AppliesTo : option Location;
  sf_Edits : list TextEdit;
}.
Record Diagnostic := mkDiagnostic {
  dg_Code : string;
  dg_Severity : string;
  dg_Message : string;
  dg_Location : Location;
  dg_Related : list RelatedInformation;
  dg_Fixes : list SuggestedFix;
}.

#[export] Instance Position_eq_dec : EqDecision Position. Proof. solve_decision. Defined.
#[export] Instance Range_eq_dec : EqDecision Range. Proof. solve_decision. Defined.
#[export] Instance DisplayLocation_eq_dec : EqDecision DisplayLocation. Proof. solve_decision. Defined.
#[export] Instance Location_eq_dec : EqDecision Location. Proof. solve_decision. Defined.

(** ** Codes *)

Section codes.
Context `{UnicodeTables}.

(** One rune of [codeSegment]: what is written so far, and whether a separator
    is due. *)
Definition codeRune (state : string * bool) (character : N) : string * bool :=
  let '(result, separator) := state in
  if is_letter character || is_digit character then
    ((if separator && negb (bool_decide (result = "")) then result +:+ "-" else result)
       +:+ encode_rune (rune_to_lower character), false)
  else (result, true).

(** [strings.Trim(s, "-")] *)
Fixpoint trim_left_dash (s : string) : string :=
  match s with
  | String c s' => if ascii_dec c "-" then trim_left_dash s' else s
  | EmptyString => ""
  end.
Definition trim_dashes (s : string) : string := str_rev (trim_left_dash (str_rev (trim_left_dash s))).

Definition codeSegment (value fallback : string) : string :=
  let result := foldl (λ st rw, codeRune st rw.1) ("", false) (runes (trim_space value)) in
  let normalized := trim_dashes result.1 in
  if decide (normalized = "") then fallback else normalized.

Definition Code (stage kind : string) : string :=
  "spice." +:+ codeSegment stage "compiler" +:+ "." +:+ codeSegment kind "unknown".

(** The segments of [kinds] that say anything. *)
Definition codeSegments (kinds : list string) : list string :=
  filter (λ converted, converted ≠ "") ((λ kind, codeSegment kind "") <$> kinds).

Definition CodeParts (stage : string) (kinds : list string) : string :=
  match kinds with
  | [] => Code stage "unknown"
  | _ =>
    let segments := "spice" :: codeSegment stage "compiler" :: codeSegments kinds in
    join (if bool_decide (length segments = 2%nat) then segments ++ ["unknown"] else segments) "."
  end.

Definition normalizeCode (value : string) : string :=
  let normalized := codeSegments (split_byte "."%char (trim_space value)) in
  if bool_decide (3 ≤ length normalized)%nat && bool_decide (head normalized = Some "spice")
  then join normalized "."
  else Code "compiler" "unknown".
End codes.

Definition normalizeSeverity (value : string) : string :=
  if bool_decide (value ∈ [SeverityError; SeverityWarning; SeverityInformation; SeverityHint])
  then value else SeverityError.

(** ** Positions and locations *)

Definition normalizePosition (position : Position) : Position :=
  mkPosition
    (if (ps_Line position <=? 0)%Z then 1 else ps_Line position)
    (if (ps_Column position <=? 0)%Z then 1 else ps_Column position)
    (if (ps_Offset position <? 0)%Z then 0 else ps_Offset position).

Definition positionBefore (left right : Position) : bool :=
  if decide (ps_Line left ≠ ps_Line right) then (ps_Line left <? ps_Line right)%Z
  else if decide (ps_Column left ≠ ps_Column right) then (ps_Column left <? ps_Column right)%Z
  else (ps_Offset left <? ps_Offset right)%Z.

Definition displaySourcePath (value : string) : string :=
  let value := trim_space value in
  if bool_decide (value = "") || has_prefix value "<" then "" else path_clean value.

(** Both ends normalized, and the end not before the start. *)
Definition normalizeRange (range : Range) : Range :=
  let start := normalizePosition (rg_Start range) in
  let stop := normalizePosition (rg_End range) in
  mkRange start (if positionBefore stop start then start else stop).

Definition normalizeLocation (location : Location) : Location :=
  mkLocation (lc_URI location) (displaySourcePath (lc_Path location))
    (normalizeRange (lc_Range location))
    ((λ display, mkDisplay (displaySourcePath (dl_Path display)) (normalizeRange (dl_Range display)))
       <$> lc_Display location).

Definition sourceRange (line column offset : Z) : Position * Position :=
  let line := if (line <=? 0)%Z then 1%Z else line in
  let column := if (column <=? 0)%Z then 1%Z else column in
  let offset := if (offset <? 0)%Z then 0%Z else offset in
  (mkPosition line column offset, mkPosition line (column + 1) (offset + 1)).

Definition mappedDisplay (path : string) (sourceRange : Range) (physicalPath : string)
    (physicalRange : Range) : option DisplayLocation :=
  if bool_decide (path = "") ||
     bool_decide (path = physicalPath ∧ sourceRange = physicalRange)
  then None else Some (mkDisplay path sourceRange).

Section source_locations.
Context `{GoUrl}.

Definition absoluteSourcePath (workspaceRoot physicalPath displayPath : string) : string :=
  let source := trim_space physicalPath in
  let source := if decide (source = "") then trim_space displayPath else source in
  if bool_decide (source = "") || has_prefix source "<" then ""
  else
    let source :=
      if path_is_abs source then source
      else path_join [if decide (workspaceRoot = "") then "." else workspaceRoot; source] in
    path_clean (filepath_abs source).

(** On Unix there is no volume name. *)
Definition fileURI (absolutePath : string) : string :=
  if decide (absolutePath = "") then "" else url_string "file" absolutePath.

Definition SourceMappedLocation (workspaceRoot displayPath physicalPath : string)
    (displayLine displayColumn displayOffset : Z)
    (physicalLine physicalColumn physicalOffset : Z) : Location :=
  let '(physicalStart, physicalEnd) := sourceRange physicalLine physicalColumn physicalOffset in
  let '(displayStart, displayEnd) := sourceRange displayLine displayColumn displayOffset in
  let absolutePath := absoluteSourcePath workspaceRoot physicalPath displayPath in
  let display := displaySourcePath displayPath in
  mkLocation (fileURI absolutePath) absolutePath (mkRange physicalStart physicalEnd)
    (mappedDisplay display (mkRange displayStart displayEnd) absolutePath
       (mkRange physicalStart physicalEnd)).

Definition SourceLocation (workspaceRoot displayPath physicalPath : string) (line column offset : Z)
    : Location :=
  SourceMappedLocation workspaceRoot displayPath physicalPath line column offset line column offset.
End source_locations.

(** ** Sorting *)

(** [left < right] of the positions of two values, when they differ. *)
Definition lessDiagnostic (left right : Diagnostic) : bool :=
  let l := dg_Location left in
  let r := dg_Location right in
  if decide (lc_URI l ≠ lc_URI r) then str_ltb (lc_URI l) (lc_URI r)
  else if decide (ps_Offset (rg_Start (lc_Range l)) ≠ ps_Offset (rg_Start (lc_Range r)))
  then (ps_Offset (rg_Start (lc_Range l)) <? ps_Offset (rg_Start (lc_Range r)))%Z
  else if decide (lc_Path l ≠ lc_Path r) then str_ltb (lc_Path l) (lc_Path r)
  else if decide (rg_Start (lc_Range l) ≠ rg_Start (lc_Range r))
  then positionBefore (rg_Start (lc_Range l)) (rg_Start (lc_Range r))
  else if decide (rg_End (lc_Range l) ≠ rg_End (lc_Range r))
  then positionBefore (rg_End (lc_Range l)) (rg_End (lc_Range r))
  else if decide (dg_Code left ≠ dg_Code right) then str_ltb (dg_Code left) (dg_Code right)
  else if decide (dg_Severity left ≠ dg_Severity right)
  then str_ltb (dg_Severity left) (dg_Severity right)
  else str_ltb (dg_Message left) (dg_Message right).

Definition lessRelated (left right : RelatedInformation) : bool :=
  let l := ri_Location left in
  let r := ri_Location right in
  if decide (lc_URI l ≠ lc_URI r) then str_ltb (lc_URI l) (lc_URI r)
  else if decide (rg_Start (lc_Range l) ≠ rg_Start (lc_Range r))
  then positionBefore (rg_Start (lc_Range l)) (rg_Start (lc_Range r))
  else str_ltb (ri_Message left) (ri_Message right).

Definition lessFix (left right : SuggestedFix) : bool := str_ltb (sf_Title left) (sf_Title right).

Definition sortDiagnostics (items : list Diagnostic) : list Diagnostic := sort_stable lessDiagnostic items.
Definition sortRelated (items : list RelatedInformation) : list RelatedInformation :=
  sort_stable lessRelated items.
Definition sortFixes (items : list SuggestedFix) : list SuggestedFix := sort_stable lessFix items.

(** ** Diagnostics *)

Section diagnostics.
Context `{UnicodeTables}.

Definition normalize (item : Diagnostic) : Diagnostic :=
  mkDiagnostic (normalizeCode (dg_Code item)) (normalizeSeverity (dg_Severity item))
    (trim_space (dg_Message item)) (normalizeLocation (dg_Location item))
    (sortRelated (dg_Related item)) (sortFixes (dg_Fixes item)).

Definition New (code severity message : string) (location : Location) : Diagnostic :=
  normalize (mkDiagnostic code severity message location [] []).

Definition WithRelated (diagnostic : Diagnostic) (related : list RelatedInformation) : Diagnostic :=
  normalize (mkDiagnostic (dg_Code diagnostic) (dg_Severity diagnostic) (dg_Message diagnostic)
    (dg_Location diagnostic) (sortRelated related) (dg_Fixes diagnostic)).

Definition WithFixes (diagnostic : Diagnostic) (fixes : list SuggestedFix) : Diagnostic :=
  normalize (mkDiagnostic (dg_Code diagnostic) (dg_Severity diagnostic) (dg_Message diagnostic)
    (dg_Location diagnostic) (dg_Related diagnostic) (sortFixes fixes)).

(** [Error] *)
Definition Error (diagnostic : Diagnostic) : string :=
  let item := normalize diagnostic in
  let '(path, position) :=
    match lc_Display (dg_Location item) with
    | Some display => (dl_Path display, rg_Start (dl_Range display))
    | None => (lc_Path (dg_Location item), rg_Start (lc_Range (dg_Location item)))
    end in
  let path := if decide (path = "") then "<unknown>" else path in
  path +:+ ":" +:+ itoa (ps_Line position) +:+ ":" +:+ itoa (ps_Column position) +:+
    ": [" +:+ dg_Code item +:+ "] " +:+ dg_Message item.

(** A [Set] is its sorted items. *)
Definition DiagnosticSet := list Diagnostic.

Definition NewSet (items : list Diagnostic) : DiagnosticSet := sortDiagnostics (normalize <$> items).
Definition Items (set : DiagnosticSet) : list Diagnostic := set.
Definition Len (set : DiagnosticSet) : nat := length set.
Definition SetEmpty (set : DiagnosticSet) : bool := bool_decide (length set = 0%nat).
Definition Merge (sets : list DiagnosticSet) : DiagnosticSet := NewSet (concat (Items <$> sets)).
End diagnostics.

(** ** Sorting a sorted part again *)

Section sorting.
Context {A : Type} (less : A → A → bool) `{!StrictWeak less}.

Lemma sort_insert_swap x y l :
  less y x = true → sort_insert less x (sort_insert less y l) = sort_insert less y (sort_insert less x l).
Proof.
  intros Hyx. pose proof (sw_asym less y x Hyx) as Hxy.
  induction l as [|z l IH]; simpl; [by rewrite Hyx, Hxy|].
  destruct (less z y) eqn:Hzy, (less z x) eqn:Hzx; simpl.
  - by rewrite ?Hzx, ?Hzy, IH.
  - pose proof (sw_trans z y x Hzy Hyx). congruence.
  - by rewrite ?Hyx, ?Hzx, ?Hzy.
  - by rewrite ?Hyx, ?Hzx, ?Hxy.
Qed.

Lemma sort_insert_first x l m :
  foldr (sort_insert less) m (sort_insert less x l) = sort_insert less x (foldr (sort_insert less) m l).
Proof.
  induction l as [|y l IH]; simpl; [done|]. destruct (less y x) eqn:Hyx; simpl; [|done].
  rewrite IH. symmetry. by apply sort_insert_swap.
Qed.

Lemma sort_stable_app l k : sort_stable less (l ++ k) = foldr (sort_insert less) (sort_stable less k) l.
Proof. induction l as [|x l IH]; simpl; [done|]. by rewrite IH. Qed.

Lemma sort_stable_sort_l l k : sort_stable less (sort_stable less l ++ k) = sort_stable less (l ++ k).
Proof.
  rewrite !sort_stable_app. induction l as [|x l IH]; simpl; [done|]. by rewrite sort_insert_first, IH.
Qed.

Lemma sort_stable_sort_r l k : sort_stable less (l ++ sort_stable less k) = sort_stable less (l ++ k).
Proof. by rewrite !sort_stable_app, sort_stable_idemp. Qed.

(** Sorted parts, put together and sorted: the parts, sorted together. *)
Lemma sort_stable_concat parts :
  sort_stable less (concat (sort_stable less <$> parts)) = sort_stable less (concat parts).
Proof.
  induction parts as [|l parts IH]; simpl; [done|].
  rewrite sort_stable_sort_l, <- sort_stable_sort_r. etransitivity; [|apply sort_stable_sort_r]. by f_equal; f_equal.
Qed.

(** Elements the order does not tell apart stay in place. *)
Lemma sort_insert_keeps a x l :
  filter (λ y, less a y = false ∧ less y a = false) (sort_insert less x l) =
  filter (λ y, less a y = false ∧ less y a = false) (x :: l).
Proof.
  induction l as [|z l IH]; simpl; [done|]. destruct (less z x) eqn:Hzx; [|done].
  rewrite filter_cons, IH. rewrite !filter_cons. repeat case_decide; try done.
  destruct (sw_split z x a Hzx); naive_solver congruence.
Qed.

Lemma sort_stable_keeps a l :
  filter (λ y, less a y = false ∧ less y a = false) (sort_stable less l) =
  filter (λ y, less a y = false ∧ less y a = false) l.
Proof. induction l as [|x l IH]; [done|]. cbn [sort_stable]. by rewrite sort_insert_keeps, !filter_cons, IH. Qed.
End sorting.

Lemma fmap_concat {A B} (f : A → B) (parts : list (list A)) : f <$> concat parts = concat (fmap (M:=list) f <$> parts).
Proof. induction parts as [|l parts IH]; [done|]. cbn [concat]. by rewrite fmap_app, IH. Qed.

Lemma strict_weak_ext {A} (less less' : A → A → bool) :
  (∀ x y, less x y = less' x y) → StrictWeak less' → StrictWeak less.
Proof. intros He [Hi Ht Hs]. split; intros *; rewrite !He; eauto. Qed.

(** ** The orders of positions and diagnostics *)

#[export] Instance positionBefore_total : StrictTotal positionBefore.
Proof.
  assert (∀ x y, positionBefore x y = by_key ps_Line Z.ltb (by_key ps_Column Z.ltb (on_key ps_Offset Z.ltb)) x y) as He.
  { intros x y. unfold positionBefore, by_key, on_key. by repeat case_decide. }
  split; [apply (strict_weak_ext _ _ He); typeclasses eauto|].
  intros [l1 c1 o1] [l2 c2 o2]. unfold positionBefore. cbn [ps_Line ps_Column ps_Offset].
  repeat case_decide; intros; repeat match goal with Hn : ¬ (_ ≠ _) |- _ => apply dec_stable in Hn end; subst;
    f_equal; lia.
Qed.

#[export] Instance lessDiagnostic_weak : StrictWeak lessDiagnostic.
Proof.
  apply (strict_weak_ext _
    (by_key (λ d, lc_URI (dg_Location d)) str_ltb
    (by_key (λ d, ps_Offset (rg_Start (lc_Range (dg_Location d)))) Z.ltb
    (by_key (λ d, lc_Path (dg_Location d)) str_ltb
    (by_key (λ d, rg_Start (lc_Range (dg_Location d))) positionBefore
    (by_key (λ d, rg_End (lc_Range (dg_Location d))) positionBefore
    (by_key dg_Code str_ltb (by_key dg_Severity str_ltb (on_key dg_Message str_ltb))))))))).
  - intros x y. unfold lessDiagnostic, by_key, on_key. by repeat case_decide.
  - typeclasses eauto.
Qed.

#[export] Instance lessRelated_weak : StrictWeak lessRelated.
Proof.
  apply (strict_weak_ext _
    (by_key (λ d, lc_URI (ri_Location d)) str_ltb
    (by_key (λ d, rg_Start (lc_Range (ri_Location d))) positionBefore (on_key ri_Message str_ltb)))).
  - intros x y. unfold lessRelated, by_key, on_key. by repeat case_decide.
  - typeclasses eauto.
Qed.

#[export] Instance lessFix_weak : StrictWeak lessFix.
Proof. change lessFix with (on_key sf_Title str_ltb). typeclasses eauto. Qed.

(** ** Normal forms *)

Section normal.
Context `{UnicodeTables}.

Lemma normalizeSeverity_idemp s : normalizeSeverity (normalizeSeverity s) = normalizeSeverity s.
Proof. unfold normalizeSeverity. repeat case_bool_decide; set_solver. Qed.

Lemma normalizePosition_idemp p : normalizePosition (normalizePosition p) = normalizePosition p.
Proof.
  destruct p as [l c o]. unfold normalizePosition. cbn [ps_Line ps_Column ps_Offset].
  destruct (l <=? 0)%Z eqn:E1, (c <=? 0)%Z eqn:E2, (o <? 0)%Z eqn:E3; cbn; by rewrite ?E1, ?E2, ?E3.
Qed.

Lemma normalizeRange_idemp r : normalizeRange (normalizeRange r) = normalizeRange r.
Proof.
  unfold normalizeRange. cbv zeta. cbn [rg_Start rg_End]. rewrite normalizePosition_idemp.
  destruct (positionBefore (normalizePosition (rg_End r)) (normalizePosition (rg_Start r))) eqn:E;
    rewrite !normalizePosition_idemp; [by case_match|by rewrite E].
Qed.

Definition stable_path (p : string) : Prop := displaySourcePath (displaySourcePath p) = displaySourcePath p.

(** The parts of a diagnostic whose normal form may change again: its code and
    its paths. *)
Definition stable (item : Diagnostic) : Prop :=
  normalizeCode (normalizeCode (dg_Code item)) = normalizeCode (dg_Code item) ∧
  trim_space (trim_space (dg_Message item)) = trim_space (dg_Message item) ∧
  stable_path (lc_Path (dg_Location item)) ∧
  ∀ display, lc_Display (dg_Location item) = Some display → stable_path (dl_Path display).

Lemma normalize_idemp item : stable item → normalize (normalize item) = normalize item.
Proof.
  intros (Hcode & Hmsg & Hpath & Hdisplay). unfold stable_path in *. unfold normalize. cbn [dg_Code dg_Severity dg_Message dg_Location dg_Related dg_Fixes].
  rewrite Hcode, Hmsg, normalizeSeverity_idemp. unfold sortRelated, sortFixes. rewrite !sort_stable_idemp by typeclasses eauto.
  f_equal. unfold normalizeLocation. cbn [lc_URI lc_Path lc_Range lc_Display]. rewrite Hpath, normalizeRange_idemp.
  f_equal. destruct (lc_Display (dg_Location item)) as [display|]; simpl; [|done].
  by rewrite (Hdisplay display eq_refl), normalizeRange_idemp.
Qed.

(** A clean rooted path is stable when it neither starts nor ends in a space. *)
Lemma displaySourcePath_absolute p :
  path_is_abs p = true → trim_space p = p → displaySourcePath p = path_clean p.
Proof.
  intros [q ->]%has_prefix_spec Htrim. unfold displaySourcePath. by rewrite Htrim.
Qed.

(** The normal form of a diagnostic that a set holds. *)
Lemma normalize_sorted_set items : Forall stable items → normalize <$> NewSet items = NewSet items.
Proof.
  intros Hst. rewrite <- (list_fmap_id (NewSet items)) at 2. apply list_fmap_ext. intros i x Hx%list_elem_of_lookup_2. simpl.
  unfold NewSet, sortDiagnostics in Hx. rewrite elem_of_sort_stable in Hx.
  apply list_elem_of_fmap in Hx as (y & -> & Hy). rewrite Forall_forall in Hst. by apply normalize_idemp, Hst.
Qed.

(** A set holds the normal forms of its items, each as often as it was
    given, in the order of the comparator, and items the comparator does not
    tell apart in the order given. *)
Theorem NewSet_sorted items :
  NewSet items ≡ₚ normalize <$> items ∧
  StronglySorted (λ x y, lessDiagnostic y x = false) (NewSet items) ∧
  ∀ x, filter (λ y, lessDiagnostic x y = false ∧ lessDiagnostic y x = false) (NewSet items) =
       filter (λ y, lessDiagnostic x y = false ∧ lessDiagnostic y x = false) (normalize <$> items).
Proof.
  unfold NewSet, sortDiagnostics. split_and!.
  - apply sort_stable_perm.
  - apply sort_stable_sorted; typeclasses eauto.
  - intros x. apply sort_stable_keeps; typeclasses eauto.
Qed.

(** Merging sets gives the set of all their items: it does not matter how
    diagnostics were grouped, nor that sets were merged before. *)
Theorem Merge_regroups groups :
  Forall (Forall stable) groups → Merge (NewSet <$> groups) = NewSet (concat groups).
Proof.
  intros Hst. unfold Merge, Items. rewrite list_fmap_id. unfold NewSet at 1. rewrite fmap_concat, <- list_fmap_compose.
  assert (fmap normalize ∘ NewSet <$> groups = sortDiagnostics <$> (fmap normalize <$> groups)) as ->.
  { rewrite <- list_fmap_compose. apply list_fmap_ext. intros i items Hi. simpl. apply normalize_sorted_set.
    rewrite Forall_forall in Hst. apply Hst. by apply list_elem_of_lookup_2 in Hi. }
  unfold NewSet, sortDiagnostics. rewrite sort_stable_concat by typeclasses eauto. by rewrite fmap_concat.
Qed.
End normal.

(** ** Applied *)

#[local] Existing Instance ascii_tables.

Definition unplaced (code message path : string) : Diagnostic :=
  mkDiagnostic code "warning" message (mkLocation "" path (mkRange (mkPosition 0 0 0) (mkPosition 0 0 0)) None) [] [].

Lemma Merge_regroups_witness :
  Merge [NewSet [unplaced "spice.Scan.b" "second" ""]; NewSet [unplaced "spice.scan.a" "first" ""]] =
  [normalize (unplaced "spice.scan.a" "first" ""); normalize (unplaced "spice.scan.b" "second" "")].
Proof.
  rewrite (Merge_regroups [[unplaced "spice.Scan.b" "second" ""]; [unplaced "spice.scan.a" "first" ""]]).
  - vm_compute. reflexivity.
  - assert (∀ code message, normalizeCode (normalizeCode code) = normalizeCode code →
      trim_space (trim_space message) = trim_space message → stable (unplaced code message "")) as Hst.
    { intros code message Hcode Hmsg. split; [exact Hcode|]. split; [exact Hmsg|].
      split; [vm_compute; reflexivity|]. intros display Hd. simpl in Hd. congruence. }
    repeat apply Forall_cons_2; try apply Forall_nil_2; apply Hst; vm_compute; reflexivity.
Defined.

(** A path is cleaned after it is looked at: a set loses it when it is merged. *)
Example merge_loses_path :
  let set := NewSet [unplaced "spice.scan.a" "m" "./<generated>"] in
  (lc_Path ∘ dg_Location <$> set) = ["<generated>"] ∧ (lc_Path ∘ dg_Location <$> Merge [set]) = [""].
Proof. split; vm_compute; reflexivity. Qed.
