(* ===== verification/LspText.v ===== *)
(** Text positions of the language server: offsets in bytes, positions in
    lines and UTF-16 units, and the compiler's positions in lines and byte
    columns. src/internal/lsp/analysis.go and features.go. *)
From S2P Require Import Prelude GoSort GoStrings GoUrl Diag.

(** ** Data *)

Record protocolPosition := mkPos { pp_Line : Z; pp_Character : Z }.
Record protocolRange := mkProtocolRange { pr_Start : protocolPosition; pr_End : protocolPosition }.
Record protocolLocation := mkProtocolLocation { pl_URI : string; pl_Range : protocolRange }.
Record protocolRelatedInformation := mkProtocolRelated {
  pi_Location : protocolLocation;
  pi_Message : string;
}.
Record protocolDiagnostic := mkProtocolDiagnostic {
  pd_Range : protocolRange;
  pd_Severity : Z;
  pd_Code : string;
  pd_Source : string;
  pd_Message : string;
  pd_Related : list protocolRelatedInformation;
}.

#[export] Instance protocolPosition_eq_dec : EqDecision protocolPosition.
Proof. solve_decision. Defined.

(** ** Lines *)

(** [slices.Index(content, b)] *)
Fixpoint index_byte (b : ascii) (s : string) : option nat :=
  match s with
  | EmptyString => None
  | String c s' => if ascii_dec c b then Some O else S <$> index_byte b s'
  end.

(** The loop of [contentLine]: where the line [n] lines below the one at
    [start] starts. *)
Fixpoint skipLines (n : nat) (content : string) (start : nat) : option nat :=
  match n with
  | O => Some start
  | S n' =>
    match index_byte newline (str_drop start content) with
    | None => None
    | Some index => skipLines n' content (start + index + 1)
    end
  end.

Definition carriage_return : ascii := chr 13.

(** How far a line goes on: to the next line feed or carriage return. *)
Fixpoint lineWidth (s : string) : nat :=
  match s with
  | EmptyString => O
  | String c s' => if decide (c = newline ∨ c = carriage_return) then O else S (lineWidth s')
  end.

Definition contentLine (content : string) (oneBasedLine : Z) : option (nat * nat) :=
  if (oneBasedLine <=? 0)%Z then None
  else if decide (content = "") then (if (oneBasedLine =? 1)%Z then Some (0, 0)%nat else None)
  else
    match skipLines (Z.to_nat (oneBasedLine - 1)) content 0 with
    | None => None
    | Some start => Some (start, (start + lineWidth (str_drop start content))%nat)
    end.

(** The loop of [contentLineAtOffset]: back to the byte after a line feed. *)
Fixpoint lineStartBefore (content : string) (start : nat) : nat :=
  match start with
  | O => O
  | S start' =>
    if decide (str_get start' content = Some newline) then start else lineStartBefore content start'
  end.

Definition contentLineAtOffset (content : string) (offset : Z) : option nat :=
  if (offset <? 0)%Z || (Z.of_nat (String.length content) <? offset)%Z then None
  else Some (lineStartBefore content (Z.to_nat offset)).

(** ** UTF-16 *)

(** The code units of one rune. *)
Definition unitsOf (character : N) : Z := if (65535 <? character)%N then 2 else 1.

Definition utf16Length (content : string) : Z :=
  foldl (λ units rw, (units + unitsOf rw.1)%Z) 0%Z (runes content).

(** ** Offsets and positions *)

(** The loop of [byteOffset] over [rest], the text from [offset] to the end of
    the line. *)
Fixpoint byteOffsetLoop (fuel : nat) (rest : string) (offset : nat) (units character : Z) : option nat :=
  match fuel, rest with
  | S fuel', String _ _ =>
    if (units =? character)%Z then Some offset
    else
      let '(r, size) := decode_rune rest in
      let next := unitsOf r in
      if (character <? units + next)%Z then None
      else byteOffsetLoop fuel' (str_drop size rest) (offset + size) (units + next) character
  | _, _ => if (units =? character)%Z then Some offset else None
  end.

Definition byteOffset (content : string) (position : protocolPosition) : option nat :=
  if (pp_Line position <? 0)%Z || (pp_Character position <? 0)%Z then None
  else
    match contentLine content (pp_Line position + 1) with
    | None => None
    | Some (start, stop) =>
      let line := str_slice start stop content in
      byteOffsetLoop (String.length line) line start 0 (pp_Character position)
    end.

(** The scan of [protocolPositionAtOffset]: the line feeds before [offset] and
    the start of the last line. *)
Fixpoint lineOf (rest : string) (index : nat) (line : Z) (lineStart : nat) : Z * nat :=
  match rest with
  | EmptyString => (line, lineStart)
  | String value rest' =>
    if ascii_dec value newline then lineOf rest' (S index) (line + 1) (S index)
    else lineOf rest' (S index) line lineStart
  end.

Definition protocolPositionAtOffset (content : string) (offset : Z) : protocolPosition :=
  let offset := Z.to_nat (Z.min (Z.max offset 0) (Z.of_nat (String.length content))) in
  let '(line, lineStart) := lineOf (str_take offset content) 0 0 0 in
  mkPos line (utf16Length (str_slice lineStart offset content)).

Definition protocolRangeAtOffsets (content : string) (start stop : Z) : protocolRange :=
  mkProtocolRange (protocolPositionAtOffset content start) (protocolPositionAtOffset content stop).

Definition comparePosition (left right : protocolPosition) : Z :=
  if decide (pp_Line left ≠ pp_Line right) then pp_Line left - pp_Line right
  else pp_Character left - pp_Character right.

Definition rangesOverlap (left right : protocolRange) : bool :=
  (0 <=? comparePosition (pr_End left) (pr_Start right))%Z &&
  (0 <=? comparePosition (pr_End right) (pr_Start left))%Z.

(** ** The compiler's diagnostics *)

Definition protocolPositionFromCompiler (position : Position) (content : string) : protocolPosition :=
  let line := Z.max (ps_Line position - 1) 0 in
  let character := Z.max (ps_Column position - 1) 0 in
  if decide (content = "") then mkPos line character
  else
    match contentLine content (line + 1) with
    | None => mkPos line character
    | Some (start, stop) =>
      let byteColumn := Z.to_nat (Z.min (Z.max (ps_Column position - 1) 0) (Z.of_nat (stop - start))) in
      mkPos line (utf16Length (str_slice start (start + byteColumn) content))
    end.

Definition protocolRangeFromCompiler (item : Range) (content : string) : protocolRange :=
  mkProtocolRange (protocolPositionFromCompiler (rg_Start item) content)
    (protocolPositionFromCompiler (rg_End item) content).

Definition protocolSeverity (severity : string) : Z :=
  if decide (severity = SeverityError) then 1
  else if decide (severity = SeverityWarning) then 2
  else if decide (severity = SeverityInformation) then 3
  else if decide (severity = SeverityHint) then 4
  else 1.

(** Related information without a URI is left out. *)
Definition protocolRelated (related : RelatedInformation) : option protocolRelatedInformation :=
  if decide (lc_URI (ri_Location related) = "") then None
  else Some (mkProtocolRelated
    (mkProtocolLocation (lc_URI (ri_Location related))
      (protocolRangeFromCompiler (lc_Range (ri_Location related)) ""))
    (ri_Message related)).

Definition protocolDiagnosticFromCompiler (item : Diagnostic) (content : string) : protocolDiagnostic :=
  mkProtocolDiagnostic (protocolRangeFromCompiler (lc_Range (dg_Location item)) content)
    (protocolSeverity (dg_Severity item)) (dg_Code item) "spice" (dg_Message item)
    (omap protocolRelated (dg_Related item)).
