(* ===== verification/LspTextTheorems.v ===== *)
(** Text positions of the language server: lines and UTF-16 columns, and what
    the conversions between offsets and positions guarantee. *)
From S2P Require Import Prelude GoSort GoStrings ParserGrammar GoUrl Diag LspText.

(** ** Decoding a prefix *)

(** Cutting a text after its first rune does not change that rune. *)
Lemma decode_take_width s n : ((decode_rune s).2 ≤ n)%nat → decode_rune (str_take n s) = decode_rune s.
Proof.
  destruct s as [|c0 s]; [by destruct n|]. destruct n as [|n].
  { intros Hn. pose proof (decode_width (String c0 s) ltac:(done)). lia. }
  unfold decode_rune. cbn [str_take].
  destruct (byte_of c0 <? 128)%N; [done|]. destruct (negb (in_range 194 244 (byte_of c0))); [done|].
  destruct s as [|c1 s]; [by destruct n|].
  destruct n as [|n]; cbn [str_take]; destruct (negb (in_range _ _ (byte_of c1))); try done;
    destruct (byte_of c0 <? 224)%N; cbn [snd]; try done; try lia;
    (destruct s as [|c2 s]; [try done; by destruct n|]);
    [|destruct n as [|n]; cbn [str_take]];
    destruct (negb (in_range _ _ (byte_of c2))); try done;
    destruct (byte_of c0 <? 240)%N; cbn [snd]; try done; try lia;
    (destruct s as [|c3 s]; [try done; by destruct n|]);
    [| |destruct n as [|n]; cbn [str_take]];
    destruct (negb (in_range _ _ (byte_of c3))); cbn [snd]; try done; lia.
Qed.

(** ** UTF-16 lengths *)

Lemma runes_aux_enough fuel s : (String.length s ≤ fuel)%nat → runes_aux fuel s = runes s.
Proof.
  unfold runes. revert s. enough (∀ f1 f2 s, (String.length s ≤ f1)%nat → (String.length s ≤ f2)%nat →
    runes_aux f1 s = runes_aux f2 s) as Hf by by intros; apply Hf.
  induction f1 as [|f1 IH]; intros f2 s H1 H2.
  - destruct s; simpl in *; [|lia]. by destruct f2.
  - destruct f2 as [|f2]; [destruct s; simpl in *; [done|lia]|]. destruct s as [|c s]; [done|].
    cbn [runes_aux]. pose proof (decode_width (String c s) ltac:(done)) as Hw.
    destruct (decode_rune (String c s)) as [r w]. simpl in *. f_equal.
    apply IH; rewrite length_str_drop; simpl; lia.
Qed.

Lemma utf16_nil : utf16Length "" = 0%Z.
Proof. done. Qed.

Lemma utf16_next s :
  s ≠ "" → utf16Length s = (unitsOf (decode_rune s).1 + utf16Length (str_drop (decode_rune s).2 s))%Z.
Proof.
  intros Hs. unfold utf16Length at 1. pose proof (decode_width s Hs) as Hw.
  destruct s as [|c s]; [done|]. unfold runes. cbn [String.length runes_aux].
  destruct (decode_rune (String c s)) as [r w] eqn:E. cbn [fst snd] in *.
  rewrite runes_aux_enough by (rewrite length_str_drop; simpl in *; lia).
  cbn [foldl fst]. unfold utf16Length.
  assert (∀ l a, foldl (λ u (rw : N * nat), (u + unitsOf rw.1)%Z) a l = (a + foldl (λ u (rw : N * nat), (u + unitsOf rw.1)%Z) 0%Z l)%Z) as Hacc.
  { clear. intros l. induction l as [|rw l IH]; intros a; cbn [foldl]; [lia|].
    rewrite (IH (a + _)%Z), (IH (0 + _)%Z). lia. }
  rewrite Hacc. lia.
Qed.

Lemma units_positive r : (1 ≤ unitsOf r ≤ 2)%Z.
Proof. unfold unitsOf. case_match; lia. Qed.

Lemma utf16_nonneg s : (0 ≤ utf16Length s ≤ 2 * Z.of_nat (String.length s))%Z.
Proof.
  induction s as [s IH] using str_length_ind. destruct (decide (s = "")) as [->|Hs]; [done|].
  rewrite utf16_next by done. pose proof (decode_width s Hs) as Hw.
  specialize (IH (str_drop (decode_rune s).2 s)). rewrite length_str_drop in IH.
  pose proof (units_positive (decode_rune s).1). lia.
Qed.

(** ** Whole runes *)

(** [rune_boundary line n]: the first [n] bytes of [line] are whole runes. *)
Inductive rune_boundary : string → nat → Prop :=
  | boundary_start line : rune_boundary line 0
  | boundary_next line n :
      line ≠ "" → rune_boundary (str_drop (decode_rune line).2 line) n →
      rune_boundary line ((decode_rune line).2 + n).

Lemma boundary_le line n : rune_boundary line n → (n ≤ String.length line)%nat.
Proof.
  induction 1 as [|line n Hne _ IH]; [lia|]. rewrite length_str_drop in IH.
  pose proof (decode_width line Hne). lia.
Qed.

Lemma utf16_take_next line n :
  line ≠ "" → utf16Length (str_take ((decode_rune line).2 + n) line) =
    (unitsOf (decode_rune line).1 + utf16Length (str_take n (str_drop (decode_rune line).2 line)))%Z.
Proof.
  intros Hne. pose proof (decode_width line Hne) as Hw. rewrite utf16_next.
  - rewrite decode_take_width by lia. by rewrite str_drop_take.
  - destruct line as [|c line]; [done|]. destruct ((decode_rune _).2 + n)%nat eqn:E; [lia|done].
Qed.

Lemma str_take_0 s : str_take 0 s = "".
Proof. by destruct s. Qed.

(** A boundary is the start, or lies behind the first rune; with its column. *)
Lemma boundary_units line k :
  rune_boundary line k →
  k = 0%nat ∧ utf16Length (str_take k line) = 0%Z ∨
  line ≠ "" ∧ ∃ n, k = ((decode_rune line).2 + n)%nat ∧
    rune_boundary (str_drop (decode_rune line).2 line) n ∧
    utf16Length (str_take k line) =
      (unitsOf (decode_rune line).1 + utf16Length (str_take n (str_drop (decode_rune line).2 line)))%Z.
Proof.
  destruct 1 as [line|line n Hne Hk]; [left; by rewrite str_take_0|right].
  split; [done|]. exists n. by rewrite utf16_take_next.
Qed.

Lemma byteOffsetLoop_next fuel line offset units character :
  line ≠ "" →
  byteOffsetLoop (S fuel) line offset units character =
    if (units =? character)%Z then Some offset
    else if (character <? units + unitsOf (decode_rune line).1)%Z then None
    else byteOffsetLoop fuel (str_drop (decode_rune line).2 line) (offset + (decode_rune line).2)
           (units + unitsOf (decode_rune line).1) character.
Proof. destruct line; [done|]. intros _. cbn [byteOffsetLoop]. by destruct (decode_rune _). Qed.

Lemma byteOffsetLoop_end fuel offset units character o :
  byteOffsetLoop fuel "" offset units character = Some o ↔
  ∃ k, rune_boundary "" k ∧ o = (offset + k)%nat ∧ character = (units + utf16Length (str_take k ""))%Z.
Proof.
  replace (byteOffsetLoop fuel "" offset units character)
    with (if (units =? character)%Z then Some offset else None) by by destruct fuel.
  destruct (Z.eqb_spec units character) as [->|Hne]; split; try done.
  - intros [= <-]. exists 0%nat. rewrite str_take_0, utf16_nil. split_and!; [constructor|lia|lia].
  - intros (k & Hk & -> & _). apply boundary_le in Hk. simpl in Hk. f_equal. lia.
  - intros (k & Hk & _ & ->). apply boundary_le in Hk.
    destruct k; [rewrite str_take_0, utf16_nil in Hne; lia|simpl in Hk; lia].
Qed.

Lemma byteOffsetLoop_exact fuel line offset units character o :
  (String.length line ≤ fuel)%nat →
  byteOffsetLoop fuel line offset units character = Some o ↔
  ∃ k, rune_boundary line k ∧ o = (offset + k)%nat ∧ character = (units + utf16Length (str_take k line))%Z.
Proof.
  revert line offset units. induction fuel as [|fuel IH]; intros line offset units Hfuel;
    destruct (decide (line = "")) as [->|Hline]; try apply byteOffsetLoop_end; [destruct line; simpl in *; [done|lia]|].
  rewrite byteOffsetLoop_next by done. pose proof (decode_width line Hline) as Hw.
  pose proof (units_positive (decode_rune line).1) as Hu.
  destruct (Z.eqb_spec units character) as [->|Hne]; [|case_match eqn:Hlt; bool_prop].
  - split.
    + intros [= <-]. exists 0%nat. rewrite str_take_0, utf16_nil. split_and!; [constructor|lia|lia].
    + intros (k & [[-> _]|(_ & n & -> & _ & Hn)]%boundary_units & -> & Hch); [f_equal; lia|].
      rewrite Hn in Hch. pose proof (utf16_nonneg (str_take n (str_drop (decode_rune line).2 line))). lia.
  - split; [done|]. intros (k & [[-> Hn]|(_ & n & -> & _ & Hn)]%boundary_units & _ & Hch); [lia|].
    rewrite Hn in Hch. pose proof (utf16_nonneg (str_take n (str_drop (decode_rune line).2 line))). lia.
  - rewrite IH by (rewrite length_str_drop; lia). split.
    + intros (k & Hk & -> & ->). exists ((decode_rune line).2 + k)%nat.
      rewrite utf16_take_next by done. split_and!; [by constructor|lia|lia].
    + intros (k & [[-> Hn]|(_ & n & -> & Hb & Hn)]%boundary_units & -> & Hch); [lia|].
      rewrite Hn in Hch. exists n. split_and!; [done|lia|lia].
Qed.

(** ** Lines *)

(** The line feeds of a text. *)
Fixpoint line_feeds (s : string) : nat :=
  match s with
  | EmptyString => O
  | String c s' => if ascii_dec c newline then S (line_feeds s') else line_feeds s'
  end.

(** [skipLines] counted from the place where it starts. *)
Fixpoint skip_from (n : nat) (rest : string) : option nat :=
  match n with
  | O => Some O
  | S n' => index ← index_byte newline rest; plus (index + 1) <$> skip_from n' (str_drop (index + 1) rest)
  end.

Lemma skipLines_from n content start :
  skipLines n content start = plus start <$> skip_from n (str_drop start content).
Proof.
  revert start. induction n as [|n IH]; intros start; cbn [skipLines skip_from].
  - simpl. f_equal. lia.
  - destruct (index_byte newline (str_drop start content)) as [i|]; [|done]. simpl.
    rewrite IH, <- Nat.add_assoc, <- str_drop_drop.
    destruct (skip_from n _); simpl; [|done]. f_equal. lia.
Qed.

Lemma skip_from_cons n c rest :
  skip_from (S n) (String c rest) =
    S <$> (if ascii_dec c newline then skip_from n rest else skip_from (S n) rest).
Proof.
  cbn [skip_from index_byte]. destruct (ascii_dec c newline).
  - simpl. rewrite ?str_drop_0. destruct (skip_from n rest); done.
  - destruct (index_byte newline rest) as [i|]; simpl; [|done].
    by destruct (skip_from n (str_drop (i + 1) rest)).
Qed.

Lemma line_feeds_get s n : str_get n s = Some newline → (1 ≤ line_feeds (str_take (S n) s))%nat.
Proof.
  revert n. induction s as [|c s IH]; intros n Hn; [by destruct n|]. cbn [str_take line_feeds].
  destruct (ascii_dec c newline); [lia|]. destruct n as [|n]; [by simplify_eq/=|]. by apply IH.
Qed.

(** [s] is the start of a line of [rest]. *)
Definition starts_line (s : nat) (rest : string) : Prop :=
  match s with O => True | S s' => str_get s' rest = Some newline end.

(** What [skip_from] finds: the start of a line, with [n] line feeds before. *)
Lemma skip_from_exact n rest s :
  skip_from n rest = Some s ↔
  (s ≤ String.length rest)%nat ∧ line_feeds (str_take s rest) = n ∧ starts_line s rest.
Proof.
  revert n s. induction rest as [|c rest IH]; intros n s.
  { destruct n; simpl; [|split; [done|intros (Hs & Hn & _); by destruct s]].
    split; [intros [= <-]; by repeat split|]. intros (? & _ & _). f_equal. lia. }
  destruct n as [|n].
  { split; [intros [= <-]; split_and!; [lia|done|done]|]. intros (Hs & Hn & Hst).
    destruct s as [|s]; [done|]. apply line_feeds_get in Hst. lia. }
  rewrite skip_from_cons, fmap_Some. split.
  - intros (s' & Hs' & ->). cbn [str_take line_feeds String.length].
    destruct (ascii_dec c newline) as [->|Hc]; apply IH in Hs' as (Hle & Hn & Hst);
      (split_and!; [lia|by rewrite Hn|]); destruct s' as [|s']; done.
  - intros (Hs & Hn & Hst). destruct s as [|s]; [done|]. exists s. split; [|done].
    cbn [str_take line_feeds String.length] in *.
    destruct (ascii_dec c newline) as [->|Hc]; apply IH; (split_and!; [lia|by simplify_eq|]);
      destruct s as [|s]; try done.
Qed.

Lemma lineStartBefore_S s n :
  lineStartBefore s (S n) = if decide (str_get n s = Some newline) then S n else lineStartBefore s n.
Proof. done. Qed.

Lemma lineStartBefore_cons c t n :
  lineStartBefore (String c t) (S n) =
    match lineStartBefore t n with O => if ascii_dec c newline then 1%nat else O | s => S s end.
Proof.
  induction n as [|n IH].
  - simpl. destruct (ascii_dec c newline) as [->|Hc]; [done|]. rewrite decide_False by congruence. done.
  - rewrite lineStartBefore_S, (lineStartBefore_S t n), IH. cbn [str_get]. by case_decide.
Qed.

(** [lineOf] counts the line feeds and finds the last start of a line. *)
Lemma lineOf_exact t index line lineStart :
  lineOf t index line lineStart =
    ((line + Z.of_nat (line_feeds t))%Z,
     match lineStartBefore t (String.length t) with O => lineStart | s => (index + s)%nat end).
Proof.
  revert index line lineStart. induction t as [|c t IH]; intros index line lineStart; cbn [lineOf line_feeds].
  - simpl. f_equal. lia.
  - cbn [String.length]. rewrite lineStartBefore_cons.
    destruct (ascii_dec c newline); rewrite IH; f_equal; try lia;
      destruct (lineStartBefore t (String.length t)); lia.
Qed.

Lemma str_get_take n s k : (k < n)%nat → str_get k (str_take n s) = str_get k s.
Proof. revert k s. induction n as [|n IH]; intros k s Hk; [lia|]. destruct s as [|c s]; [done|]. destruct k; simpl; [done|]. apply IH. lia. Qed.

Lemma lineStartBefore_take s n k : (k ≤ n)%nat → lineStartBefore (str_take n s) k = lineStartBefore s k.
Proof.
  intros Hk. induction k as [|k IH]; [done|]. cbn [lineStartBefore]. rewrite str_get_take by lia.
  by rewrite IH by lia.
Qed.

(** The start of the line of [o]: a start, with no line feed up to [o]. *)
Lemma lineStartBefore_start s o : starts_line (lineStartBefore s o) s.
Proof. induction o as [|o IH]; [done|]. cbn [lineStartBefore]. by case_decide. Qed.

Lemma lineStartBefore_le s o : (lineStartBefore s o ≤ o)%nat.
Proof. induction o as [|o IH]; [done|]. cbn [lineStartBefore]. case_decide; lia. Qed.

Lemma lineStartBefore_between s o k :
  (lineStartBefore s o ≤ k < o)%nat → str_get k s ≠ Some newline.
Proof.
  induction o as [|o IH]; [lia|]. cbn [lineStartBefore]. case_decide as Hd; [lia|]. intros Hk.
  destruct (decide (k = o)) as [->|]; [done|]. apply IH. lia.
Qed.

Lemma lineStartBefore_unique s o a :
  starts_line a s → (a ≤ o)%nat → (∀ k, (a ≤ k < o)%nat → str_get k s ≠ Some newline) →
  lineStartBefore s o = a.
Proof.
  induction o as [|o IH]; intros Ha Hle Hk; [simpl; lia|]. cbn [lineStartBefore].
  case_decide as Hd.
  - destruct (decide (a = S o)) as [->|]; [done|]. exfalso. apply (Hk o); [lia|done].
  - destruct (decide (a = S o)) as [->|]; [done|]. apply IH; [done|lia|]. intros k ?. apply Hk. lia.
Qed.

Lemma line_feeds_same s a o :
  (a ≤ o)%nat → (∀ k, (a ≤ k < o)%nat → str_get k s ≠ Some newline) →
  line_feeds (str_take o s) = line_feeds (str_take a s).
Proof.
  revert a o. induction s as [|c s IH]; intros a o Hle Hk; [by destruct a, o|].
  destruct o as [|o]; [by replace a with 0%nat by lia|]. destruct a as [|a].
  - cbn [str_take line_feeds]. destruct (ascii_dec c newline) as [->|]; [by destruct (Hk 0%nat); [lia|]|].
    rewrite (IH 0%nat) by (try lia; intros k ?; apply (Hk (S k)); lia). by rewrite str_take_0.
  - cbn [str_take line_feeds]. rewrite (IH a) by (try lia; intros k ?; apply (Hk (S k)); lia). done.
Qed.

(** The position of an offset, without the scan. *)
Lemma protocolPositionAtOffset_eq content o :
  (o ≤ String.length content)%nat →
  protocolPositionAtOffset content (Z.of_nat o) =
    mkPos (Z.of_nat (line_feeds (str_take o content)))
      (utf16Length (str_slice (lineStartBefore content o) o content)).
Proof.
  intros Ho. unfold protocolPositionAtOffset.
  replace (Z.to_nat _) with o by lia. rewrite lineOf_exact, length_str_take, Nat.min_l by done.
  rewrite lineStartBefore_take by done. destruct (lineStartBefore content o) eqn:E; f_equal; lia.
Qed.

(** ** Lines of the content *)

Lemma contentLine_exact content line start stop :
  contentLine content (line + 1) = Some (start, stop) ↔
  (0 ≤ line)%Z ∧ (start ≤ String.length content)%nat ∧
  Z.of_nat (line_feeds (str_take start content)) = line ∧ starts_line start content ∧
  stop = (start + lineWidth (str_drop start content))%nat.
Proof.
  unfold contentLine. case_match eqn:Hpos; bool_prop; [split; [done|lia]|].
  case_decide as Hempty; [subst content|].
  - destruct (Z.eqb_spec (line + 1) 1) as [Hl|Hl]; split; try done.
    + intros [= <- <-]. split_and!; simpl; done || lia.
    + intros (_ & Hs & _ & _ & ->). destruct start; [done|simpl in Hs; lia].
    + intros (_ & Hs & Hl' & _). destruct start; [simpl in Hl'; lia|simpl in Hs; lia].
  - rewrite skipLines_from, str_drop_0. destruct (skip_from _ content) as [s|] eqn:Hskip; simpl.
    + apply skip_from_exact in Hskip as (Hs & Hn & Hst). split.
      * intros [= <- <-]. split_and!; done || lia.
      * intros (H0 & Hs' & Hn' & Hst' & ->).
        enough (s = start) as -> by done.
        enough (skip_from (Z.to_nat (line + 1 - 1)) content = Some start) as He.
        { assert (skip_from (Z.to_nat (line + 1 - 1)) content = Some s) by by apply skip_from_exact. congruence. }
        apply skip_from_exact. split_and!; [done|lia|done].
    + split; [done|]. intros (H0 & Hs' & Hn' & Hst' & ->).
      assert (skip_from (Z.to_nat (line + 1 - 1)) content = Some start); [|congruence].
      apply skip_from_exact. split_and!; [done|lia|done].
Qed.

Lemma lineWidth_le s : (lineWidth s ≤ String.length s)%nat.
Proof. induction s as [|c s IH]; simpl; [done|]. case_decide; lia. Qed.

Lemma lineWidth_before s k : (k < lineWidth s)%nat → str_get k s ≠ Some newline.
Proof.
  revert k. induction s as [|c s IH]; intros k; simpl; [lia|]. case_decide as Hc; [lia|].
  destruct k as [|k]; [intros _ [= ->]; auto|]. intros Hk. apply IH. lia.
Qed.

Lemma str_slice_width a w s : str_slice a (a + w) s = str_take w (str_drop a s).
Proof. unfold str_slice. by replace (a + w - a)%nat with w by lia. Qed.

Lemma str_get_drop_plus a k s : str_get k (str_drop a s) = str_get (a + k) s.
Proof. revert a. induction s as [|c s IH]; intros [|a]; simpl; try done; by destruct k. Qed.

(** Within the width of a line there is one line, and its start is known. *)
Lemma within_line content start k :
  starts_line start content → (k ≤ lineWidth (str_drop start content))%nat →
  lineStartBefore content (start + k) = start ∧
  line_feeds (str_take (start + k) content) = line_feeds (str_take start content).
Proof.
  intros Hst Hk.
  assert (∀ j, (start ≤ j < start + k)%nat → str_get j content ≠ Some newline) as Hno.
  { intros j Hj. replace j with (start + (j - start))%nat by lia. rewrite <- str_get_drop_plus.
    apply lineWidth_before. lia. }
  split; [apply lineStartBefore_unique; [done|lia|done]|apply line_feeds_same; [lia|done]].
Qed.

(** The line of an offset, to its first line feed or carriage return. *)
Definition line_at (content : string) (o : nat) : string :=
  let start := lineStartBefore content o in
  str_take (lineWidth (str_drop start content)) (str_drop start content).

(** An offset between two runes of its line, not behind a carriage return. *)
Definition addressable (content : string) (o : nat) : Prop :=
  (o ≤ String.length content)%nat ∧
  rune_boundary (line_at content o) (o - lineStartBefore content o).

Lemma length_line_at content o :
  String.length (line_at content o) = lineWidth (str_drop (lineStartBefore content o) content).
Proof. unfold line_at. rewrite length_str_take. pose proof (lineWidth_le (str_drop (lineStartBefore content o) content)). lia. Qed.

(** C39. [byteOffset] accepts exactly the positions of the offsets between two
    runes of a line, and returns that offset: it inverts
    [protocolPositionAtOffset] in both directions. *)
Theorem byteOffset_exact content position o :
  byteOffset content position = Some o ↔
  addressable content o ∧ protocolPositionAtOffset content (Z.of_nat o) = position.
Proof.
  unfold byteOffset. destruct position as [line character]. cbn [pp_Line pp_Character]. split.
  - case_match eqn:Hneg; [done|]. bool_prop.
    destruct (contentLine content (line + 1)) as [[start stop]|] eqn:Hline; [|done].
    apply contentLine_exact in Hline as (_ & Hs & <- & Hst & ->). rewrite str_slice_width.
    intros (k & Hk & -> & ->)%byteOffsetLoop_exact; [|done].
    pose proof (boundary_le _ _ Hk) as Hle. rewrite length_str_take, length_str_drop in Hle.
    destruct (within_line content start k Hst ltac:(lia)) as [Hstart Hfeeds].
    assert (start + k ≤ String.length content)%nat by lia.
    unfold addressable, line_at. rewrite protocolPositionAtOffset_eq, Hstart, Hfeeds by done.
    replace (start + k - start)%nat with k by lia.
    split; [done|]. rewrite str_slice_width, str_take_take, Nat.min_l by lia. by f_equal.
  - intros [[Ho Hb] Hp]. rewrite protocolPositionAtOffset_eq in Hp by done. injection Hp as <- <-.
    pose proof (utf16_nonneg (str_slice (lineStartBefore content o) o content)).
    rewrite (proj2 (orb_false_iff _ _)) by (split; apply Z.ltb_ge; lia).
    pose proof (boundary_le _ _ Hb) as Hle. rewrite length_line_at in Hle.
    pose proof (lineStartBefore_le content o) as Hsl. pose proof (lineStartBefore_start content o) as Hst.
    destruct (within_line content (lineStartBefore content o) (o - lineStartBefore content o) Hst Hle) as [_ Hfeeds].
    replace (lineStartBefore content o + (o - lineStartBefore content o))%nat with o in Hfeeds by lia.
    rewrite (proj2 (contentLine_exact content _ (lineStartBefore content o) _)) by (split_and!; [lia|lia|by rewrite Hfeeds|done|done]).
    rewrite str_slice_width. apply byteOffsetLoop_exact; [done|].
    exists (o - lineStartBefore content o)%nat. split_and!; [exact Hb|lia|].
    unfold str_slice. rewrite str_take_take, Nat.min_l by done. lia.
Qed.

(** A position of the compiler on a line of a text becomes the position of
    its byte, or of the end of the line when the column lies behind it. *)
Theorem protocolPositionFromCompiler_exact position content start stop :
  content ≠ "" → contentLine content (ps_Line position) = Some (start, stop) →
  protocolPositionFromCompiler position content =
    protocolPositionAtOffset content
      (Z.min (Z.of_nat start + Z.max (ps_Column position - 1) 0) (Z.of_nat stop)).
Proof.
  intros Hne Hline. replace (ps_Line position) with (ps_Line position - 1 + 1)%Z in Hline by lia.
  pose proof Hline as (Hpos & Hs & Hfeeds & Hst & ->)%contentLine_exact.
  set (k := Z.to_nat (Z.min (Z.max (ps_Column position - 1) 0) (Z.of_nat (lineWidth (str_drop start content))))).
  pose proof (lineWidth_le (str_drop start content)) as Hw. rewrite length_str_drop in Hw.
  replace (Z.min _ _) with (Z.of_nat (start + k)) by lia.
  destruct (within_line content start k Hst ltac:(lia)) as [Hstart Hsame].
  rewrite protocolPositionAtOffset_eq, Hstart, Hsame, Hfeeds by lia.
  unfold protocolPositionFromCompiler. rewrite decide_False by done.
  replace (Z.max (ps_Line position - 1) 0 + 1)%Z with (ps_Line position - 1 + 1)%Z by lia.
  rewrite Hline. f_equal; [lia|]. do 2 f_equal. lia.
Qed.
