(* ===== verification/LspServer.v ===== *)
(** The language server's documents, workspaces and analyses:
    src/internal/lsp/server.go and analysis.go as a step function.

    One [action] is a message the client sends, or one step of a goroutine: a
    section under the server's lock, a write to the client, a timer that fires,
    the return of [Service.Analyze] or [Service.Close]. The file system, the
    results of the compiler and the writer's errors are the arguments of the
    actions; [step] refuses an action that is not enabled. A handler that works
    without the lock between two locked sections is one step where no other
    goroutine can change what it reads: only the goroutine of [Run] adds and
    removes documents and workspaces. *)
From S2P Require Import Prelude GoSort GoStrings GoUrl Diag LspText.

(** ** Data *)

(** What the server uses of [compilerservice.Result]: [Diagnostics().Items()]
    and [GenerationReady()]. *)
Record Result := mkResult { rs_diagnostics : list Diagnostic; rs_generationReady : bool }.

(** type analysisSettings; a workspace and the server hold the same fields. *)
Record analysisSettings := mkSettings {
  as_Target : string;
  as_Patterns : list string;
  as_Profile : string;
  as_Style : string;
}.
Definition noSettings : analysisSettings := mkSettings "" [] "" "".
#[export] Instance analysisSettings_eq_dec : EqDecision analysisSettings. Proof. solve_decision. Defined.

(** type document *)
Record document := mkDocument {
  dc_uri : string;
  dc_path : string;
  dc_language : string;
  dc_version : Z;
  dc_content : string;
  dc_root : string;
}.

Definition set_dc_version (v : Z) (r : document) : document :=
  mkDocument (dc_uri r) (dc_path r) (dc_language r) v (dc_content r) (dc_root r).
Definition set_dc_content (v : string) (r : document) : document :=
  mkDocument (dc_uri r) (dc_path r) (dc_language r) (dc_version r) v (dc_root r).
Definition set_dc_root (v : string) (r : document) : document :=
  mkDocument (dc_uri r) (dc_path r) (dc_language r) (dc_version r) (dc_content r) v.

(** type workspace *)
Record workspace := mkWorkspace {
  ws_id : nat;   (* the identity of the object *)
  ws_root : string;
  ws_uri : string;
  ws_sequence : N;   (* uint64 *)
  ws_timer : option nat;
  ws_cancel : option nat;   (* the analysis whose context it cancels *)
  ws_latest : option Result;   (* with hasLatest *)
  ws_lastGood : option Result;   (* with hasGood *)
  ws_settings : analysisSettings;   (* target, patterns, profile, style *)
  ws_published : gset string;
  ws_documents : gset string;
}.

Definition set_ws_sequence (v : N) (r : workspace) : workspace :=
  mkWorkspace (ws_id r) (ws_root r) (ws_uri r) v (ws_timer r) (ws_cancel r) (ws_latest r) (ws_lastGood r) (ws_settings r) (ws_published r) (ws_documents r).
Definition set_ws_timer (v : option nat) (r : workspace) : workspace :=
  mkWorkspace (ws_id r) (ws_root r) (ws_uri r) (ws_sequence r) v (ws_cancel r) (ws_latest r) (ws_lastGood r) (ws_settings r) (ws_published r) (ws_documents r).
Definition set_ws_cancel (v : option nat) (r : workspace) : workspace :=
  mkWorkspace (ws_id r) (ws_root r) (ws_uri r) (ws_sequence r) (ws_timer r) v (ws_latest r) (ws_lastGood r) (ws_settings r) (ws_published r) (ws_documents r).
Definition set_ws_latest (v : option Result) (r : workspace) : workspace :=
  mkWorkspace (ws_id r) (ws_root r) (ws_uri r) (ws_sequence r) (ws_timer r) (ws_cancel r) v (ws_lastGood r) (ws_settings r) (ws_published r) (ws_documents r).
Definition set_ws_lastGood (v : option Result) (r : workspace) : workspace :=
  mkWorkspace (ws_id r) (ws_root r) (ws_uri r) (ws_sequence r) (ws_timer r) (ws_cancel r) (ws_latest r) v (ws_settings r) (ws_published r) (ws_documents r).
Definition set_ws_settings (v : analysisSettings) (r : workspace) : workspace :=
  mkWorkspace (ws_id r) (ws_root r) (ws_uri r) (ws_sequence r) (ws_timer r) (ws_cancel r) (ws_latest r) (ws_lastGood r) v (ws_published r) (ws_documents r).
Definition set_ws_published (v : gset string) (r : workspace) : workspace :=
  mkWorkspace (ws_id r) (ws_root r) (ws_uri r) (ws_sequence r) (ws_timer r) (ws_cancel r) (ws_latest r) (ws_lastGood r) (ws_settings r) v (ws_documents r).
Definition set_ws_documents (v : gset string) (r : workspace) : workspace :=
  mkWorkspace (ws_id r) (ws_root r) (ws_uri r) (ws_sequence r) (ws_timer r) (ws_cancel r) (ws_latest r) (ws_lastGood r) (ws_settings r) (ws_published r) v.

(** type analysisSnapshot; the service is named by its workspace object. *)
Record analysisSnapshot := mkSnapshot {
  sn_root : string;
  sn_settings : analysisSettings;
  sn_sequence : N;
  sn_overlay : gmap string (Z * string);   (* version and content *)
  sn_versions : gmap string Z;
  sn_service : nat;
}.

Record diagnosticPublication := mkPublication {
  dp_uri : string;
  dp_version : option Z;
  dp_diagnostics : list protocolDiagnostic;
}.

(** What the client receives. *)
Inductive notification :=
  | PublishDiagnostics (publication : diagnosticPublication)
  | ShowMessage (message : string)
  | Response
  | Failure (code : Z) (message : string).

(** Where a goroutine of [beginAnalysis] is: in [LoadConfiguration] or
    [Analyze], in [showError], before the lock of [completeAnalysis], before
    [sequenceCurrent], after it and before the write. *)
Inductive analysisPoint :=
  | AtAnalyze
  | AtShowError (message : string)
  | AtComplete (result : Result)
  | AtCheck (publications : list diagnosticPublication) (messages : list string)
  | AtWrite (publications : list diagnosticPublication) (messages : list string).

(** A goroutine of beginAnalysis that was not refused. *)
Record analysis := mkAnalysis {
  an_key : string;
  an_snapshot : analysisSnapshot;
  an_cancelled : bool;   (* its context is cancelled *)
  an_point : analysisPoint;
}.

Definition set_an_cancelled (v : bool) (r : analysis) : analysis :=
  mkAnalysis (an_key r) (an_snapshot r) v (an_point r).
Definition set_an_point (v : analysisPoint) (r : analysis) : analysis :=
  mkAnalysis (an_key r) (an_snapshot r) (an_cancelled r) v.

(** type Server, without the parts of executeCommand *)
Record server := mkServer {
  sv_initialized : bool;
  sv_shutdown : bool;
  sv_closing : bool;
  sv_settings : analysisSettings;   (* target, patterns, profile, style *)
  sv_workspaces : gmap string workspace;
  sv_documents : gmap string document;
  sv_asyncErr : list string;
}.

Definition set_sv_initialized (v : bool) (r : server) : server :=
  mkServer v (sv_shutdown r) (sv_closing r) (sv_settings r) (sv_workspaces r) (sv_documents r) (sv_asyncErr r).
Definition set_sv_shutdown (v : bool) (r : server) : server :=
  mkServer (sv_initialized r) v (sv_closing r) (sv_settings r) (sv_workspaces r) (sv_documents r) (sv_asyncErr r).
Definition set_sv_closing (v : bool) (r : server) : server :=
  mkServer (sv_initialized r) (sv_shutdown r) v (sv_settings r) (sv_workspaces r) (sv_documents r) (sv_asyncErr r).
Definition set_sv_settings (v : analysisSettings) (r : server) : server :=
  mkServer (sv_initialized r) (sv_shutdown r) (sv_closing r) v (sv_workspaces r) (sv_documents r) (sv_asyncErr r).
Definition set_sv_workspaces (v : gmap string workspace) (r : server) : server :=
  mkServer (sv_initialized r) (sv_shutdown r) (sv_closing r) (sv_settings r) v (sv_documents r) (sv_asyncErr r).
Definition set_sv_documents (v : gmap string document) (r : server) : server :=
  mkServer (sv_initialized r) (sv_shutdown r) (sv_closing r) (sv_settings r) (sv_workspaces r) v (sv_asyncErr r).
Definition set_sv_asyncErr (v : list string) (r : server) : server :=
  mkServer (sv_initialized r) (sv_shutdown r) (sv_closing r) (sv_settings r) (sv_workspaces r) (sv_documents r) v.

(** [errors.Is] distinguishes the first two errors of [Analyze]. *)
Inductive analyzed :=
  | AnalyzeCanceled
  | AnalyzeStale
  | AnalyzeFailed (err : string)
  | LoadFailed (err : string)   (* of the style configuration *)
  | Analyzed (result : Result).

(** What the goroutine of [Run] still has to do for a message. *)
Inductive work :=
  | Answer (n : notification)   (* a write whose error ends Run *)
  | Inform (n : notification)   (* a write whose error only cancels Run's context *)
  | Clear (uris : list string)   (* the empty publications of removeWorkspace *)
  | RemoveFolder (uri : string)
  | AddFolder (uri : string).

(** The goroutine of [Run]: in its loop, in [stop] before the wait groups, in
    [stop] closing services, returned. The errors are those [errors.Join]
    joins. *)
Inductive mainState :=
  | Serving (todo : list work)
  | Waiting (errs : list string) (services : list nat)
  | Closing (errs : list string) (services : list nat)
  | Stopped (errs : list string).

(** Goroutines, timers and what the client sees. *)
Record runtime := mkRuntime {
  rt_next : nat;   (* the next timer, analysis or workspace object *)
  rt_timers : gmap nat (string * N);   (* armed timers: the arguments of beginAnalysis *)
  rt_fired : gmap nat (string * N);   (* goroutines of fired timers, before the lock *)
  rt_analyses : gmap nat analysis;   (* goroutines between the lock and their end *)
  rt_answers : list (analysisSnapshot * analyzed);   (* history: the answers of Analyze; no step reads it *)
  rt_done : bool;   (* the context of Run is cancelled *)
  rt_closers : list nat;   (* goroutines of removeWorkspace: the service to close *)
  rt_closed : list nat;   (* services that are closed *)
  rt_main : mainState;   (* the goroutine of Run *)
  rt_sent : list notification;   (* what the client received *)
}.

Definition set_rt_next (v : nat) (r : runtime) : runtime :=
  mkRuntime v (rt_timers r) (rt_fired r) (rt_analyses r) (rt_answers r) (rt_done r) (rt_closers r) (rt_closed r) (rt_main r) (rt_sent r).
Definition set_rt_timers (v : gmap nat (string * N)) (r : runtime) : runtime :=
  mkRuntime (rt_next r) v (rt_fired r) (rt_analyses r) (rt_answers r) (rt_done r) (rt_closers r) (rt_closed r) (rt_main r) (rt_sent r).
Definition set_rt_fired (v : gmap nat (string * N)) (r : runtime) : runtime :=
  mkRuntime (rt_next r) (rt_timers r) v (rt_analyses r) (rt_answers r) (rt_done r) (rt_closers r) (rt_closed r) (rt_main r) (rt_sent r).
Definition set_rt_analyses (v : gmap nat analysis) (r : runtime) : runtime :=
  mkRuntime (rt_next r) (rt_timers r) (rt_fired r) v (rt_answers r) (rt_done r) (rt_closers r) (rt_closed r) (rt_main r) (rt_sent r).
Definition set_rt_answers (v : list (analysisSnapshot * analyzed)) (r : runtime) : runtime :=
  mkRuntime (rt_next r) (rt_timers r) (rt_fired r) (rt_analyses r) v (rt_done r) (rt_closers r) (rt_closed r) (rt_main r) (rt_sent r).
Definition set_rt_done (v : bool) (r : runtime) : runtime :=
  mkRuntime (rt_next r) (rt_timers r) (rt_fired r) (rt_analyses r) (rt_answers r) v (rt_closers r) (rt_closed r) (rt_main r) (rt_sent r).
Definition set_rt_closers (v : list nat) (r : runtime) : runtime :=
  mkRuntime (rt_next r) (rt_timers r) (rt_fired r) (rt_analyses r) (rt_answers r) (rt_done r) v (rt_closed r) (rt_main r) (rt_sent r).
Definition set_rt_closed (v : list nat) (r : runtime) : runtime :=
  mkRuntime (rt_next r) (rt_timers r) (rt_fired r) (rt_analyses r) (rt_answers r) (rt_done r) (rt_closers r) v (rt_main r) (rt_sent r).
Definition set_rt_main (v : mainState) (r : runtime) : runtime :=
  mkRuntime (rt_next r) (rt_timers r) (rt_fired r) (rt_analyses r) (rt_answers r) (rt_done r) (rt_closers r) (rt_closed r) v (rt_sent r).
Definition set_rt_sent (v : list notification) (r : runtime) : runtime :=
  mkRuntime (rt_next r) (rt_timers r) (rt_fired r) (rt_analyses r) (rt_answers r) (rt_done r) (rt_closers r) (rt_closed r) (rt_main r) v.

Record world := mkWorld {
  w_server : server;
  w_run : runtime;
}.

Definition set_w_server (v : server) (r : world) : world :=
  mkWorld v (w_run r).
Definition set_w_run (v : runtime) (r : world) : world :=
  mkWorld (w_server r) v.

(** ** Configuration *)

Record serverConfig := mkServerConfig { sc_analysisDelay : Z; sc_maxDocumentBytes : Z }.

Definition defaultAnalysisDelay : Z := 150 * 1000000.
Definition defaultDocumentBytes : Z := 16 * 2 ^ 20.

(** [New]; the flag says that the service factory is not nil. *)
Definition New (newService : bool) (analysisDelay maxDocumentBytes : Z) : outcome string serverConfig :=
  _ ← guard_or newService "LSP compiler service factory must not be nil";
  let analysisDelay := if (analysisDelay =? 0)%Z then defaultAnalysisDelay else analysisDelay in
  _ ← guard_or (negb (analysisDelay <? 0)%Z) "LSP analysis delay must not be negative";
  let maxDocumentBytes := if (maxDocumentBytes =? 0)%Z then defaultDocumentBytes else maxDocumentBytes in
  _ ← guard_or (negb (maxDocumentBytes <=? 0)%Z) "LSP document byte limit must be positive";
  Ok (mkServerConfig analysisDelay maxDocumentBytes).

Definition initialServer : server := mkServer false false false noSettings ∅ ∅ [].
Definition initialWorld : world := mkWorld initialServer (mkRuntime 0 ∅ ∅ ∅ [] false [] [] (Serving []) []).

(** The file system and the service factory, as one step sees them. *)
Inductive stat :=
  | StatDirectory
  | StatRegular (size : Z)
  | StatOther
  | StatMissing
  | StatError (message : string).
Record environment := mkEnvironment {
  env_stat : string → stat;
  env_read : string → option string;
  env_newService : string → outcome string ();
  env_visit : list string;   (* the order in which a range visits the documents *)
}.

(** Decoded messages; [Fail] is a parameter value [decodeParams] rejects. *)
Record textDocumentItem := mkItem {
  ti_URI : string;
  ti_LanguageID : string;
  ti_Version : Z;
  ti_Text : string;
}.
Record contentChange := mkChange { ch_Range : option protocolRange; ch_Text : string }.
Record initializeParams := mkInitialize {
  ip_RootURI : string;
  ip_RootPath : string;
  ip_WorkspaceFolders : list string;   (* their URIs *)
  ip_InitializationOptions : option analysisSettings;
}.
Inductive message :=
  | Malformed (code : Z) (text : string)   (* an rpcClientError of the reader *)
  | Initialize (request : bool) (params : outcome string initializeParams)
  | Exit
  | CancelRequest
  | DidOpen (params : outcome string textDocumentItem)
  | DidChange (params : outcome string (string * Z * list contentChange))
  | DidSave (params : outcome string (string * option string))
  | DidClose (params : outcome string string)
  | DidChangeWorkspaceFolders (params : outcome string (list string * list string))   (* removed, added *)
  | DidChangeConfiguration (params : outcome string (option analysisSettings))
  | Shutdown (request : bool)
  | OtherNotification
  | OtherRequest (answer : notification).   (* one that only reads the state *)

(** [message.request()] *)
Definition is_request (m : message) : bool :=
  match m with
  | Initialize request _ | Shutdown request => request
  | OtherRequest _ => true
  | _ => false
  end.

(** ** Paths and settings *)

Section paths.
Context `{UnicodeTables} `{GoUrl}.

Definition filePath (identity : string) : outcome string string :=
  match url_parse identity with
  | Fail err => Fail ("parse file URI " +:+ go_quote identity +:+ ": " +:+ err)
  | Ok parsed =>
    if decide (url_Scheme parsed = "") then Ok (filepath_abs identity)
    else if decide (url_Scheme parsed ≠ "file") then
      Fail ("LSP URI " +:+ go_quote identity +:+ " must use file scheme")
    else if decide (url_Host parsed ≠ "" ∧ url_Host parsed ≠ "localhost") then
      Fail ("LSP URI " +:+ go_quote identity +:+ " must not name a remote host")
    else Ok (filepath_abs (url_Path parsed))
  end.

Definition pathURI (path : string) : string := url_string "file" (filepath_abs path).

Definition pathKey (path : string) : string := path_clean path.

(** [discoverModuleRoot]; every step goes to a shorter directory. *)
Fixpoint discoverLoop (fuel : nat) (env : environment) (path directory : string) : outcome string string :=
  match fuel with
  | O => Fail "out of fuel"
  | S fuel' =>
    match env_stat env (path_join [directory; "go.mod"]) with
    | StatRegular _ => Ok directory
    | StatError err => Fail ("inspect Go module root from " +:+ go_quote path +:+ ": " +:+ err)
    | _ =>
      let parent := path_dir directory in
      if decide (parent = directory) then
        Fail ("find Go module root for LSP document " +:+ go_quote path +:+ ": go.mod not found")
      else discoverLoop fuel' env path parent
    end
  end.
Definition discoverModuleRoot (env : environment) (path : string) : outcome string string :=
  let directory := path_dir path in
  discoverLoop (S (S (String.length directory))) env path directory.

(** src/compiler/style/style.go *)
Definition ProfileNone : string := "".
Definition ProfileJavaStructured : string := "java-structured".
Definition ValidateProfile (profile : string) : outcome string () :=
  if bool_decide (profile = ProfileNone ∨ profile = ProfileJavaStructured) then Ok ()
  else Fail ("unsupported Spice profile " +:+ go_quote profile +:+ "; expected " +:+
             go_quote ProfileJavaStructured).

Definition normalizeAnalysisSettings (settings : option analysisSettings) : outcome string analysisSettings :=
  match settings with
  | None => Ok noSettings
  | Some settings =>
    let result := mkSettings (trim_space (as_Target settings)) (as_Patterns settings)
      (as_Profile settings) (trim_space (as_Style settings)) in
    _ ← guard_or (bool_decide (as_Target result = as_Target settings))
          "LSP application target must be trimmed";
    _ ← guard_or (bool_decide (as_Style result = as_Style settings))
          "LSP style configuration path must be trimmed";
    _ ← guard_or (negb (negb (bool_decide (as_Style result = "")) && negb (bool_decide (as_Profile result = ProfileNone))))
          "LSP profile and style configuration are mutually exclusive";
    _ ← ValidateProfile (as_Profile result);
    match list_find (λ pattern, trim_space pattern = "" ∨ trim_space pattern ≠ pattern) (as_Patterns result) with
    | Some (index, _) =>
      Fail ("LSP package pattern " +:+ itoa (Z.of_nat index) +:+ " must be non-empty and trimmed")
    | None => Ok result
    end
  end.

(** [workspaceForPathLocked]: the workspace with the longest root that holds
    the path. *)
Definition holdsPath (root path : string) : bool :=
  match filepath_rel root path with
  | None => false
  | Some relative => bool_decide (relative = ".") || is_local relative
  end.
Definition longerRoot (path key : string) (candidate : workspace) (selected : option (string * workspace))
    : option (string * workspace) :=
  if holdsPath (ws_root candidate) path then
    match selected with
    | Some (_, best) =>
      if (String.length (ws_root best) <? String.length (ws_root candidate))%nat
      then Some (key, candidate) else selected
    | None => Some (key, candidate)
    end
  else selected.
Definition workspaceForPathLocked (path : string) (workspaces : gmap string workspace)
    : option (string * workspace) :=
  map_fold (longerRoot path) None workspaces.
End paths.

(** ** Timers, contexts and writes *)

Definition on_server (f : server → server) (w : world) : world := set_w_server (f (w_server w)) w.
Definition on_run (f : runtime → runtime) (w : world) : world := set_w_run (f (w_run w)) w.

Definition workspaces_of (w : world) : gmap string workspace := sv_workspaces (w_server w).
Definition documents_of (w : world) : gmap string document := sv_documents (w_server w).
Definition analyses_of (w : world) : gmap nat analysis := rt_analyses (w_run w).

Definition putWorkspace (key : string) (ws : workspace) : world → world :=
  on_server (λ s, set_sv_workspaces (<[key := ws]> (sv_workspaces s)) s).
Definition putDocument (uri : string) (d : document) : world → world :=
  on_server (λ s, set_sv_documents (<[uri := d]> (sv_documents s)) s).

(** [timer.Stop()]: a timer that has fired is not affected. *)
Definition stopTimer (id : nat) : world → world :=
  on_run (λ r, set_rt_timers (delete id (rt_timers r)) r).

(** [cancel()] of the context of an analysis *)
Definition cancelContext (id : nat) : world → world :=
  on_run (λ r, set_rt_analyses (alter (set_an_cancelled true) id (rt_analyses r)) r).

Definition setPoint (id : nat) (point : analysisPoint) : world → world :=
  on_run (λ r, set_rt_analyses (alter (set_an_point point) id (rt_analyses r)) r).

(** The deferred calls of [beginAnalysis]. *)
Definition endAnalysis (id : nat) : world → world :=
  on_run (λ r, set_rt_analyses (delete id (rt_analyses r)) r).

Definition send (n : notification) : world → world :=
  on_run (λ r, set_rt_sent (rt_sent r ++ [n]) r).

(** [handleWriteError]: the context of [Run] is cancelled. *)
Definition handleWriteError : world → world := on_run (set_rt_done true).

Definition setMain (m : mainState) : world → world := on_run (set_rt_main m).

(** [optional f o]: [f] on the value if there is one. *)
Definition optional {A} (f : A → world → world) (o : option A) (w : world) : world :=
  match o with Some x => f x w | None => w end.

Definition analysisFailed (err : string) : notification := ShowMessage ("Spice analysis failed: " +:+ err).

(** ** Scheduling *)

(** [workspace.sequence++] of a uint64 *)
Definition nextSequence (n : N) : N := ((n + 1) mod 2 ^ 64)%N.

Definition scheduleWorkspaceLocked (key : string) (ws : workspace) (w : world) : world :=
  if sv_closing (w_server w) || sv_shutdown (w_server w) then putWorkspace key ws w
  else
    let sequence := nextSequence (ws_sequence ws) in
    let timer := rt_next (w_run w) in
    let w := optional stopTimer (ws_timer ws) w in
    let w := optional cancelContext (ws_cancel ws) w in
    let w := on_run (λ r, set_rt_next (S timer) (set_rt_timers (<[timer := (key, sequence)]> (rt_timers r)) r)) w in
    putWorkspace key (set_ws_timer (Some timer) (set_ws_cancel None (set_ws_sequence sequence ws))) w.

(** What a handler does when the workspace of a key exists. *)
Definition withWorkspace (key : string) (f : workspace → world → world) (w : world) : world :=
  match workspaces_of w !! key with Some ws => f ws w | None => w end.

(** The snapshot [beginAnalysis] takes. *)
Definition takeSnapshot (ws : workspace) (documents : gmap string document) : analysisSnapshot :=
  let open := filter (λ '(uri, _), uri ∈ ws_documents ws) documents in
  mkSnapshot (ws_root ws) (ws_settings ws) (ws_sequence ws)
    ((λ d, (dc_version d, dc_content d)) <$> open) (dc_version <$> open) (ws_id ws).

(** The locked section of [beginAnalysis], by the goroutine [id] of a timer. *)
Definition beginAnalysis (id : nat) (key : string) (sequence : N) (w : world) : world :=
  let w := on_run (λ r, set_rt_fired (delete id (rt_fired r)) r) w in
  match workspaces_of w !! key with
  | None => w
  | Some ws =>
    if negb (ws_sequence ws =? sequence)%N || sv_closing (w_server w) || sv_shutdown (w_server w) then w
    else
      let ctx := rt_next (w_run w) in
      let snapshot := takeSnapshot ws (documents_of w) in
      let w := putWorkspace key (set_ws_cancel (Some ctx) (set_ws_timer None ws)) w in
      on_run (λ r, set_rt_next (S ctx)
        (set_rt_analyses (<[ctx := mkAnalysis key snapshot false AtAnalyze]> (rt_analyses r)) r)) w
  end.

(** ** The client's messages *)

Section handlers.
Context `{UnicodeTables} `{GoUrl} (config : serverConfig).

Definition tooLong (text : string) : bool := (sc_maxDocumentBytes config <? Z.of_nat (String.length text))%Z.

Definition addWorkspace (env : environment) (uri : string) (w : world) : outcome string () * world :=
  match filePath uri with
  | Fail err => (Fail err, w)
  | Ok root =>
    let checked : outcome string () :=
      match env_stat env root with
      | StatMissing => Fail ("inspect LSP workspace " +:+ go_quote root +:+ ": no such file or directory")
      | StatError err => Fail ("inspect LSP workspace " +:+ go_quote root +:+ ": " +:+ err)
      | StatDirectory =>
        match env_newService env root with
        | Fail err => Fail ("configure LSP workspace " +:+ go_quote root +:+ ": " +:+ err)
        | Ok _ => Ok ()
        end
      | _ => Fail ("LSP workspace " +:+ go_quote root +:+ " is not a directory")
      end in
    match checked with
    | Fail err => (Fail err, w)
    | Ok _ =>
      let key := pathKey root in
      match workspaces_of w !! key with
      | Some _ => (Ok (), w)
      | None =>
        let id := rt_next (w_run w) in
        let ws := mkWorkspace id root uri 0 None None None None (sv_settings (w_server w)) ∅ ∅ in
        (Ok (), putWorkspace key ws (on_run (set_rt_next (S id)) w))
      end
    end
  end.

Definition ensureWorkspace (env : environment) (path : string) (w : world) : outcome string string * world :=
  match workspaceForPathLocked path (workspaces_of w) with
  | Some (key, _) => (Ok key, w)
  | None =>
    match discoverModuleRoot env path with
    | Fail err => (Fail err, w)
    | Ok root =>
      match addWorkspace env (pathURI root) w with
      | (Fail err, w') => (Fail err, w')
      | (Ok _, w') => (Ok (pathKey root), w')
      end
    end
  end.

(** A handler returns what is left to do, or ends [Run] with errors. *)
Inductive reply :=
  | Proceed (todo : list work)
  | Return (errs : list string).

Definition forgetDocument (uri : string) (ws : workspace) : workspace :=
  set_ws_documents (ws_documents ws ∖ {[uri]}) ws.

(** The locked section of [didOpen]. *)
Definition openDocument (item : textDocumentItem) (path root : string) (w : world) : world :=
  let uri := ti_URI item in
  let w :=
    match documents_of w !! uri with
    | Some previous =>
      withWorkspace (dc_root previous) (λ ws, putWorkspace (dc_root previous) (forgetDocument uri ws)) w
    | None => w
    end in
  let w := putDocument uri (mkDocument uri path (ti_LanguageID item) (ti_Version item) (ti_Text item) root) w in
  withWorkspace root (λ ws,
    scheduleWorkspaceLocked root (set_ws_documents (ws_documents ws ∪ {[uri]}) ws)) w.

Definition didOpen (env : environment) (params : outcome string textDocumentItem) (w : world) : reply * world :=
  match params with
  | Fail _ => (Proceed [], w)
  | Ok item =>
    if bool_decide (ti_URI item = "") || tooLong (ti_Text item) then (Proceed [], w)
    else
      match filePath (ti_URI item) with
      | Fail _ => (Proceed [], w)
      | Ok path =>
        match ensureWorkspace env path w with
        | (Fail err, w') => (Proceed [Inform (analysisFailed err)], w')
        | (Ok root, w') => (Proceed [], openDocument item path root w')
        end
      end
  end.

Definition scheduleDocument (d : document) : world → world :=
  withWorkspace (dc_root d) (scheduleWorkspaceLocked (dc_root d)).

Definition didChange (params : outcome string (string * Z * list contentChange)) (w : world) : world :=
  match params with
  | Fail _ => w
  | Ok (uri, version, changes) =>
    match last changes with
    | None => w
    | Some change =>
      if bool_decide (is_Some (ch_Range change)) || tooLong (ch_Text change) then w
      else
        match documents_of w !! uri with
        | None => w
        | Some d =>
          if (version <=? dc_version d)%Z then w
          else
            let d' := set_dc_content (ch_Text change) (set_dc_version version d) in
            scheduleDocument d' (putDocument uri d' w)
        end
    end
  end.

Definition didSave (params : outcome string (string * option string)) (w : world) : world :=
  match params with
  | Fail _ => w
  | Ok (uri, text) =>
    match documents_of w !! uri with
    | None => w
    | Some d =>
      match text with
      | Some text =>
        if tooLong text then w
        else scheduleDocument d (putDocument uri (set_dc_content text d) w)
      | None => scheduleDocument d w
      end
    end
  end.

Definition emptyPublication (uri : string) : notification :=
  PublishDiagnostics (mkPublication uri None []).

Definition didClose (params : outcome string string) (w : world) : reply * world :=
  match params with
  | Fail err => (Return [err], w)
  | Ok uri =>
    match documents_of w !! uri with
    | None => (Proceed [], w)
    | Some d =>
      let w := on_server (λ s, set_sv_documents (delete uri (sv_documents s)) s) w in
      let w := withWorkspace (dc_root d) (λ ws,
        scheduleWorkspaceLocked (dc_root d)
          (set_ws_published (ws_published ws ∖ {[uri]}) (forgetDocument uri ws))) w in
      (Proceed [Answer (emptyPublication uri)], w)
    end
  end.

(** The locked section of [removeWorkspace]; the publications follow. *)
Definition removeWorkspace (uri : string) (w : world) : list work * world :=
  match filePath uri with
  | Fail _ => ([], w)
  | Ok root =>
    let key := pathKey root in
    match workspaces_of w !! key with
    | None => ([], w)
    | Some ws =>
      let w := optional stopTimer (ws_timer ws) w in
      let w := optional cancelContext (ws_cancel ws) w in
      let orphan (uri : string) (d : document) :=
        Some (if decide (uri ∈ ws_documents ws) then set_dc_root "" d else d) in
      let w := on_server (λ s, set_sv_documents (map_imap orphan (sv_documents s))
        (set_sv_workspaces (delete key (sv_workspaces s)) s)) w in
      let w := on_run (λ r, set_rt_closers (rt_closers r ++ [ws_id ws]) r) w in
      ([Clear (sort_strings (elements (ws_published ws)))], w)
    end
  end.

Definition didChangeWorkspaceFolders (params : outcome string (list string * list string)) : list work :=
  match params with
  | Fail _ => []
  | Ok (removed, added) => (RemoveFolder <$> removed) ++ (AddFolder <$> added)
  end.

(** [for key, workspace := range server.workspaces { ... }] of [refreshAll] *)
Definition refreshWorkspace (settings : option analysisSettings) (key : string) : world → world :=
  withWorkspace key (λ ws, scheduleWorkspaceLocked key
    (match settings with Some s => set_ws_settings s ws | None => ws end)).
Definition refreshAll (params : outcome string (option analysisSettings)) (w : world) : reply * world :=
  match params with
  | Fail _ => (Proceed [], w)
  | Ok spice =>
    match normalizeAnalysisSettings spice with
    | Fail err => (Proceed [Inform (analysisFailed err)], w)
    | Ok settings =>
      let applied := match spice with Some _ => Some settings | None => None end in
      let w := match applied with Some s => on_server (set_sv_settings s) w | None => w end in
      (Proceed [], foldr (refreshWorkspace applied) w (map_to_list (workspaces_of w)).*1)
    end
  end.

Definition cancelAnalysesLocked (w : world) : world :=
  let held := (map_to_list (workspaces_of w)).*2 in
  let w := foldr stopTimer w (omap ws_timer held) in
  let w := foldr cancelContext w (omap ws_cancel held) in
  on_server (λ s, set_sv_workspaces
    ((λ ws, set_ws_timer None (set_ws_cancel None ws)) <$> sv_workspaces s) s) w.

Definition handleShutdown (request : bool) (w : world) : reply * world :=
  if request then
    (Proceed [Answer Response], cancelAnalysesLocked (on_server (set_sv_shutdown true) w))
  else (Proceed [], w).

(** The folders of [initialize], until one fails. *)
Fixpoint addFolders (env : environment) (folders : list string) (w : world) : outcome string () * world :=
  match folders with
  | [] => (Ok (), w)
  | uri :: rest =>
    match addWorkspace env uri w with
    | (Fail err, w') => (Fail err, w')
    | (Ok _, w') => addFolders env rest w'
    end
  end.

Definition invalidRequestCode : Z := -32600.
Definition invalidParamsCode : Z := -32602.
Definition internalErrorCode : Z := -32603.
Definition serverNotInitializedCode : Z := -32002.

Definition initialize (env : environment) (request : bool) (params : outcome string initializeParams) (w : world)
    : reply * world :=
  if negb request then (Return ["LSP initialize must be a request"], w)
  else
    match params with
    | Fail err => (Proceed [Answer (Failure invalidParamsCode err)], w)
    | Ok params =>
      if sv_initialized (w_server w) then
        (Proceed [Answer (Failure invalidRequestCode "Spice language server is already initialized")], w)
      else
        match normalizeAnalysisSettings (ip_InitializationOptions params) with
        | Fail err => (Proceed [Answer (Failure invalidParamsCode err)], w)
        | Ok settings =>
          let w := on_server (set_sv_settings settings) w in
          let folders := ip_WorkspaceFolders params in
          let folders :=
            if bool_decide (folders = []) && negb (bool_decide (ip_RootURI params = ""))
            then [ip_RootURI params] else folders in
          let folders :=
            if bool_decide (folders = []) && negb (bool_decide (ip_RootPath params = ""))
            then [pathURI (ip_RootPath params)] else folders in
          match addFolders env folders w with
          | (Fail err, w') => (Proceed [Answer (Failure internalErrorCode err)], w')
          | (Ok _, w') => (Proceed [Answer Response], on_server (set_sv_initialized true) w')
          end
        end
    end.

Definition handleInitialized (env : environment) (m : message) (w : world) : reply * world :=
  if negb (sv_initialized (w_server w)) then
    (Proceed (if is_request m
      then [Answer (Failure serverNotInitializedCode "Spice language server is not initialized")] else []), w)
  else if sv_shutdown (w_server w) then
    (Proceed (if is_request m
      then [Answer (Failure invalidRequestCode "Spice language server has shut down")] else []), w)
  else
    match m with
    | DidOpen params => didOpen env params w
    | DidChange params => (Proceed [], didChange params w)
    | DidSave params => (Proceed [], didSave params w)
    | DidClose params => didClose params w
    | DidChangeWorkspaceFolders params => (Proceed (didChangeWorkspaceFolders params), w)
    | DidChangeConfiguration params => refreshAll params w
    | Shutdown request => handleShutdown request w
    | OtherRequest answer => (Proceed [Answer answer], w)
    | _ => (Proceed [], w)
    end.

Definition ErrExitWithoutShutdown : string := "LSP client exited without a successful shutdown request".

Definition handle (env : environment) (m : message) (w : world) : reply * world :=
  match m with
  | Initialize request params => initialize env request params w
  | Exit => (Return (if sv_shutdown (w_server w) then [] else [ErrExitWithoutShutdown]), w)
  | CancelRequest => (Proceed [], w)
  | Malformed code text => (Proceed [Answer (Failure code text)], w)
  | _ => handleInitialized env m w
  end.

(** ** The end of Run *)

(** [stop], up to the wait groups. *)
Definition stop (errs : list string) (w : world) : world :=
  let w := cancelAnalysesLocked (on_server (set_sv_closing true) w) in
  let w := handleWriteError w in
  let keys := sort_strings (map_to_list (workspaces_of w)).*1 in
  let services := omap (λ key, ws_id <$> workspaces_of w !! key) keys in
  setMain (Waiting errs services) w.

Definition proceed (r : reply) (w : world) : world :=
  match r with
  | Proceed todo => setMain (Serving todo) w
  | Return errs => stop errs w
  end.

(** One piece of work of the goroutine of [Run]; [err] is the error of the write
    it makes. *)
Definition doWork (env : environment) (err : option string) (item : work) (rest : list work) (w : world) : world :=
  match item with
  | Answer n =>
    match err with
    | None => setMain (Serving rest) (send n w)
    | Some e => stop [e] w
    end
  | Inform n =>
    match err with
    | None => setMain (Serving rest) (send n w)
    | Some _ => setMain (Serving rest) (handleWriteError w)
    end
  | Clear [] => setMain (Serving rest) w
  | Clear (uri :: uris) =>
    match err with
    | None => setMain (Serving (Clear uris :: rest)) (send (emptyPublication uri) w)
    | Some _ => setMain (Serving rest) (handleWriteError w)
    end
  | RemoveFolder uri =>
    let '(todo, w) := removeWorkspace uri w in setMain (Serving (todo ++ rest)) w
  | AddFolder uri =>
    match addWorkspace env uri w with
    | (Ok _, w') => setMain (Serving rest) w'
    | (Fail e, w') => setMain (Serving (Inform (analysisFailed e) :: rest)) w'
    end
  end.
End handlers.

(** ** Results *)

(** The return of [LoadConfiguration] or [Analyze]; both errors are shown. The
    answer joins the history [rt_answers]. *)
Definition analyzeReturns (id : nat) (snapshot : analysisSnapshot) (answer : analyzed) (w : world) : world :=
  let w := on_run (λ r, set_rt_answers (rt_answers r ++ [(snapshot, answer)]) r) w in
  let w := match answer with LoadFailed _ => w | _ => cancelContext id w end in
  match answer with
  | AnalyzeCanceled | AnalyzeStale => endAnalysis id w
  | AnalyzeFailed err | LoadFailed err => setPoint id (AtShowError err) w
  | Analyzed result => setPoint id (AtComplete result) w
  end.

Definition versionsCurrentLocked (documents : gmap string document) (versions : gmap string Z) : bool :=
  bool_decide (map_Forall (λ uri version, dc_version <$> documents !! uri = Some version) versions).

Definition sequenceCurrent (key : string) (sequence : N) (w : world) : bool :=
  match workspaces_of w !! key with
  | None => false
  | Some ws => (ws_sequence ws =? sequence)%N && negb (sv_closing (w_server w))
  end.

(** [locationContentLocked]; [nil] is the empty content. *)
Definition locationContentLocked (config : serverConfig) (env : environment) (documents : gmap string document)
    (location : Location) : string :=
  match documents !! lc_URI location with
  | Some d => dc_content d
  | None =>
    match list_find (λ uri, pathKey <$> (dc_path <$> documents !! uri) = Some (pathKey (lc_Path location)))
            (env_visit env) with
    | Some (_, uri) => default "" (dc_content <$> documents !! uri)
    | None =>
      match env_stat env (lc_Path location) with
      | StatRegular size =>
        if (sc_maxDocumentBytes config <? size)%Z then ""
        else
          match env_read env (path_clean (lc_Path location)) with
          | Some content => if tooLong config content then "" else content
          | None => ""
          end
      | _ => ""
      end
    end
  end.

Definition located (item : Diagnostic) : bool :=
  negb (bool_decide (lc_URI (dg_Location item) = "") || bool_decide (lc_Path (dg_Location item) = "")).

(** One diagnostic of [publicationsLocked]. *)
Definition groupDiagnostic (config : serverConfig) (env : environment) (documents : gmap string document)
    (state : gmap string (list protocolDiagnostic) * list string) (item : Diagnostic)
    : gmap string (list protocolDiagnostic) * list string :=
  let '(grouped, global) := state in
  if located item then
    let content := locationContentLocked config env documents (dg_Location item) in
    let converted := protocolDiagnosticFromCompiler item content in
    let uri := lc_URI (dg_Location item) in
    (<[uri := default [] (grouped !! uri) ++ [converted]]> grouped, global)
  else (grouped, global ++ [dg_Message item]).

(** The publications, the global messages and the new [workspace.published]. *)
Definition publicationsLocked (config : serverConfig) (env : environment) (documents : gmap string document)
    (ws : workspace) (result : Result) : list diagnosticPublication * list string * gset string :=
  let '(grouped, global) := foldl (groupDiagnostic config env documents) (∅, []) (rs_diagnostics result) in
  let uris := sort_strings (elements (ws_published ws ∪ ws_documents ws ∪ dom grouped)) in
  let items uri := default [] (grouped !! uri) in
  ((λ uri, mkPublication uri (dc_version <$> documents !! uri) (items uri)) <$> uris, global,
   list_to_set (filter (λ uri, items uri ≠ []) uris)).

(** The locked section of [completeAnalysis]. *)
Definition completeAnalysis (config : serverConfig) (env : environment) (id : nat) (a : analysis) (result : Result)
    (w : world) : world :=
  match workspaces_of w !! an_key a with
  | None => endAnalysis id w
  | Some ws =>
    if negb (ws_sequence ws =? sn_sequence (an_snapshot a))%N || sv_closing (w_server w) ||
       negb (versionsCurrentLocked (documents_of w) (sn_versions (an_snapshot a)))
    then endAnalysis id w
    else
      let ws := set_ws_latest (Some result) (set_ws_cancel None ws) in
      let ws := if rs_generationReady result then set_ws_lastGood (Some result) ws else ws in
      let '(publications, messages, published) := publicationsLocked config env (documents_of w) ws result in
      setPoint id (AtCheck publications messages) (putWorkspace (an_key a) (set_ws_published published ws) w)
  end.

(** [sequenceCurrent] before the next publication or message. *)
Definition checkPublication (id : nat) (a : analysis) (publications : list diagnosticPublication)
    (messages : list string) (w : world) : world :=
  if bool_decide (publications = [] ∧ messages = []) then endAnalysis id w
  else if sequenceCurrent (an_key a) (sn_sequence (an_snapshot a)) w
  then setPoint id (AtWrite publications messages) w
  else endAnalysis id w.

(** The write that follows; the error of a publication only ends the goroutine. *)
Definition writePublication (id : nat) (failed : bool) (publications : list diagnosticPublication)
    (messages : list string) (w : world) : world :=
  match publications, messages with
  | p :: publications, _ =>
    if failed then endAnalysis id w
    else setPoint id (AtCheck publications messages) (send (PublishDiagnostics p) w)
  | [], m :: messages =>
    if failed then endAnalysis id (handleWriteError w)
    else setPoint id (AtCheck [] messages) (send (ShowMessage m) w)
  | [], [] => endAnalysis id w
  end.

(** ** Steps *)

Inductive action :=
  | Receive (env : environment) (m : message)
  | ReadFails (eof : bool) (err : string)
  | Work (env : environment) (err : option string)
  | TimerFires (id : nat)
  | Begin (id : nat)
  | AnalyzeReturns (id : nat) (answer : analyzed)
  | ErrorShown (id : nat) (failed : bool)
  | Complete (env : environment) (id : nat)
  | CheckSequence (id : nat)
  | Write (id : nat) (failed : bool)
  | ToolApplied (root : string)   (* the locked section at the end of applyAnnotationTool *)
  | CloserReturns (service : nat) (err : option string)
  | WaitReturns
  | ServiceCloses (err : option string).

Section step.
Context `{UnicodeTables} `{GoUrl} (config : serverConfig).

(** The steps of the goroutine of an analysis. *)
Definition stepAnalysis (act : action) (id : nat) (w : world) : option world :=
  a ← analyses_of w !! id;
  match act, an_point a with
  | AnalyzeReturns _ answer, AtAnalyze =>
    match answer with
    | LoadFailed _ => if decide (as_Style (sn_settings (an_snapshot a)) = "") then None
                      else Some (analyzeReturns id (an_snapshot a) answer w)
    | _ => Some (analyzeReturns id (an_snapshot a) answer w)
    end
  | ErrorShown _ failed, AtShowError message =>
    Some (endAnalysis id (if failed then handleWriteError w else send (analysisFailed message) w))
  | Complete env _, AtComplete result => Some (completeAnalysis config env id a result w)
  | CheckSequence _, AtCheck publications messages => Some (checkPublication id a publications messages w)
  | Write _ failed, AtWrite publications messages => Some (writePublication id failed publications messages w)
  | _, _ => None
  end.

(** The steps of the goroutine of [Run]. *)
Definition stepMain (act : action) (w : world) : option world :=
  match act, rt_main (w_run w) with
  | Receive env m, Serving [] => let '(r, w') := handle config env m w in Some (proceed r w')
  | ReadFails eof err, Serving [] =>
    Some (stop (if eof && sv_shutdown (w_server w) then [] else [err]) w)
  | Work env err, Serving (item :: rest) => Some (doWork env err item rest w)
  | WaitReturns, Waiting errs services =>
    if bool_decide (analyses_of w = ∅) && bool_decide (rt_closers (w_run w) = [])
    then Some (setMain (Closing errs services) w) else None
  | ServiceCloses err, Closing errs (service :: services) =>
    Some (setMain (Closing (errs ++ option_list err) services)
      (on_run (λ r, set_rt_closed (rt_closed r ++ [service]) r) w))
  | ServiceCloses None, Closing errs [] => Some (setMain (Stopped (errs ++ sv_asyncErr (w_server w))) w)
  | _, _ => None
  end.

Definition step (act : action) (w : world) : option world :=
  match act with
  | TimerFires id =>
    t ← rt_timers (w_run w) !! id;
    Some (on_run (λ r, set_rt_fired (<[id := t]> (rt_fired r)) (set_rt_timers (delete id (rt_timers r)) r)) w)
  | Begin id => '(key, sequence) ← rt_fired (w_run w) !! id; Some (beginAnalysis id key sequence w)
  | AnalyzeReturns id _ | ErrorShown id _ | Complete _ id | CheckSequence id | Write id _ => stepAnalysis act id w
  | ToolApplied root =>
    Some (withWorkspace (pathKey root) (scheduleWorkspaceLocked (pathKey root)) w)
  | CloserReturns service err =>
    if bool_decide (service ∈ rt_closers (w_run w)) &&
       bool_decide (map_Forall (λ _ a, sn_service (an_snapshot a) ≠ service) (analyses_of w))
    then
      let w := on_run (λ r, set_rt_closers (list_difference (rt_closers r) [service])
        (set_rt_closed (rt_closed r ++ [service]) r)) w in
      Some (match err with
            | None => w
            | Some e => handleWriteError (on_server (λ s, set_sv_asyncErr (sv_asyncErr s ++ [e]) s) w)
            end)
    else None
  | Receive _ _ | ReadFails _ _ | Work _ _ | WaitReturns | ServiceCloses _ => stepMain act w
  end.

Fixpoint run (acts : list action) (w : world) : option world :=
  match acts with
  | [] => Some w
  | act :: acts => w ← step act w; run acts w
  end.

Definition reachable (w : world) : Prop := ∃ acts, run acts initialWorld = Some w.
End step.
