(* ===== verification/LspPaths.v ===== *)
(** Rooted paths, and the workspace a path belongs to. *)
From S2P Require Import Prelude GoSort GoStrings GoRoot GoPath GoUrl Diag LspText LspServer.

(** ** Rooted paths *)

(** The clean rooted path of a list of names. *)
Definition rooted (cs : list string) : string := "/" +:+ join cs "/".

Lemma path_is_abs_inv p : path_is_abs p = true → ∃ t, p = "/" +:+ t.
Proof. by intros Hp%has_prefix_spec. Qed.

Lemma rooted_abs cs : path_is_abs (rooted cs) = true.
Proof. apply (has_prefix_app "/"). Qed.

Lemma split_slash t : split_byte slash ("/" +:+ t) = "" :: split_byte slash t.
Proof. done. Qed.

Lemma clean_stack_rooted cs stack :
  Forall (λ c, contains_byte c slash = false) cs → Forall good_name stack →
  Forall good_name (foldl (clean_step true) stack cs).
Proof.
  intros Hcs. revert stack. induction Hcs as [|c cs Hc Hcs IH]; intros stack Hs; [done|]. simpl.
  apply IH. unfold clean_step. case_decide as H1; [done|]. case_decide as H2.
  - destruct Hs as [|top rest Ht Hr]; [done|]. case_decide as H3; [|done]. destruct Ht as (_ & _ & Ht & _). done.
  - constructor; [|done]. unfold good_name. naive_solver.
Qed.

Lemma path_clean_abs p : path_is_abs p = true → ∃ cs, Forall good_name cs ∧ path_clean p = rooted cs.
Proof.
  intros Hp. unfold path_clean. rewrite Hp. eexists. split; [|done].
  apply Forall_reverse, clean_stack_rooted; [|done]. apply Forall_forall. intros c. apply split_elem_no_sep.
Qed.

Lemma path_clean_rooted cs : Forall good_name cs → path_clean (rooted cs) = rooted cs.
Proof.
  intros Hf. unfold path_clean. rewrite rooted_abs. unfold rooted at 1. rewrite split_slash.
  destruct (decide (cs = [])) as [->|Hne]; [done|]. rewrite split_join_good by done. cbn [foldl].
  change (clean_step true [] "") with (@nil string).
  by rewrite foldl_clean_good, app_nil_r, reverse_involutive.
Qed.

Lemma path_clean_clean p : path_is_abs p = true → path_clean (path_clean p) = path_clean p.
Proof. intros (cs & Hf & ->)%path_clean_abs. by apply path_clean_rooted. Qed.

Lemma path_clean_stays_abs p : path_is_abs p = true → path_is_abs (path_clean p) = true.
Proof. intros (cs & Hf & ->)%path_clean_abs. apply rooted_abs. Qed.

Lemma path_clean_nonempty p : path_clean p ≠ "".
Proof.
  unfold path_clean. destruct (path_is_abs p); [done|]. by case_decide.
Qed.

Lemma length_last_part sep s : (String.length (default "" (last (split_byte sep s))) ≤ String.length s)%nat.
Proof.
  induction s as [|c s IH]; simpl; [lia|]. pose proof (split_byte_ne sep s) as Hne.
  destruct (ascii_dec c sep); destruct (split_byte sep s) as [|part rest]; try done.
  - rewrite last_cons_cons. lia.
  - destruct rest as [|q rest]; simpl in *; lia.
Qed.

Lemma path_split_abs p : path_is_abs p = true → path_is_abs (path_split p).1 = true.
Proof.
  intros (t & ->)%path_is_abs_inv. unfold path_split. cbn [fst].
  rewrite split_slash. pose proof (length_last_part slash t) as Hlen.
  assert (default "" (last ("" :: split_byte slash t)) = default "" (last (split_byte slash t))) as ->.
  { destruct (split_byte slash t) eqn:E; [by destruct (split_byte_ne slash t)|]. by rewrite last_cons_cons. }
  change (String.length ("/" +:+ t)) with (S (String.length t)).
  rewrite Nat.sub_succ_l by done. apply (has_prefix_app "/").
Qed.

Lemma path_dir_abs p : path_is_abs p = true → path_is_abs (path_dir p) = true.
Proof. intros Hp. by apply path_clean_stays_abs, path_split_abs. Qed.

Lemma path_dir_clean p : path_is_abs p = true → path_clean (path_dir p) = path_dir p.
Proof. intros Hp. by apply path_clean_clean, path_split_abs. Qed.

Section urls.
Context `{UnicodeTables} `{!GoUrl} `{!GoUrlLaws}.

Lemma filepath_abs_abs p : path_is_abs (filepath_abs p) = true.
Proof.
  unfold filepath_abs. destruct (path_is_abs p) eqn:E; [by apply path_clean_stays_abs|].
  unfold path_join. destruct (path_is_abs_inv working_directory working_directory_abs) as (t & Ht).
  rewrite filter_cons_True by (rewrite Ht; done).
  destruct (filter (λ e, e ≠ "") [p]) as [|e l]; [by apply path_clean_stays_abs; rewrite Ht; apply (has_prefix_app "/")|].
  apply path_clean_stays_abs. rewrite join_cons_ne by done. rewrite Ht, str_app_assoc. apply (has_prefix_app "/").
Qed.

Lemma filepath_abs_of_abs p : path_is_abs p = true → filepath_abs p = path_clean p.
Proof. intros Hp. unfold filepath_abs. by rewrite Hp. Qed.

Lemma filePath_abs identity path : filePath identity = Ok path → path_is_abs path = true.
Proof.
  unfold filePath. destruct (url_parse identity) as [u|]; [|done].
  repeat case_decide; try done; intros [= <-]; apply filepath_abs_abs.
Qed.

(** The URI of a directory names that directory. *)
Lemma filePath_pathURI root : path_is_abs root = true → filePath (pathURI root) = Ok (path_clean root).
Proof.
  intros Hroot. unfold filePath, pathURI. rewrite filepath_abs_of_abs by done.
  rewrite url_parse_file by by apply path_clean_stays_abs. cbn [url_Scheme url_Host url_Path].
  rewrite !decide_False by naive_solver.
  rewrite filepath_abs_of_abs by by apply path_clean_stays_abs. by rewrite path_clean_clean.
Qed.

Lemma discoverLoop_abs fuel env path directory root :
  discoverLoop fuel env path directory = Ok root → path_is_abs directory = true → path_is_abs root = true.
Proof.
  revert directory. induction fuel as [|fuel IH]; intros directory; simpl; [done|].
  destruct (env_stat env _); try done; try (by intros [= <-]);
    (case_decide; [done|]); intros Hloop Hd; by eapply IH, path_dir_abs.
Qed.

Lemma discoverModuleRoot_abs env path root :
  discoverModuleRoot env path = Ok root → path_is_abs path = true → path_is_abs root = true.
Proof. intros Hd Hp. eapply discoverLoop_abs; [exact Hd|]. by apply path_dir_abs. Qed.
End urls.

(** ** The directories above a file *)

Lemma rooted_snoc cs c : rooted (cs ++ [c]) = (if decide (cs = []) then "/" else rooted cs +:+ "/") +:+ c.
Proof.
  unfold rooted. case_decide as Hcs; [by subst|]. rewrite join_snoc by done. by rewrite !str_app_assoc.
Qed.

Lemma split_rooted cs : Forall good_name cs → cs ≠ [] → split_byte slash (rooted cs) = "" :: cs.
Proof. intros Hf Hne. unfold rooted. by rewrite split_slash, split_join_good. Qed.

Lemma path_clean_slash cs : Forall good_name cs → path_clean (if decide (cs = []) then "/" else rooted cs +:+ "/") = rooted cs.
Proof.
  intros Hf. case_decide as Hcs; [by subst|]. unfold path_clean.
  assert (path_is_abs (rooted cs +:+ "/") = true) as ->.
  { unfold rooted. rewrite str_app_assoc. apply (has_prefix_app "/"). }
  assert (split_byte slash (rooted cs +:+ "/") = "" :: cs ++ [""]) as ->.
  { unfold rooted. rewrite str_app_assoc, split_slash. f_equal.
    change (join cs "/" +:+ "/") with (join cs "/" +:+ "/" +:+ ""). rewrite <- (join_snoc cs "") by done.
    apply split_join; [by destruct cs|]. apply Forall_app. split; [by apply good_no_slash|by repeat constructor]. }
  cbn [foldl]. change (clean_step true [] "") with (@nil string). rewrite foldl_app, (foldl_clean_good true cs []), app_nil_r by done.
  cbn [foldl]. change (clean_step true (reverse cs) "") with (reverse cs). by rewrite reverse_involutive.
Qed.

Lemma path_dir_rooted cs c : Forall good_name (cs ++ [c]) → path_dir (rooted (cs ++ [c])) = rooted cs.
Proof.
  intros Hf. pose proof Hf as [Hcs _]%Forall_app. unfold path_dir, path_split. cbn [fst].
  rewrite split_rooted by (done || by destruct cs).
  rewrite (app_comm_cons cs [c] ""), last_snoc. cbn [default].
  rewrite rooted_snoc, length_str_app, Nat.add_sub, str_take_app. by apply path_clean_slash.
Qed.

Section discover.
Context `{UnicodeTables} `{GoUrl}.

(** What [discoverModuleRoot] looks for, on the names of the directories from
    the innermost one. *)
Fixpoint nearestModule (env : environment) (path : string) (dirs : list string) : outcome string string :=
  let directory := rooted (reverse dirs) in
  match env_stat env (path_join [directory; "go.mod"]) with
  | StatRegular _ => Ok directory
  | StatError err => Fail ("inspect Go module root from " +:+ go_quote path +:+ ": " +:+ err)
  | _ =>
    match dirs with
    | [] => Fail ("find Go module root for LSP document " +:+ go_quote path +:+ ": go.mod not found")
    | _ :: up => nearestModule env path up
    end
  end.

Lemma rooted_longer cs c : c ≠ "" → (String.length (rooted cs) < String.length (rooted (cs ++ [c])))%nat.
Proof.
  intros Hc. rewrite rooted_snoc, length_str_app. destruct c; [done|].
  case_decide as Hcs; [subst; simpl; lia|]. rewrite length_str_app. simpl. lia.
Qed.

Lemma discoverLoop_nearest fuel env path dirs :
  Forall good_name dirs → (length dirs < fuel)%nat →
  discoverLoop fuel env path (rooted (reverse dirs)) = nearestModule env path dirs.
Proof.
  intros Hf. revert fuel. induction Hf as [|c dirs Hc Hf IH]; intros fuel Hfuel; (destruct fuel as [|fuel]; [simpl in Hfuel; lia|]).
  - cbn [discoverLoop nearestModule]. by destruct (env_stat env _).
  - cbn [discoverLoop nearestModule]. rewrite reverse_cons, path_dir_rooted.
    2: { apply Forall_app. split; [by apply Forall_reverse|by constructor]. }
    pose proof (rooted_longer (reverse dirs) c (proj1 Hc)) as Hlt.
    destruct (env_stat env _); try done; (rewrite decide_False by (intros He; rewrite <- He in Hlt; lia);
      apply IH; simpl in Hfuel; lia).
Qed.

Lemma length_rooted cs : Forall good_name cs → (length cs ≤ String.length (rooted cs))%nat.
Proof.
  intros Hf. induction cs as [|c cs IH] using rev_ind; [simpl; lia|]. apply Forall_app in Hf as [Hf Hc].
  inversion_clear Hc as [|?? (Hne & _) _]. pose proof (rooted_longer cs c Hne). specialize (IH Hf).
  rewrite length_app. cbn [length]. lia.
Qed.

(** The module of a file is the nearest directory above it with a go.mod. *)
Lemma discoverModuleRoot_nearest env cs c :
  Forall good_name (cs ++ [c]) →
  discoverModuleRoot env (rooted (cs ++ [c])) = nearestModule env (rooted (cs ++ [c])) (reverse cs).
Proof.
  intros Hf. unfold discoverModuleRoot. rewrite path_dir_rooted by done. apply Forall_app in Hf as [Hf _].
  rewrite <- (reverse_involutive cs) at 3. apply discoverLoop_nearest; [by apply Forall_reverse|].
  rewrite length_reverse. pose proof (length_rooted cs Hf). lia.
Qed.
End discover.

(** ** The workspace of a path *)

Lemma drop_common_prefix cs ds :
  drop_common cs ds = ([], drop (length cs) ds) ∧ cs `prefix_of` ds ∨
  (∃ x up n, drop_common cs ds = (x :: up, drop n ds) ∧ x ∈ cs) ∧ ¬ cs `prefix_of` ds.
Proof.
  revert ds. induction cs as [|c cs IH]; intros ds; [left; split; [by destruct ds|apply prefix_nil]|].
  destruct ds as [|d ds]; simpl.
  - right. split; [exists c, cs, 0%nat; split; [done|by left]|]. by intros ?%prefix_nil_inv.
  - case_decide as Hcd; [subst d|].
    + destruct (IH ds) as [[-> Hp]|[(x & up & n & -> & Hx) Hp]]; [left|right].
      * split; [done|]. by apply prefix_cons.
      * split; [exists x, up, (S n); split; [done|by right]|]. by intros ?%prefix_cons_inv_2.
    + right. split; [exists c, cs, 0%nat; split; [done|by left]|]. intros ?%prefix_cons_inv_1. done.
Qed.

Lemma path_elements_rooted cs : Forall good_name cs → path_elements (rooted cs) = cs.
Proof.
  intros Hf. unfold path_elements. destruct (decide (cs = [])) as [->|Hne]; [done|]. rewrite split_rooted by done.
  rewrite filter_cons_False by naive_solver. clear Hne. induction Hf as [|c cs (Hc & _) Hf IH]; [done|].
  by rewrite filter_cons_True, IH.
Qed.

Lemma rooted_inj cs ds : Forall good_name cs → Forall good_name ds → rooted cs = rooted ds → cs = ds.
Proof. intros Hc Hd He. by rewrite <- (path_elements_rooted cs), <- (path_elements_rooted ds), He. Qed.

(** A path that goes up is not local. *)
Lemma clean_ups k : foldl (clean_step false) [] (replicate k "..") = replicate k "..".
Proof.
  assert (∀ j, foldl (clean_step false) (replicate j "..") (replicate k "..") = replicate (j + k) "..") as Hj; [|apply (Hj 0%nat)].
  induction k as [|k IH]; intros j; [by rewrite Nat.add_0_r|]. cbn [replicate foldl].
  assert (clean_step false (replicate j "..") ".." = replicate (S j) "..") as -> by by destruct j.
  rewrite IH. f_equal. lia.
Qed.

Lemma up_not_local k ds : Forall good_name ds → is_local (join (replicate (S k) ".." ++ ds) "/") = false.
Proof.
  intros Hd. set (l := replicate (S k) ".." ++ ds).
  assert (Forall (λ c, contains_byte c slash = false) l) as Hl.
  { apply Forall_app. split; [by apply Forall_replicate|by apply good_no_slash]. }
  assert (l ≠ []) as Hne by done. assert (∃ m, l = ".." :: m) as [m Hm] by by eexists.
  assert (∀ t, has_prefix (join l "/") "/" = false ∧ join l "/" ≠ "" ∧
    (bool_decide (join l "/" = "..") || has_prefix (join l "/") "../") = t → t = true) as Hups.
  { intros t (_ & _ & <-). rewrite Hm. destruct m as [|e m]; [done|]. rewrite join_cons_ne by done.
    change (".." +:+ "/" +:+ join (e :: m) "/") with ("../" +:+ join (e :: m) "/").
    by rewrite (has_prefix_app "../"), orb_true_r. }
  assert (path_is_abs (join l "/") = false ∧ join l "/" ≠ "") as [Habs Hemp].
  { rewrite Hm. destruct m as [|e m]; [done|]. by rewrite join_cons_ne. }
  unfold is_local. rewrite Habs, bool_decide_eq_false_2 by done. cbn [orb].
  assert (path_clean (join l "/") = join l "/") as ->.
  { unfold path_clean. rewrite Habs, split_join by done. unfold l. rewrite foldl_app, clean_ups, foldl_clean_good by done.
    rewrite reverse_app, reverse_involutive, reverse_replicate. by rewrite decide_False. }
  destruct (existsb _ _); rewrite (Hups _ (conj Habs (conj Hemp eq_refl))); done.
Qed.

(** A root holds a path when its names are the first names of the path. *)
Lemma holdsPath_rooted cs ds :
  Forall good_name cs → Forall good_name ds → holdsPath (rooted cs) (rooted ds) = true ↔ cs `prefix_of` ds.
Proof.
  intros Hc Hd. unfold holdsPath, filepath_rel. rewrite !path_clean_rooted by done.
  case_decide as Heq.
  { apply rooted_inj in Heq; [|done..]. subst. by split. }
  rewrite (decide_False (P := rooted cs = ".")) by done. rewrite !rooted_abs. cbn [Bool.eqb negb].
  rewrite !path_elements_rooted by done.
  destruct (drop_common_prefix cs ds) as [[-> Hp]|[(x & up & n & -> & Hx) Hp]].
  - split; [done|]. intros _. cbn [head]. rewrite bool_decide_eq_false_2 by done. cbn [length replicate app].
    apply orb_true_iff. right. apply good_is_local; [|by apply Forall_drop].
    destruct Hp as [k ->]. rewrite drop_app_length. intros ->. by rewrite app_nil_r in Heq.
  - split; [|done]. intros Hh. exfalso. rewrite Forall_forall in Hc. destruct (Hc x Hx) as (_ & _ & Hx2 & _).
    cbn [head] in Hh. rewrite bool_decide_eq_false_2 in Hh by congruence.
    apply orb_true_iff in Hh as [Hh|Hh].
    + apply bool_decide_eq_true in Hh. cbn [length replicate app] in Hh.
      destruct (replicate (length up) ".." ++ drop n ds); discriminate Hh.
    + change (length (x :: up)) with (S (length up)) in Hh. rewrite up_not_local in Hh; [done|]. by apply Forall_drop.
Qed.

(** The workspace with the longest root that holds a path. *)
Lemma workspaceForPath_best path W :
  match workspaceForPathLocked path W with
  | Some (key, ws) => W !! key = Some ws ∧ holdsPath (ws_root ws) path = true ∧
      ∀ k w, W !! k = Some w → holdsPath (ws_root w) path = true →
        (String.length (ws_root w) ≤ String.length (ws_root ws))%nat
  | None => ∀ k w, W !! k = Some w → holdsPath (ws_root w) path = false
  end.
Proof.
  unfold workspaceForPathLocked.
  apply (map_fold_weak_ind (λ sel (W : gmap string workspace), match sel with
    | Some (key, ws) => W !! key = Some ws ∧ holdsPath (ws_root ws) path = true ∧
        ∀ k w, W !! k = Some w → holdsPath (ws_root w) path = true →
          (String.length (ws_root w) ≤ String.length (ws_root ws))%nat
    | None => ∀ k w, W !! k = Some w → holdsPath (ws_root w) path = false
    end)); [by intros ? ? ?%lookup_empty_Some|].
  intros k x W' sel Hnone IH. unfold longerRoot. destruct (holdsPath (ws_root x) path) eqn:Hx.
  - destruct sel as [[key best]|].
    + destruct IH as (Hb & Hh & Hall).
      destruct (Nat.ltb_spec (String.length (ws_root best)) (String.length (ws_root x))) as [Hlt|Hlt].
      * split_and!; [by rewrite lookup_insert_eq|done|]. intros k' w. rewrite lookup_insert_Some.
        intros [[_ <-]|[_ Hw]] Hhw; [lia|]. specialize (Hall k' w Hw Hhw). lia.
      * split_and!; [|done|].
        -- rewrite lookup_insert_ne; [done|]. intros ->. congruence.
        -- intros k' w. rewrite lookup_insert_Some. intros [[_ <-]|[_ Hw]]; [lia|by apply (Hall k')].
    + split_and!; [by rewrite lookup_insert_eq|done|]. intros k' w. rewrite lookup_insert_Some.
      intros [[_ <-]|[_ Hw]] Hhw; [lia|]. specialize (IH k' w Hw). congruence.
  - destruct sel as [[key best]|].
    + destruct IH as (Hb & Hh & Hall). split_and!; [|done|].
      * rewrite lookup_insert_ne; [done|]. intros ->. congruence.
      * intros k' w. rewrite lookup_insert_Some. intros [[_ <-]|[_ Hw]]; [congruence|by apply (Hall k')].
    + intros k' w. rewrite lookup_insert_Some. intros [[_ <-]|[_ Hw]]; [done|by apply (IH k')].
Qed.
