(* ===== verification/LspInvariant.v ===== *)
(** The invariant of the scheduler of the language server, and that each
    change the handlers, timers and analyses make preserves it. *)
From S2P Require Import Prelude GoSort GoStrings GoUrl Diag LspText LspServer.

(** ** The invariant *)

Section invariant.
Context (W : gmap string workspace) (D : gmap string document)
        (T F : gmap nat (string * N)) (A : gmap nat analysis)
        (L : list (analysisSnapshot * analyzed)) (n : nat) (quiet : bool).

(** The analysis has its answer or will get one. *)
Definition unanswered (a : analysis) : Prop :=
  match an_point a with AtAnalyze | AtComplete _ => True | _ => False end.

(** The present state of a workspace is scheduled, analysed or answered. *)
Definition attended (key : string) (ws : workspace) : Prop :=
  is_Some (ws_timer ws) ∨
  (∃ id a, A !! id = Some a ∧ an_key a = key ∧ an_snapshot a = takeSnapshot ws D ∧ unanswered a) ∨
  (∃ answer, (takeSnapshot ws D, answer) ∈ L ∧ ∀ r, answer = Analyzed r → ws_latest ws = Some r).

(** Open documents and the lists of the workspaces agree; a document that is in
    no list has lost its workspace. *)
Record document_inv : Prop := {
  inv_listed key ws uri :
    W !! key = Some ws → uri ∈ ws_documents ws → ∃ d, D !! uri = Some d ∧ dc_root d = key;
  inv_owned uri d :
    D !! uri = Some d → dc_root d = "" ∨ ∃ ws, W !! dc_root d = Some ws ∧ uri ∈ ws_documents ws;
  inv_keys key : is_Some (W !! key) → key ≠ "";
}.

(** A workspace and its timer. *)
Record timer_inv : Prop := {
  inv_fresh_fired id : is_Some (F !! id) → (id < n)%nat;
  inv_once id : is_Some (T !! id) → F !! id = None;
  inv_armed id key s :
    T !! id = Some (key, s) → (id < n)%nat ∧ ∃ ws, W !! key = Some ws ∧ ws_timer ws = Some id ∧ ws_sequence ws = s;
  inv_fired id key s ws :
    F !! id = Some (key, s) → W !! key = Some ws →
    (s ≤ ws_sequence ws)%N ∧ (s = ws_sequence ws → quiet = true ∨ ws_timer ws = Some id);
  inv_timer key ws id :
    W !! key = Some ws → ws_timer ws = Some id →
    ws_cancel ws = None ∧ (id < n)%nat ∧
    (T !! id = Some (key, ws_sequence ws) ∨ F !! id = Some (key, ws_sequence ws));
  inv_quiet key ws : quiet = true → W !! key = Some ws → ws_timer ws = None ∧ ws_cancel ws = None;
}.

(** A workspace and the analyses of its key. *)
Record analysis_inv : Prop := {
  inv_fresh_analysis id : is_Some (A !! id) → (id < n)%nat;
  inv_cancel key ws id :
    W !! key = Some ws → ws_cancel ws = Some id → (id < n)%nat ∧
    ∀ a, A !! id = Some a → an_key a = key ∧ sn_sequence (an_snapshot a) = ws_sequence ws;
  inv_analysis id a ws :
    A !! id = Some a → W !! an_key a = Some ws →
    sn_service (an_snapshot a) = ws_id ws ∧ (sn_sequence (an_snapshot a) ≤ ws_sequence ws)%N ∧
    (sn_sequence (an_snapshot a) = ws_sequence ws → an_snapshot a = takeSnapshot ws D);
  inv_live id a :
    A !! id = Some a → an_point a = AtAnalyze → an_cancelled a = false →
    ∃ ws, W !! an_key a = Some ws ∧ ws_cancel ws = Some id;
  inv_answered id a r :
    A !! id = Some a → an_point a = AtComplete r → (an_snapshot a, Analyzed r) ∈ L;
  inv_unique id id' a a' :
    A !! id = Some a → A !! id' = Some a' → an_key a = an_key a' →
    sn_sequence (an_snapshot a) = sn_sequence (an_snapshot a') → id = id';
  inv_before ws id a :
    A !! id = Some a → W !! an_key a = Some ws → is_Some (ws_timer ws) →
    (sn_sequence (an_snapshot a) < ws_sequence ws)%N;
}.

Definition progress_inv : Prop := ∀ key ws,
  quiet = false → W !! key = Some ws → (0 < ws_sequence ws)%N → attended key ws.

Record scheduler_inv : Prop := {
  inv_documents : document_inv;
  inv_timers : timer_inv;
  inv_analyses : analysis_inv;
  inv_progress : progress_inv;
}.
End invariant.

Definition quiet_of (w : world) : bool := sv_closing (w_server w) || sv_shutdown (w_server w).

Definition winv (w : world) : Prop :=
  scheduler_inv (workspaces_of w) (documents_of w) (rt_timers (w_run w)) (rt_fired (w_run w)) (analyses_of w)
    (rt_answers (w_run w)) (rt_next (w_run w)) (quiet_of w).

(** ** Snapshots *)

Lemma snapshot_lookup (ws : workspace) (D : gmap string document) uri :
  filter (λ '(uri, _), uri ∈ ws_documents ws) D !! uri =
    if decide (uri ∈ ws_documents ws) then D !! uri else None.
Proof.
  destruct (filter _ D !! uri) as [d|] eqn:E.
  - apply map_lookup_filter_Some in E as [-> Hin]. by rewrite decide_True.
  - case_decide as Hin; [|done]. destruct (D !! uri) as [d|] eqn:Hd; [|done].
    apply map_lookup_filter_None in E as [E|E]; [congruence|by destruct (E d Hd)].
Qed.

(** A snapshot depends on the documents of its workspace only. *)
Lemma takeSnapshot_ext ws ws' D D' :
  ws_root ws' = ws_root ws → ws_settings ws' = ws_settings ws → ws_sequence ws' = ws_sequence ws →
  ws_id ws' = ws_id ws → ws_documents ws' = ws_documents ws →
  (∀ uri, uri ∈ ws_documents ws → D' !! uri = D !! uri) →
  takeSnapshot ws' D' = takeSnapshot ws D.
Proof.
  intros H1 H2 H3 H4 H5 HD. unfold takeSnapshot. rewrite H1, H2, H3, H4, H5.
  assert (filter (λ '(uri, _), uri ∈ ws_documents ws) D' = filter (λ '(uri, _), uri ∈ ws_documents ws) D) as ->; [|done].
  apply map_eq. intros uri. rewrite !snapshot_lookup. case_decide; auto.
Qed.

(** ** The changes of the handlers *)

(** What [scheduleWorkspaceLocked] makes of a workspace. *)
Definition scheduled (ws : workspace) (timer : nat) : workspace :=
  set_ws_timer (Some timer) (set_ws_cancel None (set_ws_sequence (nextSequence (ws_sequence ws)) ws)).

Definition stopped (o : option nat) (T : gmap nat (string * N)) : gmap nat (string * N) :=
  match o with Some id => delete id T | None => T end.
Definition cancelled (o : option nat) (A : gmap nat analysis) : gmap nat analysis :=
  match o with Some id => alter (set_an_cancelled true) id A | None => A end.

Lemma lookup_cancelled o A id a :
  cancelled o A !! id = Some a →
  ∃ a', A !! id = Some a' ∧ an_key a' = an_key a ∧ an_snapshot a' = an_snapshot a ∧ an_point a' = an_point a ∧
    (an_cancelled a = false → an_cancelled a' = false ∧ o ≠ Some id).
Proof.
  destruct o as [c|]; simpl; [|naive_solver]. destruct (decide (id = c)) as [->|Hne].
  - rewrite lookup_alter_eq. intros (a' & Ha' & ->)%fmap_Some. exists a'. by simpl.
  - rewrite lookup_alter_ne by done. intros ?. exists a. split_and!; try done. intros ?. split; [done|congruence].
Qed.

Lemma cancelled_lookup o A id a :
  A !! id = Some a → ∃ a', cancelled o A !! id = Some a' ∧ an_key a' = an_key a ∧
    an_snapshot a' = an_snapshot a ∧ an_point a' = an_point a.
Proof.
  intros Ha. destruct o as [c|]; simpl; [|naive_solver]. destruct (decide (id = c)) as [->|Hne].
  - rewrite lookup_alter_eq, Ha. by eexists.
  - rewrite lookup_alter_ne by done. naive_solver.
Qed.

(** The documents of a workspace change together with its schedule. *)
Definition edits (D D' : gmap string document) (key : string) (ws : workspace) : Prop :=
  (∀ uri, uri ∈ ws_documents ws → ∃ d, D' !! uri = Some d ∧ dc_root d = key) ∧
  (∀ uri d, D' !! uri = Some d →
    (dc_root d = key ∧ uri ∈ ws_documents ws) ∨ (D !! uri = Some d ∧ dc_root d ≠ key)) ∧
  (∀ uri d, D !! uri = Some d → dc_root d ≠ key → D' !! uri = Some d).

Section changes.
Context (W : gmap string workspace) (D : gmap string document)
        (T F : gmap nat (string * N)) (A : gmap nat analysis)
        (L : list (analysisSnapshot * analyzed)) (n : nat).
Notation inv W D T F A L n q := (scheduler_inv W D T F A L n q).

Lemma attended_same A' L' D' key ws ws' :
  attended D A L key ws →
  (∀ id a, A !! id = Some a → an_key a = key → an_snapshot a = takeSnapshot ws D → unanswered a →
     (∃ a', A' !! id = Some a' ∧ an_key a' = an_key a ∧ an_snapshot a' = an_snapshot a ∧ an_point a' = an_point a)
     ∨ attended D' A' L' key ws') →
  (∀ x, x ∈ L → x ∈ L') →
  takeSnapshot ws' D' = takeSnapshot ws D → ws_timer ws' = ws_timer ws → ws_latest ws' = ws_latest ws →
  attended D' A' L' key ws'.
Proof.
  intros [Ht|[(id & a & Ha & Hk & Hs & Hu)|(answer & Hin & Hl)]] HA HL Hsn Htm Hlt.
  - left. by rewrite Htm.
  - destruct (HA id a Ha Hk Hs Hu) as [(a' & Ha' & Hk' & Hs' & Hp')|]; [|done].
    right; left. exists id, a'. split_and!; [done|congruence|congruence|]. unfold unanswered in *. by rewrite Hp'.
  - right; right. exists answer. rewrite Hsn, Hlt. auto.
Qed.

Lemma cancelled_unique o :
  analysis_inv W D A L n → ∀ id id' a a', cancelled o A !! id = Some a → cancelled o A !! id' = Some a' →
    an_key a = an_key a' → sn_sequence (an_snapshot a) = sn_sequence (an_snapshot a') → id = id'.
Proof.
  intros Hinv id id' a a' (b & Hb & Hk & Hs & _)%lookup_cancelled (b' & Hb' & Hk' & Hs' & _)%lookup_cancelled.
  rewrite <- Hk, <- Hk', <- Hs, <- Hs'. by apply (inv_unique _ _ _ _ _ Hinv).
Qed.

(** The snapshots of the other workspaces stay. *)
Lemma edits_others D' key ws0 ws key' :
  document_inv W D → edits D D' key ws0 → W !! key' = Some ws → key' ≠ key →
  takeSnapshot ws D' = takeSnapshot ws D.
Proof.
  intros Hinv (_ & _ & Hkeep) Hws Hne. apply takeSnapshot_ext; try done. intros uri Huri.
  destruct (inv_listed _ _ Hinv key' ws uri Hws Huri) as (d & Hd & Hr).
  rewrite Hd. apply Hkeep; [done|congruence].
Qed.

Lemma touch_documents D' key ws ws1 ws2 :
  document_inv W D → W !! key = Some ws → ws_documents ws2 = ws_documents ws1 → edits D D' key ws1 →
  document_inv (<[key := ws2]> W) D'.
Proof.
  intros Hinv Hws Hdocs (Hlist & Hown & Hkeep). split.
  - intros k w uri. destruct (decide (k = key)) as [->|Hne].
    + rewrite lookup_insert_eq. intros [= <-]. rewrite Hdocs. apply Hlist.
    + rewrite lookup_insert_ne by done. intros Hw Huri.
      destruct (inv_listed _ _ Hinv k w uri Hw Huri) as (d & Hd & Hr).
      exists d. split; [|done]. apply Hkeep; [done|congruence].
  - intros uri d [[Hr Hin]|[Hd Hr]]%Hown.
    + right. exists ws2. rewrite Hr, lookup_insert_eq, Hdocs. done.
    + destruct (inv_owned _ _ Hinv uri d Hd) as [|(w & Hw & Hin)]; [by left|right].
      exists w. rewrite lookup_insert_ne by done. done.
  - intros k [w Hw]. destruct (decide (k = key)) as [->|Hne].
    + apply (inv_keys _ _ Hinv). by eexists.
    + rewrite lookup_insert_ne in Hw by done. apply (inv_keys _ _ Hinv). by eexists.
Qed.

Lemma touch_timers key ws ws1 :
  timer_inv W T F n false → W !! key = Some ws → ws_timer ws1 = ws_timer ws →
  ws_sequence ws1 = ws_sequence ws → nextSequence (ws_sequence ws) = (ws_sequence ws + 1)%N →
  timer_inv (<[key := scheduled ws1 n]> W) (<[n := (key, nextSequence (ws_sequence ws))]> (stopped (ws_timer ws) T))
    F (S n) false.
Proof.
  intros Hinv Hws Htm Hsq Hnext.
  assert (∀ id k s, stopped (ws_timer ws) T !! id = Some (k, s) → T !! id = Some (k, s) ∧ ws_timer ws ≠ Some id) as Hst.
  { intros id k s. destruct (ws_timer ws) as [t|]; simpl; [|done].
    intros [Hne Hl]%lookup_delete_Some. split; [done|congruence]. }
  split.
  - intros id Hid%(inv_fresh_fired _ _ _ _ _ Hinv). lia.
  - intros id [[k s] Hid]. destruct (F !! id) as [x|] eqn:Hf; [|done]. exfalso.
    pose proof (inv_fresh_fired _ _ _ _ _ Hinv id ltac:(by eexists)). rewrite lookup_insert_ne in Hid by lia.
    apply Hst in Hid as [Hid _]. rewrite (inv_once _ _ _ _ _ Hinv id) in Hf; [done|by eexists].
  - intros id k s. destruct (decide (id = n)) as [->|Hne].
    + rewrite lookup_insert_eq. intros [= <- <-]. split; [lia|]. exists (scheduled ws1 n).
      rewrite lookup_insert_eq. simpl. by rewrite Hsq.
    + rewrite lookup_insert_ne by done. intros [Hid Hno]%Hst.
      apply (inv_armed _ _ _ _ _ Hinv) in Hid as (Hlt & w & Hw & Hwt & Hws'). split; [lia|].
      exists w. rewrite lookup_insert_ne; [done|]. intros ->. congruence.
  - intros id k s w Hf. destruct (decide (k = key)) as [->|Hne].
    + rewrite lookup_insert_eq. intros [= <-]. simpl. rewrite Hsq, Hnext.
      apply (inv_fired _ _ _ _ _ Hinv id key s ws Hf) in Hws as [Hle _]. split; [lia|]. lia.
    + rewrite lookup_insert_ne by done. by apply (inv_fired _ _ _ _ _ Hinv id k s w Hf).
  - intros k w id. destruct (decide (k = key)) as [->|Hne].
    + rewrite lookup_insert_eq. intros [= <-] [= <-]. simpl. split_and!; [done|lia|left].
      by rewrite lookup_insert_eq, Hsq.
    + rewrite lookup_insert_ne by done. intros Hw Hwt.
      destruct (inv_timer _ _ _ _ _ Hinv k w id Hw Hwt) as (Hc & Hlt & Hin). split_and!; [done|lia|].
      destruct Hin as [Hin|Hin]; [left|by right]. rewrite lookup_insert_ne by lia.
      destruct (ws_timer ws) as [t|] eqn:Et; simpl; [|done]. rewrite lookup_delete_ne; [done|].
      intros ->. destruct (inv_timer _ _ _ _ _ Hinv key ws id Hws Et) as (_ & _ & [Hin'|Hin']); [congruence|].
      rewrite (inv_once _ _ _ _ _ Hinv id) in Hin'; [done|by eexists].
  - done.
Qed.

Lemma touch_analyses D' key ws ws1 :
  document_inv W D → analysis_inv W D A L n → W !! key = Some ws → ws_id ws1 = ws_id ws →
  ws_cancel ws1 = ws_cancel ws → ws_sequence ws1 = ws_sequence ws →
  nextSequence (ws_sequence ws) = (ws_sequence ws + 1)%N → edits D D' key ws1 →
  analysis_inv (<[key := scheduled ws1 n]> W) D' (cancelled (ws_cancel ws) A) L (S n).
Proof.
  intros Hdoc Hinv Hws Hid Hcn Hsq Hnext Hed. split.
  - intros id [a Ha]. apply lookup_cancelled in Ha as (a' & Ha' & _).
    enough (id < n)%nat by lia. apply (inv_fresh_analysis _ _ _ _ _ Hinv). by eexists.
  - intros k w id. destruct (decide (k = key)) as [->|Hne]; [by rewrite lookup_insert_eq; intros [= <-]|].
    rewrite lookup_insert_ne by done. intros Hw Hc.
    destruct (inv_cancel _ _ _ _ _ Hinv k w id Hw Hc) as [Hlt Hall]. split; [lia|].
    intros a (a' & Ha' & Hk & Hs & _)%lookup_cancelled. rewrite <- Hk, <- Hs. by apply Hall.
  - intros id a w (a' & Ha' & Hk & Hs & _)%lookup_cancelled. rewrite <- Hk, <- Hs.
    destruct (decide (an_key a' = key)) as [He|Hne].
    + rewrite He, lookup_insert_eq. intros [= <-]. simpl. rewrite Hid, Hsq, Hnext.
      rewrite <- He in Hws. destruct (inv_analysis _ _ _ _ _ Hinv id a' ws Ha' Hws) as (? & ? & _).
      split_and!; [done|lia|lia].
    + rewrite lookup_insert_ne by done. intros Hw.
      destruct (inv_analysis _ _ _ _ _ Hinv id a' w Ha' Hw) as (? & ? & Hsame). split_and!; [done..|].
      intros Heq. rewrite (edits_others D' key ws1 w (an_key a')) by done. by apply Hsame.
  - intros id a (a' & Ha' & Hk & Hs & Hp & Hc)%lookup_cancelled Hpt [Hlive Hno]%Hc.
    rewrite <- Hp in Hpt. destruct (inv_live _ _ _ _ _ Hinv id a' Ha' Hpt Hlive) as (w & Hw & Hwc).
    exists w. rewrite <- Hk, lookup_insert_ne; [done|]. intros Heq. rewrite <- Heq, Hws in Hw. congruence.
  - intros id a r (a' & Ha' & Hk & Hs & Hp & _)%lookup_cancelled Hpt. rewrite <- Hs.
    apply (inv_answered _ _ _ _ _ Hinv id); [done|congruence].
  - by apply cancelled_unique.
  - intros w id a (a' & Ha' & Hk & Hs & _)%lookup_cancelled. rewrite <- Hk, <- Hs.
    destruct (decide (an_key a' = key)) as [He|Hne].
    + rewrite He, lookup_insert_eq. intros [= <-] _. simpl. rewrite Hsq, Hnext.
      rewrite <- He in Hws. destruct (inv_analysis _ _ _ _ _ Hinv id a' ws Ha' Hws) as (_ & ? & _). lia.
    + rewrite lookup_insert_ne by done. by apply (inv_before _ _ _ _ _ Hinv w id).
Qed.

Lemma touch_progress D' key ws ws1 :
  document_inv W D → progress_inv W D A L false → edits D D' key ws1 →
  progress_inv (<[key := scheduled ws1 n]> W) D' (cancelled (ws_cancel ws) A) L false.
Proof.
  intros Hdoc Hinv Hed k w _. destruct (decide (k = key)) as [->|Hne].
  - rewrite lookup_insert_eq. intros [= <-] _. left. by eexists.
  - rewrite lookup_insert_ne by done. intros Hw Hpos.
    eapply attended_same; [by apply Hinv|..]; try done.
    + intros id a Ha _ _ _. left. by apply cancelled_lookup.
    + by eapply edits_others.
Qed.

(** The documents of a workspace change and it is scheduled. *)
Lemma inv_touch D' key ws ws1 :
  scheduler_inv W D T F A L n false → W !! key = Some ws →
  ws_id ws1 = ws_id ws → ws_timer ws1 = ws_timer ws → ws_cancel ws1 = ws_cancel ws →
  ws_sequence ws1 = ws_sequence ws → (ws_sequence ws < 2 ^ 64 - 1)%N → edits D D' key ws1 →
  scheduler_inv (<[key := scheduled ws1 n]> W) D'
    (<[n := (key, nextSequence (ws_sequence ws))]> (stopped (ws_timer ws) T))
    F (cancelled (ws_cancel ws) A) L (S n) false.
Proof.
  intros [Hd Ht Ha Hp] Hws Hid Htm Hcn Hsq Hmax Hed.
  assert (nextSequence (ws_sequence ws) = ws_sequence ws + 1)%N as Hnext.
  { unfold nextSequence. apply N.mod_small. lia. }
  split; [by eapply touch_documents|by apply touch_timers|by eapply touch_analyses|by eapply touch_progress].
Qed.

(** A document without a workspace changes, or is closed. *)
Lemma inv_loose D' q :
  scheduler_inv W D T F A L n q →
  (∀ key ws uri, W !! key = Some ws → uri ∈ ws_documents ws → D' !! uri = D !! uri) →
  (∀ uri d, D' !! uri = Some d → D !! uri = Some d ∨ dc_root d = "") →
  scheduler_inv W D' T F A L n q.
Proof.
  intros [Hd Ht Ha Hp] Hsame Hown.
  assert (∀ key ws, W !! key = Some ws → takeSnapshot ws D' = takeSnapshot ws D) as Hsnap.
  { intros key ws Hws. apply takeSnapshot_ext; try done. intros uri. by apply (Hsame key). }
  split; [|done| |].
  - split.
    + intros key ws uri Hws Huri. rewrite (Hsame key ws uri Hws Huri). by apply (inv_listed _ _ Hd key ws).
    + intros uri d [Hd'|]%Hown; [by apply (inv_owned _ _ Hd)|by left].
    + apply (inv_keys _ _ Hd).
  - destruct Ha as [H1 H2 H3 H4 H5 H6 H7]. split; try done. intros id a ws Hia Hws. rewrite (Hsnap _ _ Hws). by apply (H3 id).
  - intros key ws Hq Hws Hpos. eapply attended_same; [by apply (Hp key ws)|..]; try done; [|by eapply Hsnap].
    intros id a Hia _ _ _. left. by exists a.
Qed.

(** A workspace is added while no work of its key is in flight. *)
Definition idle (key : string) : Prop :=
  (∀ id s, F !! id ≠ Some (key, s)) ∧ (∀ id a, A !! id = Some a → an_key a ≠ key).

Lemma inv_add key ws q :
  scheduler_inv W D T F A L n q → W !! key = None → key ≠ "" → idle key →
  ws_sequence ws = 0%N → ws_timer ws = None → ws_cancel ws = None → ws_documents ws = ∅ →
  scheduler_inv (<[key := ws]> W) D T F A L (S n) q.
Proof.
  intros [Hd Ht Ha Hp] Hnone Hkey [HF HA] Hsq Htm Hcn Hdocs. split.
  - split.
    + intros k w uri. rewrite lookup_insert_Some. intros [[<- <-]|[_ Hw]]; [rewrite Hdocs; set_solver|].
      by apply (inv_listed _ _ Hd).
    + intros uri d Hin. destruct (inv_owned _ _ Hd uri d Hin) as [|(w & Hw & Huri)]; [by left|right].
      exists w. rewrite lookup_insert_ne by congruence. done.
    + intros k [w Hw]. apply lookup_insert_Some in Hw as [[<- _]|[_ Hw]]; [done|]. apply (inv_keys _ _ Hd). by eexists.
  - split.
    + intros id Hid%(inv_fresh_fired _ _ _ _ _ Ht). lia.
    + apply (inv_once _ _ _ _ _ Ht).
    + intros id k s Hid. destruct (inv_armed _ _ _ _ _ Ht id k s Hid) as (? & w & Hw & ?). split; [lia|].
      exists w. rewrite lookup_insert_ne by congruence. done.
    + intros id k s w Hid. rewrite lookup_insert_Some. intros [[<- <-]|[_ Hw]]; [by destruct (HF id s)|].
      by apply (inv_fired _ _ _ _ _ Ht id k s w).
    + intros k w id. rewrite lookup_insert_Some. intros [[<- <-]|[_ Hw]] Hwt; [congruence|].
      destruct (inv_timer _ _ _ _ _ Ht k w id Hw Hwt) as (? & ? & ?). split_and!; [done|lia|done].
    + intros k w Hq. rewrite lookup_insert_Some. intros [[<- <-]|[_ Hw]]; [done|]. by apply (inv_quiet _ _ _ _ _ Ht k).
  - split.
    + intros id Hid%(inv_fresh_analysis _ _ _ _ _ Ha). lia.
    + intros k w id. rewrite lookup_insert_Some. intros [[<- <-]|[_ Hw]] Hwt; [congruence|].
      destruct (inv_cancel _ _ _ _ _ Ha k w id Hw Hwt) as (? & ?). split; [lia|done].
    + intros id a w Hia. rewrite lookup_insert_Some. intros [[Hk <-]|[_ Hw]]; [by destruct (HA id a)|].
      by apply (inv_analysis _ _ _ _ _ Ha id).
    + intros id a Hia Hpt Hl. destruct (inv_live _ _ _ _ _ Ha id a Hia Hpt Hl) as (w & Hw & ?).
      exists w. rewrite lookup_insert_ne by congruence. done.
    + apply (inv_answered _ _ _ _ _ Ha).
    + apply (inv_unique _ _ _ _ _ Ha).
    + intros w id a Hia. rewrite lookup_insert_Some. intros [[Hk _]|[_ Hw]]; [by destruct (HA id a)|].
      by apply (inv_before _ _ _ _ _ Ha w id).
  - intros k w Hq. rewrite lookup_insert_Some. intros [[<- <-]|[_ Hw]]; [lia|]. by apply Hp.
Qed.

(** A workspace is removed; its documents lose their root. *)
Definition orphaned (ws : workspace) : gmap string document :=
  map_imap (λ uri d, Some (if decide (uri ∈ ws_documents ws) then set_dc_root "" d else d)) D.

Lemma lookup_orphaned ws uri :
  orphaned ws !! uri = (λ d, if decide (uri ∈ ws_documents ws) then set_dc_root "" d else d) <$> D !! uri.
Proof. unfold orphaned. rewrite map_lookup_imap. by destruct (D !! uri). Qed.

Lemma remove_others key ws key' ws' :
  document_inv W D → W !! key = Some ws → W !! key' = Some ws' → key' ≠ key →
  takeSnapshot ws' (orphaned ws) = takeSnapshot ws' D.
Proof.
  intros Hd Hws Hws' Hne. apply takeSnapshot_ext; try done. intros uri Huri. rewrite lookup_orphaned.
  destruct (inv_listed _ _ Hd key' ws' uri Hws' Huri) as (d' & -> & Hr2). simpl.
  rewrite decide_False; [done|]. intros Hin.
  destruct (inv_listed _ _ Hd key ws uri Hws Hin) as (d & Hd1 & Hr1).
  destruct (inv_listed _ _ Hd key' ws' uri Hws' Huri) as (d'' & Hd2 & Hr3). congruence.
Qed.

Lemma remove_documents key ws : document_inv W D → W !! key = Some ws → document_inv (delete key W) (orphaned ws).
Proof.
  intros Hd Hws. split.
  - intros k w uri [Hne Hw]%lookup_delete_Some Huri.
    destruct (inv_listed _ _ Hd k w uri Hw Huri) as (d & Hin & Hr). rewrite lookup_orphaned, Hin. simpl.
    case_decide as Hu; [|by exists d]. destruct (inv_listed _ _ Hd key ws uri Hws Hu) as (d' & Hin' & Hr').
    congruence.
  - intros uri d'. rewrite lookup_orphaned. intros (d & Hin & ->)%fmap_Some. case_decide as Hu; [by left|].
    destruct (inv_owned _ _ Hd uri d Hin) as [|(w & Hw & Huri)]; [by left|right]. exists w.
    split; [|done]. apply lookup_delete_Some. split; [|done]. intros Heq. rewrite <- Heq in Hw. congruence.
  - intros k [w [_ Hw]%lookup_delete_Some]. apply (inv_keys _ _ Hd). by eexists.
Qed.

Lemma remove_timers key ws q :
  timer_inv W T F n q → W !! key = Some ws → timer_inv (delete key W) (stopped (ws_timer ws) T) F n q.
Proof.
  intros Ht Hws.
  assert (∀ id x, stopped (ws_timer ws) T !! id = Some x ↔ T !! id = Some x ∧ ws_timer ws ≠ Some id) as Hst.
  { intros id x. destruct (ws_timer ws) as [t|]; simpl; [|naive_solver]. rewrite lookup_delete_Some. naive_solver. }
  split.
  - apply (inv_fresh_fired _ _ _ _ _ Ht).
  - intros id [x [Hx _]%Hst]. apply (inv_once _ _ _ _ _ Ht). by eexists.
  - intros id k s [Hid Hne]%Hst. destruct (inv_armed _ _ _ _ _ Ht id k s Hid) as (? & w & Hw & ? & ?).
    split; [done|]. exists w. split; [|done]. apply lookup_delete_Some. split; [|done]. intros ->. congruence.
  - intros id k s w Hid [_ Hw]%lookup_delete_Some. by apply (inv_fired _ _ _ _ _ Ht id k).
  - intros k w id [Hne Hw]%lookup_delete_Some Hwt.
    destruct (inv_timer _ _ _ _ _ Ht k w id Hw Hwt) as (? & ? & Hin). split_and!; [done..|].
    destruct Hin as [Hin|Hin]; [|by right]. left. apply Hst. split; [done|]. intros Heq.
    destruct (inv_timer _ _ _ _ _ Ht key ws id Hws Heq) as (_ & _ & [Hin'|Hin']); [congruence|].
    rewrite (inv_once _ _ _ _ _ Ht id) in Hin'; [done|by eexists].
  - intros k w Hq [_ Hw]%lookup_delete_Some. by apply (inv_quiet _ _ _ _ _ Ht k).
Qed.

Lemma remove_analyses key ws :
  document_inv W D → analysis_inv W D A L n → W !! key = Some ws →
  analysis_inv (delete key W) (orphaned ws) (cancelled (ws_cancel ws) A) L n.
Proof.
  intros Hd Ha Hws. split.
  - intros id [a Hia]. apply lookup_cancelled in Hia as (a' & Hia' & _). apply (inv_fresh_analysis _ _ _ _ _ Ha). by eexists.
  - intros k w id [_ Hw]%lookup_delete_Some Hc. destruct (inv_cancel _ _ _ _ _ Ha k w id Hw Hc) as [? Hall].
    split; [done|]. intros a (a' & Hia' & Hk & Hs & _)%lookup_cancelled. rewrite <- Hk, <- Hs. by apply Hall.
  - intros id a w (a' & Hia' & Hk & Hs & _)%lookup_cancelled. rewrite <- Hk, <- Hs. intros [Hne Hw]%lookup_delete_Some.
    rewrite (remove_others key ws _ w Hd Hws Hw) by done. by apply (inv_analysis _ _ _ _ _ Ha id).
  - intros id a (a' & Hia' & Hk & Hs & Hp & Hc)%lookup_cancelled Hpt [Hl Hno]%Hc. rewrite <- Hp in Hpt.
    destruct (inv_live _ _ _ _ _ Ha id a' Hia' Hpt Hl) as (w & Hw & Hwc). exists w. rewrite <- Hk. split; [|done].
    apply lookup_delete_Some. split; [|done]. intros Heq. rewrite <- Heq in Hw. congruence.
  - intros id a r (a' & Hia' & Hk & Hs & Hp & _)%lookup_cancelled Hpt. rewrite <- Hs.
    apply (inv_answered _ _ _ _ _ Ha id); [done|congruence].
  - by apply cancelled_unique.
  - intros w id a (a' & Hia' & Hk & Hs & _)%lookup_cancelled. rewrite <- Hk, <- Hs. intros [_ Hw]%lookup_delete_Some.
    by apply (inv_before _ _ _ _ _ Ha w id).
Qed.

Lemma inv_remove key ws q :
  scheduler_inv W D T F A L n q → W !! key = Some ws →
  scheduler_inv (delete key W) (orphaned ws) (stopped (ws_timer ws) T) F (cancelled (ws_cancel ws) A) L n q.
Proof.
  intros [Hd Ht Ha Hp] Hws. split; [by apply remove_documents|by apply remove_timers|by apply remove_analyses|].
  intros k w Hq [Hne Hw]%lookup_delete_Some Hpos. eapply attended_same; [by apply (Hp k w)|..]; try done.
  - intros id a Hia _ _ _. left. by apply cancelled_lookup.
  - by eapply remove_others.
Qed.
End changes.

Section changes.
Context (W : gmap string workspace) (D : gmap string document)
        (T F : gmap nat (string * N)) (A : gmap nat analysis)
        (L : list (analysisSnapshot * analyzed)) (n : nat).

(** Every timer is stopped and every context cancelled. *)
Definition unscheduled (ws : workspace) : workspace := set_ws_timer None (set_ws_cancel None ws).

Lemma unscheduled_snapshot ws D' : takeSnapshot (unscheduled ws) D' = takeSnapshot ws D'.
Proof. done. Qed.

Lemma inv_halt T' A' q :
  scheduler_inv W D T F A L n q →
  (∀ id x, T' !! id = Some x → T !! id = Some x ∧ ∀ key ws, W !! key = Some ws → ws_timer ws ≠ Some id) →
  (∀ id a, A' !! id = Some a → ∃ a', A !! id = Some a' ∧ an_key a' = an_key a ∧ an_snapshot a' = an_snapshot a ∧
     an_point a' = an_point a ∧
     (an_cancelled a = false → an_cancelled a' = false ∧ ∀ key ws, W !! key = Some ws → ws_cancel ws ≠ Some id)) →
  scheduler_inv (unscheduled <$> W) D T' F A' L n true.
Proof.
  intros [Hd Ht Ha _] HT HA. split.
  - split.
    + intros key ws uri. rewrite lookup_fmap. intros (w & Hw & ->)%fmap_Some. apply (inv_listed _ _ Hd key w uri Hw).
    + intros uri d Hin. destruct (inv_owned _ _ Hd uri d Hin) as [|(w & Hw & Hu)]; [by left|right].
      exists (unscheduled w). by rewrite lookup_fmap, Hw.
    + intros key [w Hw]. rewrite lookup_fmap in Hw. apply fmap_Some in Hw as (w' & Hw & _).
      apply (inv_keys _ _ Hd). by eexists.
  - split.
    + apply (inv_fresh_fired _ _ _ _ _ Ht).
    + intros id [x [Hx _]%HT]. apply (inv_once _ _ _ _ _ Ht). by eexists.
    + intros id key s [Hid Hno]%HT. destruct (inv_armed _ _ _ _ _ Ht id key s Hid) as (_ & w & Hw & Hwt & _).
      by destruct (Hno key w Hw).
    + intros id key s ws Hid. rewrite lookup_fmap. intros (w & Hw & ->)%fmap_Some.
      destruct (inv_fired _ _ _ _ _ Ht id key s w Hid Hw) as [? _]. split; [done|by left].
    + intros key ws id. rewrite lookup_fmap. by intros (w & Hw & ->)%fmap_Some.
    + intros key ws _. rewrite lookup_fmap. by intros (w & Hw & ->)%fmap_Some.
  - split.
    + intros id [a (a' & Ha' & _)%HA]. apply (inv_fresh_analysis _ _ _ _ _ Ha). by eexists.
    + intros key ws id. rewrite lookup_fmap. by intros (w & Hw & ->)%fmap_Some.
    + intros id a ws (a' & Ha' & Hk & Hs & _)%HA. rewrite lookup_fmap. intros (w & Hw & ->)%fmap_Some.
      rewrite <- Hs, unscheduled_snapshot. apply (inv_analysis _ _ _ _ _ Ha id a' w Ha'). by rewrite Hk.
    + intros id a (a' & Ha' & Hk & Hs & Hp & Hc)%HA Hpt [Hl Hno]%Hc. rewrite <- Hp in Hpt.
      destruct (inv_live _ _ _ _ _ Ha id a' Ha' Hpt Hl) as (w & Hw & Hwc). by destruct (Hno _ w Hw).
    + intros id a r (a' & Ha' & Hk & Hs & Hp & _)%HA Hpt. rewrite <- Hs. apply (inv_answered _ _ _ _ _ Ha id); congruence.
    + intros id id' a a' (b & Hb & Hk & Hs & _)%HA (b' & Hb' & Hk' & Hs' & _)%HA.
      rewrite <- Hk, <- Hk', <- Hs, <- Hs'. by apply (inv_unique _ _ _ _ _ Ha).
    + intros ws id a _. rewrite lookup_fmap. intros (w & Hw & ->)%fmap_Some. by intros [??].
  - by intros key ws.
Qed.

Lemma inv_fire id x q :
  scheduler_inv W D T F A L n q → T !! id = Some x → scheduler_inv W D (delete id T) (<[id := x]> F) A L n q.
Proof.
  intros [Hd Ht Ha Hp] Hid. split; [done| |done|done]. destruct x as [key s].
  destruct (inv_armed _ _ _ _ _ Ht id key s Hid) as (Hlt & w & Hw & Hwt & Hs). split.
  - intros i [y Hi]. apply lookup_insert_Some in Hi as [[<- _]|[_ Hi]]; [done|].
    apply (inv_fresh_fired _ _ _ _ _ Ht). by eexists.
  - intros i [y [Hne Hi]%lookup_delete_Some]. rewrite lookup_insert_ne by done.
    apply (inv_once _ _ _ _ _ Ht). by eexists.
  - intros i k s' [_ Hi]%lookup_delete_Some. by apply (inv_armed _ _ _ _ _ Ht).
  - intros i k s' ws. rewrite lookup_insert_Some. intros [[<- [= <- <-]]|[_ Hi]] Hws.
    + rewrite Hws in Hw. injection Hw as ->. split; [lia|]. by right.
    + by apply (inv_fired _ _ _ _ _ Ht i k).
  - intros k ws i Hws Hi. destruct (inv_timer _ _ _ _ _ Ht k ws i Hws Hi) as (? & ? & Hin). split_and!; [done..|].
    destruct (decide (i = id)) as [->|Hne].
    + right. rewrite lookup_insert_eq. destruct Hin as [Hin|Hin]; [congruence|].
      rewrite (inv_once _ _ _ _ _ Ht id) in Hin; [done|by eexists].
    + rewrite lookup_delete_ne, lookup_insert_ne by done. done.
  - apply (inv_quiet _ _ _ _ _ Ht).
Qed.

(** The goroutine of a timer that is not current does nothing. *)
Lemma inv_begin_refused id key s q :
  scheduler_inv W D T F A L n q → F !! id = Some (key, s) →
  (∀ ws, W !! key = Some ws → ws_sequence ws ≠ s ∨ q = true) →
  scheduler_inv W D T (delete id F) A L n q.
Proof.
  intros [Hd Ht Ha Hp] Hid Hrefuse. split; [done| |done|done]. split.
  - intros i [y [_ Hi]%lookup_delete_Some]. apply (inv_fresh_fired _ _ _ _ _ Ht). by eexists.
  - intros i Hi. apply lookup_delete_None. right. by apply (inv_once _ _ _ _ _ Ht).
  - apply (inv_armed _ _ _ _ _ Ht).
  - intros i k s' ws [_ Hi]%lookup_delete_Some. by apply (inv_fired _ _ _ _ _ Ht i k).
  - intros k ws i Hws Hi. destruct (inv_timer _ _ _ _ _ Ht k ws i Hws Hi) as (? & ? & Hin). split_and!; [done..|].
    destruct Hin as [Hin|Hin]; [by left|right]. apply lookup_delete_Some. split; [|done]. intros <-.
    rewrite Hid in Hin. injection Hin as -> ->. destruct (Hrefuse ws Hws) as [|Hq]; [done|].
    destruct (inv_quiet _ _ _ _ _ Ht k ws Hq Hws). congruence.
  - apply (inv_quiet _ _ _ _ _ Ht).
Qed.

Lemma same_documents key ws ws' :
  document_inv W D → W !! key = Some ws → ws_documents ws' = ws_documents ws →
  document_inv (<[key := ws']> W) D.
Proof.
  intros Hd Hws Hdocs. split.
  - intros k w uri. rewrite lookup_insert_Some. intros [[<- <-]|[_ Hw]]; [rewrite Hdocs|]; by apply (inv_listed _ _ Hd).
  - intros uri d Hin. destruct (inv_owned _ _ Hd uri d Hin) as [|(w & Hw & Hu)]; [by left|right].
    destruct (decide (dc_root d = key)) as [Heq|Hne].
    + exists ws'. rewrite Heq, lookup_insert_eq, Hdocs. split; [done|]. rewrite Heq, Hws in Hw. by injection Hw as ->.
    + exists w. by rewrite lookup_insert_ne.
  - intros k [w Hw]. apply lookup_insert_Some in Hw as [[<- _]|[_ Hw]]; apply (inv_keys _ _ Hd); by eexists.
Qed.

(** [beginAnalysis] takes its snapshot. *)
Definition begun (ws : workspace) : workspace := set_ws_cancel (Some n) (set_ws_timer None ws).

Lemma begin_timers id key ws :
  timer_inv W T F n false → F !! id = Some (key, ws_sequence ws) → W !! key = Some ws →
  timer_inv (<[key := begun ws]> W) T (delete id F) (S n) false.
Proof.
  intros Ht Hid Hws.
  assert (ws_timer ws = Some id) as Hwt.
  { by destruct (inv_fired _ _ _ _ _ Ht id key _ ws Hid Hws) as [_ [|]]. }
  split.
  - intros i [y [_ Hi]%lookup_delete_Some]. enough (i < n)%nat by lia. apply (inv_fresh_fired _ _ _ _ _ Ht). by eexists.
  - intros i Hi. apply lookup_delete_None. right. by apply (inv_once _ _ _ _ _ Ht).
  - intros i k s Hi. destruct (inv_armed _ _ _ _ _ Ht i k s Hi) as (? & w & Hw & Hwi & ?). split; [lia|].
    exists w. rewrite lookup_insert_ne; [done|]. intros ->. replace i with id in Hi by congruence.
    rewrite (inv_once _ _ _ _ _ Ht id) in Hid; [done|by eexists].
  - intros i k s w [Hne Hi]%lookup_delete_Some. rewrite lookup_insert_Some. intros [[<- <-]|[_ Hw]].
    + destruct (inv_fired _ _ _ _ _ Ht i key s ws Hi Hws) as [Hle Hcur]. split; [done|].
      intros Heq. destruct (Hcur Heq) as [|Hwi]; [done|]. congruence.
    + by apply (inv_fired _ _ _ _ _ Ht i k).
  - intros k w i. rewrite lookup_insert_Some. intros [[<- <-]|[Hne Hw]]; [done|]. intros Hwi.
    destruct (inv_timer _ _ _ _ _ Ht k w i Hw Hwi) as (? & ? & Hin). split_and!; [done|lia|].
    destruct Hin as [Hin|Hin]; [by left|right]. apply lookup_delete_Some. split; [|done]. intros <-. congruence.
  - done.
Qed.

Lemma begin_analyses key ws :
  analysis_inv W D A L n → W !! key = Some ws → is_Some (ws_timer ws) → ws_cancel ws = None →
  analysis_inv (<[key := begun ws]> W) D (<[n := mkAnalysis key (takeSnapshot ws D) false AtAnalyze]> A) L (S n).
Proof.
  intros Ha Hws Hwt Hwc.
  assert (A !! n = None) as Hn.
  { destruct (A !! n) eqn:E; [|done]. pose proof (inv_fresh_analysis _ _ _ _ _ Ha n ltac:(by eexists)). lia. }
  split.
  - intros i [a Hi]. apply lookup_insert_Some in Hi as [[<- _]|[_ Hi]]; [lia|].
    enough (i < n)%nat by lia. apply (inv_fresh_analysis _ _ _ _ _ Ha). by eexists.
  - intros k w i. rewrite lookup_insert_Some. intros [[<- <-]|[Hne Hw]].
    + intros [= <-]. split; [lia|]. intros a. rewrite lookup_insert_eq. by intros [= <-].
    + intros Hi. destruct (inv_cancel _ _ _ _ _ Ha k w i Hw Hi) as [Hlt Hall]. split; [lia|].
      intros a. rewrite lookup_insert_ne by lia. apply Hall.
  - intros i a w. rewrite lookup_insert_Some. intros [[<- <-]|[Hne Hi]].
    + simpl. rewrite lookup_insert_eq. intros [= <-]. split_and!; done || lia.
    + rewrite lookup_insert_Some. intros [[Hk <-]|[_ Hw]]; [|by apply (inv_analysis _ _ _ _ _ Ha i)].
      rewrite Hk in Hws. apply (inv_analysis _ _ _ _ _ Ha i a ws Hi Hws).
  - intros i a. rewrite lookup_insert_Some. intros [[<- <-]|[Hne Hi]] Hpt Hl.
    + exists (begun ws). simpl. by rewrite lookup_insert_eq.
    + destruct (inv_live _ _ _ _ _ Ha i a Hi Hpt Hl) as (w & Hw & Hc). exists w.
      rewrite lookup_insert_ne; [done|]. intros ->. congruence.
  - intros i a r. rewrite lookup_insert_Some. intros [[<- <-]|[Hne Hi]]; [done|]. by apply (inv_answered _ _ _ _ _ Ha i).
  - intros i j a b. rewrite !lookup_insert_Some. intros [[<- <-]|[Hi1 Hi]] [[<- <-]|[Hj1 Hj]]; simpl; [done|..].
    + intros -> Hs. pose proof (inv_before _ _ _ _ _ Ha ws j b Hj Hws Hwt). lia.
    + intros <- Hs. pose proof (inv_before _ _ _ _ _ Ha ws i a Hi Hws Hwt). lia.
    + by apply (inv_unique _ _ _ _ _ Ha).
  - intros w i a. rewrite lookup_insert_Some. intros [[<- <-]|[Hne Hi]]; simpl.
    + rewrite lookup_insert_eq. intros [= <-]. by intros [??].
    + rewrite lookup_insert_Some. intros [[Hk <-]|[_ Hw]]; [by intros [??]|]. by apply (inv_before _ _ _ _ _ Ha w i).
Qed.

Lemma inv_begin id key ws :
  scheduler_inv W D T F A L n false → F !! id = Some (key, ws_sequence ws) → W !! key = Some ws →
  scheduler_inv (<[key := begun ws]> W) D T (delete id F)
    (<[n := mkAnalysis key (takeSnapshot ws D) false AtAnalyze]> A) L (S n) false.
Proof.
  intros [Hd Ht Ha Hp] Hid Hws.
  assert (ws_timer ws = Some id) as Hwt.
  { by destruct (inv_fired _ _ _ _ _ Ht id key _ ws Hid Hws) as [_ [|]]. }
  destruct (inv_timer _ _ _ _ _ Ht key ws id Hws Hwt) as (Hwc & _).
  split; [by eapply same_documents|by apply begin_timers|by apply begin_analyses|].
  intros k w Hq. rewrite lookup_insert_Some. intros [[<- <-]|[Hne Hw]] Hpos.
  - right; left. exists n, (mkAnalysis key (takeSnapshot ws D) false AtAnalyze). by rewrite lookup_insert_eq.
  - eapply attended_same; [by apply (Hp k w)|..]; try done. intros i a Hi _ _ _. left. exists a.
    rewrite lookup_insert_ne; [done|]. intros <-.
    pose proof (inv_fresh_analysis _ _ _ _ _ Ha n ltac:(by eexists)). lia.
Qed.

(** ** Answers and publications *)

(** [A'] is [A] after a step of the goroutine [id]. *)
Definition advanced (A' : gmap nat analysis) (id : nat) (a : analysis) : Prop :=
  (∀ i, i ≠ id → A' !! i = A !! i) ∧
  (∀ a', A' !! id = Some a' → an_key a' = an_key a ∧ an_snapshot a' = an_snapshot a ∧ an_point a' ≠ AtAnalyze).

Lemma advanced_lookup A' id a i b :
  advanced A' id a → A !! id = Some a → A' !! i = Some b →
  ∃ b', A !! i = Some b' ∧ an_key b' = an_key b ∧ an_snapshot b' = an_snapshot b ∧
    (i ≠ id ∧ b' = b ∨ i = id ∧ an_point b ≠ AtAnalyze).
Proof.
  intros [Hother Hid] Ha Hi. destruct (decide (i = id)) as [->|Hne].
  - destruct (Hid b Hi) as (? & ? & ?). exists a. split_and!; [done..|by right].
  - rewrite Hother in Hi by done. exists b. split_and!; [done..|by left].
Qed.

Lemma advance_analyses A' L' id a :
  analysis_inv W D A L n → A !! id = Some a → advanced A' id a → (∀ x, x ∈ L → x ∈ L') →
  (∀ a' r, A' !! id = Some a' → an_point a' = AtComplete r → (an_snapshot a, Analyzed r) ∈ L') →
  analysis_inv W D A' L' n.
Proof.
  intros Ha Hia Hadv HL Hans. split.
  - intros i [b Hb]. destruct (advanced_lookup _ _ _ _ _ Hadv Hia Hb) as (b' & Hb' & _).
    apply (inv_fresh_analysis _ _ _ _ _ Ha). by eexists.
  - intros k w i Hw Hc. destruct (inv_cancel _ _ _ _ _ Ha k w i Hw Hc) as [? Hall]. split; [done|].
    intros b Hb. destruct (advanced_lookup _ _ _ _ _ Hadv Hia Hb) as (b' & Hb' & <- & <- & _). by apply Hall.
  - intros i b w Hb. destruct (advanced_lookup _ _ _ _ _ Hadv Hia Hb) as (b' & Hb' & <- & <- & _).
    by apply (inv_analysis _ _ _ _ _ Ha i).
  - intros i b Hb Hpt. destruct (advanced_lookup _ _ _ _ _ Hadv Hia Hb) as (b' & Hb' & Hk & _ & [[_ <-]|[_ Hno]]); [|done].
    by apply (inv_live _ _ _ _ _ Ha i).
  - intros i b r Hb Hpt. destruct (advanced_lookup _ _ _ _ _ Hadv Hia Hb) as (b' & Hb' & Hk & Hs & [[_ <-]|[-> _]]).
    + apply HL. by apply (inv_answered _ _ _ _ _ Ha i).
    + rewrite <- Hs. replace b' with a by congruence. by eapply Hans.
  - intros i j b c Hb Hc.
    destruct (advanced_lookup _ _ _ _ _ Hadv Hia Hb) as (b' & Hb' & <- & <- & _).
    destruct (advanced_lookup _ _ _ _ _ Hadv Hia Hc) as (c' & Hc' & <- & <- & _). by apply (inv_unique _ _ _ _ _ Ha).
  - intros w i b Hb. destruct (advanced_lookup _ _ _ _ _ Hadv Hia Hb) as (b' & Hb' & <- & <- & _).
    by apply (inv_before _ _ _ _ _ Ha w i).
Qed.

(** A step of an analysis that changes no workspace; when the step ends the
    wait for an answer, the answer is there. *)
Lemma inv_advance A' L' id a q :
  scheduler_inv W D T F A L n q → A !! id = Some a → advanced A' id a → (∀ x, x ∈ L → x ∈ L') →
  (∀ a' r, A' !! id = Some a' → an_point a' = AtComplete r → (an_snapshot a, Analyzed r) ∈ L') →
  (∀ ws, q = false → W !! an_key a = Some ws → an_snapshot a = takeSnapshot ws D → unanswered a →
     attended D A' L' (an_key a) ws) →
  scheduler_inv W D T F A' L' n q.
Proof.
  intros [Hd Ht Ha Hp] Hia Hadv HL Hans Hatt. split; [done|done|by eapply advance_analyses|].
  intros k w Hq Hw Hpos. eapply attended_same; [by apply (Hp k w)|..]; try done.
  intros i b Hi Hk Hs Hu. destruct (decide (i = id)) as [->|Hne].
  - right. assert (b = a) as -> by congruence. rewrite <- Hk in *. by apply Hatt.
  - left. exists b. by rewrite (proj1 Hadv i Hne).
Qed.

Lemma accept_timers key ws ws' q :
  timer_inv W T F n q → W !! key = Some ws → ws_timer ws = None → ws_timer ws' = None → ws_cancel ws' = None →
  ws_sequence ws' = ws_sequence ws → timer_inv (<[key := ws']> W) T F n q.
Proof.
  intros Ht Hws Hnt Htm Hcn Hsq. split.
  - apply (inv_fresh_fired _ _ _ _ _ Ht).
  - apply (inv_once _ _ _ _ _ Ht).
  - intros i k s Hi. destruct (inv_armed _ _ _ _ _ Ht i k s Hi) as (? & w & Hw & ? & ?). split; [done|].
    exists w. rewrite lookup_insert_ne; [done|]. intros ->. congruence.
  - intros i k s w Hi. rewrite lookup_insert_Some. intros [[<- <-]|[_ Hw]]; [|by apply (inv_fired _ _ _ _ _ Ht i k)].
    rewrite Hsq. destruct (inv_fired _ _ _ _ _ Ht i key s ws Hi Hws) as [? Hc]. split; [done|].
    intros Heq. destruct (Hc Heq); [by left|congruence].
  - intros k w i. rewrite lookup_insert_Some. intros [[<- <-]|[_ Hw]]; [congruence|]. by apply (inv_timer _ _ _ _ _ Ht).
  - intros k w Hq. rewrite lookup_insert_Some. intros [[<- <-]|[_ Hw]]; [done|]. by apply (inv_quiet _ _ _ _ _ Ht k).
Qed.

(** The workspace takes a result: nothing the scheduler looks at changes but
    the cancel function. *)
Lemma inv_accept id a r ws ws' A' q :
  scheduler_inv W D T F A L n q → A !! id = Some a → an_point a = AtComplete r → W !! an_key a = Some ws →
  ws_sequence ws = sn_sequence (an_snapshot a) →
  takeSnapshot ws' D = takeSnapshot ws D → ws_documents ws' = ws_documents ws →
  ws_timer ws' = ws_timer ws → ws_cancel ws' = None → ws_latest ws' = Some r →
  advanced A' id a → (∀ a', A' !! id = Some a' → ¬ unanswered a') →
  scheduler_inv (<[an_key a := ws']> W) D T F A' L n q.
Proof.
  intros [Hd Ht Ha Hp] Hia Hpt Hws Hsq Hsnap Hdocs Htm Hcn Hlt Hadv Hun.
  assert (ws_sequence ws' = ws_sequence ws ∧ ws_id ws' = ws_id ws) as [Hsq' Hid'].
  { unfold takeSnapshot in Hsnap. by injection Hsnap. }
  destruct (inv_analysis _ _ _ _ _ Ha id a ws Hia Hws) as (Hsv & _ & Hfresh).
  assert (ws_timer ws = None) as Hnt.
  { destruct (ws_timer ws) eqn:E; [|done]. pose proof (inv_before _ _ _ _ _ Ha ws id a Hia Hws ltac:(by eexists)). lia. }
  assert (analysis_inv W D A' L n) as Ha'.
  { eapply advance_analyses; [done..|]. intros a' r' Ha' Hp'. destruct (Hun a' Ha'). unfold unanswered. by rewrite Hp'. }
  split; [by eapply same_documents|eapply accept_timers; try done; congruence| |].
  - pose proof Ha' as [F1 F2 F3 F4 F5 F6 F7]. split; try done; clear F2 F3 F4 F7.
    + intros k w i. rewrite lookup_insert_Some. intros [[<- <-]|[_ Hw]]; [congruence|]. by apply (inv_cancel _ _ _ _ _ Ha').
    + intros i b w Hb. rewrite lookup_insert_Some. intros [[Hk <-]|[_ Hw]].
      * rewrite Hsq', Hid', Hsnap. rewrite Hk in Hws. by apply (inv_analysis _ _ _ _ _ Ha' i).
      * by apply (inv_analysis _ _ _ _ _ Ha' i).
    + intros i b Hb Hpb Hl. destruct (inv_live _ _ _ _ _ Ha' i b Hb Hpb Hl) as (w & Hw & Hwc). exists w.
      rewrite lookup_insert_ne; [done|]. intros Hk. rewrite <- Hk, Hws in Hw. injection Hw as <-.
      destruct (advanced_lookup _ _ _ _ _ Hadv Hia Hb) as (b' & Hb' & Hk' & Hs' & [[Hne ->]|[-> Hno]]); [|done].
      destruct (inv_cancel _ _ _ _ _ Ha _ ws i Hws Hwc) as [_ Hall]. destruct (Hall b Hb') as [_ Hsb].
      apply Hne. apply (inv_unique _ _ _ _ _ Ha i id b a Hb' Hia); congruence.
    + intros w i b Hb. rewrite lookup_insert_Some. intros [[Hk <-]|[_ Hw]]; [|by apply (inv_before _ _ _ _ _ Ha' w i)].
      rewrite Htm, Hnt. by intros [??].
  - intros k w Hq. rewrite lookup_insert_Some. intros [[<- <-]|[Hne Hw]] Hpos.
    + right; right. exists (Analyzed r). rewrite Hsnap, <- Hfresh by done.
      split; [by apply (inv_answered _ _ _ _ _ Ha id)|]. by intros r' [= <-].
    + eapply attended_same; [by apply (Hp k w)|..]; try done. intros i b Hi Hk _ _. left. exists b.
      rewrite (proj1 Hadv i); [done|]. intros ->. congruence.
Qed.
End changes.
