(* ===== verification/LspReach.v ===== *)
(** Every step of a client that keeps the protocol preserves the invariant. *)
From S2P Require Import Prelude GoSort GoStrings GoRoot GoPath GoUrl Diag LspText LspServer LspPaths LspInvariant.

(** ** Views of the changes *)

Lemma winv_schedule w D' key ws ws1 :
  winv w → quiet_of w = false → workspaces_of w !! key = Some ws →
  ws_id ws1 = ws_id ws → ws_timer ws1 = ws_timer ws → ws_cancel ws1 = ws_cancel ws →
  ws_sequence ws1 = ws_sequence ws → (ws_sequence ws < 2 ^ 64 - 1)%N → edits (documents_of w) D' key ws1 →
  winv (scheduleWorkspaceLocked key ws1 (on_server (set_sv_documents D') w)).
Proof.
  intros Hinv Hq Hws Hid Htm Hcn Hsq Hmax Hed. unfold winv in Hinv. rewrite Hq in Hinv.
  pose proof (inv_touch _ _ _ _ _ _ _ D' key ws ws1 Hinv Hws Hid Htm Hcn Hsq Hmax Hed) as Hnew.
  rewrite <- Htm, <- Hcn, <- Hsq in Hnew. unfold scheduleWorkspaceLocked.
  unfold quiet_of in Hq. change (w_server (on_server _ w)) with (set_sv_documents D' (w_server w)).
  cbn [sv_closing sv_shutdown set_sv_documents]. rewrite Hq.
  unfold winv, quiet_of. destruct (ws_timer ws1), (ws_cancel ws1); cbn; rewrite Hq; exact Hnew.
Qed.

Lemma winv_reschedule w key ws ws1 :
  winv w → quiet_of w = false → workspaces_of w !! key = Some ws →
  ws_id ws1 = ws_id ws → ws_timer ws1 = ws_timer ws → ws_cancel ws1 = ws_cancel ws →
  ws_sequence ws1 = ws_sequence ws → (ws_sequence ws < 2 ^ 64 - 1)%N → ws_documents ws1 = ws_documents ws →
  winv (scheduleWorkspaceLocked key ws1 w).
Proof.
  intros Hinv Hq Hws Hid Htm Hcn Hsq Hmax Hdocs.
  assert (w = on_server (set_sv_documents (documents_of w)) w) as Hw by by destruct w as [[] ?].
  rewrite Hw. eapply winv_schedule; [done..|]. destruct Hinv as [Hd _ _ _]. split_and!.
  - intros uri. rewrite Hdocs. by apply (inv_listed _ _ Hd).
  - intros uri d Hin. destruct (decide (dc_root d = key)) as [Hr|]; [left|by right]. split; [done|].
    destruct (inv_owned _ _ Hd uri d Hin) as [Hnil|(w' & Hw' & Hu)].
    + exfalso. apply (inv_keys _ _ Hd key); [by eexists|congruence].
    + rewrite Hdocs. congruence.
  - done.
Qed.

(** A document of a workspace, and what becomes of it. *)
Lemma edits_replace w uri d d' key ws :
  winv w → documents_of w !! uri = Some d → dc_root d = key → dc_root d' = key → workspaces_of w !! key = Some ws →
  edits (documents_of w) (<[uri := d']> (documents_of w)) key ws.
Proof.
  intros [Hd _ _ _] Hin Hr Hr' Hws. split_and!.
  - intros u Hu. destruct (decide (u = uri)) as [->|Hne].
    + exists d'. by rewrite lookup_insert_eq.
    + rewrite lookup_insert_ne by done. by apply (inv_listed _ _ Hd key ws).
  - intros u x. rewrite lookup_insert_Some. intros [[<- <-]|[Hne Hx]].
    + left. split; [done|]. destruct (inv_owned _ _ Hd uri d Hin) as [Hnil|(w' & Hw' & Hu)]; [|congruence].
      exfalso. apply (inv_keys _ _ Hd key); [by eexists|congruence].
    + destruct (decide (dc_root x = key)) as [Hx'|]; [left|by right]. split; [done|].
      destruct (inv_owned _ _ Hd u x Hx) as [Hnil|(w' & Hw' & Hu)]; [|congruence].
      exfalso. apply (inv_keys _ _ Hd key); [by eexists|congruence].
  - intros u x Hx Hrx. rewrite lookup_insert_ne; [done|]. intros ->. congruence.
Qed.

(** A document that belongs to no workspace is in no list. *)
Lemma orphan_loose w uri d :
  winv w → documents_of w !! uri = Some d → workspaces_of w !! dc_root d = None →
  dc_root d = "" ∧ ∀ key ws, workspaces_of w !! key = Some ws → uri ∉ ws_documents ws.
Proof.
  intros [Hd _ _ _] Hin Hnone. split.
  - destruct (inv_owned _ _ Hd uri d Hin) as [|(w' & Hw' & _)]; [done|congruence].
  - intros key ws Hws Hu. destruct (inv_listed _ _ Hd key ws uri Hws Hu) as (d' & Hd' & Hr). congruence.
Qed.

Definition small (w : world) : Prop :=
  ∀ key ws, workspaces_of w !! key = Some ws → (ws_sequence ws < 2 ^ 64 - 1)%N.

Lemma winv_edit w uri d d' :
  winv w → quiet_of w = false → small w → documents_of w !! uri = Some d → dc_root d' = dc_root d →
  winv (scheduleDocument d' (putDocument uri d' w)).
Proof.
  intros Hinv Hq Hsmall Hin Hr. unfold scheduleDocument, withWorkspace.
  change (workspaces_of (putDocument uri d' w)) with (workspaces_of w). rewrite Hr.
  destruct (workspaces_of w !! dc_root d) as [ws|] eqn:Hws.
  - apply (winv_schedule w (<[uri := d']> (documents_of w)) _ ws); try done; [by eapply Hsmall|].
    by eapply edits_replace.
  - destruct (orphan_loose w uri d Hinv Hin Hws) as [Hnil Hno].
    apply (inv_loose _ _ _ _ _ _ _ (<[uri := d']> (documents_of w)) _ Hinv).
    + intros key ws u Hw Hu. rewrite lookup_insert_ne; [done|]. intros ->. by eapply Hno.
    + intros u x. rewrite lookup_insert_Some. intros [[<- <-]|[_ Hx]]; [right; congruence|by left].
Qed.

Section handlers.
Context `{UnicodeTables} `{!GoUrl} `{!GoUrlLaws} (config : serverConfig).

Lemma winv_didChange w params :
  winv w → quiet_of w = false → small w → winv (didChange config params w).
Proof.
  intros Hinv Hq Hsmall. unfold didChange. destruct params as [[[uri version] changes]|]; [|done].
  destruct (last changes); [|done]. case_match; [done|].
  destruct (documents_of w !! uri) as [d|] eqn:Hd; [|done]. case_match; [done|]. by eapply winv_edit.
Qed.

Lemma winv_didSave w params :
  winv w → quiet_of w = false → small w → winv (didSave config params w).
Proof.
  intros Hinv Hq Hsmall. unfold didSave. destruct params as [[uri text]|]; [|done].
  destruct (documents_of w !! uri) as [d|] eqn:Hd; [|done]. destruct text as [text|].
  - case_match; [done|]. by apply (winv_edit w uri d (set_dc_content text d)).
  - unfold scheduleDocument, withWorkspace. destruct (workspaces_of w !! dc_root d) as [ws|] eqn:Hws; [|done].
    eapply winv_reschedule; try done. by eapply Hsmall.
Qed.

Lemma winv_didClose w params :
  winv w → quiet_of w = false → small w → winv (didClose params w).2.
Proof.
  intros Hinv Hq Hsmall. unfold didClose. destruct params as [uri|]; [|done].
  destruct (documents_of w !! uri) as [d|] eqn:Hin; [|done]. cbn [snd]. unfold withWorkspace.
  change (workspaces_of (on_server _ w)) with (workspaces_of w).
  pose proof Hinv as [Hd _ _ _].
  destruct (workspaces_of w !! dc_root d) as [ws|] eqn:Hws.
  - apply (winv_schedule w (delete uri (documents_of w)) _ ws); try done; [by eapply Hsmall|]. split_and!.
    + intros u [Hu Hne]%elem_of_difference. rewrite lookup_delete_ne by set_solver.
      by apply (inv_listed _ _ Hd (dc_root d) ws).
    + intros u x [Hne Hx]%lookup_delete_Some.
      destruct (decide (dc_root x = dc_root d)) as [Hr|]; [left|by right]. split; [done|].
      destruct (inv_owned _ _ Hd u x Hx) as [Hnil|(w' & Hw' & Hu)]; simpl; [|].
      * exfalso. apply (inv_keys _ _ Hd (dc_root d)); [by eexists|congruence].
      * rewrite Hr, Hws in Hw'. injection Hw' as <-. set_solver.
    + intros u x Hx Hr. rewrite lookup_delete_ne; [done|]. intros ->. congruence.
  - destruct (orphan_loose w uri d Hinv Hin Hws) as [Hnil Hno].
    apply (inv_loose _ _ _ _ _ _ _ (delete uri (documents_of w)) _ Hinv).
    + intros key ws u Hw Hu. rewrite lookup_delete_ne; [done|]. intros ->. by eapply Hno.
    + intros u x [_ Hx]%lookup_delete_Some. by left.
Qed.

Lemma winv_openDocument w item path root :
  winv w → quiet_of w = false → small w → documents_of w !! ti_URI item = None →
  is_Some (workspaces_of w !! root) → winv (openDocument item path root w).
Proof.
  intros Hinv Hq Hsmall Hnew [ws Hws]. unfold openDocument, withWorkspace. rewrite Hnew.
  set (d := mkDocument _ _ _ _ _ _). change (workspaces_of (putDocument _ d w)) with (workspaces_of w). rewrite Hws.
  pose proof Hinv as [Hd _ _ _].
  apply (winv_schedule w (<[ti_URI item := d]> (documents_of w)) _ ws); try done; [by eapply Hsmall|]. split_and!.
  - intros u [Hu|Hu]%elem_of_union.
    + rewrite lookup_insert_ne; [by apply (inv_listed _ _ Hd root ws)|]. intros <-.
      destruct (inv_listed _ _ Hd root ws _ Hws Hu) as (? & ? & _). congruence.
    + exists d. assert (u = ti_URI item) as -> by set_solver. by rewrite lookup_insert_eq.
  - intros u x. rewrite lookup_insert_Some. intros [[<- <-]|[_ Hx]]; [left; split; [done|]; simpl; set_solver|].
    destruct (decide (dc_root x = root)) as [Hr|]; [left|by right]. split; [done|].
    destruct (inv_owned _ _ Hd u x Hx) as [Hnil|(w' & Hw' & Hu)]; simpl.
    + exfalso. apply (inv_keys _ _ Hd root); [by eexists|congruence].
    + rewrite Hr, Hws in Hw'. injection Hw' as <-. set_solver.
  - intros u x Hx _. rewrite lookup_insert_ne; [done|]. intros <-. congruence.
Qed.

(** ** Workspaces come and go *)

(** Every workspace the step adds has no work of a predecessor in flight. *)
Definition adds_idle (w w' : world) : Prop := ∀ key,
  workspaces_of w !! key = None → is_Some (workspaces_of w' !! key) →
  idle (rt_fired (w_run w)) (analyses_of w) key.

(** What [addWorkspace] does: nothing, or one new workspace. *)
Definition added (w w' : world) : Prop :=
  w' = w ∨ ∃ key ws, workspaces_of w !! key = None ∧ key ≠ "" ∧ ws_id ws = rt_next (w_run w) ∧
    ws_sequence ws = 0%N ∧ ws_timer ws = None ∧ ws_cancel ws = None ∧ ws_documents ws = ∅ ∧
    w' = putWorkspace key ws (on_run (set_rt_next (S (rt_next (w_run w)))) w).

Lemma addWorkspace_added env uri w : added w (addWorkspace env uri w).2.
Proof.
  unfold addWorkspace. destruct (filePath uri) as [root|]; [|by left].
  destruct (match env_stat env root with StatDirectory => _ | _ => _ end); [|by left].
  destruct (workspaces_of w !! pathKey root) eqn:E; [by left|right].
  exists (pathKey root), (mkWorkspace (rt_next (w_run w)) root uri 0 None None None None (sv_settings (w_server w)) ∅ ∅).
  split_and!; [exact E|apply path_clean_nonempty|done..].
Qed.

Lemma winv_added w w' : winv w → added w w' → adds_idle w w' → winv w'.
Proof.
  intros Hinv [->|(key & ws & Hnone & Hkey & _ & Hsq & Htm & Hcn & Hdocs & ->)] Hidle; [done|].
  apply (inv_add _ _ _ _ _ _ _ key ws _ Hinv); try done. apply Hidle; [done|].
  cbn. rewrite lookup_insert_eq. by eexists.
Qed.

Lemma added_keeps w w' :
  added w w' → rt_fired (w_run w') = rt_fired (w_run w) ∧ analyses_of w' = analyses_of w ∧
    quiet_of w' = quiet_of w ∧ documents_of w' = documents_of w ∧ (small w → small w') ∧
    ∀ key, is_Some (workspaces_of w !! key) → is_Some (workspaces_of w' !! key).
Proof.
  intros [->|(key & ws & Hnone & _ & _ & Hsq & _ & _ & _ & ->)]; [done|]. split_and!; try done.
  - intros Hsmall k w'. cbn. rewrite lookup_insert_Some. intros [[<- <-]|[_ Hw]]; [lia|by eapply Hsmall].
  - intros k [x Hk]. cbn. destruct (decide (k = key)) as [->|Hne]; [rewrite lookup_insert_eq|rewrite lookup_insert_ne by done]; by eexists.
Qed.

Lemma adds_idle_weaken w w1 w' :
  adds_idle w w' → (∀ key, is_Some (workspaces_of w1 !! key) → is_Some (workspaces_of w' !! key)) → adds_idle w w1.
Proof. intros Hidle Hk key Hnone Hsome. apply Hidle; auto. Qed.

Lemma adds_idle_after w w1 w' : adds_idle w w' → added w w1 → adds_idle w1 w'.
Proof.
  intros Hidle Hadd key Hnone Hsome. destruct (added_keeps w w1 Hadd) as (-> & -> & _ & _ & _ & Hk).
  apply Hidle; [|done]. destruct (workspaces_of w !! key) eqn:E; [|done].
  destruct (Hk key ltac:(by eexists)). congruence.
Qed.

Lemma addFolders_keeps env folders w :
  ∀ key, is_Some (workspaces_of w !! key) → is_Some (workspaces_of (addFolders env folders w).2 !! key).
Proof.
  revert w. induction folders as [|uri rest IH]; intros w key Hk; simpl; [done|].
  pose proof (addWorkspace_added env uri w) as Hadd. destruct (addWorkspace env uri w) as [r w1].
  assert (is_Some (workspaces_of w1 !! key)) by by apply (added_keeps w w1 Hadd).
  destruct r; [by apply IH|done].
Qed.

Lemma winv_addFolders env folders w :
  winv w → adds_idle w (addFolders env folders w).2 → winv (addFolders env folders w).2.
Proof.
  revert w. induction folders as [|uri rest IH]; intros w Hinv Hidle; simpl in *; [done|].
  pose proof (addWorkspace_added env uri w) as Hadd. destruct (addWorkspace env uri w) as [r w1].
  assert (winv w1).
  { apply (winv_added w w1 Hinv Hadd). eapply adds_idle_weaken; [exact Hidle|].
    destruct r; [by apply addFolders_keeps|done]. }
  destruct r; [|done]. apply IH; [done|]. by eapply adds_idle_after.
Qed.

Lemma workspaceForPath_found path W key ws : workspaceForPathLocked path W = Some (key, ws) → W !! key = Some ws.
Proof.
  unfold workspaceForPathLocked.
  apply (map_fold_weak_ind (λ sel (W : gmap string workspace), sel = Some (key, ws) → W !! key = Some ws)); [done|].
  intros k x W' sel Hnone IH. unfold longerRoot.
  destruct (holdsPath _ _).
  2: { intros Hsel. rewrite lookup_insert_ne; [by apply IH|]. intros ->. rewrite IH in Hnone; done. }
  destruct sel as [[k' best]|]; [|intros [= -> ->]; by rewrite lookup_insert_eq].
  destruct (_ <? _)%nat; [intros [= -> ->]; by rewrite lookup_insert_eq|].
  intros Hsel. rewrite lookup_insert_ne; [by apply IH|]. intros ->. rewrite IH in Hnone; done.
Qed.

Lemma ensureWorkspace_added env path w : added w (ensureWorkspace env path w).2.
Proof.
  unfold ensureWorkspace. destruct (workspaceForPathLocked _ _) as [[key ws]|]; [by left|].
  destruct (discoverModuleRoot env path) as [root|]; [|by left].
  pose proof (addWorkspace_added env (pathURI root) w) as Hadd. by destruct (addWorkspace _ _ _) as [[]?].
Qed.

(** The key [ensureWorkspace] returns is that of a workspace. *)
Lemma ensureWorkspace_present env path w root w' :
  path_is_abs path = true → ensureWorkspace env path w = (Ok root, w') → is_Some (workspaces_of w' !! root).
Proof.
  intros Hpath. unfold ensureWorkspace. destruct (workspaceForPathLocked _ _) as [[key ws]|] eqn:Hfind.
  { intros [= <- <-]. apply workspaceForPath_found in Hfind. by eexists. }
  destruct (discoverModuleRoot env path) as [dir|] eqn:Hdir; [|done].
  pose proof (discoverModuleRoot_abs _ _ _ Hdir Hpath) as Habs.
  unfold addWorkspace. rewrite filePath_pathURI by done.
  destruct (match env_stat env _ with StatDirectory => _ | _ => _ end); [|done].
  unfold pathKey. rewrite path_clean_clean by done.
  destruct (workspaces_of w !! path_clean dir) eqn:E; intros [= <- <-]; [by rewrite E|].
  cbn. rewrite lookup_insert_eq. by eexists.
Qed.

Lemma openDocument_keeps item path root w key :
  is_Some (workspaces_of w !! key) → is_Some (workspaces_of (openDocument item path root w) !! key).
Proof.
  assert (∀ k ws w0 k', is_Some (workspaces_of w0 !! k') → is_Some (workspaces_of (putWorkspace k ws w0) !! k')) as Hput.
  { intros k ws w0 k' Hk. cbn. apply lookup_insert_is_Some'. by right. }
  assert (∀ k f w0 k', (∀ ws w1, is_Some (workspaces_of w1 !! k') → is_Some (workspaces_of (f ws w1) !! k')) →
    is_Some (workspaces_of w0 !! k') → is_Some (workspaces_of (withWorkspace k f w0) !! k')) as Hwith.
  { intros k f w0 k' Hf Hk. unfold withWorkspace. destruct (workspaces_of w0 !! k); [by apply Hf|done]. }
  intros Hk. unfold openDocument. apply Hwith.
  - intros ws w1 Hk1. unfold scheduleWorkspaceLocked. destruct (_ || _); [by apply Hput|]. apply Hput.
    by destruct (ws_timer _), (ws_cancel _).
  - change (workspaces_of (putDocument ?u ?d ?w0)) with (workspaces_of w0).
    destruct (documents_of w !! ti_URI item); [|done]. apply Hwith; [|done]. intros ws w1. by apply Hput.
Qed.

Lemma winv_didOpen env params w :
  winv w → quiet_of w = false → small w → adds_idle w (didOpen config env params w).2 →
  (∀ item, params = Ok item → documents_of w !! ti_URI item = None) → winv (didOpen config env params w).2.
Proof.
  intros Hinv Hq Hsmall. unfold didOpen. destruct params as [item|]; [|done].
  destruct (_ || _); [done|]. destruct (filePath (ti_URI item)) as [path|] eqn:Hpath; [|done].
  pose proof (ensureWorkspace_added env path w) as Hadd.
  destruct (ensureWorkspace env path w) as [r w1] eqn:Hens. cbn [snd] in Hadd.
  pose proof (added_keeps w w1 Hadd) as (_ & _ & Hq1 & Hd1 & Hs1 & _).
  destruct r as [root|]; simpl; intros Hidle Hnew.
  - apply winv_openDocument.
    + apply (winv_added w w1 Hinv Hadd). eapply adds_idle_weaken; [exact Hidle|]. intros key. apply openDocument_keeps.
    + by rewrite Hq1.
    + by apply Hs1.
    + rewrite Hd1. by apply Hnew.
    + eapply ensureWorkspace_present; [by eapply filePath_abs|done].
  - by apply (winv_added w w1).
Qed.

Lemma winv_removeWorkspace uri w : winv w → winv (removeWorkspace uri w).2.
Proof.
  intros Hinv. unfold removeWorkspace. destruct (filePath uri) as [root|]; [|done].
  destruct (workspaces_of w !! pathKey root) as [ws|] eqn:Hws; [|done]. cbn [snd].
  pose proof (inv_remove _ _ _ _ _ _ _ _ ws _ Hinv Hws) as Hnew. unfold winv, quiet_of.
  destruct (ws_timer ws), (ws_cancel ws); exact Hnew.
Qed.

Lemma refresh_one settings key w :
  winv w → quiet_of w = false → (∀ ws, workspaces_of w !! key = Some ws → (ws_sequence ws < 2 ^ 64 - 1)%N) →
  winv (refreshWorkspace settings key w) ∧ quiet_of (refreshWorkspace settings key w) = false ∧
  ∀ k, k ≠ key → workspaces_of (refreshWorkspace settings key w) !! k = workspaces_of w !! k.
Proof.
  intros Hinv Hq Hsmall. unfold refreshWorkspace, withWorkspace.
  destruct (workspaces_of w !! key) as [ws|] eqn:Hws; [|done].
  set (ws1 := match settings with Some s => set_ws_settings s ws | None => ws end). split_and!.
  - eapply winv_reschedule; try done; try by destruct settings. by apply Hsmall.
  - unfold scheduleWorkspaceLocked. unfold quiet_of in Hq. rewrite Hq. unfold quiet_of.
    by destruct (ws_timer ws1), (ws_cancel ws1).
  - intros k Hk. unfold scheduleWorkspaceLocked. unfold quiet_of in Hq. rewrite Hq.
    destruct (ws_timer ws1), (ws_cancel ws1); cbn; by rewrite lookup_insert_ne.
Qed.

Lemma refresh_many settings keys w :
  NoDup keys → winv w → quiet_of w = false → small w →
  winv (foldr (refreshWorkspace settings) w keys) ∧ quiet_of (foldr (refreshWorkspace settings) w keys) = false ∧
  ∀ k, k ∉ keys → workspaces_of (foldr (refreshWorkspace settings) w keys) !! k = workspaces_of w !! k.
Proof.
  intros Hnd Hinv Hq Hsmall. induction Hnd as [|key keys Hnot Hnd IH]; simpl; [done|].
  destruct IH as (Hinv1 & Hq1 & Hsame).
  destruct (refresh_one settings key _ Hinv1 Hq1) as (? & ? & Hone).
  { intros ws. rewrite Hsame by done. apply Hsmall. }
  split_and!; [done..|]. intros k [Hk Hks]%not_elem_of_cons. rewrite Hone by done. by apply Hsame.
Qed.

Lemma winv_settings settings w : winv w → winv (on_server (set_sv_settings settings) w).
Proof. done. Qed.

Lemma winv_refreshAll params w :
  winv w → quiet_of w = false → small w → winv (refreshAll params w).2.
Proof.
  intros Hinv Hq Hsmall. unfold refreshAll. destruct params as [spice|]; [|done].
  destruct (normalizeAnalysisSettings spice) as [settings|]; [|done]. cbn [snd].
  apply refresh_many; [apply NoDup_fst_map_to_list|..]; destruct spice; done.
Qed.

(** ** Halting *)

Lemma foldr_stopTimer ids w :
  w_server (foldr stopTimer w ids) = w_server w ∧
  w_run (foldr stopTimer w ids) = set_rt_timers (foldr delete (rt_timers (w_run w)) ids) (w_run w).
Proof. induction ids as [|id ids [IH1 IH2]]; simpl; [by destruct w as [? []]|]. by rewrite IH1, IH2. Qed.

Lemma foldr_cancelContext ids w :
  w_server (foldr cancelContext w ids) = w_server w ∧
  w_run (foldr cancelContext w ids) =
    set_rt_analyses (foldr (alter (set_an_cancelled true)) (analyses_of w) ids) (w_run w).
Proof.
  induction ids as [|id ids [IH1 IH2]]; simpl; [by destruct w as [? []]|]. unfold analyses_of in *. by rewrite IH1, IH2.
Qed.

Lemma lookup_foldr_delete {A} (ids : list nat) (m : gmap nat A) id x :
  foldr delete m ids !! id = Some x → m !! id = Some x ∧ id ∉ ids.
Proof.
  induction ids as [|i ids IH]; simpl; [by intros; split; [|apply not_elem_of_nil]|].
  intros [Hne [Hm Hno]%IH]%lookup_delete_Some. split; [done|]. apply not_elem_of_cons. done.
Qed.

Lemma lookup_foldr_cancel (ids : list nat) (A : gmap nat analysis) id a :
  foldr (alter (set_an_cancelled true)) A ids !! id = Some a →
  ∃ a', A !! id = Some a' ∧ an_key a' = an_key a ∧ an_snapshot a' = an_snapshot a ∧ an_point a' = an_point a ∧
    (an_cancelled a = false → an_cancelled a' = false ∧ id ∉ ids).
Proof.
  revert a. induction ids as [|i ids IH]; intros a; simpl.
  - intros Ha. exists a. split_and!; try done. intros. split; [done|apply not_elem_of_nil].
  - intros (b & Hb & Hk & Hs & Hp & Hc)%(lookup_cancelled (Some i)).
    destruct (IH b Hb) as (c & Hc1 & Hk1 & Hs1 & Hp1 & Hl1). exists c. split_and!; try congruence.
    intros [Hcb Hne]%Hc. destruct (Hl1 Hcb). split; [done|]. apply not_elem_of_cons. split; [congruence|done].
Qed.

Lemma elem_of_held {B} (f : workspace → option B) (W : gmap string workspace) key ws b :
  W !! key = Some ws → f ws = Some b → b ∈ omap f (map_to_list W).*2.
Proof.
  intros Hws Hf. apply list_elem_of_omap. exists ws. split; [|done].
  apply list_elem_of_fmap. exists (key, ws). split; [done|]. by apply elem_of_map_to_list.
Qed.

Lemma cancelAnalysesLocked_eq w :
  let held := (map_to_list (workspaces_of w)).*2 in
  cancelAnalysesLocked w =
    mkWorld (set_sv_workspaces (unscheduled <$> workspaces_of w) (w_server w))
      (set_rt_analyses (foldr (alter (set_an_cancelled true)) (analyses_of w) (omap ws_cancel held))
        (set_rt_timers (foldr delete (rt_timers (w_run w)) (omap ws_timer held)) (w_run w))).
Proof.
  intros held. unfold cancelAnalysesLocked. fold held.
  destruct (foldr_cancelContext (omap ws_cancel held) (foldr stopTimer w (omap ws_timer held))) as [Hs1 Hr1].
  destruct (foldr_stopTimer (omap ws_timer held) w) as [Hs2 Hr2].
  destruct (foldr cancelContext _ _) as [s r]. cbn in Hs1, Hr1. unfold on_server. cbn.
  unfold analyses_of in *. rewrite Hs1, Hr1, Hs2, Hr2. done.
Qed.

(** [cancelAnalysesLocked] after [shutdown] or [closing] was set. *)
Lemma winv_halt w f :
  winv w → sv_workspaces (f (w_server w)) = workspaces_of w → sv_documents (f (w_server w)) = documents_of w →
  sv_closing (f (w_server w)) || sv_shutdown (f (w_server w)) = true →
  winv (cancelAnalysesLocked (on_server f w)).
Proof.
  intros Hinv HW HD Hquiet. rewrite cancelAnalysesLocked_eq.
  unfold winv, quiet_of, workspaces_of, documents_of, analyses_of, on_server. cbn.
  rewrite Hquiet, HW, HD. eapply inv_halt; [exact Hinv|..].
  - intros id x [Hid Hno]%lookup_foldr_delete. split; [done|]. intros key ws Hws Hwt. apply Hno. by eapply elem_of_held.
  - intros id a (a' & Ha' & ? & ? & ? & Hc)%lookup_foldr_cancel. exists a'. split_and!; try done.
    intros [? Hno]%Hc. split; [done|]. intros key ws Hws Hwt. apply Hno. by eapply elem_of_held.
Qed.

(** ** The goroutine of Run *)

Lemma winv_initialize env request params w :
  winv w → adds_idle w (initialize env request params w).2 → winv (initialize env request params w).2.
Proof.
  intros Hinv. unfold initialize. destruct request; [|done]. destruct params as [params|]; [|done].
  destruct (sv_initialized _); [done|]. destruct (normalizeAnalysisSettings _) as [settings|]; [|done]. cbn zeta.
  set (folders := if _ && negb (bool_decide (ip_RootPath params = "")) then _ else _).
  pose proof (winv_addFolders env folders (on_server (set_sv_settings settings) w) Hinv) as Hadd.
  cbn [negb]. destruct (addFolders env folders _) as [[] w1]; exact Hadd.
Qed.

Lemma winv_handle env m w :
  winv w → sv_closing (w_server w) = false → small w → adds_idle w (handle config env m w).2 →
  (∀ item, m = DidOpen (Ok item) → documents_of w !! ti_URI item = None) → winv (handle config env m w).2.
Proof.
  intros Hinv Hopen Hsmall.
  assert (∀ m, adds_idle w (handleInitialized config env m w).2 →
    (∀ item, m = DidOpen (Ok item) → documents_of w !! ti_URI item = None) →
    winv (handleInitialized config env m w).2) as Hinit.
  { intros m' Hidle Hnew. unfold handleInitialized in *. destruct (negb _); [done|].
    destruct (sv_shutdown (w_server w)) eqn:Hsd; [done|].
    assert (quiet_of w = false) as Hq by by unfold quiet_of; rewrite Hopen, Hsd.
    destruct m'; try done.
    - apply winv_didOpen; try done. intros item ->. by apply Hnew.
    - by apply winv_didChange.
    - by apply winv_didSave.
    - by apply winv_didClose.
    - by apply winv_refreshAll.
    - unfold handleShutdown. destruct request; [|done]. apply winv_halt; try done. apply orb_true_r. }
  destruct m; simpl; try done; try apply Hinit. by intros ? _; apply winv_initialize.
Qed.

Lemma winv_stop errs w : winv w → winv (stop errs w).
Proof.
  intros Hinv. unfold stop.
  pose proof (winv_halt w (set_sv_closing true) Hinv eq_refl eq_refl eq_refl) as Hhalt. exact Hhalt.
Qed.

Lemma stop_keys errs w key :
  is_Some (workspaces_of w !! key) → is_Some (workspaces_of (stop errs w) !! key).
Proof.
  intros Hk. unfold stop.
  change (workspaces_of (setMain _ (handleWriteError ?w0))) with (workspaces_of w0).
  rewrite cancelAnalysesLocked_eq. cbn. rewrite lookup_fmap. by apply fmap_is_Some.
Qed.

Lemma winv_proceed r w : winv w → winv (proceed r w).
Proof. intros Hinv. destruct r; [exact Hinv|by apply winv_stop]. Qed.

Lemma winv_doWork env err item rest w :
  winv w → adds_idle w (doWork env err item rest w) → winv (doWork env err item rest w).
Proof.
  intros Hinv. destruct item; simpl.
  - destruct err; [|done]. intros _. by apply winv_stop.
  - by destruct err.
  - by destruct uris, err.
  - intros _. pose proof (winv_removeWorkspace uri w Hinv) as Hrem. destruct (removeWorkspace uri w). exact Hrem.
  - pose proof (addWorkspace_added env uri w) as Hadd. destruct (addWorkspace env uri w) as [[] w1];
      intros Hidle; exact (winv_added w w1 Hinv Hadd Hidle).
Qed.

Lemma winv_stepMain act w w' :
  winv w → (∀ todo, rt_main (w_run w) = Serving todo → sv_closing (w_server w) = false) → small w → adds_idle w w' →
  (∀ env item, act = Receive env (DidOpen (Ok item)) → documents_of w !! ti_URI item = None) →
  stepMain config act w = Some w' → winv w'.
Proof.
  intros Hinv Hopen Hsmall Hidle Hnew. unfold stepMain.
  destruct act; try done; destruct (rt_main (w_run w)) as [[|item rest]|errs [|svc svcs]|errs [|svc svcs]|] eqn:Hmain;
    try done; try by destruct err.
  - destruct (handle config env m w) as [r w1] eqn:Hh. intros [= <-]. apply winv_proceed.
    pose proof (winv_handle env m w Hinv (Hopen [] eq_refl) Hsmall) as Hhw. rewrite Hh in Hhw. apply Hhw.
    + destruct r; [exact Hidle|]. eapply adds_idle_weaken; [exact Hidle|]. intros key Hk.
      by apply stop_keys.
    + intros item ->. by eapply Hnew.
  - intros [= <-]. by apply winv_stop.
  - intros [= <-]. by apply winv_doWork.
  - destruct (_ && _); [|done]. by intros [= <-].
  - destruct (_ && _); [|done]. by intros [= <-].
  - destruct err; [done|]. intros Hw. injection Hw as <-. exact Hinv.
  - destruct err; intros Hw; injection Hw as <-; exact Hinv.
Qed.

(** ** The goroutines of analyses *)

Lemma advanced_delete (A : gmap nat analysis) id a : advanced A (delete id A) id a.
Proof. split; [intros i Hi; by rewrite lookup_delete_ne|]. intros a'. by rewrite lookup_delete_eq. Qed.

Lemma advanced_point (A : gmap nat analysis) id a point :
  A !! id = Some a → point ≠ AtAnalyze → advanced A (alter (set_an_point point) id A) id a.
Proof.
  intros Ha Hp. split; [intros i Hi; by rewrite lookup_alter_ne|]. intros a'. rewrite lookup_alter_eq, Ha.
  by intros [= <-].
Qed.

(** A step that ends in a state with the same schedule. *)
Lemma winv_same_schedule w w' id a L' :
  winv w → analyses_of w !! id = Some a → w_server w' = w_server w →
  rt_timers (w_run w') = rt_timers (w_run w) → rt_fired (w_run w') = rt_fired (w_run w) →
  rt_next (w_run w') = rt_next (w_run w) → rt_answers (w_run w') = rt_answers (w_run w) ++ L' →
  advanced (analyses_of w) (analyses_of w') id a →
  (∀ a' r, analyses_of w' !! id = Some a' → an_point a' = AtComplete r → (an_snapshot a, Analyzed r) ∈ L') →
  (∀ ws, quiet_of w = false → workspaces_of w !! an_key a = Some ws →
     an_snapshot a = takeSnapshot ws (documents_of w) → unanswered a →
     attended (documents_of w) (analyses_of w') (rt_answers (w_run w) ++ L') (an_key a) ws) →
  winv w'.
Proof.
  intros Hinv Ha Hs HT HF Hn HL Hadv Hans Hatt. unfold winv, quiet_of, workspaces_of, documents_of in *.
  rewrite Hs, HT, HF, Hn, HL. eapply inv_advance; [done|done|done| | |done].
  - intros x Hx. apply elem_of_app. by left.
  - intros a' r Ha' Hp. apply elem_of_app. right. by eapply Hans.
Qed.

Lemma winv_advance w w' id a :
  winv w → analyses_of w !! id = Some a → ¬ unanswered a → w_server w' = w_server w →
  rt_timers (w_run w') = rt_timers (w_run w) → rt_fired (w_run w') = rt_fired (w_run w) →
  rt_next (w_run w') = rt_next (w_run w) → rt_answers (w_run w') = rt_answers (w_run w) →
  advanced (analyses_of w) (analyses_of w') id a →
  (∀ a', analyses_of w' !! id = Some a' → ¬ unanswered a') → winv w'.
Proof.
  intros Hinv Ha Hun Hs HT HF Hn HL Hadv Hun'. eapply (winv_same_schedule w w' id a []); rewrite ?app_nil_r; try done.
  intros a' r Ha' Hp. destruct (Hun' a' Ha'). unfold unanswered. by rewrite Hp.
Qed.

(** An error of the analysis is its answer. *)
Lemma winv_unanalyzed w w' id a answer :
  winv w → analyses_of w !! id = Some a → (∀ r, answer ≠ Analyzed r) → w_server w' = w_server w →
  rt_timers (w_run w') = rt_timers (w_run w) → rt_fired (w_run w') = rt_fired (w_run w) →
  rt_next (w_run w') = rt_next (w_run w) →
  rt_answers (w_run w') = rt_answers (w_run w) ++ [(an_snapshot a, answer)] →
  advanced (analyses_of w) (analyses_of w') id a →
  (∀ a', analyses_of w' !! id = Some a' → ¬ unanswered a') → winv w'.
Proof.
  intros Hinv Ha Hno Hs HT HF Hn HL Hadv Hun'.
  eapply (winv_same_schedule w w' id a [(an_snapshot a, answer)]); try done.
  - intros a' r Ha' Hp. destruct (Hun' a' Ha'). unfold unanswered. by rewrite Hp.
  - intros ws _ _ Hsn _. right; right. exists answer. split; [|naive_solver].
    apply elem_of_app. right. rewrite Hsn. by apply list_elem_of_singleton.
Qed.

Lemma winv_analyzeReturns w id a answer :
  winv w → analyses_of w !! id = Some a → an_point a = AtAnalyze →
  winv (analyzeReturns id (an_snapshot a) answer w).
Proof.
  intros Hinv Ha Hp. unfold analyses_of in Ha.
  assert (advanced (analyses_of w) (delete id (alter (set_an_cancelled true) id (analyses_of w))) id a) as Hdel.
  { split; [intros i Hi; by rewrite lookup_delete_ne, lookup_alter_ne|intros a'; by rewrite lookup_delete_eq]. }
  assert (∀ p, p ≠ AtAnalyze → advanced (analyses_of w)
    (alter (set_an_point p) id (alter (set_an_cancelled true) id (analyses_of w))) id a) as Halt.
  { intros p Hne. split; [intros i Hi; by rewrite !lookup_alter_ne|].
    intros a'. unfold analyses_of. rewrite !lookup_alter_eq, Ha. by intros [= <-]. }
  destruct answer as [| |err|err|r].
  1,2,3,4: eapply winv_unanalyzed; try done; cbn;
    try first [exact Hdel|by apply Halt|by apply advanced_point];
    intros a'; rewrite ?lookup_delete_eq, ?lookup_alter_eq, ?Ha; try done; by intros [= <-] [].
  assert (∀ a', alter (set_an_point (AtComplete r)) id
      (alter (set_an_cancelled true) id (rt_analyses (w_run w))) !! id = Some a' →
      an_snapshot a' = an_snapshot a ∧ an_key a' = an_key a ∧ an_point a' = AtComplete r) as Hnew.
  { intros a'. rewrite !lookup_alter_eq, Ha. by intros [= <-]. }
  eapply (winv_same_schedule w _ id a [(an_snapshot a, Analyzed r)]); try done; cbn; [by apply Halt|..].
  - intros a' r' (_ & _ & ->)%Hnew [= ->]. by apply list_elem_of_singleton.
  - intros ws _ _ Hsn _. right; left. exists id. rewrite !lookup_alter_eq, Ha. eexists. split; [done|].
    split_and!; done.
Qed.

(** The locked section of [completeAnalysis]. *)
Lemma winv_completeAnalysis env w id a r :
  winv w → analyses_of w !! id = Some a → an_point a = AtComplete r →
  winv (completeAnalysis config env id a r w).
Proof.
  intros Hinv Ha Hp. pose proof Hinv as [_ _ Han _]. unfold completeAnalysis.
  destruct (workspaces_of w !! an_key a) as [ws|] eqn:Hws.
  2: { eapply (winv_same_schedule w _ id a []); rewrite ?app_nil_r; try done; cbn; [apply advanced_delete|..].
    - intros a' r'. by rewrite lookup_delete_eq.
    - congruence. }
  destruct (negb _ || _ || _) eqn:Hrefuse.
  - eapply (winv_same_schedule w _ id a []); rewrite ?app_nil_r; try done; cbn; [apply advanced_delete|..].
    + intros a' r'. by rewrite lookup_delete_eq.
    + intros ws' Hq Hws' Hsn _. exfalso. rewrite Hws in Hws'. injection Hws' as <-.
      unfold quiet_of in Hq. apply orb_false_iff in Hq as [Hq _].
      rewrite Hsn, Hq, orb_false_r in Hrefuse. cbn in Hrefuse. rewrite N.eqb_refl in Hrefuse. cbn in Hrefuse.
      apply negb_true_iff, bool_decide_eq_false in Hrefuse. apply Hrefuse. apply map_Forall_lookup. intros uri v.
      rewrite lookup_fmap, snapshot_lookup. case_decide; [|done]. by intros ->.
  - bool_prop. set (ws1 := if rs_generationReady r then _ else _).
    destruct (publicationsLocked config env (documents_of w) ws1 r) as [[publications messages] published].
    assert (winv (setPoint id (AtCheck publications messages) (putWorkspace (an_key a) (set_ws_published published ws1) w)))
      as Hgoal; [|exact Hgoal].
    eapply (inv_accept _ _ _ _ _ _ _ id a r ws (set_ws_published published ws1)); try done;
      try (by unfold ws1; destruct (rs_generationReady r)).
    + by apply N.eqb_eq.
    + cbn. by apply advanced_point.
    + cbn. intros a'. unfold analyses_of in Ha. rewrite lookup_alter_eq, Ha. by intros [= <-] [].
Qed.

Lemma winv_stepAnalysis act id w w' :
  winv w → stepAnalysis config act id w = Some w' → winv w'.
Proof.
  intros Hinv. unfold stepAnalysis. destruct (analyses_of w !! id) as [a|] eqn:Ha; [|done]. cbn [mbind option_bind].
  assert (∀ w1, w_server w1 = w_server w → analyses_of w1 = delete id (analyses_of w) →
    rt_timers (w_run w1) = rt_timers (w_run w) → rt_fired (w_run w1) = rt_fired (w_run w) →
    rt_next (w_run w1) = rt_next (w_run w) → rt_answers (w_run w1) = rt_answers (w_run w) →
    ¬ unanswered a → winv w1) as Hend.
  { intros w1 ? HA ?????. eapply (winv_advance w w1 id a); try done; rewrite HA; [apply advanced_delete|].
    intros a'. by rewrite lookup_delete_eq. }
  assert (∀ w1 p, w_server w1 = w_server w → analyses_of w1 = alter (set_an_point p) id (analyses_of w) →
    rt_timers (w_run w1) = rt_timers (w_run w) → rt_fired (w_run w1) = rt_fired (w_run w) →
    rt_next (w_run w1) = rt_next (w_run w) → rt_answers (w_run w1) = rt_answers (w_run w) →
    ¬ unanswered a → match p with AtAnalyze | AtComplete _ => False | _ => True end → winv w1) as Hpoint.
  { intros w1 p ? HA ????? Hp. eapply (winv_advance w w1 id a); try done; rewrite HA.
    - apply advanced_point; [done|]. by intros ->.
    - intros a'. rewrite lookup_alter_eq, Ha. intros [= <-]. unfold unanswered. simpl. intros Hu. by destruct p. }
  assert (∀ p, an_point a = p → match p with AtAnalyze | AtComplete _ => False | _ => True end → ¬ unanswered a) as Hun.
  { intros p <-. unfold unanswered. intros Hp Hu. by destruct (an_point a). }
  destruct act; try done; destruct (an_point a) as [|m|r|ps ms|ps ms] eqn:Hp; try done.
  - assert (winv (analyzeReturns id (an_snapshot a) answer w)) by by apply winv_analyzeReturns.
    destruct answer; try (by intros [= <-]). case_decide; [done|]. by intros [= <-].
  - intros [= <-]. apply Hend; try done; try by destruct failed. exact (Hun _ eq_refl I).
  - intros [= <-]. by apply winv_completeAnalysis.
  - intros [= <-]. pose proof (Hun _ eq_refl I) as Hno. unfold checkPublication.
    case_bool_decide; [by apply Hend|]. destruct (sequenceCurrent _ _ _); [by eapply Hpoint|by apply Hend].
  - intros [= <-]. pose proof (Hun _ eq_refl I) as Hno. unfold writePublication.
    destruct ps as [|p ps], ms as [|m ms]; try (by apply Hend); destruct failed; first [by apply Hend|by eapply Hpoint].
Qed.
End handlers.

(** ** Steps *)

Section polite.
Context `{UnicodeTables} `{!GoUrl} (config : serverConfig).

(** The client opens only documents that are not open, and adds a folder again
    only when the work of its predecessor is over; no counter is about to wrap. *)
Definition polite (act : action) (w w' : world) : Prop :=
  small w ∧ adds_idle w w' ∧
  ∀ env item, act = Receive env (DidOpen (Ok item)) → documents_of w !! ti_URI item = None.

Inductive polite_reachable : world → Prop :=
  | polite_start : polite_reachable initialWorld
  | polite_step act w w' :
      polite_reachable w → polite act w w' → step config act w = Some w' → polite_reachable w'.

Lemma winv_initial : winv initialWorld.
Proof.
  split; [split|split|split|]; intros ?; intros;
    repeat match goal with
    | Hs : is_Some _ |- _ => destruct Hs as [? Hs]
    | Hs : _ !! _ = Some _ |- _ => by apply lookup_empty_Some in Hs
    | |- _ ≠ _ => intros ?
    end; done.
Qed.

Lemma winv_beginAnalysis w id key s :
  winv w → rt_fired (w_run w) !! id = Some (key, s) → winv (beginAnalysis id key s w).
Proof.
  intros Hinv Hid. unfold beginAnalysis.
  set (w0 := on_run _ w). change (workspaces_of w0) with (workspaces_of w).
  destruct (workspaces_of w !! key) as [ws|] eqn:Hws.
  - destruct (negb _ || _ || _) eqn:Hrefuse.
    + apply (inv_begin_refused _ _ _ _ _ _ _ id key s _ Hinv Hid). intros ws' Hws'.
      rewrite Hws in Hws'. injection Hws' as <-. rewrite <- orb_assoc in Hrefuse.
      apply orb_true_iff in Hrefuse as [Hne|Hq]; [left|by right].
      apply negb_true_iff, N.eqb_neq in Hne. done.
    + rewrite <- orb_assoc in Hrefuse. apply orb_false_iff in Hrefuse as [Heq Hq].
      apply negb_false_iff, N.eqb_eq in Heq. subst s. pose proof Hinv as Hinv'. unfold winv in Hinv'.
      assert (quiet_of w = false) as Hqw by exact Hq. rewrite Hqw in Hinv'.
      pose proof (inv_begin _ _ _ _ _ _ _ id key ws Hinv' Hid Hws) as Hnew.
      unfold winv. change (quiet_of (on_run _ (putWorkspace _ _ _))) with (quiet_of w). rewrite Hqw. exact Hnew.
  - apply (inv_begin_refused _ _ _ _ _ _ _ id key s _ Hinv Hid). intros ws' Hws'. congruence.
Qed.

Lemma winv_step `{!GoUrlLaws} act w w' :
  winv w → (∀ todo, rt_main (w_run w) = Serving todo → sv_closing (w_server w) = false) →
  polite act w w' → step config act w = Some w' → winv w'.
Proof.
  intros Hinv Hopen (Hsmall & Hidle & Hnew). unfold step.
  destruct act; try (by apply winv_stepMain); try (by apply winv_stepAnalysis).
  - destruct (rt_timers (w_run w) !! id) as [t|] eqn:Ht; [|done]. intros [= <-]. by apply inv_fire.
  - destruct (rt_fired (w_run w) !! id) as [[key s]|] eqn:Ht; [|done]. intros [= <-]. by apply winv_beginAnalysis.
  - intros [= <-]. unfold withWorkspace. destruct (workspaces_of w !! pathKey root) as [ws|] eqn:Hws; [|done].
    destruct (quiet_of w) eqn:Hq.
    + unfold scheduleWorkspaceLocked. unfold quiet_of in Hq. rewrite Hq.
      assert (putWorkspace (pathKey root) ws w = w) as ->; [|done]. destruct w as [[] ?]. unfold putWorkspace, on_server. cbn.
      cbn in Hws. by rewrite insert_id.
    + eapply winv_reschedule; try done. by eapply Hsmall.
  - destruct (_ && _); [|done]. intros [= <-]. destruct err; exact Hinv.
Qed.
End polite.
