(* ===== verification/LspRun.v ===== *)
(** The end of [Run]: goroutines, services and their owners, for every client. *)
From S2P Require Import Prelude GoSort GoStrings GoRoot GoPath GoUrl Diag LspText LspServer LspPaths LspInvariant LspReach.

(** The services [stop] has still to close. *)
Definition pending (m : mainState) : list nat :=
  match m with Waiting _ services | Closing _ services => services | _ => [] end.

Definition serving (m : mainState) : bool := match m with Serving _ => true | _ => false end.
Definition drained (m : mainState) : bool := match m with Closing _ _ | Stopped _ => true | _ => false end.

Record run_inv (w : world) : Prop := {
  run_main : serving (rt_main (w_run w)) = negb (sv_closing (w_server w));
  run_drained : drained (rt_main (w_run w)) = true → analyses_of w = ∅ ∧ rt_closers (w_run w) = [];
  run_fresh key ws : workspaces_of w !! key = Some ws → (ws_id ws < rt_next (w_run w))%nat;
  run_fresh_closing s :
    s ∈ rt_closers (w_run w) ++ rt_closed (w_run w) ++ pending (rt_main (w_run w)) → (s < rt_next (w_run w))%nat;
  run_distinct k1 k2 ws1 ws2 :
    workspaces_of w !! k1 = Some ws1 → workspaces_of w !! k2 = Some ws2 → ws_id ws1 = ws_id ws2 → k1 = k2;
  run_open key ws : workspaces_of w !! key = Some ws →
    ws_id ws ∉ rt_closers (w_run w) ∧ (sv_closing (w_server w) = false → ws_id ws ∉ rt_closed (w_run w));
  run_pending key ws : workspaces_of w !! key = Some ws → sv_closing (w_server w) = true →
    ws_id ws ∈ rt_closed (w_run w) ++ pending (rt_main (w_run w));
  run_once : NoDup (rt_closers (w_run w) ++ rt_closed (w_run w) ++ pending (rt_main (w_run w)));
  run_unused id a : analyses_of w !! id = Some a → sn_service (an_snapshot a) ∉ rt_closed (w_run w);
}.

(** The step changes no service, no owner and no closing. *)
Record keeps (w w' : world) : Prop := {
  keeps_ids key : ws_id <$> workspaces_of w' !! key = ws_id <$> workspaces_of w !! key;
  keeps_closers : rt_closers (w_run w') = rt_closers (w_run w);
  keeps_closed : rt_closed (w_run w') = rt_closed (w_run w);
  keeps_main : rt_main (w_run w') = rt_main (w_run w);
  keeps_closing : sv_closing (w_server w') = sv_closing (w_server w);
  keeps_next : (rt_next (w_run w) ≤ rt_next (w_run w'))%nat;
  keeps_analyses id a : analyses_of w' !! id = Some a →
    ∃ a', analyses_of w !! id = Some a' ∧ sn_service (an_snapshot a') = sn_service (an_snapshot a);
}.

Lemma keeps_refl w : keeps w w.
Proof. split; try done. intros id a Ha. by exists a. Qed.

Lemma keeps_trans x y z : keeps x y → keeps y z → keeps x z.
Proof.
  intros [A1 A2 A3 A4 A5 A6 A7] [B1 B2 B3 B4 B5 B6 B7].
  split; [intros key; by rewrite B1|congruence|congruence|congruence|congruence|lia|].
  intros id a (b & Hb & <-)%B7. destruct (A7 id b Hb) as (c & Hc & <-). by exists c.
Qed.

#[export] Instance keeps_preorder : PreOrder keeps := Build_PreOrder _ keeps_refl keeps_trans.

Lemma run_keeps w w' : run_inv w → keeps w w' → run_inv w'.
Proof.
  intros [R1 R2 R3 R4 R5 R6 R7 R8 R9] [K1 K2 K3 K4 K5 K6 K7].
  assert (∀ key ws, workspaces_of w' !! key = Some ws → ∃ ws0, workspaces_of w !! key = Some ws0 ∧ ws_id ws0 = ws_id ws) as Hold.
  { intros key ws Hws. specialize (K1 key). rewrite Hws in K1. simpl in K1. symmetry in K1.
    apply fmap_Some in K1 as (ws0 & ? & ?). by exists ws0. }
  split; rewrite ?K2, ?K3, ?K4, ?K5; try done.
  - intros Hd. destruct (R2 Hd) as [HA HC]. split; [|done]. apply map_empty. intros id.
    destruct (analyses_of w' !! id) as [a|] eqn:Ha; [|done]. destruct (K7 id a Ha) as (a' & Ha' & _).
    by rewrite HA, lookup_empty in Ha'.
  - intros key ws (ws0 & Hws0 & <-)%Hold. specialize (R3 key ws0 Hws0). lia.
  - intros s Hs%R4. lia.
  - intros k1 k2 ws1 ws2 (v1 & Hv1 & <-)%Hold (v2 & Hv2 & <-)%Hold. by apply (R5 k1 k2 v1 v2).
  - intros key ws (ws0 & Hws0 & <-)%Hold. by apply (R6 key).
  - intros key ws (ws0 & Hws0 & <-)%Hold. by apply (R7 key).
  - intros id a (a' & Ha' & <-)%K7. by apply (R9 id).
Qed.

Lemma run_added w w' : run_inv w → sv_closing (w_server w) = false → added w w' → run_inv w'.
Proof.
  intros Hinv Hopen [->|(key & ws & Hnone & _ & Hid & _ & _ & _ & _ & ->)]; [done|].
  destruct Hinv as [R1 R2 R3 R4 R5 R6 R7 R8 R9].
  assert (∀ s, s ∈ rt_closers (w_run w) ++ rt_closed (w_run w) ++ pending (rt_main (w_run w)) → s ≠ ws_id ws) as Hnew.
  { intros s Hs%R4 ->. lia. }
  split; cbn; try done.
  - intros k v. rewrite lookup_insert_Some. intros [[<- <-]|[_ Hv]]; [lia|]. specialize (R3 k v Hv). lia.
  - intros s Hs%R4. lia.
  - intros k1 k2 v1 v2. rewrite !lookup_insert_Some. intros [[<- <-]|[_ H1]] [[<- <-]|[_ H2]] He; [done|..].
    + specialize (R3 k2 v2 H2). lia.
    + specialize (R3 k1 v1 H1). lia.
    + by eapply R5.
  - intros k v. rewrite lookup_insert_Some. intros [[<- <-]|[_ Hv]]; [|by apply (R6 k)].
    split; [|intros _]; intros Hs; eapply Hnew; try done; set_solver.
  - congruence.
Qed.

(** ** What keeps everything *)

Lemma keeps_putWorkspace w key ws ws0 :
  workspaces_of w !! key = Some ws0 → ws_id ws = ws_id ws0 → keeps w (putWorkspace key ws w).
Proof.
  intros Hws Hid. split; try done; [|cbn; eauto]. intros k. cbn.
  destruct (decide (k = key)) as [->|Hne]; [by rewrite lookup_insert_eq, Hws; simpl; rewrite Hid|by rewrite lookup_insert_ne].
Qed.

Lemma keeps_run w f :
  rt_closers (f (w_run w)) = rt_closers (w_run w) → rt_closed (f (w_run w)) = rt_closed (w_run w) →
  rt_main (f (w_run w)) = rt_main (w_run w) → (rt_next (w_run w) ≤ rt_next (f (w_run w)))%nat →
  (∀ id a, rt_analyses (f (w_run w)) !! id = Some a →
     ∃ a', analyses_of w !! id = Some a' ∧ sn_service (an_snapshot a') = sn_service (an_snapshot a)) →
  keeps w (on_run f w).
Proof. intros. by split. Qed.

Lemma keeps_alter w id f :
  (∀ a, an_snapshot (f a) = an_snapshot a) →
  keeps w (on_run (λ r, set_rt_analyses (alter f id (rt_analyses r)) r) w).
Proof.
  intros Hf. apply keeps_run; try done. intros i a. cbn. rewrite lookup_alter_Some.
  intros [(_ & a' & Ha' & ->)|[_ Ha]]; [exists a'; by rewrite Hf|by exists a].
Qed.

Lemma keeps_end w id : keeps w (endAnalysis id w).
Proof. apply keeps_run; try done. intros i a. cbn. intros [_ Ha]%lookup_delete_Some. by exists a. Qed.

Lemma keeps_optional {A} (f : A → world → world) o w : (∀ x w, keeps w (f x w)) → keeps w (optional f o w).
Proof. intros Hf. destruct o; [apply Hf|apply keeps_refl]. Qed.

Lemma keeps_schedule w key ws ws0 :
  workspaces_of w !! key = Some ws0 → ws_id ws = ws_id ws0 → keeps w (scheduleWorkspaceLocked key ws w).
Proof.
  intros Hws Hid. unfold scheduleWorkspaceLocked. destruct (_ || _); [by eapply keeps_putWorkspace|].
  set (w1 := optional stopTimer (ws_timer ws) w). set (w2 := optional cancelContext (ws_cancel ws) w1).
  assert (keeps w w1) as H1 by (apply keeps_optional; intros; apply keeps_run; cbn; eauto).
  assert (keeps w1 w2) as H2 by (apply keeps_optional; intros; by apply keeps_alter).
  assert (rt_next (w_run w2) = rt_next (w_run w)) as Hnext by by unfold w2, w1; destruct (ws_timer ws), (ws_cancel ws).
  set (w3 := on_run _ w2).
  assert (keeps w2 w3) as H3 by (apply keeps_run; cbn; eauto; lia).
  etrans; [etrans; [exact H1|etrans; [exact H2|exact H3]]|].
  apply (keeps_putWorkspace w3 key _ ws0); [|done]. unfold w3, w2, w1. by destruct (ws_timer ws), (ws_cancel ws).
Qed.

Lemma keeps_documents w D : keeps w (on_server (set_sv_documents D) w).
Proof. split; cbn; eauto. Qed.

Lemma keeps_with key f w :
  (∀ ws, workspaces_of w !! key = Some ws → keeps w (f ws w)) → keeps w (withWorkspace key f w).
Proof. intros Hf. unfold withWorkspace. destruct (workspaces_of w !! key) eqn:E; [by apply Hf|apply keeps_refl]. Qed.

(** ** Handlers *)

Section handlers.
Context `{UnicodeTables} `{!GoUrl} (config : serverConfig).

Lemma keeps_scheduleDocument d w : keeps w (scheduleDocument d w).
Proof. apply keeps_with. intros ws Hws. by eapply keeps_schedule. Qed.

Lemma keeps_openDocument item path root w : keeps w (openDocument item path root w).
Proof.
  unfold openDocument. set (w1 := match documents_of w !! ti_URI item with Some _ => _ | None => w end).
  assert (keeps w w1) as H1.
  { unfold w1. destruct (documents_of w !! ti_URI item); [|apply keeps_refl]. apply keeps_with. intros ws Hws.
    by eapply keeps_putWorkspace. }
  etrans; [exact H1|]. etrans; [apply keeps_documents|]. apply keeps_with. intros ws Hws. by eapply keeps_schedule.
Qed.

Lemma keeps_didChange params w : keeps w (didChange config params w).
Proof.
  unfold didChange. destruct params as [[[uri version] changes]|]; [|apply keeps_refl].
  destruct (last changes); [|apply keeps_refl]. case_match; [apply keeps_refl|].
  destruct (documents_of w !! uri); [|apply keeps_refl]. case_match; [apply keeps_refl|].
  etrans; [apply keeps_documents|apply keeps_scheduleDocument].
Qed.

Lemma keeps_didSave params w : keeps w (didSave config params w).
Proof.
  unfold didSave. destruct params as [[uri text]|]; [|apply keeps_refl].
  destruct (documents_of w !! uri); [|apply keeps_refl]. destruct text; [|apply keeps_scheduleDocument].
  case_match; [apply keeps_refl|]. etrans; [apply keeps_documents|apply keeps_scheduleDocument].
Qed.

Lemma keeps_didClose params w : keeps w (didClose params w).2.
Proof.
  unfold didClose. destruct params as [uri|]; [|apply keeps_refl].
  destruct (documents_of w !! uri); [|apply keeps_refl]. cbn [snd].
  etrans; [apply keeps_documents|]. apply keeps_with. intros ws Hws. by eapply keeps_schedule.
Qed.

Lemma keeps_settings settings w : keeps w (on_server (set_sv_settings settings) w).
Proof. split; cbn; eauto. Qed.

Lemma keeps_refreshAll params w : keeps w (refreshAll params w).2.
Proof.
  unfold refreshAll. destruct params as [spice|]; [|apply keeps_refl].
  destruct (normalizeAnalysisSettings spice) as [settings|]; [|apply keeps_refl]. cbn [snd].
  set (w1 := match match spice with Some _ => _ | None => None end with Some s => _ | None => w end).
  assert (keeps w w1) as H1 by (destruct spice; [apply keeps_settings|apply keeps_refl]).
  etrans; [exact H1|]. generalize (map_to_list (workspaces_of w1)).*1. intros keys.
  induction keys as [|key keys IH]; simpl; [apply keeps_refl|]. etrans; [exact IH|].
  apply keeps_with. intros ws Hws. eapply keeps_schedule; [exact Hws|]. by destruct spice.
Qed.

Lemma keeps_cancelAnalyses w : keeps w (cancelAnalysesLocked w).
Proof.
  rewrite cancelAnalysesLocked_eq. split; try done; cbn.
  - intros key. rewrite lookup_fmap. by destruct (workspaces_of w !! key).
  - intros id a (a' & Ha' & _ & Hs & _)%lookup_foldr_cancel. exists a'. by rewrite Hs.
Qed.

(** In the loop of [Run]. *)
Definition in_loop (w0 w : world) : Prop :=
  run_inv w ∧ sv_closing (w_server w) = false ∧ rt_main (w_run w) = rt_main (w_run w0).

Lemma in_loop_keeps w0 w w' : in_loop w0 w → keeps w w' → in_loop w0 w'.
Proof.
  intros (Hi & Hc & Hm) Hk. split_and!; [by eapply run_keeps|by rewrite (keeps_closing _ _ Hk)|].
  by rewrite (keeps_main _ _ Hk).
Qed.

Lemma in_loop_added w0 w w' : in_loop w0 w → added w w' → in_loop w0 w'.
Proof.
  intros (Hi & Hc & Hm) Ha. split; [by eapply run_added|]. by destruct Ha as [->|(?&?&?&?&?&?&?&?&?&->)].
Qed.

Lemma in_loop_addFolders w0 env folders w : in_loop w0 w → in_loop w0 (addFolders env folders w).2.
Proof.
  revert w. induction folders as [|uri rest IH]; intros w Hw; simpl; [done|].
  pose proof (addWorkspace_added env uri w) as Hadd. destruct (addWorkspace env uri w) as [r w1].
  assert (in_loop w0 w1) by by eapply in_loop_added. destruct r; [by apply IH|done].
Qed.

Lemma in_loop_didOpen w0 env params w : in_loop w0 w → in_loop w0 (didOpen config env params w).2.
Proof.
  intros Hw. unfold didOpen. destruct params as [item|]; [|done]. destruct (_ || _); [done|].
  destruct (filePath (ti_URI item)) as [path|]; [|done].
  pose proof (ensureWorkspace_added env path w) as Hadd. destruct (ensureWorkspace env path w) as [[root|] w1]; cbn [snd] in *.
  - eapply in_loop_keeps; [by eapply in_loop_added|apply keeps_openDocument].
  - by eapply in_loop_added.
Qed.

Lemma in_loop_initialize w0 env request params w : in_loop w0 w → in_loop w0 (initialize env request params w).2.
Proof.
  intros Hw. unfold initialize. destruct request; [|done]. destruct params as [params|]; [|done]. cbn [negb].
  destruct (sv_initialized _); [done|]. destruct (normalizeAnalysisSettings _) as [settings|]; [|done]. cbn zeta.
  set (folders := if _ && negb (bool_decide (ip_RootPath params = "")) then _ else _).
  pose proof (in_loop_addFolders w0 env folders (on_server (set_sv_settings settings) w)) as Hadd.
  specialize (Hadd (in_loop_keeps _ _ _ Hw (keeps_settings settings w))).
  destruct (addFolders env folders _) as [[] w1]; [|done]. eapply in_loop_keeps; [exact Hadd|]. split; cbn; eauto.
Qed.

Lemma in_loop_handle w0 env m w : in_loop w0 w → in_loop w0 (handle config env m w).2.
Proof.
  intros Hw.
  assert (in_loop w0 (handleInitialized config env m w).2) as Hinit.
  { unfold handleInitialized. destruct (negb _); [done|]. destruct (sv_shutdown _); [done|].
    destruct m; try done; [by apply in_loop_didOpen|..]; (eapply in_loop_keeps; [exact Hw|]).
    - apply keeps_didChange.
    - apply keeps_didSave.
    - apply keeps_didClose.
    - apply keeps_refreshAll.
    - unfold handleShutdown. destruct request; [|apply keeps_refl].
      etrans; [|apply keeps_cancelAnalyses]. split; cbn; eauto. }
  destruct m; try done. by apply in_loop_initialize.
Qed.

(** ** The end of Run *)

Lemma run_setMain todo w :
  run_inv w → serving (rt_main (w_run w)) = true → run_inv (setMain (Serving todo) w).
Proof.
  intros [R1 R2 R3 R4 R5 R6 R7 R8 R9] Hs. destruct (rt_main (w_run w)) eqn:Hm; done.
Qed.

(** The identities of the workspaces, in the order of [stop]. *)
Lemma stop_services (W : gmap string workspace) :
  (∀ k1 k2 ws1 ws2, W !! k1 = Some ws1 → W !! k2 = Some ws2 → ws_id ws1 = ws_id ws2 → k1 = k2) →
  let services := omap (λ key, ws_id <$> W !! key) (sort_strings (map_to_list W).*1) in
  NoDup services ∧ ∀ s, s ∈ services ↔ ∃ key ws, W !! key = Some ws ∧ ws_id ws = s.
Proof.
  intros Hdist services.
  assert (NoDup (sort_strings (map_to_list W).*1)) as Hnd.
  { apply NoDup_sort_stable, NoDup_fst_map_to_list. }
  assert (∀ s (keys : list string), s ∈ omap (λ key, ws_id <$> W !! key) keys ↔ ∃ key ws, key ∈ keys ∧ W !! key = Some ws ∧ ws_id ws = s) as Hin.
  { intros s keys. rewrite list_elem_of_omap. split.
    - intros (key & Hk & (ws & Hws & ->)%fmap_Some). by exists key, ws.
    - intros (key & ws & Hk & Hws & <-). exists key. by rewrite Hws. }
  split.
  - unfold services. induction Hnd as [|key keys Hnot Hnd IH]; [constructor|]. simpl.
    destruct (W !! key) as [ws|] eqn:Hws; [|exact IH]. simpl. constructor; [|exact IH].
    intros (k & ws' & Hk & Hws' & He)%Hin. by rewrite (Hdist k key ws' ws Hws' Hws He) in Hk.
  - intros s. unfold services. rewrite Hin. split; [intros (key & ws & _ & ?); by exists key, ws|].
    intros (key & ws & Hws & <-). exists key, ws. split_and!; try done.
    apply elem_of_sort_strings, list_elem_of_fmap. exists (key, ws). split; [done|]. by apply elem_of_map_to_list.
Qed.

(** The closing server takes over the services of the workspaces. *)
Lemma run_take_over errs w :
  run_inv (on_server (set_sv_closing false) w) → sv_closing (w_server w) = true →
  serving (rt_main (w_run w)) = true →
  run_inv (setMain (Waiting errs (omap (λ key, ws_id <$> workspaces_of w !! key)
    (sort_strings (map_to_list (workspaces_of w)).*1))) w).
Proof.
  intros [R1 R2 R3 R4 R5 R6 R7 R8 R9] Hcl Hs.
  destruct (stop_services (workspaces_of w) R5) as [Hnd Hserv].
  set (services := omap _ _) in *. cbn in *.
  destruct (rt_main (w_run w)) as [todo| | |] eqn:Hm; try done. cbn in R4, R8. rewrite app_nil_r in R4, R8.
  assert (∀ s, s ∈ services → s ∉ rt_closers (w_run w) ∧ s ∉ rt_closed (w_run w)) as Hopen.
  { intros s (key & ws & Hws & <-)%Hserv. destruct (R6 key ws Hws) as [? Hc]. split; [done|by apply Hc]. }
  split; cbn; try done.
  - by rewrite Hcl.
  - intros s Hs'. rewrite app_assoc in Hs'. apply elem_of_app in Hs' as [Hs'|(key & ws & Hws & <-)%Hserv]; [by apply R4|by eapply R3].
  - intros key ws Hws. split; [by apply (R6 key)|]. by rewrite Hcl.
  - intros key ws Hws _. apply elem_of_app. right. apply Hserv. by exists key, ws.
  - rewrite app_assoc. apply NoDup_app. split_and!; [done| |done]. intros s Hs' Hin%Hopen.
    apply elem_of_app in Hs'. tauto.
Qed.

Lemma run_stop errs w : run_inv w → serving (rt_main (w_run w)) = true → run_inv (stop errs w).
Proof.
  intros Hinv Hs. unfold stop. pose proof (keeps_cancelAnalyses (on_server (set_sv_closing true) w)) as Hk.
  apply run_take_over.
  - eapply run_keeps; [exact Hinv|]. destruct Hk as [K1 K2 K3 K4 K5 K6 K7].
    split; try done. cbn. destruct Hinv as [R1 _ _ _ _ _ _ _ _]. rewrite Hs in R1. symmetry in R1.
    by apply negb_true_iff in R1.
  - exact (keeps_closing _ _ Hk).
  - change (serving (rt_main (w_run (cancelAnalysesLocked (on_server (set_sv_closing true) w)))) = true).
    by rewrite (keeps_main _ _ Hk).
Qed.

(** A removed workspace leaves its service to a closer. *)
Lemma run_remove uri w : run_inv w → sv_closing (w_server w) = false → run_inv (removeWorkspace uri w).2.
Proof.
  intros Hinv Hopen. unfold removeWorkspace. destruct (filePath uri) as [root|]; [|done].
  destruct (workspaces_of w !! pathKey root) as [ws|] eqn:Hws; [|done]. cbn [snd].
  set (w1 := optional cancelContext (ws_cancel ws) (optional stopTimer (ws_timer ws) w)).
  assert (keeps w w1) as Hk.
  { apply (keeps_trans _ (optional stopTimer (ws_timer ws) w)); apply keeps_optional; intros;
      [apply keeps_run; cbn; eauto|by apply keeps_alter]. }
  assert (sv_closing (w_server w1) = false) as Hopen1 by by rewrite (keeps_closing _ _ Hk).
  assert (workspaces_of w1 !! pathKey root = Some ws) as Hws1.
  { unfold w1. by destruct (ws_timer ws), (ws_cancel ws). }
  pose proof (run_keeps _ _ Hinv Hk) as [R1 R2 R3 R4 R5 R6 R7 R8 R9]. clearbody w1. clear Hk Hinv Hws Hopen w.
  rewrite Hopen1 in R1. destruct (rt_main (w_run w1)) as [todo| | |] eqn:Hm; try done.
  destruct (R6 _ ws Hws1) as [Hno1 Hno2]. specialize (Hno2 Hopen1).
  split; cbn; rewrite ?Hm, ?Hopen1; cbn in *; rewrite ?app_nil_r in *; try done.
  - intros k v [_ Hv]%lookup_delete_Some. by eapply R3.
  - intros s. rewrite elem_of_app, elem_of_app. intros [[Hs|Hs]|Hs].
    + apply R4. set_solver.
    + apply list_elem_of_singleton in Hs as ->. by eapply R3.
    + apply R4. set_solver.
  - intros k1 k2 v1 v2 [_ H1]%lookup_delete_Some [_ H2]%lookup_delete_Some. by eapply R5.
  - intros k v [Hne Hv]%lookup_delete_Some. destruct (R6 k v Hv) as [Hn1 Hn2]. split; [|intros _; by apply Hn2].
    rewrite elem_of_app, list_elem_of_singleton. intros [?|He]; [done|]. apply Hne. symmetry. by eapply R5.
  - rewrite <- app_assoc. apply NoDup_app in R8 as (N1 & N2 & N3). apply NoDup_app. split_and!; [done| |].
    + intros s Hs [->|Hs']%elem_of_cons; [done|]. by eapply N2.
    + by constructor.
Qed.

Lemma run_proceed r w : run_inv w → serving (rt_main (w_run w)) = true → run_inv (proceed r w).
Proof. intros Hinv Hs. destruct r; [by apply run_setMain|by apply run_stop]. Qed.

Lemma removeWorkspace_main uri w : rt_main (w_run (removeWorkspace uri w).2) = rt_main (w_run w).
Proof.
  unfold removeWorkspace. destruct (filePath uri); [|done]. destruct (workspaces_of w !! _) as [ws|]; [|done].
  by destruct (ws_timer ws), (ws_cancel ws).
Qed.

Lemma keeps_send n w : keeps w (send n w).
Proof. apply keeps_run; cbn; eauto. Qed.
Lemma keeps_error w : keeps w (handleWriteError w).
Proof. apply keeps_run; cbn; eauto. Qed.

Lemma run_doWork env err item rest w :
  run_inv w → serving (rt_main (w_run w)) = true → run_inv (doWork env err item rest w).
Proof.
  intros Hinv Hs. assert (sv_closing (w_server w) = false) as Hopen.
  { destruct Hinv as [R1 _ _ _ _ _ _ _ _]. rewrite Hs in R1. symmetry in R1. by apply negb_true_iff in R1. }
  assert (∀ w' todo, keeps w w' → run_inv (setMain (Serving todo) w')) as Hk.
  { intros w' todo Hk. apply run_setMain; [by eapply run_keeps|]. by rewrite (keeps_main _ _ Hk). }
  destruct item as [n|n|[|uri uris]|uri|uri]; simpl.
  - destruct err; [by apply run_stop|apply Hk, keeps_send].
  - destruct err; apply Hk; [apply keeps_error|apply keeps_send].
  - apply Hk, keeps_refl.
  - destruct err; apply Hk; [apply keeps_error|apply keeps_send].
  - pose proof (run_remove uri w Hinv Hopen) as Hr. pose proof (removeWorkspace_main uri w) as Hm.
    destruct (removeWorkspace uri w) as [todo w1]. apply run_setMain; [done|]. cbn in Hm. by rewrite Hm.
  - pose proof (addWorkspace_added env uri w) as Hadd. pose proof (in_loop_added w w) as Hloop.
    destruct (addWorkspace env uri w) as [r w1]. destruct (Hloop w1) as (Hi & _ & Hm); [done|done|].
    destruct r; (apply run_setMain; [done|by rewrite Hm]).
Qed.

Lemma keeps_point w id p : keeps w (setPoint id p w).
Proof. by apply keeps_alter. Qed.

Lemma keeps_stepAnalysis act id w w' : stepAnalysis config act id w = Some w' → keeps w w'.
Proof.
  unfold stepAnalysis. destruct (analyses_of w !! id) as [a|] eqn:Ha; [|done]. cbn [mbind option_bind].
  assert (∀ answer, keeps w (analyzeReturns id (an_snapshot a) answer w)) as Hret.
  { intros answer. unfold analyzeReturns. set (w1 := on_run _ w).
    assert (keeps w w1) as H1 by (apply keeps_run; cbn; eauto).
    assert (keeps w (cancelContext id w1)) as H2 by (etrans; [exact H1|by apply keeps_alter]).
    destruct answer; first [exact (keeps_trans _ _ _ H2 (keeps_end _ _))|exact (keeps_trans _ _ _ H2 (keeps_point _ _ _))
      |exact (keeps_trans _ _ _ H1 (keeps_point _ _ _))]. }
  destruct act; try done; destruct (an_point a); try done.
  - pose proof (Hret answer) as Hr. destruct answer; repeat case_decide; try done; intros Hst; injection Hst as <-; exact Hr.
  - intros [= <-]. destruct failed; (etrans; [|apply keeps_end]); [apply keeps_error|apply keeps_send].
  - intros [= <-]. unfold completeAnalysis. destruct (workspaces_of w !! an_key a) as [ws|] eqn:Hws; [|apply keeps_end].
    destruct (_ || _ || _); [apply keeps_end|]. destruct (publicationsLocked _ _ _ _ _) as [[ps ms] pub].
    etrans; [|apply keeps_point]. eapply keeps_putWorkspace; [exact Hws|]. by destruct (rs_generationReady result).
  - intros [= <-]. unfold checkPublication. case_bool_decide; [apply keeps_end|].
    destruct (sequenceCurrent _ _ _); [apply keeps_point|apply keeps_end].
  - intros [= <-]. unfold writePublication.
    destruct publications as [|p ps]; [destruct messages as [|m ms]; [apply keeps_end|]|]; destruct failed.
    + apply (keeps_trans _ (handleWriteError w)); [apply keeps_error|apply keeps_end].
    + apply (keeps_trans _ (send (ShowMessage m) w)); [apply keeps_send|apply keeps_point].
    + apply keeps_end.
    + apply (keeps_trans _ (send (PublishDiagnostics p) w)); [apply keeps_send|apply keeps_point].
Qed.

Lemma run_begin w id key s : run_inv w → run_inv (beginAnalysis id key s w).
Proof.
  intros Hinv. unfold beginAnalysis. set (w0 := on_run _ w).
  assert (run_inv w0) as Hinv0 by (eapply run_keeps; [exact Hinv|apply keeps_run; cbn; eauto]).
  destruct (workspaces_of w0 !! key) as [ws|] eqn:Hws; [|done].
  destruct (negb _ || _ || _) eqn:Hrefuse; [done|]. bool_prop.
  assert (run_inv (putWorkspace key (set_ws_cancel (Some (rt_next (w_run w0))) (set_ws_timer None ws)) w0)) as Hput.
  { eapply run_keeps; [exact Hinv0|by eapply keeps_putWorkspace]. }
  assert (ws_id ws ∉ rt_closed (w_run w0)) as Hopen.
  { destruct Hinv0 as [_ _ _ _ _ R6 _ _ _]. by apply (R6 key). }
  destruct Hput as [R1 R2 R3 R4 R5 R6 R7 R8 R9]. split; try done.
  - intros Hd. exfalso. assert (serving (rt_main (w_run w0)) = true) as Hs.
    { rewrite (run_main _ Hinv0). by apply negb_true_iff. }
    cbn in Hd, Hs. by destruct (rt_main (w_run w)).
  - intros k v Hv. specialize (R3 k v Hv). cbn in *. lia.
  - intros x Hx. specialize (R4 x Hx). cbn in *. lia.
  - intros i a. cbn. rewrite lookup_insert_Some. intros [[<- <-]|[_ Ha]]; [done|]. by apply (R9 i).
Qed.

Lemma list_difference_nodup (l k : list nat) s :
  NoDup (l ++ k) → s ∈ l → NoDup (list_difference l [s] ++ s :: k).
Proof.
  intros (N1 & N2 & N3)%NoDup_app Hs. apply NoDup_app. split_and!.
  - by apply NoDup_list_difference.
  - intros x [Hx Hne]%list_elem_of_difference [->|Hk]%elem_of_cons; [apply Hne; by left|by eapply N2].
  - constructor; [by apply N2|done].
Qed.

(** A closer closes the service of its workspace. *)
Lemma run_closer w service :
  run_inv w → service ∈ rt_closers (w_run w) →
  map_Forall (λ _ a, sn_service (an_snapshot a) ≠ service) (analyses_of w) →
  run_inv (on_run (λ r, set_rt_closers (list_difference (rt_closers r) [service])
    (set_rt_closed (rt_closed r ++ [service]) r)) w).
Proof.
  intros [R1 R2 R3 R4 R5 R6 R7 R8 R9] Hs Hno.
  assert (∀ s, s ∈ list_difference (rt_closers (w_run w)) [service] → s ∈ rt_closers (w_run w)) as Hsub.
  { intros s [Hx _]%list_elem_of_difference. done. }
  split; cbn; try done.
  - intros Hd. destruct (R2 Hd) as [_ HC]. rewrite HC in Hs. by apply elem_of_nil in Hs.
  - intros s. rewrite !elem_of_app, list_elem_of_singleton. intros [Hx|[[Hx| ->]|Hx]]; apply R4; set_solver.
  - intros k ws Hws. destruct (R6 k ws Hws) as [H1 H2]. split; [auto|]. intros Hc.
    rewrite elem_of_app, list_elem_of_singleton. intros [Hx|Heq]; [by apply H2|]. rewrite Heq in H1. done.
  - intros k ws Hws Hc. specialize (R7 k ws Hws Hc). set_solver.
  - rewrite <- app_assoc. cbn [app].
    apply NoDup_Permutation_proper with
      (list_difference (rt_closers (w_run w)) [service] ++ service :: (rt_closed (w_run w) ++ pending (rt_main (w_run w)))).
    + by rewrite <- Permutation_middle.
    + by apply list_difference_nodup.
  - intros i a Ha. rewrite elem_of_app, list_elem_of_singleton. intros [Hx|Hx]; [by eapply R9|].
    by eapply (map_Forall_lookup_1 _ _ _ _ Hno Ha).
Qed.

Lemma run_inv_serving w : run_inv w → serving (rt_main (w_run w)) = true → sv_closing (w_server w) = false.
Proof. intros [R1 _ _ _ _ _ _ _ _] Hs. rewrite Hs in R1. symmetry in R1. by apply negb_true_iff in R1. Qed.

(** [stop] closes the services it took over. *)
Lemma run_closes w errs errs' service services :
  run_inv w → rt_main (w_run w) = Closing errs (service :: services) →
  run_inv (setMain (Closing errs' services) (on_run (λ r, set_rt_closed (rt_closed r ++ [service]) r) w)).
Proof.
  intros [R1 R2 R3 R4 R5 R6 R7 R8 R9] Hm. rewrite Hm in *. destruct (R2 eq_refl) as [HA HC]. split; cbn; try done.
  - intros s Hs. apply R4. cbn. set_solver.
  - intros k ws Hws. destruct (R6 k ws Hws) as [H1 _]. split; [done|]. intros Hc. by rewrite Hc in R1.
  - intros k ws Hws Hc. specialize (R7 k ws Hws Hc). cbn in R7. set_solver.
  - cbn in R8. by rewrite <- (app_assoc (rt_closed _)).
  - intros i a Ha. unfold analyses_of in *. cbn in Ha. by rewrite HA, lookup_empty in Ha.
Qed.

(** The wait groups are empty. *)
Lemma run_drain w errs services :
  run_inv w → rt_main (w_run w) = Waiting errs services → analyses_of w = ∅ → rt_closers (w_run w) = [] →
  run_inv (setMain (Closing errs services) w).
Proof. intros [R1 R2 R3 R4 R5 R6 R7 R8 R9] Hm HA HC. rewrite Hm in *. by split. Qed.

Lemma run_returns w errs errs' :
  run_inv w → rt_main (w_run w) = Closing errs [] → run_inv (setMain (Stopped errs') w).
Proof. intros [R1 R2 R3 R4 R5 R6 R7 R8 R9] Hm. rewrite Hm in *. by split. Qed.

Lemma run_stepMain act w w' : run_inv w → stepMain config act w = Some w' → run_inv w'.
Proof.
  intros Hinv. unfold stepMain.
  assert (∀ todo, rt_main (w_run w) = Serving todo → serving (rt_main (w_run w)) = true) as Hserve by by intros ? ->.
  destruct act; try done; destruct (rt_main (w_run w)) as [[|item rest]|errs [|svc svcs]|errs [|svc svcs]|] eqn:Hmain;
    try done; try by destruct err.
  - destruct (in_loop_handle w env m w) as (Hi & _ & Hm).
    { split_and!; [done| |done]. apply run_inv_serving; [done|by rewrite Hmain]. }
    destruct (handle config env m w) as [r w1]. cbn in Hi, Hm. intros [= <-].
    apply run_proceed; [done|]. by rewrite Hm, Hmain.
  - intros [= <-]. apply run_stop; [done|by rewrite Hmain].
  - intros [= <-]. apply run_doWork; [done|by rewrite Hmain].
  - destruct (_ && _) eqn:E; [|done]. bool_prop. intros [= <-]. by eapply run_drain.
  - destruct (_ && _) eqn:E; [|done]. bool_prop. intros [= <-]. by eapply run_drain.
  - destruct err; [done|]. intros Hw. injection Hw as <-. by eapply run_returns.
  - destruct err; intros Hw; injection Hw as <-; by eapply run_closes.
Qed.

Lemma run_step act w w' : run_inv w → step config act w = Some w' → run_inv w'.
Proof.
  intros Hinv. unfold step. destruct act; try (by apply run_stepMain);
    try (intros Hst; eapply run_keeps; [exact Hinv|by eapply keeps_stepAnalysis]).
  - destruct (rt_timers (w_run w) !! id) as [t|]; [|done]. intros [= <-].
    eapply run_keeps; [exact Hinv|apply keeps_run; cbn; eauto].
  - destruct (rt_fired (w_run w) !! id) as [[key s]|]; [|done]. intros [= <-]. by apply run_begin.
  - intros [= <-]. eapply run_keeps; [exact Hinv|]. apply keeps_with. intros ws Hws. by eapply keeps_schedule.
  - destruct (_ && _) eqn:E; [|done]. bool_prop. intros [= <-].
    assert (run_inv (on_run (λ r, set_rt_closers (list_difference (rt_closers r) [service])
      (set_rt_closed (rt_closed r ++ [service]) r)) w)) as Hc by by apply run_closer.
    destruct err; [|exact Hc]. eapply run_keeps; [exact Hc|]. split; cbn; eauto.
Qed.

Lemma run_initial : run_inv initialWorld.
Proof.
  split; cbn; try done; try (intros; by set_solver); try (by intros ? ? ?%lookup_empty_Some). constructor.
Qed.

Lemma run_reachable w : reachable config w → run_inv w.
Proof.
  intros [acts Hrun]. assert (∀ w0, run_inv w0 → run config acts w0 = Some w → run_inv w) as Hind; [|by eapply Hind; [apply run_initial|]].
  clear Hrun. induction acts as [|act acts IH]; intros w0 Hinv; simpl; [by intros [= <-]|].
  destruct (step config act w0) as [w1|] eqn:Hst; [|done]. cbn. apply IH. by eapply run_step.
Qed.
End handlers.
