(* ===== verification/LspTheorems.v ===== *)
(** What the language server guarantees. *)
From S2P Require Import Prelude GoSort GoStrings GoRoot GoPath GoUrl Diag LspText LspTextTheorems LspServer LspPaths LspInvariant LspReach LspRun.

Section reach.
Context `{UnicodeTables} `{!GoUrl} `{!GoUrlLaws} (config : serverConfig).

Lemma run_of_app acts acts' w : run config (acts ++ acts') w = run config acts w ≫= run config acts'.
Proof.
  revert w. induction acts as [|act acts IH]; intros w; [done|]. simpl.
  destruct (step config act w); [apply IH|done].
Qed.

Lemma polite_is_reachable w : polite_reachable config w → reachable config w.
Proof.
  induction 1 as [|act w w' _ [acts Hrun] _ Hst]; [by exists []|]. exists (acts ++ [act]).
  rewrite run_of_app, Hrun. cbn [mbind option_bind run]. by rewrite Hst.
Qed.

Lemma polite_winv w : polite_reachable config w → winv w.
Proof.
  induction 1 as [|act w w' Hr Hinv Hpol Hst]; [apply winv_initial|]. apply (winv_step config act w w'); [done| |done|done].
  intros todo Hm. apply run_inv_serving; [|by rewrite Hm]. by eapply run_reachable, polite_is_reachable.
Qed.

(** A workspace lists exactly the open documents that belong to it, and a
    document belongs to a workspace that exists, or to none. *)
Theorem documents_listed w :
  polite_reachable config w →
  (∀ key ws uri, workspaces_of w !! key = Some ws →
     uri ∈ ws_documents ws ↔ ∃ d, documents_of w !! uri = Some d ∧ dc_root d = key) ∧
  (∀ uri d, documents_of w !! uri = Some d → dc_root d = "" ∨ is_Some (workspaces_of w !! dc_root d)).
Proof.
  intros [Hd _ _ _]%polite_winv. split.
  - intros key ws uri Hws. split; [by apply (inv_listed _ _ Hd)|]. intros (d & Hin & <-).
    destruct (inv_owned _ _ Hd uri d Hin) as [Hnil|(ws' & Hws' & Hu)].
    + destruct (inv_keys _ _ Hd (dc_root d)); [by eexists|done].
    + rewrite Hws in Hws'. by injection Hws' as ->.
  - intros uri d Hin. destruct (inv_owned _ _ Hd uri d Hin) as [|(ws & Hws & _)]; [by left|right; by eexists].
Qed.

(** C9. For every state that a polite client can reach, that is one which opens no
    document that is open already and adds a folder again only when no fired timer
    and no analysis of its predecessor is left, while no sequence number is about
    to wrap ([polite_reachable]): when an analysis that
    was answered with a result comes to [completeAnalysis], the result is taken
    exactly when the server is not closing and the result is that of the texts,
    versions and settings its workspace has at that moment.  Without these conditions it is false: re-adding a
    folder while an analysis of its predecessor is running is the finding reported
    for [addWorkspace]. *)
Theorem accepted_exactly_current w w' env id a r :
  polite_reachable config w → analyses_of w !! id = Some a → an_point a = AtComplete r →
  step config (Complete env id) w = Some w' →
  is_Some (analyses_of w' !! id) ↔
  sv_closing (w_server w) = false ∧
  ∃ ws, workspaces_of w !! an_key a = Some ws ∧ an_snapshot a = takeSnapshot ws (documents_of w).
Proof.
  intros [_ _ Ha _]%polite_winv Hid Hp. cbn [step]. unfold stepAnalysis. rewrite Hid. cbn [mbind option_bind].
  rewrite Hp. intros [= <-]. unfold completeAnalysis.
  destruct (workspaces_of w !! an_key a) as [ws|] eqn:Hws.
  2: { cbn. rewrite lookup_delete_eq. split; [by intros [??]|by intros (_ & ? & ? & _)]. }
  destruct (negb _ || _ || _) eqn:Hrefuse.
  - cbn. rewrite lookup_delete_eq. split; [by intros [??]|]. intros (Hcl & ws' & [= <-] & Hsn). exfalso.
    rewrite Hsn, Hcl, orb_false_r in Hrefuse. cbn in Hrefuse. rewrite N.eqb_refl in Hrefuse. cbn in Hrefuse.
    apply negb_true_iff, bool_decide_eq_false in Hrefuse. apply Hrefuse. apply map_Forall_lookup. intros uri v.
    rewrite lookup_fmap, snapshot_lookup. case_decide; [|done]. by intros ->.
  - destruct (publicationsLocked _ _ _ _ _) as [[ps ms] pub]. bool_prop. cbn. unfold analyses_of in Hid.
    rewrite lookup_alter_eq, Hid. split; [intros _|by eexists]. split; [done|]. exists ws. split; [done|].
    apply (inv_analysis _ _ _ _ _ Ha id a ws Hid Hws). symmetry. by apply N.eqb_eq.
Qed.

(** C10. For every state that a polite client can reach, that is one which opens no
    document that is open already and adds a folder again only when no fired timer
    and no analysis of its predecessor is left, while no sequence number is about
    to wrap ([polite_reachable]): when the server is
    neither closing nor shutting down ([quiet_of]), no timer is armed or fired and
    no analysis is in flight, every workspace that was scheduled at least once has
    the compiler's answer to its present texts, versions and settings, and holds
    the result if the answer is one: no change is lost.  A server that shuts down
    may leave changes without an answer. *)
Theorem quiet_server_current w key ws :
  polite_reachable config w → quiet_of w = false →
  rt_timers (w_run w) = ∅ → rt_fired (w_run w) = ∅ → analyses_of w = ∅ →
  workspaces_of w !! key = Some ws → (0 < ws_sequence ws)%N →
  ∃ answer, (takeSnapshot ws (documents_of w), answer) ∈ rt_answers (w_run w) ∧
    ∀ r, answer = Analyzed r → ws_latest ws = Some r.
Proof.
  intros [_ Ht _ Hp]%polite_winv Hq HT HF HA Hws Hpos.
  destruct (Hp key ws Hq Hws Hpos) as [[id Hid]|[(id & a & Hid & _)|Hans]]; [..|exact Hans].
  - destruct (inv_timer _ _ _ _ _ Ht key ws id Hws Hid) as (_ & _ & [Hin|Hin]).
    + by rewrite HT, lookup_empty in Hin.
    + by rewrite HF, lookup_empty in Hin.
  - by rewrite HA, lookup_empty in Hid.
Qed.

(** C16. For every state that a polite client can reach, that is one which opens no
    document that is open already and adds a folder again only when no fired timer
    and no analysis of its predecessor is left, while no sequence number is about
    to wrap ([polite_reachable]): at most one
    analysis of a workspace is in its call of the compiler without having been
    cancelled, and it works on the present texts, versions and settings.  Nothing is
    claimed when a folder is added again while an analysis of its predecessor is
    running: their numbers then start alike, the finding reported for
    [addWorkspace]. *)
Theorem one_live_analysis w id a :
  polite_reachable config w → analyses_of w !! id = Some a → an_point a = AtAnalyze → an_cancelled a = false →
  (∃ ws, workspaces_of w !! an_key a = Some ws ∧ an_snapshot a = takeSnapshot ws (documents_of w)) ∧
  ∀ id' a', analyses_of w !! id' = Some a' → an_point a' = AtAnalyze → an_cancelled a' = false →
    an_key a' = an_key a → id' = id.
Proof.
  intros [_ _ Ha _]%polite_winv Hid Hp Hl.
  destruct (inv_live _ _ _ _ _ Ha id a Hid Hp Hl) as (ws & Hws & Hc). split.
  - exists ws. split; [done|]. apply (inv_analysis _ _ _ _ _ Ha id a ws Hid Hws).
    by apply (inv_cancel _ _ _ _ _ Ha _ ws id Hws Hc).
  - intros id' a' Hid' Hp' Hl' Hk. destruct (inv_live _ _ _ _ _ Ha id' a' Hid' Hp' Hl') as (ws' & Hws' & Hc').
    rewrite Hk, Hws in Hws'. injection Hws' as <-. congruence.
Qed.
End reach.

(** ** Publications *)

Section publications.
Context `{UnicodeTables} `{!GoUrl} (config : serverConfig) (env : environment) (documents : gmap string document).

(** The items of a file, in the order of the result. *)
Definition itemsAt (uri : string) (items : list Diagnostic) : list Diagnostic :=
  filter (λ item, located item = true ∧ lc_URI (dg_Location item) = uri) items.

(** An item with the positions of its document. *)
Definition converted (item : Diagnostic) : protocolDiagnostic :=
  protocolDiagnosticFromCompiler item (locationContentLocked config env documents (dg_Location item)).

Lemma groupDiagnostics_exact items grouped global :
  let '(grouped', global') := foldl (groupDiagnostic config env documents) (grouped, global) items in
  (∀ uri, default [] (grouped' !! uri) = default [] (grouped !! uri) ++ (converted <$> itemsAt uri items)) ∧
  (∀ uri, is_Some (grouped' !! uri) ↔ is_Some (grouped !! uri) ∨ itemsAt uri items ≠ []) ∧
  global' = global ++ (dg_Message <$> filter (λ item, located item = false) items).
Proof.
  revert grouped global. induction items as [|item items IH]; intros grouped global.
  { cbn. split_and!; [intros; by rewrite app_nil_r| |by rewrite app_nil_r]. intros uri. split; [by left|intros [?|Hne]; [done|by destruct Hne]]. }
  cbn [foldl groupDiagnostic]. unfold itemsAt in *. destruct (located item) eqn:Hloc.
  - specialize (IH (<[lc_URI (dg_Location item) := default [] (grouped !! lc_URI (dg_Location item)) ++ [converted item]]> grouped) global).
    change (protocolDiagnosticFromCompiler item _) with (converted item).
    destruct (foldl _ _ items) as [grouped' global']. destruct IH as (H1 & H2 & H3). split_and!.
    + intros uri. rewrite H1. destruct (decide (lc_URI (dg_Location item) = uri)) as [<-|Hne].
      * rewrite lookup_insert_eq, filter_cons_True by done. cbn. by rewrite <- app_assoc.
      * rewrite lookup_insert_ne by done. rewrite filter_cons_False by (intros [? ?]; congruence). done.
    + intros uri. rewrite H2, lookup_insert_is_Some'. destruct (decide (lc_URI (dg_Location item) = uri)) as [<-|Hne].
      * rewrite filter_cons_True by done. naive_solver.
      * rewrite filter_cons_False by (intros [? ?]; congruence). naive_solver.
    + rewrite H3, filter_cons_False by congruence. done.
  - specialize (IH grouped (global ++ [dg_Message item])).
    destruct (foldl _ _ items) as [grouped' global']. destruct IH as (H1 & H2 & H3). split_and!.
    + intros uri. rewrite H1, filter_cons_False by (intros [? ?]; congruence). done.
    + intros uri. rewrite H2, filter_cons_False by (intros [? ?]; congruence). done.
    + rewrite H3, filter_cons_True, <- app_assoc by done. done.
Qed.

(** A result is published file by file: once, in the order of the URIs, for
    each file with diagnostics, each open document of the workspace and each
    file that had diagnostics before; with all its diagnostics in the order of
    the result and the version of its document. The others become messages. *)
Theorem publications_exact ws result :
  let '(publications, messages, published) := publicationsLocked config env documents ws result in
  StronglySorted (λ x y, str_ltb x y = true) (dp_uri <$> publications) ∧
  (∀ uri, uri ∈ dp_uri <$> publications ↔
     uri ∈ ws_published ws ∨ uri ∈ ws_documents ws ∨ itemsAt uri (rs_diagnostics result) ≠ []) ∧
  (∀ p, p ∈ publications →
     dp_diagnostics p = converted <$> itemsAt (dp_uri p) (rs_diagnostics result) ∧
     dp_version p = dc_version <$> documents !! dp_uri p) ∧
  messages = dg_Message <$> filter (λ item, located item = false) (rs_diagnostics result) ∧
  (∀ uri, uri ∈ published ↔ itemsAt uri (rs_diagnostics result) ≠ []).
Proof.
  unfold publicationsLocked. pose proof (groupDiagnostics_exact (rs_diagnostics result) ∅ []) as Hgroup.
  destruct (foldl _ _ _) as [grouped global]. destruct Hgroup as (H1 & H2 & H3).
  set (uris := sort_strings (elements (ws_published ws ∪ ws_documents ws ∪ dom grouped))).
  assert (∀ uri, uri ∈ uris ↔ uri ∈ ws_published ws ∨ uri ∈ ws_documents ws ∨ itemsAt uri (rs_diagnostics result) ≠ []) as Huris.
  { intros uri. unfold uris. rewrite elem_of_sort_strings, elem_of_elements, !elem_of_union, elem_of_dom, H2, lookup_empty.
    split; [intros [[?|?]|[[]%is_Some_None|?]]|intros [?|[?|?]]]; tauto. }
  assert (∀ uri, default [] (grouped !! uri) = converted <$> itemsAt uri (rs_diagnostics result)) as Hitems.
  { intros uri. by rewrite H1, lookup_empty. }
  split_and!.
  - rewrite <- list_fmap_compose. cbn. rewrite list_fmap_id. apply sort_strings_strict, NoDup_elements.
  - intros uri. rewrite <- list_fmap_compose. cbn. rewrite list_fmap_id. apply Huris.
  - intros p (uri & -> & _)%list_elem_of_fmap. cbn. by rewrite Hitems.
  - by rewrite H3.
  - intros uri. rewrite elem_of_list_to_set, list_elem_of_filter, Hitems, Huris.
    destruct (itemsAt uri (rs_diagnostics result)); simpl; [naive_solver|]. split; [done|]. intros _. split; [done|]. by right; right.
Qed.
End publications.

(** ** The workspace of a document *)

Lemma rooted_prefix_longer cs k : Forall good_name k → k ≠ [] → (String.length (rooted cs) < String.length (rooted (cs ++ k)))%nat.
Proof.
  intros Hk. induction k as [|c k IH] using rev_ind; [done|]. intros _. apply Forall_app in Hk as [Hk Hc].
  inversion_clear Hc as [|?? (Hne & _) _]. rewrite app_assoc. pose proof (rooted_longer (cs ++ k) c Hne) as Hlt.
  destruct (decide (k = [])) as [->|Hkne]; [by rewrite app_nil_r in *|]. specialize (IH Hk Hkne). lia.
Qed.

(** The workspace of a path is the one with the deepest root above it, and
    there is none exactly when no root is above it. *)
Theorem workspaceForPath_deepest (W : gmap string workspace) ds :
  (∀ key ws, W !! key = Some ws → ∃ cs, Forall good_name cs ∧ ws_root ws = rooted cs) → Forall good_name ds →
  match workspaceForPathLocked (rooted ds) W with
  | Some (key, ws) => W !! key = Some ws ∧ ∃ cs, ws_root ws = rooted cs ∧ cs `prefix_of` ds ∧
      ∀ k w cs', W !! k = Some w → Forall good_name cs' → ws_root w = rooted cs' → cs' `prefix_of` ds → cs' `prefix_of` cs
  | None => ∀ k w cs, W !! k = Some w → Forall good_name cs → ws_root w = rooted cs → ¬ cs `prefix_of` ds
  end.
Proof.
  intros Hroots Hds. pose proof (workspaceForPath_best (rooted ds) W) as Hbest.
  destruct (workspaceForPathLocked (rooted ds) W) as [[key ws]|].
  - destruct Hbest as (Hws & Hh & Hall). split; [done|]. destruct (Hroots key ws Hws) as (cs & Hcs & Hr).
    exists cs. rewrite Hr in Hh. apply holdsPath_rooted in Hh; [|done..]. split_and!; [done..|].
    intros k w cs' Hw Hcs' Hr' Hp. specialize (Hall k w Hw). rewrite Hr, Hr' in Hall.
    specialize (Hall (proj2 (holdsPath_rooted cs' ds Hcs' Hds) Hp)).
    destruct (prefix_weak_total cs cs' ds Hh Hp) as [[m ->]|]; [|done].
    destruct (decide (m = [])) as [->|Hm]; [by rewrite app_nil_r|]. apply Forall_app in Hcs' as [_ Hfm].
    pose proof (rooted_prefix_longer cs m Hfm Hm). lia.
  - intros k w cs Hw Hcs Hr Hp. specialize (Hbest k w Hw). rewrite Hr in Hbest.
    by rewrite (proj2 (holdsPath_rooted cs ds Hcs Hds) Hp) in Hbest.
Qed.

Section stopping.
Context `{UnicodeTables} `{!GoUrl} (config : serverConfig).

(** C23. Whatever the client does, a service is closed at most once and only
    when no analysis uses it; a running server has no closed service, and when
    [Run] has returned the services of all workspaces are closed. *)
Theorem services_closed_once w :
  reachable config w →
  NoDup (rt_closed (w_run w)) ∧
  (∀ id a, analyses_of w !! id = Some a → sn_service (an_snapshot a) ∉ rt_closed (w_run w)) ∧
  (∀ key ws, workspaces_of w !! key = Some ws → sv_closing (w_server w) = false → ws_id ws ∉ rt_closed (w_run w)) ∧
  (∀ errs, rt_main (w_run w) = Stopped errs → analyses_of w = ∅ ∧ rt_closers (w_run w) = [] ∧
     ∀ key ws, workspaces_of w !! key = Some ws → ws_id ws ∈ rt_closed (w_run w)).
Proof.
  intros [R1 R2 R3 R4 R5 R6 R7 R8 R9]%run_reachable. split_and!; [|done| |].
  - apply NoDup_app in R8 as (_ & _ & R8). by apply NoDup_app in R8 as (? & _ & _).
  - intros key ws Hws. by apply (R6 key).
  - intros errs Hm. rewrite Hm in *. destruct (R2 eq_refl) as [HA HC]. split_and!; [done..|].
    intros key ws Hws. specialize (R7 key ws Hws). cbn in R7. rewrite app_nil_r in R7. apply R7.
    symmetry in R1. by apply negb_false_iff in R1.
Qed.

(** The steps the goroutines of a stopping server have left. *)
Definition point_steps (a : analysis) : nat :=
  match an_point a with AtAnalyze | AtWrite _ _ => 2 | _ => 1 end.
Definition analyses_steps (A : gmap nat analysis) : nat := map_fold (λ _ a n, point_steps a + n)%nat 0%nat A.
Definition main_steps (m : mainState) : nat :=
  match m with
  | Waiting _ services => S (S (length services))
  | Closing _ services => S (length services)
  | Serving _ | Stopped _ => 0
  end.
Definition stop_steps (w : world) : nat :=
  2 * size (rt_timers (w_run w)) + size (rt_fired (w_run w)) + analyses_steps (analyses_of w) +
  length (rt_closers (w_run w)) + main_steps (rt_main (w_run w)).

Lemma analyses_steps_delete A id a :
  A !! id = Some a → analyses_steps A = (point_steps a + analyses_steps (delete id A))%nat.
Proof. intros Ha. apply (map_fold_delete_L (λ _ a n, point_steps a + n)%nat); [|done]. intros. lia. Qed.

Lemma analyses_steps_alter A id a f :
  A !! id = Some a → (analyses_steps (alter f id A) + point_steps a = analyses_steps A + point_steps (f a))%nat.
Proof.
  intros Ha. rewrite (analyses_steps_delete A id a Ha).
  rewrite (analyses_steps_delete (alter f id A) id (f a)) by by rewrite lookup_alter_eq, Ha.
  rewrite delete_alter_eq. lia.
Qed.

(** A goroutine of a stopping server publishes at most what it is about to. *)
Lemma stop_analysis act id w w' :
  sv_closing (w_server w) = true → stepAnalysis config act id w = Some w' → (stop_steps w' < stop_steps w)%nat.
Proof.
  intros Hcl. unfold stepAnalysis. destruct (analyses_of w !! id) as [a|] eqn:Ha; [|done]. cbn [mbind option_bind].
  assert (∀ w1, delete id (analyses_of w1) = delete id (analyses_of w) →
    rt_timers (w_run w1) = rt_timers (w_run w) → rt_fired (w_run w1) = rt_fired (w_run w) →
    rt_closers (w_run w1) = rt_closers (w_run w) → rt_main (w_run w1) = rt_main (w_run w) →
    (stop_steps (endAnalysis id w1) < stop_steps w)%nat) as Hend.
  { intros w1 HA HT HF HC HM. unfold stop_steps, analyses_of in *. cbn. rewrite HA, HT, HF, HC, HM.
    rewrite (analyses_steps_delete _ id a Ha). unfold point_steps. destruct (an_point a); lia. }
  assert (∀ w1 p c, (point_steps (set_an_point p a) < point_steps a)%nat →
    analyses_of w1 = (if c : bool then alter (set_an_cancelled true) id (analyses_of w) else analyses_of w) →
    rt_timers (w_run w1) = rt_timers (w_run w) → rt_fired (w_run w1) = rt_fired (w_run w) →
    rt_closers (w_run w1) = rt_closers (w_run w) → rt_main (w_run w1) = rt_main (w_run w) →
    (stop_steps (setPoint id p w1) < stop_steps w)%nat) as Hpoint.
  { intros w1 p c Hlt HA HT HF HC HM. unfold stop_steps, analyses_of in *. cbn. rewrite HA, HT, HF, HC, HM. destruct c.
    - pose proof (analyses_steps_alter _ id a (set_an_cancelled true) Ha) as H1.
      pose proof (analyses_steps_alter _ id (set_an_cancelled true a) (set_an_point p) ltac:(by rewrite lookup_alter_eq, Ha)) as H2.
      unfold point_steps in *. cbn in *. lia.
    - pose proof (analyses_steps_alter _ id a (set_an_point p) Ha). lia. }
  destruct act; try done; destruct (an_point a) as [|m|r|ps ms|ps ms] eqn:Hp; try done.
  - assert (∀ answer, stop_steps (analyzeReturns id (an_snapshot a) answer w) < stop_steps w)%nat as Hret.
    { intros [| |err|err|r]; unfold analyzeReturns; [apply Hend; try done; apply delete_alter_eq..|
        apply (Hpoint _ _ true)|apply (Hpoint _ _ false)|apply (Hpoint _ _ true)]; try done;
        unfold point_steps; rewrite Hp; cbn; lia. }
    pose proof (Hret answer) as Hr. destruct answer; repeat case_decide; try done; intros Hst; injection Hst as <-; exact Hr.
  - intros [= <-]. by destruct failed; apply Hend.
  - intros [= <-]. unfold completeAnalysis. destruct (workspaces_of w !! an_key a); [|by apply Hend].
    rewrite Hcl, orb_true_r. by apply Hend.
  - intros [= <-]. unfold checkPublication. case_bool_decide; [by apply Hend|].
    unfold sequenceCurrent. destruct (workspaces_of w !! an_key a); [rewrite Hcl, andb_false_r|]; by apply Hend.
  - intros [= <-]. unfold writePublication.
    destruct ps as [|p ps]; [destruct ms as [|m ms]; [by apply Hend|]|]; destruct failed; try by apply Hend.
    + apply (Hpoint _ _ false); try done. unfold point_steps. rewrite Hp. cbn. lia.
    + apply (Hpoint _ _ false); try done. unfold point_steps. rewrite Hp. cbn. lia.
Qed.

Lemma closing_schedule w key ws :
  sv_closing (w_server w) = true → workspaces_of w !! key = Some ws → scheduleWorkspaceLocked key ws w = w.
Proof.
  intros Hcl Hws. unfold scheduleWorkspaceLocked. rewrite Hcl. cbn [orb]. destruct w as [[] ?].
  unfold putWorkspace, on_server. cbn in *. by rewrite insert_id.
Qed.

Lemma stop_fires w id t :
  rt_timers (w_run w) !! id = Some t →
  (stop_steps (on_run (λ r, set_rt_fired (<[id := t]> (rt_fired r)) (set_rt_timers (delete id (rt_timers r)) r)) w) < stop_steps w)%nat.
Proof.
  intros Ht. unfold stop_steps, analyses_of. cbn. rewrite map_size_delete_Some by by eexists.
  pose proof (map_size_ne_0_lookup_2 (rt_timers (w_run w)) id ltac:(by eexists)).
  rewrite map_size_insert. destruct (rt_fired (w_run w) !! id); simpl; lia.
Qed.

Lemma stop_begins w id key s :
  sv_closing (w_server w) = true → rt_fired (w_run w) !! id = Some (key, s) →
  (stop_steps (beginAnalysis id key s w) < stop_steps w)%nat.
Proof.
  intros Hcl Hf. pose proof (map_size_ne_0_lookup_2 (rt_fired (w_run w)) id ltac:(by eexists)) as Hpos.
  assert (beginAnalysis id key s w = on_run (λ r, set_rt_fired (delete id (rt_fired r)) r) w) as ->.
  { unfold beginAnalysis. destruct (workspaces_of _ !! key); [|done].
    by rewrite (Hcl : sv_closing (w_server (on_run _ w)) = true), orb_true_r. }
  unfold stop_steps, analyses_of. cbn. rewrite map_size_delete_Some by by eexists. lia.
Qed.

Lemma list_difference_shorter (l : list nat) s : s ∈ l → (length (list_difference l [s]) < length l)%nat.
Proof.
  induction l as [|x l IH]; [by intros ?%elem_of_nil|]. intros Hin. cbn [list_difference].
  case_decide as Hx.
  - assert (length (list_difference l [s]) ≤ length l)%nat; [|simpl; lia].
    clear. induction l as [|y l IH]; [done|]. cbn [list_difference]. case_decide; simpl; lia.
  - apply elem_of_cons in Hin as [->|Hin]; [destruct Hx; by left|]. simpl. specialize (IH Hin). lia.
Qed.

Lemma stop_main act w w' :
  run_inv w → sv_closing (w_server w) = true → stepMain config act w = Some w' → (stop_steps w' < stop_steps w)%nat.
Proof.
  intros Hinv Hcl. unfold stepMain.
  assert (serving (rt_main (w_run w)) = false) as Hs by by rewrite (run_main _ Hinv), Hcl.
  destruct act; try done; destruct (rt_main (w_run w)) as [[|item rest]|errs [|svc svcs]|errs [|svc svcs]|] eqn:Hmain;
    try done; try by destruct err.
  - destruct (_ && _); [|done]. intros [= <-]. unfold stop_steps, analyses_of. cbn. rewrite Hmain. cbn. lia.
  - destruct (_ && _); [|done]. intros [= <-]. unfold stop_steps, analyses_of. cbn. rewrite Hmain. cbn. lia.
  - destruct err; [done|]. intros Hst. injection Hst as <-. unfold stop_steps, analyses_of. cbn. rewrite Hmain. cbn. lia.
  - destruct err; intros Hst; injection Hst as <-; unfold stop_steps, analyses_of; cbn; rewrite Hmain; cbn; lia.
Qed.

(** Something is left to do until [Run] has returned. *)
Lemma stop_enabled w :
  run_inv w → sv_closing (w_server w) = true → (∀ errs, rt_main (w_run w) ≠ Stopped errs) →
  ∃ act, is_Some (step config act w) ∧ ∀ root, act ≠ ToolApplied root.
Proof.
  intros Hinv Hcl Hrun.
  destruct (decide (analyses_of w = ∅)) as [HA|HA].
  2: { apply map_choose in HA as (id & a & Ha).
    assert (∃ act, is_Some (stepAnalysis config act id w) ∧ match act with
      | AnalyzeReturns i _ | ErrorShown i _ | Complete _ i | CheckSequence i | Write i _ => i = id | _ => False end) as (act & Hst & Hact).
    { unfold stepAnalysis. rewrite Ha. cbn [mbind option_bind]. destruct (an_point a).
      - exists (AnalyzeReturns id AnalyzeCanceled). split; [by eexists|done].
      - exists (ErrorShown id false). split; [by eexists|done].
      - exists (Complete (mkEnvironment (λ _, StatMissing) (λ _, None) (λ _, Ok ()) []) id). split; [by eexists|done].
      - exists (CheckSequence id). split; [by eexists|done].
      - exists (Write id false). split; [by eexists|done]. }
    exists act. destruct act; try done; subst; split; done. }
  destruct (rt_closers (w_run w)) as [|service rest] eqn:HC.
  - assert (serving (rt_main (w_run w)) = false) as Hs by by rewrite (run_main _ Hinv), Hcl.
    destruct (rt_main (w_run w)) as [todo|errs svcs|errs [|svc svcs]|errs] eqn:Hmain; [done|..|by destruct (Hrun errs)].
    + exists WaitReturns. split; [|done]. cbn. rewrite Hmain, HA, HC. by eexists.
    + exists (ServiceCloses None). split; [|done]. cbn. rewrite Hmain. by eexists.
    + exists (ServiceCloses None). split; [|done]. cbn. rewrite Hmain. by eexists.
  - exists (CloserReturns service None). split; [|done]. cbn. rewrite HC, HA.
    rewrite bool_decide_eq_true_2 by by left. rewrite bool_decide_eq_true_2 by done. by eexists.
Qed.

(** C37. A server that is stopping always ends: every step of a goroutine brings
    it nearer to the end, nothing that happens takes it back, and some step is
    possible until [Run] has returned. *)
Theorem stop_ends w :
  reachable config w → sv_closing (w_server w) = true →
  (∀ act w', step config act w = Some w' →
     (∃ root, act = ToolApplied root ∧ w' = w) ∨ (stop_steps w' < stop_steps w)%nat) ∧
  ((∀ errs, rt_main (w_run w) ≠ Stopped errs) →
     ∃ act w', step config act w = Some w' ∧ (stop_steps w' < stop_steps w)%nat).
Proof.
  intros Hinv%run_reachable Hcl.
  assert (∀ act w', step config act w = Some w' →
     (∃ root, act = ToolApplied root ∧ w' = w) ∨ (stop_steps w' < stop_steps w)%nat) as Hdec.
  { intros act w'. unfold step. destruct act; try (intros Hst; right; by eapply stop_main);
      try (intros Hst; right; by eapply stop_analysis).
    - destruct (rt_timers (w_run w) !! id) as [t|] eqn:Ht; [|done]. intros [= <-]. right. by apply stop_fires.
    - destruct (rt_fired (w_run w) !! id) as [[key s]|] eqn:Hf; [|done]. intros [= <-]. right. by apply stop_begins.
    - intros [= <-]. left. exists root. split; [done|]. unfold withWorkspace.
      destruct (workspaces_of w !! pathKey root) eqn:Hws; [by apply closing_schedule|done].
    - destruct (_ && _) eqn:E; [|done]. bool_prop. intros [= <-]. right.
      pose proof (list_difference_shorter (rt_closers (w_run w)) service ltac:(done)).
      unfold stop_steps, analyses_of. destruct err; cbn; lia. }
  split; [exact Hdec|]. intros Hrun. destruct (stop_enabled w Hinv Hcl Hrun) as (act & [w' Hst] & Hno).
  exists act, w'. split; [done|]. destruct (Hdec act w' Hst) as [(root & -> & _)|]; [by destruct (Hno root)|done].
Qed.
End stopping.

#[local] Existing Instances ascii_tables plain_urls plain_urls_laws.

Definition config_1k : serverConfig := mkServerConfig 150 1024.

(** A module at /m, with two files in it. *)
Definition module_m : environment := {|
  env_stat := λ p, if decide (p = "/m") then StatDirectory else if decide (p = "/m/go.mod") then StatRegular 10 else StatMissing;
  env_read := λ _, None;
  env_newService := λ _, Ok ();
  env_visit := ["file:///m/a.go"];
|}.

Definition a_go : string := "file:///m/a.go".
Definition b_go : string := "file:///m/b.go".

Definition diagnostic_at (uri path message : string) : Diagnostic :=
  mkDiagnostic "spice/test" "error" message
    (mkLocation uri path (mkRange (mkPosition 1 1 0) (mkPosition 1 2 0)) None) [] [].
Definition result_a : Result := mkResult [diagnostic_at a_go "/m/a.go" "in a"] true.
Definition result_ab : Result :=
  mkResult [diagnostic_at a_go "/m/a.go" "in a"; diagnostic_at b_go "/m/b.go" "in b"] true.
Definition result_none : Result := mkResult [] true.

Definition opened : list action :=
  [Receive module_m (Initialize true (Ok (mkInitialize "file:///m" "" [] None))); Work module_m None;
   Receive module_m (DidOpen (Ok (mkItem a_go "go" 1 "package a")))].

Definition analysing : list action := opened ++ [TimerFires 1; Begin 1].
Definition returned : list action := analysing ++ [AnalyzeReturns 2 (Analyzed result_a)].
Definition published : list action :=
  returned ++ [Complete module_m 2; CheckSequence 2; LspServer.Write 2 false; CheckSequence 2].
Definition stopping : list action :=
  published ++ [Receive module_m (Shutdown true); Work module_m None; Receive module_m Exit].
Definition stopped : list action := stopping ++ [WaitReturns; ServiceCloses None; ServiceCloses None].

Definition after (acts : list action) : world := default initialWorld (run config_1k acts initialWorld).

(** ** Polite executions, decided *)

Definition politeb (act : action) (w w' : world) : bool :=
  bool_decide (map_Forall (λ _ ws, (ws_sequence ws <? 2 ^ 64 - 1)%N = true) (workspaces_of w)) &&
  bool_decide (map_Forall (λ key _, workspaces_of w !! key = None →
    map_Forall (λ _ (t : string * N), t.1 ≠ key) (rt_fired (w_run w)) ∧
    map_Forall (λ _ a, an_key a ≠ key) (analyses_of w)) (workspaces_of w')) &&
  match act with
  | Receive _ (DidOpen (Ok item)) => bool_decide (documents_of w !! ti_URI item = None)
  | _ => true
  end.

Fixpoint run_polite (acts : list action) (w : world) : option world :=
  match acts with
  | [] => Some w
  | act :: acts =>
    match step config_1k act w with
    | Some w' => if politeb act w w' then run_polite acts w' else None
    | None => None
    end
  end.

Lemma politeb_polite act w w' : politeb act w w' = true → polite act w w'.
Proof.
  unfold politeb. rewrite !andb_true_iff. intros [[Hsmall Hidle] Hnew].
  apply bool_decide_eq_true in Hsmall, Hidle. split_and!.
  - intros key ws Hws. apply N.ltb_lt. exact (Hsmall key ws Hws).
  - intros key Hnone [ws Hws]. destruct (Hidle key ws Hws Hnone) as [HF HA]. split.
    + intros id s Hid. exact (HF id _ Hid eq_refl).
    + intros id a Hid. exact (HA id a Hid).
  - intros env item ->. by apply bool_decide_eq_true in Hnew.
Qed.

Lemma run_polite_reachable acts w w' :
  polite_reachable config_1k w → run_polite acts w = Some w' → polite_reachable config_1k w'.
Proof.
  revert w. induction acts as [|act acts IH]; intros w Hr; simpl; [by intros [= <-]|].
  destruct (step config_1k act w) as [w1|] eqn:Hst; [|done].
  destruct (politeb act w w1) eqn:Hp; [|done]. apply IH. eapply polite_step; [done| |done]. by apply politeb_polite.
Qed.

Lemma polite_after acts : run_polite acts initialWorld = Some (after acts) → polite_reachable config_1k (after acts).
Proof. apply run_polite_reachable, polite_start. Qed.

Lemma reachable_after acts : run config_1k acts initialWorld = Some (after acts) → reachable config_1k (after acts).
Proof. by exists acts. Qed.

(** ** The theorems applied *)

Lemma protocolPositionFromCompiler_exact_witness :
  protocolPositionFromCompiler (mkPosition 2 3 0) ("x" +:+ str1 newline +:+ "abc") = mkPos 1 2.
Proof.
  rewrite (protocolPositionFromCompiler_exact (mkPosition 2 3 0) _ 2 5); vm_compute; congruence.
Defined.

Lemma documents_listed_witness :
  ∃ ws, workspaces_of (after published) !! "/m" = Some ws ∧ a_go ∈ ws_documents ws.
Proof.
  destruct (workspaces_of (after published) !! "/m") as [ws|] eqn:Hws; [|vm_compute in Hws; congruence].
  exists ws. split; [reflexivity|].
  apply (proj1 (documents_listed config_1k (after published) (polite_after published ltac:(vm_compute; reflexivity))) "/m" ws a_go Hws).
  eexists. split; [vm_compute; reflexivity|vm_compute; reflexivity].
Defined.

Lemma accepted_exactly_current_witness :
  ∃ a w', analyses_of (after returned) !! 2%nat = Some a ∧
    step config_1k (Complete module_m 2) (after returned) = Some w' ∧
    ∃ ws, workspaces_of (after returned) !! "/m" = Some ws ∧ an_snapshot a = takeSnapshot ws (documents_of (after returned)).
Proof.
  destruct (analyses_of (after returned) !! 2%nat) as [a|] eqn:Ha; [|vm_compute in Ha; congruence].
  destruct (step config_1k (Complete module_m 2) (after returned)) as [w'|] eqn:Hst; [|vm_compute in Hst; congruence].
  assert (an_point a = AtComplete result_a ∧ an_key a = "/m") as [Hp Hk] by (vm_compute in Ha; injection Ha as <-; split; reflexivity).
  exists a, w'. split; [reflexivity|]. split; [reflexivity|]. rewrite <- Hk.
  apply (proj1 (accepted_exactly_current config_1k (after returned) w' module_m 2 a result_a
    (polite_after returned ltac:(vm_compute; reflexivity)) Ha Hp Hst)).
  vm_compute in Hst. injection Hst as <-. eexists. vm_compute. reflexivity.
Defined.

Lemma quiet_server_current_witness :
  ∃ ws answer, workspaces_of (after published) !! "/m" = Some ws ∧
    (takeSnapshot ws (documents_of (after published)), answer) ∈ rt_answers (w_run (after published)) ∧
    ∀ r, answer = Analyzed r → ws_latest ws = Some r.
Proof.
  destruct (workspaces_of (after published) !! "/m") as [ws|] eqn:Hws; [|vm_compute in Hws; congruence]. exists ws.
  destruct (quiet_server_current config_1k (after published) "/m" ws) as (answer & Hin & Hr).
  - apply polite_after. vm_compute. reflexivity.
  - vm_compute. reflexivity.
  - vm_compute. reflexivity.
  - vm_compute. reflexivity.
  - vm_compute. reflexivity.
  - exact Hws.
  - vm_compute in Hws. injection Hws as <-. vm_compute. reflexivity.
  - exists answer. exact (conj eq_refl (conj Hin Hr)).
Defined.

Lemma one_live_analysis_witness :
  ∃ a ws, analyses_of (after analysing) !! 2%nat = Some a ∧
    workspaces_of (after analysing) !! "/m" = Some ws ∧ an_snapshot a = takeSnapshot ws (documents_of (after analysing)).
Proof.
  destruct (analyses_of (after analysing) !! 2%nat) as [a|] eqn:Ha; [|vm_compute in Ha; congruence].
  assert (an_point a = AtAnalyze ∧ an_cancelled a = false ∧ an_key a = "/m") as (Hp & Hc & Hk)
    by (vm_compute in Ha; injection Ha as <-; split_and!; reflexivity).
  destruct (one_live_analysis config_1k (after analysing) 2 a (polite_after analysing ltac:(vm_compute; reflexivity)) Ha Hp Hc)
    as [(ws & Hws & Hsn) _].
  exists a, ws. rewrite <- Hk. exact (conj eq_refl (conj Hws Hsn)).
Defined.

Lemma workspaceForPath_deepest_witness :
  ∃ key ws, workspaceForPathLocked (rooted ["m"; "a.go"]) (workspaces_of (after opened)) = Some (key, ws) ∧
    ∃ cs, ws_root ws = rooted cs ∧ cs `prefix_of` ["m"; "a.go"].
Proof.
  pose proof (workspaceForPath_deepest (workspaces_of (after opened)) ["m"; "a.go"]) as Hdeep.
  destruct (workspaceForPathLocked (rooted ["m"; "a.go"]) (workspaces_of (after opened))) as [[key ws]|] eqn:Hbest;
    [|vm_compute in Hbest; congruence].
  exists key, ws. split; [reflexivity|]. destruct Hdeep as (_ & cs & Hr & Hp & _).
  - intros key' ws' Hws'. exists ["m"]. split; [repeat constructor; vm_compute; congruence|].
    assert (key' = "/m") as ->.
    { assert (workspaces_of (after opened) = {["/m" := ws]}) as Heq by (vm_compute in Hbest; injection Hbest as <- <-; vm_compute; reflexivity).
      rewrite Heq in Hws'. apply lookup_singleton_Some in Hws' as [<- _]. reflexivity. }
    vm_compute in Hws'. injection Hws' as <-. reflexivity.
  - repeat constructor; vm_compute; congruence.
  - exists cs. exact (conj Hr Hp).
Defined.

Lemma services_closed_once_witness :
  rt_main (w_run (after stopped)) = Stopped [] ∧ rt_closed (w_run (after stopped)) = [0%nat] ∧
  NoDup (rt_closed (w_run (after stopped))).
Proof.
  split; [vm_compute; reflexivity|]. split; [vm_compute; reflexivity|].
  apply (services_closed_once config_1k (after stopped)). apply reachable_after. vm_compute. reflexivity.
Defined.

Lemma stop_ends_witness :
  sv_closing (w_server (after stopping)) = true ∧
  ∃ act w', step config_1k act (after stopping) = Some w' ∧ (stop_steps w' < stop_steps (after stopping))%nat.
Proof.
  split; [vm_compute; reflexivity|].
  apply (stop_ends config_1k (after stopping)).
  - apply reachable_after. vm_compute. reflexivity.
  - vm_compute. reflexivity.
  - intros errs Hm. vm_compute in Hm. congruence.
Defined.

(** ** What the interleavings show *)

(** The messages of the last diagnostics a client received for a file. *)
Definition shown (uri : string) (w : world) : option (list string) :=
  last (omap (λ n, match n with
    | PublishDiagnostics p => if decide (dp_uri p = uri) then Some (pd_Message <$> dp_diagnostics p) else None
    | _ => None end) (rt_sent (w_run w))).

(** A timer, the analysis it starts, and the answer. *)
Definition analysed (timer : nat) (r : Result) : list action :=
  [TimerFires timer; Begin timer; AnalyzeReturns (S timer) (Analyzed r); Complete module_m (S timer)].
Definition written (id n : nat) : list action :=
  concat (replicate n [CheckSequence id; LspServer.Write id false]) ++ [CheckSequence id].
Definition changed (version : Z) : action :=
  Receive module_m (DidChange (Ok (a_go, version, [mkChange None "package a"]))).

(** The second result clears both files but a change interrupts it after the
    first one; the third knows no longer that the second file has diagnostics. *)
Definition interrupted : list action :=
  opened ++ analysed 1 result_ab ++ written 2 2 ++
  [changed 2] ++ analysed 3 result_none ++ [CheckSequence 4; LspServer.Write 4 false; changed 3; CheckSequence 4] ++
  analysed 5 result_none ++ written 6 1.

Example interrupted_publication :
  let w := after interrupted in
  run_polite interrupted initialWorld = Some w ∧
  rt_timers (w_run w) = ∅ ∧ analyses_of w = ∅ ∧
  (ws_latest <$> workspaces_of w !! "/m") = Some (Some result_none) ∧
  (ws_published <$> workspaces_of w !! "/m") = Some ∅ ∧
  shown a_go w = Some [] ∧ shown b_go w = Some ["in b"].
Proof. split_and!; vm_compute; reflexivity. Qed.

(** A document is closed between [sequenceCurrent] and the write. *)
Definition closed_late : list action :=
  returned ++ [Complete module_m 2; CheckSequence 2; Receive module_m (DidClose (Ok a_go)); Work module_m None;
    LspServer.Write 2 false; CheckSequence 2] ++ analysed 3 result_none ++ written 4 0.

Example closed_document_keeps_diagnostics :
  let w := after closed_late in
  run_polite closed_late initialWorld = Some w ∧
  rt_timers (w_run w) = ∅ ∧ analyses_of w = ∅ ∧
  (ws_latest <$> workspaces_of w !! "/m") = Some (Some result_none) ∧ shown a_go w = Some ["in a"].
Proof. split_and!; vm_compute; reflexivity. Qed.

(** A folder is removed and added again: the counter starts again and the
    result of the removed workspace passes for one of the new workspace, whose
    document list is empty. *)
Definition readded : list action :=
  returned ++
  [Receive module_m (DidChangeWorkspaceFolders (Ok (["file:///m"], ["file:///m"])));
   Work module_m None; Work module_m None; Work module_m None;
   Receive module_m (DidChangeConfiguration (Ok (Some (mkSettings "other" [] "" ""))))].

Example result_of_removed_workspace :
  let w := after (readded ++ [Complete module_m 2]) in
  ∃ ws, workspaces_of w !! "/m" = Some ws ∧ ws_latest ws = Some result_a ∧
    (rt_answers (w_run w)).*2 = [Analyzed result_a] ∧
    ((λ s, as_Target (sn_settings s)) <$> (rt_answers (w_run w)).*1) = [""] ∧
    as_Target (ws_settings ws) = "other" ∧ ws_documents ws = ∅.
Proof. eexists. split; [vm_compute; reflexivity|]. split_and!; vm_compute; reflexivity. Qed.

(** Its document belongs to no workspace from then on: a change of it starts
    no analysis. *)
Example orphan_is_not_analysed :
  let w := after readded in
  (dc_root <$> documents_of w !! a_go) = Some "" ∧
  let w' := after (readded ++ [changed 2]) in
  (dc_version <$> documents_of w' !! a_go) = Some 2%Z ∧
  rt_timers (w_run w') = rt_timers (w_run w) ∧ workspaces_of w' = workspaces_of w.
Proof. cbv zeta. split_and!; vm_compute; reflexivity. Qed.
