(* ===== verification/ServiceRequest.v ===== *)
(** The requests of package [compiler/service] (service.go): the limits of a
    service, the normal form of a request with its overlay, and the choice of
    the application target. *)
From S2P Require Import Prelude GoSort GoStrings GoRoot GoPath GoUrl LspServer LspPaths.

(** ** Data *)

(** [Document] of an overlay; [slices.Clone] copies a value. *)
Record OverlayDocument := mkOverlayDocument { od_Version : Z; od_Content : string }.

(** [AnalysisMode], a uint8 *)
Definition AnalysisGenerate : N := 0.
Definition AnalysisValidate : N := 1.

(** Package [compiler/style]: what [Request] carries of a configuration is
    whether [Validate] accepts it; the profiles are those of the server. *)
Class StyleConfigurations := {
  style_configuration : Type;
  style_Validate : style_configuration → outcome error ();
}.

(** [compilerstyle.BuildSelection], with [CGOEnabled] set. *)
Record BuildSelection := mkSelection {
  bs_Name : string;
  bs_GOOS : string;
  bs_GOARCH : string;
  bs_CGOEnabled : bool;
  bs_Tags : list string;
}.

(** [Request]; the overlay is a list of its entries in the order in which a
    range visits them. *)
Record Request `{StyleConfigurations} := mkRequest {
  rq_WorkspaceRoot : string;
  rq_Target : string;
  rq_Patterns : list string;
  rq_Overlay : list (string * OverlayDocument);
  rq_Mode : N;
  rq_Profile : string;
  rq_StyleConfiguration : option style_configuration;
  rq_ContentHash : string;
  rq_Sequence : N;
}.

(** [normalizedRequest]; the module universe and the identities that only the
    generation scopes set are left out. *)
Record normalizedRequest `{StyleConfigurations} := mkNormalized {
  nr_root : string;
  nr_target : string;
  nr_patterns : list string;
  nr_overlay : gmap string OverlayDocument;
  nr_mode : N;
  nr_profile : string;
  nr_style : option style_configuration;
  nr_selection : option BuildSelection;
  nr_content : string;
  nr_sequence : N;
  nr_generatedEntrypoint : bool;
  nr_applicationScope : bool;
  nr_generationInventory : bool;
}.

(** ** The limits of a service *)

Definition defaultCacheEntries : Z := 8.
Definition defaultOverlayFiles : Z := 1024.
Definition defaultOverlayBytes : Z := 16 * 2 ^ 20.

(** The fields of [Config] that [New] checks; the last three tell whether
    definitions, entrypoints and starters are given, the starters with what
    [StarterCatalog.Registry] returns. *)
Record Config := mkConfig {
  cf_CacheNamespace : string;
  cf_MaxCacheEntries : Z;
  cf_MaxOverlayFiles : Z;
  cf_MaxOverlayBytes : Z;
  cf_BootstrapDefinitions : bool;
  cf_ProviderEntrypoints : bool;
  cf_Starters : option (outcome error ());
}.

Record serviceConfig := mkServiceConfig {
  sc_cacheNamespace : string;
  sc_maxCacheEntries : Z;
  sc_maxOverlayFiles : Z;
  sc_maxOverlayBytes : Z;
  sc_cacheExtensions : bool;
}.

Definition or_default (value default : Z) : Z := if (value =? 0)%Z then default else value.

Definition New (config : Config) : outcome error serviceConfig :=
  let hasStarters := bool_decide (is_Some (cf_Starters config)) in
  _ ← default (Ok ()) (cf_Starters config);
  let maxCacheEntries := or_default (cf_MaxCacheEntries config) defaultCacheEntries in
  _ ← guard_or (negb (maxCacheEntries <? 0)%Z) (ErrNew "compiler service cache size must not be negative");
  let maxOverlayFiles := or_default (cf_MaxOverlayFiles config) defaultOverlayFiles in
  _ ← guard_or (negb (maxOverlayFiles <=? 0)%Z) (ErrNew "compiler service overlay file limit must be positive");
  let maxOverlayBytes := or_default (cf_MaxOverlayBytes config) defaultOverlayBytes in
  _ ← guard_or (negb (maxOverlayBytes <=? 0)%Z) (ErrNew "compiler service overlay byte limit must be positive");
  let cacheExtensions :=
    negb (cf_BootstrapDefinitions config) && negb (cf_ProviderEntrypoints config) && negb hasStarters in
  let cacheExtensions := if decide (cf_CacheNamespace config ≠ "") then true else cacheExtensions in
  Ok (mkServiceConfig (cf_CacheNamespace config) maxCacheEntries maxOverlayFiles maxOverlayBytes cacheExtensions).

(** ** Overlays *)

Section requests.
Context `{UnicodeTables} `{GoUrl} `{StyleConfigurations}.

Definition normalizedSpiceVersion (value : string) : string :=
  let value := trim_space value in if decide (value = "") then "development" else value.

(** On Unix. *)
Definition normalizedWorkspaceKey (root : string) : string := path_clean root.

Definition overlayIdentityPath (identity : string) : outcome error string :=
  let isURI := has_prefix (to_lower identity) "file:" || contains identity "://" in
  if negb isURI then Ok identity
  else
    match url_parse identity with
    | Fail err => Fail (ErrWrap ("parse compiler service overlay URI " +:+ go_quote identity) (ErrNew err))
    | Ok parsed =>
      _ ← guard_or (bool_decide (url_Scheme parsed = "file"))
            (ErrNew ("compiler service overlay URI " +:+ go_quote identity +:+ " must use file scheme"));
      _ ← guard_or (bool_decide (url_Host parsed = "") || bool_decide (url_Host parsed = "localhost"))
            (ErrNew ("compiler service overlay URI " +:+ go_quote identity +:+ " must not name a remote host"));
      Ok (url_Path parsed)
    end.

Definition overlayPath (root identity : string) : outcome error string :=
  _ ← guard_or (negb (bool_decide (identity = ""))) (ErrNew "compiler service overlay path must not be empty");
  path ← overlayIdentityPath identity;
  let path := if path_is_abs path then path else path_join [root; path] in
  let absolute := filepath_abs path in
  let outside := Fail (ErrNew ("compiler service overlay " +:+ go_quote identity +:+ " must remain inside workspace")) in
  match filepath_rel root absolute with
  | None => outside
  | Some relative =>
    if negb (bool_decide (relative = ".")) && negb (is_local relative) then outside else Ok (path_clean absolute)
  end.

(** The loop of [normalizeOverlay]. *)
Fixpoint overlayDocuments (root : string) (documents : list (string * OverlayDocument)) (maximumBytes total : Z)
    (result : gmap string OverlayDocument) : outcome error (gmap string OverlayDocument) :=
  match documents with
  | [] => Ok result
  | (identity, document) :: rest =>
    path ← overlayPath root identity;
    let total := (total + Z.of_nat (String.length (od_Content document)))%Z in
    _ ← guard_or (negb (maximumBytes <? total)%Z)
          (ErrNew ("compiler service overlay exceeds " +:+ itoa maximumBytes +:+ " bytes"));
    overlayDocuments root rest maximumBytes total (<[path := document]> result)
  end.

Definition normalizeOverlay (root : string) (documents : list (string * OverlayDocument))
    (maximumFiles maximumBytes : Z) : outcome error (gmap string OverlayDocument) :=
  let files := Z.of_nat (length documents) in
  _ ← guard_or (negb (maximumFiles <? files)%Z)
        (ErrNew ("compiler service overlay has " +:+ itoa files +:+ " files; maximum is " +:+ itoa maximumFiles));
  overlayDocuments root documents maximumBytes 0 ∅.

(** ** Requests *)

(** The profile a request selects, with its style configuration. *)
Definition requestProfile (request : Request) : outcome error string :=
  match rq_StyleConfiguration request with
  | None => Ok (rq_Profile request)
  | Some configuration =>
    _ ← style_Validate configuration;
    _ ← guard_or (bool_decide (rq_Profile request ∈ [ProfileNone; ProfileJavaStructured]))
          (ErrNew "compiler service style configuration conflicts with requested profile");
    Ok ProfileJavaStructured
  end.

(** [stat] is [os.Stat] followed by [IsDir]. *)
Definition normalizeRequest (config : serviceConfig) (stat : string → outcome error bool) (request : Request)
    : outcome error normalizedRequest :=
  _ ← guard_or (negb (bool_decide (rq_WorkspaceRoot request = "")))
        (ErrNew "compiler service workspace root must not be empty");
  _ ← guard_or (bool_decide (rq_Mode request ∈ [AnalysisGenerate; AnalysisValidate]))
        (ErrNew ("compiler service analysis mode " +:+ itoa (Z.of_N (rq_Mode request)) +:+ " is unsupported"));
  _ ← guard_or (negb (bool_decide (rq_Mode request = AnalysisValidate ∧ rq_Target request ≠ "")))
        (ErrNew "compiler service validation analysis must not select a target");
  profile ← requestProfile request;
  _ ← match ValidateProfile profile with Ok _ => Ok () | Fail err => Fail (ErrNew err) end;
  let root := filepath_abs (rq_WorkspaceRoot request) in
  isDirectory ← match stat root with
                | Ok isDirectory => Ok isDirectory
                | Fail err => Fail (ErrWrap "inspect compiler service workspace root" err)
                end;
  _ ← guard_or isDirectory (ErrNew "compiler service workspace root must be a directory");
  let patterns := if decide (rq_Patterns request = []) then ["./..."] else rq_Patterns request in
  overlay ← normalizeOverlay root (rq_Overlay request) (sc_maxOverlayFiles config) (sc_maxOverlayBytes config);
  Ok {| nr_root := path_clean root; nr_target := rq_Target request; nr_patterns := patterns; nr_overlay := overlay;
        nr_mode := rq_Mode request; nr_profile := profile; nr_style := rq_StyleConfiguration request;
        nr_selection := None; nr_content := rq_ContentHash request; nr_sequence := rq_Sequence request;
        nr_generatedEntrypoint := false; nr_applicationScope := false; nr_generationInventory := false |}.
End requests.

(** ** Targets *)

Section folding.
Context `{UnicodeTables} `{CaseFold}.

(** What [selectTarget] reads of [application.Target]. *)
Record Target := mkTarget { tg_SymbolID : string; tg_Name : string; tg_PackagePath : string }.

Definition target_matches (selector : string) (target : Target) : bool :=
  bool_decide (tg_Name target = selector) || bool_decide (tg_PackagePath target = selector) ||
  bool_decide (tg_SymbolID target = selector) || equal_fold (tg_Name target) selector.

Definition selectTarget (targets : list Target) (selector : string) : outcome error Target :=
  match targets with
  | [] => Fail (ErrNew "no @Application marker was found in the selected packages")
  | _ =>
    if decide (selector = "") then
      match targets with
      | [target] => Ok target
      | _ =>
        Fail (ErrNew ("multiple @Application targets were found (" +:+ join (tg_Name <$> targets) ", " +:+
          "); select one with --target"))
      end
    else
      match filter (λ target, target_matches selector target = true) targets with
      | [] => Fail (ErrNew ("@Application target " +:+ go_quote selector +:+ " was not found"))
      | [target] => Ok target
      | _ =>
        Fail (ErrNew ("@Application target " +:+ go_quote selector +:+
          " is ambiguous; select by stable symbol ID"))
      end
  end.
End folding.

(** ** What a normal overlay is *)

Section theorems.
Context `{UnicodeTables} `{!GoUrl} `{!GoUrlLaws} `{StyleConfigurations}.

(** The path is the root or below it. *)
Definition inside (root path : string) : Prop :=
  ∃ rs ds, Forall good_name rs ∧ Forall good_name ds ∧ root = rooted rs ∧ path = rooted ds ∧ rs `prefix_of` ds.

(** The clean absolute path an identity names. *)
Definition named_path (root identity : string) : outcome error string :=
  path ← overlayIdentityPath identity;
  Ok (filepath_abs (if path_is_abs path then path else path_join [root; path])).

Lemma filepath_abs_rooted p : ∃ ds, Forall good_name ds ∧ filepath_abs p = rooted ds.
Proof.
  destruct (path_clean_abs (filepath_abs p) (filepath_abs_abs p)) as (ds & Hds & Hp). exists ds. split; [done|].
  rewrite <- Hp. unfold filepath_abs. destruct (path_is_abs p) eqn:E; [by rewrite path_clean_clean|].
  symmetry. unfold path_join. pose proof working_directory_abs as Hw.
  destruct (path_is_abs_inv _ Hw) as (t & Ht). rewrite filter_cons_True by (rewrite Ht; done).
  apply path_clean_clean. destruct (filter (λ e, e ≠ "") [p]) as [|e l]; [done|].
  rewrite join_cons_ne by done. rewrite Ht, str_app_assoc. apply (has_prefix_app "/").
Qed.

Lemma overlayPath_exact rs identity path :
  Forall good_name rs →
  overlayPath (rooted rs) identity = Ok path ↔
    identity ≠ "" ∧ named_path (rooted rs) identity = Ok path ∧ inside (rooted rs) path.
Proof.
  intros Hrs. unfold overlayPath, named_path.
  destruct (bool_decide (identity = "")) eqn:Hempty; bool_prop; simpl; [naive_solver|].
  destruct (overlayIdentityPath identity) as [p|e]; simpl; [|naive_solver].
  set (q := filepath_abs _). destruct (filepath_abs_rooted (if path_is_abs p then p else path_join [rooted rs; p])) as (ds & Hds & Hq).
  fold q in Hq. rewrite Hq, (path_clean_rooted ds Hds). pose proof (holdsPath_rooted rs ds Hrs Hds) as Hholds. unfold holdsPath in Hholds.
  assert (inside (rooted rs) (rooted ds) ↔ rs `prefix_of` ds) as Hin.
  { split; [|intros; by exists rs, ds]. intros (rs' & ds' & Hr & Hd & Hr' & Hd' & Hpre).
    apply rooted_inj in Hr' as ->; [|done..]. by apply rooted_inj in Hd' as ->. }
  destruct (filepath_rel (rooted rs) (rooted ds)) as [relative|]; [|naive_solver].
  destruct (bool_decide (relative = ".")) eqn:Hdot, (is_local relative) eqn:Hlocal; simpl in *; naive_solver.
Qed.

Definition overlay_bytes (documents : list (string * OverlayDocument)) : Z :=
  foldr (λ entry total, Z.of_nat (String.length (od_Content entry.2)) + total)%Z 0%Z documents.

(** The overlay with the entries added in their order. *)
Definition overlay_entries (root : string) (documents : list (string * OverlayDocument))
    (overlay : gmap string OverlayDocument) : gmap string OverlayDocument :=
  foldl (λ overlay entry, match overlayPath root entry.1 with
                          | Ok path => <[path := entry.2]> overlay
                          | Fail _ => overlay
                          end) overlay documents.

Lemma overlay_bytes_nonneg documents : (0 ≤ overlay_bytes documents)%Z.
Proof. induction documents; simpl; lia. Qed.

Lemma overlayDocuments_exact root documents maximum total overlay result :
  overlayDocuments root documents maximum total overlay = Ok result ↔
    (∀ entry, entry ∈ documents → ∃ path, overlayPath root entry.1 = Ok path) ∧
    (documents = [] ∨ (total + overlay_bytes documents ≤ maximum)%Z) ∧
    result = overlay_entries root documents overlay.
Proof.
  revert total overlay. induction documents as [|[identity document] rest IH]; intros total overlay; simpl.
  { split; [intros [= ->]|by intros (_ & _ & ->)]. split_and!; [by intros ? ?%elem_of_nil|by left|done]. }
  setoid_rewrite elem_of_cons. pose proof (overlay_bytes_nonneg rest) as Hrest.
  destruct (overlayPath root identity) as [path|e] eqn:Hpath; simpl.
  2: { split; [done|]. intros (Hall & _). destruct (Hall _ (or_introl eq_refl)) as [? Hx]. simpl in Hx. congruence. }
  destruct (Z.ltb_spec maximum (total + Z.of_nat (String.length (od_Content document)))) as [Hlt|Hle]; simpl.
  { split; [done|]. intros (_ & [?|?] & _); [done|lia]. }
  rewrite IH. split.
  - intros (Hall & Hbytes & ->). split_and!; [intros e [->|He]; [by eexists|by apply Hall]| |done].
    right. destruct Hbytes as [->|?]; simpl in *; lia.
  - intros (Hall & Hbytes & ->). split_and!; [intros e He; apply Hall; by right| |done].
    right. destruct Hbytes as [?|?]; [done|lia].
Qed.

Lemma overlay_entries_lookup root documents overlay path document :
  overlay_entries root documents overlay !! path = Some document →
  overlay !! path = Some document ∨
  ∃ identity, (identity, document) ∈ documents ∧ overlayPath root identity = Ok path.
Proof.
  revert overlay. induction documents as [|[identity d] rest IH]; intros overlay; simpl; [by left|].
  intros [Hl|(identity' & Hin & Hp)]%IH.
  - destruct (overlayPath root identity) as [p|e] eqn:Hpath; [|by left].
    apply lookup_insert_Some in Hl as [[<- <-]|[_ Hl]]; [right|by left].
    exists identity. split; [by left|done].
  - right. exists identity'. split; [by right|done].
Qed.

(** An overlay is accepted exactly when it is within the limits of the
    service and every identity names a path in the workspace; what a request
    carries then are documents of the overlay under clean paths inside the root,
    so that no identity, relative, absolute or a URI, reaches a file elsewhere. *)
Theorem normalizeOverlay_exact rs documents maximumFiles maximumBytes :
  Forall good_name rs → (0 ≤ maximumBytes)%Z →
  ((∃ overlay, normalizeOverlay (rooted rs) documents maximumFiles maximumBytes = Ok overlay) ↔
     (Z.of_nat (length documents) ≤ maximumFiles)%Z ∧ (overlay_bytes documents ≤ maximumBytes)%Z ∧
     ∀ identity document, (identity, document) ∈ documents →
       identity ≠ "" ∧ ∃ path, named_path (rooted rs) identity = Ok path ∧ inside (rooted rs) path) ∧
  ∀ overlay path document,
    normalizeOverlay (rooted rs) documents maximumFiles maximumBytes = Ok overlay → overlay !! path = Some document →
    inside (rooted rs) path ∧
    ∃ identity, (identity, document) ∈ documents ∧ named_path (rooted rs) identity = Ok path.
Proof.
  intros Hrs Hmax. unfold normalizeOverlay.
  destruct (Z.ltb_spec maximumFiles (Z.of_nat (length documents))) as [Hlt|Hle]; simpl.
  { split; [|done]. split; [by intros [? ?]|lia]. }
  split.
  - setoid_rewrite overlayDocuments_exact. simpl. split.
    + intros (overlay & Hall & Hbytes & _). split_and!; [done|destruct Hbytes as [->|?]; simpl; lia|].
      intros identity document Hin. destruct (Hall _ Hin) as (path & Hpath%overlayPath_exact); [|done]. naive_solver.
    + intros (_ & Hbytes & Hall). eexists. split_and!; [|by right|done]. intros [identity document] Hin.
      destruct (Hall _ _ Hin) as (Hne & path & Hp). exists path. by apply overlayPath_exact.
  - intros overlay path document (_ & _ & ->)%overlayDocuments_exact Hl.
    apply overlay_entries_lookup in Hl as [Hl|(identity & Hin & Hp)]; [by apply lookup_empty_Some in Hl|].
    apply overlayPath_exact in Hp as (_ & Hp & Hinside); [|done]. split; [done|]. by exists identity.
Qed.
End theorems.

(** ** Targets *)

(** The selected target is the only one that matches. *)
Lemma selectTarget_unique `{UnicodeTables} `{CaseFold} targets selector target :
  selectTarget targets selector = Ok target ↔
    (selector = "" ∧ targets = [target]) ∨
    (selector ≠ "" ∧ ∃ before after, targets = before ++ target :: after ∧ target_matches selector target = true ∧
       ∀ other, other ∈ before ++ after → target_matches selector other = false).
Proof.
  assert (∀ l, filter (λ target, target_matches selector target = true) l = [] ↔
    ∀ other, other ∈ l → target_matches selector other = false) as Hnone.
  { intros l. induction l as [|x l IH]; [split; [by intros _ ? ?%elem_of_nil|done]|]. rewrite filter_cons.
    setoid_rewrite elem_of_cons. case_decide as Hx; [split; [done|]|].
    - intros Hall. rewrite (Hall x) in Hx by by left. done.
    - apply not_true_is_false in Hx. rewrite IH. naive_solver. }
  assert (∀ l, filter (λ target, target_matches selector target = true) l = [target] ↔
    ∃ before after, l = before ++ target :: after ∧ target_matches selector target = true ∧
      ∀ other, other ∈ before ++ after → target_matches selector other = false) as Hone.
  { intros l. split.
    - induction l as [|x l IH]; [done|]. rewrite filter_cons. case_decide as Hx.
      + intros [= -> Hl]. exists [], l. split_and!; [done..|]. by apply Hnone.
      + intros (before & after & -> & Ht & Hall)%IH. exists (x :: before), after. split_and!; [done..|].
        intros other [->|Ho]%elem_of_cons; [by apply not_true_is_false|by apply Hall].
    - intros (before & after & -> & Ht & Hall). rewrite filter_app, filter_cons_True by done.
      rewrite (proj2 (Hnone before)), (proj2 (Hnone after)); [done|..]; intros other Ho; apply Hall, elem_of_app; auto. }
  rewrite <- Hone. unfold selectTarget. destruct targets as [|t [|t' targets]]; simpl.
  - split; [done|]. by intros [[_ ?]|[_ ?]].
  - case_decide as Hs; [naive_solver|]. rewrite filter_cons. case_decide; simpl; naive_solver.
  - case_decide as Hs; [split; [done|]; naive_solver|].
    destruct (filter _ (t :: t' :: targets)) as [|x [|y l]]; naive_solver.
Qed.

(** ** Applied *)

#[local] Existing Instance ascii_tables.
#[local] Existing Instance plain_urls.
#[local] Existing Instance plain_urls_laws.

Definition sample_overlay : list (string * OverlayDocument) :=
  [("main.go", mkOverlayDocument 1 "package main"); ("file:///work/app/web/b.go", mkOverlayDocument 2 "package web")].

Lemma normalizeOverlay_exact_witness :
  inside "/work/app" "/work/app/web/b.go" ∧
  (match normalizeOverlay "/work/app" [("../main.go", mkOverlayDocument 1 "package main")] 4 100 with
   | Ok _ => ""
   | Fail err => match err with ErrNew text => text | _ => "" end
   end) = "compiler service overlay " +:+ go_quote "../main.go" +:+ " must remain inside workspace".
Proof.
  split; [|vm_compute; reflexivity].
  assert (Forall good_name ["work"; "app"]) as Hrs by (apply (bool_decide_unpack _); vm_compute; exact I).
  destruct (normalizeOverlay_exact ["work"; "app"] sample_overlay 4 100 Hrs ltac:(lia)) as [_ Hall].
  refine (proj1 (Hall (list_to_map [("/work/app/main.go", mkOverlayDocument 1 "package main");
    ("/work/app/web/b.go", mkOverlayDocument 2 "package web")]) "/work/app/web/b.go" (mkOverlayDocument 2 "package web") _ _));
    vm_compute; reflexivity.
Defined.
