(* ===== verification/ServiceOptions.v ===== *)
(** The load options of an analysis: build tags, offline module resolution and
    the environment of the go command (service.go, style_selections.go of
    package [compiler/service]). *)
From S2P Require Import Prelude GoSort GoStrings GoUrl Annotation ParserGrammar LspTextTheorems ServiceRequest.
From S2P Require Filter.

(** ** Fields *)

(** [strings.FieldsFunc]: [current] is the field under way. *)
Definition emit (current : string) : list string := if decide (current = "") then [] else [current].
Fixpoint fields_loop (fuel : nat) (separates : N → bool) (current s : string) : list string :=
  match fuel, s with
  | S fuel, String _ _ =>
    let '(r, w) := decode_rune s in
    if separates r then emit current ++ fields_loop fuel separates "" (str_drop w s)
    else fields_loop fuel separates (current +:+ str_take w s) (str_drop w s)
  | _, _ => emit current
  end.
Definition fields_func (separates : N → bool) (s : string) : list string :=
  fields_loop (String.length s) separates "" s.
(** [strings.Fields] *)
Definition fields (s : string) : list string := fields_func is_space s.

(** ** Build flags *)

Definition AnalysisBuildTag : string := "spice_generate".

(** The separators of a list of tags. *)
Definition tag_separator (r : N) : bool := (r =? 44)%N || (r =? 32)%N.

Definition addTagValue (tags : gset string) (value : string) : gset string :=
  foldl (λ tags tag, if decide (tag = "") then tags else {[tag]} ∪ tags) tags (fields_func tag_separator value).

(** [addTagsFromFlags] on the fields of the flags. *)
Fixpoint addTagsFromFields (tags : gset string) (items : list string) : gset string :=
  match items with
  | [] => tags
  | item :: rest =>
    match decide (item = "-tags"), rest with
    | left _, value :: rest => addTagsFromFields (addTagValue tags value) rest
    | _, _ =>
      if has_prefix item "-tags=" then addTagsFromFields (addTagValue tags (trim_prefix item "-tags=")) rest
      else addTagsFromFields tags rest
    end
  end.
Definition addTagsFromFlags (tags : gset string) (flags : string) : gset string :=
  addTagsFromFields tags (fields flags).

(** The loop of [withAnalysisBuildTag]: the tags, and the flags that are kept. *)
Fixpoint analysisFlags (tags : gset string) (flags : list string) : gset string * list string :=
  match flags with
  | [] => (tags, [])
  | flag :: rest =>
    match decide (flag = "-tags"), rest with
    | left _, value :: rest => analysisFlags (addTagValue tags value) rest
    | _, _ =>
      if has_prefix flag "-tags=" then analysisFlags (addTagValue tags (trim_prefix flag "-tags=")) rest
      else let '(tags, kept) := analysisFlags tags rest in (tags, flag :: kept)
    end
  end.

(** [withoutTagFlags] *)
Fixpoint withoutTagFlags (flags : list string) : list string :=
  match flags with
  | [] => []
  | flag :: rest =>
    if decide (flag = "-tags") then match rest with [] => [] | _ :: rest => withoutTagFlags rest end
    else if has_prefix flag "-tags=" then withoutTagFlags rest
    else flag :: withoutTagFlags rest
  end.

(** The loop of [withOfflineModuleResolution]. *)
Fixpoint withoutModFlags (flags : list string) : list string :=
  match flags with
  | [] => []
  | flag :: rest =>
    if decide (flag = "-mod") then match rest with [] => [] | _ :: rest => withoutModFlags rest end
    else if has_prefix flag "-mod=" then withoutModFlags rest
    else flag :: withoutModFlags rest
  end.

(** ** Options *)

(** [load.Options]; a nil environment is [None]. *)
Record Options := mkOptions {
  lo_Dir : string;
  lo_Env : option (list string);
  lo_BuildFlags : list string;
  lo_Overlay : gmap string string;
  lo_AuxiliaryPackages : list string;
  lo_PrepareGeneratedApplicationEntrypoints : bool;
  lo_PromoteApplicationDependencies : bool;
  lo_Tests : bool;
}.
Definition set_lo_Env (environment : list string) (o : Options) : Options :=
  mkOptions (lo_Dir o) (Some environment) (lo_BuildFlags o) (lo_Overlay o) (lo_AuxiliaryPackages o)
    (lo_PrepareGeneratedApplicationEntrypoints o) (lo_PromoteApplicationDependencies o) (lo_Tests o).
Definition set_lo_BuildFlags (flags : list string) (o : Options) : Options :=
  mkOptions (lo_Dir o) (lo_Env o) flags (lo_Overlay o) (lo_AuxiliaryPackages o)
    (lo_PrepareGeneratedApplicationEntrypoints o) (lo_PromoteApplicationDependencies o) (lo_Tests o).

(** The process: [os.Environ], [os.Getenv("GOFLAGS")], and whether
    [moduleenv.VendorRoot] finds a vendor tree for a root and an environment. *)
Class Process := {
  os_Environ : list string;
  os_GOFLAGS : string;
  VendorRoot : string → list string → bool;
}.

Section options.
Context `{UnicodeTables} `{CaseFold} `{Process} `{StyleConfigurations}.

(** The entry sets the variable. *)
Definition sets (name entry : string) : bool :=
  let '(key, _, found) := cut entry "=" in found && equal_fold key name.

Definition removeEnvironment (environment : list string) (name : string) : list string :=
  filter (λ entry, sets name entry = false) environment.
Definition replaceEnvironment (environment : list string) (name value : string) : list string :=
  removeEnvironment environment name ++ [name +:+ "=" +:+ value].

Definition goFlags (environment : option (list string)) : string :=
  match environment with
  | None => os_GOFLAGS
  | Some environment =>
    match list_find (λ entry, sets "GOFLAGS" entry = true) environment with
    | Some (_, entry) => (cut entry "=").1.2
    | None => ""
    end
  end.

Definition withAnalysisBuildTag (options : Options) : Options :=
  let tags := addTagsFromFlags {[AnalysisBuildTag]} (goFlags (lo_Env options)) in
  let '(tags, kept) := analysisFlags tags (lo_BuildFlags options) in
  set_lo_BuildFlags (kept ++ ["-tags=" +:+ join (sort_strings (elements tags)) ","]) options.

Definition environment_of (options : Options) : list string := default os_Environ (lo_Env options).

(** The settings of [exactGenerationEnvironment]. *)
Definition generationSettings : list (string * string) :=
  [("GOAUTH", "off"); ("GOENV", "off"); ("GOEXPERIMENT", ""); ("GOFIPS140", "off"); ("GOPROXY", "off");
   ("GOSUMDB", "off"); ("GOTOOLCHAIN", "local")].
Definition exactGenerationEnvironment (options : Options) : Options :=
  set_lo_Env (foldl (λ environment setting, replaceEnvironment environment setting.1 setting.2)
    (environment_of options) generationSettings) options.

Definition OfflineMode (root : string) (environment : list string) : string :=
  if VendorRoot root environment then "vendor" else "readonly".

Definition withOfflineModuleResolution (options : Options) (root : string) : Options :=
  let environment := replaceEnvironment (environment_of options) "GOPROXY" "off" in
  set_lo_BuildFlags (withoutModFlags (lo_BuildFlags options) ++ ["-mod=" +:+ OfflineMode root environment])
    (set_lo_Env environment options).

(** The variables [exactStyleSelectionOptions] removes and those it sets. *)
Definition selectionVariables : list string :=
  ["CGO_ENABLED"; "GO386"; "GOAMD64"; "GOARCH"; "GOARM"; "GOARM64"; "GOAUTH"; "GOENV"; "GOEXPERIMENT"; "GOFIPS140";
   "GOFLAGS"; "GOMIPS"; "GOMIPS64"; "GOOS"; "GOPPC64"; "GOPROXY"; "GORISCV64"; "GOSUMDB"; "GOTOOLCHAIN"; "GOWASM"].
Definition selectionSettings (selection : BuildSelection) : list (string * string) :=
  [("CGO_ENABLED", if bs_CGOEnabled selection then "1" else "0"); ("GOARCH", bs_GOARCH selection); ("GOAUTH", "off");
   ("GOENV", "off"); ("GOEXPERIMENT", ""); ("GOFIPS140", "off"); ("GOFLAGS", ""); ("GOOS", bs_GOOS selection);
   ("GOPROXY", "off"); ("GOSUMDB", "off"); ("GOTOOLCHAIN", "local")].
Definition exactStyleSelectionOptions (options : Options) (selection : BuildSelection) : Options :=
  let environment := foldl removeEnvironment (environment_of options) selectionVariables ++
    ((λ '(name, value), name +:+ "=" +:+ value) <$> selectionSettings selection) in
  let flags := withoutTagFlags (lo_BuildFlags options) ++
    (if decide (bs_Tags selection = []) then [] else ["-tags=" +:+ join (bs_Tags selection) ","]) in
  set_lo_BuildFlags flags (set_lo_Env environment options).

(** [provider.Entrypoint]; only the package is read. *)
Definition entrypointPackages (packages : list string) : list string := Filter.compact (sort_strings packages).

(** The options of the service, with the packages of the provider entrypoints
    and those of the starter catalog. *)
Definition analysisLoadOptions (loadOptions : Options) (entrypoints starters : list string)
    (request : normalizedRequest) : Options :=
  let options := mkOptions (nr_root request) (lo_Env loadOptions) (lo_BuildFlags loadOptions)
    ((od_Content <$> nr_overlay request) ∪ lo_Overlay loadOptions)
    (lo_AuxiliaryPackages loadOptions ++ entrypointPackages entrypoints ++ starters)
    (lo_PrepareGeneratedApplicationEntrypoints loadOptions) (lo_PromoteApplicationDependencies loadOptions)
    (lo_Tests loadOptions) in
  let options :=
    match nr_selection request with
    | Some selection => exactStyleSelectionOptions options selection
    | None => options
    end in
  let options :=
    if bool_decide (nr_mode request = AnalysisGenerate) || nr_generatedEntrypoint request then
      withAnalysisBuildTag
        (mkOptions (lo_Dir options) (lo_Env options) (lo_BuildFlags options) (lo_Overlay options)
           (lo_AuxiliaryPackages options) true (lo_PromoteApplicationDependencies options) (lo_Tests options))
    else options in
  let options :=
    if bool_decide (nr_mode request = AnalysisGenerate) || nr_generationInventory request
    then exactGenerationEnvironment options else options in
  let options :=
    mkOptions (lo_Dir options) (lo_Env options) (lo_BuildFlags options) (lo_Overlay options)
      (lo_AuxiliaryPackages options) (lo_PrepareGeneratedApplicationEntrypoints options)
      (nr_applicationScope request) (lo_Tests options) in
  withOfflineModuleResolution options (nr_root request).
End options.

(** ** Fields between ASCII separators *)

Section fields.
Context (separates : N → bool) (Hascii : ∀ r, separates r = true → (r < 128)%N).

Fixpoint all_bytes (p : ascii → bool) (s : string) : bool :=
  match s with
  | EmptyString => true
  | String c s => p c && all_bytes p s
  end.

(** No byte of the text is a separator. *)
Definition unseparated (s : string) : Prop := all_bytes (λ c, negb (separates (byte_of c))) s = true.

Fixpoint byte_fields (current s : string) : list string :=
  match s with
  | EmptyString => emit current
  | String c s =>
    if separates (byte_of c) then emit current ++ byte_fields "" s else byte_fields (current +:+ str1 c) s
  end.

Lemma all_bytes_app p s t : all_bytes p (s +:+ t) = all_bytes p s && all_bytes p t.
Proof. induction s as [|c s IH]; [done|]. rewrite str_cons_app. simpl. by rewrite IH, andb_assoc. Qed.

Lemma byte_fields_skip current s t : unseparated s → byte_fields current (s +:+ t) = byte_fields (current +:+ s) t.
Proof.
  unfold unseparated. revert current. induction s as [|c s IH]; intros current; [by rewrite str_app_nil_r|].
  rewrite str_cons_app. simpl. intros [Hc Hs]%andb_true_iff. apply negb_true_iff in Hc.
  rewrite Hc, IH by done. by rewrite str_app_assoc.
Qed.

(** A rune that is not ASCII has no ASCII byte. *)
Lemma decode_high c s :
  (128 ≤ byte_of c)%N →
  (128 ≤ (decode_rune (String c s)).1)%N ∧
  all_bytes (λ c, (128 <=? byte_of c)%N) (str_take (decode_rune (String c s)).2 (String c s)) = true.
Proof.
  intros Hc. unfold decode_rune. assert ((128 <=? byte_of c)%N = true) as Hcb by by apply N.leb_le.
  destruct (N.ltb_spec (byte_of c) 128); [lia|].
  destruct (in_range 194 244 (byte_of c)) eqn:Hlead; [|simpl; rewrite Hcb; split; [unfold rune_error; lia|done]].
  cbn [negb]. unfold in_range in Hlead. apply andb_true_iff in Hlead as [Hl1%N.leb_le Hl2%N.leb_le].
  assert (128 ≤ rune_error)%N as Herr by (unfold rune_error; lia).
  destruct s as [|c1 s]; [simpl; rewrite Hcb; by split; [lia|]|].
  match goal with |- context [in_range ?l ?h (byte_of c1)] => set (lo := l); set (hi := h) end.
  destruct (in_range lo hi (byte_of c1)) eqn:H1; [|simpl; rewrite Hcb; by split; [lia|]]. cbn [negb].
  unfold in_range in H1. apply andb_true_iff in H1 as [Hlo%N.leb_le Hhi%N.leb_le].
  assert (128 ≤ lo)%N as Hlo' by (unfold lo; repeat case_match; lia).
  assert ((128 <=? byte_of c1)%N = true) as H1b by (apply N.leb_le; lia).
  destruct (N.ltb_spec (byte_of c) 224); [simpl; rewrite Hcb, H1b; split; [lia|done]|].
  destruct s as [|c2 s]; [simpl; rewrite Hcb; by split; [lia|]|].
  destruct (in_range 128 191 (byte_of c2)) eqn:H2; [|simpl; rewrite Hcb; by split; [lia|]]. cbn [negb].
  unfold in_range in H2. apply andb_true_iff in H2 as [H2a%N.leb_le H2b%N.leb_le].
  assert ((128 <=? byte_of c2)%N = true) as H2c by (apply N.leb_le; lia).
  destruct (N.ltb_spec (byte_of c) 240).
  { simpl. rewrite Hcb, H1b, H2c. split; [|done]. subst lo. destruct (N.eqb_spec (byte_of c) 224); lia. }
  destruct s as [|c3 s]; [simpl; rewrite Hcb; by split; [lia|]|].
  destruct (in_range 128 191 (byte_of c3)) eqn:H3; [|simpl; rewrite Hcb; by split; [lia|]]. cbn [negb].
  unfold in_range in H3. apply andb_true_iff in H3 as [H3a%N.leb_le H3b%N.leb_le].
  assert ((128 <=? byte_of c3)%N = true) as H3c by (apply N.leb_le; lia).
  simpl. rewrite Hcb, H1b, H2c, H3c. split; [|done]. subst lo.
  destruct (N.eqb_spec (byte_of c) 224); [lia|]. destruct (N.eqb_spec (byte_of c) 240); lia.
Qed.

Lemma high_unseparated s : all_bytes (λ c, (128 <=? byte_of c)%N) s = true → unseparated s.
Proof.
  unfold unseparated. induction s as [|c s IH]; [done|]. simpl. intros [Hc%N.leb_le Hs]%andb_true_iff.
  rewrite IH by done. destruct (separates (byte_of c)) eqn:E; [|done]. apply Hascii in E. lia.
Qed.

Lemma fields_loop_bytes fuel current s :
  (String.length s ≤ fuel)%nat → fields_loop fuel separates current s = byte_fields current s.
Proof.
  revert current s. induction fuel as [|fuel IH]; intros current s Hfuel; (destruct s as [|c s]; [done|]); [simpl in Hfuel; lia|].
  cbn [fields_loop]. destruct (N.lt_ge_cases (byte_of c) 128) as [Hlow|Hhigh].
  - rewrite decode_ascii by done. cbn [str_drop str_take byte_fields]. simpl in Hfuel.
    destruct (separates (byte_of c)); [f_equal; apply IH; lia|apply IH; lia].
  - destruct (decode_high c s Hhigh) as [Hr Hbytes]. pose proof (decode_width (String c s) ltac:(done)) as Hw.
    destruct (decode_rune (String c s)) as [r w]. cbn [fst snd] in *.
    destruct (separates r) eqn:E; [apply Hascii in E; lia|].
    rewrite IH by (rewrite length_str_drop; simpl in *; lia).
    rewrite <- (byte_fields_skip _ _ _ (high_unseparated _ Hbytes)). by rewrite str_take_drop.
Qed.

Definition good_field (s : string) : Prop := s ≠ "" ∧ unseparated s.

Lemma byte_fields_good current s : unseparated current → Forall good_field (byte_fields current s).
Proof.
  assert (∀ t, unseparated t → Forall good_field (emit t)) as Hemit.
  { intros t Ht. unfold emit. case_decide; [constructor|]. by repeat constructor. }
  revert current. induction s as [|c s IH]; intros current Hc; simpl; [by apply Hemit|].
  destruct (separates (byte_of c)) eqn:E.
  - apply Forall_app. split; [by apply Hemit|by apply IH].
  - apply IH. unfold unseparated in *. rewrite all_bytes_app, Hc. simpl. by rewrite E.
Qed.

Lemma fields_func_good s : Forall good_field (fields_func separates s).
Proof. unfold fields_func. rewrite fields_loop_bytes by done. by apply byte_fields_good. Qed.

(** Fields survive being joined with a separator. *)
Lemma fields_join c l : separates (byte_of c) = true → Forall good_field l → fields_func separates (join l (str1 c)) = l.
Proof.
  intros Hsep Hl. unfold fields_func. rewrite fields_loop_bytes by done.
  assert (∀ s, good_field s → emit s = [s]) as Hemit by (intros s [? _]; unfold emit; by rewrite decide_False).
  induction Hl as [|s l [Hne Hs] Hl IH]; [done|]. destruct l as [|t l].
  - cbn [join]. rewrite <- (str_app_nil_r s) at 1. rewrite byte_fields_skip by done. by apply Hemit.
  - rewrite join_cons_ne by done. rewrite byte_fields_skip by done. change ("" +:+ s) with s.
    change (str1 c +:+ join (t :: l) (str1 c)) with (String c (join (t :: l) (str1 c))).
    cbn [byte_fields]. rewrite Hsep, IH. by rewrite Hemit.
Qed.
End fields.

(** ** Build tags *)

Lemma tag_separator_ascii r : tag_separator r = true → (r < 128)%N.
Proof. unfold tag_separator. intros [->%N.eqb_eq| ->%N.eqb_eq]%orb_true_iff; lia. Qed.

Definition good_tag : string → Prop := good_field tag_separator.
Definition value_tags (value : string) : gset string := list_to_set (fields_func tag_separator value).

Lemma addTagValue_eq tags value : addTagValue tags value = value_tags value ∪ tags.
Proof.
  unfold addTagValue, value_tags.
  assert (Forall (λ t, t ≠ "") (fields_func tag_separator value)) as Hne.
  { eapply Forall_impl; [apply fields_func_good, tag_separator_ascii|]. by intros t [? _]. }
  revert tags. induction Hne as [|t l Ht Hl IH]; intros tags; simpl; [set_solver|].
  rewrite decide_False, IH by done. set_solver.
Qed.

Lemma value_tags_good value t : t ∈ value_tags value → good_tag t.
Proof.
  unfold value_tags. rewrite elem_of_list_to_set. intros Ht.
  pose proof (fields_func_good tag_separator tag_separator_ascii value) as Hall. rewrite Forall_forall in Hall. by apply Hall.
Qed.

(** The tags a list of fields selects. *)
Definition field_tags : list string → gset string := addTagsFromFields ∅.
(** The tags a list of build flags selects, and the other flags. *)
Definition flag_tags (flags : list string) : gset string := (analysisFlags ∅ flags).1.
Definition other_flags (flags : list string) : list string := (analysisFlags ∅ flags).2.

(** The list ends with a -tags flag that has no value. *)
Fixpoint dangling (flags : list string) : bool :=
  match flags with
  | [] => false
  | flag :: rest =>
    if decide (flag = "-tags") then match rest with [] => true | _ :: rest => dangling rest end else dangling rest
  end.

(** Induction over a list, one or two elements at a time. *)
Lemma list_two_ind {A} (P : list A → Prop) :
  P [] → (∀ x, P [x]) → (∀ x y l, P l → P (y :: l) → P (x :: y :: l)) → ∀ l, P l.
Proof.
  intros Hnil Hone Htwo l. enough (P l ∧ ∀ x, P (x :: l)) as [? _] by done.
  induction l as [|y l [IH IH']]; [by split|]. split; [by apply IH'|]. intros x. apply Htwo; [done|by apply IH'].
Qed.

Lemma analysisFlags_cons tags flag rest :
  flag ≠ "-tags" →
  analysisFlags tags (flag :: rest) =
    if has_prefix flag "-tags=" then analysisFlags (addTagValue tags (trim_prefix flag "-tags=")) rest
    else ((analysisFlags tags rest).1, flag :: (analysisFlags tags rest).2).
Proof.
  intros Hf. cbn [analysisFlags]. destruct (decide (flag = "-tags")); [done|].
  destruct (has_prefix flag "-tags="); [done|]. by destruct (analysisFlags tags rest).
Qed.

Lemma analysisFlags_pair tags value rest :
  analysisFlags tags ("-tags" :: value :: rest) = analysisFlags (addTagValue tags value) rest.
Proof. done. Qed.

Lemma analysisFlags_eq tags flags : analysisFlags tags flags = (flag_tags flags ∪ tags, other_flags flags).
Proof.
  unfold flag_tags, other_flags. revert tags. induction flags as [|flag|flag value rest IH IH'] using list_two_ind; intros tags.
  - simpl. f_equal. set_solver.
  - destruct (decide (flag = "-tags")) as [->|Hf]; [simpl; f_equal; set_solver|].
    rewrite !analysisFlags_cons by done.
    destruct (has_prefix flag "-tags="); simpl; rewrite ?addTagValue_eq; f_equal; set_solver.
  - destruct (decide (flag = "-tags")) as [->|Hf].
    + rewrite !analysisFlags_pair, !addTagValue_eq, (IH (value_tags value ∪ ∅)), (IH (value_tags value ∪ tags)).
      cbn [fst snd]. f_equal. set_solver.
    + rewrite !(analysisFlags_cons _ flag) by done. destruct (has_prefix flag "-tags=").
      * rewrite !addTagValue_eq, (IH' (_ ∪ ∅)), (IH' (_ ∪ tags)). cbn [fst snd]. f_equal. set_solver.
      * by rewrite (IH' tags).
Qed.

Lemma flag_tags_cons flag rest :
  flag ≠ "-tags" →
  flag_tags (flag :: rest) = (if has_prefix flag "-tags=" then value_tags (trim_prefix flag "-tags=") else ∅) ∪ flag_tags rest.
Proof.
  intros Hf. unfold flag_tags at 1. rewrite analysisFlags_cons by done. case_match; [|unfold flag_tags; set_solver].
  rewrite addTagValue_eq, analysisFlags_eq. simpl. set_solver.
Qed.

Lemma flag_tags_pair value rest : flag_tags ("-tags" :: value :: rest) = value_tags value ∪ flag_tags rest.
Proof. unfold flag_tags at 1. rewrite analysisFlags_pair, addTagValue_eq, analysisFlags_eq. simpl. set_solver. Qed.

Lemma flag_tags_good flags t : t ∈ flag_tags flags → good_tag t.
Proof.
  induction flags as [|flag|flag value rest IH IH'] using list_two_ind.
  - by intros ?%elem_of_empty.
  - destruct (decide (flag = "-tags")) as [->|Hf]; [by intros ?%elem_of_empty|].
    rewrite flag_tags_cons by done. case_match; intros [Ht|Ht]%elem_of_union; try by apply elem_of_empty in Ht.
    by eapply value_tags_good.
  - destruct (decide (flag = "-tags")) as [->|Hf].
    + rewrite flag_tags_pair. intros [Ht|Ht]%elem_of_union; [by eapply value_tags_good|by apply IH].
    + rewrite flag_tags_cons by done. intros [Ht|Ht]%elem_of_union; [|by apply IH'].
      case_match; [by eapply value_tags_good|by apply elem_of_empty in Ht].
Qed.

Lemma field_tags_good tags items t :
  (∀ t, t ∈ tags → good_tag t) → t ∈ addTagsFromFields tags items → good_tag t.
Proof.
  assert (∀ tags value, (∀ t, t ∈ tags → good_tag t) → ∀ t, t ∈ addTagValue tags value → good_tag t) as Hadd.
  { intros tags' value Htags t'. rewrite addTagValue_eq. intros [?|?]%elem_of_union; [by eapply value_tags_good|by apply Htags]. }
  revert tags. induction items as [|flag|flag value rest IH IH'] using list_two_ind; intros tags Htags; [by apply Htags| |].
  - cbn [addTagsFromFields]. destruct (decide (flag = "-tags")), (has_prefix flag "-tags=");
      first [by apply Htags|intros Ht; eapply Hadd; [exact Htags|exact Ht]].
  - destruct (decide (flag = "-tags")) as [->|Hf].
    + change (addTagsFromFields tags ("-tags" :: value :: rest)) with (addTagsFromFields (addTagValue tags value) rest).
      apply IH. by apply Hadd.
    + assert (addTagsFromFields tags (flag :: value :: rest) =
        addTagsFromFields (if has_prefix flag "-tags=" then addTagValue tags (trim_prefix flag "-tags=") else tags) (value :: rest)) as ->.
      { remember (value :: rest) as l. cbn [addTagsFromFields]. destruct (decide (flag = "-tags")); [done|]. by case_match. }
      apply IH'. case_match; [by apply Hadd|done].
Qed.

(** Flags that select no tags. *)
Definition no_tags (flag : string) : Prop := flag ≠ "-tags" ∧ has_prefix flag "-tags=" = false.

Lemma other_flags_no_tags flags : dangling flags = false → Forall no_tags (other_flags flags).
Proof.
  unfold other_flags. induction flags as [|flag|flag value rest IH IH'] using list_two_ind.
  - by constructor.
  - cbn [dangling]. case_decide as Hf; [done|]. intros _. rewrite analysisFlags_cons by done.
    case_match; constructor; [by split|constructor].
  - destruct (decide (flag = "-tags")) as [->|Hf].
    + rewrite analysisFlags_pair, analysisFlags_eq. apply IH.
    + assert (dangling (flag :: value :: rest) = dangling (value :: rest)) as ->.
      { remember (value :: rest) as l. cbn [dangling]. by rewrite decide_False. }
      intros Hd. rewrite analysisFlags_cons by done. case_match; [by rewrite analysisFlags_eq; apply IH'|].
      constructor; [by split|by apply IH'].
Qed.

Lemma analysisFlags_no_tags tags flags rest :
  Forall no_tags flags → analysisFlags tags (flags ++ rest) = ((analysisFlags tags rest).1, flags ++ (analysisFlags tags rest).2).
Proof.
  intros Hf. induction Hf as [|flag flags [Hne Hp] Hf IH]; [cbn [app]; by destruct (analysisFlags tags rest)|].
  rewrite <- app_comm_cons, analysisFlags_cons, Hp, IH by done. done.
Qed.

Lemma analysisFlags_tags tags l :
  Forall good_tag l → analysisFlags tags ["-tags=" +:+ join l ","] = (list_to_set l ∪ tags, []).
Proof.
  intros Hl. rewrite analysisFlags_cons by (intros Heq; discriminate Heq).
  rewrite (has_prefix_app "-tags="), (trim_prefix_app "-tags="), addTagValue_eq. unfold value_tags.
  by rewrite (fields_join tag_separator tag_separator_ascii ","%char).
Qed.

(** ** The environment *)

Section theorems.
Context `{UnicodeTables} `{CaseFold} `{Process} `{StyleConfigurations}.

Lemma addTagsFromFields_eq tags items : addTagsFromFields tags items = field_tags items ∪ tags.
Proof.
  unfold field_tags. revert tags. induction items as [|flag|flag value rest IH IH'] using list_two_ind; intros tags.
  - simpl. set_solver.
  - cbn [addTagsFromFields].
    destruct (decide (flag = "-tags")), (has_prefix flag "-tags="); rewrite ?addTagValue_eq; set_solver.
  - destruct (decide (flag = "-tags")) as [->|Hf].
    + assert (∀ tags, addTagsFromFields tags ("-tags" :: value :: rest) = addTagsFromFields (addTagValue tags value) rest) as Hpair by done.
      rewrite !Hpair, !addTagValue_eq, (IH (_ ∪ ∅)), (IH (_ ∪ tags)). set_solver.
    + assert (∀ tags, addTagsFromFields tags (flag :: value :: rest) =
        addTagsFromFields (if has_prefix flag "-tags=" then addTagValue tags (trim_prefix flag "-tags=") else tags) (value :: rest)) as Hcons.
      { intros tags'. remember (value :: rest) as l. cbn [addTagsFromFields]. destruct (decide (flag = "-tags")); [done|]. by case_match. }
      rewrite !Hcons. case_match; [|apply IH']. rewrite !addTagValue_eq, (IH' (_ ∪ ∅)), (IH' (_ ∪ tags)). set_solver.
Qed.

Lemma AnalysisBuildTag_good : good_tag AnalysisBuildTag.
Proof. split; [done|by vm_compute]. Qed.

(** The build flags of an analysis select the tag of the analysis, the tags of
    GOFLAGS and the tags of the flags that were given, and keep the other flags
    in order: reading the flags that are written gives back exactly these tags. *)
Theorem build_tags_round_trip options :
  dangling (lo_BuildFlags options) = false →
  let flags := lo_BuildFlags (withAnalysisBuildTag options) in
  flag_tags flags =
    {[AnalysisBuildTag]} ∪ field_tags (fields (goFlags (lo_Env options))) ∪ flag_tags (lo_BuildFlags options) ∧
  other_flags flags = other_flags (lo_BuildFlags options) ∧
  flags = other_flags (lo_BuildFlags options) ++ ["-tags=" +:+ join (sort_strings (elements (flag_tags flags))) ","].
Proof.
  intros Hd flags. set (tags := {[AnalysisBuildTag]} ∪ field_tags (fields (goFlags (lo_Env options))) ∪ flag_tags (lo_BuildFlags options)).
  assert (flags = other_flags (lo_BuildFlags options) ++ ["-tags=" +:+ join (sort_strings (elements tags)) ","]) as Hflags.
  { unfold flags, withAnalysisBuildTag, addTagsFromFlags. rewrite analysisFlags_eq, addTagsFromFields_eq. simpl.
    do 6 f_equal. set_solver. }
  assert (Forall good_tag (sort_strings (elements tags))) as Hgood.
  { apply Forall_forall. intros t. unfold sort_strings. rewrite sort_stable_perm, elem_of_elements.
    intros [[->%elem_of_singleton|Ht]%elem_of_union|Ht]%elem_of_union; [apply AnalysisBuildTag_good| |by eapply flag_tags_good].
    eapply field_tags_good; [|exact Ht]. by intros t' ?%elem_of_empty. }
  assert (analysisFlags ∅ flags = (tags, other_flags (lo_BuildFlags options))) as Hread.
  { rewrite Hflags, analysisFlags_no_tags by by apply other_flags_no_tags. rewrite analysisFlags_tags by done. simpl.
    rewrite app_nil_r. f_equal. apply set_eq. intros t.
    rewrite elem_of_union, elem_of_list_to_set. unfold sort_strings. rewrite sort_stable_perm, elem_of_elements. set_solver. }
  assert (flag_tags flags = tags ∧ other_flags flags = other_flags (lo_BuildFlags options)) as [Htags Hother]
    by by unfold flag_tags, other_flags; rewrite Hread.
  by rewrite Htags, Hother.
Qed.

(** The variable is set once, to the value. *)
Definition setting (environment : list string) (name value : string) : Prop :=
  filter (λ entry, sets name entry = true) environment = [name +:+ "=" +:+ value].

Definition fold_key (name : string) : list N := fold_rune ∘ fst <$> runes name.

Lemma cut_setting name value : contains_byte name "=" = false → cut (name +:+ "=" +:+ value) "=" = (name, value, true).
Proof. apply cut_byte. Qed.

Lemma sets_setting name other value :
  contains_byte other "=" = false → sets name (other +:+ "=" +:+ value) = bool_decide (fold_key other = fold_key name).
Proof. intros Hn. unfold sets. by rewrite cut_setting. Qed.

(** A name that can be set. *)
Definition variable (name : string) : Prop := contains_byte name "=" = false.

Lemma remove_sets environment name : filter (λ entry, sets name entry = true) (removeEnvironment environment name) = [].
Proof.
  apply elem_of_nil_inv. intros e [He [Hne _]%list_elem_of_filter]%list_elem_of_filter. congruence.
Qed.

Lemma replace_setting environment name value : variable name → setting (replaceEnvironment environment name value) name value.
Proof.
  intros Hn. unfold setting, replaceEnvironment. rewrite filter_app, remove_sets. simpl.
  rewrite filter_cons_True; [done|]. rewrite sets_setting by done. by apply bool_decide_eq_true.
Qed.

(** What is set stays set, unless the same variable is removed. *)
Lemma remove_keeps environment name value other :
  variable name → fold_key name ≠ fold_key other → setting environment name value →
  setting (removeEnvironment environment other) name value.
Proof.
  intros Hn Hne Hs. unfold setting, removeEnvironment in *.
  assert (∀ l : list string, filter (λ e, sets name e = true) (filter (λ e, sets other e = false) l) =
    filter (λ e, sets other e = false) (filter (λ e, sets name e = true) l)) as ->.
  { intros l. induction l as [|x l IH]; [done|].
    destruct (sets name x) eqn:E1, (sets other x) eqn:E2; repeat (rewrite ?filter_cons, ?E1, ?E2; simpl); congruence. }
  rewrite Hs, filter_cons_True; [done|]. rewrite sets_setting by done. by apply bool_decide_eq_false.
Qed.

Lemma replace_keeps environment name value other value' :
  variable name → variable other → (fold_key name = fold_key other → name = other ∧ value = value') →
  setting environment name value → setting (replaceEnvironment environment other value') name value.
Proof.
  intros Hn Ho Hsame Hs. destruct (decide (fold_key name = fold_key other)) as [Heq|Hne].
  - destruct (Hsame Heq) as [-> ->]. by apply replace_setting.
  - unfold setting, replaceEnvironment. rewrite filter_app, (remove_keeps _ _ value) by done.
    rewrite filter_cons_False; [done|]. rewrite sets_setting by done. rewrite bool_decide_eq_true. congruence.
Qed.

Definition replaceAll : list string → list (string * string) → list string :=
  foldl (λ environment setting, replaceEnvironment environment setting.1 setting.2).

(** Settings that may be made after one of a variable without changing it. *)
Definition agrees (name value : string) (settings : list (string * string)) : Prop :=
  ∀ other value', (other, value') ∈ settings → variable other ∧ (fold_key name = fold_key other → name = other ∧ value = value').

Lemma replaceAll_keeps environment settings name value :
  variable name → agrees name value settings → setting environment name value → setting (replaceAll environment settings) name value.
Proof.
  intros Hn. revert environment. induction settings as [|[other value'] settings IH]; intros environment Hag Hs; [done|].
  destruct (Hag other value') as [Ho Hsame]; [by left|]. apply IH.
  - intros o v Hin. apply Hag. by right.
  - by apply replace_keeps.
Qed.

Lemma replaceAll_settings environment settings name value :
  variable name → agrees name value settings → (name, value) ∈ settings → setting (replaceAll environment settings) name value.
Proof.
  intros Hn. revert environment. induction settings as [|[other value'] settings IH]; intros environment Hag Hin; [by apply elem_of_nil in Hin|].
  assert (agrees name value settings) as Hag' by (intros o v Ho; apply Hag; by right).
  apply elem_of_cons in Hin as [[= <- <-]|Hin].
  - change (setting (replaceAll (replaceEnvironment environment name value) settings) name value).
    apply replaceAll_keeps; [done..|]. by apply replace_setting.
  - by apply IH.
Qed.

Definition render (entry : string * string) : string := entry.1 +:+ "=" +:+ entry.2.

Lemma render_setting settings name value :
  (∀ name, name ∈ settings.*1 → variable name) → NoDup (fold_key <$> settings.*1) → (name, value) ∈ settings →
  setting (render <$> settings) name value.
Proof.
  unfold setting. induction settings as [|[other value'] settings IH]; [by intros _ _ ?%elem_of_nil|].
  simpl. intros Hvar [Hno Hnd]%NoDup_cons Hin.
  assert (variable other) as Hother by (apply Hvar; left).
  assert (∀ n v, (n, v) ∈ settings → fold_key n ≠ fold_key other) as Hdiff.
  { intros n v Hn Heq. apply Hno. rewrite <- Heq. apply list_elem_of_fmap_2. by apply (list_elem_of_fmap_2 fst) in Hn. }
  unfold render at 1. simpl. apply elem_of_cons in Hin as [[= <- <-]|Hin].
  - rewrite filter_cons_True by by rewrite sets_setting; [apply bool_decide_eq_true|].
    f_equal. apply elem_of_nil_inv. intros e [Hs ([n v] & -> & Hn)%list_elem_of_fmap]%list_elem_of_filter.
    unfold render in Hs. simpl in Hs. rewrite sets_setting in Hs.
    + apply bool_decide_eq_true in Hs. by eapply Hdiff.
    + apply Hvar. right. by apply (list_elem_of_fmap_2 fst) in Hn.
  - rewrite filter_cons_False.
    + apply IH; [|done..]. intros n Hn. apply Hvar. by right.
    + rewrite sets_setting, bool_decide_eq_true by done. intros Heq. by apply (Hdiff name value Hin).
Qed.

Lemma removed environment names name :
  name ∈ names → filter (λ entry, sets name entry = true) (foldl removeEnvironment environment names) = [].
Proof.
  assert (∀ environment names, filter (λ entry, sets name entry = true) environment = [] →
    filter (λ entry, sets name entry = true) (foldl removeEnvironment environment names) = []) as Hstays.
  { clear. intros environment names. revert environment. induction names as [|n names IH]; intros environment He; [done|].
    apply IH. apply elem_of_nil_inv. intros e [Hs [_ Hin]%list_elem_of_filter]%list_elem_of_filter.
    assert (e ∈ filter (λ entry, sets name entry = true) environment) as Hf by by apply list_elem_of_filter.
    rewrite He in Hf. by apply elem_of_nil in Hf. }
  revert environment. induction names as [|n names IH]; intros environment; [by intros ?%elem_of_nil|].
  intros [->|Hin]%elem_of_cons; [cbn [foldl]; by apply Hstays, remove_sets|by apply IH].
Qed.

(** The settings an analysis must have. *)
Definition required (request : normalizedRequest) : list (string * string) :=
  [("GOPROXY", "off")] ++
  (if bool_decide (nr_mode request = AnalysisGenerate) || nr_generationInventory request then generationSettings else []) ++
  match nr_selection request with Some selection => selectionSettings selection | None => [] end.

Ltac names := 
  repeat match goal with
  | Hin : _ ∈ _ :: _ |- _ => apply elem_of_cons in Hin as [Hin|Hin]
  | Hin : _ ∈ [] |- _ => by apply elem_of_nil in Hin
  | Hin : _ = _ |- _ => injection Hin as -> ->
  end.

Lemma generation_agrees name value settings :
  settings = generationSettings ∨ settings = [("GOPROXY", "off")] →
  (name, value) ∈ generationSettings → variable name ∧ agrees name value settings.
Proof.
  intros Hsettings Hin. unfold generationSettings in *.
  split; [names; done|]. intros other value' Ho.
  destruct Hsettings as [-> | ->]; unfold generationSettings in *; names; (split; [done|]); intros Hkey; first [done|vm_compute in Hkey; discriminate Hkey].
Qed.

Lemma selection_agrees selection name value settings :
  settings = generationSettings ∨ settings = [("GOPROXY", "off")] →
  (name, value) ∈ selectionSettings selection → variable name ∧ agrees name value settings.
Proof.
  intros Hsettings Hin. unfold selectionSettings in *. 
  split; [names; done|]. intros other value' Ho.
  destruct Hsettings as [-> | ->]; unfold generationSettings in *; names; (split; [done|]); intros Hkey; first [done|vm_compute in Hkey; discriminate Hkey].
Qed.

(** Flags that select no module mode. *)
Definition no_mod (flag : string) : Prop := flag ≠ "-mod" ∧ has_prefix flag "-mod=" = false.

Lemma withoutModFlags_no_mod flags : Forall no_mod (withoutModFlags flags).
Proof.
  induction flags as [|flag|flag value rest IH IH'] using list_two_ind; [constructor|..].
  - cbn [withoutModFlags]. case_decide; [constructor|]. case_match; repeat constructor; done.
  - destruct (decide (flag = "-mod")) as [->|Hf]; [exact IH|].
    assert (withoutModFlags (flag :: value :: rest) =
      if has_prefix flag "-mod=" then withoutModFlags (value :: rest) else flag :: withoutModFlags (value :: rest)) as ->.
    { remember (value :: rest) as l. cbn [withoutModFlags]. by rewrite decide_False. }
    case_match; [exact IH'|]. constructor; [by split|exact IH'].
Qed.

Lemma selection_environment options selection name value :
  (name, value) ∈ selectionSettings selection →
  setting (environment_of (exactStyleSelectionOptions options selection)) name value.
Proof.
  intros Hin. assert (environment_of (exactStyleSelectionOptions options selection) =
    foldl removeEnvironment (environment_of options) selectionVariables ++ (render <$> selectionSettings selection)) as ->.
  { change (environment_of (exactStyleSelectionOptions options selection)) with
      (foldl removeEnvironment (environment_of options) selectionVariables ++
       ((λ '(name, value), name +:+ "=" +:+ value) <$> selectionSettings selection)). f_equal. }
  unfold setting. rewrite filter_app, removed.
  - cbn [app].
    apply render_setting; [..|done].
    + intros n Hn. unfold selectionSettings in Hn. cbn in Hn. names; by subst.
    + apply (bool_decide_unpack _). vm_compute. exact I.
  - unfold selectionSettings, selectionVariables in *. clear -Hin. names; by apply (bool_decide_unpack _); vm_compute.
Qed.

Lemma build_tag_environment options : environment_of (withAnalysisBuildTag options) = environment_of options.
Proof. unfold withAnalysisBuildTag. by destruct (analysisFlags _ _). Qed.

(** C26. Whatever the service and the request are, an analysis resolves modules
    offline: GOPROXY is set to off and set once, exactly one flag selects the
    module mode, vendor or readonly, and an analysis that generates, or one of a
    build selection, sets every variable that pins the toolchain once and to the
    value it must have, whatever the environment held before. *)
Theorem analysis_options_hermetic loadOptions entrypoints starters request :
  let options := analysisLoadOptions loadOptions entrypoints starters request in
  (∃ environment, lo_Env options = Some environment ∧
     ∀ name value, (name, value) ∈ required request → setting environment name value) ∧
  ∃ flags mode, lo_BuildFlags options = flags ++ ["-mod=" +:+ mode] ∧ mode ∈ ["vendor"; "readonly"] ∧ Forall no_mod flags.
Proof.
  unfold analysisLoadOptions. cbv zeta.
  set (base := mkOptions (nr_root request) _ _ _ _ _ _ _).
  set (selected := match nr_selection request with Some s => exactStyleSelectionOptions base s | None => base end).
  set (tagged := if bool_decide (nr_mode request = AnalysisGenerate) || nr_generatedEntrypoint request then _ else selected).
  assert (environment_of tagged = environment_of selected) as Htagged.
  { unfold tagged. case_match; [by rewrite build_tag_environment|done]. }
  set (generating := bool_decide (nr_mode request = AnalysisGenerate) || nr_generationInventory request).
  set (exact := if generating then exactGenerationEnvironment tagged else tagged).
  assert (environment_of exact = if generating then replaceAll (environment_of selected) generationSettings else environment_of selected) as Hexact.
  { unfold exact. destruct generating; [|done]. unfold exactGenerationEnvironment. by rewrite Htagged. }
  set (promoted := mkOptions _ _ _ _ _ _ _ _). assert (environment_of promoted = environment_of exact) as Hpromoted by done.
  clearbody promoted. unfold withOfflineModuleResolution. cbn [lo_Env lo_BuildFlags set_lo_Env set_lo_BuildFlags]. split.
  - eexists. split; [done|]. intros name value Hin. rewrite Hpromoted, Hexact.
    change (replaceEnvironment ?e "GOPROXY" "off") with (replaceAll e [("GOPROXY", "off")]).
    apply elem_of_app in Hin as [Hin|[Hin|Hin]%elem_of_app].
    + names. by apply replace_setting.
    + fold generating in Hin. destruct generating; [|by apply elem_of_nil in Hin].
      destruct (generation_agrees name value generationSettings (or_introl eq_refl) Hin) as [Hvar Hag].
      destruct (generation_agrees name value [("GOPROXY", "off")] (or_intror eq_refl) Hin) as [_ Hag'].
      apply replaceAll_keeps; [done..|]. by apply replaceAll_settings.
    + destruct (nr_selection request) as [selection|] eqn:Hselection; [|by apply elem_of_nil in Hin].
      destruct (selection_agrees selection name value generationSettings (or_introl eq_refl) Hin) as [Hvar Hag].
      destruct (selection_agrees selection name value [("GOPROXY", "off")] (or_intror eq_refl) Hin) as [_ Hag'].
      pose proof (selection_environment base selection name value Hin) as Hset.
      apply replaceAll_keeps; [done..|]. destruct generating; [by apply replaceAll_keeps|done].
  - eexists _, _. split_and!; [done| |apply withoutModFlags_no_mod]. unfold OfflineMode.
    destruct (VendorRoot _ _); [left|right; left].
Qed.
End theorems.

(** ** Applied *)

#[local] Existing Instance ascii_tables.
#[local] Existing Instance ascii_fold.
#[local] Instance sample_process : Process :=
  {| os_Environ := ["PATH=/bin"; "GOFLAGS=-race -tags=integration"; "goproxy=https://proxy.example"];
     os_GOFLAGS := "-race -tags=integration"; VendorRoot := λ _ _, true |}.

Definition sample_options : Options :=
  mkOptions "" None ["-tags"; "web,spice_generate"; "-trimpath"; "-mod=mod"] ∅ [] false false false.

Lemma build_tags_round_trip_witness :
  lo_BuildFlags (withAnalysisBuildTag sample_options) =
    ["-trimpath"; "-mod=mod"; "-tags=integration,spice_generate,web"] ∧
  other_flags (lo_BuildFlags (withAnalysisBuildTag sample_options)) = ["-trimpath"; "-mod=mod"].
Proof.
  split; [vm_compute; reflexivity|].
  destruct (build_tags_round_trip sample_options eq_refl) as (_ & Hother & _). rewrite Hother. vm_compute. reflexivity.
Defined.
