(* ===== verification/ServiceSession.v ===== *)
(** The sessions of package [compiler/service] (service.go): the state a
    [Service] keeps under its lock, and [Analyze] as the steps of concurrent
    requests between the sections that hold the lock.

    The analysis itself is a parameter, a relation between a request and its
    outcome; so is the digest of a request, the SHA-256 of its JSON. *)
From S2P Require Import Prelude GoSort GoStrings GoUrl ServiceRequest.

(** ** The state of a service *)

(** [Result]: its sequence, and all the rest. *)
Class Analyses `{StyleConfigurations} := {
  body : Type;
  analysis : normalizedRequest → outcome error body → Prop;
  digest : normalizedRequest → outcome error string;
}.

Definition ErrStaleAnalysis : error := ErrSentinel "spice analysis request is stale".

Section service.
Context `{StyleConfigurations} `{!Analyses}.

Record Result := mkResult { rs_sequence : N; rs_body : body }.

(** [runningRequest]: the context is that of a request, which has a number. *)
Record runningRequest := mkRunning { rr_sequence : N; rr_cancel : nat }.

Record Service := mkService {
  sv_cache : gmap string Result;
  sv_order : list string;
  sv_latest : gmap string N;
  sv_running : gmap string runningRequest;
}.
Definition initialService : Service := mkService ∅ [] ∅ ∅.

Definition workspace_key (request : normalizedRequest) : string := normalizedWorkspaceKey (nr_root request).
Definition latest (service : Service) (request : normalizedRequest) : N :=
  default 0%N (sv_latest service !! workspace_key request).

(** [begin]: the new state and the context it cancels; [None] is
    [ErrStaleAnalysis]. *)
Definition begin (id : nat) (request : normalizedRequest) (service : Service) : option (Service * option nat) :=
  let sequence := nr_sequence request in
  let key := workspace_key request in
  if (sequence =? 0)%N then Some (service, None)
  else if (sequence <? latest service request)%N then None
  else
    Some (mkService (sv_cache service) (sv_order service) (<[key := sequence]> (sv_latest service))
            (<[key := mkRunning sequence id]> (sv_running service)),
          rr_cancel <$> sv_running service !! key).

Definition finish (request : normalizedRequest) (service : Service) : Service :=
  let key := workspace_key request in
  if (nr_sequence request =? 0)%N then service
  else
    match sv_running service !! key with
    | Some running =>
      if (rr_sequence running =? nr_sequence request)%N
      then mkService (sv_cache service) (sv_order service) (sv_latest service) (delete key (sv_running service))
      else service
    | None => service
    end.

Definition rejectStale (request : normalizedRequest) (service : Service) : outcome error () :=
  if (nr_sequence request =? 0)%N then Ok ()
  else guard_or (negb (nr_sequence request <? latest service request)%N) ErrStaleAnalysis.

(** ** The cache *)

(** [touch] moves a key to the end of the order. *)
Definition touch (key : string) (order : list string) : list string :=
  match list_find (λ item, item = key) order with
  | Some (index, _) => delete index order ++ [key]
  | None => order
  end.

Definition cached (key : string) (service : Service) : option Result * Service :=
  match sv_cache service !! key with
  | None => (None, service)
  | Some result =>
    (Some result, mkService (sv_cache service) (touch key (sv_order service)) (sv_latest service) (sv_running service))
  end.

(** The last loop of [store]. *)
Fixpoint evict (maximum : Z) (cache : gmap string Result) (order : list string) : gmap string Result * list string :=
  match order with
  | [] => (cache, [])
  | oldest :: rest =>
    if (maximum <? Z.of_nat (length order))%Z then evict maximum (delete oldest cache) rest else (cache, order)
  end.

Definition store (maximum : Z) (key : string) (result : Result) (service : Service) : Service :=
  if bool_decide (is_Some (sv_cache service !! key)) then
    mkService (<[key := result]> (sv_cache service)) (touch key (sv_order service)) (sv_latest service)
      (sv_running service)
  else
    let '(cache, order) := evict maximum (<[key := result]> (sv_cache service)) (sv_order service ++ [key]) in
    mkService cache order (sv_latest service) (sv_running service).

(** [cacheKey]; [None] when the request is not cacheable. *)
Definition cacheKey (config : serviceConfig) (request : normalizedRequest) : outcome error (option string) :=
  if (sc_maxCacheEntries config =? 0)%Z || negb (sc_cacheExtensions config) || bool_decide (nr_content request = "")
  then Ok None
  else key ← digest request; Ok (Some key).

(** ** Analyze *)

(** Where a request stands: after [begin], with a result of the cache, about to
    be analysed, analysed, with a result that is not stale, about to finish, and
    returned. *)
Inductive phase :=
  | Begun
  | Hit (result : Result)
  | Missed (key : option string)
  | Analysed (key : option string) (answer : outcome error Result)
  | Accepted (key : option string) (result : Result)
  | Finishing (answer : outcome error Result)
  | Returned (answer : outcome error Result).

Definition with_sequence (sequence : N) (result : Result) : Result := mkResult sequence (rs_body result).

(** The next section of [Analyze], but for the analysis. *)
Definition advance (config : serviceConfig) (request : normalizedRequest) (p : phase) (service : Service)
    : option (Service * phase) :=
  match p with
  | Begun =>
    match cacheKey config request with
    | Fail err => Some (service, Finishing (Fail err))
    | Ok None => Some (service, Missed None)
    | Ok (Some key) =>
      let '(found, service) := cached key service in
      Some (service, match found with Some result => Hit result | None => Missed (Some key) end)
    end
  | Hit result =>
    match rejectStale request service with
    | Fail err => Some (service, Finishing (Fail err))
    | Ok _ => Some (service, Finishing (Ok (with_sequence (nr_sequence request) result)))
    end
  | Missed _ => None
  | Analysed key answer =>
    match rejectStale request service, answer with
    | Fail err, _ | Ok _, Fail err => Some (service, Finishing (Fail err))
    | Ok _, Ok result => Some (service, Accepted key result)
    end
  | Accepted key result =>
    Some (match key with Some key => store (sc_maxCacheEntries config) key result service | None => service end,
          Finishing (Ok result))
  | Finishing answer => Some (finish request service, Returned answer)
  | Returned _ => None
  end.

(** The requests by their number, and the contexts that are cancelled. *)
Record session := mkSession {
  se_service : Service;
  se_requests : gmap nat (normalizedRequest * phase);
  se_cancelled : gset nat;
}.
Definition initialSession : session := mkSession initialService ∅ ∅.

Definition returned (p : phase) : bool := match p with Returned _ => true | _ => false end.

Inductive step (config : serviceConfig) : session → session → Prop :=
  | step_begin w id request service previous :
      se_requests w !! id = None → begin id request (se_service w) = Some (service, previous) →
      step config w (mkSession service (<[id := (request, Begun)]> (se_requests w))
        (match previous with Some other => {[other]} ∪ se_cancelled w | None => se_cancelled w end))
  | step_stale w id request :
      se_requests w !! id = None → begin id request (se_service w) = None →
      step config w (mkSession (se_service w)
        (<[id := (request, Returned (Fail ErrStaleAnalysis))]> (se_requests w)) ({[id]} ∪ se_cancelled w))
  | step_analyse w id request key answer :
      se_requests w !! id = Some (request, Missed key) → analysis request answer →
      step config w (mkSession (se_service w)
        (<[id := (request, Analysed key (match answer with
                                         | Ok body => Ok (mkResult (nr_sequence request) body)
                                         | Fail err => Fail err
                                         end))]> (se_requests w)) (se_cancelled w))
  | step_advance w id request p service p' :
      se_requests w !! id = Some (request, p) → advance config request p (se_service w) = Some (service, p') →
      step config w (mkSession service (<[id := (request, p')]> (se_requests w))
        (if returned p' then {[id]} ∪ se_cancelled w else se_cancelled w))
  | step_cancel w id : (* the caller's context *)
      step config w (mkSession (se_service w) (se_requests w) ({[id]} ∪ se_cancelled w)).

Definition reachable (config : serviceConfig) : session → Prop := rtc (step config) initialSession.
End service.

(** ** The cache is a list of bounded length, least recently used first *)

Section cache.
Context `{StyleConfigurations} `{!Analyses}.

#[local] Notation recency_list := (list (string * Result)).
Definition lru_get (key : string) (l : recency_list) : option Result * recency_list :=
  match list_find (λ entry, entry.1 = key) l with
  | Some (index, entry) => (Some entry.2, delete index l ++ [entry])
  | None => (None, l)
  end.
Definition lru_put (maximum : Z) (key : string) (result : Result) (l : recency_list) : recency_list :=
  let l := filter (λ entry, entry.1 ≠ key) l ++ [(key, result)] in
  drop (length l - Z.to_nat maximum) l.

(** What the service keeps as such a list. *)
Definition recency (service : Service) : recency_list :=
  omap (λ key, pair key <$> sv_cache service !! key) (sv_order service).

Record cache_ok (maximum : Z) (service : Service) : Prop := {
  order_distinct : NoDup (sv_order service);
  order_keys key : key ∈ sv_order service ↔ is_Some (sv_cache service !! key);
  order_bound : (Z.of_nat (length (sv_order service)) ≤ maximum)%Z;
}.

Definition entries (cache : gmap string Result) : list string → recency_list := omap (λ key, pair key <$> cache !! key).

Lemma entries_cons cache key l :
  entries cache (key :: l) = option_list (pair key <$> cache !! key) ++ entries cache l.
Proof. unfold entries. simpl. by destruct (cache !! key). Qed.

Lemma entries_app cache l k : entries cache (l ++ k) = entries cache l ++ entries cache k.
Proof. apply omap_app. Qed.

Lemma entries_keys cache key entry l : entry ∈ entries cache l → entry.1 = key → key ∈ l.
Proof.
  unfold entries. intros (k & Hk & (r & Hr & ->)%fmap_Some)%list_elem_of_omap <-. done.
Qed.

Lemma entries_ext cache cache' l : (∀ key, key ∈ l → cache !! key = cache' !! key) → entries cache l = entries cache' l.
Proof.
  induction l as [|key l IH]; intros Hext; [done|]. rewrite !entries_cons, Hext by by left.
  rewrite IH; [done|]. intros k Hk. apply Hext. by right.
Qed.

Lemma length_entries cache l : (∀ key, key ∈ l → is_Some (cache !! key)) → length (entries cache l) = length l.
Proof.
  induction l as [|key l IH]; intros Hall; [done|]. rewrite entries_cons.
  destruct (Hall key) as [r ->]; [by left|]. simpl. rewrite IH; [done|]. intros k Hk. apply Hall. by right.
Qed.

Lemma touch_split key l k : key ∉ l → touch key (l ++ key :: k) = l ++ k ++ [key].
Proof.
  intros Hl. unfold touch. assert (list_find (λ item, item = key) (l ++ key :: k) = Some (length l, key)) as ->.
  { apply list_find_Some. split_and!; [by apply list_lookup_middle|done|].
    intros j y Hj Hlt ->. apply Hl. rewrite lookup_app_l in Hj by done. by eapply list_elem_of_lookup_2. }
  cbn [snd]. rewrite delete_middle. by rewrite app_assoc.
Qed.

Lemma lru_get_split key result (l k : recency_list) :
  (∀ entry, entry ∈ l → entry.1 ≠ key) →
  lru_get key (l ++ (key, result) :: k) = (Some result, l ++ k ++ [(key, result)]).
Proof.
  intros Hl. unfold lru_get.
  assert (list_find (λ entry, entry.1 = key) (l ++ (key, result) :: k) = Some (length l, (key, result))) as ->.
  { apply list_find_Some. split_and!; [by apply list_lookup_middle|done|].
    intros j y Hj Hlt Hy. rewrite lookup_app_l in Hj by done. by eapply Hl; [eapply list_elem_of_lookup_2|]. }
  cbn [snd]. rewrite delete_middle. by rewrite app_assoc.
Qed.

Lemma lru_get_none key (l : recency_list) : (∀ entry, entry ∈ l → entry.1 ≠ key) → lru_get key l = (None, l).
Proof.
  intros Hl. unfold lru_get. assert (list_find (λ entry, entry.1 = key) l = None) as ->; [|done].
  apply list_find_None, Forall_forall. intros e He. by apply Hl.
Qed.

Lemma other_entries key (l : recency_list) :
  (∀ entry, entry ∈ l → entry.1 ≠ key) → filter (λ entry, entry.1 ≠ key) l = l.
Proof.
  induction l as [|e l IH]; intros Hl; [done|]. rewrite filter_cons_True by (apply Hl; by left).
  rewrite IH; [done|]. intros x Hx. apply Hl. by right.
Qed.

(** A key in the cache splits the order. *)
Lemma cached_split maximum service key result :
  cache_ok maximum service → sv_cache service !! key = Some result →
  ∃ l k, sv_order service = l ++ key :: k ∧ key ∉ l ∧ key ∉ k ∧
    recency service = entries (sv_cache service) l ++ (key, result) :: entries (sv_cache service) k.
Proof.
  intros [Hnd Hkeys _] Hr. assert (key ∈ sv_order service) as (l & k & Hsplit)%list_elem_of_split by (apply Hkeys; by eexists).
  rewrite Hsplit in Hnd. apply NoDup_app in Hnd as (_ & Hl & [Hk _]%NoDup_cons). exists l, k. split_and!; [done| |done|].
  - intros Hin. apply (Hl key Hin). by left.
  - unfold recency. rewrite Hsplit. fold (entries (sv_cache service)). by rewrite entries_app, entries_cons, Hr.
Qed.

Lemma not_key key cache l : key ∉ l → ∀ entry, entry ∈ entries cache l → entry.1 ≠ key.
Proof. intros Hl entry He Heq. by apply Hl, (entries_keys cache key entry). Qed.

Lemma touch_ok maximum service key result cache :
  cache_ok maximum service → sv_cache service !! key = Some result →
  (∀ k, is_Some (cache !! k) ↔ is_Some (sv_cache service !! k)) →
  cache_ok maximum (mkService cache (touch key (sv_order service)) (sv_latest service) (sv_running service)).
Proof.
  intros Hok Hr Hdom. destruct (cached_split _ _ _ _ Hok Hr) as (l & k & Hsplit & Hl & Hk & _).
  destruct Hok as [Hnd Hkeys Hbound]. assert (sv_order service ≡ₚ touch key (sv_order service)) as Hp.
  { rewrite Hsplit, touch_split by done. apply Permutation_app_head, Permutation_cons_append. }
  split; cbn [sv_order sv_cache].
  - by rewrite <- Hp.
  - intros k'. by rewrite <- Hp, Hdom.
  - by rewrite <- Hp.
Qed.

Lemma cached_ok maximum service key : cache_ok maximum service → cache_ok maximum (cached key service).2.
Proof.
  intros Hok. unfold cached. destruct (sv_cache service !! key) as [r|] eqn:Hr; [|done]. by eapply touch_ok.
Qed.

Lemma cached_recency maximum service key :
  cache_ok maximum service →
  (cached key service).1 = (lru_get key (recency service)).1 ∧
  recency (cached key service).2 = (lru_get key (recency service)).2.
Proof.
  intros Hok. unfold cached. destruct (sv_cache service !! key) as [r|] eqn:Hr.
  - destruct (cached_split _ _ _ _ Hok Hr) as (l & k & Hsplit & Hl & Hk & ->).
    rewrite lru_get_split by by apply not_key. split; [done|]. unfold recency. cbn [sv_order sv_cache snd].
    fold (entries (sv_cache service)). rewrite Hsplit, touch_split by done.
    by rewrite !entries_app, entries_cons, Hr.
  - rewrite lru_get_none; [done|]. apply not_key. rewrite (order_keys _ _ Hok), Hr. by intros [].
Qed.

Lemma evict_drop maximum cache order :
  (0 ≤ maximum)%Z → NoDup order →
  (evict maximum cache order).2 = drop (length order - Z.to_nat maximum) order ∧
  ∀ k, (evict maximum cache order).1 !! k =
    if decide (k ∈ take (length order - Z.to_nat maximum) order) then None else cache !! k.
Proof.
  intros Hmax. revert cache. induction order as [|oldest rest IH]; intros cache Hnd; [done|].
  apply NoDup_cons in Hnd as [Hno Hnd]. cbn [evict]. destruct (Z.ltb_spec maximum (Z.of_nat (length (oldest :: rest)))) as [Hlt|Hle].
  - simpl in Hlt. replace (length (oldest :: rest) - Z.to_nat maximum)%nat with (S (length rest - Z.to_nat maximum)) by (simpl; lia).
    destruct (IH (delete oldest cache) Hnd) as [-> Hlook]. split; [done|]. intros k. rewrite Hlook. cbn [take].
    destruct (decide (k = oldest)) as [->|Hne].
    + rewrite lookup_delete_eq. rewrite (decide_True (P := oldest ∈ oldest :: _)) by by left. by case_decide.
    + rewrite lookup_delete_ne by done. destruct (decide (k ∈ take _ rest)) as [Hin|Hin].
      * by rewrite decide_True by by right.
      * by rewrite decide_False by by intros [?|?]%elem_of_cons.
  - replace (length (oldest :: rest) - Z.to_nat maximum)%nat with 0%nat by lia. split; [done|]. intros k. by rewrite decide_False by by intros ?%elem_of_nil.
Qed.

Lemma drop_entries n cache l :
  (∀ key, key ∈ l → is_Some (cache !! key)) → entries cache (drop n l) = drop n (entries cache l).
Proof.
  revert n. induction l as [|key l IH]; intros n Hall; [by destruct n|].
  destruct n as [|n]; [done|]. destruct (Hall key) as [r Hr]; [by left|].
  rewrite entries_cons, Hr. change (entries cache (drop n l) = drop n (entries cache l)).
  apply IH. intros k Hk. apply Hall. by right.
Qed.

Lemma store_refines maximum key result service :
  (0 ≤ maximum)%Z → cache_ok maximum service →
  recency (store maximum key result service) = lru_put maximum key result (recency service) ∧
  cache_ok maximum (store maximum key result service).
Proof.
  intros Hmax Hok. unfold store. destruct (sv_cache service !! key) as [old|] eqn:Hold.
  - rewrite bool_decide_eq_true_2 by done. destruct (cached_split _ _ _ _ Hok Hold) as (l & k & Hsplit & Hl & Hk & Hrec). split.
    + rewrite Hrec. unfold lru_put. rewrite filter_app, (filter_cons_False _ (key, old)) by naive_solver.
      rewrite !other_entries by by apply not_key. unfold recency. cbn [sv_order sv_cache].
      fold (entries (<[key:=result]> (sv_cache service))). rewrite Hsplit, touch_split, !entries_app, entries_cons by done.
      rewrite lookup_insert_eq. rewrite (entries_ext _ (sv_cache service) l), (entries_ext _ (sv_cache service) k).
      2, 3: intros k' Hk'; rewrite lookup_insert_ne; [done|]; by intros ->.
      rewrite <- app_assoc. match goal with |- context [drop ?n _] => replace n with 0%nat; [done|] end.
      pose proof (order_bound _ _ Hok) as Hb. rewrite Hsplit, length_app in Hb. simpl in Hb.
      rewrite !length_app, !length_entries; [simpl; lia|..]; intros k' Hk'; apply (order_keys _ _ Hok); rewrite Hsplit;
        apply elem_of_app; [right; by right|by left].
    + eapply touch_ok; [done..|]. intros k'. destruct (decide (k' = key)) as [->|Hne].
      * rewrite lookup_insert_eq, Hold. by split.
      * by rewrite lookup_insert_ne.
  - rewrite bool_decide_eq_false_2 by by intros []. destruct Hok as [Hnd Hkeys Hbound].
    assert (key ∉ sv_order service) as Hno by (rewrite Hkeys, Hold; by intros []).
    set (order := sv_order service ++ [key]). set (cache := <[key:=result]> (sv_cache service)).
    assert (NoDup order) as Hndo.
    { apply NoDup_app. split_and!; [done| |apply NoDup_singleton]. by intros k' Hk' ->%list_elem_of_singleton. }
    assert (∀ k', k' ∈ order ↔ is_Some (cache !! k')) as Hdom.
    { intros k'. unfold order, cache. rewrite elem_of_app, list_elem_of_singleton, lookup_insert_is_Some', Hkeys. naive_solver. }
    destruct (evict_drop maximum cache order Hmax Hndo) as [Horder Hlook].
    destruct (evict maximum cache order) as [cache' order'] eqn:Hev. cbn [fst snd] in *. subst order'.
    set (n := (length order - Z.to_nat maximum)%nat) in *.
    assert (∀ k', k' ∈ drop n order → k' ∉ take n order) as Hdisj.
    { intros k' Hd Ht. rewrite <- (take_drop n order) in Hndo. apply NoDup_app in Hndo as (_ & Hd' & _). by apply (Hd' k'). }
    split.
    + unfold recency, lru_put. cbn [sv_order sv_cache]. fold (entries cache') (entries (sv_cache service)).
      rewrite (entries_ext cache' cache) by (intros k' Hk'; rewrite Hlook, decide_False; [done|by apply Hdisj]).
      rewrite drop_entries by (intros k' Hk'; by apply Hdom). rewrite other_entries by by apply not_key.
      assert (entries cache order = entries (sv_cache service) (sv_order service) ++ [(key, result)]) as Heq.
      { unfold order, cache. rewrite entries_app, entries_cons, lookup_insert_eq. f_equal. apply entries_ext.
        intros k' Hk'. rewrite lookup_insert_ne; [done|]. by intros ->. }
      rewrite <- Heq. f_equal. rewrite length_entries by (intros k' Hk'; by apply Hdom). done.
    + split; cbn [sv_order sv_cache].
      * rewrite <- (take_drop n order) in Hndo. by apply NoDup_app in Hndo as (_ & _ & ?).
      * intros k'. rewrite Hlook. rewrite <- (take_drop n order) in Hdom. specialize (Hdom k'). rewrite elem_of_app in Hdom.
        case_decide as Ht; [split; [intros Hd; by destruct (Hdisj k')|by intros []]|]. naive_solver.
      * rewrite length_drop. unfold n. lia.
Qed.
End cache.

(** ** Invariants of the sessions *)

Section sessions.
Context `{StyleConfigurations} `{!Analyses} (config : serviceConfig).

Lemma reachable_invariant (P : session → Prop) :
  P initialSession → (∀ w w', reachable config w → P w → step config w w' → P w') → ∀ w, reachable config w → P w.
Proof.
  intros Hinit Hstep w Hw. refine (rtc_ind_r P initialSession Hinit _ w Hw). intros y z Hy Hs IH. by eapply Hstep.
Qed.

(** What a section does to the state. *)
Lemma advance_service request p service service' p' :
  advance config request p service = Some (service', p') →
  sv_latest service' = sv_latest service ∧
  (returned p' = false ∧ sv_running service' = sv_running service ∨
   ∃ answer, p = Finishing answer ∧ p' = Returned answer ∧ service' = finish request service).
Proof.
  assert (∀ key, sv_latest (cached key service).2 = sv_latest service ∧ sv_running (cached key service).2 = sv_running service) as Hcached.
  { intros key. unfold cached. by destruct (sv_cache service !! key). }
  assert (∀ maximum key r, sv_latest (store maximum key r service) = sv_latest service ∧
    sv_running (store maximum key r service) = sv_running service) as Hstore.
  { intros maximum key r. unfold store. case_bool_decide; [done|]. by destruct (evict _ _ _). }
  assert (sv_latest (finish request service) = sv_latest service) as Hfinish.
  { unfold finish. repeat case_match; done. }
  destruct p as [|r|key|key answer|key r|answer|answer]; simpl.
  - destruct (cacheKey config request) as [[key|]|err]; [|intros [= <- <-]; auto..].
    pose proof (Hcached key) as [Hl Hr]. destruct (cached key service) as [found s]. intros [= <- <-].
    split; [done|]. left. split; [by destruct found|done].
  - destruct (rejectStale request service); intros [= <- <-]; auto.
  - done.
  - destruct (rejectStale request service), answer; intros [= <- <-]; auto.
  - intros [= <- <-]. destruct key as [key|]; [|auto]. destruct (Hstore (sc_maxCacheEntries config) key r); auto.
  - intros [= <- <-]. split; [done|]. right. by exists answer.
  - done.
Qed.

Lemma latest_eq service service' request : sv_latest service' = sv_latest service → latest service' request = latest service request.
Proof. intros Hl. unfold latest. by rewrite Hl. Qed.

Lemma latest_begin id request service service' previous other :
  begin id request service = Some (service', previous) →
  (latest service other ≤ latest service' other)%N ∧
  (workspace_key other = workspace_key request → nr_sequence request ≤ latest service' other)%N.
Proof.
  unfold begin. destruct (N.eqb_spec (nr_sequence request) 0) as [Hz|Hz]; [intros [= <- <-]; split; [done|lia]|].
  destruct (N.ltb_spec (nr_sequence request) (latest service request)) as [Hlt|Hle]; [done|]. intros [= <- _].
  unfold latest in *. cbn [sv_latest]. destruct (decide (workspace_key other = workspace_key request)) as [Heq|Hne].
  - rewrite Heq, lookup_insert_eq in *. simpl. split; [done|lia].
  - rewrite lookup_insert_ne by done. split; [done|congruence].
Qed.

(** The number a workspace is at bounds the requests it has seen. *)
Lemma latest_bounds w :
  reachable config w → ∀ id request p, se_requests w !! id = Some (request, p) →
  (nr_sequence request ≤ latest (se_service w) request)%N.
Proof.
  apply (reachable_invariant (λ w, ∀ id request p, se_requests w !! id = Some (request, p) →
    (nr_sequence request ≤ latest (se_service w) request)%N)); [intros ? ? ? Hr; by destruct (lookup_empty_Some _ _ Hr)|].
  clear w. intros w w' _ IH Hstep id' request' p'. destruct Hstep as [w id request s previous Hid Hb|w id request Hid Hb|w id request key answer Hid Ha|w id request p s p'' Hid Hadv|w id];
    cbn [se_requests se_service]; [rewrite lookup_insert_Some.. |apply IH].
  - destruct (latest_begin _ _ _ _ _ request' Hb) as [Hmono Hbound].
    intros [[_ [= <- <-]]|[_ Hr]]; [by apply Hbound|]. etrans; [by eapply IH|done].
  - intros [[_ [= <- <-]]|[_ Hr]]; [|by eapply IH]. unfold begin in Hb.
    destruct (nr_sequence request =? 0)%N; [done|]. destruct (N.ltb_spec (nr_sequence request) (latest (se_service w) request)); [lia|done].
  - intros [[_ [= <- <-]]|[_ Hr]]; by eapply IH.
  - apply advance_service in Hadv as [Hl _]. rewrite (latest_eq _ _ _ Hl). intros [[_ [= <- <-]]|[_ Hr]]; by eapply IH.
Qed.

(** It is the number of a request. *)
Lemma latest_attained w :
  reachable config w → ∀ key n, sv_latest (se_service w) !! key = Some n →
  ∃ id request p, se_requests w !! id = Some (request, p) ∧ workspace_key request = key ∧ nr_sequence request = n.
Proof.
  apply (reachable_invariant (λ w, ∀ key n, sv_latest (se_service w) !! key = Some n →
    ∃ id request p, se_requests w !! id = Some (request, p) ∧ workspace_key request = key ∧ nr_sequence request = n));
    [intros ? ? Hr; by destruct (lookup_empty_Some _ _ Hr)|].
  clear w. intros w w' _ IH Hstep key' n.
  assert (∀ id request p, (∀ request' p', se_requests w !! id = Some (request', p') → request' = request) →
    sv_latest (se_service w) !! key' = Some n →
    ∃ id' request' p', <[id := (request, p)]> (se_requests w) !! id' = Some (request', p') ∧
      workspace_key request' = key' ∧ nr_sequence request' = n) as Hkeep.
  { intros id request p Hsame (id' & request' & p' & Hr & Hk & Hn)%IH. destruct (decide (id = id')) as [<-|Hne].
    - exists id, request, p. rewrite lookup_insert_eq. by rewrite <- (Hsame _ _ Hr).
    - exists id', request', p'. by rewrite lookup_insert_ne. }
  destruct Hstep as [w id request s previous Hid Hb|w id request Hid Hb|w id request key answer Hid Ha|w id request p s p'' Hid Hadv|w id];
    cbn [se_requests se_service].
  - assert (∀ request' p', se_requests w !! id = Some (request', p') → request' = request) as Hsame by by rewrite Hid.
    unfold begin in Hb. repeat case_match; simplify_eq/=; [by apply Hkeep|].
    rewrite lookup_insert_Some. intros [[<- <-]|[_ Hr]]; [|by apply Hkeep].
    exists id, request, Begun. by rewrite lookup_insert_eq.
  - apply Hkeep. by rewrite Hid.
  - apply Hkeep. rewrite Hid. by intros ? ? [= <- <-].
  - apply advance_service in Hadv as [-> _]. apply Hkeep. rewrite Hid. by intros ? ? [= <- <-].
  - apply IH.
Qed.

(** The request goes on after a step. *)
Lemma requests_grow w w' id request p :
  step config w w' → se_requests w !! id = Some (request, p) → ∃ p', se_requests w' !! id = Some (request, p').
Proof.
  assert (∀ other request' p', (∀ request'' p'', se_requests w !! other = Some (request'', p'') → request'' = request') →
    se_requests w !! id = Some (request, p) → ∃ p'', <[other := (request', p')]> (se_requests w) !! id = Some (request, p'')) as Hins.
  { intros other request' p' Hsame Hid. destruct (decide (other = id)) as [->|Hne].
    - rewrite lookup_insert_eq. rewrite (Hsame _ _ Hid). by eexists.
    - rewrite lookup_insert_ne by done. by eexists. }
  intros Hstep. destruct Hstep as [w id0 request0 s previous Hid Hb|w id0 request0 Hid Hb|w id0 request0 key answer Hid Ha|w id0 request0 p0 s p'' Hid Hadv|w id0];
    cbn [se_requests]; [apply Hins; rewrite Hid; try done; by intros ? ? [= <- <-]..|]. intros ?. by eexists.
Qed.

(** The running request of a workspace is the one that began last. *)
Definition running_request (w : session) (key : string) (r : runningRequest) : Prop :=
  sv_latest (se_service w) !! key = Some (rr_sequence r) ∧ rr_sequence r ≠ 0%N ∧
  ∃ request p, se_requests w !! rr_cancel r = Some (request, p) ∧ returned p = false ∧
    workspace_key request = key ∧ nr_sequence request = rr_sequence r.

Lemma running_insert w key r id request p service cancelled :
  running_request w key r → sv_latest service !! key = sv_latest (se_service w) !! key →
  (rr_cancel r = id → se_requests w !! id = None ∨ returned p = false ∧ ∃ p0, se_requests w !! id = Some (request, p0)) →
  running_request (mkSession service (<[id := (request, p)]> (se_requests w)) cancelled) key r.
Proof.
  intros (Hl & Hz & request' & p' & Hr & Hp & Hk & Hs) Hlatest Hid. split; cbn [se_service se_requests]; [by rewrite Hlatest|].
  split; [done|]. destruct (decide (rr_cancel r = id)) as [Heq|Hne].
  - destruct (Hid Heq) as [Hnone|[Hp' [p0 Hr']]]; rewrite Heq in *; [congruence|]. rewrite Hr in Hr'. injection Hr' as <- <-.
    exists request', p. by rewrite lookup_insert_eq.
  - exists request', p'. by rewrite lookup_insert_ne.
Qed.

Lemma finish_running request service key r :
  sv_running (finish request service) !! key = Some r →
  sv_running service !! key = Some r ∧
  (key = workspace_key request → nr_sequence request = 0%N ∨ rr_sequence r ≠ nr_sequence request).
Proof.
  unfold finish. destruct (N.eqb_spec (nr_sequence request) 0); [intros ?; split; [done|by left]|].
  destruct (sv_running service !! workspace_key request) as [r'|] eqn:Hr'; [|intros Hr; split; [done|]; by intros ->; rewrite Hr in Hr'].
  destruct (N.eqb_spec (rr_sequence r') (nr_sequence request)) as [Heq|Hne]; cbn [sv_running].
  - rewrite lookup_delete_Some. intros [Hk Hr]. split; [done|]. by intros ->.
  - intros Hr. split; [done|]. intros ->. right. by rewrite Hr in Hr'; injection Hr' as ->.
Qed.

Lemma finish_keeps request service key r :
  sv_running service !! key = Some r →
  (workspace_key request = key → nr_sequence request ≠ 0%N → rr_sequence r ≠ nr_sequence request) →
  sv_running (finish request service) !! key = Some r.
Proof.
  intros Hr Hne. unfold finish. destruct (N.eqb_spec (nr_sequence request) 0); [done|].
  destruct (sv_running service !! workspace_key request) as [r'|] eqn:Hr'; [|done].
  destruct (N.eqb_spec (rr_sequence r') (nr_sequence request)); [|done]. cbn [sv_running].
  apply lookup_delete_Some. split; [|done]. intros Hk. rewrite Hk, Hr in Hr'. injection Hr' as ->. by apply Hne.
Qed.

Lemma running_inv w :
  reachable config w → ∀ key r, sv_running (se_service w) !! key = Some r → running_request w key r.
Proof.
  apply (reachable_invariant (λ w, ∀ key r, sv_running (se_service w) !! key = Some r → running_request w key r));
    [intros ? ? Hr; by destruct (lookup_empty_Some _ _ Hr)|].
  clear w. intros w w' _ IH Hstep key r.
  destruct Hstep as [w id request s previous Hid Hb|w id request Hid Hb|w id request key' answer Hid Ha|w id request p s p'' Hid Hadv|w id];
    cbn [se_requests se_service].
  - unfold begin in Hb. repeat case_match; simplify_eq/=;
      [intros Hr; apply running_insert; [by apply IH|done|by left]..| |];
      (rewrite lookup_insert_Some; intros [[<- <-]|[Hne Hr]];
        [|apply running_insert; [by apply IH|cbn; by rewrite lookup_insert_ne|by left]]);
      (split_and!; cbn; [by rewrite lookup_insert_eq|by apply N.eqb_neq|]; exists request, Begun; by rewrite lookup_insert_eq).
  - intros Hr. apply running_insert; [by apply IH|done|by left].
  - intros Hr. apply running_insert; [by apply IH|done|]. intros _. right. split; [done|]. by eexists.
  - apply advance_service in Hadv as [Hl [[Hp' ->]|(answer & -> & -> & ->)]].
    + intros Hr. apply running_insert; [by apply IH|by rewrite Hl|]. intros _. right. split; [done|]. by eexists.
    + intros [Hr Hkeep]%finish_running. pose proof (IH _ _ Hr) as Hrun. apply running_insert; [done|by rewrite Hl|].
      intros Heq. exfalso. destruct Hrun as (_ & Hz & request' & p' & Hreq & _ & Hk & Hs). rewrite Heq, Hid in Hreq.
      injection Hreq as <- <-. destruct (Hkeep (eq_sym Hk)); congruence.
  - apply IH.
Qed.

(** ** Live requests *)

(** No number is used twice in a workspace. *)
Definition distinct (w : session) : Prop :=
  ∀ id id' request request' p p', se_requests w !! id = Some (request, p) → se_requests w !! id' = Some (request', p') →
    workspace_key request = workspace_key request' → nr_sequence request = nr_sequence request' →
    nr_sequence request ≠ 0%N → id = id'.

(** A request under way whose context is not cancelled. *)
Definition live (w : session) (id : nat) (request : normalizedRequest) : Prop :=
  (∃ p, se_requests w !! id = Some (request, p) ∧ returned p = false) ∧ id ∉ se_cancelled w.

Lemma distinct_before w w' : step config w w' → distinct w' → distinct w.
Proof.
  intros Hstep Hd id id' request request' p p' Hr Hr'.
  destruct (requests_grow _ _ _ _ _ Hstep Hr) as [q Hq], (requests_grow _ _ _ _ _ Hstep Hr') as [q' Hq'].
  by apply (Hd id id' request request' q q').
Qed.

Lemma live_inv w :
  reachable config w → distinct w → ∀ id request, live w id request → nr_sequence request ≠ 0%N →
  sv_running (se_service w) !! workspace_key request = Some (mkRunning (nr_sequence request) id).
Proof.
  apply (reachable_invariant (λ w, distinct w → ∀ id request, live w id request → nr_sequence request ≠ 0%N →
    sv_running (se_service w) !! workspace_key request = Some (mkRunning (nr_sequence request) id)));
    [intros _ ? ? [(p & Hr & _) _]; by destruct (lookup_empty_Some _ _ Hr)|].
  clear w. intros w w' _ IH Hstep Hd id' request' [(p' & Hr & Hp') Hcancel] Hz.
  pose proof (distinct_before _ _ Hstep Hd) as Hdw. specialize (IH Hdw).
  destruct Hstep as [w id request s previous Hid Hb|w id request Hid Hb|w id request key' answer Hid Ha|w id request p s p'' Hid Hadv|w id];
    cbn [se_requests se_service se_cancelled] in *.
  - apply lookup_insert_Some in Hr as [[-> [= <- <-]]|[Hne Hr]].
    + unfold begin in Hb. apply N.eqb_neq in Hz. rewrite Hz in Hb. repeat case_match; simplify_eq/=; by rewrite lookup_insert_eq.
    + assert (live w id' request') as Hlive by (split; [by exists p'|]; by destruct previous; set_solver).
      specialize (IH id' request' Hlive Hz). unfold begin in Hb. repeat case_match; simplify_eq/=; try done.
      all: destruct (decide (workspace_key request' = workspace_key request)) as [Heq|Hk];
        [rewrite Heq in IH|by rewrite lookup_insert_ne].
      all: rewrite IH in *; simplify_eq/=; set_solver.
  - apply lookup_insert_Some in Hr as [[-> [= <- <-]]|[Hne Hr]]; [done|]. apply IH; [|done]. split; [by exists p'|set_solver].
  - apply lookup_insert_Some in Hr as [[-> [= <- <-]]|[Hne Hr]]; apply IH; try done; (split; [|done]); by eexists.
  - assert (returned p = false) as Hp by by destruct p.
    apply advance_service in Hadv as [_ [[Hret ->]|(answer & -> & -> & ->)]].
    + rewrite Hret in Hcancel. apply lookup_insert_Some in Hr as [[-> [= <- <-]]|[Hne Hr]]; apply IH; try done; (split; [|done]);
        by eexists.
    + apply lookup_insert_Some in Hr as [[-> [= <- <-]]|[Hne Hr]]; [done|]. apply finish_keeps.
      * apply IH; [|done]. split; [by exists p'|set_solver].
      * cbn [rr_sequence]. intros Hk _ Heq. apply Hne. by apply (Hdw id id' request request' (Finishing answer) p'); [..|congruence].
  - apply IH; [|done]. split; [by exists p'|set_solver].
Qed.

(** When no number is used twice in a workspace, at most one request of the
    workspace is under way without its context cancelled, and it is the one with
    the largest number. *)
Theorem one_live_request w id id' request request' :
  reachable config w → distinct w → live w id request → live w id' request' →
  workspace_key request = workspace_key request' → nr_sequence request ≠ 0%N → nr_sequence request' ≠ 0%N →
  id = id' ∧ ∀ other other_request p, se_requests w !! other = Some (other_request, p) →
    workspace_key other_request = workspace_key request → (nr_sequence other_request ≤ nr_sequence request)%N.
Proof.
  intros Hw Hd Hlive Hlive' Hk Hz Hz'. pose proof (live_inv w Hw Hd id request Hlive Hz) as Hr.
  pose proof (live_inv w Hw Hd id' request' Hlive' Hz') as Hr'. rewrite <- Hk, Hr in Hr'. split; [congruence|].
  intros other other_request p Ho Hok. pose proof (latest_bounds w Hw other other_request p Ho) as Hb.
  destruct (running_inv w Hw _ _ Hr) as (Hl & _). unfold latest in Hb. by rewrite Hok, Hl in Hb.
Qed.

(** When every request has returned, the service holds no running request:
    the map of running requests does not grow. *)
Lemma quiescent_running_empty w :
  reachable config w → (∀ id request p, se_requests w !! id = Some (request, p) → returned p = true) →
  sv_running (se_service w) = ∅.
Proof.
  intros Hw Hall. apply map_empty. intros key. apply eq_None_not_Some. intros [r Hr].
  destruct (running_inv w Hw key r Hr) as (_ & _ & request & p & Hreq & Hp & _). rewrite (Hall _ _ _ Hreq) in Hp. done.
Qed.

(** ** Stale results *)

(** The result a request is about to give out, before the last check. *)
Definition checked_result (p : phase) : option Result :=
  match p with
  | Hit result => Some result
  | Analysed _ (Ok result) => Some result
  | _ => None
  end.

(** A request of the workspace with a larger number has been made. *)
Definition overtaken (w : session) (request : normalizedRequest) : Prop :=
  nr_sequence request ≠ 0%N ∧ ∃ id request' p, se_requests w !! id = Some (request', p) ∧
    workspace_key request' = workspace_key request ∧ (nr_sequence request < nr_sequence request')%N.

Lemma rejectStale_exact w request :
  reachable config w →
  rejectStale request (se_service w) = Fail ErrStaleAnalysis ∧ overtaken w request ∨
  rejectStale request (se_service w) = Ok () ∧ ¬ overtaken w request.
Proof.
  intros Hw. unfold rejectStale, overtaken.
  destruct (N.eqb_spec (nr_sequence request) 0) as [Hz|Hz]; [right; split; [done|]; by intros [? _]|].
  destruct (N.ltb_spec (nr_sequence request) (latest (se_service w) request)) as [Hlt|Hle]; simpl.
  - left. split; [done|]. split; [done|]. unfold latest in Hlt.
    destruct (sv_latest (se_service w) !! workspace_key request) as [n|] eqn:Hn; simpl in Hlt; [|lia].
    destruct (latest_attained w Hw _ _ Hn) as (id & request' & p & Hr & Hk & <-). by exists id, request', p.
  - right. split; [done|]. intros (_ & id & request' & p & Hr & Hk & Hlt).
    pose proof (latest_bounds w Hw id request' p Hr) as Hb. unfold latest in *. rewrite Hk in Hb. lia.
Qed.

(** C25. A result, of the cache or of an analysis, is given out exactly when no
    request of the workspace with a larger number has been made by then; it is
    dropped with [ErrStaleAnalysis] otherwise, and only then. *)
Theorem overtaken_rejected w id request p result service p' :
  reachable config w → se_requests w !! id = Some (request, p) → checked_result p = Some result →
  advance config request p (se_service w) = Some (service, p') →
  (overtaken w request ↔ p' = Finishing (Fail ErrStaleAnalysis)) ∧
  (¬ overtaken w request →
     p' = Finishing (Ok (with_sequence (nr_sequence request) result)) ∨ ∃ key, p' = Accepted key result).
Proof.
  intros Hw Hid Hp Hadv.
  destruct (rejectStale_exact w request Hw) as [[Hrej Hover]|[Hrej Hover]];
    destruct p as [|r|key|key [r|err]|key r|answer|answer]; try done; simpl in *; rewrite Hrej in Hadv; simplify_eq/=;
    (split; [split; [done|]; by intros|]); try done; intros _; [by left|right; by eexists].
Qed.

(** ** Where results come from *)

(** An analysis of a request with the same key gave the body. *)
Definition from_key (key : string) (b : body) : Prop :=
  ∃ request, analysis request (Ok b) ∧ cacheKey config request = Ok (Some key).
Definition delivered (request : normalizedRequest) (result : Result) : Prop :=
  rs_sequence result = nr_sequence request ∧
  (analysis request (Ok (rs_body result)) ∨
   ∃ key, cacheKey config request = Ok (Some key) ∧ from_key key (rs_body result)).

Definition justified (request : normalizedRequest) (p : phase) : Prop :=
  match p with
  | Begun => True
  | Hit result => ∃ key, cacheKey config request = Ok (Some key) ∧ from_key key (rs_body result)
  | Missed key => cacheKey config request = Ok key
  | Analysed key answer => cacheKey config request = Ok key ∧ ∀ result, answer = Ok result →
      rs_sequence result = nr_sequence request ∧ analysis request (Ok (rs_body result))
  | Accepted key result => cacheKey config request = Ok key ∧ rs_sequence result = nr_sequence request ∧
      analysis request (Ok (rs_body result))
  | Finishing answer | Returned answer => ∀ result, answer = Ok result → delivered request result
  end.

Definition cache_justified (service : Service) : Prop :=
  ∀ key result, sv_cache service !! key = Some result → from_key key (rs_body result).

Lemma cached_justified key service :
  cache_justified service → cache_justified (cached key service).2 ∧
  ∀ result, (cached key service).1 = Some result → from_key key (rs_body result).
Proof.
  intros Hc. unfold cached. destruct (sv_cache service !! key) as [r|] eqn:Hr; simpl; [|done].
  split; [exact Hc|]. intros result [= <-]. by apply Hc.
Qed.

Lemma evict_subset maximum cache order key result :
  (evict maximum cache order).1 !! key = Some result → cache !! key = Some result.
Proof.
  revert cache. induction order as [|oldest rest IH]; intros cache; [done|]. cbn [evict].
  destruct (Z.ltb _ _); [|done]. intros [_ Hr]%IH%lookup_delete_Some. done.
Qed.

Lemma store_justified maximum key result service :
  cache_justified service → from_key key (rs_body result) → cache_justified (store maximum key result service).
Proof.
  intros Hc Hr. assert (∀ k r, <[key:=result]> (sv_cache service) !! k = Some r → from_key k (rs_body r)) as Hins.
  { intros k r [[<- <-]|[_ Hk]]%lookup_insert_Some; [done|by apply Hc]. }
  unfold store. case_bool_decide; [exact Hins|]. intros k r.
  pose proof (evict_subset maximum (<[key:=result]> (sv_cache service)) (sv_order service ++ [key]) k r) as Hsub.
  destruct (evict _ _ _) as [cache order]. intros Hk. by apply Hins, Hsub.
Qed.

Lemma finish_cache request service : sv_cache (finish request service) = sv_cache service.
Proof. unfold finish. repeat case_match; done. Qed.

Lemma advance_justified request p service service' p' :
  cache_justified service → justified request p → advance config request p service = Some (service', p') →
  cache_justified service' ∧ justified request p'.
Proof.
  intros Hc Hp. destruct p as [|r|key|key answer|key r|answer|answer]; simpl in *.
  - destruct (cacheKey config request) as [[key|]|err] eqn:Hkey; [|intros [= <- <-]; by split..].
    destruct (cached_justified key service Hc) as [Hc' Hr]. destruct (cached key service) as [found s]. intros [= <- <-].
    split; [done|]. destruct found as [r|]; simpl; [|done]. exists key. split; [done|]. by apply Hr.
  - destruct (rejectStale request service); intros [= <- <-]; (split; [done|]); simpl; [|done].
    intros result [= <-]. split; [done|]. by right.
  - done.
  - destruct Hp as [Hkey Hanswer].
    destruct (rejectStale request service), answer as [r|err]; intros [= <- <-]; (split; [done|]); simpl; try done.
    destruct (Hanswer r eq_refl). by split_and!.
  - destruct Hp as (Hkey & Hs & Ha). intros [= <- <-]. split.
    + destruct key as [key|]; [|done]. apply store_justified; [done|]. by exists request.
    + simpl. intros result [= <-]. split; [done|]. by left.
  - intros [= <- <-]. split; [|done]. unfold cache_justified. by rewrite finish_cache.
  - done.
Qed.

Lemma begin_cache id request service service' previous :
  begin id request service = Some (service', previous) →
  sv_cache service' = sv_cache service ∧ sv_order service' = sv_order service.
Proof. unfold begin. repeat case_match; intros; by simplify_eq/=. Qed.

Lemma justified_inv w :
  reachable config w → cache_justified (se_service w) ∧
  ∀ id request p, se_requests w !! id = Some (request, p) → justified request p.
Proof.
  apply (reachable_invariant (λ w, cache_justified (se_service w) ∧
    ∀ id request p, se_requests w !! id = Some (request, p) → justified request p)).
  { split; [intros ? ? Hr; by destruct (lookup_empty_Some _ _ Hr)|intros ? ? ? Hr; by destruct (lookup_empty_Some _ _ Hr)]. }
  clear w. intros w w' _ [IHc IHp] Hstep.
  destruct Hstep as [w id request s previous Hid Hb|w id request Hid Hb|w id request key answer Hid Ha|w id request p s p'' Hid Hadv|w id];
    cbn [se_requests se_service]; try (setoid_rewrite lookup_insert_Some).
  - split; [unfold cache_justified; by destruct (begin_cache _ _ _ _ _ Hb) as [-> _]|].
    intros id' request' p' [[_ [= <- <-]]|[_ Hr]]; [done|by eapply IHp].
  - split; [done|]. intros id' request' p' [[_ [= <- <-]]|[_ Hr]]; [done|by eapply IHp].
  - split; [done|]. intros id' request' p' [[_ [= <- <-]]|[_ Hr]]; [|by eapply IHp].
    pose proof (IHp _ _ _ Hid) as Hkey. simpl in *. split; [done|]. intros result Hresult.
    destruct answer as [b|err]; [|done]. by injection Hresult as <-.
  - destruct (advance_justified request p (se_service w) s p'' IHc (IHp _ _ _ Hid) Hadv) as [Hc Hp].
    split; [done|]. intros id' request' p' [[_ [= <- <-]]|[_ Hr]]; [done|by eapply IHp].
  - done.
Qed.

(** C24. Every result a request returns carries the number of that request and is
    what an analysis gave, an analysis of the request itself or, through the
    cache, of a request with the same key: root, target, mode, profile,
    patterns, overlay, options and content. *)
Theorem returned_result_justified w id request result :
  reachable config w → se_requests w !! id = Some (request, Returned (Ok result)) → delivered request result.
Proof. intros Hw Hid. destruct (justified_inv w Hw) as [_ Hp]. by apply (Hp _ _ _ Hid). Qed.

(** ** The cache of a session *)

Lemma finish_order request service : sv_order (finish request service) = sv_order service.
Proof. unfold finish. repeat case_match; done. Qed.

Lemma cache_ok_ext maximum service service' :
  sv_cache service' = sv_cache service → sv_order service' = sv_order service → cache_ok maximum service → cache_ok maximum service'.
Proof. intros Hc Ho [Hnd Hkeys Hb]. split; by rewrite ?Hc, ?Ho. Qed.

Lemma cache_inv w :
  (0 ≤ sc_maxCacheEntries config)%Z → reachable config w → cache_ok (sc_maxCacheEntries config) (se_service w).
Proof.
  intros Hmax. apply (reachable_invariant (λ w, cache_ok (sc_maxCacheEntries config) (se_service w))).
  { split; [constructor| |simpl; lia]. intros k. cbn. rewrite lookup_empty. split; [by intros ?%elem_of_nil|by intros [? [=]]]. }
  intros w' w'' _ IH Hstep. clear w.
  destruct Hstep as [w id request s previous Hid Hb|w id request Hid Hb|w id request key answer Hid Ha|w id request p s p'' Hid Hadv|w id];
    cbn [se_service]; try done.
  - destruct (begin_cache _ _ _ _ _ Hb). by eapply cache_ok_ext.
  - destruct p as [|r|key|key answer|key r|answer|answer]; simpl in Hadv.
    + destruct (cacheKey config request) as [[key|]|err]; [|by simplify_eq/=..].
      pose proof (cached_ok _ _ key IH) as Hc. destruct (cached key (se_service w)). by simplify_eq/=.
    + destruct (rejectStale _ _); by simplify_eq/=.
    + done.
    + destruct (rejectStale _ _), answer; by simplify_eq/=.
    + injection Hadv as <- <-. destruct key as [key|]; [|done]. by apply store_refines.
    + injection Hadv as <- <-. eapply cache_ok_ext; [apply finish_cache|apply finish_order|done].
    + done.
Qed.

(** C32. The cache of a service is a bounded list of results, least recently used
    first: a lookup finds what the list holds and moves it to the end, storing
    replaces the result of its key or appends it and drops the oldest entries
    above the limit. The limit is the one of the configuration, and the keys are
    distinct. *)
Theorem cache_refines_lru settings w key result :
  New settings = Ok config → reachable config w →
  let service := se_service w in
  let maximum := sc_maxCacheEntries config in
  (cached key service).1 = (lru_get key (recency service)).1 ∧
  recency (cached key service).2 = (lru_get key (recency service)).2 ∧
  recency (store maximum key result service) = lru_put maximum key result (recency service) ∧
  NoDup (recency service).*1 ∧ (Z.of_nat (length (recency service)) ≤ maximum)%Z ∧
  ∀ r, sv_cache service !! key = Some r ↔ (key, r) ∈ recency service.
Proof.
  intros Hnew Hw service maximum. assert (0 ≤ maximum)%Z as Hmax.
  { unfold maximum, New in *. destruct (default (Ok ()) (cf_Starters settings)); [|done]. simpl in Hnew.
    destruct (Z.ltb_spec (or_default (cf_MaxCacheEntries settings) defaultCacheEntries) 0); [done|]. simpl in Hnew.
    destruct (negb (or_default (cf_MaxOverlayFiles settings) _ <=? 0)%Z); [|done]. simpl in Hnew.
    destruct (negb (or_default (cf_MaxOverlayBytes settings) _ <=? 0)%Z); [|done]. simpl in Hnew. by injection Hnew as <-. }
  pose proof (cache_inv w Hmax Hw) as Hok. fold service maximum in Hok.
  destruct (cached_recency maximum service key Hok). destruct (store_refines maximum key result service Hmax Hok) as [Hstore _].
  destruct Hok as [Hnd Hkeys Hb]. split_and!; [done..| | |].
  - assert ((recency service).*1 = sv_order service) as ->; [|done]. unfold recency.
    assert (∀ l, (∀ k, k ∈ l → is_Some (sv_cache service !! k)) → (entries (sv_cache service) l).*1 = l) as Hfst.
    { intros l. induction l as [|k l IH]; intros Hall; [done|]. rewrite entries_cons. destruct (Hall k) as [r ->]; [by left|].
      simpl. f_equal. apply IH. intros k' Hk'. apply Hall. by right. }
    apply Hfst. intros k. apply Hkeys.
  - unfold recency. fold (entries (sv_cache service)). rewrite length_entries; [done|]. intros k. apply Hkeys.
  - intros r. unfold recency. rewrite list_elem_of_omap. split.
    + intros Hr. exists key. rewrite Hr. split; [|done]. apply Hkeys. by eexists.
    + intros (k & _ & (r' & Hr & [= -> ->])%fmap_Some). done.
Qed.
End sessions.

(** ** Applied *)

#[local] Existing Instance ascii_tables.
#[local] Instance no_styles : StyleConfigurations := {| style_configuration := unit; style_Validate := λ _, Ok () |}.

(** An analysis that gives back the content of its request. *)
#[local] Instance sample_analyses : Analyses :=
  {| body := string; analysis := λ request answer, answer = Ok (nr_content request);
     digest := λ request, Ok (nr_root request +:+ "#" +:+ nr_content request) |}.

Definition sample_config : serviceConfig := mkServiceConfig "" 2 1024 16777216 true.
Definition sample_settings : Config := mkConfig "" 2 0 0 false false None.

Definition sample_request (root content : string) (sequence : N) : normalizedRequest :=
  {| nr_root := root; nr_target := ""; nr_patterns := ["./..."]; nr_overlay := ∅; nr_mode := AnalysisValidate;
     nr_profile := ""; nr_style := None; nr_selection := None; nr_content := content; nr_sequence := sequence;
     nr_generatedEntrypoint := false; nr_applicationScope := false; nr_generationInventory := false |}.

Definition sample_result (sequence : N) (content : string) : Result := mkResult sequence content.

Inductive action := Begin (id : nat) (request : normalizedRequest) | Go (id : nat).

(** A step of the sample: [Go] analyses a request that waits for it. *)
Definition sample_step (a : action) (w : session) : option session :=
  match a with
  | Begin id request =>
    match se_requests w !! id, begin id request (se_service w) with
    | Some _, _ => None
    | None, Some (service, previous) =>
      Some (mkSession service (<[id := (request, Begun)]> (se_requests w))
        (match previous with Some other => {[other]} ∪ se_cancelled w | None => se_cancelled w end))
    | None, None =>
      Some (mkSession (se_service w) (<[id := (request, Returned (Fail ErrStaleAnalysis))]> (se_requests w))
        ({[id]} ∪ se_cancelled w))
    end
  | Go id =>
    match se_requests w !! id with
    | Some (request, Missed key) =>
      Some (mkSession (se_service w)
        (<[id := (request, Analysed key (Ok (sample_result (nr_sequence request) (nr_content request))))]> (se_requests w))
        (se_cancelled w))
    | Some (request, p) =>
      match advance sample_config request p (se_service w) with
      | Some (service, p') =>
        Some (mkSession service (<[id := (request, p')]> (se_requests w))
          (if returned p' then {[id]} ∪ se_cancelled w else se_cancelled w))
      | None => None
      end
    | None => None
    end
  end.

Lemma sample_step_sound a w w' : sample_step a w = Some w' → step sample_config w w'.
Proof.
  destruct a as [id request|id]; simpl.
  - destruct (se_requests w !! id) eqn:Hid; [done|]. destruct (begin id request (se_service w)) as [[s previous]|] eqn:Hb.
    + intros [= <-]. by apply step_begin.
    + intros [= <-]. by apply step_stale.
  - destruct (se_requests w !! id) as [[request p]|] eqn:Hid; [|done].
    destruct p; try (destruct (advance _ _ _ _) as [[s p']|] eqn:Hadv; [|done]; intros [= <-]; by eapply step_advance).
    intros [= <-]. by apply (step_analyse sample_config w id request key (Ok (nr_content request))).
Qed.

Fixpoint sample_run (actions : list action) (w : session) : session :=
  match actions with
  | [] => w
  | a :: rest => match sample_step a w with Some w' => sample_run rest w' | None => w end
  end.

Lemma sample_run_reachable actions : reachable sample_config (sample_run actions initialSession).
Proof.
  assert (∀ w, reachable sample_config w → reachable sample_config (sample_run actions w)) as Hrun; [|by apply Hrun; constructor].
  induction actions as [|a rest IH]; intros w Hw; [done|]. cbn [sample_run].
  destruct (sample_step a w) as [w'|] eqn:Hs; [|done]. apply IH. eapply rtc_r; [exact Hw|]. by eapply sample_step_sound.
Qed.

(** The first request is overtaken while it is analysed; the third one finds the
    result of the second. *)
Definition first_request := sample_request "/work" "a" 1.
Definition second_request := sample_request "/work" "b" 2.
Definition third_request := sample_request "/work" "b" 3.
Definition under_way : session :=
  sample_run [Begin 0 first_request; Go 0; Go 0; Begin 1 second_request] initialSession.
Definition all_returned : session :=
  sample_run [Begin 0 first_request; Go 0; Go 0; Begin 1 second_request; Go 0; Go 0; Go 1; Go 1; Go 1; Go 1; Go 1;
    Begin 2 third_request; Go 2; Go 2; Go 2] initialSession.

Lemma cache_refines_lru_witness :
  recency (store 2 "k" (sample_result 9 "c") (se_service all_returned)) =
    lru_put 2 "k" (sample_result 9 "c") (recency (se_service all_returned)) ∧
  recency (se_service all_returned) = [("/work#b", sample_result 2 "b")].
Proof.
  split; [|vm_compute; reflexivity].
  apply (cache_refines_lru sample_config sample_settings all_returned "k" (sample_result 9 "c")); [vm_compute; reflexivity|].
  apply sample_run_reachable.
Defined.

Lemma returned_result_justified_witness :
  delivered sample_config third_request (sample_result 3 "b") ∧
  (snd <$> se_requests all_returned !! 0%nat) = Some (Returned (Fail ErrStaleAnalysis)).
Proof.
  split; [|vm_compute; reflexivity].
  apply (returned_result_justified sample_config all_returned 2); [apply sample_run_reachable|vm_compute; reflexivity].
Defined.

Lemma overtaken_rejected_witness : overtaken under_way first_request.
Proof.
  refine (proj2 (proj1 (overtaken_rejected sample_config under_way 0 first_request
    (Analysed (Some "/work#a") (Ok (sample_result 1 "a"))) (sample_result 1 "a") (se_service under_way)
    (Finishing (Fail ErrStaleAnalysis)) _ _ _ _)) _);
    [apply sample_run_reachable|vm_compute; reflexivity..].
Defined.

Lemma one_live_request_witness :
  nr_sequence second_request = 2%N ∧
  ∀ other request p, se_requests under_way !! other = Some (request, p) →
    workspace_key request = workspace_key second_request → (nr_sequence request ≤ 2)%N.
Proof.
  split; [reflexivity|].
  refine (proj2 (one_live_request sample_config under_way 1 1 second_request second_request _ _ _ _ _ _ _));
    [apply sample_run_reachable| | | |reflexivity|by vm_compute..].
  - intros id id' request request' p p' Hr Hr'.
    assert (map_Forall (λ id x, map_Forall (λ id' y, workspace_key x.1 = workspace_key y.1 →
      nr_sequence x.1 = nr_sequence y.1 → nr_sequence x.1 ≠ 0%N → id = id') (se_requests under_way)) (se_requests under_way)) as Hall
      by (apply (bool_decide_unpack _); vm_compute; exact I).
    apply (Hall _ _ Hr _ _ Hr').
  - split; [exists Begun; by vm_compute|]. apply (bool_decide_unpack _); vm_compute; exact I.
  - split; [exists Begun; by vm_compute|]. apply (bool_decide_unpack _); vm_compute; exact I.
Defined.

Lemma quiescent_running_empty_witness : sv_running (se_service all_returned) = ∅.
Proof.
  apply (quiescent_running_empty sample_config); [apply sample_run_reachable|]. intros id request p Hr.
  assert (map_Forall (λ _ x, returned x.2 = true) (se_requests all_returned)) as Hall
    by (apply (bool_decide_unpack _); vm_compute; exact I).
  exact (Hall _ _ Hr).
Defined.

(** With a number used twice [finish] of the first request removes the entry of
    the second one, which the next request then does not cancel. *)
Lemma repeated_number_stays_live :
  let w := sample_run [Begin 0 first_request; Begin 1 first_request; Go 0; Go 0; Go 0; Go 0; Go 0; Begin 2 second_request]
    initialSession in
  reachable sample_config w ∧ live w 1 first_request ∧ live w 2 second_request ∧
  workspace_key first_request = workspace_key second_request.
Proof.
  split; [apply sample_run_reachable|].
  split_and!; [split; [exists Begun; by vm_compute|]|split; [exists Begun; by vm_compute|]|done];
    apply (bool_decide_unpack _); vm_compute; exact I.
Qed.
