(* ===== verification/LspFraming.v ===== *)
(** The framing of JSON-RPC messages on the streams of the language server
    (src/internal/lsp/protocol.go): the headers and the body that the reader
    takes off its input, the frames that the writer puts on its output, and the
    calls of the writer that run at the same time.

    The input is the bytes still to come and the error that follows them; the
    JSON codec is a class. *)
From S2P Require Import Prelude GoSort GoStrings GoStrconv Parser ParserGrammar ParserLex.

Definition maximumHeaderLine : Z := 8192.
Definition maximumHeaderCount : nat := 64.
Definition maximumMessageSize : Z := 16 * 2 ^ 20.

Definition rpcParseError : Z := -32700.
Definition rpcInvalidRequest : Z := -32600.

(** [json.RawMessage] is its text, empty when the field is absent. *)
Record rpcMessage := mkMessage {
  rm_JSONRPC : string;
  rm_ID : string;
  rm_Method : string;
  rm_Params : string;
}.

#[export] Instance rpcMessage_eq_dec : EqDecision rpcMessage.
Proof. solve_decision. Defined.

(** What the calls of [rpcWriter] encode; [any] is the text of its value. *)
Inductive outgoing :=
  | Response (id result : string)
  | Failure (id : string) (code : Z) (message : string)
  | Notification (method params : string).

(** Package [encoding/json], as the reader and the writer use it. *)
Class JsonCodec := {
  json_Valid : string → bool;
  json_Unmarshal : string → option rpcMessage;
  json_Marshal : outgoing → outcome error string;
}.

(** ** Package bufio and io *)

#[export] Instance error_eq_dec : EqDecision error.
Proof. solve_decision. Defined.

Definition EOF : error := ErrSentinel "EOF".
Definition ErrUnexpectedEOF : error := ErrSentinel "unexpected EOF".

Definition carriage_return : ascii := chr 13.

(** [bufio.Reader.ReadLine] with a buffer of [maximumHeaderLine] bytes: the line,
    whether the buffer ended before it did, and what is left. *)
Definition ReadLine (final : error) (s : string) : outcome error (string * bool) * string :=
  let '(before, after, found) := cut s newline_str in
  if found && (Z.of_nat (String.length before) <? maximumHeaderLine)%Z
  then (Ok (trim_suffix before (str1 carriage_return), false), after)
  else if (maximumHeaderLine <=? Z.of_nat (String.length s))%Z then
    let full := str_take (Z.to_nat maximumHeaderLine) s in
    let line := trim_suffix full (str1 carriage_return) in
    (Ok (line, true), str_drop (String.length line) s)
  else if bool_decide (s = "") then (Fail final, "")
  else (Ok (s, false), "").

(** [io.ReadFull] of [n] bytes, [n] positive *)
Definition ReadFull (final : error) (n : nat) (s : string) : outcome error string * string :=
  if (n <=? String.length s)%nat then (Ok (str_take n s), str_drop n s)
  else if bool_decide (s = "") then (Fail final, "")
  else (Fail (if decide (final = EOF) then ErrUnexpectedEOF else final), "").

(** ** The reader *)

(** What [read] returns besides a message: an [rpcClientError], or the error of
    the input. *)
Inductive readError :=
  | ClientError (id : string) (code : Z) (message : string)
  | InputError (err : error).

Definition boundedHeader (value : string) : string :=
  if (String.length value <=? 128)%nat then value else str_take 128 value +:+ "...".

Section reader.
Context `{UnicodeTables} `{CaseFold} `{JsonCodec} (final : error).

Definition parseContentLength (value : string) : outcome error Z :=
  match atoi (trim_space value) with
  | Some parsed =>
      if (parsed <=? 0)%Z || (maximumMessageSize <? parsed)%Z
      then Fail (ErrNew ("invalid LSP Content-Length " +:+ go_quote (boundedHeader value)))
      else Ok parsed
  | None => Fail (ErrNew ("invalid LSP Content-Length " +:+ go_quote (boundedHeader value)))
  end.

(** The loop of [readHeaders] with the headers it may still read; [known] is
    the length, or -1. *)
Fixpoint headersLoop (left : nat) (known : Z) (s : string) : outcome error Z * string :=
  match left with
  | O => (Fail (ErrNew "LSP message has too many headers"), s)
  | S left' =>
    match ReadLine final s with
    | (Fail err, s') => (Fail err, s')
    | (Ok (line, prefix), s') =>
      if prefix then (Fail (ErrNew "LSP header line exceeds limit"), s')
      else if bool_decide (line = "") then
        (if (known <? 0)%Z then Fail (ErrNew "LSP message is missing Content-Length") else Ok known, s')
      else
        let '(name, value, found) := cut line ":" in
        if negb found then (Fail (ErrNew ("invalid LSP header " +:+ go_quote (boundedHeader line))), s')
        else if negb (equal_fold (trim_space name) "Content-Length") then headersLoop left' known s'
        else if (0 <=? known)%Z then (Fail (ErrNew "LSP message has duplicate Content-Length headers"), s')
        else match parseContentLength value with
             | Fail err => (Fail err, s')
             | Ok parsed => headersLoop left' parsed s'
             end
    end
  end.

Definition readHeaders (s : string) : outcome error Z * string := headersLoop maximumHeaderCount (-1) s.

Definition invalidRPCRequest (id message : string) : readError := ClientError id rpcInvalidRequest message.

(** What [read] makes of a body. *)
Definition readContent (content : string) : outcome readError rpcMessage :=
  if negb (json_Valid content) then Fail (ClientError "" rpcParseError "invalid JSON-RPC message")
  else match json_Unmarshal content with
  | None => Fail (ClientError "" rpcInvalidRequest "JSON-RPC message must be an object")
  | Some message =>
    if decide (rm_JSONRPC message ≠ "2.0") then
      Fail (invalidRPCRequest (rm_ID message)
        ("unsupported JSON-RPC version " +:+ go_quote (rm_JSONRPC message)))
    else if decide (rm_Method message = "") then
      Fail (invalidRPCRequest (rm_ID message) "LSP client message has no method")
    else Ok message
  end.

Definition readMessage (s : string) : outcome readError rpcMessage * string :=
  match readHeaders s with
  | (Fail err, s') => (Fail (InputError err), s')
  | (Ok length, s') =>
    match ReadFull final (Z.to_nat length) s' with
    | (Fail err, s'') => (Fail (InputError (ErrWrap "read LSP message body" err)), s'')
    | (Ok content, s'') => (readContent content, s'')
    end
  end.

(** The messages and client errors that [Run] gets one after the other, and the
    error that ends its loop; [None] when the fuel is used up. *)
Fixpoint received (fuel : nat) (s : string) : option (list (outcome readError rpcMessage) * error) :=
  match fuel with
  | O => None
  | S fuel' =>
    match readMessage s with
    | (Fail (InputError err), _) => Some ([], err)
    | (result, s') =>
        '(results, err) ← received fuel' s'; Some (result :: results, err)
    end
  end.
End reader.

(** ** The writer *)

(** [rpcWriter.write] of an encoded message puts a header and the content on the
    output. *)
Definition header (content : string) : string :=
  "Content-Length: " +:+ itoa (Z.of_nat (String.length content)) +:+
  String carriage_return (String newline (String carriage_return newline_str)).
Definition frame (content : string) : string := header content +:+ content.

(** Where a call of [write] is: at the lock, before each of the two writes, or
    returned. *)
Inductive progress :=
  | AtLock
  | AtHeader
  | AtBody
  | Returned (err : option error).

(** The output, the calls with the content each of them writes, and the holder of
    the mutex. [out_sent] records the calls that wrote their frame, in order, and
    [out_torn] that a write failed. *)
Record output := mkOutput {
  out_written : string;
  out_mu : option nat;
  out_calls : gmap nat (string * progress);
  out_sent : list string;
  out_torn : bool;
}.

(** A call of [response], [failure] or [notification] begins; or a call in
    progress makes its next step, the error saying how many bytes of a failed
    write went out. *)
Inductive writing :=
  | Call (id : nat) (message : outgoing)
  | Acquire (id : nat)
  | Write (id : nat) (err : option (nat * error)).

Section writer.
Context `{JsonCodec}.

Definition set_call (id : nat) (content : string) (p : progress) (o : output) : output :=
  mkOutput (out_written o) (out_mu o) (<[id := (content, p)]> (out_calls o)) (out_sent o) (out_torn o).

(** The call returns and unlocks. *)
Definition release (o : output) : output :=
  mkOutput (out_written o) None (out_calls o) (out_sent o) (out_torn o).

Definition put (s : string) (o : output) : output :=
  mkOutput (out_written o +:+ s) (out_mu o) (out_calls o) (out_sent o) (out_torn o).
Definition tear (o : output) : output :=
  mkOutput (out_written o) (out_mu o) (out_calls o) (out_sent o) true.
Definition record_sent (content : string) (o : output) : output :=
  mkOutput (out_written o) (out_mu o) (out_calls o) (out_sent o ++ [content]) (out_torn o).

Definition writeStep (act : writing) (o : output) : option output :=
  match act with
  | Call id message =>
    match out_calls o !! id with
    | Some _ => None
    | None =>
      match json_Marshal message with
      | Fail err => Some (set_call id "" (Returned (Some (ErrWrap "encode LSP message" err))) o)
      | Ok content => Some (set_call id content AtLock o)
      end
    end
  | Acquire id =>
    match out_calls o !! id, out_mu o with
    | Some (content, AtLock), None =>
        Some (set_call id content AtHeader (mkOutput (out_written o) (Some id) (out_calls o) (out_sent o) (out_torn o)))
    | _, _ => None
    end
  | Write id err =>
    match out_calls o !! id, err with
    | Some (content, AtHeader), None => Some (set_call id content AtBody (put (header content) o))
    | Some (content, AtHeader), Some (n, e) =>
        Some (release (set_call id content (Returned (Some (ErrWrap "write LSP message header" e)))
          (tear (put (str_take n (header content)) o))))
    | Some (content, AtBody), None =>
        Some (release (set_call id content (Returned None) (record_sent content (put content o))))
    | Some (content, AtBody), Some (n, e) =>
        Some (release (set_call id content (Returned (Some (ErrWrap "write LSP message body" e)))
          (tear (put (str_take n content) o))))
    | _, _ => None
    end
  end.

Definition newOutput : output := mkOutput "" None ∅ [] false.

Inductive written : output → Prop :=
  | written_new : written newOutput
  | written_step act o o' : written o → writeStep act o = Some o' → written o'.
End writer.

(** ** Decimal numbers *)

Lemma digits_value_app v s t : digits_value v (s +:+ t) = digits_value (digits_value v s) t.
Proof. revert v. induction s as [|c s IH]; intros v; [done|]. rewrite str_cons_app. simpl. apply IH. Qed.

(** The text of a number of at most [k] digits. *)
Lemma pretty_digits k x s : (x < 10 ^ N.of_nat k)%N →
  ∃ p, pretty_N_go x s = p +:+ s ∧ digits p = String.length p ∧ (String.length p ≤ k)%nat ∧
    digits_value 0 p = Z.of_N x ∧ (x ≠ 0%N → p ≠ "").
Proof.
  revert x s. induction k as [|k IH]; intros x s Hx.
  { assert (x = 0%N) as -> by (simpl in Hx; lia). exists "". by rewrite str_nil_app. }
  destruct (decide (x = 0%N)) as [->|Hne]; [exists ""; rewrite str_nil_app; split_and!; [done..|simpl; lia|done|done]|].
  rewrite pretty_N_go_step by lia.
  destruct (IH (x `div` 10)%N (String (pretty_N_char (x `mod` 10)) s)) as (p & -> & Hd & Hl & Hv & _).
  { apply N.Div0.div_lt_upper_bound. rewrite Nat2N.inj_succ, N.pow_succ_r' in Hx. lia. }
  set (c := pretty_N_char (x `mod` 10)).
  assert (in_range 48 57 (byte_of c) = true ∧ byte_of c = (48 + x `mod` 10)%N) as [Hc Hcv].
  { subst c. assert (x `mod` 10 < 10)%N as Hm by (by apply N.mod_lt). revert Hm. generalize (x `mod` 10)%N. intros m Hm.
    assert (m = 0 ∨ m = 1 ∨ m = 2 ∨ m = 3 ∨ m = 4 ∨ m = 5 ∨ m = 6 ∨ m = 7 ∨ m = 8 ∨ m = 9)%N as Hcases by lia.
    by destruct_or! Hcases; subst m. }
  exists (p +:+ str1 c). split_and!.
  - by rewrite str_app_assoc.
  - rewrite digits_app by done. unfold str1. cbn [digits]. by rewrite Hc, length_str_app.
  - rewrite length_str_app. simpl. lia.
  - rewrite digits_value_app, Hv. cbn [digits_value str1]. rewrite Hcv. pose proof (N.div_mod x 10). lia.
  - intros _. by destruct p.
Qed.

Lemma itoa_digits n k : (0 < n)%nat → (Z.of_nat n < 10 ^ Z.of_nat k)%Z →
  ∃ p, itoa (Z.of_nat n) = p ∧ digits p = String.length p ∧ (String.length p ≤ k)%nat ∧
    digits_value 0 p = Z.of_nat n ∧ p ≠ "".
Proof.
  intros Hn Hk. unfold itoa, pretty, pretty_Z. destruct (Z.of_nat n) as [|x|x] eqn:E; [lia| |lia].
  destruct (pretty_digits k (N.pos x) "") as (p & Hp & Hd & Hl & Hv & Hne).
  { apply N2Z.inj_lt. rewrite N2Z.inj_pow, nat_N_Z. done. }
  exists p. split; [change (pretty_N_go (N.pos x) "" = p); by rewrite Hp, str_app_nil_r|].
  split_and!; [done..|]. by apply Hne.
Qed.

Lemma digits_head p : digits p = String.length p → p ≠ "" →
  ∃ c q, p = String c q ∧ in_range 48 57 (byte_of c) = true.
Proof. destruct p as [|c q]; [done|]. cbn [digits]. destruct (in_range _ _ _) eqn:E; [|done]. eauto. Qed.

Lemma digits_last p : digits p = String.length p → p ≠ "" →
  ∃ q c, p = q +:+ str1 c ∧ in_range 48 57 (byte_of c) = true.
Proof.
  induction p as [|c p IH]; [done|]. cbn [digits String.length]. destruct (in_range _ _ _) eqn:E; [|done].
  intros [= Hd] _. destruct (decide (p = "")) as [->|Hne].
  - by exists "", c.
  - destruct (IH Hd Hne) as (q & d & -> & Hq). exists (String c q), d. by rewrite str_cons_app.
Qed.

Lemma atoi_digits p : digits p = String.length p → p ≠ "" → (digits_value 0 p < 2 ^ 63)%Z → (0 ≤ digits_value 0 p)%Z →
  atoi p = Some (digits_value 0 p).
Proof.
  intros Hd Hne Hv H0. destruct (digits_head p Hd Hne) as (c & q & -> & Hc). unfold atoi.
  assert (c ≠ "-"%char ∧ c ≠ "+"%char) as [Hm Hp] by (split; intros ->; vm_compute in Hc; done).
  rewrite bool_decide_eq_false_2 by tauto. rewrite Hd, Nat.eqb_refl. cbn [has_prefix].
  destruct (ascii_dec "-" c); [congruence|]. set (v := digits_value 0 (String c q)) in *. simpl.
  rewrite (proj2 (Z.leb_le _ _)) by lia. by rewrite (proj2 (Z.ltb_lt _ _)).
Qed.

(** A number after a blank. *)
Lemma trim_number p : digits p = String.length p → p ≠ "" → trim_space (String " " p) = p.
Proof.
  intros Hd Hne. unfold trim_space. change (trim_left_space (String " " p)) with (trim_left_space p).
  fold (trim_space p). destruct (digits_last p Hd Hne) as (q & c & E & Hc).
  destruct (digits_head p Hd Hne) as (d & q' & E' & Hc'). unfold in_range in Hc, Hc'.
  apply andb_true_iff in Hc as [Hc1%N.leb_le Hc2%N.leb_le]. apply andb_true_iff in Hc' as [Hd1%N.leb_le Hd2%N.leb_le].
  assert (∀ r, (48 <= r <= 57)%N → is_space r = false) as Hs.
  { intros r Hr. unfold is_space, in_range. repeat (apply orb_false_iff; split);
      first [apply N.eqb_neq; lia | apply andb_false_iff; rewrite !N.leb_gt; lia]. }
  rewrite E. apply trim_space_id; [lia|apply Hs; lia|]. rewrite <-E, E'. unfold scan. cbn [String.length scan_fuel].
  rewrite decode_ascii by lia. by rewrite Hs.
Qed.

Lemma parseContentLength_itoa `{UnicodeTables} n : (0 < n)%nat → (Z.of_nat n ≤ maximumMessageSize)%Z →
  parseContentLength (String " " (itoa (Z.of_nat n))) = Ok (Z.of_nat n).
Proof.
  intros Hn Hmax. unfold maximumMessageSize in *. destruct (itoa_digits n 8) as (p & -> & Hd & _ & Hv & Hne); [done|lia|].
  unfold parseContentLength. rewrite trim_number by done. rewrite atoi_digits by (rewrite ?Hv; (done || lia)).
  rewrite Hv, (proj2 (Z.leb_gt _ _)) by lia. rewrite (proj2 (Z.ltb_ge _ _)); [done|].
  unfold maximumMessageSize. lia.
Qed.

(** ** Lines *)

(** A line of the input without its newline, short enough for the buffer. *)
Definition raw_line (raw : string) : Prop :=
  contains_byte raw newline = false ∧ (Z.of_nat (String.length raw) < maximumHeaderLine)%Z.
Definition line_of (raw : string) : string := trim_suffix raw (str1 carriage_return).

Lemma trim_suffix_take s x : ∃ n, trim_suffix s x = str_take n s ∧ (n ≤ String.length s)%nat.
Proof.
  unfold trim_suffix. destruct (has_suffix s x).
  - exists (String.length s - String.length x)%nat. split; [done|lia].
  - exists (String.length s). split; [|done]. by rewrite str_take_all.
Qed.

Lemma ReadLine_line final raw rest : raw_line raw →
  ReadLine final (raw +:+ String newline rest) = (Ok (line_of raw, false), rest).
Proof.
  intros [Hn Hl]. unfold ReadLine, newline_str. rewrite cut_byte by done. by rewrite (proj2 (Z.ltb_lt _ _)).
Qed.

Lemma ReadLine_inv final s line s' : ReadLine final s = (Ok (line, false), s') →
  (∃ raw, raw_line raw ∧ s = raw +:+ String newline s' ∧ line = line_of raw) ∨ (s' = "" ∧ line ≠ "").
Proof.
  unfold ReadLine, newline_str. destruct (cut s (str1 newline)) as [[before after] found] eqn:E.
  apply cut_byte_inv in E as [Hn Hs]. destruct found; cbn [andb].
  - destruct (_ <? _)%Z eqn:Hl; [intros [= <- <-]; left; exists before; by apply Z.ltb_lt in Hl|].
    destruct (_ <=? _)%Z eqn:Hm; [done|]. apply Z.ltb_ge in Hl. apply Z.leb_gt in Hm.
    rewrite Hs, length_str_app in Hm. lia.
  - destruct (_ <=? _)%Z; [done|]. case_bool_decide; [done|]. intros [= <- <-]. by right.
Qed.

Lemma ReadLine_consumed final s r s' : ReadLine final s = (r, s') →
  ∃ t, s = t +:+ s' ∧ (Z.of_nat (String.length t) ≤ maximumHeaderLine)%Z.
Proof.
  unfold ReadLine, newline_str. destruct (cut s (str1 newline)) as [[before after] found] eqn:E.
  apply cut_byte_inv in E as [Hn Hs]. destruct (found && _) eqn:Hf.
  { apply andb_true_iff in Hf as [-> Hl%Z.ltb_lt]. intros [= <- <-]. exists (before +:+ newline_str). split.
    - by rewrite str_app_assoc.
    - rewrite length_str_app. simpl. lia. }
  destruct (_ <=? _)%Z eqn:Hm.
  - intros [_ <-]%pair_eq. apply Z.leb_le in Hm.
    destruct (trim_suffix_take (str_take (Z.to_nat maximumHeaderLine) s) (str1 carriage_return)) as (n & -> & Hlen).
    rewrite length_str_take in Hlen. rewrite str_take_take.
    exists (str_take (n `min` Z.to_nat maximumHeaderLine) s). rewrite !length_str_take. unfold maximumHeaderLine in *.
    split; [|lia]. rewrite <-(str_take_drop (n `min` Z.to_nat 8192) s) at 1. do 2 f_equal. lia.
  - apply Z.leb_gt in Hm. case_bool_decide as He; intros [= <- <-].
    + subst s. exists "". split; [done|]. unfold maximumHeaderLine. simpl. lia.
    + exists s. rewrite str_app_nil_r. split; [done|lia].
Qed.

(** ** Headers *)

(** Lines with their newlines before a text. *)
Definition lines_before (raws : list string) (t : string) : string :=
  foldr (λ raw t, raw +:+ String newline t) t raws.

Section headers.
Context `{UnicodeTables} `{CaseFold} `{JsonCodec} (final : error).

(** A header that the reader does not reject for its form. *)
Definition header_field (raw : string) : Prop :=
  raw_line raw ∧ line_of raw ≠ "" ∧ contains (line_of raw) ":" = true.

(** The length that a header declares, if it is a Content-Length. *)
Definition declared (raw : string) : option (outcome error Z) :=
  let '(name, value, _) := cut (line_of raw) ":" in
  if equal_fold (trim_space name) "Content-Length" then Some (parseContentLength value) else None.

Definition size_ok (n : Z) : Prop := (1 ≤ n ≤ maximumMessageSize)%Z.

Lemma parseContentLength_ok value n : parseContentLength value = Ok n → size_ok n.
Proof.
  unfold parseContentLength, size_ok. destruct (atoi _); [|done]. destruct (_ || _) eqn:E; [done|].
  intros [= ->]. apply orb_false_iff in E as [?%Z.leb_gt ?%Z.ltb_ge]. lia.
Qed.

Lemma headersLoop_consumed left known s r s' : headersLoop final left known s = (r, s') →
  (known < 0 ∨ size_ok known)%Z →
  (∃ t, s = t +:+ s' ∧ (Z.of_nat (String.length t) ≤ Z.of_nat left * maximumHeaderLine)%Z) ∧
  ∀ n, r = Ok n → size_ok n.
Proof.
  revert known s. induction left as [|left IH]; intros known s; cbn [headersLoop].
  { intros [= <- <-] _. split; [by exists ""|done]. }
  destruct (ReadLine final s) as [line s1] eqn:E. destruct (ReadLine_consumed _ _ _ _ E) as (t & -> & Ht).
  assert (∀ r', (r', s1) = (r, s') → (∀ n, r' = Ok n → size_ok n) →
    (∃ u, t +:+ s1 = u +:+ s' ∧ (Z.of_nat (String.length u) ≤ Z.of_nat (S left) * maximumHeaderLine)%Z) ∧
    ∀ n, r = Ok n → size_ok n) as Hstop.
  { intros r' [= -> ->] Hr'. split; [|done]. exists t. split; [done|]. unfold maximumHeaderLine in *. lia. }
  assert (∀ known', headersLoop final left known' s1 = (r, s') → (known' < 0 ∨ size_ok known')%Z →
    (∃ u, t +:+ s1 = u +:+ s' ∧ (Z.of_nat (String.length u) ≤ Z.of_nat (S left) * maximumHeaderLine)%Z) ∧
    ∀ n, r = Ok n → size_ok n) as Hnext.
  { intros known' Hr Hk'. destruct (IH _ _ Hr Hk') as [(u & -> & Hu) Hr']. split; [|done].
    exists (t +:+ u). rewrite str_app_assoc, length_str_app. split; [done|]. unfold maximumHeaderLine in *. lia. }
  destruct line as [[line prefix]|err]; [|intros Hr _; by apply Hstop in Hr].
  intros Hr Hk. destruct prefix; [by apply Hstop in Hr|]. case_bool_decide.
  { apply Hstop in Hr; [done|]. intros n. destruct (known <? 0)%Z eqn:Ek; [done|]. intros [= ->].
    apply Z.ltb_ge in Ek. destruct Hk; [lia|done]. }
  destruct (cut line ":") as [[name value] found]. destruct (negb found); [by apply Hstop in Hr|].
  destruct (negb (equal_fold _ _)); [by apply Hnext in Hr|]. destruct (0 <=? known)%Z; [by apply Hstop in Hr|].
  destruct (parseContentLength value) as [parsed|err] eqn:Ep; [|by apply Hstop in Hr].
  apply Hnext in Hr; [done|]. right. by apply parseContentLength_ok in Ep.
Qed.

(** The reader accepts exactly fewer than 64 header lines before an empty one,
    with one Content-Length among them. *)
Lemma headersLoop_ok left known s n s' : (known < 0 ∨ size_ok known)%Z →
  headersLoop final left known s = (Ok n, s') ↔
  ∃ raws last, s = lines_before (raws ++ [last]) s' ∧ (length raws < left)%nat ∧
    Forall header_field raws ∧ raw_line last ∧ line_of last = "" ∧
    (if (known <? 0)%Z then omap declared raws = [Ok n] else omap declared raws = [] ∧ n = known).
Proof.
  intros Hk. revert known s Hk. induction left as [|left IH]; intros known s Hk.
  { split; [done|]. intros (raws & last & _ & Hl & _). lia. }
  cbn [headersLoop]. split.
  - destruct (ReadLine final s) as [[[line prefix]|err] s1] eqn:E; [|done]. destruct prefix; [done|].
    apply ReadLine_inv in E as [(raw & Hraw & -> & ->)|[-> Hne]].
    + case_bool_decide as He.
      { destruct (known <? 0)%Z eqn:Ek; [done|]. intros [= <- <-]. exists [], raw. simpl. split_and!; try done; lia. }
      destruct (cut (line_of raw) ":") as [[name value] found] eqn:Ec. destruct found; [|done]. simpl.
      assert (header_field raw) as Hf by (split_and!; [done..|unfold contains; by rewrite Ec]).
      assert (declared raw = if equal_fold (trim_space name) "Content-Length" then Some (parseContentLength value) else None)
        as Hd by (unfold declared; by rewrite Ec).
      destruct (equal_fold _ _) eqn:Eq; simpl.
      * destruct (0 <=? known)%Z eqn:Ek; [done|]. apply Z.leb_gt in Ek.
        destruct (parseContentLength value) as [parsed|err] eqn:Ep; [|done].
        pose proof (parseContentLength_ok _ _ Ep) as Hsz. unfold size_ok in Hsz.
        intros (raws & last & -> & Hl & HF & Hrl & Hlast & Hraws)%IH; [|by right].
        rewrite (proj2 (Z.ltb_ge parsed 0)) in Hraws by lia. destruct Hraws as [Hraws ->].
        exists (raw :: raws), last. rewrite (proj2 (Z.ltb_lt known 0)) by lia.
        split_and!; try done; [simpl; lia|by constructor|]. cbn [omap list_omap]. by rewrite Hd, Hraws.
      * intros (raws & last & -> & Hl & HF & Hrl & Hlast & Hraws)%IH; [|done].
        exists (raw :: raws), last. split_and!; try done; [simpl; lia|by constructor|].
        cbn [omap list_omap]. rewrite Hd. done.
    + rewrite bool_decide_eq_false_2 by done.
      destruct (cut line ":") as [[name value] found]. destruct (negb found); [done|].
      assert (∀ l k, headersLoop final l k "" ≠ (Ok n, s')) as Hnil by (intros [|l] k; done).
      destruct (negb (equal_fold _ _)); [by intros ?%Hnil|]. destruct (0 <=? known)%Z; [done|].
      destruct (parseContentLength value); [by intros ?%Hnil|done].
  - intros (raws & last & -> & Hl & HF & Hrl & Hlast & Hraws). destruct raws as [|raw raws].
    { cbn [lines_before foldr app]. rewrite ReadLine_line, Hlast by done. rewrite bool_decide_eq_true_2 by done.
      destruct (known <? 0)%Z; [done|]. by destruct Hraws as [_ ->]. }
    apply Forall_cons in HF as [(Hraw & Hne & Hc) HF]. cbn [lines_before foldr app].
    change (foldr _ _ (raws ++ [last])) with (lines_before (raws ++ [last]) s').
    rewrite ReadLine_line by done. rewrite bool_decide_eq_false_2 by done.
    unfold contains in Hc. destruct (cut (line_of raw) ":") as [[name value] found] eqn:Ec. simpl in Hc. subst found.
    assert (declared raw = if equal_fold (trim_space name) "Content-Length" then Some (parseContentLength value) else None)
        as Hd by (unfold declared; by rewrite Ec).
    cbn [omap list_omap] in Hraws. rewrite Hd in Hraws. simpl negb. cbv iota.
    destruct (equal_fold _ _) eqn:Eq; simpl negb; cbv iota.
    + destruct (known <? 0)%Z eqn:Ek; [|by destruct Hraws]. apply Z.ltb_lt in Ek.
      rewrite (proj2 (Z.leb_gt 0 known)) by lia. injection Hraws as Hp Hraws. rewrite Hp.
      pose proof (parseContentLength_ok _ _ Hp) as Hsz. unfold size_ok in Hsz.
      apply IH; [by right|]. exists raws, last. rewrite (proj2 (Z.ltb_ge n 0)) by lia.
      simpl in Hl. split_and!; try done. lia.
    + apply IH; [done|]. exists raws, last. simpl in Hl. split_and!; try done. lia.
Qed.
End headers.

(** ** Messages *)

Lemma ReadFull_consumed final n s r s' : ReadFull final n s = (r, s') →
  (∃ t, s = t +:+ s' ∧ (r = Ok t → String.length t = n)) ∧ (∀ t, r = Ok t → s = t +:+ s' ∧ String.length t = n).
Proof.
  unfold ReadFull. destruct (_ <=? _)%nat eqn:E.
  - apply Nat.leb_le in E. intros [= <- <-].
    assert (String.length (str_take n s) = n) as Hl by (rewrite length_str_take; lia). split.
    + exists (str_take n s). by rewrite str_take_drop.
    + intros t [= <-]. by rewrite str_take_drop.
  - case_bool_decide as Hs; intros [= <- <-]; (split; [|done]).
    + exists "". by rewrite Hs.
    + exists s. by rewrite str_app_nil_r.
Qed.

Section messages.
Context `{UnicodeTables} `{CaseFold} `{JsonCodec} (final : error).

Lemma readHeaders_loop s : readHeaders final s = headersLoop final maximumHeaderCount (-1) s.
Proof. reflexivity. Qed.

Lemma readHeaders_consumed s r s' : readHeaders final s = (r, s') →
  (∃ t, s = t +:+ s' ∧ (Z.of_nat (String.length t) ≤ 64 * maximumHeaderLine)%Z) ∧ ∀ n, r = Ok n → size_ok n.
Proof. rewrite readHeaders_loop. intros E. apply (headersLoop_consumed final maximumHeaderCount (-1) s r s' E). by left. Qed.

Lemma readHeaders_ok s n s' : readHeaders final s = (Ok n, s') ↔
  ∃ raws last, s = lines_before (raws ++ [last]) s' ∧ (length raws < 64)%nat ∧
    Forall header_field raws ∧ raw_line last ∧ line_of last = "" ∧ omap declared raws = [Ok n].
Proof. rewrite readHeaders_loop. apply (headersLoop_ok final maximumHeaderCount (-1) s n s'). by left. Qed.

(** A message that the stream does not end in the middle of takes at least a byte. *)
Lemma readMessage_consumes s r s' : readMessage final s = (r, s') →
  (∀ err, r ≠ Fail (InputError err)) → (String.length s' < String.length s)%nat.
Proof.
  unfold readMessage. destruct (readHeaders final s) as [length s1] eqn:E. apply readHeaders_consumed in E as [(t & -> & _) Hn].
  destruct length as [n|err]; [|intros [= <- <-] Hr; by edestruct Hr].
  specialize (Hn n eq_refl). unfold size_ok in Hn.
  destruct (ReadFull final (Z.to_nat n) s1) as [content s2] eqn:E. apply ReadFull_consumed in E as [_ Hc].
  destruct content as [content|err]; intros [= <- <-] Hr; [|by edestruct Hr].
  destruct (Hc content eq_refl) as [-> Hl]. rewrite !length_str_app. lia.
Qed.

(** Each message takes something off the input, so that one unit of fuel per
    byte and one for its end are enough. *)
Lemma received_enough fuel s : (String.length s < fuel)%nat → is_Some (received final fuel s).
Proof.
  revert s. induction fuel as [|fuel IH]; intros s Hs; [lia|]. cbn [received].
  destruct (readMessage final s) as [r s'] eqn:Hr. pose proof (readMessage_consumes _ _ _ Hr) as E.
  destruct (decide (String.length s' < String.length s)%nat) as [Hlt|Hge].
  - destruct (IH s') as [[rs e] Er]; [lia|]. rewrite Er. destruct r as [m|[id code msg|err]]; by eexists.
  - destruct r as [m|[id code msg|err]]; [by destruct Hge; apply E|by destruct Hge; apply E|by eexists].
Qed.

Lemma received_mono fuel fuel' s r : received final fuel s = Some r → (fuel ≤ fuel')%nat → received final fuel' s = Some r.
Proof.
  revert fuel' s r. induction fuel as [|fuel IH]; [done|]. intros [|fuel'] s r; [lia|]. cbn [received].
  destruct (readMessage final s) as [[m|[id code msg|err]] s']; [| |done];
    (destruct (received final fuel s') as [[rs e]|] eqn:E; [|done]; intros Hr Hle;
     rewrite (IH fuel' _ _ E) by lia; done).
Qed.

Definition frame_size (content : string) : Prop := size_ok (Z.of_nat (String.length content)).

Definition length_line (n : nat) : string := "Content-Length: " +:+ itoa (Z.of_nat n) +:+ str1 carriage_return.

Lemma frame_lines content rest :
  frame content +:+ rest = lines_before [length_line (String.length content); str1 carriage_return] (content +:+ rest).
Proof.
  unfold frame, header, length_line, lines_before. cbn [foldr]. rewrite !str_app_assoc. do 2 f_equal.
Qed.

Lemma digits_no_byte p b : digits p = String.length p → in_range 48 57 (byte_of b) = false → contains_byte p b = false.
Proof.
  intros Hd Hb. induction p as [|c p IH]; [done|]. cbn [digits String.length contains_byte] in *.
  destruct (in_range 48 57 (byte_of c)) eqn:E; [|done]. destruct (ascii_dec c b); [congruence|]. by injection Hd as ?%IH.
Qed.

Lemma trim_suffix_app s x : trim_suffix (s +:+ x) x = s.
Proof.
  unfold trim_suffix, has_suffix. rewrite length_str_app.
  replace (String.length s + String.length x - String.length x)%nat with (String.length s) by lia.
  rewrite str_drop_app, str_take_app. case_match; [done|].
  match goal with E : _ = false |- _ => exfalso; revert E end. case_bool_decide; [|done].
  rewrite (proj2 (Nat.leb_le _ _)) by lia. done.
Qed.

Lemma length_line_field n : (0 < n)%nat → (Z.of_nat n ≤ maximumMessageSize)%Z →
  header_field (length_line n) ∧ declared (length_line n) = Some (Ok (Z.of_nat n)).
Proof.
  intros Hn Hmax. pose proof (parseContentLength_itoa n Hn Hmax) as Hp. unfold maximumMessageSize in Hmax.
  unfold header_field, declared. destruct (itoa_digits n 8) as (p & Hi & Hd & Hl & _ & _); [done|lia|].
  unfold length_line. rewrite Hi in *.
  assert (line_of ("Content-Length: " +:+ p +:+ str1 carriage_return) = "Content-Length" +:+ String ":" (String " " p)) as Hline.
  { rewrite <-str_app_assoc. apply trim_suffix_app. }
  rewrite Hline. unfold contains. change ":" with (str1 ":"%char). rewrite cut_byte by done.
  split_and!; [| |done..|].
  - split; [rewrite !contains_byte_app, (digits_no_byte p) by done; done|].
    rewrite !length_str_app. unfold maximumHeaderLine. simpl String.length. lia.
  - done.
  - by rewrite Hp.
Qed.

Lemma readMessage_frame content rest : frame_size content →
  readMessage final (frame content +:+ rest) = (readContent content, rest).
Proof.
  unfold frame_size, size_ok. intros Hs. unfold readMessage.
  destruct (length_line_field (String.length content)) as [Hf Hd]; [lia..|].
  assert (readHeaders final (frame content +:+ rest) = (Ok (Z.of_nat (String.length content)), content +:+ rest)) as ->.
  { apply readHeaders_ok. exists [length_line (String.length content)], (str1 carriage_return).
    rewrite frame_lines. split_and!; [done|simpl; lia|by apply Forall_singleton| |done|].
    - done.
    - simpl. by rewrite Hd. }
  unfold ReadFull. rewrite Nat2Z.id, length_str_app, (proj2 (Nat.leb_le _ _)) by lia.
  by rewrite str_take_app, str_drop_app.
Qed.

Lemma readMessage_end : readMessage final "" = (Fail (InputError final), "").
Proof. done. Qed.

Lemma readContent_no_input_error content err : readContent content ≠ Fail (InputError err).
Proof. unfold readContent, invalidRPCRequest. by repeat case_match. Qed.

Lemma received_frames contents fuel : Forall frame_size contents → (length contents < fuel)%nat →
  received final fuel (join (frame <$> contents) "") = Some (readContent <$> contents, final).
Proof.
  intros HF. revert fuel. induction HF as [|content contents Hc HF IH]; intros [|fuel] Hfuel; [lia|done|lia|].
  assert (join (frame <$> content :: contents) "" = frame content +:+ join (frame <$> contents) "") as ->.
  { destruct contents; simpl; [by rewrite str_app_nil_r|done]. }
  cbn [received]. rewrite readMessage_frame by done. simpl in Hfuel.
  pose proof (readContent_no_input_error content) as Hno. rewrite IH by lia. rewrite fmap_cons.
  destruct (readContent content) as [m|[id code msg|err]]; [done|done|by destruct (Hno err)].
Qed.
End messages.

(** ** The mutex of the writer *)

Lemma join_append_last l x : join (l ++ [x]) "" = join l "" +:+ x.
Proof.
  induction l as [|y l IH]; [by rewrite str_nil_app|]. destruct l as [|z l]; [done|].
  change (join ((y :: z :: l) ++ [x]) "") with (y +:+ "" +:+ join ((z :: l) ++ [x]) "").
  rewrite IH. change (join (y :: z :: l) "") with (y +:+ "" +:+ join (z :: l) ""). by rewrite !str_app_assoc.
Qed.

(** What the call that holds the mutex has written so far. *)
Definition half_written (o : output) : string :=
  match out_mu o ≫= λ id, out_calls o !! id with
  | Some (content, AtBody) => header content
  | _ => ""
  end.

Definition writing_now (p : progress) : bool := match p with AtHeader | AtBody => true | _ => false end.
Definition returned_ok (p : progress) : bool := match p with Returned None => true | _ => false end.
Definition at_body (p : progress) : bool := match p with AtBody => true | _ => false end.

Record framed (o : output) : Prop := {
  fr_holder id content p : out_calls o !! id = Some (content, p) → writing_now p = true → out_mu o = Some id;
  fr_mu id : out_mu o = Some id → ∃ content p, out_calls o !! id = Some (content, p) ∧ writing_now p = true;
  fr_sent id content : out_calls o !! id = Some (content, Returned None) → content ∈ out_sent o;
  fr_written : out_torn o = false → out_written o = join (frame <$> out_sent o) "" +:+ half_written o;
}.

(** A call that goes from one place to another. *)
Lemma framed_move o o' id content p : framed o →
  out_calls o' = <[id := (content, p)]> (out_calls o) →
  (out_mu o = None ∨ out_mu o = Some id) →
  out_mu o' = (if writing_now p then Some id else None) →
  out_sent o' = (if returned_ok p then out_sent o ++ [content] else out_sent o) →
  (out_torn o' = false → out_written o' = join (frame <$> out_sent o') "" +:+ (if at_body p then header content else "")) →
  framed o'.
Proof.
  intros [Hh Hm Hs Hw] Ec Hmu Em Es Hw'. split.
  - intros id' content' p'. rewrite Ec. intros [[<- [= <- <-]]|[Hne Hc]]%lookup_insert_Some Hp; [by rewrite Em, Hp|].
    specialize (Hh _ _ _ Hc Hp). destruct Hmu; congruence.
  - intros id'. rewrite Em. destruct (writing_now p) eqn:Hp; [|done]. intros [= <-].
    exists content, p. by rewrite Ec, lookup_insert_eq.
  - intros id' content'. rewrite Ec, Es. intros [[<- [= <- ->]]|[Hne Hc%Hs]]%lookup_insert_Some.
    + apply elem_of_app. right. by apply list_elem_of_singleton.
    + destruct (returned_ok p); [|done]. apply elem_of_app. by left.
  - intros Ht. rewrite (Hw' Ht). f_equal. unfold half_written. rewrite Em. destruct (writing_now p) eqn:Hp.
    + cbn [mbind option_bind]. rewrite Ec, lookup_insert_eq. by destruct p.
    + by destruct p.
Qed.

(** A new call does not touch the output. *)
Lemma framed_new o id content p : framed o → out_calls o !! id = None → writing_now p = false → returned_ok p = false →
  framed (set_call id content p o).
Proof.
  intros [Hh Hm Hs Hw] Hid Hp Hr. split; simpl.
  - intros id' content' p' [[<- [= <- <-]]|[Hne Hc]]%lookup_insert_Some Hp'; [congruence|by eapply Hh].
  - intros id' (content' & p' & Hc & Hp')%Hm. exists content', p'. split; [|done].
    rewrite lookup_insert_ne; [done|]. intros ->. congruence.
  - intros id' content' [[<- [= <- ->]]|[Hne Hc]]%lookup_insert_Some; [done|by eapply Hs].
  - intros Ht. rewrite (Hw Ht). f_equal. unfold half_written. simpl. destruct (out_mu o) as [id'|] eqn:Em; [|done].
    cbn [mbind option_bind]. destruct (Hm id' eq_refl) as (c & q & Hc & _).
    rewrite lookup_insert_ne; [done|]. intros ->. congruence.
Qed.

Lemma writeStep_framed `{JsonCodec} act o o' : framed o → writeStep act o = Some o' → framed o'.
Proof.
  intros Hf. pose proof Hf as [Hh Hm Hs Hw]. destruct act as [id message|id|id err]; cbn [writeStep].
  - destruct (out_calls o !! id) eqn:Hid; [done|]. destruct (json_Marshal message); intros [= <-]; by apply framed_new.
  - destruct (out_calls o !! id) as [[content []]|] eqn:Hid; try done. destruct (out_mu o) eqn:Em; [done|].
    intros [= <-]. apply (framed_move o _ id content AtHeader); simpl; try done; [by left|].
    intros Ht. rewrite (Hw Ht). unfold half_written. by rewrite Em.
  - destruct (out_calls o !! id) as [[content p]|] eqn:Hid; [|done].
    assert (writing_now p = true → out_mu o = Some id ∧ half_written o = if at_body p then header content else "") as Hmu.
    { intros Hp. specialize (Hh _ _ _ Hid Hp). split; [done|]. unfold half_written. rewrite Hh. cbn [mbind option_bind].
      rewrite Hid. by destruct p. }
    destruct p; try done; destruct (Hmu eq_refl) as [Em Eh]; (destruct err as [[n e]|]; intros [= <-]).
    + by apply (framed_move o _ id content (Returned (Some (ErrWrap "write LSP message header" e)))); simpl; auto.
    + apply (framed_move o _ id content AtBody); simpl; auto.
      intros Ht. by rewrite (Hw Ht), Eh, str_app_nil_r.
    + by apply (framed_move o _ id content (Returned (Some (ErrWrap "write LSP message body" e)))); simpl; auto.
    + apply (framed_move o _ id content (Returned None)); simpl; auto.
      intros Ht. rewrite (Hw Ht), Eh, fmap_app. simpl. by rewrite join_append_last, str_app_nil_r, str_app_assoc.
Qed.

Lemma written_framed `{JsonCodec} o : written o → framed o.
Proof.
  induction 1 as [|act o o' _ IH Hs]; [|by eapply writeStep_framed].
  split; simpl; try done; intros *; by rewrite lookup_empty.
Qed.

(** ** The properties *)

(** C34. readHeaders returns a length exactly when the input starts with fewer than 64
    header lines and then an empty line, each shorter than 8 KiB and ended by a
    newline after an optional carriage return, all header lines have a colon, and
    exactly one of them is a Content-Length (in any case, trimmed), whose decimal
    value is between 1 and 16 MiB; it returns that value and leaves what follows
    the empty line.  As the count is looked at before a line is read, 64 header
    lines are refused even when the empty line follows. *)
Theorem readHeaders_exact `{UnicodeTables} `{CaseFold} `{JsonCodec} (final : error) (s : string) (n : Z) (rest : string) :
  readHeaders final s = (Ok n, rest) ↔
  ∃ raws last, s = lines_before (raws ++ [last]) rest ∧ (length raws < 64)%nat ∧
    Forall header_field raws ∧ raw_line last ∧ line_of last = "" ∧ omap declared raws = [Ok n].
Proof. apply readHeaders_ok. Qed.

(** C35. Whatever the peer sends, readHeaders takes at most 64 lines of 8 KiB off
    the input, each body it asks for has between 1 byte and 16 MiB, and the loop
    of Run gets to the end of a finite input in at most one message per byte. *)
Theorem input_bounded `{UnicodeTables} `{CaseFold} `{JsonCodec} (final : error) (s : string) :
  (∃ t, s = t +:+ (readHeaders final s).2 ∧ (Z.of_nat (String.length t) ≤ 64 * 8192)%Z) ∧
  (∀ n, (readHeaders final s).1 = Ok n → (1 ≤ n ≤ 16777216)%Z) ∧
  is_Some (received final (S (String.length s)) s).
Proof.
  destruct (readHeaders final s) as [r s'] eqn:E.
  destruct (readHeaders_consumed final _ _ _ E) as [(t & Ht & Hl) Hn].
  split_and!; [by exists t|exact Hn|apply received_enough; lia].
Qed.

(** C14. What the writer frames can be read back: from the frames of any contents of
    at least 1 byte and at most 16 MiB each ([frame_size]), one after the other,
    the reader gets exactly these contents in order, and then the error that ends
    the input.  The writer frames an empty or a larger content as well, but the
    reader refuses its length ([readHeaders_exact]). *)
Theorem frames_round_trip `{UnicodeTables} `{CaseFold} `{JsonCodec} (final : error) (contents : list string) :
  Forall frame_size contents →
  ∃ fuel, ∀ fuel', (fuel ≤ fuel')%nat →
    received final fuel' (join (frame <$> contents) "") = Some (readContent <$> contents, final).
Proof. intros HF. exists (S (length contents)). intros fuel' Hle. apply received_frames; [done|lia]. Qed.

(** C11. However calls of the writer interleave, as long as no write has failed
    the output is the frames of the messages sent so far, in one order, and after
    them at most the header of the one call that holds the mutex; a call that
    returns without an error has sent its whole frame. *)
Theorem concurrent_writes_framed `{JsonCodec} (o : output) :
  written o →
  (out_torn o = false → out_written o = join (frame <$> out_sent o) "" +:+ half_written o) ∧
  (∀ id content, out_calls o !! id = Some (content, Returned None) → content ∈ out_sent o) ∧
  (∀ id1 id2 c1 c2 p1 p2, out_calls o !! id1 = Some (c1, p1) → out_calls o !! id2 = Some (c2, p2) →
    writing_now p1 = true → writing_now p2 = true → id1 = id2).
Proof.
  intros [Hh Hm Hs Hw]%written_framed. split_and!; [done|done|].
  intros id1 id2 c1 c2 p1 p2 H1 H2 Hp1 Hp2. pose proof (Hh _ _ _ H1 Hp1). pose proof (Hh _ _ _ H2 Hp2). congruence.
Qed.

(** ** Concrete streams *)

(** A codec of messages that are a method after a hash sign. *)
Definition toy_codec : JsonCodec := {|
  json_Valid := λ s, has_prefix s "#";
  json_Unmarshal := λ s, Some (mkMessage "2.0" "" (str_drop 1 s) "");
  json_Marshal := λ m, match m with
    | Notification method _ => Ok ("#" +:+ method)
    | _ => Fail (ErrNew "unsupported") end;
|}.

Lemma frames_round_trip_witness :
  Forall frame_size ["#exit"; "x"] ∧
  ∃ fuel, ∀ fuel', (fuel ≤ fuel')%nat →
    @received ascii_tables ascii_fold toy_codec EOF fuel' (join (frame <$> ["#exit"; "x"]) "") =
      Some (@readContent ascii_tables toy_codec <$> ["#exit"; "x"], EOF).
Proof.
  assert (Forall frame_size ["#exit"; "x"]) as HF by (repeat constructor; done).
  split; [exact HF|]. exact (@frames_round_trip ascii_tables ascii_fold toy_codec EOF _ HF).
Defined.

(** Two notifications, the second waiting for the mutex that the first holds. *)
Definition two_calls : list writing :=
  [Call 1 (Notification "exit" ""); Call 2 (Notification "initialized" ""); Acquire 2; Write 2 None].
Definition run_writes `{JsonCodec} (acts : list writing) : output :=
  foldl (λ o act, default o (writeStep act o)) newOutput acts.

Lemma run_written `{JsonCodec} acts : written (run_writes acts).
Proof.
  unfold run_writes. generalize written_new. generalize newOutput. induction acts as [|act acts IH]; intros o Ho; [done|].
  simpl. apply IH. destruct (writeStep act o) eqn:E; [by eapply written_step|done].
Qed.

Definition two_calls_output : output := @run_writes toy_codec two_calls.

Lemma concurrent_writes_framed_witness :
  out_written two_calls_output = join (frame <$> out_sent two_calls_output) "" +:+ half_written two_calls_output ∧
  half_written two_calls_output ≠ "".
Proof.
  destruct (@concurrent_writes_framed toy_codec two_calls_output (@run_written toy_codec two_calls)) as [Hw _].
  split; [apply Hw; reflexivity|]. intros E. discriminate E.
Defined.

Example oversized_header :
  (@readHeaders ascii_tables ascii_fold EOF ("Content-Length: 16777217" +:+ String carriage_return newline_str)).1 =
    Fail (ErrNew ("invalid LSP Content-Length " +:+ @go_quote ascii_tables " 16777217")).
Proof. vm_compute. reflexivity. Qed.

Example lower_case_header :
  @readMessage ascii_tables ascii_fold toy_codec EOF
    ("X: y" +:+ newline_str +:+ "content-length : +5" +:+ newline_str +:+ newline_str +:+ "#exitmore") =
    (Ok (mkMessage "2.0" "" "exit" ""), "more").
Proof. vm_compute. reflexivity. Qed.
