(* ===== verification/LspSemantic.v ===== *)
(** Semantic tokens of the language server (src/internal/lsp/semantic.go): the
    tokens of the annotation comments of a document, and their encoding relative
    to each other. Offsets are byte offsets in a line; positions count UTF-16 code
    units. *)
From S2P Require Import Prelude GoSort GoStrings GoStrconv GoUrl Diag LspText LspTextTheorems LspServer.

Definition semanticDecoratorToken : Z := 0.
Definition semanticParameterToken : Z := 1.
Definition semanticStringToken : Z := 2.
Definition semanticNumberToken : Z := 3.
Definition semanticKeywordToken : Z := 4.
Definition semanticOperatorToken : Z := 5.

Record semanticToken := mkToken {
  st_line : Z;
  st_start : Z;
  st_length : Z;
  st_kind : Z;
}.

#[export] Instance semanticToken_eq_dec : EqDecision semanticToken.
Proof. solve_decision. Defined.

(** [token] is the token when [emit] is set. *)
Record annotationSemanticStep := mkStep {
  as_token : option semanticToken;
  as_next : nat;
  as_stop : bool;
}.

(** ** Characters *)

Definition isASCIIDigit (value : ascii) : bool := in_range 48 57 (byte_of value).

Definition annotationIdentifierStart (value : ascii) : bool :=
  bool_decide (value = "_"%char) || in_range 97 122 (byte_of value) || in_range 65 90 (byte_of value).

Definition isAnnotationOperator (value : ascii) : bool :=
  bool_decide (value ∈ ["="; "("; ")"; "["; "]"; ","]%char).

Definition horizontal (value : ascii) : bool := bool_decide (value = " "%char ∨ value = chr 9).

Fixpoint blanks (s : string) : nat :=
  match s with
  | String c s' => if horizontal c then S (blanks s') else O
  | EmptyString => O
  end.

Definition skipHorizontalWhitespace (content : string) (offset : nat) : nat :=
  (offset + blanks (str_drop offset content))%nat.

Definition nextNonSpace (content : string) (start : nat) : ascii :=
  default (chr 0) (str_get (skipHorizontalWhitespace content start) content).

Section semantic.
Context `{UnicodeTables}.

Definition isAnnotationIdentifierCharacter (character : N) : bool := is_letter character || is_digit character.

(** The loops of [annotationNameEnd] and [annotationIdentifierEnd]: the width of
    the valid runes in front that are accepted. *)
Fixpoint accepted_width (p : N → bool) (fuel : nat) (s : string) : nat :=
  match fuel, s with
  | S fuel', String _ _ =>
      let '(character, size) := decode_rune s in
      if bool_decide (character = rune_error ∧ size = 1%nat) then O
      else if negb (p character) then O
      else (size + accepted_width p fuel' (str_drop size s))%nat
  | _, _ => O
  end.

Definition name_character (character : N) : bool :=
  (character =? 46)%N || (character =? 95)%N || isAnnotationIdentifierCharacter character.
Definition identifier_character (character : N) : bool :=
  (character =? 95)%N || isAnnotationIdentifierCharacter character.

Definition annotationNameEnd (content : string) (start : nat) : nat :=
  (start + accepted_width name_character (String.length content) (str_drop start content))%nat.
Definition annotationIdentifierEnd (content : string) (start : nat) : nat :=
  (start + accepted_width identifier_character (String.length content) (str_drop start content))%nat.

(** How far a string goes on behind its first quote. *)
Fixpoint quoted_width (escaped : bool) (s : string) : nat :=
  match s with
  | EmptyString => O
  | String c s' =>
      if escaped then S (quoted_width false s')
      else if bool_decide (c = backslash) then S (quoted_width true s')
      else if bool_decide (c = dquote) then 1
      else S (quoted_width false s')
  end.

Definition quotedStringEnd (content : string) (start : nat) : nat :=
  (S start + quoted_width false (str_drop (S start) content))%nat.

Definition numberEnd (content : string) (start : nat) : nat :=
  let start := if bool_decide (str_get start content = Some "-"%char) then S start else start in
  (start + digits (str_drop start content))%nat.

Definition isNumberStart (content : string) (offset : nat) : bool :=
  match str_drop offset content with
  | String c s =>
      isASCIIDigit c ||
      bool_decide (c = "-"%char) && match s with String d _ => isASCIIDigit d | EmptyString => false end
  | EmptyString => false
  end.

(** ** The tokens of a line *)

Definition semanticTokenAt (lineContent : string) (line : Z) (start stop : nat) (kind : Z) : semanticToken :=
  mkToken line (utf16Length (str_take start lineContent)) (utf16Length (str_slice start stop lineContent)) kind.

Definition annotationNameBounds (lineContent : string) : option (nat * nat) :=
  let offset := skipHorizontalWhitespace lineContent 0 in
  if negb (has_prefix (str_drop offset lineContent) "//") then None
  else
    let offset := skipHorizontalWhitespace lineContent (offset + 2) in
    if negb (bool_decide (str_get offset lineContent = Some "@"%char)) then None
    else
      let stop := annotationNameEnd lineContent (S offset) in
      if (stop =? S offset)%nat then None else Some (offset, stop).

Definition annotationTokenStep (content : string) (line : Z) (start stop : nat) (kind : Z) : annotationSemanticStep :=
  mkStep (Some (semanticTokenAt content line start stop kind)) stop false.

(** The step at an offset in the line. *)
Definition nextAnnotationSemanticStep (content : string) (line : Z) (offset : nat) : annotationSemanticStep :=
  match str_get offset content with
  | None => mkStep None offset true
  | Some c =>
    if bool_decide (c = dquote) then
      annotationTokenStep content line offset (quotedStringEnd content offset) semanticStringToken
    else if isNumberStart content offset then
      annotationTokenStep content line offset (numberEnd content offset) semanticNumberToken
    else if annotationIdentifierStart c then
      let stop := annotationIdentifierEnd content offset in
      annotationTokenStep content line offset stop
        (if bool_decide (nextNonSpace content stop = "="%char) then semanticParameterToken else semanticKeywordToken)
    else if isAnnotationOperator c then
      mkStep (Some (semanticTokenAt content line offset (S offset) semanticOperatorToken)) (S offset)
        (bool_decide (c = ")"%char))
    else mkStep None (offset + max (decode_rune (str_drop offset content)).2 1) false
  end.

(** The loop over the arguments; [None] when the fuel is used up. *)
Fixpoint argumentsLoop (fuel : nat) (lineContent : string) (line : Z) (offset : nat) : option (list semanticToken) :=
  match fuel with
  | O => None
  | S fuel' =>
    if (offset <? String.length lineContent)%nat then
      let offset := skipHorizontalWhitespace lineContent offset in
      if (String.length lineContent <=? offset)%nat then Some []
      else
        let step := nextAnnotationSemanticStep lineContent line offset in
        if as_stop step then Some (option_list (as_token step))
        else (λ rest, option_list (as_token step) ++ rest) <$> argumentsLoop fuel' lineContent line (as_next step)
    else Some []
  end.

Definition annotationLineSemanticTokens (lineContent : string) (line : Z) : list semanticToken :=
  match annotationNameBounds lineContent with
  | None => []
  | Some (nameStart, nameEnd) =>
    semanticTokenAt lineContent line nameStart nameEnd semanticDecoratorToken ::
    let offset := skipHorizontalWhitespace lineContent nameEnd in
    if negb (bool_decide (str_get offset lineContent = Some "("%char)) then []
    else default [] (argumentsLoop (S (String.length lineContent)) lineContent line offset)
  end.

(** ** The tokens of a document *)

(** The loop over the lines of [rest], the text from [start] on. *)
Fixpoint linesLoop (fuel : nat) (rest : string) (line : Z) : option (list semanticToken) :=
  match fuel with
  | O => None
  | S fuel' =>
    let tokens (content : string) :=
      annotationLineSemanticTokens (trim_suffix content (str1 carriage_return)) line in
    match index_byte newline rest with
    | None => Some (tokens rest)
    | Some stop =>
        (λ later, tokens (str_take stop rest) ++ later) <$> linesLoop fuel' (str_drop (S stop) rest) (line + 1)
    end
  end.

Definition annotationSemanticTokens (content : string) : list semanticToken :=
  default [] (linesLoop (S (String.length content)) content 0).

(** ** The encoding *)

(** The conversion of an int to uint32 *)
Definition uint32 (z : Z) : Z := z `mod` 2 ^ 32.

(** The loop of [encodeSemanticTokens] with the line and start of the token
    before. *)
Fixpoint encodeLoop (tokens : list semanticToken) (previousLine previousStart : Z) : list Z :=
  match tokens with
  | [] => []
  | token :: tokens' =>
    let deltaLine := (st_line token - previousLine)%Z in
    let deltaStart := (if deltaLine =? 0 then st_start token - previousStart else st_start token)%Z in
    [uint32 deltaLine; uint32 deltaStart; uint32 (st_length token); uint32 (st_kind token); 0%Z] ++
    encodeLoop tokens' (st_line token) (st_start token)
  end.

Definition encodeSemanticTokens (tokens : list semanticToken) : list Z := encodeLoop tokens 0 0.

(** The data that the server answers for a document. *)
Definition semanticTokens (documents : gmap string document) (uri : string) : list Z :=
  match documents !! uri with
  | None => []
  | Some source => encodeSemanticTokens (annotationSemanticTokens (dc_content source))
  end.
End semantic.

(** ** Boundaries of runes *)

(** The bytes of a rune behind its first are not ASCII. *)
Lemma rune_continuation s j c : (0 < j < (decode_rune s).2)%nat → str_get j s = Some c → (128 <= byte_of c)%N.
Proof.
  assert (∀ lo hi d, (128 <= lo)%N → in_range lo hi (byte_of d) = true → (128 <= byte_of d)%N) as Hr.
  { intros lo hi d Hlo. unfold in_range. intros [H1%N.leb_le _]%andb_true_iff. lia. }
  intros [Hj Hw] Hget. revert Hw. unfold decode_rune. destruct s as [|c0 s]; [simpl; lia|].
  destruct (byte_of c0 <? 128)%N; [simpl; lia|]. destruct (negb (in_range 194 244 (byte_of c0))); [simpl; lia|].
  destruct s as [|c1 s]; [simpl; lia|].
  assert (128 <= (if (byte_of c0 =? 224)%N then 160 else if (byte_of c0 =? 240)%N then 144 else 128))%N as Hlo
    by (repeat case_match; lia).
  destruct (in_range _ _ (byte_of c1)) eqn:E1; [|simpl; lia]. simpl negb. cbv iota. apply Hr in E1; [|done].
  destruct j as [|[|j]]; [lia|by injection Hget as <-|].
  destruct (byte_of c0 <? 224)%N; [simpl; lia|]. destruct s as [|c2 s]; [simpl; lia|].
  destruct (in_range 128 191 (byte_of c2)) eqn:E2; [|simpl; lia]. simpl negb. cbv iota. apply Hr in E2; [|done].
  destruct j as [|j]; [by injection Hget as <-|]. destruct (byte_of c0 <? 240)%N; [simpl; lia|].
  destruct s as [|c3 s]; [simpl; lia|]. destruct (in_range 128 191 (byte_of c3)) eqn:E3; [|simpl; lia].
  simpl negb. cbv iota. apply Hr in E3; [|done]. destruct j as [|j]; [by injection Hget as <-|simpl; lia].
Qed.

Lemma boundary_app s n m : rune_boundary s n → rune_boundary (str_drop n s) m → rune_boundary s (n + m).
Proof.
  induction 1 as [s|s n Hne _ IH]; [by rewrite str_drop_0|]. rewrite <-Nat.add_assoc. intros Hm.
  apply boundary_next; [done|]. apply IH. by rewrite str_drop_drop.
Qed.

Lemma boundary_end s : rune_boundary s (String.length s).
Proof.
  induction s as [s IH] using str_length_ind. destruct (decide (s = "")) as [->|Hne]; [apply boundary_start|].
  pose proof (decode_width s Hne) as Hw.
  replace (String.length s) with ((decode_rune s).2 + String.length (str_drop (decode_rune s).2 s))%nat
    by (rewrite length_str_drop; lia).
  apply boundary_next; [done|]. apply IH. rewrite length_str_drop. lia.
Qed.

Lemma str_get_some k s c : str_get k s = Some c → str_drop k s = String c (str_drop (S k) s).
Proof. revert k. induction s as [|d s IH]; intros [|k]; cbn [str_get str_drop]; try done; [by intros [= ->]|apply IH]. Qed.

Lemma str_get_lt k s c : str_get k s = Some c → (k < String.length s)%nat.
Proof. revert k. induction s as [|d s IH]; intros [|k]; cbn [str_get String.length]; try done; [lia|intros ?%IH; lia]. Qed.

Lemma boundary_first c s n : (byte_of c < 128)%N → rune_boundary s n → rune_boundary (String c s) (S n).
Proof.
  intros Hc Hn. pose proof (decode_ascii c s Hc) as E.
  change (S n) with (1 + n)%nat. replace 1%nat with (decode_rune (String c s)).2 by by rewrite E.
  apply boundary_next; [done|]. by rewrite E.
Qed.

(** An ASCII byte is a rune of its own. *)
Lemma boundary_ascii s k c : str_get k s = Some c → (byte_of c < 128)%N → rune_boundary s k ∧ rune_boundary s (S k).
Proof.
  intros Hk Hc. assert (rune_boundary s k) as Hb.
  { revert k Hk. induction s as [s IH] using str_length_ind. intros k Hk.
    destruct (decide (k = 0)%nat) as [->|Hk0]; [apply boundary_start|].
    assert (s ≠ "") as Hne by (intros ->; by destruct k). pose proof (decode_width s Hne) as Hw.
    destruct (decide (k < (decode_rune s).2)%nat) as [Hlt|Hge].
    { pose proof (rune_continuation s k c ltac:(lia) Hk). lia. }
    replace k with ((decode_rune s).2 + (k - (decode_rune s).2))%nat by lia. apply boundary_next; [done|].
    apply IH; [rewrite length_str_drop; lia|]. rewrite str_get_drop_plus. rewrite <-Hk. f_equal. lia. }
  split; [done|]. replace (S k) with (k + 1)%nat by lia. apply boundary_app; [done|].
  rewrite (str_get_some _ _ _ Hk). apply boundary_first; [done|apply boundary_start].
Qed.

(** The units of a line up to a boundary and from there on. *)
Lemma utf16_split s a b : rune_boundary s a → (a ≤ b)%nat →
  utf16Length (str_take b s) = (utf16Length (str_take a s) + utf16Length (str_slice a b s))%Z.
Proof.
  intros Ha. revert b. induction Ha as [s|s n Hne Hn IH]; intros b Hb.
  - rewrite str_take_0. unfold str_slice. by rewrite str_drop_0, Nat.sub_0_r.
  - replace b with ((decode_rune s).2 + (b - (decode_rune s).2))%nat by lia.
    rewrite !utf16_take_next, (IH (b - (decode_rune s).2)%nat) by (done || lia).
    unfold str_slice. rewrite str_drop_drop.
    replace ((decode_rune s).2 + (b - (decode_rune s).2) - ((decode_rune s).2 + n))%nat
      with (b - (decode_rune s).2 - n)%nat by lia. lia.
Qed.

Lemma utf16_positive s : s ≠ "" → (0 < utf16Length s)%Z.
Proof.
  intros Hs. rewrite utf16_next by done. pose proof (units_positive (decode_rune s).1).
  pose proof (utf16_nonneg (str_drop (decode_rune s).2 s)). lia.
Qed.

(** ** Where the scans stop *)

Lemma blanks_boundary s : rune_boundary s (blanks s).
Proof.
  induction s as [|c s IH]; [apply boundary_start|]. cbn [blanks]. destruct (horizontal c) eqn:E; [|apply boundary_start].
  apply boundary_first; [|done]. unfold horizontal in E. apply bool_decide_eq_true in E as [-> | ->]; done.
Qed.

Lemma digits_boundary s : rune_boundary s (digits s).
Proof.
  induction s as [|c s IH]; [apply boundary_start|]. cbn [digits]. destruct (in_range 48 57 _) eqn:E; [|apply boundary_start].
  apply boundary_first; [|done]. unfold in_range in E. apply andb_true_iff in E as [_ ?%N.leb_le]. lia.
Qed.

Lemma skip_boundary s n : rune_boundary s n → rune_boundary s (skipHorizontalWhitespace s n).
Proof. intros Hn. apply boundary_app; [done|apply blanks_boundary]. Qed.

Lemma quoted_boundary e s : rune_boundary s (quoted_width e s).
Proof.
  assert (quoted_width e s = String.length s ∨ ∃ k, str_get k s = Some dquote ∧ quoted_width e s = S k) as [->|(k & Hk & ->)].
  { revert e. induction s as [|c s IH]; intros e; [by left|]. cbn [quoted_width String.length].
    assert (∀ e', S (quoted_width e' s) = S (String.length s) ∨
      ∃ k, str_get k (String c s) = Some dquote ∧ S (quoted_width e' s) = S k) as Hnext.
    { intros e'. destruct (IH e') as [->|(k & Hk & ->)]; [by left|]. right. by exists (S k). }
    destruct e; [apply Hnext|]. case_bool_decide; [apply Hnext|]. case_bool_decide as Hc; [|apply Hnext].
    right. exists O. by rewrite Hc. }
  - apply boundary_end.
  - by apply (boundary_ascii s k dquote).
Qed.

Section scans.
Context `{UnicodeTables}.

Lemma accepted_boundary p fuel s : rune_boundary s (accepted_width p fuel s).
Proof.
  revert s. induction fuel as [|fuel IH]; intros s; [apply boundary_start|]. destruct s as [|c s]; [apply boundary_start|].
  cbn [accepted_width]. destruct (decode_rune (String c s)) as [r w] eqn:E.
  case_bool_decide; [apply boundary_start|]. destruct (negb (p r)); [apply boundary_start|].
  assert (w = (decode_rune (String c s)).2) as -> by by rewrite E. apply boundary_next; [done|apply IH].
Qed.

(** ** The tokens of a line *)

(** Tokens of a line from an offset on: each covers whole runes, behind the one
    before it. *)
Inductive spans (content : string) (line : Z) : nat → list semanticToken → Prop :=
  | spans_nil from : spans content line from []
  | spans_cons from start stop kind ts :
      (from ≤ start)%nat → (start < stop ≤ String.length content)%nat →
      rune_boundary content start → rune_boundary content stop → (0 ≤ kind ≤ 5)%Z →
      spans content line stop ts →
      spans content line from (semanticTokenAt content line start stop kind :: ts).

Lemma spans_weaken content line from from' ts : spans content line from ts → (from' ≤ from)%nat → spans content line from' ts.
Proof. destruct 1; intros Hle; [constructor|]. econstructor; try done. lia. Qed.

(** A step moves on by whole runes, and its token is what it moves over. *)
Lemma step_spans content line offset c : str_get offset content = Some c → rune_boundary content offset →
  let step := nextAnnotationSemanticStep content line offset in
  (offset < as_next step)%nat ∧ rune_boundary content (as_next step) ∧
  ∀ ts, spans content line (as_next step) ts → spans content line offset (option_list (as_token step) ++ ts).
Proof.
  intros Hc Hb. pose proof (str_get_some _ _ _ Hc) as Hd.
  assert (∀ next kind stop, (offset < next)%nat → rune_boundary content next → (0 ≤ kind ≤ 5)%Z →
    let step := mkStep (Some (semanticTokenAt content line offset next kind)) next stop in
    (offset < as_next step)%nat ∧ rune_boundary content (as_next step) ∧
    ∀ ts, spans content line (as_next step) ts → spans content line offset (option_list (as_token step) ++ ts)) as Htoken.
  { intros next kind stop Hlt Hn Hk. split_and!; [done..|]. intros ts Hts. simpl. constructor; try done.
    pose proof (boundary_le _ _ Hn). lia. }
  unfold nextAnnotationSemanticStep. rewrite Hc. case_bool_decide as Hq.
  { apply Htoken; [unfold quotedStringEnd; lia| |done]. subst c. apply boundary_app; [|apply quoted_boundary].
    by apply (boundary_ascii content offset dquote). }
  destruct (isNumberStart content offset) eqn:Hnum.
  { unfold isNumberStart in Hnum. rewrite Hd in Hnum. unfold numberEnd. rewrite Hc.
    destruct (decide (c = "-"%char)) as [->|Hne].
    - rewrite bool_decide_eq_true_2 by done. apply Htoken; [lia| |done]. apply boundary_app; [|apply digits_boundary].
      by apply (boundary_ascii content offset "-"%char).
    - rewrite bool_decide_eq_false_2 by congruence. rewrite (bool_decide_eq_false_2 (c = _)) in Hnum by done.
      rewrite orb_false_r in Hnum. apply Htoken; [|apply boundary_app; [done|apply digits_boundary]|done].
      rewrite Hd. cbn [digits]. unfold isASCIIDigit in Hnum. rewrite Hnum. lia. }
  destruct (annotationIdentifierStart c) eqn:Hid.
  { apply Htoken; [|apply boundary_app; [done|apply accepted_boundary]|by case_bool_decide].
    unfold annotationIdentifierEnd. pose proof (str_get_lt _ _ _ Hc). destruct (String.length content) as [|len]; [lia|].
    rewrite Hd. cbn [accepted_width]. unfold annotationIdentifierStart, in_range in Hid.
    assert (byte_of c < 128)%N as Hascii.
    { apply orb_true_iff in Hid as [[Hu%bool_decide_eq_true|[_ ?%N.leb_le]%andb_true_iff]%orb_true_iff|[_ ?%N.leb_le]%andb_true_iff];
        [by rewrite Hu|lia..]. }
    rewrite decode_ascii by done. rewrite bool_decide_eq_false_2 by (intros [E _]; rewrite E in Hascii; done).
    assert (identifier_character (byte_of c) = true) as ->; [|simpl; lia].
    unfold identifier_character, isAnnotationIdentifierCharacter, is_letter. rewrite (proj2 (N.ltb_lt _ _)) by done.
    unfold in_range. apply orb_true_iff in Hid as [[Hu%bool_decide_eq_true| ->]%orb_true_iff| ->];
      [by rewrite Hu|by rewrite !orb_true_r..]. }
  destruct (isAnnotationOperator c) eqn:Hop.
  { apply Htoken; [lia| |done]. apply (boundary_ascii content offset c); [done|].
    unfold isAnnotationOperator in Hop. apply bool_decide_eq_true in Hop.
    rewrite !elem_of_cons, elem_of_nil in Hop. by destruct_or! Hop; subst c. }
  pose proof (decode_width (str_drop offset content)) as Hw. rewrite Hd in Hw at 1. specialize (Hw ltac:(done)). simpl.
  rewrite Nat.max_l by lia. split_and!; [lia| |intros ts Hts; apply (spans_weaken _ _ _ _ _ Hts); lia].
  replace (decode_rune (str_drop offset content)).2 with ((decode_rune (str_drop offset content)).2 + 0)%nat by lia.
  apply boundary_app; [done|]. apply boundary_next; [by rewrite Hd|apply boundary_start].
Qed.

(** The loop comes to its end within its fuel. *)
Lemma argumentsLoop_spans fuel content line offset : (String.length content - offset < fuel)%nat → rune_boundary content offset →
  ∃ ts, argumentsLoop fuel content line offset = Some ts ∧ spans content line offset ts.
Proof.
  revert offset. induction fuel as [|fuel IH]; intros offset Hf Hb; [lia|]. cbn [argumentsLoop].
  destruct (offset <? String.length content)%nat eqn:Hlt; [|exists []; split; [done|constructor]].
  apply Nat.ltb_lt in Hlt. pose proof (skip_boundary content offset Hb) as Hs.
  assert (offset ≤ skipHorizontalWhitespace content offset)%nat as Hle by (unfold skipHorizontalWhitespace; lia).
  set (next := skipHorizontalWhitespace content offset) in *.
  destruct (_ <=? next)%nat eqn:Hend; [exists []; split; [done|constructor]|]. apply Nat.leb_gt in Hend.
  assert (is_Some (str_get next content)) as [c Hc].
  { revert Hend. generalize next. clear. intros n. revert content.
    induction n as [|n IH]; intros [|d s] Hn; cbn [str_get String.length] in *; try lia; [by eexists|apply IH; lia]. }
  destruct (step_spans content line next c Hc Hs) as (Hgt & Hb' & Hts).
  set (step := nextAnnotationSemanticStep content line next) in *.
  assert (∃ ts, argumentsLoop fuel content line (as_next step) = Some ts ∧ spans content line (as_next step) ts) as (ts & -> & Hspan).
  { apply IH; [lia|done]. }
  destruct (as_stop step).
  - exists (option_list (as_token step)). split; [done|]. apply (spans_weaken _ _ next); [|done].
    rewrite <-(app_nil_r (option_list _)). apply Hts. constructor.
  - exists (option_list (as_token step) ++ ts). split; [done|]. apply (spans_weaken _ _ next); [by apply Hts|done].
Qed.

Lemma name_bounds_spans content start stop : annotationNameBounds content = Some (start, stop) →
  (start < stop ≤ String.length content)%nat ∧ rune_boundary content start ∧ rune_boundary content stop.
Proof.
  unfold annotationNameBounds. destruct (negb (has_prefix _ _)); [done|].
  set (offset := skipHorizontalWhitespace content (skipHorizontalWhitespace content 0 + 2)).
  case_bool_decide as Hc; [|done]. destruct (_ =? _)%nat eqn:E; [done|]. apply Nat.eqb_neq in E.
  assert (rune_boundary content offset ∧ rune_boundary content (S offset)) as [Hb Hb'] by (by apply (boundary_ascii _ _ "@"%char)).
  assert (rune_boundary content (annotationNameEnd content (S offset))) as Hstop.
  { apply boundary_app; [done|apply accepted_boundary]. }
  cbn [negb]. intros [= <- <-]. split_and!; [unfold annotationNameEnd in *; lia|by apply boundary_le|done|done].
Qed.

Lemma annotationLineSemanticTokens_spans content line : spans content line 0 (annotationLineSemanticTokens content line).
Proof.
  unfold annotationLineSemanticTokens. destruct (annotationNameBounds content) as [[start stop]|] eqn:E; [|constructor].
  apply name_bounds_spans in E as (Hlt & Hb & Hb'). constructor; [lia|done..|].
  destruct (negb _); [constructor|].
  destruct (argumentsLoop_spans (S (String.length content)) content line (skipHorizontalWhitespace content stop))
    as (ts & -> & Hts); [lia|by apply skip_boundary|].
  apply (spans_weaken _ _ _ _ _ Hts). unfold skipHorizontalWhitespace. lia.
Qed.

(** ** The tokens of a document *)

Lemma split_byte_index sep s :
  split_byte sep s = match index_byte sep s with
                     | None => [s]
                     | Some i => str_take i s :: split_byte sep (str_drop (S i) s)
                     end.
Proof.
  induction s as [|c s IH]; [done|]. cbn [split_byte index_byte]. destruct (ascii_dec c sep); [done|].
  rewrite IH. destruct (index_byte sep s) as [i|]; done.
Qed.

Definition line_tokens (first : Z) (i : nat) (text : string) : list semanticToken :=
  annotationLineSemanticTokens (trim_suffix text (str1 carriage_return)) (first + Z.of_nat i).

Lemma linesLoop_split fuel rest line : (String.length rest < fuel)%nat →
  linesLoop fuel rest line = Some (concat (imap (line_tokens line) (split_byte newline rest))).
Proof.
  revert rest line. induction fuel as [|fuel IH]; intros rest line Hf; [lia|]. cbn [linesLoop].
  rewrite split_byte_index. destruct (index_byte newline rest) as [stop|] eqn:E.
  - assert (String.length (str_drop (S stop) rest) < fuel)%nat as Hlt.
    { rewrite length_str_drop. destruct rest; [done|]. simpl in *. lia. }
    rewrite IH by done. cbn [fmap option_fmap option_map imap concat]. unfold line_tokens at 2.
    rewrite Z.add_0_r.
    assert (imap (line_tokens line ∘ S) (split_byte newline (str_drop (S stop) rest)) =
      imap (line_tokens (line + 1)) (split_byte newline (str_drop (S stop) rest))) as ->; [|done].
    apply imap_ext. intros i text _. unfold line_tokens, compose. f_equal. lia.
  - cbn [imap concat]. unfold line_tokens. by rewrite Z.add_0_r, app_nil_r.
Qed.

Lemma annotationSemanticTokens_lines content :
  annotationSemanticTokens content = concat (imap (line_tokens 0) (split_byte newline content)).
Proof. unfold annotationSemanticTokens. by rewrite linesLoop_split by lia. Qed.

(** ** Order *)

(** A token ends before another one starts. *)
Definition precedes (t1 t2 : semanticToken) : Prop :=
  (st_line t1 < st_line t2 ∨ st_line t1 = st_line t2 ∧ st_start t1 + st_length t1 ≤ st_start t2)%Z.

(** A token lies in a line. *)
Definition token_in (content : string) (line : Z) (t : semanticToken) : Prop :=
  st_line t = line ∧ (0 ≤ st_start t ∧ 0 < st_length t ∧ st_start t + st_length t ≤ utf16Length content ∧ 0 ≤ st_kind t ≤ 5)%Z.

Lemma utf16_take_all s n : (String.length s ≤ n)%nat → utf16Length (str_take n s) = utf16Length s.
Proof. intros Hn. by rewrite str_take_all. Qed.

Lemma utf16_take_le s a b : rune_boundary s a → (a ≤ b)%nat → (utf16Length (str_take a s) ≤ utf16Length (str_take b s))%Z.
Proof. intros Ha Hb. rewrite (utf16_split s a b) by done. pose proof (utf16_nonneg (str_slice a b s)). lia. Qed.

Lemma spans_tokens content line from ts : spans content line from ts → rune_boundary content from →
  StronglySorted precedes ts ∧
  Forall (λ t, token_in content line t ∧ (utf16Length (str_take from content) ≤ st_start t)%Z) ts.
Proof.
  induction 1 as [from|from start stop kind ts Hfrom Hstop Hb Hb' Hk _ IH]; intros Hbf; [by split; constructor|].
  destruct (IH Hb') as [Hsort Hall].
  pose proof (utf16_split content start stop Hb ltac:(lia)) as Hu.
  pose proof (utf16_take_le content from start Hbf Hfrom) as Hle.
  split.
  - constructor; [done|]. apply (Forall_impl _ _ _ Hall). intros t [[Hline _] Hge].
    right. simpl. split; [done|]. lia.
  - constructor.
    + split; [|done]. split; [done|]. simpl.
      pose proof (utf16_nonneg (str_take start content)).
      pose proof (utf16_take_le content stop (String.length content) Hb' ltac:(lia)) as Hend.
      rewrite (utf16_take_all content (String.length content)) in Hend by done.
      assert (0 < utf16Length (str_slice start stop content))%Z.
      { apply utf16_positive. intros E. apply (f_equal String.length) in E. unfold str_slice in E.
        rewrite length_str_take, length_str_drop in E. simpl in E. lia. }
      lia.
    + apply (Forall_impl _ _ _ Hall). intros t [Ht Hge]. split; [done|].
      pose proof (utf16_take_le content from stop Hbf ltac:(lia)). lia.
Qed.

Lemma document_tokens_sorted first texts :
  StronglySorted precedes (concat (imap (line_tokens first) texts)) ∧
  ∀ t, t ∈ concat (imap (line_tokens first) texts) → ∃ i text, texts !! i = Some text ∧
    token_in (trim_suffix text (str1 carriage_return)) (first + Z.of_nat i) t.
Proof.
  revert first. induction texts as [|text texts IH]; intros first; [split; [constructor|by intros t ?%elem_of_nil]|].
  cbn [imap concat]. assert (imap (line_tokens first ∘ S) texts = imap (line_tokens (first + 1)) texts) as ->.
  { apply imap_ext. intros i s _. unfold line_tokens, compose. f_equal. lia. }
  destruct (IH (first + 1)%Z) as [Hsort Hin].
  pose proof (annotationLineSemanticTokens_spans (trim_suffix text (str1 carriage_return)) (first + Z.of_nat 0)) as Hspans.
  apply spans_tokens in Hspans as [Hs Hall]; [|apply boundary_start].
  rewrite Forall_forall in Hall. split.
  - apply StronglySorted_app_rel. split_and!; [done..|]. intros t1 t2 [[Hl1 _] _]%Hall (i & s & _ & Hl2 & _)%Hin.
    left. rewrite Hl1, Hl2. lia.
  - intros t [Ht|Ht]%elem_of_app.
    + exists O, text. split; [done|]. by apply Hall.
    + destruct (Hin t Ht) as (i & s & Hi & Ht'). exists (S i), s. split; [done|].
      replace (first + Z.of_nat (S i))%Z with (first + 1 + Z.of_nat i)%Z by lia. done.
Qed.
End scans.

(** ** Decoding *)

(** What a client computes from the data: the absolute positions. *)
Fixpoint decodeLoop (data : list Z) (previousLine previousStart : Z) : list semanticToken :=
  match data with
  | deltaLine :: deltaStart :: length :: kind :: _ :: data' =>
    let line := (previousLine + deltaLine)%Z in
    let start := (if deltaLine =? 0 then previousStart + deltaStart else deltaStart)%Z in
    mkToken line start length kind :: decodeLoop data' line start
  | _ => []
  end.
Definition decodeSemanticTokens (data : list Z) : list semanticToken := decodeLoop data 0 0.

(** Positions that fit in 32 bits *)
Definition representable (t : semanticToken) : Prop :=
  (0 ≤ st_line t < 2 ^ 32 ∧ 0 ≤ st_start t < 2 ^ 32 ∧ 0 ≤ st_length t < 2 ^ 32 ∧ 0 ≤ st_kind t < 2 ^ 32)%Z.

Lemma uint32_small z : (0 ≤ z < 2 ^ 32)%Z → uint32 z = z.
Proof. apply Z.mod_small. Qed.

Lemma decode_encodeLoop tokens line start : (0 ≤ line)%Z → (0 ≤ start)%Z →
  Forall representable tokens → StronglySorted precedes tokens →
  Forall (λ t, line < st_line t ∨ line = st_line t ∧ start ≤ st_start t)%Z tokens →
  decodeLoop (encodeLoop tokens line start) line start = tokens.
Proof.
  intros Hl Hs HF. revert line start Hl Hs. induction HF as [|[l s n k] tokens (H1 & H2 & H3 & H4) HF IH];
    intros line start Hl Hs Hsort Hfrom; [done|]. simpl in H1, H2, H3, H4.
  apply Forall_cons in Hfrom as [Hfrom _]. simpl in Hfrom. apply StronglySorted_inv in Hsort as [Hsort Hnext].
  cbn [encodeLoop app decodeLoop st_line st_start st_length st_kind].
  rewrite (uint32_small (l - line)), (uint32_small n), (uint32_small k) by lia.
  assert (line + (l - line) = l)%Z as -> by lia.
  assert ((if (l - line =? 0)%Z then (start + uint32 (if (l - line =? 0)%Z then s - start else s))%Z
           else uint32 (if (l - line =? 0)%Z then s - start else s)) = s) as ->.
  { destruct (l - line =? 0)%Z eqn:E; [apply Z.eqb_eq in E|apply Z.eqb_neq in E]; rewrite uint32_small; lia. }
  f_equal. apply IH; [lia|lia|done|]. apply (Forall_impl _ _ _ Hnext). intros t. unfold precedes. simpl. lia.
Qed.

(** ** The properties *)

Lemma split_byte_lengths sep s text i : split_byte sep s !! i = Some text →
  (String.length text ≤ String.length s)%nat ∧ (i ≤ String.length s)%nat.
Proof.
  revert i. induction s as [s IH] using str_length_ind. intros i. rewrite split_byte_index.
  destruct (index_byte sep s) as [n|] eqn:E.
  - destruct s as [|c s]; [done|]. destruct i as [|i]; cbn [lookup list_lookup].
    + intros [= <-]. rewrite length_str_take. lia.
    + intros Hi. apply IH in Hi; rewrite length_str_drop in *; simpl in *; lia.
  - destruct i as [|i]; [|done]. intros [= <-]. lia.
Qed.

Lemma trim_suffix_length s x : (String.length (trim_suffix s x) ≤ String.length s)%nat.
Proof. unfold trim_suffix. case_match; [rewrite length_str_take|]; lia. Qed.

(** The semantic tokens of a document are those of its lines, in order; each
    token has at least one UTF-16 unit and lies in its line without the line end;
    no token overlaps the next one, and its kind is one of the legend. *)
Theorem semantic_tokens_ordered `{UnicodeTables} (content : string) :
  annotationSemanticTokens content = concat (imap (line_tokens 0) (split_byte newline content)) ∧
  StronglySorted precedes (annotationSemanticTokens content) ∧
  ∀ t, t ∈ annotationSemanticTokens content → ∃ i text, split_byte newline content !! i = Some text ∧
    token_in (trim_suffix text (str1 carriage_return)) (Z.of_nat i) t.
Proof.
  rewrite annotationSemanticTokens_lines. split; [done|].
  destruct (document_tokens_sorted 0 (split_byte newline content)) as [Hs Hin]. split; [done|].
  intros t (i & text & Hi & Ht)%Hin. by exists i, text.
Qed.

(** C36. A client that adds up the relative positions of the data it gets for a
    document of less than 2 GiB has the tokens of the document: nothing is cut off
    by the conversion to uint32. *)
Theorem semantic_tokens_round_trip `{UnicodeTables} (documents : gmap string document) (uri : string) (source : document) :
  documents !! uri = Some source → (Z.of_nat (String.length (dc_content source)) < 2 ^ 31)%Z →
  decodeSemanticTokens (semanticTokens documents uri) = annotationSemanticTokens (dc_content source).
Proof.
  intros Hd Hlen. unfold semanticTokens. rewrite Hd. unfold decodeSemanticTokens, encodeSemanticTokens.
  rewrite annotationSemanticTokens_lines. destruct (document_tokens_sorted 0 (split_byte newline (dc_content source))) as [Hs Hin].
  apply decode_encodeLoop; [done|done| |done|].
  - apply Forall_forall. intros t (i & text & Hi & Hline & Hr)%Hin. apply split_byte_lengths in Hi as [Htext Hi].
    pose proof (trim_suffix_length text (str1 carriage_return)).
    pose proof (utf16_nonneg (trim_suffix text (str1 carriage_return))). unfold representable. lia.
  - apply Forall_forall. intros t (i & text & Hi & Hline & Hr)%Hin. lia.
Qed.

Definition annotated_text : string :=
  "package main" +:+ newline_str +:+ str1 (chr 9) +:+ "// @a.B(x=-12, [" +:+ str1 dquote +:+ "q" +:+ str1 dquote +:+ "])" +:+
  str1 carriage_return +:+ newline_str +:+ "// @C".

Example annotated_tokens : @annotationSemanticTokens ascii_tables annotated_text =
  [mkToken 1 4 4 0; mkToken 1 8 1 5; mkToken 1 9 1 1; mkToken 1 10 1 5; mkToken 1 11 3 3; mkToken 1 14 1 5;
   mkToken 1 16 1 5; mkToken 1 17 3 2; mkToken 1 20 1 5; mkToken 1 21 1 5; mkToken 2 3 2 0].
Proof. vm_compute. reflexivity. Qed.

Lemma semantic_tokens_round_trip_witness :
  let source := mkDocument "u" "/a.go" "go" 1 annotated_text "" in
  let documents := <["u" := source]> ∅ in
  documents !! "u" = Some source ∧
  decodeSemanticTokens (@semanticTokens ascii_tables documents "u") = @annotationSemanticTokens ascii_tables annotated_text.
Proof.
  split; [apply lookup_insert_eq|].
  refine (@semantic_tokens_round_trip ascii_tables _ "u" (mkDocument "u" "/a.go" "go" 1 annotated_text "") _ _).
  - apply lookup_insert_eq.
  - vm_compute. reflexivity.
Defined.
