(* ===== verification/StyleConfig.v ===== *)
(** The style configuration of package [compiler/style]
    (src/compiler/style/configuration.go): the schema-two contract and its
    validation. Decoding JSON is a class, and so is whether a pattern is a regular
    expression. *)
From S2P Require Import Prelude GoSort GoStrings GoRoot GoPath ServiceRequest.

(** ** Data *)

(** [CGOEnabled] is a pointer to a bool. *)
Record StyleSelection := mkStyleSelection {
  ss_Name : string;
  ss_SourceRoots : list string;
  ss_GOOS : string;
  ss_GOARCH : string;
  ss_CGOEnabled : option bool;
  ss_Tags : list string;
}.

Record PublicRoute := mkPublicRoute {
  pr_Package : string;
  pr_Receiver : string;
  pr_Method : string;
  pr_Reason : string;
  pr_Issue : string;
}.

Record PackageFunctionException := mkFunctionException {
  fe_Glob : string;
  fe_Symbol : string;
  fe_SymbolPattern : string;
  fe_ContributionKind : string;
  fe_Maximum : Z;
  fe_Reason : string;
}.

Record PackageVariableException := mkVariableException {
  ve_Glob : string;
  ve_Symbol : string;
  ve_Type : string;
  ve_Reason : string;
  ve_Issue : string;
}.

(** [RuleLevel] is a string. *)
Definition RuleLevelOff : string := "off".
Definition RuleLevelWarning : string := "warning".
Definition RuleLevelError : string := "error".

Record Rules := mkRules {
  OnePrimaryTypePerFile : string;
  MethodsInPrimaryFile : string;
  FileNameMatchesType : string;
  PackageFunctions : string;
  ExplicitConstructors : string;
  ExplicitManagedScopes : string;
  BanInit : string;
  BanMutablePackageState : string;
  PrivateManagedFields : string;
  ModuleOwnership : string;
  RouteClassification : string;
  ContextFirst : string;
  ErrorLast : string;
  MaxTypeFileLines : Z;
}.

Record Configuration := mkConfiguration {
  cfg_SchemaVersion : Z;
  cfg_Profile : string;
  cfg_SourceRoots : list string;
  cfg_GeneratedRoots : list string;
  cfg_BuildSelections : list StyleSelection;
  cfg_Rules : Rules;
  cfg_PublicRoutes : list PublicRoute;
  cfg_AllowedBoundaryFiles : list string;
  cfg_PackageFunctionExceptions : list PackageFunctionException;
  cfg_PackageVariableExceptions : list PackageVariableException;
}.

(** A [ConfigurationError] with its code and problem, as an error value. *)
Definition ConfigurationError_Error (code problem : string) : error :=
  ErrTyped code (code +:+ ": " +:+ problem).

Definition configurationSchemaError : string → error := ConfigurationError_Error "spice.style.configuration.schema".
Definition configurationCapabilityError : string → error :=
  ConfigurationError_Error "spice.style.configuration.unsupported-rule".
Definition configurationSourceError : string → error :=
  ConfigurationError_Error "spice.style.configuration.source-selection".
Definition configurationBuildError : string → error :=
  ConfigurationError_Error "spice.style.configuration.build-selection".

Definition styleSchemaVersion : Z := 2.
Definition maximumConfigurationBytes : Z := 2 ^ 20.

(** [regexp.Compile], whether it accepts a pattern; and a [json.Decoder] without
    unknown fields on a content: its first value, and what it finds behind that,
    [None] for the end. *)
Class StyleLibraries := {
  regexp_compiles : string → bool;
  json_configuration : string → outcome string Configuration;
  json_trailing : string → option (outcome string ());
}.

(** ** Loops that stop at an error *)

Section loops.
Context {A : Type}.

(** [for index, x := range l { if err := f(index, x); err != nil { return err } }] *)
Fixpoint each_from (index : nat) (f : nat → A → outcome error ()) (l : list A) : outcome error () :=
  match l with
  | [] => Ok ()
  | x :: l' => _ ← f index x; each_from (S index) f l'
  end.
Definition each (f : nat → A → outcome error ()) (l : list A) : outcome error () := each_from 0 f l.
End loops.

(** [slices.IsSorted] *)
Fixpoint is_sorted (l : list string) : bool :=
  match l with
  | x :: (y :: _) as l' => negb (str_ltb y x) && is_sorted l'
  | _ => true
  end.

(** ** Roots *)

Section validation.
Context `{UnicodeTables}.

Definition validConfigurationRoot (root : string) : bool :=
  negb (bool_decide (root = "")) && negb (bool_decide (root = ".")) && bool_decide (path_clean root = root) &&
  negb (path_is_abs root) && negb (has_prefix root "../") && negb (contains root (str1 backslash)).

(** The loop of [validateConfigurationRoots] with the roots seen so far. *)
Fixpoint rootsLoop (field previous : string) (seen roots : list string) : outcome error () :=
  match roots with
  | [] => Ok ()
  | root :: roots' =>
    if bool_decide (root = previous) then
      Fail (configurationSourceError (field +:+ " contains duplicate " +:+ go_quote root))
    else if negb (validConfigurationRoot root) then
      Fail (configurationSourceError (field +:+ " contains invalid root " +:+ go_quote root))
    else
      _ ← each (λ _ owner, guard_or (negb (has_prefix root (owner +:+ "/")))
        (configurationSourceError (field +:+ " contains overlapping roots " +:+ go_quote owner +:+
          " and " +:+ go_quote root))) seen;
      rootsLoop field root (seen ++ [root]) roots'
  end.

Definition validateConfigurationRoots (field : string) (roots : list string) : outcome error () :=
  if bool_decide (roots = []) then Fail (configurationSourceError (field +:+ " must not be empty"))
  else if negb (is_sorted roots) then Fail (configurationSourceError (field +:+ " must be sorted"))
  else rootsLoop field "" [] roots.

(** The inner loop of [validateGeneratedRoots] *)
Fixpoint generatedOwner (generated owner : string) (sources : list string) : outcome error string :=
  match sources with
  | [] => Ok owner
  | source :: sources' =>
    if bool_decide (generated = source) then
      Fail (configurationSourceError ("generated root " +:+ go_quote generated +:+
        " must not be reintroduced as a source root"))
    else generatedOwner generated (if has_prefix generated (source +:+ "/") then source else owner) sources'
  end.

Definition validateGeneratedRoots (configuration : Configuration) : outcome error () :=
  each (λ _ generated,
    owner ← generatedOwner generated "" (cfg_SourceRoots configuration);
    guard_or (negb (bool_decide (owner = "")))
      (configurationSourceError ("generated root " +:+ go_quote generated +:+
        " is outside the declared source universe")))
    (cfg_GeneratedRoots configuration).

(** ** Rules *)

Definition entries (rules : Rules) : list (string * string) := [
  ("onePrimaryTypePerFile", OnePrimaryTypePerFile rules);
  ("methodsInPrimaryTypeFile", MethodsInPrimaryFile rules);
  ("fileNameMatchesType", FileNameMatchesType rules);
  ("packageFunctions", PackageFunctions rules);
  ("explicitConstructors", ExplicitConstructors rules);
  ("explicitManagedScopes", ExplicitManagedScopes rules);
  ("banInit", BanInit rules);
  ("banMutablePackageState", BanMutablePackageState rules);
  ("privateManagedFields", PrivateManagedFields rules);
  ("moduleOwnership", ModuleOwnership rules);
  ("routeClassification", RouteClassification rules);
  ("contextFirst", ContextFirst rules);
  ("errorLast", ErrorLast rules)].

Definition level_valid (level : string) : bool :=
  bool_decide (level ∈ [RuleLevelOff; RuleLevelWarning; RuleLevelError]).

Definition Rules_validate (rules : Rules) : outcome error () :=
  _ ← each (λ _ '(name, level), guard_or (level_valid level)
    (configurationSchemaError ("rule " +:+ name +:+ " has unsupported level"))) (entries rules);
  guard_or (negb ((MaxTypeFileLines rules <? 1)%Z || (10000 <? MaxTypeFileLines rules)%Z))
    (configurationSchemaError "maxTypeFileLines must be between 1 and 10000").

Record ruleCapability := mkCapability {
  rc_name : string;
  rc_requiredPhase : string;
  rc_implemented : bool;
}.

Definition ruleCapabilities : list ruleCapability := [
  mkCapability "onePrimaryTypePerFile" "structural" true;
  mkCapability "methodsInPrimaryTypeFile" "structural" true;
  mkCapability "fileNameMatchesType" "structural" true;
  mkCapability "packageFunctions" "structural + typed" true;
  mkCapability "explicitConstructors" "typed" true;
  mkCapability "explicitManagedScopes" "typed" true;
  mkCapability "banInit" "structural" true;
  mkCapability "banMutablePackageState" "structural" true;
  mkCapability "privateManagedFields" "typed" true;
  mkCapability "moduleOwnership" "typed" true;
  mkCapability "routeClassification" "typed" true;
  mkCapability "contextFirst" "structural" true;
  mkCapability "errorLast" "structural" true;
  mkCapability "maxTypeFileLines" "structural" true].

Definition validateRuleCapabilities (rules : Rules) : outcome error () :=
  let levels : gmap string string := foldl (λ m '(name, level), <[name := level]> m) ∅ (entries rules) in
  each (λ _ capability,
    let enabled := bool_decide (rc_name capability = "maxTypeFileLines") ||
      negb (bool_decide (default "" (levels !! rc_name capability) = RuleLevelOff)) in
    guard_or (negb (enabled && negb (rc_implemented capability)))
      (configurationCapabilityError ("enabled rule " +:+ go_quote (rc_name capability) +:+
        " requires an unimplemented " +:+ rc_requiredPhase capability +:+ " phase")))
    ruleCapabilities.

(** ** Build selections *)

(** Every byte of a text is accepted. *)
Fixpoint all_bytes (p : N → bool) (s : string) : bool :=
  match s with
  | String c s' => p (byte_of c) && all_bytes p s'
  | EmptyString => true
  end.

(** The pattern of selection names: words of lower-case letters and digits with
    one hyphen between two of them. *)
Definition name_byte (b : N) : bool := in_range 97 122 b || in_range 48 57 b.
Definition selection_name (name : string) : bool :=
  forallb (λ word, negb (bool_decide (word = "")) && all_bytes name_byte word) (split_byte "-" name).

(** The pattern of build tags *)
Definition tag_byte (b : N) : bool :=
  in_range 65 90 b || in_range 97 122 b || in_range 48 57 b || (b =? 95)%N.
Definition build_tag (tag : string) : bool :=
  match tag with
  | String c rest => tag_byte (byte_of c) && all_bytes (λ b, tag_byte b || (b =? 46)%N) rest
  | EmptyString => false
  end.

Definition supportedBuildPairs : list string := [
  "aix/ppc64"; "android/386"; "android/amd64"; "android/arm"; "android/arm64";
  "darwin/amd64"; "darwin/arm64"; "dragonfly/amd64"; "freebsd/386"; "freebsd/amd64";
  "freebsd/arm"; "freebsd/arm64"; "illumos/amd64"; "ios/amd64"; "ios/arm64"; "js/wasm";
  "linux/386"; "linux/amd64"; "linux/arm"; "linux/arm64"; "linux/loong64"; "linux/mips";
  "linux/mips64"; "linux/mips64le"; "linux/mipsle"; "linux/ppc64"; "linux/ppc64le";
  "linux/riscv64"; "linux/s390x"; "netbsd/386"; "netbsd/amd64"; "netbsd/arm";
  "netbsd/arm64"; "openbsd/386"; "openbsd/amd64"; "openbsd/arm"; "openbsd/arm64";
  "openbsd/ppc64"; "openbsd/riscv64"; "plan9/386"; "plan9/amd64"; "plan9/arm";
  "solaris/amd64"; "wasip1/wasm"; "windows/386"; "windows/amd64"; "windows/arm64"].

Definition supportedBuildPair (goos goarch : string) : bool :=
  bool_decide (goos +:+ "/" +:+ goarch ∈ supportedBuildPairs).

(** The loop of [validateBuildTags] *)
Fixpoint tagsLoop (name previous : string) (tags : list string) : outcome error () :=
  match tags with
  | [] => Ok ()
  | tag :: tags' =>
    if negb (build_tag tag) || bool_decide (tag = "cgo") then
      Fail (configurationBuildError ("selection " +:+ go_quote name +:+ " has invalid tag " +:+ go_quote tag))
    else if bool_decide (tag = previous) then
      Fail (configurationBuildError ("selection " +:+ go_quote name +:+ " has duplicate tag " +:+ go_quote tag))
    else tagsLoop name tag tags'
  end.

Definition validateBuildTags (selection : StyleSelection) : outcome error () :=
  _ ← guard_or (is_sorted (ss_Tags selection))
    (configurationBuildError ("selection " +:+ go_quote (ss_Name selection) +:+ " tags must be sorted"));
  tagsLoop (ss_Name selection) "" (ss_Tags selection).

Definition format_bool (b : bool) : string := if b then "true" else "false".

(** The pointer is not nil where the identity is taken. *)
Definition buildSelectionIdentity (selection : StyleSelection) : string :=
  join [ss_GOOS selection; ss_GOARCH selection; format_bool (default false (ss_CGOEnabled selection));
        join (ss_Tags selection) ","] nul_str.

Definition buildSelectionKey (selection : StyleSelection) : string :=
  buildSelectionIdentity selection +:+ nul_str +:+ join (ss_SourceRoots selection) "," +:+ nul_str +:+ ss_Name selection.

Record buildSelectionState := mkSelectionState {
  bss_declaredRoots : gset string;
  bss_coveredRoots : gset string;
  bss_names : gset string;
  bss_identities : gset string;
  bss_previousKey : string;
}.

Definition newBuildSelectionState (configuration : Configuration) : buildSelectionState :=
  mkSelectionState (list_to_set (cfg_SourceRoots configuration)) ∅ ∅ ∅ "".

(** The loop over the roots of a selection: the covered roots afterwards. *)
Fixpoint coverRoots (name : string) (declared covered : gset string) (roots : list string)
    : outcome error (gset string) :=
  match roots with
  | [] => Ok covered
  | root :: roots' =>
    if decide (root ∈ declared) then coverRoots name declared ({[root]} ∪ covered) roots'
    else Fail (configurationSourceError ("selection " +:+ go_quote name +:+ " uses undeclared root " +:+ go_quote root))
  end.

Definition validateSelection (index : nat) (selection : StyleSelection) (state : buildSelectionState)
    : outcome error buildSelectionState :=
  let name := ss_Name selection in
  _ ← guard_or (selection_name name)
    (configurationBuildError ("selection " +:+ itoa (Z.of_nat index) +:+ " has invalid name " +:+ go_quote name));
  _ ← guard_or (negb (bool_decide (name ∈ bss_names state)))
    (configurationBuildError ("duplicate selection name " +:+ go_quote name));
  _ ← guard_or (bool_decide (ss_CGOEnabled selection ≠ None))
    (configurationBuildError ("selection " +:+ go_quote name +:+ " omits cgoEnabled"));
  _ ← guard_or (supportedBuildPair (ss_GOOS selection) (ss_GOARCH selection))
    (configurationBuildError ("selection " +:+ go_quote name +:+ " uses unsupported pair " +:+
      ss_GOOS selection +:+ "/" +:+ ss_GOARCH selection));
  _ ← validateConfigurationRoots ("selection " +:+ name +:+ " sourceRoots") (ss_SourceRoots selection);
  covered ← coverRoots name (bss_declaredRoots state) (bss_coveredRoots state) (ss_SourceRoots selection);
  _ ← validateBuildTags selection;
  let identity := buildSelectionIdentity selection in
  _ ← guard_or (negb (bool_decide (identity ∈ bss_identities state)))
    (configurationBuildError ("selection " +:+ go_quote name +:+ " duplicates a build context"));
  let key := buildSelectionKey selection in
  _ ← guard_or (negb (negb (bool_decide (bss_previousKey state = "")) && str_ltb key (bss_previousKey state)))
    (configurationBuildError ("selection " +:+ go_quote name +:+ " is out of canonical order"));
  Ok (mkSelectionState (bss_declaredRoots state) covered ({[name]} ∪ bss_names state)
    ({[identity]} ∪ bss_identities state) key).

Fixpoint selectionsLoop (index : nat) (selections : list StyleSelection) (state : buildSelectionState)
    : outcome error buildSelectionState :=
  match selections with
  | [] => Ok state
  | selection :: selections' =>
    state' ← validateSelection index selection state;
    selectionsLoop (S index) selections' state'
  end.

Definition validateBuildSelections (configuration : Configuration) : outcome error () :=
  if bool_decide (cfg_BuildSelections configuration = []) then
    Fail (configurationBuildError "buildSelections must not be empty")
  else
    state ← selectionsLoop 0 (cfg_BuildSelections configuration) (newBuildSelectionState configuration);
    each (λ _ root, guard_or (bool_decide (root ∈ bss_coveredRoots state))
      (configurationSourceError ("source root " +:+ go_quote root +:+ " is not covered by a build selection")))
      (cfg_SourceRoots configuration).

(** ** Exceptions *)

Context `{StyleLibraries}.

Definition blank (s : string) : bool := bool_decide (trim_space s = "").

Definition validateConfigurationGlob (pattern : string) : outcome string () :=
  if bool_decide (pattern = "") || path_is_abs pattern || contains pattern (str1 backslash) then
    Fail "glob must be a non-empty slash-separated relative pattern"
  else if contains pattern ".." then Fail "glob must not contain parent traversal"
  else Ok ().

Definition FunctionException_validate (exception : PackageFunctionException) : outcome string () :=
  _ ← validateConfigurationGlob (fe_Glob exception);
  _ ← guard_or (negb (blank (fe_Reason exception))) "reason is required";
  let set (s : string) : nat := if decide (s = "") then O else 1%nat in
  _ ← guard_or (bool_decide (fe_SymbolPattern exception = "") || regexp_compiles (fe_SymbolPattern exception))
    "symbolPattern is invalid";
  _ ← guard_or (bool_decide (fe_ContributionKind exception ∈ ["" ; "application"; "event-topic"; "provider"]))
    "contributionKind must be application, event-topic, or provider";
  let selectors := (set (fe_Symbol exception) + set (fe_SymbolPattern exception) + set (fe_ContributionKind exception))%nat in
  _ ← guard_or (selectors =? 1)%nat "exactly one symbol, symbolPattern, or contributionKind is required";
  _ ← guard_or (negb (fe_Maximum exception <? 0)%Z) "maximum must not be negative";
  _ ← guard_or (negb (negb (bool_decide (fe_ContributionKind exception = "")) && (fe_Maximum exception =? 0)%Z))
    "contributionKind requires a positive maximum";
  guard_or (negb (bool_decide (fe_ContributionKind exception = "") && negb (fe_Maximum exception =? 0)%Z))
    "maximum is valid only with contributionKind".

Definition VariableException_validate (exception : PackageVariableException) : outcome string () :=
  _ ← validateConfigurationGlob (ve_Glob exception);
  guard_or (negb (bool_decide (ve_Symbol exception = "") || bool_decide (ve_Type exception = "") ||
    blank (ve_Reason exception) || blank (ve_Issue exception))) "symbol, type, reason, and issue are required".

Definition route_complete (route : PublicRoute) : bool :=
  negb (blank (pr_Package route) || blank (pr_Receiver route) || blank (pr_Method route) ||
    blank (pr_Reason route) || blank (pr_Issue route)).

(** An error of an entry, with the place of the entry *)
Definition at_index (field : string) (index : nat) (result : outcome string ()) : outcome error () :=
  match result with
  | Ok _ => Ok ()
  | Fail err => Fail (configurationSchemaError (field +:+ "[" +:+ itoa (Z.of_nat index) +:+ "]: " +:+ err))
  end.

Definition validateExceptions (configuration : Configuration) : outcome error () :=
  _ ← each (λ index route, guard_or (route_complete route)
    (configurationSchemaError ("publicRoutes[" +:+ itoa (Z.of_nat index) +:+ "] is incomplete")))
    (cfg_PublicRoutes configuration);
  _ ← each (λ index pattern, at_index "allowedBoundaryFiles" index (validateConfigurationGlob pattern))
    (cfg_AllowedBoundaryFiles configuration);
  _ ← each (λ index exception, at_index "packageFunctionExceptions" index (FunctionException_validate exception))
    (cfg_PackageFunctionExceptions configuration);
  each (λ index exception, at_index "packageVariableExceptions" index (VariableException_validate exception))
    (cfg_PackageVariableExceptions configuration).

(** ** The configuration *)

Definition style_profile : string := "java-structured".

Definition Validate (configuration : Configuration) : outcome error () :=
  if (cfg_SchemaVersion configuration =? 1)%Z then
    Fail (configurationSchemaError
      "schemaVersion 1 is retired; migrate to schemaVersion 2 and declare exact buildSelections")
  else if negb (cfg_SchemaVersion configuration =? styleSchemaVersion)%Z then
    Fail (configurationSchemaError ("schemaVersion is " +:+ itoa (cfg_SchemaVersion configuration) +:+
      ", want " +:+ itoa styleSchemaVersion))
  else if negb (bool_decide (cfg_Profile configuration = style_profile)) then
    Fail (configurationSchemaError "profile must equal java-structured")
  else
    _ ← validateConfigurationRoots "sourceRoots" (cfg_SourceRoots configuration);
    _ ← validateConfigurationRoots "generatedRoots" (cfg_GeneratedRoots configuration);
    _ ← validateGeneratedRoots configuration;
    _ ← Rules_validate (cfg_Rules configuration);
    _ ← validateRuleCapabilities (cfg_Rules configuration);
    _ ← validateBuildSelections configuration;
    validateExceptions configuration.

Definition requireConfigurationJSONEnd (content : string) : outcome error () :=
  match json_trailing content with
  | None => Ok ()
  | Some (Fail err) => Fail (configurationSchemaError ("decode trailing JSON data: " +:+ err))
  | Some (Ok _) => Fail (configurationSchemaError "configuration contains more than one JSON value")
  end.

(** [Clone] copies the slices of a value. *)
Definition DecodeConfiguration (content : string) : outcome error Configuration :=
  match json_configuration content with
  | Fail err => Fail (configurationSchemaError ("decode JSON: " +:+ err))
  | Ok configuration =>
    _ ← requireConfigurationJSONEnd content;
    _ ← Validate configuration;
    Ok configuration
  end.

(** What [LoadConfiguration] gets from the file: the error of Open, or the
    content of the file, the error of reading it and that of closing it. *)
Definition LoadConfiguration (opened : outcome error (string * option error * option error))
    : outcome error Configuration :=
  match opened with
  | Fail err => Fail (ErrWrap "open Spice style configuration" err)
  | Ok (file, readErr, closeErr) =>
    let content := str_take (Z.to_nat (maximumConfigurationBytes + 1)) file in
    match readErr, closeErr with
    | Some err, _ => Fail (ErrWrap "read Spice style configuration" (default err (errors_join readErr closeErr)))
    | None, Some err => Fail (ErrWrap "close Spice style configuration" err)
    | None, None =>
      if (maximumConfigurationBytes <? Z.of_nat (String.length content))%Z
      then Fail (configurationSchemaError "file exceeds 1 MiB")
      else DecodeConfiguration content
    end
  end.

(** What the compiler service requires of a style configuration. *)
#[export] Instance validated_styles : StyleConfigurations := {|
  style_configuration := Configuration;
  style_Validate := Validate;
|}.
End validation.

(** The lemmas that compute which errors a check can return *)
Create HintDb style.

(** ** Loops *)

Lemma each_from_ok {A} i (f : nat → A → outcome error ()) l :
  each_from i f l = Ok () ↔ ∀ j x, l !! j = Some x → f (i + j)%nat x = Ok ().
Proof.
  revert i. induction l as [|x l IH]; intros i; cbn [each_from]; [split; [done|by intros]|].
  rewrite outcome_bind_ok. split.
  - intros ([] & Hx & Hl) [|j] y; cbn [lookup list_lookup]; [intros [= <-]; by rewrite Nat.add_0_r|].
    intros Hj. rewrite IH in Hl. rewrite Nat.add_succ_r. by apply (Hl j).
  - intros Hall. exists (). split; [rewrite <-(Nat.add_0_r i); by apply Hall|].
    apply IH. intros j y Hj. rewrite Nat.add_succ_l, <-Nat.add_succ_r. by apply Hall.
Qed.

Lemma each_guard_ok {A} (p : A → bool) (e : nat → A → error) l :
  each (λ i x, guard_or (p x) (e i x)) l = Ok () ↔ Forall (λ x, p x = true) l.
Proof.
  unfold each. rewrite each_from_ok, Forall_lookup. split; intros Hall i x Hx; specialize (Hall i x Hx).
  - by apply guard_or_ok in Hall.
  - by apply guard_or_ok.
Qed.

Lemma each_ok {A} (P : A → Prop) (f : nat → A → outcome error ()) l :
  (∀ i x, f i x = Ok () ↔ P x) → each f l = Ok () ↔ Forall P l.
Proof.
  intros Hf. unfold each. rewrite each_from_ok, Forall_lookup. split; intros Hall i x Hx; specialize (Hall i x Hx); by apply Hf in Hall || apply Hf.
Qed.

(** ** Sorted lists *)

Definition lt_str (x y : string) : Prop := str_ltb x y = true.
Definition le_str (x y : string) : Prop := str_ltb y x = false.

#[local] Instance lt_str_trans : Transitive lt_str.
Proof. intros x y z. apply (sw_trans (less := str_ltb)). Qed.
#[local] Instance le_str_trans : Transitive le_str.
Proof. intros x y z. apply (sw_le_trans str_ltb). Qed.

Lemma lt_or_eq x y : str_ltb y x = false → x = y ∨ lt_str x y.
Proof. intros Hyx. unfold lt_str. destruct (str_ltb x y) eqn:E; [by right|]. left. by apply (st_total (StrictTotal := str_ltb_total)). Qed.

Lemma lt_str_ne x y : lt_str x y → x ≠ y.
Proof. intros Hlt ->. unfold lt_str in Hlt. by rewrite sw_irrefl in Hlt. Qed.

(** No element equals the one before it. *)
Fixpoint fresh (previous : string) (l : list string) : Prop :=
  match l with [] => True | x :: l' => x ≠ previous ∧ fresh x l' end.

Lemma is_sorted_fresh previous l : previous ∉ l →
  is_sorted l = true ∧ fresh previous l ↔ StronglySorted lt_str l.
Proof.
  intros Hp. split.
  - intros [Hs Hf]. apply Sorted_StronglySorted; [apply _|]. clear Hp. revert previous Hf.
    induction l as [|x [|y l] IH]; intros previous Hf; [constructor|repeat constructor|]. destruct Hf as [_ Hf].
    cbn [is_sorted] in Hs. apply andb_true_iff in Hs as [Hxy%negb_true_iff Hs]. constructor; [by eapply IH|].
    constructor. destruct (lt_or_eq x y Hxy) as [->|?]; [by destruct Hf|done].
  - intros Hs. split.
    + clear Hp. induction l as [|x [|y l] IH]; [done..|]. change (negb (str_ltb y x) && is_sorted (y :: l) = true). apply StronglySorted_inv in Hs as [Hs Hx].
      rewrite IH by done. rewrite andb_true_r. apply negb_true_iff. apply Forall_cons in Hx as [Hx _].
      by apply (sw_asym str_ltb).
    + revert previous Hp. induction Hs as [|x l Hs IH Hx]; intros previous Hp; [done|]. split; [set_solver|].
      apply IH. intros Hin. rewrite Forall_forall in Hx. by eapply lt_str_ne; [apply Hx|].
Qed.

Lemma sorted_pairs {A} (R P : A → A → Prop) l x y : StronglySorted R l → StronglySorted P l →
  (∀ x y, R x y → ¬ R y x) → x ∈ l → y ∈ l → R x y → P x y.
Proof.
  intros HR HP Has. revert HP. induction HR as [|z l HR IH Hz]; intros HP; [by intros ?%elem_of_nil|].
  apply StronglySorted_inv in HP as [HP Hz']. rewrite Forall_forall in Hz, Hz'.
  rewrite !elem_of_cons. intros [->|Hx] [->|Hy] Hxy.
  - by destruct (Has z z).
  - by apply Hz'.
  - by destruct (Has x z); [|apply Hz].
  - by apply IH.
Qed.

(** ** Roots *)

Section theorems.
Context `{UnicodeTables}.

Definition nested (outer inner : string) : Prop := has_prefix inner (outer +:+ "/") = true.

Lemma prefix_lt s c t : lt_str s (s +:+ String c t).
Proof.
  unfold lt_str. induction s as [|a s IH]; [by rewrite str_nil_app|]. rewrite str_cons_app, str_ltb_cons.
  by right.
Qed.

Lemma nested_lt outer inner : nested outer inner → lt_str outer inner.
Proof. intros (t & ->)%has_prefix_spec. rewrite str_app_assoc. apply prefix_lt. Qed.

(** Roots in strict order, each of them valid and none inside another one. *)
Definition roots_ok (roots : list string) : Prop :=
  roots ≠ [] ∧ StronglySorted lt_str roots ∧ Forall (λ r, validConfigurationRoot r = true) roots ∧
  ∀ r1 r2, r1 ∈ roots → r2 ∈ roots → ¬ nested r1 r2.

Lemma rootsLoop_ok field previous seen roots :
  rootsLoop field previous seen roots = Ok () ↔
  fresh previous roots ∧ Forall (λ r, validConfigurationRoot r = true) roots ∧
  StronglySorted (λ o r, ¬ nested o r) roots ∧ (∀ o r, o ∈ seen → r ∈ roots → ¬ nested o r).
Proof.
  revert previous seen. induction roots as [|root roots IH]; intros previous seen; cbn [rootsLoop fresh].
  { split; [|done]. intros _. split_and!; [done|constructor|constructor|by intros o r _ ?%elem_of_nil]. }
  case_bool_decide as Hp; [split; [done|by intros [[? _] _]]|].
  rewrite Forall_cons. destruct (validConfigurationRoot root); simpl; [|split; [done|by intros (_ & [? _] & _)]].
  rewrite outcome_then_ok, each_guard_ok, IH.
  rewrite StronglySorted_cons, !Forall_forall. setoid_rewrite elem_of_app. setoid_rewrite elem_of_cons. unfold nested. split.
  - intros (Hseen & Hf & Hv & Hs & Hpairs). split_and!; try done.
    + intros r Hr. apply Hpairs; [|done]. right. by left.
    + intros o r Ho [->|Hr]; [|apply Hpairs; [by left|done]]. specialize (Hseen o Ho). by destruct (has_prefix root _).
  - intros ((_ & Hf) & (_ & Hv) & (Hr & Hs) & Hpairs). split_and!; try done.
    + intros o Ho. specialize (Hpairs o root Ho (or_introl eq_refl)). by destruct (has_prefix root _).
    + intros o r [Ho|[->|Ho%elem_of_nil]] Hin; [|by apply Hr|done]. apply Hpairs; [done|by right].
Qed.

Lemma validateConfigurationRoots_ok field roots : validateConfigurationRoots field roots = Ok () ↔ roots_ok roots.
Proof.
  unfold validateConfigurationRoots, roots_ok. case_bool_decide as Hne; [naive_solver|].
  assert (Forall (λ r, validConfigurationRoot r = true) roots → "" ∉ roots) as Hempty.
  { rewrite Forall_forall. intros Hv Hin. by apply Hv in Hin. }
  destruct (is_sorted roots) eqn:Es; simpl.
  - rewrite rootsLoop_ok. split.
    + intros (Hf & Hv & Hs & _). assert (StronglySorted lt_str roots) as Hlt by (apply (is_sorted_fresh ""); auto).
      split_and!; try done. intros r1 r2 H1 H2 Hn. pose proof (nested_lt _ _ Hn) as Hl.
      by apply (sorted_pairs lt_str (λ o r, ¬ nested o r) roots r1 r2 Hlt Hs); [intros x y ? ?; eapply lt_str_ne; [by etrans|]|..].
    + intros (_ & Hlt & Hv & Hpairs).
      apply (is_sorted_fresh "") in Hlt as Hlt'; [|auto]. split_and!; [by destruct Hlt'|done| |by intros o r ?%elem_of_nil].
      clear Hlt' Es. assert (∀ l, (∀ r, r ∈ l → r ∈ roots) → StronglySorted (λ o r, ¬ nested o r) l) as Hgen; [|by apply Hgen].
      intros l. induction l as [|x l IH]; intros Hin; constructor.
      * apply IH. intros r Hr. apply Hin. by right.
      * apply Forall_forall. intros r Hr. apply Hpairs; apply Hin; [by left|by right].
  - split; [done|]. intros (_ & Hlt & Hv & _). apply (is_sorted_fresh "") in Hlt; [|auto]. by destruct Hlt; congruence.
Qed.

Lemma generatedOwner_ok generated owner sources r :
  generatedOwner generated owner sources = Ok r →
  generated ∉ sources ∧ (r = owner ∨ r ∈ sources ∧ nested r generated) ∧
  (∀ s, s ∈ sources → nested s generated → r ∈ sources ∧ nested r generated).
Proof.
  revert owner. induction sources as [|s sources IH]; intros owner; cbn [generatedOwner].
  { intros [= <-]. split_and!; [by intros ?%elem_of_nil|by left|by intros ? ?%elem_of_nil]. }
  case_bool_decide as Hs; [done|]. intros (Hn & Hr & Hall)%IH. split_and!.
  - intros [->|?]%elem_of_cons; done.
  - destruct Hr as [->|[Hr Hnest]]; [|right; split; [by right|done]].
    destruct (has_prefix generated (s +:+ "/")) eqn:E; [right; split; [by left|done]|by left].
  - intros s' [->|Hs']%elem_of_cons Hnest.
    + destruct Hr as [->|[Hr Hnest']]; [|split; [by right|done]]. unfold nested in Hnest. rewrite Hnest. split; [by left|done].
    + destruct (Hall s' Hs' Hnest). split; [by right|done].
Qed.

Lemma generatedOwner_total generated owner sources :
  generated ∉ sources → ∃ r, generatedOwner generated owner sources = Ok r.
Proof.
  revert owner. induction sources as [|s sources IH]; intros owner Hn; cbn [generatedOwner]; [by eexists|].
  rewrite bool_decide_eq_false_2 by set_solver. apply IH. set_solver.
Qed.

(** A generated root lies below a source root and is none itself. *)
Definition generated_ok (sources : list string) (generated : string) : Prop :=
  generated ∉ sources ∧ ∃ source, source ∈ sources ∧ nested source generated.

Lemma validateGeneratedRoots_ok c : Forall (λ r, validConfigurationRoot r = true) (cfg_SourceRoots c) →
  validateGeneratedRoots c = Ok () ↔ Forall (generated_ok (cfg_SourceRoots c)) (cfg_GeneratedRoots c).
Proof.
  intros Hv. apply each_ok. intros _ generated. unfold generated_ok. rewrite outcome_bind_ok. split.
  - intros (owner & Ho & Hne%guard_or_ok). apply generatedOwner_ok in Ho as (Hn & [->|Hr] & _); [done|]. split; [done|by exists owner].
  - intros (Hn & s & Hs & Hnest). destruct (generatedOwner_total generated "" _ Hn) as [owner Ho]. exists owner. split; [done|].
    apply generatedOwner_ok in Ho as (_ & _ & Hall). destruct (Hall s Hs Hnest) as [Hin _].
    apply guard_or_ok, negb_true_iff, bool_decide_eq_false. intros ->. rewrite Forall_forall in Hv. by apply Hv in Hin.
Qed.

(** ** Rules *)

Definition level_ok (level : string) : Prop := level = "off" ∨ level = "warning" ∨ level = "error".

Definition rules_ok (rules : Rules) : Prop :=
  Forall level_ok (entries rules).*2 ∧ (1 ≤ MaxTypeFileLines rules ≤ 10000)%Z.

Lemma Rules_validate_ok rules : Rules_validate rules = Ok () ↔ rules_ok rules.
Proof.
  unfold Rules_validate, rules_ok. rewrite outcome_then_ok, Forall_fmap.
  assert (each (λ _ '(name, level), guard_or (level_valid level) (configurationSchemaError ("rule " +:+ name +:+ " has unsupported level")))
      (entries rules) = Ok () ↔ Forall (level_ok ∘ snd) (entries rules)) as Hlevels.
  { apply each_ok. intros _ [name level]. rewrite guard_or_ok. unfold level_valid, level_ok. rewrite bool_decide_eq_true.
    rewrite !elem_of_cons, elem_of_nil. unfold RuleLevelOff, RuleLevelWarning, RuleLevelError. simpl. tauto. }
  assert (∀ n e, guard_or (E:=error) (negb ((n <? 1)%Z || (10000 <? n)%Z)) e = Ok () ↔ (1 ≤ n ≤ 10000)%Z) as Hn.
  { intros n e. rewrite guard_or_ok, negb_true_iff, orb_false_iff, !Z.ltb_ge. done. }
  by rewrite Hn, Hlevels.
Qed.

(** Every rule is implemented: no error of the capabilities can occur. *)
Lemma validateRuleCapabilities_ok rules : validateRuleCapabilities rules = Ok ().
Proof.
  assert (Forall (λ c, rc_implemented c = true) ruleCapabilities) as Hall by (by repeat constructor).
  unfold validateRuleCapabilities, each. apply each_from_ok. intros j c Hc. apply guard_or_ok.
  rewrite Forall_lookup in Hall. rewrite (Hall j c Hc). by rewrite andb_false_r.
Qed.

(** ** Build contexts *)

Lemma split_app_byte sep s t : contains_byte s sep = false → split_byte sep (s +:+ String sep t) = s :: split_byte sep t.
Proof.
  induction s as [|c s IH]; intros Hs.
  - rewrite str_nil_app. cbn [split_byte]. by destruct (ascii_dec sep sep).
  - rewrite str_cons_app. cbn [split_byte contains_byte] in *. destruct (ascii_dec c sep); [done|]. by rewrite IH.
Qed.

Lemma split_join_byte sep l : l ≠ [] → Forall (λ x, contains_byte x sep = false) l → split_byte sep (join l (str1 sep)) = l.
Proof.
  intros Hne Hl. induction Hl as [|x l Hx Hl IH]; [done|]. destruct l as [|y l].
  - cbn [join]. clear -Hx. induction x as [|c x IH]; [done|]. cbn [split_byte contains_byte] in *.
    destruct (ascii_dec c sep); [done|]. by rewrite IH.
  - rewrite join_cons_ne by done. change (str1 sep +:+ join (y :: l) (str1 sep)) with (String sep (join (y :: l) (str1 sep))).
    rewrite split_app_byte by done. by rewrite IH.
Qed.

(** Two texts that begin with a word and a separator *)
Lemma word_inj sep s1 t1 s2 t2 : contains_byte s1 sep = false → contains_byte s2 sep = false →
  s1 +:+ String sep t1 = s2 +:+ String sep t2 → s1 = s2 ∧ t1 = t2.
Proof.
  intros H1 H2 E. pose proof (cut_byte sep s1 t1 H1) as C1. rewrite E, cut_byte in C1 by done. by injection C1.
Qed.

Lemma all_bytes_contains p s b : all_bytes p s = true → p (byte_of b) = false → contains_byte s b = false.
Proof.
  induction s as [|c s IH]; [done|]. cbn [all_bytes contains_byte]. intros [Hc Hs]%andb_true_iff Hb.
  destruct (ascii_dec c b); [congruence|]. by apply IH.
Qed.

Definition tags_ok (tags : list string) : Prop :=
  StronglySorted lt_str tags ∧ Forall (λ t, build_tag t = true ∧ t ≠ "cgo") tags.

Lemma tag_bytes t b : build_tag t = true → b = ","%char ∨ b = chr 0 → t ≠ "" ∧ contains_byte t b = false.
Proof.
  destruct t as [|c t]; [done|]. cbn [build_tag]. intros [Hc Ht]%andb_true_iff Hb. split; [done|]. cbn [contains_byte].
  destruct (ascii_dec c b) as [->|]; [exfalso; by destruct Hb as [-> | ->]|].
  eapply all_bytes_contains; [exact Ht|]. by destruct Hb as [-> | ->].
Qed.

Lemma join_tags_inj tags1 tags2 : tags_ok tags1 → tags_ok tags2 → join tags1 "," = join tags2 "," → tags1 = tags2.
Proof.
  intros [_ H1] [_ H2] E.
  assert (∀ tags, Forall (λ t, build_tag t = true ∧ t ≠ "cgo") tags →
    tags = if decide (join tags "," = "") then [] else split_byte "," (join tags ",")) as Hinv.
  { intros tags Htags. destruct tags as [|t tags]; [done|]. pose proof Htags as [[Ht _] _]%Forall_cons.
    destruct (tag_bytes t ","%char Ht) as [Hne _]; [by left|]. rewrite decide_False.
    - symmetry. apply (split_join_byte ","%char); [done|]. apply (Forall_impl _ _ _ Htags). intros t' [Ht' _].
      apply tag_bytes; [done|by left].
    - destruct tags as [|t' tags]; [done|]. rewrite join_cons_ne by done. by destruct t. }
  rewrite (Hinv _ H1), (Hinv _ H2). by rewrite E.
Qed.

Lemma pair_no_nul goos goarch : supportedBuildPair goos goarch = true →
  contains_byte goos (chr 0) = false ∧ contains_byte goarch (chr 0) = false.
Proof.
  intros Hp%bool_decide_eq_true. assert (Forall (λ p, contains_byte p (chr 0) = false) supportedBuildPairs) as Hall
    by (repeat constructor).
  rewrite Forall_forall in Hall. apply Hall in Hp. rewrite !contains_byte_app in Hp.
  apply orb_false_iff in Hp as [? [_ ?]%orb_false_iff]. done.
Qed.

(** What decides which files a build uses. *)
Definition context (s : StyleSelection) : string * string * bool * list string :=
  (ss_GOOS s, ss_GOARCH s, default false (ss_CGOEnabled s), ss_Tags s).

Lemma identity_inj s1 s2 :
  supportedBuildPair (ss_GOOS s1) (ss_GOARCH s1) = true → supportedBuildPair (ss_GOOS s2) (ss_GOARCH s2) = true →
  tags_ok (ss_Tags s1) → tags_ok (ss_Tags s2) →
  buildSelectionIdentity s1 = buildSelectionIdentity s2 ↔ context s1 = context s2.
Proof.
  intros [P1 Q1]%pair_no_nul [P2 Q2]%pair_no_nul T1 T2. unfold buildSelectionIdentity, context.
  split; [|intros [= -> -> -> ->]; done]. cbn [join]. unfold nul_str. cbn [str1].
  change (∀ s, String (chr 0) "" +:+ s = String (chr 0) s) with (∀ s, str1 (chr 0) +:+ s = String (chr 0) s).
  intros E. apply word_inj in E as [-> E]; [|done..]. apply word_inj in E as [-> E]; [|done..].
  assert (∀ b, contains_byte (format_bool b) (chr 0) = false) as Hb by (by intros []).
  apply word_inj in E as [Ec E]; [|apply Hb..]. apply join_tags_inj in E; [|done..].
  f_equal; [|done]. f_equal. by destruct (default false (ss_CGOEnabled s1)), (default false (ss_CGOEnabled s2)).
Qed.

Lemma tagsLoop_ok name previous tags : tagsLoop name previous tags = Ok () ↔
  Forall (λ t, build_tag t = true ∧ t ≠ "cgo") tags ∧ fresh previous tags.
Proof.
  revert previous. induction tags as [|t tags IH]; intros previous; cbn [tagsLoop fresh]; [done|].
  rewrite Forall_cons. destruct (build_tag t); simpl; [|naive_solver]. case_bool_decide; [naive_solver|].
  case_bool_decide; [naive_solver|]. rewrite IH. naive_solver.
Qed.

Lemma validateBuildTags_ok s : validateBuildTags s = Ok () ↔ tags_ok (ss_Tags s).
Proof.
  unfold validateBuildTags, tags_ok. rewrite outcome_then_ok, guard_or_ok, tagsLoop_ok. split.
  - intros (Hs & Ht & Hf). split; [|done]. apply (is_sorted_fresh ""); [|done]. intros Hin. rewrite Forall_forall in Ht. by destruct (Ht _ Hin).
  - intros (Hs & Ht). apply (is_sorted_fresh "") in Hs as [? ?]; [done|]. intros Hin. rewrite Forall_forall in Ht. by destruct (Ht _ Hin).
Qed.

(** ** Build selections *)

Definition selection_ok (declared : gset string) (s : StyleSelection) : Prop :=
  selection_name (ss_Name s) = true ∧ is_Some (ss_CGOEnabled s) ∧
  supportedBuildPair (ss_GOOS s) (ss_GOARCH s) = true ∧
  roots_ok (ss_SourceRoots s) ∧ (∀ root, root ∈ ss_SourceRoots s → root ∈ declared) ∧ tags_ok (ss_Tags s).

Lemma coverRoots_ok name declared covered roots covered' :
  coverRoots name declared covered roots = Ok covered' ↔
  (∀ root, root ∈ roots → root ∈ declared) ∧ covered' = list_to_set roots ∪ covered.
Proof.
  revert covered. induction roots as [|root roots IH]; intros covered; cbn [coverRoots].
  - split; [intros [= <-]; split; [by intros ? ?%elem_of_nil|set_solver]|]. intros [_ ->]. f_equal. set_solver.
  - destruct (decide (root ∈ declared)) as [Hd|Hd]; [|split; [done|intros [Hall _]; by destruct Hd; apply Hall; left]].
    rewrite IH. assert (list_to_set roots ∪ ({[root]} ∪ covered) = list_to_set (root :: roots) ∪ covered) as -> by set_solver.
    setoid_rewrite elem_of_cons. split; [intros [Hall ->]; split; [by intros r [->|?]; auto|done]|intros [Hall ->]; auto].
Qed.

Definition advance (st : buildSelectionState) (s : StyleSelection) : buildSelectionState :=
  mkSelectionState (bss_declaredRoots st) (list_to_set (ss_SourceRoots s) ∪ bss_coveredRoots st)
    ({[ss_Name s]} ∪ bss_names st) ({[buildSelectionIdentity s]} ∪ bss_identities st) (buildSelectionKey s).

Lemma validateSelection_ok i s st st' : validateSelection i s st = Ok st' ↔
  selection_ok (bss_declaredRoots st) s ∧ ss_Name s ∉ bss_names st ∧ buildSelectionIdentity s ∉ bss_identities st ∧
  (bss_previousKey st = "" ∨ le_str (bss_previousKey st) (buildSelectionKey s)) ∧ st' = advance st s.
Proof.
  assert (ss_CGOEnabled s ≠ None ↔ is_Some (ss_CGOEnabled s)) as Hcgo by (by rewrite not_eq_None_Some).
  assert (∀ key, negb (negb (bool_decide (bss_previousKey st = "")) && str_ltb key (bss_previousKey st)) = true ↔
    bss_previousKey st = "" ∨ le_str (bss_previousKey st) key) as Hkey.
  { intros key. by rewrite negb_true_iff, andb_false_iff, negb_false_iff, bool_decide_eq_true. }
  unfold validateSelection. cbv zeta.
  rewrite !outcome_then_ok, !guard_or_ok, validateConfigurationRoots_ok, outcome_bind_ok.
  rewrite !negb_true_iff, !bool_decide_eq_false, bool_decide_eq_true, Hcgo. unfold selection_ok, advance. split.
  - intros (? & ? & ? & ? & ? & covered & (? & ->)%coverRoots_ok & Hrest).
    rewrite !outcome_then_ok, !guard_or_ok, validateBuildTags_ok, Hkey, negb_true_iff, bool_decide_eq_false in Hrest.
    destruct Hrest as (? & ? & ? & [= <-]). tauto.
  - intros ((? & ? & ? & ? & ? & ?) & ? & ? & ? & ->). split_and!; try done. eexists. split; [by apply coverRoots_ok|].
    by rewrite !outcome_then_ok, !guard_or_ok, validateBuildTags_ok, Hkey, negb_true_iff, bool_decide_eq_false.
Qed.

(** The keys come in order after the previous one. *)
Definition keys_from (previous : string) (selections : list StyleSelection) : Prop :=
  (previous = "" ∨ ∀ s, s ∈ selections → le_str previous (buildSelectionKey s)) ∧
  StronglySorted le_str (buildSelectionKey <$> selections).

Lemma key_not_empty s : buildSelectionKey s ≠ "".
Proof.
  unfold buildSelectionKey, nul_str. intros E. apply (f_equal String.length) in E.
  rewrite !length_str_app in E. simpl in E. lia.
Qed.

Lemma keys_from_cons previous s selections :
  keys_from previous (s :: selections) ↔
  (previous = "" ∨ le_str previous (buildSelectionKey s)) ∧ keys_from (buildSelectionKey s) selections.
Proof.
  unfold keys_from. rewrite fmap_cons, StronglySorted_cons, Forall_fmap, Forall_forall. setoid_rewrite elem_of_cons.
  pose proof (key_not_empty s) as Hne. split.
  - intros (Hp & Hall & Hs). split_and!; [|by right|done]. destruct Hp; [by left|right; auto].
  - intros (Hp & [?|Hall] & Hs); [done|]. split_and!; [|done|done]. destruct Hp as [?|Hp]; [by left|]. right.
    intros s' [->|Hs']; [done|]. by etrans; [|by apply Hall].
Qed.

Lemma selectionsLoop_ok i selections st st' : selectionsLoop i selections st = Ok st' ↔
  Forall (selection_ok (bss_declaredRoots st)) selections ∧
  (NoDup (ss_Name <$> selections) ∧ ∀ s, s ∈ selections → ss_Name s ∉ bss_names st) ∧
  (NoDup (buildSelectionIdentity <$> selections) ∧ ∀ s, s ∈ selections → buildSelectionIdentity s ∉ bss_identities st) ∧
  keys_from (bss_previousKey st) selections ∧ st' = foldl advance st selections.
Proof.
  revert i st. induction selections as [|s selections IH]; intros i st; cbn [selectionsLoop foldl].
  { split; [|by intros (_ & _ & _ & _ & ->)]. intros [= <-].
    split_and!; try by repeat constructor; try by intros ? ?%elem_of_nil.
    all: try (split; [right; by intros ? ?%elem_of_nil|constructor]). }
  rewrite outcome_bind_ok. setoid_rewrite validateSelection_ok. setoid_rewrite IH.
  rewrite keys_from_cons, !fmap_cons, !NoDup_cons, Forall_cons, !list_elem_of_fmap. setoid_rewrite elem_of_cons. split.
  - intros (_ & (Hs & Hn & Hi & Hk & ->) & Hsel & (Hnd & Hnames) & (Hid & Hids) & Hkeys & ->). simpl in *.
    split_and!; try done.
    + intros (s' & E & Hs'%Hnames). set_solver.
    + intros s' [->|Hs'%Hnames]; [done|set_solver].
    + intros (s' & E & Hs'%Hids). set_solver.
    + intros s' [->|Hs'%Hids]; [done|set_solver].
  - intros ((Hs & Hsel) & ((Hn & Hnd) & Hnames) & ((Hi & Hid) & Hids) & (Hk & Hkeys) & ->).
    exists (advance st s). split; [split_and!; auto|]. simpl. split_and!; try done.
    + intros s' Hs'. assert (ss_Name s' ∉ bss_names st) by auto. assert (ss_Name s' ≠ ss_Name s) by naive_solver. set_solver.
    + intros s' Hs'. assert (buildSelectionIdentity s' ∉ bss_identities st) by auto.
      assert (buildSelectionIdentity s' ≠ buildSelectionIdentity s) by naive_solver. set_solver.
Qed.

Lemma covered_roots st selections root :
  root ∈ bss_coveredRoots (foldl advance st selections) ↔
  root ∈ bss_coveredRoots st ∨ ∃ s, s ∈ selections ∧ root ∈ ss_SourceRoots s.
Proof.
  revert st. induction selections as [|s selections IH]; intros st; cbn [foldl].
  - split; [by left|]. intros [?|(s & ?%elem_of_nil & _)]; done.
  - rewrite IH. simpl. rewrite elem_of_union, elem_of_list_to_set. setoid_rewrite elem_of_cons. naive_solver.
Qed.

Definition selections_ok (c : Configuration) : Prop :=
  cfg_BuildSelections c ≠ [] ∧
  Forall (selection_ok (list_to_set (cfg_SourceRoots c))) (cfg_BuildSelections c) ∧
  NoDup (ss_Name <$> cfg_BuildSelections c) ∧ NoDup (context <$> cfg_BuildSelections c) ∧
  StronglySorted le_str (buildSelectionKey <$> cfg_BuildSelections c) ∧
  ∀ root, root ∈ cfg_SourceRoots c → ∃ s, s ∈ cfg_BuildSelections c ∧ root ∈ ss_SourceRoots s.

Lemma identities_contexts declared selections : Forall (selection_ok declared) selections →
  NoDup (buildSelectionIdentity <$> selections) ↔ NoDup (context <$> selections).
Proof.
  induction 1 as [|s selections Hs Hsel IH]; [split; constructor|]. rewrite !fmap_cons, !NoDup_cons, IH, !list_elem_of_fmap.
  rewrite Forall_forall in Hsel. destruct Hs as (_ & _ & Hp & _ & _ & Ht).
  assert (∀ s', s' ∈ selections → buildSelectionIdentity s = buildSelectionIdentity s' ↔ context s = context s') as Hinj.
  { intros s' (_ & _ & Hp' & _ & _ & Ht')%Hsel. by apply identity_inj. }
  split; intros [Hn Hnd]; (split; [|done]); intros (s' & E & Hs'); apply Hn; exists s'; (split; [by apply Hinj|done]).
Qed.

Lemma validateBuildSelections_ok c : validateBuildSelections c = Ok () ↔ selections_ok c.
Proof.
  unfold validateBuildSelections, selections_ok. case_bool_decide as Hne; [naive_solver|].
  rewrite outcome_bind_ok. setoid_rewrite selectionsLoop_ok. unfold newBuildSelectionState. simpl. unfold keys_from. split.
  - intros (st & (Hsel & (Hn & _) & (Hi & _) & (_ & Hk) & ->) & Hcov%each_guard_ok).
    split_and!; try done; [by eapply identities_contexts|]. rewrite Forall_forall in Hcov.
    intros root Hroot%Hcov. apply bool_decide_eq_true in Hroot. apply covered_roots in Hroot as [Hr|?]; [|done].
    simpl in Hr. set_solver.
  - intros (_ & Hsel & Hn & Hc & Hk & Hcov). eexists. split; [split_and!; try done|].
    + by eapply identities_contexts.
    + by left.
    + apply each_guard_ok, Forall_forall. intros root Hroot%Hcov. apply bool_decide_eq_true, covered_roots. by right.
Qed.

(** ** Exceptions *)

Context `{StyleLibraries}.

Definition written_out (s : string) : Prop := trim_space s ≠ "".

Lemma blank_false s : blank s = false ↔ written_out s.
Proof. unfold blank, written_out. apply bool_decide_eq_false. Qed.

Definition route_ok (r : PublicRoute) : Prop :=
  written_out (pr_Package r) ∧ written_out (pr_Receiver r) ∧ written_out (pr_Method r) ∧
  written_out (pr_Reason r) ∧ written_out (pr_Issue r).

Lemma route_complete_ok r : route_complete r = true ↔ route_ok r.
Proof. unfold route_complete, route_ok. rewrite negb_true_iff, !orb_false_iff, !blank_false. tauto. Qed.

Definition glob_ok (pattern : string) : Prop :=
  pattern ≠ "" ∧ path_is_abs pattern = false ∧ contains pattern (str1 backslash) = false ∧ contains pattern ".." = false.

Lemma validateConfigurationGlob_ok pattern : validateConfigurationGlob pattern = Ok () ↔ glob_ok pattern.
Proof.
  unfold validateConfigurationGlob, glob_ok. case_bool_decide; [naive_solver|].
  destruct (path_is_abs pattern), (contains pattern (str1 backslash)), (contains pattern ".."); simpl; naive_solver.
Qed.

(** One selector: a symbol, a pattern that compiles, or a kind with a maximum. *)
Definition function_exception_ok (e : PackageFunctionException) : Prop :=
  glob_ok (fe_Glob e) ∧ written_out (fe_Reason e) ∧
  (fe_Symbol e ≠ "" ∧ fe_SymbolPattern e = "" ∧ fe_ContributionKind e = "" ∧ fe_Maximum e = 0%Z ∨
   fe_Symbol e = "" ∧ fe_SymbolPattern e ≠ "" ∧ regexp_compiles (fe_SymbolPattern e) = true ∧
     fe_ContributionKind e = "" ∧ fe_Maximum e = 0%Z ∨
   fe_Symbol e = "" ∧ fe_SymbolPattern e = "" ∧
     fe_ContributionKind e ∈ ["application"; "event-topic"; "provider"] ∧ (0 < fe_Maximum e)%Z).

Lemma FunctionException_validate_ok e : FunctionException_validate e = Ok () ↔ function_exception_ok e.
Proof.
  unfold FunctionException_validate, function_exception_ok. cbv zeta.
  rewrite !outcome_then_ok, !guard_or_ok, validateConfigurationGlob_ok, negb_true_iff, blank_false.
  generalize (fe_Maximum e) (fe_Symbol e) (fe_SymbolPattern e) (fe_ContributionKind e). intros maximum symbol pattern kind.
  rewrite !bool_decide_eq_true, !negb_true_iff, Z.ltb_ge, orb_true_iff, bool_decide_eq_true.
  rewrite !elem_of_cons, !elem_of_nil.
  destruct (maximum =? 0)%Z eqn:Em; [apply Z.eqb_eq in Em|apply Z.eqb_neq in Em];
    destruct (decide (symbol = "")), (decide (pattern = "")), (decide (kind = "")); subst; simpl;
    rewrite ?bool_decide_eq_true_2, ?bool_decide_eq_false_2 by done; simpl; intuition (try done; try lia; try congruence).
Qed.

Definition variable_exception_ok (e : PackageVariableException) : Prop :=
  glob_ok (ve_Glob e) ∧ ve_Symbol e ≠ "" ∧ ve_Type e ≠ "" ∧ written_out (ve_Reason e) ∧ written_out (ve_Issue e).

Lemma VariableException_validate_ok e : VariableException_validate e = Ok () ↔ variable_exception_ok e.
Proof.
  unfold VariableException_validate, variable_exception_ok.
  rewrite outcome_then_ok, guard_or_ok, validateConfigurationGlob_ok, negb_true_iff, !orb_false_iff, !blank_false.
  rewrite !bool_decide_eq_false. tauto.
Qed.

Lemma at_index_ok field i m : at_index field i m = Ok () ↔ m = Ok ().
Proof. by destruct m as [[]|]. Qed.

Definition exceptions_ok (c : Configuration) : Prop :=
  Forall route_ok (cfg_PublicRoutes c) ∧ Forall glob_ok (cfg_AllowedBoundaryFiles c) ∧
  Forall function_exception_ok (cfg_PackageFunctionExceptions c) ∧
  Forall variable_exception_ok (cfg_PackageVariableExceptions c).

Lemma validateExceptions_ok c : validateExceptions c = Ok () ↔ exceptions_ok c.
Proof.
  unfold validateExceptions, exceptions_ok. rewrite !outcome_then_ok.
  rewrite (each_ok route_ok) by (intros; by rewrite guard_or_ok, route_complete_ok).
  rewrite (each_ok glob_ok) by (intros; by rewrite at_index_ok, validateConfigurationGlob_ok).
  rewrite (each_ok function_exception_ok) by (intros; by rewrite at_index_ok, FunctionException_validate_ok).
  by rewrite (each_ok variable_exception_ok) by (intros; by rewrite at_index_ok, VariableException_validate_ok).
Qed.

(** ** The whole configuration *)

Definition configuration_ok (c : Configuration) : Prop :=
  cfg_SchemaVersion c = 2%Z ∧ cfg_Profile c = "java-structured" ∧
  roots_ok (cfg_SourceRoots c) ∧ roots_ok (cfg_GeneratedRoots c) ∧
  Forall (generated_ok (cfg_SourceRoots c)) (cfg_GeneratedRoots c) ∧
  rules_ok (cfg_Rules c) ∧ selections_ok c ∧ exceptions_ok c.

Lemma Validate_ok c : Validate c = Ok () ↔ configuration_ok c.
Proof.
  unfold Validate, configuration_ok. destruct (cfg_SchemaVersion c =? 1)%Z eqn:E1.
  { apply Z.eqb_eq in E1. split; [done|]. intros [? _]. congruence. }
  unfold styleSchemaVersion. destruct (cfg_SchemaVersion c =? 2)%Z eqn:E2; simpl negb; cbv iota.
  2: { apply Z.eqb_neq in E2. split; [done|]. by intros [? _]. }
  apply Z.eqb_eq in E2. unfold style_profile. case_bool_decide as Hp; simpl negb; cbv iota; [|split; [done|by intros (_ & ? & _)]].
  rewrite !outcome_then_ok, !validateConfigurationRoots_ok, Rules_validate_ok, validateBuildSelections_ok, validateExceptions_ok.
  pose proof (validateRuleCapabilities_ok (cfg_Rules c)) as Hcap. split.
  - intros (Hs & Hg & Hgen & Hr & _ & Hsel & He). apply validateGeneratedRoots_ok in Hgen; [done|by destruct Hs as (_ & _ & ? & _)].
  - intros (_ & _ & Hs & Hg & Hgen & Hr & Hsel & He). split_and!; try done.
    apply validateGeneratedRoots_ok; [by destruct Hs as (_ & _ & ? & _)|done].
Qed.

(** ** Errors *)

Definition configuration_codes : list string := [
  "spice.style.configuration.schema"; "spice.style.configuration.source-selection";
  "spice.style.configuration.build-selection"].

Definition coded_error (e : error) : Prop :=
  ∃ code problem, code ∈ configuration_codes ∧ e = ErrTyped code (code +:+ ": " +:+ problem).
Definition coded {A} (m : outcome error A) : Prop := ∀ e, m = Fail e → coded_error e.

Lemma coded_ok {A} (a : A) : coded (Ok a).
Proof. done. Qed.
Lemma coded_schema {A} problem : coded (A := A) (Fail (configurationSchemaError problem)).
Proof. intros e [= <-]. eexists _, problem. split; [|done]. by left. Qed.
Lemma coded_source {A} problem : coded (A := A) (Fail (configurationSourceError problem)).
Proof. intros e [= <-]. eexists _, problem. split; [|done]. right. by left. Qed.
Lemma coded_build {A} problem : coded (A := A) (Fail (configurationBuildError problem)).
Proof. intros e [= <-]. eexists _, problem. split; [|done]. right. right. by left. Qed.
Lemma coded_bind {A B} (m : outcome error A) (k : A → outcome error B) : coded m → (∀ a, coded (k a)) → coded (m ≫= k).
Proof. intros Hm Hk e [Hf|(a & _ & Hf)]%outcome_bind_fail; [by apply Hm|by eapply Hk]. Qed.
Lemma coded_guard b e : coded (Fail (A := ()) e) → coded (guard_or b e).
Proof. intros Hc. destruct b; [done|]. exact Hc. Qed.
Lemma coded_each {A} (f : nat → A → outcome error ()) l : (∀ i x, coded (f i x)) → coded (each f l).
Proof.
  intros Hf. unfold each. generalize 0. induction l as [|x l IH]; intros i; [apply coded_ok|]. cbn [each_from].
  apply coded_bind; [done|]. intros _. apply IH.
Qed.
Lemma coded_at_index field i m : coded (at_index field i m).
Proof. destruct m; [apply coded_ok|apply coded_schema]. Qed.
End theorems.

#[export] Hint Resolve coded_ok coded_schema coded_source coded_build coded_bind coded_guard coded_each coded_at_index : style.


Section errors.
Context `{UnicodeTables} `{StyleLibraries}.

Lemma rootsLoop_coded field previous seen roots : coded (rootsLoop field previous seen roots).
Proof.
  revert previous seen. induction roots as [|r roots IH]; intros previous seen; cbn [rootsLoop]; [auto with style|].
  repeat case_match; auto with style.
Qed.

Lemma validateConfigurationRoots_coded field roots : coded (validateConfigurationRoots field roots).
Proof. unfold validateConfigurationRoots. repeat case_match; auto using rootsLoop_coded with style. Qed.

Lemma generatedOwner_coded generated owner sources : coded (generatedOwner generated owner sources).
Proof. revert owner. induction sources as [|s l IH]; intros owner; cbn [generatedOwner]; [|case_match]; auto with style. Qed.

Lemma Rules_validate_coded rules : coded (Rules_validate rules).
Proof. unfold Rules_validate. apply coded_bind; [|auto with style]. apply coded_each. intros _ [name level]. auto with style. Qed.

Lemma coverRoots_coded name declared covered roots : coded (coverRoots name declared covered roots).
Proof. revert covered. induction roots as [|r l IH]; intros covered; cbn [coverRoots]; [|case_match]; auto with style. Qed.

Lemma tagsLoop_coded name previous tags : coded (tagsLoop name previous tags).
Proof. revert previous. induction tags as [|t l IH]; intros previous; cbn [tagsLoop]; [|repeat case_match]; auto with style. Qed.

Lemma validateSelection_coded i s st : coded (validateSelection i s st).
Proof.
  unfold validateSelection, validateBuildTags. cbv zeta.
  repeat lazymatch goal with
  | |- coded (_ ≫= _) => apply coded_bind; [|intros ?]
  | |- coded (guard_or _ _) => apply coded_guard, coded_build
  | |- coded (validateConfigurationRoots _ _) => apply validateConfigurationRoots_coded
  | |- coded (coverRoots _ _ _ _) => apply coverRoots_coded
  | |- coded (tagsLoop _ _ _) => apply tagsLoop_coded
  | |- coded (Ok _) => apply coded_ok
  end.
Qed.

Lemma selectionsLoop_coded i selections st : coded (selectionsLoop i selections st).
Proof.
  revert i st. induction selections as [|s l IH]; intros i st; cbn [selectionsLoop]; [auto with style|].
  apply coded_bind; [apply validateSelection_coded|done].
Qed.

Lemma Validate_coded c : coded (Validate c).
Proof.
  unfold Validate. repeat (case_match; [auto with style; fail|]).
  repeat lazymatch goal with
  | |- coded (_ ≫= _) => apply coded_bind; [|intros _]
  | |- coded (validateConfigurationRoots _ _) => apply validateConfigurationRoots_coded
  | |- coded (Rules_validate _) => apply Rules_validate_coded
  end.
  - apply coded_each. intros _ g. apply coded_bind; [apply generatedOwner_coded|auto with style].
  - by rewrite validateRuleCapabilities_ok.
  - unfold validateBuildSelections. case_match; [auto with style|]. apply coded_bind; [apply selectionsLoop_coded|auto with style].
  - unfold validateExceptions. repeat (apply coded_bind; [|intros _]); auto with style.
Qed.

Lemma join_good_plain cs : cs ≠ [] → Forall good_name cs →
  join cs "/" ≠ "" ∧ join cs "/" ≠ "." ∧ has_prefix (join cs "/") "../" = false.
Proof.
  intros Hne Hf. pose proof (split_join_good cs Hne Hf) as Hs. split_and!.
  - by intros ?%join_empty.
  - intros E. rewrite E in Hs. rewrite <-Hs in Hf. by apply Forall_cons in Hf as [(_ & ? & _) _].
  - apply not_true_is_false. intros (t & E)%has_prefix_spec. rewrite E in Hs.
    change ("../" +:+ t) with (".." +:+ "/" +:+ t) in Hs. rewrite split_app_sep in Hs by done.
    rewrite <-Hs in Hf. by apply Forall_cons in Hf as [(_ & _ & ? & _) _].
Qed.

(** ** The properties *)

(** C20. LoadConfiguration returns exactly the configuration of a file of at most
    1 MiB that holds one JSON value of the schema and nothing else, when it is
    well formed: sorted source and generated roots, none inside another one of its
    list, each generated root below a source root; known rule levels and a line
    limit between 1 and 10000; build selections in canonical order, with distinct
    names and distinct build contexts, over declared roots, that cover all source
    roots; and complete exceptions, each with exactly one selector. *)
Theorem LoadConfiguration_exact (opened : outcome error (string * option error * option error)) (c : Configuration) :
  LoadConfiguration opened = Ok c ↔
  ∃ file, opened = Ok (file, None, None) ∧ (Z.of_nat (String.length file) ≤ 2 ^ 20)%Z ∧
    json_configuration file = Ok c ∧ json_trailing file = None ∧ configuration_ok c.
Proof.
  assert (∀ content, DecodeConfiguration content = Ok c ↔
    json_configuration content = Ok c ∧ json_trailing content = None ∧ configuration_ok c) as Hdecode.
  { intros content. unfold DecodeConfiguration, requireConfigurationJSONEnd. rewrite <-Validate_ok.
    destruct (json_configuration content) as [c'|e]; [|split; [done|by intros [? _]]].
    rewrite !outcome_then_ok. split.
    - intros (Hj & Hv & [= ->]). by destruct (json_trailing content) as [[]|].
    - intros ([= ->] & -> & Hv). done. }
  unfold LoadConfiguration. destruct opened as [[[file [re|]] [ce|]]|e];
    [split; [done|by intros (? & [=] & _)]..| |split; [done|by intros (? & [=] & _)]].
  unfold maximumConfigurationBytes. set (n := Z.to_nat (2 ^ 20 + 1)).
  assert (Z.of_nat n = 2 ^ 20 + 1)%Z as Hn by (subst n; rewrite Z2Nat.id; lia). clearbody n.
  destruct (2 ^ 20 <? Z.of_nat (String.length (str_take n file)))%Z eqn:E.
  - apply Z.ltb_lt in E. split; [done|]. intros (file' & [= <-] & Hl & _).
    rewrite length_str_take in E. lia.
  - apply Z.ltb_ge in E. rewrite length_str_take in E. assert (String.length file ≤ n)%nat by lia.
    rewrite str_take_all by done. rewrite Hdecode. split; [intros; exists file; split_and!; naive_solver lia|].
    by intros (file' & [= <-] & _ & ?).
Qed.

(** C40. Every error of Validate is a ConfigurationError with the code of the
    schema, of the source selection or of the build selection; the code for an
    unsupported rule is never returned. *)
Theorem Validate_errors_coded (c : Configuration) (e : error) :
  Validate c = Fail e → coded_error e ∧ ∀ problem, e ≠ configurationCapabilityError problem.
Proof.
  intros He. pose proof (Validate_coded c e He) as Hc. split; [done|]. intros problem ->.
  destruct Hc as (code & p & Hin & [= <- _]). unfold configuration_codes in Hin.
  rewrite !elem_of_cons, elem_of_nil in Hin. by destruct_or! Hin.
Qed.

(** A root is accepted exactly when it has no backslash and is a list of
    proper path elements joined by slashes, or is the parent directory itself. *)
Theorem validConfigurationRoot_exact (root : string) :
  validConfigurationRoot root = true ↔
  contains root (str1 backslash) = false ∧
  (root = ".." ∨ ∃ elements, elements ≠ [] ∧ Forall good_name elements ∧ root = join elements "/").
Proof.
  unfold validConfigurationRoot. rewrite !andb_true_iff, !negb_true_iff, !bool_decide_eq_false, bool_decide_eq_true. split.
  - intros (((((Hne & Hdot) & Hclean) & Habs) & Hup) & Hback). split; [done|].
    destruct (path_clean_fixpoint root Hclean Habs Hdot) as (cs & Hcs & -> & _ & [Hf|Hh]); [right; by exists cs|].
    left. destruct cs as [|c [|d cs]]; [done|by injection Hh as ->|]. injection Hh as ->.
    rewrite join_cons_ne in Hup by done.
    change (".." +:+ "/" +:+ join (d :: cs) "/") with ("../" +:+ join (d :: cs) "/") in Hup.
    by rewrite has_prefix_app in Hup.
  - intros (Hback & [->|(cs & Hne & Hf & ->)]); [done|].
    destruct (join_good_plain cs Hne Hf) as (? & ? & ?). rewrite path_clean_join, join_not_abs by done. done.
Qed.
End errors.

(** ** A small configuration *)

Definition error_rules : Rules :=
  let e := RuleLevelError in mkRules e e e e e e e e e e e e e 400.

Definition linux_selection (roots : list string) : StyleSelection :=
  mkStyleSelection "linux-amd64" roots "linux" "amd64" (Some false) ["dev"; "integration"].

Definition small_configuration (roots : list string) : Configuration :=
  mkConfiguration 2 "java-structured" roots ["src/gen"] [linux_selection roots] error_rules
    [mkPublicRoute "app" "Orders" "List" "read only" "17"] ["cmd/*.go"]
    [mkFunctionException "cmd/main.go" "main" "" "" 0 "entry point"] [].

#[local] Instance no_patterns : StyleLibraries := {|
  regexp_compiles := λ _, true;
  json_configuration := λ _, Ok (small_configuration ["cmd"; "src"]);
  json_trailing := λ _, None;
|}.

Example small_configuration_valid : @Validate ascii_tables no_patterns (small_configuration ["cmd"; "src"]) = Ok ().
Proof. vm_compute. reflexivity. Qed.

(** The parent directory passes for a source root of the workspace. *)
Example parent_root_accepted : @Validate ascii_tables no_patterns (small_configuration [".."; "src"]) = Ok ().
Proof. vm_compute. reflexivity. Qed.

Lemma Validate_errors_coded_witness :
  let c := small_configuration ["src"; "src/order"] in
  ∃ e, @Validate ascii_tables no_patterns c = Fail e ∧ coded_error e ∧ ∀ problem, e ≠ configurationCapabilityError problem.
Proof.
  eexists. split; [vm_compute; reflexivity|]. eapply (@Validate_errors_coded ascii_tables no_patterns (small_configuration ["src"; "src/order"])).
  vm_compute. reflexivity.
Defined.
