(* ===== verification/Starter.v ===== *)
(** The starter catalog: src/compiler/starter/catalog.go composes the manifests
    of starters, and dependency.go compares the modules of the application with
    the reviewed dependencies. The manifests are those of the vendored package
    [sdk/starter]; its validation is a class. *)
From S2P Require Import Prelude GoSort GoStrings Provider GoStrconv Annotation Validate Bootstrap.

(** ** Manifests *)

Definition ActivationExplicitConstructor : string := "explicit-constructor".
Definition ActivationExplicitAnnotation : string := "explicit-annotation".

Record Activation := mkActivation { av_Mode : string; av_EntryPoints : list EntryPoint }.

Record Dependency := mkDependency { dp_Module : string; dp_Version : string; dp_License : string }.

(** [OptionSpec] has the fields of an [OptionDefinition]. *)
Record FeatureSpec := mkFeatureSpec {
  fs_Annotation : string;
  fs_Capability : string;
  fs_EntryPoints : list EntryPoint;
  fs_Options : list OptionDefinition;
  fs_Requirements : list string;
}.

(** The fields of [Spec] that are read here. *)
Record Spec := mkSpec {
  sp_ID : string;
  sp_Version : string;
  sp_SpiceAPI : string;
  sp_MinimumGo : string;
  sp_Activation : Activation;
  sp_Dependencies : list Dependency;
  sp_ApplicationFeatures : list FeatureSpec;
}.

(** A manifest with the definitions of its annotations. *)
Record Manifest := mkManifest { mf_Spec : Spec; mf_Definitions : list AnnotationDefinition }.

(** [New] of the vendored package: the normal form of a specification. *)
Class ManifestValidation := { manifest_New : Spec → outcome error Spec }.

(** ** Compatibility *)

Section compatibility.
Context `{UnicodeTables} `{ManifestValidation}.

Fixpoint goNumbers (value : string) (parts : list string) : outcome error (list Z) :=
  match parts with
  | [] => Ok []
  | part :: parts' =>
    match atoi part with
    | Some number =>
      if (number <? 0)%Z
      then Fail (ErrNew ("go version " +:+ go_quote value +:+ " contains invalid number " +:+ go_quote part))
      else numbers ← goNumbers value parts'; Ok (number :: numbers)
    | None => Fail (ErrNew ("go version " +:+ go_quote value +:+ " contains invalid number " +:+ go_quote part))
    end
  end.

(** Three numbers, the last one zero when it is absent. *)
Definition parseGoVersion (value : string) : outcome error (Z * Z * Z) :=
  let parts := split_byte "." (trim_prefix value "go") in
  if (length parts <? 2)%nat || (3 <? length parts)%nat then
    Fail (ErrNew ("go version " +:+ go_quote value +:+ " must contain major and minor numbers"))
  else
    numbers ← goNumbers value parts;
    let number (i : nat) : Z := default 0%Z (numbers !! i) in
    if (number 0%nat <? 1)%Z then Fail (ErrNew ("go version " +:+ go_quote value +:+ " has an invalid major version"))
    else Ok (number 0%nat, number 1%nat, number 2%nat).

Definition compareGoVersion (left right : Z * Z * Z) : Z :=
  let '(l0, l1, l2) := left in
  let '(r0, r1, r2) := right in
  if (l0 <? r0)%Z then -1 else if (r0 <? l0)%Z then 1
  else if (l1 <? r1)%Z then -1 else if (r1 <? l1)%Z then 1
  else if (l2 <? r2)%Z then -1 else if (r2 <? l2)%Z then 1
  else 0.

Definition Compatible (manifest : Manifest) (spiceAPI goVersion : string) : outcome error () :=
  match manifest_New (mf_Spec manifest) with
  | Fail err => Fail (ErrWrap "check starter compatibility" err)
  | Ok spec =>
    if negb (bool_decide (spiceAPI = sp_SpiceAPI spec)) then
      Fail (ErrNew ("starter " +:+ go_quote (sp_ID spec) +:+ " requires Spice API " +:+
        go_quote (sp_SpiceAPI spec) +:+ ", got " +:+ go_quote spiceAPI))
    else
      match parseGoVersion goVersion with
      | Fail err => Fail (ErrWrap ("check starter " +:+ go_quote (sp_ID spec) +:+ " compatibility") err)
      | Ok current =>
        match parseGoVersion (sp_MinimumGo spec) with
        | Fail err => Fail (ErrWrap ("check starter " +:+ go_quote (sp_ID spec) +:+
            " compatibility: invalid manifest minimum Go version") err)
        | Ok minimum =>
          if (compareGoVersion current minimum <? 0)%Z then
            Fail (ErrNew ("starter " +:+ go_quote (sp_ID spec) +:+ " requires Go " +:+ sp_MinimumGo spec +:+
              " or newer, got " +:+ goVersion))
          else Ok ()
        end
      end
  end.
End compatibility.

(** ** The catalog *)

Record Catalog := mkCatalog {
  ct_manifests : list Manifest;
  ct_definitions : list AnnotationDefinition;
  ct_bootstrapDefinitions : list FeatureDefinition;
  ct_entryPoints : gmap string (list EntryPoint);
  ct_entryPointPackages : list string;
}.

Record dependencyContract := mkContract { dc_sourceID : string; dc_version : string; dc_license : string }.

(** The local maps of [NewWithCompatibility] and the fields of its result. *)
Record composition := mkComposition {
  cm_manifestIDs : gset string;
  cm_annotationSources : gmap string string;
  cm_capabilitySources : gmap string string;
  cm_entryPointSources : gmap string string;
  cm_entryPointPackages : gset string;
  cm_contracts : gmap string dependencyContract;
  cm_definitions : list AnnotationDefinition;
  cm_bootstrapDefinitions : list FeatureDefinition;
  cm_entryPoints : gmap string (list EntryPoint);
}.

Definition entryPointKey (entryPoint : EntryPoint) : string :=
  ep_Package entryPoint +:+ nul_str +:+ ep_Symbol entryPoint.

Definition catalogError (problem : string) : error := ErrNew ("compose starter catalog: " +:+ problem).

Section composing.
Context `{UnicodeTables} `{ManifestValidation}.

Fixpoint registerEntryPoints (id : string) (entryPoints : list EntryPoint) (sources : gmap string string)
    (packages : gset string) : outcome error (gmap string string * gset string) :=
  match entryPoints with
  | [] => Ok (sources, packages)
  | entryPoint :: rest =>
    match sources !! entryPointKey entryPoint with
    | Some source =>
      Fail (catalogError ("entrypoint " +:+ ep_Package entryPoint +:+ "." +:+ ep_Symbol entryPoint +:+
        " is contributed by both " +:+ go_quote source +:+ " and " +:+ go_quote id))
    | None => registerEntryPoints id rest (<[entryPointKey entryPoint := id]> sources) ({[ep_Package entryPoint]} ∪ packages)
    end
  end.

Fixpoint registerDependencyContracts (id : string) (dependencies : list Dependency)
    (contracts : gmap string dependencyContract) : outcome error (gmap string dependencyContract) :=
  match dependencies with
  | [] => Ok contracts
  | dependency :: rest =>
    match contracts !! dp_Module dependency with
    | Some contract =>
      if bool_decide (dc_version contract ≠ dp_Version dependency ∨ dc_license contract ≠ dp_License dependency) then
        Fail (catalogError ("dependency " +:+ dp_Module dependency +:+ " has conflicting reviews from " +:+
          go_quote (dc_sourceID contract) +:+ " (" +:+ dc_version contract +:+ ", " +:+ dc_license contract +:+
          ") and " +:+ go_quote id +:+ " (" +:+ dp_Version dependency +:+ ", " +:+ dp_License dependency +:+ ")"))
      else registerDependencyContracts id rest contracts
    | None => registerDependencyContracts id rest
        (<[dp_Module dependency := mkContract id (dp_Version dependency) (dp_License dependency)]> contracts)
    end
  end.

(** The loop over the definitions of a manifest *)
Fixpoint contributeAnnotations (id : string) (definitions : list AnnotationDefinition) (sources : gmap string string)
    : outcome error (gmap string string) :=
  match definitions with
  | [] => Ok sources
  | definition :: rest =>
    match sources !! df_Name definition with
    | Some source =>
      Fail (catalogError ("annotation @" +:+ df_Name definition +:+ " is contributed by both " +:+
        go_quote source +:+ " and " +:+ go_quote id))
    | None => contributeAnnotations id rest (<[df_Name definition := id]> sources)
    end
  end.

Definition bootstrapDefinition (spec : Spec) (feature : FeatureSpec) : FeatureDefinition :=
  mkFeatureDefinition (fs_Annotation feature) (fs_Capability feature) (fs_Options feature) (fs_Requirements feature)
    (sp_ID spec) (sp_Version spec) (fs_EntryPoints feature).

(** The loop over the features of a manifest *)
Fixpoint contributeFeatures (id : string) (features : list FeatureSpec) (sources : gmap string string)
    : outcome error (gmap string string) :=
  match features with
  | [] => Ok sources
  | feature :: rest =>
    match sources !! fs_Capability feature with
    | Some source =>
      Fail (catalogError ("capability " +:+ go_quote (fs_Capability feature) +:+ " is contributed by both " +:+
        go_quote source +:+ " and " +:+ go_quote id))
    | None => contributeFeatures id rest (<[fs_Capability feature := id]> sources)
    end
  end.

(** One manifest in the loop of [NewWithCompatibility] *)
Definition addManifest (spiceAPI goVersion : string) (manifest : Manifest) (state : composition)
    : outcome error composition :=
  let spec := mf_Spec manifest in
  let id := sp_ID spec in
  match Compatible manifest spiceAPI goVersion with
  | Fail err => Fail (ErrWrap "compose starter catalog" err)
  | Ok _ =>
    _ ← guard_or (negb (bool_decide (id ∈ cm_manifestIDs state)))
      (catalogError ("duplicate starter manifest " +:+ go_quote id));
    '(entryPointSources, packages) ←
      registerEntryPoints id (av_EntryPoints (sp_Activation spec)) (cm_entryPointSources state) (cm_entryPointPackages state);
    contracts ← registerDependencyContracts id (sp_Dependencies spec) (cm_contracts state);
    annotationSources ← contributeAnnotations id (mf_Definitions manifest) (cm_annotationSources state);
    capabilitySources ← contributeFeatures id (sp_ApplicationFeatures spec) (cm_capabilitySources state);
    Ok (mkComposition ({[id]} ∪ cm_manifestIDs state) annotationSources capabilitySources entryPointSources packages contracts
      (cm_definitions state ++ mf_Definitions manifest)
      (cm_bootstrapDefinitions state ++ (bootstrapDefinition spec <$> sp_ApplicationFeatures spec))
      (foldl (λ m feature, <[fs_Annotation feature := fs_EntryPoints feature]> m)
        (cm_entryPoints state) (sp_ApplicationFeatures spec)))
  end.

Fixpoint addManifests (spiceAPI goVersion : string) (manifests : list Manifest) (state : composition)
    : outcome error composition :=
  match manifests with
  | [] => Ok state
  | manifest :: rest =>
    state' ← addManifest spiceAPI goVersion manifest state; addManifests spiceAPI goVersion rest state'
  end.

Definition builtinCapabilities : gmap string string :=
  foldl (λ m definition, <[fd_Capability definition := "Spice built-in"]> m) ∅ Builtins.

Definition emptyComposition : composition := mkComposition ∅ ∅ builtinCapabilities ∅ ∅ ∅ [] [] ∅.

Definition sortManifests (manifests : list Manifest) : list Manifest :=
  sort_stable (on_key (sp_ID ∘ mf_Spec) str_ltb) manifests.

Definition NewWithCompatibility (spiceAPI goVersion : string) (manifests : list Manifest) : outcome error Catalog :=
  if bool_decide (manifests = []) then Fail (ErrNew "starter catalog requires at least one manifest")
  else
    let normalized := sortManifests manifests in
    state ← addManifests spiceAPI goVersion normalized emptyComposition;
    Ok (mkCatalog normalized
      (sort_stable (on_key df_Name str_ltb) (cm_definitions state))
      (sort_stable (by_key fd_Capability str_ltb (on_key fd_Annotation str_ltb)) (cm_bootstrapDefinitions state))
      (cm_entryPoints state)
      (sort_strings (elements (cm_entryPointPackages state)))).

(** [Registry] of the catalog over a base registry *)
Definition catalogRegistry (catalog : Catalog) (base : list AnnotationDefinition) : outcome error Registry :=
  match NewRegistry (base ++ ct_definitions catalog) with
  | Fail err => Fail (ErrWrap "compose starter annotation registry" (ErrNew err))
  | Ok registry => Ok registry
  end.
End composing.

(** [EntryPoints]: those of a contributed annotation. *)
Definition catalogEntryPoints (catalog : Catalog) (annotationName : string) : list EntryPoint :=
  default [] (ct_entryPoints catalog !! annotationName).

(** ** Activation *)

(** The fields of [provider.Entrypoint] that are set. *)
Record Entrypoint := mkEntrypoint {
  et_PackagePath : string;
  et_Symbol : string;
  et_SourceID : string;
  et_SourceVersion : string;
}.

Definition is_application (c : Contribution) : bool :=
  match c with OtherContribution kind => bool_decide (kind = "application") | _ => false end.

Definition applicationSymbols (occurrences : list Occurrence) : gset string :=
  list_to_set (oc_SymbolID <$>
    filter (λ occurrence, HasContribution is_application occurrence = true ∧ oc_SymbolID occurrence ≠ "") occurrences).

Definition applicationAnnotations (occurrences : list Occurrence) : gset string :=
  list_to_set ((an_Name ∘ oc_Annotation) <$>
    filter (λ occurrence, oc_SymbolID occurrence ∈ applicationSymbols occurrences) occurrences).

Definition entryPointLess : EntryPoint → EntryPoint → bool := by_key ep_Package str_ltb (on_key ep_Symbol str_ltb).

Definition selectedEntryPoints (spec : Spec) (annotations : gset string) : list EntryPoint :=
  if bool_decide (av_Mode (sp_Activation spec) = ActivationExplicitConstructor) then av_EntryPoints (sp_Activation spec)
  else
    let enabled := filter (λ feature, fs_Annotation feature ∈ annotations) (sp_ApplicationFeatures spec) in
    let selected : gmap string EntryPoint :=
      foldl (λ m entryPoint, <[entryPointKey entryPoint := entryPoint]> m) ∅ (concat (fs_EntryPoints <$> enabled)) in
    sort_stable entryPointLess (map_to_list selected).*2.

Definition entrypointLess : Entrypoint → Entrypoint → bool :=
  by_key et_PackagePath str_ltb (by_key et_Symbol str_ltb (on_key et_SourceID str_ltb)).

Definition entrypointsOf (annotations : gset string) (manifest : Manifest) : list Entrypoint :=
  (λ entryPoint, mkEntrypoint (ep_Package entryPoint) (ep_Symbol entryPoint)
    (sp_ID (mf_Spec manifest)) (sp_Version (mf_Spec manifest))) <$> selectedEntryPoints (mf_Spec manifest) annotations.

Definition ProviderEntrypoints (catalog : Catalog) (occurrences : list Occurrence) : list Entrypoint :=
  sort_stable entrypointLess (concat (entrypointsOf (applicationAnnotations occurrences) <$> ct_manifests catalog)).

(** ** Dependencies *)

Record DependencyRequirement := mkRequirement {
  rq_SourceID : string;
  rq_Module : string;
  rq_Version : string;
  rq_License : string;
}.

Record ModuleVersion := mkModuleVersion {
  mv_Path : string;
  mv_Version : string;
  mv_Main : bool;
  mv_ReplacementPath : string;
  mv_ReplacementVersion : string;
}.

Record DependencyDiagnostic := mkDependencyDiagnostic {
  dd_SourceID : string;
  dd_Module : string;
  dd_Kind : string;
  dd_Message : string;
}.

Definition requirementLess : DependencyRequirement → DependencyRequirement → bool :=
  by_key rq_Module str_ltb (on_key rq_SourceID str_ltb).

(** A nil set of active manifests is [None]. *)
Definition is_active (active : option (gset string)) (id : string) : bool :=
  match active with Some ids => bool_decide (id ∈ ids) | None => true end.

Definition dependencies (catalog : Catalog) (active : option (gset string)) : list DependencyRequirement :=
  let selected := filter (λ manifest, is_active active (sp_ID (mf_Spec manifest)) = true) (ct_manifests catalog) in
  sort_stable requirementLess (concat ((λ manifest,
    (λ dependency, mkRequirement (sp_ID (mf_Spec manifest)) (dp_Module dependency) (dp_Version dependency) (dp_License dependency))
      <$> sp_Dependencies (mf_Spec manifest)) <$> selected)).

Definition Dependencies (catalog : Catalog) : list DependencyRequirement := dependencies catalog None.

Definition activeManifests (catalog : Catalog) (occurrences : list Occurrence) : gset string :=
  list_to_set ((sp_ID ∘ mf_Spec) <$>
    filter (λ manifest, selectedEntryPoints (mf_Spec manifest) (applicationAnnotations occurrences) ≠ []) (ct_manifests catalog)).

Definition ActiveDependencies (catalog : Catalog) (occurrences : list Occurrence) : list DependencyRequirement :=
  dependencies catalog (Some (activeManifests catalog occurrences)).

Definition resolvedModuleVersion (module : ModuleVersion) : string :=
  if bool_decide (mv_ReplacementPath module = "") then mv_Version module else mv_ReplacementVersion module.

Definition renderModuleVersion (module : ModuleVersion) : string :=
  let version := resolvedModuleVersion module in
  if decide (version = "") then
    if mv_Main module then "the unversioned main module" else "an unversioned module"
  else version.

Definition diagnosticLess : DependencyDiagnostic → DependencyDiagnostic → bool :=
  by_key dd_Module str_ltb (by_key dd_SourceID str_ltb (by_key dd_Kind str_ltb (on_key dd_Message str_ltb))).

Section versions.
Context `{UnicodeTables}.

(** The loop of [moduleVersionIndex] *)
Fixpoint indexModules (modules : list ModuleVersion) (index : gmap string ModuleVersion) (diagnostics : list DependencyDiagnostic)
    : gmap string ModuleVersion * list DependencyDiagnostic :=
  match modules with
  | [] => (index, diagnostics)
  | module :: rest =>
    if bool_decide (mv_Path module = "" ∨ trim_space (mv_Path module) ≠ mv_Path module) then
      indexModules rest index (diagnostics ++ [mkDependencyDiagnostic "" "" "invalid-module-graph"
        ("Go module graph contains invalid module path " +:+ go_quote (mv_Path module))])
    else if bool_decide (is_Some (index !! mv_Path module)) then
      indexModules rest index (diagnostics ++ [mkDependencyDiagnostic "" (mv_Path module) "invalid-module-graph"
        ("Go module graph contains duplicate module " +:+ go_quote (mv_Path module))])
    else indexModules rest (<[mv_Path module := module]> index) diagnostics
  end.

Definition moduleVersionIndex (modules : list ModuleVersion) : gmap string ModuleVersion * list DependencyDiagnostic :=
  indexModules modules ∅ [].

(** What [validateModuleVersions] reports for a requirement *)
Definition requirementDiagnostic (index : gmap string ModuleVersion) (requirement : DependencyRequirement)
    : option DependencyDiagnostic :=
  let diagnostic (kind rest : string) := Some (mkDependencyDiagnostic (rq_SourceID requirement) (rq_Module requirement) kind
    ("starter " +:+ go_quote (rq_SourceID requirement) +:+ " requires reviewed dependency " +:+ rq_Module requirement +:+
     " at " +:+ rq_Version requirement +:+ rest)) in
  match index !! rq_Module requirement with
  | None => diagnostic "missing" ", but that module is absent from the application build list"
  | Some module =>
    if bool_decide (mv_ReplacementPath module ≠ "" ∧
        (mv_ReplacementPath module ≠ rq_Module requirement ∨ mv_ReplacementVersion module ≠ rq_Version requirement)) then
      diagnostic "replacement" (", but the application replaces it with " +:+
        (mv_ReplacementPath module +:+ (if decide (mv_ReplacementVersion module = "") then ""
          else " " +:+ mv_ReplacementVersion module)) +:+
        "; review and publish matching starter metadata before using a replacement")
    else if bool_decide (resolvedModuleVersion module ≠ rq_Version requirement) then
      diagnostic "version" (", but the application resolves " +:+ renderModuleVersion module)
    else None
  end.

Definition validateModuleVersions (requirements : list DependencyRequirement) (modules : list ModuleVersion)
    : list DependencyDiagnostic :=
  if bool_decide (requirements = []) then []
  else
    let '(index, diagnostics) := moduleVersionIndex modules in
    sort_stable diagnosticLess (diagnostics ++ omap (requirementDiagnostic index) requirements).

Definition ValidateModuleVersions (catalog : Catalog) (modules : list ModuleVersion) : list DependencyDiagnostic :=
  validateModuleVersions (Dependencies catalog) modules.

Definition ValidateActiveModuleVersions (catalog : Catalog) (occurrences : list Occurrence) (modules : list ModuleVersion)
    : list DependencyDiagnostic :=
  validateModuleVersions (ActiveDependencies catalog occurrences) modules.
End versions.

(** ** Claims of names *)

(** Names that nobody has claimed, each claimed once. *)
Definition unclaimed (keys : list string) (m : gmap string string) : Prop :=
  NoDup keys ∧ ∀ k, k ∈ keys → m !! k = None.
Definition claim_all (id : string) (keys : list string) (m : gmap string string) : gmap string string :=
  foldl (λ m k, <[k := id]> m) m keys.

Lemma unclaimed_nil m : unclaimed [] m.
Proof. split; [constructor|by intros ? ?%elem_of_nil]. Qed.

Lemma unclaimed_cons id k keys m : unclaimed (k :: keys) m ↔ m !! k = None ∧ unclaimed keys (<[k := id]> m).
Proof.
  unfold unclaimed. rewrite NoDup_cons. setoid_rewrite elem_of_cons. setoid_rewrite lookup_insert_None. split.
  - intros [[Hk Hnd] Hall]. split_and!; [auto|done|]. intros k' Hk'. split; [auto|]. by intros ->.
  - intros (Hm & Hnd & Hall). split; [split; [|done]|].
    + intros Hk. by destruct (Hall k Hk).
    + intros k' [->|Hk']; [done|]. by apply Hall.
Qed.

Lemma unclaimed_app id k1 k2 m : unclaimed (k1 ++ k2) m ↔ unclaimed k1 m ∧ unclaimed k2 (claim_all id k1 m).
Proof.
  revert m. induction k1 as [|k k1 IH]; intros m.
  - split; [intros Hk; split; [apply unclaimed_nil|done]|by intros [_ ?]].
  - cbn [app claim_all foldl]. rewrite !(unclaimed_cons id), IH. unfold claim_all. tauto.
Qed.

Lemma unclaimed_empty keys : unclaimed keys ∅ ↔ NoDup keys.
Proof. unfold unclaimed. split; [by intros [? _]|]. intros Hnd. split; [done|]. intros k _. apply lookup_empty. Qed.

Section claims.
Context `{UnicodeTables}.

Lemma registerEntryPoints_ok id eps sources packages r :
  registerEntryPoints id eps sources packages = Ok r ↔
  unclaimed (entryPointKey <$> eps) sources ∧
  r = (claim_all id (entryPointKey <$> eps) sources, list_to_set (ep_Package <$> eps) ∪ packages).
Proof.
  revert sources packages. induction eps as [|ep eps IH]; intros sources packages; cbn [registerEntryPoints].
  - split; [intros [= <-]; split; [apply unclaimed_nil|]|intros [_ ->]; f_equal]; simpl; f_equal; set_solver.
  - rewrite fmap_cons, (unclaimed_cons id). destruct (sources !! entryPointKey ep) eqn:E; [naive_solver|].
    rewrite IH. cbn [fmap list_fmap]. assert (list_to_set (ep_Package <$> eps) ∪ ({[ep_Package ep]} ∪ packages) =
      list_to_set (ep_Package ep :: (ep_Package <$> eps)) ∪ packages) as -> by set_solver. naive_solver.
Qed.

Lemma contributeAnnotations_ok id defs sources r :
  contributeAnnotations id defs sources = Ok r ↔
  unclaimed (df_Name <$> defs) sources ∧ r = claim_all id (df_Name <$> defs) sources.
Proof.
  revert sources. induction defs as [|d defs IH]; intros sources; cbn [contributeAnnotations].
  - split; [intros [= <-]; split; [apply unclaimed_nil|done]|by intros [_ ->]].
  - rewrite fmap_cons, (unclaimed_cons id). destruct (sources !! df_Name d) eqn:E; [naive_solver|]. rewrite IH. naive_solver.
Qed.

Lemma contributeFeatures_ok id features sources r :
  contributeFeatures id features sources = Ok r ↔
  unclaimed (fs_Capability <$> features) sources ∧ r = claim_all id (fs_Capability <$> features) sources.
Proof.
  revert sources. induction features as [|d features IH]; intros sources; cbn [contributeFeatures].
  - split; [intros [= <-]; split; [apply unclaimed_nil|done]|by intros [_ ->]].
  - rewrite fmap_cons, (unclaimed_cons id). destruct (sources !! fs_Capability d) eqn:E; [naive_solver|]. rewrite IH. naive_solver.
Qed.

(** ** Reviews of dependencies *)

Definition same_review (d : Dependency) (c : dependencyContract) : Prop :=
  dc_version c = dp_Version d ∧ dc_license c = dp_License d.

(** The reviews agree with the contracts and with each other. *)
Definition agreed (deps : list Dependency) (contracts : gmap string dependencyContract) : Prop :=
  (∀ d c, d ∈ deps → contracts !! dp_Module d = Some c → same_review d c) ∧
  ∀ d1 d2, d1 ∈ deps → d2 ∈ deps → dp_Module d1 = dp_Module d2 → dp_Version d1 = dp_Version d2 ∧ dp_License d1 = dp_License d2.

Lemma agreed_nil contracts : agreed [] contracts.
Proof. split; intros *; by rewrite elem_of_nil. Qed.

Definition add_contract (id : string) (contracts : gmap string dependencyContract) (d : Dependency) : gmap string dependencyContract :=
  match contracts !! dp_Module d with
  | Some _ => contracts
  | None => <[dp_Module d := mkContract id (dp_Version d) (dp_License d)]> contracts
  end.

Lemma agreed_cons id d deps contracts :
  agreed (d :: deps) contracts ↔
  (∀ c, contracts !! dp_Module d = Some c → same_review d c) ∧ agreed deps (add_contract id contracts d).
Proof.
  unfold agreed, add_contract, same_review. setoid_rewrite elem_of_cons.
  destruct (contracts !! dp_Module d) as [c|] eqn:E; split.
  - intros [Hc Hd]. split_and!; [naive_solver|naive_solver|naive_solver].
  - intros (Hd & Hc & Hdd). specialize (Hd c eq_refl). split; [naive_solver|].
    intros d1 d2 [->|H1] [->|H2] Hm; try done; [|auto|auto].
    + rewrite Hm in E. destruct (Hc d2 c H2 E). destruct Hd. split; congruence.
    + rewrite <-Hm in E. destruct (Hc d1 c H1 E). destruct Hd. split; congruence.
  - intros [Hc Hd]. split_and!; [done| |naive_solver].
    intros d' c Hd' [[Hm <-]|[_ Hl]]%lookup_insert_Some; [simpl; by apply Hd; [left|right|]|by apply Hc; [right|]].
  - intros (_ & Hc & Hdd).
    assert (∀ d', d' ∈ deps → dp_Module d = dp_Module d' → dp_Version d = dp_Version d' ∧ dp_License d = dp_License d') as Hnew.
    { intros d' Hd' Hm. apply (Hc d' (mkContract id (dp_Version d) (dp_License d)) Hd'). rewrite Hm. apply lookup_insert_eq. }
    split.
    + intros d' c [->|Hd'] Hl; [congruence|]. apply Hc; [done|]. rewrite lookup_insert_ne; [done|]. intros Hm. rewrite <-Hm in Hl. congruence.
    + intros d1 d2 [->|H1] [->|H2] Hm; [done|by apply Hnew| |by apply Hdd].
      destruct (Hnew d1 H1); [done|]. split; congruence.
Qed.

Lemma agreed_app id d1 d2 contracts :
  agreed (d1 ++ d2) contracts ↔ agreed d1 contracts ∧ agreed d2 (foldl (add_contract id) contracts d1).
Proof.
  revert contracts. induction d1 as [|d d1 IH]; intros contracts.
  - split; [intros Ha; split; [apply agreed_nil|done]|by intros [_ ?]].
  - cbn [app foldl]. rewrite !(agreed_cons id), IH. tauto.
Qed.

Lemma registerDependencyContracts_ok id deps contracts r :
  registerDependencyContracts id deps contracts = Ok r ↔ agreed deps contracts ∧ r = foldl (add_contract id) contracts deps.
Proof.
  revert contracts. induction deps as [|d deps IH]; intros contracts; cbn [registerDependencyContracts foldl].
  - split; [intros [= <-]; split; [apply agreed_nil|done]|by intros [_ ->]].
  - rewrite (agreed_cons id). destruct (contracts !! dp_Module d) as [c|] eqn:E.
    + assert (add_contract id contracts d = contracts) as -> by (unfold add_contract; by rewrite E).
      case_bool_decide as Hc; [unfold same_review; naive_solver|]. rewrite IH.
      assert (same_review d c) by (split; apply dec_stable; tauto). naive_solver.
    + assert (add_contract id contracts d = <[dp_Module d := mkContract id (dp_Version d) (dp_License d)]> contracts) as ->
        by (unfold add_contract; by rewrite E).
      rewrite IH. naive_solver.
Qed.

(** ** Composition *)

Context `{ManifestValidation}.

Definition id_of (m : Manifest) : string := sp_ID (mf_Spec m).
Definition entry_keys (m : Manifest) : list string := entryPointKey <$> av_EntryPoints (sp_Activation (mf_Spec m)).
Definition annotation_names (m : Manifest) : list string := df_Name <$> mf_Definitions m.
Definition capabilities (m : Manifest) : list string := fs_Capability <$> sp_ApplicationFeatures (mf_Spec m).
Definition reviews (m : Manifest) : list Dependency := sp_Dependencies (mf_Spec m).

(** Manifests that can be added to a composition. *)
Definition addable (api go : string) (ms : list Manifest) (st : composition) : Prop :=
  Forall (λ m, Compatible m api go = Ok ()) ms ∧
  NoDup (id_of <$> ms) ∧ (∀ m, m ∈ ms → id_of m ∉ cm_manifestIDs st) ∧
  unclaimed (concat (entry_keys <$> ms)) (cm_entryPointSources st) ∧
  agreed (concat (reviews <$> ms)) (cm_contracts st) ∧
  unclaimed (concat (annotation_names <$> ms)) (cm_annotationSources st) ∧
  unclaimed (concat (capabilities <$> ms)) (cm_capabilitySources st).

Definition added (st : composition) (m : Manifest) : composition :=
  mkComposition ({[id_of m]} ∪ cm_manifestIDs st)
    (claim_all (id_of m) (annotation_names m) (cm_annotationSources st))
    (claim_all (id_of m) (capabilities m) (cm_capabilitySources st))
    (claim_all (id_of m) (entry_keys m) (cm_entryPointSources st))
    (list_to_set (ep_Package <$> av_EntryPoints (sp_Activation (mf_Spec m))) ∪ cm_entryPointPackages st)
    (foldl (add_contract (id_of m)) (cm_contracts st) (reviews m))
    (cm_definitions st ++ mf_Definitions m)
    (cm_bootstrapDefinitions st ++ (bootstrapDefinition (mf_Spec m) <$> sp_ApplicationFeatures (mf_Spec m)))
    (foldl (λ e feature, <[fs_Annotation feature := fs_EntryPoints feature]> e)
      (cm_entryPoints st) (sp_ApplicationFeatures (mf_Spec m))).

Lemma addManifest_ok api go m st st' : addManifest api go m st = Ok st' ↔
  Compatible m api go = Ok () ∧ id_of m ∉ cm_manifestIDs st ∧
  unclaimed (entry_keys m) (cm_entryPointSources st) ∧ agreed (reviews m) (cm_contracts st) ∧
  unclaimed (annotation_names m) (cm_annotationSources st) ∧ unclaimed (capabilities m) (cm_capabilitySources st) ∧
  st' = added st m.
Proof.
  unfold addManifest. destruct (Compatible m api go) as [[]|]; [|naive_solver]. split.
  - intros (Hid & (r & Hr & Hrest)%outcome_bind_ok)%outcome_then_ok.
    apply registerEntryPoints_ok in Hr as [He ->]. apply outcome_bind_ok in Hrest as (cs & Hcs & Hrest).
    apply registerDependencyContracts_ok in Hcs as [Hd ->]. apply outcome_bind_ok in Hrest as (an & Han & Hrest).
    apply contributeAnnotations_ok in Han as [Ha ->]. apply outcome_bind_ok in Hrest as (cp & Hcp & Hrest).
    apply contributeFeatures_ok in Hcp as [Hc ->]. injection Hrest as <-.
    apply guard_or_ok, negb_true_iff, bool_decide_eq_false in Hid. done.
  - intros (_ & Hid & He & Hd & Ha & Hc & ->).
    apply outcome_then_ok. split; [by apply guard_or_ok, negb_true_iff, bool_decide_eq_false|].
    rewrite (proj2 (registerEntryPoints_ok (sp_ID (mf_Spec m)) (av_EntryPoints (sp_Activation (mf_Spec m))) _ _ _) (conj He eq_refl)).
    cbn [mbind outcome_bind].
    rewrite (proj2 (registerDependencyContracts_ok (sp_ID (mf_Spec m)) (sp_Dependencies (mf_Spec m)) _ _) (conj Hd eq_refl)).
    cbn [mbind outcome_bind].
    rewrite (proj2 (contributeAnnotations_ok (sp_ID (mf_Spec m)) (mf_Definitions m) _ _) (conj Ha eq_refl)).
    cbn [mbind outcome_bind].
    by rewrite (proj2 (contributeFeatures_ok (sp_ID (mf_Spec m)) (sp_ApplicationFeatures (mf_Spec m)) _ _) (conj Hc eq_refl)).
Qed.

Lemma addManifests_ok api go ms st st' : addManifests api go ms st = Ok st' ↔ addable api go ms st ∧ st' = foldl added st ms.
Proof.
  revert st. induction ms as [|m ms IH]; intros st; cbn [addManifests foldl].
  { split; [|by intros [_ ->]]. intros [= <-]. split; [|done]. unfold addable. simpl.
    split_and!; [constructor|constructor|by intros ? ?%elem_of_nil|apply unclaimed_nil|apply agreed_nil|apply unclaimed_nil..]. }
  rewrite outcome_bind_ok. setoid_rewrite addManifest_ok. setoid_rewrite IH. unfold addable.
  rewrite !fmap_cons, Forall_cons, NoDup_cons. cbn [concat].
  rewrite !(unclaimed_app (id_of m)), (agreed_app (id_of m)). setoid_rewrite elem_of_cons.
  assert ((∀ m', m' ∈ ms → id_of m' ∉ {[id_of m]} ∪ cm_manifestIDs st) ↔
    id_of m ∉ id_of <$> ms ∧ ∀ m', m' ∈ ms → id_of m' ∉ cm_manifestIDs st) as Hids.
  { rewrite list_elem_of_fmap. set_solver. }
  split.
  - intros (_ & (Hc & Hid & He & Hd & Ha & Hcap & ->) & (Hcs & Hnd & Hids' & He' & Hd' & Ha' & Hcap') & ->).
    apply Hids in Hids' as [Hn Hids']. split; [|done]. split_and!; try done. intros m' [->|Hm']; auto.
  - intros (((Hc & Hcs) & (Hn & Hnd) & Hids' & (He & He') & (Hd & Hd') & (Ha & Ha') & (Hcap & Hcap')) & ->).
    exists (added st m). split; [split_and!; auto|]. split; [|done]. split_and!; try done. apply Hids. split; [done|]. auto.
Qed.

(** ** The catalog *)

(** Manifests that compose: each compatible, and no two claims of a name. *)
Definition composable (api go : string) (ms : list Manifest) : Prop :=
  Forall (λ m, Compatible m api go = Ok ()) ms ∧ NoDup (id_of <$> ms) ∧
  NoDup (concat (entry_keys <$> ms)) ∧ NoDup (concat (annotation_names <$> ms)) ∧
  NoDup (concat (capabilities <$> ms)) ∧
  (∀ k, k ∈ concat (capabilities <$> ms) → k ≠ CapabilityManagement ∧ k ≠ CapabilityLogging) ∧
  ∀ d1 d2, d1 ∈ concat (reviews <$> ms) → d2 ∈ concat (reviews <$> ms) → dp_Module d1 = dp_Module d2 →
    dp_Version d1 = dp_Version d2 ∧ dp_License d1 = dp_License d2.

Lemma builtin_free k : builtinCapabilities !! k = None ↔ k ≠ CapabilityManagement ∧ k ≠ CapabilityLogging.
Proof.
  unfold builtinCapabilities. cbn [foldl Builtins fd_Capability]. rewrite !lookup_insert_None, lookup_empty. naive_solver.
Qed.

Lemma addable_empty api go ms : addable api go ms emptyComposition ↔ composable api go ms.
Proof.
  unfold addable, composable, emptyComposition. simpl. rewrite !unclaimed_empty. unfold unclaimed, agreed.
  setoid_rewrite builtin_free. setoid_rewrite lookup_empty. naive_solver set_solver.
Qed.

Lemma concat_fmap_Permutation {A B} (f : A → list B) l k : l ≡ₚ k → concat (f <$> l) ≡ₚ concat (f <$> k).
Proof. intros Hp. induction Hp; simpl; [done|by f_equiv|by rewrite !app_assoc, (Permutation_app_comm (f y))|by etrans]. Qed.

Lemma composable_perm api go ms ms' : ms ≡ₚ ms' → composable api go ms → composable api go ms'.
Proof.
  intros Hp. unfold composable. intros (Hc & Hi & He & Ha & Hcap & Hb & Hd).
  pose proof (concat_fmap_Permutation entry_keys _ _ Hp) as P1. pose proof (concat_fmap_Permutation annotation_names _ _ Hp) as P2.
  pose proof (concat_fmap_Permutation capabilities _ _ Hp) as P3. pose proof (concat_fmap_Permutation reviews _ _ Hp) as P4.
  split_and!; [by rewrite <-Hp|by rewrite <-Hp|by rewrite <-P1|by rewrite <-P2|by rewrite <-P3| |].
  - intros k. rewrite <-P3. apply Hb.
  - intros d1 d2. rewrite <-P4. apply Hd.
Qed.

Lemma sortManifests_perm ms : sortManifests ms ≡ₚ ms.
Proof. apply sort_stable_perm. Qed.

Lemma New_ok api go ms c : NewWithCompatibility api go ms = Ok c →
  composable api go ms ∧ ct_manifests c = sortManifests ms.
Proof.
  unfold NewWithCompatibility. case_bool_decide; [done|]. intros (st & Hst & [= <-])%outcome_bind_ok.
  apply addManifests_ok in Hst as [Ha _]. split; [|done]. apply addable_empty in Ha.
  eapply composable_perm; [apply sortManifests_perm|done].
Qed.

Lemma id_unique ms m1 m2 : NoDup (id_of <$> ms) → m1 ∈ ms → m2 ∈ ms → id_of m1 = id_of m2 → m1 = m2.
Proof. apply NoDup_key. Qed.

Lemma sortManifests_perm_eq ms ms' : NoDup (id_of <$> ms) → ms ≡ₚ ms' → sortManifests ms = sortManifests ms'.
Proof.
  intros Hnd Hp. symmetry. apply sort_stable_perm_eq; [apply _| |by symmetry]. intros m1 m2 H1 H2 L1 L2.
  apply (id_unique ms); [done..|]. by apply (st_total (StrictTotal := str_ltb_total)).
Qed.

Lemma New_total api go ms : ms ≠ [] → composable api go ms → ∃ c, NewWithCompatibility api go ms = Ok c.
Proof.
  intros Hne Hc. unfold NewWithCompatibility. rewrite bool_decide_eq_false_2 by done. cbv zeta.
  destruct (addManifests_ok api go (sortManifests ms) emptyComposition (foldl added emptyComposition (sortManifests ms))) as [_ ->];
    [by eexists|]. split; [|reflexivity]. apply addable_empty. eapply composable_perm; [|done]. symmetry. apply sortManifests_perm.
Qed.

(** ** Activation *)

(** What the vendored validation guarantees of a manifest: its features use
    declared entry points. *)
Definition features_declared (m : Manifest) : Prop :=
  ∀ feature ep, feature ∈ sp_ApplicationFeatures (mf_Spec m) → ep ∈ fs_EntryPoints feature →
    ep ∈ av_EntryPoints (sp_Activation (mf_Spec m)).

(** The application markers carry the annotation. *)
Definition enabled (occurrences : list Occurrence) (name : string) : Prop :=
  ∃ marker occurrence, marker ∈ occurrences ∧ occurrence ∈ occurrences ∧ HasContribution is_application marker = true ∧
    oc_SymbolID marker ≠ "" ∧ oc_SymbolID occurrence = oc_SymbolID marker ∧ an_Name (oc_Annotation occurrence) = name.

Lemma applicationAnnotations_enabled occurrences name : name ∈ applicationAnnotations occurrences ↔ enabled occurrences name.
Proof.
  unfold applicationAnnotations, applicationSymbols, enabled.
  rewrite elem_of_list_to_set, list_elem_of_fmap. setoid_rewrite list_elem_of_filter.
  setoid_rewrite elem_of_list_to_set. setoid_rewrite list_elem_of_fmap. setoid_rewrite list_elem_of_filter.
  unfold compose. split.
  - intros (o & -> & (marker & E & (Ha & Hne) & Hm) & Ho). by exists marker, o.
  - intros (marker & o & Hm & Ho & Ha & Hne & E & <-). exists o. split; [done|]. split; [by exists marker|done].
Qed.

(** The entry points of a manifest that the application activates *)
Definition activated (occurrences : list Occurrence) (m : Manifest) (ep : EntryPoint) : Prop :=
  if decide (av_Mode (sp_Activation (mf_Spec m)) = ActivationExplicitConstructor)
  then ep ∈ av_EntryPoints (sp_Activation (mf_Spec m))
  else ∃ feature, feature ∈ sp_ApplicationFeatures (mf_Spec m) ∧ enabled occurrences (fs_Annotation feature) ∧
    ep ∈ fs_EntryPoints feature.

Lemma select_lookup eps (m : gmap string EntryPoint) k ep :
  foldl (λ m ep, <[entryPointKey ep := ep]> m) m eps !! k = Some ep →
  (ep ∈ eps ∧ entryPointKey ep = k) ∨ m !! k = Some ep.
Proof.
  revert m. induction eps as [|e eps IH]; intros m; cbn [foldl]; [by right|].
  intros [[Hin Hk]|Hm]%IH; [left; split; [by right|done]|].
  apply lookup_insert_Some in Hm as [[<- <-]|[_ Hm]]; [left; split; [by left|done]|by right].
Qed.

Lemma select_domain eps (m : gmap string EntryPoint) k :
  k ∈ entryPointKey <$> eps ∨ is_Some (m !! k) → is_Some (foldl (λ m ep, <[entryPointKey ep := ep]> m) m eps !! k).
Proof.
  revert m. induction eps as [|e eps IH]; intros m; cbn [foldl fmap list_fmap]; [by intros [?%elem_of_nil|]|].
  intros Hk. apply IH. rewrite lookup_insert_is_Some'. rewrite elem_of_cons in Hk. naive_solver.
Qed.

Lemma selected_exact occurrences m : NoDup (entry_keys m) → features_declared m →
  NoDup (entryPointKey <$> selectedEntryPoints (mf_Spec m) (applicationAnnotations occurrences)) ∧
  ∀ ep, ep ∈ selectedEntryPoints (mf_Spec m) (applicationAnnotations occurrences) ↔ activated occurrences m ep.
Proof.
  intros Hnd Hf. unfold selectedEntryPoints, activated. case_bool_decide as Hmode.
  { split; [exact Hnd|]. intros ep. by rewrite decide_True by done. }
  set (eps := concat (fs_EntryPoints <$> filter (λ feature, fs_Annotation feature ∈ applicationAnnotations occurrences)
    (sp_ApplicationFeatures (mf_Spec m)))).
  set (sel := foldl (λ m ep, <[entryPointKey ep := ep]> m) (∅ : gmap string EntryPoint) eps).
  assert (∀ k ep, sel !! k = Some ep → ep ∈ eps ∧ entryPointKey ep = k) as Hsel.
  { intros k ep [?|Hm]%select_lookup; [done|]. by rewrite lookup_empty in Hm. }
  assert (∀ ep, ep ∈ eps ↔ ∃ feature, feature ∈ sp_ApplicationFeatures (mf_Spec m) ∧ enabled occurrences (fs_Annotation feature) ∧
    ep ∈ fs_EntryPoints feature) as Heps.
  { intros ep. unfold eps. rewrite elem_of_concat. setoid_rewrite list_elem_of_fmap. setoid_rewrite list_elem_of_filter.
    setoid_rewrite applicationAnnotations_enabled. naive_solver. }
  split.
  - rewrite sort_stable_perm. rewrite <-list_fmap_compose.
    assert (entryPointKey ∘ snd <$> map_to_list sel = (map_to_list sel).*1) as ->; [|apply NoDup_fst_map_to_list].
    apply list_fmap_ext. intros i [k ep] Hi. simpl. apply list_elem_of_lookup_2, elem_of_map_to_list, Hsel in Hi. by destruct Hi.
  - intros ep. rewrite decide_False by done. rewrite elem_of_sort_stable, list_elem_of_fmap, <-Heps. split.
    + intros ([k ep'] & -> & Hin%elem_of_map_to_list%Hsel). by destruct Hin.
    + intros Hin. destruct (select_domain eps ∅ (entryPointKey ep)) as [ep' Hep']; [left; by apply list_elem_of_fmap_2|].
      change (sel !! entryPointKey ep = Some ep') in Hep'. pose proof Hep' as [Hin' Hk]%Hsel.
      assert (ep' = ep) as ->.
      { apply (NoDup_key entryPointKey (av_EntryPoints (sp_Activation (mf_Spec m)))); [done| | |done].
        - apply Heps in Hin' as (f & ? & _ & ?). by eapply Hf.
        - apply Heps in Hin as (f & ? & _ & ?). by eapply Hf. }
      exists (entryPointKey ep, ep). split; [done|]. by apply elem_of_map_to_list.
Qed.

Lemma NoDup_concat_part {A B} (f : A → list B) l x : NoDup (concat (f <$> l)) → x ∈ l → NoDup (f x).
Proof.
  induction l as [|y l IH]; [by intros _ ?%elem_of_nil|]. cbn [fmap list_fmap concat]. intros (Hy & _ & Hnd)%NoDup_app.
  intros [->|Hx]%elem_of_cons; [done|by apply IH].
Qed.

(** A part of each of some lists without repetitions *)
Lemma NoDup_concat_sub {A B} (f g : A → list B) l : NoDup (concat (f <$> l)) →
  (∀ x, x ∈ l → NoDup (g x) ∧ ∀ y, y ∈ g x → y ∈ f x) → NoDup (concat (g <$> l)).
Proof.
  induction l as [|x l IH]; [constructor|]. cbn [fmap list_fmap concat]. rewrite !NoDup_app.
  intros (Hx & Hdis & Hl) Hg. destruct (Hg x (list_elem_of_here _ _)) as [Hgx Hsub]. split_and!; [done| |].
  - intros y Hy Hy'. apply (Hdis y); [by apply Hsub|]. rewrite elem_of_concat in Hy' |- *.
    destruct Hy' as (gs & (z & -> & Hz)%list_elem_of_fmap & Hy'). exists (f z). split; [by apply list_elem_of_fmap_2|].
    apply Hg; [by right|done].
  - apply IH; [done|]. intros z Hz. apply Hg. by right.
Qed.

Definition entrypoint_of (m : Manifest) (ep : EntryPoint) : Entrypoint :=
  mkEntrypoint (ep_Package ep) (ep_Symbol ep) (id_of m) (sp_Version (mf_Spec m)).
Definition constructor_of (e : Entrypoint) : string * string := (et_PackagePath e, et_Symbol e).

Lemma ProviderEntrypoints_spec occurrences ms catalog : ct_manifests catalog ≡ₚ ms →
  NoDup (concat (entry_keys <$> ms)) → Forall features_declared ms →
  NoDup (constructor_of <$> ProviderEntrypoints catalog occurrences) ∧
  ∀ e, e ∈ ProviderEntrypoints catalog occurrences ↔ ∃ m ep, m ∈ ms ∧ activated occurrences m ep ∧ e = entrypoint_of m ep.
Proof.
  intros Hp Hnd Hf. rewrite Forall_forall in Hf.
  assert (∀ m, m ∈ ms → NoDup (entry_keys m)) as Hkeys by (intros m; by apply NoDup_concat_part).
  assert (NoDup (concat ((λ m, entryPointKey <$> selectedEntryPoints (mf_Spec m) (applicationAnnotations occurrences)) <$> ms))) as Hsel.
  { apply (NoDup_concat_sub entry_keys); [done|]. intros m Hm. destruct (selected_exact occurrences m) as [Hn He]; [auto..|].
    split; [done|]. intros k (ep & -> & Hep)%list_elem_of_fmap. apply list_elem_of_fmap_2. apply He in Hep.
    unfold activated in Hep. case_decide; [done|]. destruct Hep as (f & Hfe & _ & Hep). by eapply Hf. }
  unfold ProviderEntrypoints. split.
  - rewrite sort_stable_perm. rewrite (concat_fmap_Permutation _ _ _ Hp).
    apply (NoDup_fmap_1 (λ c : string * string, c.1 +:+ nul_str +:+ c.2)).
    assert (∀ l, (λ c : string * string, c.1 +:+ nul_str +:+ c.2) <$>
        (constructor_of <$> concat (entrypointsOf (applicationAnnotations occurrences) <$> l)) =
      concat ((λ m, entryPointKey <$> selectedEntryPoints (mf_Spec m) (applicationAnnotations occurrences)) <$> l)) as ->; [|done].
    intros l. induction l as [|m l IH]; [done|]. cbn [fmap list_fmap concat]. rewrite !fmap_app. f_equal; [|done].
    unfold entrypointsOf. by rewrite <-!list_fmap_compose.
  - intros e. rewrite elem_of_sort_stable, (concat_fmap_Permutation _ _ _ Hp), elem_of_concat.
    setoid_rewrite list_elem_of_fmap. split.
    + intros (es & (m & -> & Hm) & He). unfold entrypointsOf in He. apply list_elem_of_fmap in He as (ep & -> & Hep).
      exists m, ep. split_and!; [done| |done]. apply selected_exact; auto.
    + intros (m & ep & Hm & Ha & ->). eexists. split; [by exists m|]. apply list_elem_of_fmap. exists ep. split; [done|].
      apply selected_exact; auto.
Qed.

(** ** Versions *)

Definition path_ok (m : ModuleVersion) : Prop := mv_Path m ≠ "" ∧ trim_space (mv_Path m) = mv_Path m.

Lemma indexModules_grows mods index diags : ∃ more, (indexModules mods index diags).2 = diags ++ more.
Proof.
  revert index diags. induction mods as [|m mods IH]; intros index diags; cbn [indexModules]; [exists []; by rewrite app_nil_r|].
  repeat case_bool_decide.
  - destruct (IH index (diags ++ [mkDependencyDiagnostic "" "" "invalid-module-graph"
        ("Go module graph contains invalid module path " +:+ go_quote (mv_Path m))])) as [more ->]. eexists. by rewrite <-app_assoc.
  - destruct (IH index (diags ++ [mkDependencyDiagnostic "" (mv_Path m) "invalid-module-graph"
        ("Go module graph contains duplicate module " +:+ go_quote (mv_Path m))])) as [more ->]. eexists. by rewrite <-app_assoc.
  - apply IH.
Qed.

Lemma indexModules_clean mods index :
  (indexModules mods index []).2 = [] ↔
  Forall path_ok mods ∧ NoDup (mv_Path <$> mods) ∧ ∀ m, m ∈ mods → index !! mv_Path m = None.
Proof.
  revert index. induction mods as [|m mods IH]; intros index; cbn [indexModules fmap list_fmap].
  { split; [|done]. intros _. split_and!; [constructor|constructor|by intros ? ?%elem_of_nil]. }
  rewrite Forall_cons, NoDup_cons. setoid_rewrite elem_of_cons. unfold path_ok at 1. case_bool_decide as Hp.
  { split; [|naive_solver]. destruct (indexModules_grows mods index ([] ++ [mkDependencyDiagnostic "" "" "invalid-module-graph"
        ("Go module graph contains invalid module path " +:+ go_quote (mv_Path m))])) as [more ->]. done. }
  case_bool_decide as Hi.
  { split.
    - destruct (indexModules_grows mods index ([] ++ [mkDependencyDiagnostic "" (mv_Path m) "invalid-module-graph"
        ("Go module graph contains duplicate module " +:+ go_quote (mv_Path m))])) as [more ->]. done.
    - intros (_ & _ & Hall). destruct Hi as [x Hx]. rewrite (Hall m) in Hx; [done|by left]. }
  apply eq_None_not_Some in Hi. rewrite IH. setoid_rewrite lookup_insert_None. rewrite list_elem_of_fmap. split.
  - intros (Hf & Hnd & Hall). split_and!; [tauto|apply dec_stable; tauto|done| |done|].
    + intros (m' & E & Hm'). by destruct (Hall m' Hm').
    + intros m' [->|Hm']; [done|]. by apply Hall.
  - intros ((_ & Hf) & (Hn & Hnd) & Hall). split_and!; [done|done|]. intros m' Hm'. split; [by apply Hall; right|].
    intros E. apply Hn. by exists m'.
Qed.

Lemma indexModules_index mods index :
  (indexModules mods index []).2 = [] → (indexModules mods index []).1 = index_by mv_Path index mods.
Proof.
  intros Hclean. apply indexModules_clean in Hclean as (Hf & Hnd & Hall). revert index Hall.
  induction mods as [|m mods IH]; intros index Hall; [done|]. cbn [indexModules index_by foldl].
  apply Forall_cons in Hf as [[Hp1 Hp2] Hf]. apply NoDup_cons in Hnd as [Hn Hnd].
  rewrite bool_decide_eq_false_2 by tauto. rewrite bool_decide_eq_false_2 by (rewrite (Hall m); [by intros []|by left]).
  apply IH; [done|done|]. intros m' Hm'. rewrite lookup_insert_ne; [apply Hall; by right|].
  intros E. apply Hn. rewrite E. by apply list_elem_of_fmap_2.
Qed.

(** The module is used at the reviewed version, itself or as its own replacement. *)
Definition at_version (m : ModuleVersion) (r : DependencyRequirement) : Prop :=
  mv_ReplacementPath m = "" ∧ mv_Version m = rq_Version r ∨
  mv_ReplacementPath m ≠ "" ∧ mv_ReplacementPath m = rq_Module r ∧ mv_ReplacementVersion m = rq_Version r.

Lemma requirementDiagnostic_none index r :
  requirementDiagnostic index r = None ↔ ∃ m, index !! rq_Module r = Some m ∧ at_version m r.
Proof.
  unfold requirementDiagnostic, resolvedModuleVersion, at_version. cbv zeta.
  destruct (index !! rq_Module r) as [m|]; [|naive_solver].
  destruct (decide (mv_ReplacementPath m = "")) as [E|E].
  - rewrite (bool_decide_eq_false_2 (_ ∧ _)) by tauto. rewrite (bool_decide_eq_true_2 (mv_ReplacementPath m = "")) by done.
    case_bool_decide; naive_solver.
  - rewrite (bool_decide_eq_false_2 (mv_ReplacementPath m = "")) by done.
    case_bool_decide as Hr; [split; [done|]; naive_solver|].
    assert (mv_ReplacementPath m = rq_Module r ∧ mv_ReplacementVersion m = rq_Version r) as [H1 H2]
      by (split; apply dec_stable; tauto).
    rewrite bool_decide_eq_false_2 by tauto. naive_solver.
Qed.

Definition graph_ok (modules : list ModuleVersion) : Prop := Forall path_ok modules ∧ NoDup (mv_Path <$> modules).
Definition met (modules : list ModuleVersion) (r : DependencyRequirement) : Prop :=
  ∃ m, m ∈ modules ∧ mv_Path m = rq_Module r ∧ at_version m r.

Lemma omap_nil_iff {A B} (f : A → option B) l : omap f l = [] ↔ ∀ x, x ∈ l → f x = None.
Proof.
  induction l as [|x l IH]; [split; [by intros _ ? ?%elem_of_nil|done]|]. rewrite omap_cons_option, app_nil, IH.
  setoid_rewrite elem_of_cons. destruct (f x) eqn:E; simpl; [naive_solver|]. split; [naive_solver|]. intros Hall. split; [done|auto].
Qed.

Lemma validateModuleVersions_ok requirements modules :
  validateModuleVersions requirements modules = [] ↔
  requirements = [] ∨ graph_ok modules ∧ ∀ r, r ∈ requirements → met modules r.
Proof.
  unfold validateModuleVersions, moduleVersionIndex. case_bool_decide as Hr; [naive_solver|].
  destruct (indexModules modules ∅ []) as [index diagnostics] eqn:E.
  pose proof (indexModules_clean modules ∅) as Hclean. pose proof (indexModules_index modules ∅) as Hindex.
  rewrite E in Hclean, Hindex. simpl in Hclean, Hindex.
  rewrite sort_stable_nil, app_nil, omap_nil_iff. setoid_rewrite requirementDiagnostic_none. unfold graph_ok, met.
  split.
  - intros [Hd Hreq]. right. specialize (Hindex Hd). apply Hclean in Hd as (Hf & Hnd & _). split; [done|].
    intros r Hin. destruct (Hreq r Hin) as (m & Hm & Hv). rewrite Hindex in Hm.
    apply index_by_empty in Hm as [? ?]; [|done]. by exists m.
  - intros [?|[[Hf Hnd] Hreq]]; [done|].
    assert (diagnostics = []) as -> by (apply Hclean; split_and!; [done..|]; intros; apply lookup_empty).
    split; [done|]. intros r (m & Hm & Hp & Hv)%Hreq. exists m. split; [|done]. rewrite Hindex by done.
    by apply index_by_empty.
Qed.

Lemma elem_of_dependencies catalog active r : r ∈ dependencies catalog active ↔
  ∃ m d, m ∈ ct_manifests catalog ∧ is_active active (id_of m) = true ∧ d ∈ reviews m ∧
    r = mkRequirement (id_of m) (dp_Module d) (dp_Version d) (dp_License d).
Proof.
  unfold dependencies. rewrite elem_of_sort_stable, elem_of_concat. setoid_rewrite list_elem_of_fmap.
  setoid_rewrite list_elem_of_filter. split.
  - intros (rs & (m & -> & Ha & Hm) & Hr). apply list_elem_of_fmap in Hr as (d & -> & Hd). by exists m, d.
  - intros (m & d & Hm & Ha & Hd & ->). eexists. split; [by exists m|]. apply list_elem_of_fmap. by exists d.
Qed.

(** A module that a review of a manifest asks for *)
Definition reviewed (modules : list ModuleVersion) (d : Dependency) : Prop :=
  ∃ m, m ∈ modules ∧ mv_Path m = dp_Module d ∧
    (mv_ReplacementPath m = "" ∧ mv_Version m = dp_Version d ∨
     mv_ReplacementPath m ≠ "" ∧ mv_ReplacementPath m = dp_Module d ∧ mv_ReplacementVersion m = dp_Version d).

(** A starter that contributes something to the application *)
Definition in_use (occurrences : list Occurrence) (m : Manifest) : Prop := ∃ ep, activated occurrences m ep.

Lemma active_in_use occurrences catalog m : NoDup (id_of <$> ct_manifests catalog) →
  (∀ m, m ∈ ct_manifests catalog → NoDup (entry_keys m) ∧ features_declared m) → m ∈ ct_manifests catalog →
  is_active (Some (activeManifests catalog occurrences)) (id_of m) = true ↔ in_use occurrences m.
Proof.
  intros Hnd Hok Hm. unfold is_active, activeManifests, in_use. rewrite bool_decide_eq_true, elem_of_list_to_set, list_elem_of_fmap.
  setoid_rewrite list_elem_of_filter. destruct (Hok m Hm) as [Hkeys Hf].
  destruct (selected_exact occurrences m Hkeys Hf) as [_ Hsel]. setoid_rewrite <-Hsel. split.
  - intros (m' & E & Hne & Hm'). assert (m' = m) as -> by (by apply (id_unique (ct_manifests catalog))).
    destruct (selectedEntryPoints (mf_Spec m) _) as [|ep eps]; [done|]. exists ep. by left.
  - intros [ep Hep]. exists m. split; [done|]. split; [|done]. intros E. rewrite E in Hep. by apply elem_of_nil in Hep.
Qed.

(** ** The properties *)

(** C28. Manifests compose exactly when there is one, each is compatible, and no
    two claim an identity, an entry point, an annotation or a capability, no
    capability is a built-in one, and all reviews of a module agree; and the
    catalog does not depend on the order in which the manifests are given. *)
Theorem NewWithCompatibility_exact (api go : string) (ms : list Manifest) :
  ((∃ c, NewWithCompatibility api go ms = Ok c) ↔ ms ≠ [] ∧ composable api go ms) ∧
  ∀ c ms', NewWithCompatibility api go ms = Ok c → ms ≡ₚ ms' → NewWithCompatibility api go ms' = Ok c.
Proof.
  split; [split|].
  - intros [c Hc]. split; [|by apply (New_ok _ _ _ c)]. intros ->. discriminate Hc.
  - intros [Hne Hc]. by apply New_total.
  - intros c ms' Hc Hp. pose proof (New_ok _ _ _ _ Hc) as [(_ & Hnd & _) _]. rewrite <-Hc. unfold NewWithCompatibility.
    rewrite <-(sortManifests_perm_eq ms ms') by done.
    assert (ms = [] ↔ ms' = []) as Hnil by (split; intros ->; [by apply Permutation_nil_l in Hp|by apply Permutation_nil_r in Hp]).
    by rewrite (bool_decide_ext _ _ Hnil).
Qed.

(** The providers of a catalog are exactly the entry points of its manifests
    that the application activates: all declared ones of a starter with explicit
    constructors, and those of the features whose annotation an application marker
    carries; however often an annotation occurs, no constructor is given twice. *)
Theorem ProviderEntrypoints_exact (api go : string) (ms : list Manifest) (c : Catalog) (occurrences : list Occurrence) :
  NewWithCompatibility api go ms = Ok c → Forall features_declared ms →
  NoDup (constructor_of <$> ProviderEntrypoints c occurrences) ∧
  ∀ e, e ∈ ProviderEntrypoints c occurrences ↔
    ∃ m ep, m ∈ ms ∧ activated occurrences m ep ∧ e = entrypoint_of m ep.
Proof.
  intros Hc Hf. apply New_ok in Hc as [(_ & _ & Hkeys & _) Hms].
  apply ProviderEntrypoints_spec; [|done|done]. rewrite Hms. apply sortManifests_perm.
Qed.

(** C27. For a catalog composed of manifests whose features use only entry points they
    declare ([features_declared]), the check of the module versions is silent
    exactly when one of two things holds: no active starter has a reviewed
    dependency, and then the module graph is not looked at, however malformed; or
    the module graph has proper, distinct paths and the build uses each dependency
    of each active starter at the reviewed version, not replaced by another module
    or version. *)
Theorem ValidateActiveModuleVersions_exact (api go : string) (ms : list Manifest) (c : Catalog)
    (occurrences : list Occurrence) (modules : list ModuleVersion) :
  NewWithCompatibility api go ms = Ok c → Forall features_declared ms →
  ValidateActiveModuleVersions c occurrences modules = [] ↔
  (∀ m, m ∈ ms → in_use occurrences m → reviews m = []) ∨
  graph_ok modules ∧ ∀ m d, m ∈ ms → in_use occurrences m → d ∈ reviews m → reviewed modules d.
Proof.
  intros Hc Hf. rewrite Forall_forall in Hf. apply New_ok in Hc as [(_ & Hnd & Hkeys & _) Hms].
  pose proof (sortManifests_perm ms) as Hp. rewrite <-Hms in Hp. unfold ValidateActiveModuleVersions, ActiveDependencies.
  assert (∀ m, m ∈ ct_manifests c ↔ m ∈ ms) as Hin by (intros; by rewrite Hp).
  assert (∀ m, m ∈ ms → is_active (Some (activeManifests c occurrences)) (id_of m) = true ↔ in_use occurrences m) as Hact.
  { intros m Hm. apply active_in_use; [by rewrite Hp| |by apply Hin]. intros m' Hm'%Hin. split; [|by apply Hf].
    by eapply NoDup_concat_part; [|exact Hm']. }
  rewrite validateModuleVersions_ok. setoid_rewrite elem_of_dependencies. setoid_rewrite Hin.
  assert (dependencies c (Some (activeManifests c occurrences)) = [] ↔ ∀ m, m ∈ ms → in_use occurrences m → reviews m = []) as ->.
  { assert (∀ l : list DependencyRequirement, l = [] ↔ ∀ x, x ∉ l) as -> by (intros l; split; [intros ->; apply not_elem_of_nil|apply elem_of_nil_inv]).
    setoid_rewrite elem_of_dependencies. setoid_rewrite Hin. split.
    - intros Hno m Hm Hu. apply elem_of_nil_inv. intros d Hd. eapply Hno. exists m, d. split_and!; [done|by apply Hact|done|done].
    - intros Hall r (m & d & Hm & Ha & Hd & _). rewrite Hall in Hd; [by apply elem_of_nil in Hd|done|by apply Hact]. }
  apply or_iff_compat_l, and_iff_compat_l. split.
  - intros Hall m d Hm Hu Hd. apply (Hall (mkRequirement (id_of m) (dp_Module d) (dp_Version d) (dp_License d))).
    exists m, d. split_and!; [done|by apply Hact|done|done].
  - intros Hall r (m & d & Hm & Ha & Hd & ->). apply (Hall m d); [done|by apply Hact|done].
Qed.
End claims.

(** ** Two starters *)

Definition redis_spec : Spec := mkSpec "redis" "v1.2.0" "v1alpha1" "1.24"
  (mkActivation ActivationExplicitAnnotation [mkEntryPoint "example.com/redis" "NewClient"])
  [mkDependency "example.com/driver" "v2.0.1" "MIT"]
  [mkFeatureSpec "redis.Enable" "cache.redis" [mkEntryPoint "example.com/redis" "NewClient"] [] []].
Definition clock_spec : Spec := mkSpec "clock" "v0.1.0" "v1alpha1" "1.23.1"
  (mkActivation ActivationExplicitConstructor [mkEntryPoint "example.com/clock" "New"]) [] [].
Definition two_starters : list Manifest :=
  [mkManifest redis_spec [mkDefinition "redis.Enable" 2 false []]; mkManifest clock_spec []].

#[local] Instance trusting : ManifestValidation := {| manifest_New := Ok |}.

Definition starter_occurrence (name : string) (contributions : list Contribution) : Occurrence :=
  Build_Occurrence (mkAnnotation name [] (mkPosition "app.go" 0 1 1) name) true "type" "App" "app.App" "app" "app.go" 0
    (mkPosition "app.go" 0 1 1) contributions.
Definition starter_occurrences : list Occurrence :=
  [starter_occurrence "spice.Application" [OtherContribution "application"]; starter_occurrence "redis.Enable" [];
   starter_occurrence "redis.Enable" []].

Definition two_catalog : Catalog :=
  match @NewWithCompatibility ascii_tables trusting "v1alpha1" "go1.24.3" two_starters with
  | Ok c => c | Fail _ => mkCatalog [] [] [] ∅ [] end.

Lemma two_starters_compose : @NewWithCompatibility ascii_tables trusting "v1alpha1" "go1.24.3" two_starters = Ok two_catalog.
Proof. vm_compute. reflexivity. Qed.

Lemma two_starters_declared : Forall features_declared two_starters.
Proof.
  apply Forall_cons. split; [|apply Forall_singleton]; intros f ep; simpl; [|by intros ?%elem_of_nil].
  intros ->%list_elem_of_singleton ->%list_elem_of_singleton. by apply list_elem_of_singleton.
Qed.

Lemma NewWithCompatibility_exact_witness :
  @NewWithCompatibility ascii_tables trusting "v1alpha1" "go1.24.3" (reverse two_starters) = Ok two_catalog.
Proof.
  apply (proj2 (@NewWithCompatibility_exact ascii_tables trusting "v1alpha1" "go1.24.3" two_starters) two_catalog).
  - exact two_starters_compose.
  - symmetry. apply reverse_Permutation.
Defined.

Lemma ProviderEntrypoints_exact_witness :
  length (ProviderEntrypoints two_catalog starter_occurrences) = 2%nat ∧
  NoDup (constructor_of <$> ProviderEntrypoints two_catalog starter_occurrences).
Proof.
  split; [vm_compute; reflexivity|].
  exact (proj1 (@ProviderEntrypoints_exact ascii_tables trusting "v1alpha1" "go1.24.3" two_starters two_catalog
    starter_occurrences two_starters_compose two_starters_declared)).
Defined.

Definition replaced_build : list ModuleVersion := [mkModuleVersion "example.com/driver" "v2.0.1" false "../driver" ""].

Lemma ValidateActiveModuleVersions_exact_witness :
  @ValidateActiveModuleVersions ascii_tables two_catalog starter_occurrences replaced_build ≠ [] ∧
  ¬ ((∀ m, m ∈ two_starters → in_use starter_occurrences m → reviews m = []) ∨
     graph_ok replaced_build ∧
     ∀ m d, m ∈ two_starters → in_use starter_occurrences m → d ∈ reviews m → reviewed replaced_build d).
Proof.
  assert (@ValidateActiveModuleVersions ascii_tables two_catalog starter_occurrences replaced_build ≠ []) as Hne
    by (intros E; vm_compute in E; discriminate E).
  split; [exact Hne|]. intros Hok. apply Hne.
  exact (proj2 (@ValidateActiveModuleVersions_exact ascii_tables trusting "v1alpha1" "go1.24.3" two_starters two_catalog
    starter_occurrences replaced_build two_starters_compose two_starters_declared) Hok).
Defined.

Example go_versions : @parseGoVersion ascii_tables "go1.24" = Ok (1, 24, 0)%Z ∧
  @parseGoVersion ascii_tables "1.24rc1" = Fail (ErrNew ("go version " +:+ @go_quote ascii_tables "1.24rc1" +:+
    " contains invalid number " +:+ @go_quote ascii_tables "24rc1")).
Proof. split; vm_compute; reflexivity. Qed.
