(* ===== verification/GoWalk.v ===== *)
(** [filepath.WalkDir] with a function that collects files and may leave out
    directories, on a tree as the walk finds it; and what such a walk collects. *)
From S2P Require Import Prelude GoSort GoStrings GoRoot GoPath GoUrl Diag LspText LspServer LspPaths.

(** What the walk finds at a path: no directory, or a directory with its entries
    in order, or the error of reading them. *)
Inductive node : Type :=
  | Leaf
  | Directory (unreadable : option error) (entries : list (string * node)).

(** The walk from an entry on: [enter] says whether the function goes into a
    directory (or answers [fs.SkipDir]), [keep] whether it collects a file, with
    the path and the name of the entry. *)
Section collect.
Context (keep enter : string → string → bool).

Fixpoint collect (path name : string) (entry : node) (files : gset string) : outcome error (gset string) :=
  match entry with
  | Leaf => Ok (if keep path name then {[path_clean path]} ∪ files else files)
  | Directory unreadable entries =>
      if negb (enter path name) then Ok files
      else
        match unreadable with
        | Some walkErr => Fail walkErr
        | None =>
            foldl (λ result e, files ← result; collect (path_join [path; e.1]) e.1 e.2 files) (Ok files) entries
        end
  end.
End collect.

(** ** Paths *)

Lemma path_join_rooted cs c : Forall good_name (cs ++ [c]) → path_join [rooted cs; c] = rooted (cs ++ [c]).
Proof.
  intros Hf. pose proof Hf as [_ Hc]%Forall_app. inversion_clear Hc as [|?? (Hne & _ & _ & Hs) _]. unfold path_join.
  rewrite !filter_cons_True, filter_nil by done. cbn [join].
  destruct (decide (cs = [])) as [->|Hcs].
  - change (rooted [] +:+ "/" +:+ c) with ("/" +:+ ("/" +:+ c)). unfold path_clean.
    rewrite !(has_prefix_app "/" _ : path_is_abs ("/" +:+ _) = true), !split_slash, split_no_sep by done.
    rewrite (foldl_clean_good true [c] [] ltac:(by apply Forall_app in Hf as [_ ?])
      : foldl (clean_step true) [] ["" ; "" ; c] = _). done.
  - rewrite <- (path_clean_rooted (cs ++ [c])) by done. by rewrite rooted_snoc, decide_False, str_app_assoc.
Qed.

(** ** What a walk comes to *)

(** From an entry on, when the directories of [skip] are left out. *)
Inductive visits (skip : list string → bool) (cs : list string) : node → list string → node → Prop :=
  | visits_here entry : visits skip cs entry cs entry
  | visits_entry entries name entry cs' entry' :
      skip cs = false → (name, entry) ∈ entries → visits skip (cs ++ [name]) entry cs' entry' →
      visits skip cs (Directory None entries) cs' entry'.

(** A tree whose names are names of files. *)
Fixpoint good_tree (entry : node) : bool :=
  match entry with
  | Leaf => true
  | Directory _ entries => forallb (λ e, bool_decide (good_name e.1) && good_tree e.2) entries
  end.

Lemma visits_good skip cs entry cs' entry' :
  visits skip cs entry cs' entry' → good_tree entry = true → Forall good_name cs → Forall good_name cs'.
Proof.
  induction 1 as [|cs entries name entry cs' entry' _ Hin _ IH]; [done|]. intros Ht Hc.
  cbn [good_tree] in Ht. rewrite forallb_forall in Ht. apply list_elem_of_In, Ht, andb_true_iff in Hin as [Hn He].
  bool_prop. apply IH; [done|]. apply Forall_app. by split; [|constructor].
Qed.

Fixpoint node_rect_nested (P : node → Prop) (leaf : P Leaf)
    (directory : ∀ u es, Forall (λ e, P e.2) es → P (Directory u es)) (n : node) : P n :=
  match n with
  | Leaf => leaf
  | Directory u es => directory u es
      ((fix each es := match es return Forall (λ e, P e.2) es with
        | [] => List.Forall_nil _
        | e :: es' => List.Forall_cons _ _ _ (node_rect_nested P leaf directory e.2) (each es')
        end) es)
  end.

Section walk.
Context (keep enter : string → string → bool) (rs : list string) (name : string).
Hypothesis root_names : Forall good_name rs.

(** The name that the walk gives an entry; that of the root is its own. *)
Definition entry_name (cs : list string) : string := default name (last cs).
Definition skipped (cs : list string) : bool := negb (enter (rooted (rs ++ cs)) (entry_name cs)).
Definition kept (cs : list string) : bool := keep (rooted (rs ++ cs)) (entry_name cs).
Notation visits := (visits skipped).

(** What a walk from [cs] answers. *)
Definition walked (cs : list string) (entry : node) (files : gset string) (result : outcome error (gset string)) : Prop :=
  match result with
  | Fail err => ∃ cs' es, visits cs entry cs' (Directory (Some err) es) ∧ skipped cs' = false
  | Ok files' =>
      (∀ cs' err es, visits cs entry cs' (Directory (Some err) es) → skipped cs' = true) ∧
      ∀ f, f ∈ files' ↔ f ∈ files ∨ ∃ cs', visits cs entry cs' Leaf ∧ f = rooted (rs ++ cs') ∧ kept cs' = true
  end.

Lemma walked_skipped cs u es files : skipped cs = true → walked cs (Directory u es) files (Ok files).
Proof.
  intros Hs. split; [|intros f; split; [by left|]].
  - intros cs' err es' Hv. inversion Hv; subst; [done|congruence].
  - intros [?|(cs' & Hv & _)]; [done|]. inversion Hv; congruence.
Qed.

(** The loop over the entries of a directory. *)
Lemma walked_entries cs es files :
  skipped cs = false →
  Forall (λ e, ∀ files, walked (cs ++ [e.1]) e.2 files (collect keep enter (path_join [rooted (rs ++ cs); e.1]) e.1 e.2 files)) es →
  walked cs (Directory None es) files
    (foldl (λ result e, files ← result; collect keep enter (path_join [rooted (rs ++ cs); e.1]) e.1 e.2 files) (Ok files) es).
Proof.
  intros Hs. induction es as [|e es IH] using rev_ind; intros Hf.
  { split; [|intros f; split; [by left|intros [?|(cs' & Hv & _)]; [done|]]]; [intros cs' err es' Hv|];
      inversion Hv as [|? n e ? ? _ Hin]; by apply elem_of_nil in Hin. }
  apply Forall_app in Hf as [Hes [He _]%Forall_cons]. specialize (IH Hes). rewrite foldl_snoc.
  destruct (foldl _ _ es) as [files1|err]; simpl.
  2: { destruct IH as (cs' & es' & Hv & Hsk). exists cs', es'. split; [|done]. inversion Hv; subst.
       eapply visits_entry; [done|apply elem_of_app; by left|done]. }
  destruct IH as [IH1 IH2]. specialize (He files1).
  destruct (collect _ _ _ _ _ files1) as [files2|err]; simpl in *.
  - destruct He as [He1 He2]. split.
    + intros cs' err es' Hv. inversion Hv as [|? n x ? ? _ Hin Hv']; subst. apply elem_of_app in Hin as [Hin|Hin].
      * eapply (IH1 cs' err es'), visits_entry; done.
      * apply list_elem_of_singleton in Hin. destruct e. simplify_eq/=. by apply (He1 cs' err es').
    + intros f. rewrite He2, IH2. split.
      * intros [[?|(cs' & Hv & Hf)]|(cs' & Hv & Hf)]; [by left|right..]; exists cs'; split; try done.
        -- inversion Hv; subst. eapply visits_entry; [done|apply elem_of_app; by left|done].
        -- destruct e. eapply visits_entry; [done|apply elem_of_app; right; by left|done].
      * intros [?|(cs' & Hv & Hf)]; [by do 2 left|]. inversion Hv as [|? n x ? ? _ Hin Hv']; subst.
        apply elem_of_app in Hin as [Hin|Hin]; [left; right|right]; exists cs'; (split; [|done]).
        -- by eapply visits_entry.
        -- apply list_elem_of_singleton in Hin. destruct e. by simplify_eq/=.
  - destruct He as (cs' & es' & Hv & Hsk). exists cs', es'. split; [|done]. destruct e.
    eapply visits_entry; [done|apply elem_of_app; right; by left|done].
Qed.

Lemma collect_walked cs entry files :
  good_tree entry = true → Forall good_name cs →
  walked cs entry files (collect keep enter (rooted (rs ++ cs)) (entry_name cs) entry files).
Proof.
  revert cs files. induction entry as [|u es IH] using node_rect_nested; intros cs files Hg Hc; cbn [collect].
  - fold (kept cs). rewrite path_clean_rooted by by apply Forall_app. split; [intros cs' err es Hv; inversion Hv|]. intros f.
    destruct (kept cs) eqn:Hk; [rewrite elem_of_union, elem_of_singleton|]; split.
    + intros [->|?]; [right; exists cs; split; [constructor|done]|by left].
    + intros [?|(cs' & Hv & -> & _)]; [by right|left]. by inversion Hv.
    + by left.
    + intros [?|(cs' & Hv & -> & Hs)]; [done|]. inversion Hv; subst. congruence.
  - fold (skipped cs). destruct (skipped cs) eqn:Hs; [by apply walked_skipped|].
    destruct u as [err|]; [by exists cs, es; split; [constructor|]|]. apply walked_entries; [done|].
    rewrite Forall_forall in *. intros [n e] Hin files'. cbn [good_tree] in Hg. rewrite forallb_forall in Hg.
    pose proof Hin as Hn%list_elem_of_In%Hg. apply andb_true_iff in Hn as [Hn He]. bool_prop. simpl in *.
    assert (Forall good_name (cs ++ [n])) as Hcn by (apply Forall_app; by split; [|constructor]).
    specialize (IH _ Hin (cs ++ [n]) files' He Hcn). simpl in IH. unfold entry_name in IH at 1. rewrite last_snoc in IH.
    simpl in IH. rewrite path_join_rooted by (rewrite <- app_assoc; by apply Forall_app). by rewrite <- app_assoc.
Qed.
End walk.
