(* ===== verification/AnnotationImports.v ===== *)
(** The annotation imports of a source file (src/compiler/annotationimport):
    the table of the names that its directives bind, and the discovery of the
    directives in the sources of a workspace.

    What discovery asks of the operating system is a tree of directories, the
    kinds of the paths that are asked for and the contents that are read; the
    comments of a source are those that go/scanner finds. *)
From S2P Require Import Prelude GoSort GoStrings GoRoot GoPath GoUrl Diag LspText LspServer LspPaths GoWalk Provider Annotation Parser ParserGrammar ImportParser ImportGrammar.

(** ** The table of a file (resolve.go) *)

Record Diagnostic := mkDiagnostic { dg_Position : Position; dg_Message : string }.

(** [Diagnostic.Error]: the text of a diagnostic, with a position for one that has none. *)
Definition Diagnostic_Error (diagnostic : Diagnostic) : string :=
  let position := dg_Position diagnostic in
  let file := if decide (Filename position = "") then "<unknown>" else Filename position in
  let line := if (Line position <=? 0)%Z then 1%Z else Line position in
  let column := if (Column position <=? 0)%Z then 1%Z else Column position in
  file +:+ ":" +:+ itoa line +:+ ":" +:+ itoa column +:+ ": " +:+ dg_Message diagnostic.

Record DefinitionReference := mkReference { ref_Package : string; ref_Symbol : string }.
#[export] Instance DefinitionReference_eq_dec : EqDecision DefinitionReference.
Proof. solve_decision. Defined.
#[export] Instance DefinitionReference_countable : Countable DefinitionReference.
Proof.
  refine (inj_countable' (λ r, (ref_Package r, ref_Symbol r)) (λ p, mkReference p.1 p.2) _). by intros [].
Defined.

Record Binding := mkImported {
  bd_Local : string;
  bd_Namespace : bool;
  bd_Reference : DefinitionReference;
  bd_Position : Position;
}.

Record Table := mkTable { named : gmap string Binding; namespaces : gmap string Binding }.

Definition local (table : Table) (name : string) : option Binding :=
  match named table !! name with
  | Some binding => Some binding
  | None => namespaces table !! name
  end.

Section quoted.
Context `{UnicodeTables}.

Definition collisionDiagnostic (position : Position) (local : string) (prior : Binding) : Diagnostic :=
  mkDiagnostic position ("annotation import name " +:+ go_quote local +:+ " conflicts with the binding at "
    +:+ Filename (bd_Position prior) +:+ ":" +:+ itoa (Line (bd_Position prior))).

Definition unsupportedDiagnostic (directive : ImportDirective) : Diagnostic :=
  mkDiagnostic (im_Position directive)
    ("annotation import has unsupported binding kind " +:+ go_quote (im_Kind directive)).

(** The loop over the bindings of a named import. *)
Fixpoint namedBindings (directive : ImportDirective) (items : list ImportBinding)
    (table : Table) (diagnostics : list Diagnostic) : Table * list Diagnostic :=
  match items with
  | [] => (table, diagnostics)
  | item :: items' =>
      let binding := mkImported (ib_Local item) false
        (mkReference (im_Package directive) (ib_Imported item)) (im_Position directive) in
      match local table (ib_Local item) with
      | Some prior =>
          namedBindings directive items' table
            (diagnostics ++ [collisionDiagnostic (im_Position directive) (ib_Local item) prior])
      | None =>
          namedBindings directive items'
            (mkTable (<[ib_Local item := binding]> (named table)) (namespaces table)) diagnostics
      end
  end.

(** The body of the loop over the directives. *)
Definition resolveDirective (directive : ImportDirective) (table : Table) (diagnostics : list Diagnostic)
    : Table * list Diagnostic :=
  if decide (im_Kind directive = ImportNamed) then
    namedBindings directive (im_Bindings directive) table diagnostics
  else if decide (im_Kind directive = ImportNamespace) then
    let binding := mkImported (im_Namespace directive) true
      (mkReference (im_Package directive) "") (im_Position directive) in
    match local table (im_Namespace directive) with
    | Some prior =>
        (table, diagnostics ++ [collisionDiagnostic (im_Position directive) (im_Namespace directive) prior])
    | None => (mkTable (named table) (<[im_Namespace directive := binding]> (namespaces table)), diagnostics)
    end
  else (table, diagnostics ++ [unsupportedDiagnostic directive]).

Fixpoint directivesLoop (directives : list ImportDirective) (table : Table) (diagnostics : list Diagnostic)
    : Table * list Diagnostic :=
  match directives with
  | [] => (table, diagnostics)
  | directive :: directives' =>
      let '(table', diagnostics') := resolveDirective directive table diagnostics in
      directivesLoop directives' table' diagnostics'
  end.

Definition diagnosticLess : Diagnostic → Diagnostic → bool :=
  by_key (Filename ∘ dg_Position) str_ltb (by_key (Offset ∘ dg_Position) Z.ltb (on_key dg_Message str_ltb)).

Definition Resolve (directives : list ImportDirective) : Table * list Diagnostic :=
  let '(table, diagnostics) := directivesLoop directives (mkTable ∅ ∅) [] in
  (table, sort_stable diagnosticLess diagnostics).
End quoted.

(** [Table.Lookup]; the reference of a name that is not bound is not used. *)
Definition Table_Lookup (table : Table) (name : string) : option DefinitionReference :=
  let '(qualifier, symbol, qualified) := cut name "." in
  if negb qualified then bd_Reference <$> named table !! name
  else if bool_decide (qualifier = "") || bool_decide (symbol = "") || contains symbol "." then None
  else (λ binding, mkReference (ref_Package (bd_Reference binding)) symbol) <$> namespaces table !! qualifier.

Definition bindingLess : Binding → Binding → bool := on_key bd_Local str_ltb.

(** [Table.Bindings], for any order in which the maps are ranged over. *)
Definition bindingsIn (namedOrder namespaceOrder : list (string * Binding)) : list Binding :=
  sort_slice bindingLess (namedOrder.*2 ++ namespaceOrder.*2).
Definition Bindings (table : Table) : list Binding :=
  bindingsIn (map_to_list (named table)) (map_to_list (namespaces table)).

(** ** Discovery (discover.go) *)

(** The comments that go/scanner finds in the text of a file, each with its
    position (which a [//line] comment can change). *)
Class GoScanner := go_comments : string → string → list (Position * string).

Definition excludedDirectory (name : string) : bool :=
  bool_decide (name ∈ [".git"; ".spice"; "testdata"; "vendor"]) || has_prefix name ".".

Definition discoverySource `{CaseFold} (path : string) : bool :=
  let base := path_base path in
  equal_fold (path_ext base) ".go" && negb (has_suffix base "_test.go")
  && negb (has_suffix base "_spice_gen.go")
  && (negb (has_prefix base "spice_") || negb (has_suffix base "_gen.go")).

Definition withinRoot (root path : string) : bool :=
  match filepath_rel root path with
  | Some relative => bool_decide (relative = ".") || is_local relative
  | None => false
  end.

(** [os.Stat]: whether there is something at the path, and a directory. *)
Section stat.
Context (stat : string → option bool).

Definition nestedModuleDirectory (directory : string) : bool :=
  match stat (path_join [directory; "go.mod"]) with
  | Some isDir => negb isDir
  | None => false
  end.

(** The loop of [insideNestedModule]: the parents of a directory up to the root. *)
Fixpoint nestedLoop (fuel : nat) (root directory : string) : option bool :=
  match fuel with
  | O => None
  | S fuel' =>
      if decide (directory = root) then Some false
      else if nestedModuleDirectory directory then Some true
      else
        let parent := path_dir directory in
        if bool_decide (parent = directory) || negb (withinRoot root parent) then Some false
        else nestedLoop fuel' root parent
  end.

Definition insideNestedModule (root file : string) : option bool :=
  nestedLoop (S (S (String.length file))) root (path_dir file).
End stat.

(** The calls of one discovery: what they find and how they fail. *)
Record workspace := {
  ws_abs : string → outcome error string;
  ws_walk : string → outcome error node;
  ws_stat : string → option bool;
  ws_open : string → outcome error ();
  ws_read : string → outcome error string;
  ws_close : option error;
}.

Record found := mkFound { fd_Directive : ImportDirective; fd_PhysicalPosition : Position }.

Record Discovery := {
  Directives : list found;
  Packages : list string;
  References : list DefinitionReference;
}.

(** [sortedKeys] and [sortedReferences], of the elements of a map. *)
Definition sortedKeys (values : gset string) : list string := sort_strings (elements values).

Definition referenceLess : DefinitionReference → DefinitionReference → bool :=
  by_key ref_Package str_ltb (on_key ref_Symbol str_ltb).
Definition sortedReferences (values : gset DefinitionReference) : list DefinitionReference :=
  sort_slice referenceLess (elements values).

Section discovery.
Context `{UnicodeTables} `{CaseFold} `{GoScanner} (ws : workspace).

(** [filepath.WalkDir] with the function of [discoveryFiles] *)
Definition entersDirectory (root path name : string) : bool :=
  if negb (bool_decide (path = root)) && excludedDirectory name then false
  else if negb (bool_decide (path = root)) && nestedModuleDirectory (ws_stat ws) path then false
  else true.
Definition discoveredFile (path name : string) : bool := discoverySource (path_clean path).
Definition walkDiscovery (root : string) (tree : node) : outcome error (gset string) :=
  collect discoveredFile (entersDirectory root) root (path_base root) tree ∅.

(** The loop over the overlay; [None] is a search for a nested module that does
    not end, which there is none of ([overlayFile_below]). *)
Definition overlayFile (root path : string) : option bool :=
  if discoverySource path && withinRoot root path then negb <$> insideNestedModule (ws_stat ws) root path
  else Some false.

Definition overlayFiles (root : string) (overlay : gmap string string) : gset string :=
  list_to_set (filter (λ path, overlayFile root path = Some true) (map_to_list overlay).*1).

Definition discoveryFiles (root : string) (overlay : gmap string string) : outcome error (list string) :=
  match (tree ← ws_walk ws root; walkDiscovery root tree) with
  | Fail err => Fail (ErrWrap "discover annotation import sources" err)
  | Ok files => Ok (sortedKeys (overlayFiles root overlay ∪ files))
  end.

(** The directive of a comment, when [importsInSource] keeps it. *)
Definition commentDirective (comment : Position * string) : option found :=
  let '(position, literal) := comment in
  if negb (has_prefix (trim_space literal) "//") then None
  else match ParseImportComment literal position with
       | Some (Ok (Some directive)) => Some (mkFound directive position)
       | _ => None
       end.

Definition importsInSource (file content : string) : list found :=
  omap commentDirective (go_comments file content).

(** The content of a file: that of the overlay, or else that on disk. *)
Definition sourceContent (absoluteRoot : string) (overlay : gmap string string) (file : string)
    : outcome error string :=
  match overlay !! file with
  | Some content => Ok content
  | None =>
      match filepath_rel absoluteRoot file with
      | None =>
          Fail (ErrWrap ("resolve annotation import source " +:+ go_quote file)
            (ErrNew ("Rel: can't make " +:+ file +:+ " relative to " +:+ absoluteRoot)))
      | Some relative =>
          match ws_read ws relative with
          | Fail err => Fail (ErrWrap ("read annotation import source " +:+ go_quote file) err)
          | Ok content => Ok content
          end
      end
  end.

Fixpoint readImportDirectives (absoluteRoot : string) (files : list string) (overlay : gmap string string)
    (directives : list found) : outcome error (list found) :=
  match files with
  | [] => Ok directives
  | file :: files' =>
      content ← sourceContent absoluteRoot overlay file;
      readImportDirectives absoluteRoot files' overlay (directives ++ importsInSource file content)
  end.

Definition directivePosition (directive : found) : Position := im_Position (fd_Directive directive).
Definition directiveLess : found → found → bool :=
  by_key (Filename ∘ directivePosition) str_ltb (on_key (Offset ∘ directivePosition) Z.ltb).

Definition packagesOf (directives : list found) : gset string :=
  list_to_set (im_Package ∘ fd_Directive <$> directives).
Definition referencesOf (directives : list found) : gset DefinitionReference :=
  list_to_set (directives ≫= λ d,
    (λ b, mkReference (im_Package (fd_Directive d)) (ib_Imported b)) <$> im_Bindings (fd_Directive d)).

(** [cleanOverlay], for the order in which the map is ranged over: of two paths
    with the same clean form the later one counts. *)
Definition cleanOverlay (values : list (string * string)) : gmap string string :=
  foldl (λ result v, <[path_clean v.1 := v.2]> result) ∅ values.

Definition Discover (root : string) (values : list (string * string)) : outcome error Discovery :=
  match ws_abs ws root with
  | Fail err => Fail (ErrWrap "resolve annotation import discovery root" err)
  | Ok absoluteRoot =>
      let overlay := cleanOverlay values in
      files ← discoveryFiles absoluteRoot overlay;
      match ws_open ws absoluteRoot with
      | Fail err => Fail (ErrWrap "open annotation import discovery root" err)
      | Ok _ =>
          match readImportDirectives absoluteRoot files overlay [], ws_close ws with
          | Fail readErr, Some closeErr => Fail (ErrJoin readErr closeErr)
          | Fail readErr, None => Fail readErr
          | Ok _, Some closeErr => Fail closeErr
          | Ok directives, None =>
              let directives := sort_slice directiveLess directives in
              Ok {| Directives := directives;
                    Packages := sortedKeys (packagesOf directives);
                    References := sortedReferences (referencesOf directives) |}
          end
      end
  end.

Definition NamespacePackages (discovery : Discovery) : list string :=
  sortedKeys (list_to_set (im_Package ∘ fd_Directive <$>
    filter (λ d, im_Kind (fd_Directive d) = ImportNamespace) (Directives discovery))).
End discovery.

(** ** Tables *)

(** The names that a directive binds, in order. *)
Definition imports (directive : ImportDirective) : list Binding :=
  if decide (im_Kind directive = ImportNamed) then
    (λ item, mkImported (ib_Local item) false
      (mkReference (im_Package directive) (ib_Imported item)) (im_Position directive)) <$> im_Bindings directive
  else if decide (im_Kind directive = ImportNamespace) then
    [mkImported (im_Namespace directive) true (mkReference (im_Package directive) "") (im_Position directive)]
  else [].

Definition supported (directive : ImportDirective) : Prop :=
  im_Kind directive = ImportNamed ∨ im_Kind directive = ImportNamespace.
#[export] Instance supported_dec directive : Decision (supported directive) := ltac:(unfold supported; apply _).

(** The first binding of a name. *)
Definition first (bindings : list Binding) (name : string) : option Binding :=
  head (filter (λ b, bd_Local b = name) bindings).

Lemma first_snoc bs b name :
  first (bs ++ [b]) name =
    match first bs name with Some prior => Some prior | None => if decide (bd_Local b = name) then Some b else None end.
Proof.
  unfold first. rewrite filter_app. destruct (filter _ bs); [|done]. simpl. rewrite filter_cons. by case_decide.
Qed.

Lemma first_local bs name b : first bs name = Some b → bd_Local b = name ∧ b ∈ bs.
Proof.
  unfold first. destruct (filter _ bs) as [|x l] eqn:E; [done|]. intros [= ->].
  assert (b ∈ filter (λ b, bd_Local b = name) bs) as Hb by (rewrite E; by left). by apply list_elem_of_filter in Hb.
Qed.

Lemma first_none bs name : first bs name = None ↔ name ∉ bd_Local <$> bs.
Proof.
  unfold first. split.
  - intros Hh (b & -> & Hb)%list_elem_of_fmap. assert (b ∈ filter (λ x, bd_Local x = bd_Local b) bs) as Hf by by apply list_elem_of_filter.
    destruct (filter _ bs); [by apply elem_of_nil in Hf|done].
  - intros Hn. destruct (filter _ bs) as [|x l] eqn:E; [done|]. destruct Hn.
    assert (x ∈ filter (λ b, bd_Local b = name) bs) as [Hl Hx]%list_elem_of_filter by (rewrite E; by left).
    rewrite <- Hl. by apply list_elem_of_fmap_2.
Qed.

(** A table represents bindings when each name stands for its first one. *)
Definition represents (bindings : list Binding) (table : Table) : Prop :=
  ∀ name,
    named table !! name = (b ← first bindings name; if bd_Namespace b then None else Some b) ∧
    namespaces table !! name = (b ← first bindings name; if bd_Namespace b then Some b else None).

Lemma represents_local bs table name : represents bs table → local table name = first bs name.
Proof.
  intros Hr. unfold local. destruct (Hr name) as [-> ->]. destruct (first bs name) as [b|]; [|done]. simpl.
  by destruct (bd_Namespace b).
Qed.

(** A name that is bound already stands for what it did; another one is added. *)
Lemma represents_collision bs table b :
  represents bs table → first bs (bd_Local b) ≠ None → represents (bs ++ [b]) table.
Proof.
  intros Hr Hb name. rewrite first_snoc. destruct (Hr name) as [Hn Hs].
  destruct (first bs name) eqn:E; [done|]. case_decide as Hl; [|done]. by rewrite Hl in Hb.
Qed.

Lemma represents_insert bs table b :
  represents bs table → first bs (bd_Local b) = None →
  represents (bs ++ [b])
    (if bd_Namespace b then mkTable (named table) (<[bd_Local b := b]> (namespaces table))
     else mkTable (<[bd_Local b := b]> (named table)) (namespaces table)).
Proof.
  intros Hr Hb name. rewrite first_snoc. destruct (Hr name) as [Hn Hs].
  destruct (decide (bd_Local b = name)) as [Hl|Hl].
  - rewrite <- Hl in *. rewrite Hb in *. simpl in *. destruct (bd_Namespace b); simpl; by rewrite ?lookup_insert_eq.
  - assert (∀ o : option Binding, match o with Some prior => Some prior | None => None end = o) as -> by by intros [].
    destruct (bd_Namespace b); simpl; by rewrite ?lookup_insert_ne.
Qed.

Section tables.
Context `{UnicodeTables}.

(** The diagnostics of bindings that follow others. *)
Fixpoint collisions (prior bindings : list Binding) : list Diagnostic :=
  match bindings with
  | [] => []
  | b :: bindings' =>
      option_list (collisionDiagnostic (bd_Position b) (bd_Local b) <$> first prior (bd_Local b))
      ++ collisions (prior ++ [b]) bindings'
  end.

Lemma collisions_app prior bs cs : collisions prior (bs ++ cs) = collisions prior bs ++ collisions (prior ++ bs) cs.
Proof.
  revert prior. induction bs as [|b bs IH]; intros prior; simpl; [by rewrite app_nil_r|].
  by rewrite IH, <- !app_assoc.
Qed.

Lemma collisions_nil prior bs :
  NoDup (bd_Local <$> prior) → collisions prior bs = [] ↔ NoDup (bd_Local <$> prior ++ bs).
Proof.
  revert prior. induction bs as [|b bs IH]; intros prior Hp; simpl; [by rewrite app_nil_r|].
  destruct (first prior (bd_Local b)) as [p|] eqn:E; simpl.
  - split; [done|]. rewrite fmap_app, fmap_cons. intros (_ & Hd & _)%NoDup_app. apply first_local in E as [E1 E2].
    destruct (Hd (bd_Local b)); [|by left]. rewrite <- E1. by apply list_elem_of_fmap_2.
  - rewrite IH; [by rewrite <- app_assoc|]. apply first_none in E. rewrite fmap_app. simpl.
    apply NoDup_app. split_and!; [done| |apply NoDup_singleton]. by intros x Hx ->%list_elem_of_singleton.
Qed.

Lemma namedBindings_represents directive items prior table ds :
  let bs := (λ item, mkImported (ib_Local item) false
    (mkReference (im_Package directive) (ib_Imported item)) (im_Position directive)) <$> items in
  represents prior table →
  represents (prior ++ bs) (namedBindings directive items table ds).1 ∧
  (namedBindings directive items table ds).2 = ds ++ collisions prior bs.
Proof.
  revert prior table ds. induction items as [|item items IH]; intros prior table ds; simpl; [by rewrite !app_nil_r|].
  intros Hr. set (b := mkImported (ib_Local item) _ _ _). rewrite (represents_local _ _ _ Hr), cons_snoc_app.
  destruct (first prior (ib_Local item)) as [p|] eqn:E; simpl.
  - destruct (IH (prior ++ [b]) table (ds ++ [collisionDiagnostic (im_Position directive) (ib_Local item) p])) as [H1 H2].
    { apply represents_collision; [done|]. simpl. by rewrite E. }
    split; [done|]. by rewrite H2, <- app_assoc.
  - destruct (IH (prior ++ [b]) (mkTable (<[ib_Local item := b]> (named table)) (namespaces table)) ds) as [H1 H2].
    { exact (represents_insert _ _ b Hr E). }
    by split.
Qed.

(** The diagnostics of a directive of another kind. *)
Definition unsupported (directives : list ImportDirective) : list Diagnostic :=
  unsupportedDiagnostic <$> filter (λ d, ¬ supported d) directives.

Lemma resolveDirective_represents directive prior table ds :
  represents prior table →
  represents (prior ++ imports directive) (resolveDirective directive table ds).1 ∧
  (resolveDirective directive table ds).2 = ds ++ collisions prior (imports directive) ++ unsupported [directive].
Proof.
  intros Hr. unfold resolveDirective, imports, unsupported, supported. rewrite filter_cons, filter_nil.
  destruct (decide (im_Kind directive = ImportNamed)) as [Hk|Hk].
  - rewrite (decide_False (P := ¬ _)) by naive_solver. simpl. rewrite app_nil_r. by apply namedBindings_represents.
  - destruct (decide (im_Kind directive = ImportNamespace)) as [Hs|Hs].
    + rewrite (decide_False (P := ¬ _)) by naive_solver. simpl. rewrite app_nil_r, (represents_local _ _ _ Hr).
      set (b := mkImported (im_Namespace directive) _ _ _).
      destruct (first prior (im_Namespace directive)) as [p|] eqn:E; simpl; rewrite ?app_nil_r.
      * split; [|done]. apply represents_collision; [done|]. simpl. by rewrite E.
      * split; [|done]. exact (represents_insert _ _ b Hr E).
    + rewrite (decide_True (P := ¬ _)) by naive_solver. simpl. by rewrite app_nil_r.
Qed.

Lemma directivesLoop_represents directives prior table ds :
  represents prior table →
  represents (prior ++ (directives ≫= imports)) (directivesLoop directives table ds).1 ∧
  (directivesLoop directives table ds).2 ≡ₚ ds ++ collisions prior (directives ≫= imports) ++ unsupported directives.
Proof.
  revert prior table ds. induction directives as [|d directives IH]; intros prior table ds Hr; simpl; [by rewrite !app_nil_r|].
  destruct (resolveDirective_represents d prior table ds Hr) as [H1 H2].
  destruct (resolveDirective d table ds) as [table' ds']. simpl in *. destruct (IH _ _ ds' H1) as [H3 H4].
  rewrite <- app_assoc in H3. split; [done|]. rewrite H4, H2, collisions_app.
  assert (unsupported (d :: directives) = unsupported [d] ++ unsupported directives) as ->.
  { unfold unsupported. by rewrite <- fmap_app, <- filter_app. }
  solve_Permutation.
Qed.

(** The elements of the two maps of a table. *)
Lemma table_elements bs table b :
  represents bs table →
  b ∈ (map_to_list (named table)).*2 ++ (map_to_list (namespaces table)).*2 ↔ first bs (bd_Local b) = Some b.
Proof.
  intros Hr. rewrite elem_of_app, !list_elem_of_fmap. split.
  - intros [([name x] & -> & Hx%elem_of_map_to_list)|([name x] & -> & Hx%elem_of_map_to_list)]; simpl;
      destruct (Hr name) as [Hn Hs]; rewrite ?Hn, ?Hs in Hx; destruct (first bs name) as [y|] eqn:E; try done;
      simpl in Hx; destruct (bd_Namespace y); try done; injection Hx as ->;
      pose proof (first_local _ _ _ E) as [-> _]; done.
  - intros Hf. destruct (Hr (bd_Local b)) as [Hn Hs]. rewrite Hf in *. simpl in *.
    destruct (bd_Namespace b); [right|left]; exists (bd_Local b, b); split; try done; by apply elem_of_map_to_list.
Qed.

Lemma map_locals (m : gmap string Binding) :
  (∀ name b, m !! name = Some b → bd_Local b = name) → bd_Local <$> (map_to_list m).*2 = (map_to_list m).*1.
Proof.
  intros Hm. rewrite <- list_fmap_compose. apply list_fmap_ext. intros i [name b] Hi. simpl. apply Hm.
  by apply elem_of_map_to_list, list_elem_of_lookup_2 in Hi || apply elem_of_map_to_list, (list_elem_of_lookup_2 _ i).
Qed.

Lemma table_distinct bs table :
  represents bs table → NoDup (bd_Local <$> (map_to_list (named table)).*2 ++ (map_to_list (namespaces table)).*2).
Proof.
  intros Hr. rewrite fmap_app, !map_locals.
  2, 3: intros name b Hb; destruct (Hr name) as [Hn Hs]; rewrite ?Hn, ?Hs in Hb; destruct (first bs name) as [y|] eqn:E;
    try done; simpl in Hb; destruct (bd_Namespace y); try done; injection Hb as ->; by apply first_local in E as [? _].
  apply NoDup_app. split_and!; [apply NoDup_fst_map_to_list| |apply NoDup_fst_map_to_list].
  intros name ([n1 x] & -> & Hx%elem_of_map_to_list)%list_elem_of_fmap ([n2 y] & Heq & Hy%elem_of_map_to_list)%list_elem_of_fmap.
  simpl in *. subst n2. destruct (Hr n1) as [Hn Hs]. rewrite Hn in Hx. rewrite Hs in Hy.
  destruct (first bs n1) as [b|]; [|done]. simpl in *. by destruct (bd_Namespace b).
Qed.

Lemma Resolve_represents directives :
  represents (directives ≫= imports) (Resolve directives).1 ∧
  (Resolve directives).2 ≡ₚ collisions [] (directives ≫= imports) ++ unsupported directives.
Proof.
  destruct (directivesLoop_represents directives [] (mkTable ∅ ∅) []) as [H1 H2]; [by intros name|].
  unfold Resolve. destruct (directivesLoop _ _ _) as [table ds]. simpl in *. split; [done|].
  by rewrite sort_stable_perm, H2.
Qed.

Definition dot : ascii := "."%char.

(** What a name stands for. *)
Definition stands_for (bindings : list Binding) (name : string) (reference : DefinitionReference) : Prop :=
  (contains_byte name dot = false ∧
    ∃ b, first bindings name = Some b ∧ bd_Namespace b = false ∧ reference = bd_Reference b) ∨
  (∃ qualifier symbol b,
    name = qualifier +:+ "." +:+ symbol ∧ qualifier ≠ "" ∧ symbol ≠ "" ∧
    contains_byte qualifier dot = false ∧ contains_byte symbol dot = false ∧
    first bindings qualifier = Some b ∧ bd_Namespace b = true ∧
    reference = mkReference (ref_Package (bd_Reference b)) symbol).

Lemma contains_dot s : contains s "." = contains_byte s dot.
Proof.
  unfold contains. destruct (cut s ".") as [[b a] f] eqn:E. destruct (cut_byte_inv dot _ _ _ _ E) as [Hb ->]. simpl.
  destruct f; [|done]. rewrite contains_byte_app, Hb. simpl. by destruct (ascii_dec dot dot).
Qed.

Lemma Lookup_represents bs table name reference :
  represents bs table → Table_Lookup table name = Some reference ↔ stands_for bs name reference.
Proof.
  intros Hr. unfold Table_Lookup. destruct (cut name ".") as [[q s] f] eqn:E. apply (cut_byte_inv dot) in E as [Hq Hn].
  destruct f; simpl; subst name.
  - rewrite contains_dot. split.
    + destruct (bool_decide (q = "")) eqn:E1, (bool_decide (s = "")) eqn:E2, (contains_byte s dot) eqn:E3; try done.
      bool_prop. simpl. destruct (Hr q) as [_ ->]. intros (b & Hb & ->)%fmap_Some. right. exists q, s.
      destruct (first bs q) as [b'|]; [|done]. simpl in Hb. destruct (bd_Namespace b') eqn:Hs; [|done].
      injection Hb as ->. by exists b.
    + intros [(Hd & _)|(q' & s' & b & Hn & Hq' & Hs' & Hdq & Hds & Hb & Hns & ->)].
      * rewrite contains_byte_app, Hq in Hd. simpl in Hd. by destruct (ascii_dec dot dot).
      * pose proof (cut_byte dot q s Hq) as H1. rewrite Hn in H1. change ("." +:+ s') with (String dot s') in H1.
        rewrite (cut_byte dot q' s' Hdq) in H1. injection H1 as <- <-.
        rewrite !bool_decide_eq_false_2, Hds by done. simpl. destruct (Hr q') as [_ ->]. rewrite Hb. simpl. by rewrite Hns.
  - split.
    + intros (b & Hb & ->)%fmap_Some. left. split; [done|]. destruct (Hr q) as [H1 _]. rewrite H1 in Hb.
      destruct (first bs q) as [b'|]; [|done]. simpl in Hb. destruct (bd_Namespace b') eqn:Hs; [done|].
      injection Hb as ->. by exists b.
    + intros [(_ & b & Hb & Hs & ->)|(q' & s' & b & -> & _ & _ & _ & _ & _)].
      * destruct (Hr q) as [-> _]. rewrite Hb. simpl. by rewrite Hs.
      * rewrite contains_byte_app in Hq. apply orb_false_iff in Hq as [_ Hq]. simpl in Hq. by destruct (ascii_dec dot dot).
Qed.

(** C21. A name stands for what its first binding in the file says: a direct
    name for its symbol, a qualified name for the symbol of the namespace that
    is written before the only dot, and no other name for anything. Every
    binding of a name that is bound already is reported, as is every directive
    of another kind, in the order of the diagnostics, so a table without
    diagnostics is one in which no name was bound twice. *)
Theorem Resolve_exact (directives : list ImportDirective) :
  let bindings := directives ≫= imports in
  let '(table, diagnostics) := Resolve directives in
  (∀ name reference, Table_Lookup table name = Some reference ↔ stands_for bindings name reference) ∧
  diagnostics ≡ₚ collisions [] bindings ++ unsupported directives ∧
  StronglySorted (not_after diagnosticLess) diagnostics ∧
  (diagnostics = [] ↔ NoDup (bd_Local <$> bindings) ∧ Forall supported directives).
Proof.
  destruct (Resolve_represents directives) as [Hr Hd]. unfold Resolve in *. destruct (directivesLoop _ _ _) as [table ds].
  simpl in *. split_and!; [intros; by apply Lookup_represents|done|apply sort_stable_sorted; apply _|].
  assert (unsupported directives = [] ↔ Forall supported directives) as Hu.
  { clear Hr Hd. unfold unsupported. assert (∀ l, unsupportedDiagnostic <$> l = [] ↔ l = []) as -> by by intros [].
    induction directives as [|d directives IH]; [by split|]. rewrite filter_cons, Forall_cons.
    destruct (decide (supported d)); [rewrite decide_False by naive_solver|rewrite decide_True by done]; naive_solver. }
  pose proof (collisions_nil [] (directives ≫= imports) ltac:(constructor)) as Hc. rewrite app_nil_l in Hc.
  rewrite <- Hu, <- Hc. split.
  - intros H0. rewrite H0 in Hd. by apply Permutation_nil_l, eq_sym, app_eq_nil in Hd.
  - intros [H1 H2]. rewrite H1, H2 in Hd. by apply Permutation_nil_r in Hd.
Qed.

(** The bindings of a table are the first binding of every name, sorted by
    the name, in whatever order the two maps are ranged over. *)
Theorem Bindings_exact (directives : list ImportDirective) (namedOrder namespaceOrder : list (string * Binding)) :
  let table := (Resolve directives).1 in
  namedOrder ≡ₚ map_to_list (named table) → namespaceOrder ≡ₚ map_to_list (namespaces table) →
  bindingsIn namedOrder namespaceOrder = Bindings table ∧
  StronglySorted (λ left right, str_ltb (bd_Local left) (bd_Local right) = true) (Bindings table) ∧
  (∀ b, b ∈ Bindings table ↔ first (directives ≫= imports) (bd_Local b) = Some b).
Proof.
  intros table Hn Hs. destruct (Resolve_represents directives) as [Hr _]. fold table in Hr.
  set (l := (map_to_list (named table)).*2 ++ (map_to_list (namespaces table)).*2).
  assert (∀ b, b ∈ l ↔ first (directives ≫= imports) (bd_Local b) = Some b) as Hl by (intros b; by apply table_elements).
  pose proof (table_distinct _ _ Hr : NoDup (bd_Local <$> l)) as Hnd.
  split_and!; [| |intros b; rewrite <- Hl; apply elem_of_sort_stable].
  - apply sort_stable_perm_eq; [apply _| |by rewrite Hn, Hs].
    intros x y Hx Hy H1 H2. eapply NoDup_key; [exact Hnd|done..|]. by apply st_total.
  - by apply sort_slice_strict.
Qed.
End tables.

(** ** Sources *)

Lemma withinRoot_rooted cs ds :
  Forall good_name cs → Forall good_name ds → withinRoot (rooted cs) (rooted ds) = true ↔ cs `prefix_of` ds.
Proof. apply holdsPath_rooted. Qed.

Section walk.
Context `{CaseFold} (ws : workspace) (rs : list string).
Hypothesis root_names : Forall good_name rs.
Notation root := (rooted rs).
Notation nested cs := (nestedModuleDirectory (ws_stat ws) (rooted (rs ++ cs))).

(** The directories that the walk leaves out. *)
Notation left_out := (skipped (entersDirectory ws root) rs (path_base root)).

Lemma left_out_exact cs :
  Forall good_name cs →
  left_out cs = bool_decide (cs ≠ []) && (excludedDirectory (default "" (last cs)) || nested cs).
Proof.
  intros Hc. unfold skipped, entersDirectory.
  assert (bool_decide (rooted (rs ++ cs) = root) = negb (bool_decide (cs ≠ []))) as ->.
  { rewrite <- bool_decide_not. apply bool_decide_ext. split; [|intros ->%dec_stable; by rewrite app_nil_r].
    intros He%rooted_inj; [|by apply Forall_app|done]. rewrite <- (app_nil_r rs) in He at 2. apply app_inv_head in He. naive_solver. }
  rewrite negb_involutive. destruct (decide (cs = [])) as [->|Hne]; [done|].
  rewrite bool_decide_eq_true_2 by done. unfold entry_name. destruct (last cs) eqn:E; [|by apply last_None in E]. simpl.
  by destruct (excludedDirectory _), (nested cs).
Qed.

(** The search for a module between a directory and the root. *)
Lemma nestedLoop_exact fuel ds :
  Forall good_name ds → (length ds < fuel)%nat →
  ∃ b, nestedLoop (ws_stat ws) fuel root (rooted (rs ++ ds)) = Some b ∧
    (b = true ↔ ∃ es, es ≠ [] ∧ es `prefix_of` ds ∧ nested es = true).
Proof.
  revert fuel. induction ds as [|c ds IH] using rev_ind; intros fuel Hd Hf; (destruct fuel as [|fuel]; [by apply Nat.nlt_0_r in Hf|]); cbn [nestedLoop].
  - rewrite app_nil_r, decide_True by done. exists false. split; [done|]. split; [done|].
    intros (es & Hne & ->%prefix_nil_inv & _). done.
  - pose proof Hd as [Hds Hc]%Forall_app. pose proof (Forall_app_2 _ _ _ root_names Hd) as Hall.
    rewrite decide_False.
    2: { rewrite <- (app_nil_r rs) at 2. intros He%rooted_inj; [|by apply Forall_app|by rewrite app_nil_r].
         apply app_inv_head, app_nil in He as [_ ?]. done. }
    destruct (nested (ds ++ [c])) eqn:Hn.
    { exists true. split; [done|]. split; [|done]. intros _. exists (ds ++ [c]). split_and!; [|done..]. by destruct ds. }
    rewrite app_assoc in Hall |- *. rewrite path_dir_rooted by done.
    rewrite bool_decide_eq_false_2.
    2: { intros He%rooted_inj; [|by apply Forall_app in Hall as [? _]|done].
         apply (f_equal length) in He. rewrite !length_app in He. simpl in He. lia. }
    assert (withinRoot root (rooted (rs ++ ds)) = true) as ->.
    { apply withinRoot_rooted; [done|by apply Forall_app|]. by apply prefix_app_r. }
    destruct (IH fuel) as (b & Hb & Hiff); [done|rewrite length_app in Hf; simpl in Hf; lia|].
    exists b. split; [done|]. rewrite Hiff. split; intros (es & Hne & Hp & He); exists es; split_and!; try done.
    + by apply prefix_app_r.
    + destruct Hp as [k Hk]. destruct k as [|x k _] using rev_ind; [rewrite app_nil_r in Hk; subst; congruence|].
      rewrite app_assoc in Hk. apply app_inj_tail in Hk as [-> _]. by apply prefix_app_r.
Qed.

(** A directory strictly above a file of the workspace, and below the root, is a
    module of its own. *)
Definition in_nested_module (cs : list string) : Prop :=
  ∃ ds names, ds ≠ [] ∧ names ≠ [] ∧ cs = ds ++ names ∧ nested ds = true.

Lemma overlayFile_below cs :
  Forall good_name cs → cs ≠ [] →
  ∃ b, overlayFile ws root (rooted (rs ++ cs)) = Some b ∧
    (b = true ↔ discoverySource (rooted (rs ++ cs)) = true ∧ ¬ in_nested_module cs).
Proof.
  intros Hc Hne. unfold overlayFile. destruct (discoverySource _) eqn:Hs; [|exists false; naive_solver]. cbn [andb].
  assert (withinRoot root (rooted (rs ++ cs)) = true) as ->.
  { apply withinRoot_rooted; [done|by apply Forall_app|]. by apply prefix_app_r. }
  induction cs as [|c cs _] using rev_ind; [done|]. pose proof Hc as [Hcs _]%Forall_app.
  unfold insideNestedModule. pose proof (Forall_app_2 _ _ _ root_names Hc) as Hall. rewrite app_assoc in Hall |- *.
  rewrite path_dir_rooted by done.
  destruct (nestedLoop_exact (S (S (String.length (rooted ((rs ++ cs) ++ [c]))))) cs) as (b & -> & Hb); [done| |].
  { pose proof (length_rooted _ Hall) as Hl. rewrite !length_app in Hl. lia. }
  exists (negb b). split; [done|]. rewrite negb_true_iff, <- not_true_iff_false, Hb.
  assert (∀ P Q : Prop, (P ↔ Q) → (¬ P) ↔ true = true ∧ ¬ Q) as Hpq by tauto. apply Hpq. clear Hpq. split.
  - intros (es & He & [k ->] & Hn). exists es, (k ++ [c]). split_and!; [done|by destruct k|by rewrite app_assoc|done].
  - intros (ds & names & Hd & Hnames & Heq & Hn). exists ds. split_and!; [done| |done].
    destruct names as [|n names _] using rev_ind; [done|]. rewrite app_assoc in Heq. apply app_inj_tail in Heq as [-> _].
    by apply prefix_app_r.
Qed.

Lemma overlayFile_inside path :
  path_clean path = path → overlayFile ws root path = Some true → ∃ cs, Forall good_name cs ∧ path = rooted (rs ++ cs).
Proof.
  intros Hclean. unfold overlayFile. destruct (discoverySource path), (withinRoot root path) eqn:Hw; try done. intros _.
  assert (path_is_abs path = true) as (ds & Hd & Heq)%path_clean_abs.
  { unfold withinRoot, filepath_rel in Hw. rewrite Hclean, path_clean_rooted in Hw by done.
    destruct (decide (path = root)) as [->|Hne]; [apply rooted_abs|].
    assert (path_is_abs (if decide (root = ".") then "" else root) = true) as Habs by (case_decide; [done|apply rooted_abs]).
    rewrite Habs in Hw. by destruct (path_is_abs path). }
  rewrite Hclean in Heq. subst path. apply withinRoot_rooted in Hw as [cs ->]; [|done..]. exists cs. split; [|done].
  by apply Forall_app in Hd as [_ ?].
Qed.

Lemma elem_of_overlayFiles overlay f :
  f ∈ overlayFiles ws root overlay ↔ f ∈ dom overlay ∧ overlayFile ws root f = Some true.
Proof.
  unfold overlayFiles. rewrite elem_of_list_to_set, list_elem_of_filter, elem_of_dom, list_elem_of_fmap. split.
  - intros [Ho ([k v] & -> & Hk%elem_of_map_to_list)]. simpl. split; [by eexists|done].
  - intros [[v Hv] Ho]. split; [done|]. exists (f, v). split; [done|]. by apply elem_of_map_to_list.
Qed.

Lemma elem_of_sortedKeys values k : k ∈ sortedKeys values ↔ k ∈ values.
Proof. unfold sortedKeys. by rewrite elem_of_sort_strings, elem_of_elements. Qed.

Lemma sortedKeys_strict values : StronglySorted (λ x y, str_ltb x y = true) (sortedKeys values).
Proof. apply sort_strings_strict, NoDup_elements. Qed.

(** C33. Discovery fails exactly when a directory that it has to read cannot be
    read. Otherwise it finds, sorted and without duplicates, the source files
    that the walk comes to without entering an excluded directory or a module of
    its own, and the source files of the overlay that lie in no such module; for
    those, excluded directories are not left out. *)
Theorem discoveryFiles_exact (overlay : gmap string string) (tree : node) :
  (∀ path, path ∈ dom overlay → path_clean path = path) →
  ws_walk ws root = Ok tree → good_tree tree = true →
  (is_ok (discoveryFiles ws root overlay) = true ↔
    ∀ cs err es, visits left_out [] tree cs (Directory (Some err) es) → left_out cs = true) ∧
  ∀ files, discoveryFiles ws root overlay = Ok files →
    StronglySorted (λ left right, str_ltb left right = true) files ∧
    (∀ f, f ∈ files → ∃ cs, f = rooted (rs ++ cs) ∧ Forall good_name cs) ∧
    (∀ cs, Forall good_name cs → cs ≠ [] →
      rooted (rs ++ cs) ∈ files ↔ discoverySource (rooted (rs ++ cs)) = true ∧
        (visits left_out [] tree cs Leaf ∨ rooted (rs ++ cs) ∈ dom overlay ∧ ¬ in_nested_module cs)).
Proof.
  intros Hclean Htree Hgood.
  assert (∀ cs entry, visits left_out [] tree cs entry → Forall good_name cs) as Hg by (intros; by eapply visits_good).
  pose proof (collect_walked discoveredFile (entersDirectory ws root) rs (path_base root) root_names [] tree ∅ Hgood ltac:(constructor)) as Hw.
  rewrite app_nil_r in Hw. 
  change (walked discoveredFile (entersDirectory ws root) rs (path_base root) [] tree ∅ (walkDiscovery ws root tree)) in Hw.
  unfold walked in Hw.
  unfold discoveryFiles. rewrite Htree. simpl. destruct (walkDiscovery ws root tree) as [found|err]; simpl.
  2: { destruct Hw as (cs & es & Hv & Hs). split; [|done]. split; [done|]. intros Hall. specialize (Hall _ _ _ Hv). congruence. }
  destruct Hw as [Hw1 Hw2]. split; [done|]. intros files [= <-]. split; [apply sortedKeys_strict|]. split.
  - intros f [[Hd Ho]%elem_of_overlayFiles|Hf]%elem_of_sortedKeys%elem_of_union.
    + apply overlayFile_inside in Ho as (cs & Hc & ->); [|by apply Hclean]. by exists cs.
    + apply Hw2 in Hf as [Hf|(cs & Hv & -> & _)]; [by apply elem_of_empty in Hf|]. exists cs. split; [done|]. by eapply Hg.
  - intros cs Hc Hne. rewrite elem_of_sortedKeys, elem_of_union, elem_of_overlayFiles, Hw2, elem_of_empty.
    destruct (overlayFile_below cs Hc Hne) as (b & Hb & Hiff). rewrite Hb. split.
    + intros [[Hd [= ->]]|[?|(cs' & Hv & Heq & Hs)]]; [naive_solver|done|]. unfold kept, discoveredFile in Hs.
      rewrite path_clean_rooted in Hs by (apply Forall_app; split; [done|by eapply Hg]).
      apply rooted_inj in Heq; [|by apply Forall_app..|apply Forall_app; split; [done|by eapply Hg]].
      apply app_inv_head in Heq as <-. naive_solver.
    + intros [Hs [Hv|[Hd Hn]]].
      { right; right. exists cs. split_and!; [done..|]. unfold kept, discoveredFile.
        by rewrite path_clean_rooted by by apply Forall_app. }
      left. split; [done|]. f_equal. by apply Hiff.
Qed.
End walk.

(** ** Discovery *)

Section preload.
Context `{UnicodeTables} `{CaseFold} `{GoScanner} (ws : workspace).

Lemma readImportDirectives_sources absolute files overlay acc ds :
  readImportDirectives ws absolute files overlay acc = Ok ds →
  ∃ contents, Forall2 (λ file content, sourceContent ws absolute overlay file = Ok content) files contents ∧
    ds = acc ++ concat (zip_with importsInSource files contents).
Proof.
  revert acc. induction files as [|file files IH]; intros acc; simpl.
  - intros [= <-]. exists []. split; [constructor|]. by rewrite app_nil_r.
  - intros (content & Hc & (contents & Hf & ->)%IH)%outcome_bind_ok. exists (content :: contents).
    split; [by constructor|]. by rewrite <- app_assoc.
Qed.

(** Where the reference of a name comes from. *)
Lemma stands_for_directive directives name reference :
  stands_for (directives ≫= imports) name reference →
  ∃ d, d ∈ directives ∧ im_Package d = ref_Package reference ∧
    if contains_byte name dot then im_Kind d = ImportNamespace
    else ∃ item, item ∈ im_Bindings d ∧ ib_Imported item = ref_Symbol reference.
Proof.
  assert (∀ b n, first (directives ≫= imports) n = Some b → ∃ d, d ∈ directives ∧ b ∈ imports d) as Hin.
  { intros b n [_ (d & Hb & Hd)%list_elem_of_bind]%first_local. by exists d. }
  unfold imports in Hin. intros [(Hn & b & Hb & Hns & ->)|(q & s & b & -> & _ & _ & _ & _ & Hb & Hns & ->)].
  - rewrite Hn. destruct (Hin _ _ Hb) as (d & Hd & Hbd). exists d. split; [done|]. case_decide.
    + apply list_elem_of_fmap in Hbd as (item & -> & Hitem). split; [done|]. by exists item.
    + case_decide; [apply list_elem_of_singleton in Hbd as ->; done|by apply elem_of_nil in Hbd].
  - rewrite contains_byte_app. simpl. rewrite orb_true_r. destruct (Hin _ _ Hb) as (d & Hd & Hbd).
    exists d. split; [done|]. case_decide; [by apply list_elem_of_fmap in Hbd as (item & -> & _)|].
    case_decide; [by apply list_elem_of_singleton in Hbd as ->|by apply elem_of_nil in Hbd].
Qed.

Lemma elem_of_sortedReferences values r : r ∈ sortedReferences values ↔ r ∈ values.
Proof. unfold sortedReferences, sort_slice. by rewrite elem_of_sort_stable, elem_of_elements. Qed.

Lemma Discover_inv root values d :
  Discover ws root values = Ok d →
  ∃ absolute files directives, ws_abs ws root = Ok absolute ∧
    discoveryFiles ws absolute (cleanOverlay values) = Ok files ∧
    readImportDirectives ws absolute files (cleanOverlay values) [] = Ok directives ∧
    d = {| Directives := sort_slice directiveLess directives;
           Packages := sortedKeys (packagesOf (sort_slice directiveLess directives));
           References := sortedReferences (referencesOf (sort_slice directiveLess directives)) |}.
Proof.
  unfold Discover. destruct (ws_abs ws root) as [absolute|]; [|done].
  intros (files & Hf & Hd)%outcome_bind_ok. destruct (ws_open ws absolute); [|done].
  destruct (readImportDirectives _ _ _ _ _) as [directives|] eqn:Hr, (ws_close ws); simplify_eq. by exists absolute, files, directives.
Qed.

(** C13. Discovery preloads enough: whatever a name stands for in a source that
    was discovered, its package is among the packages that were found, with a
    direct name its symbol is among the references, and with a qualified name
    the package is one whose whole surface is loaded. *)
Theorem Discover_preloads (root : string) (values : list (string * string)) (d : Discovery) :
  Discover ws root values = Ok d →
  ∃ absolute files contents, ws_abs ws root = Ok absolute ∧
    discoveryFiles ws absolute (cleanOverlay values) = Ok files ∧
    Forall2 (λ file content, sourceContent ws absolute (cleanOverlay values) file = Ok content) files contents ∧
    Directives d ≡ₚ concat (zip_with importsInSource files contents) ∧
    ∀ file content name reference, (file, content) ∈ zip files contents →
      Table_Lookup (Resolve (fd_Directive <$> importsInSource file content)).1 name = Some reference →
      ref_Package reference ∈ Packages d ∧
      if contains_byte name dot then ref_Package reference ∈ NamespacePackages d else reference ∈ References d.
Proof.
  intros (absolute & files & directives & Ha & Hf & (contents & Hc & Heq)%readImportDirectives_sources & ->)%Discover_inv.
  rewrite app_nil_l in Heq.
  exists absolute, files, contents. split_and!; [done..|simpl; unfold sort_slice; by rewrite sort_stable_perm, Heq|].
  intros file content name reference Hin. rewrite (Lookup_represents _ _ _ _ (proj1 (Resolve_represents _))).
  intros (d & (fd & -> & Hd)%list_elem_of_fmap & Hp & Hk)%stands_for_directive.
  assert (fd ∈ sort_slice directiveLess directives) as Hfd.
  { unfold sort_slice. rewrite elem_of_sort_stable, Heq, elem_of_concat. exists (importsInSource file content). split; [|done].
    rewrite zip_with_zip. apply list_elem_of_fmap. by exists (file, content). }
  simpl. split.
  - rewrite elem_of_sortedKeys. unfold packagesOf. rewrite elem_of_list_to_set, list_elem_of_fmap. by exists fd.
  - case_match eqn:Hdot.
    + unfold NamespacePackages. rewrite elem_of_sortedKeys, elem_of_list_to_set, list_elem_of_fmap. exists fd.
      split; [done|]. by apply list_elem_of_filter.
    + rewrite elem_of_sortedReferences. unfold referencesOf. rewrite elem_of_list_to_set, list_elem_of_bind.
      exists fd. split; [|done]. destruct Hk as (item & Hi & Hs). apply list_elem_of_fmap. exists item.
      split; [|done]. destruct reference. simpl in *. by subst.
Qed.
End preload.

(** ** The theorems applied *)

(** A scanner for texts whose comments are whole lines. *)
Definition line_comments : GoScanner := λ file content,
  (λ line, (mkPosition file 0 1 1, line)) <$> filter (λ line, has_prefix line "//" = true) (split_byte newline content).

Definition module_tree : node := Directory None [
  ("app", Directory None [("main.go", Leaf); ("main_test.go", Leaf)]);
  ("old", Directory None [("go.mod", Leaf); ("old.go", Leaf)]);
  ("vendor", Directory (Some (ErrNew "permission denied")) [("x.go", Leaf)])].

Definition module : workspace := {|
  ws_abs := Ok;
  ws_walk := λ root, if decide (root = "/m") then Ok module_tree else Fail ErrNotExist;
  ws_stat := λ path, if decide (path = "/m/old/go.mod") then Some false else None;
  ws_open := λ _, Ok ();
  ws_read := λ path, if decide (path = "app/main.go") then Ok "// @import { Route as Path } from `example.com/web`" else Fail ErrNotExist;
  ws_close := None;
|}.

Definition edited : list (string * string) := [
  ("/m/app/../app/other.go", "// @import * as data from `example.com/data`");
  ("/m/old/new.go", "// @import { Old } from `example.com/old`");
  ("/m/vendor/y.go", "// @import { Vendored } from `example.com/vendored`")].

Definition overlaid : gmap string string := cleanOverlay edited.

(** A file of the overlay is read although it lies in an excluded directory,
    and one in another module is not. *)
Example discovered_files :
  @discoveryFiles ascii_fold module "/m" overlaid = Ok ["/m/app/main.go"; "/m/app/other.go"; "/m/vendor/y.go"].
Proof. vm_compute. reflexivity. Qed.

Lemma discoveryFiles_exact_witness :
  is_ok (@discoveryFiles ascii_fold module "/m" overlaid) = true ∧
  ("/m/app/main.go" ∈ ["/m/app/main.go"; "/m/app/other.go"; "/m/vendor/y.go"] ↔
    @discoverySource ascii_fold "/m/app/main.go" = true ∧
    (visits (skipped (entersDirectory module "/m") ["m"] "m") [] module_tree ["app"; "main.go"] Leaf ∨
     "/m/app/main.go" ∈ dom overlaid ∧ ¬ in_nested_module module ["m"] ["app"; "main.go"])).
Proof.
  assert (Forall good_name ["m"]) as Hroot by (apply (bool_decide_unpack _); vm_compute; exact I).
  assert (∀ path, path ∈ dom overlaid → path_clean path = path) as Hclean.
  { assert (Forall (λ path, path_clean path = path) (elements (dom overlaid))) as Hall
      by (apply (bool_decide_unpack _); vm_compute; exact I).
    intros path Hp. exact (proj1 (Forall_forall _ _) Hall path (proj2 (elem_of_elements _ _) Hp)). }
  assert (ws_walk module "/m" = Ok module_tree) as Hwalk by reflexivity.
  assert (good_tree module_tree = true) as Hnames by (vm_compute; reflexivity).
  split; [vm_compute; reflexivity|].
  pose proof (proj2 (@discoveryFiles_exact ascii_fold module ["m"] Hroot overlaid module_tree Hclean Hwalk Hnames)
    _ discovered_files) as (_ & _ & Hfiles).
  apply (Hfiles ["app"; "main.go"]); [|discriminate]. apply (bool_decide_unpack _). vm_compute. exact I.
Defined.

Definition preloaded : Discovery := {|
  Directives := [
    mkFound (mkDirective ImportNamed "example.com/web" "" [mkBinding "Route" "Path"] (mkPosition "/m/app/main.go" 3 1 4)
      "// @import { Route as Path } from `example.com/web`") (mkPosition "/m/app/main.go" 0 1 1);
    mkFound (mkDirective ImportNamespace "example.com/data" "data" [] (mkPosition "/m/app/other.go" 3 1 4)
      "// @import * as data from `example.com/data`") (mkPosition "/m/app/other.go" 0 1 1);
    mkFound (mkDirective ImportNamed "example.com/vendored" "" [mkBinding "Vendored" "Vendored"] (mkPosition "/m/vendor/y.go" 3 1 4)
      "// @import { Vendored } from `example.com/vendored`") (mkPosition "/m/vendor/y.go" 0 1 1)];
  Packages := ["example.com/data"; "example.com/vendored"; "example.com/web"];
  References := [mkReference "example.com/vendored" "Vendored"; mkReference "example.com/web" "Route"];
|}.

Lemma module_discovered : @Discover ascii_tables ascii_fold line_comments module "/m" edited = Ok preloaded.
Proof. vm_compute. reflexivity. Qed.

Lemma Discover_preloads_witness :
  ∃ files contents,
    @discoveryFiles ascii_fold module "/m" overlaid = Ok files ∧
    Directives preloaded ≡ₚ concat (zip_with (@importsInSource ascii_tables line_comments) files contents).
Proof.
  destruct (@Discover_preloads ascii_tables ascii_fold line_comments module "/m" edited preloaded module_discovered)
    as (absolute & files & contents & Ha & Hf & _ & Hd & _).
  injection Ha as <-. exists files, contents. split; [exact Hf|exact Hd].
Defined.

(** A file that binds a name twice. *)
Definition web_imports : list ImportDirective := [
  mkDirective ImportNamespace "example.com/web" "web" [] (mkPosition "a.go" 10 2 4) "";
  mkDirective ImportNamed "example.com/data" "" [mkBinding "Table" "Table"; mkBinding "Row" "web"] (mkPosition "a.go" 60 3 4) ""].

Example web_resolved :
  let '(table, diagnostics) := @Resolve ascii_tables web_imports in
  Table_Lookup table "web.Route" = Some (mkReference "example.com/web" "Route") ∧
  Table_Lookup table "Table" = Some (mkReference "example.com/data" "Table") ∧
  Table_Lookup table "web" = None ∧ Table_Lookup table "web.a.b" = None ∧
  (Diagnostic_Error <$> diagnostics) =
    ["a.go:3:4: annotation import name " +:+ str1 dquote +:+ "web" +:+ str1 dquote +:+ " conflicts with the binding at a.go:2"].
Proof. vm_compute. repeat split. Qed.

Lemma Bindings_exact_witness :
  let table := (@Resolve ascii_tables web_imports).1 in
  bindingsIn (reverse (map_to_list (named table))) (reverse (map_to_list (namespaces table))) = Bindings table ∧
  (bd_Local <$> Bindings table) = ["Table"; "web"].
Proof.
  split; [|vm_compute; reflexivity].
  exact (proj1 (@Bindings_exact ascii_tables web_imports _ _ (reverse_Permutation _) (reverse_Permutation _))).
Defined.
