(* ===== verification/ServiceSelections.v ===== *)
(** The analysis of a configured workspace
    (src/compiler/service/style_selections.go): the compiler service analyses
    every build selection of a style configuration and every application in it,
    and composes one result. The summaries are those of
    src/compiler/service/types.go.

    What the composition calls is a class: the context, the discovery of
    generated entry points, one analysis, and the file system. *)
From S2P Require Import Prelude GoSort GoStrings GoUrl Provider Modulith Diag GoWalk ServiceRequest ServiceOptions StyleConfig.

(** ** Summaries *)

Record Annotation := mkAnnotation {
  sa_Name : string;
  sa_Spelling : string;
  sa_Raw : string;
  sa_Target : string;
  sa_Declaration : string;
  sa_SymbolID : string;
  sa_PackagePath : string;
  sa_DefinitionPackage : string;
  sa_DefinitionSymbol : string;
  sa_Location : Location;
}.

Record ProviderDependency := mkProviderDependency {
  pd_Index : Z;
  pd_Name : string;
  pd_TypeID : string;
  pd_Kind : string;
  pd_ElementTypeID : string;
  pd_Qualifiers : list string;
}.

Record Provider := mkProvider {
  sv_ID : string;
  sv_Name : string;
  sv_ExplicitName : bool;
  sv_PackagePath : string;
  sv_OutputTypeID : string;
  sv_Source : string;
  sv_Aliases : list string;
  sv_Qualifiers : list string;
  sv_Primary : bool;
  sv_Fallback : bool;
  sv_Order : Z;
  sv_Scope : string;
  sv_Dependencies : list ProviderDependency;
  sv_ReturnsCleanup : bool;
  sv_ReturnsError : bool;
}.

Record ProviderEdge := mkProviderEdge {
  ve_ConsumerID : string;
  ve_DependencyID : string;
  ve_RequiredTypeID : string;
  ve_ParameterIndex : Z;
  ve_ParameterName : string;
  ve_DependencyKind : string;
  ve_CollectionIndex : Z;
}.

Record ApplicationScope := mkScope {
  sc_BuildSelection : string;
  sc_PackagePath : string;
  sc_GeneratedEntrypoint : bool;
}.

Record AutoConfiguration := mkAutoConfiguration {
  ac_PackagePath : string;
  ac_Factory : string;
  ac_OutputTypeID : string;
  ac_Status : string;
  ac_Reason : string;
  ac_ModulePath : string;
  ac_ModuleVersion : string;
  ac_ReplacementPath : string;
  ac_Review : string;
}.

Record NamedInterface := mkNamedInterface { ni_Name : string; ni_PackagePath : string }.
Record ModuleDependency := mkModuleDependency { md_ModuleID : string; md_API : string }.

Record Module := mkModule {
  sm_ID : string;
  sm_RootPackage : string;
  sm_Packages : list string;
  sm_NamedInterfaces : list NamedInterface;
  sm_AllowedDependencies : list ModuleDependency;
}.

Record ModuleEdge := mkModuleEdge {
  me_FromModule : string;
  me_ToModule : string;
  me_FromPackage : string;
  me_ToPackage : string;
  me_API : string;
  me_Exported : bool;
  me_Allowed : bool;
}.

Record ConfigurationField := mkConfigurationField {
  cf_Name : string;
  cf_Key : string;
  cf_TypeID : string;
  cf_Environment : string;
  cf_Default : string;
  cf_HasDefault : bool;
  cf_Required : bool;
  cf_Secret : bool;
}.

Record ConfigurationSummary := mkConfigurationSummary {
  cs_SymbolID : string;
  cs_Name : string;
  cs_PackagePath : string;
  cs_TypeID : string;
  cs_Prefix : string;
  cs_Module : string;
  cs_Fields : list ConfigurationField;
}.

Record EnumMember := mkEnumMember { em_Name : string; em_Value : string }.

Record Enum := mkEnum {
  en_SymbolID : string;
  en_Name : string;
  en_PackagePath : string;
  en_TypeID : string;
  en_Underlying : string;
  en_Location : Location;
  en_Members : list EnumMember;
}.

Record semanticOccurrence := mkOccurrence {
  so_symbolID : string;
  so_kind : string;
  so_packagePath : string;
  so_filename : string;
  so_line : Z;
  so_column : Z;
  so_offset : Z;
}.

(** The application model and the plan of a result, which are only passed on. *)
Class ApplicationResults := {
  application_model : Type;
  generation_plan : Type;
  no_application : application_model;
  no_plan : generation_plan;
}.

(** [Result], without the catalogs of interfaces and definitions, which the
    composition takes from its first result. *)
Record Result `{ApplicationResults} := mkResult {
  sr_workspaceRoot : string;
  sr_sequence : N;
  sr_diagnostics : DiagnosticSet;
  sr_annotations : list Annotation;
  sr_providers : list Provider;
  sr_providerEdges : list ProviderEdge;
  sr_autoConfigs : list AutoConfiguration;
  sr_modules : list Module;
  sr_moduleEdges : list ModuleEdge;
  sr_unassignedPackages : list string;
  sr_moduleModel : Model;
  sr_configurations : list ConfigurationSummary;
  sr_enums : list Enum;
  sr_actions : list SuggestedFix;
  sr_application : application_model;
  sr_plan : generation_plan;
  sr_targetName : string;
  sr_files : Z;
  sr_loadedFiles : list string;
  sr_applicationScopes : list ApplicationScope;
  sr_applicationPackages : list string;
  sr_semanticOccurrences : list semanticOccurrence;
  sr_hasPlan : bool;
}.
Arguments mkResult {_}.

(** ** Suggested fixes (summary.go) *)

#[export] Instance RelatedInformation_eq_dec : EqDecision RelatedInformation. Proof. solve_decision. Defined.
#[export] Instance TextEdit_eq_dec : EqDecision TextEdit. Proof. solve_decision. Defined.
#[export] Instance SuggestedFix_eq_dec : EqDecision SuggestedFix. Proof. solve_decision. Defined.

(** Two edits; what a location displays does not count. *)
Definition equalEdit (left right : TextEdit) : bool :=
  bool_decide (te_NewText left = te_NewText right ∧
    lc_URI (te_Location left) = lc_URI (te_Location right) ∧
    lc_Path (te_Location left) = lc_Path (te_Location right) ∧
    lc_Range (te_Location left) = lc_Range (te_Location right) ∧
    te_DocumentVersion left = te_DocumentVersion right).

Fixpoint equalEdits (left right : list TextEdit) : bool :=
  match left, right with
  | [], [] => true
  | l :: left', r :: right' => equalEdit l r && equalEdits left' right'
  | _, _ => false
  end.

Definition equalSuggestedFix (left right : SuggestedFix) : bool :=
  bool_decide (sf_Title left = sf_Title right) && bool_decide (sf_AppliesTo left = sf_AppliesTo right) &&
  equalEdits (sf_Edits left) (sf_Edits right).

(** The loop that leaves out a fix equal to the last one kept. *)
Fixpoint uniqueFixes (last : option SuggestedFix) (fixes : list SuggestedFix) : list SuggestedFix :=
  match fixes with
  | [] => []
  | item :: fixes' =>
      if match last with Some previous => equalSuggestedFix previous item | None => false end
      then uniqueFixes last fixes'
      else item :: uniqueFixes (Some item) fixes'
  end.

Definition actionsFromDiagnostics (set : DiagnosticSet) : list SuggestedFix :=
  uniqueFixes None (sort_stable lessFix (concat (dg_Fixes <$> Items set))).

(** ** Merging results *)

Section unique.
Context {A : Type} (key : A → string).

(** [if _, found := seen[key]; !found { seen[key] = struct{}{}; items = append(items, item) }] *)
Definition addUnique (state : gset string * list A) (item : A) : gset string * list A :=
  let '(seen, items) := state in
  if decide (key item ∈ seen) then state else ({[key item]} ∪ seen, items ++ [item]).

Definition uniqueBy (lists : list (list A)) : list A := (foldl (foldl addUnique) (∅, []) lists).2.
End unique.

Section composition.
Context `{UnicodeTables} `{ApplicationResults}.

Definition emptyResult : Result :=
  mkResult "" 0 [] [] [] [] [] [] [] [] empty_model [] [] [] no_application no_plan "" 0 [] [] [] [] false.

(** [fmt.Sprint] of a position, and of a struct with its field names. *)
Definition sprintPosition (p : Diag.Position) : string :=
  "{" +:+ itoa (ps_Line p) +:+ " " +:+ itoa (ps_Column p) +:+ " " +:+ itoa (ps_Offset p) +:+ "}".
Definition sprintBool (b : bool) : string := if b then "true" else "false".
Definition sprintFields (type : string) (fields : list (string * string)) : string :=
  type +:+ "{" +:+ join ((λ f, f.1 +:+ ":" +:+ f.2) <$> fields) ", " +:+ "}".

Definition annotationKey (item : Annotation) : string :=
  sa_SymbolID item +:+ nul_str +:+ sa_Name item +:+ nul_str +:+ lc_Path (sa_Location item)
    +:+ sprintPosition (rg_Start (lc_Range (sa_Location item))).
Definition providerEdgeKey (item : ProviderEdge) : string :=
  sprintFields "service.ProviderEdge" [
    ("ConsumerID", go_quote (ve_ConsumerID item)); ("DependencyID", go_quote (ve_DependencyID item));
    ("RequiredTypeID", go_quote (ve_RequiredTypeID item)); ("ParameterIndex", itoa (ve_ParameterIndex item));
    ("ParameterName", go_quote (ve_ParameterName item)); ("DependencyKind", go_quote (ve_DependencyKind item));
    ("CollectionIndex", itoa (ve_CollectionIndex item))].
Definition moduleEdgeKey (item : ModuleEdge) : string :=
  sprintFields "service.ModuleEdge" [
    ("FromModule", go_quote (me_FromModule item)); ("ToModule", go_quote (me_ToModule item));
    ("FromPackage", go_quote (me_FromPackage item)); ("ToPackage", go_quote (me_ToPackage item));
    ("API", go_quote (me_API item)); ("Exported", sprintBool (me_Exported item));
    ("Allowed", sprintBool (me_Allowed item))].
Definition autoConfigurationKey (item : AutoConfiguration) : string :=
  ac_PackagePath item +:+ nul_str +:+ ac_Factory item.
Definition annotationOrder (item : Annotation) : string :=
  lc_Path (sa_Location item) +:+ nul_str +:+ sa_SymbolID item.

Record selectionResult := mkSelected { rs_id : string; rs_scope : string; rs_result : Result }.

(** The first result of a scope that loaded files: its application is shown. *)
Definition representative (results : list selectionResult) : option Result :=
  rs_result <$> head (filter (λ selected,
    rs_scope selected ≠ "" ∧ sr_loadedFiles (rs_result selected) ≠ []) results).

Definition mergeConfiguredResults (results : list selectionResult) : Result :=
  match results with
  | [] => emptyResult
  | first :: _ =>
    let base := rs_result first in
    let shown := default base (representative results) in
    let all {A} (f : Result → list A) : list (list A) := (f ∘ rs_result) <$> results in
    let loaded := uniqueBy id ((λ r, path_clean <$> sr_loadedFiles (rs_result r)) <$> results) in
    mkResult (sr_workspaceRoot base) (sr_sequence base) (sr_diagnostics base)
      (sort_slice (on_key annotationOrder str_ltb) (uniqueBy annotationKey (all sr_annotations)))
      (sort_slice (on_key sv_ID str_ltb) (uniqueBy sv_ID (all sr_providers)))
      (sort_slice (on_key providerEdgeKey str_ltb) (uniqueBy providerEdgeKey (all sr_providerEdges)))
      (sort_slice (on_key autoConfigurationKey str_ltb) (uniqueBy autoConfigurationKey (all sr_autoConfigs)))
      (sort_slice (on_key sm_ID str_ltb) (uniqueBy sm_ID (all sr_modules)))
      (sort_slice (on_key moduleEdgeKey str_ltb) (uniqueBy moduleEdgeKey (all sr_moduleEdges)))
      (sort_strings (uniqueBy id (all sr_unassignedPackages)))
      (sr_moduleModel shown)
      (sort_slice (on_key cs_SymbolID str_ltb) (uniqueBy cs_SymbolID (all sr_configurations)))
      (sort_slice (on_key en_SymbolID str_ltb) (uniqueBy en_SymbolID (all sr_enums)))
      (sr_actions base) (sr_application shown) (sr_plan shown) (sr_targetName shown)
      (Z.of_nat (length loaded)) (sort_strings loaded) (sr_applicationScopes base)
      (sr_applicationPackages base) (sr_semanticOccurrences base) (sr_hasPlan shown)
  end.

(** ** Merging diagnostics *)

Record selectionDiagnosticIdentity := mkIdentity {
  di_code : string;
  di_severity : string;
  di_message : string;
  di_uri : string;
  di_path : string;
  di_rangeStart : Diag.Position;
  di_rangeEnd : Diag.Position;
  di_display : option (string * Diag.Position * Diag.Position);
}.
#[export] Instance selectionDiagnosticIdentity_eq_dec : EqDecision selectionDiagnosticIdentity.
Proof. solve_decision. Defined.

(** What a diagnostic displays is absent or its path and range. *)
Definition selectionDiagnosticKey (item : Diag.Diagnostic) : selectionDiagnosticIdentity :=
  let location := dg_Location item in
  mkIdentity (dg_Code item) (dg_Severity item) (dg_Message item) (lc_URI location) (lc_Path location)
    (rg_Start (lc_Range location)) (rg_End (lc_Range location))
    ((λ display, (dl_Path display, rg_Start (dl_Range display), rg_End (dl_Range display))) <$> lc_Display location).

Record aggregate := mkAggregate {
  ag_item : Diag.Diagnostic;
  ag_ids : list string;
  ag_scopes : list string;
  ag_related : list RelatedInformation;
}.

(** [if !slices.Contains(l, x) { l = append(l, x) }], as [appendUniqueRelated]
    does for each of its items. *)
Definition appendUnique {A} `{EqDecision A} (l : list A) (x : A) : list A := if decide (x ∈ l) then l else l ++ [x].
Definition appendUniqueRelated (destination items : list RelatedInformation) : list RelatedInformation :=
  foldl appendUnique destination items.

Definition report (id scope : string) (item : Diag.Diagnostic) (current : aggregate) : aggregate :=
  mkAggregate (ag_item current) (appendUnique (ag_ids current) id)
    (if decide (scope = "") then ag_scopes current else appendUnique (ag_scopes current) scope)
    (appendUniqueRelated (ag_related current) (dg_Related item)).

(** Two items that are reported as one. *)
Definition sameReport (left right : Diag.Diagnostic) : Prop :=
  selectionDiagnosticKey left = selectionDiagnosticKey right ∧ dg_Fixes left = dg_Fixes right.
#[export] Instance sameReport_dec left right : Decision (sameReport left right) := ltac:(unfold sameReport; apply _).

(** The aggregate of an item, among those in order, gets the item; an item of its
    own begins a new one. *)
Fixpoint addReport (id scope : string) (item : Diag.Diagnostic) (order : list aggregate) : list aggregate :=
  match order with
  | [] => [report id scope item (mkAggregate item [] [] [])]
  | candidate :: order' =>
      if decide (sameReport (ag_item candidate) item) then report id scope item candidate :: order'
      else candidate :: addReport id scope item order'
  end.

Definition aggregateSelection (order : list aggregate) (selection : selectionResult) : list aggregate :=
  foldl (λ order item, addReport (rs_id selection) (rs_scope selection) item order) order
    (Items (sr_diagnostics (rs_result selection))).

Definition mergedItem (current : aggregate) : Diag.Diagnostic :=
  let location := dg_Location (ag_item current) in
  WithRelated (ag_item current)
    (ag_related current ++
     [mkRelated ("build selections: " +:+ join (sort_strings (ag_ids current)) ", ") location] ++
     (if decide (ag_scopes current = []) then []
      else [mkRelated ("application targets: " +:+ join (sort_strings (ag_scopes current)) ", ") location])).

Definition mergeSelectionDiagnostics (results : list selectionResult) : DiagnosticSet :=
  NewSet (mergedItem <$> foldl aggregateSelection [] results).

(** ** Coverage *)

Definition semanticOccurrenceKey (occurrence : semanticOccurrence) : string :=
  so_symbolID occurrence +:+ nul_str +:+ so_kind occurrence +:+ nul_str +:+
    path_clean (so_filename occurrence) +:+ nul_str +:+ itoa (so_offset occurrence).

Context `{GoUrl}.

Definition unreachableOccurrence (root : string) (occurrence : semanticOccurrence) : Diag.Diagnostic :=
  Diag.New "spice.style.configuration.application-selection" SeverityError
    (so_kind occurrence +:+ " contribution in package " +:+ go_quote (so_packagePath occurrence) +:+
     " is unreachable from every application target in this build selection")
    (SourceLocation root (so_filename occurrence) (so_filename occurrence)
      (so_line occurrence `max` 1) (so_column occurrence `max` 1) (so_offset occurrence `max` 0)).

Definition applicationSemanticCoverageDiagnostics (root : string) (inventory : Result)
    (targets : list selectionResult) : DiagnosticSet :=
  let reached : gset string := list_to_set
    (semanticOccurrenceKey <$> (targets ≫= λ target, sr_semanticOccurrences (rs_result target))) in
  NewSet (unreachableOccurrence root <$>
    filter (λ occurrence, semanticOccurrenceKey occurrence ∉ reached) (sr_semanticOccurrences inventory)).

(** ** Handwritten sources *)

(** The file system: [filepath.EvalSymlinks], [os.Lstat] (the kind of what is
    there), [filepath.WalkDir], and whether a file says that it is generated. *)
Inductive fileKind := SymbolicLink | OtherFile | DirectoryFile.
Class SourceFiles := {
  EvalSymlinks : string → outcome string string;
  Lstat : string → outcome string fileKind;
  walked_tree : string → node;
  generatedGoFile : string → bool;
}.
Context `{SourceFiles}.

Definition sourceRootDiagnostic (root path message : string) : Diag.Diagnostic :=
  Diag.New "spice.style.configuration.source-selection" SeverityError message (SourceLocation root path path 1 1 0).

Definition pathWithin (root candidate : string) : bool :=
  match filepath_rel root candidate with
  | Some relative => bool_decide (relative = ".") || is_local relative
  | None => false
  end.

Definition pathUnderAny (file : string) (roots : list string) : bool :=
  existsb (λ root, bool_decide (file = root) || pathWithin root file) roots.

Definition handwritten (generated : list string) (path name : string) : bool :=
  negb (negb (has_suffix (to_lower name) ".go") || has_suffix (to_lower name) "_test.go" ||
    pathUnderAny (path_clean path) generated || generatedGoFile (path_clean path)).
Definition entersSource (generated : list string) (path name : string) : bool :=
  negb (bool_decide (path_clean path ∈ generated)).

(** What stands against a source root before it is walked. *)
Definition sourceRootProblem (root resolvedRoot sourceRoot : string) : option Diag.Diagnostic :=
  match Lstat sourceRoot with
  | Fail statErr => Some (sourceRootDiagnostic root sourceRoot ("source root cannot be inspected: " +:+ statErr))
  | Ok SymbolicLink => Some (sourceRootDiagnostic root sourceRoot "source root must not be a symbolic link")
  | Ok OtherFile => Some (sourceRootDiagnostic root sourceRoot "source root must be a directory")
  | Ok DirectoryFile =>
    match EvalSymlinks sourceRoot with
    | Fail err => Some (sourceRootDiagnostic root sourceRoot ("source root cannot be resolved: " +:+ err))
    | Ok resolved =>
      if pathWithin resolvedRoot resolved then None
      else Some (sourceRootDiagnostic root sourceRoot "source root resolves outside the workspace")
    end
  end.

(** The loop over the source roots, with the files and diagnostics so far. *)
Fixpoint sourceRootsLoop (root resolvedRoot : string) (generated roots : list string) (files : gset string)
    (diagnostics : list Diag.Diagnostic) : outcome error (gset string * list Diag.Diagnostic) :=
  match roots with
  | [] => Ok (files, diagnostics)
  | relative :: roots' =>
    let sourceRoot := path_clean (path_join [root; relative]) in
    match sourceRootProblem root resolvedRoot sourceRoot with
    | Some problem => sourceRootsLoop root resolvedRoot generated roots' files (diagnostics ++ [problem])
    | None =>
      match collect (handwritten generated) (entersSource generated) sourceRoot (path_base sourceRoot)
              (walked_tree sourceRoot) files with
      | Fail err => Fail (ErrWrap ("inventory style source root " +:+ go_quote relative) err)
      | Ok files' => sourceRootsLoop root resolvedRoot generated roots' files' diagnostics
      end
    end
  end.

Definition selectedHandwrittenSources (root : string) (configuration : StyleConfig.Configuration)
    : outcome error (list string * list Diag.Diagnostic) :=
  match EvalSymlinks root with
  | Fail err => Fail (ErrWrap "resolve style workspace root" (ErrNew err))
  | Ok resolvedRoot =>
    let generated := (λ relative, path_clean (path_join [root; relative])) <$> cfg_GeneratedRoots configuration in
    '(files, diagnostics) ← sourceRootsLoop root resolvedRoot generated (cfg_SourceRoots configuration) ∅ [];
    Ok (sort_strings (elements files), diagnostics)
  end.

Definition unreachableSource (root : string) (ids : list string) (file : string) : Diag.Diagnostic :=
  let location := SourceLocation root file file 1 1 0 in
  WithRelated (Diag.New "spice.style.configuration.source-selection" SeverityError
    "selected handwritten Go file is unreachable from every declared build selection" location)
    [mkRelated ("build selections: " +:+ join ids ", ") location].

Definition unreachableSourceDiagnostics (root : string) (configuration : StyleConfig.Configuration)
    (results : list selectionResult) : outcome error DiagnosticSet :=
  '(selected, inventoryDiagnostics) ← selectedHandwrittenSources root configuration;
  let reached : gset string := list_to_set
    (path_clean <$> (results ≫= λ result, sr_loadedFiles (rs_result result))) in
  Ok (NewSet (inventoryDiagnostics ++
    (unreachableSource root (rs_id <$> results) <$> filter (λ file, file ∉ reached) selected))).

(** ** The analysis of the selections *)

Context `{StyleLibraries} `{CaseFold} `{Process}.

(** [normalizedRequest] with the fields that only this analysis sets. *)
Record selectionRequest := mkSelectionRequest {
  sq_request : normalizedRequest;
  sq_styleInventory : bool;
  sq_forceStyleInventory : bool;
  sq_moduleUniverse : Universe;
}.

(** [load.Diagnostic] *)
Record LoadDiagnostic := mkLoadDiagnostic {
  ld_PackagePath : string;
  ld_Position : string;
  ld_Filename : string;
  ld_Line : Z;
  ld_Column : Z;
  ld_Kind : string;
  ld_Message : string;
}.

(** What the analysis calls: [ctx.Err()] before a selection is prepared, before
    it is analysed and before one of its targets is; the packages of the
    generated entry points that [load] finds; and [service.analyze]. *)
Class SelectionCalls := {
  ctxPrepare : nat → option error;
  ctxSelection : nat → option error;
  ctxTarget : nat → nat → option error;
  DiscoverGeneratedApplicationEntrypoints : Options → list string → outcome error (list string * list LoadDiagnostic);
  analyze : selectionRequest → outcome error Result;
}.
Context `{SelectionCalls}.

(** Positions of a diagnostic of a compiler stage
    (src/compiler/diagnostic/adapt/adapt.go): one without a file, line or column
    of its own has those that it displays. *)
Definition sourceDiagnosticWithCode (workspaceRoot code message : string) (display physical : Provider.Position)
    : Diag.Diagnostic :=
  let own := negb (bool_decide (Provider.Filename physical = "")) in
  Diag.New code SeverityError message
    (SourceMappedLocation workspaceRoot (Provider.Filename display)
      (if own then Provider.Filename physical else Provider.Filename display)
      (Provider.Line display) (Provider.Column display) (Provider.Offset display)
      (if (Provider.Line physical <=? 0)%Z then Provider.Line display else Provider.Line physical)
      (if (Provider.Column physical <=? 0)%Z then Provider.Column display else Provider.Column physical)
      (if own then Provider.Offset physical else Provider.Offset display)).
Definition sourceDiagnostic (workspaceRoot stage kind message : string) (display physical : Provider.Position)
    : Diag.Diagnostic :=
  sourceDiagnosticWithCode workspaceRoot (Code stage kind) message display physical.

(** [diagnosticadapt.Load] *)
Definition adaptLoad (workspaceRoot : string) (items : list LoadDiagnostic) : DiagnosticSet :=
  NewSet ((λ item,
    let position := Provider.mkPosition (ld_Filename item) 0 (ld_Line item) (ld_Column item) in
    sourceDiagnostic workspaceRoot "load" (ld_Kind item) (ld_Message item) position position) <$> items).

(** [versionDiagnostics] (summary.go): edits of open documents get their version. *)
Definition versionEdit (overlay : gmap string OverlayDocument) (edit : TextEdit) : TextEdit :=
  match te_DocumentVersion edit, overlay !! path_clean (lc_Path (te_Location edit)) with
  | None, Some document => mkTextEdit (te_Location edit) (Some (od_Version document)) (te_NewText edit)
  | _, _ => edit
  end.
Definition versionDiagnostics (set : DiagnosticSet) (overlay : gmap string OverlayDocument) : DiagnosticSet :=
  NewSet ((λ item, mkDiagnostic (dg_Code item) (dg_Severity item) (dg_Message item) (dg_Location item) (dg_Related item)
    ((λ fix_, mkFix (sf_Title fix_) (sf_AppliesTo fix_) (versionEdit overlay <$> sf_Edits fix_)) <$> dg_Fixes item))
    <$> Items set).

Record configuredSelectionState := mkSelectionState {
  st_selection : StyleSelection;
  st_request : selectionRequest;
  st_entrypoints : list string;
  st_entrypointDiagnostics : list LoadDiagnostic;
  st_inventory : Result;
}.

Definition selectionPatterns (selection : StyleSelection) : list string :=
  (λ root, "./" +:+ trim_suffix root "/" +:+ "/...") <$> ss_SourceRoots selection.

(** The selection as the options of an analysis read it. *)
Definition buildSelection (selection : StyleSelection) : BuildSelection :=
  mkSelection (ss_Name selection) (ss_GOOS selection) (ss_GOARCH selection)
    (default false (ss_CGOEnabled selection)) (ss_Tags selection).

Definition set_prepare (options : Options) : Options :=
  mkOptions (lo_Dir options) (lo_Env options) (lo_BuildFlags options) (lo_Overlay options) (lo_AuxiliaryPackages options)
    true (lo_PromoteApplicationDependencies options) (lo_Tests options).

Definition with_selection (selection : StyleSelection) (patterns : list string) (generated scope : bool)
    (request : normalizedRequest) : normalizedRequest :=
  mkNormalized _ (nr_root request) (nr_target request) patterns (nr_overlay request) (nr_mode request) (nr_profile request)
    (nr_style request) (Some (buildSelection selection)) (nr_content request) (nr_sequence request) generated scope
    (nr_generationInventory request).

Section analysis.
Context (loadOptions : Options) (entrypoints starters : list string) (request : normalizedRequest).

(** The request of a selection. *)
Definition selectedRequest (selection : StyleSelection) : normalizedRequest :=
  with_selection selection (selectionPatterns selection) (nr_generatedEntrypoint request) (nr_applicationScope request) request.

(** One turn of the loop that prepares the selections. *)
Definition prepareSelection (selection : StyleSelection) : outcome error configuredSelectionState :=
  let selected := selectedRequest selection in
  let options := withAnalysisBuildTag (set_prepare (analysisLoadOptions loadOptions entrypoints starters selected)) in
  match DiscoverGeneratedApplicationEntrypoints options (nr_patterns selected) with
  | Fail discoverErr =>
      Fail (ErrWrap ("discover style build selection " +:+ go_quote (ss_Name selection) +:+
        " generated application entrypoints") discoverErr)
  | Ok (found, problems) =>
      let inventoryRequest := mkSelectionRequest selected true
        (negb (bool_decide (found = [])) || negb (bool_decide (problems = []))) ∅ in
      match analyze inventoryRequest with
      | Fail err => Fail (ErrWrap ("analyze style build selection " +:+ go_quote (ss_Name selection)) err)
      | Ok inventory => Ok (mkSelectionState selection inventoryRequest found problems inventory)
      end
  end.

Fixpoint prepareLoop (index : nat) (selections : list StyleSelection) : outcome error (list configuredSelectionState) :=
  match selections with
  | [] => Ok []
  | selection :: selections' =>
      match ctxPrepare index with
      | Some err => Fail err
      | None => state ← prepareSelection selection; states ← prepareLoop (S index) selections'; Ok (state :: states)
      end
  end.

(** [configuredApplicationTargets]: the packages, and whether they have a
    generated entry point. *)
Definition configuredApplicationTargets (applications generated : list string) : list (string * bool) :=
  let nonempty := filter (λ packagePath, packagePath ≠ "") in
  let values : gmap string bool :=
    foldl (λ m packagePath, <[packagePath := true]> m)
      (foldl (λ m packagePath, <[packagePath := false]> m) ∅ (nonempty applications)) (nonempty generated) in
  sort_slice (on_key fst str_ltb) (map_to_list values).

Definition targetRequest (universe : Universe) (state : configuredSelectionState) (target : string * bool)
    : selectionRequest :=
  mkSelectionRequest
    (with_selection (st_selection state) [target.1] target.2 true (sq_request (st_request state)))
    false (sq_forceStyleInventory (st_request state)) universe.

(** The loop over the targets of a selection. *)
Fixpoint targetsLoop (universe : Universe) (index : nat) (state : configuredSelectionState) (position : nat)
    (targets : list (string * bool)) : outcome error (list selectionResult) :=
  match targets with
  | [] => Ok []
  | target :: targets' =>
      match ctxTarget index position with
      | Some err => Fail err
      | None =>
        match analyze (targetRequest universe state target) with
        | Fail analyzeErr => Fail (ErrWrap ("analyze style build selection " +:+ go_quote (ss_Name (st_selection state)) +:+
            " application " +:+ go_quote target.1) analyzeErr)
        | Ok result =>
            rest ← targetsLoop universe index state (S position) targets';
            Ok (mkSelected (ss_Name (st_selection state)) target.1 result :: rest)
        end
      end
  end.

(** The fields of a result that is only diagnostics. *)
Definition diagnosticsResult (root : string) (sequence : N) (set : DiagnosticSet) : Result :=
  mkResult root sequence set [] [] [] [] [] [] [] empty_model [] [] [] no_application no_plan "" 0 [] [] [] [] false.

(** One turn of the loop that analyses the selections: the results it adds, and
    the scopes. *)
Definition analyzeSelection (universe : Universe) (index : nat) (state : configuredSelectionState)
    : outcome error (list selectionResult * list ApplicationScope) :=
  let name := ss_Name (st_selection state) in
  let inventory := mkSelected name "" (st_inventory state) in
  if negb (SetEmpty (sr_diagnostics (st_inventory state))) then Ok ([inventory], [])
  else if negb (bool_decide (st_entrypointDiagnostics state = [])) then
    Ok ([inventory; mkSelected name "" (diagnosticsResult (nr_root request) (nr_sequence request)
      (versionDiagnostics (adaptLoad (nr_root request) (st_entrypointDiagnostics state)) (nr_overlay request)))], [])
  else
    let targets := configuredApplicationTargets (sr_applicationPackages (st_inventory state)) (st_entrypoints state) in
    if bool_decide (targets = []) then Ok ([inventory], [])
    else
      selectionTargets ← targetsLoop universe index state 0 targets;
      let coverage := applicationSemanticCoverageDiagnostics (nr_root request) (st_inventory state) selectionTargets in
      Ok (inventory :: selectionTargets ++
           (if SetEmpty coverage then [] else [mkSelected name "" (diagnosticsResult "" 0 coverage)]),
          (λ target, mkScope name target.1 target.2) <$> targets).

Fixpoint selectionsLoop (universe : Universe) (index : nat) (states : list configuredSelectionState)
    : outcome error (list selectionResult * list ApplicationScope) :=
  match states with
  | [] => Ok ([], [])
  | state :: states' =>
      match ctxSelection index with
      | Some err => Fail err
      | None =>
          '(results, scopes) ← analyzeSelection universe index state;
          '(results', scopes') ← selectionsLoop universe (S index) states';
          Ok (results ++ results', scopes ++ scopes')
      end
  end.

(** The merged result with what the composition sets at the end. *)
Definition with_composition (scopes : list ApplicationScope) (set : DiagnosticSet) (r : Result) : Result :=
  mkResult (sr_workspaceRoot r) (sr_sequence r) set (sr_annotations r) (sr_providers r) (sr_providerEdges r)
    (sr_autoConfigs r) (sr_modules r) (sr_moduleEdges r) (sr_unassignedPackages r) (sr_moduleModel r)
    (sr_configurations r) (sr_enums r) (actionsFromDiagnostics set) (sr_application r) (sr_plan r) (sr_targetName r)
    (sr_files r) (sr_loadedFiles r) scopes (sr_applicationPackages r) (sr_semanticOccurrences r) (sr_hasPlan r).

Definition analyzeConfiguredSelections (configuration : StyleConfig.Configuration) : outcome error Result :=
  states ← prepareLoop 0 (cfg_BuildSelections configuration);
  let moduleUniverse := NewUniverse (sr_moduleModel ∘ st_inventory <$> states) in
  '(results, scopes) ← selectionsLoop moduleUniverse 0 states;
  if bool_decide (length results = 0%nat) then Ok emptyResult
  else
    unreachable ← unreachableSourceDiagnostics (nr_root request) configuration results;
    Ok (with_composition scopes (Merge [mergeSelectionDiagnostics results; unreachable]) (mergeConfiguredResults results)).
End analysis.
End composition.
