(* ===== verification/SelectionTheorems.v ===== *)
(** What the composition of build selections promises: every item of every
    selection is kept once, every diagnostic is reported with the selections it
    comes from, and a result without diagnostics is one in which every selection,
    every application and every handwritten source was analysed and found clean. *)
From S2P Require Import Prelude GoSort GoStrings GoRoot GoPath GoUrl Provider Modulith Diag LspText LspServer LspPaths GoWalk ServiceRequest ServiceOptions StyleConfig ServiceSelections.

(** ** Items with distinct keys *)

Section unique.
Context {A : Type} (key : A → string).

(** An item whose key no earlier one has. *)
Definition leads (l : list A) (x : A) : Prop := ∃ l1 l2, l = l1 ++ x :: l2 ∧ key x ∉ key <$> l1.

Lemma leads_snoc l x y : leads (l ++ [y]) x ↔ leads l x ∨ x = y ∧ key y ∉ key <$> l.
Proof.
  split.
  - intros (l1 & l2 & Heq & Hk). destruct l2 as [|z l2 _] using rev_ind.
    + apply app_inj_tail in Heq as [-> ->]. by right.
    + rewrite app_comm_cons, app_assoc in Heq. apply app_inj_tail in Heq as [-> _]. left. by exists l1, l2.
  - intros [(l1 & l2 & -> & Hk)|[-> Hk]].
    + exists l1, (l2 ++ [y]). split; [|done]. by rewrite <- app_assoc.
    + by exists l, [].
Qed.

Lemma leads_first l x : x ∈ l → (∀ y, y ∈ l → key y = key x → y = x) → leads l x.
Proof.
  intros Hx Hk. induction l as [|y l IH]; [by apply elem_of_nil in Hx|]. destruct (decide (key y = key x)) as [Heq|Hne].
  - apply Hk in Heq as ->; [|by left]. exists [], l. split; [done|]. by intros ?%elem_of_nil.
  - apply elem_of_cons in Hx as [->|Hx]; [done|]. destruct IH as (l1 & l2 & -> & Hn); [done|intros z Hz; apply Hk; by right|].
    exists (y :: l1), l2. split; [done|]. rewrite fmap_cons, elem_of_cons. naive_solver.
Qed.

(** The items that [foldl addUnique] has kept of those it has seen. *)
Lemma addUnique_all l :
  let '(seen, items) := foldl (addUnique key) (∅, []) l in
  (∀ k, k ∈ seen ↔ k ∈ key <$> l) ∧ NoDup (key <$> items) ∧ (∀ x, x ∈ items ↔ leads l x).
Proof.
  induction l as [|y l IH] using rev_ind.
  { split_and!; [intros k; set_solver|constructor|]. intros x. split; [by intros ?%elem_of_nil|].
    intros (l1 & l2 & Heq & _). by destruct l1. }
  rewrite foldl_snoc. destruct (foldl _ _ l) as [seen items]. destruct IH as (Hs & Hn & Hi).
  unfold addUnique. case_decide as Hk.
  - split_and!; [|done|].
    + intros k. rewrite fmap_app, elem_of_app, Hs. simpl. rewrite list_elem_of_singleton. split; [by left|].
      intros [?| ->]; [done|]. by apply Hs.
    + intros x. rewrite Hi, leads_snoc, <- Hs. naive_solver.
  - split_and!.
    + intros k. rewrite elem_of_union, elem_of_singleton, fmap_app, elem_of_app, Hs. simpl. rewrite list_elem_of_singleton. naive_solver.
    + rewrite fmap_app. apply NoDup_app. split_and!; [done| |apply NoDup_singleton].
      intros k (x & -> & Hx%Hi)%list_elem_of_fmap Heq%list_elem_of_singleton. apply Hk. rewrite <- Heq, Hs.
      destruct Hx as (l1 & l2 & -> & _). rewrite fmap_app. apply elem_of_app. right. by left.
    + intros x. rewrite elem_of_app, list_elem_of_singleton, Hi, leads_snoc, <- Hs. naive_solver.
Qed.

Lemma uniqueBy_exact lists :
  NoDup (key <$> uniqueBy key lists) ∧ ∀ x, x ∈ uniqueBy key lists ↔ leads (concat lists) x.
Proof.
  unfold uniqueBy. assert (∀ s, foldl (foldl (addUnique key)) s lists = foldl (addUnique key) s (concat lists)) as ->.
  { induction lists as [|l lists IH]; intros s; [done|]. cbn [foldl concat]. by rewrite IH, foldl_app. }
  pose proof (addUnique_all (concat lists)) as Hall. destruct (foldl _ _ _) as [seen items]. naive_solver.
Qed.
End unique.

(** ** Diagnostics *)

Section diagnostics.
Context `{UnicodeTables} `{ApplicationResults}.

Lemma NewSet_nil items : NewSet items = [] ↔ items = [].
Proof. etransitivity; [apply sort_stable_nil|]. by destruct items. Qed.

(** The diagnostics of the selections, one after the other. *)
Definition reports (results : list selectionResult) : list (string * string * Diag.Diagnostic) :=
  results ≫= λ selection, (λ item, (rs_id selection, rs_scope selection, item)) <$> Items (sr_diagnostics (rs_result selection)).

(** A list without the later copies of its elements. *)
Definition distinct {A} `{EqDecision A} (l : list A) : list A := foldl appendUnique [] l.

(** The first report of every diagnostic. *)
Definition firstReports (items : list Diag.Diagnostic) : list Diag.Diagnostic :=
  foldl (λ kept item, if decide (Exists (λ k, sameReport k item) kept) then kept else kept ++ [item]) [] items.

(** Everything that is reported about an item. *)
Definition reportsOf (all : list (string * string * Diag.Diagnostic)) (item : Diag.Diagnostic) :=
  filter (λ r, sameReport item r.2) all.
Definition aggregateOf (all : list (string * string * Diag.Diagnostic)) (item : Diag.Diagnostic) : aggregate :=
  let same := reportsOf all item in
  mkAggregate item (distinct (fst ∘ fst <$> same)) (distinct (filter (λ scope, scope ≠ "") (snd ∘ fst <$> same)))
    (distinct (same ≫= (dg_Related ∘ snd))).

Lemma distinct_snoc {A} `{EqDecision A} (l : list A) x : distinct (l ++ [x]) = appendUnique (distinct l) x.
Proof. unfold distinct. by rewrite foldl_snoc. Qed.

Lemma elem_of_distinct {A} `{EqDecision A} (l : list A) x : x ∈ distinct l ↔ x ∈ l.
Proof.
  revert x. induction l as [|y l IH] using rev_ind; intros x; [done|]. rewrite distinct_snoc. unfold appendUnique.
  case_decide as Hy; rewrite ?elem_of_app, ?list_elem_of_singleton, IH; [|done]. rewrite IH in Hy. naive_solver.
Qed.

Lemma aggregateOf_snoc all id scope x item :
  aggregateOf (all ++ [(id, scope, x)]) item =
    if decide (sameReport item x) then report id scope x (aggregateOf all item) else aggregateOf all item.
Proof.
  unfold aggregateOf, reportsOf. rewrite filter_app, filter_cons, filter_nil. simpl.
  case_decide as Hs; [|by rewrite app_nil_r]. unfold report. simpl. f_equal.
  - rewrite fmap_app. simpl. by rewrite distinct_snoc.
  - rewrite fmap_app, filter_app. cbn [fmap list_fmap compose fst snd]. rewrite filter_cons, filter_nil. destruct (decide (scope = "")) as [->|Hne].
    + rewrite decide_False by naive_solver. by rewrite app_nil_r.
    + rewrite decide_True by done. by rewrite distinct_snoc.
  - rewrite bind_app. simpl. rewrite app_nil_r. unfold distinct, appendUniqueRelated. by rewrite foldl_app.
Qed.

#[local] Instance sameReport_equivalence : Equivalence sameReport.
Proof.
  split; [by split|by intros x y [H1 H2]; split|].
  intros x y z [H1 H2] [H3 H4]. split; congruence.
Qed.

(** One report, when the aggregates are those of diagnostics that differ. *)
Lemma addReport_aggregates all id scope x kept :
  ForallOrdPairs (λ a b, ¬ sameReport a b) kept →
  addReport id scope x (aggregateOf all <$> kept) =
    if decide (Exists (λ k, sameReport k x) kept) then aggregateOf (all ++ [(id, scope, x)]) <$> kept
    else (aggregateOf all <$> kept) ++ [report id scope x (mkAggregate x [] [] [])].
Proof.
  induction 1 as [|k kept Hk Hp IH]; cbn [fmap list_fmap addReport].
  { rewrite decide_False; [done|]. by intros ?%Exists_nil. }
  change (ag_item (aggregateOf all k)) with k. rewrite aggregateOf_snoc. destruct (decide (sameReport k x)) as [Hs|Hs].
  - rewrite decide_True by by left. f_equal. apply list_fmap_ext. intros i y Hy%list_elem_of_lookup_2.
    rewrite aggregateOf_snoc, decide_False; [done|]. intros Hy'. rewrite Forall_forall in Hk. apply (Hk y Hy).
    by transitivity x.
  - rewrite IH. destruct (decide (Exists (λ k, sameReport k x) kept)) as [He|He].
    + by rewrite decide_True by by right.
    + rewrite decide_False; [done|]. rewrite Exists_cons. naive_solver.
Qed.

Lemma firstReports_snoc items x :
  firstReports (items ++ [x]) =
    if decide (Exists (λ k, sameReport k x) (firstReports items)) then firstReports items else firstReports items ++ [x].
Proof. unfold firstReports. by rewrite foldl_snoc. Qed.

Lemma firstReports_differ items : ForallOrdPairs (λ a b, ¬ sameReport a b) (firstReports items).
Proof.
  induction items as [|x items IH] using rev_ind; [constructor|]. rewrite firstReports_snoc. case_decide as He; [done|].
  induction IH as [|k kept Hk Hp IH]; [repeat constructor|]. rewrite Exists_cons in He. simpl. constructor.
  - apply Forall_app. split; [done|]. constructor; [naive_solver|constructor].
  - apply IH. naive_solver.
Qed.

Lemma firstReports_same items x : x ∈ items → Exists (λ k, sameReport k x) (firstReports items).
Proof.
  induction items as [|y items IH] using rev_ind; [by intros ?%elem_of_nil|]. rewrite firstReports_snoc.
  intros [Hx| ->%list_elem_of_singleton]%elem_of_app; case_decide as He; try done.
  - by apply IH.
  - apply Exists_app. left. by apply IH.
  - apply Exists_app. right. by constructor.
Qed.

Lemma firstReports_sub items x : x ∈ firstReports items → x ∈ items.
Proof.
  induction items as [|y items IH] using rev_ind; [done|]. rewrite firstReports_snoc. case_decide.
  - intros Hx%IH. apply elem_of_app. by left.
  - rewrite !elem_of_app. naive_solver.
Qed.

Lemma aggregate_all all :
  foldl (λ order r, addReport r.1.1 r.1.2 r.2 order) [] all = aggregateOf all <$> firstReports (snd <$> all).
Proof.
  induction all as [|[[id scope] x] all IH] using rev_ind; [done|]. rewrite foldl_snoc, IH, fmap_app. simpl.
  rewrite firstReports_snoc, (addReport_aggregates _ _ _ _ _ (firstReports_differ _)).
  case_decide as He; [done|]. rewrite fmap_app. simpl. f_equal.
  - apply list_fmap_ext. intros i y Hy%list_elem_of_lookup_2. rewrite aggregateOf_snoc, decide_False; [done|].
    intros Hs. apply He. apply Exists_exists. by exists y.
  - f_equal. rewrite aggregateOf_snoc, decide_True by done. unfold aggregateOf, reportsOf.
    assert (filter (λ r : string * string * Diag.Diagnostic, sameReport x r.2) all = []) as ->; [|done].
    clear -He. induction all as [|r all IH]; [done|]. rewrite filter_cons. rewrite decide_False.
    + apply IH. intros Hex. apply He. apply Exists_exists in Hex as (k & Hk & Hs).
      pose proof (firstReports_same (snd <$> r :: all) k) as Hf. rewrite Exists_exists in *.
      destruct Hf as (k' & Hk' & Hs'); [rewrite fmap_cons; right; by apply firstReports_sub|]. exists k'. split; [done|]. by transitivity k.
    + intros Hs. apply He. pose proof (firstReports_same (snd <$> r :: all) r.2 ltac:(rewrite fmap_cons; by left)) as Hf.
      rewrite Exists_exists in *. destruct Hf as (k & Hk & Hsk). exists k. split; [done|]. by transitivity r.2.
Qed.

Lemma aggregateSelection_reports results order :
  foldl aggregateSelection order results = foldl (λ order r, addReport r.1.1 r.1.2 r.2 order) order (reports results).
Proof.
  unfold reports. revert order. induction results as [|selection results IH]; intros order; [done|].
  cbn [foldl]. rewrite bind_cons, foldl_app, IH. f_equal. unfold aggregateSelection.
  revert order. induction (Items _) as [|item items IHi]; intros o; [done|]. cbn [foldl fmap list_fmap]. by rewrite IHi.
Qed.

(** C22. The diagnostics of all selections are merged as if each were looked up on
    its own: of diagnostics that agree in what they say, where, and in their
    fixes the first is kept, with the related information of all of them, once
    each, the selections that report it and the applications it is reported for. *)
Theorem mergeSelectionDiagnostics_exact (results : list selectionResult) :
  let all := reports results in
  mergeSelectionDiagnostics results = NewSet (mergedItem ∘ aggregateOf all <$> firstReports (snd <$> all)) ∧
  ForallOrdPairs (λ a b, ¬ sameReport a b) (firstReports (snd <$> all)) ∧
  (∀ selection item, selection ∈ results → item ∈ Items (sr_diagnostics (rs_result selection)) →
    ∃ kept, kept ∈ firstReports (snd <$> all) ∧ sameReport kept item ∧ rs_id selection ∈ ag_ids (aggregateOf all kept)).
Proof.
  intros all. unfold mergeSelectionDiagnostics.
  rewrite aggregateSelection_reports. fold all.
  rewrite aggregate_all. split_and!; [by rewrite <- list_fmap_compose|apply firstReports_differ|].
  intros selection item Hsel Hitem. assert ((rs_id selection, rs_scope selection, item) ∈ all) as Hr.
  { unfold all, reports. apply list_elem_of_bind. exists selection. split; [|done]. apply list_elem_of_fmap. by exists item. }
  assert (item ∈ snd <$> all) as Hi by (apply list_elem_of_fmap; by exists (rs_id selection, rs_scope selection, item)).
  pose proof (firstReports_same _ _ Hi) as (kept & Hkept & Hs)%Exists_exists. exists kept. split_and!; [done..|].
  unfold aggregateOf. simpl. apply elem_of_distinct, list_elem_of_fmap.
  exists (rs_id selection, rs_scope selection, item). split; [done|]. apply list_elem_of_filter. done.
Qed.
End diagnostics.

(** ** Sources *)

Section sources.
Context `{UnicodeTables} `{GoUrl} `{SourceFiles}.

Definition sourceRootOf (root relative : string) : string := path_clean (path_join [root; relative]).

(** What the walk of a source root collects, and that it cannot read a directory
    that it enters. *)
Definition collects (generated : list string) (sourceRoot f : string) : Prop :=
  ∃ ns cs, Forall good_name ns ∧ sourceRoot = rooted ns ∧
    visits (skipped (entersSource generated) ns (path_base sourceRoot)) [] (walked_tree sourceRoot) cs Leaf ∧
    f = rooted (ns ++ cs) ∧ kept (handwritten generated) ns (path_base sourceRoot) cs = true.
Definition unreadable (generated : list string) (sourceRoot : string) : Prop :=
  ∃ ns cs err es, Forall good_name ns ∧ sourceRoot = rooted ns ∧
    visits (skipped (entersSource generated) ns (path_base sourceRoot)) [] (walked_tree sourceRoot) cs (Directory (Some err) es) ∧
    skipped (entersSource generated) ns (path_base sourceRoot) cs = false.

Lemma collect_source generated sourceRoot files :
  path_is_abs sourceRoot = true → path_clean sourceRoot = sourceRoot → good_tree (walked_tree sourceRoot) = true →
  match collect (handwritten generated) (entersSource generated) sourceRoot (path_base sourceRoot) (walked_tree sourceRoot) files with
  | Ok files' => ¬ unreadable generated sourceRoot ∧ ∀ f, f ∈ files' ↔ f ∈ files ∨ collects generated sourceRoot f
  | Fail _ => unreadable generated sourceRoot
  end.
Proof.
  intros Habs Hclean Hg. apply path_clean_abs in Habs as (ns & Hns & Heq). rewrite Hclean in Heq.
  pose proof (collect_walked (handwritten generated) (entersSource generated) ns (path_base sourceRoot) Hns []
    (walked_tree sourceRoot) files Hg ltac:(constructor)) as Hw.
  rewrite app_nil_r, <- Heq in Hw. change (entry_name (path_base sourceRoot) []) with (path_base sourceRoot) in Hw.
  assert (∀ ms, Forall good_name ms → sourceRoot = rooted ms → ms = ns) as Hinj by (intros ms Hms Hm; apply rooted_inj; congruence).
  destruct (collect _ _ _ _ _ files) as [files'|err]; simpl in Hw.
  - destruct Hw as [Hw1 Hw2]. split.
    + intros (ms & cs & err & es & Hms & Hm & Hv & Hs). rewrite (Hinj ms Hms Hm) in *. by rewrite (Hw1 _ _ _ Hv) in Hs.
    + intros f. rewrite Hw2. split; (intros [?|Hc]; [by left|right]).
      * destruct Hc as (cs & Hv & -> & Hk). by exists ns, cs.
      * destruct Hc as (ms & cs & Hms & Hm & Hv & -> & Hk). rewrite (Hinj ms Hms Hm) in *. by exists cs.
  - destruct Hw as (cs & es & Hv & Hs). by exists ns, cs, err, es.
Qed.

(** The source roots that nothing stands against. *)
Definition walked_root (root resolvedRoot relative : string) : Prop :=
  sourceRootProblem root resolvedRoot (sourceRootOf root relative) = None.

Lemma sourceRootsLoop_exact root resolvedRoot generated roots files ds :
  path_is_abs root = true → (∀ sourceRoot, good_tree (walked_tree sourceRoot) = true) →
  match sourceRootsLoop root resolvedRoot generated roots files ds with
  | Ok (files', ds') =>
      ds' = ds ++ omap (λ relative, sourceRootProblem root resolvedRoot (sourceRootOf root relative)) roots ∧
      (∀ relative, relative ∈ roots → walked_root root resolvedRoot relative → ¬ unreadable generated (sourceRootOf root relative)) ∧
      ∀ f, f ∈ files' ↔ f ∈ files ∨ ∃ relative, relative ∈ roots ∧ walked_root root resolvedRoot relative ∧
        collects generated (sourceRootOf root relative) f
  | Fail _ => ∃ relative, relative ∈ roots ∧ walked_root root resolvedRoot relative ∧ unreadable generated (sourceRootOf root relative)
  end.
Proof.
  intros Habs Hg. revert files ds. induction roots as [|relative roots IH]; intros files ds; cbn [sourceRootsLoop].
  { split_and!; [by rewrite app_nil_r|by intros ? ?%elem_of_nil|]. intros f. split; [by left|].
    intros [?|(r & ?%elem_of_nil & _)]; done. }
  fold (sourceRootOf root relative). destruct (sourceRootProblem root resolvedRoot (sourceRootOf root relative)) as [problem|] eqn:Hp.
  - specialize (IH files (ds ++ [problem])). destruct (sourceRootsLoop _ _ _ _ _ _) as [[files' ds']|err].
    + destruct IH as (-> & Hr & Hf). split_and!.
      * rewrite omap_cons_option, Hp. by rewrite <- app_assoc.
      * intros r [->|Hin]%elem_of_cons Hw; [|by apply Hr]. unfold walked_root in Hw. congruence.
      * intros f. rewrite Hf. split; (intros [?|(r & Hin & Hw & Hc)]; [by left|right]).
        -- exists r. split; [by right|done].
        -- apply elem_of_cons in Hin as [->|Hin]; [unfold walked_root in Hw; congruence|by exists r].
    + destruct IH as (r & Hin & Hrest). exists r. split; [by right|done].
  - assert (path_is_abs (sourceRootOf root relative) = true ∧ path_clean (sourceRootOf root relative) = sourceRootOf root relative) as [Ha Hc].
    { unfold sourceRootOf. assert (path_is_abs (path_join [root; relative]) = true) as Hj.
      { apply path_is_abs_inv in Habs as [t ->]. unfold path_join. rewrite filter_cons_True by done.
        destruct (filter _ [relative]) as [|x l]; apply path_clean_stays_abs; exact (has_prefix_app "/" _). }
      split; [by apply path_clean_stays_abs|by apply path_clean_clean]. }
    pose proof (collect_source generated _ files Ha Hc (Hg _)) as Hcol.
    destruct (collect _ _ _ _ _ files) as [files1|err].
    2: { exists relative. split_and!; [by left|done|done]. }
    destruct Hcol as [Hun Hfiles]. specialize (IH files1 ds). destruct (sourceRootsLoop _ _ _ _ _ _) as [[files' ds']|err].
    + destruct IH as (-> & Hr & Hf). split_and!.
      * by rewrite omap_cons_option, Hp.
      * intros r [->|Hin]%elem_of_cons Hw; [done|by apply Hr].
      * intros f. rewrite Hf, Hfiles. split.
        -- intros [[?|Hcc]|(r & Hin & Hw & Hcc)]; [by left|right..]; [exists relative|exists r]; split_and!; try done; [by left|by right].
        -- intros [?|(r & [->|Hin]%elem_of_cons & Hw & Hcc)]; [by do 2 left|left; by right|right; by exists r].
    + destruct IH as (r & Hin & Hrest). exists r. split; [by right|done].
Qed.

(** The handwritten sources of a configuration: what stands against a source
    root is reported for it and it is not walked; the inventory fails exactly when
    a directory of another one cannot be read; and it holds, sorted and once each,
    the Go files of those roots that are neither tests nor generated nor in a
    generated root. *)
Theorem selectedHandwrittenSources_exact (root resolvedRoot : string) (configuration : StyleConfig.Configuration) :
  path_is_abs root = true → EvalSymlinks root = Ok resolvedRoot → (∀ sourceRoot, good_tree (walked_tree sourceRoot) = true) →
  let generated := sourceRootOf root <$> cfg_GeneratedRoots configuration in
  let roots := cfg_SourceRoots configuration in
  (is_ok (selectedHandwrittenSources root configuration) = true ↔
    ∀ relative, relative ∈ roots → walked_root root resolvedRoot relative → ¬ unreadable generated (sourceRootOf root relative)) ∧
  ∀ files problems, selectedHandwrittenSources root configuration = Ok (files, problems) →
    problems = omap (λ relative, sourceRootProblem root resolvedRoot (sourceRootOf root relative)) roots ∧
    StronglySorted (λ left right, str_ltb left right = true) files ∧
    ∀ f, f ∈ files ↔ ∃ relative, relative ∈ roots ∧ walked_root root resolvedRoot relative ∧
      collects generated (sourceRootOf root relative) f.
Proof.
  intros Habs Heval Hg generated roots. unfold selectedHandwrittenSources. rewrite Heval.
  pose proof (sourceRootsLoop_exact root resolvedRoot generated roots ∅ [] Habs Hg) as Hl.
  change (sourceRootOf root <$> cfg_GeneratedRoots configuration)
    with ((λ relative, path_clean (path_join [root; relative])) <$> cfg_GeneratedRoots configuration) in (value of generated).
  fold generated.
  destruct (sourceRootsLoop _ _ _ _ _ _) as [[files ds]|err]; simpl.
  - destruct Hl as (-> & Hr & Hf). split; [done|]. intros files' problems [= <- <-]. split_and!; [done| |].
    + apply sort_strings_strict, NoDup_elements.
    + intros f. rewrite elem_of_sort_strings, elem_of_elements, Hf. split; [|by right]. by intros [?%elem_of_empty|].
  - destruct Hl as (r & Hin & Hw & Hu). split; [|done]. split; [done|]. intros Hall. by destruct (Hall r Hin Hw).
Qed.
End sources.

(** ** The composition *)

Section composed.
Context `{UnicodeTables} `{ApplicationResults} `{GoUrl} `{SourceFiles} `{StyleLibraries} `{CaseFold} `{Process} `{!SelectionCalls}.
Context (loadOptions : Options) (entrypoints starters : list string) (request : normalizedRequest).

Notation root := (nr_root request).

(** The applications of a prepared selection. *)
Definition targetsOf (state : configuredSelectionState) : list (string * bool) :=
  configuredApplicationTargets (sr_applicationPackages (st_inventory state)) (st_entrypoints state).

(** A result of the analysis of a selection: its inventory, or an application. *)
Definition analysed (universe : Universe) (state : configuredSelectionState) (result : Result) : Prop :=
  result = st_inventory state ∨
  ∃ target, target ∈ targetsOf state ∧ analyze (targetRequest universe state target) = Ok result.

(** Nothing is wrong with a selection: its inventory and its entry points, each
    of its applications, and what the applications leave out. *)
Definition clean (universe : Universe) (state : configuredSelectionState) : Prop :=
  sr_diagnostics (st_inventory state) = [] ∧ st_entrypointDiagnostics state = [] ∧
  (∀ target, target ∈ targetsOf state →
    ∃ result, analyze (targetRequest universe state target) = Ok result ∧ sr_diagnostics result = []) ∧
  (targetsOf state ≠ [] → ∀ occurrence, occurrence ∈ sr_semanticOccurrences (st_inventory state) →
    ∃ target result reached, target ∈ targetsOf state ∧ analyze (targetRequest universe state target) = Ok result ∧
      reached ∈ sr_semanticOccurrences result ∧ semanticOccurrenceKey reached = semanticOccurrenceKey occurrence).

Lemma merged_nil results :
  mergeSelectionDiagnostics results = [] ↔ ∀ selection, selection ∈ results → sr_diagnostics (rs_result selection) = [].
Proof.
  unfold mergeSelectionDiagnostics. rewrite NewSet_nil.
  rewrite aggregateSelection_reports, aggregate_all, !fmap_nil_iff. split.
  - intros Hn selection Hsel. destruct (sr_diagnostics (rs_result selection)) as [|item items] eqn:E; [done|].
    assert (item ∈ snd <$> reports results) as Hi.
    { apply list_elem_of_fmap. exists (rs_id selection, rs_scope selection, item). split; [done|].
      apply list_elem_of_bind. exists selection. split; [|done]. apply list_elem_of_fmap. exists item. split; [done|].
      rewrite E. by left. }
    apply firstReports_same in Hi. rewrite Hn in Hi. by apply Exists_nil in Hi.
  - intros Hall. destruct (firstReports _) as [|x l] eqn:E; [done|].
    assert (x ∈ snd <$> reports results) as (r & _ & Hr)%list_elem_of_fmap by (apply firstReports_sub; rewrite E; by left).
    apply list_elem_of_bind in Hr as (selection & Hr & Hsel). rewrite (Hall _ Hsel) in Hr. by apply elem_of_nil in Hr.
Qed.

Lemma targetsLoop_results universe index state position targets results :
  targetsLoop universe index state position targets = Ok results →
  Forall2 (λ target selected, ∃ result, analyze (targetRequest universe state target) = Ok result ∧
    selected = mkSelected (ss_Name (st_selection state)) target.1 result) targets results.
Proof.
  revert position results. induction targets as [|target targets IH]; intros position results; cbn [targetsLoop].
  - intros [= <-]. constructor.
  - destruct (ctxTarget index position); [done|]. destruct (analyze _) as [result|err] eqn:E; [|done].
    intros (rest & Hrest & [= <-])%outcome_bind_ok. constructor; [by exists result|by eapply IH].
Qed.

Lemma coverage_nil inventory targets :
  applicationSemanticCoverageDiagnostics root inventory targets = [] ↔
  ∀ occurrence, occurrence ∈ sr_semanticOccurrences inventory →
    ∃ target reached, target ∈ targets ∧ reached ∈ sr_semanticOccurrences (rs_result target) ∧
      semanticOccurrenceKey reached = semanticOccurrenceKey occurrence.
Proof.
  unfold applicationSemanticCoverageDiagnostics. rewrite NewSet_nil, fmap_nil_iff. split.
  - intros Hf occurrence Hin. destruct (decide (semanticOccurrenceKey occurrence ∈ (list_to_set
      (semanticOccurrenceKey <$> (targets ≫= λ target, sr_semanticOccurrences (rs_result target))) : gset string))) as [Hr|Hr].
    + apply elem_of_list_to_set, list_elem_of_fmap in Hr as (reached & Heq & (target & Hr & Ht)%list_elem_of_bind).
      by exists target, reached.
    + assert (occurrence ∈ ([] : list semanticOccurrence)) as []%elem_of_nil. rewrite <- Hf. by apply list_elem_of_filter.
  - intros Hall. destruct (filter _ _) as [|occurrence l] eqn:E; [done|].
    assert (occurrence ∈ occurrence :: l) as Hin by by left. rewrite <- E in Hin.
    apply list_elem_of_filter in Hin as [Hn Hin]. destruct Hn. destruct (Hall _ Hin) as (target & reached & Ht & Hr & Heq).
    apply elem_of_list_to_set, list_elem_of_fmap. exists reached. split; [done|]. apply list_elem_of_bind. by exists target.
Qed.

Lemma SetEmpty_nil set : SetEmpty set = true ↔ set = [].
Proof. unfold SetEmpty. rewrite bool_decide_eq_true. by rewrite length_zero_iff_nil. Qed.

(** The results of a selection whose applications were analysed. *)
Lemma selection_results universe state selected :
  let inventory := mkSelected (ss_Name (st_selection state)) "" (st_inventory state) in
  let coverage := applicationSemanticCoverageDiagnostics root (st_inventory state) selected in
  let results := inventory :: selected ++ (if SetEmpty coverage then []
    else [mkSelected (ss_Name (st_selection state)) "" (diagnosticsResult "" 0 coverage)]) in
  sr_diagnostics (st_inventory state) = [] → st_entrypointDiagnostics state = [] → targetsOf state ≠ [] →
  Forall2 (λ target selected, ∃ result, analyze (targetRequest universe state target) = Ok result ∧
    selected = mkSelected (ss_Name (st_selection state)) target.1 result) (targetsOf state) selected →
  ((∀ s, s ∈ results → sr_diagnostics (rs_result s) = []) ↔ clean universe state) ∧
  (clean universe state → ∀ result, (∃ s, s ∈ results ∧ rs_result s = result) ↔ analysed universe state result).
Proof.
  intros inventory coverage results Hinv Hprob Hne Hsel.
  assert (∀ target, target ∈ targetsOf state → ∃ s, s ∈ selected ∧ analyze (targetRequest universe state target) = Ok (rs_result s)) as F1.
  { intros target (i & Hi)%list_elem_of_lookup_1. destruct (Forall2_lookup_l _ _ _ _ _ Hsel Hi) as (s & Hs & result & Ha & ->).
    eexists. split; [by eapply list_elem_of_lookup_2|done]. }
  assert (∀ s, s ∈ selected → ∃ target, target ∈ targetsOf state ∧ analyze (targetRequest universe state target) = Ok (rs_result s)) as F2.
  { intros s (i & Hi)%list_elem_of_lookup_1. destruct (Forall2_lookup_r _ _ _ _ _ Hsel Hi) as (target & Ht & result & Ha & ->).
    exists target. split; [by eapply list_elem_of_lookup_2|done]. }
  assert (coverage = [] ↔ ∀ occurrence, occurrence ∈ sr_semanticOccurrences (st_inventory state) →
    ∃ target result reached, target ∈ targetsOf state ∧ analyze (targetRequest universe state target) = Ok result ∧
      reached ∈ sr_semanticOccurrences result ∧ semanticOccurrenceKey reached = semanticOccurrenceKey occurrence) as Hcov.
  { unfold coverage. rewrite coverage_nil. split; intros Hall occurrence Hin; specialize (Hall occurrence Hin).
    - destruct Hall as (s & reached & (target & Ht & Ha)%F2 & Hr & Heq). by exists target, (rs_result s), reached.
    - destruct Hall as (target & result & reached & Ht & Ha & Hr & Heq). destruct (F1 _ Ht) as (s & Hs & Ha'). exists s, reached.
      rewrite Ha in Ha'. injection Ha' as ->. done. }
  assert ((∀ s, s ∈ results → sr_diagnostics (rs_result s) = []) ↔ (∀ s, s ∈ selected → sr_diagnostics (rs_result s) = []) ∧ coverage = []) as Hres.
  { unfold results. split.
    - intros Hall. split; [intros s Hs; apply Hall; right; apply elem_of_app; by left|].
      destruct (SetEmpty coverage) eqn:E; [by apply SetEmpty_nil|]. 
      refine (Hall (mkSelected (ss_Name (st_selection state)) "" (diagnosticsResult "" 0 coverage)) _).
      right. apply elem_of_app. right. by left.
    - intros [Hall Hc] s [->|[Hs|Hs]%elem_of_app]%elem_of_cons; [done|by apply Hall|].
      rewrite Hc in Hs. by apply elem_of_nil in Hs. }
  assert (clean universe state ↔ (∀ s, s ∈ selected → sr_diagnostics (rs_result s) = []) ∧ coverage = []) as Hclean.
  { unfold clean. rewrite Hcov. split.
    - intros (_ & _ & Ht & Hc). split; [|by apply Hc]. intros s (target & Hin & Ha)%F2. destruct (Ht _ Hin) as (r & Hr & Hd). congruence.
    - intros [Hall Hc]. split_and!; [done..| |done]. intros target (s & Hs & Ha)%F1. exists (rs_result s). split; [done|by apply Hall]. }
  split; [by rewrite Hres, Hclean|]. intros [_ Hc]%Hclean result. unfold results, analysed. rewrite Hc. cbn [SetEmpty length bool_decide].
  rewrite app_nil_r. split.
  - intros (s & [->|Hs]%elem_of_cons & <-); [by left|right]. by apply F2.
  - intros [->|(target & Ht & Ha)]; [exists inventory; split; [by left|done]|]. destruct (F1 _ Ht) as (s & Hs & Ha').
    exists s. split; [by right|]. congruence.
Qed.

(** One selection adds results without diagnostics exactly when it is clean, and
    then those of its analysis. *)
Lemma analyzeSelection_clean universe index state results scopes :
  analyzeSelection request universe index state = Ok (results, scopes) →
  results ≠ [] ∧ ((∀ selected, selected ∈ results → sr_diagnostics (rs_result selected) = []) ↔ clean universe state) ∧
  (clean universe state → ∀ result, (∃ selected, selected ∈ results ∧ rs_result selected = result) ↔ analysed universe state result).
Proof.
  unfold analyzeSelection. fold (targetsOf state). unfold clean, analysed.
  set (inventory := mkSelected (ss_Name (st_selection state)) "" (st_inventory state)).
  destruct (SetEmpty (sr_diagnostics (st_inventory state))) eqn:Hempty; cbn [negb].
  2: { intros [= <- <-]. split; [done|]. assert (sr_diagnostics (st_inventory state) ≠ []) as Hne.
       { intros Hn%SetEmpty_nil. congruence. }
       split; [|naive_solver]. split; [|naive_solver]. intros Hall. destruct Hne. apply (Hall inventory). by left. }
  apply SetEmpty_nil in Hempty. case_bool_decide as Hprob; cbn [negb].
  2: { intros [= <- <-]. split; [done|]. split; [|naive_solver]. split; [|naive_solver]. intros Hall. exfalso.
       match goal with _ : context [?i :: ?p :: []] |- _ => specialize (Hall p ltac:(right; by left)) end.
       by apply NewSet_nil, fmap_nil_iff, NewSet_nil, fmap_nil_iff in Hall. }
  case_bool_decide as Htargets.
  { intros [= <- <-]. rewrite Htargets. split; [done|]. split.
    - split; [|by intros (Hd & _) s ->%list_elem_of_singleton].
      intros _. split_and!; [done..|by intros ? ?%elem_of_nil|done].
    - intros _ result. split; [intros (s & ->%list_elem_of_singleton & <-); by left|].
      intros [->|(t & []%elem_of_nil & _)]. exists inventory. split; [by left|done]. }
  intros (selected & Hsel%targetsLoop_results & Hrest)%outcome_bind_ok. injection Hrest as <- <-. split; [done|].
  by apply (selection_results universe state selected).
Qed.

(** The loop over the selections. *)
Lemma selectionsLoop_clean universe index states results scopes :
  selectionsLoop request universe index states = Ok (results, scopes) →
  (results = [] ↔ states = []) ∧
  ((∀ selected, selected ∈ results → sr_diagnostics (rs_result selected) = []) ↔ Forall (clean universe) states) ∧
  (Forall (clean universe) states → ∀ result, (∃ selected, selected ∈ results ∧ rs_result selected = result) ↔
    ∃ state, state ∈ states ∧ analysed universe state result).
Proof.
  revert index results scopes. induction states as [|state states IH]; intros index results scopes; cbn [selectionsLoop].
  { intros [= <- <-]. split; [done|]. split; [split; [by constructor|by intros _ ? ?%elem_of_nil]|]. intros _ result.
    split; [intros (? & []%elem_of_nil & _)|intros (? & []%elem_of_nil & _)]. }
  destruct (ctxSelection index); [done|].
  intros ([results1 scopes1] & Hone & ([results2 scopes2] & Hmore & [= <- <-])%outcome_bind_ok)%outcome_bind_ok.
  apply analyzeSelection_clean in Hone as (Hne & Hclean & Hres). apply IH in Hmore as (_ & Hclean2 & Hres2). split.
  { split; [|done]. intros Happ%app_nil. naive_solver. }
  rewrite Forall_cons, <- Hclean, <- Hclean2. split.
  { split; [intros Hall; split; intros s Hs; apply Hall, elem_of_app; tauto|]. intros [Ha Hb] s [Hs|Hs]%elem_of_app; auto. }
  intros [Hc1 Hc2] result. pose proof (Hres (proj1 Hclean Hc1) result) as Hr1. pose proof (Hres2 (proj1 Hclean2 Hc2) result) as Hr2. split.
  - intros (s & [Hs|Hs]%elem_of_app & Heq).
    + exists state. split; [by left|]. apply Hr1. by exists s.
    + destruct (proj1 Hr2 ltac:(by exists s)) as (state' & Hin & Ha). exists state'. split; [by right|done].
  - intros (state' & [->|Hin]%elem_of_cons & Ha).
    + destruct (proj2 Hr1 Ha) as (s & Hs & Heq). exists s. split; [apply elem_of_app; by left|done].
    + destruct (proj2 Hr2 ltac:(by exists state')) as (s & Hs & Heq). exists s. split; [apply elem_of_app; by right|done].
Qed.

Lemma prepareLoop_prepared index selections states :
  prepareLoop loadOptions entrypoints starters request index selections = Ok states →
  Forall2 (λ selection state, prepareSelection loadOptions entrypoints starters request selection = Ok state) selections states.
Proof.
  revert index states. induction selections as [|selection selections IH]; intros index states; cbn [prepareLoop].
  - intros [= <-]. constructor.
  - destruct (ctxPrepare index); [done|]. intros (state & Hs & (states' & Hr & [= <-])%outcome_bind_ok)%outcome_bind_ok.
    constructor; [done|]. by eapply IH.
Qed.

Lemma Merge_two left right : Merge [left; right] = [] ↔ left = [] ∧ right = [].
Proof.
  unfold Merge. rewrite NewSet_nil. cbn [concat fmap list_fmap Items]. rewrite app_nil_r. apply app_nil.
Qed.

Lemma unreachable_nil configuration results set :
  unreachableSourceDiagnostics root configuration results = Ok set →
  set = [] ↔ ∃ files, selectedHandwrittenSources root configuration = Ok (files, []) ∧
    ∀ f, f ∈ files → ∃ selected, selected ∈ results ∧ f ∈ path_clean <$> sr_loadedFiles (rs_result selected).
Proof.
  unfold unreachableSourceDiagnostics. destruct (selectedHandwrittenSources root configuration) as [[files problems]|err]; [|done].
  intros [= <-]. rewrite NewSet_nil. rewrite app_nil, fmap_nil_iff. split.
  - intros [-> Hf]. exists files. split; [done|]. intros f Hin.
    destruct (decide (f ∈ (list_to_set (path_clean <$> (results ≫= λ result, sr_loadedFiles (rs_result result))) : gset string))) as [Hr|Hr].
    + apply elem_of_list_to_set, list_elem_of_fmap in Hr as (file & -> & (selected & Hfile & Hs)%list_elem_of_bind).
      exists selected. split; [done|]. by apply list_elem_of_fmap_2.
    + assert (f ∈ ([] : list string)) as []%elem_of_nil. rewrite <- Hf. by apply list_elem_of_filter.
  - intros (files' & [= <- ->] & Hall). split; [done|]. destruct (filter _ files) as [|f l] eqn:E; [done|].
    assert (f ∈ f :: l) as Hin by by left. rewrite <- E in Hin. apply list_elem_of_filter in Hin as [Hn Hin]. destruct Hn.
    destruct (Hall f Hin) as (selected & Hs & (file & -> & Hfile)%list_elem_of_fmap).
    apply elem_of_list_to_set, list_elem_of_fmap. exists file. split; [done|]. apply list_elem_of_bind. by exists selected.
Qed.

(** C12. A configured analysis that returns has prepared every build selection,
    and its result has no diagnostics exactly when there is no selection, or all
    of this holds: each selection is [clean], that is, its inventory, its generated
    entry points and each of its applications are, and, if it has applications at
    all, these reach every contribution of its inventory (a selection without
    applications is not asked to have its contributions reached); the handwritten
    sources of the configuration are listed without a problem; and each of them was
    loaded by the inventory or an application of one of the selections. *)
Theorem analyzeConfiguredSelections_clean (configuration : StyleConfig.Configuration) (result : Result) :
  analyzeConfiguredSelections loadOptions entrypoints starters request configuration = Ok result →
  ∃ states,
    Forall2 (λ selection state, prepareSelection loadOptions entrypoints starters request selection = Ok state)
      (cfg_BuildSelections configuration) states ∧
    let universe := NewUniverse (sr_moduleModel ∘ st_inventory <$> states) in
    (sr_diagnostics result = [] ↔ states = [] ∨
      Forall (clean universe) states ∧
      ∃ files, selectedHandwrittenSources root configuration = Ok (files, []) ∧
        ∀ f, f ∈ files → ∃ state loaded, state ∈ states ∧ analysed universe state loaded ∧
          f ∈ path_clean <$> sr_loadedFiles loaded).
Proof.
  unfold analyzeConfiguredSelections. intros (states & Hp%prepareLoop_prepared & Hrest)%outcome_bind_ok.
  exists states. split; [done|]. cbv zeta in *.
  set (universe := NewUniverse (sr_moduleModel ∘ st_inventory <$> states)) in *.
  apply outcome_bind_ok in Hrest as ([results scopes] & Hl & Hr). apply selectionsLoop_clean in Hl as (Hnil & Hclean & Hres).
  case_bool_decide as Hlen.
  { injection Hr as <-. apply length_zero_iff_nil, Hnil in Hlen. split; [by left|done]. }
  apply outcome_bind_ok in Hr as (unreachable & Hun%unreachable_nil & [= <-]).
  change (sr_diagnostics (with_composition ?s ?d ?r)) with d.
  rewrite Merge_two, merged_nil, Hclean, Hun. split.
  - intros [Hall (files & Hf & Hreach)]. right. split; [done|]. exists files. split; [done|]. intros f Hin.
    destruct (Hreach f Hin) as (selected & Hs & Hfile). destruct (proj1 (Hres Hall _) ltac:(by exists selected)) as (state & Hst & Ha).
    by exists state, (rs_result selected).
  - intros [Hs|[Hall (files & Hf & Hreach)]]; [destruct Hlen; by rewrite (proj2 Hnil Hs)|]. split; [done|]. exists files.
    split; [done|]. intros f Hin. destruct (Hreach f Hin) as (state & loaded & Hst & Ha & Hfile).
    destruct (proj2 (Hres Hall loaded) ltac:(by exists state)) as (selected & Hs & <-). by exists selected.
Qed.
End composed.

(** ** Merged families *)

Section families.
Context `{UnicodeTables} `{ApplicationResults}.

(** The items of a family in the merged result: the first of every key. *)
Definition merged_family {A} (key : A → string) (family : Result → list A) (results : list selectionResult)
    (merged : list A) : Prop :=
  NoDup (key <$> merged) ∧ ∀ x, x ∈ merged ↔ leads key (concat ((family ∘ rs_result) <$> results)) x.

Lemma merged_family_sorted {A} (key : A → string) (less : A → A → bool) family results :
  merged_family key family results (sort_slice less (uniqueBy key ((family ∘ rs_result) <$> results))).
Proof.
  destruct (uniqueBy_exact key ((family ∘ rs_result) <$> results)) as [Hn Hx]. unfold sort_slice. split.
  - by rewrite sort_stable_perm.
  - intros x. by rewrite elem_of_sort_stable.
Qed.

(** Whatever the selections give, the merged result lists each annotation,
    provider, edge, configuration, enum and module of any of them once, the first
    that came, and the files that were loaded, cleaned, sorted and once each. *)
Theorem mergeConfiguredResults_exact (first : selectionResult) (rest : list selectionResult) :
  let results := first :: rest in
  let merged := mergeConfiguredResults results in
  merged_family annotationKey sr_annotations results (sr_annotations merged) ∧
  merged_family sv_ID sr_providers results (sr_providers merged) ∧
  merged_family providerEdgeKey sr_providerEdges results (sr_providerEdges merged) ∧
  merged_family autoConfigurationKey sr_autoConfigs results (sr_autoConfigs merged) ∧
  merged_family sm_ID sr_modules results (sr_modules merged) ∧
  merged_family moduleEdgeKey sr_moduleEdges results (sr_moduleEdges merged) ∧
  merged_family cs_SymbolID sr_configurations results (sr_configurations merged) ∧
  merged_family en_SymbolID sr_enums results (sr_enums merged) ∧
  StronglySorted (λ left right, str_ltb left right = true) (sr_loadedFiles merged) ∧
  sr_files merged = Z.of_nat (length (sr_loadedFiles merged)) ∧
  ∀ f, f ∈ sr_loadedFiles merged ↔ ∃ selected, selected ∈ results ∧ f ∈ path_clean <$> sr_loadedFiles (rs_result selected).
Proof.
  intros results merged. split_and!; try apply merged_family_sorted.
  - apply sort_strings_strict. rewrite <- (list_fmap_id (uniqueBy _ _)). apply uniqueBy_exact.
  - unfold merged, results. cbn [mergeConfiguredResults sr_files sr_loadedFiles]. f_equal. symmetry. apply length_sort_stable.
  - intros f. unfold merged, results. cbn [mergeConfiguredResults sr_loadedFiles]. fold results.
    rewrite elem_of_sort_strings, (proj2 (uniqueBy_exact id _)). split.
    + intros (l1 & l2 & Heq & _). assert (f ∈ l1 ++ f :: l2) as Hf by (apply elem_of_app; right; by left).
      rewrite <- Heq in Hf. apply elem_of_concat in Hf as (l & (selected & -> & Hs)%list_elem_of_fmap & Hf). by exists selected.
    + intros (selected & Hs & Hf). apply leads_first; [|done]. apply elem_of_concat. eexists. split; [|exact Hf].
      apply list_elem_of_fmap. by exists selected.
Qed.
End families.

(** ** The theorems applied *)

#[local] Instance plain_results : ApplicationResults := {|
  application_model := unit; generation_plan := unit; no_application := tt; no_plan := tt |}.

(** A workspace at /m with one source root. *)
#[local] Instance shop_files : SourceFiles := {|
  EvalSymlinks := Ok;
  Lstat := λ path, if decide (path = "/m/app") then Ok DirectoryFile else Fail "no such file";
  walked_tree := λ path, if decide (path = "/m/app")
    then Directory None [("gen", Directory (Some (ErrNew "denied")) []); ("main.go", Leaf); ("main_test.go", Leaf)]
    else Leaf;
  generatedGoFile := λ _, false;
|}.

Definition shop_configuration : StyleConfig.Configuration :=
  mkConfiguration 2 "java-structured" ["app"] ["app/gen"] [linux_selection ["app"]] error_rules [] [] [] [].

Lemma shop_tree_good sourceRoot : good_tree (walked_tree sourceRoot) = true.
Proof. unfold walked_tree, shop_files. case_decide; vm_compute; reflexivity. Qed.

Lemma selectedHandwrittenSources_exact_witness :
  @selectedHandwrittenSources ascii_tables plain_urls shop_files "/m" shop_configuration = Ok (["/m/app/main.go"], []) ∧
  StronglySorted (λ left right, str_ltb left right = true) ["/m/app/main.go"].
Proof.
  split; [vm_compute; reflexivity|].
  exact (proj1 (proj2 (proj2 (@selectedHandwrittenSources_exact ascii_tables plain_urls shop_files "/m" "/m" shop_configuration
    eq_refl eq_refl shop_tree_good) ["/m/app/main.go"] [] ltac:(vm_compute; reflexivity)))).
Defined.

Definition shop_request : @normalizedRequest (@validated_styles ascii_tables no_patterns) :=
  @mkNormalized (@validated_styles ascii_tables no_patterns) "/m" "" [] ∅ AnalysisValidate "java-structured"
    None None "" 0 false false false.

Definition shop_occurrence : semanticOccurrence := mkOccurrence "app.New" "provider" "example.com/m/app" "/m/app/main.go" 3 1 20.

(** The analyses of the one selection: its inventory and its application. *)
Definition shop_result (applications : list string) : Result :=
  mkResult "/m" 0 [] [] [] [] [] [] [] [] empty_model [] [] [] tt tt "" 1 ["/m/app/main.go"] [] applications [shop_occurrence] false.

#[local] Instance shop_calls : @SelectionCalls ascii_tables plain_results no_patterns := {|
  ctxPrepare := λ _, None;
  ctxSelection := λ _, None;
  ctxTarget := λ _ _, None;
  DiscoverGeneratedApplicationEntrypoints := λ _ _, Ok ([], []);
  analyze := λ request, Ok (shop_result (if sq_styleInventory request then ["example.com/m/app"] else []));
|}.

Definition shop_options : Options := mkOptions "/m" None [] ∅ [] false false false.

Definition shop_analysed : Result :=
  mkResult "/m" 0 [] [] [] [] [] [] [] [] empty_model [] [] [] tt tt "" 1 ["/m/app/main.go"]
    [mkScope "linux-amd64" "example.com/m/app" false] ["example.com/m/app"] [shop_occurrence] false.

Lemma shop_clean :
  @analyzeConfiguredSelections ascii_tables plain_results plain_urls shop_files no_patterns ascii_fold sample_process shop_calls
    shop_options [] [] shop_request shop_configuration = Ok shop_analysed.
Proof. vm_compute. reflexivity. Qed.

Lemma analyzeConfiguredSelections_clean_witness :
  ∃ states : list (@configuredSelectionState ascii_tables plain_results no_patterns),
    length states = 1%nat ∧
    ∃ files, @selectedHandwrittenSources ascii_tables plain_urls shop_files "/m" shop_configuration = Ok (files, []).
Proof.
  destruct (@analyzeConfiguredSelections_clean ascii_tables plain_results plain_urls shop_files no_patterns ascii_fold sample_process
    shop_calls shop_options [] [] shop_request shop_configuration shop_analysed shop_clean) as (states & Hp & Hiff).
  pose proof (Forall2_length _ _ _ Hp) as Hlen. exists states. split; [symmetry; exact Hlen|].
  destruct (proj1 Hiff eq_refl) as [->|[_ (files & Hf & _)]]; [discriminate Hlen|]. exists files. exact Hf.
Defined.

(** Equal fixes are only left out next to each other: one that another fix with
    the same title separates from its copy is offered twice. *)
Example equal_fixes_kept :
  let location := mkLocation "" "" (mkRange (Diag.mkPosition 1 1 0) (Diag.mkPosition 1 2 1)) None in
  let first := mkFix "rename" None [mkTextEdit location None "a"] in
  let second := mkFix "rename" None [mkTextEdit location None "b"] in
  actionsFromDiagnostics [mkDiagnostic "" "" "" location [] [first; second; first]] = [first; second; first].
Proof. vm_compute. reflexivity. Qed.
