(* ===== verification/ModuleEnv.v ===== *)
(** src/internal/moduleenv/moduleenv.go: the module or workspace that the go
    command would use for a directory, the modules of its vendor tree as
    [vendor/modules.txt] lists them, and the environment that keeps the go command
    offline.

    A loop that climbs to the parent directory has the length of the path as
    fuel, which is enough ([climb_nearest]). Symbolic links, the status and the
    content of files, golang.org/x/mod and the run of the go command are classes.
    The paths are those of Unix. *)
From S2P Require Import Prelude GoSort GoStrings GoPath GoUrl LspServer LspPaths ServiceOptions.

Definition maximumWorkspaceBytes : Z := 4194304.
Definition maximumVendorBytes : Z := 16777216.
Definition maximumVendorModules : nat := 10000.
Definition maximumGoStderrBytes : nat := 262144.

(** ** Data *)

Record WorkspaceModule := mkWorkspaceModule { wm_Path : string; wm_Root : string }.

Record VendoredModule := mkVendored {
  vm_Path : string;
  vm_Version : string;
  vm_Directory : string;
  vm_ReplacementPath : string;
  vm_ReplacementVersion : string;
  vm_ReplacementDirectory : string;
  vm_LocalReplacement : bool;
}.

Record replacement := mkReplacement { rp_Path : string; rp_Version : string; rp_Local : bool }.

(** A context: whether it is nil, and what its calls of [Err] return in turn. *)
Definition context : Type := option (nat → option error).

(** What [os.Stat] tells of a file. *)
Record fileInfo := mkInfo { fi_regular : bool; fi_dir : bool; fi_size : Z }.

(** The environment of the process, [filepath.EvalSymlinks], [os.Stat], and the
    methods of the [os.Root] of a directory, by the directory and the name. *)
Class ModuleFiles := {
  environ : list string;
  EvalSymlinks : string → outcome error string;
  os_Stat : string → outcome error fileInfo;
  OpenRoot : string → option error;
  RootStat : string → string → outcome error fileInfo;
  RootReadFile : string → string → string * option error;
  RootClose : string → option error;
}.

(** golang.org/x/mod/modfile ([ParseWork] gives the paths of the use directives)
    and golang.org/x/mod/module ([module.Check] is [CheckModule]). *)
Class ModFile := {
  ParseWork : string → string → outcome error (list string);
  ModulePath : string → string;
  CheckPath : string → option error;
  CheckImportPath : string → option error;
  CheckModule : string → string → option error;
}.

(** [go list -mod=vendor -m -json] in a directory and an environment: what it
    writes to its standard error, write by write, and the error of its run. *)
Class GoCommand := { go_list_vendor : string → list string → list string * option error }.

(** The [Write] of [boundedBuffer]. *)
Definition boundedWrite (limit : nat) (buffer value : string) : string :=
  let remaining := (limit - String.length buffer)%nat in
  if (0 <? remaining)%nat then buffer +:+ str_take (Nat.min remaining (String.length value)) value
  else buffer.

(** [strings.Fields] *)
Fixpoint fieldsLoop `{UnicodeTables} (fuel : nat) (field s : string) : list string :=
  let flush := if decide (field = "") then [] else [field] in
  match fuel with
  | O => flush
  | S fuel =>
      if decide (s = "") then flush
      else
        let '(character, width) := decode_rune s in
        if is_space character then flush ++ fieldsLoop fuel "" (str_drop width s)
        else fieldsLoop fuel (field +:+ str_take width s) (str_drop width s)
  end.
Definition fields `{UnicodeTables} (s : string) : list string := fieldsLoop (S (String.length s)) "" s.

(** [strings.ReplaceAll(s, "\r\n", "\n")] *)
Fixpoint dropReturns (s : string) : string :=
  match s with
  | EmptyString => EmptyString
  | String c rest =>
      if decide (c = chr 13) then
        match rest with
        | String d _ => if decide (d = newline) then dropReturns rest else String c (dropReturns rest)
        | EmptyString => String c EmptyString
        end
      else String c (dropReturns rest)
  end.

(** The first directory from [current] upwards that passes the probe; the second
    level of option is the fuel. *)
Fixpoint climb (fuel : nat) (probe : string → bool) (current : string) : option (option string) :=
  match fuel with
  | O => None
  | S fuel =>
      if probe current then Some (Some current)
      else
        let parent := path_dir current in
        if decide (parent = current) then Some None else climb fuel probe parent
  end.
Definition firstAbove (probe : string → bool) (current : string) : option string :=
  default None (climb (S (String.length current)) probe current).

Definition joinError (e : error) (other : option error) : error := from_option (ErrJoin e) e other.
Definition or_wrap {A} (message : string) (m : outcome error A) : outcome error A :=
  match m with Ok a => Ok a | Fail e => Fail (ErrWrap message e) end.
Definition checked (e : option error) (message : string) : outcome error () :=
  match e with Some e => Fail (ErrWrap message e) | None => Ok () end.

Section moduleenv.
Context `{UnicodeTables} `{CaseFold} `{GoUrl} `{ModuleFiles} `{ModFile} `{GoCommand}.

(** ** Files and directories *)

Definition readBoundedFile (root name : string) (maximum : Z) : outcome error string :=
  match OpenRoot root with
  | Some err => Fail err
  | None =>
      match RootStat root name with
      | Fail statErr => Fail (joinError statErr (RootClose root))
      | Ok info =>
          if negb (fi_regular info) || (maximum <? fi_size info)%Z then
            Fail (joinError (ErrNew (name +:+ " is not a regular file of at most " +:+ itoa maximum +:+ " bytes"))
                    (RootClose root))
          else
            let '(content, readErr) := RootReadFile root name in
            match errors_join readErr (RootClose root) with
            | Some err => Fail err
            | None =>
                if (maximum <? Z.of_nat (String.length content))%Z then
                  Fail (ErrNew (name +:+ " exceeds " +:+ itoa maximum +:+ " bytes"))
                else Ok content
            end
      end
  end.

Definition canonicalDirectory (path : string) : outcome error string :=
  EvalSymlinks (path_clean (filepath_abs path)).

Definition regularFile (path : string) : bool :=
  match os_Stat path with Ok info => fi_regular info | Fail _ => false end.

Definition canonicalFile (path : string) : outcome error string :=
  resolved ← EvalSymlinks (path_clean path);
  _ ← guard_or (regularFile resolved) (ErrNew (go_quote path +:+ " is not a regular file"));
  Ok resolved.

Definition samePath (l r : string) : bool :=
  match canonicalDirectory l, canonicalDirectory r with
  | Ok l, Ok r => bool_decide (l = r)
  | _, _ => false
  end.

Definition containsModuleRoot (modules : list WorkspaceModule) (target : string) : bool :=
  existsb (λ item, samePath (wm_Root item) target) modules.

Definition containedPath (root candidate : string) : option bool :=
  relative ← filepath_rel root candidate;
  Some (negb (bool_decide (relative = ".")) && is_local relative).

(** [bytes.Lines]: the lines with their terminators. *)
Fixpoint linesOf (content : string) : list string :=
  match content with
  | EmptyString => []
  | String c rest =>
      if decide (c = newline) then newline_str :: linesOf rest
      else match linesOf rest with
           | [] => [str1 c]
           | line :: lines => String c line :: lines
           end
  end.

Definition hasWorkspaceMarker (content : string) : bool :=
  existsb (λ line, bool_decide (trim_space line = "## workspace")) (linesOf content).

Definition offlineEnvironment (environment : option (list string)) : list string :=
  filter (λ entry,
    let '(name, _, found) := cut entry "=" in
    found && (equal_fold name "GOPROXY" || equal_fold name "GOSUMDB") = false)
    (default environ environment) ++ ["GOPROXY=off"; "GOSUMDB=off"].

(** ** The module and the workspace of a directory *)

Definition findModuleRoot (root : string) : outcome error string :=
  current ← or_wrap "resolve target module root" (canonicalDirectory root);
  match firstAbove (λ current, regularFile (path_join [current; "go.mod"])) current with
  | Some current => Ok current
  | None => Fail (ErrNew ("resolve target module root: no go.mod above " +:+ go_quote root))
  end.

Definition readModulePath (root : string) : outcome error string :=
  content ← or_wrap "read target go.mod" (readBoundedFile root "go.mod" maximumWorkspaceBytes);
  let path := ModulePath content in
  if decide (path = "") then Fail (ErrNew "read target go.mod: module directive is missing")
  else
    _ ← checked (CheckPath path) ("read target go.mod: invalid module path " +:+ go_quote path);
    Ok path.

(** The value of the last entry that sets GOWORK. *)
Definition goWork (environment : list string) : option string :=
  foldl (λ value entry,
    let '(name, candidate, valid) := cut entry "=" in
    if valid && equal_fold name "GOWORK" then Some candidate else value) None environment.

Definition searchWorkspace (root : string) : option string :=
  match canonicalDirectory root with
  | Fail _ => None
  | Ok current =>
      (λ directory, path_join [directory; "go.work"]) <$>
        firstAbove (λ directory, regularFile (path_join [directory; "go.work"])) current
  end.

(** The workspace, the empty text for none, and whether one is required. *)
Definition workspaceSelection (root : string) (environment : option (list string)) : string * bool :=
  let search := match searchWorkspace root with Some workspace => (workspace, true) | None => ("", false) end in
  match goWork (default environ environment) with
  | None => search
  | Some value =>
      if equal_fold value "off" then ("", false)
      else if negb (bool_decide (value = "")) && negb (equal_fold value "auto") then
        if negb (path_is_abs value) then ("", true)
        else match canonicalFile value with
             | Fail _ => ("", true)
             | Ok workspace => (workspace, true)
             end
      else search
  end.

Definition WorkspaceFile (root : string) (environment : option (list string)) : string :=
  (workspaceSelection root environment).1.

(** The module of one use directive. *)
Definition usedModule (workspace used : string) : outcome error WorkspaceModule :=
  let root := if path_is_abs used then used else path_join [path_dir workspace; used] in
  root ← or_wrap ("resolve workspace use " +:+ go_quote used) (canonicalDirectory root);
  path ← or_wrap ("read workspace use " +:+ go_quote used) (readModulePath root);
  Ok (mkWorkspaceModule path root).

Fixpoint usesLoop (ctxErr : nat → option error) (workspace : string) (n : nat) (uses : list string)
    (seen : gset string) (result : list WorkspaceModule) : outcome error (list WorkspaceModule) :=
  match uses with
  | [] => Ok result
  | used :: uses =>
      match ctxErr n with
      | Some err => Fail err
      | None =>
          item ← usedModule workspace used;
          if decide (wm_Path item ∈ seen) then
            Fail (ErrNew ("workspace contains duplicate module path " +:+ go_quote (wm_Path item)))
          else usesLoop ctxErr workspace (S n) uses ({[wm_Path item]} ∪ seen) (result ++ [item])
      end
  end.

Definition workspaceModuleLess : WorkspaceModule → WorkspaceModule → bool :=
  by_key wm_Path str_ltb (on_key wm_Root str_ltb).

Definition workspaceModules (ctxErr : nat → option error) (workspace : string)
    : outcome error (list WorkspaceModule) :=
  content ← or_wrap ("read workspace " +:+ go_quote workspace)
              (readBoundedFile (path_dir workspace) (path_base workspace) maximumWorkspaceBytes);
  work ← or_wrap ("parse workspace " +:+ go_quote workspace) (ParseWork workspace content);
  result ← usesLoop ctxErr workspace 0 work ∅ [];
  _ ← guard_or (negb (bool_decide (result = [])))
        (ErrNew ("workspace " +:+ go_quote workspace +:+ " contains no use modules"));
  Ok (sort_slice workspaceModuleLess result).

Definition WorkspaceModules (ctx : context) (root : string) (environment : option (list string))
    : outcome error (list WorkspaceModule) :=
  match ctx with
  | None => Fail (ErrNew "resolve workspace modules: context is nil")
  | Some ctxErr =>
      targetRoot ← findModuleRoot root;
      let '(workspace, required) := workspaceSelection targetRoot environment in
      if decide (workspace = "") then
        if required : bool then
          Fail (ErrNew "resolve workspace modules: GOWORK does not identify an absolute regular file")
        else path ← readModulePath targetRoot; Ok [mkWorkspaceModule path targetRoot]
      else
        modules ← workspaceModules ctxErr workspace;
        _ ← guard_or (containsModuleRoot modules targetRoot)
              (ErrNew ("resolve workspace modules: target module " +:+ go_quote targetRoot +:+
                " is not listed by " +:+ workspace));
        Ok modules
  end.

(** ** The vendor tree *)

Definition never : nat → option error := λ _, None.

(** The manifest of a vendor tree that the go command can use. *)
Definition vendorManifest (vendorRoot : string) (inWorkspace : bool) : option string :=
  match readBoundedFile (path_join [vendorRoot; "vendor"]) "modules.txt" maximumVendorBytes with
  | Fail _ => None
  | Ok content => if inWorkspace && negb (hasWorkspaceMarker content) then None else Some vendorRoot
  end.

Definition VendorRoot (root : string) (environment : option (list string)) : option string :=
  match findModuleRoot root with
  | Fail _ => None
  | Ok targetRoot =>
      let '(workspace, required) := workspaceSelection targetRoot environment in
      if negb (bool_decide (workspace = "")) then
        match workspaceModules never workspace with
        | Fail _ => None
        | Ok modules =>
            if containsModuleRoot modules targetRoot then vendorManifest (path_dir workspace) true else None
        end
      else if required : bool then None
      else vendorManifest targetRoot false
  end.

Definition OfflineMode (root : string) (environment : option (list string)) : string :=
  match VendorRoot root environment with Some _ => "vendor" | None => "readonly" end.

Definition validateVendor (root : string) (environment : option (list string)) : outcome error () :=
  let '(writes, err) := go_list_vendor root (offlineEnvironment environment) in
  match err with
  | None => Ok ()
  | Some err =>
      let detail := trim_space (foldl (boundedWrite maximumGoStderrBytes) "" writes) in
      let detail := if decide (detail = "") then "" else ": " +:+ detail in
      Fail (ErrWrap ("validate vendored Go module graph: %w" +:+ detail) err)
  end.

Definition parseReplacement (oldPath : string) (parts : list string) : outcome error replacement :=
  match parts with
  | [arrow; path] =>
      if negb (bool_decide (arrow = "=>")) then
        Fail (ErrNew ("invalid replacement for vendored module " +:+ go_quote oldPath))
      else if decide (path = "") then
        Fail (ErrNew ("empty replacement for vendored module " +:+ go_quote oldPath))
      else Ok (mkReplacement path "" true)
  | [arrow; path; version] =>
      if negb (bool_decide (arrow = "=>")) then
        Fail (ErrNew ("invalid replacement for vendored module " +:+ go_quote oldPath))
      else if decide (path = "") then
        Fail (ErrNew ("empty replacement for vendored module " +:+ go_quote oldPath))
      else
        _ ← checked (CheckModule path version) ("invalid replacement " +:+ path +:+ "@" +:+ version +:+
              " for vendored module " +:+ go_quote oldPath);
        Ok (mkReplacement path version false)
  | _ => Fail (ErrNew ("invalid replacement for vendored module " +:+ go_quote oldPath))
  end.

(** The module of a header; [None] for a replacement of every version, which
    selects no module. *)
Definition parseVendorHeader (line : string) : outcome error (option VendoredModule) :=
  match fields line with
  | mark :: path :: third :: rest =>
      if negb (bool_decide (mark = "#")) then Fail (ErrNew ("invalid vendor module header " +:+ go_quote line))
      else
        _ ← checked (CheckPath path) ("invalid vendored module path " +:+ go_quote path);
        if decide (third = "=>") then _ ← parseReplacement path (third :: rest); Ok None
        else
          _ ← checked (CheckModule path third) ("invalid vendored module " +:+ path +:+ "@" +:+ third);
          if decide (rest = []) then Ok (Some (mkVendored path third "" "" "" "" false))
          else
            replacement ← parseReplacement path rest;
            Ok (Some (mkVendored path third "" (rp_Path replacement) (rp_Version replacement) ""
                  (rp_Local replacement)))
  | _ => Fail (ErrNew ("invalid vendor module header " +:+ go_quote line))
  end.

(** The directories of a module of the vendor tree. *)
Definition placeModule (vendorRoot vendorDirectory : string) (m : VendoredModule) : outcome error VendoredModule :=
  let escapes := ErrNew ("vendored module path " +:+ go_quote (vm_Path m) +:+ " escapes vendor") in
  let named verb := verb +:+ " vendored module " +:+ vm_Path m +:+ "@" +:+ vm_Version m in
  _ ← guard_or (is_local (vm_Path m)) escapes;
  canonicalVendor ← or_wrap "resolve vendor directory" (canonicalDirectory vendorDirectory);
  canonicalModule ← or_wrap (named "resolve") (canonicalDirectory (path_join [vendorDirectory; vm_Path m]));
  _ ← guard_or (bool_decide (containedPath canonicalVendor canonicalModule = Some true)) escapes;
  info ← or_wrap (named "inspect") (os_Stat canonicalModule);
  _ ← guard_or (fi_dir info)
        (ErrNew ("vendored module " +:+ vm_Path m +:+ "@" +:+ vm_Version m +:+ " is not a directory"));
  let replaced :=
    if vm_LocalReplacement m then
      path_clean (if path_is_abs (vm_ReplacementPath m) then vm_ReplacementPath m
                  else path_join [vendorRoot; vm_ReplacementPath m])
    else vm_ReplacementDirectory m in
  Ok (mkVendored (vm_Path m) (vm_Version m) canonicalModule (vm_ReplacementPath m) (vm_ReplacementVersion m)
        replaced (vm_LocalReplacement m)).

(** The variables of [parseVendoredModules]. *)
Record vendorState := mkVendorState {
  vs_current : option VendoredModule;
  vs_hasPackage : bool;
  vs_result : list VendoredModule;
  vs_seen : gmap string string;
}.

Definition flushModule (vendorRoot vendorDirectory : string) (s : vendorState) : outcome error vendorState :=
  match vs_current s with
  | Some m =>
      if negb (vs_hasPackage s) then Ok s
      else match vs_seen s !! vm_Path m with
           | Some previous =>
               Fail (ErrNew ("vendored module path " +:+ go_quote (vm_Path m) +:+ " occurs with versions " +:+
                 go_quote previous +:+ " and " +:+ go_quote (vm_Version m)))
           | None =>
               if (length (vs_result s) =? maximumVendorModules)%nat then
                 Fail (ErrNew ("vendored module graph exceeds " +:+ itoa (Z.of_nat maximumVendorModules) +:+ " entries"))
               else
                 placed ← placeModule vendorRoot vendorDirectory m;
                 Ok (mkVendorState (Some placed) true (vs_result s ++ [placed])
                       (<[vm_Path m := vm_Version m]> (vs_seen s)))
           end
  | None => Ok s
  end.

Definition isHeader (line : string) : bool := has_prefix line "# " && negb (has_prefix line "## ").
(** A line that names a package. *)
Definition isPackageLine (line : string) : bool :=
  negb (has_prefix line "## ") &&
  match fields line with [path] => bool_decide (CheckImportPath path = None) | _ => false end.

(** One line of the manifest. *)
Definition vendorLine (vendorRoot vendorDirectory line : string) (s : vendorState) : outcome error vendorState :=
  if isHeader line then
    s ← flushModule vendorRoot vendorDirectory s;
    parsed ← parseVendorHeader line;
    Ok (mkVendorState parsed false (vs_result s) (vs_seen s))
  else match vs_current s with
       | None => Ok s
       | Some _ =>
           if isPackageLine line then Ok (mkVendorState (vs_current s) true (vs_result s) (vs_seen s)) else Ok s
       end.

Fixpoint vendorLines (ctxErr : nat → option error) (vendorRoot vendorDirectory : string) (n : nat)
    (lines : list string) (s : vendorState) : outcome error vendorState :=
  match lines with
  | [] => Ok s
  | line :: lines =>
      match ctxErr n with
      | Some err => Fail err
      | None =>
          s ← vendorLine vendorRoot vendorDirectory line s;
          vendorLines ctxErr vendorRoot vendorDirectory (S n) lines s
      end
  end.

Definition vendorLinesOf (content : string) : list string := split_byte newline (dropReturns content).

Definition parseVendoredModules (ctxErr : nat → option error) (vendorRoot vendorDirectory content : string)
    : outcome error (list VendoredModule) :=
  s ← vendorLines ctxErr vendorRoot vendorDirectory 0 (vendorLinesOf content) (mkVendorState None false [] ∅);
  s ← flushModule vendorRoot vendorDirectory s;
  Ok (vs_result s).

Definition VendoredModules (ctx : context) (root : string) (environment : option (list string))
    : outcome error (list VendoredModule) :=
  match ctx with
  | None => Fail (ErrNew "resolve vendored modules: context is nil")
  | Some ctxErr =>
      match VendorRoot root environment with
      | None => Fail (ErrNew "resolve vendored modules: no usable vendor graph")
      | Some vendorRoot =>
          _ ← validateVendor root environment;
          let vendorDirectory := path_join [vendorRoot; "vendor"] in
          content ← or_wrap "read vendored Go module graph"
                      (readBoundedFile vendorDirectory "modules.txt" maximumVendorBytes);
          parseVendoredModules ctxErr vendorRoot vendorDirectory content
      end
  end.

(** The process as [ServiceOptions] sees it. *)
Definition moduleenv_process (goflags : string) : Process := {|
  os_Environ := environ;
  os_GOFLAGS := goflags;
  ServiceOptions.VendorRoot := λ root environment, bool_decide (is_Some (VendorRoot root (Some environment)));
|}.

End moduleenv.

(** ** Proofs *)

(** The nearest directory at or above one that passes a probe. *)
Definition nearestAbove (probe : string → bool) (cs : list string) (d : string) : Prop :=
  ∃ ds, d = rooted ds ∧ ds `prefix_of` cs ∧ probe d = true ∧
    ∀ es, ds `prefix_of` es → es `prefix_of` cs → es ≠ ds → probe (rooted es) = false.

Lemma prefix_snoc_cases {A} (es cs : list A) c : es `prefix_of` cs ++ [c] → es = cs ++ [c] ∨ es `prefix_of` cs.
Proof.
  intros [k Hk]. destruct k as [|x k _] using rev_ind; [left; by rewrite app_nil_r in Hk|right].
  rewrite app_assoc in Hk. apply app_inj_tail in Hk as [-> _]. by apply prefix_app_r.
Qed.

Lemma nearestAbove_self probe cs : probe (rooted cs) = true → ∀ d, Some (rooted cs) = Some d ↔ nearestAbove probe cs d.
Proof.
  intros Hp d. split.
  - intros [= <-]. exists cs. split_and!; [done..|]. intros es [k ->] Hpre He. exfalso. apply He.
    apply prefix_length in Hpre. rewrite length_app in Hpre. destruct k; [by rewrite app_nil_r|simpl in Hpre; lia].
  - intros (ds & -> & Hd & _ & Hn). destruct (decide (cs = ds)) as [->|Hne]; [done|].
    by rewrite (Hn cs) in Hp.
Qed.

Lemma nearestAbove_snoc probe cs c d :
  probe (rooted (cs ++ [c])) = false → nearestAbove probe (cs ++ [c]) d ↔ nearestAbove probe cs d.
Proof.
  intros Hp. split; intros (ds & -> & Hd & Hpd & Hn).
  - apply prefix_snoc_cases in Hd as [->|Hd]; [congruence|]. exists ds. split_and!; [done..|].
    intros es H1 H2. apply Hn; [done|by apply prefix_app_r].
  - exists ds. split_and!; [done|by apply prefix_app_r|done|]. intros es H1 H2 He.
    apply prefix_snoc_cases in H2 as [->|H2]; [done|by apply Hn].
Qed.

Lemma climb_nearest probe fuel cs :
  Forall good_name cs → (length cs < fuel)%nat →
  ∃ r, climb fuel probe (rooted cs) = Some r ∧ ∀ d, r = Some d ↔ nearestAbove probe cs d.
Proof.
  revert fuel. induction cs as [|c cs IH] using rev_ind; intros [|fuel] Hc Hf; try lia; cbn [climb].
  - destruct (probe (rooted [])) eqn:E; [eexists; split; [done|by apply nearestAbove_self]|].
    change (path_dir (rooted [])) with (rooted []). rewrite decide_True by done. exists None. split; [done|].
    intros d. split; [done|]. intros (ds & -> & ->%prefix_nil_inv & ? & _). congruence.
  - destruct (probe (rooted (cs ++ [c]))) eqn:E; [eexists; split; [done|by apply nearestAbove_self]|].
    rewrite path_dir_rooted by done. pose proof Hc as [Hcs _]%Forall_app. rewrite decide_False.
    2: { intros He%rooted_inj; [|done..]. apply (f_equal length) in He. rewrite length_app in He. simpl in He. lia. }
    destruct (IH fuel) as (r & -> & Hr); [done|rewrite length_app in Hf; simpl in Hf; lia|].
    exists r. split; [done|]. intros d. by rewrite Hr, nearestAbove_snoc.
Qed.

Lemma firstAbove_nearest probe cs d :
  Forall good_name cs → firstAbove probe (rooted cs) = Some d ↔ nearestAbove probe cs d.
Proof.
  intros Hc. unfold firstAbove. destruct (climb_nearest probe (S (String.length (rooted cs))) cs) as (r & -> & Hr); [done| |done].
  pose proof (length_rooted _ Hc). lia.
Qed.

(** What is written within the limit is kept, the rest is dropped. *)
Lemma boundedWrite_exact limit buffer value :
  (String.length buffer ≤ limit)%nat → boundedWrite limit buffer value = str_take limit (buffer +:+ value).
Proof.
  intros Hl. unfold boundedWrite. replace limit with (String.length buffer + (limit - String.length buffer))%nat at 3 by lia.
  rewrite str_take_plus, str_take_app, str_drop_app. destruct (Nat.ltb_spec 0 (limit - String.length buffer)) as [Hr|Hr].
  - f_equal. destruct (Nat.le_ge_cases (limit - String.length buffer) (String.length value)) as [Hv|Hv].
    + by rewrite Nat.min_l.
    + rewrite Nat.min_r by done. by rewrite !str_take_all.
  - assert (limit - String.length buffer = 0)%nat as -> by lia. destruct value; by rewrite str_app_nil_r.
Qed.

Lemma boundedBuffer_exact limit writes buffer :
  (String.length buffer ≤ limit)%nat →
  foldl (boundedWrite limit) buffer writes = str_take limit (buffer +:+ foldr String.append "" writes).
Proof.
  revert buffer. induction writes as [|value writes IH]; intros buffer Hl; simpl.
  - by rewrite str_app_nil_r, str_take_all.
  - rewrite boundedWrite_exact by done. rewrite IH by (rewrite length_str_take; lia).
    rewrite <- str_app_assoc. generalize (buffer +:+ value) (foldr String.append "" writes). intros s t.
    destruct (Nat.le_ge_cases (String.length s) limit) as [Hs|Hs]; [by rewrite (str_take_all s)|].
    assert (String.length (str_take limit s) = limit) as He by (rewrite length_str_take; lia).
    assert (∀ u, str_take limit (str_take limit s +:+ u) = str_take limit s) as Ht by (intros u; rewrite <- He at 1; apply str_take_app).
    rewrite Ht. transitivity (str_take limit ((str_take limit s +:+ str_drop limit s) +:+ t)); [by rewrite str_app_assoc, Ht|by rewrite str_take_drop].
Qed.

Lemma or_wrap_ok {A} message (m : outcome error A) a : or_wrap message m = Ok a ↔ m = Ok a.
Proof. destruct m; simpl; naive_solver. Qed.

Lemma checked_ok e message u : checked e message = Ok u ↔ e = None.
Proof. destruct e, u; simpl; naive_solver. Qed.

(** [EvalSymlinks] cleans its result, and that of a rooted path is rooted. *)
Class ModuleFilesLaws `{ModuleFiles} : Prop := {
  EvalSymlinks_rooted p q : path_is_abs p = true → EvalSymlinks p = Ok q → ∃ cs, Forall good_name cs ∧ q = rooted cs;
}.

Section proofs.
Context `{UnicodeTables} `{CaseFold} `{GoUrl} `{!GoUrlLaws} `{ModuleFiles} `{!ModuleFilesLaws} `{ModFile} `{GoCommand}.

Lemma canonicalDirectory_rooted p q : canonicalDirectory p = Ok q → ∃ cs, Forall good_name cs ∧ q = rooted cs.
Proof. apply EvalSymlinks_rooted, path_clean_stays_abs, filepath_abs_abs. Qed.

(** No file longer than the limit is given out. *)
Lemma readBoundedFile_bounded root name maximum content :
  readBoundedFile root name maximum = Ok content → (Z.of_nat (String.length content) ≤ maximum)%Z.
Proof. unfold readBoundedFile. intros Hr. repeat case_match; simplify_eq/=. bool_prop. lia. Qed.

Definition hasFile (name directory : string) : bool := regularFile (path_join [directory; name]).

Lemma findModuleRoot_ok root target :
  findModuleRoot root = Ok target ↔
  ∃ cs, Forall good_name cs ∧ canonicalDirectory root = Ok (rooted cs) ∧ nearestAbove (hasFile "go.mod") cs target.
Proof.
  unfold findModuleRoot. rewrite outcome_bind_ok. split.
  - intros (current & Hc%or_wrap_ok & Hf). destruct (canonicalDirectory_rooted _ _ Hc) as (cs & Hcs & ->).
    exists cs. split_and!; [done..|]. apply firstAbove_nearest; [done|]. unfold hasFile. case_match; by simplify_eq.
  - intros (cs & Hcs & Hc & Hn). exists (rooted cs). split; [by apply or_wrap_ok|].
    apply firstAbove_nearest in Hn; [|done]. unfold hasFile in Hn. by rewrite Hn.
Qed.

(** ** The modules of a workspace *)

(** The last entry that sets GOWORK. *)
Lemma goWork_last environment value :
  goWork environment = Some value ↔
  ∃ before entry after, environment = before ++ entry :: after ∧ sets "GOWORK" entry = true ∧
    (cut entry "=").1.2 = value ∧ Forall (λ e, sets "GOWORK" e = false) after.
Proof.
  unfold goWork. induction environment as [|e l IH] using rev_ind.
  { split; [done|]. intros (before & ? & ? & Hl & _). by destruct before. }
  rewrite foldl_app. cbn [foldl]. transitivity ((if sets "GOWORK" e then Some (cut e "=").1.2 else goWork l) = Some value).
  { unfold sets, goWork. by destruct (cut e "=") as [[? ?] ?]. }
  destruct (sets "GOWORK" e) eqn:E.
  - split; [intros [= <-]; by exists l, e, []|]. intros (before & x & after & Hl & Hx & Hv & Ha).
    destruct after as [|y after _] using rev_ind; [apply app_inj_tail in Hl as [_ <-]; congruence|].
    rewrite app_comm_cons, app_assoc in Hl. apply app_inj_tail in Hl as [_ <-].
    apply Forall_app in Ha as [_ Ha]. apply Forall_inv in Ha. congruence.
  - unfold goWork. rewrite IH. split; intros (before & x & after & Hl & Hx & Hv & Ha).
    + exists before, x, (after ++ [e]). rewrite Hl, app_comm_cons, app_assoc. split_and!; [done..|].
      apply Forall_app. split; [done|by constructor].
    + destruct after as [|y after _] using rev_ind; [apply app_inj_tail in Hl as [_ <-]; congruence|].
      rewrite app_comm_cons, app_assoc in Hl. apply app_inj_tail in Hl as [-> <-]. exists before, x, after.
      by apply Forall_app in Ha as [? _].
Qed.

Lemma usesLoop_exact ctxErr workspace n uses seen acc result :
  (∀ k, ctxErr k = None) →
  usesLoop ctxErr workspace n uses seen acc = Ok result ↔
  ∃ items, Forall2 (λ used item, usedModule workspace used = Ok item) uses items ∧
    NoDup (wm_Path <$> items) ∧ (∀ p, p ∈ wm_Path <$> items → p ∉ seen) ∧ result = acc ++ items.
Proof.
  intros Hctx. revert n seen acc. induction uses as [|used uses IH]; intros n seen acc; cbn [usesLoop].
  - split.
    + intros [= <-]. exists []. rewrite app_nil_r. split_and!; [constructor|constructor|set_solver|done].
    + intros (items & ->%Forall2_nil_inv_l & _ & _ & ->). by rewrite app_nil_r.
  - rewrite Hctx, outcome_bind_ok. split.
    + intros (item & Hu & Hl). case_decide as Hseen; [done|]. apply IH in Hl as (items & Hf & Hnd & Hd & ->).
      exists (item :: items). split_and!; [by constructor| | |by rewrite <- app_assoc].
      * cbn. constructor; [|done]. intros Hin%Hd. set_solver.
      * intros p [->|Hp]%elem_of_cons; [done|]. apply Hd in Hp. set_solver.
    + intros (items & Hf & Hnd & Hd & ->). apply Forall2_cons_inv_l in Hf as (item & items' & Hu & Hf & ->).
      cbn in Hnd, Hd. apply NoDup_cons in Hnd as [Hni Hnd]. exists item. split; [done|].
      rewrite decide_False by (apply Hd; left). apply IH. exists items'. split_and!; [done..| |by rewrite <- app_assoc].
      intros p Hp. pose proof (Hd p ltac:(by right)). intros [->%elem_of_singleton|?]%elem_of_union; done.
Qed.

(** The modules that a workspace uses: one for each directive, with distinct paths. *)
Definition used_by (workspace : string) (items : list WorkspaceModule) : Prop :=
  ∃ content uses,
    readBoundedFile (path_dir workspace) (path_base workspace) maximumWorkspaceBytes = Ok content ∧
    ParseWork workspace content = Ok uses ∧
    Forall2 (λ used item, usedModule workspace used = Ok item) uses items ∧
    items ≠ [] ∧ NoDup (wm_Path <$> items).

Lemma workspaceModules_exact ctxErr workspace result :
  (∀ k, ctxErr k = None) →
  workspaceModules ctxErr workspace = Ok result ↔ ∃ items, used_by workspace items ∧ result = sort_slice workspaceModuleLess items.
Proof.
  intros Hctx. unfold workspaceModules, used_by. rewrite outcome_bind_ok. setoid_rewrite or_wrap_ok. split.
  - intros (content & Hr & Hb). apply outcome_bind_ok in Hb as (uses & Hp%or_wrap_ok & Hb).
    apply outcome_bind_ok in Hb as (items & Hl & Hb). apply outcome_then_ok in Hb as [Hne%guard_or_ok [= <-]].
    apply usesLoop_exact in Hl as (items' & Hf & Hnd & _ & ->); [|done]. exists items'. split; [|done].
    exists content, uses. split_and!; try done. intros ->. done.
  - intros (items & (content & uses & Hr & Hp & Hf & Hne & Hnd) & ->). exists content. split; [done|].
    apply outcome_bind_ok. exists uses. split; [by apply or_wrap_ok|]. apply outcome_bind_ok. exists items. split.
    + apply usesLoop_exact; [done|]. exists items. split_and!; [done..|set_solver|done].
    + apply outcome_then_ok. split; [|done]. apply guard_or_ok. by rewrite bool_decide_eq_false_2.
Qed.

Lemma workspace_sorted items :
  NoDup (wm_Path <$> items) →
  StronglySorted (λ a b, str_ltb (wm_Path a) (wm_Path b) = true) (sort_slice workspaceModuleLess items).
Proof. apply (sort_stable_strict wm_Path (on_key wm_Root str_ltb)). Qed.

Lemma workspace_unique items modules :
  NoDup (wm_Path <$> items) → modules ≡ₚ items →
  StronglySorted (λ a b, str_ltb (wm_Path a) (wm_Path b) = true) modules →
  modules = sort_slice workspaceModuleLess items.
Proof.
  intros Hnd Hp Hs. apply sort_slice_unique; [apply _| |done|].
  - unfold workspaceModuleLess, by_key. intros x y Hx Hy. case_decide as He; [intros _ _; by apply (NoDup_key _ _ _ _ Hnd)|].
    rewrite decide_False by congruence. intros Hl Hr. destruct He. by apply (st_total (StrictTotal := str_ltb_total)).
  - apply (StronglySorted_impl_in (λ a b, str_ltb (wm_Path a) (wm_Path b) = true)); [|done].
    intros x y _ _ Hxy. unfold not_after, workspaceModuleLess, by_key. case_decide as He.
    + rewrite He in Hxy. by rewrite sw_irrefl in Hxy.
    + by apply (sw_asym str_ltb).
Qed.

(** The modules of a directory, when nothing cancels the search: without a
    workspace the module of the nearest go.mod at or above the resolved directory;
    with one, exactly the modules of its use directives, in the order of their
    paths, which are distinct, and the module of the directory is one of them. A
    GOWORK that names no file is an error. *)
Theorem WorkspaceModules_exact ctxErr root environment modules :
  (∀ k, ctxErr k = None) →
  WorkspaceModules (Some ctxErr) root environment = Ok modules ↔
  ∃ cs target, Forall good_name cs ∧ canonicalDirectory root = Ok (rooted cs) ∧
    nearestAbove (hasFile "go.mod") cs target ∧
    let '(workspace, required) := workspaceSelection target environment in
    if decide (workspace = "") then
      required = false ∧ ∃ path, readModulePath target = Ok path ∧ modules = [mkWorkspaceModule path target]
    else
      (∃ items, used_by workspace items ∧ modules ≡ₚ items) ∧
      StronglySorted (λ a b, str_ltb (wm_Path a) (wm_Path b) = true) modules ∧
      ∃ item, item ∈ modules ∧ samePath (wm_Root item) target = true.
Proof.
  intros Hctx. cbn [WorkspaceModules]. rewrite outcome_bind_ok. setoid_rewrite findModuleRoot_ok.
  assert (∀ P Q : string → Prop, (∀ t, P t ↔ Q t) →
    (∃ t, (∃ cs, Forall good_name cs ∧ canonicalDirectory root = Ok (rooted cs) ∧ nearestAbove (hasFile "go.mod") cs t) ∧ P t) ↔
    (∃ cs t, Forall good_name cs ∧ canonicalDirectory root = Ok (rooted cs) ∧ nearestAbove (hasFile "go.mod") cs t ∧ Q t)) as Hpq
    by (intros P Q HPQ; setoid_rewrite HPQ; naive_solver).
  apply Hpq. clear Hpq. intros target. destruct (workspaceSelection target environment) as [workspace required]. case_decide as Hw.
  - destruct required; [naive_solver|]. rewrite outcome_bind_ok. naive_solver.
  - rewrite outcome_bind_ok. setoid_rewrite outcome_then_ok. setoid_rewrite guard_or_ok. setoid_rewrite workspaceModules_exact; [|done].
    setoid_rewrite existsb_exists. setoid_rewrite <- list_elem_of_In. split.
    + intros (ms & (items & Hu & ->) & Hex & [= <-]). pose proof Hu as (content & uses & _ & _ & _ & _ & Hnd).
      split_and!; [|by apply workspace_sorted|done]. exists items. split; [done|apply sort_stable_perm].
    + intros ((items & Hu & Hp) & Hs & Hex). pose proof Hu as (content & uses & _ & _ & _ & _ & Hnd). exists modules. split_and!; [|done..]. exists items. split; [done|].
      by apply workspace_unique.
Qed.

(** ** The modules of a vendor tree *)

(** The manifest without the variables of the loop: each header with the lines up
    to the next one. *)
Fixpoint bodyOf (lines : list string) : list string :=
  match lines with
  | [] => []
  | line :: lines => if isHeader line then [] else line :: bodyOf lines
  end.
Fixpoint sections (lines : list string) : list (string * list string) :=
  match lines with
  | [] => []
  | line :: lines => if isHeader line then (line, bodyOf lines) :: sections lines else sections lines
  end.

(** The module of a section that lists a package. *)
Definition chosen (m : option VendoredModule) (packages : bool) : list VendoredModule :=
  if packages then option_list m else [].
Fixpoint selectedModules (l : list (string * list string)) : outcome error (list VendoredModule) :=
  match l with
  | [] => Ok []
  | (header, body) :: l =>
      m ← parseVendorHeader header;
      rest ← selectedModules l;
      Ok (chosen m (existsb isPackageLine body) ++ rest)
  end.

(** What the loop has still to flush when these lines are left. *)
Definition pending (s : vendorState) (lines : list string) : list VendoredModule :=
  chosen (vs_current s) (vs_hasPackage s || existsb isPackageLine (bodyOf lines)).

(** The modules of a list can be added to those found. *)
Definition admissible (s : vendorState) (l : list VendoredModule) : Prop :=
  NoDup (vm_Path <$> l) ∧ (∀ m, m ∈ l → vs_seen s !! vm_Path m = None) ∧
  (length (vs_result s) + length l ≤ maximumVendorModules)%nat.

Definition placed (vendorRoot vendorDirectory : string) : list VendoredModule → list VendoredModule → Prop :=
  Forall2 (λ m p, placeModule vendorRoot vendorDirectory m = Ok p).

Section vendor.
Context (ctxErr : nat → option error) (vr vd : string).
Hypothesis not_canceled : ∀ n, ctxErr n = None.

Lemma admissible_nil s : (length (vs_result s) ≤ maximumVendorModules)%nat → admissible s [].
Proof. intros Hl. split_and!; [constructor|by intros m ?%not_elem_of_nil|simpl; lia]. Qed.

Definition versions (l : list VendoredModule) : gmap string string := list_to_map ((λ m, (vm_Path m, vm_Version m)) <$> l).

(** What follows a flush sees the modules and the versions only. *)
Lemma flush_then (K : list VendoredModule → gmap string string → Prop) s :
  (length (vs_result s) ≤ maximumVendorModules)%nat →
  (∃ s', flushModule vr vd s = Ok s' ∧ K (vs_result s') (vs_seen s')) ↔
  admissible s (pending s []) ∧ ∃ new, placed vr vd (pending s []) new ∧
    K (vs_result s ++ new) (versions (pending s []) ∪ vs_seen s).
Proof.
  intros Hl. destruct (pending s []) as [|m l] eqn:Hp.
  - assert (flushModule vr vd s = Ok s) as -> by (unfold flushModule; unfold pending, chosen in Hp; simpl in Hp;
      rewrite orb_false_r in Hp; by destruct (vs_current s), (vs_hasPackage s)).
    pose proof (admissible_nil s Hl). assert (versions [] ∪ vs_seen s = vs_seen s) as -> by apply map_empty_union. split.
    + intros (s' & [= <-] & HK). split; [done|]. exists []. rewrite app_nil_r. split; [constructor|done].
    + intros (_ & new & ->%Forall2_nil_inv_l & HK). exists s. by rewrite app_nil_r in HK.
  - unfold pending, chosen in Hp. simpl in Hp. rewrite orb_false_r in Hp. destruct s as [[m'|] [] result seen]; simplify_eq/=.
    unfold flushModule, admissible, placed, versions. simpl. destruct (seen !! vm_Path m) as [v|] eqn:Hs.
    { split; [by intros (s' & ? & _)|]. intros ((_ & Hd & _) & _). rewrite (Hd m) in Hs by by left. done. }
    destruct (Nat.eqb_spec (length result) maximumVendorModules) as [He|He].
    { split; [by intros (s' & ? & _)|]. intros ((_ & _ & Hn) & _). lia. }
    rewrite insert_empty, <- insert_union_singleton_l. split.
    + intros (s' & (p & Hp & [= <-])%outcome_bind_ok & HK). split_and!; [by apply NoDup_singleton|by intros m' ->%list_elem_of_singleton|lia|].
      exists [p]. split; [by repeat constructor|done].
    + intros (_ & new & Hf & HK). apply Forall2_cons_inv_l in Hf as (p & new' & Hp & ->%Forall2_nil_inv_l & ->).
      eexists. split; [apply outcome_bind_ok; by exists p|done].
Qed.

(** The modules that the rest of the manifest selects. *)
Definition toCome (s : vendorState) (lines : list string) : outcome error (list VendoredModule) :=
  rest ← selectedModules (sections lines); Ok (pending s lines ++ rest).

Lemma admissible_app s s' p l new :
  vs_result s' = vs_result s ++ new → length new = length p → vs_seen s' = versions p ∪ vs_seen s →
  admissible s (p ++ l) ↔ admissible s p ∧ admissible s' l.
Proof.
  intros Hr Hn Hs. unfold admissible. rewrite Hr, Hs, fmap_app, NoDup_app, !length_app, Hn.
  assert (∀ k, (versions p ∪ vs_seen s) !! k = None ↔ k ∉ vm_Path <$> p ∧ vs_seen s !! k = None) as Hk.
  { intros k. rewrite lookup_union_None. unfold versions. rewrite <- not_elem_of_list_to_map,
    <- list_fmap_compose. done. }
  setoid_rewrite Hk. setoid_rewrite elem_of_app. split.
  - intros ((H1' & H2' & H3') & H4' & H5'). split_and!; [done|naive_solver|lia|done| |lia].
    intros m Hm. split; [|by apply H4'; right]. intros Hin. by apply (H2' _ Hin), list_elem_of_fmap_2.
  - intros ((H1' & H2' & H3') & H4' & H5' & H6'). split_and!; [done| |done| |lia].
    + intros k Hk1 (m & -> & Hm)%list_elem_of_fmap. by apply H5' in Hm as [? _].
    + intros m [Hm|Hm]; [by apply H2'|by apply H5'].
Qed.

(** A computation ends with these modules. *)
Definition ends (m : outcome error vendorState) (result : list VendoredModule) : Prop :=
  ∃ s, m = Ok s ∧ vs_result s = result.

Lemma ends_bind {A} (m : outcome error A) k result : ends (m ≫= k) result ↔ ∃ a, m = Ok a ∧ ends (k a) result.
Proof. destruct m; unfold ends; simpl; naive_solver. Qed.

Lemma bind_assoc {A B C} (m : outcome error A) (f : A → outcome error B) (g : B → outcome error C) :
  (m ≫= f) ≫= g = m ≫= (λ x, f x ≫= g).
Proof. by destruct m. Qed.

Lemma ends_flush s result :
  (length (vs_result s) ≤ maximumVendorModules)%nat →
  ends (flushModule vr vd s) result ↔
  admissible s (pending s []) ∧ ∃ new, placed vr vd (pending s []) new ∧ result = vs_result s ++ new.
Proof. intros Hl. unfold ends. rewrite (flush_then (λ r _, r = result)) by done. naive_solver. Qed.

Lemma vendorLines_exact lines n s result :
  (length (vs_result s) ≤ maximumVendorModules)%nat →
  ends (s ← vendorLines ctxErr vr vd n lines s; flushModule vr vd s) result ↔
  ∃ l new, toCome s lines = Ok l ∧ admissible s l ∧ placed vr vd l new ∧ result = vs_result s ++ new.
Proof.
  revert n s. induction lines as [|line lines IH]; intros n s Hl; unfold toCome; cbn [vendorLines sections selectedModules].
  { cbn [mbind outcome_bind]. rewrite app_nil_r, ends_flush by done. naive_solver. }
  rewrite not_canceled. unfold vendorLine. destruct (isHeader line) eqn:Hh.
  - assert (pending s (line :: lines) = pending s []) as -> by (unfold pending; cbn [bodyOf]; by rewrite Hh).
    rewrite !bind_assoc, ends_bind. cbn [selectedModules]. destruct (parseVendorHeader line) as [m|e].
    2: { split; [by intros (a & _ & s' & ? & _)|]. by intros (l & new & ? & _). }
    etransitivity; [apply (flush_then (λ r sn, ends (vendorLines ctxErr vr vd (S n) lines (mkVendorState m false r sn)
      ≫= λ s, flushModule vr vd s) result) s Hl)|]. split.
    + intros (Ha & new & Hp & He). pose proof (Forall2_length _ _ _ Hp) as Hlen. apply IH in He; simpl.
      2: { destruct Ha as (_ & _ & Hn). rewrite length_app. lia. }
      destruct He as (l & new' & (rest & Hrest & [= <-])%outcome_bind_ok & Ha' & Hp' & ->).
      exists (pending s [] ++ chosen m (existsb isPackageLine (bodyOf lines)) ++ rest), (new ++ new').
      split_and!; [by simpl; rewrite Hrest| |by apply Forall2_app|by rewrite app_assoc].
      by eapply (admissible_app s (mkVendorState m false (vs_result s ++ new) _) _ _ new).
    + intros (l & new & (l' & (m' & [= <-] & (rest & Hrest & [= <-])%outcome_bind_ok)%outcome_bind_ok & [= <-])%outcome_bind_ok & Ha & Hp & ->).
      apply Forall2_app_inv_l in Hp as (new1 & new2 & Hp1 & Hp2 & ->). pose proof (Forall2_length _ _ _ Hp1) as Hlen.
      eapply (admissible_app s (mkVendorState m false (vs_result s ++ new1) (versions (pending s []) ∪ vs_seen s)) _ _ new1) in Ha as [Ha1 Ha2]; [|done..].
      split; [done|]. exists new1. split; [done|]. apply IH; simpl.
      { destruct Ha1 as (_ & _ & Hn). rewrite length_app. lia. }
      eexists _, new2. split_and!; [unfold toCome; by rewrite Hrest|done|done|by rewrite app_assoc].
  - destruct (vs_current s) as [m|] eqn:Hc.
    + set (s1 := if isPackageLine line then mkVendorState (Some m) true (vs_result s) (vs_seen s) else s).
      assert ((if isPackageLine line then Ok (mkVendorState (Some m) true (vs_result s) (vs_seen s)) else Ok s) = Ok s1) as ->
        by (unfold s1; by case_match).
      change (Ok s1 ≫= ?k) with (k s1). cbv beta. rewrite (IH (S n) s1) by (unfold s1; by case_match).
      unfold toCome. assert (pending s (line :: lines) = pending s1 lines) as ->.
      { unfold pending. cbn [bodyOf]. rewrite Hh. unfold s1. simpl. destruct (isPackageLine line); simpl; [by rewrite Hc, orb_true_r|done]. }
      unfold s1. by destruct (isPackageLine line).
    + change (Ok s ≫= ?k) with (k s). cbv beta. rewrite (IH (S n) s) by done. unfold toCome.
      assert (∀ l, pending s l = []) as Hn by (intros l; unfold pending, chosen; rewrite Hc; by case_match). by rewrite !Hn.
Qed.
End vendor.

Lemma parse_ends ctxErr vendorRoot vendorDirectory content result :
  parseVendoredModules ctxErr vendorRoot vendorDirectory content = Ok result ↔
  ends (s ← vendorLines ctxErr vendorRoot vendorDirectory 0 (vendorLinesOf content) (mkVendorState None false [] ∅);
    flushModule vendorRoot vendorDirectory s) result.
Proof.
  unfold parseVendoredModules. rewrite <- bind_assoc. unfold ends. rewrite outcome_bind_ok. naive_solver.
Qed.

Lemma vendorLines_never ctxErr vendorRoot vendorDirectory n lines s s' :
  vendorLines ctxErr vendorRoot vendorDirectory n lines s = Ok s' →
  vendorLines never vendorRoot vendorDirectory n lines s = Ok s'.
Proof.
  revert n s. induction lines as [|line lines IH]; intros n s; cbn [vendorLines]; [done|]. destruct (ctxErr n); [done|].
  cbn [never]. intros (s1 & Hs & Hl)%outcome_bind_ok. apply outcome_bind_ok. exists s1. split; [done|by apply IH].
Qed.

(** The sections of a manifest give the modules [result]. *)
Definition catalog_of (vendorRoot vendorDirectory content : string) (result : list VendoredModule) : Prop :=
  ∃ selected, selectedModules (sections (vendorLinesOf content)) = Ok selected ∧
    NoDup (vm_Path <$> selected) ∧ (length selected ≤ maximumVendorModules)%nat ∧
    placed vendorRoot vendorDirectory selected result.

Lemma ends_catalog ctxErr vendorRoot vendorDirectory content result :
  (∀ n, ctxErr n = None) →
  ends (s ← vendorLines ctxErr vendorRoot vendorDirectory 0 (vendorLinesOf content) (mkVendorState None false [] ∅);
    flushModule vendorRoot vendorDirectory s) result ↔ catalog_of vendorRoot vendorDirectory content result.
Proof.
  intros Hctx. rewrite (vendorLines_exact _ _ _ Hctx) by (simpl; lia). unfold toCome, catalog_of.
  assert (pending (mkVendorState None false [] ∅) (vendorLinesOf content) = []) as -> by (unfold pending, chosen; by case_match).
  split.
  - intros (l & new & (rest & Hrest & [= <-])%outcome_bind_ok & (Hnd & _ & Hn) & Hp & ->). by exists rest.
  - intros (selected & Hsel & Hnd & Hn & Hp). exists selected, result. split; [by simpl; rewrite Hsel|]. split; [|by split].
    split_and!; [exact Hnd|by intros m _; apply lookup_empty|exact Hn].
Qed.

(** The catalog of a vendor tree, when nothing cancels it, is that of the
    manifest read section by section: it is returned exactly when every header can
    be parsed, the modules that list a package have distinct paths, there are at
    most ten thousand of them, and each has its directory in the tree; and it holds
    these modules in their order. *)
Theorem parseVendoredModules_exact ctxErr vendorRoot vendorDirectory content result :
  (∀ n, ctxErr n = None) →
  parseVendoredModules ctxErr vendorRoot vendorDirectory content = Ok result ↔
  catalog_of vendorRoot vendorDirectory content result.
Proof. intros Hctx. by rewrite parse_ends, (ends_catalog _ _ _ _ _ Hctx). Qed.

(** ** What a catalog may hold *)

Lemma containedPath_rooted cs ds :
  Forall good_name cs → Forall good_name ds →
  containedPath (rooted cs) (rooted ds) = Some true → ∃ names, names ≠ [] ∧ ds = cs ++ names.
Proof.
  intros Hc Hd. unfold containedPath. destruct (filepath_rel (rooted cs) (rooted ds)) as [relative|] eqn:Hr; [|done].
  intros [= [Hn Hl]%andb_true_iff]. assert (cs `prefix_of` ds) as [names ->].
  { apply holdsPath_rooted; [done|done|]. unfold holdsPath. by rewrite Hr, Hl, orb_true_r. }
  exists names. split; [|done]. intros ->. rewrite app_nil_r in Hr. unfold filepath_rel in Hr.
  rewrite decide_True in Hr by done. by injection Hr as <-.
Qed.

(** A directory of the catalog is below the resolved vendor directory. *)
Definition belowVendor (vendorDirectory : string) (m : VendoredModule) : Prop :=
  ∃ vs names, canonicalDirectory vendorDirectory = Ok (rooted vs) ∧ names ≠ [] ∧ Forall good_name names ∧
    vm_Directory m = rooted (vs ++ names).

Lemma placeModule_below vendorRoot vendorDirectory m p :
  placeModule vendorRoot vendorDirectory m = Ok p → vm_Path p = vm_Path m ∧ belowVendor vendorDirectory p.
Proof.
  unfold placeModule. intros Hp. apply outcome_then_ok in Hp as [_ Hp].
  apply outcome_bind_ok in Hp as (v & Hv%or_wrap_ok & Hp). apply outcome_bind_ok in Hp as (d & Hd%or_wrap_ok & Hp).
  apply outcome_then_ok in Hp as [Hc%guard_or_ok%bool_decide_eq_true Hp]. apply outcome_bind_ok in Hp as (info & _ & Hp).
  apply outcome_then_ok in Hp as [_ [= <-]]. split; [done|].
  destruct (canonicalDirectory_rooted _ _ Hv) as (vs & Hvs & ->), (canonicalDirectory_rooted _ _ Hd) as (ds & Hds & ->).
  apply containedPath_rooted in Hc as (names & Hne & ->); [|done..]. exists vs, names. split_and!; try done.
  by apply Forall_app in Hds as [_ ?].
Qed.

Lemma offlineEnvironment_off environment entry name :
  name ∈ ["GOPROXY"; "GOSUMDB"] → entry ∈ offlineEnvironment environment → sets name entry = true → entry = name +:+ "=off".
Proof.
  unfold offlineEnvironment, sets. intros Hn [Hf|Hf]%elem_of_app Hs.
  - apply list_elem_of_filter in Hf as [Hf _]. destruct (cut entry "=") as [[key value] found].
    apply andb_true_iff in Hs as [-> Hs]. simpl in Hf. apply orb_false_iff in Hf as [H1' H2'].
    repeat (apply elem_of_cons in Hn as [->|Hn]); [congruence..|by apply not_elem_of_nil in Hn].
  - repeat (apply elem_of_cons in Hn as [->|Hn]; [repeat (apply elem_of_cons in Hf as [->|Hf]; [by vm_compute in Hs|]); by apply not_elem_of_nil in Hf|]).
    by apply not_elem_of_nil in Hn.
Qed.

(** What a catalog of vendored modules relies on and may hold: the go command
    accepted the vendor graph, in an environment whose only settings of the proxy
    and of the checksum database switch them off; the tree is the one that
    [VendorRoot] selects; at most ten thousand modules with distinct paths are
    listed, and the directory of each is below the resolved vendor directory. *)
Theorem VendoredModules_safe ctxErr root environment modules :
  VendoredModules (Some ctxErr) root environment = Ok modules →
  ∃ vendorRoot, VendorRoot root environment = Some vendorRoot ∧
    (go_list_vendor root (offlineEnvironment environment)).2 = None ∧
    (∀ name entry, name ∈ ["GOPROXY"; "GOSUMDB"] → entry ∈ offlineEnvironment environment → sets name entry = true →
      entry = name +:+ "=off") ∧
    NoDup (vm_Path <$> modules) ∧ (length modules ≤ maximumVendorModules)%nat ∧
    Forall (belowVendor (path_join [vendorRoot; "vendor"])) modules.
Proof.
  cbn [VendoredModules]. destruct (VendorRoot root environment) as [vendorRoot|] eqn:Hv; [|done]. intros Hm.
  apply outcome_then_ok in Hm as [Hgo Hm]. apply outcome_bind_ok in Hm as (content & _ & Hm).
  apply parse_ends in Hm as (s' & (s & Hs%vendorLines_never & Hf)%outcome_bind_ok & Hr).
  assert (catalog_of vendorRoot (path_join [vendorRoot; "vendor"]) content modules) as (selected & _ & Hnd & Hn & Hp).
  { apply (ends_catalog never); [done|]. exists s'. split; [apply outcome_bind_ok; by exists s|done]. }
  assert (vm_Path <$> modules = vm_Path <$> selected) as Hpaths.
  { clear -Hp H2 H4. induction Hp as [|m p l k Hmp _ IH]; [done|]. cbn. apply placeModule_below in Hmp as [-> _]. by f_equal. }
  exists vendorRoot. split_and!; [done| | |by rewrite Hpaths|by rewrite <- (Forall2_length _ _ _ Hp)|].
  - unfold validateVendor in Hgo. destruct (go_list_vendor _ _) as [writes [e|]]; done.
  - intros name entry. apply offlineEnvironment_off.
  - clear -Hp H2 H4. induction Hp as [|m p l k Hmp _ IH]; constructor; [by apply placeModule_below in Hmp as [_ ?]|done].
Qed.

(** The workspace that is searched for: the nearest go.work at or above the
    resolved directory. *)
Lemma searchWorkspace_nearest root cs workspace :
  Forall good_name cs → canonicalDirectory root = Ok (rooted cs) →
  searchWorkspace root = Some workspace ↔
  ∃ d, nearestAbove (hasFile "go.work") cs d ∧ workspace = path_join [d; "go.work"].
Proof.
  intros Hc Hd. unfold searchWorkspace. rewrite Hd, fmap_Some. setoid_rewrite firstAbove_nearest; [|done]. naive_solver.
Qed.

(** GOWORK=off leaves module mode, whatever files there are; a GOWORK that is
    not absolute selects nothing and is required. *)
Lemma workspaceSelection_off root environment value :
  goWork (default environ environment) = Some value → equal_fold value "off" = true →
  workspaceSelection root environment = ("", false).
Proof. intros Hg Ho. unfold workspaceSelection. by rewrite Hg, Ho. Qed.

Lemma workspaceSelection_relative root environment value :
  goWork (default environ environment) = Some value → equal_fold value "off" = false → equal_fold value "auto" = false →
  value ≠ "" → path_is_abs value = false → workspaceSelection root environment = ("", true).
Proof. intros Hg Ho Ha Hne Habs. unfold workspaceSelection. by rewrite Hg, Ho, Ha, bool_decide_eq_false_2, Habs. Qed.

(** The mode that the compiler service derives from its view of the process is
    that of this package. *)
Lemma OfflineMode_process goflags root environment :
  @ServiceOptions.OfflineMode (moduleenv_process goflags) root environment = OfflineMode root (Some environment).
Proof. unfold ServiceOptions.OfflineMode, OfflineMode. simpl. by destruct (VendorRoot root (Some environment)). Qed.

End proofs.

(** ** A workspace of two modules with a vendor tree *)

Definition example_files : gmap string string := list_to_map [
  ("/w/go.work", "use ./lib" +:+ newline_str +:+ "use ./app" +:+ newline_str);
  ("/w/app/go.mod", "module example.com/app");
  ("/w/lib/go.mod", "module example.com/lib");
  ("/w/vendor/modules.txt", join ["## workspace"; "# example.com/a v1.0.0"; "example.com/a"; "# example.com/b v1.1.0 => ../b";
     "## explicit"; "example.com/b/x"; "# example.com/c v1.0.0"; ""] newline_str)].

Definition example_info (path : string) : outcome error fileInfo :=
  match example_files !! path with
  | Some content => Ok (mkInfo true false (Z.of_nat (String.length content)))
  | None =>
      if decide (path ∈ ["/w"; "/w/app"; "/w/lib"; "/w/vendor"; "/w/vendor/example.com/a"; "/w/vendor/example.com/b"])
      then Ok (mkInfo false true 0) else Fail (ErrSentinel "file does not exist")
  end.

Definition example_tree : ModuleFiles := {|
  environ := ["PATH=/bin"; "GOPROXY=direct"];
  EvalSymlinks := λ path, Ok (path_clean path);
  os_Stat := example_info;
  OpenRoot := λ directory, match example_info directory with Ok _ => None | Fail err => Some err end;
  RootStat := λ directory name, example_info (path_join [directory; name]);
  RootReadFile := λ directory name, (default "" (example_files !! path_join [directory; name]), None);
  RootClose := λ _, None;
|}.

Lemma example_tree_laws : @ModuleFilesLaws example_tree.
Proof. split. intros p q Hp [= <-]. destruct (path_clean_abs p Hp) as (cs & Hcs & ->). by exists cs. Qed.

Definition example_mod : ModFile := {|
  ParseWork := λ _ content, Ok (omap (λ line, if has_prefix line "use " then Some (str_drop 4 line) else None)
    (split_byte newline content));
  ModulePath := λ content, if has_prefix content "module " then str_drop 7 content else "";
  CheckPath := λ path, if decide (path = "") then Some (ErrNew "malformed module path") else None;
  CheckImportPath := λ path, if has_prefix path "example.com/" then None else Some (ErrNew "malformed import path");
  CheckModule := λ _ version, if has_prefix version "v" then None else Some (ErrNew "malformed version");
|}.

(** The go command accepts the graph when it may not use the network. *)
Definition example_go : GoCommand := {|
  go_list_vendor := λ _ environment,
    if decide ("GOPROXY=off" ∈ environment ∧ "GOPROXY=direct" ∉ environment) then ([], None)
    else (["go: network"], Some (ErrNew "exit status 1"));
|}.

Notation example_modules := (@WorkspaceModules ascii_tables ascii_fold plain_urls example_tree example_mod).
Notation example_vendored := (@VendoredModules ascii_tables ascii_fold plain_urls example_tree example_mod example_go).

Example workspace_of_app :
  example_modules (Some never) "/w/app/internal" None =
    Ok [mkWorkspaceModule "example.com/app" "/w/app"; mkWorkspaceModule "example.com/lib" "/w/lib"] ∧
  example_modules (Some never) "/w/app" (Some ["GOWORK=/w/go.work"; "GOWORK=off"]) =
    Ok [mkWorkspaceModule "example.com/app" "/w/app"] ∧
  is_ok (example_modules (Some never) "/w/app" (Some ["GOWORK=go.work"])) = false ∧
  is_ok (example_modules (Some never) "/w" None) = false.
Proof. vm_compute. done. Qed.

Example vendored_of_app :
  (λ m, (vm_Path m, vm_Directory m, vm_ReplacementDirectory m)) <$> default [] (match example_vendored (Some never) "/w/app" None with Ok l => Some l | _ => None end) =
    [("example.com/a", "/w/vendor/example.com/a", ""); ("example.com/b", "/w/vendor/example.com/b", "/b")].
Proof. vm_compute. done. Qed.

Definition example_catalog : list VendoredModule := [
  mkVendored "example.com/a" "v1.0.0" "/w/vendor/example.com/a" "" "" "" false;
  mkVendored "example.com/b" "v1.1.0" "/w/vendor/example.com/b" "../b" "" "/b" true].
Definition example_manifest : string := default "" (example_files !! "/w/vendor/modules.txt").

Lemma WorkspaceModules_exact_witness :
  let modules := [mkWorkspaceModule "example.com/app" "/w/app"; mkWorkspaceModule "example.com/lib" "/w/lib"] in
  example_modules (Some never) "/w/app/internal" None = Ok modules ∧
  ∃ cs target, Forall good_name cs ∧ @canonicalDirectory plain_urls example_tree "/w/app/internal" = Ok (rooted cs) ∧
    nearestAbove (@hasFile example_tree "go.mod") cs target.
Proof.
  intros modules. assert (example_modules (Some never) "/w/app/internal" None = Ok modules) as Hm by (vm_compute; done).
  split; [exact Hm|].
  destruct (@WorkspaceModules_exact ascii_tables ascii_fold plain_urls plain_urls_laws example_tree example_tree_laws example_mod
    never "/w/app/internal" None modules (λ _, eq_refl)) as [Hx _].
  destruct (Hx Hm) as (cs & target & H1 & H2 & H3 & _). exists cs, target. split_and!; done.
Defined.

Lemma parseVendoredModules_exact_witness :
  @parseVendoredModules ascii_tables plain_urls example_tree example_mod never "/w" "/w/vendor" example_manifest = Ok example_catalog ∧
  @catalog_of ascii_tables plain_urls example_tree example_mod "/w" "/w/vendor" example_manifest example_catalog.
Proof.
  assert (@parseVendoredModules ascii_tables plain_urls example_tree example_mod never "/w" "/w/vendor" example_manifest = Ok example_catalog)
    as Hm by (vm_compute; done).
  split; [exact Hm|]. by apply (@parseVendoredModules_exact ascii_tables plain_urls example_tree example_mod never "/w" "/w/vendor" example_manifest example_catalog (λ _, eq_refl)).
Defined.

Lemma VendoredModules_safe_witness :
  example_vendored (Some never) "/w/app" None = Ok example_catalog ∧
  Forall (@belowVendor plain_urls example_tree "/w/vendor") example_catalog.
Proof.
  assert (example_vendored (Some never) "/w/app" None = Ok example_catalog) as Hm by (vm_compute; done).
  split; [exact Hm|].
  destruct (@VendoredModules_safe ascii_tables ascii_fold plain_urls plain_urls_laws example_tree example_tree_laws example_mod
    example_go never "/w/app" None example_catalog Hm) as (root & Hr & _ & _ & _ & _ & Hb).
  assert (root = "/w") as -> by (vm_compute in Hr; by injection Hr as <-). exact Hb.
Defined.
