(* ===== verification/GenNames.v ===== *)
(** The names that code generation gives: target identities
    (src/compiler/targetid/targetid.go), the default target of an application and
    its validation (DefaultTarget of src/compiler/generate/generate.go,
    validateTarget of validation.go), identifiers of variables and functions
    (naming.go), import aliases (aliasesForTypes and
    ensureSourceUnitImportAlias of source_units.go, the import names of
    dependency_render.go) and component fields (components.go).

    The search for an unused alias has one step more than there are aliases in
    use, which is enough ([fresh_spec]). *)
From S2P Require Import Prelude GoSort GoStrings Sha256 GenPlan GoPath GenProtect GoUrl.
From S2P Require Provider.

(** The class [unicode.IsLower] from U+0080 on. *)
Class LowerTable := { tbl_lower : N → bool }.
Definition is_lower `{LowerTable} (r : N) : bool := if (r <? 128)%N then in_range 97 122 r else tbl_lower r.

(** ** Package targetid *)

(** The last byte of a text. *)
Definition last_byte (s : string) : option ascii := last (String.list_ascii_of_string s).

Definition validLetter (character : ascii) : bool := in_range 97 122 (byte_of character).
Definition validDigit (character : ascii) : bool := in_range 48 57 (byte_of character).

(** One byte of the loop of [Default]. *)
Definition targetByte (result : string) (character : ascii) : string :=
  if validLetter character || (validDigit character && negb (bool_decide (result = ""))) then result +:+ str1 character
  else if negb (bool_decide (result = "")) && negb (bool_decide (last_byte result = Some "_"%char)) then result +:+ "_"
  else result.

Section targetid.
Context `{UnicodeTables}.

Definition Default (name : string) : string :=
  let id := trim_suffix (foldl targetByte "" (String.list_ascii_of_string (to_lower name))) "_" in
  if decide (id = "") then "application" else id.

End targetid.

(** [targetIDPattern] *)
Definition targetIDCharacter (c : ascii) : bool := validLetter c || validDigit c || bool_decide (c = "_"%char).
Definition matchesTargetID (id : string) : bool :=
  match id with
  | String c rest => validLetter c && str_forall targetIDCharacter rest
  | EmptyString => false
  end.

(** ** Identifiers *)

(** [token.IsKeyword] *)
Definition keywords : list string := [
  "break"; "case"; "chan"; "const"; "continue"; "default"; "defer"; "else"; "fallthrough"; "for"; "func"; "go"; "goto";
  "if"; "import"; "interface"; "map"; "package"; "range"; "return"; "select"; "struct"; "switch"; "type"; "var"].

Section identifiers.
Context `{UnicodeTables} `{LowerTable}.

(** [token.IsIdentifier] and [token.IsExported] *)
Definition IsIdentifier (name : string) : bool :=
  negb (bool_decide (name = "" ∨ name ∈ keywords)) &&
  match fst <$> runes name with
  | [] => true
  | c :: rest => (is_letter c || (c =? 95)%N) && forallb (λ c, is_letter c || (c =? 95)%N || is_digit c) rest
  end.
Definition IsExported (name : string) : bool := is_upper (decode_rune name).1.

Definition encode_runes (rs : list N) : string := join (encode_rune <$> rs) "".

(** One character of the loop of [normalizeGeneratedIdentifier]. *)
Definition normalizeRune (state : string * bool) (character : N) : string * bool :=
  let '(builder, upperNext) := state in
  if is_letter character || (character =? 95)%N || (negb (bool_decide (builder = "")) && is_digit character) then
    if upperNext : bool then (builder +:+ encode_rune (rune_to_upper character), false)
    else (builder +:+ encode_rune character, false)
  else (builder, negb (bool_decide (builder = ""))).

Definition normalizeGeneratedIdentifier (name fallback : string) : string :=
  if IsIdentifier name then name
  else
    let normalized := (foldl normalizeRune ("", false) (fst <$> runes name)).1 in
    if IsIdentifier normalized then normalized else fallback.

Definition exportedGeneratedIdentifier (name fallback : string) : string :=
  let name := normalizeGeneratedIdentifier name fallback in
  let '(first, size) := decode_rune name in
  let name := encode_rune (rune_to_upper first) +:+ str_drop size name in
  if negb (IsIdentifier name) || negb (IsExported name) then fallback else name.

(** The loop of [lowerGeneratedInitialism] over the characters after the first:
    how many of them belong to the initialism. *)
Fixpoint initialism (rs : list N) : nat :=
  match rs with
  | [] => 0
  | character :: rest =>
      if negb (is_upper character) then 0
      else match rest with
           | next :: _ => if is_lower next then 0 else S (initialism rest)
           | [] => 1
           end
  end.

Definition lowerGeneratedInitialism (name : string) : string :=
  match fst <$> runes name with
  | [] => name
  | first :: rest =>
      let end_ := initialism rest in
      encode_runes ((rune_to_lower <$> first :: take end_ rest) ++ drop end_ rest)
  end.

Definition generatedLocalReserved (name : string) : bool :=
  bool_decide (name ∈ ["application"; "append"; "authorizer"; "cap"; "clear"; "close"; "complex"; "configurationSchema";
    "configurationSnapshot"; "copy"; "ctx"; "delete"; "dependencies"; "error"; "err"; "false"; "httpObservers"; "imag";
    "len"; "logger"; "make"; "managementMetrics"; "max"; "min"; "new"; "nil"; "observers"; "options"; "panic"; "print";
    "println"; "real"; "recover"; "true"]).

Definition localGeneratedIdentifier (name fallback : string) : string :=
  let name := lowerGeneratedInitialism (normalizeGeneratedIdentifier name fallback) in
  if negb (IsIdentifier name) then fallback
  else if generatedLocalReserved name then name +:+ "Bean"
  else name.

End identifiers.

(** ** Types and providers *)

(** The object of a named type: its name, and the path and name of its package. *)
Record typeName := mkTypeName { tn_Name : string; tn_Pkg : option (string * string) }.

(** A [types.Type] as far as the generator looks into it: named types and aliases
    with their type arguments, the type an alias stands for, and of a type it
    does not look into the text. The flag says whether the underlying type is a struct. *)
Inductive goType : Type :=
  | TBasic (name : string)
  | TNamed (obj : option typeName) (args : list goType) (struct : bool)
  | TAlias (obj : option typeName) (args : list goType) (rhs : goType)
  | TPointer (elem : goType)
  | TSlice (elem : goType)
  | TArray (elem : goType)
  | TMap (key elem : goType)
  | TChan (elem : goType)
  | TOpaque (text : string) (struct : bool).

(** [load.Symbol], the fields read here. *)
Record Symbol := mkSymbol { sy_Kind : string; sy_Name : string; sy_PackagePath : string }.
Definition SymbolMethod : string := "method".

Record Dependency := mkDependency { dp_Type : goType; dp_Kind : string }.
Record InterfaceBinding := mkBinding { ib_Type : goType; ib_TypeID : string }.

Definition ConstructionFactory : string := "factory".
Definition ConstructionAllocate : string := "allocate".

(** The fields of [provider.Provider] that the generator reads. *)
Record bean := mkBean {
  b_Source : string;
  b_Construction : string;
  b_Symbol : Symbol;
  b_Constructor : Symbol;
  b_SymbolID : string;
  b_Name : string;
  b_ExplicitName : bool;
  b_Scope : string;
  b_PackagePath : string;
  b_Position : Provider.Position;
  b_PhysicalPosition : Provider.Position;
  b_Output : goType;
  b_OutputTypeID : string;
  b_Dependencies : list Dependency;
  b_Interfaces : list InterfaceBinding;
  b_ReturnsCleanup : bool;
  b_ReturnsError : bool;
}.

Fixpoint generatedTypeName (value : goType) : string :=
  match value with
  | TAlias _ _ rhs => generatedTypeName rhs
  | TNamed (Some obj) _ _ => tn_Name obj
  | TPointer elem => generatedTypeName elem
  | _ => "Interface"
  end.

Section naming.
Context `{UnicodeTables} `{LowerTable}.

Definition semanticProviderName (item : bean) : string :=
  let name := if decide (b_Name item = "") then sy_Name (b_Symbol item) else b_Name item in
  let outputName := generatedTypeName (b_Output item) in
  if negb (b_ExplicitName item) && bool_decide (name = "New" ∨ name = "new") && negb (bool_decide (outputName = "Interface"))
  then outputName
  else if negb (b_ExplicitName item) && (has_prefix name "New" || has_prefix name "new") && (3 <? String.length name)%nat
  then let trimmed := str_drop 3 name in if IsIdentifier trimmed then trimmed else name
  else name.

Definition providerVariableBase (item : bean) (index : nat) : string :=
  localGeneratedIdentifier (semanticProviderName item) ("provider" +:+ itoa (Z.of_nat index)).

(** The counts of a map[string]int. *)
Definition countOf (counts : gmap string nat) (base : string) : nat := default 0%nat (counts !! base).
Definition addCount (counts : gmap string nat) (base : string) : gmap string nat :=
  <[base := S (countOf counts base)]> counts.
Definition baseCounts (bases : list string) : gmap string nat := foldl addCount ∅ bases.

(** The suffix that the second and later uses of a base get. *)
Fixpoint numbered (used : gmap string nat) (bases : list string) : list string :=
  match bases with
  | [] => []
  | base :: bases =>
      let used := addCount used base in
      (if (1 <? countOf used base)%nat then base +:+ itoa (Z.of_nat (countOf used base)) else base) :: numbered used bases
  end.

(** A base that several providers share has the name of the package before it. *)
Definition qualifiedBase (counts : gmap string nat) (item : bean) (base : string) : string :=
  if (1 <? countOf counts base)%nat then
    localGeneratedIdentifier (path_base (b_PackagePath item)) "pkg" +:+ exportedGeneratedIdentifier base "Bean"
  else base.

Definition variableBases (providers : list bean) : list string :=
  let bases := imap (λ index item, providerVariableBase item index) providers in
  zip_with (qualifiedBase (baseCounts bases)) providers bases.
Definition providerVariableNames (providers : list bean) : list string := numbered ∅ (variableBases providers).

(** ** The fields of Components *)

Definition exportedComponentFieldName (name : string) (index : nat) : string :=
  let fallback := "Provider" +:+ itoa (Z.of_nat index) in
  match name with
  | EmptyString => fallback
  | String first rest =>
      let name := if in_range 97 122 (byte_of first) then String (chr (byte_of first - 32)) rest else name in
      if negb (IsIdentifier name) then fallback else name
  end.

Definition componentFieldBase (item : bean) (index : nat) : string :=
  let base := exportedComponentFieldName (semanticProviderName item) index in
  if b_ExplicitName item || negb (has_prefix base "New") || (String.length base =? 3)%nat then base
  else let trimmed := str_drop 3 base in if IsIdentifier trimmed then trimmed else base.

(** [publicNamedComponentType] of an object, with the verdict on its arguments. *)
Definition publicObject (object : option typeName) (arguments : bool) : bool :=
  match object with
  | None => false
  | Some obj => negb (bool_decide (is_Some (tn_Pkg obj)) && negb (IsExported (tn_Name obj))) && arguments
  end.

Fixpoint publicComponentType (value : goType) : bool :=
  match value with
  | TBasic _ => true
  | TNamed obj args _ => publicObject obj (forallb publicComponentType args)
  | TAlias obj args _ => publicObject obj (forallb publicComponentType args)
  | TPointer elem | TSlice elem | TArray elem | TChan elem => publicComponentType elem
  | TMap key elem => publicComponentType key && publicComponentType elem
  | TOpaque _ _ => false
  end.

Definition sourceUnitConstructsProvider (item : bean) : bool :=
  bool_decide (b_Source item ∈ [Provider.SourceBean; Provider.SourceStarter; Provider.SourceAutoConfiguration; Provider.SourceStereotype]).

Record generatedComponentField := mkField {
  cf_providerID : string;
  cf_beanName : string;
  cf_fieldName : string;
  cf_output : goType;
  cf_overridable : bool;
}.

(** The type that a provider is exposed with, and whether policies manage it. *)
Definition exposedType (policyInterfaces : gmap string goType) (item : bean) : goType :=
  default (b_Output item) (policyInterfaces !! b_SymbolID item).

(** The candidates with their index and base. *)
Definition componentCandidates (policyInterfaces : gmap string goType) (providers : list bean) : list (bean * nat * string) :=
  filter (λ candidate,
    negb (bool_decide (b_Source candidate.1.1 = Provider.SourceLogging)) && bool_decide (b_Scope candidate.1.1 = Provider.BeanScopeSingleton) &&
    publicComponentType (exposedType policyInterfaces candidate.1.1) = true)
  (imap (λ index item, (item, index, componentFieldBase item index)) providers).

Definition componentBases (candidates : list (bean * nat * string)) : list string :=
  let counts := baseCounts (snd <$> candidates) in
  (λ candidate, let '(item, index, base) := candidate in
    if (1 <? countOf counts base)%nat
    then exportedComponentFieldName (path_base (b_PackagePath item)) index +:+ base else base) <$> candidates.

Definition generatedComponentFields (policyInterfaces : gmap string goType) (providers : list bean)
    : list generatedComponentField :=
  let candidates := componentCandidates policyInterfaces providers in
  zip_with (λ candidate fieldName,
    let item := candidate.1.1 in
    mkField (b_SymbolID item) (b_Name item) fieldName (exposedType policyInterfaces item)
      (negb (bool_decide (is_Some (policyInterfaces !! b_SymbolID item))) && sourceUnitConstructsProvider item))
    candidates (numbered ∅ (componentBases candidates)).

End naming.

(** ** Import aliases *)

Definition addTypeObjectImportName (names aliases : gmap string string) (object : option typeName) : gmap string string :=
  match object ≫= tn_Pkg with
  | None => names
  | Some (importPath, name) => if decide (is_Some (aliases !! importPath)) then names else <[importPath := name]> names
  end.

Fixpoint addTypeImportName (aliases names : gmap string string) (value : goType) : gmap string string :=
  match value with
  | TNamed obj args _ => foldl (addTypeImportName aliases) (addTypeObjectImportName names aliases obj) args
  | TAlias obj args _ => foldl (addTypeImportName aliases) (addTypeObjectImportName names aliases obj) args
  | TPointer elem | TSlice elem | TArray elem | TChan elem => addTypeImportName aliases names elem
  | TMap key elem => addTypeImportName aliases (addTypeImportName aliases names key) elem
  | TBasic _ | TOpaque _ _ => names
  end.

(** [for suffix := 2; ; suffix++ { if !used[alias] { break }; alias = base + strconv.Itoa(suffix) }] *)
Fixpoint freshLoop (fuel : nat) (used : gset string) (base : string) (suffix : nat) (alias : string) : option string :=
  match fuel with
  | O => None
  | S fuel =>
      if decide (alias ∉ used) then Some alias
      else freshLoop fuel used base (S suffix) (base +:+ itoa (Z.of_nat suffix))
  end.
Definition fresh (used : gset string) (base : string) : string :=
  default base (freshLoop (S (size used)) used base 2 base).

(** The loop of [aliasesForTypes] over the sorted import paths. *)
Fixpoint aliasLoop (names : gmap string string) (used : gset string) (aliases : gmap string string) (paths : list string)
    : gmap string string :=
  match paths with
  | [] => aliases
  | importPath :: paths =>
      let alias := fresh used (default "" (names !! importPath)) in
      aliasLoop names ({[alias]} ∪ used) (<[importPath := alias]> aliases) paths
  end.

Definition aliasesForTypes (values : list goType) (localPackageName : string) : gmap string string :=
  let names := foldl (addTypeImportName ∅) ∅ values in
  aliasLoop names {["spicegen"; localPackageName]} ∅ (sort_strings (map_to_list names).*1).

Definition ensureSourceUnitImportAlias (aliases : gmap string string) (importPath preferred : string)
    : gmap string string * string :=
  let alias := default "" (aliases !! importPath) in
  if decide (alias = "") then
    let alias := fresh (list_to_set (map_to_list aliases).*2) preferred in
    (<[importPath := alias]> aliases, alias)
  else (aliases, alias).

(** ** The default target and its validation *)

(** A package of the program with its Go module, and an application marker. *)
Record goModule := mkModule { mo_Path : string; mo_Dir : string }.
Record Package := mkPackage { pk_Path : string; pk_Name : string; pk_Dir : string; pk_Module : option goModule }.
Record applicationTarget := mkApplication {
  ap_SymbolID : string;
  ap_Name : string;
  ap_PackagePath : string;
  ap_Position : Provider.Position;
  ap_PhysicalPosition : Provider.Position;
  ap_automatic : bool;
}.

Record Diagnostic := mkDiagnostic {
  gd_Position : Provider.Position;
  gd_PhysicalPosition : Provider.Position;
  gd_TargetID : string;
  gd_Kind : string;
  gd_Message : string;
}.

Definition targetDiagnostic (target : applicationTarget) (kind message : string) : Diagnostic :=
  mkDiagnostic (ap_Position target) (ap_PhysicalPosition target) (ap_SymbolID target) kind message.
Definition providerRenderDiagnostic (target : applicationTarget) (item : bean) (kind message : string) : Diagnostic :=
  mkDiagnostic (b_Position item) (b_PhysicalPosition item) (ap_SymbolID target) kind message.

Definition diagnosticLess : Diagnostic → Diagnostic → bool :=
  by_key (λ d, Provider.Filename (gd_PhysicalPosition d)) str_ltb
  (by_key (λ d, Provider.Offset (gd_PhysicalPosition d)) Z.ltb
  (by_key gd_TargetID str_ltb (by_key gd_Kind str_ltb (on_key gd_Message str_ltb)))).
Definition sortDiagnostics (diagnostics : list Diagnostic) : list Diagnostic := sort_stable diagnosticLess diagnostics.

Definition packageByPath (packages : list Package) (packagePath : string) : option Package :=
  snd <$> list_find (λ pkg, pk_Path pkg = packagePath) packages.

(** [if cond { add(...) }] *)
Definition report_if {A} (cond : bool) (a : A) : list A := if cond then [a] else [].

Definition zeroTarget : Target := Build_Target "" "" "" "" "" "" "" "" "".

Section target.
Context `{UnicodeTables} `{LowerTable}.

Definition validateTargetLayout (target : Target) (application : applicationTarget) : list Diagnostic :=
  let add := targetDiagnostic application in
  if decide (t_Layout target = LayoutApplicationPackage) then
    report_if (bool_decide (t_BridgeDir target = ""))
      (add "bridge-dir" "application-package entrypoint directory is required") ++
    report_if (bool_decide (t_EntrypointPackagePath target = ""))
      (add "entrypoint-package" "application-package entrypoint import path is required")
  else if decide (t_Layout target = LayoutGeneratedPackage) then
    report_if (negb (bool_decide (t_BridgeDir target = "")))
      (add "bridge-dir" "generated-package target must not declare an entrypoint directory") ++
    report_if (negb (bool_decide (t_EntrypointPackagePath target = "")))
      (add "entrypoint-package" "generated-package target must not declare an entrypoint import path")
  else [add "layout" ("generation target layout " +:+ go_quote (t_Layout target) +:+ " is unsupported")].

Definition validateTarget (target : Target) (application : applicationTarget) : list Diagnostic :=
  let add := targetDiagnostic application in
  sortDiagnostics (
    report_if (negb (matchesTargetID (t_ID target)))
      (add "target-id" ("generation target ID " +:+ go_quote (t_ID target) +:+ " must match ^[a-z][a-z0-9_]*$")) ++
    report_if (bool_decide (t_ModulePath target = "")) (add "module-path" "generation target module path is required") ++
    report_if (bool_decide (t_ModuleRoot target = "")) (add "module-root" "generation target module root is required") ++
    report_if (bool_decide (t_PackagePath target = "")) (add "package-path" "generated package import path is required") ++
    report_if (bool_decide (t_OutputDir target = "")) (add "output-dir" "generated output directory is required") ++
    validateTargetLayout target application ++
    report_if (bool_decide (t_ManifestPath target = "")) (add "manifest-path" "generated manifest path is required")).

(** The target of a module and package, before it is validated; [None] for a
    package outside of its module. *)
Definition targetOf (m : goModule) (pkg : Package) (application : applicationTarget) : option Target :=
  let id := Default (ap_Name application) in
  let outputDir := path_join ["internal"; "spicegen"; id] in
  let packagePath := path_join [mo_Path m; outputDir] in
  let manifestPath := path_join [".spice"; id +:+ ".manifest.json"] in
  if ap_automatic application then
    match filepath_rel (mo_Dir m) (pk_Dir pkg) with
    | Some relative =>
        if negb (is_local relative) && negb (bool_decide (relative = ".")) then None
        else Some (Build_Target id LayoutApplicationPackage (mo_Path m) (mo_Dir m) packagePath (ap_PackagePath application)
               outputDir relative manifestPath)
    | None => None
    end
  else Some (Build_Target id LayoutGeneratedPackage (mo_Path m) (mo_Dir m) packagePath "" outputDir "" manifestPath).

Definition DefaultTarget (program : option (list Package)) (application : applicationTarget) : Target * list Diagnostic :=
  match program with
  | None => (zeroTarget, [mkDiagnostic Provider.no_position Provider.no_position "" "invalid-program"
               "derive generation target: loaded program is nil"])
  | Some packages =>
      match packageByPath packages (ap_PackagePath application) with
      | Some (mkPackage _ _ _ (Some m) as pkg) =>
          match targetOf m pkg application with
          | None =>
              (zeroTarget, [targetDiagnostic application "package-directory"
                 ("derive package-main output for " +:+ ap_PackagePath application +:+ " inside module " +:+ mo_Path m)])
          | Some target =>
              let diagnostics := validateTarget target application in
              if decide (diagnostics = []) then (target, []) else (zeroTarget, diagnostics)
          end
      | _ =>
          (zeroTarget, [targetDiagnostic application "module"
             ("@Application target " +:+ ap_SymbolID application +:+
              " is not owned by a Go module; select a module-backed package")])
      end
  end.

(** ** What can be rendered *)

Definition providerConstructionExported (item : bean) : bool :=
  if decide (b_Construction item = ConstructionAllocate) then IsExported (sy_Name (b_Symbol item))
  else if negb (bool_decide (sy_Name (b_Constructor item) = "")) then IsExported (sy_Name (b_Constructor item))
  else IsExported (b_Name item).

(** The last package of a path gives the name that is looked up. *)
Definition packageNames (packages : list Package) : gmap string string :=
  foldl (λ names pkg, <[pk_Path pkg := pk_Name pkg]> names) ∅ packages.

Definition providerVisibility (names : gmap string string) (application : applicationTarget) (target : Target) (item : bean)
    : list Diagnostic :=
  if decide (b_Source item = Provider.SourceLogging) then []
  else if decide (b_PackagePath item = t_PackagePath target) then
    [providerRenderDiagnostic application item "self-import"
       ("provider " +:+ b_SymbolID item +:+ " is declared in generated package " +:+ t_PackagePath target)]
  else if decide (names !! b_PackagePath item = Some "main") then
    [providerRenderDiagnostic application item "main-package"
       ("provider " +:+ b_SymbolID item +:+ " is declared in package main, which generated package " +:+
        t_PackagePath target +:+ " cannot import; move providers into an importable package")]
  else if negb (providerConstructionExported item) then
    [providerRenderDiagnostic application item "unexported-provider"
       ("provider " +:+ b_SymbolID item +:+ " construction is unexported; target-scoped generated packages require exported " +:+
        "@Bean functions or exported stereotype types and constructors")]
  else [].
Definition providerVisibilityDiagnostics (packages : list Package) (providers : list bean) (application : applicationTarget)
    (target : Target) : list Diagnostic :=
  providers ≫= providerVisibility (packageNames packages) application target.

(** [cacheCapacityKey], [cacheTTLKey] and [cacheEnvironment]. *)
Definition cacheCapacityKey (name : string) : string := "spice.cache." +:+ name +:+ ".capacity".
Definition cacheTTLKey (name : string) : string := "spice.cache." +:+ name +:+ ".ttl".
Definition underscored (name : string) : string :=
  String.string_of_list_ascii ((λ c, if decide (c = "."%char ∨ c = "-"%char) then "_"%char else c) <$> String.list_ascii_of_string name).
Definition cacheEnvironment (name suffix : string) : string :=
  "SPICE_CACHE_" +:+ to_upper (underscored name) +:+ "_" +:+ suffix.

(** The fields of [configuration.Field] and [configuration.Type] read here. *)
Record configField := mkConfigField {
  cg_Name : string;
  cg_Type : goType;
  cg_TypeID : string;
  cg_Key : string;
  cg_Kind : string;
  cg_Environment : string;
  cg_Position : Provider.Position;
  cg_PhysicalPosition : Provider.Position;
}.
Record configType := mkConfigType {
  ct_SymbolID : string;
  ct_Name : string;
  ct_Type : goType;
  ct_TypeID : string;
  ct_fields : list configField;
}.

(** The keys and the environment variables that the framework owns, from whether
    the model has asynchronous tasks and the names of its caches. *)
Definition reservedKeys (asynchronous : bool) (caches : list string) : gset string :=
  {["spice.shutdown-timeout"]} ∪ (if asynchronous then {["spice.async.max-concurrency"]} else ∅) ∪
  list_to_set (caches ≫= λ name, [cacheCapacityKey name; cacheTTLKey name]).
Definition reservedEnvironments (asynchronous : bool) (caches : list string) : gset string :=
  {["SPICE_SHUTDOWN_TIMEOUT"]} ∪ (if asynchronous then {["SPICE_ASYNC_MAX_CONCURRENCY"]} else ∅) ∪
  list_to_set (caches ≫= λ name, [cacheEnvironment name "CAPACITY"; cacheEnvironment name "TTL"]).

Definition reservedField (keys environments : gset string) (application : applicationTarget) (type : configType)
    (field : configField) : list Diagnostic :=
  let add := mkDiagnostic (cg_Position field) (cg_PhysicalPosition field) (ap_SymbolID application) "reserved-configuration" in
  let named := "configuration field " +:+ ct_TypeID type +:+ "." +:+ cg_Name field in
  if decide (cg_Key field ∈ keys) then
    [add (named +:+ " uses framework-owned key " +:+ go_quote (cg_Key field) +:+ "; choose a different prefix or field key")]
  else if decide (cg_Environment field ∈ environments) then
    [add (named +:+ " uses framework-owned environment variable " +:+ go_quote (cg_Environment field) +:+
       "; choose a different environment mapping")]
  else [].
Definition reservedConfigurationDiagnostics (asynchronous : bool) (caches : list string) (types : list configType)
    (application : applicationTarget) : list Diagnostic :=
  types ≫= λ type,
    ct_fields type ≫= reservedField (reservedKeys asynchronous caches) (reservedEnvironments asynchronous caches) application type.

End target.

(** ** Target identities *)

Notation chars := String.list_ascii_of_string.

Lemma chars_app s t : chars (s +:+ t) = chars s ++ chars t.
Proof. induction s as [|c s IH]; [done|]. rewrite str_cons_app. cbn [String.list_ascii_of_string app]. by rewrite IH. Qed.

Lemma last_byte_snoc s c : last_byte (s +:+ str1 c) = Some c.
Proof. unfold last_byte. rewrite chars_app. apply last_snoc. Qed.

Lemma trim_suffix_appended r s : trim_suffix (r +:+ s) s = r.
Proof.
  unfold trim_suffix, has_suffix. rewrite length_str_app.
  replace (String.length r + String.length s - String.length s)%nat with (String.length r) by lia.
  rewrite str_drop_app, bool_decide_eq_true_2 by done. destruct (Nat.leb_spec (String.length s) (String.length r + String.length s)); [|lia].
  apply str_take_app.
Qed.

Lemma trim_suffix_last r c : last_byte r ≠ Some c → trim_suffix r (str1 c) = r.
Proof.
  intros Hl. unfold trim_suffix, has_suffix. destruct (_ && _) eqn:E; [|done]. apply andb_true_iff in E as [_ E]. bool_prop. exfalso. apply Hl.
  rewrite <- (str_take_drop (String.length r - String.length (str1 c)) r), E. apply last_byte_snoc.
Qed.

(** A text that does not end in [c], or such a text and one [c] more. *)
Lemma last_byte_inv r c : last_byte r = Some c → ∃ p, r = p +:+ str1 c.
Proof.
  unfold last_byte. intros (l & Hl)%last_Some. exists (String.string_of_list_ascii l).
  rewrite <- (String.string_of_list_ascii_of_string r), Hl. clear. induction l as [|d l IH]; [done|]. cbn. by rewrite IH.
Qed.

(** No two underscores follow each other. *)
Fixpoint single_underscores (s : string) : bool :=
  match s with
  | String c (String d _ as rest) => negb (bool_decide (c = "_"%char) && bool_decide (d = "_"%char)) && single_underscores rest
  | _ => true
  end.

Lemma single_underscores_snoc s c :
  single_underscores (s +:+ str1 c) = single_underscores s && negb (bool_decide (last_byte s = Some "_"%char) && bool_decide (c = "_"%char)).
Proof.
  induction s as [|d s IH]; [done|]. destruct s as [|e s].
  - change (single_underscores (String d "" +:+ str1 c)) with (negb (bool_decide (d = "_"%char) && bool_decide (c = "_"%char)) && true).
    rewrite andb_true_r. change (last_byte (String d "")) with (Some d). cbn [single_underscores andb]. do 2 f_equal. apply bool_decide_ext. naive_solver.
  - change (single_underscores (String d (String e s) +:+ str1 c)) with
      (negb (bool_decide (d = "_"%char) && bool_decide (e = "_"%char)) && single_underscores (String e s +:+ str1 c)).
    rewrite IH, andb_assoc. done.
Qed.

(** The identities: a lower-case letter first, then letters, digits and single
    underscores, the last of which is not at the end. *)
Definition canonicalID (id : string) : Prop :=
  matchesTargetID id = true ∧ single_underscores id = true ∧ last_byte id ≠ Some "_"%char.

Lemma matchesTargetID_snoc r c : r ≠ "" → matchesTargetID (r +:+ str1 c) = matchesTargetID r && targetIDCharacter c.
Proof. destruct r as [|d r]; [done|]. intros _. rewrite str_cons_app. unfold matchesTargetID. rewrite str_forall_app, andb_assoc. cbn [str1 str_forall]. by rewrite andb_true_r. Qed.

(** The builder of the loop. *)
Definition building (r : string) : Prop := r = "" ∨ matchesTargetID r = true ∧ single_underscores r = true.

Lemma letter_not_underscore c : validLetter c || validDigit c = true → c ≠ "_"%char.
Proof. by intros Hc ->. Qed.

Lemma targetByte_building r c : building r → building (targetByte r c).
Proof.
  unfold targetByte. intros Hr. destruct (decide (r = "")) as [->|Hne].
  - rewrite bool_decide_eq_true_2 by done. cbn [negb andb]. rewrite andb_false_r, orb_false_r.
    destruct (validLetter c) eqn:Hc; [|by left]. right. rewrite str_nil_app. cbn [matchesTargetID str1 str_forall single_underscores]. by rewrite Hc.
  - destruct Hr as [->|[Hm Hs]]; [done|]. rewrite (bool_decide_eq_false_2 (r = "")) by done. cbn [negb andb]. rewrite andb_true_r.
    destruct (validLetter c || validDigit c) eqn:Hc.
    + right. rewrite matchesTargetID_snoc, single_underscores_snoc, Hm, Hs by done. unfold targetIDCharacter. rewrite Hc.
      rewrite (bool_decide_eq_false_2 (c = _)) by by apply letter_not_underscore. by rewrite andb_false_r.
    + destruct (decide (last_byte r = Some "_"%char)) as [Hl|Hl].
      * rewrite bool_decide_eq_true_2 by done. by right.
      * rewrite (bool_decide_eq_false_2 (last_byte r = _)) by done. cbn [negb]. right.
        change "_" with (str1 "_"%char). rewrite matchesTargetID_snoc, single_underscores_snoc, Hm, Hs by done.
        by rewrite (bool_decide_eq_false_2 (last_byte r = _)).
Qed.

Lemma building_trimmed r : building r → r ≠ "" → canonicalID (trim_suffix r "_").
Proof.
  intros [->|[Hm Hs]] Hne; [done|]. change "_" with (str1 "_"%char). destruct (decide (last_byte r = Some "_"%char)) as [Hl|Hl].
  - apply last_byte_inv in Hl as [p ->]. rewrite trim_suffix_appended. rewrite single_underscores_snoc in Hs.
    destruct (decide (p = "")) as [->|Hp]; [done|]. rewrite matchesTargetID_snoc in Hm by done.
    apply andb_true_iff in Hm as [Hm _], Hs as [Hs Hx]. split_and!; [done..|]. intros Hl. by rewrite bool_decide_eq_true_2 in Hx.
  - by rewrite trim_suffix_last.
Qed.

Section default.
Context `{UnicodeTables}.

Lemma Default_canonicalID name : canonicalID (Default name).
Proof.
  unfold Default. set (r := foldl targetByte "" _).
  assert (building r) as Hr.
  { unfold r. generalize (or_introl eq_refl : building ""). generalize "". induction (chars (to_lower name)) as [|c l IH]; [done|].
    intros r0 Hr0. apply IH, targetByte_building, Hr0. }
  case_decide as Ht; [by split_and!; vm_compute|]. apply building_trimmed; [done|]. intros He. by rewrite He in Ht.
Qed.
End default.

Lemma single_underscores_app s t : single_underscores (s +:+ t) = true → single_underscores s = true.
Proof.
  induction s as [|c [|d s] IH]; [done..|]. rewrite str_cons_app. 
  change (single_underscores (String c (String d s +:+ t))) with
    (negb (bool_decide (c = "_"%char) && bool_decide (d = "_"%char)) && single_underscores (String d s +:+ t)).
  intros [Hc Hs]%andb_true_iff. change (negb (bool_decide (c = "_"%char) && bool_decide (d = "_"%char)) && single_underscores (String d s) = true).
  by rewrite Hc, IH.
Qed.

Lemma building_step p c rest :
  p ≠ "" → matchesTargetID (p +:+ String c rest) = true → single_underscores (p +:+ String c rest) = true → targetByte p c = p +:+ str1 c.
Proof.
  intros Hp Hm Hs. change (String c rest) with (str1 c +:+ rest) in *. rewrite <- str_app_assoc in *.
  assert (targetIDCharacter c = true) as Hc.
  { destruct p as [|d p]; [done|]. rewrite !str_cons_app in Hm. cbn [matchesTargetID] in Hm. rewrite !str_forall_app in Hm.
    cbn [str1 str_forall] in Hm. by destruct (targetIDCharacter c); [|rewrite !andb_false_r in Hm]. }
  apply single_underscores_app in Hs. rewrite single_underscores_snoc in Hs. apply andb_true_iff in Hs as [_ Hs].
  unfold targetByte. rewrite (bool_decide_eq_false_2 (p = "")) by done. cbn [negb andb]. rewrite andb_true_r.
  unfold targetIDCharacter in Hc. destruct (validLetter c || validDigit c); [done|]. cbn [orb] in Hc. bool_prop. subst c.
  rewrite (bool_decide_eq_true_2 ("_"%char = "_"%char)), andb_true_r in Hs by done. by rewrite Hs.
Qed.

Lemma fold_canonical rest p :
  p ≠ "" → matchesTargetID (p +:+ rest) = true → single_underscores (p +:+ rest) = true → foldl targetByte p (chars rest) = p +:+ rest.
Proof.
  revert p. induction rest as [|c rest IH]; intros p Hp Hm Hs; [by rewrite str_app_nil_r|]. cbn [String.list_ascii_of_string foldl].
  rewrite (building_step p c rest) by done. change (String c rest) with (str1 c +:+ rest) in *. rewrite <- str_app_assoc in *.
  apply IH; [by destruct p|done..].
Qed.

Section ascii.
Context `{UnicodeTables}.

Lemma join_cons_empty x l : join (x :: l) "" = x +:+ join l "".
Proof. destruct l; cbn; [by rewrite str_app_nil_r|done]. Qed.

Lemma chr_byte_of c : chr (byte_of c) = c.
Proof. apply ascii_N_embedding. Qed.

Definition plain (c : ascii) : bool := (byte_of c <? 128)%N && negb (in_range 65 90 (byte_of c)).

Lemma runes_ascii c s : (byte_of c < 128)%N → runes (String c s) = (byte_of c, 1%nat) :: runes s.
Proof. intros Hc. unfold runes. cbn [String.length runes_aux]. by rewrite decode_ascii. Qed.

Lemma to_lower_plain s : str_forall plain s = true → to_lower s = s.
Proof.
  unfold to_lower, map_runes. induction s as [|c s IH]; [done|]. cbn [str_forall]. intros [[Hb Hu]%andb_true_iff Hs]%andb_true_iff.
  apply N.ltb_lt in Hb. rewrite runes_ascii by done. cbn [fmap list_fmap fst]. rewrite join_cons_empty, IH by done.
  assert (encode_rune (rune_to_lower (byte_of c)) = str1 c) as ->; [|done].
  unfold rune_to_lower. destruct (N.ltb_spec (byte_of c) 128); [|lia]. destruct (in_range 65 90 (byte_of c)); [done|].
  unfold encode_rune. unfold in_range. destruct (N.ltb_spec 1114111 (byte_of c)); [lia|]. destruct (N.leb_spec 55296 (byte_of c)); [lia|]. cbn [orb andb].
  destruct (N.ltb_spec (byte_of c) 128); [|lia]. by rewrite chr_byte_of.
Qed.

Lemma targetIDCharacter_plain c : targetIDCharacter c = true → plain c = true.
Proof. destruct c as [[] [] [] [] [] [] [] []]; vm_compute; done. Qed.

Lemma matchesTargetID_plain id : matchesTargetID id = true → str_forall plain id = true.
Proof.
  destruct id as [|c id]; [done|]. cbn [matchesTargetID str_forall]. intros [Hc Hs]%andb_true_iff.
  rewrite targetIDCharacter_plain by (unfold targetIDCharacter; by rewrite Hc). cbn [andb]. clear Hc. induction id as [|d id IH]; [done|].
  cbn [str_forall] in *. apply andb_true_iff in Hs as [Hd Hs]. by rewrite targetIDCharacter_plain, IH.
Qed.

(** An identity in this form is the one derived from it. *)
Lemma Default_fixed id : canonicalID id → Default id = id.
Proof.
  intros (Hm & Hs & Hl). unfold Default. rewrite to_lower_plain by by apply matchesTargetID_plain.
  assert (foldl targetByte "" (chars id) = id) as ->.
  { destruct id as [|c id]; [done|]. cbn [String.list_ascii_of_string foldl]. assert (targetByte "" c = str1 c) as ->.
    { cbn [matchesTargetID] in Hm. unfold targetByte. apply andb_true_iff in Hm as [-> _]. done. }
    change (String c id) with (str1 c +:+ id) in *. by apply fold_canonical. }
  change (trim_suffix id "_") with (trim_suffix id (str1 "_"%char)). rewrite trim_suffix_last by done. case_decide; [by subst|done].
Qed.

(** The identity that the generator derives from the name of an application
    begins with a lower-case letter and holds only such letters, digits and single
    underscores, none at the end, whatever the name; an identity of this form is
    left as it is, so deriving again changes nothing. *)
Theorem Default_canonical name id :
  canonicalID (Default name) ∧ (canonicalID id ↔ Default id = id).
Proof.
  split; [apply Default_canonicalID|]. split; [apply Default_fixed|]. intros <-. apply Default_canonicalID.
Qed.
End ascii.

(** ** The default target *)

Lemma path_join_names cs : cs ≠ [] → Forall good_name cs → path_join cs = join cs "/".
Proof.
  intros Hne Hf. unfold path_join. assert (filter (λ e, e ≠ "") cs = cs) as ->.
  { clear Hne. induction Hf as [|c cs (Hc & _) Hf IH]; [done|]. by rewrite filter_cons_True, IH. }
  destruct cs; [done|]. by apply path_clean_join.
Qed.

Lemma str_forall_contains f s b : str_forall f s = true → f b = false → contains_byte s b = false.
Proof.
  intros Hs Hb. induction s as [|c s IH]; [done|]. cbn in *. apply andb_true_iff in Hs as [Hc Hs].
  destruct (ascii_dec c b) as [->|_]; [congruence|by apply IH].
Qed.

Lemma contains_any_app s t bytes : contains_any (s +:+ t) bytes = contains_any s bytes || contains_any t bytes.
Proof. induction s as [|c s IH]; [done|]. rewrite str_cons_app. cbn [contains_any]. by rewrite IH, orb_assoc. Qed.

Lemma str_forall_any f s bytes : str_forall f s = true → Forall (λ b, f b = false) bytes → contains_any s bytes = false.
Proof.
  intros Hs Hb. induction s as [|c s IH]; [done|]. cbn in *. apply andb_true_iff in Hs as [Hc Hs]. rewrite IH, orb_false_r by done.
  apply bool_decide_eq_false. rewrite Forall_forall in Hb. intros Hin%Hb. congruence.
Qed.

Lemma matchesTargetID_all id : matchesTargetID id = true → str_forall targetIDCharacter id = true.
Proof. destruct id as [|c id]; [done|]. cbn [matchesTargetID str_forall]. unfold targetIDCharacter at 2. by intros [-> ->]%andb_true_iff. Qed.

Lemma canonicalID_good id : canonicalID id → good_name id.
Proof.
  intros (Hm & _ & _). pose proof (matchesTargetID_all _ Hm) as Ha. split_and!; [by intros ->..|].
  by apply (str_forall_contains targetIDCharacter).
Qed.

Lemma cut_dot id : matchesTargetID id = true → (cut id ".").1.1 = id.
Proof.
  intros Hm%matchesTargetID_all. destruct (cut id ".") as [[before after] found] eqn:E.
  apply (cut_byte_inv "."%char id) in E as [_ E]. destruct found; [|done].
  pose proof (str_forall_contains _ _ "."%char Hm eq_refl) as Hc. rewrite E, contains_byte_app in Hc. by apply orb_false_iff in Hc as [_ ?].
Qed.

(** The name of the manifest is reserved when the identity is. *)
Lemma manifest_reserved `{UnicodeTables} id :
  matchesTargetID id = true → reservedWindowsName (id +:+ ".manifest.json") = reservedWindowsName id.
Proof.
  intros Hm. assert (contains_byte id "."%char = false) as Hd by by apply (str_forall_contains targetIDCharacter); [apply matchesTargetID_all|].
  pose proof (cut_byte "."%char id "manifest.json" Hd) as Hc. change (str1 "."%char) with "." in Hc.
  unfold reservedWindowsName. change ".manifest.json" with (String "."%char "manifest.json"). by rewrite (cut_dot id Hm), Hc.
Qed.

Section accepted.
Context `{UnicodeTables} `{GenLibraries}.

Lemma relative_accepted names :
  names ≠ [] → Forall good_name names → Forall (λ n, contains_any n [backslash; chr 0] = false) names →
  validateRelativePath (join names "/") = Ok () ↔ Forall (λ n, reservedWindowsName n = false) names.
Proof.
  intros Hne Hg Hc. rewrite validateRelativePath_exact. split.
  - intros (ks & _ & Hj & Hk & _ & Hr). apply (f_equal (split_byte slash)) in Hj. 
    destruct (decide (ks = [])) as [->|Hks]; [|rewrite !split_join_good in Hj by done; by subst].
    rewrite split_join_good in Hj by done. destruct Hg as [|c cs Hc0 _]; [done|]. cbn in Hj. injection Hj as -> _. by destruct Hc0.
  - intros Hr. exists names. split_and!; [done..| |done]. clear Hr Hne Hg.
    induction Hc as [|n names Hn _ IH]; [done|]. destruct (decide (names = [])) as [->|Hne]; [done|].
    rewrite join_cons_ne by done. rewrite !contains_any_app, Hn, IH. done.
Qed.
End accepted.

Section default_target.
Context `{UnicodeTables} `{GenLibraries}.

(** The paths of the target of an application. *)
Definition outputOf (id : string) : string := join ["internal"; "spicegen"; id] "/".
Definition manifestOf (id : string) : string := join [".spice"; id +:+ ".manifest.json"] "/".

Lemma manifest_name_good id : canonicalID id → good_name (id +:+ ".manifest.json").
Proof.
  intros Hc. destruct (canonicalID_good id Hc) as (_ & _ & _ & Hs). split_and!; [intros He%(f_equal String.length); rewrite length_str_app in He; simpl in He; lia..|].
  by rewrite contains_byte_app, Hs.
Qed.

Lemma target_paths id :
  canonicalID id →
  path_join ["internal"; "spicegen"; id] = outputOf id ∧ path_join [".spice"; id +:+ ".manifest.json"] = manifestOf id.
Proof.
  intros Hc. pose proof (canonicalID_good id Hc). pose proof (manifest_name_good id Hc).
  split; (apply path_join_names; [done|]); unfold good_name in *; rewrite !Forall_cons; split_and!; naive_solver.
Qed.

Definition derived (m : goModule) (application : applicationTarget) (layout entrypoint bridge : string) : Target :=
  let id := Default (ap_Name application) in
  Build_Target id layout (mo_Path m) (mo_Dir m) (path_join [mo_Path m; outputOf id]) entrypoint (outputOf id) bridge (manifestOf id).

Lemma targetOf_some m pkg application target :
  targetOf m pkg application = Some target ↔
  if ap_automatic application then
    ∃ relative, filepath_rel (mo_Dir m) (pk_Dir pkg) = Some relative ∧ (is_local relative = true ∨ relative = ".") ∧
      target = derived m application LayoutApplicationPackage (ap_PackagePath application) relative
  else target = derived m application LayoutGeneratedPackage "" "".
Proof.
  unfold targetOf, derived. destruct (target_paths (Default (ap_Name application)) (Default_canonicalID _)) as [-> ->].
  destruct (ap_automatic application); [|split; [by intros [= <-]|by intros ->]].
  destruct (filepath_rel (mo_Dir m) (pk_Dir pkg)) as [relative|]; [|split; [done|by intros (? & ? & _)]].
  destruct (negb (is_local relative) && negb (bool_decide (relative = "."))) eqn:Hl.
  - apply andb_true_iff in Hl as [Hl Hd]. bool_prop. split; [done|]. intros (r & [= <-] & [?|?] & _); congruence.
  - assert (is_local relative = true ∨ relative = ".") as Hr.
    { apply andb_false_iff in Hl as [Hl|Hl]; bool_prop; [by left|by right]. }
    split; [intros [= <-]; by exists relative|]. by intros (r & [= <-] & _ & ->).
Qed.

Lemma path_join_nonempty (l : list string) e : e ∈ l → e ≠ "" → path_join l ≠ "".
Proof.
  intros Hin He. unfold path_join. destruct (filter _ l) as [|x k] eqn:E.
  { assert (e ∈ filter (λ e, e ≠ "") l) as Hf by by apply list_elem_of_filter. rewrite E in Hf. by apply not_elem_of_nil in Hf. }
  unfold path_clean. case_match; [done|]. by case_decide.
Qed.

Lemma report_if_nil {A} cond (a : A) : report_if cond a = [] ↔ cond = false.
Proof. by destruct cond. Qed.

(** A layout and the entrypoint fields that go with it. *)
Definition layout_fits (target : Target) : Prop :=
  (t_Layout target = LayoutApplicationPackage ∧ t_BridgeDir target ≠ "" ∧ t_EntrypointPackagePath target ≠ "") ∨
  (t_Layout target = LayoutGeneratedPackage ∧ t_BridgeDir target = "" ∧ t_EntrypointPackagePath target = "").

Lemma validateTargetLayout_nil target application : validateTargetLayout target application = [] ↔ layout_fits target.
Proof.
  unfold validateTargetLayout, layout_fits. case_decide as Ha; [|case_decide as Hg; [|naive_solver]].
  - rewrite app_nil, !report_if_nil, !bool_decide_eq_false, Ha. naive_solver.
  - rewrite app_nil, !report_if_nil, !negb_false_iff, !bool_decide_eq_true, Hg. naive_solver.
Qed.

(** The validation of a target reports nothing exactly when every field is there. *)
Lemma validateTarget_nil target application :
  validateTarget target application = [] ↔
  matchesTargetID (t_ID target) = true ∧ t_ModulePath target ≠ "" ∧ t_ModuleRoot target ≠ "" ∧ t_PackagePath target ≠ "" ∧
  t_OutputDir target ≠ "" ∧ layout_fits target ∧ t_ManifestPath target ≠ "".
Proof.
  unfold validateTarget, sortDiagnostics. rewrite sort_stable_nil, !app_nil, !report_if_nil, validateTargetLayout_nil.
  by rewrite negb_false_iff, !bool_decide_eq_false.
Qed.

Lemma derived_valid m application layout entrypoint bridge :
  validateTarget (derived m application layout entrypoint bridge) application = [] ↔
  mo_Path m ≠ "" ∧ mo_Dir m ≠ "" ∧ layout_fits (derived m application layout entrypoint bridge).
Proof.
  rewrite validateTarget_nil. cbn. pose proof (Default_canonicalID (ap_Name application)) as Hc. pose proof Hc as (-> & _).
  assert (outputOf (Default (ap_Name application)) ≠ "") as Ho by done. assert (manifestOf (Default (ap_Name application)) ≠ "") by done.
  pose proof (path_join_nonempty [mo_Path m; outputOf (Default (ap_Name application))] _ ltac:(right; left) Ho). naive_solver.
Qed.

(** The default target of an application: it is derived exactly when the
    application is in a package of the program that has a Go module with a path and
    a directory and, for an application that is discovered, the package has a path
    and its directory is in the module. All its output is below
    internal/spicegen in a directory of the application's identity, and its manifest
    in .spice under that name. *)
Lemma DefaultTarget_exact program application target :
  DefaultTarget program application = (target, []) ↔
  ∃ packages pkg m, program = Some packages ∧ packageByPath packages (ap_PackagePath application) = Some pkg ∧
    pk_Module pkg = Some m ∧ mo_Path m ≠ "" ∧ mo_Dir m ≠ "" ∧
    if ap_automatic application then
      ap_PackagePath application ≠ "" ∧
      ∃ relative, filepath_rel (mo_Dir m) (pk_Dir pkg) = Some relative ∧ (is_local relative = true ∨ relative = ".") ∧
        target = derived m application LayoutApplicationPackage (ap_PackagePath application) relative
    else target = derived m application LayoutGeneratedPackage "" "".
Proof.
  destruct program as [packages|]; [|cbn; naive_solver]. cbn [DefaultTarget].
  destruct (packageByPath packages _) as [[p n d [m|]]|] eqn:Hp; [|split; [done|naive_solver]..].
  destruct (targetOf m (mkPackage p n d (Some m)) application) as [t|] eqn:Ht.
  2: { split; [done|]. intros (? & ? & m' & [= <-] & [= <-]%(eq_trans (eq_sym Hp)) & [= <-] & _ & _ & Hx).
       assert (targetOf m (mkPackage p n d (Some m)) application = Some target) as He; [|congruence].
       apply targetOf_some. destruct (ap_automatic application); naive_solver. }
  assert (validateTarget t application = [] ↔ mo_Path m ≠ "" ∧ mo_Dir m ≠ "" ∧ (ap_automatic application = true → ap_PackagePath application ≠ "")) as Hv.
  { apply targetOf_some in Ht. destruct (ap_automatic application).
    - destruct Ht as (r & _ & Hr & ->). rewrite derived_valid. unfold layout_fits. cbn.
      assert (r ≠ "") by (intros ->; by destruct Hr). naive_solver.
    - subst t. rewrite derived_valid. unfold layout_fits. cbn. naive_solver. }
  apply targetOf_some in Ht. split.
  - case_decide as Hd; [|by intros [= _ ?]]. intros [= <-]. apply Hv in Hd as (Hpath & Hdir & Hauto). exists packages, (mkPackage p n d (Some m)), m.
    split_and!; [done..|]. destruct (ap_automatic application); [|done]. split; [by apply Hauto|done].
  - intros (? & ? & m' & [= <-] & [= <-]%(eq_trans (eq_sym Hp)) & [= <-] & Hpath & Hdir & Hx). rewrite decide_True.
    + f_equal. destruct (ap_automatic application); [|congruence]. destruct Ht as (r & Hr & _ & ->), Hx as (_ & r' & Hr' & _ & ->). simpl in *. congruence.
    + apply Hv. split_and!; [done..|]. intros Ha. rewrite Ha in Hx. by destruct Hx as [? _].
Qed.

Lemma name_accepted id :
  canonicalID id →
  (validateRelativePath (outputOf id) = Ok () ↔ reservedWindowsName id = false) ∧
  (validateRelativePath (manifestOf id) = Ok () ↔ reservedWindowsName id = false).
Proof.
  intros Hc. pose proof (canonicalID_good id Hc) as Hg. pose proof (manifest_name_good id Hc) as Hmg. destruct Hc as (Hm & _).
  assert (contains_any id [backslash; chr 0] = false) as Hb.
  { apply (str_forall_any targetIDCharacter); [by apply matchesTargetID_all|by repeat constructor]. }
  unfold outputOf, manifestOf. rewrite !relative_accepted; try done.
  - rewrite !Forall_cons, !Forall_nil, manifest_reserved by done.
    assert (reservedWindowsName "internal" = false ∧ reservedWindowsName "spicegen" = false ∧ reservedWindowsName ".spice" = false) as (-> & -> & ->)
      by by vm_compute.
    tauto.
  - unfold good_name in *. rewrite !Forall_cons. split_and!; naive_solver.
  - rewrite !Forall_cons, contains_any_app, Hb. split_and!; by try constructor.
  - unfold good_name in *. rewrite !Forall_cons. split_and!; naive_solver.
  - rewrite !Forall_cons, Hb. split_and!; by try constructor.
Qed.

Lemma manifest_outside id layout bridge target :
  canonicalID id → t_ManifestPath target = manifestOf id → t_OutputDir target = outputOf id →
  t_Layout target = layout → t_BridgeDir target = bridge →
  withinTargetOutput target (manifestOf id) "" = bool_decide (layout = LayoutApplicationPackage) && bool_decide (bridge = ".spice").
Proof.
  intros Hc _ Ho <- <-. unfold withinTargetOutput. rewrite Ho. cbn [andb].
  assert (bool_decide (outputOf id = ".") = false) as -> by by apply bool_decide_eq_false.
  assert (has_prefix (manifestOf id) (outputOf id +:+ "/") = false) as -> by done. rewrite andb_false_r. cbn [andb].
  assert (path_dir (manifestOf id) = ".spice") as ->.
  { apply (path_dir_snoc [".spice"]). pose proof (manifest_name_good id Hc). unfold good_name in *. cbn [app]. rewrite !Forall_cons. split_and!; naive_solver. }
  rewrite (bool_decide_eq_false_2 ("" = "source-shard")) by done. cbn [andb].
  destruct (bool_decide_reflect (t_Layout target = LayoutApplicationPackage)); [|done]. cbn [andb].
  destruct (decide (t_BridgeDir target = ".spice")) as [->|Hb]; [done|].
  rewrite (bool_decide_eq_false_2 (".spice" = _)), (bool_decide_eq_false_2 (t_BridgeDir target = ".spice")) by done. by rewrite andb_false_r.
Qed.

(** Guarded generation accepts the default target of an application exactly
    when its identity is not the name of a Windows device and, for an application
    that is discovered, its directory is the root of the module or a path that
    generation may write, other than .spice. *)
Theorem DefaultTarget_accepted program application target :
  DefaultTarget program application = (target, []) →
  validatePlanTarget target = Ok () ↔
  reservedWindowsName (Default (ap_Name application)) = false ∧
  (ap_automatic application = true →
     t_BridgeDir target = "." ∨ (validateRelativePath (t_BridgeDir target) = Ok () ∧ t_BridgeDir target ≠ ".spice")).
Proof.
  intros Ht. apply DefaultTarget_exact in Ht as (_ & pkg & m & _ & _ & _ & _ & _ & Hx).
  pose proof (Default_canonicalID (ap_Name application)) as Hc. set (id := Default _) in *.
  destruct (name_accepted id Hc) as [Ho Hm].
  assert (∀ layout entrypoint bridge, target = derived m application layout entrypoint bridge →
    validatePlanTarget target = Ok () ↔ validatePlanTargetLayout target = Ok () ∧ reservedWindowsName id = false ∧
      ¬ (layout = LayoutApplicationPackage ∧ bridge = ".spice")) as Hplan.
  { intros layout entrypoint bridge ->. unfold validatePlanTarget, validatePlanOutputDirectory. cbn [t_OutputDir t_ManifestPath derived].
    rewrite (bool_decide_eq_false_2 (outputOf _ = ".")) by done. fold id.
    rewrite !outcome_then_ok, !wrap_err_ok, guard_or_ok, Ho, Hm, negb_true_iff. rewrite (manifest_outside id layout bridge) by done.
    rewrite andb_false_iff, !bool_decide_eq_false. destruct (decide (layout = LayoutApplicationPackage)); naive_solver. }
  destruct (ap_automatic application).
  - destruct Hx as (He & r & _ & Hr & ->). rewrite (Hplan _ _ _ eq_refl). assert (r ≠ "") by (intros ->; by destruct Hr).
    unfold validatePlanTargetLayout. cbn [t_Layout t_BridgeDir t_EntrypointPackagePath derived]. rewrite (bool_decide_eq_true_2 (_ = LayoutApplicationPackage)) by done.
    rewrite !outcome_then_ok, !guard_or_ok, !negb_true_iff, !bool_decide_eq_false.
    destruct (decide (r = ".")) as [->|Hd]; [rewrite bool_decide_eq_true_2 by done; naive_solver|].
    rewrite (bool_decide_eq_false_2 (r = ".")) by done. cbn [negb]. rewrite wrap_err_ok. naive_solver.
  - subst target. rewrite (Hplan _ _ _ eq_refl). cbn. naive_solver.
Qed.
End default_target.

(** ** Decimal suffixes *)

Definition digits_only (s : string) : Prop := str_forall validDigit s = true.

Lemma pretty_digits_only x s :
  digits_only s → digits_only (pretty_N_go x s) ∧ (String.length s ≤ String.length (pretty_N_go x s))%nat ∧
    (x ≠ 0%N → pretty_N_go x s ≠ "").
Proof.
  unfold digits_only. revert s. induction (N.lt_wf_0 x) as [x _ IH]; intros s Hs.
  destruct (decide (x = 0)%N) as [->|Hx]; [done|]. rewrite pretty_N_go_step by lia.
  assert (validDigit (pretty_N_char (x `mod` 10)) = true) as Hc.
  { pose proof (N.mod_lt x 10 ltac:(lia)) as Hm. revert Hm. generalize (x `mod` 10)%N. intros m Hm.
    assert (m = 0 ∨ m = 1 ∨ m = 2 ∨ m = 3 ∨ m = 4 ∨ m = 5 ∨ m = 6 ∨ m = 7 ∨ m = 8 ∨ m = 9)%N as Hcases by lia.
    by destruct_or! Hcases; subst m. }
  destruct (IH (x `div` 10)%N) with (s := String (pretty_N_char (x `mod` 10)) s) as (Hd & Hl & _); [apply N.div_lt; lia|cbn; by rewrite Hc|].
  cbn [String.length] in Hl. split_and!; [done|lia|]. intros _ He. rewrite He in Hl. cbn in Hl. lia.
Qed.

Lemma itoa_digits_only n : (0 < n)%nat → digits_only (itoa (Z.of_nat n)) ∧ itoa (Z.of_nat n) ≠ "".
Proof.
  intros Hn. unfold itoa, pretty, pretty_Z. destruct (Z.of_nat n) as [|x|x] eqn:E; [lia| |lia].
  destruct (pretty_digits_only (N.pos x) "") as (Hd & _ & Hne); [done|]. split; [exact Hd|by apply Hne].
Qed.

Lemma itoa_inj a b : itoa a = itoa b → a = b.
Proof. unfold itoa. apply (inj pretty). Qed.

(** A base that does not end in a digit can be told from its suffix. *)
Definition ends_plain (s : string) : Prop := ∀ c, last_byte s = Some c → validDigit c = false.

Lemma chars_inj s t : chars s = chars t → s = t.
Proof. intros He. rewrite <- (String.string_of_list_ascii_of_string s), He. apply String.string_of_list_ascii_of_string. Qed.

Lemma digits_only_chars d : digits_only d ↔ Forall (λ c, validDigit c = true) (chars d).
Proof.
  unfold digits_only. induction d as [|c d IH]; [by split|]. cbn [str_forall String.list_ascii_of_string].
  by rewrite andb_true_iff, Forall_cons, IH.
Qed.

Lemma plain_extension s k : ends_plain s → Forall (λ c, validDigit c = true) k → (∃ l, chars s = l ++ k) → k = [].
Proof.
  intros Hs Hk [l Hl]. destruct k as [|c k _] using rev_ind; [done|]. apply Forall_app in Hk as [_ Hc]. apply Forall_inv in Hc.
  rewrite (Hs c) in Hc; [done|]. unfold last_byte. by rewrite Hl, app_assoc, last_snoc.
Qed.

Lemma suffix_unique s d t e :
  ends_plain s → ends_plain t → digits_only d → digits_only e → s +:+ d = t +:+ e → s = t ∧ d = e.
Proof.
  intros Hs Ht Hd%digits_only_chars He%digits_only_chars Heq. apply (f_equal chars) in Heq. rewrite !chars_app in Heq.
  apply app_eq_inv in Heq as [(k & Hk & Hr)|(k & Hk & Hr)].
  - assert (k = []) as ->; [|rewrite app_nil_r in Hk; cbn in Hr; split; by apply chars_inj].
    apply (plain_extension s); [done| |by eexists]. rewrite Hr in He. by apply Forall_app in He as [? _].
  - assert (k = []) as ->; [|rewrite app_nil_r in Hk; cbn in Hr; split; by apply chars_inj].
    apply (plain_extension t); [done| |by eexists]. rewrite Hr in Hd. by apply Forall_app in Hd as [? _].
Qed.

(** ** Numbered names *)

(** The [k]-th use of a base. *)
Definition use (base : string) (k : nat) : string := if (1 <? k)%nat then base +:+ itoa (Z.of_nat k) else base.

Lemma use_inj base base' k k' :
  ends_plain base → ends_plain base' → (0 < k)%nat → (0 < k')%nat → use base k = use base' k' → base = base' ∧ k = k'.
Proof.
  intros Hb Hb' Hk Hk'. assert (∀ b n, (0 < n)%nat → use b n = b +:+ (if (1 <? n)%nat then itoa (Z.of_nat n) else "")) as Hu.
  { intros b n _. unfold use. destruct (1 <? n)%nat; [done|by rewrite str_app_nil_r]. }
  rewrite !Hu by done. intros He. apply suffix_unique in He as [-> He]; try done.
  2, 3: destruct (Nat.ltb_spec 1 k), (Nat.ltb_spec 1 k'); try done; apply itoa_digits_only; lia.
  split; [done|]. destruct (Nat.ltb_spec 1 k), (Nat.ltb_spec 1 k'); [by apply itoa_inj, Nat2Z.inj in He| | |lia].
  - by destruct (itoa_digits_only k) as [_ ?]; [lia|].
  - by destruct (itoa_digits_only k') as [_ ?]; [lia|].
Qed.

Lemma countOf_add counts base b : countOf (addCount counts base) b = if decide (b = base) then S (countOf counts b) else countOf counts b.
Proof.
  unfold addCount, countOf at 1. case_decide as He; [subst; by rewrite lookup_insert_eq|by rewrite lookup_insert_ne].
Qed.

Lemma elem_of_numbered used bases name :
  name ∈ numbered used bases → ∃ b k, b ∈ bases ∧ (countOf used b < k)%nat ∧ name = use b k.
Proof.
  revert used. induction bases as [|base bases IH]; intros used; cbn [numbered]; [by intros ?%not_elem_of_nil|].
  intros [->|Hin]%elem_of_cons.
  - exists base, (countOf (addCount used base) base). split; [by left|]. split; [|done]. rewrite countOf_add, decide_True by done. lia.
  - apply IH in Hin as (b & k & Hb & Hk & ->). exists b, k. split_and!; [by right| |done]. rewrite countOf_add in Hk. case_decide; lia.
Qed.

Lemma numbered_distinct used bases : Forall ends_plain bases → NoDup (numbered used bases).
Proof.
  intros Hp. revert used. induction Hp as [|base bases Hb Hp IH]; intros used; cbn [numbered]; constructor; [|apply IH].
  intros (b & k & Hin & Hk & He)%elem_of_numbered. rewrite Forall_forall in Hp. fold (use base (countOf (addCount used base) base)) in He.
  apply use_inj in He as [<- <-]; [lia|done|by apply Hp| |lia]. rewrite countOf_add, decide_True by done. lia.
Qed.

Lemma length_numbered used bases : length (numbered used bases) = length bases.
Proof. revert used. induction bases as [|base bases IH]; intros used; [done|]. cbn. by rewrite IH. Qed.

(** ** Unused aliases *)

Lemma str_app_inv s t u : s +:+ t = s +:+ u → t = u.
Proof. intros He. apply (f_equal (str_drop (String.length s))) in He. by rewrite !str_drop_app in He. Qed.

Lemma use_fresh_inj base k k' : (0 < k)%nat → (0 < k')%nat → use base k = use base k' → k = k'.
Proof.
  intros Hk Hk'. unfold use. destruct (Nat.ltb_spec 1 k), (Nat.ltb_spec 1 k'); intros He; [|exfalso|exfalso|lia].
  - by apply str_app_inv, itoa_inj, Nat2Z.inj in He.
  - rewrite <- (str_app_nil_r base) in He at 2. apply str_app_inv in He. by destruct (itoa_digits_only k) as [_ ?]; [lia|].
  - rewrite <- (str_app_nil_r base) in He at 1. symmetry in He. apply str_app_inv in He. by destruct (itoa_digits_only k') as [_ ?]; [lia|].
Qed.

(** The loop tries the uses of the base in turn. *)
Lemma freshLoop_spec fuel used base k :
  (0 < k)%nat →
  match freshLoop fuel used base (S k) (use base k) with
  | Some a => a ∉ used ∧ ∃ n, (k ≤ n)%nat ∧ a = use base n ∧ ∀ i, (k ≤ i < n)%nat → use base i ∈ used
  | None => ∀ i, (k ≤ i < k + fuel)%nat → use base i ∈ used
  end.
Proof.
  revert k. induction fuel as [|fuel IH]; intros k Hk; cbn [freshLoop]; [lia|].
  case_decide as Hu; [split; [done|]; exists k; split_and!; [done..|lia]|].
  assert (base +:+ itoa (Z.of_nat (S k)) = use base (S k)) as -> by (unfold use; destruct (Nat.ltb_spec 1 (S k)); [done|lia]).
  specialize (IH (S k) ltac:(lia)). destruct (freshLoop _ _ _ _ _) as [a|].
  - destruct IH as (Ha & n & Hn & -> & Hi). split; [done|]. exists n. split_and!; [lia|done|]. intros i Hi'.
    destruct (decide (i = k)) as [->|]; [done|]. apply Hi. lia.
  - intros i Hi. destruct (decide (i = k)) as [->|]; [done|]. apply IH. lia.
Qed.

(** The alias is the first use of the base that is not taken. *)
Lemma fresh_spec used base :
  fresh used base ∉ used ∧ ∃ n, (0 < n)%nat ∧ fresh used base = use base n ∧ ∀ i, (0 < i < n)%nat → use base i ∈ used.
Proof.
  unfold fresh. pose proof (freshLoop_spec (S (size used)) used base 1 ltac:(lia)) as Hs.
  change (use base 1) with base in Hs. destruct (freshLoop _ _ _ _ _) as [a|].
  { destruct Hs as (Ha & n & Hn & -> & Hi). split; [done|]. exists n. split_and!; [lia|done|]. intros i Hi'. apply Hi. lia. }
  exfalso. set (l := use base <$> seq 1 (S (size used))).
  assert (NoDup l) as Hnd.
  { apply NoDup_fmap_2_strong; [|apply NoDup_seq]. intros x y Hx%elem_of_seq Hy%elem_of_seq. apply use_fresh_inj; lia. }
  assert (list_to_set l ⊆ used) as Hsub.
  { intros a Ha%elem_of_list_to_set. apply list_elem_of_fmap in Ha as (i & -> & Hi%elem_of_seq). apply Hs. lia. }
  apply subseteq_size in Hsub. rewrite size_list_to_set in Hsub by done. unfold l in Hsub. rewrite length_fmap, length_seq in Hsub. lia.
Qed.

(** Aliases that can be told apart. *)
Definition distinct (aliases : gmap string string) : Prop :=
  ∀ p q a, aliases !! p = Some a → aliases !! q = Some a → p = q.

Lemma aliasLoop_spec names used aliases paths :
  distinct aliases → (∀ p a, aliases !! p = Some a → a ∈ used) →
  let result := aliasLoop names used aliases paths in
  distinct result ∧ (∀ p a, result !! p = Some a → aliases !! p = Some a ∨ a ∉ used) ∧ dom result = dom aliases ∪ list_to_set paths.
Proof.
  revert used aliases. induction paths as [|path paths IH]; intros used aliases Hd Hu; cbn [aliasLoop].
  { split_and!; [done|naive_solver|set_solver]. }
  destruct (fresh_spec used (default "" (names !! path))) as [Hf _]. set (a := fresh _ _) in *.
  assert (distinct (<[path := a]> aliases)) as Hd'.
  { intros p q x Hp Hq. apply lookup_insert_Some in Hp as [[<- <-]|[Hpn Hp]], Hq as [[<- Hx]|[Hqn Hq]]; [done| | |].
    - by apply Hu in Hq. - subst x. by apply Hu in Hp. - by apply (Hd p q x). }
  destruct (IH ({[a]} ∪ used) (<[path := a]> aliases)) as (H1 & H2 & H3); [done| |].
  { intros p x [[_ <-]|[_ Hp%Hu]]%lookup_insert_Some; set_solver. }
  split_and!; [done| |rewrite H3, dom_insert_L; cbn; set_solver].
  intros p x [[[_ <-]|[_ Hp]]%lookup_insert_Some|Hn]%H2; [by right|by left|right; set_solver].
Qed.

(** The import aliases of a source unit: every imported package has one, no two
    have the same, and none is the name of the unit's package or of the generated
    one. An alias that is asked for later is the one that the package has, or else
    the first of the preferred name and its numbered forms that no package has; it
    takes no alias from another package. *)
Theorem aliases_distinct values localPackageName :
  let aliases := aliasesForTypes values localPackageName in
  dom aliases = dom (foldl (addTypeImportName ∅) ∅ values) ∧ distinct aliases ∧
  (∀ p a, aliases !! p = Some a → a ≠ "spicegen" ∧ a ≠ localPackageName) ∧
  ∀ current importPath preferred, distinct current → preferred ≠ "" →
    let '(aliases', alias) := ensureSourceUnitImportAlias current importPath preferred in
    distinct aliases' ∧ aliases' !! importPath = Some alias ∧ delete importPath current ⊆ aliases' ∧
    (current !! importPath = Some alias ∨
     ∃ n, (0 < n)%nat ∧ alias = use preferred n ∧ (∀ p, current !! p ≠ Some alias) ∧
       ∀ i, (0 < i < n)%nat → ∃ p, current !! p = Some (use preferred i)).
Proof.
  cbv zeta. set (names := foldl _ ∅ values).
  destruct (aliasLoop_spec names {["spicegen"; localPackageName]} ∅ (sort_strings (map_to_list names).*1)) as (Hd & Hu & Hdom); [done..|].
  split_and!; [|done| |].
  - unfold aliasesForTypes. fold names. rewrite Hdom. apply set_eq. intros p.
    rewrite elem_of_union, dom_empty, elem_of_list_to_set, elem_of_sort_strings, list_elem_of_fmap, elem_of_dom.
    split; [|intros [x Hx]; right; by exists (p, x); rewrite elem_of_map_to_list].
    intros [[]%elem_of_empty|([? x] & -> & Hx%elem_of_map_to_list)]. by exists x.
  - intros p a [?|Hn]%Hu; [done|]. set_solver.
  - intros current importPath preferred Hc Hp. unfold ensureSourceUnitImportAlias.
    set (taken := list_to_set (map_to_list current).*2 : gset string).
    assert (∀ a, a ∈ taken ↔ ∃ p, current !! p = Some a) as Ht.
    { intros a. unfold taken. rewrite elem_of_list_to_set, list_elem_of_fmap. split.
      - intros ([p x] & -> & Hx%elem_of_map_to_list). by exists p.
      - intros [p Hx]. exists (p, a). split; [done|by apply elem_of_map_to_list]. }
    destruct (fresh_spec taken preferred) as (Hf & n & Hn & Hu' & Hi). case_decide as He.
    + split_and!; [|by rewrite lookup_insert_eq| |].
      * intros p q x Hp' Hq. apply lookup_insert_Some in Hp' as [[<- <-]|[Hpn Hp']], Hq as [[<- Hx]|[Hqn Hq]]; [done| | |by apply (Hc p q x)].
        -- destruct Hf. apply Ht. by exists q. -- subst x. destruct Hf. apply Ht. by exists p.
      * apply map_subseteq_spec. intros p x [Hpn Hx]%lookup_delete_Some. by rewrite lookup_insert_ne.
      * right. exists n. split_and!; [done..| |].
        -- intros p Hx. apply Hf, Ht. by exists p. -- intros i Hi'. apply Ht. by apply Hi.
    + destruct (current !! importPath) as [a|] eqn:Ha; [|done]. cbn in *. split_and!; [done..| |by left]. apply delete_subseteq.
Qed.

(** ** Names of variables and fields *)

Definition ascii_lower : LowerTable := {| tbl_lower := λ _, false |}.

Lemma fmap_zip_left {A B C D} (f : A → B → C) (g : C → D) (h : A → D) l k :
  (∀ x y, g (f x y) = h x) → (length l ≤ length k)%nat → g <$> zip_with f l k = h <$> l.
Proof.
  intros Hg. revert k. induction l as [|x l IH]; intros [|y k] Hl; cbn in *; [done..|lia|]. rewrite Hg. f_equal. apply IH. lia.
Qed.

(** When no base name ends in a digit, the variables of the providers, and the
    fields of the component snapshot, have names of their own: one for every
    provider and for every candidate. *)
Theorem names_distinct `{UnicodeTables} `{LowerTable} policyInterfaces providers :
  (Forall ends_plain (variableBases providers) →
     NoDup (providerVariableNames providers) ∧ length (providerVariableNames providers) = length providers) ∧
  (Forall ends_plain (componentBases (componentCandidates policyInterfaces providers)) →
     NoDup (cf_fieldName <$> generatedComponentFields policyInterfaces providers) ∧
     cf_providerID <$> generatedComponentFields policyInterfaces providers =
       (λ candidate, b_SymbolID candidate.1.1) <$> componentCandidates policyInterfaces providers).
Proof.
  split; intros Hp.
  - split; [by apply numbered_distinct|]. unfold providerVariableNames, variableBases. rewrite length_numbered, length_zip_with, length_imap. lia.
  - unfold generatedComponentFields. set (candidates := componentCandidates _ _) in *.
    assert (length candidates = length (numbered ∅ (componentBases candidates))) as Hl
      by (rewrite length_numbered; unfold componentBases; by rewrite length_fmap).
    split; [|apply fmap_zip_left; [done|by rewrite Hl]].
    rewrite fmap_zip_with_r; [by apply numbered_distinct|done|by rewrite Hl].
Qed.

(** A singleton bean of a package. *)
Definition example_bean (package name : string) : bean :=
  mkBean Provider.SourceBean ConstructionFactory (mkSymbol "function" name package) (mkSymbol "function" name package)
    (package +:+ "." +:+ name) name false Provider.BeanScopeSingleton package Provider.no_position Provider.no_position
    (TNamed (Some (mkTypeName name (Some (package, path_base package)))) [] true) (package +:+ "." +:+ name) [] [] false false.

(** With bases that end in a digit names can collide. *)
Example variable_collision :
  @providerVariableNames ascii_tables ascii_lower
    [example_bean "a/app" "Clock"; example_bean "b/app" "Clock"; example_bean "c/app" "AppClock2"] =
  ["appClock"; "appClock2"; "appClock2"].
Proof. vm_compute. reflexivity. Qed.

Example field_collision :
  cf_fieldName <$> @generatedComponentFields ascii_tables ∅
    [example_bean "a/app" "Clock"; example_bean "b/app" "Clock"; example_bean "c/app" "AppClock2"] =
  ["AppClock"; "AppClock2"; "AppClock2"].
Proof. vm_compute. reflexivity. Qed.

(** The name of a package and a base can make a name that is reserved. *)
Example reserved_after_prefix :
  let names := @providerVariableNames ascii_tables ascii_lower [example_bean "x/management" "Metrics"; example_bean "x/store" "Metrics"] in
  names = ["managementMetrics"; "storeMetrics"] ∧ (generatedLocalReserved <$> names) = [true; false].
Proof. vm_compute. done. Qed.

Lemma names_distinct_witness :
  let providers := [example_bean "a/app" "Clock"; example_bean "b/app" "Clock"; example_bean "b/app" "NewStore"] in
  Forall ends_plain (@variableBases ascii_tables ascii_lower providers) ∧
  NoDup (@providerVariableNames ascii_tables ascii_lower providers) ∧
  @providerVariableNames ascii_tables ascii_lower providers = ["appClock"; "appClock2"; "store"].
Proof.
  intros providers. assert (Forall ends_plain (@variableBases ascii_tables ascii_lower providers)) as Hp.
  { unfold ends_plain. vm_compute. repeat constructor; intros c [= <-]; reflexivity. }
  split; [exact Hp|]. split; [|vm_compute; reflexivity].
  exact (proj1 (proj1 (@names_distinct ascii_tables ascii_lower ∅ providers) Hp)).
Defined.

(** ** An application whose target generation refuses *)

Definition example_program : list Package := [mkPackage "m/shop" "main" "/m/shop" (Some (mkModule "m" "/m"))].
Definition example_application (name : string) : applicationTarget :=
  mkApplication ("m/shop." +:+ name) name "m/shop" Provider.no_position Provider.no_position true.

Example reserved_application :
  let '(target, diagnostics) := @DefaultTarget ascii_tables (Some example_program) (example_application "Con") in
  diagnostics = [] ∧ t_OutputDir target = "internal/spicegen/con" ∧ is_ok (@validatePlanTarget ascii_tables target) = false.
Proof. vm_compute. done. Qed.

Lemma DefaultTarget_accepted_witness :
  let '(target, diagnostics) := @DefaultTarget ascii_tables (Some example_program) (example_application "Shop 24") in
  diagnostics = [] ∧ t_ID target = "shop_24" ∧ @validatePlanTarget ascii_tables target = Ok ().
Proof.
  destruct (@DefaultTarget ascii_tables (Some example_program) (example_application "Shop 24")) as [target diagnostics] eqn:E.
  assert (diagnostics = []) as -> by (vm_compute in E; by injection E as _ <-).
  split; [reflexivity|]. split; [vm_compute in E; by injection E as <-|].
  apply (@DefaultTarget_accepted ascii_tables (Some example_program) (example_application "Shop 24") target E).
  vm_compute in E. injection E as <-. split; [vm_compute; reflexivity|]. intros _. right. split; [vm_compute; reflexivity|done].
Defined.
