(* ===== verification/GenUnits.v ===== *)
(** Source units (src/compiler/generate/source_units.go, with sourceOriginAt and
    its neighbours of source_origins.go and writeSourceUnitConfigurationBinder of
    configuration_render.go): the generated file of each handwritten one, which
    providers it holds, its imports, its text and where in it each contribution is.

    The printer of types ([types.TypeString]) and the formatter ([format.Source])
    are a class. A buffer is the text written so far. *)
From S2P Require Import Prelude GoSort GoStrings Sha256 GenPlan GoPath GoUrl LspPaths GenNames.
From S2P Require Provider.

(** ** Locations *)

Record applicationUnit := mkApplicationUnit { ua_target : applicationTarget; ua_targetID : string }.
Record providerSourceUnit := mkUnit {
  u_path : string;
  u_packageName : string;
  u_origins : list SourceOrigin;
  u_application : option applicationUnit;
  u_providers : list bean;
}.

Record providerSourceAdapter := mkAdapter { ad_alias : string; ad_function : string }.

(** [hex.EncodeToString(digest[:n])] of the digest of a text. *)
Definition shortHash (n : nat) (s : string) : string := str_take (2 * n) (digest_hex (sum256 s)).

Definition sourceUnitProvider (item : bean) : bool :=
  if decide (b_Source item ∈ [Provider.SourceBean; Provider.SourceStarter; Provider.SourceAutoConfiguration;
               Provider.SourceStereotype; Provider.SourceConfiguration]) then true
  else if decide (b_Source item = Provider.SourceLogging) then false
  else negb (bool_decide (b_Interfaces item = [])).

Definition sourceUnitProvidesProvider (item : bean) : bool :=
  sourceUnitConstructsProvider item || bool_decide (b_Source item = Provider.SourceConfiguration).

(** One segment of [generatedSourceDirectory]. *)
Definition generatedSegment (segment : string) : string :=
  if decide (segment = "internal" ∨ segment = "vendor") then segment +:+ "_" else segment.
Definition generatedSourceDirectory (sourceDirectory : string) : string :=
  path_join (generatedSegment <$> split_byte slash sourceDirectory).

(** The path of a file relative to the root of the module, when it is in it. *)
Definition moduleRelative (root file : string) : option string :=
  match filepath_rel root file with
  | Some relative => if is_local relative then Some relative else None
  | None => None
  end.

Definition nonzero (a b : Z) : Z := if decide (a = 0)%Z then b else a.
Definition originOf (path symbolID : string) (physical position : Provider.Position) : SourceOrigin :=
  Build_SourceOrigin path (nonzero (Provider.Line physical) (Provider.Line position))
    (nonzero (Provider.Column physical) (Provider.Column position)) symbolID.

Definition sourceUnitLocationAt (sourceFile packagePath symbolID : string) (physicalPosition position : Provider.Position)
    (target : Target) : outcome error (string * string * SourceOrigin) :=
  if decide (sourceFile = "") then Fail (ErrNew ("contribution " +:+ symbolID +:+ " has no physical source file"))
  else
    let '(sourcePath, shardDir) :=
      match moduleRelative (t_ModuleRoot target) sourceFile with
      | Some relative =>
          let sourceDirectory := path_dir relative in
          (relative, path_join [t_OutputDir target; "sources";
             generatedSourceDirectory (if decide (sourceDirectory = ".") then "_root" else sourceDirectory)])
      | None =>
          (packagePath +:+ "/" +:+ path_base sourceFile,
           path_join [t_OutputDir target; "sources"; "_external"; shortHash 6 packagePath])
      end in
    let base := trim_suffix (path_base sourceFile) (path_ext sourceFile) in
    if decide (base = "") then Fail (ErrNew ("contribution " +:+ symbolID +:+ " source file has no base name"))
    else Ok (path_join [shardDir; base +:+ "_spice_gen.go"], "spicegen", originOf sourcePath symbolID physicalPosition position).

Definition sourceFileOf (physical position : Provider.Position) : string :=
  if decide (Provider.Filename physical = "") then Provider.Filename position else Provider.Filename physical.
Definition sourceUnitLocation (item : bean) (target : Target) : outcome error (string * string * SourceOrigin) :=
  sourceUnitLocationAt (sourceFileOf (b_PhysicalPosition item) (b_Position item)) (b_PackagePath item) (b_SymbolID item)
    (b_PhysicalPosition item) (b_Position item) target.
Definition applicationSourceUnitLocation (item : applicationTarget) (target : Target)
    : outcome error (string * string * SourceOrigin) :=
  sourceUnitLocationAt (sourceFileOf (ap_PhysicalPosition item) (ap_Position item)) (ap_PackagePath item) (ap_SymbolID item)
    (ap_PhysicalPosition item) (ap_Position item) target.

Definition sourceOriginAt (physical display : Provider.Position) (symbolID packagePath : string) (target : Target)
    : option SourceOrigin :=
  let sourceFile := sourceFileOf physical display in
  if decide (sourceFile = "") then None
  else match moduleRelative (t_ModuleRoot target) sourceFile with
       | Some relative => Some (originOf relative symbolID physical display)
       | None =>
           if decide (packagePath = "") then None
           else Some (originOf (packagePath +:+ "/" +:+ path_base sourceFile) symbolID physical display)
       end.

(** [sortSourceOrigins], and the order of the origins of a unit, which leaves out
    the column. *)
Definition sourceOriginLess : SourceOrigin → SourceOrigin → bool :=
  by_key o_Path str_ltb (by_key o_Line Z.ltb (by_key o_Column Z.ltb (on_key o_Symbol str_ltb))).
Definition sortSourceOrigins (origins : list SourceOrigin) : list SourceOrigin := sort_stable sourceOriginLess origins.
Definition unitOriginLess : SourceOrigin → SourceOrigin → bool :=
  by_key o_Path str_ltb (by_key o_Line Z.ltb (on_key o_Symbol str_ltb)).

Definition sourceOriginForSymbol (origins : list SourceOrigin) (symbolID : string) : option SourceOrigin :=
  snd <$> list_find (λ origin, o_Symbol origin = symbolID) origins.

Definition sourceOriginsForSymbolFamilies (origins : list SourceOrigin) (symbolIDs : list string) : list SourceOrigin :=
  filter (λ origin, existsb (λ symbolID, bool_decide (o_Symbol origin = symbolID) ||
    has_prefix (o_Symbol origin) (symbolID +:+ ".") || has_prefix (o_Symbol origin) (symbolID +:+ "#")) symbolIDs = true) origins.

(** ** Positions in the generated text *)

(** [bytes.LastIndexByte] *)
Fixpoint LastIndexByte (s : string) (b : ascii) : Z :=
  match s with
  | EmptyString => -1
  | String c rest =>
      let index := LastIndexByte rest b in
      if (0 <=? index)%Z then (index + 1)%Z else if decide (c = b) then 0%Z else (-1)%Z
  end.

(** The line and the column of the byte after a text, from 1. *)
Definition positionAfter (before : string) : Z * Z :=
  let lineStart := (LastIndexByte before newline + 1)%Z in
  (Z.of_nat (count before newline_str) + 1, Z.of_nat (String.length before) - lineStart + 1)%Z.

Definition generatedIdentifierPosition (content identifier : string) : option (Z * Z) :=
  let '(before, _, found) := cut content identifier in
  if found : bool then Some (positionAfter before) else None.

Definition generatedInterfaceAssertionPosition (content marker contract : string) : option (Z * Z) :=
  let '(before, _, found) := cut content marker in
  if found : bool then
    let '(between, _, found) := cut (str_drop (String.length before) content) ("var _ " +:+ contract +:+ " =") in
    if found : bool then Some (positionAfter (before +:+ between +:+ "var _ ")) else None
  else None.

Definition generatedIdentifierRange (position : Z * Z) (name : string) : GeneratedRange :=
  Build_GeneratedRange position.1 position.2 position.1 (position.2 + Z.of_nat (String.length name))%Z.

(** ** The text of a unit *)

(** [types.TypeString] with a qualifier of packages (nil, or a path and a name),
    and [format.Source]. *)
Class GoPrinter := {
  type_string : (option (string * string) → string) → goType → string;
  format_source : string → outcome error string;
}.

Definition lifecyclePath : string := "github.com/spice-framework/spice/lifecycle".
Definition configPath : string := "github.com/spice-framework/spice/config".

Definition tab : string := str1 (chr 9).
Definition nl : string := newline_str.
Definition text (parts : list string) : string := join parts "".

Definition isStandardImport (importPath : string) : bool := negb (contains (cut importPath "/").1.1 ".").

(** The constructor that a provider calls. *)
Definition providerConstructor (item : bean) : Symbol :=
  let constructor := b_Constructor item in
  if negb (bool_decide (sy_PackagePath constructor = "")) && negb (bool_decide (sy_Name constructor = "")) then constructor
  else mkSymbol "" (sy_Name (b_Symbol item)) (b_PackagePath item).

Definition configurationAccessor (kind : string) : string :=
  if decide (kind = "boolean") then "Boolean" else if decide (kind = "integer") then "Integer"
  else if decide (kind = "duration") then "Duration" else "RequiredString".

Definition configurationProviderIndex (types : list configType) : gmap string configType :=
  foldl (λ index type, <[ct_SymbolID type := type]> index) ∅ types.

Section render.
Context `{UnicodeTables} `{GoPrinter}.

Definition generatedProviderFunction (item : bean) : string :=
  let prefix := if decide (b_Source item = Provider.SourceConfiguration) then "Bind" else "Construct" in
  prefix +:+ exportedGeneratedIdentifier (semanticProviderName item) "Provider" +:+ "_" +:+ shortHash 4 (b_SymbolID item).
Definition generatedConfigurationFunction (type : configType) : string :=
  "Bind" +:+ exportedGeneratedIdentifier (ct_Name type) "Configuration" +:+ "_" +:+ shortHash 4 (ct_SymbolID type).
Definition generatedApplicationTargetName (item : applicationTarget) : string :=
  "ApplicationTarget" +:+ exportedGeneratedIdentifier (ap_Name item) "Application" +:+ "_" +:+ shortHash 4 (ap_SymbolID item).
Definition generatedAssertionName (item : bean) (binding : InterfaceBinding) : string :=
  "spiceImplements" +:+ exportedGeneratedIdentifier (semanticProviderName item) "Provider" +:+ "As" +:+
  exportedGeneratedIdentifier (generatedTypeName (ib_Type binding)) "Interface" +:+ "_" +:+
  shortHash 4 (b_SymbolID item +:+ nul_str +:+ ib_TypeID binding).

(** [renderedType] and [renderedTypeInPackage] *)
Definition renderedType (value : goType) (aliases : gmap string string) : string :=
  type_string (λ pkg, match pkg with None => "" | Some (path, name) => default name (aliases !! path) end) value.

(** ** Imports *)

Definition writeImportGroup (aliases : gmap string string) (paths : list string) : string :=
  text ((λ importPath, tab +:+ default "" (aliases !! importPath) +:+ " " +:+ go_quote importPath +:+ nl) <$> paths).
Definition writeImports (aliases : gmap string string) : string :=
  if decide (aliases = ∅) then ""
  else
    let paths := (map_to_list aliases).*1 in
    let standardPaths := sort_strings (filter (λ p, isStandardImport p = true) paths) in
    let applicationPaths := sort_strings (filter (λ p, isStandardImport p = false) paths) in
    text ["import (" +:+ nl; writeImportGroup aliases standardPaths;
          (if negb (bool_decide (standardPaths = [])) && negb (bool_decide (applicationPaths = [])) then nl else "");
          writeImportGroup aliases applicationPaths; ")" +:+ nl +:+ nl].

Definition sourceUnitTypes (unit : providerSourceUnit) (configByProvider : gmap string configType) : list goType :=
  u_providers unit ≫= λ item,
    b_Output item :: (dp_Type <$> b_Dependencies item) ++ (ib_Type <$> b_Interfaces item) ++
    match configByProvider !! b_SymbolID item with Some type => cg_Type <$> ct_fields type | None => [] end.

Definition sourceUnitNeedsFormatting (item : bean) (configByProvider : gmap string configType) : bool :=
  (sourceUnitConstructsProvider item && b_ReturnsError item) ||
  (bool_decide (b_Source item = Provider.SourceConfiguration) &&
   match configByProvider !! b_SymbolID item with Some type => negb (bool_decide (ct_fields type = [])) | None => false end).

(** [if cond { alias = ensureSourceUnitImportAlias(aliases, path, preferred) }] *)
Definition ensure_if (cond : bool) (aliases : gmap string string) (path preferred : string) : gmap string string * string :=
  if cond then ensureSourceUnitImportAlias aliases path preferred else (aliases, "").

Definition constructorAlias (packages : list Package) (aliases : gmap string string) (item : bean) : gmap string string :=
  let packagePath := sy_PackagePath (providerConstructor item) in
  if decide (packagePath = "") then aliases
  else
    let packageName := match packageByPath packages packagePath with Some pkg => pk_Name pkg | None => path_base packagePath end in
    (ensureSourceUnitImportAlias aliases packagePath packageName).1.

(** The aliases and those of lifecycle, fmt and config. *)
Definition sourceUnitImportAliases (packages : list Package) (unit : providerSourceUnit)
    (configByProvider : gmap string configType) : gmap string string * string * string * string :=
  let aliases := aliasesForTypes (sourceUnitTypes unit configByProvider) (u_packageName unit) in
  let '(aliases, lifecycleAlias) :=
    ensure_if (existsb sourceUnitConstructsProvider (u_providers unit)) aliases lifecyclePath "spicelifecycle" in
  let '(aliases, fmtAlias) :=
    ensure_if (existsb (λ item, sourceUnitNeedsFormatting item configByProvider) (u_providers unit)) aliases "fmt" "fmt" in
  let '(aliases, configAlias) :=
    ensure_if (existsb (λ item, bool_decide (b_Source item = Provider.SourceConfiguration)) (u_providers unit))
      aliases configPath "spiceconfig" in
  (foldl (constructorAlias packages) aliases (u_providers unit), lifecycleAlias, fmtAlias, configAlias).

(** ** Declarations *)

Definition writeSourceUnitApplication (item : applicationUnit) : string :=
  let name := generatedApplicationTargetName (ua_target item) in
  text ["// "; name; " identifies the generated target selected by "; ap_SymbolID (ua_target item); "."; nl;
        "const "; name; " = "; go_quote (ua_targetID item); nl; nl].

Fixpoint unaliased (value : goType) : goType := match value with TAlias _ _ rhs => unaliased rhs | _ => value end.

Definition renderedInterfaceAssertionValue (output : goType) (aliases : gmap string string) : string :=
  let rendered := renderedType output aliases in
  match unaliased output with
  | TPointer _ => "(" +:+ rendered +:+ ")(nil)"
  | TNamed _ _ true | TOpaque _ true => rendered +:+ "{}"
  | _ => "*new(" +:+ rendered +:+ ")"
  end.

Definition writeSourceUnitInterfaceAssertions (item : bean) (aliases : gmap string string) : string :=
  text ((λ binding, text ["// "; generatedAssertionName item binding; " identifies the explicit @Implements binding for ";
      b_SymbolID item; "."; nl; "var _ "; renderedType (ib_Type binding) aliases; " = ";
      renderedInterfaceAssertionValue (b_Output item) aliases; nl; nl]) <$> b_Interfaces item).

Definition dependencyName (index : nat) : string := "dependency" +:+ itoa (Z.of_nat index).

(** The first dependency of a method is its receiver. *)
Definition writeSourceUnitProvider (item : bean) (aliases : gmap string string) (lifecycleAlias fmtAlias : string) : string :=
  let functionName := generatedProviderFunction item in
  let output := renderedType (b_Output item) aliases in
  let constructor := providerConstructor item in
  let arguments := imap (λ index _, dependencyName index) (b_Dependencies item) in
  let call :=
    if decide (sy_Kind constructor = SymbolMethod)
    then default "" (head arguments) +:+ "." +:+ sy_Name constructor +:+ "(" +:+ join (tail arguments) ", " +:+ ")"
    else default "" (aliases !! sy_PackagePath constructor) +:+ "." +:+ sy_Name constructor +:+ "(" +:+ join arguments ", " +:+ ")" in
  text ["// "; functionName; " performs the direct construction selected for bean "; go_quote (b_Name item); "."; nl;
        "// Spice source identity: "; b_SymbolID item; "."; nl;
        "func "; functionName; "(";
        join (imap (λ index dependency, dependencyName index +:+ " " +:+ renderedType (dp_Type dependency) aliases)
                (b_Dependencies item)) ", ";
        ") ("; output; ", "; lifecycleAlias; ".Cleanup, error) {"; nl] +:+
  if decide (b_Construction item = ConstructionAllocate) then
    text [tab; "return new("; default "" (aliases !! b_PackagePath item); "."; sy_Name (b_Symbol item); "), nil, nil"; nl; "}"; nl; nl]
  else
    text [tab; (if b_ReturnsCleanup item then (if b_ReturnsError item then "value, cleanup, err" else "value, cleanup")
                else if b_ReturnsError item then "value, err" else "value"); " := "; call; nl;
          (if b_ReturnsError item then
             text [tab; "if err != nil {"; nl; tab; tab; "var zero "; output; nl;
                   tab; tab; "return zero, nil, "; fmtAlias; ".Errorf(";
                   go_quote ("construct bean " +:+ b_Name item +:+ " (" +:+ b_OutputTypeID item +:+ ", source " +:+
                             b_SymbolID item +:+ "): %w"); ", err)"; nl; tab; "}"; nl]
           else "");
          tab; "return value, "; (if b_ReturnsCleanup item then "cleanup" else "nil"); ", nil"; nl; "}"; nl; nl].

Definition writeConfigurationField (type : configType) (outputType : string) (aliases : gmap string string) (fmtAlias : string)
    (field : configField) : string :=
  let property := "decode configuration property " +:+ cg_Key field +:+ " for " +:+ ct_TypeID type +:+ "." +:+ cg_Name field in
  text [tab; "if _, configured := configurationSnapshot.Lookup("; go_quote (cg_Key field); "); configured {"; nl;
        tab; tab; "rawValue, valueErr := configurationSnapshot."; configurationAccessor (cg_Kind field); "(";
        go_quote (cg_Key field); ")"; nl;
        tab; tab; "if valueErr != nil {"; nl;
        tab; tab; tab; "return "; outputType; "{}, "; fmtAlias; ".Errorf("; go_quote (property +:+ ": %w"); ", valueErr)"; nl;
        tab; tab; "}"; nl;
        tab; tab; "convertedValue := "; renderedType (cg_Type field) aliases; "(rawValue)"; nl;
        (if decide (cg_Kind field = "integer") then
           text [tab; tab; "if int64(convertedValue) != rawValue {"; nl;
                 tab; tab; tab; "return "; outputType; "{}, "; fmtAlias; ".Errorf(";
                 go_quote (property +:+ ": value is outside " +:+ cg_TypeID field); ")"; nl; tab; tab; "}"; nl]
         else "");
        tab; tab; "value."; cg_Name field; " = convertedValue"; nl; tab; "}"; nl].

Definition writeSourceUnitConfigurationBinder (type : configType) (aliases : gmap string string) (configAlias fmtAlias : string)
    : string :=
  let functionName := generatedConfigurationFunction type in
  let outputType := renderedType (ct_Type type) aliases in
  text ["// "; functionName; " binds the validated configuration declared by "; ct_SymbolID type; "."; nl;
        "func "; functionName; "(configurationSnapshot "; configAlias; ".Snapshot) ("; outputType; ", error) {"; nl;
        tab; "value := "; outputType; "{}"; nl;
        text (writeConfigurationField type outputType aliases fmtAlias <$> ct_fields type);
        tab; "return value, nil"; nl; "}"; nl; nl].

(** The declarations of one provider. *)
Definition writeDeclaration (configByProvider : gmap string configType) (aliases : gmap string string)
    (lifecycleAlias fmtAlias configAlias : string) (item : bean) : outcome error string :=
  own ← (if sourceUnitConstructsProvider item then Ok (writeSourceUnitProvider item aliases lifecycleAlias fmtAlias)
         else if decide (b_Source item = Provider.SourceConfiguration) then
           match configByProvider !! b_SymbolID item with
           | None => Fail (ErrNew ("configuration provider " +:+ b_SymbolID item +:+ " has no typed configuration metadata"))
           | Some type => Ok (writeSourceUnitConfigurationBinder type aliases configAlias fmtAlias)
           end
         else Ok "");
  Ok (own +:+ writeSourceUnitInterfaceAssertions item aliases).

Fixpoint writeProviderSourceUnitDeclarations (configByProvider : gmap string configType) (aliases : gmap string string)
    (lifecycleAlias fmtAlias configAlias : string) (providers : list bean) : outcome error string :=
  match providers with
  | [] => Ok ""
  | item :: providers =>
      declaration ← writeDeclaration configByProvider aliases lifecycleAlias fmtAlias configAlias item;
      rest ← writeProviderSourceUnitDeclarations configByProvider aliases lifecycleAlias fmtAlias configAlias providers;
      Ok (declaration +:+ rest)
  end.

(** ** Where the contributions are *)

Definition sourceUnitProviderMappingKind (item : bean) : string :=
  if decide (b_Source item = Provider.SourceConfiguration) then "configuration-binding" else "provider-construction".

Definition providerSourceUnitMapping (item : bean) (origin : SourceOrigin) (formatted : string) : outcome error SourceMapping :=
  let name := generatedProviderFunction item in
  match generatedIdentifierPosition formatted name with
  | None => Fail (ErrNew ("provider constructor adapter " +:+ name +:+ " has no generated position"))
  | Some position =>
      Ok (Build_SourceMapping (sourceUnitProviderMappingKind item) (b_SymbolID item) origin
            (generatedIdentifierRange position name) [])
  end.

Definition interfaceSourceUnitMapping (item : bean) (origin : SourceOrigin) (formatted : string) (aliases : gmap string string)
    (binding : InterfaceBinding) : outcome error SourceMapping :=
  let marker := generatedAssertionName item binding in
  let contract := renderedType (ib_Type binding) aliases in
  match generatedInterfaceAssertionPosition formatted marker contract with
  | None => Fail (ErrNew ("interface assertion " +:+ marker +:+ " has no generated position"))
  | Some position =>
      Ok (Build_SourceMapping "interface-assertion" (b_SymbolID item +:+ "#implements:" +:+ ib_TypeID binding) origin
            (generatedIdentifierRange position contract) [])
  end.

(** [for _, x := range l { y, err := f(x); if err != nil { return err }; ys = append(ys, y...) }] *)
Fixpoint gather {A B} (f : A → outcome error (list B)) (l : list A) : outcome error (list B) :=
  match l with
  | [] => Ok []
  | x :: l => ys ← f x; rest ← gather f l; Ok (ys ++ rest)
  end.

Definition applicationMapping (unit : providerSourceUnit) (formatted : string) (application : applicationUnit)
    : outcome error (list SourceMapping) :=
  let symbolID := ap_SymbolID (ua_target application) in
  match sourceOriginForSymbol (u_origins unit) symbolID with
  | None => Fail (ErrNew ("application source unit " +:+ symbolID +:+ " has no source origin"))
  | Some origin =>
      let name := generatedApplicationTargetName (ua_target application) in
      match generatedIdentifierPosition formatted name with
      | None => Fail (ErrNew ("application target " +:+ name +:+ " has no generated position"))
      | Some position =>
          Ok [Build_SourceMapping "application-target" symbolID origin (generatedIdentifierRange position name) []]
      end
  end.

Definition providerMappings (unit : providerSourceUnit) (formatted : string) (aliases : gmap string string) (item : bean)
    : outcome error (list SourceMapping) :=
  match sourceOriginForSymbol (u_origins unit) (b_SymbolID item) with
  | None => Fail (ErrNew ("provider source unit " +:+ b_SymbolID item +:+ " has no source origin"))
  | Some origin =>
      own ← (if sourceUnitProvidesProvider item
             then mapping ← providerSourceUnitMapping item origin formatted; Ok [mapping] else Ok []);
      bindings ← gather (λ binding, mapping ← interfaceSourceUnitMapping item origin formatted aliases binding; Ok [mapping])
                   (b_Interfaces item);
      Ok (own ++ bindings)
  end.

Definition providerSourceUnitMappings (unit : providerSourceUnit) (formatted : string) (aliases : gmap string string)
    : outcome error (list SourceMapping) :=
  application ← (match u_application unit with Some application => applicationMapping unit formatted application | None => Ok [] end);
  providers ← gather (providerMappings unit formatted aliases) (u_providers unit);
  Ok (application ++ providers).

(** The text of a unit before it is formatted, and its aliases. *)
Definition unitSource (packages : list Package) (unit : providerSourceUnit) (configByProvider : gmap string configType)
    : outcome error (string * gmap string string) :=
  let '(aliases, lifecycleAlias, fmtAlias, configAlias) := sourceUnitImportAliases packages unit configByProvider in
  declarations ← writeProviderSourceUnitDeclarations configByProvider aliases lifecycleAlias fmtAlias configAlias (u_providers unit);
  Ok (text ["//go:build !spice_generate"; nl; nl; generatedMarker; nl;
            text ((λ origin, "// Source: " +:+ o_Path origin +:+ ":" +:+ itoa (o_Line origin) +:+ nl) <$> u_origins unit);
            nl; "package "; u_packageName unit; nl; nl; writeImports aliases;
            (match u_application unit with Some application => writeSourceUnitApplication application | None => "" end);
            declarations], aliases).

Definition renderProviderSourceUnit (packages : list Package) (unit : providerSourceUnit) (configByProvider : gmap string configType)
    : outcome error (string * list SourceMapping) :=
  source ← unitSource packages unit configByProvider;
  formatted ← (match format_source source.1 with
               | Ok formatted => Ok formatted
               | Fail err => Fail (ErrWrap ("format provider source unit " +:+ u_path unit) err)
               end);
  mappings ← providerSourceUnitMappings unit formatted source.2;
  Ok (formatted, mappings).

(** ** The units of an application *)

(** One provider in the loop of [renderSourceUnits]. *)
Definition addToUnit (target : Target) (units : gmap string providerSourceUnit) (item : bean)
    : outcome error (gmap string providerSourceUnit) :=
  if negb (sourceUnitProvider item) then Ok units
  else
    location ← sourceUnitLocation item target;
    let '(shardPath, packageName, origin) := location in
    let unit := default (mkUnit shardPath packageName [] None []) (units !! shardPath) in
    _ ← guard_or (bool_decide (u_packageName unit = packageName))
          (ErrNew ("generated provider source unit " +:+ shardPath +:+ " combines packages " +:+ u_packageName unit +:+
             " and " +:+ packageName));
    Ok (<[shardPath := mkUnit (u_path unit) (u_packageName unit)
            (if decide (origin ∈ u_origins unit) then u_origins unit else u_origins unit ++ [origin])
            (u_application unit) (u_providers unit ++ [item])]> units).

Fixpoint unitsLoop (target : Target) (providers : list bean) (units : gmap string providerSourceUnit)
    : outcome error (gmap string providerSourceUnit) :=
  match providers with
  | [] => Ok units
  | item :: providers => units ← addToUnit target units item; unitsLoop target providers units
  end.

Definition sourceUnits (application : applicationTarget) (providers : list bean) (target : Target)
    : outcome error (gmap string providerSourceUnit) :=
  location ← applicationSourceUnitLocation application target;
  let '(applicationPath, applicationPackage, applicationOrigin) := location in
  unitsLoop target providers
    {[applicationPath := mkUnit applicationPath applicationPackage [applicationOrigin]
        (Some (mkApplicationUnit application (t_ID target))) []]}.

Definition sortUnit (unit : providerSourceUnit) : providerSourceUnit :=
  mkUnit (u_path unit) (u_packageName unit) (sort_stable unitOriginLess (u_origins unit)) (u_application unit)
    (sort_stable (on_key b_SymbolID str_ltb) (u_providers unit)).

Definition unitFile (packages : list Package) (configByProvider : gmap string configType) (unit : providerSourceUnit)
    : outcome error (list File) :=
  let unit := sortUnit unit in
  rendered ← renderProviderSourceUnit packages unit configByProvider;
  let '(content, mappings) := rendered in
  Ok [Build_File (u_path unit) 420 (hashContent content) FileRoleSourceUnit (head (u_origins unit)) [] mappings (u_origins unit) content].

Definition renderSourceUnits (packages : list Package) (application : applicationTarget) (providers : list bean)
    (configTypes : list configType) (target : Target) : outcome error (list File) :=
  units ← sourceUnits application providers target;
  gather (λ path, match units !! path with
                  | Some unit => unitFile packages (configurationProviderIndex configTypes) unit
                  | None => Ok []
                  end)
    (sort_strings (map_to_list units).*1).

End render.

(** ** Proofs: positions *)

Lemma has_prefix_trans s p : has_prefix s p = true → s = p +:+ str_drop (String.length p) s.
Proof. intros (t & ->)%has_prefix_spec. by rewrite str_drop_app. Qed.

Lemma cut_found s sep :
  let '(before, after, found) := cut s sep in
  if found : bool then s = before +:+ sep +:+ after else before = s.
Proof.
  induction s as [|c s IH]; cbn [cut].
  - destruct (has_prefix "" sep) eqn:E; [|done]. by apply has_prefix_trans in E.
  - destruct (has_prefix (String c s) sep) eqn:E; [by apply has_prefix_trans in E|].
    destruct (cut s sep) as [[before after] []]; [by rewrite str_cons_app, <- IH|by rewrite IH].
Qed.

Lemma contains_cut s sep : contains s sep = true ↔ ∃ before after, s = before +:+ sep +:+ after.
Proof.
  unfold contains. split.
  - pose proof (cut_found s sep) as Hc. destruct (cut s sep) as [[before after] found]. cbn. intros ->. by exists before, after.
  - intros (before & after & ->). induction before as [|c before IH].
    + rewrite str_nil_app. destruct (sep +:+ after) as [|c s] eqn:E; cbn [cut]; rewrite <- E, has_prefix_app; done.
    + rewrite str_cons_app. cbn [cut]. case_match; [done|]. by destruct (cut _ _) as [[? ?] ?].
Qed.

Lemma LastIndexByte_lower s b : (-1 ≤ LastIndexByte s b)%Z.
Proof. induction s as [|c s IH]; cbn [LastIndexByte]; [done|]. destruct (Z.leb_spec 0 (LastIndexByte s b)); [lia|]. by case_decide. Qed.

Lemma LastIndexByte_line a b :
  contains_byte a newline = false →
  LastIndexByte (a +:+ String newline b) newline = (Z.of_nat (String.length a) + 1 + LastIndexByte b newline)%Z.
Proof.
  pose proof (LastIndexByte_lower b newline). induction a as [|c a IH]; [rewrite str_nil_app|rewrite str_cons_app]; cbn [contains_byte LastIndexByte String.length].
  - intros _. destruct (Z.leb_spec 0 (LastIndexByte b newline)); [lia|]. rewrite decide_True by done. lia.
  - destruct (ascii_dec c newline); [done|]. intros Ha. rewrite IH by done.
    destruct (Z.leb_spec 0 (Z.of_nat (String.length a) + 1 + LastIndexByte b newline)); lia.
Qed.

Lemma LastIndexByte_none s : contains_byte s newline = false → LastIndexByte s newline = (-1)%Z.
Proof.
  induction s as [|c s IH]; [done|]. cbn [contains_byte LastIndexByte]. destruct (ascii_dec c newline) as [|Hne]; [done|]. intros Hs.
  rewrite IH by done. by rewrite decide_False.
Qed.

Lemma split_line a b : contains_byte a newline = false → split_byte newline (a +:+ String newline b) = a :: split_byte newline b.
Proof.
  induction a as [|c a IH]; [rewrite str_nil_app|rewrite str_cons_app]; cbn [contains_byte split_byte].
  - intros _. by destruct (ascii_dec newline newline).
  - destruct (ascii_dec c newline); [done|]. intros Ha. by rewrite IH.
Qed.

Lemma split_one_line a : contains_byte a newline = false → split_byte newline a = [a].
Proof. induction a as [|c a IH]; [done|]. cbn [contains_byte split_byte]. destruct (ascii_dec c newline); [done|]. intros Ha. by rewrite IH. Qed.

(** The lines before the last one, and the last one. *)
Lemma split_last s : ∃ init rest, contains_byte rest newline = false ∧
  count s newline_str = length init ∧ LastIndexByte s newline = (Z.of_nat (String.length s) - Z.of_nat (String.length rest) - 1)%Z ∧
  (String.length rest ≤ String.length s)%nat ∧
  ∀ t, split_byte newline (s +:+ t) = init ++ split_byte newline (rest +:+ t).
Proof.
  unfold count. generalize (Nat.lt_succ_diag_r (String.length s)). generalize (S (String.length s)). intros fuel. revert fuel.
  induction s as [s IH] using (induction_ltof1 _ String.length). intros [|fuel] Hf; [lia|]. unfold ltof in IH. cbn [count_aux].
  destruct (cut s newline_str) as [[a b] found] eqn:E. apply (cut_byte_inv newline s) in E as [Ha E]. destruct found.
  - subst s. rewrite length_str_app in *. cbn [String.length] in *. destruct (IH b) with (fuel := fuel) as (init & rest & Hr & Hc & Hl & Hlen & Hs); [lia..|].
    exists (a :: init), rest. rewrite LastIndexByte_line, Hc, Hl by done. split_and!; [done..|lia|lia|].
    intros t. rewrite str_app_assoc, str_cons_app, split_line, Hs by done. done.
  - subst a. exists [], s. rewrite LastIndexByte_none by done. split_and!; [done..|lia|lia|done].
Qed.

(** The position that a contribution has in the generated text: it is found
    exactly when its name is there, at a line and column, counted from 1, at which
    the name stands. *)
Theorem generatedIdentifierPosition_exact content identifier :
  contains_byte identifier newline = false →
  match generatedIdentifierPosition content identifier with
  | None => contains content identifier = false
  | Some (line, column) =>
      (1 ≤ line)%Z ∧ (1 ≤ column)%Z ∧
      ∃ l, split_byte newline content !! Z.to_nat (line - 1) = Some l ∧
        has_prefix (str_drop (Z.to_nat (column - 1)) l) identifier = true
  end.
Proof.
  intros Hi. unfold generatedIdentifierPosition, contains. pose proof (cut_found content identifier) as Hc.
  destruct (cut content identifier) as [[before after] []]; [|done]. subst content. unfold positionAfter.
  destruct (split_last before) as (init & rest & Hr & -> & -> & Hlen & Hs). split_and!; [lia..|].
  rewrite Hs. replace (Z.to_nat _) with (length init + 0)%nat by lia. rewrite lookup_app_r, Nat.add_sub' by lia.
  replace (Z.to_nat _) with (String.length rest) by lia.
  assert (contains_byte (rest +:+ identifier) newline = false) as Hri by (by rewrite contains_byte_app, Hr, Hi).
  rewrite <- str_app_assoc. destruct (cut after newline_str) as [[a b] found] eqn:E. apply (cut_byte_inv newline after) in E as [Ha E].
  exists (rest +:+ identifier +:+ a). rewrite str_drop_app, has_prefix_app. split; [|done].
  assert (contains_byte ((rest +:+ identifier) +:+ a) newline = false) as Hria by (by rewrite contains_byte_app, Hri, Ha).
  destruct found; subst.
  - by rewrite <- str_app_assoc, split_line, <- str_app_assoc by done.
  - by rewrite split_one_line, str_app_assoc by done.
Qed.

(** ** Proofs: locations *)

Lemma drop_common_app rs names : drop_common rs (rs ++ names) = ([], names).
Proof. induction rs as [|r rs IH]; cbn; [by destruct names|]. by rewrite decide_True. Qed.

Lemma filepath_rel_below rs names :
  Forall good_name (rs ++ names) → names ≠ [] → filepath_rel (rooted rs) (rooted (rs ++ names)) = Some (join names "/").
Proof.
  intros Hall Hne. pose proof Hall as [Hr Hn]%Forall_app. unfold filepath_rel. rewrite !path_clean_rooted by done.
  rewrite decide_False.
  2: { intros He%rooted_inj; [|done..]. rewrite <- (app_nil_r rs) in He at 2. by apply app_inv_head in He. }
  rewrite (decide_False (P := rooted rs = ".")) by done. rewrite !rooted_abs. cbn [Bool.eqb negb].
  rewrite !path_elements_rooted, drop_common_app by done. by rewrite bool_decide_eq_false_2.
Qed.

Lemma path_split_file cs file : Forall good_name (cs ++ [file]) → (path_split (rooted (cs ++ [file]))).2 = file.
Proof.
  intros Hf. unfold path_split. rewrite split_rooted by (try done; by destruct cs). cbn [snd]. by rewrite app_comm_cons, last_snoc.
Qed.

Lemma path_base_file cs file : Forall good_name (cs ++ [file]) → path_base (rooted (cs ++ [file])) = file.
Proof.
  intros Hf. pose proof Hf as [_ Hc]%Forall_app. apply Forall_inv in Hc as (Hc1 & _ & _ & Hc2). unfold path_base.
  rewrite decide_False by done. assert (∃ s, rooted (cs ++ [file]) = s +:+ file) as [s Hs].
  { rewrite rooted_snoc. by eexists. }
  rewrite Hs, drop_leading_slashes_rev, str_rev_involutive, <- Hs by done. rewrite path_split_file by done. by rewrite decide_False.
Qed.

Lemma path_ext_file cs file : Forall good_name (cs ++ [file]) → path_ext (rooted (cs ++ [file])) = path_ext file.
Proof.
  intros Hf. unfold path_ext. rewrite path_split_file by done. pose proof Hf as [_ Hc]%Forall_app.
  pose proof (path_split_snoc [] file ltac:(by cbn)) as Hs. cbn in Hs. by rewrite Hs.
Qed.

(** The directory of a file below a directory, in the tree of generated sources. *)
Definition mirrored (names : list string) : list string :=
  if decide (names = []) then ["_root"] else generatedSegment <$> names.

Lemma generatedSegment_good n : good_name n → good_name (generatedSegment n) ∧ generatedSegment n ∉ ["internal"; "vendor"].
Proof.
  intros Hn. unfold generatedSegment. case_decide as Hd.
  - destruct Hd as [->| ->]; (split; [by split_and!|]); rewrite !not_elem_of_cons; split_and!; try done; apply not_elem_of_nil.
  - split; [done|]. rewrite !not_elem_of_cons. split_and!; [naive_solver..|apply not_elem_of_nil].
Qed.

Lemma mirrored_good names :
  Forall good_name names → Forall good_name (mirrored names) ∧ Forall (λ n, n ∉ ["internal"; "vendor"]) (mirrored names) ∧ mirrored names ≠ [].
Proof.
  intros Hn. unfold mirrored. case_decide as Hd.
  - split_and!; [by repeat constructor|repeat constructor; set_solver|done].
  - split_and!; [| |by destruct names]; apply Forall_fmap, (Forall_impl _ _ _ Hn); intros n Hg; by apply generatedSegment_good.
Qed.

Lemma join_parts out rest : out ≠ [] → rest ≠ [] → join (out ++ rest) "/" = join out "/" +:+ "/" +:+ join rest "/".
Proof.
  intros Ho Hr. induction out as [|o out IH]; [done|]. destruct (decide (out = [])) as [->|Hne].
  - cbn [app]. by rewrite (join_cons_ne o rest).
  - cbn [app]. rewrite (join_cons_ne o out), (join_cons_ne o (out ++ rest)) by (try done; by destruct out). by rewrite !str_app_assoc, IH.
Qed.

Lemma path_join_sources out rest :
  out ≠ [] → rest ≠ [] → Forall good_name out → Forall good_name rest →
  path_join [join out "/"; "sources"; join rest "/"] = join (out ++ "sources" :: rest) "/".
Proof.
  intros Ho Hr Hog Hrg. unfold path_join. rewrite !filter_cons_True, filter_nil by (try done; by intros ?%join_empty).
  cbn [join]. rewrite <- (path_clean_join (out ++ "sources" :: rest)); [|by destruct out|].
  - f_equal. rewrite join_parts by done. by rewrite (join_cons_ne "sources" rest).
  - apply Forall_app. split; [done|]. by constructor; [split_and!|].
Qed.

Lemma generatedSourceDirectory_mirrored names :
  Forall good_name names →
  generatedSourceDirectory (if decide ((if decide (names = []) then "." else join names "/") = ".") then "_root"
    else if decide (names = []) then "." else join names "/") = join (mirrored names) "/".
Proof.
  intros Hn. destruct (mirrored_good names Hn) as (Hm & _ & Hne). unfold generatedSourceDirectory.
  destruct (decide (names = [])) as [->|Hnames]; [by vm_compute|]. rewrite decide_False.
  - rewrite split_join_good by done. unfold mirrored in *. rewrite decide_False in * by done. by apply path_join_names.
  - intros He. apply (f_equal (split_byte slash)) in He. rewrite split_join_good in He by done. subst names.
    by apply Forall_inv in Hn as (_ & ? & _).
Qed.

Lemma base_good file suffix : good_name file → contains_byte suffix slash = false → (3 ≤ String.length suffix)%nat →
  good_name (trim_suffix file (path_ext file) +:+ suffix).
Proof.
  intros (_ & _ & _ & Hf) Hs Hl. split_and!; [intros He%(f_equal String.length); rewrite length_str_app in He; simpl in He; lia..|].
  rewrite contains_byte_app, Hs, orb_false_r. unfold trim_suffix. case_match; [|done].
  rewrite <- (str_take_drop (String.length file - String.length (path_ext file)) file), contains_byte_app in Hf.
  by apply orb_false_iff in Hf as [? _].
Qed.

Section locations.
Context `{UnicodeTables}.

(** Where the contribution of a handwritten file goes. A file of the module has
    its unit below the output directory in the tree of sources, under the
    directories of the file, where those that Go treats as private are renamed, so
    that the generated package may import it; the file itself keeps its base name.
    The unit is in the area that guarded generation lets the target write, and the
    origin is the path of the file in the module with the position of the
    contribution. *)
Theorem sourceUnitLocation_mirrors rs names file out item target :
  Forall good_name (rs ++ names ++ [file]) → Forall good_name out → out ≠ [] →
  t_ModuleRoot target = rooted rs → t_OutputDir target = join out "/" →
  sourceFileOf (b_PhysicalPosition item) (b_Position item) = rooted (rs ++ names ++ [file]) →
  let base := trim_suffix file (path_ext file) in
  base ≠ "" →
  ∃ path, path = join (out ++ ["sources"] ++ mirrored names ++ [base +:+ "_spice_gen.go"]) "/" ∧
    sourceUnitLocation item target = Ok (path, "spicegen",
      originOf (join (names ++ [file]) "/") (b_SymbolID item) (b_PhysicalPosition item) (b_Position item)) ∧
    Forall (λ n, n ∉ ["internal"; "vendor"]) (mirrored names) ∧
    withinTargetOutput target path FileRoleSourceUnit = true.
Proof.
  intros Hall Hout Hne Hroot Hdir Hfile base Hbase. eexists. split; [done|].
  pose proof Hall as [Hr Hnf]%Forall_app. pose proof Hnf as [Hn Hf]%Forall_app.
  destruct (mirrored_good names Hn) as (Hm & Hprivate & Hmne).
  unfold sourceUnitLocation, sourceUnitLocationAt. rewrite Hfile, Hroot, Hdir. rewrite decide_False by done.
  unfold moduleRelative. rewrite filepath_rel_below by (try done; by destruct names).
  rewrite good_is_local by (try done; by destruct names). rewrite path_dir_snoc, generatedSourceDirectory_mirrored, path_join_sources by done.
  rewrite app_assoc in Hall |- *. rewrite path_base_file, path_ext_file by done. fold base. rewrite decide_False by done.
  assert (Forall good_name ((out ++ "sources" :: mirrored names) ++ [base +:+ "_spice_gen.go"])) as Hgood.
  { rewrite <- app_assoc. apply Forall_app. split; [done|]. constructor; [by split_and!|]. apply Forall_app. split; [done|].
    constructor; [|done]. apply Forall_inv in Hf. apply base_good; [done..|simpl; lia]. }
  rewrite path_join_snoc by done. rewrite <- app_assoc. split_and!; [done|done|].
  unfold withinTargetOutput. rewrite Hdir. cbn [app]. rewrite join_parts by done.
  assert (∀ x, join out "/" +:+ "/" +:+ x ≠ join out "/") as Hlong.
  { intros x He%(f_equal String.length). rewrite !length_str_app in He. simpl in He. lia. }
  destruct (_ && _); [done|]. rewrite (bool_decide_eq_false_2 _ (Hlong _)), <- str_app_assoc, has_prefix_app. done.
Qed.
End locations.

(** ** Proofs: the units of an application *)

Section units.
Context `{UnicodeTables} `{GoPrinter}.

Lemma location_package sourceFile packagePath symbolID physical position target path package origin :
  sourceUnitLocationAt sourceFile packagePath symbolID physical position target = Ok (path, package, origin) →
  package = "spicegen" ∧ o_Symbol origin = symbolID.
Proof. unfold sourceUnitLocationAt. intros Hl. repeat case_match; simplify_eq/=; done. Qed.

(** The providers that go to the unit of a path. *)
Definition located (target : Target) (item : bean) : option (string * SourceOrigin) :=
  match sourceUnitLocation item target with Ok (path, _, origin) => Some (path, origin) | Fail _ => None end.
Definition unitProviders (target : Target) (path : string) (providers : list bean) : list bean :=
  filter (λ item, sourceUnitProvider item = true ∧ fst <$> located target item = Some path) providers.

(** What the unit of a path holds. *)
Definition unit_holds (target : Target) (providers : list bean) (application : option (applicationUnit * SourceOrigin))
    (path : string) (unit : providerSourceUnit) : Prop :=
  u_path unit = path ∧ u_packageName unit = "spicegen" ∧ u_application unit = fst <$> application ∧
  u_providers unit = unitProviders target path providers ∧ NoDup (u_origins unit) ∧
  ∀ origin, origin ∈ u_origins unit ↔
    snd <$> application = Some origin ∨ ∃ item, item ∈ u_providers unit ∧ snd <$> located target item = Some origin.

(** The units that hold the providers and an application at a path. *)
Definition units_hold (target : Target) (providers : list bean) (applicationPath : string) (application : applicationUnit * SourceOrigin)
    (units : gmap string providerSourceUnit) : Prop :=
  (∀ path, is_Some (units !! path) ↔ path = applicationPath ∨ unitProviders target path providers ≠ []) ∧
  ∀ path unit, units !! path = Some unit →
    unit_holds target providers (if decide (path = applicationPath) then Some application else None) path unit.

Lemma unitProviders_snoc target path providers item :
  unitProviders target path (providers ++ [item]) =
  unitProviders target path providers ++
    (if decide (sourceUnitProvider item = true ∧ fst <$> located target item = Some path) then [item] else []).
Proof. unfold unitProviders. rewrite filter_app, filter_cons, filter_nil. done. Qed.

Lemma elem_of_add (origin o : SourceOrigin) (origins : list SourceOrigin) :
  o ∈ (if decide (origin ∈ origins) then origins else origins ++ [origin]) ↔ o ∈ origins ∨ o = origin.
Proof.
  rewrite <- list_elem_of_singleton. case_decide as Hd; [|apply elem_of_app].
  split; [by left|]. by intros [?| ->%list_elem_of_singleton].
Qed.

Lemma addToUnit_ok target providers applicationPath application units item :
  units_hold target providers applicationPath application units →
  match addToUnit target units item with
  | Ok units' => units_hold target (providers ++ [item]) applicationPath application units'
  | Fail _ => sourceUnitProvider item = true ∧ located target item = None
  end.
Proof.
  intros [Hdom Hu]. unfold addToUnit. destruct (sourceUnitProvider item) eqn:Hs; cbn [negb].
  2: { split; [intros path|intros path unit Hp; specialize (Hu path unit Hp)].
       - rewrite unitProviders_snoc, decide_False, app_nil_r by (intros [Ht Hx]; congruence). apply Hdom.
       - unfold unit_holds in *. rewrite unitProviders_snoc, (decide_False (P := sourceUnitProvider item = true ∧ _)), app_nil_r by (intros [Ht Hx]; congruence). done. }
  unfold located at 1. destruct (sourceUnitLocation item target) as [[[path package] origin]|err] eqn:Hl; [|done].
  pose proof (location_package _ _ _ _ _ _ _ _ _ Hl) as [-> Ho]. cbn [mbind outcome_bind].
  assert (located target item = Some (path, origin)) as Hloc by (unfold located; by rewrite Hl).
  set (unit := default (mkUnit path "spicegen" [] None []) (units !! path)).
  assert (unit_holds target providers (if decide (path = applicationPath) then Some application else None) path unit) as Hunit.
  { unfold unit. destruct (units !! path) as [u|] eqn:Eu; [by apply Hu|]. cbn [default].
    assert (path ≠ applicationPath ∧ unitProviders target path providers = []) as [Hne Hnil].
    { specialize (Hdom path). rewrite Eu in Hdom. split; [intros ->|apply dec_stable; intros Hx];
        [assert (is_Some (None : option providerSourceUnit)) as [] by (apply Hdom; by left); done|
         assert (is_Some (None : option providerSourceUnit)) as [] by (apply Hdom; by right); done]. }
    rewrite decide_False by done. unfold unit_holds. cbn. rewrite Hnil. split_and!; [done..|constructor|].
    intros o. split; [by intros ?%not_elem_of_nil|]. intros [?|(i & ?%not_elem_of_nil & _)]; done. }
  clearbody unit. destruct Hunit as (Hp & Hk & Ha & Hpr & Hnd & Hor). rewrite Hk, bool_decide_eq_true_2 by done. cbn [guard_or mbind outcome_bind].
  assert (∀ path', unitProviders target path' (providers ++ [item]) =
    unitProviders target path' providers ++ if decide (path' = path) then [item] else []) as Hsnoc.
  { intros path'. rewrite unitProviders_snoc, Hloc. f_equal. cbn. destruct (decide (path' = path)) as [->|Hne]; [by rewrite decide_True|].
    rewrite decide_False; [done|]. intros [_ [= ?]]. congruence. }
  split.
  - intros path'. rewrite Hsnoc. destruct (decide (path' = path)) as [->|Hne].
    + rewrite lookup_insert_eq. split; [intros _; right; by destruct (unitProviders target path providers)|by eexists].
    + rewrite lookup_insert_ne, app_nil_r by done. apply Hdom.
  - intros path' u [[<- <-]|[Hne Hpu]]%lookup_insert_Some.
    + unfold unit_holds. cbn. rewrite Hsnoc, (decide_True (P := path = path)), Hpr by done. split_and!; [exact Hp|done|exact Ha|done| |].
      * destruct (decide (origin ∈ u_origins unit)); [exact Hnd|]. apply NoDup_app. split_and!; [done|intros o Ho' ->%list_elem_of_singleton; done|by apply NoDup_singleton].
      * intros o. assert (o ∈ (if decide (origin ∈ u_origins unit) then u_origins unit else u_origins unit ++ [origin]) ↔
          o ∈ u_origins unit ∨ o = origin) as -> by apply elem_of_add.
        rewrite Hor, Hpr. setoid_rewrite elem_of_app. setoid_rewrite list_elem_of_singleton. split.
        -- intros [[?|(i & ? & ?)]| ->]; [by left|right; exists i; split; [by left|done]|right; exists item; split; [by right|by rewrite Hloc]].
        -- intros [?|(i & [?| ->] & Hi)]; [by left; left|left; right; by exists i|right; rewrite Hloc in Hi; by injection Hi].
    + unfold unit_holds. rewrite Hsnoc, (decide_False (P := path' = path)), app_nil_r by done. by apply Hu.
Qed.

Lemma unitsLoop_ok target applicationPath application rest providers units :
  units_hold target providers applicationPath application units →
  match unitsLoop target rest units with
  | Ok units' => units_hold target (providers ++ rest) applicationPath application units'
  | Fail _ => ∃ item, item ∈ rest ∧ sourceUnitProvider item = true ∧ located target item = None
  end.
Proof.
  revert providers units. induction rest as [|item rest IH]; intros providers units Hu; cbn [unitsLoop]; [by rewrite app_nil_r|].
  pose proof (addToUnit_ok target providers applicationPath application units item Hu) as Hi.
  destruct (addToUnit target units item) as [units'|err]; cbn [mbind outcome_bind].
  - specialize (IH _ _ Hi). rewrite <- app_assoc in IH. destruct (unitsLoop target rest units'); [done|].
    destruct IH as (i & Hin & ?). exists i. split; [by right|done].
  - exists item. split; [by left|done].
Qed.

(** The source units of an application. When every contribution has a location,
    there is a unit for the application and one for each file that contributes;
    the unit of a path holds exactly the providers that go there, in their order, and
    the application if it goes there, with the origins of these and no other, each
    once. Otherwise the application or a provider has no location: units of
    different packages are never combined. *)
Theorem sourceUnits_exact application providers target :
  match sourceUnits application providers target with
  | Ok units =>
      ∃ path origin, applicationSourceUnitLocation application target = Ok (path, "spicegen", origin) ∧
        units_hold target providers path (mkApplicationUnit application (t_ID target), origin) units
  | Fail err =>
      applicationSourceUnitLocation application target = Fail err ∨
      ∃ item, item ∈ providers ∧ sourceUnitProvider item = true ∧ located target item = None
  end.
Proof.
  unfold sourceUnits. destruct (applicationSourceUnitLocation application target) as [[[path package] origin]|err] eqn:Hl; [|by left].
  pose proof (location_package _ _ _ _ _ _ _ _ _ Hl) as [-> _]. cbn [mbind outcome_bind].
  set (units0 := {[path := _]}).
  assert (units_hold target [] path (mkApplicationUnit application (t_ID target), origin) units0) as H0'.
  { split.
    - intros p. unfold units0. destruct (decide (p = path)) as [->|Hne]; [rewrite lookup_singleton_eq; naive_solver|].
      rewrite lookup_singleton_ne by done. split; [by intros []|]. intros [?|?]; done.
    - intros p u Hp. apply lookup_singleton_Some in Hp as [<- <-]. rewrite decide_True by done. unfold unit_holds. cbn.
      split_and!; try done; [by apply NoDup_singleton|]. intros o. rewrite list_elem_of_singleton. split; [intros ->; by left|].
      intros [[= ->]|(i & ?%not_elem_of_nil & _)]; done. }
  apply (unitsLoop_ok target path _ providers) in H0'. destruct (unitsLoop target providers units0); [by exists path, origin|by right].
Qed.
End units.

(** ** Two applications that are not generated *)

(** Types as package and name, and texts that are formatted already. *)
Definition plain_printer : GoPrinter := {|
  type_string := λ qualifier value,
    match value with
    | TNamed (Some object) _ _ => qualifier (tn_Pkg object) +:+ "." +:+ tn_Name object
    | _ => "any"
    end;
  format_source := Ok |}.

Definition at_file (file : string) : Provider.Position := Provider.mkPosition file 24 3 6.
Definition unit_target : Target := {|
  t_ID := "app"; t_Layout := LayoutGeneratedPackage; t_ModulePath := "m"; t_ModuleRoot := "/m";
  t_PackagePath := "m/internal/spicegen/app"; t_EntrypointPackagePath := ""; t_OutputDir := "internal/spicegen/app";
  t_BridgeDir := ""; t_ManifestPath := ".spice/app.manifest.json" |}.
Definition unit_application : applicationTarget :=
  mkApplication "m.App" "App" "m" (at_file "/m/app.go") (at_file "/m/app.go") true.
Definition unit_bean (source package name file : string) : bean :=
  mkBean source ConstructionFactory (mkSymbol "function" name package) (mkSymbol "function" name package)
    (package +:+ "." +:+ name) name false Provider.BeanScopeSingleton package (at_file file) (at_file file)
    (TNamed (Some (mkTypeName name (Some (package, path_base package)))) [] true) (package +:+ "." +:+ name) [] [] false false.

Definition renderedUnits (providers : list bean) (types : list configType) : outcome error (list File) :=
  @renderSourceUnits ascii_tables plain_printer [mkPackage "m" "main" "/m" (Some (mkModule "m" "/m"))]
    unit_application providers types unit_target.

(** A configuration type whose name starts with New: its binder has the name of the
    type, but it is looked for under the name of a constructor, without New. *)
Definition settings (name : string) : outcome error (list File) :=
  renderedUnits [unit_bean Provider.SourceConfiguration "m" name "/m/config.go"]
    [mkConfigType ("m." +:+ name) name (TNamed (Some (mkTypeName name (Some ("m", "m")))) [] true) ("m." +:+ name) []].

Example settings_rendered : match settings "Settings" with Ok files => length files = 2%nat | Fail _ => False end.
Proof. vm_compute. reflexivity. Qed.

Example news_settings_not_rendered :
  match settings "NewsSettings" with
  | Fail (ErrNew message) => has_prefix message "provider constructor adapter BindSSettings_" = true
  | _ => False
  end.
Proof. vm_compute. reflexivity. Qed.

(** The directory that stands for a private one may exist: the two files then have
    one unit, and guarded generation refuses its mappings. *)
Example private_directories_collide :
  match renderedUnits [unit_bean Provider.SourceBean "m/internal" "NewClock" "/m/internal/a.go";
                  unit_bean Provider.SourceBean "m/internal_" "NewStore" "/m/internal_/a.go"] [] with
  | Ok files =>
      f_Path <$> files = ["internal/spicegen/app/sources/_root/app_spice_gen.go";
                          "internal/spicegen/app/sources/internal_/a_spice_gen.go"] ∧
      is_ok ∘ @validateFileOwnership ascii_tables <$> files = [true; false]
  | Fail _ => False
  end.
Proof. vm_compute. done. Qed.

(** ** Witnesses *)

Lemma generatedIdentifierPosition_exact_witness :
  let content := text ["package a"; nl; tab; "func Bind()"; nl] in
  generatedIdentifierPosition content "Bind" = Some (2, 7)%Z ∧
  ∃ l, split_byte newline content !! 1%nat = Some l ∧ has_prefix (str_drop 6 l) "Bind" = true.
Proof.
  intros content. split; [vm_compute; reflexivity|].
  exact (proj2 (proj2 (generatedIdentifierPosition_exact content "Bind" ltac:(vm_compute; reflexivity)))).
Defined.

Lemma sourceUnitLocation_mirrors_witness :
  let item := unit_bean Provider.SourceBean "m/internal/clock" "NewClock" "/m/internal/clock/a.go" in
  ∃ origin, sourceUnitLocation item unit_target =
    Ok ("internal/spicegen/app/sources/internal_/clock/a_spice_gen.go", "spicegen", origin).
Proof.
  intros item.
  destruct (sourceUnitLocation_mirrors ["m"] ["internal"; "clock"] "a.go" ["internal"; "spicegen"; "app"]
    item unit_target) as (path & Hp & Hl & _);
    [repeat constructor; vm_compute; congruence..|done|reflexivity|reflexivity|reflexivity|vm_compute; congruence|].
  eexists. rewrite Hl, Hp. reflexivity.
Defined.
